(* ===== verification/_CoqProject ===== *)
-Q . S2P
Prelude.v
Text.v
SequenceBuffer.v
BitQueue.v
CountrySerde.v
CountryFinder.v
CryptDE.v
Wallet.v
ServiceReceipt.v
ReceiptSettlement.v
BigInt.v
Route.v
Eip712.v
ReceiptSession.v
SessionLimit.v
NodeRecord.v
NeighborhoodDb.v
ExitPreferences.v
Gossip.v
GossipAcceptor.v
GossipInvariant.v
GossipSafety.v
RouteFinder.v
RouteQuery.v
VersionedData.v
Migrations.v
CoresPackage.v
ConnectionStatus.v
NeighborhoodActor.v
NeighborhoodRun.v
ReceiptDao.v
ReceiptBooks.v
Hopper.v
HopperDelivery.v
HopperReceipts.v
Recovery.v
RecoveryRun.v
AckOutbox.v
StreamTables.v
ProtocolPack.v
ProtocolHosts.v
Framers.v
HttpFramer.v
HttpFraming.v
Hostname.v
ProxyServer.v
ProxyStreams.v
ProxyRun.v
ProxyLedger.v
ProxyResponses.v
ProxyRequests.v
ProxySamples.v
StreamReader.v
StreamSafety.v
StreamDelivery.v
StreamWriters.v
StreamPool.v
StreamPoolRun.v
StreamLink.v
StreamSamples.v
