(* ===== verification/Prelude.v ===== *)
(** * MASQ Mobile: a verification library for the Rust core

    The repository is a mobile build of the MASQ node: a peer in a network that
    carries the traffic of browsers over other nodes, pays them for it, and is
    paid for what it carries itself.  The core is Rust, under
    [masq-node-mobile/]; the applications under [masq-mobile/] start it.

    ** The parts and how they meet

    A browser's connection is read by a stream reader ([stream_reader.rs]), whose
    framers find the requests and TLS records in its bytes, and the Dispatcher
    hands them to the ProxyServer ([proxy_server/mod.rs]).  It finds the
    host a request is for (the protocol packs), asks the Neighborhood
    ([neighborhood/]) for a route to an exit node and back, and gives the sealed
    request to the Hopper ([hopper/]), which sends it along the route; each
    node peels one hop.  Between nodes packages travel masked as JSON, which the
    readers find and unmask again.  The exit's answer comes back the same way and the
    ProxyServer hands it to the browser.  The Neighborhood learns of other nodes
    from Gossip, keeps them in its database, and finds routes in it; a table of
    countries says where an exit is.  Every node on the way is paid.  Besides the
    older debts in wei, kept by the Accountant as split integers, there are
    bilateral service receipts: the consumer's wallet signs a session with a
    limit, each provider offers signed, cumulative receipts for what it served,
    the consumer's session checks and acknowledges them, and a provider keeps
    acknowledged receipts and settles them in batches with a Merkle root.

    ** How the code is modelled

    Rust's [Result] is [result], a panic is [Panic] of [exec] (an explicit panic,
    a failed [expect], an index out of range, checked arithmetic); integers are
    [Z] with their width written out ([in_u], [wrap_u], [checked_add] below).
    An actor is a record of its fields; a handler is a function in a small state
    monad that changes the record, collects the messages it sends and may panic
    ([act] of NeighborhoodActor, [M] of ReceiptSession, [ps] of ProxyServer); a
    future that waits for another actor is a message of its own, so that any
    interleaving is a list of messages.  Tables of SQLite are maps by their
    primary key.  Hash maps whose order matters are maps with an arbitrary order
    of iteration.

    Crates and services are parameters: [CryptDE] (keys of nodes) and [Sodium]
    (libsodium), [Ethsign] (keccak and ECDSA), the encodings of [serde_cbor]
    ([Cbor], [HopCbor], [PackageCbor], [PayloadCbor], [SettlementCbor],
    [InnerCbor], [RecoveryCbor], [AckCbor], [ValueReader]), the order of hash
    sets ([HashOrder], [VersionOrder]), random choice ([Choose]), the crates that
    keys of sessions are made and kept with ([SessionKeys], [Base64]), the store
    of a session ([RecoveryStore]), regular
    expressions and method names of HTTP ([HttpCrates]), [serde_json] and its
    [base64] ([JsonCrate]), SHA-1 and the salt of stream keys, the clock and the
    channel of a reader ([ReaderEnv]), and for a pool which writers still
    listen.  What is relied on is stated as classes of laws or as
    hypotheses of the theorems, and every theorem with hypotheses is applied to
    concrete instances.

    ** The files

    - Prelude: results, panics, machine integers, bytes; Text: strings, decimal
      and hexadecimal numbers.
    - SequenceBuffer ([sub_lib/sequence_buffer.rs]): packets put back in order;
      it refines a map by sequence number.
    - BitQueue, CountrySerde, CountryFinder ([ip_country/]): the packed table of
      countries; the queue refines a number with a length, what is packed is
      unpacked, and a lookup finds the block of an address.
    - CryptDE, Wallet ([sub_lib/cryptde*.rs], [wallet.rs], [blockchain/payer.rs]):
      both implementations of the keys of nodes, with the texts that keys are
      kept as.  The one on libsodium panics when a signature is checked under a
      key that is not 64 bytes long, so theorems that exclude a panic say whose
      keys have that length.
    - ServiceReceipt, Eip712, ReceiptSettlement ([sub_lib/service_receipt.rs],
      [receipt_settlement.rs]): receipts, authorizations, their typed data, and
      batches; receipts advance in order and within the authorized limit, totals
      and roots are exact and binding.
    - BigInt ([accountant/db_big_integer/]): wei as two columns.
    - Route, CoresPackage, Hopper, HopperDelivery, HopperReceipts ([sub_lib/route.rs],
      [hop.rs], [hopper/]): routes, packages, the two services of the Hopper, and
      the delivery of a request and its response over any chain of willing
      nodes.
    - ReceiptSession, SessionLimit ([proxy_server/receipt_session.rs]): the
      consumer's sessions, whose keys are drawn and read back as the code does
      it; any calls return and stay within the signed limit.
      Recovery, RecoveryRun ([receipt_session_recovery.rs]): the encrypted store,
      and the same over restarts; a session comes back if no provider was quoted
      twice in one direction of a route.
    - ReceiptDao, ReceiptBooks ([receipt_checkpoint_dao.rs]): the provider's books,
      balanced against the receipts that were accepted, by authorization, payer
      and stream; AckOutbox ([receipt_acknowledgement_outbox_dao.rs]).
    - NodeRecord, NeighborhoodDb, ExitPreferences, Gossip, GossipAcceptor,
      GossipInvariant, GossipSafety ([neighborhood/]): the database, what is told
      to others and what is believed; records stay authentic (until the public
      address changes, after which the root is not signed again), messages are
      handled to the end, and passes do not loop.
    - RouteFinder, RouteQuery: the search of routes, exact against all routes, and
      the answers to the ProxyServer.
    - VersionedData, Migrations ([sub_lib/versioned_data.rs], [migrations/]).
    - ConnectionStatus, NeighborhoodActor, NeighborhoodRun ([neighborhood/mod.rs],
      [overall_connection_status.rs]): the actor, over any history of messages.
    - StreamTables ([sub_lib/bidi_hashmap.rs] and the replay window),
      ProtocolPack, ProtocolHosts ([protocol_pack.rs], [tls_protocol_pack.rs],
      [http_protocol_pack.rs], [server_impersonator_*.rs], [binary_traverser.rs]),
      Hostname: the tables, the bytes and the names the ProxyServer works with.
    - Framers ([json_framer.rs], [sub_lib/tls_framer.rs], [json_masquerader.rs],
      [null_masquerader.rs]): JSON objects and TLS records in a stream, and the
      masks of packages; the JSON framer is bounded.  HttpFramer
      ([sub_lib/http_packet_framer.rs], [framer_utils.rs],
      [http_request_start_finder.rs]): requests, bodies and chunks; it never
      panics.  HttpFraming: what well-formed requests become in any pieces.
    - ProxyServer ([proxy_server/mod.rs], [client_request_payload_factory.rs],
      [sub_lib/stream_key.rs]): every handler of the actor.  ProxyStreams: the
      invariant of its tables, kept by every handler; ProxyRun: it survives any
      history; ProxyLedger: what it acknowledges stays within the limit;
      ProxyResponses and ProxyRequests: what becomes of a response and of the
      packets that wait for a route; ProxySamples: one browser, one route and
      one session on which these are applied.
    - StreamReader ([discriminator.rs], the discriminator factories,
      [stream_reader.rs], [sub_lib/sequencer.rs] and the table of ports of
      [node_configurator_standard.rs]): the reader of a connection, a function
      from what its socket yields to the messages it sends.  StreamSafety: it
      survives any bytes, and feeds the ProxyServer what ProxyRun expects;
      StreamDelivery: requests, masked packages and tunnels arrive whole and in
      order.
    - StreamWriters ([stream_writer_sorted.rs], [stream_writer_unsorted.rs]): the
      writers of connections; a browser gets its response in order and whole, as
      long as it never lags by more than 4096 packets, and what happens when it
      does.  StreamPool ([stream_handler_pool.rs],
      [dispatcher.rs]): the pool of streams and the Dispatcher.  StreamPoolRun:
      the pool with its timers, questions and connection attempts in any order;
      every message is accounted for and goes to the peer it is meant for.  StreamLink: from the pool of one node
      through masks, writers and readers to the Dispatcher of another.
      StreamSamples: connections on which these are applied.

    ** Bounds and fuel

    Loops that are not structural carry fuel, with a lemma that it is enough: the
    routing engine ([enough_fuel] from the sizes of the database), chains of
    migrations (the number of versions), binary search (the length of the table),
    the Merkle tree and the country blocks (the number of leaves and of bits),
    decimal digits (40, more than any 128 bits), the replay window (the numbers
    seen, and one), the lists of a TLS hello (its bytes, and one), the loops of
    the framers (the bytes they hold, and one; the steps of a chunk, four), the
    loop of a reader over its chunks (the bytes its framer holds, and one).
    Histories of RecoveryRun have fewer than 2^64 - 1 calls, since the store counts
    nonces in 64 bits, and a connection carries fewer than 2^64 - 2 bytes, since
    its messages are numbered in 64 bits.

    ** Not modelled

    Errors of SQLite and of the store of sessions, so a statement that the
    database refuses does not occur; arithmetic in release builds, where an
    overflow wraps instead of panicking; logging; failures to send to another actor of the node; threads, sockets and
    futures themselves (what a socket yields or takes and when a future is polled
    are inputs of the models of readers, writers and the pool), listeners, the
    ProxyClient, entry DNS and automap; SQL text; the
    Accountant's scanners and tables of payables and receivables; the blockchain
    bridge and the program that submits settlement batches; configuration beyond
    the table of ports, command lines and user interfaces; the applications in
    Kotlin, Objective-C and TypeScript.  The finder of the starts of HTTP
    responses is left out because only tests use it.  What would come next is the
    ProxyClient's table of streams and the scans of the Accountant, both of which
    need a model of the futures and the SQL around them first. *)

From stdpp Require Import base list numbers option.
From Stdlib Require Import ZArith Lia.

Local Open Scope Z_scope.

(** ** Fallible and panicking code

    [result A E] is Rust's [Result<A, E>]; [exec A] is a computation that may
    panic (an explicit [panic!], a failed [expect], an index out of range or an
    arithmetic overflow in a checked build). *)

Inductive result (A E : Type) : Type :=
| Ok (a : A)
| Err (e : E).
Arguments Ok {A E} _.
Arguments Err {A E} _.

Inductive exec (A : Type) : Type :=
| Ret (a : A)
| Panic.
Arguments Ret {A} _.
Arguments Panic {A}.

Definition exec_bind {A B} (c : exec A) (k : A → exec B) : exec B :=
  match c with Ret a => k a | Panic => Panic end.

Definition result_bind {A B E} (c : result A E) (k : A → result B E) : result B E :=
  match c with Ok a => k a | Err e => Err e end.

Definition expect {A} (o : option A) : exec A :=
  match o with Some a => Ret a | None => Panic end.

Definition ok_or {A E} (o : option A) (e : E) : result A E :=
  match o with Some a => Ok a | None => Err e end.

Declare Scope rust_scope.
Delimit Scope rust_scope with rust.

Notation "'let*' x := c 'in' k" := (exec_bind c (fun x => k))
  (at level 10, x pattern, c at level 200, k at level 200) : rust_scope.
Notation "'let?' x := c 'in' k" := (result_bind c (fun x => k))
  (at level 10, x pattern, c at level 200, k at level 200) : rust_scope.

Definition is_ok {A E} (r : result A E) : bool :=
  match r with Ok _ => true | Err _ => false end.

Lemma exec_bind_Ret {A B} (c : exec A) (k : A → exec B) b :
  exec_bind c k = Ret b ↔ ∃ a, c = Ret a ∧ k a = Ret b.
Proof. destruct c; simpl; naive_solver. Qed.

Lemma result_bind_Ok {A B E} (c : result A E) (k : A → result B E) b :
  result_bind c k = Ok b ↔ ∃ a, c = Ok a ∧ k a = Ok b.
Proof. destruct c; simpl; naive_solver. Qed.

(** A fallible computation that may also panic: [Result] inside [exec]. *)
Abbreviation fallible A E := (exec (result A E)).

Definition try_bind {A B E} (c : fallible A E) (k : A → fallible B E) : fallible B E :=
  match c with
  | Ret (Ok a) => k a
  | Ret (Err e) => Ret (Err e)
  | Panic => Panic
  end.

Notation "'let!' x := c 'in' k" := (try_bind c (fun x => k))
  (at level 10, x pattern, c at level 200, k at level 200) : rust_scope.

Definition map_err {A E F} (f : E → F) (r : result A E) : result A F :=
  match r with Ok a => Ok a | Err e => Err (f e) end.

Definition map_err_fallible {A E F} (f : E → F) (c : fallible A E) : fallible A F :=
  match c with Ret r => Ret (map_err f r) | Panic => Panic end.

Lemma try_bind_Ok {A B E} (c : fallible A E) (k : A → fallible B E) b :
  try_bind c k = Ret (Ok b) ↔ ∃ a, c = Ret (Ok a) ∧ k a = Ret (Ok b).
Proof. destruct c as [[]|]; simpl; naive_solver. Qed.

Lemma try_bind_Panic {A B E} (c : fallible A E) (k : A → fallible B E) :
  try_bind c k = Panic ↔ c = Panic ∨ ∃ a, c = Ret (Ok a) ∧ k a = Panic.
Proof. destruct c as [[]|]; simpl; naive_solver. Qed.

Lemma map_err_Ok {A E F} (f : E → F) (r : result A E) a :
  map_err f r = Ok a ↔ r = Ok a.
Proof. destruct r; simpl; naive_solver. Qed.

Lemma map_err_fallible_Ok {A E F} (f : E → F) (c : fallible A E) a :
  map_err_fallible f c = Ret (Ok a) ↔ c = Ret (Ok a).
Proof. destruct c as [[]|]; simpl; naive_solver. Qed.

Lemma map_err_fallible_Panic {A E F} (f : E → F) (c : fallible A E) :
  map_err_fallible f c = Panic ↔ c = Panic.
Proof. destruct c as [[]|]; simpl; naive_solver. Qed.

Lemma Ret_inj {A} (a b : A) : Ret a = Ret b → a = b.
Proof. by intros [= ->]. Qed.
Lemma Ok_inj {A E} (a b : A) : @Ok A E a = Ok b → a = b.
Proof. by intros [= ->]. Qed.

(** *** Automation for code in these monads

    [rust_inv H] takes a run that ended well apart: every bind of [H] yields
    the intermediate value and its equation, every early return that was not
    taken yields the negation of its guard. *)

Ltac rust_inv_step H :=
  let split_bind lem :=
    apply lem in H;
    let a := fresh "a" in let H1 := fresh "Hrun" in
    destruct H as (a & H1 & H); try rust_inv_step H1 in
  match type of H with
  | try_bind _ _ = Ret (Ok _) => split_bind @try_bind_Ok
  | result_bind _ _ = Ok _ => split_bind @result_bind_Ok
  | exec_bind _ _ = Ret _ => split_bind @exec_bind_Ret
  | (if ?b then Err _ else _) = Ok _ =>
      let Hg := fresh "Hguard" in destruct b eqn:Hg; [discriminate H|]
  | (if ?b then Ret (Err _) else _) = Ret (Ok _) =>
      let Hg := fresh "Hguard" in destruct b eqn:Hg; [discriminate H|]
  | (if ?b then None else _) = Some _ =>
      let Hg := fresh "Hguard" in destruct b eqn:Hg; [discriminate H|]
  | Ret _ = Ret _ => apply Ret_inj in H
  | Ok _ = Ok _ => apply Ok_inj in H
  end.

Ltac rust_inv H := cbv zeta in H; repeat rust_inv_step H.

(** Boolean guards as propositions, for [lia] and [simplify_eq]. *)
Ltac guards :=
  repeat match goal with
  | H : _ || _ = false |- _ => apply orb_false_iff in H as [? ?]
  | H : _ && _ = true |- _ => apply andb_true_iff in H as [? ?]
  | H : negb _ = false |- _ => apply negb_false_iff in H
  | H : negb _ = true |- _ => apply negb_true_iff in H
  | H : bool_decide _ = true |- _ => apply bool_decide_eq_true in H
  | H : bool_decide _ = false |- _ => apply bool_decide_eq_false in H
  | H : (_ =? _) = true |- _ => apply Z.eqb_eq in H
  | H : (_ =? _) = false |- _ => apply Z.eqb_neq in H
  | H : (_ <? _) = true |- _ => apply Z.ltb_lt in H
  | H : (_ <? _) = false |- _ => apply Z.ltb_ge in H
  | H : (_ <=? _) = true |- _ => apply Z.leb_le in H
  | H : (_ <=? _) = false |- _ => apply Z.leb_gt in H
  | H : (_ <? _)%nat = true |- _ => apply Nat.ltb_lt in H
  | H : (_ <? _)%nat = false |- _ => apply Nat.ltb_ge in H
  | H : (_ <=? _)%nat = true |- _ => apply Nat.leb_le in H
  | H : (_ <=? _)%nat = false |- _ => apply Nat.leb_gt in H
  | H : (_ =? _)%nat = true |- _ => apply Nat.eqb_eq in H
  | H : (_ =? _)%nat = false |- _ => apply Nat.eqb_neq in H
  end.

(** ** Machine integers *)

Definition in_u (w z : Z) : Prop := 0 ≤ z < 2 ^ w.
Definition in_i (w z : Z) : Prop := - 2 ^ (w - 1) ≤ z < 2 ^ (w - 1).

Global Instance in_u_dec w z : Decision (in_u w z).
Proof. unfold in_u. apply _. Defined.
Global Instance in_i_dec w z : Decision (in_i w z).
Proof. unfold in_i. apply _. Defined.

(** [as u8], [as u64], ...: truncation to [w] bits. *)
Definition wrap_u (w z : Z) : Z := z mod 2 ^ w.

(** [as i64], ...: truncation to [w] bits read as two's complement. *)
Definition wrap_i (w z : Z) : Z := (z + 2 ^ (w - 1)) mod 2 ^ w - 2 ^ (w - 1).

Definition max_u (w : Z) : Z := 2 ^ w - 1.

Definition checked_add (w a b : Z) : option Z :=
  if decide (in_u w (a + b)) then Some (a + b) else None.
Definition checked_sub (w a b : Z) : option Z :=
  if decide (in_u w (a - b)) then Some (a - b) else None.
Definition checked_mul (w a b : Z) : option Z :=
  if decide (in_u w (a * b)) then Some (a * b) else None.
Definition saturating_sub (w a b : Z) : Z := Z.max 0 (a - b).
Definition saturating_add (w a b : Z) : Z := Z.min (max_u w) (a + b).

Lemma wrap_u_small w z : in_u w z → wrap_u w z = z.
Proof. unfold in_u, wrap_u. intros. by apply Z.mod_small. Qed.

Lemma wrap_u_range w z : 0 ≤ w → in_u w (wrap_u w z).
Proof. intros. apply Z.mod_pos_bound. by apply Z.pow_pos_nonneg. Qed.

Lemma wrap_i_small w z : 0 < w → in_i w z → wrap_i w z = z.
Proof.
  unfold in_i, wrap_i. intros Hw Hz.
  assert (2 ^ w = 2 * 2 ^ (w - 1)) as Hp.
  { rewrite <- Z.pow_succ_r by lia. f_equal. lia. }
  rewrite Z.mod_small; lia.
Qed.

Lemma checked_add_Some w a b c :
  checked_add w a b = Some c ↔ c = a + b ∧ in_u w (a + b).
Proof. unfold checked_add. case_decide; naive_solver. Qed.

Lemma checked_sub_Some w a b c :
  checked_sub w a b = Some c ↔ c = a - b ∧ in_u w (a - b).
Proof. unfold checked_sub. case_decide; naive_solver. Qed.

Lemma checked_mul_Some w a b c :
  checked_mul w a b = Some c ↔ c = a * b ∧ in_u w (a * b).
Proof. unfold checked_mul. case_decide; naive_solver. Qed.

(** ** Shifts and masks as arithmetic *)

Lemma pow2_pos n : 0 ≤ n → 0 < 2 ^ n.
Proof. intros. by apply Z.pow_pos_nonneg. Qed.

Lemma land_ones_mod z n : 0 ≤ n → Z.land z (Z.ones n) = z mod 2 ^ n.
Proof. apply Z.land_ones. Qed.

Lemma shiftl_mul z n : 0 ≤ n → Z.shiftl z n = z * 2 ^ n.
Proof. apply Z.shiftl_mul_pow2. Qed.

Lemma shiftr_div z n : 0 ≤ n → Z.shiftr z n = z / 2 ^ n.
Proof. apply Z.shiftr_div_pow2. Qed.

(** A value below [2^n] and a multiple of [2^n] share no bit. *)
Lemma land_low_high a b n : 0 ≤ n → in_u n a → Z.land a (Z.shiftl b n) = 0.
Proof.
  intros Hn Ha. apply Z.bits_inj'. intros i Hi.
  rewrite Z.land_spec, Z.bits_0, Z.shiftl_spec by lia.
  destruct (Z.lt_ge_cases i n) as [Hlt|Hge].
  - rewrite (Z.testbit_neg_r b) by lia. apply andb_false_r.
  - rewrite <- (wrap_u_small n a) by done. unfold wrap_u.
    by rewrite Z.mod_pow2_bits_high by lia.
Qed.

Lemma lor_low_high a b n :
  0 ≤ n → in_u n a → Z.lor a (Z.shiftl b n) = a + b * 2 ^ n.
Proof.
  intros Hn Ha. rewrite <- shiftl_mul by done.
  rewrite Z.add_nocarry_lxor by by apply land_low_high.
  apply Z.bits_inj'. intros i Hi.
  pose proof (land_low_high a b n Hn Ha) as H0.
  apply (f_equal (fun z => Z.testbit z i)) in H0.
  rewrite Z.land_spec, Z.bits_0 in H0.
  rewrite Z.lor_spec, Z.lxor_spec.
  destruct (Z.testbit a i), (Z.testbit (Z.shiftl b n) i); done.
Qed.

Lemma div_mod_split z m n :
  0 ≤ m → 0 ≤ n → z mod 2 ^ (m + n) = z mod 2 ^ m + 2 ^ m * ((z / 2 ^ m) mod 2 ^ n).
Proof.
  intros Hm Hn. rewrite Z.pow_add_r by done.
  pose proof (pow2_pos m Hm). pose proof (pow2_pos n Hn).
  rewrite Z.rem_mul_r by lia. lia.
Qed.

Lemma in_u_mono w w' z : w ≤ w' → 0 ≤ w → in_u w z → in_u w' z.
Proof.
  unfold in_u. intros. pose proof (Z.pow_le_mono_r 2 w w'). lia.
Qed.

(** Splitting a bounded value at bit [n]. *)
Lemma in_u_div z m n : 0 ≤ m → 0 ≤ n → in_u (m + n) z → in_u n (z / 2 ^ m).
Proof.
  unfold in_u. intros Hm Hn [H0 H1]. pose proof (pow2_pos m Hm).
  split; [by apply Z.div_pos|]. apply Z.div_lt_upper_bound; [lia|].
  by rewrite <- Z.pow_add_r.
Qed.

Lemma in_u_join a b m n :
  0 ≤ m → 0 ≤ n → in_u m a → in_u n b → in_u (m + n) (a + b * 2 ^ m).
Proof.
  unfold in_u. intros Hm Hn Ha Hb. rewrite Z.pow_add_r by done.
  pose proof (pow2_pos m Hm). nia.
Qed.

(** ** Big-endian strings of [w]-bit digits *)

Fixpoint undigits (w acc : Z) (ds : list Z) : Z :=
  match ds with
  | [] => acc
  | d :: ds => undigits w (acc * 2 ^ w + d) ds
  end.

(** The [n] low digits of [v], most significant first. *)
Fixpoint digits (w : Z) (n : nat) (v : Z) : list Z :=
  match n with
  | O => []
  | S n => digits w n (v / 2 ^ w) ++ [v mod 2 ^ w]
  end.

Section Digits.
Context (w : Z) (Hw : 0 < w).

Lemma length_digits n v : length (digits w n v) = n.
Proof. revert v; induction n; intros v; simpl; [done|]. rewrite length_app, IHn. simpl. lia. Qed.

Lemma digits_ok n v : Forall (in_u w) (digits w n v).
Proof.
  revert v; induction n; intros v; simpl; [constructor|].
  apply Forall_app; split; [done|]. constructor; [|done].
  apply Z.mod_pos_bound, pow2_pos. lia.
Qed.

Lemma undigits_app acc bs cs : undigits w acc (bs ++ cs) = undigits w (undigits w acc bs) cs.
Proof. revert acc; induction bs; intros; simpl; auto. Qed.

Lemma undigits_acc acc bs :
  undigits w acc bs = acc * 2 ^ (w * Z.of_nat (length bs)) + undigits w 0 bs.
Proof.
  revert acc; induction bs as [|b bs IH]; intros acc; simpl length; cbn [undigits].
  - change (Z.of_nat 0) with 0. rewrite Z.mul_0_r. lia.
  - rewrite IH, (IH (0 * 2 ^ w + b)).
    replace (w * Z.of_nat (S (length bs))) with (w + w * Z.of_nat (length bs)) by lia.
    rewrite Z.pow_add_r by lia. lia.
Qed.

Lemma undigits_digits n v : undigits w 0 (digits w n v) = v mod 2 ^ (w * Z.of_nat n).
Proof.
  revert v; induction n as [|n IH]; intros v; cbn [digits].
  - change (Z.of_nat 0) with 0. by rewrite Z.mul_0_r, Z.mod_1_r.
  - rewrite undigits_app, IH. cbn [undigits].
    replace (w * Z.of_nat (S n)) with (w + w * Z.of_nat n) by lia.
    rewrite div_mod_split by lia. lia.
Qed.

Lemma undigits_range bs :
  Forall (in_u w) bs → in_u (w * Z.of_nat (length bs)) (undigits w 0 bs).
Proof.
  induction 1 as [|b bs Hb _ IH] using Forall_ind; [by rewrite Z.mul_0_r|].
  cbn [undigits length]. rewrite undigits_acc.
  replace (w * Z.of_nat (S (length bs))) with (w * Z.of_nat (length bs) + w) by lia.
  rewrite (Z.add_comm _ (undigits w 0 bs)). apply in_u_join; try lia; done.
Qed.

Lemma digits_snoc n v b : in_u w b → digits w (S n) (v * 2 ^ w + b) = digits w n v ++ [b].
Proof.
  intros [? ?]. cbn [digits]. pose proof (pow2_pos w ltac:(lia)).
  rewrite Z.div_add_l, (Z.div_small b), Z.add_0_r by lia.
  f_equal. f_equal. rewrite Z.add_comm, Z.mod_add, Z.mod_small; lia.
Qed.

Lemma digits_undigits bs : Forall (in_u w) bs → digits w (length bs) (undigits w 0 bs) = bs.
Proof.
  induction bs as [|b bs IH] using rev_ind; [done|]. intros Hok.
  apply Forall_app in Hok as [Hbs Hb]. inversion Hb; subst.
  rewrite length_app, undigits_app, Nat.add_comm. cbn [undigits length Nat.add].
  rewrite digits_snoc by done. by rewrite IH.
Qed.

End Digits.

(** Bytes, and network-order fields as base-256 digits. *)
Definition is_byte (b : Z) : Prop := in_u 8 b.
Abbreviation bytes_ok bs := (Forall is_byte bs).
Abbreviation be_value := (undigits 8).
Abbreviation be_bytes := (digits 8).

Lemma length_be_bytes n v : length (be_bytes n v) = n.
Proof. apply length_digits. Qed.
Lemma be_bytes_ok n v : bytes_ok (be_bytes n v).
Proof. by apply digits_ok. Qed.
Lemma be_value_bytes n v : be_value 0 (be_bytes n v) = v mod 2 ^ (8 * Z.of_nat n).
Proof. by apply undigits_digits. Qed.
Lemma be_value_range bs : bytes_ok bs → in_u (8 * Z.of_nat (length bs)) (be_value 0 bs).
Proof. by apply undigits_range. Qed.
Lemma be_bytes_value bs : bytes_ok bs → be_bytes (length bs) (be_value 0 bs) = bs.
Proof. by apply digits_undigits. Qed.

(** [slice.iter().all(|byte| *byte == 0)] *)
Definition all_zero (bs : list Z) : bool := forallb (fun b => b =? 0) bs.

(** [value.to_be_bytes()] of a [u128] and of a [u64]. *)
Definition u128_to_be_bytes (v : Z) : list Z := be_bytes 16 v.
Definition u64_to_be_bytes (v : Z) : list Z := be_bytes 8 v.

(** [u128::from_be_bytes], after the conversion to [[u8; 16]] has checked the
    length. *)
Definition u128_from_be_bytes (bs : list Z) : option Z :=
  if (length bs =? 16)%nat then Some (be_value 0 bs) else None.

Lemma u128_be_roundtrip v : in_u 128 v → u128_from_be_bytes (u128_to_be_bytes v) = Some v.
Proof.
  intros Hv. unfold u128_from_be_bytes, u128_to_be_bytes.
  rewrite length_be_bytes, be_value_bytes. simpl. f_equal. by apply wrap_u_small.
Qed.

Lemma be_bytes_inj n v w :
  in_u (8 * Z.of_nat n) v → in_u (8 * Z.of_nat n) w → be_bytes n v = be_bytes n w → v = w.
Proof.
  intros Hv Hw Heq. apply (f_equal (be_value 0)) in Heq.
  rewrite !be_value_bytes in Heq.
  by rewrite (Z.mod_small v), (Z.mod_small w) in Heq.
Qed.

(** Induction on lists taken two elements at a time. *)
Lemma list_pair_ind {A} (P : list A → Prop) :
  P [] → (∀ x, P [x]) → (∀ x y l, P l → P (x :: y :: l)) → ∀ l, P l.
Proof.
  intros H0 H1 H2 l. enough (P l ∧ ∀ x, P (x :: l)) by tauto.
  induction l as [|y l [IH1 IH2]]; [auto|]. split; [done|]. auto.
Qed.

(** ** Byte strings in lexicographic order ([Ord] of slices and arrays) *)

Fixpoint bytes_compare (a b : list Z) : comparison :=
  match a, b with
  | [], [] => Eq
  | [], _ :: _ => Lt
  | _ :: _, [] => Gt
  | x :: a, y :: b =>
      match Z.compare x y with Eq => bytes_compare a b | c => c end
  end.

Definition bytes_leb (a b : list Z) : bool :=
  match bytes_compare a b with Gt => false | _ => true end.
Definition bytes_ltb (a b : list Z) : bool :=
  match bytes_compare a b with Lt => true | _ => false end.

Lemma bytes_compare_refl a : bytes_compare a a = Eq.
Proof. induction a; simpl; [done|]. by rewrite Z.compare_refl. Qed.

Lemma bytes_compare_eq a b : bytes_compare a b = Eq → a = b.
Proof.
  revert b; induction a as [|x a IH]; intros [|y b]; simpl; try done.
  destruct (Z.compare_spec x y); try done. intros. f_equal; auto.
Qed.

Lemma bytes_compare_antisym a b : bytes_compare b a = CompOpp (bytes_compare a b).
Proof.
  revert b; induction a as [|x a IH]; intros [|y b]; simpl; try done.
  rewrite (Z.compare_antisym x y). destruct (Z.compare x y); simpl; auto.
Qed.

Lemma bytes_compare_lt_trans a b c :
  bytes_compare a b = Lt → bytes_compare b c = Lt → bytes_compare a c = Lt.
Proof.
  revert b c; induction a as [|x a IH]; intros [|y b] [|z c]; simpl; try done.
  destruct (Z.compare_spec x y), (Z.compare_spec y z), (Z.compare_spec x z);
    try done; try lia; eauto.
Qed.

Lemma bytes_leb_total a b : bytes_leb a b = true ∨ bytes_leb b a = true.
Proof.
  unfold bytes_leb. rewrite (bytes_compare_antisym a b).
  destruct (bytes_compare a b); simpl; auto.
Qed.

Lemma bytes_leb_trans a b c :
  bytes_leb a b = true → bytes_leb b c = true → bytes_leb a c = true.
Proof.
  unfold bytes_leb. intros Hab Hbc.
  destruct (bytes_compare a b) eqn:E1; [apply bytes_compare_eq in E1; by subst| |done].
  destruct (bytes_compare b c) eqn:E2; [apply bytes_compare_eq in E2; subst; by rewrite E1| |done].
  by rewrite (bytes_compare_lt_trans _ _ _ E1 E2).
Qed.

Lemma bytes_leb_antisym a b : bytes_leb a b = true → bytes_leb b a = true → a = b.
Proof.
  unfold bytes_leb. rewrite (bytes_compare_antisym a b).
  destruct (bytes_compare a b) eqn:E; try done. intros _ _. by apply bytes_compare_eq.
Qed.

(** Between strings of one length, the order is that of the big-endian
    numbers. *)
Lemma bytes_compare_value a b :
  bytes_ok a → bytes_ok b → length a = length b →
  bytes_compare a b = Z.compare (be_value 0 a) (be_value 0 b).
Proof.
  revert b; induction a as [|x a IH]; intros [|y b] Ha Hb Hlen; try done.
  inversion Ha; inversion Hb; subst. cbn [bytes_compare undigits].
  simpl in Hlen. injection Hlen as Hlen.
  rewrite (undigits_acc 8 ltac:(lia) (0 * 2 ^ 8 + x)), (undigits_acc 8 ltac:(lia) (0 * 2 ^ 8 + y)).
  pose proof (be_value_range a ltac:(done)). pose proof (be_value_range b ltac:(done)) as Hrb.
  rewrite <- Hlen in *. unfold in_u in *.
  set (P := 2 ^ (8 * Z.of_nat (length a))) in *.
  destruct (Z.compare_spec x y) as [->|Hlt|Hgt].
  - rewrite IH by done. symmetry. apply Z.add_compare_mono_l.
  - symmetry. apply Z.compare_lt_iff. nia.
  - symmetry. apply Z.compare_gt_iff. nia.
Qed.

(** ** The library's hint database *)

Create HintDb masq discriminated.
Create Rewrite HintDb masq.
#[export] Hint Resolve wrap_u_small wrap_u_range be_bytes_ok length_be_bytes
  be_value_range in_u_div in_u_join bytes_compare_refl u128_be_roundtrip : masq.
#[export] Hint Resolve pow2_pos : masq.
#[export] Hint Rewrite length_be_bytes be_value_bytes : masq.
