(* ===== verification/Text.v ===== *)
(** * Text: strings, decimal and hexadecimal renderings

    The parts of Rust's formatting the modelled code relies on: byte-string
    literals, [to_string] of unsigned integers, [to_hex] of byte slices, and the
    readers that invert them. *)

From stdpp Require Import base list numbers option.
From Stdlib Require Import ZArith Lia String Ascii.
From S2P Require Import Prelude.

Local Open Scope Z_scope.

(** Byte-string literals, [b"..."]. *)
Definition char_byte (c : ascii) : Z := Z.of_nat (nat_of_ascii c).

Fixpoint string_bytes (s : string) : list Z :=
  match s with
  | EmptyString => []
  | String c s => char_byte c :: string_bytes s
  end.

Fixpoint bytes_string (bs : list Z) : string :=
  match bs with
  | [] => EmptyString
  | b :: bs => String (ascii_of_nat (Z.to_nat b)) (bytes_string bs)
  end.

Lemma char_byte_ok c : is_byte (char_byte c).
Proof. unfold is_byte, in_u, char_byte. pose proof (nat_ascii_bounded c). lia. Qed.

Lemma string_bytes_ok s : bytes_ok (string_bytes s).
Proof. induction s; simpl; constructor; auto using char_byte_ok. Qed.

Lemma bytes_string_bytes s : bytes_string (string_bytes s) = s.
Proof.
  induction s as [|c s IH]; simpl; [done|]. unfold char_byte.
  by rewrite Nat2Z.id, ascii_nat_embedding, IH.
Qed.

Lemma string_bytes_inj s t : string_bytes s = string_bytes t → s = t.
Proof. intros H. by rewrite <- (bytes_string_bytes s), H, bytes_string_bytes. Qed.

Lemma string_bytes_app s t : string_bytes (s ++ t) = string_bytes s ++ string_bytes t.
Proof. induction s; simpl; [done|]. by f_equal. Qed.

(** ** Hexadecimal *)

Definition hex_char (d : Z) : ascii :=
  ascii_of_nat (Z.to_nat (if d <? 10 then 48 + d else 87 + d)).

Definition char_hex (c : ascii) : option Z :=
  let n := char_byte c in
  if (48 <=? n) && (n <=? 57) then Some (n - 48)
  else if (97 <=? n) && (n <=? 102) then Some (n - 87)
  else if (65 <=? n) && (n <=? 70) then Some (n - 55)
  else None.

Fixpoint to_hex (bs : list Z) : string :=
  match bs with
  | [] => EmptyString
  | b :: bs => String (hex_char (b / 16)) (String (hex_char (b mod 16)) (to_hex bs))
  end.

Fixpoint from_hex (s : string) : option (list Z) :=
  match s with
  | EmptyString => Some []
  | String _ EmptyString => None
  | String c (String d s) =>
      match char_hex c, char_hex d, from_hex s with
      | Some h, Some l, Some bs => Some (16 * h + l :: bs)
      | _, _, _ => None
      end
  end.

Lemma char_hex_char d : 0 ≤ d < 16 → char_hex (hex_char d) = Some d.
Proof.
  intros Hd. unfold char_hex, hex_char, char_byte.
  rewrite nat_ascii_embedding by (destruct (d <? 10) eqn:?; lia).
  rewrite Z2Nat.id by (destruct (d <? 10) eqn:?; lia).
  destruct (d <? 10) eqn:E; guards.
  - rewrite (proj2 (Z.leb_le _ _)), (proj2 (Z.leb_le (48 + d) _)) by lia.
    simpl. f_equal. lia.
  - rewrite (proj2 (Z.leb_le 48 _)), (proj2 (Z.leb_gt (87 + d) 57)) by lia. cbn [andb].
    rewrite (proj2 (Z.leb_le 97 _)), (proj2 (Z.leb_le (87 + d) 102)) by lia.
    cbn [andb]. f_equal. lia.
Qed.

Lemma from_hex_to_hex bs : bytes_ok bs → from_hex (to_hex bs) = Some bs.
Proof.
  induction 1 as [|b bs Hb _ IH]; [done|]. cbn [to_hex from_hex].
  unfold is_byte, in_u in Hb. change (2 ^ 8) with 256 in Hb.
  pose proof (Z.mod_pos_bound b 16 ltac:(lia)).
  assert (0 ≤ b / 16 < 16).
  { split; [apply Z.div_pos; lia|]. apply Z.div_lt_upper_bound; lia. }
  rewrite !char_hex_char, IH by lia. do 2 f_equal.
  pose proof (Z.div_mod b 16 ltac:(lia)). lia.
Qed.

(** ** Decimal *)

Fixpoint dec_loop (fuel : nat) (n : Z) (acc : string) : string :=
  match fuel with
  | O => acc
  | S fuel =>
      let acc := String (hex_char (n mod 10)) acc in
      if n <? 10 then acc else dec_loop fuel (n / 10) acc
  end.

(** [to_string] of an unsigned integer: 40 digits hold any [u128]. *)
Definition dec (n : Z) : string := dec_loop 40 n EmptyString.

Fixpoint undec (acc : Z) (s : string) : option Z :=
  match s with
  | EmptyString => Some acc
  | String c s =>
      let n := char_byte c in
      if (48 <=? n) && (n <=? 57) then undec (acc * 10 + (n - 48)) s else None
  end.

(** The reader of a non-empty decimal string. *)
Definition parse_dec (s : string) : option Z :=
  match s with EmptyString => None | _ => undec 0 s end.

Lemma undec_digit acc d s :
  0 ≤ d < 10 → undec acc (String (hex_char d) s) = undec (acc * 10 + d) s.
Proof.
  intros Hd. cbn [undec]. unfold hex_char, char_byte.
  rewrite (proj2 (Z.ltb_lt d 10)) by lia.
  rewrite nat_ascii_embedding, Z2Nat.id by lia.
  rewrite (proj2 (Z.leb_le _ _)), (proj2 (Z.leb_le (48 + d) _)) by lia.
  simpl. f_equal. lia.
Qed.

Lemma undec_dec_loop fuel n acc :
  0 ≤ n < 10 ^ Z.of_nat (S fuel) → undec 0 (dec_loop (S fuel) n acc) = undec n acc.
Proof.
  revert n acc. induction fuel as [|fuel IH]; intros n acc Hn.
  - cbn [dec_loop]. change (10 ^ Z.of_nat 1) with 10 in Hn.
    rewrite (proj2 (Z.ltb_lt n 10)) by lia. rewrite Z.mod_small by lia.
    rewrite undec_digit by lia. done.
  - change (dec_loop (S (S fuel)) n acc) with
      (let acc := String (hex_char (n mod 10)) acc in
       if n <? 10 then acc else dec_loop (S fuel) (n / 10) acc).
    cbv zeta. destruct (n <? 10) eqn:E; guards.
    + rewrite Z.mod_small by lia. rewrite undec_digit by lia. done.
    + rewrite IH.
      * pose proof (Z.mod_pos_bound n 10 ltac:(lia)). rewrite undec_digit by lia.
        f_equal. pose proof (Z.div_mod n 10 ltac:(lia)). lia.
      * split; [apply Z.div_pos; lia|]. apply Z.div_lt_upper_bound; [lia|].
        rewrite <- Z.pow_succ_r, <- Nat2Z.inj_succ by lia. exact (proj2 Hn).
Qed.

Lemma dec_loop_nonempty fuel n acc : ∃ c s, dec_loop (S fuel) n acc = String c s.
Proof.
  revert n acc. induction fuel as [|fuel IH]; intros n acc.
  - simpl. destruct (n <? 10); eauto.
  - change (dec_loop (S (S fuel)) n acc) with
      (let acc := String (hex_char (n mod 10)) acc in
       if n <? 10 then acc else dec_loop (S fuel) (n / 10) acc).
    cbv zeta. destruct (n <? 10); eauto.
Qed.

Lemma parse_dec_dec n : in_u 128 n → parse_dec (dec n) = Some n.
Proof.
  intros [H0 H1]. unfold dec.
  assert (undec 0 (dec_loop 40 n EmptyString) = Some n) as Hu.
  { rewrite undec_dec_loop; [done|]. split; [done|].
    eapply Z.lt_trans; [exact H1|]. by vm_compute. }
  destruct (dec_loop_nonempty 39 n EmptyString) as (c & s & E).
  by rewrite E in *.
Qed.
