(* ===== verification/SequenceBuffer.v ===== *)
(** * Reordering of sequenced packets

    Models [src/masq-node-mobile/node/src/sub_lib/sequence_buffer.rs]: the
    wire form of a [SequencedPacket] (one flag byte, a big-endian [u64], the
    payload), and the [SequenceBuffer] that accepts packets in any order and
    hands them out in sequence-number order.  [index_of] of
    [masq_lib/src/utils.rs] is modelled because [poll] uses it.

    The standard [BinaryHeap] is a list whose [pop] removes a maximal element
    for the packet ordering, i.e. one of least sequence number.  The theorems
    relate the buffer to a map from sequence numbers to packets. *)

From stdpp Require Import base list gmap numbers option sorting.
From Stdlib Require Import ZArith Lia.
From S2P Require Import Prelude.

Local Open Scope Z_scope.
Local Open Scope rust_scope.
Local Coercion Z.of_nat : nat >-> Z.

Definition MAX_SEQUENCE_REORDER_WINDOW : Z := 4096.
Definition u64_MAX : Z := max_u 64.

Record SequencedPacket := mkPacket {
  data : list Z;
  sequence_number : Z;
  last_data : bool
}.

Global Instance SequencedPacket_eq_dec : EqDecision SequencedPacket.
Proof. solve_decision. Defined.

(** [Ord::cmp]: the comparison of the sequence numbers with the arguments
    exchanged, so that a max-heap yields the least number first. *)
Definition packet_cmp (self other : SequencedPacket) : comparison :=
  (sequence_number other ?= sequence_number self).

(** ** Wire form *)
Module Wire.

Inductive DeError := BadBool (b : Z) | BadLength (n : nat).

(** [u64_from]: the loop [result = (result << 8) + byte] on a [u64]. *)
Definition u64_from (bytes : list Z) : result Z DeError :=
  if negb (length bytes =? 8)%nat then Err (BadLength (length bytes))
  else Ok (foldl (fun r b => wrap_u 64 (Z.shiftl r 8) + b) 0 bytes).

(** [u64_to]: byte [7 - idx] receives the low byte of what remains. *)
Fixpoint u64_to_loop (idxs : list nat) (remaining : Z) (buf : list Z) : list Z :=
  match idxs with
  | [] => buf
  | idx :: idxs =>
      u64_to_loop idxs (Z.shiftr remaining 8)
        (<[(7 - idx)%nat := Z.land remaining 255]> buf)
  end.

Definition u64_to (value : Z) (buf : list Z) : result (list Z) DeError :=
  if negb (length buf =? 8)%nat then Err (BadLength (length buf))
  else Ok (u64_to_loop (seq 0 8) value buf).

(** [Serialize::serialize]: a zeroed buffer of [len + 9] bytes is filled. *)
Definition serialize (p : SequencedPacket) : result (list Z) DeError :=
  let bytes := replicate (length (data p) + 9) 0 in
  let bytes := <[0%nat := if last_data p then 1 else 0]> bytes in
  let? num := u64_to (sequence_number p) (take 8 (drop 1 bytes)) in
  Ok (take 1 bytes ++ num ++ data p).

(** [visit_bytes]; [v[0]], [v[1..9]] and [v[9..]] panic when [v] is short. *)
Definition visit_bytes (v : list Z) : exec (result SequencedPacket DeError) :=
  let* b := expect (v !! 0%nat) in
  if negb ((b =? 0) || (b =? 1)) then Ret (Err (BadBool b))
  else if (length v <? 9)%nat then Panic
  else match u64_from (take 8 (drop 1 v)) with
       | Err e => Ret (Err e)
       | Ok n => Ret (Ok (mkPacket (drop 9 v) n (b =? 1)))
       end.

Definition packet_ok (p : SequencedPacket) : Prop :=
  in_u 64 (sequence_number p) ∧ bytes_ok (data p).

Lemma u64_fold_be bs acc :
  bytes_ok bs → 0 ≤ acc < 2 ^ (64 - 8 * Z.of_nat (length bs)) →
  (length bs ≤ 8)%nat →
  foldl (fun r b => wrap_u 64 (Z.shiftl r 8) + b) acc bs = be_value acc bs.
Proof.
  revert acc. induction bs as [|b bs IH]; intros acc Hok Ha Hl; [done|].
  inversion Hok as [|?? [Hb0 Hb1] Hbs]; subst.
  cbn [foldl undigits length] in *. change (2 ^ 8) with 256 in *.
  assert (2 ^ (64 - 8 * Z.of_nat (length bs)) =
          2 ^ (64 - 8 * Z.of_nat (S (length bs))) * 256) as Hp.
  { change 256 with (2 ^ 8). rewrite <- Z.pow_add_r by lia. f_equal. lia. }
  assert (2 ^ (64 - 8 * Z.of_nat (length bs)) ≤ 2 ^ 64) by (apply Z.pow_le_mono_r; lia).
  rewrite shiftl_mul by lia. change (2 ^ 8) with 256.
  rewrite wrap_u_small by (unfold in_u; nia).
  apply IH; [done|nia|lia].
Qed.

Lemma u64_to_be v buf :
  length buf = 8%nat → u64_to v buf = Ok (be_bytes 8 v).
Proof.
  intros Hl. unfold u64_to. rewrite Hl. simpl negb. cbv iota. f_equal. do 9 (destruct buf as [|? buf]; try discriminate Hl).
  cbn -[Z.land Z.shiftr Z.div Z.modulo].
  rewrite !Z.shiftr_shiftr by lia.
  change 255 with (Z.ones 8). rewrite !land_ones_mod, !shiftr_div by lia.
  rewrite !Z.div_div by lia. done.
Qed.

Lemma serialize_eq p :
  serialize p =
  Ok ((if last_data p then 1 else 0) :: be_bytes 8 (sequence_number p) ++ data p).
Proof.
  unfold serialize. rewrite Nat.add_comm. cbn -[u64_to be_bytes].
  by rewrite take_0, u64_to_be.
Qed.

Lemma u64_from_be v : in_u 64 v → u64_from (be_bytes 8 v) = Ok v.
Proof.
  intros Hv. unfold u64_from. rewrite length_be_bytes. cbn [negb Nat.eqb].
  rewrite u64_fold_be by (rewrite ?length_be_bytes; first [apply be_bytes_ok|done|lia]).
  rewrite be_value_bytes. f_equal. by apply Z.mod_small.
Qed.

Lemma u64_from_bytes bs v :
  bytes_ok bs → u64_from bs = Ok v → in_u 64 v ∧ bs = be_bytes 8 v.
Proof.
  unfold u64_from. intros Hok. destruct (Nat.eqb_spec (length bs) 8) as [Hl|]; [|done].
  cbn [negb]. intros [= <-]. rewrite u64_fold_be by (first [done|lia]).
  split; [|by rewrite <- Hl, be_bytes_value].
  pose proof (be_value_range bs Hok) as Hr. by rewrite Hl in Hr.
Qed.

Lemma visit_bytes_short v :
  (length v < 9)%nat → (∃ b, v !! 0%nat = Some b ∧ (b = 0 ∨ b = 1)) → visit_bytes v = Panic.
Proof.
  intros Hl (b & Hb & Hb01). unfold visit_bytes. rewrite Hb. cbn [expect exec_bind].
  destruct Hb01 as [-> | ->]; simpl negb; cbv iota;
    by destruct (Nat.ltb_spec (length v) 9); [|lia].
Qed.

Lemma visit_serialized p :
  packet_ok p →
  visit_bytes ((if last_data p then 1 else 0) :: be_bytes 8 (sequence_number p) ++ data p)
    = Ret (Ok p).
Proof.
  intros [Hseq Hdata]. unfold visit_bytes. destruct p as [d n l]. cbn [last_data data sequence_number] in *.
  set (v := _ :: _). assert (v !! 0%nat = Some (if l then 1 else 0)) as -> by done.
  cbn [expect exec_bind].
  assert (length v = 9 + length d)%nat as Hl.
  { unfold v. cbn [length]. rewrite length_app, length_be_bytes. lia. }
  assert (take 8 (drop 1 v) = be_bytes 8 n) as Ht.
  { change (drop 1 v) with (be_bytes 8 n ++ d). apply take_app_length'.
    by rewrite length_be_bytes. }
  assert (drop 9 v = d) as Hd.
  { change (drop 9 v) with (drop 8 (be_bytes 8 n ++ d)). apply drop_app_length'.
    by rewrite length_be_bytes. }
  rewrite Ht, Hd, u64_from_be by done.
  destruct (Nat.ltb_spec (length v) 9); [lia|].
  by destruct l.
Qed.

End Wire.

(** [masq_lib::utils::index_of]: first position of [needles] in [haystack]. *)
Definition matches_at (haystack needles : list Z) (h : nat) : bool :=
  forallb (fun n => match haystack !! (h + n)%nat with
                    | None => false
                    | Some x => bool_decide (needles !! n = Some x)
                    end) (seq 0 (length needles)).

Definition index_of (haystack needles : list Z) : option nat :=
  match needles with
  | [] => None
  | _ => List.find (matches_at haystack needles) (seq 0 (length haystack))
  end.

(** [BinaryHeap::peek] and [BinaryHeap::pop]: a maximal element for
    [packet_cmp] and the heap without it. *)
Fixpoint heap_pop (heap : list SequencedPacket) : option (SequencedPacket * list SequencedPacket) :=
  match heap with
  | [] => None
  | p :: heap' =>
      match heap_pop heap' with
      | None => Some (p, [])
      | Some (q, rest) =>
          match packet_cmp p q with
          | Lt => Some (q, p :: rest)
          | _ => Some (p, heap')
          end
      end
  end.

(** ** The buffer *)

Record SequenceBuffer := mkBuffer {
  buffer : list SequencedPacket;
  next_expected_sequence_number : Z;
  sequence_space_exhausted : bool;
  seen_sequence_numbers : list Z
}.

Definition new : SequenceBuffer := mkBuffer [] 0 false [].

Definition push (self : SequenceBuffer) (packet : SequencedPacket) : SequenceBuffer :=
  if sequence_space_exhausted self then self
  else if (sequence_number packet <? next_expected_sequence_number self)
          || bool_decide (sequence_number packet ∈ seen_sequence_numbers self) then self
  else
    let sequence_gap := sequence_number packet - next_expected_sequence_number self in
    if MAX_SEQUENCE_REORDER_WINDOW <=? sequence_gap then self
    else mkBuffer (packet :: buffer self) (next_expected_sequence_number self)
           (sequence_space_exhausted self)
           (seen_sequence_numbers self ++ [sequence_number packet]).

Definition poll (self : SequenceBuffer) : option SequencedPacket * SequenceBuffer :=
  match heap_pop (buffer self) with
  | None => (None, self)
  | Some (top, rest) =>
      let sequence_number_to_pop := sequence_number top in
      if sequence_number_to_pop =? next_expected_sequence_number self then
        let '(next, exhausted) :=
          match checked_add 64 (next_expected_sequence_number self) 1 with
          | Some next => (next, sequence_space_exhausted self)
          | None => (next_expected_sequence_number self, true)
          end in
        let seen :=
          match index_of (seen_sequence_numbers self) [sequence_number_to_pop] with
          | Some index => delete index (seen_sequence_numbers self)
          | None => seen_sequence_numbers self
          end in
        (Some top, mkBuffer rest next exhausted seen)
      else (None, self)
  end.

Definition repush (self : SequenceBuffer) (packet : SequencedPacket) : exec SequenceBuffer :=
  let follows_last_poll :=
    if sequence_space_exhausted self then sequence_number packet =? u64_MAX
    else bool_decide (checked_sub 64 (next_expected_sequence_number self) 1
                      = Some (sequence_number packet)) in
  if negb follows_last_poll then Panic
  else Ret (mkBuffer (packet :: buffer self) (sequence_number packet) false
              (seen_sequence_numbers self ++ [sequence_number packet])).

Definition next_expected (self : SequenceBuffer) : Z := next_expected_sequence_number self.
Definition len (self : SequenceBuffer) : nat := length (buffer self).
Definition is_empty (self : SequenceBuffer) : bool := (len self =? 0)%nat.

(** ** What the buffer promises: a map from sequence numbers to packets *)
Module Spec.

Record reorder := mkReorder {
  next : Z;
  exhausted : bool;
  pending : gmap Z SequencedPacket
}.

Definition empty : reorder := mkReorder 0 false ∅.

Definition accepts (s : reorder) (n : Z) : Prop :=
  exhausted s = false ∧ next s ≤ n < next s + MAX_SEQUENCE_REORDER_WINDOW ∧ pending s !! n = None.

Global Instance accepts_dec s n : Decision (accepts s n).
Proof. unfold accepts. apply _. Defined.

Definition push (s : reorder) (p : SequencedPacket) : reorder :=
  if decide (accepts s (sequence_number p))
  then mkReorder (next s) (exhausted s) (<[sequence_number p := p]> (pending s))
  else s.

Definition poll (s : reorder) : option SequencedPacket * reorder :=
  match pending s !! next s with
  | None => (None, s)
  | Some p =>
      let at_end := bool_decide (next s = u64_MAX) in
      (Some p, mkReorder (if at_end then next s else next s + 1)
                 (exhausted s || at_end) (delete (next s) (pending s)))
  end.

Definition repush (s : reorder) (p : SequencedPacket) : exec reorder :=
  if bool_decide (sequence_number p = if exhausted s then u64_MAX else next s - 1)
     && bool_decide (0 ≤ sequence_number p)
  then Ret (mkReorder (sequence_number p) false (<[sequence_number p := p]> (pending s)))
  else Panic.

End Spec.

(** The operations a client may issue, and their effect on either side. *)
Inductive op := Push (p : SequencedPacket) | Poll | Repush (p : SequencedPacket).

Definition step (s : SequenceBuffer) (o : op) : exec (option SequencedPacket * SequenceBuffer) :=
  match o with
  | Push p => Ret (None, push s p)
  | Poll => Ret (poll s)
  | Repush p => let* s' := repush s p in Ret (None, s')
  end.

Definition spec_step (s : Spec.reorder) (o : op) : exec (option SequencedPacket * Spec.reorder) :=
  match o with
  | Push p => Ret (None, Spec.push s p)
  | Poll => Ret (Spec.poll s)
  | Repush p => let* s' := Spec.repush s p in Ret (None, s')
  end.

(** Run a sequence of operations and collect what the polls hand out. *)
Fixpoint run {S} (f : S → op → exec (option SequencedPacket * S)) (s : S) (ops : list op)
  : exec (list SequencedPacket * S) :=
  match ops with
  | [] => Ret ([], s)
  | o :: ops =>
      let* (out, s1) := f s o in
      let* (outs, s2) := run f s1 ops in
      Ret (option_list out ++ outs, s2)
  end.

Definition op_ok (o : op) : Prop :=
  match o with
  | Push p | Repush p => in_u 64 (sequence_number p)
  | Poll => True
  end.

(** ** Invariant and abstraction *)

Definition keyed (heap : list SequencedPacket) : list (Z * SequencedPacket) :=
  (fun p => (sequence_number p, p)) <$> heap.

Record wf (s : SequenceBuffer) : Prop := {
  wf_nodup : NoDup (sequence_number <$> buffer s);
  wf_seen : seen_sequence_numbers s ≡ₚ sequence_number <$> buffer s;
  wf_above : Forall (fun p => next_expected_sequence_number s ≤ sequence_number p < 2 ^ 64) (buffer s);
  wf_next : in_u 64 (next_expected_sequence_number s);
  wf_exhausted : sequence_space_exhausted s = true →
    buffer s = [] ∧ next_expected_sequence_number s = u64_MAX
}.

Definition absr (s : SequenceBuffer) : Spec.reorder :=
  Spec.mkReorder (next_expected_sequence_number s) (sequence_space_exhausted s)
    (list_to_map (keyed (buffer s))).

Section Heap.

Lemma heap_pop_None heap : heap_pop heap = None ↔ heap = [].
Proof.
  destruct heap as [|p heap]; simpl; [done|].
  destruct (heap_pop heap) as [[q rest]|]; [|done].
  by destruct (packet_cmp p q).
Qed.

Lemma heap_pop_perm heap p rest : heap_pop heap = Some (p, rest) → heap ≡ₚ p :: rest.
Proof.
  revert p rest. induction heap as [|x heap IH]; intros p rest; simpl; [done|].
  destruct (heap_pop heap) as [[q r]|] eqn:E.
  - specialize (IH q r eq_refl).
    destruct (packet_cmp x q); intros [= <- <-]; [done| |done].
    rewrite IH. constructor.
  - apply heap_pop_None in E as ->. by intros [= <- <-].
Qed.

Lemma heap_pop_least heap p rest :
  heap_pop heap = Some (p, rest) →
  Forall (fun q => sequence_number p ≤ sequence_number q) rest.
Proof.
  revert p rest. induction heap as [|x heap IH]; intros p rest; simpl; [done|].
  destruct (heap_pop heap) as [[q r]|] eqn:E; [|by intros [= <- <-]].
  specialize (IH q r eq_refl). pose proof (heap_pop_perm _ _ _ E) as Hperm.
  unfold packet_cmp. destruct (Z.compare_spec (sequence_number q) (sequence_number x));
    intros [= <- <-]; try (rewrite Hperm; constructor; [lia|]);
    try (constructor; [lia|]); try done;
    eapply Forall_impl; eauto; simpl; lia.
Qed.

End Heap.

Lemma index_of_single l x : index_of l [x] = fst <$> list_find (eq x) l.
Proof.
  unfold index_of.
  assert (∀ k pre, length pre = k →
    List.find (matches_at (pre ++ l) [x]) (seq k (length l))
    = (fun p => (k + p.1)%nat) <$> list_find (eq x) l) as H.
  { induction l as [|y l IH]; intros k pre Hk; [done|].
    cbn [length seq List.find list_find].
    replace (matches_at (pre ++ y :: l) [x] k) with (bool_decide (x = y)).
    2:{ unfold matches_at. cbn. rewrite lookup_app_r by lia.
        replace (k + 0 - length pre)%nat with 0%nat by lia. cbn.
        rewrite andb_true_r. apply bool_decide_ext. naive_solver. }
    destruct (decide (x = y)) as [->|Hne].
    - rewrite bool_decide_true by done. cbn. f_equal. lia.
    - rewrite bool_decide_false by done.
      rewrite (cons_middle y pre l), app_assoc.
      rewrite IH by (rewrite length_app; simpl; lia).
      rewrite <- option_fmap_compose.
      destruct (list_find (eq x) l) as [[i z]|]; [|done]. cbn. f_equal. lia. }
  etransitivity; [exact (H 0%nat [] eq_refl)|]. by destruct (list_find (eq x) l) as [[i y]|].
Qed.

Lemma delete_index_of l x :
  x ∈ l → ∃ i, index_of l [x] = Some i ∧ l ≡ₚ x :: delete i l.
Proof.
  intros Hin. rewrite index_of_single.
  destruct (list_find (eq x) l) as [[i y]|] eqn:E.
  - apply list_find_Some in E as (Hi & -> & _). exists i. split; [done|].
    by apply delete_Permutation.
  - apply list_find_None in E. rewrite Forall_forall in E. by destruct (E x Hin).
Qed.

(** The map of a heap depends on the heap only up to permutation. *)
Lemma keyed_fst heap : (keyed heap).*1 = sequence_number <$> heap.
Proof. unfold keyed. rewrite <- list_fmap_compose. done. Qed.

Lemma keyed_lookup heap n p :
  NoDup (sequence_number <$> heap) →
  (list_to_map (keyed heap) : gmap Z SequencedPacket) !! n = Some p ↔
  p ∈ heap ∧ sequence_number p = n.
Proof.
  intros Hnd. rewrite <- elem_of_list_to_map by (by rewrite keyed_fst).
  unfold keyed. rewrite list_elem_of_fmap. naive_solver.
Qed.

Lemma keyed_lookup_None heap n :
  (list_to_map (keyed heap) : gmap Z SequencedPacket) !! n = None ↔
  n ∉ (sequence_number <$> heap).
Proof. rewrite <- keyed_fst. symmetry. apply not_elem_of_list_to_map. Qed.

Lemma keyed_perm heap p rest :
  NoDup (sequence_number <$> heap) → heap ≡ₚ p :: rest →
  (list_to_map (keyed rest) : gmap Z SequencedPacket) =
  delete (sequence_number p) (list_to_map (keyed heap)).
Proof.
  intros Hnd Hp.
  rewrite (list_to_map_proper (keyed heap) (keyed (p :: rest))).
  - cbn. rewrite delete_insert_id; [done|]. apply keyed_lookup_None.
    rewrite Hp in Hnd. by apply NoDup_cons in Hnd as [? _].
  - by rewrite keyed_fst.
  - unfold keyed. by rewrite Hp.
Qed.

(** ** Per-operation refinement *)

Lemma wf_new : wf new.
Proof. by split; cbn; try constructor. Qed.

Lemma wf_add s p next :
  wf s → next ≤ sequence_number p < 2 ^ 64 → in_u 64 next →
  next ≤ next_expected_sequence_number s →
  sequence_number p ∉ (sequence_number <$> buffer s) →
  wf (mkBuffer (p :: buffer s) next false (seen_sequence_numbers s ++ [sequence_number p])).
Proof.
  intros [Hnd Hseen Habove Hnext Hexh] Hp Hn Hle Hnew. split; cbn; try done.
  - by constructor.
  - rewrite Hseen, Permutation_app_comm. done.
  - constructor; [done|]. eapply Forall_impl; [exact Habove|]. cbn. lia.
Qed.

Lemma push_refines s p :
  wf s → in_u 64 (sequence_number p) →
  wf (push s p) ∧ absr (push s p) = Spec.push (absr s) p.
Proof.
  intros Hwf Hp. pose proof Hwf as [Hnd Hseen Habove Hnext Hexh].
  unfold push, Spec.push.
  assert (sequence_number p ∈ seen_sequence_numbers s ↔
          Spec.pending (absr s) !! sequence_number p ≠ None) as Hin.
  { rewrite Hseen. cbn. rewrite keyed_lookup_None.
    destruct (decide (sequence_number p ∈ sequence_number <$> buffer s)); naive_solver. }
  destruct (decide (Spec.accepts (absr s) (sequence_number p))) as [(He & Hb & Hn)|Hna].
  - cbn in He, Hb. rewrite He.
    destruct (Z.ltb_spec (sequence_number p) (next_expected_sequence_number s)); [lia|].
    rewrite bool_decide_false by naive_solver. cbn [orb].
    destruct (Z.leb_spec MAX_SEQUENCE_REORDER_WINDOW
                (sequence_number p - next_expected_sequence_number s)); [lia|].
    split; [|unfold absr; cbn; by rewrite He].
    apply wf_add; try done; [destruct Hp; lia|]. by apply keyed_lookup_None.
  - destruct (sequence_space_exhausted s) eqn:Ee; [done|].
    destruct (Z.ltb_spec (sequence_number p) (next_expected_sequence_number s)); [done|].
    destruct (decide (sequence_number p ∈ seen_sequence_numbers s)) as [Hs|Hs];
      [by rewrite bool_decide_true|rewrite bool_decide_false by done; cbn [orb]].
    destruct (Z.leb_spec MAX_SEQUENCE_REORDER_WINDOW
                (sequence_number p - next_expected_sequence_number s)); [done|].
    destruct Hna. split; [done|]. cbn [absr Spec.next]. split; [lia|].
    destruct (Spec.pending (absr s) !! sequence_number p); [|done]. destruct Hs. by apply Hin.
Qed.

(** The heap's head is the packet the map holds at the expected number, when
    there is one. *)
Lemma heap_pop_expected s p rest :
  wf s → heap_pop (buffer s) = Some (p, rest) →
  (sequence_number p = next_expected_sequence_number s →
   Spec.pending (absr s) !! next_expected_sequence_number s = Some p) ∧
  (sequence_number p ≠ next_expected_sequence_number s →
   Spec.pending (absr s) !! next_expected_sequence_number s = None).
Proof.
  intros [Hnd _ Habove _ _] Hpop. cbn.
  pose proof (heap_pop_perm _ _ _ Hpop) as Hp. split.
  - intros Heq. apply keyed_lookup; [done|]. split; [rewrite Hp; left|done].
  - intros Hne. apply keyed_lookup_None. intros (q & Hq & Hin)%list_elem_of_fmap.
    rewrite Forall_forall in Habove. rewrite Hp in Hin.
    apply elem_of_cons in Hin as [->|Hin]; [done|].
    pose proof (heap_pop_least _ _ _ Hpop) as Hl. rewrite Forall_forall in Hl.
    specialize (Hl q Hin). cbn in Hl.
    assert (p ∈ buffer s) as Hpin by (rewrite Hp; left).
    specialize (Habove p Hpin). lia.
Qed.

Lemma wf_remove s p rest (next : Z) (exh : bool) seen :
  wf s → buffer s ≡ₚ p :: rest → sequence_number p = next_expected_sequence_number s →
  seen_sequence_numbers s ≡ₚ sequence_number p :: seen →
  (if exh then next = u64_MAX ∧ next_expected_sequence_number s = u64_MAX
   else next = next_expected_sequence_number s + 1) → in_u 64 next →
  wf (mkBuffer rest next exh seen).
Proof.
  intros [Hnd Hseen Habove Hnext Hexh] Hp Heq Hs Hn Hr.
  assert (∀ q, q ∈ rest → next_expected_sequence_number s < sequence_number q < 2 ^ 64) as Hgt.
  { intros q Hq. rewrite Forall_forall in Habove. assert (q ∈ buffer s) as Hqb by (rewrite Hp; by right).
    specialize (Habove q Hqb). cbn in Habove.
    rewrite Hp in Hnd. apply NoDup_cons in Hnd as [Hnin _].
    assert (sequence_number q ≠ sequence_number p).
    { intros E. apply Hnin. rewrite <- E. by apply list_elem_of_fmap_2. }
    lia. }
  split; cbn; try done.
  - rewrite Hp in Hnd. by apply NoDup_cons in Hnd as [_ ?].
  - apply (Permutation_cons_inv (a := sequence_number p)).
    rewrite <- Hs, Hseen. by rewrite Hp.
  - apply Forall_forall. intros q Hq. specialize (Hgt q Hq). destruct exh; destruct_and?; lia.
  - intros ->. destruct Hn as [-> Hmax]. split; [|done].
    destruct rest as [|q rest]; [done|]. specialize (Hgt q ltac:(by left)).
    rewrite Hmax in Hgt. unfold u64_MAX, max_u in Hgt. lia.
Qed.

Lemma poll_refines s :
  wf s → wf (poll s).2 ∧ Spec.poll (absr s) = ((poll s).1, absr (poll s).2).
Proof.
  intros Hwf. unfold poll, Spec.poll.
  destruct (heap_pop (buffer s)) as [[p rest]|] eqn:Hpop.
  2:{ apply heap_pop_None in Hpop. cbn. by rewrite Hpop. }
  pose proof (heap_pop_expected _ _ _ Hwf Hpop) as [Heq Hne].
  pose proof (heap_pop_perm _ _ _ Hpop) as Hp.
  change (Spec.next (absr s)) with (next_expected_sequence_number s).
  destruct (Z.eqb_spec (sequence_number p) (next_expected_sequence_number s)) as [E|E].
  2:{ by rewrite Hne. }
  rewrite (Heq E). pose proof (wf_next _ Hwf) as Hr.
  destruct (delete_index_of (seen_sequence_numbers s) (sequence_number p)) as (i & Hi & Hperm).
  { rewrite (wf_seen _ Hwf), Hp. left. }
  rewrite Hi.
  pose proof (keyed_perm _ _ _ (wf_nodup _ Hwf) Hp) as Habs.
  destruct (checked_add 64 (next_expected_sequence_number s) 1) as [n|] eqn:Ea.
  - apply checked_add_Some in Ea as [-> Hin]. cbn [fst snd].
    assert (next_expected_sequence_number s ≠ u64_MAX) as Hmax
      by (unfold in_u, u64_MAX, max_u in *; lia).
    assert (sequence_space_exhausted s = false) as He.
    { destruct (sequence_space_exhausted s) eqn:E'; [|done]. by apply Hwf in E' as [_ ?]. }
    rewrite bool_decide_false by done. rewrite He. split.
    + eapply wf_remove; eauto.
    + unfold absr. cbn -[keyed]. by rewrite Habs, E, He.
  - assert (next_expected_sequence_number s = u64_MAX) as Hmax.
    { unfold checked_add in Ea. case_decide as Hd; [done|].
      unfold in_u, u64_MAX, max_u in *. lia. }
    cbn [fst snd]. rewrite bool_decide_true by done. split.
    + eapply wf_remove; eauto.
    + unfold absr. cbn -[keyed]. by rewrite Habs, E, orb_true_r.
Qed.

Lemma repush_refines s p :
  wf s → in_u 64 (sequence_number p) →
  match repush s p with
  | Ret s' => wf s' ∧ Spec.repush (absr s) p = Ret (absr s')
  | Panic => Spec.repush (absr s) p = Panic
  end.
Proof.
  intros Hwf Hp. pose proof Hwf as [Hnd Hseen Habove Hnext Hexh].
  unfold repush, Spec.repush. cbn [absr Spec.exhausted Spec.next].
  rewrite (bool_decide_true (0 ≤ sequence_number p)) by (by destruct Hp).
  rewrite andb_true_r.
  set (f := if sequence_space_exhausted s then _ else _).
  assert (f = bool_decide (sequence_number p =
     if sequence_space_exhausted s then u64_MAX else next_expected_sequence_number s - 1)) as ->.
  { unfold f. destruct (sequence_space_exhausted s).
    - by destruct (Z.eqb_spec (sequence_number p) u64_MAX); case_bool_decide.
    - apply bool_decide_ext. rewrite checked_sub_Some. unfold in_u in *. naive_solver lia. }
  case_bool_decide as Heq; cbn [negb]; [|done].
  split; [|done]. apply wf_add; try done; [unfold in_u in *; lia| |].
  - destruct (sequence_space_exhausted s); [|lia].
    destruct (Hexh eq_refl) as [_ ->]. lia.
  - destruct (sequence_space_exhausted s).
    + destruct (Hexh eq_refl) as [-> _]. cbn. by intros ?%not_elem_of_nil.
    + intros (q & Hq & Hin)%list_elem_of_fmap. rewrite Forall_forall in Habove.
      specialize (Habove q Hin). cbn in Habove. lia.
Qed.

(** ** Whole runs *)

Lemma step_refines s o :
  wf s → op_ok o →
  match step s o with
  | Ret (out, s') => wf s' ∧ spec_step (absr s) o = Ret (out, absr s')
  | Panic => spec_step (absr s) o = Panic
  end.
Proof.
  intros Hwf Ho. destruct o as [p| |p]; cbn in *.
  - destruct (push_refines s p Hwf Ho) as [? ->]. done.
  - pose proof (poll_refines s Hwf) as [? ->]. by destruct (poll s).
  - pose proof (repush_refines s p Hwf Ho) as H.
    destruct (repush s p) as [s'|]; cbn; [by destruct H as [? ->]|by rewrite H].
Qed.

Definition agree (c : exec (list SequencedPacket * SequenceBuffer))
    (a : exec (list SequencedPacket * Spec.reorder)) : Prop :=
  match c, a with
  | Ret (outs, s), Ret (outs', t) => outs = outs' ∧ wf s ∧ t = absr s
  | Panic, Panic => True
  | _, _ => False
  end.

Lemma buffer_run_refines s ops :
  wf s → Forall op_ok ops → agree (run step s ops) (run spec_step (absr s) ops).
Proof.
  intros Hwf Hops. revert s Hwf. induction Hops as [|o ops Ho Hops IH]; intros s Hwf; [done|].
  cbn [run]. pose proof (step_refines s o Hwf Ho) as Hs.
  destruct (step s o) as [[out s1]|]; [|by rewrite Hs].
  destruct Hs as [Hwf1 ->]. cbn [exec_bind]. specialize (IH s1 Hwf1).
  destruct (run step s1 ops) as [[outs s2]|], (run spec_step (absr s1) ops) as [[outs' t2]|];
    try done. destruct IH as (-> & ? & ->). done.
Qed.

(** Runs of pushes and polls on the map side. *)
Record spec_ok (t : Spec.reorder) : Prop := {
  ok_keys n p : Spec.pending t !! n = Some p →
    sequence_number p = n ∧ Spec.next t ≤ n ≤ u64_MAX;
  ok_exhausted : Spec.exhausted t = true → Spec.pending t = ∅;
  ok_next : Spec.next t ≤ u64_MAX
}.

Definition push_or_poll (o : op) : Prop :=
  match o with Push p => in_u 64 (sequence_number p) | Poll => True | Repush _ => False end.

Lemma spec_ok_empty : spec_ok Spec.empty.
Proof. split; cbn; done. Qed.

Lemma spec_ok_push t p :
  spec_ok t → in_u 64 (sequence_number p) → spec_ok (Spec.push t p).
Proof.
  intros Hok Hp. unfold Spec.push. case_decide as Ha; [|done].
  destruct Ha as (Ha1 & Ha2 & Ha3). split; cbn; [|congruence|apply Hok].
  intros n q. rewrite lookup_insert. case_decide as Hn; [|apply Hok].
  intros [= <-]. split; [done|]. unfold in_u, u64_MAX, max_u in *. lia.
Qed.

Lemma spec_ok_poll t p :
  spec_ok t → Spec.pending t !! Spec.next t = Some p → Spec.next t ≠ u64_MAX →
  spec_ok (Spec.mkReorder (Spec.next t + 1) (Spec.exhausted t) (delete (Spec.next t) (Spec.pending t))).
Proof.
  intros Hok Hp Hne. split; cbn.
  - intros n q [Hn Hq]%lookup_delete_Some. destruct (ok_keys _ Hok _ _ Hq). split; [done|lia].
  - intros He. rewrite (ok_exhausted _ Hok He) in Hp. by rewrite lookup_empty in Hp.
  - pose proof (ok_next _ Hok). lia.
Qed.

Lemma spec_last_poll t p :
  spec_ok t → Spec.pending t !! Spec.next t = Some p → Spec.next t = u64_MAX →
  delete (Spec.next t) (Spec.pending t) = ∅.
Proof.
  intros Hok Hp Hmax. apply map_empty. intros n. apply eq_None_not_Some.
  intros [q [Hn Hq]%lookup_delete_Some]. destruct (ok_keys _ Hok _ _ Hq). lia.
Qed.

Lemma spec_run_exhausted n ops :
  Forall push_or_poll ops →
  run spec_step (Spec.mkReorder n true ∅) ops = Ret ([], Spec.mkReorder n true ∅).
Proof.
  induction 1 as [|o ops Ho _ IH]; [done|]. cbn [run].
  destruct o as [p| |p]; [| |done]; cbn [spec_step exec_bind].
  - unfold Spec.push. rewrite decide_False by (intros (?&_); done). by rewrite IH.
  - unfold Spec.poll. cbn [Spec.pending Spec.next]. rewrite lookup_empty. cbn [exec_bind]. by rewrite IH.
Qed.

Lemma spec_run_in_order t ops :
  spec_ok t → Forall push_or_poll ops →
  ∃ outs t', run spec_step t ops = Ret (outs, t') ∧
    (sequence_number <$> outs) = seqZ (Spec.next t) (length outs) ∧
    Forall (fun p => Push p ∈ ops ∨ Spec.pending t !! sequence_number p = Some p) outs.
Proof.
  intros Hok Hops. revert t Hok. induction Hops as [|o ops Ho Hops IH]; intros t Hok; [by exists [], t|].
  cbn [run]. destruct o as [p| |p]; [| |done]; cbn [spec_step exec_bind].
  - destruct (IH (Spec.push t p)) as (outs & t' & -> & Hs & Hf); [by apply spec_ok_push|].
    exists outs, t'. unfold Spec.push in Hs, Hf. case_decide; split_and!; try done;
      (eapply Forall_impl; [exact Hf|]); cbn; intros q [?|Hq]; [by left; right| |by left; right|by right].
    rewrite lookup_insert in Hq. case_decide; [|by right]. simplify_eq. left. left.
  - unfold Spec.poll. destruct (Spec.pending t !! Spec.next t) as [p|] eqn:E; cbn [exec_bind].
    2:{ destruct (IH t Hok) as (outs & t' & -> & Hs & Hf). exists outs, t'. split_and!; try done.
        eapply Forall_impl; [exact Hf|]. cbn. intros q [?|?]; [by left; right|by right]. }
    destruct (ok_keys _ Hok _ _ E) as [Hp _]. case_bool_decide as Hm.
    + rewrite (spec_last_poll t p), orb_true_r, spec_run_exhausted by done.
      exists [p]. eexists. split_and!; [done| |].
      * cbn. by rewrite Hp.
      * constructor; [right; by rewrite Hp|done].
    + rewrite orb_false_r. destruct (IH _ (spec_ok_poll _ _ Hok E Hm)) as (outs & t' & -> & Hs & Hf).
      exists (p :: outs), t'. split_and!; [done| |].
      * cbn. rewrite seqZ_cons, Hp, Hs by lia. cbn [Spec.next]. f_equal. f_equal; lia.
      * constructor; [right; by rewrite Hp|]. eapply Forall_impl; [exact Hf|]. cbn.
        intros q [?|Hq]; [by left; right|]. apply lookup_delete_Some in Hq as [_ ?]. by right.
Qed.

Lemma spec_run_pushes qs t :
  Spec.exhausted t = false → NoDup (sequence_number <$> qs) →
  Forall (fun p => Spec.next t ≤ sequence_number p < Spec.next t + MAX_SEQUENCE_REORDER_WINDOW
                   ∧ Spec.pending t !! sequence_number p = None) qs →
  ∀ ops, run spec_step t ((Push <$> qs) ++ ops) =
    run spec_step (Spec.mkReorder (Spec.next t) false
                     (list_to_map (keyed (reverse qs)) ∪ Spec.pending t)) ops.
Proof.
  revert t. induction qs as [|q qs IH]; intros t He Hnd Hqs ops.
  - destruct t; cbn in *; subst. by rewrite (left_id_L ∅ (∪)).
  - apply NoDup_cons in Hnd as [Hnin Hnd]. inversion Hqs as [|?? [Hq1 Hq2] Hqs']; subst.
    cbn [fmap list_fmap app run spec_step exec_bind].
    unfold Spec.push. rewrite decide_True by done.
    rewrite IH; cbn [Spec.exhausted Spec.next Spec.pending]; try done.
    + rewrite reverse_cons. unfold keyed. rewrite fmap_app, list_to_map_app. cbn.
      rewrite insert_empty, <- (assoc_L (∪)), <- insert_union_singleton_l.
      by destruct (run _ _ _) as [[??]|].
    + rewrite Forall_forall in Hqs' |- *. intros p Hin.
      destruct (Hqs' p Hin) as [Hp1 Hp2]. split; [done|]. rewrite lookup_insert_ne; [done|].
      intros E. apply Hnin. rewrite E. by apply list_elem_of_fmap_2.
Qed.

Lemma spec_run_polls ps k :
  (sequence_number <$> ps) = seqZ k (length ps) → k + length ps ≤ u64_MAX →
  run spec_step (Spec.mkReorder k false (list_to_map (keyed ps))) (replicate (length ps) Poll)
  = Ret (ps, Spec.mkReorder (k + length ps) false ∅).
Proof.
  revert k. induction ps as [|p ps IH]; intros k Hs Hk.
  - cbn. rewrite Z.add_0_r. done.
  - cbn [length] in *. cbn [fmap list_fmap] in Hs.
    rewrite seqZ_cons in Hs by lia. injection Hs as Hp Hs.
    cbn [replicate run spec_step]. unfold Spec.poll. cbn -[keyed].
    unfold keyed. cbn. rewrite Hp, lookup_insert_eq. cbn.
    rewrite bool_decide_false by lia.
    rewrite delete_insert_id.
    2:{ apply (keyed_lookup_None ps k). rewrite Hs. intros ?%elem_of_seqZ. lia. }
    fold (keyed ps). rewrite IH; cbn; [|rewrite Hs; f_equal; lia|lia].
    by replace (k + 1 + length ps) with (k + S (length ps)) by lia.
Qed.

(** The buffer behaves, for every sequence of pushes, polls and re-pushes
    starting from an empty buffer, exactly as a map from sequence numbers to
    packets with a next expected number: the same packets are handed out, and
    a misuse of [repush] panics in exactly the same places. *)
Theorem sequence_buffer_refines ops :
  Forall op_ok ops → agree (run step new ops) (run spec_step Spec.empty ops).
Proof. apply (buffer_run_refines new), wf_new. Qed.

(** In-order, exactly-once delivery: whatever the interleaving of pushes
    and polls, the packets handed out carry the numbers 0, 1, 2, ... without
    gap or repetition, and each of them was pushed. *)
Theorem in_order_delivery ops :
  Forall push_or_poll ops →
  ∃ outs s, run step new ops = Ret (outs, s) ∧
    (sequence_number <$> outs) = seqZ 0 (length outs) ∧
    Forall (fun p => Push p ∈ ops) outs.
Proof.
  intros Hops. destruct (spec_run_in_order Spec.empty ops spec_ok_empty Hops)
    as (outs & t & Hrun & Hs & Hf).
  assert (Forall op_ok ops) as Hok by (eapply Forall_impl; [exact Hops|]; intros []; done).
  pose proof (buffer_run_refines new ops wf_new Hok) as Hr.
  change (absr new) with Spec.empty in Hr. rewrite Hrun in Hr.
  destruct (run step new ops) as [[outs' s]|]; [|done]. destruct Hr as (-> & _ & _).
  exists outs, s. split_and!; [done|done|].
  eapply Forall_impl; [exact Hf|]. cbn. intros p [?|Hp]; [done|].
  by rewrite lookup_empty in Hp.
Qed.

(** Completeness within the reorder window: when the packets 0..n-1
    (n at most [MAX_SEQUENCE_REORDER_WINDOW]) arrive in any order, n polls hand
    out exactly these packets sorted by number, and the buffer is empty after. *)
Theorem reorder_complete ps qs :
  (sequence_number <$> ps) = seqZ 0 (length ps) →
  length ps ≤ MAX_SEQUENCE_REORDER_WINDOW → qs ≡ₚ ps →
  ∃ s, run step new ((Push <$> qs) ++ replicate (length ps) Poll) = Ret (ps, s) ∧
    is_empty s = true ∧ next_expected s = length ps.
Proof.
  intros Hs Hl Hperm. unfold MAX_SEQUENCE_REORDER_WINDOW in Hl.
  assert (NoDup (sequence_number <$> qs)) as Hnd by (rewrite Hperm, Hs; apply NoDup_seqZ).
  assert (∀ p, p ∈ qs → 0 ≤ sequence_number p < length ps) as Hr.
  { intros p Hp. apply (elem_of_seqZ 0 (length ps)). rewrite <- Hs, <- Hperm.
    by apply list_elem_of_fmap_2. }
  assert (Forall op_ok ((Push <$> qs) ++ replicate (length ps) Poll)) as Hok.
  { apply Forall_app; split; [|by apply Forall_replicate].
    apply Forall_fmap, Forall_forall. intros p Hp. specialize (Hr p Hp). cbn. unfold in_u. lia. }
  pose proof (buffer_run_refines new _ wf_new Hok) as Hag.
  change (absr new) with Spec.empty in Hag.
  rewrite spec_run_pushes in Hag; try done.
  2:{ apply Forall_forall. intros p Hp. specialize (Hr p Hp).
      split; [cbn; unfold MAX_SEQUENCE_REORDER_WINDOW; lia|apply lookup_empty]. }
  cbn [Spec.next Spec.pending Spec.empty] in Hag.
  rewrite (right_id_L ∅ (∪)) in Hag.
  rewrite (list_to_map_proper (keyed (reverse qs)) (keyed ps)) in Hag;
    [|by rewrite keyed_fst, reverse_Permutation
     |unfold keyed; by rewrite reverse_Permutation, Hperm].
  rewrite spec_run_polls in Hag; [|done|unfold u64_MAX, max_u; lia].
  destruct (run step new _) as [[outs s]|]; [|done].
  destruct Hag as (-> & Hwf & Heq). exists s. split; [done|].
  injection Heq as Hn _ Hm. split; [|by unfold next_expected; rewrite <- Hn].
  unfold is_empty, len. destruct (buffer s) as [|p b] eqn:E; [done|].
  cbn in Hm. symmetry in Hm. by apply insert_non_empty in Hm.
Qed.

(** Wire format of a sequenced packet: deserialization accepts a byte
    string exactly when serialization produces it, so neither direction loses
    or invents anything. *)
Theorem packet_wire_roundtrip v p :
  bytes_ok v → Wire.packet_ok p →
  Wire.visit_bytes v = Ret (Ok p) ↔ Wire.serialize p = Ok v.
Proof.
  intros Hv Hp. rewrite Wire.serialize_eq. split; [|intros [= <-]; by apply Wire.visit_serialized].
  unfold Wire.visit_bytes. destruct v as [|b v]; [done|]. cbn [lookup list_lookup expect exec_bind].
  destruct ((b =? 0) || (b =? 1)) eqn:Eb; cbn [negb]; [|done].
  destruct (Nat.ltb_spec (length (b :: v)) 9) as [|Hl]; [done|].
  change (drop 1 (b :: v)) with v. change (drop 9 (b :: v)) with (drop 8 v).
  inversion Hv as [|?? Hb Hv']; subst. cbn [length] in Hl.
  destruct (Wire.u64_from (take 8 v)) as [n|] eqn:En; [|done].
  apply Wire.u64_from_bytes in En as [Hn Ht]; [|by apply Forall_take].
  intros [= <-]. cbn [data sequence_number last_data]. f_equal. f_equal.
  - destruct (Z.eqb_spec b 1); [done|]. destruct (Z.eqb_spec b 0); [done|]. done.
  - by rewrite <- Ht, take_drop.
Qed.

(** Concrete instances. *)
Definition pkt (n : Z) : SequencedPacket := mkPacket [n; 7] n false.

Lemma sequence_buffer_refines_witness :
  agree (run step new [Push (pkt 1); Push (pkt 0); Push (pkt 1); Poll; Repush (pkt 0); Poll; Poll])
        (run spec_step Spec.empty
           [Push (pkt 1); Push (pkt 0); Push (pkt 1); Poll; Repush (pkt 0); Poll; Poll]).
Proof. apply sequence_buffer_refines. repeat constructor; done. Defined.

Lemma in_order_delivery_witness :
  ∃ outs s, run step new [Push (pkt 1); Poll; Push (pkt 0); Poll; Poll] = Ret (outs, s) ∧
    (sequence_number <$> outs) = seqZ 0 (length outs) ∧
    Forall (fun p => Push p ∈ [Push (pkt 1); Poll; Push (pkt 0); Poll; Poll]) outs.
Proof. apply in_order_delivery. repeat constructor; done. Defined.

Lemma reorder_complete_witness :
  ∃ s, run step new ((Push <$> [pkt 2; pkt 0; pkt 1]) ++ replicate 3 Poll)
       = Ret ([pkt 0; pkt 1; pkt 2], s) ∧ is_empty s = true ∧ next_expected s = 3.
Proof.
  apply (reorder_complete [pkt 0; pkt 1; pkt 2] [pkt 2; pkt 0; pkt 1]).
  - reflexivity.
  - unfold MAX_SEQUENCE_REORDER_WINDOW. simpl. lia.
  - change [pkt 2; pkt 0; pkt 1] with ([pkt 2] ++ [pkt 0; pkt 1]).
    apply Permutation_app_comm.
Defined.

Lemma packet_wire_roundtrip_witness :
  Wire.visit_bytes [1; 0; 0; 0; 0; 0; 0; 1; 44; 9; 8] = Ret (Ok (mkPacket [9; 8] 300 true)) ↔
  Wire.serialize (mkPacket [9; 8] 300 true) = Ok [1; 0; 0; 0; 0; 0; 0; 1; 44; 9; 8].
Proof.
  apply packet_wire_roundtrip; [repeat constructor; done|].
  split; [done|repeat constructor; done].
Defined.
