(* ===== verification/BitQueue.v ===== *)
(** * The bit queue behind the compressed country data

    Models [src/masq-node-mobile/ip_country/src/bit_queue.rs]: a FIFO of bits
    packed into bytes, with a partly filled byte at each end.  Every method is
    a definition in the [exec] monad: explicit [panic!]s, failed [expect]s and
    shifts by at least the width of their operand are [Panic].

    The abstraction of a queue is a pair of integers, [qval] (the queued bits
    read with the oldest bit least significant) and [qlen] (their number):
    adding appends at the top, taking removes at the bottom.  [BitFifo] is the
    interface the serializer and deserializer of country blocks rely on. *)

From stdpp Require Import base list numbers option.
From Stdlib Require Import ZArith Lia.
From S2P Require Import Prelude.

Local Open Scope Z_scope.
Local Open Scope rust_scope.

Record BitQueue := mkQueue {
  back_blank_bit_count : Z;
  byte_queue : list Z;
  front_blank_bit_count : Z
}.

Definition new : BitQueue := mkQueue 8 [0; 0] 8.

Definition len (q : BitQueue) : Z :=
  Z.of_nat (length (byte_queue q)) * 8 - back_blank_bit_count q - front_blank_bit_count q.

Definition is_empty (q : BitQueue) : bool := len q =? 0.

(** Shifts of a [u64] and of a [u8]; a shift by the width or more panics. *)
Definition shl64 (d n : Z) : exec Z :=
  if 64 <=? n then Panic else Ret (wrap_u 64 (Z.shiftl d n)).
Definition shr64 (d n : Z) : exec Z :=
  if 64 <=? n then Panic else Ret (Z.shiftr d n).
Definition shr8 (d n : Z) : exec Z :=
  if 8 <=? n then Panic else Ret (Z.shiftr d n).

(** [VecDeque::pop_back] and an assignment through [back_mut]. *)
Definition pop_back (bs : list Z) : list Z := take (length bs - 1) bs.
Definition set_back (bs : list Z) (b : Z) : list Z := pop_back bs ++ [b].
Definition set_front (bs : list Z) (b : Z) : list Z := b :: tail bs.

Definition back_full_bit_count (q : BitQueue) : Z := 8 - back_blank_bit_count q.
Definition front_full_bit_count (q : BitQueue) : Z := 8 - front_blank_bit_count q.

(** [!(u64::MAX << count)] *)
Definition low_order_ones (count : Z) : exec Z :=
  let* m := shl64 (max_u 64) count in Ret (max_u 64 - m).

Definition add_some_back_bits (q : BitQueue) (bit_data bit_count : Z) : exec (Z * BitQueue) :=
  let q := if back_blank_bit_count q =? 0
           then mkQueue 8 (byte_queue q ++ [0]) (front_blank_bit_count q) else q in
  let bits_to_add := Z.min bit_count (back_blank_bit_count q) in
  let* back_ref := expect (list.last (byte_queue q)) in
  let* shifted := shl64 bit_data (back_full_bit_count q) in
  let bytes := set_back (byte_queue q) (Z.lor back_ref (wrap_u 8 shifted)) in
  let blank := back_blank_bit_count q - bits_to_add in
  Ret (bits_to_add,
       if blank =? 0 then mkQueue 8 (bytes ++ [0]) (front_blank_bit_count q)
       else mkQueue blank bytes (front_blank_bit_count q)).

(** The [while bit_count >= 8] loop; at most eight rounds for 64 bits. *)
Fixpoint add_back_bytes_loop (fuel : nat) (bytes : list Z) (bit_data bit_count : Z)
  : exec (list Z * Z) :=
  if bit_count <? 8 then Ret (bytes, bit_count)
  else match fuel with
       | O => Panic
       | S fuel =>
           let* ones := low_order_ones 8 in
           let next_byte := wrap_u 8 (Z.land bit_data ones) in
           let* bit_data' := shr64 bit_data 8 in
           add_back_bytes_loop fuel (bytes ++ [next_byte]) bit_data' (bit_count - 8)
       end.

Definition add_back_bytes (q : BitQueue) (bit_data bit_count : Z) : exec (Z * BitQueue) :=
  if 64 <? bit_count then Panic
  else if bit_count <? 8 then Ret (0, q)
  else
    let q := if back_blank_bit_count q =? 8
             then mkQueue 0 (pop_back (byte_queue q)) (front_blank_bit_count q) else q in
    if 0 <? back_blank_bit_count q then Panic
    else
      let* (bytes, remaining) := add_back_bytes_loop 8 (byte_queue q) bit_data bit_count in
      Ret (bit_count - remaining, mkQueue (back_blank_bit_count q) bytes (front_blank_bit_count q)).

Definition add_bits (q : BitQueue) (bit_data bit_count : Z) : exec BitQueue :=
  if 64 <? bit_count then Panic
  else
    let* (initial_bits_added, q) := add_some_back_bits q bit_data bit_count in
    let* bit_data := shr64 bit_data initial_bits_added in
    let bit_count := bit_count - initial_bits_added in
    let* (byte_bits_added, q) := add_back_bytes q bit_data bit_count in
    let* bit_data := shr64 bit_data byte_bits_added in
    let bit_count := bit_count - byte_bits_added in
    let* (final_bits_added, q) := add_some_back_bits q bit_data bit_count in
    let* bit_data := shr64 bit_data final_bits_added in
    let bit_count := bit_count - final_bits_added in
    if negb (bit_count =? 0) then Panic else Ret q.

Definition take_some_front_bits (q : BitQueue) (bit_count : Z) : exec (Z * Z * BitQueue) :=
  let q := if (front_full_bit_count q =? 0) && (2 <? length (byte_queue q))%nat
           then mkQueue (back_blank_bit_count q) (tail (byte_queue q)) 0 else q in
  let bits_to_take := Z.min bit_count (front_full_bit_count q) in
  if bits_to_take =? 0 then Ret (0, 0, q)
  else
    let* front_ref := expect (head (byte_queue q)) in
    let* ones := low_order_ones bits_to_take in
    let bit_data := Z.land front_ref (wrap_u 8 ones) in
    let* front' := if bits_to_take <? 8 then shr8 front_ref bits_to_take else Ret 0 in
    let bytes := set_front (byte_queue q) front' in
    let blank := front_blank_bit_count q + bits_to_take in
    Ret (bit_data, bits_to_take,
         if (blank =? 8) && (2 <? length bytes)%nat
         then mkQueue (back_blank_bit_count q) (tail bytes) 0
         else mkQueue (back_blank_bit_count q) bytes blank).

Fixpoint take_front_bytes_loop (fuel : nat) (bytes : list Z) (bit_data original bit_count : Z)
  : exec (list Z * Z * Z) :=
  if bit_count <? 8 then Ret (bytes, bit_data, bit_count)
  else match fuel with
       | O => Panic
       | S fuel =>
           let* byte := expect (head bytes) in
           let* shifted := shl64 byte (original - bit_count) in
           take_front_bytes_loop fuel (tail bytes) (Z.lor bit_data shifted) original (bit_count - 8)
       end.

Definition take_front_bytes (q : BitQueue) (bit_count : Z) : exec (Z * Z * BitQueue) :=
  if 64 <? bit_count then Panic
  else if bit_count <? 8 then Ret (0, 0, q)
  else
    let q := if front_blank_bit_count q =? 8
             then mkQueue (back_blank_bit_count q) (tail (byte_queue q)) 0 else q in
    if 0 <? front_blank_bit_count q then Panic
    else
      let* (bytes, bit_data, remaining) :=
        take_front_bytes_loop 8 (byte_queue q) 0 bit_count bit_count in
      Ret (bit_data, bit_count - remaining,
           if (length bytes <? 2)%nat
           then mkQueue (back_blank_bit_count q) (0 :: bytes) 8
           else mkQueue (back_blank_bit_count q) bytes (front_blank_bit_count q)).

Definition take_some_back_bits (q : BitQueue) (bit_count : Z) : exec (Z * Z * BitQueue) :=
  let bits_to_take := Z.min bit_count (back_full_bit_count q) in
  let remaining_bits := back_full_bit_count q - bits_to_take in
  let* mask := low_order_ones bits_to_take in
  let* back_ref := expect (list.last (byte_queue q)) in
  let bit_data := if remaining_bits <? 8 then Z.land back_ref (wrap_u 8 mask) else 0 in
  let* back' := shr8 back_ref bits_to_take in
  let bytes := set_back (byte_queue q) back' in
  let blank := back_blank_bit_count q + bits_to_take in
  Ret (bit_data, bits_to_take,
       if (blank =? 8) && (2 <? length bytes)%nat
       then mkQueue 0 (pop_back bytes) (front_blank_bit_count q)
       else mkQueue blank bytes (front_blank_bit_count q)).

Definition take_bits (q : BitQueue) (bit_count : Z) : exec (option Z * BitQueue) :=
  let original_bit_count := bit_count in
  if 64 <? bit_count then Panic
  else if len q <? bit_count then Ret (None, q)
  else
    let bit_data := 0 in
    let bit_position := 0 in
    let* (initial_bit_data, initial_bit_count, q) := take_some_front_bits q bit_count in
    let* shifted := shl64 initial_bit_data bit_position in
    let bit_data := Z.lor bit_data shifted in
    let bit_position := bit_position + initial_bit_count in
    let bit_count := bit_count - initial_bit_count in
    let* (byte_bit_data, byte_bit_count, q) := take_front_bytes q bit_count in
    let* shifted := shl64 byte_bit_data bit_position in
    let bit_data := Z.lor bit_data shifted in
    let bit_position := bit_position + byte_bit_count in
    let bit_count := bit_count - byte_bit_count in
    let* (final_front_bit_data, final_front_bit_count, q) := take_some_front_bits q bit_count in
    let* bit_data :=
      if 0 <? final_front_bit_count
      then let* shifted := shl64 final_front_bit_data bit_position in Ret (Z.lor bit_data shifted)
      else Ret bit_data in
    let bit_position := bit_position + final_front_bit_count in
    let bit_count := bit_count - final_front_bit_count in
    let* (final_back_bit_data, final_back_bit_count, q) := take_some_back_bits q bit_count in
    let* bit_data :=
      if 0 <? final_back_bit_count
      then let* shifted := shl64 final_back_bit_data bit_position in Ret (Z.lor bit_data shifted)
      else Ret bit_data in
    let bit_position := bit_position + final_back_bit_count in
    if negb (bit_position =? original_bit_count) then Panic
    else Ret (Some bit_data, q).

(** ** Abstraction *)

Fixpoint le_value (bs : list Z) : Z :=
  match bs with [] => 0 | b :: bs => b + 256 * le_value bs end.

Definition qval (q : BitQueue) : Z :=
  match byte_queue q with
  | [] => 0
  | f :: bs => f + 2 ^ (8 - front_blank_bit_count q) * le_value bs
  end.

Definition qlen := len.

(** At least two bytes, except in the state left by taking the last whole byte. *)
Record wf (q : BitQueue) : Prop := {
  wf_back : 0 ≤ back_blank_bit_count q ≤ 8;
  wf_front : 0 ≤ front_blank_bit_count q ≤ 8;
  wf_shape :
    (∃ f mid b, byte_queue q = f :: mid ++ [b] ∧ bytes_ok mid ∧
       in_u (8 - front_blank_bit_count q) f ∧ in_u (8 - back_blank_bit_count q) b)
    ∨ (byte_queue q = [0] ∧ back_blank_bit_count q = 0 ∧ front_blank_bit_count q = 8)
}.

Lemma le_value_app bs cs :
  le_value (bs ++ cs) = le_value bs + 2 ^ (8 * Z.of_nat (length bs)) * le_value cs.
Proof.
  induction bs as [|b bs IH]; cbn [app le_value length].
  - change (8 * Z.of_nat 0) with 0. lia.
  - rewrite IH. replace (8 * Z.of_nat (S (length bs))) with (8 + 8 * Z.of_nat (length bs)) by lia.
    rewrite Z.pow_add_r by lia. change (2 ^ 8) with 256. lia.
Qed.

Lemma le_value_range bs : bytes_ok bs → in_u (8 * Z.of_nat (length bs)) (le_value bs).
Proof.
  induction 1 as [|b bs Hb _ IH] using Forall_ind; [done|]. cbn [le_value length].
  replace (8 * Z.of_nat (S (length bs))) with (8 + 8 * Z.of_nat (length bs)) by lia.
  replace (256 * le_value bs) with (le_value bs * 2 ^ 8) by (change (2 ^ 8) with 256; lia).
  apply in_u_join; try lia; done.
Qed.

Lemma pop_back_snoc bs b : pop_back (bs ++ [b]) = bs.
Proof. unfold pop_back. rewrite length_app. cbn. apply take_app_length'. lia. Qed.

Lemma low_order_ones_eq n : 0 ≤ n < 64 → low_order_ones n = Ret (Z.ones n).
Proof.
  intros Hn. unfold low_order_ones, shl64. destruct (Z.leb_spec 64 n); [lia|]. cbn [exec_bind].
  f_equal. rewrite Z.ones_equiv. unfold wrap_u, max_u. rewrite shiftl_mul by lia.
  assert (2 ^ 64 = 2 ^ (64 - n) * 2 ^ n) as H1.
  { rewrite <- Z.pow_add_r by lia. f_equal. lia. }
  pose proof (pow2_pos n ltac:(lia)). pose proof (pow2_pos (64 - n) ltac:(lia)).
  assert (2 ^ n ≤ 2 ^ 64) by (apply Z.pow_le_mono_r; lia).
  replace ((2 ^ 64 - 1) * 2 ^ n) with (2 ^ 64 - 2 ^ n + (2 ^ n - 1) * 2 ^ 64) by lia.
  rewrite Z.mod_add, Z.mod_small by lia. lia.
Qed.

Lemma shl64_eq d n : 0 ≤ n < 64 → in_u (64 - n) d → shl64 d n = Ret (d * 2 ^ n).
Proof.
  intros Hn Hd. unfold shl64. destruct (Z.leb_spec 64 n); [lia|]. f_equal.
  rewrite shiftl_mul by lia. apply wrap_u_small. unfold in_u in *.
  assert (2 ^ 64 = 2 ^ (64 - n) * 2 ^ n) as ->.
  { rewrite <- Z.pow_add_r by lia. f_equal. lia. }
  pose proof (pow2_pos n ltac:(lia)). nia.
Qed.

Lemma shr64_eq d n : 0 ≤ n < 64 → shr64 d n = Ret (d / 2 ^ n).
Proof. intros. unfold shr64. destruct (Z.leb_spec 64 n); [lia|]. by rewrite shiftr_div by lia. Qed.

Lemma shr8_eq d n : 0 ≤ n < 8 → shr8 d n = Ret (d / 2 ^ n).
Proof. intros. unfold shr8. destruct (Z.leb_spec 8 n); [lia|]. by rewrite shiftr_div by lia. Qed.

(** Masking a byte with the low [n] ones. *)
Lemma land_ones8 b n : 0 ≤ n ≤ 8 → Z.land b (wrap_u 8 (Z.ones n)) = b mod 2 ^ n.
Proof.
  intros Hn. rewrite wrap_u_small; [by apply land_ones_mod; lia|].
  rewrite Z.ones_equiv. unfold in_u. pose proof (pow2_pos n ltac:(lia)).
  pose proof (Z.pow_le_mono_r 2 n 8). lia.
Qed.

(** Merging [d]'s low bits above the [8 - k] bits of [b]. *)
Lemma merge_back b d k c :
  0 < k ≤ 8 → in_u (8 - k) b → in_u 64 d → (c < k → in_u c d) → 0 ≤ c →
  Z.lor b (wrap_u 8 (wrap_u 64 (Z.shiftl d (8 - k)))) = b + 2 ^ (8 - k) * (d mod 2 ^ Z.min c k) ∧
  in_u (8 - k + Z.min c k) (b + 2 ^ (8 - k) * (d mod 2 ^ Z.min c k)).
Proof.
  intros Hk Hb Hd Hc Hc0.
  assert (d mod 2 ^ Z.min c k = d mod 2 ^ k) as Hmod.
  { destruct (Z.le_gt_cases k c); [by rewrite Z.min_r|]. rewrite Z.min_l by lia.
    rewrite !Z.mod_small; [done| |apply Hc; lia].
    eapply (in_u_mono c k); [lia|lia|]. apply Hc; lia. }
  split.
  - rewrite Hmod, shiftl_mul by lia. unfold wrap_u.
    assert (2 ^ 64 = 2 ^ 56 * 2 ^ 8) as -> by done.
    rewrite Z.mul_comm, (Z.mul_comm (2 ^ 56)), Z.rem_mul_r, Z.mul_comm by lia.
    rewrite Z.mul_comm, (Z.mul_comm (2 ^ 8)), Z.mod_add, Z.mod_mod by lia.
    assert (2 ^ 8 = 2 ^ k * 2 ^ (8 - k)) as ->.
    { rewrite <- Z.pow_add_r by lia. f_equal. lia. }
    pose proof (pow2_pos k ltac:(lia)). pose proof (pow2_pos (8 - k) ltac:(lia)).
    rewrite (Z.mul_comm _ d), Z.mul_mod_distr_r by lia.
    rewrite <- shiftl_mul by lia. rewrite lor_low_high by (done || lia). lia.
  - rewrite (Z.mul_comm (2 ^ (8 - k))). apply in_u_join; try lia; [done|].
    apply Z.mod_pos_bound, pow2_pos. lia.
Qed.

(** ** Adding bits *)

(** The two-ended shape, with its ingredients named. *)
Definition shape (q : BitQueue) (f : Z) (mid : list Z) (b : Z) : Prop :=
  byte_queue q = f :: mid ++ [b] ∧ bytes_ok mid ∧
  in_u (8 - front_blank_bit_count q) f ∧ in_u (8 - back_blank_bit_count q) b ∧
  0 ≤ back_blank_bit_count q ≤ 8 ∧ 0 ≤ front_blank_bit_count q ≤ 8.

Lemma shape_wf q f mid b : shape q f mid b → wf q.
Proof. intros (?&?&?&?&?&?). split; try done. left. by exists f, mid, b. Qed.

Lemma wf_cases q :
  wf q → (∃ f mid b, shape q f mid b) ∨ q = mkQueue 0 [0] 8.
Proof.
  intros [Hb Hf [(f & mid & b & ? & ? & ? & ?)|(?&?&?)]].
  - left. by exists f, mid, b.
  - right. destruct q; cbn in *. by subst.
Qed.

Lemma shape_qval q f mid b :
  shape q f mid b →
  qval q = f + 2 ^ (8 - front_blank_bit_count q) *
             (le_value mid + 2 ^ (8 * Z.of_nat (length mid)) * b).
Proof. intros (Hq & _). unfold qval. rewrite Hq, le_value_app. cbn. lia. Qed.

Lemma shape_qlen q f mid b :
  shape q f mid b →
  qlen q = (8 - front_blank_bit_count q) + 8 * Z.of_nat (length mid) + (8 - back_blank_bit_count q).
Proof. intros (Hq & _). unfold qlen, len. rewrite Hq. cbn. rewrite length_app. cbn. lia. Qed.

Lemma qlen_nonneg q : wf q → 0 ≤ qlen q.
Proof.
  intros Hq. destruct (wf_cases q Hq) as [(f & mid & b & Hs)| ->]; [|done].
  rewrite (shape_qlen _ _ _ _ Hs). destruct Hs as (_&_&_&_&?&?). lia.
Qed.

Lemma qval_range q : wf q → in_u (qlen q) (qval q).
Proof.
  intros Hq. destruct (wf_cases q Hq) as [(f & mid & b & Hs)| ->]; [|done].
  rewrite (shape_qlen _ _ _ _ Hs), (shape_qval _ _ _ _ Hs).
  destruct Hs as (_ & Hm & Hf & Hb & ? & ?).
  rewrite (Z.mul_comm (2 ^ (8 - _))), (Z.mul_comm (2 ^ (8 * _))), <- Z.add_assoc.
  apply in_u_join; try lia; [done|]. apply in_u_join; try lia; [|done].
  by apply le_value_range.
Qed.

(** A full back byte is extended with an empty one before bits are added. *)
Lemma extend_back q :
  wf q →
  let q1 := if back_blank_bit_count q =? 0
            then mkQueue 8 (byte_queue q ++ [0]) (front_blank_bit_count q) else q in
  ∃ f mid b, shape q1 f mid b ∧ 0 < back_blank_bit_count q1 ∧
    qval q1 = qval q ∧ qlen q1 = qlen q.
Proof.
  intros Hq q1. unfold q1. destruct (wf_cases q Hq) as [(f & mid & b & Hs)| ->];
    [|exists 0, [], 0; repeat split; done].
  destruct (Z.eqb_spec (back_blank_bit_count q) 0) as [E|E].
  - pose proof Hs as (Hb & Hm & Hf & Hbk & ? & ?). rewrite E in Hbk.
    assert (shape (mkQueue 8 (byte_queue q ++ [0]) (front_blank_bit_count q))
              f (mid ++ [b]) 0) as Hs'.
    { split_and!; cbn; try done; try lia; [by rewrite Hb|].
      apply Forall_app; split; [done|]. by constructor. }
    exists f, (mid ++ [b]), 0. split_and!; [done|done| |].
    + rewrite (shape_qval _ _ _ _ Hs), (shape_qval _ _ _ _ Hs'). cbn [front_blank_bit_count].
      rewrite le_value_app. cbn. lia.
    + rewrite (shape_qlen _ _ _ _ Hs), (shape_qlen _ _ _ _ Hs'). cbn. rewrite length_app, E. cbn. lia.
  - exists f, mid, b. split_and!; try done. destruct Hs as (_&_&_&_&?&_). lia.
Qed.

(** Replacing the back byte by one with [k] more bits. *)
Lemma grow_back q f mid b k d :
  shape q f mid b → 0 ≤ k ≤ back_blank_bit_count q →
  in_u (8 - back_blank_bit_count q + k) (b + 2 ^ (8 - back_blank_bit_count q) * d) →
  let q' := mkQueue (back_blank_bit_count q - k)
              (set_back (byte_queue q) (b + 2 ^ (8 - back_blank_bit_count q) * d))
              (front_blank_bit_count q) in
  shape q' f mid (b + 2 ^ (8 - back_blank_bit_count q) * d) ∧
  qval q' = qval q + 2 ^ qlen q * d ∧ qlen q' = qlen q + k.
Proof.
  intros Hs Hk Hd q'.
  assert (shape q' f mid (b + 2 ^ (8 - back_blank_bit_count q) * d)) as Hs'.
  { destruct Hs as (Hq & ? & ? & ? & ? & ?). split_and!; cbn; try done; try lia.
    - unfold set_back. rewrite Hq, app_comm_cons, pop_back_snoc. done.
    - replace (8 - (back_blank_bit_count q - k)) with (8 - back_blank_bit_count q + k) by lia.
      apply Hd. }
  split; [done|]. rewrite (shape_qval _ _ _ _ Hs), (shape_qval _ _ _ _ Hs'),
    (shape_qlen _ _ _ _ Hs), (shape_qlen _ _ _ _ Hs'). cbn [front_blank_bit_count back_blank_bit_count q'].
  destruct Hs as (_ & _ & _ & _ & ? & ?). split; [|lia].
  rewrite !Z.pow_add_r by lia. lia.
Qed.

Lemma add_some_back_bits_spec q d c :
  wf q → 0 ≤ c → in_u 64 d → (c < 8 → in_u c d) →
  ∃ k q', add_some_back_bits q d c = Ret (k, q') ∧ wf q' ∧
    0 ≤ k ≤ c ∧ k ≤ 8 ∧ (0 < c → 0 < k) ∧ (k < c → back_blank_bit_count q' = 8) ∧
    ((back_blank_bit_count q = 0 ∨ back_blank_bit_count q = 8) ∧ c < 8 → k = c) ∧
    qval q' = qval q + 2 ^ qlen q * (d mod 2 ^ k) ∧ qlen q' = qlen q + k.
Proof.
  intros Hq Hc Hd Hsmall. unfold add_some_back_bits.
  pose proof (extend_back q Hq) as (f & mid & b & Hs & Hpos & Hval & Hlen).
  assert ((back_blank_bit_count q = 0 ∨ back_blank_bit_count q = 8) ∧ c < 8 →
    c < back_blank_bit_count (if back_blank_bit_count q =? 0
      then mkQueue 8 (byte_queue q ++ [0]) (front_blank_bit_count q) else q)) as Hfresh.
  { intros [[E|E] ?]; rewrite E; [done|]. cbn. lia. }
  set (q1 := if back_blank_bit_count q =? 0 then _ else q) in *.
  pose proof Hs as (Hbytes & _ & _ & Hb & Hbb & _).
  rewrite Hbytes, app_comm_cons, last_snoc. cbn [expect exec_bind]. rewrite <- app_comm_cons, <- Hbytes.
  unfold back_full_bit_count, shl64. destruct (Z.leb_spec 64 (8 - back_blank_bit_count q1)); [lia|].
  cbn [exec_bind].
  destruct (merge_back b d (back_blank_bit_count q1) c) as [Hm Hr]; try done; [lia| |].
  { intros Hlt. apply Hsmall. lia. }
  rewrite Hm. set (k := Z.min c (back_blank_bit_count q1)) in *.
  destruct (grow_back q1 f mid b k (d mod 2 ^ k) Hs) as (Hs' & Hv' & Hl'); [lia|done|].
  set (q2 := mkQueue (back_blank_bit_count q1 - k) _ _) in *.
  exists k, (if back_blank_bit_count q1 - k =? 0
     then mkQueue 8 (byte_queue q2 ++ [0]) (front_blank_bit_count q1) else q2).
  split; [done|].
  pose proof (extend_back q2 (shape_wf _ _ _ _ Hs')) as (f' & mid' & b' & Hs2 & Hpos2 & Hval2 & Hlen2).
  change (back_blank_bit_count q2) with (back_blank_bit_count q1 - k) in *.
  change (front_blank_bit_count q2) with (front_blank_bit_count q1) in *.
  split; [by apply shape_wf in Hs2|].
  rewrite Hval2, Hv', Hval, Hlen2, Hl', Hlen.
  split_and!; try done; try lia.
  intros Hk. destruct (Z.eqb_spec (back_blank_bit_count q1 - k) 0); [done|lia].
Qed.

Lemma add_back_bytes_loop_spec fuel bytes d c :
  0 ≤ c ≤ 8 * Z.of_nat fuel + 7 → in_u 64 d →
  ∃ bs, add_back_bytes_loop fuel bytes d c = Ret (bytes ++ bs, c mod 8) ∧ bytes_ok bs ∧
    Z.of_nat (length bs) = c / 8 ∧ le_value bs = d mod 2 ^ (8 * (c / 8)).
Proof.
  revert bytes d c. induction fuel as [|fuel IH]; intros bytes d c Hc Hd; cbn [add_back_bytes_loop];
    destruct (Z.ltb_spec c 8) as [Hlt|Hge]; try lia.
  1,2: exists []; rewrite app_nil_r, Z.mod_small, Z.div_small, Z.mod_1_r by lia; done.
  rewrite low_order_ones_eq by lia. cbn [exec_bind]. rewrite shr64_eq by lia. cbn [exec_bind].
  destruct (IH (bytes ++ [wrap_u 8 (Z.land d (Z.ones 8))]) (d / 2 ^ 8) (c - 8))
    as (bs & -> & Hok & Hlen & Hv); [lia| |].
  { apply (in_u_mono 56 64); [lia|lia|]. by apply (in_u_div d 8 56). }
  assert (c = (c - 8) + 1 * 8) as Hc8 by lia.
  assert (c / 8 = (c - 8) / 8 + 1) as Hdiv by (rewrite Hc8 at 1; rewrite Z.div_add by lia; lia).
  assert (c mod 8 = (c - 8) mod 8) as Hmod by (rewrite Hc8 at 1; apply Z.mod_add; lia).
  exists (wrap_u 8 (Z.land d (Z.ones 8)) :: bs). rewrite <- app_assoc, Hmod.
  pose proof (Z.div_pos (c - 8) 8).
  split_and!; [done| | |].
  - constructor; [|done]. apply wrap_u_range. lia.
  - cbn [length]. lia.
  - cbn [le_value]. rewrite Hv, land_ones_mod, wrap_u_small by (lia || (apply Z.mod_pos_bound; lia)).
    rewrite Hdiv. replace (8 * ((c - 8) / 8 + 1)) with (8 + 8 * ((c - 8) / 8)) by lia.
    rewrite div_mod_split by lia. done.
Qed.

Lemma add_back_bytes_spec q d c :
  wf q → 0 ≤ c < 64 → in_u 64 d → (8 ≤ c → back_blank_bit_count q = 8) →
  ∃ k q', add_back_bytes q d c = Ret (k, q') ∧ wf q' ∧ k = 8 * (c / 8) ∧
    (8 ≤ c → back_blank_bit_count q' = 0) ∧ (c < 8 → q' = q) ∧
    qval q' = qval q + 2 ^ qlen q * (d mod 2 ^ k) ∧ qlen q' = qlen q + k.
Proof.
  intros Hq Hc Hd Hb. unfold add_back_bytes. destruct (Z.ltb_spec 64 c); [lia|].
  destruct (Z.ltb_spec c 8) as [Hlt|Hge].
  { exists 0, q. rewrite Z.div_small, Z.mod_1_r by lia. split_and!; try done; lia. }
  specialize (Hb Hge).
  destruct (wf_cases q Hq) as [(f & mid & b & Hs)| ->]; [|done].
  pose proof Hs as (Hbytes & Hm & Hf & Hbk & ? & ?). rewrite Hb in Hbk.
  assert (b = 0) as -> by (destruct Hbk; change (2 ^ (8 - 8)) with 1 in *; lia).
  rewrite Hb, Hbytes, app_comm_cons, pop_back_snoc. cbn -[add_back_bytes_loop].
  destruct (add_back_bytes_loop_spec 8 (f :: mid) d c) as (bs & -> & Hok & Hlen & Hv); [lia|done|].
  cbn [exec_bind]. assert (1 ≤ c / 8) by (apply Z.div_le_lower_bound; lia).
  assert (∃ bs' b', bs = bs' ++ [b']) as (bs' & b' & ->).
  { destruct bs as [|x bs _] using rev_ind; [cbn in Hlen; lia|]. by exists bs, x. }
  apply Forall_app in Hok as [Hok Hb']. inversion Hb'; subst.
  set (q' := mkQueue 0 _ _).
  assert (shape q' f (mid ++ bs') b') as Hs'.
  { split_and!; cbn; try done; try lia; [by rewrite <- app_assoc|by apply Forall_app]. }
  exists (c - c mod 8), q'. split; [done|]. split; [by eapply shape_wf|].
  assert (c - c mod 8 = 8 * (c / 8)) as Hk by (pose proof (Z.div_mod c 8); lia).
  rewrite Hk. split_and!; try done; try lia.
  - rewrite <- Hv, (shape_qval _ _ _ _ Hs), (shape_qval _ _ _ _ Hs'), (shape_qlen _ _ _ _ Hs).
    cbn [front_blank_bit_count back_blank_bit_count q']. rewrite !le_value_app, Hb, length_app.
    cbn [le_value]. rewrite Nat2Z.inj_add, !Z.mul_add_distr_l, Z.sub_diag, Z.add_0_r, !Z.pow_add_r by lia.
    ring.
  - rewrite (shape_qlen _ _ _ _ Hs), (shape_qlen _ _ _ _ Hs'). cbn. rewrite Hb.
    rewrite length_app in *. cbn in Hlen. lia.
Qed.

Lemma add_bits_spec q d c :
  wf q → 0 ≤ c ≤ 64 → in_u c d →
  ∃ q', add_bits q d c = Ret q' ∧ wf q' ∧
    qval q' = qval q + 2 ^ qlen q * d ∧ qlen q' = qlen q + c.
Proof.
  intros Hq Hc Hd. unfold add_bits. destruct (Z.ltb_spec 64 c); [lia|].
  assert (in_u 64 d) as Hd64 by (apply (in_u_mono c 64); done || lia).
  destruct (add_some_back_bits_spec q d c) as (k1 & q1 & -> & Hq1 & Hk1 & Hk1' & Hp1 & Hbl1 & _ & Hv1 & Hl1);
    try done; [lia|]. cbn [exec_bind]. rewrite shr64_eq by lia. cbn [exec_bind].
  assert (in_u (c - k1) (d / 2 ^ k1)) as Hd1.
  { apply in_u_div; [lia|lia|]. by replace (k1 + (c - k1)) with c by lia. }
  destruct (add_back_bytes_spec q1 (d / 2 ^ k1) (c - k1)) as (k2 & q2 & -> & Hq2 & Hk2 & Hb2 & Hsame & Hv2 & Hl2);
    try done; [lia|apply (in_u_mono (c - k1) 64); done || lia|intros; apply Hbl1; lia|].
  pose proof (Z.div_mod (c - k1) 8 ltac:(lia)) as Hdm.
  pose proof (Z.mod_pos_bound (c - k1) 8 ltac:(lia)) as Hmb.
  pose proof (Z.div_pos (c - k1) 8 ltac:(lia) ltac:(lia)) as Hdp.
  cbn [exec_bind]. rewrite shr64_eq by lia. cbn [exec_bind].
  assert (in_u (c - k1 - k2) (d / 2 ^ k1 / 2 ^ k2)) as Hd2.
  { apply in_u_div; [lia|lia|]. by replace (k2 + (c - k1 - k2)) with (c - k1) by lia. }
  destruct (add_some_back_bits_spec q2 (d / 2 ^ k1 / 2 ^ k2) (c - k1 - k2))
    as (k3 & q3 & -> & Hq3 & Hk3 & Hk3' & Hp3 & Hbl3 & Hf3 & Hv3 & Hl3);
    try done; [lia|apply (in_u_mono (c - k1 - k2) 64); done || lia|].
  cbn [exec_bind]. rewrite shr64_eq by lia. cbn [exec_bind].
  assert (k3 = c - k1 - k2) as Hk3eq.
  { destruct (Z.le_gt_cases 8 (c - k1)); [apply Hf3; split; [left; by apply Hb2|lia]|].
    rewrite (Hsame ltac:(lia)) in Hf3. rewrite (Z.div_small (c - k1) 8) in Hk2 by lia.
    destruct (Z.eq_dec k1 c); [lia|]. apply Hf3. split; [right; apply Hbl1; lia|lia]. }
  rewrite Hk3eq, Z.sub_diag. cbn [negb Z.eqb]. exists q3. split_and!; try done; [|lia].
  rewrite Hv3, Hv2, Hv1, Hl2, Hl1, Hk3eq, (Z.mod_small (d / 2 ^ k1 / 2 ^ k2)) by done.
  replace (2 ^ (qlen q + k1 + k2)) with (2 ^ qlen q * 2 ^ k1 * 2 ^ k2).
  2:{ pose proof (qlen_nonneg q Hq). by rewrite !Z.pow_add_r by lia. }
  replace (2 ^ (qlen q + k1)) with (2 ^ qlen q * 2 ^ k1).
  2:{ pose proof (qlen_nonneg q Hq). by rewrite !Z.pow_add_r by lia. }
  pose proof (Z.div_mod d (2 ^ k1) ltac:(apply Z.pow_nonzero; lia)).
  pose proof (Z.div_mod (d / 2 ^ k1) (2 ^ k2) ltac:(apply Z.pow_nonzero; lia)). nia.
Qed.

(** ** Taking bits *)

(** An exhausted front byte is dropped while a middle byte is left. *)
Lemma drop_front q f x mid b :
  shape q f (x :: mid) b → front_blank_bit_count q = 8 →
  let q1 := mkQueue (back_blank_bit_count q) (tail (byte_queue q)) 0 in
  shape q1 x mid b ∧ qval q1 = qval q ∧ qlen q1 = qlen q.
Proof.
  intros Hs E q1. pose proof Hs as (Hq & Hm & Hf & Hb & ? & ?).
  rewrite E in Hf. assert (f = 0) as -> by (destruct Hf; change (2 ^ (8 - 8)) with 1 in *; lia).
  inversion Hm; subst.
  assert (shape q1 x mid b) as Hs'.
  { split_and!; cbn; try done; try lia. by rewrite Hq. }
  split; [done|]. rewrite (shape_qval _ _ _ _ Hs), (shape_qval _ _ _ _ Hs'),
    (shape_qlen _ _ _ _ Hs), (shape_qlen _ _ _ _ Hs'), E.
  cbn [front_blank_bit_count back_blank_bit_count q1 le_value length].
  change (2 ^ (8 - 8)) with 1. change (2 ^ (8 - 0)) with 256.
  replace (8 * Z.of_nat (S (length mid))) with (8 + 8 * Z.of_nat (length mid)) by lia.
  rewrite Z.pow_add_r by lia. change (2 ^ 8) with 256. split; lia.
Qed.

(** Removing [k] bits of the front byte. *)
Lemma shrink_front q f mid b k :
  shape q f mid b → 0 ≤ k ≤ 8 - front_blank_bit_count q →
  let q' := mkQueue (back_blank_bit_count q) (set_front (byte_queue q) (f / 2 ^ k))
              (front_blank_bit_count q + k) in
  shape q' (f / 2 ^ k) mid b ∧ f mod 2 ^ k = qval q mod 2 ^ k ∧
  qval q' = qval q / 2 ^ k ∧ qlen q' = qlen q - k.
Proof.
  intros Hs Hk q'.
  assert (shape q' (f / 2 ^ k) mid b) as Hs'.
  { destruct Hs as (Hq & Hm & Hf & Hb & ? & ?). split_and!; cbn; try done; try lia; [by rewrite Hq|].
    apply in_u_div; [lia|lia|].
    by replace (k + (8 - (front_blank_bit_count q + k))) with (8 - front_blank_bit_count q) by lia. }
  split; [done|]. rewrite (shape_qval _ _ _ _ Hs), (shape_qval _ _ _ _ Hs'),
    (shape_qlen _ _ _ _ Hs), (shape_qlen _ _ _ _ Hs').
  cbn [front_blank_bit_count back_blank_bit_count q'].
  set (r := le_value mid + _).
  replace (2 ^ (8 - front_blank_bit_count q))
    with (2 ^ (8 - (front_blank_bit_count q + k)) * 2 ^ k).
  2:{ rewrite <- Z.pow_add_r by lia. f_equal. lia. }
  pose proof (pow2_pos k ltac:(lia)).
  replace (2 ^ (8 - (front_blank_bit_count q + k)) * 2 ^ k * r)
    with (2 ^ (8 - (front_blank_bit_count q + k)) * r * 2 ^ k) by lia.
  split_and!; [by rewrite Z.mod_add by lia|by rewrite Z.div_add by lia|lia].
Qed.

(** What the front of the queue looks like once it yields no further bit. *)
Definition front_done (q : BitQueue) : Prop :=
  front_blank_bit_count q = 8 ∧ (length (byte_queue q) ≤ 2)%nat.

Lemma settle_front q :
  wf q →
  let q1 := if (front_full_bit_count q =? 0) && (2 <? length (byte_queue q))%nat
            then mkQueue (back_blank_bit_count q) (tail (byte_queue q)) 0 else q in
  wf q1 ∧ qval q1 = qval q ∧ qlen q1 = qlen q ∧
  (front_blank_bit_count q1 = 8 → front_done q1) ∧
  (front_blank_bit_count q ≠ 8 ∨ front_done q → q1 = q) ∧
  (front_blank_bit_count q = 8 → front_blank_bit_count q1 = 0 ∨ front_done q1).
Proof.
  intros Hq q1. unfold q1, front_full_bit_count.
  destruct (wf_cases q Hq) as [(f & mid & b & Hs)| ->]; [|unfold front_done; cbn; naive_solver lia].
  pose proof Hs as (Hb & _ & _ & _ & ? & ?).
  destruct (Z.eqb_spec (8 - front_blank_bit_count q) 0) as [E|E]; cbn [andb].
  - destruct (Nat.ltb_spec 2 (length (byte_queue q))) as [Hl|Hl].
    + destruct mid as [|x mid]; [rewrite Hb in Hl; cbn in Hl; lia|].
      destruct (drop_front _ _ _ _ _ Hs) as (Hs' & Hv & Hlen); [lia|].
      split_and!; try done; [by eapply shape_wf| |by left].
      intros [?|[_ ?]]; lia.
    + unfold front_done. split_and!; try done; lia.
  - split_and!; try done; lia.
Qed.

Lemma take_some_front_bits_spec q c :
  wf q → 0 ≤ c →
  ∃ d k q', take_some_front_bits q c = Ret (d, k, q') ∧ wf q' ∧ 0 ≤ k ≤ c ∧ k ≤ 8 ∧
    d = qval q mod 2 ^ k ∧ qval q' = qval q / 2 ^ k ∧ qlen q' = qlen q - k ∧
    (k < c → front_blank_bit_count q' = 0 ∨ front_done q') ∧
    (front_blank_bit_count q = 0 ∨ front_done q → c < 8 → k < c → front_done q').
Proof.
  intros Hq Hc. unfold take_some_front_bits.
  pose proof (settle_front q Hq) as (Hq1 & Hv1 & Hl1 & Hd1 & Hsame & _).
  set (q1 := if (front_full_bit_count q =? 0) && _ then _ else q) in *.
  unfold front_full_bit_count in *. pose proof (wf_front _ Hq1) as Hf1.
  destruct (Z.eqb_spec (Z.min c (8 - front_blank_bit_count q1)) 0) as [E|E].
  { exists 0, 0, q1. rewrite Z.mod_1_r, Z.div_1_r. split_and!; try done; try lia.
    - intros. right. apply Hd1. lia.
    - intros. apply Hd1. lia. }
  destruct (wf_cases q1 Hq1) as [(f & mid & b & Hs)|Hsing]; [|rewrite Hsing in E; cbn in E; lia].
  set (k := Z.min c (8 - front_blank_bit_count q1)) in *.
  pose proof Hs as (Hbytes & _ & Hf & _ & ? & ?). 
  assert (head (byte_queue q1) = Some f) as -> by (by rewrite Hbytes). cbn [expect exec_bind].
  rewrite low_order_ones_eq by lia. cbn [exec_bind]. rewrite land_ones8 by lia.
  assert ((if k <? 8 then shr8 f k else Ret 0) = Ret (f / 2 ^ k)) as ->.
  { destruct (Z.ltb_spec k 8); [by apply shr8_eq; lia|]. f_equal. symmetry. apply Z.div_small.
    replace k with (8 - front_blank_bit_count q1) by lia. done. }
  cbn [exec_bind]. destruct (shrink_front q1 f mid b k Hs) as (Hs2 & Hmod & Hv2 & Hl2); [lia|].
  set (q2 := mkQueue (back_blank_bit_count q1) _ (front_blank_bit_count q1 + k)) in *.
  pose proof (settle_front q2 (shape_wf _ _ _ _ Hs2)) as (Hq3 & Hv3 & Hl3 & Hd3 & Hsame3 & Hfin).
  assert ((front_full_bit_count q2 =? 0) = (front_blank_bit_count q1 + k =? 8)) as Hcond.
  { unfold front_full_bit_count. cbn. by destruct (Z.eqb_spec (8 - (front_blank_bit_count q1 + k)) 0),
      (Z.eqb_spec (front_blank_bit_count q1 + k) 8); try lia. }
  rewrite Hcond in *. eexists _, k, _. split; [reflexivity|].
  change (back_blank_bit_count q1) with (back_blank_bit_count q2).
  change (set_front (byte_queue q1) (f / 2 ^ k)) with (byte_queue q2).
  change (mkQueue (back_blank_bit_count q2) (byte_queue q2) _) with q2.
  rewrite Hmod, Hv3, Hv2, Hv1, Hl3, Hl2, Hl1. split_and!; try done; try lia.
  - intros Hlt. apply Hfin. cbn. lia.
  - intros Hfr Hc8 Hlt. exfalso.
    assert (q1 = q) as Hqq by (apply Hsame; destruct Hfr; [left; lia|by right]).
    assert (front_blank_bit_count q1 = front_blank_bit_count q) as Hfb by (by rewrite Hqq).
    destruct Hfr as [?|[? _]]; lia.
Qed.

Lemma take_front_bytes_loop_spec fuel bs rest acc orig c :
  0 ≤ c ≤ 8 * Z.of_nat fuel + 7 → c ≤ orig ≤ 64 → bytes_ok bs →
  Z.of_nat (length bs) = c / 8 → in_u (orig - c) acc →
  take_front_bytes_loop fuel (bs ++ rest) acc orig c
  = Ret (rest, acc + 2 ^ (orig - c) * le_value bs, c mod 8).
Proof.
  revert bs acc c. induction fuel as [|fuel IH]; intros bs acc c Hc Ho Hok Hl Hacc;
    cbn [take_front_bytes_loop]; destruct (Z.ltb_spec c 8) as [Hlt|Hge]; try lia.
  1,2: rewrite Z.div_small in Hl by lia; destruct bs; [|done];
    rewrite Z.mod_small by lia; cbn; by rewrite Z.mul_0_r, Z.add_0_r.
  assert (c = (c - 8) + 1 * 8) as Hc8 by lia.
  assert (c / 8 = (c - 8) / 8 + 1) as Hdiv by (rewrite Hc8 at 1; rewrite Z.div_add by lia; lia).
  assert (c mod 8 = (c - 8) mod 8) as Hmod by (rewrite Hc8 at 1; apply Z.mod_add; lia).
  pose proof (Z.div_pos (c - 8) 8 ltac:(lia) ltac:(lia)).
  destruct bs as [|x bs]; [cbn in Hl; lia|]. cbn [app head expect exec_bind tail].
  inversion Hok as [|?? Hx Hbs]; subst.
  rewrite shl64_eq by first [lia|apply (in_u_mono 8); [lia|lia|done]]. cbn [exec_bind].
  rewrite <- shiftl_mul by lia. rewrite lor_low_high by (done || lia).
  rewrite (IH bs); [| |lia|done|cbn [length] in Hl; lia|].
  - rewrite Hmod. cbn [le_value]. f_equal. f_equal. f_equal.
    replace (orig - (c - 8)) with (orig - c + 8) by lia.
    rewrite Z.pow_add_r by lia. change (2 ^ 8) with 256. lia.
  - lia.
  - replace (orig - (c - 8)) with (orig - c + 8) by lia. apply in_u_join; try lia; done.
Qed.

(** With an unbroken front, the queue is its list of bytes [init ++ [b]]. *)
Lemma unbroken q :
  wf q → front_blank_bit_count q = 0 ∨ front_done q → 8 ≤ qlen q →
  let L := if front_blank_bit_count q =? 8 then tail (byte_queue q) else byte_queue q in
  ∃ init b, L = init ++ [b] ∧ bytes_ok init ∧ in_u (8 - back_blank_bit_count q) b ∧
    qval q = le_value L ∧ qlen q = 8 * Z.of_nat (length L) - back_blank_bit_count q.
Proof.
  intros Hq Hfr Hlen L. unfold L. destruct (wf_cases q Hq) as [(f & mid & b & Hs)| ->]; [|done].
  pose proof Hs as (Hb & Hm & Hf & Hbk & ? & ?).
  rewrite (shape_qval _ _ _ _ Hs), (shape_qlen _ _ _ _ Hs) in *. rewrite Hb in *.
  destruct Hfr as [E|[E El]]; rewrite E in *; cbn [Z.eqb tail].
  - exists (f :: mid), b. split_and!; try done; [by constructor| |].
    + cbn [le_value]. rewrite le_value_app. change (2 ^ (8 - 0)) with 256. cbn [le_value]. lia.
    + cbn [length]. rewrite length_app. cbn [length]. lia.
  - rewrite Hb in El. cbn in El. rewrite length_app in El. cbn in El.
    destruct mid; [|cbn in El; lia].
    assert (f = 0) as -> by (destruct Hf; change (2 ^ (8 - 8)) with 1 in *; lia).
    exists [], b. split_and!; try done; cbn; lia.
Qed.

(** What is left after whole bytes went: an empty byte goes in front of fewer than two. *)
Lemma refront init b n bb :
  bytes_ok init → in_u (8 - bb) b → 0 ≤ bb ≤ 8 →
  8 * Z.of_nat n ≤ 8 * Z.of_nat (length (init ++ [b])) - bb →
  let rest := drop n (init ++ [b]) in
  let q' := if (length rest <? 2)%nat then mkQueue bb (0 :: rest) 8 else mkQueue bb rest 0 in
  wf q' ∧ qval q' = le_value rest ∧ qlen q' = 8 * Z.of_nat (length rest) - bb ∧
  (front_blank_bit_count q' = 0 ∨ front_done q').
Proof.
  intros Hok Hb Hbb Hn rest. rewrite length_app in Hn. cbn in Hn.
  unfold rest. destruct (decide (n ≤ length init)%nat) as [Hle|Hgt].
  - rewrite drop_app_le by done.
    destruct (drop n init) as [|f mid] eqn:Ed.
    + assert (shape (mkQueue bb [0; b] 8) 0 [] b) as Hs by (split_and!; cbn; try done; lia).
      cbn [app length Nat.ltb Nat.leb].
      split_and!; [by eapply shape_wf| | |right; unfold front_done; cbn; lia].
      * rewrite (shape_qval _ _ _ _ Hs). cbn [front_blank_bit_count le_value length].
        change (2 ^ (8 - 8)) with 1. change (2 ^ (8 * Z.of_nat 0)) with 1. lia.
      * rewrite (shape_qlen _ _ _ _ Hs). cbn. lia.
    + assert (bytes_ok (f :: mid)) as Hfm by (rewrite <- Ed; by apply Forall_drop).
      inversion Hfm; subst.
      destruct (Nat.ltb_spec (length ((f :: mid) ++ [b])) 2) as [Hl|_].
      { cbn in Hl. rewrite length_app in Hl. cbn in Hl. lia. }
      assert (shape (mkQueue bb ((f :: mid) ++ [b]) 0) f mid b) as Hs
        by (split_and!; cbn; try done; lia).
      split_and!; [by eapply shape_wf| | |by left].
      * rewrite (shape_qval _ _ _ _ Hs). cbn [front_blank_bit_count app le_value].
        rewrite le_value_app. change (2 ^ (8 - 0)) with 256. cbn [le_value]. lia.
      * rewrite (shape_qlen _ _ _ _ Hs). cbn. rewrite length_app. cbn. lia.
  - assert (bb = 0 ∧ n = S (length init)) as [-> ->] by lia.
    rewrite drop_ge by (rewrite length_app; cbn; lia). cbn.
    split_and!; try done; [|right; unfold front_done; cbn; lia].
    split; cbn; try lia. by right.
Qed.

Lemma take_front_bytes_spec q c :
  wf q → 0 ≤ c ≤ 64 → c ≤ qlen q → (8 ≤ c → front_blank_bit_count q = 0 ∨ front_done q) →
  ∃ d k q', take_front_bytes q c = Ret (d, k, q') ∧ wf q' ∧ k = 8 * (c / 8) ∧
    d = qval q mod 2 ^ k ∧ qval q' = qval q / 2 ^ k ∧ qlen q' = qlen q - k ∧
    (8 ≤ c → front_blank_bit_count q' = 0 ∨ front_done q') ∧ (c < 8 → q' = q).
Proof.
  intros Hq Hc Hlen Hfr. unfold take_front_bytes. destruct (Z.ltb_spec 64 c); [lia|].
  destruct (Z.ltb_spec c 8) as [Hlt|Hge].
  { exists 0, 0, q. rewrite Z.div_small, Z.mod_1_r, Z.div_1_r by lia. split_and!; try done; lia. }
  specialize (Hfr Hge). destruct (unbroken q Hq Hfr) as (init & b & HL & Hok & Hb & Hv & Hl); [lia|].
  set (L := if front_blank_bit_count q =? 8 then _ else _) in *.
  set (q1 := if front_blank_bit_count q =? 8 then mkQueue _ _ 0 else q).
  assert (byte_queue q1 = L ∧ back_blank_bit_count q1 = back_blank_bit_count q
          ∧ front_blank_bit_count q1 = 0) as (-> & -> & ->).
  { unfold q1, L. by destruct Hfr as [E|[E _]]; rewrite E; cbn; rewrite ?E. }
  cbn [Z.ltb Z.compare]. pose proof (Z.div_mod c 8 ltac:(lia)) as Hdm.
  pose proof (Z.mod_pos_bound c 8 ltac:(lia)). pose proof (Z.div_pos c 8 ltac:(lia) ltac:(lia)).
  set (n := Z.to_nat (c / 8)). pose proof (wf_back _ Hq) as Hbb.
  assert (bytes_ok L) as HokL.
  { rewrite HL. apply Forall_app; split; [done|]. constructor; [|done].
    apply (in_u_mono (8 - back_blank_bit_count q)); [lia|lia|done]. }
  assert (length (take n L) = n) as Htl by (rewrite length_take; unfold n; lia).
  pose proof (take_front_bytes_loop_spec 8 (take n L) (drop n L) 0 c c) as Hloop.
  rewrite take_drop in Hloop. rewrite Hloop; [|lia|lia|by apply Forall_take|unfold n in *; lia|rewrite Z.sub_diag; done].
  cbn [exec_bind]. rewrite Z.sub_diag, Z.mul_1_l, Z.add_0_l.
  destruct (refront init b n (back_blank_bit_count q)) as (Hq' & Hv' & Hl' & Hf'); try done;
    [rewrite <- HL; unfold n; lia|]. rewrite <- HL in Hq', Hv', Hl', Hf'.
  assert (c - c mod 8 = 8 * (c / 8)) as -> by lia.
  assert (8 * (c / 8) = 8 * Z.of_nat (length (take n L))) as Hk by (unfold n in *; lia).
  eexists _, _, _. split; [reflexivity|].
  assert (qval q = le_value (take n L) + le_value (drop n L) * 2 ^ (8 * (c / 8))) as Hsplit.
  { rewrite Hv, Hk. transitivity (le_value (take n L ++ drop n L)); [by rewrite take_drop|].
    rewrite le_value_app. lia. }
  assert (in_u (8 * (c / 8)) (le_value (take n L))) as Hr.
  { rewrite Hk. apply le_value_range. by apply Forall_take. }
  pose proof (pow2_pos (8 * (c / 8)) ltac:(lia)).
  rewrite Hv', Hl', Hsplit, Hl. split_and!; try done; try lia.
  - by rewrite Z.mod_add, Z.mod_small by (done || lia).
  - rewrite Z.div_add, Z.div_small by (done || lia). lia.
  - rewrite length_drop. unfold n. lia.
Qed.

(** An empty back byte may be dropped as long as two bytes remain. *)
Lemma drop_back q f mid b :
  shape q f mid b → back_blank_bit_count q = 8 → (2 < length (byte_queue q))%nat →
  let q1 := mkQueue 0 (pop_back (byte_queue q)) (front_blank_bit_count q) in
  wf q1 ∧ qval q1 = qval q ∧ qlen q1 = qlen q.
Proof.
  intros Hs E Hl q1. pose proof Hs as (Hq & Hm & Hf & Hb & ? & ?).
  rewrite E in Hb. assert (b = 0) as -> by (destruct Hb; change (2 ^ (8 - 8)) with 1 in *; lia).
  destruct mid as [|y mid _] using rev_ind; [rewrite Hq in Hl; cbn in Hl; lia|].
  apply Forall_app in Hm as [Hm Hy]. inversion Hy; subst.
  assert (shape q1 f mid y) as Hs'.
  { split_and!; cbn; try done; try lia. by rewrite Hq, app_comm_cons, pop_back_snoc. }
  split; [by eapply shape_wf|]. rewrite (shape_qval _ _ _ _ Hs), (shape_qval _ _ _ _ Hs'),
    (shape_qlen _ _ _ _ Hs), (shape_qlen _ _ _ _ Hs'), E.
  cbn [front_blank_bit_count back_blank_bit_count q1]. rewrite le_value_app, length_app. cbn. lia.
Qed.

(** Taking from the back byte once the front is done. *)
Lemma shrink_back q b k :
  shape q 0 [] b → front_blank_bit_count q = 8 → 0 ≤ k ≤ 8 - back_blank_bit_count q →
  let q' := mkQueue (back_blank_bit_count q + k) (set_back (byte_queue q) (b / 2 ^ k)) 8 in
  shape q' 0 [] (b / 2 ^ k) ∧ qval q = b ∧ qval q' = b / 2 ^ k ∧ qlen q' = qlen q - k.
Proof.
  intros Hs E Hk q'. pose proof Hs as (Hq & Hm & Hf & Hb & ? & ?).
  assert (shape q' 0 [] (b / 2 ^ k)) as Hs'.
  { split_and!; cbn; try done; try lia; [by rewrite Hq|]. apply in_u_div; [lia|lia|].
    by replace (k + (8 - (back_blank_bit_count q + k))) with (8 - back_blank_bit_count q) by lia. }
  rewrite (shape_qval _ _ _ _ Hs), (shape_qval _ _ _ _ Hs'),
    (shape_qlen _ _ _ _ Hs), (shape_qlen _ _ _ _ Hs'), E.
  cbn [front_blank_bit_count back_blank_bit_count q' le_value length].
  change (2 ^ (8 - 8)) with 1. change (2 ^ (8 * Z.of_nat 0)) with 1.
  split_and!; [done|lia|lia|lia].
Qed.

Lemma take_some_back_bits_spec q c :
  wf q → c = 0 ∨ (front_done q ∧ 0 ≤ c < 8 ∧ c ≤ qlen q) →
  ∃ q', take_some_back_bits q c = Ret (qval q mod 2 ^ c, c, q') ∧ wf q' ∧
    qval q' = qval q / 2 ^ c ∧ qlen q' = qlen q - c.
Proof.
  intros Hq Hc. unfold take_some_back_bits, back_full_bit_count. pose proof (wf_back _ Hq) as Hbb.
  destruct (wf_cases q Hq) as [(f & mid & b & Hs)| ->].
  2:{ destruct Hc as [->|(_&?&?)]; [|assert (c = 0) as -> by (unfold qlen, len in *; cbn in *; lia)];
      eexists; (split; [reflexivity|]); done. }
  pose proof Hs as (Hbytes & _ & Hf & Hb & _ & ?).
  assert (list.last (byte_queue q) = Some b) as -> by (by rewrite Hbytes, app_comm_cons, last_snoc).
  assert (c ≤ 8 - back_blank_bit_count q ∧ 0 ≤ c < 8) as [Hcb Hc8].
  { destruct Hc as [->|([E El]&?&Hle)]; [lia|]. rewrite (shape_qlen _ _ _ _ Hs), E in Hle.
    rewrite Hbytes in El. cbn in El. rewrite length_app in El. cbn in El. lia. }
  rewrite Z.min_l by lia. rewrite low_order_ones_eq by lia. cbn [exec_bind expect].
  rewrite shr8_eq by lia. cbn [exec_bind]. rewrite land_ones8 by lia.
  destruct (Z.eq_dec c 0) as [->|Hc0].
  - change (2 ^ 0) with 1. rewrite !Z.mod_1_r, !Z.div_1_r, Z.add_0_r, Z.sub_0_r.
    assert (set_back (byte_queue q) b = byte_queue q) as ->.
    { unfold set_back. by rewrite Hbytes, app_comm_cons, pop_back_snoc. }
    destruct (Z.eqb_spec (back_blank_bit_count q) 8) as [E|E]; cbn [andb].
    + destruct (Nat.ltb_spec 2 (length (byte_queue q))) as [Hl|].
      * destruct (drop_back _ _ _ _ Hs E Hl) as (? & Hv & Hlen). eexists.
        split; [by destruct (_ <? 8)|]. rewrite Hv, Hlen. split_and!; [done|done|lia].
      * exists q. split; [destruct (_ <? 8); by destruct q|]. split_and!; [done|done|lia].
    + exists q. split; [destruct (_ <? 8); by destruct q|]. split_and!; [done|done|lia].
  - destruct Hc as [->|([E El]&_&_)]; [done|].
    destruct mid; [|rewrite Hbytes in El; cbn in El; rewrite length_app in El; cbn in El; lia].
    assert (f = 0) as ->.
    { rewrite E in Hf. destruct Hf; change (2 ^ (8 - 8)) with 1 in *; lia. }
    destruct (shrink_back q b c Hs E) as (Hs' & Hv & Hv' & Hl'); [lia|].
    destruct (Z.ltb_spec (8 - back_blank_bit_count q - c) 8); [|lia].
    rewrite Hv. assert (length (set_back (byte_queue q) (b / 2 ^ c)) = 2%nat) as -> by (by rewrite Hbytes).
    cbn [Nat.ltb Nat.leb]. rewrite andb_false_r, E. eexists. split; [reflexivity|].
    rewrite Hv', Hl'. split_and!; [by eapply shape_wf|done|done].
Qed.

(** Accumulating successive pieces of a value, least significant first. *)
Lemma accumulate v pos k :
  0 ≤ pos → 0 ≤ k → pos + k ≤ 64 →
  ∀ acc, acc = v mod 2 ^ pos → 0 ≤ v →
  (if 0 <? k
   then let* shifted := shl64 ((v / 2 ^ pos) mod 2 ^ k) pos in Ret (Z.lor acc shifted)
   else Ret acc) = Ret (v mod 2 ^ (pos + k)).
Proof.
  intros Hp Hk Hsum acc -> Hv. pose proof (pow2_pos pos Hp). pose proof (pow2_pos k Hk).
  destruct (Z.ltb_spec 0 k) as [Hpos|Hz].
  - rewrite shl64_eq; [|lia|].
    2:{ apply (in_u_mono k); [lia|lia|]. apply Z.mod_pos_bound. lia. }
    cbn [exec_bind]. rewrite <- shiftl_mul by lia.
    rewrite lor_low_high by (lia || (apply Z.mod_pos_bound; lia)).
    rewrite div_mod_split by lia. f_equal. lia.
  - assert (k = 0) as -> by lia. by rewrite Z.add_0_r.
Qed.

Lemma take_bits_short q c : c ≤ 64 → qlen q < c → take_bits q c = Ret (None, q).
Proof.
  intros Hc Hl. unfold take_bits. destruct (Z.ltb_spec 64 c); [lia|].
  unfold qlen in Hl. by destruct (Z.ltb_spec (len q) c); [|lia].
Qed.

Lemma take_bits_spec q c :
  wf q → 0 ≤ c ≤ 64 → c ≤ qlen q →
  ∃ q', take_bits q c = Ret (Some (qval q mod 2 ^ c), q') ∧ wf q' ∧
    qval q' = qval q / 2 ^ c ∧ qlen q' = qlen q - c.
Proof.
  intros Hq Hc Hl. unfold take_bits. destruct (Z.ltb_spec 64 c); [lia|].
  unfold qlen in Hl. destruct (Z.ltb_spec (len q) c); [lia|]. fold qlen in *.
  pose proof (proj1 (qval_range q Hq)) as Hpos.
  destruct (take_some_front_bits_spec q c) as (d1 & k1 & q1 & -> & Hq1 & Hk1 & Hk1' & -> & Hv1 & Hl1 & Hf1 & _);
    [done|lia|]. cbn [exec_bind].
  change (2 ^ 0) with 1.
  rewrite shl64_eq; [|lia|apply (in_u_mono k1); [lia|lia|apply Z.mod_pos_bound, pow2_pos; lia]].
  cbn [exec_bind]. change (2 ^ 0) with 1. rewrite Z.mul_1_r, Z.lor_0_l, Z.add_0_l.
  destruct (take_front_bytes_spec q1 (c - k1)) as (d2 & k2 & q2 & -> & Hq2 & Hk2 & -> & Hv2 & Hl2 & Hf2 & Hsame2);
    [done|lia|unfold qlen in *; lia|intros; apply Hf1; lia|]. cbn [exec_bind].
  pose proof (Z.div_mod (c - k1) 8 ltac:(lia)) as Hdm.
  pose proof (Z.mod_pos_bound (c - k1) 8 ltac:(lia)) as Hmb.
  pose proof (Z.div_pos (c - k1) 8 ltac:(lia) ltac:(lia)) as Hdp.
  rewrite Hv1. rewrite shl64_eq; [|lia|].
  2:{ apply (in_u_mono k2); [lia|lia|]. apply Z.mod_pos_bound, pow2_pos; lia. }
  cbn [exec_bind]. rewrite <- shiftl_mul by lia.
  rewrite lor_low_high by (lia || (apply Z.mod_pos_bound, pow2_pos; lia)).
  rewrite (Z.mul_comm _ (2 ^ k1)), <- div_mod_split by lia.
  destruct (take_some_front_bits_spec q2 (c - k1 - k2))
    as (d3 & k3 & q3 & -> & Hq3 & Hk3 & Hk3' & -> & Hv3 & Hl3 & Hf3 & Hf3'); [done|lia|].
  cbn [exec_bind]. rewrite Hv2, Hv1, Z.div_div, <- Z.pow_add_r by (lia || apply Z.pow_nonzero; lia).
  rewrite (accumulate (qval q) (k1 + k2) k3) by (done || lia). cbn [exec_bind].
  destruct (take_some_back_bits_spec q3 (c - k1 - k2 - k3)) as (q4 & -> & Hq4 & Hv4 & Hl4); [done| |].
  { destruct (Z.eq_dec k3 (c - k1 - k2)) as [->|Hne]; [left; lia|right].
    split; [|unfold qlen in *; lia]. apply Hf3'; [|lia|lia].
    destruct (Z.le_gt_cases 8 (c - k1)); [by apply Hf2|]. rewrite (Hsame2 ltac:(lia)). apply Hf1.
    rewrite (Z.div_small (c - k1) 8) in Hk2 by lia. lia. }
  cbn [exec_bind]. rewrite Hv3, Hv2, Hv1, !Z.div_div, <- !Z.pow_add_r by (lia || apply Z.pow_nonzero; lia).
  rewrite (Z.add_assoc k1 k2 k3).
  rewrite (accumulate (qval q) (k1 + k2 + k3)) by (done || lia). cbn [exec_bind].
  replace (k1 + k2 + k3 + (c - k1 - k2 - k3)) with c by lia. rewrite Z.eqb_refl. cbn [negb].
  exists q4. split_and!; [done|done| |unfold qlen in *; lia].
  rewrite Hv4, Hv3, Hv2, Hv1, !Z.div_div, <- !Z.pow_add_r by (lia || apply Z.pow_nonzero; lia).
  f_equal. f_equal. lia.
Qed.

(** ** The interface: a FIFO of bits *)

Class BitFifo (Q : Type) := {
  fifo_new : Q;
  fifo_add : Q → Z → Z → exec Q;
  fifo_take : Q → Z → exec (option Z * Q);
  fifo_ok : Q → Prop;
  fifo_val : Q → Z;
  fifo_len : Q → Z;
  fifo_new_ok : fifo_ok fifo_new ∧ fifo_val fifo_new = 0 ∧ fifo_len fifo_new = 0;
  fifo_len_nonneg q : fifo_ok q → 0 ≤ fifo_len q;
  fifo_val_range q : fifo_ok q → in_u (fifo_len q) (fifo_val q);
  fifo_add_ok q d c :
    fifo_ok q → 0 ≤ c ≤ 64 → in_u c d →
    ∃ q', fifo_add q d c = Ret q' ∧ fifo_ok q' ∧
      fifo_val q' = fifo_val q + 2 ^ fifo_len q * d ∧ fifo_len q' = fifo_len q + c;
  fifo_take_ok q c :
    fifo_ok q → 0 ≤ c ≤ 64 → c ≤ fifo_len q →
    ∃ q', fifo_take q c = Ret (Some (fifo_val q mod 2 ^ c), q') ∧ fifo_ok q' ∧
      fifo_val q' = fifo_val q / 2 ^ c ∧ fifo_len q' = fifo_len q - c;
  fifo_take_short q c :
    c ≤ 64 → fifo_len q < c → fifo_take q c = Ret (None, q)
}.

Lemma new_spec : wf new ∧ qval new = 0 ∧ qlen new = 0.
Proof. split; [|done]. apply (shape_wf _ 0 [] 0). by split_and!. Qed.

Global Program Instance BitQueue_fifo : BitFifo BitQueue := {
  fifo_new := new; fifo_add := add_bits; fifo_take := take_bits;
  fifo_ok := wf; fifo_val := qval; fifo_len := qlen;
  fifo_new_ok := new_spec; fifo_len_nonneg := qlen_nonneg;
  fifo_val_range := qval_range;
  fifo_add_ok := add_bits_spec; fifo_take_ok := take_bits_spec;
  fifo_take_short := take_bits_short
}.

Inductive op := Add (bit_data bit_count : Z) | Take (bit_count : Z).

Definition op_ok (o : op) : Prop :=
  match o with
  | Add d c => 0 ≤ c ≤ 64 ∧ in_u c d
  | Take c => 0 ≤ c ≤ 64
  end.

Fixpoint run (q : BitQueue) (ops : list op) : exec (list (option Z) * BitQueue) :=
  match ops with
  | [] => Ret ([], q)
  | Add d c :: ops => let* q := add_bits q d c in run q ops
  | Take c :: ops =>
      let* (out, q) := take_bits q c in
      let* (outs, q) := run q ops in
      Ret (out :: outs, q)
  end.

(** The reference machine on (value, length). *)
Fixpoint spec_run (s : Z * Z) (ops : list op) : list (option Z) * (Z * Z) :=
  match ops with
  | [] => ([], s)
  | Add d c :: ops => spec_run (s.1 + 2 ^ s.2 * d, s.2 + c) ops
  | Take c :: ops =>
      if s.2 <? c then let '(outs, s') := spec_run s ops in (None :: outs, s')
      else let '(outs, s') := spec_run (s.1 / 2 ^ c, s.2 - c) ops in
           (Some (s.1 mod 2 ^ c) :: outs, s')
  end.

Lemma queue_run_refines q ops :
  wf q → Forall op_ok ops →
  ∃ outs q', run q ops = Ret (outs, q') ∧ wf q' ∧
    spec_run (qval q, qlen q) ops = (outs, (qval q', qlen q')).
Proof.
  intros Hq Hops. revert q Hq. induction Hops as [|o ops Ho _ IH]; intros q Hq; [by exists [], q|].
  destruct o as [d c|c]; cbn [run spec_run fst snd].
  - destruct Ho as [Hc Hd]. destruct (add_bits_spec q d c) as (q1 & -> & Hq1 & Hv & Hl); try done.
    cbn [exec_bind]. rewrite <- Hv, <- Hl. by apply IH.
  - cbn in Ho. destruct (Z.ltb_spec (qlen q) c).
    + rewrite take_bits_short by lia. cbn [exec_bind].
      destruct (IH q Hq) as (outs & q' & -> & ? & ->). by exists (None :: outs), q'.
    + destruct (take_bits_spec q c) as (q1 & -> & Hq1 & Hv & Hl); try done.
      cbn [exec_bind]. rewrite <- Hv, <- Hl.
      destruct (IH q1 Hq1) as (outs & q' & -> & ? & ->). by eexists (_ :: outs), q'.
Qed.

(** For every sequence of [add_bits] (values that fit their width) and
    [take_bits] calls of at most 64 bits, the byte-packed queue never panics
    and answers exactly as the reference machine on a value and a length. *)
Theorem bit_queue_refines ops :
  Forall op_ok ops →
  ∃ outs q, run new ops = Ret (outs, q) ∧ spec_run (0, 0) ops = (outs, (qval q, qlen q)).
Proof.
  intros Hops. destruct (queue_run_refines new ops (proj1 new_spec) Hops) as (outs & q & Hr & _ & Hs).
  by exists outs, q.
Qed.

Lemma bit_queue_refines_witness :
  ∃ outs q, run new [Add 5 3; Add 1000 10; Take 7; Take 7; Take 6] = Ret (outs, q) ∧
    spec_run (0, 0) [Add 5 3; Add 1000 10; Take 7; Take 7; Take 6] = (outs, (qval q, qlen q)).
Proof. apply bit_queue_refines. repeat constructor; done. Defined.

(** ** Consequences for any FIFO of bits *)
Section Fifo.
Context {Q : Type} `{!BitFifo Q}.

(** A queue whose content starts with [d] on [c] bits yields [d] first. *)
Lemma fifo_take_first q d c v :
  fifo_ok q → 0 ≤ c ≤ 64 → in_u c d → c ≤ fifo_len q →
  fifo_val q = d + 2 ^ c * v →
  ∃ q', fifo_take q c = Ret (Some d, q') ∧ fifo_ok q' ∧
    fifo_val q' = v ∧ fifo_len q' = fifo_len q - c.
Proof.
  intros Hq Hc Hd Hl Hv. destruct (fifo_take_ok q c Hq Hc Hl) as (q' & -> & Hq' & Hv' & Hl').
  pose proof (pow2_pos c ltac:(lia)). rewrite Hv, (Z.mul_comm (2 ^ c)) in *.
  rewrite Z.mod_add, Z.mod_small by (done || lia). exists q'. split_and!; try done.
  rewrite Hv', Z.div_add, Z.div_small by (done || lia). lia.
Qed.
End Fifo.
