(* ===== verification/CountrySerde.v ===== *)
(** * Compressed country data: serializer and deserializer

    Models [src/masq-node-mobile/ip_country/src/country_block_serde.rs], the
    data types of [country_block_stream.rs], the lookup part of
    [countries.rs] and the word output of [ip_country.rs].

    An IP address is the integer it denotes ([u32] or [u128]); its octets and
    segments are base-2^8, 2^8 (IPv4) and 2^16 (IPv6) digits.  The generic code
    is parameterised, as in the source, by the number and the width of the
    segments ([IpFamily]); the queue is any [BitFifo], instantiated by the bit
    queue of [BitQueue]. *)

From stdpp Require Import base list numbers option strings.
From Stdlib Require Import ZArith Lia.
From S2P Require Import Prelude BitQueue.

Local Open Scope Z_scope.
Local Open Scope rust_scope.

Record Country := mkCountry { index : Z; iso3166 : string; country_name : string }.

Inductive IpRange := V4 (start end_ : Z) | V6 (start end_ : Z).

Record CountryBlock := mkBlock { ip_range : IpRange; country : Country }.

(** [Countries::country_from_index] on the table of countries. *)
Definition country_from_index (countries : list Country) (i : Z) : option Country :=
  if i <? 0 then None else countries !! Z.to_nat i.

(** The parameters of the generic code: [SEGMENTS_COUNT], the width of a
    segment, and the widths of the difference count and of an index. *)
Record IpFamily := mkFamily {
  segments_count : nat;
  segment_bit_count : Z;
  difference_count_bit_count : Z;
  index_bit_count : Z;
  make_range : Z → Z → IpRange
}.

Definition ipv4 : IpFamily := mkFamily 4 8 2 2 V4.
Definition ipv6 : IpFamily := mkFamily 8 16 3 3 V6.

Definition addr_bits (fam : IpFamily) : Z := segment_bit_count fam * Z.of_nat (segments_count fam).
Definition max_ip_value (fam : IpFamily) : Z := max_u (addr_bits fam).

(** The address serialization starts from: one below the maximum. *)
Definition initial_prev_start (fam : IpFamily) : Z := max_ip_value fam - 1.

Definition segments (fam : IpFamily) (ip : Z) : list Z :=
  digits (segment_bit_count fam) (segments_count fam) ip.
Definition ip_from_segments (fam : IpFamily) (segs : list Z) : Z :=
  undigits (segment_bit_count fam) 0 segs.
Definition octets (fam : IpFamily) (ip : Z) : list Z :=
  be_bytes (Z.to_nat (addr_bits fam / 8)) ip.

(** [integer_from_ip_generic]: shift in the octets one by one. *)
Definition integer_from_ip_generic (fam : IpFamily) (ip : Z) : Z :=
  foldl (fun bit_data octet => Z.lor (wrap_u (addr_bits fam) (Z.shiftl bit_data 8)) octet)
    0 (octets fam ip).

Definition plus_one_ip (fam : IpFamily) (ip : Z) : Z :=
  wrap_u (addr_bits fam) (integer_from_ip_generic fam ip + 1).
Definition minus_one_ip (fam : IpFamily) (ip : Z) : Z :=
  wrap_u (addr_bits fam) (integer_from_ip_generic fam ip - 1).

Record Difference := mkDiff { diff_index : Z; diff_value : Z }.

(** [ips_into_differences]: the segments of [to] that differ, with their index. *)
Fixpoint differences_from (i : nat) (from to : list Z) : list Difference :=
  match from, to with
  | f :: from, t :: to =>
      if t =? f then differences_from (S i) from to
      else mkDiff (Z.of_nat i) t :: differences_from (S i) from to
  | _, _ => []
  end.
Definition ips_into_differences (fam : IpFamily) (from to : Z) : list Difference :=
  differences_from 0 (segments fam from) (segments fam to).

(** A block as start, end and country index. *)
Abbreviation block := (Z * Z * Z)%type.

Section Serde.
Context {Q : Type} `{!BitFifo Q} (fam : IpFamily).

(** ** Serializer *)

Record VersionedIPSerializer := mkSer {
  prev_start : Z;
  prev_end : Z;
  block_count : Z;
  bit_queue : Q
}.

Definition serializer_new : VersionedIPSerializer :=
  mkSer (initial_prev_start fam) (max_ip_value fam) 0 fifo_new.

Fixpoint add_differences (q : Q) (ds : list Difference) : exec Q :=
  match ds with
  | [] => Ret q
  | d :: ds =>
      let* q := fifo_add q (diff_index d) (index_bit_count fam) in
      let* q := fifo_add q (diff_value d) (segment_bit_count fam) in
      add_differences q ds
  end.

(** The part of [add_ip_generic] after the gap has been filled; an empty
    difference list makes [differences.len() - 1] overflow. *)
Definition add_record (s : VersionedIPSerializer) (start end_ country_index : Z)
  : exec VersionedIPSerializer :=
  let differences := ips_into_differences fam (prev_start s) start in
  let* difference_count_minus_one :=
    expect (checked_sub 64 (Z.of_nat (length differences)) 1) in
  let* q := fifo_add (bit_queue s) difference_count_minus_one (difference_count_bit_count fam) in
  let* q := add_differences q differences in
  let* q := fifo_add q country_index 9 in
  Ret (mkSer start end_ (block_count s + 1) q).

(** [add_ip_generic]; [depth] bounds the recursion that fills a gap. *)
Fixpoint add_ip_generic (depth : nat) (s : VersionedIPSerializer)
    (start end_ country_index : Z) : exec VersionedIPSerializer :=
  let expected_start := plus_one_ip fam (prev_end s) in
  let* s :=
    if negb (start =? expected_start) then
      match depth with
      | O => Panic
      | S depth => add_ip_generic depth s expected_start (minus_one_ip fam start) 0
      end
    else Ret s in
  add_record s start end_ country_index.

Definition add_ip (s : VersionedIPSerializer) (start end_ country_index : Z) :=
  add_ip_generic 1 s start end_ country_index.

(** [CountryBlockSerializer::finish] for one family. *)
Definition finish (s : VersionedIPSerializer) : exec VersionedIPSerializer :=
  if negb (prev_end s =? max_ip_value fam)
  then add_ip s (plus_one_ip fam (prev_end s)) (max_ip_value fam) 0
  else Ret s.

Fixpoint add_all (s : VersionedIPSerializer) (blocks : list block) : exec VersionedIPSerializer :=
  match blocks with
  | [] => Ret s
  | (start, end_, i) :: blocks => let* s := add_ip s start end_ i in add_all s blocks
  end.

Definition serialize_blocks (blocks : list block) : exec VersionedIPSerializer :=
  let* s := add_all serializer_new blocks in finish s.

(** ** The generated constant: 64-bit words and the number of bits *)

Fixpoint country_words (fuel : nat) (q : Q) : exec (list Z) :=
  if 64 <=? fifo_len q then
    match fuel with
    | O => Panic
    | S fuel =>
        let* (v, q) := fifo_take q 64 in
        let* v := expect v in
        let* vs := country_words fuel q in
        Ret (v :: vs)
    end
  else if fifo_len q =? 0 then Ret []
  else let* (v, q) := fifo_take q (fifo_len q) in
       let* v := expect v in Ret [v].

Definition country_data (q : Q) : exec (list Z * Z) :=
  let* words := country_words (Z.to_nat (fifo_len q)) q in
  Ret (words, fifo_len q).

(** [bit_queue_from_country_data]; [remove(0)] of an empty vector panics. *)
Fixpoint load_words (words : list Z) (q : Q) (bit_count : Z) : exec Q :=
  if 64 <=? bit_count then
    match words with
    | [] => Panic
    | w :: words => let* q := fifo_add q w 64 in load_words words q (bit_count - 64)
    end
  else if 0 <? bit_count then
    match words with
    | [] => Panic
    | w :: _ => fifo_add q w bit_count
    end
  else Ret q.

Definition bit_queue_from_country_data (data : list Z * Z) : exec Q :=
  load_words data.1 fifo_new data.2.

(** ** Deserializer *)

Record StreamRecord := mkRecord { record_start : Z; country_idx : Z }.

Record CountryBlockDeserializer := mkDe {
  countries : list Country;
  prev_record : StreamRecord;
  de_queue : Q;
  empty : bool
}.

(** [segments[d.index] = try_from(d.value).expect(..)] for every difference. *)
Fixpoint apply_differences (segs : list Z) (ds : list Difference) : exec (list Z) :=
  match ds with
  | [] => Ret segs
  | d :: ds =>
      if bool_decide (in_u (segment_bit_count fam) (diff_value d)) then
        if (diff_index d <? Z.of_nat (length segs)) then
          apply_differences (<[Z.to_nat (diff_index d) := diff_value d]> segs) ds
        else Panic
      else Panic
  end.

Definition record_new (ds : list Difference) (segs : list Z) (i : Z) : exec StreamRecord :=
  let* segs := apply_differences segs ds in
  Ret (mkRecord (ip_from_segments fam segs) i).

Definition read_difference_count (q : Q) : exec (option Z * Q) :=
  let* (n, q) := fifo_take q (difference_count_bit_count fam) in
  Ret ((fun n => n + 1) <$> n, q).

(** [filter_map] over [0..difference_count]: a short read yields nothing for
    its round, and the next round tries again. *)
Fixpoint read_differences (q : Q) (difference_count : nat) : exec (list Difference * Q) :=
  match difference_count with
  | O => Ret ([], q)
  | S n =>
      let* (i, q) := fifo_take q (index_bit_count fam) in
      match i with
      | None => read_differences q n
      | Some i =>
          let* (v, q) := fifo_take q (segment_bit_count fam) in
          match v with
          | None => read_differences q n
          | Some v => let* (ds, q) := read_differences q n in Ret (mkDiff i v :: ds, q)
          end
      end
  end.

Definition get_record_generic (q : Q) (prev : Z) : exec (option StreamRecord * Q) :=
  let* (count, q) := read_difference_count q in
  match count with
  | None => Ret (None, q)
  | Some count =>
      let* (ds, q) := read_differences q (Z.to_nat count) in
      if Z.of_nat (length ds) <? count then Ret (None, q)
      else
        let* (i, q) := fifo_take q 9 in
        match i with
        | None => Ret (None, q)
        | Some i => let* r := record_new ds (segments fam prev) i in Ret (Some r, q)
        end
  end.

Definition deserializer_new (data : list Z * Z) (cs : list Country)
  : exec CountryBlockDeserializer :=
  let* q := bit_queue_from_country_data data in
  let* (r, q) := get_record_generic q (initial_prev_start fam) in
  let* r := expect r in
  Ret (mkDe cs r q false).

Definition next_generic (d : CountryBlockDeserializer)
  : exec (option CountryBlock * CountryBlockDeserializer) :=
  if empty d then Ret (None, d)
  else
    let prev := prev_record d in
    let* (r, q) := get_record_generic (de_queue d) (record_start prev) in
    let* c := expect (country_from_index (countries d) (country_idx prev)) in
    match r with
    | Some next =>
        Ret (Some (mkBlock (make_range fam (record_start prev)
                              (minus_one_ip fam (record_start next))) c),
             mkDe (countries d) next q false)
    | None =>
        Ret (Some (mkBlock (make_range fam (record_start prev) (max_ip_value fam)) c),
             mkDe (countries d) prev q true)
    end.

(** Collecting the iterator into a vector. *)
Fixpoint collect (fuel : nat) (d : CountryBlockDeserializer) : exec (list CountryBlock) :=
  match fuel with
  | O => Panic
  | S fuel =>
      let* (b, d) := next_generic d in
      match b with
      | None => Ret []
      | Some b => let* bs := collect fuel d in Ret (b :: bs)
      end
  end.

Definition deserialize (fuel : nat) (data : list Z * Z) (cs : list Country)
  : exec (list CountryBlock) :=
  let* d := deserializer_new data cs in collect fuel d.

End Serde.
Arguments VersionedIPSerializer : clear implicits.
Arguments CountryBlockDeserializer : clear implicits.

(** ** Addresses *)

Record fam_ok (fam : IpFamily) : Prop := {
  ok_octets : (8 | addr_bits fam);
  ok_width : 0 < segment_bit_count fam ≤ 64;
  ok_count : (0 < segments_count fam)%nat;
  ok_count_bits : 0 ≤ difference_count_bit_count fam ≤ 64 ∧
    Z.of_nat (segments_count fam) ≤ 2 ^ difference_count_bit_count fam;
  ok_count_pos : 0 < difference_count_bit_count fam;
  ok_index_bits : 0 ≤ index_bit_count fam ≤ 64 ∧
    Z.of_nat (segments_count fam) ≤ 2 ^ index_bit_count fam;
  ok_addr : 2 ≤ addr_bits fam ∧ Z.of_nat (segments_count fam) < 2 ^ 64
}.

Lemma ipv4_ok : fam_ok ipv4.
Proof. split; [by exists 4|..]; unfold addr_bits; cbn [ipv4 segments_count segment_bit_count
  difference_count_bit_count index_bit_count]; lia. Qed.
Lemma ipv6_ok : fam_ok ipv6.
Proof. split; [by exists 16|..]; unfold addr_bits; cbn [ipv6 segments_count segment_bit_count
  difference_count_bit_count index_bit_count]; lia. Qed.

(** Shifting in octets without overflow is reading a big-endian number. *)
Lemma shift_in_octets bits bs acc :
  bytes_ok bs → 0 ≤ acc < 2 ^ (bits - 8 * Z.of_nat (length bs)) →
  8 * Z.of_nat (length bs) ≤ bits →
  foldl (fun a o => Z.lor (wrap_u bits (Z.shiftl a 8)) o) acc bs = be_value acc bs.
Proof.
  revert acc. induction bs as [|b bs IH]; intros acc Hok Ha Hl; [done|].
  inversion Hok as [|?? Hb Hbs]; subst. cbn [foldl undigits length] in *.
  assert (2 ^ (bits - 8 * Z.of_nat (length bs)) =
          2 ^ (bits - 8 * Z.of_nat (S (length bs))) * 2 ^ 8) as Hp.
  { rewrite <- Z.pow_add_r by lia. f_equal. lia. }
  assert (2 ^ (bits - 8 * Z.of_nat (length bs)) ≤ 2 ^ bits) by (apply Z.pow_le_mono_r; lia).
  rewrite wrap_u_small by (rewrite shiftl_mul by lia; unfold in_u; lia).
  rewrite Z.lor_comm, lor_low_high, Z.add_comm by (done || lia).
  destruct Hb. apply IH; [done|lia|lia].
Qed.

Section Addresses.
Context (fam : IpFamily) (Hfam : fam_ok fam).

Lemma integer_from_ip ip : in_u (addr_bits fam) ip → integer_from_ip_generic fam ip = ip.
Proof.
  intros Hip. unfold integer_from_ip_generic, octets.
  destruct (ok_octets _ Hfam) as [k Hk]. pose proof (ok_addr _ Hfam) as [Ha _].
  assert (addr_bits fam / 8 = k) as -> by (rewrite Hk; apply Z.div_mul; lia).
  rewrite shift_in_octets.
  - rewrite be_value_bytes. replace (8 * Z.of_nat (Z.to_nat k)) with (addr_bits fam) by lia.
    by apply Z.mod_small.
  - apply be_bytes_ok.
  - rewrite length_be_bytes. replace (addr_bits fam - 8 * Z.of_nat (Z.to_nat k)) with 0 by lia. lia.
  - rewrite length_be_bytes. lia.
Qed.

Lemma plus_one ip : 0 ≤ ip < max_ip_value fam → plus_one_ip fam ip = ip + 1.
Proof.
  unfold max_ip_value, max_u. intros Hip. unfold plus_one_ip.
  rewrite integer_from_ip by (unfold in_u; lia). apply wrap_u_small. unfold in_u. lia.
Qed.

Lemma plus_one_max : plus_one_ip fam (max_ip_value fam) = 0.
Proof.
  unfold plus_one_ip, max_ip_value, max_u. pose proof (ok_addr _ Hfam) as [Ha _].
  pose proof (pow2_pos (addr_bits fam) ltac:(lia)).
  rewrite integer_from_ip by (unfold in_u; lia). unfold wrap_u.
  replace (2 ^ addr_bits fam - 1 + 1) with (2 ^ addr_bits fam) by lia.
  apply Z_mod_same_full.
Qed.

Lemma minus_one ip : 0 < ip < 2 ^ addr_bits fam → minus_one_ip fam ip = ip - 1.
Proof.
  intros Hip. unfold minus_one_ip.
  rewrite integer_from_ip by (unfold in_u; lia). apply wrap_u_small. unfold in_u. lia.
Qed.

Lemma segments_length ip : length (segments fam ip) = segments_count fam.
Proof. apply length_digits. Qed.

Lemma segments_ip ip : in_u (addr_bits fam) ip → ip_from_segments fam (segments fam ip) = ip.
Proof.
  intros Hip. unfold ip_from_segments, segments. rewrite undigits_digits by apply Hfam.
  by apply Z.mod_small.
Qed.

Lemma segments_inj a b :
  in_u (addr_bits fam) a → in_u (addr_bits fam) b → segments fam a = segments fam b → a = b.
Proof. intros Ha Hb E. by rewrite <- (segments_ip a), <- (segments_ip b), E. Qed.
End Addresses.

(** ** Differences *)

Definition diff_ok (fam : IpFamily) (d : Difference) : Prop :=
  0 ≤ diff_index d < Z.of_nat (segments_count fam) ∧ in_u (segment_bit_count fam) (diff_value d).

Lemma differences_from_ok fam i from to :
  Forall (in_u (segment_bit_count fam)) to → length from = length to →
  (i + length to ≤ segments_count fam)%nat →
  Forall (diff_ok fam) (differences_from i from to) ∧
  (length (differences_from i from to) ≤ length to)%nat.
Proof.
  revert i to. induction from as [|f from IH]; intros i [|t to] Hto Hl Hi; try done.
  inversion Hto; subst. cbn in Hl, Hi |- *. destruct (IH (S i) to) as [Hok Hlen]; [done|lia|lia|].
  destruct (t =? f); cbn; split; try lia; try done.
  constructor; [|done]. split; cbn; [lia|done].
Qed.

Lemma differences_from_nonempty i from to :
  length from = length to → from ≠ to → differences_from i from to ≠ [].
Proof.
  revert i to. induction from as [|f from IH]; intros i [|t to] Hl Hne; try done.
  cbn. destruct (Z.eqb_spec t f) as [->|]; [|done]. apply IH; [cbn in Hl; lia|congruence].
Qed.

(** Writing the differences over the old segments gives the new ones. *)
Lemma apply_differences_from fam pre from to :
  length from = length to → Forall (in_u (segment_bit_count fam)) to →
  apply_differences fam (pre ++ from) (differences_from (length pre) from to) = Ret (pre ++ to).
Proof.
  revert pre to. induction from as [|f from IH]; intros pre [|t to] Hl Hto; try done.
  inversion Hto as [|?? Ht Hto']; subst. cbn [length] in Hl. cbn [differences_from].
  assert (∀ x, pre ++ x :: from = (pre ++ [x]) ++ from) as Happ by (intros; by rewrite <- app_assoc).
  assert (S (length pre) = length (pre ++ [t])) as Hlen by (rewrite length_app; cbn; lia).
  destruct (Z.eqb_spec t f) as [->|Hne].
  - rewrite Happ, Hlen, IH by (done || lia). by rewrite <- app_assoc.
  - cbn [apply_differences diff_value diff_index]. rewrite bool_decide_true by done.
    destruct (Z.ltb_spec (Z.of_nat (length pre)) (Z.of_nat (length (pre ++ f :: from)))) as [_|Hge].
    2:{ rewrite length_app in Hge. cbn in Hge. lia. }
    rewrite Nat2Z.id, insert_app_r_alt, Nat.sub_diag by lia. cbn [insert list_insert].
    rewrite Happ, Hlen, IH by (done || lia). by rewrite <- app_assoc.
Qed.

Section Differences.
Context (fam : IpFamily) (Hfam : fam_ok fam).

Lemma ips_differences_ok from to :
  Forall (diff_ok fam) (ips_into_differences fam from to) ∧
  (length (ips_into_differences fam from to) ≤ segments_count fam)%nat.
Proof.
  destruct (differences_from_ok fam 0 (segments fam from) (segments fam to)) as [? Hl];
    rewrite ?segments_length; try lia; [apply digits_ok, Hfam|].
  rewrite segments_length in Hl. done.
Qed.

Lemma ips_differences_nonempty from to :
  in_u (addr_bits fam) from → in_u (addr_bits fam) to → from ≠ to →
  (0 < length (ips_into_differences fam from to))%nat.
Proof.
  intros Hf Ht Hne. assert (ips_into_differences fam from to ≠ []) as H.
  { apply differences_from_nonempty; [by rewrite !segments_length|].
    intros E. by apply Hne, (segments_inj fam Hfam). }
  destruct (ips_into_differences fam from to); [done|cbn; lia].
Qed.

Lemma record_new_correct from to i :
  in_u (addr_bits fam) to →
  record_new fam (ips_into_differences fam from to) (segments fam from) i = Ret (mkRecord to i).
Proof.
  intros Ht. unfold record_new, ips_into_differences.
  pose proof (apply_differences_from fam [] (segments fam from) (segments fam to)) as Happ.
  cbn [app length] in Happ. rewrite Happ; cbn [exec_bind].
  - by rewrite segments_ip.
  - by rewrite !segments_length.
  - apply digits_ok, Hfam.
Qed.
End Differences.

(** ** A queue as the list of fields written to it *)

Abbreviation chunk := (Z * Z)%type.   (* value, width *)
Definition chunk_ok (c : chunk) : Prop := 0 ≤ c.2 ≤ 64 ∧ in_u c.2 c.1.

Fixpoint chunks_val (cs : list chunk) : Z :=
  match cs with [] => 0 | (d, c) :: cs => d + 2 ^ c * chunks_val cs end.
Fixpoint chunks_len (cs : list chunk) : Z :=
  match cs with [] => 0 | (_, c) :: cs => c + chunks_len cs end.

Lemma chunks_len_nonneg cs : Forall chunk_ok cs → 0 ≤ chunks_len cs.
Proof. induction 1 as [|[d c] cs [? _] _ IH] using Forall_ind; cbn in *; lia. Qed.

Lemma chunks_len_app cs cs' : chunks_len (cs ++ cs') = chunks_len cs + chunks_len cs'.
Proof. induction cs as [|[d c] cs IH]; cbn; lia. Qed.

Lemma chunks_val_snoc cs d c :
  Forall chunk_ok cs → chunks_val (cs ++ [(d, c)]) = chunks_val cs + 2 ^ chunks_len cs * d.
Proof.
  induction 1 as [|[e f] cs [Hf _] Hcs IH] using Forall_ind; cbn [app chunks_val chunks_len]; [lia|].
  pose proof (chunks_len_nonneg cs Hcs). cbn in Hf. rewrite IH, Z.pow_add_r by lia. ring.
Qed.

Section Chunks.
Context {Q : Type} `{!BitFifo Q}.

Definition holds (q : Q) (cs : list chunk) : Prop :=
  Forall chunk_ok cs ∧ fifo_ok q ∧ fifo_val q = chunks_val cs ∧ fifo_len q = chunks_len cs.

Lemma holds_new : holds fifo_new [].
Proof. destruct fifo_new_ok as (?&?&?). by split_and!. Qed.

Lemma holds_add q cs d c :
  holds q cs → chunk_ok (d, c) →
  ∃ q', fifo_add q d c = Ret q' ∧ holds q' (cs ++ [(d, c)]).
Proof.
  intros (Hcs & Hq & Hv & Hl) Hc. destruct Hc as [Hc Hd].
  destruct (fifo_add_ok q d c Hq Hc Hd) as (q' & -> & Hq' & Hv' & Hl').
  exists q'. split; [done|]. split_and!; [|done| |].
  - apply Forall_app; split; [done|]. by constructor.
  - by rewrite Hv', chunks_val_snoc, Hv, Hl.
  - rewrite Hl', chunks_len_app, Hl. cbn. lia.
Qed.

Lemma holds_take q d c cs :
  holds q ((d, c) :: cs) → ∃ q', fifo_take q c = Ret (Some d, q') ∧ holds q' cs.
Proof.
  intros (Hcs & Hq & Hv & Hl). inversion Hcs as [|?? [Hc Hd] Hcs']; subst. cbn in *.
  pose proof (chunks_len_nonneg cs Hcs').
  destruct (fifo_take_first q d c (chunks_val cs)) as (q' & -> & Hq' & Hv' & Hl'); try done; [lia|].
  exists q'. split; [done|]. split_and!; try done. lia.
Qed.

Lemma holds_empty q c : holds q [] → 0 < c ≤ 64 → fifo_take q c = Ret (None, q).
Proof. intros (_ & _ & _ & Hl) Hc. apply fifo_take_short; [lia|]. rewrite Hl. cbn. lia. Qed.

Definition diff_chunks (fam : IpFamily) (ds : list Difference) : list chunk :=
  mjoin ((fun d => [(diff_index d, index_bit_count fam); (diff_value d, segment_bit_count fam)]) <$> ds).

Context (fam : IpFamily) (Hfam : fam_ok fam).

Lemma diff_chunk_ok d :
  diff_ok fam d →
  chunk_ok (diff_index d, index_bit_count fam) ∧ chunk_ok (diff_value d, segment_bit_count fam).
Proof.
  intros [Hi Hv]. pose proof (ok_index_bits _ Hfam). pose proof (ok_width _ Hfam).
  split; split; cbn; try lia; [|done]. unfold in_u. lia.
Qed.

Lemma add_differences_holds ds q cs :
  holds q cs → Forall (diff_ok fam) ds →
  ∃ q', add_differences fam q ds = Ret q' ∧ holds q' (cs ++ diff_chunks fam ds).
Proof.
  intros Hq Hds. revert q cs Hq. induction Hds as [|d ds Hd _ IH]; intros q cs Hq.
  - exists q. split; [done|]. by rewrite app_nil_r.
  - destruct (diff_chunk_ok d Hd) as [H1 H2]. cbn [add_differences].
    destruct (holds_add _ _ _ _ Hq H1) as (q1 & -> & Hq1). cbn [exec_bind].
    destruct (holds_add _ _ _ _ Hq1 H2) as (q2 & -> & Hq2). cbn [exec_bind].
    destruct (IH _ _ Hq2) as (q3 & -> & Hq3). exists q3. split; [done|].
    rewrite <- !app_assoc in Hq3. done.
Qed.

Lemma read_differences_holds ds q cs :
  holds q (diff_chunks fam ds ++ cs) →
  ∃ q', read_differences fam q (length ds) = Ret (ds, q') ∧ holds q' cs.
Proof.
  revert q. induction ds as [|d ds IH]; intros q Hq; [by exists q|].
  cbn in Hq. cbn [length read_differences].
  destruct (holds_take _ _ _ _ Hq) as (q1 & -> & Hq1). cbn [exec_bind].
  destruct (holds_take _ _ _ _ Hq1) as (q2 & -> & Hq2). cbn [exec_bind].
  destruct (IH _ Hq2) as (q3 & -> & Hq3). cbn [exec_bind]. exists q3.
  split; [|done]. by destruct d.
Qed.

(** ** Records *)

Definition record_chunks (prev start i : Z) : list chunk :=
  let ds := ips_into_differences fam prev start in
  (Z.of_nat (length ds) - 1, difference_count_bit_count fam) :: diff_chunks fam ds ++ [(i, 9)].

Fixpoint records_chunks (prev : Z) (rs : list (Z * Z)) : list chunk :=
  match rs with
  | [] => []
  | (start, i) :: rs => record_chunks prev start i ++ records_chunks start rs
  end.

Lemma records_chunks_snoc prev rs start i :
  records_chunks prev (rs ++ [(start, i)]) =
  records_chunks prev rs ++ record_chunks (default prev (fst <$> list.last rs)) start i.
Proof.
  revert prev. induction rs as [|[s j] rs IH]; intros prev; cbn [app records_chunks];
    [by rewrite app_nil_r|]. rewrite IH, app_assoc. f_equal.
  destruct rs as [|r rs]; [done|]. rewrite last_cons_cons.
  destruct (list.last (r :: rs)) as [x|] eqn:E; [done|]. by apply last_None in E.
Qed.

Lemma add_record_holds s cs start end_ i :
  holds (bit_queue s) cs → in_u 9 i →
  in_u (addr_bits fam) (prev_start s) → in_u (addr_bits fam) start → prev_start s ≠ start →
  ∃ q', add_record fam s start end_ i = Ret (mkSer start end_ (block_count s + 1) q') ∧
    holds q' (cs ++ record_chunks (prev_start s) start i).
Proof.
  intros Hq Hi Hp Hs Hne. unfold add_record, record_chunks.
  pose proof (ips_differences_ok fam Hfam (prev_start s) start) as [Hds Hlen].
  pose proof (ips_differences_nonempty fam Hfam _ _ Hp Hs Hne) as Hpos.
  set (ds := ips_into_differences fam (prev_start s) start) in *.
  pose proof (ok_count_bits _ Hfam) as [Hcb Hcb']. pose proof (ok_addr _ Hfam) as [_ H64].
  rewrite (proj2 (checked_sub_Some 64 (Z.of_nat (length ds)) 1 (Z.of_nat (length ds) - 1)))
    by (unfold in_u; lia). cbn [expect exec_bind].
  destruct (holds_add _ _ (Z.of_nat (length ds) - 1) (difference_count_bit_count fam) Hq)
    as (q1 & -> & Hq1). { split; cbn; [lia|unfold in_u; lia]. }
  cbn [exec_bind]. destruct (add_differences_holds ds _ _ Hq1 Hds) as (q2 & -> & Hq2).
  cbn [exec_bind]. destruct (holds_add _ _ i 9 Hq2) as (q3 & -> & Hq3); [split; cbn; [lia|done]|].
  cbn [exec_bind]. exists q3. split; [done|]. by rewrite <- !app_assoc in Hq3.
Qed.

Lemma get_record_holds q prev start i cs :
  holds q (record_chunks prev start i ++ cs) →
  in_u (addr_bits fam) prev → in_u (addr_bits fam) start → prev ≠ start →
  ∃ q', get_record_generic fam q prev = Ret (Some (mkRecord start i), q') ∧ holds q' cs.
Proof.
  intros Hq Hp Hs Hne. unfold get_record_generic, read_difference_count, record_chunks in *.
  pose proof (ips_differences_nonempty fam Hfam _ _ Hp Hs Hne) as Hpos.
  set (ds := ips_into_differences fam prev start) in *. cbn [app] in Hq.
  destruct (holds_take _ _ _ _ Hq) as (q1 & -> & Hq1). cbn [exec_bind fmap option_fmap option_map].
  replace (Z.of_nat (length ds) - 1 + 1) with (Z.of_nat (length ds)) by lia.
  rewrite <- app_assoc in Hq1. destruct (read_differences_holds ds _ _ Hq1) as (q2 & Hr & Hq2).
  rewrite Nat2Z.id, Hr. cbn [exec_bind]. rewrite Z.ltb_irrefl.
  destruct (holds_take _ _ _ _ Hq2) as (q3 & -> & Hq3). cbn [exec_bind].
  unfold ds. rewrite record_new_correct by done. cbn [exec_bind]. by exists q3.
Qed.

Lemma get_record_empty q prev :
  holds q [] → get_record_generic fam q prev = Ret (None, q).
Proof.
  intros Hq. unfold get_record_generic, read_difference_count.
  pose proof (ok_count_pos _ Hfam). pose proof (ok_count_bits _ Hfam).
  by rewrite holds_empty by (done || lia).
Qed.
End Chunks.

(** ** Words *)
Section Words.
Context {Q : Type} `{!BitFifo Q}.

Definition moved (q q0 q1 : Q) : Prop :=
  fifo_ok q1 ∧ fifo_val q1 = fifo_val q0 + 2 ^ fifo_len q0 * fifo_val q ∧
  fifo_len q1 = fifo_len q0 + fifo_len q.

(** The last word, which holds fewer than 64 bits. *)
Lemma country_words_tail fuel q q0 :
  fifo_ok q → fifo_ok q0 → fifo_len q < 64 →
  ∃ words q1, country_words fuel q = Ret words ∧ load_words words q0 (fifo_len q) = Ret q1 ∧
    moved q q0 q1.
Proof.
  intros Hq Hq0 Hlt. pose proof (fifo_len_nonneg q Hq). pose proof (fifo_val_range q Hq) as Hr.
  assert (country_words fuel q =
    if fifo_len q =? 0 then Ret []
    else let* (v, _) := fifo_take q (fifo_len q) in let* v := expect v in Ret [v]) as ->.
  { destruct fuel; cbn [country_words]; by destruct (Z.leb_spec 64 (fifo_len q)); [lia|]. }
  destruct (Z.eqb_spec (fifo_len q) 0) as [E|E].
  - exists [], q0. rewrite E. split_and!; [done|done|]. split_and!; [done| |lia].
    rewrite E in Hr. unfold in_u in Hr. change (2 ^ 0) with 1 in Hr.
    replace (fifo_val q) with 0 by lia. lia.
  - destruct (fifo_take_ok q (fifo_len q) Hq) as (q2 & -> & _); [lia|lia|].
    rewrite Z.mod_small by done. cbn [exec_bind expect].
    destruct (fifo_add_ok q0 (fifo_val q) (fifo_len q) Hq0) as (q3 & Hadd & Hq3); [lia|done|].
    exists [fifo_val q], q3. cbn [load_words].
    destruct (Z.leb_spec 64 (fifo_len q)); [lia|]. destruct (Z.ltb_spec 0 (fifo_len q)); [|lia].
    done.
Qed.

Lemma country_words_load fuel q q0 :
  fifo_ok q → fifo_ok q0 → fifo_len q < 64 * (Z.of_nat fuel + 1) →
  ∃ words q1, country_words fuel q = Ret words ∧ load_words words q0 (fifo_len q) = Ret q1 ∧
    moved q q0 q1.
Proof.
  revert q q0. induction fuel as [|fuel IH]; intros q q0 Hq Hq0 Hf;
    (destruct (Z.le_gt_cases 64 (fifo_len q)) as [Hge|Hlt]; [|by apply country_words_tail]); [lia|].
  pose proof (fifo_len_nonneg q0 Hq0). cbn [country_words].
  destruct (Z.leb_spec 64 (fifo_len q)); [|lia].
  destruct (fifo_take_ok q 64 Hq ltac:(lia) Hge) as (q2 & -> & Hq2 & Hv2 & Hl2).
  cbn [exec_bind expect].
  destruct (fifo_add_ok q0 (fifo_val q mod 2 ^ 64) 64) as (q3 & Hadd & Hq3 & Hv3 & Hl3);
    [done|lia|apply Z.mod_pos_bound; lia|].
  destruct (IH q2 q3) as (words & q1 & -> & Hload & Hq1 & Hv1 & Hl1); [done|done|lia|].
  cbn [exec_bind]. exists ((fifo_val q mod 2 ^ 64) :: words), q1. cbn [load_words].
  destruct (Z.leb_spec 64 (fifo_len q)); [|lia]. rewrite Hadd. cbn [exec_bind].
  rewrite <- Hl2. split_and!; [done|done|]. split_and!; [done| |lia].
  rewrite Hv1, Hv3, Hl3, Hv2, Z.pow_add_r by lia.
  pose proof (Z.div_mod (fifo_val q) (2 ^ 64) ltac:(lia)) as Hdm. rewrite Hdm at 3. ring.
Qed.

Lemma country_data_load q cs :
  holds q cs →
  ∃ data q1, country_data q = Ret data ∧ bit_queue_from_country_data data = Ret q1 ∧ holds q1 cs.
Proof.
  intros (Hcs & Hq & Hv & Hl). destruct fifo_new_ok as (Hn & Hnv & Hnl).
  pose proof (fifo_len_nonneg q Hq).
  destruct (country_words_load (Z.to_nat (fifo_len q)) q fifo_new Hq Hn)
    as (words & q1 & Hw & Hload & Hq1 & Hv1 & Hl1); [lia|].
  exists (words, fifo_len q), q1. unfold country_data. rewrite Hw. split_and!; [done|done|].
  rewrite Hnl, Hnv in *. split_and!; try done; [|lia].
  rewrite Hv1, <- Hv. change (2 ^ 0) with 1. lia.
Qed.
End Words.

(** ** Blocks *)

(** The blocks the data stands for: the given ones, with every gap before,
    between and after them assigned to country 0. *)
Fixpoint complete (fam : IpFamily) (next : Z) (blocks : list block) : list block :=
  match blocks with
  | [] => if next =? 2 ^ addr_bits fam then [] else [(next, max_ip_value fam, 0)]
  | (s, e, i) :: blocks =>
      (if s =? next then [] else [(next, s - 1, 0)]) ++ (s, e, i) :: complete fam (e + 1) blocks
  end.

(** Blocks in address order, not overlapping, from [next] on. *)
Fixpoint ordered (fam : IpFamily) (next : Z) (blocks : list block) : Prop :=
  match blocks with
  | [] => True
  | (s, e, i) :: blocks =>
      next ≤ s ≤ e ∧ e < 2 ^ addr_bits fam ∧ in_u 9 i ∧ ordered fam (e + 1) blocks
  end.

(** Blocks that cover the addresses from [next] on without gap. *)
Fixpoint chain (fam : IpFamily) (next : Z) (blocks : list block) : Prop :=
  match blocks with
  | [] => next = 2 ^ addr_bits fam
  | (s, e, i) :: blocks => s = next ∧ s ≤ e < 2 ^ addr_bits fam ∧ in_u 9 i ∧ chain fam (e + 1) blocks
  end.

Lemma complete_chain fam next blocks :
  0 ≤ next ≤ 2 ^ addr_bits fam → ordered fam next blocks → chain fam next (complete fam next blocks).
Proof.
  revert next. induction blocks as [|[[s e] i] blocks IH]; intros next Hn Ho; cbn [complete ordered] in *.
  - destruct (Z.eqb_spec next (2 ^ addr_bits fam)); [done|]. cbn. unfold max_ip_value, max_u. 
    split_and!; try done; lia.
  - destruct Ho as (Hs & He & Hi & Ho). specialize (IH (e + 1) ltac:(lia) Ho).
    destruct (Z.eqb_spec s next) as [->|]; cbn [app chain]; split_and!; try done; try lia.
Qed.

Definition starts (blocks : list block) : list (Z * Z) := (fun b => (b.1.1, b.2)) <$> blocks.

Section RoundTrip.
Context {Q : Type} `{!BitFifo Q} (fam : IpFamily) (Hfam : fam_ok fam).

(** What the serializer has written once every address below [next] is covered. *)
Record ser_inv (s : VersionedIPSerializer Q) (next : Z) (rs : list (Z * Z)) : Prop := {
  si_queue : holds (bit_queue s) (records_chunks fam (initial_prev_start fam) rs);
  si_last : prev_start s = default (initial_prev_start fam) (fst <$> list.last rs);
  si_count : block_count s = Z.of_nat (length rs);
  si_prev : in_u (addr_bits fam) (prev_start s) ∧ prev_start s ≠ next;
  si_next : 0 ≤ next ≤ 2 ^ addr_bits fam;
  si_expected : next < 2 ^ addr_bits fam → plus_one_ip fam (prev_end s) = next;
  si_end : rs ≠ [] → prev_end s = next - 1
}.

Lemma ser_inv_new : ser_inv (serializer_new fam) 0 [].
Proof.
  pose proof (ok_addr _ Hfam) as [Ha _]. pose proof (Z.pow_le_mono_r 2 2 (addr_bits fam)).
  split; cbn; try done; try lia.
  - apply holds_new.
  - unfold initial_prev_start, max_ip_value, max_u, in_u. lia.
  - intros _. by apply plus_one_max.
Qed.

Lemma ser_inv_add s next rs e i :
  ser_inv s next rs → next ≤ e < 2 ^ addr_bits fam → in_u 9 i →
  ∃ s', add_record fam s next e i = Ret s' ∧ ser_inv s' (e + 1) (rs ++ [(next, i)]).
Proof.
  intros [Hq Hl Hc [Hp Hne] Hn Hx _] He Hi.
  destruct (add_record_holds fam Hfam s _ next e i Hq Hi Hp) as (q' & -> & Hq'); [unfold in_u; lia|done|].
  eexists. split; [reflexivity|]. split; cbn; try lia.
  - by rewrite records_chunks_snoc, <- Hl.
  - by rewrite last_snoc.
  - rewrite length_app. cbn. lia.
  - unfold in_u. lia.
  - intros. apply plus_one; [done|]. unfold max_ip_value, max_u. lia.
Qed.

Lemma add_ip_inv s next rs start e i :
  ser_inv s next rs → next ≤ start ≤ e → e < 2 ^ addr_bits fam → in_u 9 i →
  ∃ s', add_ip fam s start e i = Ret s' ∧
    ser_inv s' (e + 1) (rs ++ starts ((if start =? next then [] else [(next, start - 1, 0)])
                                        ++ [(start, e, i)])).
Proof.
  intros Hinv Hs He Hi. unfold add_ip. cbn [add_ip_generic].
  rewrite (si_expected _ _ _ Hinv) by lia. pose proof (si_next _ _ _ Hinv).
  destruct (Z.eqb_spec start next) as [->|Hne]; cbn [negb exec_bind app].
  - by destruct (ser_inv_add s next rs e i Hinv) as (s' & -> & Hs'); [lia|done|exists s'].
  - rewrite Z.eqb_refl. cbn [negb exec_bind]. rewrite minus_one by (done || lia).
    destruct (ser_inv_add s next rs (start - 1) 0 Hinv) as (s1 & -> & Hs1); [lia|done|].
    cbn [exec_bind]. replace (start - 1 + 1) with start in Hs1 by lia.
    destruct (ser_inv_add s1 start _ e i Hs1) as (s' & -> & Hs'); [lia|done|].
    exists s'. split; [done|]. by rewrite <- app_assoc in Hs'.
Qed.

Lemma add_all_inv s next rs blocks :
  ser_inv s next rs → ordered fam next blocks → rs ≠ [] ∨ blocks ≠ [] →
  ∃ s1 s', add_all fam s blocks = Ret s1 ∧ finish fam s1 = Ret s' ∧
    ser_inv s' (2 ^ addr_bits fam) (rs ++ starts (complete fam next blocks)).
Proof.
  revert s next rs. induction blocks as [|[[st e] i] blocks IH]; intros s next rs Hinv Ho Hne.
  - exists s. cbn [add_all]. unfold finish. destruct Hne as [Hne|]; [|done].
    pose proof (si_end _ _ _ Hinv Hne) as Hend. pose proof (si_next _ _ _ Hinv).
    unfold max_ip_value, max_u. cbn [complete]. rewrite Hend.
    destruct (Z.eqb_spec (next - 1) (2 ^ addr_bits fam - 1)) as [E|E]; cbn [negb].
    + exists s. split_and!; try done. assert (next = 2 ^ addr_bits fam) as -> by lia.
      rewrite Z.eqb_refl, app_nil_r. done.
    + destruct (Z.eqb_spec next (2 ^ addr_bits fam)); [lia|]. rewrite <- Hend.
      rewrite (si_expected _ _ _ Hinv) by lia.
      destruct (add_ip_inv s next rs next (2 ^ addr_bits fam - 1) 0 Hinv) as (s' & -> & Hs');
        [lia|lia|done|]. rewrite Z.eqb_refl in Hs'. exists s'. split_and!; try done.
      by replace (2 ^ addr_bits fam - 1 + 1) with (2 ^ addr_bits fam) in Hs' by lia.
  - destruct Ho as (Hs & He & Hi & Ho). cbn [add_all].
    destruct (add_ip_inv s next rs st e i Hinv Hs He Hi) as (s1 & -> & Hs1). cbn [exec_bind].
    destruct (IH s1 (e + 1) _ Hs1 Ho) as (s2 & s' & -> & Hf & Hs'); [left|].
    { unfold starts. rewrite fmap_app, app_assoc. by intros [_ ?]%app_nil. }
    exists s2, s'. split_and!; try done. cbn [complete]. unfold starts in *.
    by rewrite !fmap_app, <- !app_assoc in *.
Qed.

(** Reading the records back, one block per record. *)
Lemma collect_chain cs l q s e i fuel :
  holds q (records_chunks fam s (starts l)) → in_u (addr_bits fam) s → s ≤ e →
  chain fam (e + 1) l →
  Forall (fun b => is_Some (country_from_index cs b.2)) ((s, e, i) :: l) →
  (length l + 2 ≤ fuel)%nat →
  ∃ bs, collect fam fuel (mkDe cs (mkRecord s i) q false) = Ret bs ∧
    Forall2 (fun b blk => ip_range blk = make_range fam b.1.1 b.1.2 ∧
                          country_from_index cs b.2 = Some (country blk)) ((s, e, i) :: l) bs.
Proof.
  revert q s e i fuel. induction l as [|[[s' e'] i'] l IH]; intros q s e i fuel Hq Hs He Hch Hcs Hf;
    (destruct fuel as [|fuel]; [cbn in Hf; lia|]); cbn [collect]; unfold next_generic;
    cbn [empty prev_record record_start de_queue countries country_idx];
    inversion Hcs as [|?? [c Hc] Hcs']; subst; cbn in Hc.
  - rewrite get_record_empty by done. cbn [exec_bind]. rewrite Hc. cbn [expect exec_bind].
    destruct fuel as [|fuel]; [cbn in Hf; lia|]. cbn. eexists. split; [reflexivity|].
    constructor; [|constructor]. split; [|done]. cbn. f_equal. unfold max_ip_value, max_u.
    cbn in Hch. lia.
  - destruct Hch as (-> & He' & Hi' & Hch). unfold in_u in Hs.
    destruct (get_record_holds fam Hfam q s (e + 1) i' _ Hq) as (q' & -> & Hq'); [done|unfold in_u; lia|lia|].
    cbn [exec_bind]. rewrite Hc. cbn [expect exec_bind record_start].
    destruct (IH q' (e + 1) e' i' fuel) as (bs & -> & Hbs); try done; [unfold in_u; lia|lia|cbn in Hf; lia|].
    cbn [exec_bind]. eexists. split; [reflexivity|]. constructor; [|done].
    split; [|done]. cbn. f_equal. rewrite minus_one by (done || lia). lia.
Qed.

Lemma roundtrip blocks cs fuel :
  blocks ≠ [] → ordered fam 0 blocks →
  Forall (fun b => is_Some (country_from_index cs b.2)) (complete fam 0 blocks) →
  (length (complete fam 0 blocks) < fuel)%nat →
  ∃ s data bs, serialize_blocks fam blocks = Ret s ∧ country_data (bit_queue s) = Ret data ∧
    block_count s = Z.of_nat (length (complete fam 0 blocks)) ∧
    deserialize (Q := Q) fam fuel data cs = Ret bs ∧
    Forall2 (fun b blk => ip_range blk = make_range fam b.1.1 b.1.2 ∧
                          country_from_index cs b.2 = Some (country blk))
      (complete fam 0 blocks) bs.
Proof.
  intros Hne Ho Hcs Hf. pose proof (ok_addr _ Hfam) as [Ha _].
  pose proof (pow2_pos (addr_bits fam) ltac:(lia)).
  destruct (add_all_inv _ 0 [] blocks ser_inv_new Ho) as (s1 & s & Hadd & Hfin & Hinv); [by right|].
  pose proof (complete_chain fam 0 blocks ltac:(lia) Ho) as Hch.
  unfold serialize_blocks. rewrite Hadd. cbn [exec_bind]. rewrite Hfin. exists s.
  destruct (country_data_load _ _ (si_queue _ _ _ Hinv)) as (data & q & Hdata & Hload & Hq).
  pose proof (si_count _ _ _ Hinv) as Hcount.
  unfold deserialize, deserializer_new. exists data.
  destruct (complete fam 0 blocks) as [|[[s0 e0] i0] l]; [cbn in Hch; lia|].
  destruct Hch as (-> & He0 & Hi0 & Hch). cbn [app starts] in Hq. 
  destruct (get_record_holds fam Hfam q (initial_prev_start fam) 0 i0 _ Hq) as (q' & Hget & Hq').
  { unfold initial_prev_start, max_ip_value, max_u, in_u.
    pose proof (Z.pow_le_mono_r 2 2 (addr_bits fam)). lia. }
  { unfold in_u. lia. }
  { unfold initial_prev_start, max_ip_value, max_u. pose proof (Z.pow_le_mono_r 2 2 (addr_bits fam)). lia. }
  destruct (collect_chain cs l q' 0 e0 i0 fuel Hq') as (bs & Hbs & Hall);
    [unfold in_u; lia|lia|done|done|cbn in Hf; lia|].
  exists bs. rewrite Hload. cbn [exec_bind]. rewrite Hget. cbn [exec_bind expect]. rewrite Hbs.
  split_and!; try done. rewrite Hcount. unfold starts. cbn [app length fmap list_fmap].
  by rewrite length_fmap.
Qed.
End RoundTrip.

(** Compressed country data round trip, for both address families: for
    any non-empty list of blocks in address order, the serializer, the 64-bit
    words of the generated constant and the deserializer return, without a
    panic and with as many rounds as there are blocks, exactly the given blocks
    with every gap of the address space assigned to country index 0. *)
Theorem country_data_roundtrip (fam : IpFamily) (blocks : list block) (cs : list Country) (fuel : nat) :
  fam = ipv4 ∨ fam = ipv6 →
  blocks ≠ [] → ordered fam 0 blocks →
  Forall (fun b => is_Some (country_from_index cs b.2)) (complete fam 0 blocks) →
  (length (complete fam 0 blocks) < fuel)%nat →
  ∃ s data bs, serialize_blocks (Q := BitQueue) fam blocks = Ret s ∧
    country_data (bit_queue s) = Ret data ∧
    block_count s = Z.of_nat (length (complete fam 0 blocks)) ∧
    deserialize (Q := BitQueue) fam fuel data cs = Ret bs ∧
    Forall2 (fun b blk => ip_range blk = make_range fam b.1.1 b.1.2 ∧
                          country_from_index cs b.2 = Some (country blk))
      (complete fam 0 blocks) bs.
Proof. intros [-> | ->]; apply roundtrip; [apply ipv4_ok|apply ipv6_ok]. Qed.

Definition sample_countries : list Country :=
  [mkCountry 0 "ZZ" "Sentinel"; mkCountry 1 "GB" "Britain"; mkCountry 2 "US" "America"].
Definition sample_blocks : list block := [(16909060, 16909070, 2); (16909100, 4278321028, 1)].

Lemma country_data_roundtrip_witness :
  ∃ s data bs, serialize_blocks (Q := BitQueue) ipv4 sample_blocks = Ret s ∧
    country_data (bit_queue s) = Ret data ∧
    block_count s = Z.of_nat (length (complete ipv4 0 sample_blocks)) ∧
    deserialize (Q := BitQueue) ipv4 6 data sample_countries = Ret bs ∧
    Forall2 (fun b blk => ip_range blk = make_range ipv4 b.1.1 b.1.2 ∧
                          country_from_index sample_countries b.2 = Some (country blk))
      (complete ipv4 0 sample_blocks) bs.
Proof.
  apply country_data_roundtrip.
  - by left.
  - done.
  - vm_compute. repeat split; easy.
  - repeat constructor; eexists; reflexivity.
  - vm_compute. lia.
Defined.

(** The module comment's example (two IPv4 records, the first at 1.2.3.4)
    says that the deserializer invents a leading block for 0.0.0.0; the code
    yields only the two recorded blocks, because it is the serializer that
    fills gaps. *)
Theorem deserializer_invents_no_block :
  (let* s := add_record ipv4 (serializer_new (Q := BitQueue) ipv4) 16909060 0 2 in
   let* s := add_record ipv4 s 4278321924 0 1 in
   let* data := country_data (bit_queue s) in
   let* bs := deserialize (Q := BitQueue) ipv4 4 data sample_countries in
   Ret (ip_range <$> bs))
  = Ret [V4 16909060 4278321923; V4 4278321924 4294967295].
Proof. vm_compute. reflexivity. Qed.
