(* ===== verification/CountryFinder.v ===== *)
(** * Country tables and country lookup

    Models [src/masq-node-mobile/ip_country/src/countries.rs] (the table of
    countries), the range comparisons of [country_block_stream.rs] and
    [country_finder.rs] (binary search of the block that holds an address).

    The last theorem composes this file with [CountrySerde]: an address is
    looked up in data that was serialized, written as words and deserialized. *)

From stdpp Require Import base list gmap numbers option strings.
From Stdlib Require Import ZArith Lia.
From S2P Require Import Prelude BitQueue CountrySerde.

Local Open Scope Z_scope.
Local Open Scope rust_scope.

(** ** Table of countries *)
Module Table.

Record Countries := mkCountries {
  list_of : list Country;
  index_by_iso3166 : gmap string Z
}.

(** [From<Vec<Country>>]: a later entry for a code replaces an earlier one. *)
Definition from_vec (cs : list Country) : Countries :=
  mkCountries cs (list_to_map (reverse ((fun c => (iso3166 c, index c)) <$> cs))).

(** The stable sort by code. *)
Fixpoint insert_pair (p : string * string) (l : list (string * string)) :=
  match l with
  | [] => [p]
  | q :: l' => if String.leb p.1 q.1 then p :: l else q :: insert_pair p l'
  end.
Definition sort_pairs (l : list (string * string)) : list (string * string) :=
  foldr insert_pair [] l.

Fixpoint remove_first_zz (l : list (string * string)) : list (string * string) :=
  match l with
  | [] => []
  | p :: l => if bool_decide (p.1 = "ZZ"%string) then l else p :: remove_first_zz l
  end.

Definition new (country_pairs : list (string * string)) : Countries :=
  let country_pairs := sort_pairs (remove_first_zz country_pairs) in
  let cs := imap (fun i p => mkCountry (Z.of_nat i + 1) p.1 p.2) country_pairs in
  from_vec (mkCountry 0 "ZZ" "Sentinel" :: cs).

Definition upper_ascii (a : Ascii.ascii) : Ascii.ascii :=
  let n := Ascii.nat_of_ascii a in
  if ((97 <=? n) && (n <=? 122))%nat then Ascii.ascii_of_nat (n - 32) else a.
Fixpoint to_ascii_uppercase (s : string) : string :=
  match s with
  | EmptyString => EmptyString
  | String a s => String (upper_ascii a) (to_ascii_uppercase s)
  end.

(** [country_from_code]: an unknown code is an error; a code that maps to an
    index without a country panics. *)
Definition country_from_code (cs : Countries) (code : string) : exec (result Country string) :=
  match index_by_iso3166 cs !! to_ascii_uppercase code with
  | None => Ret (Err code)
  | Some i => let* c := expect (country_from_index (list_of cs) i) in Ret (Ok c)
  end.

Lemma insert_pair_perm p l : insert_pair p l ≡ₚ p :: l.
Proof.
  induction l as [|q l IH]; cbn; [done|]. destruct (String.leb p.1 q.1); [done|].
  rewrite IH. constructor.
Qed.

Lemma sort_pairs_perm l : sort_pairs l ≡ₚ l.
Proof. induction l as [|p l IH]; cbn; [done|]. by rewrite insert_pair_perm, IH. Qed.

Lemma remove_first_zz_elem l p : p ∈ l → p.1 ≠ "ZZ"%string → p ∈ remove_first_zz l.
Proof.
  intros Hin Hne. induction l as [|q l IH]; cbn; [done|].
  apply elem_of_cons in Hin as [->|Hin].
  - rewrite bool_decide_false by done. left.
  - case_bool_decide; [done|]. right. auto.
Qed.

Lemma remove_first_zz_sub l : remove_first_zz l `sublist_of` l.
Proof. induction l as [|q l IH]; cbn; [done|]. case_bool_decide; by constructor. Qed.

Lemma remove_first_zz_gone l : NoDup l.*1 → "ZZ"%string ∉ (remove_first_zz l).*1.
Proof.
  induction l as [|q l IH]; cbn; [by intros _ ?%not_elem_of_nil|].
  intros [Hn Hnd]%NoDup_cons. case_bool_decide as E.
  - by rewrite E in Hn.
  - intros [Hz|H]%elem_of_cons; [by symmetry in Hz|]. by apply IH.
Qed.

Definition numbered (l : list (string * string)) : list Country :=
  imap (fun i p => mkCountry (Z.of_nat i + 1) p.1 p.2) l.

Lemma numbered_lookup l i : numbered l !! i = (fun p => mkCountry (Z.of_nat i + 1) p.1 p.2) <$> l !! i.
Proof. apply list_lookup_imap. Qed.

Lemma list_of_new pairs :
  list_of (new pairs) =
  mkCountry 0 "ZZ" "Sentinel" :: numbered (sort_pairs (remove_first_zz pairs)).
Proof. done. Qed.

(** Every country of a fresh table sits at its own index. *)
Lemma new_indexed pairs i c :
  list_of (new pairs) !! i = Some c → index c = Z.of_nat i.
Proof.
  rewrite list_of_new. destruct i as [|i]; [by intros [= <-]|].
  rewrite <- lookup_tail. cbn [tail]. rewrite numbered_lookup.
  intros (p & _ & ->)%fmap_Some. cbn. lia.
Qed.

Lemma new_codes pairs :
  (iso3166 <$> list_of (new pairs)) = "ZZ"%string :: (sort_pairs (remove_first_zz pairs)).*1.
Proof.
  rewrite list_of_new. rewrite fmap_cons. f_equal. apply list_eq. intros i.
  rewrite !list_lookup_fmap, numbered_lookup. by destruct (_ !! i).
Qed.

Lemma new_codes_NoDup pairs : NoDup pairs.*1 → NoDup (iso3166 <$> list_of (new pairs)).
Proof.
  intros Hnd. rewrite new_codes. constructor.
  - rewrite sort_pairs_perm. by apply remove_first_zz_gone.
  - rewrite sort_pairs_perm. eapply sublist_NoDup; [exact Hnd|].
    apply fmap_sublist, remove_first_zz_sub.
Qed.

Lemma from_vec_lookup cs c :
  NoDup (iso3166 <$> cs) → c ∈ cs → index_by_iso3166 (from_vec cs) !! iso3166 c = Some (index c).
Proof.
  intros Hnd Hin. cbn. apply elem_of_list_to_map_1.
  - rewrite reverse_Permutation, <- list_fmap_compose. done.
  - rewrite reverse_Permutation. apply list_elem_of_fmap. by exists c.
Qed.

End Table.

(** Country table: when no code occurs twice, every (code, name) pair
    other than the sentinel is found by its code, in either letter case, with
    its own name and an index that leads back to it; the sentinel "ZZ" is at
    index 0. *)
Theorem country_table_lookup pairs code name k :
  NoDup pairs.*1 → (code, name) ∈ pairs → code ≠ "ZZ"%string →
  Table.to_ascii_uppercase k = code →
  (∃ c, Table.country_from_code (Table.new pairs) k = Ret (Ok c) ∧
     iso3166 c = code ∧ country_name c = name ∧
     country_from_index (Table.list_of (Table.new pairs)) (index c) = Some c) ∧
  (∃ z, Table.country_from_code (Table.new pairs) "zz" = Ret (Ok z) ∧
     iso3166 z = "ZZ"%string ∧ index z = 0).
Proof.
  intros Hnd Hin Hne Hup. pose proof (Table.new_codes_NoDup pairs Hnd) as Hcodes.
  assert (∀ k c, Table.to_ascii_uppercase k = iso3166 c → c ∈ Table.list_of (Table.new pairs) →
    Table.country_from_code (Table.new pairs) k = Ret (Ok c) ∧
    country_from_index (Table.list_of (Table.new pairs)) (index c) = Some c) as Hfind.
  { clear k Hup. intros k c Hk Hc. unfold Table.country_from_code. rewrite Hk.
    pose proof (Table.from_vec_lookup (Table.list_of (Table.new pairs)) c Hcodes Hc) as Hl.
    change (Table.from_vec (Table.list_of (Table.new pairs))) with (Table.new pairs) in Hl.
    rewrite Hl.
    apply list_elem_of_lookup in Hc as [i Hi]. pose proof (Table.new_indexed _ _ _ Hi) as ->.
    assert (country_from_index (Table.list_of (Table.new pairs)) (Z.of_nat i) = Some c) as ->; [|done].
    unfold country_from_index. destruct (Z.ltb_spec (Z.of_nat i) 0); [lia|]. by rewrite Nat2Z.id. }
  split.
  - assert ((code, name) ∈ Table.sort_pairs (Table.remove_first_zz pairs)) as Hs.
    { rewrite Table.sort_pairs_perm. by apply Table.remove_first_zz_elem. }
    apply list_elem_of_lookup in Hs as [i Hi].
    assert (mkCountry (Z.of_nat i + 1) code name ∈ Table.list_of (Table.new pairs)) as Hc.
    { rewrite Table.list_of_new. right. apply list_elem_of_lookup. exists i.
      by rewrite Table.numbered_lookup, Hi. }
    destruct (Hfind k (mkCountry (Z.of_nat i + 1) code name) Hup Hc) as [? ?].
    eexists. by split_and!.
  - exists (mkCountry 0 "ZZ" "Sentinel"). split; [|done]. apply Hfind; [done|].
    rewrite Table.list_of_new. left.
Qed.

Lemma country_table_lookup_witness :
  (∃ c, Table.country_from_code (Table.new [("US", "America"); ("ZZ", "x"); ("GB", "Britain")]) "uS"
        = Ret (Ok c) ∧ iso3166 c = "US"%string ∧ country_name c = "America"%string ∧
     country_from_index (Table.list_of (Table.new [("US", "America"); ("ZZ", "x"); ("GB", "Britain")]))
       (index c) = Some c) ∧
  (∃ z, Table.country_from_code (Table.new [("US", "America"); ("ZZ", "x"); ("GB", "Britain")]) "zz"
        = Ret (Ok z) ∧ iso3166 z = "ZZ"%string ∧ index z = 0).
Proof.
  apply country_table_lookup; [|left|done|done].
  apply (bool_decide_unpack _). vm_compute. exact I.
Defined.

(** ** Ranges *)

Inductive IpAddr := IpV4 (ip : Z) | IpV6 (ip : Z).

Definition contains_inner (begin_ end_ candidate : Z) : bool :=
  (begin_ <=? candidate) && (candidate <=? end_).

Definition contains (r : IpRange) (ip : IpAddr) : bool :=
  match r, ip with
  | V4 b e, IpV4 c => contains_inner b e c
  | V6 b e, IpV6 c => contains_inner b e c
  | _, _ => false
  end.

Definition compare_with_range (examined low high : Z) : comparison :=
  if examined <? low then Gt else if high <? examined then Lt else Eq.

Definition ordering_by_range (r : IpRange) (ip : IpAddr) : exec comparison :=
  match ip, r with
  | IpV4 ip, V4 low high => Ret (compare_with_range ip low high)
  | IpV6 ip, V6 low high => Ret (compare_with_range ip low high)
  | _, _ => Panic
  end.

(** [are_consecutive]: [first + 1] overflows at the last address. *)
Definition are_consecutive (first second : IpAddr) : exec bool :=
  match first, second with
  | IpV4 a, IpV4 b => let* n := expect (checked_add 32 a 1) in Ret (b =? n)
  | IpV6 a, IpV6 b => let* n := expect (checked_add 128 a 1) in Ret (b =? n)
  | _, _ => Panic
  end.

(** [<[T]>::binary_search_by] of the standard library. *)
Fixpoint binary_search {A} (fuel : nat) (f : A → exec comparison) (l : list A)
    (left right size : nat) : exec (result nat nat) :=
  if (left <? right)%nat then
    match fuel with
    | O => Panic
    | S fuel =>
        let mid := (left + size / 2)%nat in
        let* x := expect (l !! mid) in
        let* c := f x in
        match c with
        | Eq => Ret (Ok mid)
        | Lt => binary_search fuel f l (mid + 1) right (right - (mid + 1))
        | Gt => binary_search fuel f l left mid (mid - left)
        end
    end
  else Ret (Err left).

Definition binary_search_by {A} (f : A → exec comparison) (l : list A) : exec (result nat nat) :=
  binary_search (length l) f l 0 (length l) (length l).

Record CountryCodeFinder := mkFinder {
  finder_countries : Table.Countries;
  finder_ipv4 : list CountryBlock;
  finder_ipv6 : list CountryBlock
}.

(** [CountryCodeFinder::new]; [fuel4] and [fuel6] bound the two iterators. *)
Definition finder_new (fuel4 fuel6 : nat) (cs : Table.Countries) (data4 data6 : list Z * Z)
  : exec CountryCodeFinder :=
  let* b4 := deserialize (Q := BitQueue) ipv4 fuel4 data4 (Table.list_of cs) in
  let* b6 := deserialize (Q := BitQueue) ipv6 fuel6 data6 (Table.list_of cs) in
  Ret (mkFinder cs b4 b6).

Definition find_country (self : CountryCodeFinder) (ip : IpAddr) : exec (option Country) :=
  let blocks := match ip with IpV4 _ => finder_ipv4 self | IpV6 _ => finder_ipv6 self end in
  let* found := binary_search_by (fun b => ordering_by_range (ip_range b) ip) blocks in
  let* c :=
    match found with
    | Ok i => let* b := expect (blocks !! i) in Ret (country b)
    | Err _ =>
        let* zz := Table.country_from_code (finder_countries self) "ZZ" in
        match zz with Ok c => Ret c | Err _ => Panic end
    end in
  Ret (if bool_decide (iso3166 c = "ZZ"%string) then None else Some c).

(** ** Binary search *)
Section Search.
Context {A : Type} (f : A → exec comparison) (l : list A) (cmp : nat → comparison).
Hypothesis f_total : ∀ i x, l !! i = Some x → f x = Ret (cmp i).
Hypothesis sorted_lt : ∀ i j, (i ≤ j < length l)%nat → cmp j = Lt → cmp i = Lt.
Hypothesis sorted_gt : ∀ i j, (i ≤ j < length l)%nat → cmp i = Gt → cmp j = Gt.

Lemma binary_search_correct fuel left right :
  (left ≤ right ≤ length l)%nat → (right - left ≤ fuel)%nat →
  (∀ i, (i < left)%nat → cmp i ≠ Eq) → (∀ i, (right ≤ i < length l)%nat → cmp i ≠ Eq) →
  ∃ r, binary_search fuel f l left right (right - left) = Ret r ∧
    match r with
    | Ok i => (i < length l)%nat ∧ cmp i = Eq
    | Err _ => ∀ i, (i < length l)%nat → cmp i ≠ Eq
    end.
Proof.
  revert left right. induction fuel as [|fuel IH]; intros left right Hb Hf Hlow Hhigh;
    cbn [binary_search]; destruct (Nat.ltb_spec left right) as [Hlt|Hge]; try lia.
  1,3: exists (Err left); split; [done|]; intros i Hi;
       destruct (decide (i < left)%nat); [by apply Hlow|apply Hhigh; lia].
  set (mid := (left + (right - left) / 2)%nat).
  assert (left ≤ mid < right)%nat as Hmid.
  { unfold mid. pose proof (Nat.div_lt (right - left) 2). lia. }
  destruct (lookup_lt_is_Some_2 l mid) as [x Hx]; [lia|].
  rewrite Hx. cbn [expect exec_bind]. rewrite (f_total mid x Hx). cbn [exec_bind].
  destruct (cmp mid) eqn:E.
  - exists (Ok mid). split; [done|]. split; [lia|done].
  - apply IH; try lia; [|done]. intros i Hi.
    rewrite (sorted_lt i mid); [done|lia|done].
  - apply IH; try lia; [done|]. intros i Hi. rewrite (sorted_gt mid i); [done|lia|done].
Qed.

Lemma binary_search_by_correct :
  ∃ r, binary_search_by f l = Ret r ∧
    match r with
    | Ok i => (i < length l)%nat ∧ cmp i = Eq
    | Err _ => ∀ i, (i < length l)%nat → cmp i ≠ Eq
    end.
Proof.
  pose proof (binary_search_correct (length l) 0 (length l)) as H.
  rewrite Nat.sub_0_r in H. apply H; lia.
Qed.
End Search.

(** ** Lookup in a chain of blocks *)

(** The country index an address has in a list of blocks; 0 outside them. *)
Fixpoint country_at (blocks : list block) (ip : Z) : Z :=
  match blocks with
  | [] => 0
  | (s, e, i) :: blocks => if (s <=? ip) && (ip <=? e) then i else country_at blocks ip
  end.

Lemma ordered_above fam next blocks ip :
  ordered fam next blocks → ip < next → country_at blocks ip = 0.
Proof.
  revert next. induction blocks as [|[[s e] i] blocks IH]; intros next Ho Hlt; [done|].
  destruct Ho as (Hs & He & _ & Ho). cbn. destruct (Z.leb_spec s ip); [lia|]. cbn.
  apply (IH (e + 1)); [done|lia].
Qed.

Lemma chain_ordered fam next blocks : chain fam next blocks → ordered fam next blocks.
Proof.
  revert next. induction blocks as [|[[s e] i] blocks IH]; intros next; [done|].
  intros (-> & ? & ? & ?%IH). split_and!; try done; lia.
Qed.

Lemma complete_below fam next blocks ip :
  0 ≤ next ≤ 2 ^ addr_bits fam → ordered fam next blocks → ip < next →
  country_at (complete fam next blocks) ip = 0.
Proof.
  intros Hn Ho. apply (ordered_above fam), chain_ordered. by apply complete_chain.
Qed.

Lemma country_at_complete fam next blocks ip :
  0 ≤ next ≤ 2 ^ addr_bits fam → ordered fam next blocks →
  country_at (complete fam next blocks) ip = country_at blocks ip.
Proof.
  revert next. induction blocks as [|[[s e] i] blocks IH]; intros next Hn Ho; cbn [complete].
  - destruct (_ =? _); [done|]. cbn. by destruct (_ && _).
  - pose proof Ho as (Hs & He & _ & Ho').
    assert (country_at ((s, e, i) :: complete fam (e + 1) blocks) ip
            = country_at ((s, e, i) :: blocks) ip) as Heq.
    { cbn [country_at]. destruct (_ && _); [done|]. apply IH; [lia|done]. }
    transitivity (country_at ((s, e, i) :: complete fam (e + 1) blocks) ip); [|exact Heq].
    destruct (Z.eqb_spec s next); [done|]. cbn [app country_at].
    destruct (Z.leb_spec next ip), (Z.leb_spec ip (s - 1)); cbn [andb]; try done.
    destruct (Z.leb_spec s ip); [lia|]. cbn [andb]. symmetry. apply complete_below; [lia|done|lia].
Qed.

Lemma chain_split fam next blocks i j s e k s' e' k' :
  chain fam next blocks → blocks !! i = Some (s, e, k) → blocks !! j = Some (s', e', k') →
  (i < j)%nat → next ≤ s ≤ e ∧ e < s' ≤ e'.
Proof.
  assert (∀ blocks next j s' e' k', chain fam next blocks → blocks !! j = Some (s', e', k') →
            next ≤ s' ≤ e') as Hge.
  { clear. induction blocks as [|[[s e] k] blocks IH]; intros next j s' e' k' Hch Hj; [done|].
    destruct Hch as (-> & He & _ & Hch). destruct j as [|j]; [by simplify_eq/=; lia|].
    specialize (IH _ j _ _ _ Hch Hj). lia. }
  revert next i j. induction blocks as [|[[s0 e0] k0] blocks IH]; intros next i j Hch Hi Hj Hij; [done|].
  pose proof Hch as (-> & He & _ & Hch'). destruct j as [|j]; [lia|]. destruct i as [|i].
  - simplify_eq/=. specialize (Hge _ _ j _ _ _ Hch' Hj). lia.
  - destruct (IH _ i j Hch' Hi Hj); lia.
Qed.

Lemma chain_covers fam next blocks ip :
  chain fam next blocks → next ≤ ip < 2 ^ addr_bits fam →
  ∃ i s e, blocks !! i = Some (s, e, country_at blocks ip) ∧ s ≤ ip ≤ e.
Proof.
  revert next. induction blocks as [|[[s e] k] blocks IH]; intros next Hch Hip; [cbn in Hch; lia|].
  destruct Hch as (-> & He & _ & Hch). cbn [country_at].
  destruct (Z.leb_spec next ip); [|lia]. destruct (Z.leb_spec ip e); cbn [andb].
  - exists 0%nat, next, e. by split.
  - destruct (IH _ Hch) as (i & s' & e' & Hi & Hr); [lia|]. by exists (S i), s', e'.
Qed.

Definition matches (fam : IpFamily) (cs : list Country) (b : block) (blk : CountryBlock) : Prop :=
  ip_range blk = make_range fam b.1.1 b.1.2 ∧ country_from_index cs b.2 = Some (country blk).

(** Binary search in deserialized blocks finds the block that covers the address. *)
Lemma search_chain fam cs blocks bs ip addr :
  (∀ lo hi, ordering_by_range (make_range fam lo hi) addr = Ret (compare_with_range ip lo hi)) →
  chain fam 0 blocks → Forall2 (matches fam cs) blocks bs → 0 ≤ ip < 2 ^ addr_bits fam →
  ∃ i blk, binary_search_by (fun b => ordering_by_range (ip_range b) addr) bs = Ret (Ok i) ∧
    bs !! i = Some blk ∧ country_from_index cs (country_at blocks ip) = Some (country blk).
Proof.
  intros Hord Hch Hall Hip.
  set (cmp := fun i => match blocks !! i with Some (s, e, _) => compare_with_range ip s e | None => Eq end).
  assert (∀ i, (i < length bs)%nat → ∃ s e k, blocks !! i = Some (s, e, k)) as Hlook.
  { intros i Hi. rewrite <- (Forall2_length _ _ _ Hall) in Hi.
    destruct (lookup_lt_is_Some_2 blocks i Hi) as [[[s e] k] ?]. by exists s, e, k. }
  destruct (binary_search_by_correct (fun b => ordering_by_range (ip_range b) addr) bs cmp)
    as (r & Hr & Hspec).
  - intros i blk Hi. destruct (Forall2_lookup_r _ _ _ i blk Hall Hi) as ([[s e] k] & Hb & [-> _]).
    unfold cmp. rewrite Hb. apply Hord.
  - intros i j Hij. destruct (decide (i = j)) as [->|]; [done|].
    destruct (Hlook i) as (s & e & k & Hi); [lia|]. destruct (Hlook j) as (s' & e' & k' & Hj); [lia|].
    destruct (chain_split _ _ _ _ _ _ _ _ _ _ _ Hch Hi Hj); [lia|].
    unfold cmp, compare_with_range. rewrite Hi, Hj.
    destruct (Z.ltb_spec ip s'), (Z.ltb_spec e' ip), (Z.ltb_spec ip s), (Z.ltb_spec e ip); try done; lia.
  - intros i j Hij. destruct (decide (i = j)) as [->|]; [done|].
    destruct (Hlook i) as (s & e & k & Hi); [lia|]. destruct (Hlook j) as (s' & e' & k' & Hj); [lia|].
    destruct (chain_split _ _ _ _ _ _ _ _ _ _ _ Hch Hi Hj); [lia|].
    unfold cmp, compare_with_range. rewrite Hi, Hj.
    destruct (Z.ltb_spec ip s'), (Z.ltb_spec e' ip), (Z.ltb_spec ip s), (Z.ltb_spec e ip); try done; lia.
  - destruct (chain_covers _ _ _ ip Hch Hip) as (i & s & e & Hi & Hse).
    pose proof (lookup_lt_Some _ _ _ Hi) as Hil. rewrite (Forall2_length _ _ _ Hall) in Hil.
    assert (cmp i = Eq) as Hci.
    { unfold cmp, compare_with_range. rewrite Hi.
      destruct (Z.ltb_spec ip s), (Z.ltb_spec e ip); try done; lia. }
    destruct r as [j|j]; [|by destruct (Hspec i Hil)]. destruct Hspec as [Hjl Hcj].
    assert (j = i) as ->.
    { destruct (Hlook j Hjl) as (s' & e' & k' & Hj). unfold cmp, compare_with_range in Hcj.
      rewrite Hj in Hcj. destruct (Z.ltb_spec ip s'), (Z.ltb_spec e' ip); try done.
      destruct (Nat.lt_trichotomy i j) as [Hl|[->|Hl]]; [|done|].
      - destruct (chain_split _ _ _ _ _ _ _ _ _ _ _ Hch Hi Hj Hl); lia.
      - destruct (chain_split _ _ _ _ _ _ _ _ _ _ _ Hch Hj Hi Hl); lia. }
    destruct (Forall2_lookup_l _ _ _ i _ Hall Hi) as (blk & Hb & [_ Hc]). by exists i, blk.
Qed.

Lemma complete_indices fam cs next blocks :
  is_Some (country_from_index cs 0) →
  Forall (fun b => is_Some (country_from_index cs b.2)) blocks →
  Forall (fun b => is_Some (country_from_index cs b.2)) (complete fam next blocks).
Proof.
  intros H0 Hb. revert next. induction Hb as [|[[s e] i] blocks Hi _ IH] using Forall_ind; intros next.
  - cbn. destruct (_ =? _); by repeat constructor.
  - cbn [complete]. apply Forall_app. split; [|by constructor].
    destruct (_ =? _); by repeat constructor.
Qed.

(** Looking an address up in the blocks of its family. *)
Lemma find_in_blocks (fam : IpFamily) (finder : CountryCodeFinder) cs blocks bs ip addr :
  (∀ lo hi, ordering_by_range (make_range fam lo hi) addr = Ret (compare_with_range ip lo hi)) →
  match addr with IpV4 _ => finder_ipv4 finder | IpV6 _ => finder_ipv6 finder end = bs →
  0 ≤ 2 ^ addr_bits fam → ordered fam 0 blocks →
  Forall2 (matches fam cs) (complete fam 0 blocks) bs → 0 ≤ ip < 2 ^ addr_bits fam →
  ∃ c, country_from_index cs (country_at blocks ip) = Some c ∧
    find_country finder addr = Ret (if bool_decide (iso3166 c = "ZZ"%string) then None else Some c).
Proof.
  intros Hord Hbs Hpos Ho Hall Hip.
  pose proof (complete_chain fam 0 blocks ltac:(lia) Ho) as Hch.
  destruct (search_chain fam cs _ bs ip addr Hord Hch Hall Hip) as (i & blk & Hs & Hi & Hc).
  rewrite country_at_complete in Hc by (done || lia).
  exists (country blk). split; [done|]. unfold find_country. rewrite Hbs, Hs. cbn [exec_bind].
  by rewrite Hi.
Qed.

(** [C28] End-to-end country lookup: take any table without repeated codes and
    any two non-empty lists of blocks in address order whose country indices
    exist; serialize them, write them as 64-bit words and build the finder from
    the words.  Then looking up any address returns the country of the given
    block that holds it, and [None] when that country is the sentinel "ZZ" or
    when no block holds the address. *)
Theorem country_lookup_end_to_end pairs blocks4 blocks6 fuel :
  NoDup pairs.*1 → blocks4 ≠ [] → blocks6 ≠ [] →
  ordered ipv4 0 blocks4 → ordered ipv6 0 blocks6 →
  Forall (fun b => is_Some (country_from_index (Table.list_of (Table.new pairs)) b.2)) (blocks4 ++ blocks6) →
  (length (complete ipv4 0 blocks4) < fuel)%nat → (length (complete ipv6 0 blocks6) < fuel)%nat →
  ∃ s4 s6 data4 data6 finder,
    serialize_blocks (Q := BitQueue) ipv4 blocks4 = Ret s4 ∧ country_data (bit_queue s4) = Ret data4 ∧
    serialize_blocks (Q := BitQueue) ipv6 blocks6 = Ret s6 ∧ country_data (bit_queue s6) = Ret data6 ∧
    finder_new fuel fuel (Table.new pairs) data4 data6 = Ret finder ∧
    ∀ addr, match addr with IpV4 ip => in_u 32 ip | IpV6 ip => in_u 128 ip end →
      ∃ c, country_from_index (Table.list_of (Table.new pairs))
             match addr with IpV4 ip => country_at blocks4 ip | IpV6 ip => country_at blocks6 ip end = Some c ∧
        find_country finder addr =
          Ret (if bool_decide (iso3166 c = "ZZ"%string) then None else Some c).
Proof.
  intros Hnd Hn4 Hn6 Ho4 Ho6 [Hi4 Hi6]%Forall_app Hf4 Hf6.
  assert (is_Some (country_from_index (Table.list_of (Table.new pairs)) 0)) as H0 by (by eexists).
  destruct (roundtrip (Q := BitQueue) ipv4 ipv4_ok blocks4 (Table.list_of (Table.new pairs)) fuel)
    as (s4 & data4 & bs4 & Hs4 & Hd4 & _ & Hde4 & Hall4); try done; [by apply complete_indices|].
  destruct (roundtrip (Q := BitQueue) ipv6 ipv6_ok blocks6 (Table.list_of (Table.new pairs)) fuel)
    as (s6 & data6 & bs6 & Hs6 & Hd6 & _ & Hde6 & Hall6); try done; [by apply complete_indices|].
  exists s4, s6, data4, data6, (mkFinder (Table.new pairs) bs4 bs6). split_and!; try done.
  - unfold finder_new. rewrite Hde4. cbn [exec_bind]. by rewrite Hde6.
  - intros [ip|ip] Hip.
    + by apply (find_in_blocks ipv4 _ _ blocks4 bs4 ip (IpV4 ip)).
    + by apply (find_in_blocks ipv6 _ _ blocks6 bs6 ip (IpV6 ip)).
Qed.

Definition sample_pairs : list (string * string) := [("US", "America"); ("GB", "Britain")]%string.

Lemma country_lookup_end_to_end_witness :
  ∃ s4 s6 data4 data6 finder,
    serialize_blocks (Q := BitQueue) ipv4 sample_blocks = Ret s4 ∧ country_data (bit_queue s4) = Ret data4 ∧
    serialize_blocks (Q := BitQueue) ipv6 [(1, 2, 2)] = Ret s6 ∧ country_data (bit_queue s6) = Ret data6 ∧
    finder_new 9 9 (Table.new sample_pairs) data4 data6 = Ret finder ∧
    ∀ addr, match addr with IpV4 ip => in_u 32 ip | IpV6 ip => in_u 128 ip end →
      ∃ c, country_from_index (Table.list_of (Table.new sample_pairs))
             match addr with IpV4 ip => country_at sample_blocks ip | IpV6 ip => country_at [(1, 2, 2)] ip end
           = Some c ∧
        find_country finder addr =
          Ret (if bool_decide (iso3166 c = "ZZ"%string) then None else Some c).
Proof.
  apply country_lookup_end_to_end.
  - apply (bool_decide_unpack _). vm_compute. exact I.
  - done.
  - done.
  - vm_compute. repeat split; easy.
  - vm_compute. repeat split; easy.
  - repeat constructor; eexists; reflexivity.
  - vm_compute. lia.
  - vm_compute. lia.
Defined.
