(* ===== verification/CryptDE.v ===== *)
(** * CryptDE: the cryptographic trait and its two implementations

    [sub_lib/cryptde.rs] declares the trait every component encrypts and signs
    through; [cryptde_null.rs] is the transparent implementation used by test
    networks and [cryptde_real.rs] the libsodium one.  The trait is the record
    [CryptDE] (a trait object: its methods with [self] captured), what clients
    rely on is stated as the classes [Decrypts], [Signs] and [TotalVerifier],
    and the two implementations are shown to be instances, or not to be.

    Third-party code is a parameter: SHA-1, keccak and libsodium's primitives.
    A randomised call takes the bytes it draws as an argument [rand]. *)

From Stdlib Require Import ZArith Lia String Ascii.
From stdpp Require Import base list numbers option strings.
From Stdlib Require Import ZArith Lia.
From S2P Require Import Prelude Text.

Local Open Scope Z_scope.
Local Open Scope rust_scope.
Local Open Scope string_scope.
Local Open Scope list_scope.

Abbreviation PublicKey := (list Z) (only parsing).
Abbreviation PlainData := (list Z) (only parsing).
Abbreviation CryptData := (list Z) (only parsing).

Inductive CryptdecError :=
| EmptyKey
| EmptyData
| InvalidKey (message : string)
| InvalidSignature (message : string)
| OpeningFailed
| OtherError (message : string).

Global Instance CryptdecError_eq_dec : EqDecision CryptdecError.
Proof. solve_decision. Defined.

(** [dyn CryptDE]: the methods the node's protocols call. *)
Record CryptDE := mkCryptDE {
  encode : list Z → PublicKey → PlainData → fallible CryptData CryptdecError;
  decode : CryptData → fallible PlainData CryptdecError;
  random : list Z → nat → list Z;
  public_key : PublicKey;
  sign : PlainData → result CryptData CryptdecError;
  verify_signature : PlainData → CryptData → PublicKey → exec bool;
  hash : PlainData → CryptData;
  cryptde_to_string : string;
}.

(** The [base64] crate with [URL_SAFE_NO_PAD]; what it documents is that the
    text of bytes is read back and is made of letters, digits, [-] and [_]. *)
Class Base64 := {
  base64_encode : list Z → string;
  base64_decode : string → option (list Z);
}.
Class Base64Laws (B : Base64) : Prop := {
  base64_roundtrip bs : bytes_ok bs → base64_decode (base64_encode bs) = Some bs;
  base64_alphabet bs : bytes_ok bs →
    Forall (fun c => c ≠ ","%char) (list_ascii_of_string (base64_encode bs));
}.

(** ** What clients rely on *)

(** Data encrypted to the owner of [d]'s key is recovered by [d]. *)
Class Decrypts (e d : CryptDE) : Prop := {
  encode_decodes rand data :
    data ≠ [] →
    ∃ ct, encode e rand (public_key d) data = Ret (Ok ct) ∧ decode d ct = Ret (Ok data)
}.

(** A signature of [s] is accepted by [v] under [s]'s public key, and passes
    the length test callers make first. *)
Class Signs (s v : CryptDE) : Prop := {
  sign_verifies data sig :
    sign s data = Ok sig →
    (length (public_key s) ≤ length sig)%nat ∧
    verify_signature v data sig (public_key s) = Ret true
}.

(** After the callers' length test, verification under [pk] returns. *)
Definition verifies_under (v : CryptDE) (pk : PublicKey) : Prop :=
  ∀ data sig, (length pk ≤ length sig)%nat → verify_signature v data sig pk ≠ Panic.

(** It does so under every key. *)
Class TotalVerifier (v : CryptDE) : Prop := {
  verify_returns data sig pk :
    (length pk ≤ length sig)%nat → ∃ b, verify_signature v data sig pk = Ret b
}.

(** [slice.split_at(n)] *)
Definition split_at (n : nat) (l : list Z) : exec (list Z * list Z) :=
  if (n <=? length l)%nat then Ret (take n l, drop n l) else Panic.

(** ** [CryptDENull] *)

Module Null.
Section Null.
Context (sha1 keccak256 : list Z → list Z).

Record CryptDENull := mkNull {
  private_key : list Z;
  null_public_key : PublicKey;
  digest : list Z;
  next_symmetric_key_seed : Z;
}.

Definition create_digest (msg address : list Z) : list Z := keccak256 (msg ++ address).

Definition other_key_data (in_key_data : list Z) : list Z :=
  map (fun b => wrap_u 8 (b + 128)) in_key_data.

Definition private_from_public (in_key : PublicKey) : list Z := other_key_data in_key.
Definition public_from_private (in_key : list Z) : PublicKey := other_key_data in_key.

Definition set_key_pair (c : CryptDENull) (pk : PublicKey) (contract : list Z) : CryptDENull :=
  mkNull (private_from_public pk) pk (create_digest pk contract) (next_symmetric_key_seed c).

(** [CryptDENull::new], with the 32 bytes it draws. *)
Definition null_new (private_key_bytes contract : list Z) : CryptDENull :=
  let public_key := public_from_private private_key_bytes in
  mkNull private_key_bytes public_key (create_digest public_key contract) 0x0123456789ABCDEF.

Definition encode_with_key_data (key_data data : list Z) : result CryptData CryptdecError :=
  if (length key_data =? 0)%nat then Err EmptyKey
  else if (length data =? 0)%nat then Err EmptyData
  else Ok (key_data ++ data).

Definition key_and_data (key_len : nat) (data : CryptData) : exec (list Z * list Z) :=
  split_at key_len data.

Definition wrong_key_message (key_data data : list Z) : string :=
  let prefix_len := Nat.min (length key_data) (length data) in
  ("Could not decrypt with " ++ to_hex key_data ++ " data beginning with "
    ++ to_hex (take prefix_len data))%string.

Definition decode_with_key_data (key_data data : list Z) : fallible PlainData CryptdecError :=
  if (length key_data =? 0)%nat then Ret (Err EmptyKey)
  else if (length data =? 0)%nat then Ret (Err EmptyData)
  else if (length data <? length key_data)%nat
  then Ret (Err (InvalidKey (wrong_key_message key_data data)))
  else
    let* kd := key_and_data (length key_data) data in
    let '(k, d) := kd in
    if negb (bool_decide (k = key_data)) then Panic else Ret (Ok d).

(** [gen_key_sym]: eight bytes, least significant first, and the next seed. *)
Fixpoint seed_bytes (n : nat) (seed : Z) : list Z :=
  match n with
  | O => []
  | S n => wrap_u 8 (Z.land seed 255) :: seed_bytes n (Z.shiftr seed 8)
  end.

Definition gen_key_sym (c : CryptDENull) : list Z * CryptDENull :=
  let value := next_symmetric_key_seed c in
  (seed_bytes 8 value,
   mkNull (private_key c) (null_public_key c) (digest c) (wrap_u 64 (value + 1))).

Definition null_encode_sym (key data : list Z) : result CryptData CryptdecError :=
  encode_with_key_data key data.
Definition null_decode_sym (key data : list Z) : fallible PlainData CryptdecError :=
  decode_with_key_data key data.

Definition null_hash (data : list Z) : list Z := sha1 data.

Definition null_sign (c : CryptDENull) (data : list Z) : result CryptData CryptdecError :=
  encode_with_key_data (other_key_data (private_key c)) (null_hash data).

Definition null_verify_signature (data signature pk : list Z) : exec bool :=
  let* kd := key_and_data (length pk) signature in
  if negb (bool_decide (fst kd = pk)) then Ret false
  else
    let* decoded := decode_with_key_data pk signature in
    match decoded with
    | Err _ => Ret false
    | Ok claimed_hash => Ret (bool_decide (null_hash data = claimed_hash))
    end.

(** [to_string]: the private key. *)
Definition null_to_string `{B : Base64} (c : CryptDENull) : string := base64_encode (private_key c).

(** [impl CryptDE for CryptDENull] *)
Definition null_cryptde `{B : Base64} (c : CryptDENull) : CryptDE := {|
  encode := fun _ pk data => Ret (encode_with_key_data (other_key_data pk) data);
  decode := fun data => decode_with_key_data (private_key c) data;
  random := fun _ n => repeat 52 n;
  public_key := null_public_key c;
  sign := null_sign c;
  verify_signature := null_verify_signature;
  hash := null_hash;
  cryptde_to_string := null_to_string c
|}.

(** The key pair [new] and [set_key_pair] establish. *)
Definition key_pair_ok (c : CryptDENull) : Prop :=
  null_public_key c ≠ [] ∧ bytes_ok (null_public_key c) ∧
  private_key c = other_key_data (null_public_key c).

Lemma length_other_key_data k : length (other_key_data k) = length k.
Proof. apply length_map. Qed.

Lemma other_key_data_involutive k : bytes_ok k → other_key_data (other_key_data k) = k.
Proof.
  induction 1 as [|b k Hb _ IH]; [done|]. simpl. f_equal; [|done].
  unfold is_byte, in_u in Hb. unfold wrap_u. change (2 ^ 8) with 256 in *.
  destruct (Z.lt_ge_cases b 128).
  - rewrite (Z.mod_small (b + 128)) by lia.
    replace (b + 128 + 128) with (b + 1 * 256) by lia.
    rewrite Z.mod_add by lia. apply Z.mod_small. lia.
  - replace (b + 128) with (b - 128 + 1 * 256) by lia.
    rewrite Z.mod_add, (Z.mod_small (b - 128)) by lia.
    rewrite Z.mod_small; lia.
Qed.

Lemma other_key_data_ok k : bytes_ok (other_key_data k).
Proof. induction k; simpl; constructor; [by apply wrap_u_range|done]. Qed.

Lemma set_key_pair_ok c pk contract :
  pk ≠ [] → bytes_ok pk → key_pair_ok (set_key_pair c pk contract).
Proof. done. Qed.

Lemma null_new_ok seed contract :
  seed ≠ [] → bytes_ok seed → key_pair_ok (null_new seed contract).
Proof.
  intros Hne Hok. repeat split; simpl.
  - unfold public_from_private. by destruct seed.
  - apply other_key_data_ok.
  - by rewrite other_key_data_involutive.
Qed.

Lemma decode_with_own_key key data :
  key ≠ [] → data ≠ [] → decode_with_key_data key (key ++ data) = Ret (Ok data).
Proof.
  intros Hk Hd. unfold decode_with_key_data, key_and_data, split_at.
  rewrite length_app. destruct key as [|k key], data as [|d data]; try done.
  rewrite (proj2 (Nat.ltb_ge _ _)) by lia. rewrite (proj2 (Nat.leb_le _ _)) by lia.
  cbn [length Nat.eqb Nat.add exec_bind]. rewrite take_app_length', drop_app_length' by done.
  by rewrite bool_decide_eq_true_2.
Qed.

Lemma encode_with_key_data_Ok key data :
  key ≠ [] → data ≠ [] → encode_with_key_data key data = Ok (key ++ data).
Proof. unfold encode_with_key_data. by destruct key, data. Qed.

Lemma other_key_data_nonempty k : k ≠ [] → other_key_data k ≠ [].
Proof. by destruct k. Qed.

Lemma null_Decrypts `{B : Base64} e d : key_pair_ok d → Decrypts (null_cryptde e) (null_cryptde d).
Proof.
  intros (Hne & Hok & Hpriv). split. intros rand data Hdata. simpl.
  pose proof (other_key_data_nonempty _ Hne).
  rewrite encode_with_key_data_Ok by done. eexists; split; [done|].
  rewrite Hpriv. by apply decode_with_own_key.
Qed.

Lemma null_verify_own pk h data :
  pk ≠ [] → h ≠ [] → null_verify_signature data (pk ++ h) pk = Ret (bool_decide (sha1 data = h)).
Proof.
  intros Hpk Hh. unfold null_verify_signature, key_and_data.
  unfold split_at at 1. rewrite length_app, (proj2 (Nat.leb_le _ _)) by lia.
  cbn [exec_bind fst]. rewrite take_app_length' by done.
  rewrite bool_decide_eq_true_2 by done. cbn [negb].
  by rewrite decode_with_own_key.
Qed.

Lemma null_Signs `{B : Base64} s v :
  key_pair_ok s → (∀ d, sha1 d ≠ []) → Signs (null_cryptde s) (null_cryptde v).
Proof.
  intros (Hne & Hok & Hpriv) Hsha. split. intros data sig. simpl. unfold null_sign.
  rewrite Hpriv, other_key_data_involutive, encode_with_key_data_Ok by done.
  intros [= <-]. rewrite length_app. split; [lia|]. unfold null_hash.
  rewrite null_verify_own by done. by rewrite bool_decide_eq_true_2.
Qed.

Lemma null_TotalVerifier `{B : Base64} v : TotalVerifier (null_cryptde v).
Proof.
  split. intros data sig pk Hlen. simpl.
  unfold null_verify_signature, key_and_data, decode_with_key_data, key_and_data, split_at.
  rewrite (proj2 (Nat.leb_le _ _)) by done. cbn [exec_bind fst].
  destruct (bool_decide (take (length pk) sig = pk)) eqn:E; cbn [negb]; [|eauto].
  destruct (length pk =? 0)%nat; cbn [exec_bind]; [eauto|].
  destruct (length sig =? 0)%nat; cbn [exec_bind]; [eauto|].
  rewrite (proj2 (Nat.ltb_ge _ _)) by done. cbn [exec_bind]. simpl. eauto.
Qed.

End Null.
End Null.

(** ** [CryptDEReal] *)

Module Real.

Definition PUBLICKEYBYTES : nat := 32.
Definition SIGNATUREBYTES : nat := 64.
Definition SEALBYTES : nat := 48.
Definition KEYBYTES : nat := 32.
Definition BOX_SECRETKEYBYTES : nat := 32.
Definition SIGN_SECRETKEYBYTES : nat := 64.
Definition NONCEBYTES : nat := 24.

(** libsodium, as the code calls it.  A key pair (public key first) is a
    function of the randomness drawn for it; a public key is also computed from
    the secret one. *)
Record Sodium := mkSodium {
  seal : list Z → list Z → list Z → list Z;
  open : list Z → list Z → list Z → option (list Z);
  secretbox_seal : list Z → list Z → list Z → list Z;
  secretbox_open : list Z → list Z → list Z → option (list Z);
  sign_detached : list Z → list Z → list Z;
  verify_detached : list Z → list Z → list Z → bool;
  sodium_hash : list Z → list Z;
  box_gen_keypair : list Z → list Z * list Z;
  sign_gen_keypair : list Z → list Z * list Z;
  box_public_key : list Z → list Z;
  sign_public_key : list Z → list Z;
}.

Record CryptDEReal := mkReal {
  real_public_key : PublicKey;
  encryption_secret_key : list Z;
  signing_secret_key : list Z;
  real_digest : list Z;
  pre_shared_data : list Z;
}.

Section Real.
Context (S : Sodium).

Definition local_public_key_from (encryption_public_key signing_public_key : list Z) : PublicKey :=
  take PUBLICKEYBYTES encryption_public_key ++ take PUBLICKEYBYTES signing_public_key.

(** [data.copy_from_slice(&key[..32])]: the slice panics on a short key. *)
Definition encryption_public_key_from (local_public_key : PublicKey) : exec (list Z) :=
  if (PUBLICKEYBYTES <=? length local_public_key)%nat
  then Ret (take PUBLICKEYBYTES local_public_key) else Panic.

(** [data.copy_from_slice(&key[32..])]: the slice panics on a key shorter than
    32 bytes, the copy on one whose rest is not 32 bytes long. *)
Definition signing_public_key_from (local_public_key : PublicKey) : exec (list Z) :=
  if (PUBLICKEYBYTES <=? length local_public_key)%nat then
    if (length (drop PUBLICKEYBYTES local_public_key) =? PUBLICKEYBYTES)%nat
    then Ret (drop PUBLICKEYBYTES local_public_key) else Panic
  else Panic.

Definition real_encode (rand : list Z) (key : PublicKey) (data : PlainData)
    : fallible CryptData CryptdecError :=
  if negb (length key =? PUBLICKEYBYTES + PUBLICKEYBYTES)%nat then
    Ret (Err (InvalidKey ("public key has invalid length " ++ dec (Z.of_nat (length key))
      ++ "; expected " ++ dec (Z.of_nat (PUBLICKEYBYTES + PUBLICKEYBYTES)))%string))
  else
    let* remote_public_key := encryption_public_key_from key in
    Ret (Ok (seal S rand data remote_public_key)).

Definition real_decode (c : CryptDEReal) (data : CryptData) : fallible PlainData CryptdecError :=
  if (length data <? SEALBYTES)%nat then Ret (Err EmptyData)
  else
    let* pk := encryption_public_key_from (real_public_key c) in
    match open S data pk (encryption_secret_key c) with
    | Some data => Ret (Ok data)
    | None => Ret (Err OpeningFailed)
    end.

Definition invalid_sym_key {A} (key : list Z) : result A CryptdecError :=
  Err (InvalidKey ("symmetric key has invalid length " ++ dec (Z.of_nat (length key))
    ++ "; expected " ++ dec (Z.of_nat KEYBYTES))%string).

(** [secretbox::Key::from_slice] succeeds on exactly [KEYBYTES] bytes. *)
Definition real_encode_sym (nonce key data : list Z) : result CryptData CryptdecError :=
  if (length key =? KEYBYTES)%nat
  then Ok (nonce ++ secretbox_seal S data nonce key)
  else invalid_sym_key key.

Definition real_decode_sym (key data : list Z) : result PlainData CryptdecError :=
  if (length data <=? NONCEBYTES)%nat then Err EmptyData
  else
    let nonce := take NONCEBYTES data in
    if (length key =? KEYBYTES)%nat then
      match secretbox_open S (drop NONCEBYTES data) nonce key with
      | None => Err OpeningFailed
      | Some data => Ok data
      end
    else invalid_sym_key key.

Definition real_sign (c : CryptDEReal) (data : PlainData) : result CryptData CryptdecError :=
  Ok (sign_detached S (data ++ pre_shared_data c) (signing_secret_key c)).

Definition real_verify_signature (c : CryptDEReal) (data : PlainData) (signature : CryptData)
    (pk : PublicKey) : exec bool :=
  if negb (length signature =? SIGNATUREBYTES)%nat then Ret false
  else
    let* spk := signing_public_key_from pk in
    Ret (verify_detached S signature (data ++ pre_shared_data c) spk).

(** [CryptDEReal::new] on a chain whose token contract is [contract]. *)
Definition real_new (keccak256 : list Z → list Z) (contract rand : list Z) : CryptDEReal :=
  let '(e_public, e_secret) := box_gen_keypair S rand in
  let '(s_public, s_secret) := sign_gen_keypair S rand in
  let public_key := local_public_key_from e_public s_public in
  mkReal public_key e_secret s_secret (keccak256 (public_key ++ contract)) contract.

Definition real_to_string `{B : Base64} (c : CryptDEReal) : string :=
  (base64_encode (encryption_secret_key c) ++ "," ++ base64_encode (signing_secret_key c))%string.

Definition convert `{B : Base64} (s : string) : result (list Z) string :=
  match base64_decode s with
  | Some v => Ok v
  | None => Err "Serialized CryptDE must have valid Base64; contents redacted"%string
  end.

(** [value.split(',')] *)
Fixpoint split_comma (s : string) : list string :=
  match s with
  | EmptyString => [EmptyString]
  | String c s =>
      if bool_decide (c = ","%char) then EmptyString :: split_comma s
      else match split_comma s with
           | part :: parts => String c part :: parts
           | [] => [String c EmptyString]
           end
  end.

Definition wrong_key_size (what : string) (expected : nat) (v : list Z) : string :=
  ("Serialized CryptDE must have " ++ dec (Z.of_nat expected) ++ "-byte " ++ what ++ " key, not "
    ++ dec (Z.of_nat (length v)))%string.

Definition real_make_from_str `{B : Base64} (keccak256 : list Z → list Z) (contract : list Z)
    (value : string) : result CryptDEReal string :=
  match split_comma value with
  | [part0; part1] =>
      let? e_secret := convert part0 in
      if negb (length e_secret =? BOX_SECRETKEYBYTES)%nat
      then Err (wrong_key_size "encryption" BOX_SECRETKEYBYTES e_secret)
      else
        let? s_secret := convert part1 in
        if negb (length s_secret =? SIGN_SECRETKEYBYTES)%nat
        then Err (wrong_key_size "signing" SIGN_SECRETKEYBYTES s_secret)
        else
          let public_key := local_public_key_from (box_public_key S e_secret) (sign_public_key S s_secret) in
          Ok (mkReal public_key e_secret s_secret (keccak256 (public_key ++ contract)) contract)
  | parts =>
      Err ("Serialized CryptDE must have 2 comma-separated parts, not "
            ++ dec (Z.of_nat (length parts)))%string
  end.

(** [impl CryptDE for CryptDEReal] *)
Definition real_cryptde `{B : Base64} (c : CryptDEReal) : CryptDE := {|
  encode := real_encode;
  decode := real_decode c;
  random := fun rand n => take n rand;
  public_key := real_public_key c;
  sign := real_sign c;
  verify_signature := real_verify_signature c;
  hash := sodium_hash S;
  cryptde_to_string := real_to_string c
|}.

(** libsodium's documented behaviour, and the sizes of its keys. *)
Class SodiumLaws : Prop := {
  open_seal rand data sk :
    open S (seal S rand data (box_public_key S sk)) (box_public_key S sk) sk = Some data;
  seal_length rand data pk : length (seal S rand data pk) = (SEALBYTES + length data)%nat;
  secretbox_open_seal data nonce key :
    secretbox_open S (secretbox_seal S data nonce key) nonce key = Some data;
  secretbox_seal_nonempty data nonce key : secretbox_seal S data nonce key ≠ [];
  verify_sign data sk :
    verify_detached S (sign_detached S data sk) data (sign_public_key S sk) = true;
  sign_length data sk : length (sign_detached S data sk) = SIGNATUREBYTES;
  box_public_key_length sk : length (box_public_key S sk) = PUBLICKEYBYTES;
  sign_public_key_length sk : length (sign_public_key S sk) = PUBLICKEYBYTES;
  box_keypair rand : fst (box_gen_keypair S rand) = box_public_key S (snd (box_gen_keypair S rand));
  sign_keypair rand :
    fst (sign_gen_keypair S rand) = sign_public_key S (snd (sign_gen_keypair S rand));
  box_secret rand : bytes_ok (snd (box_gen_keypair S rand)) ∧
    length (snd (box_gen_keypair S rand)) = BOX_SECRETKEYBYTES;
  sign_secret rand : bytes_ok (snd (sign_gen_keypair S rand)) ∧
    length (snd (sign_gen_keypair S rand)) = SIGN_SECRETKEYBYTES;
}.

Section Laws.
Context {L : SodiumLaws}.

(** The keys [new] and [make_from_str] establish. *)
Definition real_keys_ok (c : CryptDEReal) : Prop :=
  real_public_key c =
    local_public_key_from (box_public_key S (encryption_secret_key c))
      (sign_public_key S (signing_secret_key c)).

Lemma real_public_key_parts c :
  real_keys_ok c →
  length (real_public_key c) = (PUBLICKEYBYTES + PUBLICKEYBYTES)%nat ∧
  encryption_public_key_from (real_public_key c) = Ret (box_public_key S (encryption_secret_key c)) ∧
  signing_public_key_from (real_public_key c) = Ret (sign_public_key S (signing_secret_key c)).
Proof.
  unfold real_keys_ok, local_public_key_from. intros ->.
  pose proof (box_public_key_length (encryption_secret_key c)) as He.
  pose proof (sign_public_key_length (signing_secret_key c)) as Hs.
  rewrite !take_ge by lia.
  unfold encryption_public_key_from, signing_public_key_from.
  rewrite take_app_length', drop_app_length', length_app, He, Hs by done. done.
Qed.

Lemma real_Decrypts `{B : Base64} e d : real_keys_ok d → Decrypts (real_cryptde e) (real_cryptde d).
Proof.
  intros (Hlen & He & _)%real_public_key_parts. split. intros rand data _. simpl.
  unfold real_encode, real_decode. rewrite Hlen, Nat.eqb_refl, He. cbn [negb exec_bind].
  eexists; split; [done|].
  rewrite seal_length, (proj2 (Nat.ltb_ge _ _)) by lia. cbn [exec_bind].
  by rewrite open_seal.
Qed.

(** Signer and verifier must be on the same chain: the contract address is
    appended to what is signed. *)
Lemma real_Signs `{B : Base64} s v :
  real_keys_ok s → pre_shared_data s = pre_shared_data v →
  Signs (real_cryptde s) (real_cryptde v).
Proof.
  intros (Hlen & _ & Hs)%real_public_key_parts Hpsd. split. intros data sig [= <-]. simpl.
  rewrite Hlen, sign_length. split; [done|].
  unfold real_verify_signature. rewrite sign_length, Nat.eqb_refl, Hs, Hpsd.
  cbn [negb exec_bind]. by rewrite verify_sign.
Qed.

Lemma real_sym_roundtrip nonce key data :
  length nonce = NONCEBYTES → length key = KEYBYTES →
  ∃ ct, real_encode_sym nonce key data = Ok ct ∧ real_decode_sym key ct = Ok data.
Proof.
  intros Hn Hk. unfold real_encode_sym, real_decode_sym. rewrite Hk. simpl Nat.eqb. cbv iota.
  eexists; split; [done|]. rewrite length_app, Hn.
  pose proof (secretbox_seal_nonempty data nonce key).
  destruct (secretbox_seal S data nonce key) as [|x l] eqn:E; [done|].
  rewrite (proj2 (Nat.leb_gt _ _)) by (cbn [length]; lia).
  by rewrite take_app_length', drop_app_length', <- E, secretbox_open_seal.
Qed.

(** *** Keys made and read back *)

Lemma real_new_keys_ok keccak256 contract rand : real_keys_ok (real_new keccak256 contract rand).
Proof.
  unfold real_keys_ok, real_new. pose proof (box_keypair rand) as He. pose proof (sign_keypair rand) as Hs.
  destruct (box_gen_keypair S rand), (sign_gen_keypair S rand). cbn in *. by subst.
Qed.

Lemma split_comma_free s :
  Forall (fun c => c ≠ ","%char) (list_ascii_of_string s) → split_comma s = [s].
Proof.
  induction s as [|c s IH]; [done|]. cbn [list_ascii_of_string split_comma].
  intros [Hc Hs]%Forall_cons. rewrite bool_decide_eq_false_2 by done. by rewrite (IH Hs).
Qed.
Lemma split_comma_joined s t :
  Forall (fun c => c ≠ ","%char) (list_ascii_of_string s) →
  split_comma (s ++ "," ++ t)%string = s :: split_comma t.
Proof.
  induction s as [|c s IH]; [done|]. cbn [list_ascii_of_string].
  change (String c s ++ "," ++ t)%string with (String c (s ++ "," ++ t)%string). cbn [split_comma].
  intros [Hc Hs]%Forall_cons. rewrite bool_decide_eq_false_2 by done. by rewrite (IH Hs).
Qed.

(** What [to_string] writes of a new key pair, [make_from_str] reads back. *)
Lemma real_make_from_str_to_string `{B : Base64} `{!Base64Laws B} keccak256 contract rand :
  real_make_from_str keccak256 contract (real_to_string (real_new keccak256 contract rand)) =
    Ok (real_new keccak256 contract rand).
Proof.
  pose proof (real_new_keys_ok keccak256 contract rand) as Hok. unfold real_keys_ok in Hok.
  unfold real_make_from_str, real_to_string.
  revert Hok. unfold real_new. pose proof (box_secret rand) as [He Hel]. pose proof (sign_secret rand) as [Hs Hsl].
  destruct (box_gen_keypair S rand) as [ep es], (sign_gen_keypair S rand) as [sp ss]. cbn in He, Hel, Hs, Hsl.
  cbn [encryption_secret_key signing_secret_key real_public_key]. intros Hok. unfold convert.
  rewrite split_comma_joined, split_comma_free by (by apply base64_alphabet).
  rewrite !base64_roundtrip by done. cbn [result_bind]. rewrite Hel, Hsl, !Nat.eqb_refl. cbn [negb].
  by rewrite <- Hok.
Qed.

(** A node opens what arrives without a panic. *)
Lemma real_decode_returns c ct : real_keys_ok c → real_decode c ct ≠ Panic.
Proof.
  intros (_ & He & _)%real_public_key_parts. unfold real_decode. rewrite He.
  destruct (_ <? _)%nat; [done|]. cbn [exec_bind]. by destruct (open _ _ _ _).
Qed.

End Laws.

(** Verification under a key that is not 64 bytes long does not return. *)
Lemma real_verify_panics c data sig pk :
  real_verify_signature c data sig pk = Panic ↔
  length sig = SIGNATUREBYTES ∧ length pk ≠ (PUBLICKEYBYTES + PUBLICKEYBYTES)%nat.
Proof.
  unfold real_verify_signature, signing_public_key_from. rewrite length_drop.
  unfold SIGNATUREBYTES, PUBLICKEYBYTES.
  destruct (length sig =? 64)%nat eqn:E1; cbn [negb]; guards; [|naive_solver].
  destruct (32 <=? length pk)%nat eqn:E2; cbn [exec_bind]; guards; [|naive_solver lia].
  destruct (length pk - 32 =? 32)%nat eqn:E3; cbn [exec_bind]; guards; naive_solver lia.
Qed.

Lemma real_verifies_under `{B : Base64} c pk :
  length pk = (PUBLICKEYBYTES + PUBLICKEYBYTES)%nat → verifies_under (real_cryptde c) pk.
Proof. intros Hl data sig _ [_ ?]%real_verify_panics. done. Qed.

End Real.
End Real.

(** ** Properties *)

(** The libsodium implementation keeps the contract its clients rely on:
    what is encrypted to a node's key that node decrypts, what it signs
    verifies under its key at every node of the same chain, and symmetric
    encryption round-trips; all from libsodium's documented laws. *)
Theorem real_cryptde_contract `{B : Base64} S (e d : Real.CryptDEReal) nonce key data :
  Real.SodiumLaws S →
  Real.real_keys_ok S d → Real.pre_shared_data d = Real.pre_shared_data e →
  length nonce = Real.NONCEBYTES → length key = Real.KEYBYTES →
  Decrypts (Real.real_cryptde S e) (Real.real_cryptde S d) ∧
  Signs (Real.real_cryptde S d) (Real.real_cryptde S e) ∧
  ∃ ct, Real.real_encode_sym S nonce key data = Ok ct ∧
        Real.real_decode_sym S key ct = Ok data.
Proof.
  intros L Hd Hp Hn Hk. split; [by eapply Real.real_Decrypts|].
  split; [by eapply Real.real_Signs|]. by eapply Real.real_sym_roundtrip.
Qed.

(** The transparent implementation keeps the same contract for every key
    pair [new] or [set_key_pair] can make, and its signature check returns a
    verdict on every signature at least as long as the key. *)
Theorem null_cryptde_contract `{B : Base64} sha1 keccak256 (e d : Null.CryptDENull) pk contract :
  pk ≠ [] → bytes_ok pk → (∀ data, sha1 data ≠ []) →
  let d' := Null.set_key_pair keccak256 d pk contract in
  Decrypts (Null.null_cryptde sha1 e) (Null.null_cryptde sha1 d') ∧
  Signs (Null.null_cryptde sha1 d') (Null.null_cryptde sha1 e) ∧
  TotalVerifier (Null.null_cryptde sha1 e).
Proof.
  intros Hne Hok Hsha d'.
  pose proof (Null.set_key_pair_ok keccak256 d pk contract Hne Hok).
  split; [by apply Null.null_Decrypts|]. split; [by apply Null.null_Signs|].
  apply Null.null_TotalVerifier.
Qed.

(** ** Crates that satisfy the laws *)

(** Thirty-two bytes that begin with the given ones. *)
Definition pad32 (l : list Z) : list Z := take 32 (map (wrap_u 8) l ++ repeat 0 32).
Lemma pad32_length l : length (pad32 l) = 32%nat.
Proof. unfold pad32. rewrite length_take, length_app, repeat_length. lia. Qed.
Lemma pad32_bytes l : bytes_ok (pad32 l).
Proof.
  apply Forall_take, Forall_app. split.
  - apply Forall_map, Forall_true. intros x. by apply wrap_u_range.
  - by repeat constructor.
Qed.

(** A public key is the padded secret; a seal carries the key it is for; a
    signature carries the signer's key and a checksum of the data. *)
Definition checksum (data : list Z) : list Z := repeat (foldr Z.add 0 data mod 256) 32.
Definition sample_sodium : Real.Sodium :=
  Real.mkSodium (fun _ d pk => pad32 pk ++ repeat 0 16 ++ d)
    (fun c pk _ => if bool_decide (take 32 c = pad32 pk) then Some (drop 48 c) else None)
    (fun d _ _ => 0 :: d) (fun c _ _ => Some (drop 1 c))
    (fun d sk => pad32 sk ++ checksum d) (fun sig d pk => bool_decide (sig = pk ++ checksum d))
    (fun d => d)
    (fun rand => (pad32 (pad32 rand), pad32 rand))
    (fun rand => (pad32 (pad32 rand ++ pad32 rand), pad32 rand ++ pad32 rand))
    pad32 pad32.

Lemma pad32_pad32 l : pad32 (pad32 l) = pad32 l.
Proof.
  unfold pad32 at 1. rewrite take_app_length' by (by rewrite length_map, pad32_length).
  rewrite <- (map_id (pad32 l)) at 2. apply map_ext_Forall. eapply Forall_impl; [apply pad32_bytes|].
  intros x Hx. by apply wrap_u_small.
Qed.

Lemma sample_sodium_laws : Real.SodiumLaws sample_sodium.
Proof.
  split; cbn [sample_sodium Real.seal Real.open Real.secretbox_seal Real.secretbox_open Real.sign_detached
    Real.verify_detached Real.box_gen_keypair Real.sign_gen_keypair Real.box_public_key
    Real.sign_public_key fst snd]; intros.
  - rewrite take_app_length' by (by rewrite pad32_length). rewrite bool_decide_eq_true_2 by done.
    by rewrite app_assoc, drop_app_length' by (rewrite length_app, repeat_length, pad32_length; done).
  - by rewrite !length_app, repeat_length, pad32_length.
  - done.
  - done.
  - by apply bool_decide_eq_true_2.
  - unfold checksum. by rewrite length_app, repeat_length, pad32_length.
  - apply pad32_length.
  - apply pad32_length.
  - done.
  - done.
  - split; [apply pad32_bytes|apply pad32_length].
  - split; [apply Forall_app; split; apply pad32_bytes|by rewrite length_app, !pad32_length].
Qed.

Definition sample_base64 : Base64 := {| base64_encode := to_hex; base64_decode := from_hex |}.
Lemma sample_base64_laws : Base64Laws sample_base64.
Proof.
  assert (∀ d, 0 ≤ d < 16 → hex_char d ≠ ","%char) as Hd.
  { intros d Hd He. assert (char_byte (hex_char d) = 44) as H by (by rewrite He). revert H.
    rewrite <- (Z2Nat.id d) by lia. assert (Z.to_nat d < 16)%nat as Hn by lia. revert Hn.
    generalize (Z.to_nat d). intros n Hn. do 16 (destruct n as [|n]; [by vm_compute|]). lia. }
  split; [apply from_hex_to_hex|]. cbn. induction 1 as [|b bs Hb _ IH]; [constructor|].
  unfold is_byte, in_u in Hb. cbn [to_hex list_ascii_of_string]. constructor.
  - apply Hd. split; [apply Z.div_pos; lia|apply Z.div_lt_upper_bound; lia].
  - constructor; [|done]. apply Hd, Z.mod_pos_bound. lia.
Qed.
#[local] Existing Instance sample_base64.

Lemma real_cryptde_contract_witness :
  let c := Real.mkReal (repeat 0 64) [] [] [] (repeat 4 20) in
  Decrypts (Real.real_cryptde sample_sodium c) (Real.real_cryptde sample_sodium c) ∧
  Signs (Real.real_cryptde sample_sodium c) (Real.real_cryptde sample_sodium c) ∧
  ∃ ct, Real.real_encode_sym sample_sodium (repeat 2 24) (repeat 5 32) [1; 2] = Ok ct ∧
        Real.real_decode_sym sample_sodium (repeat 5 32) ct = Ok [1; 2].
Proof.
  apply (real_cryptde_contract sample_sodium
    (Real.mkReal (repeat 0 64) [] [] [] (repeat 4 20))
    (Real.mkReal (repeat 0 64) [] [] [] (repeat 4 20)) (repeat 2 24) (repeat 5 32) [1; 2]
    sample_sodium_laws); by vm_compute.
Defined.

Lemma null_cryptde_contract_witness :
  let n := Null.mkNull [] [] [] 0 in
  let n' := Null.set_key_pair (fun x => x) n [1; 200] [] in
  Decrypts (Null.null_cryptde (fun _ => [1]) n) (Null.null_cryptde (fun _ => [1]) n') ∧
  Signs (Null.null_cryptde (fun _ => [1]) n') (Null.null_cryptde (fun _ => [1]) n) ∧
  TotalVerifier (Null.null_cryptde (fun _ => [1]) n).
Proof.
  apply (null_cryptde_contract (fun _ => [1]) (fun x => x) (Null.mkNull [] [] [] 0)
    (Null.mkNull [] [] [] 0) [1; 200] []); [done|repeat constructor; done|done].
Defined.
