(* ===== verification/Wallet.v ===== *)
(** * Wallet: wallets, payers and the proof that a payer owns its wallet

    [sub_lib/wallet.rs], [blockchain/payer.rs] and the key provider of
    [blockchain/bip32.rs].  The [ethsign] crate (secp256k1 signatures over
    32-byte messages) is the class [Ethsign]; what it documents is
    [EthsignLaws]. *)

From stdpp Require Import base list numbers option strings.
From Stdlib Require Import ZArith Lia.
From S2P Require Import Prelude Text CryptDE.

Local Open Scope Z_scope.
Local Open Scope rust_scope.
Local Open Scope string_scope.
Local Open Scope list_scope.

Abbreviation Address := (list Z) (only parsing).

Record Signature := mkSignature { sig_v : Z; sig_r : list Z; sig_s : list Z }.

Global Instance Signature_eq_dec : EqDecision Signature.
Proof. solve_decision. Defined.

(** The [ethsign] crate, and keccak from [ethsign_crypto]. *)
Class Ethsign := {
  keccak256 : list Z → list Z;
  secret_public : list Z → list Z;
  secret_sign : list Z → list Z → result Signature string;
  recover : Signature → list Z → option (list Z);
  public_verify : list Z → Signature → list Z → option bool;
  public_address : list Z → Address;
}.

(** A signature made by a secret key recovers that key's public part, under
    which it verifies; it is canonical (low [s], recovery id 0 or 1). *)
Class EthsignLaws (E : Ethsign) : Prop := {
  sign_recover secret msg sig :
    secret_sign secret msg = Ok sig → recover sig msg = Some (secret_public secret);
  sign_public_verify secret msg sig :
    secret_sign secret msg = Ok sig →
    public_verify (secret_public secret) sig msg = Some true;
}.

Inductive WalletKind :=
| WAddress (address : Address)
| WSecretKey (secret_raw : list Z)
| WPublicKey (bytes : list Z)
| WUninitialized.

Inductive WalletError :=
| InvalidAddress
| SignatureError (message : string).

Section Wallet.
Context `{E : Ethsign}.

Definition key_provider_address (secret : list Z) : Address :=
  public_address (secret_public secret).

(** [format!("{:?}", kind)] *)
Definition kind_debug (k : WalletKind) : string :=
  match k with
  | WAddress _ => "Address([REDACTED])"
  | WSecretKey _ => "SecretKey([REDACTED])"
  | WPublicKey _ => "PublicKey([REDACTED])"
  | WUninitialized => "Uninitialized"
  end.

(** [impl Display for WalletError] *)
Definition wallet_error_display (e : WalletError) : string :=
  match e with InvalidAddress => "Invalid address" | SignatureError msg => msg end.

(** [PartialEq for WalletKind] *)
Definition kind_eqb (self other : WalletKind) : bool :=
  match other with
  | WAddress other_address =>
      match self with WAddress a => bool_decide (a = other_address) | _ => false end
  | WSecretKey other_keypair =>
      match self with WSecretKey k => bool_decide (k = other_keypair) | _ => false end
  | WPublicKey other_public =>
      match self with
      | WPublicKey p => bool_decide (to_hex p = to_hex other_public)
      | _ => false
      end
  | WUninitialized => match self with WUninitialized => true | _ => false end
  end.

Definition address_opt (w : WalletKind) : option Address :=
  match w with
  | WAddress address => Some address
  | WPublicKey public => Some (public_address public)
  | WSecretKey secret => Some (key_provider_address secret)
  | WUninitialized => None
  end.

Definition address (w : WalletKind) : exec Address := expect (address_opt w).

Definition as_address_wallet (w : WalletKind) : exec WalletKind :=
  let* a := address w in Ret (WAddress a).

(** The debug form of an [ethsign] error is the crate's own text. *)
Definition wallet_sign (w : WalletKind) (msg : list Z) : result Signature WalletError :=
  match w with
  | WSecretKey secret => map_err SignatureError (secret_sign secret msg)
  | _ => Err (SignatureError ("Cannot sign with non-keypair wallet: " ++ kind_debug w ++ ".")%string)
  end.

Definition wallet_verify (w : WalletKind) (signature : Signature) (msg : list Z) : exec bool :=
  match w with
  | WSecretKey secret =>
      Ret (default false (public_verify (secret_public secret) signature msg))
  | _ => Panic
  end.

Record Payer := mkPayer { payer_wallet : WalletKind; proof : Signature }.

Definition payer_new (w : WalletKind) (sig : Signature) : exec Payer :=
  let* aw := as_address_wallet w in
  Ret (mkPayer aw (mkSignature (sig_v sig) (sig_r sig) (sig_s sig))).

Definition create_digest (msg contract_address : list Z) : list Z :=
  keccak256 (msg ++ contract_address).

Definition as_payer (w : WalletKind) (pk contract_address : list Z) : exec Payer :=
  match wallet_sign w (create_digest pk contract_address) with
  | Ok proof => payer_new w proof
  | Err _ => Panic
  end.

(** [||] and [&&] evaluate [address] only where neither wallet is
    uninitialized. *)
Definition congruent (self other : WalletKind) : exec bool :=
  if kind_eqb self other then Ret true
  else if negb (kind_eqb self WUninitialized) && negb (kind_eqb other WUninitialized) then
    let* a := address self in
    let* b := address other in
    Ret (bool_decide (a = b))
  else Ret false.

Definition payer_congruent (self other : Payer) : exec bool :=
  let* c := congruent (payer_wallet self) (payer_wallet other) in
  Ret (c && bool_decide (proof self = proof other)).

Definition owns_secret_key (p : Payer) (digest : list Z) : exec bool :=
  match recover (proof p) digest with
  | Some payer_public_key =>
      match public_verify payer_public_key (proof p) digest with
      | Some true =>
          let* a := address (payer_wallet p) in
          Ret (bool_decide (public_address payer_public_key = a))
      | Some false => Ret false
      | None => Ret false
      end
  | None => Ret false
  end.

(** [From<H256> for Wallet] *)
Definition wallet_from_h256 (h : list Z) : WalletKind := WAddress (take 20 (drop 12 h)).

(** *** Lemmas *)

Definition kind_ok (w : WalletKind) : Prop :=
  match w with WPublicKey p => bytes_ok p | _ => True end.

Lemma to_hex_inj a b : bytes_ok a → bytes_ok b → to_hex a = to_hex b → a = b.
Proof.
  intros Ha Hb Heq. apply (f_equal from_hex) in Heq.
  rewrite !from_hex_to_hex in Heq by done. by injection Heq.
Qed.

Lemma kind_eqb_eq a b : kind_ok a → kind_ok b → kind_eqb a b = true ↔ a = b.
Proof.
  intros Ha Hb. destruct a, b; simpl; rewrite ?bool_decide_eq_true; try naive_solver.
  split; [intros; f_equal; by apply to_hex_inj|naive_solver].
Qed.

Lemma congruent_address_opt a b :
  kind_ok a → kind_ok b → congruent a b = Ret (bool_decide (address_opt a = address_opt b)).
Proof.
  intros Ha Hb. unfold congruent.
  destruct (kind_eqb a b) eqn:Heq.
  { apply kind_eqb_eq in Heq; [|done..]. subst. by rewrite bool_decide_eq_true_2. }
  destruct a, b; try discriminate Heq; simpl;
    rewrite ?bool_decide_eq_false_2 by done; try done; f_equal; apply bool_decide_ext;
    split; congruence.
Qed.

Lemma as_payer_shape w pk contract p :
  as_payer w pk contract = Ret p →
  ∃ secret sig, w = WSecretKey secret ∧
    secret_sign secret (create_digest pk contract) = Ok sig ∧
    p = mkPayer (WAddress (key_provider_address secret)) sig.
Proof.
  unfold as_payer. destruct (wallet_sign _ _) as [sig|] eqn:Hs; [|done].
  destruct w as [|secret| |]; try discriminate Hs. simpl in Hs. apply map_err_Ok in Hs.
  intros [= <-]. exists secret, sig. by destruct sig.
Qed.

Lemma as_payer_owns {L : EthsignLaws E} w pk contract p :
  as_payer w pk contract = Ret p →
  owns_secret_key p (create_digest pk contract) = Ret true.
Proof.
  intros (secret & sig & -> & Hs & ->)%as_payer_shape. unfold owns_secret_key. simpl.
  rewrite (sign_recover _ _ _ Hs), (sign_public_verify _ _ _ Hs). simpl.
  by rewrite bool_decide_eq_true_2.
Qed.

End Wallet.

(** ** Properties *)

(** A payer made from a key-holding wallet for a node's public key proves
    ownership of its wallet to that node, and only wallets that hold a secret
    key make payers. *)
Theorem payer_proof_accepted `{E : Ethsign} {L : EthsignLaws E} w pk contract p :
  as_payer w pk contract = Ret p →
  owns_secret_key p (create_digest pk contract) = Ret true ∧
  ∃ secret, w = WSecretKey secret ∧ payer_wallet p = WAddress (key_provider_address secret).
Proof.
  intros H. split; [by eapply as_payer_owns|].
  apply as_payer_shape in H as (secret & sig & -> & _ & ->). by exists secret.
Qed.

(** Wallets are congruent exactly when they have the same address (two
    uninitialized ones included), whatever they know about the key; the
    comparison never panics. *)
Theorem congruent_iff_same_address `{E : Ethsign} a b :
  kind_ok a → kind_ok b →
  congruent a b = Ret (bool_decide (address_opt a = address_opt b)).
Proof. apply congruent_address_opt. Qed.

Definition sample_wallet_ethsign : Ethsign := {|
  keccak256 := fun x => x;
  secret_public := fun secret => secret;
  secret_sign := fun secret _ => Ok (mkSignature 0 [] secret);
  recover := fun sig _ => Some (sig_s sig);
  public_verify := fun pk sig _ => Some (bool_decide (sig_s sig = pk));
  public_address := fun pk => take 20 pk
|}.

#[local] Existing Instance sample_wallet_ethsign.

Lemma sample_wallet_laws : EthsignLaws sample_wallet_ethsign.
Proof.
  split; intros secret msg sig [= <-]; simpl; [done|]. by rewrite bool_decide_eq_true_2.
Qed.

Lemma payer_proof_accepted_witness :
  owns_secret_key (mkPayer (WAddress (repeat 3 20)) (mkSignature 0 [] (repeat 3 32)))
    (create_digest [1; 2] [9]) = Ret true.
Proof.
  apply (payer_proof_accepted (L := sample_wallet_laws) (WSecretKey (repeat 3 32)) [1; 2] [9]).
  by vm_compute.
Defined.

Lemma congruent_iff_same_address_witness :
  congruent (WSecretKey (repeat 3 32)) (WAddress (repeat 3 20)) = Ret true.
Proof.
  rewrite (congruent_iff_same_address (WSecretKey (repeat 3 32)) (WAddress (repeat 3 20)) I I).
  by vm_compute.
Defined.
