(* ===== verification/ServiceReceipt.v ===== *)
(** * ServiceReceipt: signed proofs of billable service

    [sub_lib/service_receipt.rs]: the provider's receipts and their cumulative
    charge, the payer's acknowledgement, the wallet authorization that bounds a
    session, the provider's payout authorization, and the checkpoint that keeps
    the sequence of one stream of receipts.

    Amounts are [u128], rates and sizes [u64], both as [Z]; every sum and
    product is the checked one of the source.  [serde_cbor::to_vec] is the class
    [Cbor]; keccak and secp256k1 come from [Ethsign], transport signatures from
    [CryptDE]. *)

From stdpp Require Import base list numbers option strings.
From Stdlib Require Import ZArith Lia Sorted.
From S2P Require Import Prelude Text CryptDE Wallet.

Local Open Scope Z_scope.
Local Open Scope rust_scope.
Local Open Scope list_scope.

(** ** Constants *)

Definition SERVICE_RECEIPT_PROTOCOL_VERSION : Z := 1.
Definition MIN_RECEIPT_SESSION_DURATION_SECONDS : Z := 60.
Definition MAX_RECEIPT_SESSION_DURATION_SECONDS : Z := 24 * 60 * 60.
Definition MAX_RECEIPT_SESSION_CHARGE_WEI : Z := Z.shiftl 1 126 - 1.
Definition MIN_PROVIDER_SETTLEMENT_DURATION_SECONDS : Z := 60.
Definition MAX_PROVIDER_SETTLEMENT_DURATION_SECONDS : Z := 30 * 24 * 60 * 60.

Definition ACCOUNTING_COMMITMENT_DOMAIN := string_bytes "MASQ_ACCOUNTING_COMMITMENT_V1" ++ [0].
Definition PAYER_ACKNOWLEDGEMENT_DOMAIN := string_bytes "MASQ_SERVICE_RECEIPT_ACK_V1" ++ [0].
Definition PROVIDER_SETTLEMENT_SIGNING_DOMAIN :=
  string_bytes "MASQ_PROVIDER_SETTLEMENT_TRANSPORT_V1" ++ [0].
Definition SERVICE_RECEIPT_SIGNING_DOMAIN := string_bytes "MASQ_SERVICE_RECEIPT_V1" ++ [0].
Definition EIP712_DOMAIN_TYPE := string_bytes
  "EIP712Domain(string name,string version,uint256 chainId,address verifyingContract)".
Definition EIP712_NAME := string_bytes "MASQ Service Receipt".
Definition EIP712_VERSION := string_bytes "1".
Definition PROVIDER_SETTLEMENT_EIP712_NAME := string_bytes "MASQ Provider Settlement".
Definition PROVIDER_SETTLEMENT_AUTHORIZATION_TYPE := string_bytes
  "ProviderSettlementAuthorization(uint16 protocolVersion,address payoutWallet,bytes providerPublicKey,uint64 validFromUnixS,uint64 expiresAtUnixS,bytes32 authorizationNonce)".
Definition SESSION_AUTHORIZATION_TYPE := string_bytes
  "ReceiptSessionAuthorization(uint16 protocolVersion,address payerWallet,bytes payerSessionPublicKey,uint256 maxTotalChargeWei,uint64 validFromUnixS,uint64 expiresAtUnixS,bytes32 authorizationNonce)".
Definition SECP256K1_HALF_ORDER : list Z := [
  0x7f; 0xff; 0xff; 0xff; 0xff; 0xff; 0xff; 0xff; 0xff; 0xff; 0xff; 0xff; 0xff; 0xff; 0xff; 0xff;
  0x5d; 0x57; 0x6e; 0x73; 0x57; 0xa4; 0x50; 0x1d; 0xdf; 0xe9; 0x2f; 0x46; 0x68; 0x1b; 0x20; 0xa0].

(** ** Data *)

Inductive ServiceKind := Routing | Exit.
Global Instance ServiceKind_eq_dec : EqDecision ServiceKind.
Proof. solve_decision. Defined.

Record ServiceReceipt := mkReceipt {
  protocol_version : Z;
  route_epoch : list Z;
  sequence : Z;
  service_kind : ServiceKind;
  provider_public_key : PublicKey;
  accounting_commitment : list Z;
  payload_size : Z;
  service_units : Z;
  service_rate : Z;
  byte_rate : Z;
  cumulative_charge_wei : Z;
}.

Record SignedServiceReceipt := mkSigned {
  receipt : ServiceReceipt;
  provider_signature : CryptData;
}.

Record AcknowledgedServiceReceipt := mkAcknowledged {
  signed_receipt : SignedServiceReceipt;
  payer_session_public_key : PublicKey;
  payer_signature : CryptData;
}.

Record ReceiptSessionPolicy := mkSessionPolicy {
  rsp_protocol_version : Z;
  rsp_chain_id : Z;
  rsp_settlement_contract : Address;
  payer_wallet_address : Address;
  rsp_payer_session_public_key : PublicKey;
  max_total_charge_wei : Z;
  rsp_valid_from_unix_s : Z;
  rsp_expires_at_unix_s : Z;
  rsp_authorization_nonce : list Z;
}.

Record AuthorizedReceiptSession := mkAuthorizedSession {
  policy : ReceiptSessionPolicy;
  wallet_signature : Signature;
}.

Record ProviderSettlementPolicy := mkProviderPolicy {
  psp_protocol_version : Z;
  psp_chain_id : Z;
  psp_settlement_contract : Address;
  payout_wallet_address : Address;
  psp_provider_public_key : PublicKey;
  psp_valid_from_unix_s : Z;
  psp_expires_at_unix_s : Z;
  psp_authorization_nonce : list Z;
}.

Record AuthorizedProviderSettlement := mkAuthorizedProvider {
  provider_policy : ProviderSettlementPolicy;
  payout_wallet_signature : Signature;
  settlement_provider_signature : CryptData;
}.

Record ReceiptSessionRequest := mkSessionRequest {
  authorization : AuthorizedReceiptSession;
  rsr_route_epoch : list Z;
  rsr_accounting_commitment : list Z;
}.

Record ServiceReceiptPayload_0v1 := mkReceiptPayload {
  payload_authorization : AuthorizedReceiptSession;
  acknowledged_receipt : AcknowledgedServiceReceipt;
}.

Record ReceiptSequenceCheckpoint := mkCheckpoint {
  cp_route_epoch : list Z;
  cp_provider_public_key : PublicKey;
  cp_accounting_commitment : list Z;
  cp_payer_session_public_key : PublicKey;
  last_sequence : Z;
  cp_cumulative_charge_wei : Z;
}.

Inductive ServiceReceiptError :=
| AmountLimitExceeded
| AccountingCommitmentMismatch
| CumulativeChargeMismatch
| CumulativeChargeOverflow
| EmptyAmountLimit
| EmptyAuthorizationNonce
| EmptyAccountingCommitment
| EmptyPayerSessionPublicKey
| EmptyPayerWallet
| EmptyProviderPayoutWallet
| EmptyProviderPublicKey
| EmptyRouteEpoch
| EmptyServiceUnits
| EmptySettlementContract
| InvalidChain
| InvalidAuthorizationWindow
| InvalidPayerSignature
| InvalidProviderSignature
| InvalidProviderSettlementSignature
| InvalidWalletSignature
| NonMonotonicSequence
| ProviderPublicKeyMismatch
| ProviderSettlementAuthorizationExpired
| ProviderSettlementAuthorizationNotYetValid
| RouteEpochMismatch
| SessionAuthorizationExpired
| SessionAuthorizationNotYetValid
| SessionKeyMismatch
| Serialization (message : string)
| SettlementContractMismatch
| Signing (error : CryptdecError)
| WalletMismatch
| WalletSigning (message : string)
| WrongChain
| UnsupportedProtocolVersion (version : Z).

Global Instance ServiceReceipt_eq_dec : EqDecision ServiceReceipt.
Proof. solve_decision. Defined.
Global Instance SignedServiceReceipt_eq_dec : EqDecision SignedServiceReceipt.
Proof. solve_decision. Defined.
Global Instance AcknowledgedServiceReceipt_eq_dec : EqDecision AcknowledgedServiceReceipt.
Proof. solve_decision. Defined.
Global Instance ReceiptSessionPolicy_eq_dec : EqDecision ReceiptSessionPolicy.
Proof. solve_decision. Defined.
Global Instance AuthorizedReceiptSession_eq_dec : EqDecision AuthorizedReceiptSession.
Proof. solve_decision. Defined.
Global Instance ProviderSettlementPolicy_eq_dec : EqDecision ProviderSettlementPolicy.
Proof. solve_decision. Defined.
Global Instance AuthorizedProviderSettlement_eq_dec : EqDecision AuthorizedProviderSettlement.
Proof. solve_decision. Defined.
Global Instance ServiceReceiptPayload_eq_dec : EqDecision ServiceReceiptPayload_0v1.
Proof. solve_decision. Defined.
Global Instance ReceiptSequenceCheckpoint_eq_dec : EqDecision ReceiptSequenceCheckpoint.
Proof. solve_decision. Defined.

(** [serde_cbor::to_vec] at the types that are signed. *)
Class Cbor := {
  cbor_receipt : ServiceReceipt → result (list Z) string;
  cbor_acknowledgement : SignedServiceReceipt → PublicKey → result (list Z) string;
  cbor_provider_policy : ProviderSettlementPolicy → result (list Z) string;
}.

(** ** Receipts *)

(** [checked_mul], [and_then] and [checked_add] on [u128]. *)
Definition checked_charge_wei (service_rate service_units byte_rate payload_size : Z)
    : result Z ServiceReceiptError :=
  ok_or
    (match checked_mul 128 service_rate service_units with
     | Some service_charge =>
         match checked_mul 128 byte_rate payload_size with
         | Some byte_charge => checked_add 128 service_charge byte_charge
         | None => None
         end
     | None => None
     end)
    CumulativeChargeOverflow.

Definition unwrap_or {A E} (r : result A E) (d : A) : A :=
  match r with Ok a => a | Err _ => d end.

Definition new_with_service_units (route_epoch : list Z) (sequence : Z)
    (service_kind : ServiceKind) (provider_public_key : PublicKey)
    (accounting_commitment : list Z) (payload_size service_units service_rate byte_rate : Z)
    : ServiceReceipt :=
  let cumulative_charge_wei :=
    unwrap_or (checked_charge_wei service_rate service_units byte_rate payload_size) (max_u 128) in
  {| protocol_version := SERVICE_RECEIPT_PROTOCOL_VERSION;
     route_epoch := route_epoch;
     sequence := sequence;
     service_kind := service_kind;
     provider_public_key := provider_public_key;
     accounting_commitment := accounting_commitment;
     payload_size := payload_size;
     service_units := service_units;
     service_rate := service_rate;
     byte_rate := byte_rate;
     cumulative_charge_wei := cumulative_charge_wei |}.

Definition receipt_new (route_epoch : list Z) (sequence : Z) (service_kind : ServiceKind)
    (provider_public_key : PublicKey) (accounting_commitment : list Z)
    (payload_size service_rate byte_rate : Z) : ServiceReceipt :=
  new_with_service_units route_epoch sequence service_kind provider_public_key
    accounting_commitment payload_size 1 service_rate byte_rate.

Definition checked_total_charge_wei (self : ServiceReceipt) : result Z ServiceReceiptError :=
  checked_charge_wei (service_rate self) (service_units self) (byte_rate self) (payload_size self).

Definition total_charge_wei (self : ServiceReceipt) : Z :=
  unwrap_or (checked_total_charge_wei self) (max_u 128).

Definition validate (self : ServiceReceipt) : result unit ServiceReceiptError :=
  if negb (protocol_version self =? SERVICE_RECEIPT_PROTOCOL_VERSION)
  then Err (UnsupportedProtocolVersion (protocol_version self))
  else if all_zero (route_epoch self) then Err EmptyRouteEpoch
  else if all_zero (accounting_commitment self) then Err EmptyAccountingCommitment
  else if (length (provider_public_key self) =? 0)%nat then Err EmptyProviderPublicKey
  else if service_units self =? 0 then Err EmptyServiceUnits
  else
    let? total := checked_total_charge_wei self in
    if cumulative_charge_wei self <? total then Err CumulativeChargeMismatch
    else Ok ().

Definition next_with_service_units (self : ServiceReceipt) (sequence' : Z)
    (service_kind : ServiceKind) (payload_size service_units service_rate byte_rate : Z)
    : result ServiceReceipt ServiceReceiptError :=
  let? _ := validate self in
  if sequence' <=? sequence self then Err NonMonotonicSequence
  else if service_units =? 0 then Err EmptyServiceUnits
  else
    let? current_charge := checked_charge_wei service_rate service_units byte_rate payload_size in
    let? cumulative :=
      ok_or (checked_add 128 (cumulative_charge_wei self) current_charge)
        CumulativeChargeOverflow in
    Ok {| protocol_version := SERVICE_RECEIPT_PROTOCOL_VERSION;
          route_epoch := route_epoch self;
          sequence := sequence';
          service_kind := service_kind;
          provider_public_key := provider_public_key self;
          accounting_commitment := accounting_commitment self;
          payload_size := payload_size;
          service_units := service_units;
          service_rate := service_rate;
          byte_rate := byte_rate;
          cumulative_charge_wei := cumulative |}.

Definition next_for_same_route (self : ServiceReceipt) (sequence' : Z)
    (service_kind : ServiceKind) (payload_size service_rate byte_rate : Z)
    : result ServiceReceipt ServiceReceiptError :=
  next_with_service_units self sequence' service_kind payload_size 1 service_rate byte_rate.

Abbreviation ack_receipt a := (receipt (signed_receipt a)).

Section Receipts.
Context `{E : Ethsign} `{C : Cbor}.

Definition make_accounting_commitment (route_epoch : list Z) (session_key : PublicKey) : list Z :=
  keccak256 (ACCOUNTING_COMMITMENT_DOMAIN ++ route_epoch ++ session_key).

Definition signing_data (self : ServiceReceipt) : result PlainData ServiceReceiptError :=
  let? serialized := map_err Serialization (cbor_receipt self) in
  Ok (SERVICE_RECEIPT_SIGNING_DOMAIN ++ serialized).

Definition sign_receipt (self : ServiceReceipt) (cryptde : CryptDE)
    : result SignedServiceReceipt ServiceReceiptError :=
  let? _ := validate self in
  if negb (bool_decide (public_key cryptde = provider_public_key self))
  then Err ProviderPublicKeyMismatch
  else
    let? data := signing_data self in
    let? signature := map_err Signing (sign cryptde data) in
    Ok {| receipt := self; provider_signature := signature |}.

(** [signature.len() < key.len() || !cryptde.verify_signature(..)], the guard
    every signature check of the file has: [||] skips the call on a signature
    shorter than the key. *)
Definition signature_rejected (cryptde : CryptDE) (data : PlainData) (signature : CryptData)
    (key : PublicKey) : exec bool :=
  if (length signature <? length key)%nat then Ret true
  else let* ok := verify_signature cryptde data signature key in Ret (negb ok).

Definition signed_verify (self : SignedServiceReceipt) (cryptde : CryptDE)
    : fallible Z ServiceReceiptError :=
  let! _ := Ret (validate (receipt self)) in
  let! data := Ret (signing_data (receipt self)) in
  let* rejected := signature_rejected cryptde data (provider_signature self)
                     (provider_public_key (receipt self)) in
  if rejected then Ret (Err InvalidProviderSignature)
  else Ret (checked_total_charge_wei (receipt self)).

Definition acknowledgement_data (self : SignedServiceReceipt) (session_key : PublicKey)
    : result PlainData ServiceReceiptError :=
  let? serialized := map_err Serialization (cbor_acknowledgement self session_key) in
  Ok (PAYER_ACKNOWLEDGEMENT_DOMAIN ++ serialized).

Definition acknowledge (self : SignedServiceReceipt) (payer_cryptde : CryptDE)
    : fallible AcknowledgedServiceReceipt ServiceReceiptError :=
  let! _ := signed_verify self payer_cryptde in
  let session_key := public_key payer_cryptde in
  if (length session_key =? 0)%nat then Ret (Err EmptyPayerSessionPublicKey)
  else if negb (bool_decide
    (make_accounting_commitment (route_epoch (receipt self)) session_key =
     accounting_commitment (receipt self)))
  then Ret (Err AccountingCommitmentMismatch)
  else
    let! data := Ret (acknowledgement_data self session_key) in
    let! signature := Ret (map_err Signing (sign payer_cryptde data)) in
    Ret (Ok {| signed_receipt := self;
               payer_session_public_key := session_key;
               payer_signature := signature |}).

Definition acknowledged_verify (self : AcknowledgedServiceReceipt) (cryptde : CryptDE)
    : fallible Z ServiceReceiptError :=
  let! total_charge := signed_verify (signed_receipt self) cryptde in
  if (length (payer_session_public_key self) =? 0)%nat
  then Ret (Err EmptyPayerSessionPublicKey)
  else if negb (bool_decide
    (make_accounting_commitment (route_epoch (receipt (signed_receipt self)))
       (payer_session_public_key self) =
     accounting_commitment (receipt (signed_receipt self))))
  then Ret (Err AccountingCommitmentMismatch)
  else
    let! data := Ret (acknowledgement_data (signed_receipt self) (payer_session_public_key self)) in
    let* rejected := signature_rejected cryptde data (payer_signature self)
                       (payer_session_public_key self) in
    if rejected then Ret (Err InvalidPayerSignature)
    else Ret (Ok total_charge).

(** ** Wallet authorizations *)

Definition zero_address : Address := repeat 0 20.

(** [word[16..].copy_from_slice(&value.to_be_bytes())] *)
Definition uint_word (value : Z) : list Z := repeat 0 16 ++ u128_to_be_bytes value.
Definition address_word (address : Address) : list Z := repeat 0 12 ++ address.

(** [(MIN..=MAX).contains(&duration_seconds)] *)
Definition in_range_incl (lo hi v : Z) : bool := (lo <=? v) && (v <=? hi).

Definition session_policy_new (chain_id : Z) (settlement_contract payer_wallet_address : Address)
    (session_key : PublicKey) (max_total_charge_wei valid_from expires_at : Z)
    (authorization_nonce : list Z) : ReceiptSessionPolicy :=
  {| rsp_protocol_version := SERVICE_RECEIPT_PROTOCOL_VERSION;
     rsp_chain_id := chain_id;
     rsp_settlement_contract := settlement_contract;
     payer_wallet_address := payer_wallet_address;
     rsp_payer_session_public_key := session_key;
     max_total_charge_wei := max_total_charge_wei;
     rsp_valid_from_unix_s := valid_from;
     rsp_expires_at_unix_s := expires_at;
     rsp_authorization_nonce := authorization_nonce |}.

Definition validate_session_structure (self : ReceiptSessionPolicy)
    : result unit ServiceReceiptError :=
  if negb (rsp_protocol_version self =? SERVICE_RECEIPT_PROTOCOL_VERSION)
  then Err (UnsupportedProtocolVersion (rsp_protocol_version self))
  else if bool_decide (payer_wallet_address self = zero_address) then Err EmptyPayerWallet
  else if rsp_chain_id self =? 0 then Err InvalidChain
  else if bool_decide (rsp_settlement_contract self = zero_address)
  then Err EmptySettlementContract
  else if (length (rsp_payer_session_public_key self) =? 0)%nat
  then Err EmptyPayerSessionPublicKey
  else if max_total_charge_wei self =? 0 then Err EmptyAmountLimit
  else if MAX_RECEIPT_SESSION_CHARGE_WEI <? max_total_charge_wei self
  then Err AmountLimitExceeded
  else if rsp_expires_at_unix_s self <=? rsp_valid_from_unix_s self
  then Err InvalidAuthorizationWindow
  else
    let duration_seconds := rsp_expires_at_unix_s self - rsp_valid_from_unix_s self in
    if negb (in_range_incl MIN_RECEIPT_SESSION_DURATION_SECONDS
               MAX_RECEIPT_SESSION_DURATION_SECONDS duration_seconds)
    then Err InvalidAuthorizationWindow
    else if all_zero (rsp_authorization_nonce self) then Err EmptyAuthorizationNonce
    else Ok ().

Definition session_eip712_digest (self : ReceiptSessionPolicy)
    : result (list Z) ServiceReceiptError :=
  let? _ := validate_session_structure self in
  let domain_separator := keccak256 (
    keccak256 EIP712_DOMAIN_TYPE ++
    keccak256 EIP712_NAME ++
    keccak256 EIP712_VERSION ++
    uint_word (rsp_chain_id self) ++
    address_word (rsp_settlement_contract self)) in
  let session_key_hash := keccak256 (rsp_payer_session_public_key self) in
  let struct_hash := keccak256 (
    keccak256 SESSION_AUTHORIZATION_TYPE ++
    uint_word (rsp_protocol_version self) ++
    address_word (payer_wallet_address self) ++
    session_key_hash ++
    uint_word (max_total_charge_wei self) ++
    uint_word (rsp_valid_from_unix_s self) ++
    uint_word (rsp_expires_at_unix_s self) ++
    rsp_authorization_nonce self) in
  Ok (keccak256 ([0x19; 0x01] ++ domain_separator ++ struct_hash)).

Definition authorize_session (self : ReceiptSessionPolicy) (payer_wallet : WalletKind)
    : result AuthorizedReceiptSession ServiceReceiptError :=
  let? _ := validate_session_structure self in
  if negb (bool_decide (address_opt payer_wallet = Some (payer_wallet_address self)))
  then Err WalletMismatch
  else
    let? digest := session_eip712_digest self in
    let? signature :=
      map_err (fun e => WalletSigning (wallet_error_display e)) (wallet_sign payer_wallet digest) in
    Ok {| policy := self; wallet_signature := signature |}.

(** The recovery and verification both authorizations end with. *)
Definition wallet_signature_rejected (signature : Signature) (digest : list Z)
    (expected : Address) : bool :=
  match recover signature digest with
  | None => true
  | Some public_key =>
      let signature_valid := default false (public_verify public_key signature digest) in
      negb signature_valid || negb (bool_decide (public_address public_key = expected))
  end.

Definition session_verify (self : AuthorizedReceiptSession) (expected_chain_id : Z)
    (expected_settlement_contract : Address) (session_key : PublicKey)
    (now_unix_s cumulative : Z) : result unit ServiceReceiptError :=
  let p := policy self in
  let? _ := validate_session_structure p in
  if negb (rsp_chain_id p =? expected_chain_id) then Err WrongChain
  else if negb (bool_decide (rsp_settlement_contract p = expected_settlement_contract))
  then Err SettlementContractMismatch
  else if negb (bool_decide (rsp_payer_session_public_key p = session_key))
  then Err SessionKeyMismatch
  else if now_unix_s <? rsp_valid_from_unix_s p then Err SessionAuthorizationNotYetValid
  else if rsp_expires_at_unix_s p <? now_unix_s then Err SessionAuthorizationExpired
  else if max_total_charge_wei p <? cumulative then Err AmountLimitExceeded
  else
    let? digest := session_eip712_digest p in
    if wallet_signature_rejected (wallet_signature self) digest (payer_wallet_address p)
    then Err InvalidWalletSignature
    else Ok ().

Definition verify_for_receipt (self : AuthorizedReceiptSession)
    (acknowledged : AcknowledgedServiceReceipt) (receipt_cryptde : CryptDE)
    (expected_chain_id : Z) (expected_settlement_contract : Address) (now_unix_s : Z)
    : fallible Z ServiceReceiptError :=
  let! receipt_charge := acknowledged_verify acknowledged receipt_cryptde in
  let! _ := Ret (session_verify self expected_chain_id expected_settlement_contract
                   (payer_session_public_key acknowledged) now_unix_s
                   (cumulative_charge_wei (receipt (signed_receipt acknowledged)))) in
  Ret (Ok receipt_charge).

Definition session_request_new (auth : AuthorizedReceiptSession) (route_epoch : list Z)
    : result ReceiptSessionRequest ServiceReceiptError :=
  if all_zero route_epoch then Err EmptyRouteEpoch
  else Ok {| authorization := auth;
             rsr_route_epoch := route_epoch;
             rsr_accounting_commitment :=
               make_accounting_commitment route_epoch
                 (rsp_payer_session_public_key (policy auth)) |}.

Definition session_request_verify (self : ReceiptSessionRequest) (expected_chain_id : Z)
    (expected_settlement_contract : Address) (now_unix_s : Z) : result unit ServiceReceiptError :=
  if all_zero (rsr_route_epoch self) then Err EmptyRouteEpoch
  else if negb (bool_decide
    (make_accounting_commitment (rsr_route_epoch self)
       (rsp_payer_session_public_key (policy (authorization self))) =
     rsr_accounting_commitment self))
  then Err AccountingCommitmentMismatch
  else session_verify (authorization self) expected_chain_id expected_settlement_contract
         (rsp_payer_session_public_key (policy (authorization self))) now_unix_s 0.

(** ** Provider payout authorizations *)

Definition provider_policy_new (chain_id : Z) (settlement_contract payout_wallet_address : Address)
    (provider_key : PublicKey) (valid_from expires_at : Z) (authorization_nonce : list Z)
    : ProviderSettlementPolicy :=
  {| psp_protocol_version := SERVICE_RECEIPT_PROTOCOL_VERSION;
     psp_chain_id := chain_id;
     psp_settlement_contract := settlement_contract;
     payout_wallet_address := payout_wallet_address;
     psp_provider_public_key := provider_key;
     psp_valid_from_unix_s := valid_from;
     psp_expires_at_unix_s := expires_at;
     psp_authorization_nonce := authorization_nonce |}.

Definition validate_provider_structure (self : ProviderSettlementPolicy)
    : result unit ServiceReceiptError :=
  if negb (psp_protocol_version self =? SERVICE_RECEIPT_PROTOCOL_VERSION)
  then Err (UnsupportedProtocolVersion (psp_protocol_version self))
  else if bool_decide (payout_wallet_address self = zero_address)
  then Err EmptyProviderPayoutWallet
  else if psp_chain_id self =? 0 then Err InvalidChain
  else if bool_decide (psp_settlement_contract self = zero_address)
  then Err EmptySettlementContract
  else if (length (psp_provider_public_key self) =? 0)%nat then Err EmptyProviderPublicKey
  else if psp_expires_at_unix_s self <=? psp_valid_from_unix_s self
  then Err InvalidAuthorizationWindow
  else
    let duration_seconds := psp_expires_at_unix_s self - psp_valid_from_unix_s self in
    if negb (in_range_incl MIN_PROVIDER_SETTLEMENT_DURATION_SECONDS
               MAX_PROVIDER_SETTLEMENT_DURATION_SECONDS duration_seconds)
    then Err InvalidAuthorizationWindow
    else if all_zero (psp_authorization_nonce self) then Err EmptyAuthorizationNonce
    else Ok ().

Definition provider_eip712_digest (self : ProviderSettlementPolicy)
    : result (list Z) ServiceReceiptError :=
  let? _ := validate_provider_structure self in
  let domain_separator := keccak256 (
    keccak256 EIP712_DOMAIN_TYPE ++
    keccak256 PROVIDER_SETTLEMENT_EIP712_NAME ++
    keccak256 EIP712_VERSION ++
    uint_word (psp_chain_id self) ++
    address_word (psp_settlement_contract self)) in
  let provider_key_hash := keccak256 (psp_provider_public_key self) in
  let struct_hash := keccak256 (
    keccak256 PROVIDER_SETTLEMENT_AUTHORIZATION_TYPE ++
    uint_word (psp_protocol_version self) ++
    address_word (payout_wallet_address self) ++
    provider_key_hash ++
    uint_word (psp_valid_from_unix_s self) ++
    uint_word (psp_expires_at_unix_s self) ++
    psp_authorization_nonce self) in
  Ok (keccak256 ([0x19; 0x01] ++ domain_separator ++ struct_hash)).

Definition transport_signing_data (p : ProviderSettlementPolicy) (wallet_sig : Signature)
    : result PlainData ServiceReceiptError :=
  let? serialized := map_err Serialization (cbor_provider_policy p) in
  Ok (PROVIDER_SETTLEMENT_SIGNING_DOMAIN ++ serialized ++
      [sig_v wallet_sig] ++ sig_r wallet_sig ++ sig_s wallet_sig).

Definition verify_payout_wallet_signature (self : ProviderSettlementPolicy)
    (wallet_sig : Signature) : result unit ServiceReceiptError :=
  if (1 <? sig_v wallet_sig)
     || all_zero (sig_r wallet_sig)
     || all_zero (sig_s wallet_sig)
     || bytes_ltb SECP256K1_HALF_ORDER (sig_s wallet_sig)
  then Err InvalidWalletSignature
  else
    let? digest := provider_eip712_digest self in
    if wallet_signature_rejected wallet_sig digest (payout_wallet_address self)
    then Err InvalidWalletSignature
    else Ok ().

Definition authorize_with_wallet_signature (self : ProviderSettlementPolicy)
    (wallet_sig : Signature) (provider_cryptde : CryptDE)
    : result AuthorizedProviderSettlement ServiceReceiptError :=
  let? _ := validate_provider_structure self in
  if negb (bool_decide (public_key provider_cryptde = psp_provider_public_key self))
  then Err ProviderPublicKeyMismatch
  else
    let? _ := verify_payout_wallet_signature self wallet_sig in
    let? data := transport_signing_data self wallet_sig in
    let? signature := map_err Signing (sign provider_cryptde data) in
    Ok {| provider_policy := self;
          payout_wallet_signature := wallet_sig;
          settlement_provider_signature := signature |}.

Definition authorize_provider (self : ProviderSettlementPolicy) (payout_wallet : WalletKind)
    (provider_cryptde : CryptDE) : result AuthorizedProviderSettlement ServiceReceiptError :=
  let? _ := validate_provider_structure self in
  if negb (bool_decide (address_opt payout_wallet = Some (payout_wallet_address self)))
  then Err WalletMismatch
  else if negb (bool_decide (public_key provider_cryptde = psp_provider_public_key self))
  then Err ProviderPublicKeyMismatch
  else
    let? digest := provider_eip712_digest self in
    let? wallet_sig :=
      map_err (fun e => WalletSigning (wallet_error_display e)) (wallet_sign payout_wallet digest) in
    authorize_with_wallet_signature self wallet_sig provider_cryptde.

Definition provider_settlement_verify (self : AuthorizedProviderSettlement)
    (expected_chain_id : Z) (expected_settlement_contract : Address)
    (expected_provider_public_key : PublicKey) (now_unix_s : Z) (receipt_cryptde : CryptDE)
    : fallible Address ServiceReceiptError :=
  let p := provider_policy self in
  let! _ := Ret (validate_provider_structure p) in
  if negb (psp_chain_id p =? expected_chain_id) then Ret (Err WrongChain)
  else if negb (bool_decide (psp_settlement_contract p = expected_settlement_contract))
  then Ret (Err SettlementContractMismatch)
  else if negb (bool_decide (psp_provider_public_key p = expected_provider_public_key))
  then Ret (Err ProviderPublicKeyMismatch)
  else if now_unix_s <? psp_valid_from_unix_s p
  then Ret (Err ProviderSettlementAuthorizationNotYetValid)
  else if psp_expires_at_unix_s p <? now_unix_s
  then Ret (Err ProviderSettlementAuthorizationExpired)
  else
    let! _ := Ret (verify_payout_wallet_signature p (payout_wallet_signature self)) in
    let! data := Ret (transport_signing_data p (payout_wallet_signature self)) in
    let* rejected := signature_rejected receipt_cryptde data (settlement_provider_signature self)
                       (psp_provider_public_key p) in
    if rejected then Ret (Err InvalidProviderSettlementSignature)
    else Ret (Ok (payout_wallet_address p)).

(** ** Checkpoints *)

Definition begin_with_contiguity (acknowledged : AcknowledgedServiceReceipt) (cryptde : CryptDE)
    (require_contiguous : bool) : fallible ReceiptSequenceCheckpoint ServiceReceiptError :=
  let! receipt_charge := acknowledged_verify acknowledged cryptde in
  let r := receipt (signed_receipt acknowledged) in
  if (require_contiguous && negb (cumulative_charge_wei r =? receipt_charge))
     || (cumulative_charge_wei r <? receipt_charge)
  then Ret (Err CumulativeChargeMismatch)
  else Ret (Ok {| cp_route_epoch := route_epoch r;
                  cp_provider_public_key := provider_public_key r;
                  cp_accounting_commitment := accounting_commitment r;
                  cp_payer_session_public_key := payer_session_public_key acknowledged;
                  last_sequence := sequence r;
                  cp_cumulative_charge_wei := cumulative_charge_wei r |}).

Definition begin a cryptde := begin_with_contiguity a cryptde true.
Definition begin_for_settlement a cryptde := begin_with_contiguity a cryptde false.

(** The new checkpoint and the returned amount; on an error [self] is as it
    was. *)
Definition advance_with_contiguity (self : ReceiptSequenceCheckpoint)
    (acknowledged : AcknowledgedServiceReceipt) (cryptde : CryptDE) (require_contiguous : bool)
    : fallible (ReceiptSequenceCheckpoint * Z) ServiceReceiptError :=
  let! receipt_charge := acknowledged_verify acknowledged cryptde in
  let r := receipt (signed_receipt acknowledged) in
  if negb (bool_decide (route_epoch r = cp_route_epoch self)) then Ret (Err RouteEpochMismatch)
  else if negb (bool_decide (provider_public_key r = cp_provider_public_key self))
  then Ret (Err ProviderPublicKeyMismatch)
  else if negb (bool_decide (accounting_commitment r = cp_accounting_commitment self))
  then Ret (Err AccountingCommitmentMismatch)
  else if negb (bool_decide
    (payer_session_public_key acknowledged = cp_payer_session_public_key self))
  then Ret (Err SessionKeyMismatch)
  else if sequence r <=? last_sequence self then Ret (Err NonMonotonicSequence)
  else
    let! expected_cumulative_charge :=
      Ret (ok_or (checked_add 128 (cp_cumulative_charge_wei self) receipt_charge)
             CumulativeChargeOverflow) in
    if (require_contiguous && negb (cumulative_charge_wei r =? expected_cumulative_charge))
       || (cumulative_charge_wei r <? expected_cumulative_charge)
    then Ret (Err CumulativeChargeMismatch)
    else
      let self' :=
        {| cp_route_epoch := cp_route_epoch self;
           cp_provider_public_key := cp_provider_public_key self;
           cp_accounting_commitment := cp_accounting_commitment self;
           cp_payer_session_public_key := cp_payer_session_public_key self;
           last_sequence := sequence r;
           cp_cumulative_charge_wei := cumulative_charge_wei r |} in
      Ret (Ok (self', cp_cumulative_charge_wei self')).

Definition advance self a cryptde := advance_with_contiguity self a cryptde true.
Definition advance_for_settlement self a cryptde := advance_with_contiguity self a cryptde false.

(** ** Well-formedness and the charge *)

Definition charge_of (r : ServiceReceipt) : Z :=
  service_rate r * service_units r + byte_rate r * payload_size r.

(** The field widths of a receipt. *)
Definition receipt_wf (r : ServiceReceipt) : Prop :=
  in_u 64 (sequence r) ∧ in_u 64 (payload_size r) ∧ in_u 64 (service_units r) ∧
  in_u 64 (service_rate r) ∧ in_u 64 (byte_rate r) ∧ in_u 128 (cumulative_charge_wei r).

Lemma checked_charge_Ok sr su br ps c :
  checked_charge_wei sr su br ps = Ok c ↔
  c = sr * su + br * ps ∧ in_u 128 (sr * su) ∧ in_u 128 (br * ps) ∧ in_u 128 c.
Proof.
  unfold checked_charge_wei, checked_mul, checked_add.
  repeat case_decide; simpl; naive_solver.
Qed.

Lemma u64_product a b : in_u 64 a → in_u 64 b → in_u 128 (a * b).
Proof.
  unfold in_u. intros Ha Hb. change (2 ^ 128) with (2 ^ 64 * 2 ^ 64). nia.
Qed.

(** On 64-bit rates, units and sizes only the sum can leave [u128]. *)
Lemma checked_charge_u64 sr su br ps :
  in_u 64 sr → in_u 64 su → in_u 64 br → in_u 64 ps →
  checked_charge_wei sr su br ps =
    if bool_decide (in_u 128 (sr * su + br * ps))
    then Ok (sr * su + br * ps) else Err CumulativeChargeOverflow.
Proof.
  intros H1 H2 H3 H4. unfold checked_charge_wei, checked_mul, checked_add.
  pose proof (u64_product _ _ H1 H2). pose proof (u64_product _ _ H3 H4).
  rewrite !decide_True by done. case_decide; simpl.
  - by rewrite bool_decide_eq_true_2.
  - by rewrite bool_decide_eq_false_2.
Qed.

Lemma checked_total_charge_Ok r c :
  checked_total_charge_wei r = Ok c → c = charge_of r.
Proof. unfold checked_total_charge_wei. rewrite checked_charge_Ok. by intros [-> _]. Qed.

(** What [validate] accepts. *)
Definition valid_receipt (r : ServiceReceipt) : Prop :=
  protocol_version r = SERVICE_RECEIPT_PROTOCOL_VERSION ∧
  all_zero (route_epoch r) = false ∧ all_zero (accounting_commitment r) = false ∧
  provider_public_key r ≠ [] ∧ service_units r ≠ 0 ∧
  checked_total_charge_wei r = Ok (charge_of r) ∧ charge_of r ≤ cumulative_charge_wei r.

Lemma validate_Ok r : validate r = Ok () ↔ valid_receipt r.
Proof.
  unfold validate, valid_receipt. split.
  - intros H. rust_inv H. guards. pose proof (checked_total_charge_Ok _ _ Hrun). subst.
    repeat split; try done.
    intros Hnil. by rewrite Hnil in *.
  - intros (-> & -> & -> & Hpk & Hu & -> & Hc).
    rewrite Z.eqb_refl. cbn [negb result_bind].
    destruct (provider_public_key r); [done|]. cbn [length Nat.eqb].
    rewrite (proj2 (Z.eqb_neq _ _)) by done. by rewrite (proj2 (Z.ltb_ge _ _)) by done.
Qed.

Lemma validate_unit r u : validate r = Ok u → valid_receipt r.
Proof. destruct u. apply validate_Ok. Qed.

(** *** Issuing receipts *)

Lemma next_with_service_units_Ok self seq kind ps su sr br r :
  next_with_service_units self seq kind ps su sr br = Ok r →
  valid_receipt self ∧ sequence self < seq ∧ su ≠ 0 ∧
  checked_charge_wei sr su br ps = Ok (sr * su + br * ps) ∧
  in_u 128 (cumulative_charge_wei self + (sr * su + br * ps)) ∧
  r = mkReceipt SERVICE_RECEIPT_PROTOCOL_VERSION (route_epoch self) seq kind
        (provider_public_key self) (accounting_commitment self) ps su sr br
        (cumulative_charge_wei self + (sr * su + br * ps)).
Proof.
  unfold next_with_service_units. intros H. rust_inv H. apply validate_unit in Hrun.
  guards. pose proof Hrun0 as Hc. apply checked_charge_Ok in Hc as [-> _].
  unfold ok_or in Hrun1. destruct (checked_add _ _ _) as [t|] eqn:Hadd; [|done].
  injection Hrun1 as <-. apply checked_add_Some in Hadd as [-> Hin].
  subst r. repeat split; try done; try apply Hrun; apply Hin.
Qed.

Lemma next_preserves_valid self seq kind ps su sr br r :
  0 ≤ cumulative_charge_wei self →
  next_with_service_units self seq kind ps su sr br = Ok r → valid_receipt r.
Proof.
  intros Hpos (Hv & _ & Hsu & Hc & _ & ->)%next_with_service_units_Ok.
  destruct Hv as (_ & Hre & Hac & Hpk & _).
  unfold valid_receipt, checked_total_charge_wei, charge_of. cbn.
  repeat split; try done. lia.
Qed.

(** One charge of a provider's stream: sequence, kind, size, units, rates. *)
Record Charge := mkCharge {
  ch_sequence : Z; ch_kind : ServiceKind; ch_payload_size : Z;
  ch_service_units : Z; ch_service_rate : Z; ch_byte_rate : Z;
}.

Definition charge_wei (c : Charge) : Z :=
  ch_service_rate c * ch_service_units c + ch_byte_rate c * ch_payload_size c.

(** The receipts a provider issues after [r], each made from the one before. *)
Fixpoint issue_from (r : ServiceReceipt) (cs : list Charge)
    : result (list ServiceReceipt) ServiceReceiptError :=
  match cs with
  | [] => Ok []
  | c :: cs =>
      let? r' := next_with_service_units r (ch_sequence c) (ch_kind c) (ch_payload_size c)
                   (ch_service_units c) (ch_service_rate c) (ch_byte_rate c) in
      let? rs := issue_from r' cs in
      Ok (r' :: rs)
  end.

Definition sum_Z (l : list Z) : Z := foldr Z.add 0 l.

(** ** What verification establishes *)

(** The provider's signature over a valid receipt is accepted. *)
Definition provider_signed (s : SignedServiceReceipt) (v : CryptDE) : Prop :=
  ∃ data, signing_data (receipt s) = Ok data ∧
    verify_signature v data (provider_signature s) (provider_public_key (receipt s)) = Ret true.

Definition payer_signed (a : AcknowledgedServiceReceipt) (v : CryptDE) : Prop :=
  ∃ data, acknowledgement_data (signed_receipt a) (payer_session_public_key a) = Ok data ∧
    verify_signature v data (payer_signature a) (payer_session_public_key a) = Ret true.

Lemma signature_rejected_false v data sig pk :
  signature_rejected v data sig pk = Ret false ↔
  (length pk ≤ length sig)%nat ∧ verify_signature v data sig pk = Ret true.
Proof.
  unfold signature_rejected. destruct (_ <? _)%nat eqn:E1; guards.
  - split; [done|]. intros [? _]. lia.
  - rewrite exec_bind_Ret. split.
    + intros (b & -> & [= Hb]). by destruct b.
    + intros [_ ->]. by eexists.
Qed.

Lemma signed_verify_Ok s v c :
  signed_verify s v = Ret (Ok c) →
  valid_receipt (receipt s) ∧ c = charge_of (receipt s) ∧ provider_signed s v.
Proof.
  unfold signed_verify. intros H. rust_inv H.
  apply validate_unit in Hrun. apply checked_total_charge_Ok in H. subst.
  apply signature_rejected_false in Hrun1 as [_ ?].
  split; [done|]. split; [done|]. by exists a0.
Qed.

Lemma acknowledged_verify_Ok a v c :
  acknowledged_verify a v = Ret (Ok c) →
  let r := receipt (signed_receipt a) in
  valid_receipt r ∧ c = charge_of r ∧ provider_signed (signed_receipt a) v ∧
  payer_signed a v ∧ payer_session_public_key a ≠ [] ∧
  accounting_commitment r = make_accounting_commitment (route_epoch r) (payer_session_public_key a).
Proof.
  unfold acknowledged_verify. intros H. rust_inv H. cbv zeta.
  apply signed_verify_Ok in Hrun as (Hv & -> & Hp).
  subst. apply signature_rejected_false in Hrun1 as [_ ?]. guards.
  split; [done|]. split; [done|]. split; [done|].
  split; [by exists a1|]. split; [|done].
  intros Hnil. by rewrite Hnil in *.
Qed.

(** What a session authorization that verifies guarantees. *)
Definition session_authorizes (s : AuthorizedReceiptSession) (chain_id : Z) (contract : Address)
    (session_key : PublicKey) (now cumulative : Z) : Prop :=
  let p := policy s in
  rsp_chain_id p = chain_id ∧ rsp_settlement_contract p = contract ∧
  rsp_payer_session_public_key p = session_key ∧
  rsp_valid_from_unix_s p ≤ now ≤ rsp_expires_at_unix_s p ∧
  rsp_expires_at_unix_s p - rsp_valid_from_unix_s p ≤ MAX_RECEIPT_SESSION_DURATION_SECONDS ∧
  cumulative ≤ max_total_charge_wei p ≤ MAX_RECEIPT_SESSION_CHARGE_WEI ∧
  ∃ digest pk, session_eip712_digest p = Ok digest ∧
    recover (wallet_signature s) digest = Some pk ∧
    public_verify pk (wallet_signature s) digest = Some true ∧
    public_address pk = payer_wallet_address p.

Lemma wallet_signature_accepted sig digest a :
  wallet_signature_rejected sig digest a = false →
  ∃ pk, recover sig digest = Some pk ∧ public_verify pk sig digest = Some true ∧
        public_address pk = a.
Proof.
  unfold wallet_signature_rejected. destruct (recover sig digest) as [pk|]; [|done].
  intros H. guards. exists pk. destruct (public_verify pk sig digest) as [[]|]; done.
Qed.

Lemma wallet_sign_accepted `{!EthsignLaws E} w digest sig a :
  wallet_sign w digest = Ok sig → address_opt w = Some a →
  wallet_signature_rejected sig digest a = false.
Proof.
  destruct w as [|secret| |]; try done. simpl. rewrite map_err_Ok. intros Hs [= <-].
  unfold wallet_signature_rejected.
  rewrite (sign_recover _ _ _ Hs), (sign_public_verify _ _ _ Hs). simpl.
  by rewrite bool_decide_eq_true_2.
Qed.

Lemma validate_session_window p u :
  validate_session_structure p = Ok u →
  MIN_RECEIPT_SESSION_DURATION_SECONDS
    ≤ rsp_expires_at_unix_s p - rsp_valid_from_unix_s p
    ≤ MAX_RECEIPT_SESSION_DURATION_SECONDS ∧
  max_total_charge_wei p ≤ MAX_RECEIPT_SESSION_CHARGE_WEI.
Proof.
  unfold validate_session_structure, in_range_incl. intros H. rust_inv H. guards. lia.
Qed.

Lemma session_verify_Ok s chain_id contract key now cumulative u :
  session_verify s chain_id contract key now cumulative = Ok u →
  session_authorizes s chain_id contract key now cumulative.
Proof.
  unfold session_verify, session_authorizes. intros H. rust_inv H. cbv zeta.
  apply validate_session_window in Hrun. guards.
  apply wallet_signature_accepted in Hguard5 as (pk & ? & ? & ?).
  repeat split; try done; try lia. by exists a0, pk.
Qed.

(** Verification never panics where the verifier returns under the keys of the
    receipt. *)
Lemma signature_rejected_returns v data sig pk :
  verifies_under v pk → signature_rejected v data sig pk ≠ Panic.
Proof.
  intros T. unfold signature_rejected. destruct (_ <? _)%nat eqn:E1; [done|]. guards.
  specialize (T data sig E1). by destruct (verify_signature v data sig pk).
Qed.

Lemma signed_verify_returns s v :
  verifies_under v (provider_public_key (receipt s)) → signed_verify s v ≠ Panic.
Proof.
  intros T. unfold signed_verify.
  destruct (validate _); [|done]. destruct (signing_data _) as [d|]; [|done]. cbn [try_bind].
  pose proof (signature_rejected_returns v d (provider_signature s)
    (provider_public_key (receipt s)) T).
  destruct (signature_rejected _ _ _ _) as [[]|]; done.
Qed.

Lemma acknowledged_verify_returns a v :
  verifies_under v (provider_public_key (receipt (signed_receipt a))) →
  verifies_under v (payer_session_public_key a) → acknowledged_verify a v ≠ Panic.
Proof.
  intros T T'. unfold acknowledged_verify.
  pose proof (signed_verify_returns (signed_receipt a) v T).
  destruct (signed_verify _ _) as [[c|]|]; try done. cbn [try_bind].
  destruct (_ =? _)%nat; [done|]. destruct (negb _); [done|].
  destruct (acknowledgement_data _ _) as [d|]; [|done]. cbn [try_bind].
  pose proof (signature_rejected_returns v d (payer_signature a)
    (payer_session_public_key a) T').
  destruct (signature_rejected _ _ _ _) as [[]|]; done.
Qed.

(** ** Exchanges that succeed *)

Definition exchange (r : ServiceReceipt) (provider payer : CryptDE)
    : fallible AcknowledgedServiceReceipt ServiceReceiptError :=
  let! s := Ret (sign_receipt r provider) in
  acknowledge s payer.

(** The parties can sign, what they sign verifies at [v], and the receipt types
    serialize. *)
Class Parties (provider payer v : CryptDE) : Prop := {
  parties_provider_payer :: Signs provider payer;
  parties_provider_v :: Signs provider v;
  parties_payer_v :: Signs payer v;
  provider_signs data : ∃ sig, sign provider data = Ok sig;
  payer_signs data : ∃ sig, sign payer data = Ok sig;
  receipt_serializes r : ∃ bs, cbor_receipt r = Ok bs;
  acknowledgement_serializes s k : ∃ bs, cbor_acknowledgement s k = Ok bs;
  payer_key_nonempty : public_key payer ≠ [];
}.

Lemma signing_data_Ok r bs :
  cbor_receipt r = Ok bs → signing_data r = Ok (SERVICE_RECEIPT_SIGNING_DOMAIN ++ bs).
Proof. unfold signing_data. by intros ->. Qed.

Lemma acknowledgement_data_Ok s k bs :
  cbor_acknowledgement s k = Ok bs →
  acknowledgement_data s k = Ok (PAYER_ACKNOWLEDGEMENT_DOMAIN ++ bs).
Proof. unfold acknowledgement_data. by intros ->. Qed.

Lemma signed_verify_accepts s v data :
  valid_receipt (receipt s) → signing_data (receipt s) = Ok data →
  signature_rejected v data (provider_signature s) (provider_public_key (receipt s)) = Ret false →
  signed_verify s v = Ret (Ok (charge_of (receipt s))).
Proof.
  intros Hv Hd Hs. unfold signed_verify. rewrite (proj2 (validate_Ok _) Hv), Hd.
  cbn [try_bind]. rewrite Hs. cbn [exec_bind]. f_equal. apply Hv.
Qed.

Lemma acknowledged_verify_accepts a v data :
  signed_verify (signed_receipt a) v = Ret (Ok (charge_of (receipt (signed_receipt a)))) →
  payer_session_public_key a ≠ [] →
  accounting_commitment (receipt (signed_receipt a)) =
    make_accounting_commitment (route_epoch (receipt (signed_receipt a)))
      (payer_session_public_key a) →
  acknowledgement_data (signed_receipt a) (payer_session_public_key a) = Ok data →
  signature_rejected v data (payer_signature a) (payer_session_public_key a) = Ret false →
  acknowledged_verify a v = Ret (Ok (charge_of (receipt (signed_receipt a)))).
Proof.
  intros Hs Hk Hc Hd Hr. unfold acknowledged_verify. rewrite Hs. cbn [try_bind].
  destruct (payer_session_public_key a) eqn:Ek; [done|]. cbn [length Nat.eqb].
  rewrite Hc, bool_decide_eq_true_2 by done. cbn [negb]. rewrite Hd. cbn [try_bind].
  by rewrite Hr.
Qed.

(** A valid receipt committed to the payer's session key is signed,
    acknowledged and then verified by the third party. *)
Lemma exchange_complete provider payer v r :
  Parties provider payer v →
  valid_receipt r → provider_public_key r = public_key provider →
  accounting_commitment r = make_accounting_commitment (route_epoch r) (public_key payer) →
  ∃ a, exchange r provider payer = Ret (Ok a) ∧
       receipt (signed_receipt a) = r ∧ payer_session_public_key a = public_key payer ∧
       acknowledged_verify a v = Ret (Ok (charge_of r)).
Proof.
  intros HP Hv Hpk Hc.
  destruct (receipt_serializes r) as [bs Hbs]. pose proof (signing_data_Ok _ _ Hbs) as Hd.
  destruct (provider_signs (SERVICE_RECEIPT_SIGNING_DOMAIN ++ bs)) as [sig Hsig].
  set (s := mkSigned r sig).
  destruct (acknowledgement_serializes s (public_key payer)) as [bs' Hbs'].
  pose proof (acknowledgement_data_Ok _ _ _ Hbs') as Hd'.
  destruct (payer_signs (PAYER_ACKNOWLEDGEMENT_DOMAIN ++ bs')) as [sig' Hsig'].
  assert (∀ x, Signs provider x → signed_verify s x = Ret (Ok (charge_of r))) as Hsv.
  { intros x Hx. destruct (sign_verifies _ _ Hsig) as [Hlen Hver].
    apply (signed_verify_accepts s x _ Hv Hd), signature_rejected_false.
    simpl. by rewrite Hpk. }
  exists (mkAcknowledged s (public_key payer) sig').
  pose proof (payer_key_nonempty (v := v) (payer := payer)) as Hne.
  split; [|split; [done|split; [done|]]].
  - unfold exchange, sign_receipt. rewrite (proj2 (validate_Ok _) Hv), Hpk.
    rewrite bool_decide_eq_true_2 by done. cbn [result_bind negb].
    rewrite Hd. cbn [result_bind]. rewrite Hsig. cbn [map_err result_bind try_bind].
    unfold acknowledge. fold s. rewrite Hsv by apply _. cbn [try_bind].
    destruct (public_key payer) eqn:Ek; [done|]. cbn [length Nat.eqb receipt s].
    rewrite Hc, bool_decide_eq_true_2 by done. cbn [negb].
    rewrite Hd'. cbn [try_bind]. by rewrite Hsig'.
  - destruct (sign_verifies (v := v) _ _ Hsig') as [Hlen' Hver'].
    eapply (acknowledged_verify_accepts (mkAcknowledged s (public_key payer) sig'));
      [apply Hsv; apply _ |done|done|exact Hd'|].
    by apply signature_rejected_false.
Qed.

(** ** Checkpoints *)

(** The identity of a stream. *)
Definition same_stream (cp : ReceiptSequenceCheckpoint) (a : AcknowledgedServiceReceipt) : Prop :=
  route_epoch (receipt (signed_receipt a)) = cp_route_epoch cp ∧
  provider_public_key (receipt (signed_receipt a)) = cp_provider_public_key cp ∧
  accounting_commitment (receipt (signed_receipt a)) = cp_accounting_commitment cp ∧
  payer_session_public_key a = cp_payer_session_public_key cp.

Definition checkpoint_after (cp : ReceiptSequenceCheckpoint) (a : AcknowledgedServiceReceipt)
    : ReceiptSequenceCheckpoint :=
  mkCheckpoint (cp_route_epoch cp) (cp_provider_public_key cp) (cp_accounting_commitment cp)
    (cp_payer_session_public_key cp) (sequence (receipt (signed_receipt a)))
    (cumulative_charge_wei (receipt (signed_receipt a))).

(** The relation between the signed total and the one expected. *)
Definition total_agrees (contiguous : bool) (signed expected : Z) : Prop :=
  if contiguous then signed = expected else expected ≤ signed.

Lemma total_agrees_guard contiguous s e :
  (contiguous && negb (s =? e)) || (s <? e) = false ↔ total_agrees contiguous s e.
Proof.
  destruct contiguous; simpl; [|by rewrite Z.ltb_ge].
  rewrite orb_false_iff, negb_false_iff, Z.eqb_eq, Z.ltb_ge. lia.
Qed.

Lemma advance_Ok contiguous cp a v cp' amount :
  advance_with_contiguity cp a v contiguous = Ret (Ok (cp', amount)) ↔
  acknowledged_verify a v = Ret (Ok (charge_of (receipt (signed_receipt a)))) ∧
  same_stream cp a ∧ last_sequence cp < sequence (receipt (signed_receipt a)) ∧
  in_u 128 (cp_cumulative_charge_wei cp + charge_of (receipt (signed_receipt a))) ∧
  total_agrees contiguous (cumulative_charge_wei (receipt (signed_receipt a)))
    (cp_cumulative_charge_wei cp + charge_of (receipt (signed_receipt a))) ∧
  cp' = checkpoint_after cp a ∧ amount = cp_cumulative_charge_wei cp'.
Proof.
  unfold advance_with_contiguity. split.
  - intros H. rust_inv H. guards. pose proof (acknowledged_verify_Ok _ _ _ Hrun) as (_ & -> & _).
    unfold ok_or in *. destruct (checked_add _ _ _) as [t|] eqn:Hadd; [|done].
    injection Hrun0 as <-. apply checked_add_Some in Hadd as [-> Hin].
    split; [done|]. split; [done|]. split; [done|]. split; [done|].
    split; [|by simplify_eq].
    apply total_agrees_guard, orb_false_iff. split; [|by apply Z.ltb_ge].
    by apply not_true_iff_false; intros ?; congruence.
  - intros (-> & (-> & -> & -> & ->) & Hseq & Hin & Ht & -> & ->). cbn [try_bind].
    rewrite !bool_decide_eq_true_2 by done. cbn [negb].
    rewrite (proj2 (Z.leb_gt _ _)) by done.
    unfold checked_add. rewrite decide_True by done. cbn [ok_or try_bind].
    by rewrite (proj2 (total_agrees_guard _ _ _) Ht).
Qed.

(** A whole sequence of acknowledgements, as the observers of a stream apply
    them one by one. *)
Fixpoint advance_all (contiguous : bool) (cp : ReceiptSequenceCheckpoint)
    (acks : list AcknowledgedServiceReceipt) (v : CryptDE)
    : fallible ReceiptSequenceCheckpoint ServiceReceiptError :=
  match acks with
  | [] => Ret (Ok cp)
  | a :: acks =>
      let! res := advance_with_contiguity cp a v contiguous in
      advance_all contiguous (fst res) acks v
  end.

Lemma same_stream_after cp a b : same_stream (checkpoint_after cp a) b ↔ same_stream cp b.
Proof. done. Qed.

Lemma advance_all_sound contiguous cp acks v cp' :
  advance_all contiguous cp acks v = Ret (Ok cp') →
  Forall (same_stream cp) acks ∧
  Forall (fun a => acknowledged_verify a v = Ret (Ok (charge_of (ack_receipt a)))) acks ∧
  StronglySorted Z.lt (last_sequence cp :: map (fun a => sequence (ack_receipt a)) acks) ∧
  total_agrees contiguous (cp_cumulative_charge_wei cp')
    (cp_cumulative_charge_wei cp + sum_Z (map (fun a => charge_of (ack_receipt a)) acks)) ∧
  last_sequence cp' =
    default (last_sequence cp) (list.last (map (fun a => sequence (ack_receipt a)) acks)).
Proof.
  revert cp. induction acks as [|a acks IH]; intros cp.
  - intros [= <-]. split; [done|]. split; [done|]. split; [by repeat constructor|]. split; [|done].
    unfold total_agrees, sum_Z. cbn [map foldr]. destruct contiguous; lia.
  - cbn [advance_all]. intros H. rust_inv H. destruct a0 as [cp1 amount].
    apply advance_Ok in Hrun as (Hv & Hs & Hseq & _ & Ht & -> & _). cbn [fst] in H.
    apply IH in H as (Hss & Hvs & Hsort & Htot & Hlast).
    split; [by constructor|]. split; [by constructor|]. cbn [last_sequence checkpoint_after] in *.
    split; [|split].
    + constructor; [done|]. apply StronglySorted_inv in Hsort as [_ Hall].
      constructor; [done|]. eapply Forall_impl; [exact Hall|]. simpl. lia.
    + cbn [cp_cumulative_charge_wei checkpoint_after map sum_Z foldr] in *.
      unfold total_agrees in *. destruct contiguous; unfold sum_Z in *; lia.
    + rewrite Hlast. cbn [map]. rewrite last_cons. by destruct (list.last _).
Qed.

(** *** The stream a provider issues is accepted *)

Lemma issue_from_cons r c cs rs :
  issue_from r (c :: cs) = Ok rs →
  ∃ r' rs', rs = r' :: rs' ∧
    next_with_service_units r (ch_sequence c) (ch_kind c) (ch_payload_size c)
      (ch_service_units c) (ch_service_rate c) (ch_byte_rate c) = Ok r' ∧
    issue_from r' cs = Ok rs'.
Proof.
  cbn [issue_from]. intros H. rust_inv H. subst rs. eauto.
Qed.

(** The checkpoint of an observer that has followed the stream up to [r]. *)
Definition checkpoint_of (r : ServiceReceipt) (session_key : PublicKey)
    : ReceiptSequenceCheckpoint :=
  mkCheckpoint (route_epoch r) (provider_public_key r) (accounting_commitment r)
    session_key (sequence r) (cumulative_charge_wei r).

Lemma advance_all_complete provider payer v cs :
  Parties provider payer v → ∀ r rs,
  0 ≤ cumulative_charge_wei r →
  provider_public_key r = public_key provider →
  accounting_commitment r = make_accounting_commitment (route_epoch r) (public_key payer) →
  issue_from r cs = Ok rs →
  ∃ acks cp', Forall2 (fun r a => exchange r provider payer = Ret (Ok a)) rs acks ∧
    advance_all true (checkpoint_of r (public_key payer)) acks v = Ret (Ok cp') ∧
    cp_cumulative_charge_wei cp' = cumulative_charge_wei r + sum_Z (map charge_wei cs).
Proof.
  intros HP. induction cs as [|c cs IH]; intros r rs Hpos Hpk Hac Hissue.
  - injection Hissue as <-. exists [], (checkpoint_of r (public_key payer)).
    split; [constructor|]. split; [done|]. simpl. lia.
  - apply issue_from_cons in Hissue as (r' & rs' & -> & Hnext & Hissue).
    pose proof (next_preserves_valid _ _ _ _ _ _ _ _ Hpos Hnext) as Hv'.
    apply next_with_service_units_Ok in Hnext as (_ & Hseq & _ & _ & Hin & Hr').
    assert (provider_public_key r' = public_key provider) as Hpk' by by rewrite Hr'.
    assert (accounting_commitment r' =
      make_accounting_commitment (route_epoch r') (public_key payer)) as Hac' by by rewrite Hr'.
    assert (cumulative_charge_wei r' = cumulative_charge_wei r + charge_wei c) as Hcum
      by by rewrite Hr'.
    destruct (exchange_complete provider payer v r' HP Hv' Hpk' Hac')
      as (a & Hex & Har & Hkey & Hver).
    destruct (IH r' rs') as (acks & cp' & Hall & Hadv & Hfin); try done.
    { rewrite Hcum. unfold in_u in Hin. fold (charge_wei c) in Hin. lia. }
    exists (a :: acks), cp'. split; [by constructor|]. split.
    + cbn [advance_all].
      assert (advance_with_contiguity (checkpoint_of r (public_key payer)) a v true =
        Ret (Ok (checkpoint_of r' (public_key payer), cumulative_charge_wei r'))) as ->.
      { apply advance_Ok. rewrite Har.
        assert (charge_of r' = charge_wei c) as Hch by by rewrite Hr'.
        rewrite Hch in *. split; [done|]. unfold same_stream, total_agrees. rewrite Har, Hkey.
        unfold checkpoint_of, checkpoint_after. cbn. rewrite Har.
        repeat split; try done; try (by rewrite Hr'); try apply Hin. }
      exact Hadv.
    + rewrite Hfin, Hcum. cbn [map sum_Z foldr]. unfold sum_Z. lia.
Qed.

(** ** Authorizations that succeed *)

Lemma authorize_session_verifies `{!EthsignLaws E} p w s now cumulative :
  authorize_session p w = Ok s →
  rsp_valid_from_unix_s p ≤ now ≤ rsp_expires_at_unix_s p →
  cumulative ≤ max_total_charge_wei p →
  session_verify s (rsp_chain_id p) (rsp_settlement_contract p)
    (rsp_payer_session_public_key p) now cumulative = Ok ().
Proof.
  intros H Hnow Hmax. unfold authorize_session in H. rust_inv H. guards.
  apply map_err_Ok in Hrun1. subst s. unfold session_verify. cbn [policy wallet_signature].
  rewrite Hrun, Z.eqb_refl, !bool_decide_eq_true_2 by done. cbn [result_bind negb].
  rewrite !(proj2 (Z.ltb_ge _ _)) by lia. rewrite Hrun0. cbn [result_bind].
  by rewrite (wallet_sign_accepted _ _ _ _ Hrun1 Hguard).
Qed.

Lemma authorize_with_wallet_signature_Ok p sig c a :
  authorize_with_wallet_signature p sig c = Ok a →
  validate_provider_structure p = Ok () ∧ public_key c = psp_provider_public_key p ∧
  verify_payout_wallet_signature p sig = Ok () ∧
  ∃ data tsig, transport_signing_data p sig = Ok data ∧ sign c data = Ok tsig ∧
    a = mkAuthorizedProvider p sig tsig.
Proof.
  unfold authorize_with_wallet_signature. intros H. rust_inv H. guards.
  apply map_err_Ok in Hrun2. subst a. destruct a0, a1. eauto 10.
Qed.

Lemma authorize_with_wallet_signature_verifies p sig c v a now :
  Signs c v →
  authorize_with_wallet_signature p sig c = Ok a →
  psp_valid_from_unix_s p ≤ now ≤ psp_expires_at_unix_s p →
  provider_settlement_verify a (psp_chain_id p) (psp_settlement_contract p)
    (psp_provider_public_key p) now v = Ret (Ok (payout_wallet_address p)).
Proof.
  intros HS (Hv & Hpk & Hw & data & tsig & Hd & Hs & ->)%authorize_with_wallet_signature_Ok Hnow.
  destruct (sign_verifies _ _ Hs) as [Hlen Hver].
  unfold provider_settlement_verify. cbn. rewrite Hv. cbn [try_bind].
  rewrite Z.eqb_refl, !bool_decide_eq_true_2 by done. cbn [negb].
  rewrite !(proj2 (Z.ltb_ge _ _)) by lia. rewrite Hw. cbn [try_bind]. rewrite Hd.
  cbn [try_bind]. rewrite (proj2 (signature_rejected_false v data tsig _)); [done|].
  by rewrite <- Hpk.
Qed.

Lemma authorize_provider_through p w c a :
  authorize_provider p w c = Ok a →
  ∃ sig, authorize_with_wallet_signature p sig c = Ok a ∧
         address_opt w = Some (payout_wallet_address p).
Proof. unfold authorize_provider. intros H. rust_inv H. guards. eauto. Qed.

(** ** The digest commits to the policy *)

Definition collision : Prop := ∃ x y : list Z, x ≠ y ∧ keccak256 x = keccak256 y.

Lemma keccak_or_collision x y : keccak256 x = keccak256 y → x = y ∨ collision.
Proof.
  intros H. destruct (decide (x = y)); [by left|]. right. by exists x, y.
Qed.

(** The widths of a policy's fields. *)
Definition policy_wf (p : ReceiptSessionPolicy) : Prop :=
  in_u 16 (rsp_protocol_version p) ∧ in_u 64 (rsp_chain_id p) ∧
  length (rsp_settlement_contract p) = 20%nat ∧ length (payer_wallet_address p) = 20%nat ∧
  in_u 128 (max_total_charge_wei p) ∧ in_u 64 (rsp_valid_from_unix_s p) ∧
  in_u 64 (rsp_expires_at_unix_s p) ∧ length (rsp_authorization_nonce p) = 32%nat.

Lemma uint_word_length v : length (uint_word v) = 32%nat.
Proof. unfold uint_word, u128_to_be_bytes. by rewrite length_app, repeat_length, length_be_bytes. Qed.

Lemma address_word_length a : length a = 20%nat → length (address_word a) = 32%nat.
Proof. intros H. unfold address_word. by rewrite length_app, repeat_length, H. Qed.

Lemma uint_word_inj v w : in_u 128 v → in_u 128 w → uint_word v = uint_word w → v = w.
Proof.
  intros Hv Hw H. apply app_inv_head in H. by eapply (be_bytes_inj 16).
Qed.

Lemma session_digest_commits p q d :
  (∀ x, length (keccak256 x) = 32%nat) → policy_wf p → policy_wf q →
  session_eip712_digest p = Ok d → session_eip712_digest q = Ok d →
  p = q ∨ collision.
Proof.
  intros Hk Hp Hq Hdp Hdq. unfold session_eip712_digest in *.
  rust_inv Hdp. rust_inv Hdq. rewrite <- Hdp in Hdq.
  apply keccak_or_collision in Hdq as [Hdq|]; [|by right].
  apply app_inv_head in Hdq. apply app_inj_1 in Hdq as [Hdom Hstr]; [|by rewrite !Hk].
  apply keccak_or_collision in Hdom as [Hdom|]; [|by right].
  apply keccak_or_collision in Hstr as [Hstr|]; [|by right].
  destruct Hp as (P1 & P2 & P3 & P4 & P5 & P6 & P7 & P8).
  destruct Hq as (Q1 & Q2 & Q3 & Q4 & Q5 & Q6 & Q7 & Q8).
  do 3 apply app_inv_head in Hdom.
  apply app_inj_1 in Hdom as [Hchain Hcontract]; [|by rewrite !uint_word_length].
  apply app_inv_head in Hcontract, Hstr.
  apply app_inj_1 in Hstr as [Hver Hstr]; [|by rewrite !uint_word_length].
  apply app_inj_1 in Hstr as [Hpayer Hstr]; [|by rewrite !address_word_length].
  apply app_inj_1 in Hstr as [Hkey Hstr]; [|by rewrite !Hk].
  apply app_inj_1 in Hstr as [Hmax Hstr]; [|by rewrite !uint_word_length].
  apply app_inj_1 in Hstr as [Hfrom Hstr]; [|by rewrite !uint_word_length].
  apply app_inj_1 in Hstr as [Hexp Hnonce]; [|by rewrite !uint_word_length].
  apply keccak_or_collision in Hkey as [Hkey|]; [|by right]. left.
  assert (∀ w z, w ≤ 128 → 0 ≤ w → in_u w z → in_u 128 z) as Hm
    by (intros; by eapply in_u_mono).
  apply app_inv_head in Hpayer.
  apply uint_word_inj in Hchain, Hver, Hmax, Hfrom, Hexp; try done;
    try (eapply Hm; [| |done]; lia).
  destruct p, q; simpl in *; by subst.
Qed.

End Receipts.

(** ** Properties *)

Section Properties.
Context `{E : Ethsign} `{C : Cbor}.

(** The first receipt of a stream. *)
Definition first_receipt (epoch : list Z) (provider payer : CryptDE) (c : Charge)
    : ServiceReceipt :=
  new_with_service_units epoch (ch_sequence c) (ch_kind c) (public_key provider)
    (make_accounting_commitment epoch (public_key payer)) (ch_payload_size c)
    (ch_service_units c) (ch_service_rate c) (ch_byte_rate c).

Lemma first_receipt_total epoch provider payer c :
  valid_receipt (first_receipt epoch provider payer c) →
  cumulative_charge_wei (first_receipt epoch provider payer c) = charge_wei c ∧
  charge_of (first_receipt epoch provider payer c) = charge_wei c ∧ 0 ≤ charge_wei c.
Proof.
  intros (_ & _ & _ & _ & _ & Hc & _). unfold first_receipt, new_with_service_units in *.
  unfold checked_total_charge_wei, charge_of in *. cbn in *. rewrite Hc. cbn [unwrap_or].
  apply checked_charge_Ok in Hc as (_ & _ & _ & Hin & _). done.
Qed.

Lemma begin_Ok contiguous a v cp :
  begin_with_contiguity a v contiguous = Ret (Ok cp) ↔
  acknowledged_verify a v = Ret (Ok (charge_of (ack_receipt a))) ∧
  total_agrees contiguous (cumulative_charge_wei (ack_receipt a)) (charge_of (ack_receipt a)) ∧
  cp = checkpoint_of (ack_receipt a) (payer_session_public_key a).
Proof.
  unfold begin_with_contiguity. split.
  - intros H. rust_inv H. pose proof (acknowledged_verify_Ok _ _ _ Hrun) as (_ & -> & _).
    apply total_agrees_guard in Hguard. by subst.
  - intros (-> & Ht & ->). cbn [try_bind]. by rewrite (proj2 (total_agrees_guard _ _ _) Ht).
Qed.

(** A stream of receipts issued by an honest provider is accepted whole:
    the first receipt and every receipt made from its predecessor by
    [next_with_service_units] is signed, acknowledged by the payer and verified
    by any observer; the observer's strict checkpoint begins and advances over
    all of them and ends with exactly the sum of the charges. *)
Theorem receipt_stream_accepted provider payer v epoch c0 cs rs :
  Parties provider payer v →
  validate (first_receipt epoch provider payer c0) = Ok () →
  issue_from (first_receipt epoch provider payer c0) cs = Ok rs →
  ∃ a0 acks cp0 cp,
    exchange (first_receipt epoch provider payer c0) provider payer = Ret (Ok a0) ∧
    Forall2 (fun r a => exchange r provider payer = Ret (Ok a)) rs acks ∧
    begin a0 v = Ret (Ok cp0) ∧
    advance_all true cp0 acks v = Ret (Ok cp) ∧
    cp_cumulative_charge_wei cp = sum_Z (map charge_wei (c0 :: cs)).
Proof.
  intros HP Hv Hissue. apply validate_Ok in Hv.
  destruct (first_receipt_total _ _ _ _ Hv) as (Hcum & Hch & Hpos).
  set (r0 := first_receipt epoch provider payer c0) in *.
  destruct (exchange_complete provider payer v r0 HP Hv eq_refl eq_refl)
    as (a0 & Hex & Har & Hkey & Hver).
  destruct (advance_all_complete provider payer v cs HP r0 rs) as (acks & cp & Hall & Hadv & Hfin);
    try done; [lia|].
  exists a0, acks, (checkpoint_of r0 (public_key payer)), cp.
  split; [done|]. split; [done|]. split; [|split; [done|]].
  - apply begin_Ok. rewrite Har, Hkey, Hch. split; [congruence|]. split; [|done]. by rewrite Hcum.
  - rewrite Hfin, Hcum. done.
Qed.

(** [C24] Whatever acknowledgements an observer is shown, if its checkpoint
    begins with the first and advances over the others then all belong to one
    stream (route, provider, commitment and session key), all carry both
    signatures, their sequence numbers strictly increase, and the recorded
    total is the sum of their charges (at least that sum for the provider's
    recovery, which may skip acknowledgements that were lost). *)
Theorem checkpoint_total_and_order contiguous a0 acks v cp0 cp :
  begin_with_contiguity a0 v contiguous = Ret (Ok cp0) →
  advance_all contiguous cp0 acks v = Ret (Ok cp) →
  Forall (same_stream cp0) (a0 :: acks) ∧
  Forall (fun a => provider_signed (signed_receipt a) v ∧ payer_signed a v) (a0 :: acks) ∧
  StronglySorted Z.lt (map (fun a => sequence (ack_receipt a)) (a0 :: acks)) ∧
  total_agrees contiguous (cp_cumulative_charge_wei cp)
    (sum_Z (map (fun a => charge_of (ack_receipt a)) (a0 :: acks))).
Proof.
  intros (Hv0 & Ht0 & ->)%begin_Ok (Hss & Hvs & Hsort & Htot & _)%advance_all_sound.
  split; [by constructor|]. split; [|split; [done|]].
  - apply (Forall_impl (fun a => acknowledged_verify a v = Ret (Ok (charge_of (ack_receipt a)))));
      [by constructor|].
    intros a Ha%acknowledged_verify_Ok. naive_solver.
  - cbn [map sum_Z foldr] in *. unfold sum_Z, total_agrees in *.
    unfold checkpoint_of in *. cbn in *. destruct contiguous; lia.
Qed.

(** [C29] A receipt that verifies against a session authorization is bounded by
    it: the returned charge is rate times units plus byte rate times size, the
    cumulative amount covers it and stays within the authorized limit (itself
    below 2^126), the time is inside a window of at most 24 hours, chain and
    contract are the expected ones, both parties signed, and the wallet that
    signed the EIP-712 digest is the policy's payer. *)
Theorem authorized_receipt_bounds s a v chain_id contract now charge :
  verify_for_receipt s a v chain_id contract now = Ret (Ok charge) →
  charge = charge_of (ack_receipt a) ∧
  charge ≤ cumulative_charge_wei (ack_receipt a) ∧
  provider_signed (signed_receipt a) v ∧ payer_signed a v ∧
  session_authorizes s chain_id contract (payer_session_public_key a) now
    (cumulative_charge_wei (ack_receipt a)).
Proof.
  unfold verify_for_receipt. intros H. rust_inv H.
  apply acknowledged_verify_Ok in Hrun as (Hv & -> & Hp & Ha & _).
  apply session_verify_Ok in Hrun0. subst.
  repeat split; try done; try apply Hrun0. apply Hv.
Qed.

(** The charge of a receipt on 64-bit rates, units and sizes is computed
    exactly or refused: neither product can leave [u128], so the overflow error
    is returned exactly when the sum does. *)
Theorem charge_exact_or_refused sr su br ps :
  in_u 64 sr → in_u 64 su → in_u 64 br → in_u 64 ps →
  checked_charge_wei sr su br ps =
    if bool_decide (in_u 128 (sr * su + br * ps))
    then Ok (sr * su + br * ps) else Err CumulativeChargeOverflow.
Proof. apply checked_charge_u64. Qed.

(** A payout authorization, made with a wallet or completed from an
    external wallet signature, verifies within its window and yields the payout
    wallet of the policy. *)
Theorem provider_authorization_roundtrip p w c v a now :
  Signs c v →
  authorize_provider p w c = Ok a →
  psp_valid_from_unix_s p ≤ now ≤ psp_expires_at_unix_s p →
  provider_settlement_verify a (psp_chain_id p) (psp_settlement_contract p)
    (psp_provider_public_key p) now v = Ret (Ok (payout_wallet_address p)).
Proof.
  intros HS (sig & Ha & _)%authorize_provider_through Hnow.
  by eapply authorize_with_wallet_signature_verifies.
Qed.

(** The EIP-712 digest commits to the whole session policy: two policies
    with the same digest are equal in every field, or they exhibit a collision
    of keccak-256. *)
Theorem session_digest_binding p q d :
  (∀ x, length (keccak256 x) = 32%nat) → policy_wf p → policy_wf q →
  session_eip712_digest p = Ok d → session_eip712_digest q = Ok d →
  p = q ∨ ∃ x y : list Z, x ≠ y ∧ keccak256 x = keccak256 y.
Proof. apply session_digest_commits. Qed.

(** Under the libsodium implementation, checking a valid receipt whose
    provider key is shorter than 64 bytes against a 64-byte signature does not
    return an error: the key conversion panics before any signature is
    examined, and the length test in front of it does not prevent that. *)
Theorem malformed_provider_key_panics `{B : Base64} S c s :
  validate (receipt s) = Ok () →
  (length (provider_public_key (receipt s)) < 64)%nat →
  length (provider_signature s) = 64%nat →
  (∃ bs, cbor_receipt (receipt s) = Ok bs) →
  signed_verify s (Real.real_cryptde S c) = Panic.
Proof.
  intros Hv Hpk Hsig [bs Hbs]. unfold signed_verify. rewrite Hv, (signing_data_Ok _ _ Hbs).
  cbn [try_bind]. unfold signature_rejected. rewrite (proj2 (Nat.ltb_ge _ _)) by lia.
  cbn [verify_signature Real.real_cryptde].
  rewrite (proj2 (Real.real_verify_panics S c _ _ _)); [done|].
  split; [done|]. unfold Real.PUBLICKEYBYTES. lia.
Qed.

End Properties.

(** ** A concrete network

    Instances on which the hypotheses of the properties hold: a polynomial hash
    and a signature scheme that satisfies the documented laws, and two
    transparent key pairs. *)

Definition sample_ethsign : Ethsign := {|
  keccak256 := fun x => be_bytes 32 (be_value 0 x mod (2 ^ 255 - 19) + 1);
  secret_public := fun secret => secret;
  secret_sign := fun secret _ => Ok (mkSignature 0 (repeat 1 32) secret);
  recover := fun sig _ => Some (sig_s sig);
  public_verify := fun pk sig _ => Some (bool_decide (sig_s sig = pk));
  public_address := fun pk => take 20 pk
|}.

Definition sample_cbor : Cbor := {|
  cbor_receipt := fun r => Ok [sequence r];
  cbor_acknowledgement := fun s k => Ok (sequence (receipt s) :: k);
  cbor_provider_policy := fun p => Ok [psp_chain_id p]
|}.

#[local] Existing Instance sample_ethsign.
#[local] Existing Instance sample_cbor.

Lemma sample_ethsign_laws : EthsignLaws sample_ethsign.
Proof.
  split; intros secret msg sig [= <-]; simpl; [done|]. by rewrite bool_decide_eq_true_2.
Qed.

Definition sample_sha1 (data : list Z) : list Z := [Z.of_nat (length data)].
Definition sample_null (key : list Z) : CryptDE :=
  Null.null_cryptde (B := sample_base64) sample_sha1 (Null.mkNull (Null.other_key_data key) key [] 0).
Definition sample_provider : CryptDE := sample_null [1; 2; 3].
Definition sample_payer : CryptDE := sample_null [4; 5].

Lemma sample_null_Signs k k' :
  k ≠ [] → bytes_ok k → Signs (sample_null k) (sample_null k').
Proof. intros. by apply Null.null_Signs. Qed.

Lemma sample_null_signs k data : k ≠ [] → ∃ sig, sign (sample_null k) data = Ok sig.
Proof.
  intros Hk. simpl. unfold Null.null_sign, Null.encode_with_key_data. simpl.
  rewrite !Null.length_other_key_data. destruct k; [done|]. by eexists.
Qed.

Lemma sample_parties : Parties sample_provider sample_payer sample_payer.
Proof.
  split; try (apply sample_null_Signs; [done|repeat constructor; done]);
    try (intros; by apply sample_null_signs); try (intros; simpl; by eexists). done.
Qed.

Definition sample_epoch : list Z := repeat 9 32.
Definition sample_first : Charge := mkCharge 1 Exit 100 1 10 2.
Definition sample_rest : list Charge := [mkCharge 2 Exit 50 2 10 2; mkCharge 7 Routing 0 1 5 1].

Definition sample_receipts : list ServiceReceipt :=
  unwrap_or (issue_from (first_receipt sample_epoch sample_provider sample_payer sample_first)
    sample_rest) [].

Lemma receipt_stream_accepted_witness :
  ∃ a0 acks cp0 cp,
    exchange (first_receipt sample_epoch sample_provider sample_payer sample_first)
      sample_provider sample_payer = Ret (Ok a0) ∧
    Forall2 (fun r a => exchange r sample_provider sample_payer = Ret (Ok a))
      sample_receipts acks ∧
    begin a0 sample_payer = Ret (Ok cp0) ∧
    advance_all true cp0 acks sample_payer = Ret (Ok cp) ∧
    cp_cumulative_charge_wei cp = 335.
Proof.
  apply (receipt_stream_accepted sample_provider sample_payer sample_payer sample_epoch
    sample_first sample_rest sample_receipts sample_parties); by vm_compute.
Defined.

(** The acknowledgements of that stream, and the checkpoint they lead to. *)
Definition sample_ack (r : ServiceReceipt) : AcknowledgedServiceReceipt :=
  match exchange r sample_provider sample_payer with
  | Ret (Ok a) => a
  | _ => mkAcknowledged (mkSigned r []) [] []
  end.
Definition sample_ack0 : AcknowledgedServiceReceipt :=
  sample_ack (first_receipt sample_epoch sample_provider sample_payer sample_first).
Definition sample_acks : list AcknowledgedServiceReceipt := map sample_ack sample_receipts.

Definition sample_cp0 : ReceiptSequenceCheckpoint :=
  checkpoint_of (ack_receipt sample_ack0) [4; 5].
Definition sample_cp : ReceiptSequenceCheckpoint :=
  mkCheckpoint (cp_route_epoch sample_cp0) (cp_provider_public_key sample_cp0)
    (cp_accounting_commitment sample_cp0) [4; 5] 7 335.

Lemma checkpoint_total_and_order_witness :
  StronglySorted Z.lt (map (fun a => sequence (ack_receipt a)) (sample_ack0 :: sample_acks)) ∧
  cp_cumulative_charge_wei sample_cp =
    sum_Z (map (fun a => charge_of (ack_receipt a)) (sample_ack0 :: sample_acks)).
Proof.
  assert (begin_with_contiguity sample_ack0 sample_payer true = Ret (Ok sample_cp0)) as Hb
    by by vm_compute.
  assert (advance_all true sample_cp0 sample_acks sample_payer = Ret (Ok sample_cp)) as Ha
    by by vm_compute.
  destruct (checkpoint_total_and_order true sample_ack0 sample_acks sample_payer
    sample_cp0 sample_cp Hb Ha) as (_ & _ & Hs & Ht).
  split; [exact Hs|exact Ht].
Defined.

Definition sample_secret : list Z := repeat 3 32.
Definition sample_policy : ReceiptSessionPolicy :=
  session_policy_new 137 (repeat 2 20) (repeat 3 20) (public_key sample_payer) 1000 100 400
    (repeat 8 32).
Definition sample_session : AuthorizedReceiptSession :=
  mkAuthorizedSession sample_policy (mkSignature 0 (repeat 1 32) sample_secret).

Lemma authorized_receipt_bounds_witness :
  verify_for_receipt sample_session sample_ack0 sample_payer 137 (repeat 2 20) 250
    = Ret (Ok 210) ∧
  210 ≤ cumulative_charge_wei (ack_receipt sample_ack0).
Proof.
  assert (verify_for_receipt sample_session sample_ack0 sample_payer 137 (repeat 2 20) 250
    = Ret (Ok 210)) as H by by vm_compute.
  split; [exact H|]. by destruct (authorized_receipt_bounds _ _ _ _ _ _ _ H) as (_ & Hle & _).
Defined.

Lemma charge_exact_or_refused_witness :
  checked_charge_wei (2 ^ 64 - 1) (2 ^ 64 - 1) (2 ^ 64 - 1) (2 ^ 64 - 1)
    = Err CumulativeChargeOverflow ∧
  checked_charge_wei (2 ^ 64 - 1) (2 ^ 64 - 1) 1 1 = Ok ((2 ^ 64 - 1) * (2 ^ 64 - 1) + 1).
Proof.
  split.
  - rewrite (charge_exact_or_refused (2 ^ 64 - 1) (2 ^ 64 - 1) (2 ^ 64 - 1) (2 ^ 64 - 1));
      [by vm_compute|split; by vm_compute..].
  - rewrite (charge_exact_or_refused (2 ^ 64 - 1) (2 ^ 64 - 1) 1 1);
      [by vm_compute|split; by vm_compute..].
Defined.

Definition sample_provider_policy : ProviderSettlementPolicy :=
  provider_policy_new 137 (repeat 2 20) (repeat 3 20) (public_key sample_provider) 100 400
    (repeat 8 32).
Definition sample_provider_settlement : AuthorizedProviderSettlement :=
  unwrap_or (authorize_provider sample_provider_policy (WSecretKey sample_secret) sample_provider)
    (mkAuthorizedProvider sample_provider_policy (mkSignature 0 [] []) []).

Lemma provider_authorization_roundtrip_witness :
  provider_settlement_verify sample_provider_settlement 137 (repeat 2 20)
    (public_key sample_provider) 100 sample_payer = Ret (Ok (repeat 3 20)).
Proof.
  apply (provider_authorization_roundtrip sample_provider_policy (WSecretKey sample_secret)
    sample_provider sample_payer sample_provider_settlement 100).
  - apply sample_null_Signs; [done|repeat constructor; done].
  - by vm_compute.
  - unfold sample_provider_policy. cbn. lia.
Defined.

Lemma session_digest_binding_witness :
  sample_policy = sample_policy ∨ ∃ x y : list Z, x ≠ y ∧ keccak256 x = keccak256 y.
Proof.
  apply (session_digest_binding sample_policy sample_policy
    (unwrap_or (session_eip712_digest sample_policy) []));
    [intros; apply length_be_bytes|..]; repeat split; by vm_compute.
Defined.


Lemma malformed_provider_key_panics_witness :
  signed_verify
    (mkSigned (first_receipt sample_epoch sample_provider sample_payer sample_first) (repeat 1 64))
    (Real.real_cryptde (B := sample_base64) sample_sodium (Real.mkReal (repeat 6 64) [] [] [] [])) = Panic.
Proof.
  apply malformed_provider_key_panics; [by vm_compute|simpl; lia|done|by eexists].
Defined.
