(* ===== verification/ReceiptSettlement.v ===== *)
(** * ReceiptSettlement: claims, batches and Merkle roots

    [sub_lib/receipt_settlement.rs]: a provider's claim binds a payer-authorized
    cumulative receipt to its payout wallet; a batch verifies claims, orders
    them by leaf hash, adds up the payouts and commits to the claims with a
    Merkle root, once over the portable claims and once over the packed claims
    of the escrow contract.

    A BTreeMap from addresses to amounts is the association list it iterates
    over, in key order. *)

From stdpp Require Import base list numbers option strings sorting sets.
From Stdlib Require Import ZArith Lia.
From S2P Require Import Prelude Text CryptDE Wallet ServiceReceipt.

Local Open Scope Z_scope.
Local Open Scope rust_scope.
Local Open Scope list_scope.

Definition SETTLEMENT_CLAIM_ID_DOMAIN := string_bytes "MASQ_SETTLEMENT_CLAIM_ID_V1" ++ [0].
Definition SETTLEMENT_LEAF_DOMAIN := string_bytes "MASQ_SETTLEMENT_LEAF_V1" ++ [0].
Definition SETTLEMENT_NODE_DOMAIN := string_bytes "MASQ_SETTLEMENT_NODE_V1" ++ [0].
Definition CONTRACT_SETTLEMENT_LEAF_DOMAIN :=
  string_bytes "MASQ_ONCHAIN_SETTLEMENT_LEAF_V1" ++ [0].
Definition CONTRACT_SETTLEMENT_NODE_DOMAIN :=
  string_bytes "MASQ_ONCHAIN_SETTLEMENT_NODE_V1" ++ [0].

Record ReceiptSettlementClaim := mkClaim {
  receipt_payload : ServiceReceiptPayload_0v1;
  provider_settlement : AuthorizedProviderSettlement;
}.

Record VerifiedReceiptSettlementClaim := mkVerified {
  claim : ReceiptSettlementClaim;
  claim_id : list Z;
  leaf_hash : list Z;
  v_payout_wallet_address : Address;
  v_cumulative_charge_wei : Z;
}.

Record ReceiptSettlementPayout := mkPayout {
  p_payout_wallet_address : Address;
  amount_wei : Z;
}.

Record ReceiptSettlementContractClaim := mkContractClaim {
  cc_claim_id : list Z;
  cc_session_id : list Z;
  cc_payer_wallet_address : Address;
  cc_payout_wallet_address : Address;
  cc_cumulative_charge_wei : Z;
}.

Record ReceiptSettlementBatch := mkBatch {
  b_chain_id : Z;
  b_settlement_contract : Address;
  claims : list ReceiptSettlementClaim;
  claim_accepted_at_unix_s : list Z;
  leaf_hashes : list (list Z);
  b_merkle_root : list Z;
  payouts : list ReceiptSettlementPayout;
  total_claimed_wei : Z;
  contract_claims : list ReceiptSettlementContractClaim;
  contract_leaf_hashes : list (list Z);
  b_contract_merkle_root : list Z;
}.

Inductive ReceiptSettlementError :=
| AcceptanceTimeCountMismatch (claim_count acceptance_time_count : nat)
| AcceptanceTimeInFuture (t : Z)
| AmountOverflow
| ArtifactMismatch
| DuplicateClaim (id : list Z)
| EmptyBatch
| ReceiptFailure (e : ServiceReceiptError)
| SettlementSerialization (message : string).

Global Instance ReceiptSettlementClaim_eq_dec : EqDecision ReceiptSettlementClaim.
Proof. solve_decision. Defined.
Global Instance ReceiptSettlementPayout_eq_dec : EqDecision ReceiptSettlementPayout.
Proof. solve_decision. Defined.
Global Instance ReceiptSettlementContractClaim_eq_dec : EqDecision ReceiptSettlementContractClaim.
Proof. solve_decision. Defined.
Global Instance ReceiptSettlementBatch_eq_dec : EqDecision ReceiptSettlementBatch.
Proof. solve_decision. Defined.

(** [serde_cbor::to_vec] of the claim identity (a 7-tuple) and of a claim. *)
Class SettlementCbor := {
  cbor_identity :
    Z → Address → Address → PublicKey → list Z → PublicKey → list Z → result (list Z) string;
  cbor_claim : ReceiptSettlementClaim → result (list Z) string;
}.

(** ** Sorting by key ([sort_by_key], a stable sort) *)

Section SortByKey.
Context {A : Type} (key : A → list Z).

Fixpoint insert_by (x : A) (l : list A) : list A :=
  match l with
  | [] => [x]
  | y :: l' => if bytes_leb (key x) (key y) then x :: y :: l' else y :: insert_by x l'
  end.

Definition sort_by_key (l : list A) : list A := foldr insert_by [] l.

Definition key_le (x y : A) : Prop := bytes_leb (key x) (key y) = true.

Lemma insert_by_perm x l : insert_by x l ≡ₚ x :: l.
Proof.
  induction l as [|y l IH]; [done|]. simpl. destruct (bytes_leb _ _); [done|].
  rewrite IH. constructor.
Qed.

Lemma sort_by_key_perm l : sort_by_key l ≡ₚ l.
Proof. induction l as [|x l IH]; [done|]. simpl. by rewrite insert_by_perm, IH. Qed.

Lemma insert_by_sorted x l : Sorted key_le l → Sorted key_le (insert_by x l).
Proof.
  induction 1 as [|y l Hs IH Hhd]; simpl; [by repeat constructor|].
  destruct (bytes_leb (key x) (key y)) eqn:E.
  - constructor; [by constructor|]. by constructor.
  - constructor; [done|].
    assert (key_le y x) as Hyx.
    { destruct (bytes_leb_total (key x) (key y)); [congruence|done]. }
    destruct l as [|z l]; simpl; [by constructor|].
    inversion Hhd; subst. destruct (bytes_leb (key x) (key z)); by constructor.
Qed.

Lemma sort_by_key_sorted l : Sorted key_le (sort_by_key l).
Proof. induction l; simpl; [constructor|]. by apply insert_by_sorted. Qed.

Lemma sort_by_key_id l : Sorted key_le l → sort_by_key l = l.
Proof.
  induction 1 as [|x l Hs IH Hhd]; [done|]. simpl. rewrite IH.
  destruct Hhd as [|y l Hxy]; [done|]. simpl. by rewrite Hxy.
Qed.

End SortByKey.

Section Settlement.
Context `{E : Ethsign} `{C : Cbor} `{SC : SettlementCbor}.

(** ** Identities and hashes *)

Definition receipt_session_contract_id (payer : Address) (nonce : list Z) : list Z :=
  keccak256 (repeat 0 12 ++ payer ++ nonce).

Definition receipt_settlement_claim_id (p : ServiceReceiptPayload_0v1)
    : result (list Z) ReceiptSettlementError :=
  let auth := policy (payload_authorization p) in
  let a := acknowledged_receipt p in
  let r := ack_receipt a in
  let? serialized := map_err SettlementSerialization
    (cbor_identity (rsp_chain_id auth) (rsp_settlement_contract auth) (payer_wallet_address auth)
       (payer_session_public_key a) (route_epoch r) (provider_public_key r)
       (accounting_commitment r)) in
  Ok (keccak256 (SETTLEMENT_CLAIM_ID_DOMAIN ++ serialized)).

Definition claim_leaf_hash (self : ReceiptSettlementClaim)
    : result (list Z) ReceiptSettlementError :=
  let? serialized := map_err SettlementSerialization (cbor_claim self) in
  Ok (keccak256 (SETTLEMENT_LEAF_DOMAIN ++ serialized)).

Definition claim_claim_id (self : ReceiptSettlementClaim) : result (list Z) ReceiptSettlementError :=
  receipt_settlement_claim_id (receipt_payload self).

Definition verify_at (self : ReceiptSettlementClaim) (expected_chain_id : Z)
    (expected_settlement_contract : Address) (receipt_accepted_at provider_now : Z)
    (receipt_cryptde : CryptDE) : fallible VerifiedReceiptSettlementClaim ReceiptSettlementError :=
  let a := acknowledged_receipt (receipt_payload self) in
  let! _ := map_err_fallible ReceiptFailure
    (verify_for_receipt (payload_authorization (receipt_payload self)) a receipt_cryptde
       expected_chain_id expected_settlement_contract receipt_accepted_at) in
  let r := ack_receipt a in
  let! payout := map_err_fallible ReceiptFailure
    (provider_settlement_verify (provider_settlement self) expected_chain_id
       expected_settlement_contract (provider_public_key r) provider_now receipt_cryptde) in
  let! id := Ret (claim_claim_id self) in
  let! leaf := Ret (claim_leaf_hash self) in
  Ret (Ok {| claim := self;
             claim_id := id;
             leaf_hash := leaf;
             v_payout_wallet_address := payout;
             v_cumulative_charge_wei := cumulative_charge_wei r |}).

Definition claim_verify (self : ReceiptSettlementClaim) (chain_id : Z) (contract : Address)
    (now : Z) (receipt_cryptde : CryptDE)
    : fallible VerifiedReceiptSettlementClaim ReceiptSettlementError :=
  verify_at self chain_id contract now now receipt_cryptde.

Definition contract_claim (self : VerifiedReceiptSettlementClaim)
    : ReceiptSettlementContractClaim :=
  let auth := policy (payload_authorization (receipt_payload (claim self))) in
  {| cc_claim_id := claim_id self;
     cc_session_id :=
       receipt_session_contract_id (payer_wallet_address auth) (rsp_authorization_nonce auth);
     cc_payer_wallet_address := payer_wallet_address auth;
     cc_payout_wallet_address := v_payout_wallet_address self;
     cc_cumulative_charge_wei := v_cumulative_charge_wei self |}.

Definition contract_claim_leaf_hash (chain_id : Z) (contract : Address)
    (self : ReceiptSettlementContractClaim) : list Z :=
  let chain_word := repeat 0 24 ++ u64_to_be_bytes chain_id in
  keccak256 (CONTRACT_SETTLEMENT_LEAF_DOMAIN ++ chain_word ++ contract ++
    cc_claim_id self ++ cc_session_id self ++ cc_payer_wallet_address self ++
    cc_payout_wallet_address self ++ u128_to_be_bytes (cc_cumulative_charge_wei self)).

(** ** Merkle roots *)

(** One pass of [chunks(2)]: an odd element is paired with itself. *)
Fixpoint pair_level (domain : list Z) (level : list (list Z)) : list (list Z) :=
  match level with
  | [] => []
  | [x] => [keccak256 (domain ++ x ++ x)]
  | x :: y :: rest => keccak256 (domain ++ x ++ y) :: pair_level domain rest
  end.

(** [while level.len() > 1]; the indexing [level[0]] panics on no leaves.  Each
    pass shortens the level, so as much fuel as there are leaves is enough. *)
Fixpoint merkle_loop (domain : list Z) (fuel : nat) (level : list (list Z)) : exec (list Z) :=
  match fuel with
  | O => Panic
  | S fuel =>
      if (1 <? length level)%nat then merkle_loop domain fuel (pair_level domain level)
      else expect (level !! 0%nat)
  end.

Definition merkle_root (leaves : list (list Z)) : exec (list Z) :=
  merkle_loop SETTLEMENT_NODE_DOMAIN (S (length leaves)) leaves.
Definition contract_merkle_root (leaves : list (list Z)) : exec (list Z) :=
  merkle_loop CONTRACT_SETTLEMENT_NODE_DOMAIN (S (length leaves)) leaves.

(** ** Batches *)

(** The loop over a [BTreeSet] of claim ids. *)
Fixpoint check_duplicates (seen : list (list Z))
    (verified : list (VerifiedReceiptSettlementClaim * Z)) : result unit ReceiptSettlementError :=
  match verified with
  | [] => Ok ()
  | (c, _) :: rest =>
      if bool_decide (claim_id c ∈ seen) then Err (DuplicateClaim (claim_id c))
      else check_duplicates (claim_id c :: seen) rest
  end.

(** [*entry(a).or_insert(0) = checked_add(..)] on the ordered map. *)
Fixpoint payout_add (a : Address) (amount : Z) (totals : list (Address * Z))
    : option (list (Address * Z)) :=
  match totals with
  | [] => match checked_add 128 0 amount with Some t => Some [(a, t)] | None => None end
  | (b, t) :: rest =>
      match bytes_compare a b with
      | Eq => match checked_add 128 t amount with Some t => Some ((b, t) :: rest) | None => None end
      | Lt => match checked_add 128 0 amount with
              | Some t' => Some ((a, t') :: (b, t) :: rest) | None => None end
      | Gt => match payout_add a amount rest with
              | Some rest => Some ((b, t) :: rest) | None => None end
      end
  end.

Fixpoint add_totals (verified : list (VerifiedReceiptSettlementClaim * Z))
    (total : Z) (totals : list (Address * Z))
    : result (Z * list (Address * Z)) ReceiptSettlementError :=
  match verified with
  | [] => Ok (total, totals)
  | (c, _) :: rest =>
      let? total := ok_or (checked_add 128 total (v_cumulative_charge_wei c)) AmountOverflow in
      let? totals :=
        ok_or (payout_add (v_payout_wallet_address c) (v_cumulative_charge_wei c) totals)
          AmountOverflow in
      add_totals rest total totals
  end.

Definition from_verified (verified : list (VerifiedReceiptSettlementClaim * Z))
    (chain_id : Z) (contract : Address) : fallible ReceiptSettlementBatch ReceiptSettlementError :=
  let! _ := Ret (check_duplicates [] verified) in
  let verified := sort_by_key (fun cv => leaf_hash (fst cv)) verified in
  let! sums := Ret (add_totals verified 0 []) in
  let '(total_claimed_wei, payout_totals) := sums in
  let leaf_hashes := map (fun cv => leaf_hash (fst cv)) verified in
  let* root := merkle_root leaf_hashes in
  let contract_claims :=
    sort_by_key (contract_claim_leaf_hash chain_id contract)
      (map (fun cv => contract_claim (fst cv)) verified) in
  let contract_leaf_hashes := map (contract_claim_leaf_hash chain_id contract) contract_claims in
  let* contract_root := contract_merkle_root contract_leaf_hashes in
  Ret (Ok {| b_chain_id := chain_id;
             b_settlement_contract := contract;
             claims := map (fun cv => claim (fst cv)) verified;
             claim_accepted_at_unix_s := map snd verified;
             leaf_hashes := leaf_hashes;
             b_merkle_root := root;
             payouts := map (fun at' => mkPayout (fst at') (snd at')) payout_totals;
             total_claimed_wei := total_claimed_wei;
             contract_claims := contract_claims;
             contract_leaf_hashes := contract_leaf_hashes;
             b_contract_merkle_root := contract_root |}).

(** [iter().map(f).collect::<Result<Vec<_>, _>>()]: stops at the first error. *)
Fixpoint collect {A B X} (f : A → fallible B X) (l : list A) : fallible (list B) X :=
  match l with
  | [] => Ret (Ok [])
  | a :: l =>
      let! b := f a in
      let! bs := collect f l in
      Ret (Ok (b :: bs))
  end.

Definition verify_accepted (chain_id : Z) (contract : Address) (now : Z) (cryptde : CryptDE)
    (ca : ReceiptSettlementClaim * Z)
    : fallible (VerifiedReceiptSettlementClaim * Z) ReceiptSettlementError :=
  let! v := verify_at (fst ca) chain_id contract (snd ca) now cryptde in
  Ret (Ok (v, snd ca)).

Definition build (cs : list ReceiptSettlementClaim) (chain_id : Z) (contract : Address)
    (now : Z) (cryptde : CryptDE) : fallible ReceiptSettlementBatch ReceiptSettlementError :=
  if (length cs =? 0)%nat then Ret (Err EmptyBatch)
  else
    let! verified := collect (fun c =>
      let! v := claim_verify c chain_id contract now cryptde in Ret (Ok (v, now))) cs in
    from_verified verified chain_id contract.

Definition build_from_accepted (cs : list (ReceiptSettlementClaim * Z)) (chain_id : Z)
    (contract : Address) (now : Z) (cryptde : CryptDE)
    : fallible ReceiptSettlementBatch ReceiptSettlementError :=
  if (length cs =? 0)%nat then Ret (Err EmptyBatch)
  else
    match List.find (fun ca => now <? snd ca) cs with
    | Some (_, accepted_at) => Ret (Err (AcceptanceTimeInFuture accepted_at))
    | None =>
        let! verified := collect (verify_accepted chain_id contract now cryptde) cs in
        from_verified verified chain_id contract
    end.

Definition verify_exported (self : ReceiptSettlementBatch) (now : Z) (cryptde : CryptDE)
    : fallible unit ReceiptSettlementError :=
  if negb (length (claims self) =? length (claim_accepted_at_unix_s self))%nat
  then Ret (Err (AcceptanceTimeCountMismatch (length (claims self))
                   (length (claim_accepted_at_unix_s self))))
  else
    let! reconstructed :=
      build_from_accepted (zip (claims self) (claim_accepted_at_unix_s self))
        (b_chain_id self) (b_settlement_contract self) now cryptde in
    if negb (bool_decide (reconstructed = self)) then Ret (Err ArtifactMismatch)
    else Ret (Ok ()).

(** ** Merkle roots commit to their leaves *)

(** Two different strings with one hash, among those that were hashed. *)
Definition collision_in (H : list Z → Prop) : Prop :=
  ∃ x y, H x ∧ H y ∧ x ≠ y ∧ keccak256 x = keccak256 y.

(** The strings that [pair_level] and [merkle_loop] hash. *)
Fixpoint node_strings (domain : list Z) (level : list (list Z)) : list (list Z) :=
  match level with
  | [] => []
  | [x] => [domain ++ x ++ x]
  | x :: y :: rest => (domain ++ x ++ y) :: node_strings domain rest
  end.
Fixpoint merkle_strings (domain : list Z) (fuel : nat) (level : list (list Z)) : list (list Z) :=
  match fuel with
  | O => []
  | S fuel =>
      if (1 <? length level)%nat
      then node_strings domain level ++ merkle_strings domain fuel (pair_level domain level) else []
  end.

Section Merkle.
Context (domain : list Z) (Hk : ∀ x, length (keccak256 x) = 32%nat) (H : list Z → Prop).
#[local] Abbreviation collision := (collision_in H).

Lemma hashed_or_collision x y : H x → H y → keccak256 x = keccak256 y → x = y ∨ collision.
Proof. intros Hx Hy Heq. destruct (decide (x = y)); [by left|]. right. by exists x, y. Qed.

Definition hashes (l : list (list Z)) : Prop := Forall (fun h => length h = 32%nat) l.

Lemma pair_level_hashes l : hashes (pair_level domain l).
Proof.
  induction l as [|x|x y l IH] using list_pair_ind; simpl; repeat constructor; try done.
Qed.

Lemma pair_level_shorter l :
  (length (pair_level domain l) ≤ length l)%nat ∧
  ((1 < length l)%nat → (length (pair_level domain l) < length l)%nat) ∧
  (l ≠ [] → pair_level domain l ≠ []).
Proof.
  induction l as [|x|x y l IH] using list_pair_ind; simpl;
    split_and!; try done; try lia.
Qed.

Lemma pair_level_elem h l :
  h ∈ pair_level domain l → ∃ x y, h = keccak256 (domain ++ x ++ y) ∧ x ∈ l ∧ domain ++ x ++ y ∈ node_strings domain l.
Proof.
  induction l as [|x|x y l IH] using list_pair_ind; simpl.
  - by intros ?%elem_of_nil.
  - intros ->%list_elem_of_singleton. exists x, x. split; [done|]. split; by left.
  - intros [->|Hin]%elem_of_cons.
    + exists x, y. split; [done|]. split; by left.
    + destruct (IH Hin) as (x' & y' & -> & Hx & Hs). exists x', y'. split; [done|].
      split; [by do 2 right|by right].
Qed.

Lemma node_inj x y x' y' :
  length x = 32%nat → length x' = 32%nat → H (domain ++ x ++ y) → H (domain ++ x' ++ y') →
  keccak256 (domain ++ x ++ y) = keccak256 (domain ++ x' ++ y') →
  (x = x' ∧ y = y') ∨ collision.
Proof.
  intros Hx Hx' Hs Hs' [Heq|]%hashed_or_collision; [|by right|done..]. left.
  apply app_inv_head in Heq. by apply app_inj_1 in Heq; [|congruence].
Qed.

Lemma pair_level_NoDup l :
  hashes l → NoDup l → Forall H (node_strings domain l) → NoDup (pair_level domain l) ∨ collision.
Proof.
  induction l as [|x|x y l IH] using list_pair_ind; intros Hl Hnd HH; simpl.
  - left. constructor.
  - left. apply NoDup_singleton.
  - inversion Hl as [|? ? Hx Hl']; subst. inversion Hl' as [|? ? Hy Hl'']; subst.
    cbn [node_strings] in HH. apply Forall_cons in HH as [Hxy HH].
    apply NoDup_cons in Hnd as [Hxn Hnd]. apply NoDup_cons in Hnd as [Hyn Hnd].
    destruct (IH Hl'' Hnd HH) as [Hp|]; [|by right].
    destruct (decide (keccak256 (domain ++ x ++ y) ∈ pair_level domain l)) as [Hin|Hni].
    + apply pair_level_elem in Hin as (x' & y' & Heq & Hx' & Hs').
      apply node_inj in Heq as [[<- _]|]; [|by right|done|by eapply Forall_forall in Hl''|done|by eapply Forall_forall in HH].
      exfalso. apply Hxn. by right.
    + left. by constructor.
Qed.

Lemma pair_level_inj l1 l2 :
  hashes l1 → hashes l2 → NoDup l1 → NoDup l2 →
  Forall H (node_strings domain l1) → Forall H (node_strings domain l2) →
  pair_level domain l1 = pair_level domain l2 → l1 = l2 ∨ collision.
Proof.
  revert l2. induction l1 as [|x|x y l1 IH] using list_pair_ind;
    intros [|x' [|y' l2]] H1 H2 Hn1 Hn2 S1 S2 Heq; try discriminate Heq; [by left|..];
    inversion H1; inversion H2; subst; cbn [pair_level node_strings] in Heq, S1, S2;
    apply Forall_cons in S1 as [Sx S1]; apply Forall_cons in S2 as [Sx' S2];
    apply (f_equal (fun l => (hd [] l, tl l))) in Heq; cbn [hd tl] in Heq;
    apply pair_eq in Heq as [Hhd Htl];
    apply node_inj in Hhd as [[-> Hy]|]; try (by right); try done; subst.
  - by left.
  - apply NoDup_cons in Hn2 as [Hn2 _]. exfalso. apply Hn2. by left.
  - apply NoDup_cons in Hn1 as [Hn1 _]. exfalso. apply Hn1. by left.
  - apply NoDup_cons in Hn1 as [_ [_ Hn1]%NoDup_cons], Hn2 as [_ [_ Hn2]%NoDup_cons].
    match goal with H : Forall _ (_ :: l1) |- _ => inversion H; subst end.
    match goal with H : Forall _ (_ :: l2) |- _ => inversion H; subst end.
    destruct (IH l2) as [->|]; try done; [by left|by right].
Qed.

Abbreviation levels d := (Nat.iter d (pair_level domain)).

(** What is hashed on the first [d] levels *)
Definition fed (d : nat) (l : list (list Z)) : Prop :=
  ∀ i, (i < d)%nat → Forall H (node_strings domain (levels i l)).

Lemma levels_wf d l :
  hashes l → NoDup l → fed d l → (hashes (levels d l) ∧ NoDup (levels d l)) ∨ collision.
Proof.
  intros Hl Hn. induction d as [|d IH]; intros Hf; simpl; [by left|].
  destruct IH as [[Hh Hd]|]; [by intros i Hi; apply Hf; lia| |by right].
  destruct (pair_level_NoDup _ Hh Hd); [by apply Hf; lia| |by right]. left. split; [|done].
  apply pair_level_hashes.
Qed.

Lemma levels_inj d l1 l2 :
  hashes l1 → hashes l2 → NoDup l1 → NoDup l2 → fed d l1 → fed d l2 →
  levels d l1 = levels d l2 → l1 = l2 ∨ collision.
Proof.
  intros H1 H2 N1 N2. induction d as [|d IH]; intros F1 F2; simpl; [by left|]. intros Heq.
  assert (fed d l1 ∧ fed d l2) as [F1' F2'] by (split; intros i Hi; [apply F1|apply F2]; lia).
  destruct (levels_wf d l1 H1 N1 F1') as [[W1 M1]|]; [|by right].
  destruct (levels_wf d l2 H2 N2 F2') as [[W2 M2]|]; [|by right].
  destruct (pair_level_inj _ _ W1 W2 M1 M2 (F1 d ltac:(lia)) (F2 d ltac:(lia)) Heq) as [Hl|]; [by apply IH|by right].
Qed.

(** The loop returns on any leaves, with the single hash of the last level. *)
Lemma merkle_loop_returns fuel l :
  l ≠ [] → (length l < fuel)%nat →
  ∃ d r, merkle_loop domain fuel l = Ret r ∧ levels d l = [r] ∧
    ∀ i s, (i < d)%nat → s ∈ node_strings domain (levels i l) → s ∈ merkle_strings domain fuel l.
Proof.
  revert l. induction fuel as [|fuel IH]; intros l Hne Hlen; [lia|]. cbn [merkle_loop merkle_strings].
  destruct (1 <? length l)%nat eqn:E1; guards.
  - destruct (pair_level_shorter l) as (_ & Hlt & Hpne).
    destruct (IH (pair_level domain l)) as (d & r & Hr & Hd & Hs); [by apply Hpne|lia|].
    exists (S d), r. split; [done|]. split; [by rewrite Nat.iter_succ_r|].
    intros [|i] s Hi Hin; apply elem_of_app; [by left|right]. apply (Hs i); [lia|]. by rewrite <- Nat.iter_succ_r.
  - destruct l as [|r [|? ?]]; [done| |simpl in E1; lia]. exists 0%nat, r. split; [done|]. split; [done|]. lia.
Qed.

Context (leaf_domain : list Z).
Context (Hdom : ∀ s t, leaf_domain ++ s ≠ domain ++ t).

Definition leaves_of (l : list (list Z)) : Prop :=
  Forall (fun h => ∃ s, h = keccak256 (leaf_domain ++ s) ∧ H (leaf_domain ++ s)) l.

Lemma leaves_hashes l : leaves_of l → hashes l.
Proof. intros Hl. eapply Forall_impl; [exact Hl|]. by intros ? (s & -> & _). Qed.

Lemma leaf_not_node d l1 l2 :
  l1 ≠ [] → leaves_of l1 → fed (S d) l2 → l1 = levels (S d) l2 → collision.
Proof.
  intros Hne Hl Hf Heq. destruct l1 as [|h l1]; [done|]. inversion Hl as [|? ? (s & -> & Hs) _]; subst.
  assert (keccak256 (leaf_domain ++ s) ∈ levels (S d) l2) as Hin by (rewrite <- Heq; by left).
  apply pair_level_elem in Hin as (x & y & Hk' & _ & Hn).
  apply hashed_or_collision in Hk' as [Hst|]; [by apply Hdom in Hst|done|done|].
  specialize (Hf d ltac:(lia)). by eapply Forall_forall in Hf.
Qed.

Lemma merkle_binding_le d1 d2 l1 l2 r :
  (d1 ≤ d2)%nat → leaves_of l1 → leaves_of l2 → NoDup l1 → NoDup l2 → l1 ≠ [] → fed d1 l1 → fed d2 l2 →
  levels d1 l1 = [r] → levels d2 l2 = [r] → l1 = l2 ∨ collision.
Proof.
  intros Hle L1 L2 N1 N2 Hne F1 F2 E1 E2.
  replace d2 with (d1 + (d2 - d1))%nat in E2 by lia. rewrite Nat.iter_add in E2.
  destruct (levels_wf (d2 - d1) l2 (leaves_hashes _ L2) N2) as [[W M]|]; [by intros i Hi; apply F2; lia| |by right].
  destruct (levels_inj d1 l1 _ (leaves_hashes _ L1) W N1 M F1) as [Heq|]; [|congruence| |by right].
  { intros i Hi. rewrite <- Nat.iter_add. apply F2. lia. }
  destruct (d2 - d1)%nat as [|k] eqn:Ek; [by left|]. right. eapply leaf_not_node; [done..| |exact Heq].
  intros i Hi. apply F2. lia.
Qed.

Lemma merkle_binding l1 l2 r f1 f2 :
  leaves_of l1 → leaves_of l2 → NoDup l1 → NoDup l2 → l1 ≠ [] → l2 ≠ [] →
  (length l1 < f1)%nat → (length l2 < f2)%nat →
  Forall H (merkle_strings domain f1 l1) → Forall H (merkle_strings domain f2 l2) →
  merkle_loop domain f1 l1 = Ret r → merkle_loop domain f2 l2 = Ret r →
  l1 = l2 ∨ collision.
Proof.
  intros L1 L2 N1 N2 Ne1 Ne2 F1 F2 S1 S2 R1 R2. rewrite Forall_forall in S1, S2.
  destruct (merkle_loop_returns f1 l1 Ne1 F1) as (d1 & r1 & E1 & D1 & G1).
  destruct (merkle_loop_returns f2 l2 Ne2 F2) as (d2 & r2 & E2 & D2 & G2).
  assert (r1 = r) as -> by congruence. assert (r2 = r) as -> by congruence.
  assert (fed d1 l1 ∧ fed d2 l2) as [Fed1 Fed2]
    by (split; intros i Hi; apply Forall_forall; intros s Hs; [eapply S1, G1|eapply S2, G2]; done).
  destruct (Nat.le_ge_cases d1 d2).
  - by apply (merkle_binding_le d1 d2 _ _ r).
  - destruct (merkle_binding_le d2 d1 l2 l1 r) as [->|]; auto.
Qed.

End Merkle.

(** ** What a batch holds *)

Abbreviation VClaim := VerifiedReceiptSettlementClaim.

Lemma collect_Ok {A B X} (f : A → fallible B X) l bs :
  collect f l = Ret (Ok bs) ↔ Forall2 (fun a b => f a = Ret (Ok b)) l bs.
Proof.
  revert bs. induction l as [|a l IH]; intros bs; cbn [collect].
  - split; [intros [= <-]; constructor|]. by inversion 1.
  - split.
    + intros H. rust_inv H. subst. constructor; [done|]. by apply IH.
    + inversion 1 as [|? b ? bs' Hb Hbs]; subst. rewrite Hb. cbn [try_bind].
      by rewrite (proj2 (IH _) Hbs).
Qed.

(** A claim accepted at one time and paid out under an authority valid at
    another. *)
Definition claim_accepted (chain_id : Z) (contract : Address) (now : Z) (v : CryptDE)
    (vc : VClaim) (accepted_at : Z) : Prop :=
  let c := claim vc in
  let a := acknowledged_receipt (receipt_payload c) in
  (∃ charge, verify_for_receipt (payload_authorization (receipt_payload c)) a v chain_id contract
     accepted_at = Ret (Ok charge)) ∧
  provider_settlement_verify (provider_settlement c) chain_id contract
    (provider_public_key (ack_receipt a)) now v = Ret (Ok (v_payout_wallet_address vc)) ∧
  claim_claim_id c = Ok (claim_id vc) ∧ claim_leaf_hash c = Ok (leaf_hash vc) ∧
  v_cumulative_charge_wei vc = cumulative_charge_wei (ack_receipt a).

Lemma verify_at_Ok c chain_id contract at' now v vc :
  verify_at c chain_id contract at' now v = Ret (Ok vc) ↔
  claim vc = c ∧ claim_accepted chain_id contract now v vc at'.
Proof.
  unfold verify_at, claim_accepted. split.
  - intros H. rust_inv H. apply map_err_fallible_Ok in Hrun, Hrun0. subst vc. cbn.
    split; [done|]. split; [by eexists|]. done.
  - intros [<- ([charge Hr] & Hp & Hi & Hl & Hc)]. rewrite Hr. cbn [map_err_fallible map_err try_bind].
    rewrite Hp. cbn [map_err_fallible map_err try_bind]. rewrite Hi, Hl. cbn [try_bind].
    rewrite <- Hc. by destruct vc.
Qed.

Lemma verify_accepted_Ok chain_id contract now v ca r :
  verify_accepted chain_id contract now v ca = Ret (Ok r) ↔
  (claim (fst r), snd r) = ca ∧ claim_accepted chain_id contract now v (fst r) (snd r).
Proof.
  unfold verify_accepted. rewrite try_bind_Ok. destruct ca as [c at']. cbn [fst snd]. split.
  - intros (vc & Hv & [= <-]). apply verify_at_Ok in Hv as [<- Ha]. done.
  - intros [[= <- <-] Ha]. exists (fst r). split; [by apply verify_at_Ok|]. by destruct r.
Qed.

Lemma check_duplicates_Ok seen verified :
  check_duplicates seen verified = Ok () ↔
  NoDup (map (fun cv => claim_id (fst cv)) verified) ∧
  Forall (fun cv => claim_id (fst cv) ∉ seen) verified.
Proof.
  revert seen. induction verified as [|[c t] verified IH]; intros seen; cbn [check_duplicates map].
  - split; [|done]. intros _. split; constructor.
  - case_bool_decide as Hin.
    + split; [done|]. intros [_ Hall]. inversion Hall; subst. done.
    + rewrite IH, NoDup_cons, Forall_cons. cbn [fst]. rewrite !Forall_forall, list_elem_of_fmap.
      split.
      * intros [Hn Hall]. split_and!; try done.
        -- intros (cv & Heq & Hcv). apply (Hall cv Hcv). rewrite <- Heq. by left.
        -- intros cv Hcv Hs. apply (Hall cv Hcv). by right.
      * intros [[Hni Hn] [_ Hall]]. split; [done|]. intros cv Hcv [Heq|Hs]%elem_of_cons.
        -- apply Hni. by exists cv.
        -- by apply (Hall cv Hcv).
Qed.

(** *** Payout totals *)

Definition wallet_total (a : Address) (totals : list (Address * Z)) : Z :=
  sum_Z (map snd (filter (fun at' => fst at' = a) totals)).

Definition keys_sorted (totals : list (Address * Z)) : Prop :=
  Sorted (fun x y => bytes_compare (fst x) (fst y) = Lt) totals.

Lemma wallet_total_cons a b t totals :
  wallet_total a ((b, t) :: totals) = (if decide (b = a) then t else 0) + wallet_total a totals.
Proof.
  unfold wallet_total. rewrite filter_cons. cbn [fst]. case_decide; simpl; unfold sum_Z; lia.
Qed.

Lemma payout_add_total a amount totals totals' :
  payout_add a amount totals = Some totals' →
  (∀ b, wallet_total b totals' = wallet_total b totals + if decide (a = b) then amount else 0) ∧
  sum_Z (map snd totals') = sum_Z (map snd totals) + amount.
Proof.
  revert totals'. induction totals as [|[b t] totals IH]; intros totals'; cbn [payout_add].
  - destruct (checked_add _ _ _) as [t'|] eqn:Hadd; [|done]. intros [= <-].
    apply checked_add_Some in Hadd as [-> _]. split; [|simpl; unfold sum_Z; simpl; lia].
    intros c. rewrite wallet_total_cons. case_decide; unfold wallet_total; simpl; lia.
  - destruct (bytes_compare a b) eqn:Hcmp.
    + apply bytes_compare_eq in Hcmp as <-.
      destruct (checked_add _ _ _) as [t'|] eqn:Hadd; [|done]. intros [= <-].
      apply checked_add_Some in Hadd as [-> _]. split; [|simpl; unfold sum_Z; lia].
      intros c. rewrite !wallet_total_cons. case_decide; lia.
    + destruct (checked_add _ _ _) as [t'|] eqn:Hadd; [|done]. intros [= <-].
      apply checked_add_Some in Hadd as [-> _]. split; [|simpl; unfold sum_Z; lia].
      intros c. rewrite !wallet_total_cons. repeat case_decide; lia.
    + destruct (payout_add a amount totals) as [rest|]; [|done]. intros [= <-].
      destruct (IH rest eq_refl) as [H1 H2]. split; [|simpl; unfold sum_Z in *; simpl; lia].
      intros c. rewrite !wallet_total_cons, H1. lia.
Qed.

Lemma payout_add_sorted a amount totals totals' :
  payout_add a amount totals = Some totals' → keys_sorted totals → keys_sorted totals'.
Proof.
  unfold keys_sorted. revert totals'.
  induction totals as [|[b t] totals IH]; intros totals'; cbn [payout_add].
  - destruct (checked_add _ _ _); [|done]. intros [= <-] _. by repeat constructor.
  - destruct (bytes_compare a b) eqn:Hcmp; intros H Hs.
    + destruct (checked_add _ _ _); [|done]. injection H as <-.
      inversion Hs as [|? ? Hs' Hhd]; subst. constructor; [done|].
      destruct Hhd; by constructor.
    + destruct (checked_add _ _ _); [|done]. injection H as <-. constructor; [done|].
      by constructor.
    + destruct (payout_add a amount totals) as [rest|] eqn:Hr; [|done]. injection H as <-.
      inversion Hs as [|? ? Hs' Hhd]; subst. constructor; [by apply IH|].
      assert (bytes_compare b a = Lt) as Hba by (rewrite bytes_compare_antisym, Hcmp; done).
      destruct totals as [|[c u] totals]; simpl in Hr.
      * destruct (checked_add _ _ _); [|done]. injection Hr as <-. by constructor.
      * inversion Hhd; subst.
        destruct (bytes_compare a c); [destruct (checked_add _ _ _)..|destruct (payout_add _ _ _)];
          try done; injection Hr as <-; by constructor.
Qed.

Lemma add_totals_Ok verified total totals total' totals' :
  add_totals verified total totals = Ok (total', totals') → keys_sorted totals →
  total' = total + sum_Z (map (fun cv => v_cumulative_charge_wei (fst cv)) verified) ∧
  sum_Z (map snd totals') - sum_Z (map snd totals) = total' - total ∧
  keys_sorted totals' ∧
  ∀ a, wallet_total a totals' = wallet_total a totals +
    sum_Z (map (fun cv => v_cumulative_charge_wei (fst cv))
      (filter (fun cv => v_payout_wallet_address (fst cv) = a) verified)).
Proof.
  revert total totals. induction verified as [|[c t] verified IH]; intros total totals.
  - cbn [add_totals]. intros [= -> ->] Hs. cbn. split_and!; [lia|lia|done|intros; lia].
  - cbn [add_totals]. intros H Hs. rust_inv H. unfold ok_or in *.
    destruct (checked_add _ _ _) as [tt|] eqn:Hadd; [|done]. injection Hrun as <-.
    apply checked_add_Some in Hadd as [-> _].
    destruct (payout_add _ _ _) as [ts|] eqn:Hp; [|done]. injection Hrun0 as <-.
    destruct (payout_add_total _ _ _ _ Hp) as [Hw Hsum].
    apply IH in H as (-> & Hd & Hs' & Hall); [|by eapply payout_add_sorted].
    cbn [map fst]. split_and!; [simpl; unfold sum_Z in *; simpl in *; lia| |done|].
    + unfold sum_Z in *. cbn in *. lia.
    + intros a. rewrite Hall, Hw, filter_cons. cbn [fst].
      repeat case_decide; cbn [map fst]; unfold sum_Z; simpl; lia.
Qed.

Abbreviation sort_verified := (sort_by_key (fun cv : VClaim * Z => leaf_hash (fst cv))).

Lemma from_verified_Ok verified chain_id contract b :
  from_verified verified chain_id contract = Ret (Ok b) →
  let sorted := sort_verified verified in
  NoDup (map (fun cv => claim_id (fst cv)) verified) ∧
  b_chain_id b = chain_id ∧ b_settlement_contract b = contract ∧
  claims b = map (fun cv => claim (fst cv)) sorted ∧
  claim_accepted_at_unix_s b = map snd sorted ∧
  leaf_hashes b = map (fun cv => leaf_hash (fst cv)) sorted ∧
  merkle_root (leaf_hashes b) = Ret (b_merkle_root b) ∧
  (∃ totals, add_totals sorted 0 [] = Ok (total_claimed_wei b, totals) ∧
     payouts b = map (fun at' => mkPayout (fst at') (snd at')) totals) ∧
  contract_claims b ≡ₚ map (fun cv => contract_claim (fst cv)) sorted ∧
  contract_leaf_hashes b = map (contract_claim_leaf_hash chain_id contract) (contract_claims b) ∧
  contract_merkle_root (contract_leaf_hashes b) = Ret (b_contract_merkle_root b).
Proof.
  unfold from_verified. intros H. rust_inv H. cbv zeta.
  destruct a0 as [total totals]. rust_inv H. destruct a.
  apply check_duplicates_Ok in Hrun as [Hnd _]. subst b. cbn.
  split_and!; try done; [by exists totals|]. apply sort_by_key_perm.
Qed.

Lemma sort_verified_perm verified : sort_verified verified ≡ₚ verified.
Proof. apply sort_by_key_perm. Qed.

Lemma build_from_accepted_Ok cs chain_id contract now v b :
  build_from_accepted cs chain_id contract now v = Ret (Ok b) →
  cs ≠ [] ∧ Forall (fun ca => snd ca ≤ now) cs ∧
  ∃ verified, Forall2 (fun ca r => verify_accepted chain_id contract now v ca = Ret (Ok r))
    cs verified ∧ from_verified verified chain_id contract = Ret (Ok b).
Proof.
  unfold build_from_accepted. intros H.
  destruct (length cs =? 0)%nat eqn:Hlen; [done|]. guards.
  destruct (List.find _ _) as [[? ?]|] eqn:Hf; [done|]. rust_inv H.
  split; [by intros ->|]. split.
  - apply Forall_forall. intros ca Hca%list_elem_of_In.
    pose proof (find_none _ _ Hf ca Hca). simpl in *. guards. lia.
  - exists a. split; [by apply collect_Ok|done].
Qed.

(** The verified form of the claims a batch lists, in its order. *)
Lemma batch_verified cs chain_id contract now v b :
  build_from_accepted cs chain_id contract now v = Ret (Ok b) →
  ∃ verified, from_verified verified chain_id contract = Ret (Ok b) ∧ verified ≠ [] ∧
    Forall (fun r => claim_accepted chain_id contract now v (fst r) (snd r)) verified ∧
    cs = map (fun r => (claim (fst r), snd r)) verified ∧
    Forall (fun r => snd r ≤ now) verified.
Proof.
  intros (Hne & Hnow & verified & Hall & Hb)%build_from_accepted_Ok.
  exists verified. split; [done|].
  assert (cs = map (fun r => (claim (fst r), snd r)) verified ∧
    Forall (fun r => claim_accepted chain_id contract now v (fst r) (snd r)) verified) as [-> Hacc].
  { clear -Hall. induction Hall as [|ca r cs verified Hr Hall [-> Hacc]]; [done|].
    apply verify_accepted_Ok in Hr as [<- Hr]. split; [done|by constructor]. }
  split; [by intros ->|]. split; [done|]. split; [done|].
  rewrite Forall_map in Hnow. eapply Forall_impl; [exact Hnow|done].
Qed.

(** *** The batch root *)

Lemma leaf_domains_differ s t : SETTLEMENT_LEAF_DOMAIN ++ s ≠ SETTLEMENT_NODE_DOMAIN ++ t.
Proof. intros H. by apply app_inj_1 in H as [H _]. Qed.

Lemma claim_leaf_hash_shape c h :
  claim_leaf_hash c = Ok h → ∃ bs, cbor_claim c = Ok bs ∧ h = keccak256 (SETTLEMENT_LEAF_DOMAIN ++ bs).
Proof.
  unfold claim_leaf_hash. intros H. rust_inv H. apply map_err_Ok in Hrun. by exists a.
Qed.

(** CBOR encodings determine the claim, among the claims in [P]. *)
Definition cbor_claim_inj (P : ReceiptSettlementClaim → Prop) : Prop :=
  ∀ c c' bs, P c → P c' → cbor_claim c = Ok bs → cbor_claim c' = Ok bs → c = c'.

(** The string that is hashed for the leaf of a claim. *)
Definition leaf_string (c : ReceiptSettlementClaim) : list (list Z) :=
  match cbor_claim c with Ok bs => [SETTLEMENT_LEAF_DOMAIN ++ bs] | Err _ => [] end.
Definition leaves_in (P : ReceiptSettlementClaim → Prop) (H : list Z → Prop) : Prop :=
  ∀ c, P c → Forall H (leaf_string c).

Lemma leaf_string_in P H c bs :
  leaves_in P H → P c → cbor_claim c = Ok bs → H (SETTLEMENT_LEAF_DOMAIN ++ bs).
Proof. intros HPH Hc Hbs. specialize (HPH c Hc). unfold leaf_string in HPH. rewrite Hbs in HPH. by inversion HPH. Qed.

Lemma claim_leaf_hash_inj P H c c' h :
  cbor_claim_inj P → leaves_in P H → P c → P c' →
  claim_leaf_hash c = Ok h → claim_leaf_hash c' = Ok h → c = c' ∨ collision_in H.
Proof.
  intros Hinj HPH Hc Hc' (bs & Hbs & ->)%claim_leaf_hash_shape (bs' & Hbs' & Heq)%claim_leaf_hash_shape.
  apply (hashed_or_collision H) in Heq as [Heq|]; [|by right|by eapply (leaf_string_in P H c)|by eapply (leaf_string_in P H c')]. left.
  apply app_inv_head in Heq as <-. by eapply (Hinj c c').
Qed.

Lemma verified_leaves_NoDup P H chain_id contract now v l :
  cbor_claim_inj P → leaves_in P H → Forall (fun r : VClaim * Z => P (claim (fst r))) l →
  Forall (fun r : VClaim * Z => claim_accepted chain_id contract now v (fst r) (snd r)) l →
  NoDup (map (fun cv => claim_id (fst cv)) l) →
  NoDup (map (fun cv => leaf_hash (fst cv)) l) ∨ collision_in H.
Proof.
  intros Hinj HPH. induction l as [|r l IH]; intros HP Hacc Hnd; [left; constructor|].
  inversion HP as [|? ? Hr HP']; subst. inversion Hacc as [|? ? (_ & _ & Hid & Hlf & _) Hacc']; subst.
  cbn [map] in *. apply NoDup_cons in Hnd as [Hni Hnd].
  destruct (IH HP' Hacc' Hnd) as [Hn|]; [|by right].
  destruct (decide (leaf_hash (fst r) ∈ map (fun cv => leaf_hash (fst cv)) l)) as [Hin|Hnin];
    [|left; by constructor].
  apply list_elem_of_fmap in Hin as (r' & Heq & Hr').
  rewrite Forall_forall in Hacc', HP'. destruct (Hacc' r' Hr') as (_ & _ & Hid' & Hlf' & _).
  rewrite Heq in Hlf.
  destruct (claim_leaf_hash_inj P H _ _ _ Hinj HPH Hr (HP' r' Hr') Hlf Hlf') as [Hc|]; [|by right].
  exfalso. apply Hni. rewrite Hc in Hid. apply list_elem_of_fmap. exists r'. split; [congruence|done].
Qed.

Lemma leaf_lists_determine_claims P H chain_id contract now v chain_id' contract' now' v' l l' :
  cbor_claim_inj P → leaves_in P H → Forall (fun r : VClaim * Z => P (claim (fst r))) l →
  Forall (fun r : VClaim * Z => P (claim (fst r))) l' →
  Forall (fun r : VClaim * Z => claim_accepted chain_id contract now v (fst r) (snd r)) l →
  Forall (fun r : VClaim * Z => claim_accepted chain_id' contract' now' v' (fst r) (snd r)) l' →
  map (fun cv => leaf_hash (fst cv)) l = map (fun cv => leaf_hash (fst cv)) l' →
  map (fun cv => claim (fst cv)) l = map (fun cv => claim (fst cv)) l' ∨ collision_in H.
Proof.
  intros Hinj HPH. revert l'. induction l as [|r l IH]; intros [|r' l'] HP HP' Ha Ha' Heq; try done; [by left|].
  inversion HP as [|? ? Hr HP1]; subst. inversion HP' as [|? ? Hr' HP1']; subst.
  inversion Ha as [|? ? (_ & _ & _ & Hlf & _) Ha1]; subst.
  inversion Ha' as [|? ? (_ & _ & _ & Hlf' & _) Ha1']; subst.
  cbn [map] in *. injection Heq as Hh Heq. rewrite Hh in Hlf.
  destruct (claim_leaf_hash_inj P H _ _ _ Hinj HPH Hr Hr' Hlf Hlf') as [Hc|]; [|by right].
  destruct (IH l' HP1 HP1' Ha1 Ha1' Heq) as [Hcs|]; [|by right]. left. by rewrite Hc, Hcs.
Qed.

Lemma batch_leaves P H cs chain_id contract now v b :
  cbor_claim_inj P → leaves_in P H → Forall (fun ca => P (fst ca)) cs →
  build_from_accepted cs chain_id contract now v = Ret (Ok b) →
  ∃ sorted, Forall (fun r => claim_accepted chain_id contract now v (fst r) (snd r)) sorted ∧
    Forall (fun r => P (claim (fst r))) sorted ∧
    claims b = map (fun cv => claim (fst cv)) sorted ∧
    leaf_hashes b = map (fun cv => leaf_hash (fst cv)) sorted ∧
    leaf_hashes b ≠ [] ∧ leaves_of H SETTLEMENT_LEAF_DOMAIN (leaf_hashes b) ∧
    merkle_root (leaf_hashes b) = Ret (b_merkle_root b) ∧
    (NoDup (leaf_hashes b) ∨ collision_in H).
Proof.
  intros Hinj HPH HP (verified & Hb & Hne & Hacc & -> & _)%batch_verified.
  rewrite Forall_map in HP.
  apply from_verified_Ok in Hb as (Hnd & _ & _ & Hcl & _ & Hlf & Hroot & _).
  pose proof (sort_verified_perm verified) as Hperm.
  exists (sort_verified verified).
  assert (Forall (fun r => claim_accepted chain_id contract now v (fst r) (snd r))
    (sort_verified verified)) as Hacc' by by rewrite Hperm.
  assert (Forall (fun r => P (claim (fst r))) (sort_verified verified)) as HP'
    by by rewrite Hperm.
  split_and!; try done.
  - rewrite Hlf. intros Hnil%map_eq_nil. rewrite Hnil in Hperm.
    by apply Permutation_nil_l in Hperm.
  - rewrite Hlf. unfold leaves_of. apply Forall_map. apply Forall_forall. intros r Hr.
    rewrite Forall_forall in Hacc', HP'. destruct (Hacc' r Hr) as (_ & _ & _ & (bs & Hbs & Hh)%claim_leaf_hash_shape & _).
    exists bs. split; [done|]. eapply leaf_string_in; [done|by apply HP'|done].
  - rewrite Hlf. eapply verified_leaves_NoDup; [done..|].
    by rewrite Hperm.
Qed.

(** *** Rebuilding an exported batch *)

Lemma check_duplicates_unit seen l u : check_duplicates seen l = Ok u → u = ().
Proof. by destruct u. Qed.

Lemma from_verified_sorted verified chain_id contract b :
  from_verified verified chain_id contract = Ret (Ok b) →
  from_verified (sort_verified verified) chain_id contract = Ret (Ok b).
Proof.
  intros H. pose proof (from_verified_Ok _ _ _ _ H) as (Hnd & _).
  unfold from_verified in *. rewrite (sort_by_key_id _ (sort_verified verified)) by apply sort_by_key_sorted.
  assert (check_duplicates [] verified = Ok ()) as Hd.
  { apply check_duplicates_Ok. split; [done|]. apply Forall_forall.
    by intros ? _ ?%elem_of_nil. }
  assert (check_duplicates [] (sort_verified verified) = Ok ()) as ->; [|by rewrite Hd in H].
  apply check_duplicates_Ok. split.
  - by rewrite (sort_verified_perm verified).
  - apply Forall_forall. by intros ? _ ?%elem_of_nil.
Qed.

Lemma zip_map_claims (l : list (VClaim * Z)) :
  zip (map (fun cv => claim (fst cv)) l) (map snd l) = map (fun r => (claim (fst r), snd r)) l.
Proof. induction l as [|r l IH]; [done|]. cbn [map zip_with]. by f_equal. Qed.

Lemma build_from_verified verified chain_id contract now v b :
  verified ≠ [] →
  Forall (fun r => claim_accepted chain_id contract now v (fst r) (snd r)) verified →
  Forall (fun r : VClaim * Z => snd r ≤ now) verified →
  from_verified verified chain_id contract = Ret (Ok b) →
  build_from_accepted (map (fun r => (claim (fst r), snd r)) verified) chain_id contract now v
    = Ret (Ok b).
Proof.
  intros Hne Hacc Hnow Hb. unfold build_from_accepted. rewrite length_map.
  destruct verified as [|r0 verified]; [done|]. cbn [length Nat.eqb].
  set (l := r0 :: verified) in *.
  destruct (List.find _ _) as [[c t]|] eqn:Hf.
  { apply find_some in Hf as [Hin Ht]. apply list_elem_of_In, list_elem_of_fmap in Hin
      as (r & [= -> ->] & Hr). rewrite Forall_forall in Hnow. specialize (Hnow r Hr).
    simpl in Ht. guards. lia. }
  rewrite (proj2 (collect_Ok _ _ l)); [done|].
  clear -Hacc. induction Hacc as [|r l Hr Hacc IH]; cbn [map]; constructor; [|done].
  by apply verify_accepted_Ok.
Qed.

Lemma exported_verifies cs chain_id contract now v b :
  build_from_accepted cs chain_id contract now v = Ret (Ok b) →
  verify_exported b now v = Ret (Ok ()).
Proof.
  intros (verified & Hb & Hne & Hacc & _ & Hnow)%batch_verified.
  pose proof (from_verified_Ok _ _ _ _ Hb) as (_ & Hch & Hco & Hcl & Hat & _).
  pose proof (sort_verified_perm verified) as Hperm.
  unfold verify_exported. rewrite Hcl, Hat, !length_map, Nat.eqb_refl. cbn [negb].
  rewrite zip_map_claims, Hch, Hco.
  rewrite (build_from_verified _ _ _ _ _ b).
  - cbn [try_bind]. by rewrite bool_decide_eq_true_2.
  - intros Hnil. rewrite Hnil in Hperm. by apply Permutation_nil_l in Hperm.
  - by rewrite Hperm.
  - by rewrite Hperm.
  - by apply from_verified_sorted.
Qed.

End Settlement.

(** ** Properties *)

Section Properties.
Context `{E : Ethsign} `{C : Cbor} `{SC : SettlementCbor}.

(** [C25] The amounts of a batch are those of its claims: it lists the given
    claims (reordered), each verified against its payer session at its
    acceptance time and its payout authority now, no claim id twice; the total
    is the sum of the cumulative charges, every wallet's payout is the sum over
    the claims that pay it, the payouts add up to the total, and each wallet
    appears once, in order. *)
Theorem batch_payouts_exact cs chain_id contract now v b :
  build_from_accepted cs chain_id contract now v = Ret (Ok b) →
  ∃ verified totals,
    zip (claims b) (claim_accepted_at_unix_s b) ≡ₚ cs ∧
    claims b ≡ₚ map (fun r => claim (fst r)) verified ∧
    Forall (fun r => claim_accepted chain_id contract now v (fst r) (snd r) ∧ snd r ≤ now)
      verified ∧
    NoDup (map (fun r => claim_id (fst r)) verified) ∧
    total_claimed_wei b = sum_Z (map (fun r => v_cumulative_charge_wei (fst r)) verified) ∧
    payouts b = map (fun at' => mkPayout (fst at') (snd at')) totals ∧
    sum_Z (map snd totals) = total_claimed_wei b ∧ keys_sorted totals ∧
    ∀ a, wallet_total a totals =
      sum_Z (map (fun r => v_cumulative_charge_wei (fst r))
        (filter (fun r => v_payout_wallet_address (fst r) = a) verified)).
Proof.
  intros (verified & Hb & Hne & Hacc & -> & Hnow)%batch_verified.
  apply from_verified_Ok in Hb
    as (Hnd & _ & _ & Hcl & Hat & _ & _ & (totals & Htot & Hpay) & _).
  pose proof (sort_verified_perm verified) as Hperm.
  apply add_totals_Ok in Htot as (Htotal & Hsum & Hsorted & Hw); [|constructor].
  exists (sort_by_key (fun cv => leaf_hash (fst cv)) verified), totals.
  assert (∀ a, wallet_total a [] = 0) as H0 by done.
  split_and!; try done.
  - rewrite Hcl, Hat, zip_map_claims. by rewrite Hperm.
  - by rewrite Hcl.
  - rewrite Hperm. by apply Forall_and.
  - by rewrite Hperm.
  - unfold sum_Z in *. simpl in Hsum. lia.
Qed.

(** What is hashed for the Merkle root of a batch. *)
Definition hashed_strings (cs : list (ReceiptSettlementClaim * Z)) (b : ReceiptSettlementBatch) : list (list Z) :=
  concat (map (fun ca => leaf_string (fst ca)) cs)
  ++ merkle_strings SETTLEMENT_NODE_DOMAIN (S (length (leaf_hashes b))) (leaf_hashes b).

(** [C26] The Merkle root of a batch commits to its claims and their order: two
    batches with the same root list the same claims, whatever their sizes, or
    two different strings that were hashed for the leaves and nodes of these
    two batches have the same hash.  (Claim ids are distinct within a batch,
    so the duplicated odd leaf of a level cannot be confused with a repeated
    claim, and leaves are hashed under another domain than inner nodes.) *)
Theorem batch_root_binding cs cs' chain_id chain_id' contract contract' now now' v v' b b' :
  (∀ x, length (keccak256 x) = 32%nat) →
  cbor_claim_inj (fun c => c ∈ map fst (cs ++ cs')) →
  build_from_accepted cs chain_id contract now v = Ret (Ok b) →
  build_from_accepted cs' chain_id' contract' now' v' = Ret (Ok b') →
  b_merkle_root b = b_merkle_root b' →
  claims b = claims b' ∨
  ∃ x y, x ∈ hashed_strings cs b ++ hashed_strings cs' b' ∧ y ∈ hashed_strings cs b ++ hashed_strings cs' b' ∧
    x ≠ y ∧ keccak256 x = keccak256 y.
Proof.
  intros Hk Hinj Hb Hb' Hroot.
  change (claims b = claims b' ∨ collision_in (fun x => x ∈ hashed_strings cs b ++ hashed_strings cs' b')).
  set (H := fun x => x ∈ hashed_strings cs b ++ hashed_strings cs' b').
  assert (∀ l, l ⊆ cs ++ cs' → Forall (fun ca => fst ca ∈ map fst (cs ++ cs')) l) as HP.
  { intros l Hl. apply Forall_forall. intros ca Hca. apply list_elem_of_fmap. eauto. }
  assert (leaves_in (fun c => c ∈ map fst (cs ++ cs')) H) as HPH.
  { intros c Hc. apply Forall_forall. intros x Hx. apply list_elem_of_fmap in Hc as (ca & -> & Hca).
    unfold H, hashed_strings. rewrite !elem_of_app.
    apply elem_of_app in Hca as [Hca|Hca]; [left|right]; left; apply list_elem_of_In, in_concat;
      eexists; (split; [by apply in_map, list_elem_of_In|by apply list_elem_of_In]). }
  destruct (batch_leaves _ H cs _ _ _ _ _ Hinj HPH (HP cs ltac:(set_solver)) Hb)
    as (l & Ha & Hp & Hc & Hl & Hne & Hlv & Hr & [Hn|]);
    [|by right].
  destruct (batch_leaves _ H cs' _ _ _ _ _ Hinj HPH (HP cs' ltac:(set_solver)) Hb')
    as (l' & Ha' & Hp' & Hc' & Hl' & Hne' & Hlv' & Hr' & [Hn'|]);
    [|by right].
  rewrite Hroot in Hr. unfold merkle_root in *.
  destruct (merkle_binding SETTLEMENT_NODE_DOMAIN Hk H SETTLEMENT_LEAF_DOMAIN leaf_domains_differ
    (leaf_hashes b) (leaf_hashes b') (b_merkle_root b') _ _ Hlv Hlv' Hn Hn' Hne Hne'
    (Nat.lt_succ_diag_r _) (Nat.lt_succ_diag_r _)) as [Heq|]; [..|done|done| |by right].
  1,2: apply Forall_forall; intros x Hx; unfold H, hashed_strings; rewrite !elem_of_app; auto.
  rewrite Hc, Hc'. eapply leaf_lists_determine_claims; [exact Hinj|exact HPH|done|done|exact Ha|exact Ha'|congruence].
Qed.

(** A batch built from accepted claims passes the independent check of
    exported batches at the same moment: rebuilding it from its own claims and
    acceptance times gives the identical artifact. *)
Theorem exported_batch_verifies cs chain_id contract now v b :
  build_from_accepted cs chain_id contract now v = Ret (Ok b) →
  verify_exported b now v = Ret (Ok ()).
Proof. apply exported_verifies. Qed.

(** Every non-empty list of leaves has a root: the reduction ends within
    as many passes as there are leaves. *)
Theorem merkle_root_total (leaves : list (list Z)) :
  leaves ≠ [] → ∃ r r', merkle_root leaves = Ret r ∧ contract_merkle_root leaves = Ret r'.
Proof.
  intros Hne. unfold merkle_root, contract_merkle_root.
  destruct (merkle_loop_returns SETTLEMENT_NODE_DOMAIN (S (length leaves)) leaves Hne)
    as (_ & r & Hr & _); [lia|].
  destruct (merkle_loop_returns CONTRACT_SETTLEMENT_NODE_DOMAIN (S (length leaves)) leaves Hne)
    as (_ & r' & Hr' & _); [lia|]. by exists r, r'.
Qed.

End Properties.

(** ** Two concrete claims *)

#[local] Existing Instance sample_ethsign.
#[local] Existing Instance sample_cbor.

Definition sample_settlement_cbor : SettlementCbor := {|
  cbor_identity := fun _ _ _ _ epoch _ _ => Ok epoch;
  cbor_claim := fun c =>
    Ok (route_epoch (ack_receipt (acknowledged_receipt (receipt_payload c))))
|}.
#[local] Existing Instance sample_settlement_cbor.

Definition sample_claim (epoch : list Z) : ReceiptSettlementClaim :=
  mkClaim
    (mkReceiptPayload sample_session
       (sample_ack (first_receipt epoch sample_provider sample_payer sample_first)))
    sample_provider_settlement.

Definition sample_accepted : list (ReceiptSettlementClaim * Z) :=
  [(sample_claim (repeat 9 32), 200); (sample_claim (repeat 5 32), 150)].

Definition sample_batch : ReceiptSettlementBatch :=
  match build_from_accepted sample_accepted 137 (repeat 2 20) 300 sample_payer with
  | Ret (Ok b) => b
  | _ => mkBatch 0 [] [] [] [] [] [] 0 [] [] []
  end.

Lemma sample_batch_built :
  build_from_accepted sample_accepted 137 (repeat 2 20) 300 sample_payer = Ret (Ok sample_batch).
Proof. by vm_compute. Qed.

Lemma batch_payouts_exact_witness :
  total_claimed_wei sample_batch = 420 ∧
  ∃ verified totals,
    zip (claims sample_batch) (claim_accepted_at_unix_s sample_batch) ≡ₚ sample_accepted ∧
    payouts sample_batch = map (fun at' => mkPayout (fst at') (snd at')) totals ∧
    NoDup (map (fun r : VerifiedReceiptSettlementClaim * Z => claim_id (fst r)) verified) ∧
    sum_Z (map snd totals) = total_claimed_wei sample_batch.
Proof.
  split; [by vm_compute|].
  destruct (batch_payouts_exact sample_accepted 137 (repeat 2 20) 300 sample_payer sample_batch
    sample_batch_built) as (verified & totals & H1 & _ & _ & H2 & _ & H3 & H4 & _).
  exists verified, totals. exact (conj H1 (conj H3 (conj H2 H4))).
Defined.

Lemma exported_batch_verifies_witness : verify_exported sample_batch 300 sample_payer = Ret (Ok ()).
Proof.
  apply (exported_batch_verifies sample_accepted 137 (repeat 2 20) 300 sample_payer).
  exact sample_batch_built.
Defined.

Lemma sample_accepted_claims c :
  c ∈ map fst (sample_accepted ++ sample_accepted) →
  c = sample_claim (repeat 9 32) ∨ c = sample_claim (repeat 5 32).
Proof.
  unfold sample_accepted. generalize (sample_claim (repeat 9 32)), (sample_claim (repeat 5 32)).
  set_solver.
Qed.

Lemma sample_cbor_claim_inj :
  cbor_claim_inj (fun c => c ∈ map fst (sample_accepted ++ sample_accepted)).
Proof.
  intros c c' bs Hc%sample_accepted_claims Hc'%sample_accepted_claims H H'.
  pose proof (eq_trans H (eq_sym H')) as Heq. clear H H'.
  destruct Hc as [->| ->], Hc' as [->| ->]; try reflexivity;
    exfalso; vm_compute in Heq; discriminate Heq.
Qed.

(** The same claims, given in another order *)
Lemma sample_batch_built_again :
  build_from_accepted (rev sample_accepted) 137 (repeat 2 20) 300 sample_payer = Ret (Ok sample_batch).
Proof. by vm_compute. Qed.
Lemma batch_root_binding_witness :
  length (hashed_strings sample_accepted sample_batch) = 3%nat ∧
  let hashed := hashed_strings sample_accepted sample_batch ++ hashed_strings (rev sample_accepted) sample_batch in
  claims sample_batch = claims sample_batch ∨
  ∃ x y, x ∈ hashed ∧ y ∈ hashed ∧ x ≠ y ∧ keccak256 x = keccak256 y.
Proof.
  split; [by vm_compute|].
  apply (batch_root_binding sample_accepted (rev sample_accepted) 137 137 (repeat 2 20) (repeat 2 20)
    300 300 sample_payer sample_payer sample_batch sample_batch).
  - intros x. apply length_be_bytes.
  - intros c c' bs Hc Hc'. apply sample_cbor_claim_inj; [revert Hc|revert Hc'];
      rewrite !map_app, !elem_of_app, map_rev, !list_elem_of_In, <- in_rev; tauto.
  - exact sample_batch_built.
  - exact sample_batch_built_again.
  - reflexivity.
Defined.

Lemma merkle_root_total_witness :
  ∃ r r', merkle_root [[1]; [2]; [3]] = Ret r ∧ contract_merkle_root [[1]; [2]; [3]] = Ret r'.
Proof. by apply merkle_root_total. Defined.
