(* ===== verification/BigInt.v ===== *)
(** * BigInt: 127-bit balances in pairs of 64-bit database columns

    [accountant/db_big_integer/big_int_divider.rs] splits an [i128] into a high
    and a low [i64]; [big_int_db_processor.rs] adds a change to the two columns
    in SQL and repairs the row when the low columns carry over.  SQLite adds
    integers exactly or, on 64-bit overflow, as REAL, which a strict INT column
    refuses (error 3091): the addition of a column is [sql_add].

    Arithmetic on [i64] and [i128] outside SQL overflows as in a checked
    build: it panics. *)

From stdpp Require Import base list numbers option strings gmap.
From Stdlib Require Import ZArith Lia.
From S2P Require Import Prelude.

Local Open Scope Z_scope.
Local Open Scope rust_scope.

(** ** The divider *)

Definition deconstruct_range_check (num : Z) : exec unit :=
  let top_two_bits := Z.land (Z.shiftr num 126) 3 in
  if top_two_bits =? 1 then Panic
  else if top_two_bits =? 2 then Panic
  else Ret ().

Definition deconstruct_high_bytes (num : Z) : exec Z :=
  let* _ := deconstruct_range_check num in
  Ret (wrap_i 64 (Z.shiftr num 63)).

Definition deconstruct_low_bytes (num : Z) : Z :=
  wrap_i 64 (Z.land num 0x7FFFFFFFFFFFFFFF).

Definition deconstruct (num : Z) : exec (Z * Z) :=
  let* high := deconstruct_high_bytes num in
  Ret (high, deconstruct_low_bytes num).

Definition forbidden_low_bytes_negativity_check (low_bytes : Z) : exec unit :=
  if low_bytes <? 0 then Panic else Ret ().

Definition reconstitute (high_bytes low_bytes : Z) : exec Z :=
  let* _ := forbidden_low_bytes_negativity_check low_bytes in
  Ret (Z.lor (wrap_i 128 (Z.shiftl high_bytes 63)) low_bytes).

Inductive UserDefinedFunctionError :=
| NonnegativeSlope (slope : Z)
| NonpositiveTime (time_parameter : Z).

(** The argument of the SQL functions [slope_drop_high_bytes] and
    [slope_drop_low_bytes], in [i128]. *)
Definition slope_drop (start_gwei slope time_parameter : Z) : result Z UserDefinedFunctionError :=
  match slope <? 0, 0 <? time_parameter with
  | true, true => Ok (start_gwei * 1000000000 + slope * time_parameter)
  | false, _ => Err (NonnegativeSlope slope)
  | _, _ => Err (NonpositiveTime time_parameter)
  end.

(** ** The processor *)

Inductive WeiChangeDirection := Addition | Subtraction.

Record WeiChange := mkWeiChange { amount_to_change : Z; direction : WeiChangeDirection }.

(** [checked_conversion::<u128, i128>] *)
Definition checked_conversion_i128 (amount : Z) : exec Z :=
  if bool_decide (in_i 128 amount) then Ret amount else Panic.

Definition wei_change_bytes (wc : WeiChange) : exec (Z * Z) :=
  let* amount := checked_conversion_i128 (amount_to_change wc) in
  let oriented_amount := match direction wc with Addition => amount | Subtraction => - amount end in
  deconstruct oriented_amount.

(** [i64] addition in Rust. *)
Definition add_i64 (a b : Z) : exec Z := if bool_decide (in_i 64 (a + b)) then Ret (a + b) else Panic.

(** Addition of two integers into a strict INT column. *)
Definition sql_add (a b : Z) : option Z := if bool_decide (in_i 64 (a + b)) then Some (a + b) else None.

Definition correct_bytes (former_high former_low change_high change_low : Z) : exec (Z * Z) :=
  let* h := add_i64 former_high change_high in
  let* high_correction := add_i64 h 1 in
  let low_correction := wrap_i 64 (Z.land (former_low + change_low) 0x7FFFFFFFFFFFFFFF) in
  Ret (high_correction, low_correction).

(** The main statement: an upsert ("insert .. on conflict .. do update set
    balance = balance + :change") or a plain update. *)
Inductive Command := Upsert | Update.

Inductive BigIntDatabaseError := RowChangeMismatch (row_key : string) (detected_count_changed : nat).

Abbreviation Table := (gmap string (Z * Z)).

Definition execute (cmd : Command) (table : Table) (key : string) (change : WeiChange)
    : fallible Table BigIntDatabaseError :=
  let* hl := wei_change_bytes change in
  let '(high, low) := hl in
  match table !! key with
  | None =>
      match cmd with
      | Upsert => Ret (Ok (<[key := (high, low)]> table))
      | Update => Ret (Err (RowChangeMismatch key 0))
      end
  | Some (former_high, former_low) =>
      match sql_add former_high high, sql_add former_low low with
      | Some h, Some l => Ret (Ok (<[key := (h, l)]> table))
      | _, _ =>
          let* hl := correct_bytes former_high former_low high low in
          Ret (Ok (<[key := hl]> table))
      end
  end.

(** ** Lemmas *)

(** A stored pair: the low column is never negative. *)
Definition row_ok (r : Z * Z) : Prop := in_i 64 (fst r) ∧ 0 ≤ snd r < 2 ^ 63.
Definition row_value (r : Z * Z) : Z := fst r * 2 ^ 63 + snd r.

Lemma in_i_127 z : in_i 127 z ↔ - 2 ^ 126 ≤ z < 2 ^ 126.
Proof. done. Qed.

Lemma split_63 num :
  num = (num / 2 ^ 63) * 2 ^ 63 + num mod 2 ^ 63 ∧ 0 ≤ num mod 2 ^ 63 < 2 ^ 63.
Proof.
  pose proof (Z.div_mod num (2 ^ 63) ltac:(lia)). pose proof (Z.mod_pos_bound num (2 ^ 63)).
  lia.
Qed.

Lemma top_bits num : in_i 128 num →
  Z.land (Z.shiftr num 126) 3 =
    if bool_decide (num < - 2 ^ 126) then 2
    else if bool_decide (num < 0) then 3
    else if bool_decide (num < 2 ^ 126) then 0 else 1.
Proof.
  intros [H1 H2]. change (2 ^ (128 - 1)) with (2 * 2 ^ 126) in *.
  change 3 with (Z.ones 2). rewrite Z.land_ones, Z.shiftr_div_pow2 by lia.
  set (P := 2 ^ 126) in *. assert (0 < P) by done.
  assert (∀ q, q * P ≤ num < (q + 1) * P → num / P = q) as Hq.
  { intros q Hq. symmetry. apply (Z.div_unique num P q (num - q * P)); lia. }
  repeat case_bool_decide.
  - by rewrite (Hq (-2)) by lia.
  - by rewrite (Hq (-1)) by lia.
  - by rewrite (Hq 0) by lia.
  - by rewrite (Hq 1) by lia.
Qed.

Lemma deconstruct_range_check_spec num : in_i 128 num →
  deconstruct_range_check num = if bool_decide (in_i 127 num) then Ret () else Panic.
Proof.
  intros Hn. unfold deconstruct_range_check. rewrite top_bits by done.
  destruct Hn. unfold in_i in *. change (127 - 1) with 126. change (128 - 1) with 127 in *.
  assert (2 ^ 127 = 2 * 2 ^ 126) by done.
  repeat case_bool_decide; simpl; try done; lia.
Qed.

Lemma in_i_shift num : in_i 127 num → in_i 64 (num / 2 ^ 63).
Proof.
  rewrite in_i_127. unfold in_i. change (64 - 1) with 63. intros.
  change (2 ^ 126) with (2 ^ 63 * 2 ^ 63) in *.
  split; [apply Z.div_le_lower_bound; lia|apply Z.div_lt_upper_bound; lia].
Qed.

Lemma low_bits z : wrap_i 64 (Z.land z 0x7FFFFFFFFFFFFFFF) = z mod 2 ^ 63.
Proof.
  change 0x7FFFFFFFFFFFFFFF with (Z.ones 63). rewrite Z.land_ones by lia.
  pose proof (Z.mod_pos_bound z (2 ^ 63) ltac:(lia)).
  apply wrap_i_small; [lia|]. unfold in_i. change (64 - 1) with 63. lia.
Qed.

Lemma deconstruct_Ret num : in_i 127 num → deconstruct num = Ret (num / 2 ^ 63, num mod 2 ^ 63).
Proof.
  intros Hn. unfold deconstruct, deconstruct_high_bytes, deconstruct_low_bytes.
  rewrite deconstruct_range_check_spec, bool_decide_eq_true_2, low_bits; [|done|].
  - cbn [exec_bind]. rewrite Z.shiftr_div_pow2, wrap_i_small by (lia || by apply in_i_shift).
    done.
  - rewrite in_i_127 in Hn. unfold in_i. change (2 ^ (128 - 1)) with (2 * 2 ^ 126). lia.
Qed.

Lemma deconstruct_row num : in_i 127 num →
  row_ok (num / 2 ^ 63, num mod 2 ^ 63) ∧ row_value (num / 2 ^ 63, num mod 2 ^ 63) = num.
Proof.
  intros Hn. unfold row_ok, row_value. cbn [fst snd]. pose proof (split_63 num).
  split; [split; [by apply in_i_shift|lia]|lia].
Qed.

Lemma reconstitute_row r : row_ok r → reconstitute (fst r) (snd r) = Ret (row_value r).
Proof.
  destruct r as [h l]. intros [Hh Hl]. cbn [fst snd] in *.
  unfold reconstitute, forbidden_low_bytes_negativity_check, row_value. cbn [fst snd].
  rewrite (proj2 (Z.ltb_ge _ _)) by lia. cbn [exec_bind]. f_equal.
  rewrite wrap_i_small; [|lia|].
  - rewrite Z.lor_comm, lor_low_high; [lia|lia|done].
  - rewrite Z.shiftl_mul_pow2 by lia. unfold in_i in *.
    change (2 ^ (64 - 1)) with (2 ^ 63) in Hh. change (2 ^ (128 - 1)) with (2 * (2 ^ 63 * 2 ^ 63)).
    nia.
Qed.

Lemma row_value_range r : row_ok r → in_i 127 (row_value r).
Proof.
  destruct r as [h l]. unfold row_ok, row_value, in_i. cbn [fst snd].
  change (64 - 1) with 63. change (127 - 1) with 126.
  change (2 ^ 126) with (2 ^ 63 * 2 ^ 63). lia.
Qed.

Lemma row_determined r : row_ok r → r = (row_value r / 2 ^ 63, row_value r mod 2 ^ 63).
Proof.
  destruct r as [h l]. intros [_ Hl]. unfold row_value. cbn [fst snd] in *. f_equal.
  - rewrite Z.div_add_l, Z.div_small; lia.
  - rewrite Z.add_comm, Z.mod_add, Z.mod_small; lia.
Qed.

(** SQL orders rows by the high column, then the low one. *)
Definition row_lt (r s : Z * Z) : Prop := fst r < fst s ∨ fst r = fst s ∧ snd r < snd s.

Lemma row_lt_value r s : row_ok r → row_ok s → row_lt r s ↔ row_value r < row_value s.
Proof.
  destruct r as [h l], s as [h' l']. unfold row_ok, row_lt, row_value. cbn [fst snd].
  intros [_ ?] [_ ?]. nia.
Qed.

(** *** The processor *)

Definition oriented (wc : WeiChange) : Z :=
  match direction wc with Addition => amount_to_change wc | Subtraction => - amount_to_change wc end.

Definition small (z : Z) : Prop := - 2 ^ 125 ≤ z < 2 ^ 125.

Lemma small_127 z : small z → in_i 127 z.
Proof. unfold small. rewrite in_i_127. change (2 ^ 126) with (2 * 2 ^ 125). lia. Qed.

Lemma wei_change_bytes_Ret wc :
  0 ≤ amount_to_change wc → small (oriented wc) →
  wei_change_bytes wc = Ret (oriented wc / 2 ^ 63, oriented wc mod 2 ^ 63).
Proof.
  intros Hpos Hs. unfold wei_change_bytes, checked_conversion_i128.
  rewrite bool_decide_eq_true_2.
  - cbn [exec_bind]. rewrite <- deconstruct_Ret by by apply small_127. done.
  - unfold in_i. change (2 ^ (128 - 1)) with (4 * 2 ^ 125). unfold small, oriented in Hs.
    destruct (direction wc); lia.
Qed.

Lemma small_high z : small z → - 2 ^ 62 ≤ z / 2 ^ 63 < 2 ^ 62.
Proof.
  unfold small. intros. change (2 ^ 125) with (2 ^ 63 * 2 ^ 62) in *.
  split; [apply Z.div_le_lower_bound; lia|apply Z.div_lt_upper_bound; lia].
Qed.

(** Adding to a row: in SQL when the low columns do not carry, by the repair
    when they do. *)
Lemma add_rows h l h' l' :
  - 2 ^ 62 ≤ h < 2 ^ 62 → - 2 ^ 62 ≤ h' < 2 ^ 62 → 0 ≤ l < 2 ^ 63 → 0 ≤ l' < 2 ^ 63 →
  ∃ r, (match sql_add h h', sql_add l l' with
        | Some a, Some b => Ret (a, b)
        | _, _ => correct_bytes h l h' l'
        end) = Ret r ∧ row_ok r ∧ row_value r = row_value (h, l) + row_value (h', l').
Proof.
  intros Hh Hh' Hl Hl'. unfold sql_add, correct_bytes, add_i64, row_ok, row_value, in_i.
  change (64 - 1) with 63. change (2 ^ 63) with (2 * 2 ^ 62) in *. set (P := 2 ^ 62) in *.
  rewrite (bool_decide_eq_true_2 (- (2 * P) ≤ h + h' < 2 * P)) by lia. cbn [exec_bind].
  case_bool_decide as Hc.
  - eexists; split; [done|]. cbn [fst snd]. lia.
  - rewrite (bool_decide_eq_true_2 (- (2 * P) ≤ h + h' + 1 < 2 * P)) by lia. cbn [exec_bind].
    eexists; split; [done|]. cbn [fst snd]. rewrite low_bits. change (2 ^ 63) with (2 * P).
    assert ((l + l') mod (2 * P) = l + l' - 2 * P) as ->.
    { symmetry. apply (Z.mod_unique (l + l') (2 * P) 1); lia. }
    lia.
Qed.

(** The balances a table stands for. *)
Definition balances (t : Table) : gmap string Z := row_value <$> t.
Definition table_ok (t : Table) : Prop := map_Forall (fun _ r => row_ok r) t.

(** What the statement means on balances. *)
Definition spec_execute (cmd : Command) (b : gmap string Z) (key : string) (wc : WeiChange)
    : result (gmap string Z) BigIntDatabaseError :=
  match b !! key, cmd with
  | Some v, _ => Ok (<[key := v + oriented wc]> b)
  | None, Upsert => Ok (<[key := oriented wc]> b)
  | None, Update => Err (RowChangeMismatch key 0)
  end.

Lemma execute_simulates cmd t key wc :
  table_ok t → 0 ≤ amount_to_change wc → small (oriented wc) →
  (∀ v, balances t !! key = Some v → small v) →
  match spec_execute cmd (balances t) key wc with
  | Ok b => ∃ t', execute cmd t key wc = Ret (Ok t') ∧ table_ok t' ∧ balances t' = b
  | Err e => execute cmd t key wc = Ret (Err e)
  end.
Proof.
  intros Ht Hpos Hs Hrow. unfold execute, spec_execute.
  rewrite wei_change_bytes_Ret by done. cbn [exec_bind].
  destruct (deconstruct_row (oriented wc) (small_127 _ Hs)) as [Hok Hval].
  unfold balances in *. rewrite lookup_fmap in *.
  destruct (t !! key) as [[h l]|] eqn:Hk; cbn [fmap option_fmap option_map] in *.
  - specialize (Hrow _ eq_refl). pose proof (Ht _ _ Hk) as Hrok.
    pose proof (row_determined _ Hrok) as Hdet. destruct Hrok as [_ Hl]. cbn [snd] in Hl.
    assert (- 2 ^ 62 ≤ h < 2 ^ 62) as Hh.
    { replace h with (row_value (h, l) / 2 ^ 63) by by injection Hdet. by apply small_high. }
    destruct (add_rows h l (oriented wc / 2 ^ 63) (oriented wc mod 2 ^ 63)) as (r & Hr & Hrok & Hrv);
      [done|by apply small_high|done|apply Hok|].
    exists (<[key := r]> t). split_and!.
    + destruct (sql_add h _); [destruct (sql_add l _)|]; [by injection Hr as <-|by rewrite Hr..].
    + by apply map_Forall_insert_2.
    + rewrite fmap_insert. f_equal. rewrite Hrv, Hval. done.
  - destruct cmd; [|done]. eexists; split; [done|]. split; [by apply map_Forall_insert_2|].
    rewrite fmap_insert. by f_equal.
Qed.

(** A sequence of changes, as the accountant records them. *)
Fixpoint execute_all (t : Table) (ops : list (Command * string * WeiChange))
    : fallible Table BigIntDatabaseError :=
  match ops with
  | [] => Ret (Ok t)
  | (cmd, key, wc) :: ops =>
      let! t' := execute cmd t key wc in execute_all t' ops
  end.

Fixpoint spec_execute_all (b : gmap string Z) (ops : list (Command * string * WeiChange))
    : result (gmap string Z) BigIntDatabaseError :=
  match ops with
  | [] => Ok b
  | (cmd, key, wc) :: ops => let? b' := spec_execute cmd b key wc in spec_execute_all b' ops
  end.

(** Every balance and change the run meets is below 2^125 wei. *)
Fixpoint stays_small (b : gmap string Z) (ops : list (Command * string * WeiChange)) : Prop :=
  match ops with
  | [] => True
  | (cmd, key, wc) :: ops =>
      0 ≤ amount_to_change wc ∧ small (oriented wc) ∧
      match b !! key with Some v => small v | None => True end ∧
      match spec_execute cmd b key wc with Ok b' => stays_small b' ops | Err _ => True end
  end.

Global Instance stays_small_dec b ops : Decision (stays_small b ops).
Proof.
  revert b. induction ops as [|[[cmd key] wc] ops IH]; intros b; cbn [stays_small]; [apply _|].
  repeat apply and_dec; try (unfold small; apply _).
  - destruct (b !! key); unfold small; apply _.
  - destruct (spec_execute cmd b key wc); apply _.
Defined.

(** ** Properties *)

(** A number in the storable range splits into two columns and is
    recovered from them; the split is total exactly on [-2^126, 2^126) among
    the [i128] values (it panics elsewhere), and every pair a row may hold is
    the split of the number it stands for. *)
Theorem divider_roundtrip num r :
  in_i 128 num → row_ok r →
  (if bool_decide (in_i 127 num)
   then ∃ s, deconstruct num = Ret s ∧ row_ok s ∧ reconstitute (fst s) (snd s) = Ret num
   else deconstruct num = Panic) ∧
  reconstitute (fst r) (snd r) = Ret (row_value r) ∧ deconstruct (row_value r) = Ret r.
Proof.
  intros Hn Hr. split_and!.
  - case_bool_decide as H127.
    + destruct (deconstruct_row num H127) as [Hok Hval]. eexists; split; [by apply deconstruct_Ret|].
      split; [done|]. rewrite reconstitute_row by done. by rewrite Hval.
    + unfold deconstruct, deconstruct_high_bytes.
      by rewrite deconstruct_range_check_spec, bool_decide_eq_false_2.
  - by apply reconstitute_row.
  - rewrite deconstruct_Ret by by apply row_value_range. f_equal. symmetry.
    by apply row_determined.
Qed.

(** [C27] Any sequence of upserts and updates on the two-column table follows
    the sequence on whole balances, errors included, as long as balances and
    changes stay below 2^125 wei in absolute value: carries between the columns
    are repaired and the row keeps its form. *)
Theorem balance_table_refines ops t :
  table_ok t → stays_small (balances t) ops →
  match spec_execute_all (balances t) ops with
  | Ok b => ∃ t', execute_all t ops = Ret (Ok t') ∧ table_ok t' ∧ balances t' = b
  | Err e => execute_all t ops = Ret (Err e)
  end.
Proof.
  revert t. induction ops as [|[[cmd key] wc] ops IH]; intros t Ht Hsm.
  - cbn. by exists t.
  - cbn [stays_small spec_execute_all execute_all] in *. destruct Hsm as (Hpos & Hs & Hrow & Hrest).
    assert (∀ v, balances t !! key = Some v → small v) as Hrow' by (intros v Hv; by rewrite Hv in Hrow).
    pose proof (execute_simulates cmd t key wc Ht Hpos Hs Hrow') as Hstep.
    destruct (spec_execute cmd (balances t) key wc) as [b|e].
    + destruct Hstep as (t' & -> & Ht' & <-). cbn [result_bind try_bind]. by apply IH.
    + by rewrite Hstep.
Qed.

(** Comparing split balances by the high column and then the low one, as
    the SQL range queries do, compares the balances. *)
Theorem split_order x y r s :
  in_i 127 x → in_i 127 y → deconstruct x = Ret r → deconstruct y = Ret s →
  row_lt r s ↔ x < y.
Proof.
  intros Hx Hy. rewrite !deconstruct_Ret by done. intros [= <-] [= <-].
  destruct (deconstruct_row x Hx) as [Hrx Hvx], (deconstruct_row y Hy) as [Hry Hvy].
  rewrite row_lt_value by done. by rewrite Hvx, Hvy.
Qed.

Lemma divider_roundtrip_witness :
  deconstruct (- 2 ^ 126) = Ret (- 2 ^ 63, 0) ∧ deconstruct (2 ^ 126) = Panic ∧
  reconstitute (-1) 5 = Ret (5 - 2 ^ 63) ∧ deconstruct (row_value (-1, 5)) = Ret (-1, 5).
Proof.
  assert (row_ok (-1, 5)) as Hr by (split; split; cbn; lia).
  assert (in_i 128 (2 ^ 126)) as Hn by (split; vm_compute; done).
  destruct (divider_roundtrip (2 ^ 126) (-1, 5) Hn Hr) as (Hp & _ & Hd).
  split; [by vm_compute|]. split; [exact Hp|]. split; [by vm_compute|exact Hd].
Defined.

Definition sample_ops : list (Command * string * WeiChange) :=
  [(Upsert, "a"%string, mkWeiChange (2 ^ 63 - 1) Addition);
   (Upsert, "a"%string, mkWeiChange 5 Addition);
   (Update, "a"%string, mkWeiChange (2 ^ 70) Subtraction);
   (Update, "b"%string, mkWeiChange 1 Addition)].

Lemma balance_table_refines_witness :
  execute_all ∅ sample_ops = Ret (Err (RowChangeMismatch "b" 0)) ∧
  ∃ t', execute_all ∅ (take 3 sample_ops) = Ret (Ok t') ∧ table_ok t' ∧
    balances t' = {["a"%string := 2 ^ 63 + 4 - 2 ^ 70]}.
Proof.
  assert (table_ok ∅) as H0 by apply map_Forall_empty.
  split.
  - apply (balance_table_refines sample_ops ∅ H0).
    apply (bool_decide_unpack _). by vm_compute.
  - apply (balance_table_refines (take 3 sample_ops) ∅ H0).
    apply (bool_decide_unpack _). by vm_compute.
Defined.

Lemma split_order_witness : row_lt (-1, 9) (0, 3) ↔ 9 - 2 ^ 63 < 3.
Proof. by apply split_order; vm_compute. Defined.
