(* ===== verification/Route.v ===== *)
(** * Route: onion routes through the network

    [sub_lib/route.rs] and [sub_lib/hop.rs]: a route is a list of hops, each
    encrypted to the node that will read it; a node takes the first hop off the
    route, learns the key of the next node (or that it is the last) and the
    component to deliver to, and appends garbage so that the route keeps its
    length.  [encodex] and [decodex] are of [sub_lib/cryptde.rs].

    Encryption goes through the [CryptDE] record; every encryption and every
    padding takes the random bytes it draws from a stream indexed by position. *)

From stdpp Require Import base list numbers option strings sets countable.
From Stdlib Require Import ZArith Lia.
From S2P Require Import Prelude Text CryptDE Wallet ServiceReceipt.

Local Open Scope Z_scope.
Local Open Scope rust_scope.
Local Open Scope list_scope.

Inductive Component := Neighborhood | Hopper | ProxyServer | ProxyClient.
Global Instance Component_eq_dec : EqDecision Component.
Proof. solve_decision. Defined.

Record LiveHop := mkHop {
  hop_public_key : PublicKey;
  payer : option Payer;
  routing_receipt_request_opt : option ReceiptSessionRequest;
  component : Component;
}.

Inductive RouteError :=
| HopDecodeProblem (message : string)
| EmptyRoute
| TooFewKeysInRouteSegment
| DisjointRouteSegments.

Inductive CodexError :=
| SerializationError (message : string)
| DeserializationError (message : string)
| EncryptionError (error : CryptdecError)
| DecryptionError (error : CryptdecError)
| RoutingError (error : RouteError).

(** [serde_cbor] at the type of hops.  A payer's wallet is an address, so
    nothing is lost on the wire. *)
Definition payer_on_wire (p : Payer) : Prop := ∃ a, payer_wallet p = WAddress a.
Definition hop_on_wire (h : LiveHop) : Prop :=
  match payer h with Some p => payer_on_wire p | None => True end.

Class HopCbor := {
  cbor_hop : LiveHop → result (list Z) string;
  uncbor_hop : list Z → result LiveHop string;
}.

Class HopCborLaws (H : HopCbor) : Prop := {
  cbor_hop_total h : hop_on_wire h → ∃ bs, cbor_hop h = Ok bs;
  cbor_hop_roundtrip h bs :
    hop_on_wire h → cbor_hop h = Ok bs → bs ≠ [] ∧ uncbor_hop bs = Ok h;
}.

Record Route := mkRoute { hops : list CryptData }.
Record RouteSegment := mkSegment { keys : list PublicKey; recipient : Component }.

(** [iter().tuple_windows()] *)
Fixpoint tuple_windows {A} (l : list A) : list (A * A) :=
  match l with
  | a :: ((b :: _) as rest) => (a, b) :: tuple_windows rest
  | _ => []
  end.

(** [iter.map(f).collect()] for an [f] that may panic. *)
Fixpoint exec_map {A B} (f : A → exec B) (l : list A) : exec (list B) :=
  match l with
  | [] => Ret []
  | a :: l => let* b := f a in let* bs := exec_map f l in Ret (b :: bs)
  end.

Section Route.
Context `{E : Ethsign} `{H : HopCbor}.

Definition hop_new (key : PublicKey) (payer : option Payer) (component : Component) : LiveHop :=
  mkHop key payer None component.

Definition with_routing_receipt_request (h : LiveHop) (request : option ReceiptSessionRequest)
    : LiveHop :=
  mkHop (hop_public_key h) (payer h) request (component h).

Definition encodex {T} (to_vec : T → result (list Z) string) (cryptde : CryptDE) (rand : list Z)
    (pk : PublicKey) (item : T) : fallible CryptData CodexError :=
  let! serialized := Ret (map_err SerializationError (to_vec item)) in
  map_err_fallible EncryptionError (encode cryptde rand pk serialized).

Definition decodex {T} (from_slice : list Z → result T string) (cryptde : CryptDE)
    (data : CryptData) : fallible T CodexError :=
  let! decrypted := map_err_fallible DecryptionError (decode cryptde data) in
  Ret (map_err DeserializationError (from_slice decrypted)).

Definition hop_encode (h : LiveHop) (pk : PublicKey) (cryptde : CryptDE) (rand : list Z)
    : fallible CryptData CodexError := encodex cbor_hop cryptde rand pk h.

Definition hop_decode (cryptde : CryptDE) (data : CryptData) : fallible LiveHop CodexError :=
  decodex uncbor_hop cryptde data.

Definition payer_owns_secret_key (h : LiveHop) (digest : list Z) : exec bool :=
  match payer h with Some p => owns_secret_key p digest | None => Ret false end.

(** ** Building a route *)

(** [consuming_wallet.map(|w| w.as_payer(key, contract_or_zero))] *)
Definition payer_for (wallet : option WalletKind) (contract : option Address) (key : PublicKey)
    : exec (option Payer) :=
  match wallet with
  | None => Ret None
  | Some w => let* p := as_payer w key (default zero_address contract) in Ret (Some p)
  end.

Definition over_segment (one_way : bool) (wallet : option WalletKind) (over_keys : list PublicKey)
    (over_component : Component) (contract : option Address)
    (request : option ReceiptSessionRequest) : exec (list LiveHop) :=
  let* hops := exec_map (fun kk =>
    let* p := payer_for wallet contract (fst kk) in
    Ret (with_routing_receipt_request (hop_new (snd kk) p Hopper) request))
    (tuple_windows over_keys) in
  if one_way then
    match list.last (tuple_windows over_keys) with
    | Some (_, last_hop_key) =>
        let* p := payer_for wallet contract last_hop_key in
        Ret (hops ++ [with_routing_receipt_request (hop_new [] p over_component) request])
    | None => Ret (hops ++ [hop_new [] None over_component])
    end
  else Ret hops.

(** [enumerate()] over the windows: the first delivers to [over_component]. *)
Fixpoint back_windows (index : nat) (wallet : option WalletKind)
    (windows : list (PublicKey * PublicKey)) (over_component : Component)
    (contract : option Address) (request : option ReceiptSessionRequest) : exec (list LiveHop) :=
  match windows with
  | [] => Ret []
  | (current_key, next_key) :: windows =>
      let component := if (index =? 0)%nat then over_component else Hopper in
      let* p := payer_for wallet contract current_key in
      let* rest := back_windows (S index) wallet windows over_component contract request in
      Ret (with_routing_receipt_request (hop_new next_key p component) request :: rest)
  end.

Definition back_segment (back : option RouteSegment) (wallet : option WalletKind)
    (over_component : Component) (hops : list LiveHop) (contract : option Address)
    (request : option ReceiptSessionRequest) : exec (list LiveHop) :=
  match back with
  | None => Ret hops
  | Some back =>
      let* windows := back_windows 0 wallet (tuple_windows (keys back)) over_component
                        contract request in
      match list.last (keys back) with
      | Some current_key =>
          let* p := payer_for wallet contract current_key in
          Ret (hops ++ windows ++
               [with_routing_receipt_request (hop_new [] p (recipient back)) request])
      | None => Ret (hops ++ windows ++ [hop_new [] None (recipient back)])
      end
  end.

Definition validate_route_segments (over : RouteSegment) (back : option RouteSegment)
    : option RouteError :=
  match list.last (keys over) with
  | None => Some TooFewKeysInRouteSegment
  | Some over_segment_last_key =>
      match back with
      | None => None
      | Some b =>
          match keys b with
          | [] => Some TooFewKeysInRouteSegment
          | back_segment_first_key :: _ =>
              if negb (bool_decide (back_segment_first_key = over_segment_last_key))
              then Some DisjointRouteSegments else None
          end
      end
  end.

Fixpoint encode_hops (data_hops : list LiveHop) (hop_key : PublicKey) (cryptde : CryptDE)
    (rand : nat → list Z) : fallible (list CryptData) CodexError :=
  match data_hops with
  | [] => Ret (Ok [])
  | data_hop :: data_hops =>
      let! crypt_data := hop_encode data_hop hop_key cryptde (rand 0%nat) in
      let! rest := encode_hops data_hops (hop_public_key data_hop) cryptde (fun n => rand (S n)) in
      Ret (Ok (crypt_data :: rest))
  end.

Definition hops_to_route (data_hops : list LiveHop) (top_hop_key : PublicKey) (cryptde : CryptDE)
    (rand : nat → list Z) : fallible Route CodexError :=
  let! hops_enc := encode_hops data_hops top_hop_key cryptde rand in
  Ret (Ok (mkRoute hops_enc)).

(** The hops of a route before encryption. *)
Definition plain_hops (over : RouteSegment) (back : option RouteSegment)
    (wallet : option WalletKind) (contract : option Address)
    (request : option ReceiptSessionRequest) : exec (list LiveHop) :=
  let one_way := match back with None => true | Some _ => false end in
  let* hops := over_segment one_way wallet (keys over) (recipient over) contract request in
  back_segment back wallet (recipient over) hops contract request.

Definition construct (over : RouteSegment) (back : option RouteSegment) (cryptde : CryptDE)
    (wallet : option WalletKind) (contract : option Address)
    (request : option ReceiptSessionRequest) (rand : nat → list Z)
    : fallible Route CodexError :=
  match validate_route_segments over back with
  | Some error => Ret (Err (RoutingError error))
  | None =>
      let* data_hops := plain_hops over back wallet contract request in
      let* top_key := expect (keys over !! 0%nat) in
      hops_to_route data_hops top_key cryptde rand
  end.

Definition single_hop (destination : PublicKey) (cryptde : CryptDE) (rand : nat → list Z)
    : fallible Route CodexError :=
  construct (mkSegment [public_key cryptde; destination] Neighborhood) None cryptde
    None None None rand.

Definition one_way (over : RouteSegment) (cryptde : CryptDE) (wallet : option WalletKind)
    (contract : option Address) (rand : nat → list Z) : fallible Route CodexError :=
  construct over None cryptde wallet contract None rand.

Definition round_trip (over back : RouteSegment) (cryptde : CryptDE)
    (wallet : option WalletKind) (contract : option Address) (rand : nat → list Z)
    : fallible Route CodexError :=
  construct over (Some back) cryptde wallet contract None rand.

Definition round_trip_with_receipts (over back : RouteSegment) (cryptde : CryptDE)
    (wallet : option WalletKind) (contract : option Address)
    (request : option ReceiptSessionRequest) (rand : nat → list Z) : fallible Route CodexError :=
  construct over (Some back) cryptde wallet contract request rand.

(** ** Following a route *)

Definition next_hop (self : Route) (cryptde : CryptDE) : fallible LiveHop CodexError :=
  match hops self with
  | [] => Ret (Err (RoutingError EmptyRoute))
  | first :: _ => hop_decode cryptde first
  end.

(** The result and the route left behind: a hop that cannot be decoded is
    removed all the same. *)
Definition shift (self : Route) (cryptde : CryptDE) (rand : list Z)
    : exec (result LiveHop CodexError * Route) :=
  match hops self with
  | [] => Ret (Err (RoutingError EmptyRoute), self)
  | top_hop :: rest =>
      let* r := hop_decode cryptde top_hop in
      match r with
      | Err e => Ret (Err e, mkRoute rest)
      | Ok next_hop =>
          let garbage_can := random cryptde rand (length top_hop) in
          Ret (Ok next_hop, mkRoute (rest ++ [garbage_can]))
      end
  end.

(** The nodes of a route take their hops off it one after the other. *)
Fixpoint walk (r : Route) (nodes : list CryptDE) (rand : nat → list Z)
    : fallible (list LiveHop * Route) CodexError :=
  match nodes with
  | [] => Ret (Ok ([], r))
  | c :: nodes =>
      let* s := shift r c (rand 0%nat) in
      match fst s with
      | Err e => Ret (Err e)
      | Ok h =>
          let! rest := walk (snd s) nodes (fun n => rand (S n)) in
          Ret (Ok (h :: fst rest, snd rest))
      end
  end.

(** ** The itinerary of a route

    What a route is for: which node reads a hop, which node it sends the
    package to, and the component the package is delivered to there. *)

Record Leg := mkLeg { reader : PublicKey; next : PublicKey; target : Component }.

Definition legs_over (ks : list PublicKey) : list Leg :=
  map (fun kk => mkLeg (fst kk) (snd kk) Hopper) (tuple_windows ks).

Definition legs_back (ks : list PublicKey) (over_component : Component) : list Leg :=
  match tuple_windows ks with
  | [] => []
  | (a, b) :: ws => mkLeg a b over_component :: map (fun kk => mkLeg (fst kk) (snd kk) Hopper) ws
  end.

Definition itinerary (over : RouteSegment) (back : option RouteSegment) : list Leg :=
  match back with
  | None => legs_over (keys over) ++ [mkLeg (default [] (list.last (keys over))) [] (recipient over)]
  | Some b =>
      legs_over (keys over) ++ legs_back (keys b) (recipient over) ++
      [mkLeg (default [] (list.last (keys b))) [] (recipient b)]
  end.

(** The hop a leg becomes. *)
Definition leg_hop (wallet : option WalletKind) (contract : option Address)
    (request : option ReceiptSessionRequest) (l : Leg) : exec LiveHop :=
  let* p := payer_for wallet contract (reader l) in
  Ret (with_routing_receipt_request (hop_new (next l) p (target l)) request).

Fixpoint chained (key : PublicKey) (ls : list Leg) : Prop :=
  match ls with
  | [] => True
  | l :: ls => reader l = key ∧ chained (next l) ls
  end.

Fixpoint chain_end (key : PublicKey) (ls : list Leg) : PublicKey :=
  match ls with [] => key | l :: ls => chain_end (next l) ls end.

Lemma chained_app key ls ms :
  chained key (ls ++ ms) ↔ chained key ls ∧ chained (chain_end key ls) ms.
Proof.
  revert key. induction ls as [|l ls IH]; intros key; simpl; [tauto|]. rewrite IH. tauto.
Qed.

Lemma exec_map_app {A B} (f : A → exec B) l m :
  exec_map f (l ++ m) =
  let* bs := exec_map f l in let* cs := exec_map f m in Ret (bs ++ cs).
Proof.
  induction l as [|a l IH]; simpl.
  - by destruct (exec_map f m).
  - destruct (f a); [|done]. simpl. rewrite IH. destruct (exec_map f l); [|done]. simpl.
    by destruct (exec_map f m).
Qed.

Lemma exec_map_map {A B X} (f : B → exec X) (g : A → B) l :
  exec_map f (map g l) = exec_map (fun a => f (g a)) l.
Proof. induction l as [|a l IH]; [done|]. simpl. by rewrite IH. Qed.

Lemma exec_map_ext {A B} (f g : A → exec B) l : (∀ a, f a = g a) → exec_map f l = exec_map g l.
Proof. intros Hfg. induction l as [|a l IH]; [done|]. simpl. by rewrite Hfg, IH. Qed.

Lemma exec_map_Ret {A B} (f : A → exec B) l :
  (∀ a, ∃ b, f a = Ret b) → ∃ bs, exec_map f l = Ret bs.
Proof.
  intros Hf. induction l as [|a l [bs IH]]; [by exists []|]. destruct (Hf a) as [b Hb].
  exists (b :: bs). simpl. by rewrite Hb, IH.
Qed.

Lemma exec_map_Forall2 {A B} (f : A → exec B) l bs :
  exec_map f l = Ret bs → Forall2 (fun a b => f a = Ret b) l bs.
Proof.
  revert bs. induction l as [|a l IH]; intros bs; simpl.
  - intros [= <-]. constructor.
  - intros Hr. rust_inv Hr. subst. constructor; auto.
Qed.

(** *** The code builds its itinerary *)

Section Plain.
Context (wallet : option WalletKind) (contract : option Address).
Context (request : option ReceiptSessionRequest).

Abbreviation leg := (leg_hop wallet contract request).

Lemma back_windows_later i ws oc :
  (0 < i)%nat →
  back_windows i wallet ws oc contract request =
  exec_map leg (map (fun kk => mkLeg (fst kk) (snd kk) Hopper) ws).
Proof.
  revert i. induction ws as [|[a b] ws IH]; intros i Hi; [done|].
  cbn [back_windows map exec_map fst snd]. unfold leg_hop at 1. cbn [reader next target].
  destruct i as [|i]; [lia|]. cbn [Nat.eqb]. rewrite IH by lia.
  by destruct (payer_for wallet contract a).
Qed.

Lemma back_windows_legs ks oc :
  back_windows 0 wallet (tuple_windows ks) oc contract request = exec_map leg (legs_back ks oc).
Proof.
  unfold legs_back. destruct (tuple_windows ks) as [|[a b] ws]; [done|].
  cbn [back_windows exec_map Nat.eqb]. unfold leg_hop at 1. cbn [reader next target].
  rewrite back_windows_later by lia. by destruct (payer_for wallet contract a).
Qed.

Lemma over_hops_legs ks :
  exec_map (fun kk =>
    let* p := payer_for wallet contract (fst kk) in
    Ret (with_routing_receipt_request (hop_new (snd kk) p Hopper) request)) (tuple_windows ks)
  = exec_map leg (legs_over ks).
Proof. unfold legs_over. by rewrite exec_map_map. Qed.

Lemma last_window_key {A} (ks : list A) :
  (2 ≤ length ks)%nat → ∃ a b, list.last (tuple_windows ks) = Some (a, b) ∧ list.last ks = Some b.
Proof.
  induction ks as [|x [|y ks] IH]; simpl; try lia. intros _.
  destruct ks as [|z ks]; [by exists x, y|].
  destruct IH as (a & b & Hw & Hl); [simpl; lia|]. exists a, b.
  change (list.last ((x, y) :: tuple_windows (y :: z :: ks)) = Some (a, b) ∧
    list.last (x :: y :: z :: ks) = Some b).
  split; rewrite last_cons; [by rewrite Hw|by rewrite Hl].
Qed.

(** Both kinds of route, except the degenerate one-way route of one key, which
    carries no payer. *)
Lemma plain_hops_itinerary over back :
  validate_route_segments over back = None →
  (back = None → (2 ≤ length (keys over))%nat) →
  plain_hops over back wallet contract request = exec_map leg (itinerary over back).
Proof.
  intros Hv Hlen. unfold plain_hops, over_segment, back_segment, itinerary.
  rewrite over_hops_legs. destruct back as [b|]; rewrite !exec_map_app.
  - rewrite back_windows_legs.
    destruct (exec_map leg (legs_over (keys over))) as [hs|]; [|done]. cbn [exec_bind].
    destruct (exec_map leg (legs_back _ _)) as [hs'|]; [|done]. cbn [exec_bind].
    unfold validate_route_segments in Hv. destruct (list.last (keys over)); [|done].
    destruct (keys b) as [|k ks] eqn:Hk; [done|].
    destruct (list.last (k :: ks)) as [kl|] eqn:Hl; [|by rewrite last_cons in Hl; destruct (list.last ks)].
    unfold leg_hop. simpl. by destruct (payer_for wallet contract kl).
  - destruct (last_window_key (keys over)) as (a & k & Hw & Hk); [by apply Hlen|].
    rewrite Hw, Hk.
    destruct (exec_map leg (legs_over (keys over))) as [hs|]; [|done]. cbn [exec_bind].
    unfold leg_hop. simpl. by destruct (payer_for wallet contract k).
Qed.

End Plain.

(** *** Legs follow one another *)

Lemma last_some {A} (k : A) ks : ∃ x, list.last (k :: ks) = Some x.
Proof. rewrite last_cons. destruct (list.last ks); eauto. Qed.

Lemma windows_chained k ks :
  chained k (legs_over (k :: ks)) ∧ chain_end k (legs_over (k :: ks)) = default k (list.last (k :: ks)).
Proof.
  revert k. induction ks as [|b ks IH]; intros k; [done|].
  change (legs_over (k :: b :: ks)) with (mkLeg k b Hopper :: legs_over (b :: ks)).
  destruct (IH b) as [Hc He]. cbn [chained chain_end reader next]. split; [done|]. rewrite He.
  destruct (last_some b ks) as [x Hx]. by rewrite (last_cons k), Hx.
Qed.

Lemma legs_back_chained k ks oc :
  chained k (legs_back (k :: ks) oc) ∧
  chain_end k (legs_back (k :: ks) oc) = default k (list.last (k :: ks)).
Proof.
  destruct ks as [|b ks]; [done|].
  change (legs_back (k :: b :: ks) oc) with (mkLeg k b oc :: legs_over (b :: ks)).
  destruct (windows_chained b ks) as [Hc He]. cbn [chained chain_end reader next].
  split; [done|]. destruct (last_some b ks) as [x Hx]. by rewrite He, (last_cons k), Hx.
Qed.

Lemma itinerary_chained over back :
  validate_route_segments over back = None →
  ∃ k, keys over !! 0%nat = Some k ∧ chained k (itinerary over back).
Proof.
  unfold validate_route_segments, itinerary. destruct (keys over) as [|k ks] eqn:Hk; [done|].
  intros Hv. exists k. split; [done|].
  destruct (windows_chained k ks) as [Hc He]. destruct (last_some k ks) as [kl Hl].
  rewrite Hl in *. change (default k (Some kl)) with kl in He.
  change (default [] (Some kl)) with kl.
  destruct back as [b|]; apply chained_app; (split; [done|]); rewrite He; [|done].
  destruct (keys b) as [|k' ks']; [done|]. case_bool_decide as Heq; [|done]. subst k'.
  destruct (legs_back_chained kl ks' (recipient over)) as [Hc' He'].
  apply chained_app. split; [done|]. rewrite He'. cbn. split; [|done].
  destruct (last_some kl ks') as [x Hx]. simpl. by rewrite Hx.
Qed.

(** *** Encryption and the walk *)

(** [c] owns the key and can read what [e] encrypts to it. *)
Definition reads (e c : CryptDE) (key : PublicKey) : Prop := public_key c = key ∧ Decrypts e c.

Section Walk.
Context {HL : HopCborLaws H} (e : CryptDE).

Lemma hop_encode_decodes h c rand :
  hop_on_wire h → Decrypts e c →
  ∃ ct, hop_encode h (public_key c) e rand = Ret (Ok ct) ∧ hop_decode c ct = Ret (Ok h).
Proof.
  intros Hw HD. destruct (cbor_hop_total h Hw) as [bs Hbs].
  destruct (cbor_hop_roundtrip h bs Hw Hbs) as [Hne Hun].
  destruct (encode_decodes rand bs Hne) as (ct & Henc & Hdec). exists ct.
  unfold hop_encode, encodex, hop_decode, decodex. rewrite Hbs. cbn [map_err try_bind].
  rewrite Henc, Hdec. cbn [map_err_fallible map_err try_bind]. by rewrite Hun.
Qed.

Lemma encode_and_walk ls hs key cs rand :
  chained key ls →
  Forall2 (fun l h => hop_public_key h = next l ∧ hop_on_wire h) ls hs →
  Forall2 (fun l c => reads e c (reader l)) ls cs →
  ∃ encs, encode_hops hs key e rand = Ret (Ok encs) ∧ length encs = length hs ∧
    ∀ garbage rand', ∃ garbage',
      walk (mkRoute (encs ++ garbage)) cs rand' = Ret (Ok (hs, mkRoute (garbage ++ garbage'))) ∧
      length garbage' = length hs.
Proof.
  intros Hch Hhs. revert key cs rand Hch.
  induction Hhs as [|l h ls hs [Hnext Hw] Hhs IH]; intros key cs rand Hch Hcs.
  - inversion Hcs; subst. exists []. split; [done|]. split; [done|]. intros garbage rand'. exists [].
    simpl. by rewrite app_nil_r.
  - inversion Hcs as [|? c ? cs' [Hpk HD] Hcs']; subst. destruct Hch as [Hkey Hch].
    destruct (hop_encode_decodes h c (rand 0%nat) Hw HD) as (ct & Henc & Hdec).
    destruct (IH (next l) cs' (fun n => rand (S n)) Hch Hcs') as (encs & Hencs & Hlen & Hwalk).
    exists (ct :: encs). split; [|split; [simpl; by rewrite Hlen|]].
    + cbn [encode_hops]. rewrite <- Hkey, <- Hpk, Henc. cbn [try_bind].
      by rewrite Hnext, Hencs.
    + intros garbage rand'.
      destruct (Hwalk (garbage ++ [random c (rand' 0%nat) (length ct)]) (fun n => rand' (S n)))
        as (g' & Hw' & Hg).
      exists (random c (rand' 0%nat) (length ct) :: g'). split; [|simpl; by rewrite Hg].
      cbn [walk app]. unfold shift. cbn [hops]. rewrite Hdec. cbn [exec_bind fst snd].
      rewrite <- app_assoc, Hw'. cbn [try_bind fst snd]. by rewrite <- app_assoc.
Qed.

End Walk.

(** The wallet can sign for every node, and what it makes is fit for the wire. *)
Definition payer_ready (wallet : option WalletKind) : Prop :=
  match wallet with
  | None => True
  | Some (WSecretKey secret) => ∀ msg, ∃ sig, secret_sign secret msg = Ok sig
  | Some _ => False
  end.

Lemma payer_for_ready wallet contract key :
  payer_ready wallet →
  ∃ p, payer_for wallet contract key = Ret p ∧ match p with Some q => payer_on_wire q | None => True end.
Proof.
  destruct wallet as [[|secret| |]|]; try done; [|by exists None]. intros Hs.
  unfold payer_for, as_payer. simpl. destruct (Hs (create_digest key (default zero_address contract)))
    as [sig Hsig]. rewrite Hsig. simpl. eexists; split; [done|]. by eexists.
Qed.

(** What each reader of a leg sees. *)
Definition hop_serves (wallet : option WalletKind) (contract : option Address)
    (request : option ReceiptSessionRequest) (l : Leg) (h : LiveHop) : Prop :=
  hop_public_key h = next l ∧ component h = target l ∧
  routing_receipt_request_opt h = request ∧
  payer_for wallet contract (reader l) = Ret (payer h).

Lemma leg_hops wallet contract request ls :
  payer_ready wallet →
  ∃ hs, exec_map (leg_hop wallet contract request) ls = Ret hs ∧
    Forall2 (hop_serves wallet contract request) ls hs ∧ Forall hop_on_wire hs.
Proof.
  intros Hw. induction ls as [|l ls (hs & Hr & Hs & Hon)]; [exists []; by split|].
  destruct (payer_for_ready wallet contract (reader l) Hw) as (p & Hp & Hpw).
  exists (mkHop (next l) p request (target l) :: hs).
  cbn [exec_map]. unfold leg_hop at 1. rewrite Hp. cbn [exec_bind]. rewrite Hr.
  split; [done|]. split; constructor; done.
Qed.

Lemma construct_and_walk {HL : HopCborLaws H} e over back wallet contract request nodes rand :
  validate_route_segments over back = None →
  (back = None → (2 ≤ length (keys over))%nat) →
  payer_ready wallet →
  Forall2 (fun l c => reads e c (reader l)) (itinerary over back) nodes →
  ∃ r hs, construct over back e wallet contract request rand = Ret (Ok r) ∧
    Forall2 (hop_serves wallet contract request) (itinerary over back) hs ∧
    ∀ rand', ∃ r', walk r nodes rand' = Ret (Ok (hs, r')) ∧ length (hops r') = length (hops r).
Proof.
  intros Hv Hlen Hw Hnodes.
  destruct (itinerary_chained over back Hv) as (k & Hk & Hch).
  destruct (leg_hops wallet contract request (itinerary over back) Hw) as (hs & Hhs & Hserve & Hon).
  assert (Forall2 (fun l h => hop_public_key h = next l ∧ hop_on_wire h) (itinerary over back) hs)
    as Hfor.
  { clear -Hserve Hon. induction Hserve as [|l h ls hs (Hn & _) Hserve IH]; [constructor|].
    inversion Hon; subst. constructor; auto. }
  destruct (encode_and_walk e (itinerary over back) hs k nodes rand Hch Hfor Hnodes)
    as (encs & Henc & Hl & Hwalk).
  exists (mkRoute encs), hs. split_and!; [|done|].
  - unfold construct. rewrite Hv, plain_hops_itinerary by done. rewrite Hhs. cbn [exec_bind].
    rewrite Hk. cbn [expect exec_bind]. unfold hops_to_route. by rewrite Henc.
  - intros rand'. destruct (Hwalk [] rand') as (g & Hg & Hlg). rewrite app_nil_r in Hg.
    exists (mkRoute g). split; [done|]. simpl. congruence.
Qed.

End Route.

(** ** Properties *)

Section Properties.
Context `{E : Ethsign} `{H : HopCbor} {HL : HopCborLaws H} {EL : EthsignLaws E}.

(** Each node can check that the hop it reads was paid for. *)
Definition hop_paid (wallet : option WalletKind) (contract : option Address) (l : Leg) (h : LiveHop)
    : Prop :=
  match wallet with
  | None => payer h = None
  | Some _ =>
      payer_owns_secret_key h (create_digest (reader l) (default zero_address contract)) = Ret true
  end.

Lemma hop_serves_paid wallet contract request l h :
  hop_serves wallet contract request l h → hop_paid wallet contract l h.
Proof.
  intros (_ & _ & _ & Hp). unfold hop_paid, payer_owns_secret_key. destruct wallet as [w|]; simpl in Hp.
  - apply exec_bind_Ret in Hp as (p & Hp & [= <-]). by eapply as_payer_owns.
  - by injection Hp as <-.
Qed.

(** A round-trip route does what it was asked to do: it is built, and when
    the nodes of its itinerary take their hops off it one after the other, each
    reads exactly its own: the key of the node after it, the component to
    deliver to ([Hopper] on the way, the recipient of the over segment at its
    far end, the recipient of the back segment at the end), the receipt
    request, and a payer whose proof that node can check.  The route keeps its
    number of hops. *)
Theorem round_trip_delivers e over back wallet contract request nodes rand rand' :
  validate_route_segments over (Some back) = None →
  payer_ready wallet →
  Forall2 (fun l c => reads e c (reader l)) (itinerary over (Some back)) nodes →
  ∃ r hs r', round_trip_with_receipts over back e wallet contract request rand = Ret (Ok r) ∧
    walk r nodes rand' = Ret (Ok (hs, r')) ∧
    Forall2 (fun l h => hop_public_key h = next l ∧ component h = target l ∧
      routing_receipt_request_opt h = request ∧ hop_paid wallet contract l h)
      (itinerary over (Some back)) hs ∧
    length (hops r') = length (hops r).
Proof.
  intros Hv Hw Hn.
  destruct (construct_and_walk e over (Some back) wallet contract request nodes rand Hv
    ltac:(done) Hw Hn) as (r & hs & Hc & Hs & Hwalk). destruct (Hwalk rand') as (r' & Hr' & Hl).
  exists r, hs, r'. split_and!; try done.
  eapply Forall2_impl; [|exact Hs]. intros l h Hlh. pose proof (hop_serves_paid _ _ _ _ _ Hlh).
  by destruct Hlh as (? & ? & ? & _).
Qed.

(** The same for one-way routes of two keys or more, such as the
    single-hop routes of gossip: the last node reads an empty key and the
    recipient. *)
Theorem one_way_delivers e over wallet contract nodes rand rand' :
  (2 ≤ length (keys over))%nat → payer_ready wallet →
  Forall2 (fun l c => reads e c (reader l)) (itinerary over None) nodes →
  ∃ r hs r', one_way over e wallet contract rand = Ret (Ok r) ∧
    walk r nodes rand' = Ret (Ok (hs, r')) ∧
    Forall2 (fun l h => hop_public_key h = next l ∧ component h = target l ∧
      hop_paid wallet contract l h) (itinerary over None) hs ∧
    length (hops r') = length (hops r).
Proof.
  intros Hlen Hw Hn.
  assert (validate_route_segments over None = None) as Hv.
  { unfold validate_route_segments. destruct (keys over) as [|k ks]; [simpl in Hlen; lia|].
    by destruct (last_some k ks) as [x ->]. }
  destruct (construct_and_walk e over None wallet contract None nodes rand Hv
    (fun _ => Hlen) Hw Hn) as (r & hs & Hc & Hs & Hwalk). destruct (Hwalk rand') as (r' & Hr' & Hl).
  exists r, hs, r'. split_and!; try done.
  eapply Forall2_impl; [|exact Hs]. intros l h Hlh. pose proof (hop_serves_paid _ _ _ _ _ Hlh).
  by destruct Hlh as (? & ? & _).
Qed.

End Properties.

(** ** A concrete network *)

#[local] Existing Instance sample_ethsign.

(** Hops as nested tuples, for a serializer that loses nothing. *)
Definition wallet_to_sum (w : WalletKind) : list Z + (list Z + (list Z + unit)) :=
  match w with
  | WAddress a => inl a
  | WSecretKey s => inr (inl s)
  | WPublicKey p => inr (inr (inl p))
  | WUninitialized => inr (inr (inr ()))
  end.
Definition wallet_of_sum (s : list Z + (list Z + (list Z + unit))) : WalletKind :=
  match s with
  | inl a => WAddress a
  | inr (inl s) => WSecretKey s
  | inr (inr (inl p)) => WPublicKey p
  | inr (inr (inr _)) => WUninitialized
  end.
#[local] Instance WalletKind_eq_dec : EqDecision WalletKind.
Proof. solve_decision. Defined.
#[local] Instance WalletKind_countable : Countable WalletKind.
Proof. refine (inj_countable' wallet_to_sum wallet_of_sum _). by intros []. Defined.
#[local] Instance Signature_countable : Countable Signature.
Proof.
  refine (inj_countable' (fun s => (sig_v s, sig_r s, sig_s s))
    (fun t => mkSignature (fst (fst t)) (snd (fst t)) (snd t)) _). by intros [].
Defined.
#[local] Instance Payer_eq_dec : EqDecision Payer.
Proof. solve_decision. Defined.
#[local] Instance Payer_countable : Countable Payer.
Proof.
  refine (inj_countable' (fun p => (payer_wallet p, proof p)) (fun t => mkPayer (fst t) (snd t)) _).
  by intros [].
Defined.
#[local] Instance ReceiptSessionPolicy_countable : Countable ReceiptSessionPolicy.
Proof.
  refine (inj_countable' (fun p =>
    ((rsp_protocol_version p, rsp_chain_id p, rsp_settlement_contract p),
     (payer_wallet_address p, rsp_payer_session_public_key p, max_total_charge_wei p),
     (rsp_valid_from_unix_s p, rsp_expires_at_unix_s p, rsp_authorization_nonce p)))
    (fun '((a, b, c), (d, e, f), (g, h, i)) => mkSessionPolicy a b c d e f g h i) _). by intros [].
Defined.
#[local] Instance ReceiptSessionRequest_eq_dec : EqDecision ReceiptSessionRequest.
Proof. solve_decision. Defined.
#[local] Instance ReceiptSessionRequest_countable : Countable ReceiptSessionRequest.
Proof.
  refine (inj_countable' (fun r =>
    (policy (authorization r), wallet_signature (authorization r), rsr_route_epoch r,
     rsr_accounting_commitment r))
    (fun '(p, s, e, c) => mkSessionRequest (mkAuthorizedSession p s) e c) _). by intros [[]].
Defined.
#[local] Instance Component_countable : Countable Component.
Proof.
  refine (inj_countable'
    (fun c => match c with Neighborhood => 0 | Hopper => 1 | ProxyServer => 2 | ProxyClient => 3 end)
    (fun z => if z =? 0 then Neighborhood else if z =? 1 then Hopper
              else if z =? 2 then ProxyServer else ProxyClient) _). by intros [].
Defined.
#[local] Instance LiveHop_eq_dec : EqDecision LiveHop.
Proof. solve_decision. Defined.
#[local] Instance LiveHop_countable : Countable LiveHop.
Proof.
  refine (inj_countable' (fun h =>
    (hop_public_key h, payer h, routing_receipt_request_opt h, component h))
    (fun '(k, p, r, c) => mkHop k p r c) _). by intros [].
Defined.

Definition sample_hop_cbor : HopCbor := {|
  cbor_hop := fun h => Ok [Zpos (countable.encode h)];
  uncbor_hop := fun bs =>
    match bs with
    | [Zpos p] => match countable.decode p with Some h => Ok h | None => Err EmptyString end
    | _ => Err EmptyString
    end
|}.
#[local] Existing Instance sample_hop_cbor.

Lemma sample_hop_cbor_laws : HopCborLaws sample_hop_cbor.
Proof.
  split.
  - intros h _. by eexists.
  - intros h bs _ [= <-]. split; [done|]. simpl. by rewrite decode_encode.
Qed.

Definition sample_over : RouteSegment := mkSegment [[1; 1]; [2; 2]; [3; 3]] ProxyClient.
Definition sample_back : RouteSegment := mkSegment [[3; 3]; [2; 2]; [1; 1]] ProxyServer.
Definition sample_nodes : list CryptDE :=
  map sample_null [[1; 1]; [2; 2]; [3; 3]; [2; 2]; [1; 1]].

Lemma sample_reads k : k ≠ [] → bytes_ok k → reads (sample_null [9]) (sample_null k) k.
Proof. intros. split; [done|]. by apply Null.null_Decrypts. Qed.

Lemma round_trip_delivers_witness :
  ∃ r hs r', round_trip_with_receipts sample_over sample_back (sample_null [9])
      (Some (WSecretKey sample_secret)) None None (fun _ => []) = Ret (Ok r) ∧
    walk r sample_nodes (fun _ => []) = Ret (Ok (hs, r')) ∧
    map (fun h => (hop_public_key h, component h)) hs =
      [([2; 2], Hopper); ([3; 3], Hopper); ([2; 2], ProxyClient); ([1; 1], Hopper);
       ([], ProxyServer)].
Proof.
  destruct (round_trip_delivers (HL := sample_hop_cbor_laws) (EL := sample_ethsign_laws)
    (sample_null [9]) sample_over sample_back (Some (WSecretKey sample_secret)) None None
    sample_nodes (fun _ => []) (fun _ => [])) as (r & hs & r' & Hr & Hw & Hs & _).
  - by vm_compute.
  - intros msg. by eexists.
  - repeat constructor; by apply Null.null_Decrypts; repeat constructor.
  - exists r, hs, r'. split; [exact Hr|]. split; [exact Hw|].
    transitivity (map (fun l => (next l, target l)) (itinerary sample_over (Some sample_back)));
      [|reflexivity].
    clear -Hs. induction Hs as [|l h ls hs (Hn & Ht & _) Hs IH]; [reflexivity|].
    cbn [map]. by rewrite Hn, Ht, IH.
Defined.

Lemma one_way_delivers_witness :
  ∃ r hs r', one_way (mkSegment [[1; 1]; [2; 2]] Neighborhood) (sample_null [9]) None None
      (fun _ => []) = Ret (Ok r) ∧
    walk r (map sample_null [[1; 1]; [2; 2]]) (fun _ => []) = Ret (Ok (hs, r')) ∧
    length (hops r') = length (hops r).
Proof.
  destruct (one_way_delivers (HL := sample_hop_cbor_laws) (EL := sample_ethsign_laws)
    (sample_null [9]) (mkSegment [[1; 1]; [2; 2]] Neighborhood) None None
    (map sample_null [[1; 1]; [2; 2]]) (fun _ => []) (fun _ => []))
    as (r & hs & r' & Hr & Hw & _ & Hl).
  - simpl. lia.
  - exact I.
  - repeat constructor; by apply Null.null_Decrypts; repeat constructor.
  - exists r, hs, r'. exact (conj Hr (conj Hw Hl)).
Defined.
