(* ===== verification/Eip712.v ===== *)
(** * Eip712: the typed data shown to wallets and the digest the node checks

    [ReceiptSessionPolicy::eip712_typed_data] and
    [ProviderSettlementPolicy::eip712_typed_data] of
    [sub_lib/service_receipt.rs] render a policy as the JSON a browser or
    hardware wallet signs; [eip712_digest] computes the digest the node verifies
    by hand.  [typed_data_hash] is the hashing of the EIP-712 standard, read off
    the JSON alone; the theorems say the two agree. *)

From stdpp Require Import base list numbers option strings.
From Stdlib Require Import ZArith Lia.
From S2P Require Import Prelude Text CryptDE Wallet ServiceReceipt.

Local Open Scope Z_scope.
Local Open Scope rust_scope.
Local Open Scope list_scope.

(** [serde_json::Value], without numbers: the code writes them as strings. *)
#[warnings="-register-all"] Inductive Json :=
| JString (s : string)
| JArray (l : list Json)
| JObject (l : list (string * Json)).

(** [format!("{:#x}", address)] and ["0x{}"] of a byte slice *)
Definition hex_text (bs : list Z) : string := ("0x" ++ to_hex bs)%string.

(** [{"name": .., "type": ..}] *)
Definition field (name type : string) : Json :=
  JObject [("name"%string, JString name); ("type"%string, JString type)].

Definition domain_fields : Json := JArray [
  field "name" "string"; field "version" "string";
  field "chainId" "uint256"; field "verifyingContract" "address"].

Definition session_fields : Json := JArray [
  field "protocolVersion" "uint16"; field "payerWallet" "address";
  field "payerSessionPublicKey" "bytes"; field "maxTotalChargeWei" "uint256";
  field "validFromUnixS" "uint64"; field "expiresAtUnixS" "uint64";
  field "authorizationNonce" "bytes32"].

Definition provider_fields : Json := JArray [
  field "protocolVersion" "uint16"; field "payoutWallet" "address";
  field "providerPublicKey" "bytes"; field "validFromUnixS" "uint64";
  field "expiresAtUnixS" "uint64"; field "authorizationNonce" "bytes32"].

Definition session_eip712_typed_data (self : ReceiptSessionPolicy)
    : result Json ServiceReceiptError :=
  let? _ := validate_session_structure self in
  Ok (JObject [
    ("types"%string, JObject [
      ("EIP712Domain"%string, domain_fields);
      ("ReceiptSessionAuthorization"%string, session_fields)]);
    ("primaryType"%string, JString "ReceiptSessionAuthorization");
    ("domain"%string, JObject [
      ("name"%string, JString "MASQ Service Receipt");
      ("version"%string, JString "1");
      ("chainId"%string, JString (dec (rsp_chain_id self)));
      ("verifyingContract"%string, JString (hex_text (rsp_settlement_contract self)))]);
    ("message"%string, JObject [
      ("protocolVersion"%string, JString (dec (rsp_protocol_version self)));
      ("payerWallet"%string, JString (hex_text (payer_wallet_address self)));
      ("payerSessionPublicKey"%string, JString (hex_text (rsp_payer_session_public_key self)));
      ("maxTotalChargeWei"%string, JString (dec (max_total_charge_wei self)));
      ("validFromUnixS"%string, JString (dec (rsp_valid_from_unix_s self)));
      ("expiresAtUnixS"%string, JString (dec (rsp_expires_at_unix_s self)));
      ("authorizationNonce"%string, JString (hex_text (rsp_authorization_nonce self)))])]).

Definition provider_eip712_typed_data (self : ProviderSettlementPolicy)
    : result Json ServiceReceiptError :=
  let? _ := validate_provider_structure self in
  Ok (JObject [
    ("types"%string, JObject [
      ("EIP712Domain"%string, domain_fields);
      ("ProviderSettlementAuthorization"%string, provider_fields)]);
    ("primaryType"%string, JString "ProviderSettlementAuthorization");
    ("domain"%string, JObject [
      ("name"%string, JString "MASQ Provider Settlement");
      ("version"%string, JString "1");
      ("chainId"%string, JString (dec (psp_chain_id self)));
      ("verifyingContract"%string, JString (hex_text (psp_settlement_contract self)))]);
    ("message"%string, JObject [
      ("protocolVersion"%string, JString (dec (psp_protocol_version self)));
      ("payoutWallet"%string, JString (hex_text (payout_wallet_address self)));
      ("providerPublicKey"%string, JString (hex_text (psp_provider_public_key self)));
      ("validFromUnixS"%string, JString (dec (psp_valid_from_unix_s self)));
      ("expiresAtUnixS"%string, JString (dec (psp_expires_at_unix_s self)));
      ("authorizationNonce"%string, JString (hex_text (psp_authorization_nonce self)))])]).

(** ** The hashing of the EIP-712 standard *)

Fixpoint assoc (k : string) (l : list (string * Json)) : option Json :=
  match l with
  | [] => None
  | (k', v) :: l => if bool_decide (k' = k) then Some v else assoc k l
  end.

Definition get (k : string) (j : Json) : option Json :=
  match j with JObject l => assoc k l | _ => None end.
Definition as_string (j : Json) : option string :=
  match j with JString s => Some s | _ => None end.

(** The members of a type: pairs of type and name. *)
Fixpoint members (l : list Json) : option (list (string * string)) :=
  match l with
  | [] => Some []
  | j :: l =>
      match get "type" j ≫= as_string, get "name" j ≫= as_string, members l with
      | Some t, Some n, Some ms => Some ((t, n) :: ms)
      | _, _, _ => None
      end
  end.

Fixpoint member_list (ms : list (string * string)) : string :=
  match ms with
  | [] => EmptyString
  | [(t, n)] => (t ++ " " ++ n)%string
  | (t, n) :: ms => (t ++ " " ++ n ++ "," ++ member_list ms)%string
  end.

(** [encodeType] *)
Definition encode_type (name : string) (ms : list (string * string)) : string :=
  (name ++ "(" ++ member_list ms ++ ")")%string.

Definition parse_hex_text (s : string) : option (list Z) :=
  match s with
  | String a (String b s) =>
      if (char_byte a =? 48) && (char_byte b =? 120) then from_hex s else None
  | _ => None
  end.

Definition uint_bits (t : string) : option Z :=
  if bool_decide (t = "uint16"%string) then Some 16
  else if bool_decide (t = "uint64"%string) then Some 64
  else if bool_decide (t = "uint256"%string) then Some 256
  else None.

Section Hash.
Context `{E : Ethsign}.

(** [encodeData] of one member: a 32-byte word. *)
Definition encode_value (t v : string) : option (list Z) :=
  if bool_decide (t = "string"%string) then Some (keccak256 (string_bytes v))
  else if bool_decide (t = "bytes"%string) then bs ← parse_hex_text v; Some (keccak256 bs)
  else if bool_decide (t = "bytes32"%string) then
    bs ← parse_hex_text v; if (length bs =? 32)%nat then Some bs else None
  else if bool_decide (t = "address"%string) then
    bs ← parse_hex_text v; if (length bs =? 20)%nat then Some (repeat 0 12 ++ bs) else None
  else
    w ← uint_bits t; n ← parse_dec v;
    if bool_decide (in_u w n) then Some (be_bytes 32 n) else None.

Fixpoint encode_members (ms : list (string * string)) (data : Json) : option (list Z) :=
  match ms with
  | [] => Some []
  | (t, n) :: ms =>
      v ← get n data ≫= as_string;
      word ← encode_value t v;
      rest ← encode_members ms data;
      Some (word ++ rest)
  end.

(** [hashStruct] *)
Definition hash_struct (types : Json) (name : string) (data : Json) : option (list Z) :=
  match get name types with
  | Some (JArray fields) =>
      ms ← members fields;
      body ← encode_members ms data;
      Some (keccak256 (keccak256 (string_bytes (encode_type name ms)) ++ body))
  | _ => None
  end.

Definition typed_data_hash (j : Json) : option (list Z) :=
  types ← get "types" j;
  primary ← get "primaryType" j ≫= as_string;
  domain ← get "domain" j;
  message ← get "message" j;
  domain_separator ← hash_struct types "EIP712Domain" domain;
  struct_hash ← hash_struct types primary message;
  Some (keccak256 ([0x19; 0x01] ++ domain_separator ++ struct_hash)).

(** ** Members, read back *)

Lemma parse_hex_text_of bs : bytes_ok bs → parse_hex_text (hex_text bs) = Some bs.
Proof. intros Hb. unfold parse_hex_text, hex_text. cbn. by apply from_hex_to_hex. Qed.

Lemma be_bytes_widen n k v :
  in_u (8 * Z.of_nat n) v → be_bytes (k + n) v = repeat 0 k ++ be_bytes n v.
Proof.
  revert v. induction n as [|n IH]; intros v Hv.
  - unfold in_u in Hv. change (8 * Z.of_nat 0) with 0 in Hv. assert (v = 0) as -> by (simpl in Hv; lia).
    rewrite Nat.add_0_r. cbn [digits]. rewrite app_nil_r. clear Hv.
    induction k as [|k IH]; [done|]. cbn [digits]. change (0 / 2 ^ 8) with 0.
    rewrite IH, Zmod_0_l, <- repeat_cons. done.
  - replace (k + S n)%nat with (S (k + n)) by lia. cbn [digits].
    rewrite IH; [by rewrite app_assoc|].
    apply (in_u_div v 8 (8 * Z.of_nat n)); [lia|lia|].
    replace (8 + 8 * Z.of_nat n) with (8 * Z.of_nat (S n)) by lia. done.
Qed.

Lemma uint_word_be v : in_u 128 v → uint_word v = be_bytes 32 v.
Proof. intros Hv. symmetry. by apply (be_bytes_widen 16 16). Qed.

Lemma encode_uint t w v :
  uint_bits t = Some w → 0 ≤ w → in_u 128 v → in_u w v →
  encode_value t (dec v) = Some (uint_word v).
Proof.
  intros Ht Hw Hv Hvw. unfold encode_value.
  assert (t = "uint16"%string ∨ t = "uint64"%string ∨ t = "uint256"%string) as Hcase.
  { unfold uint_bits in Ht. repeat case_bool_decide; naive_solver. }
  rewrite uint_word_be by done.
  destruct Hcase as [->|[->| ->]]; injection Ht as <-; simpl;
    rewrite parse_dec_dec by done; simpl; by rewrite bool_decide_eq_true_2.
Qed.

Lemma encode_address a :
  bytes_ok a → length a = 20%nat → encode_value "address" (hex_text a) = Some (address_word a).
Proof.
  intros Ha Hl. unfold encode_value. rewrite parse_hex_text_of by done. simpl. by rewrite Hl.
Qed.

Lemma encode_bytes bs : bytes_ok bs → encode_value "bytes" (hex_text bs) = Some (keccak256 bs).
Proof. intros Hb. unfold encode_value. by rewrite parse_hex_text_of. Qed.

Lemma encode_bytes32 bs :
  bytes_ok bs → length bs = 32%nat → encode_value "bytes32" (hex_text bs) = Some bs.
Proof.
  intros Hb Hl. unfold encode_value. rewrite parse_hex_text_of by done. simpl. by rewrite Hl.
Qed.

Lemma encode_string s : encode_value "string" s = Some (keccak256 (string_bytes s)).
Proof. done. Qed.

Lemma encode_members_cons t n ms data v word rest :
  get n data = Some (JString v) → encode_value t v = Some word →
  encode_members ms data = Some rest → encode_members ((t, n) :: ms) data = Some (word ++ rest).
Proof. intros Hg Hv Hr. cbn [encode_members]. rewrite Hg. cbn. rewrite Hv. cbn. by rewrite Hr. Qed.

(** Solves the encoding of an object member by member. *)
Ltac encode_by wf :=
  repeat (eapply encode_members_cons;
    [reflexivity
    | first [ apply encode_string | eapply encode_address | eapply encode_bytes32
            | eapply encode_bytes | eapply encode_uint; [reflexivity|lia|..] ]; wf
    |]); try reflexivity.

Definition domain_members : list (string * string) :=
  [("string", "name"); ("string", "version"); ("uint256", "chainId");
   ("address", "verifyingContract")]%string.

Lemma in_u_widen w w' z : in_u w z → 0 ≤ w ≤ w' → in_u w' z.
Proof. intros Hz Hw. apply (in_u_mono w w'); [lia|lia|done]. Qed.

Lemma domain_body name chain_id contract :
  in_u 64 chain_id → bytes_ok contract → length contract = 20%nat →
  encode_members domain_members (JObject [
    ("name"%string, JString name); ("version"%string, JString "1");
    ("chainId"%string, JString (dec chain_id));
    ("verifyingContract"%string, JString (hex_text contract))])
  = Some (keccak256 (string_bytes name) ++ keccak256 (string_bytes "1") ++
          uint_word chain_id ++ address_word contract ++ []).
Proof.
  intros Hc Hb Hl.
  encode_by ltac:(first [done | eapply in_u_widen; [eassumption|lia]]).
Qed.

(** The fields of a policy are bytes of their widths. *)
Definition session_bytes_ok (p : ReceiptSessionPolicy) : Prop :=
  bytes_ok (rsp_settlement_contract p) ∧ bytes_ok (payer_wallet_address p) ∧
  bytes_ok (rsp_payer_session_public_key p) ∧ bytes_ok (rsp_authorization_nonce p).

Definition session_members : list (string * string) :=
  [("uint16", "protocolVersion"); ("address", "payerWallet"); ("bytes", "payerSessionPublicKey");
   ("uint256", "maxTotalChargeWei"); ("uint64", "validFromUnixS"); ("uint64", "expiresAtUnixS");
   ("bytes32", "authorizationNonce")]%string.

Lemma hash_struct_of types name fields ms data body :
  get name types = Some (JArray fields) → members fields = Some ms →
  encode_members ms data = Some body →
  hash_struct types name data =
    Some (keccak256 (keccak256 (string_bytes (encode_type name ms)) ++ body)).
Proof.
  intros Hg Hm Hb. unfold hash_struct. rewrite Hg. cbv iota. rewrite Hm. cbn [mbind option_bind].
  by rewrite Hb.
Qed.

Lemma typed_data_hash_of j types primary domain message ds sh :
  get "types" j = Some types → get "primaryType" j = Some (JString primary) →
  get "domain" j = Some domain → get "message" j = Some message →
  hash_struct types "EIP712Domain" domain = Some ds → hash_struct types primary message = Some sh →
  typed_data_hash j = Some (keccak256 ([0x19; 0x01] ++ ds ++ sh)).
Proof.
  intros H1 H2 H3 H4 H5 H6. unfold typed_data_hash. rewrite H1. cbn [mbind option_bind].
  rewrite H2. cbn [mbind option_bind as_string]. rewrite H3. cbn [mbind option_bind].
  rewrite H4. cbn [mbind option_bind]. rewrite H5. cbn [mbind option_bind]. by rewrite H6.
Qed.

Lemma session_hash_agrees p j d :
  policy_wf p → session_bytes_ok p →
  session_eip712_typed_data p = Ok j → session_eip712_digest p = Ok d → typed_data_hash j = Some d.
Proof.
  intros (W1 & W2 & W3 & W4 & W5 & W6 & W7 & W8) (B1 & B2 & B3 & B4) Hj Hd.
  unfold session_eip712_typed_data in Hj. rust_inv Hj. subst j.
  unfold session_eip712_digest in Hd. rust_inv Hd.
  rewrite <- (app_nil_r (address_word (rsp_settlement_contract p))) in Hd.
  rewrite <- (app_nil_r (rsp_authorization_nonce p)) in Hd. rewrite <- Hd. clear Hd.
  change EIP712_DOMAIN_TYPE with (string_bytes (encode_type "EIP712Domain" domain_members)).
  change SESSION_AUTHORIZATION_TYPE
    with (string_bytes (encode_type "ReceiptSessionAuthorization" session_members)).
  eapply typed_data_hash_of; [reflexivity..| |].
  - eapply hash_struct_of; [reflexivity..|]. by apply domain_body.
  - eapply hash_struct_of; [reflexivity..|].
    encode_by ltac:(first [done | eapply in_u_widen; [eassumption|lia]]).
Qed.

Definition provider_wf (p : ProviderSettlementPolicy) : Prop :=
  in_u 16 (psp_protocol_version p) ∧ in_u 64 (psp_chain_id p) ∧
  length (psp_settlement_contract p) = 20%nat ∧ length (payout_wallet_address p) = 20%nat ∧
  in_u 64 (psp_valid_from_unix_s p) ∧ in_u 64 (psp_expires_at_unix_s p) ∧
  length (psp_authorization_nonce p) = 32%nat ∧
  bytes_ok (psp_settlement_contract p) ∧ bytes_ok (payout_wallet_address p) ∧
  bytes_ok (psp_provider_public_key p) ∧ bytes_ok (psp_authorization_nonce p).

Definition provider_members : list (string * string) :=
  [("uint16", "protocolVersion"); ("address", "payoutWallet"); ("bytes", "providerPublicKey");
   ("uint64", "validFromUnixS"); ("uint64", "expiresAtUnixS");
   ("bytes32", "authorizationNonce")]%string.

Lemma provider_hash_agrees p j d :
  provider_wf p →
  provider_eip712_typed_data p = Ok j → provider_eip712_digest p = Ok d →
  typed_data_hash j = Some d.
Proof.
  intros (W1 & W2 & W3 & W4 & W5 & W6 & W7 & B1 & B2 & B3 & B4) Hj Hd.
  unfold provider_eip712_typed_data in Hj. rust_inv Hj. subst j.
  unfold provider_eip712_digest in Hd. rust_inv Hd.
  rewrite <- (app_nil_r (address_word (psp_settlement_contract p))) in Hd.
  rewrite <- (app_nil_r (psp_authorization_nonce p)) in Hd. rewrite <- Hd. clear Hd.
  change EIP712_DOMAIN_TYPE with (string_bytes (encode_type "EIP712Domain" domain_members)).
  change PROVIDER_SETTLEMENT_AUTHORIZATION_TYPE
    with (string_bytes (encode_type "ProviderSettlementAuthorization" provider_members)).
  eapply typed_data_hash_of; [reflexivity..| |].
  - eapply hash_struct_of; [reflexivity..|]. by apply domain_body.
  - eapply hash_struct_of; [reflexivity..|].
    encode_by ltac:(first [done | eapply in_u_widen; [eassumption|lia]]).
Qed.

End Hash.

(** ** Properties *)

(** What the wallet signs is what the node verifies: hashing the session's
    typed-data JSON by the EIP-712 standard gives exactly [eip712_digest]; both
    are defined on the same policies. *)
Theorem session_typed_data_hash `{E : Ethsign} p :
  policy_wf p → session_bytes_ok p →
  (∀ e, session_eip712_typed_data p = Err e ↔ session_eip712_digest p = Err e) ∧
  ∀ j d, session_eip712_typed_data p = Ok j → session_eip712_digest p = Ok d →
    typed_data_hash j = Some d.
Proof.
  intros Hw Hb. split; [|intros j d; by apply session_hash_agrees].
  intros e. unfold session_eip712_typed_data, session_eip712_digest.
  destruct (validate_session_structure p); simpl; [done|]. naive_solver.
Qed.

(** The same for the provider's payout authorization. *)
Theorem provider_typed_data_hash `{E : Ethsign} p :
  provider_wf p →
  (∀ e, provider_eip712_typed_data p = Err e ↔ provider_eip712_digest p = Err e) ∧
  ∀ j d, provider_eip712_typed_data p = Ok j → provider_eip712_digest p = Ok d →
    typed_data_hash j = Some d.
Proof.
  intros Hw. split; [|intros j d; by apply provider_hash_agrees].
  intros e. unfold provider_eip712_typed_data, provider_eip712_digest.
  destruct (validate_provider_structure p); simpl; [done|]. naive_solver.
Qed.

#[local] Existing Instance sample_ethsign.

Lemma session_typed_data_hash_witness :
  match session_eip712_typed_data sample_policy, session_eip712_digest sample_policy with
  | Ok j, Ok d => typed_data_hash j = Some d
  | _, _ => False
  end.
Proof.
  assert (policy_wf sample_policy) as Hw by (repeat split; by vm_compute).
  assert (session_bytes_ok sample_policy) as Hb by (repeat split; repeat constructor; by vm_compute).
  pose proof (proj2 (session_typed_data_hash sample_policy Hw Hb)) as H.
  destruct (session_eip712_typed_data sample_policy) as [j|] eqn:Ej; [|by vm_compute in Ej].
  destruct (session_eip712_digest sample_policy) as [d|] eqn:Ed; [|by vm_compute in Ed].
  by apply H.
Defined.

Lemma provider_typed_data_hash_witness :
  match provider_eip712_typed_data sample_provider_policy,
        provider_eip712_digest sample_provider_policy with
  | Ok j, Ok d => typed_data_hash j = Some d
  | _, _ => False
  end.
Proof.
  assert (provider_wf sample_provider_policy) as Hw
    by (repeat split; repeat constructor; by vm_compute).
  pose proof (proj2 (provider_typed_data_hash sample_provider_policy Hw)) as H.
  destruct (provider_eip712_typed_data sample_provider_policy) as [j|] eqn:Ej;
    [|by vm_compute in Ej].
  destruct (provider_eip712_digest sample_provider_policy) as [d|] eqn:Ed; [|by vm_compute in Ed].
  by apply H.
Defined.
