(* ===== verification/ReceiptSession.v ===== *)
(** * ReceiptSession: the consumer's receipt sessions

    [proxy_server/receipt_session.rs]: the wallet owner is offered a session
    with a spending limit, signs it, and from then on the node acknowledges
    receipts of exit and routing providers, but only those that match a bound
    quote and an observed response, and never beyond the limit.

    Every operation takes the manager and returns its result and the manager
    left behind, errors included; [M] is that state monad, with panics.  The
    recovery store is the interface [RecoveryStore] over an abstract state;
    the crates behind session keys are [SessionKeys], the keys themselves
    [CryptDEReal]'s; the random bytes a call draws are an argument. *)

From stdpp Require Import base list numbers option strings gmap.
From Stdlib Require Import ZArith Lia.
From S2P Require Import Prelude Text CryptDE Wallet ServiceReceipt ReceiptSettlement Eip712.
From S2P Require Import Route.

Local Open Scope Z_scope.
Local Open Scope rust_scope.
Local Open Scope list_scope.

Definition MAX_RECEIPT_SESSION_ROUTES : nat := 4096.
Definition MAX_PENDING_RECEIPT_RESPONSES_PER_ROUTE : nat := 64.

Abbreviation StreamKey := (list Z) (only parsing).

(** The chain's record contributes its name and token contract. *)
Record ReceiptSessionConfig := mkConfig {
  chain_name : string;
  token_contract : Address;
  cfg_chain_id : Z;
  cfg_settlement_contract : Address;
  cfg_payer_wallet_address : Address;
}.

Record ReceiptSessionProposal := mkProposal {
  prop_proposal_id : string;
  prop_chain_name : string;
  prop_masq_token_contract : Address;
  prop_authorization_id : list Z;
  prop_policy : ReceiptSessionPolicy;
  prop_eip712_typed_data : Json;
}.

Record ReceiptSessionStatus := mkStatus {
  protocol_version_opt : option Z;
  chain_name_opt : option string;
  chain_id_opt : option Z;
  masq_token_contract_opt : option Address;
  settlement_contract_opt : option Address;
  payer_wallet_address_opt : option Address;
  payer_session_public_key_opt : option PublicKey;
  authorization_id_opt : option (list Z);
  max_total_charge_wei_opt : option Z;
  spent_charge_wei_opt : option Z;
  valid_from_unix_s_opt : option Z;
  expires_at_unix_s_opt : option Z;
}.

Definition inactive : ReceiptSessionStatus :=
  mkStatus None None None None None None None None None None None None.

Definition is_active (s : ReceiptSessionStatus) : bool :=
  match payer_session_public_key_opt s with Some _ => true | None => false end.

Inductive ReceiptSessionManagerError :=
| Amount (s : string)
| Duration (d : Z)
| Expired
| NoPendingProposal
| NoActiveSession
| ProposalMismatch
| ReceiptObservationMismatch
| ReceiptQuoteUnavailable
| ReceiptRouteNotFound
| SignatureProblem (s : string)
| Persistence (s : string)
| TimeOverflow
| Verification (e : ServiceReceiptError).

Record RoutingProviderReceiptState := mkProviderState {
  rp_service_rate : Z;
  rp_byte_rate : Z;
  observed_payloads : list Z;
  rp_checkpoint_opt : option ReceiptSequenceCheckpoint;
  rp_acknowledged_payload_opt : option ServiceReceiptPayload_0v1;
}.

Record ReceiptRouteState := mkRouteState {
  stream_key : StreamKey;
  request : ReceiptSessionRequest;
  expected_provider_public_key_opt : option PublicKey;
  exit_service_rate_opt : option Z;
  exit_byte_rate_opt : option Z;
  observed_responses : list (Z * Z * Z);
  pending_request_payload_size : Z;
  pending_request_service_units : Z;
  checkpoint_opt : option ReceiptSequenceCheckpoint;
  acknowledged_payload_opt : option ServiceReceiptPayload_0v1;
  routing_request_providers : list PublicKey;
  routing_response_providers : list PublicKey;
  routing_provider_states : gmap PublicKey RoutingProviderReceiptState;
}.

Record PersistedReceiptSessionHeader := mkHeader {
  h_authorization : AuthorizedReceiptSession;
  h_payer_cryptde : string;
  h_spent_charge_wei : Z;
}.

Record PendingReceiptSession := mkPending {
  proposal_id : string;
  pending_policy : ReceiptSessionPolicy;
  pending_cryptde : CryptDE;
}.

Record ActiveReceiptSession := mkActive {
  active_authorization : AuthorizedReceiptSession;
  payer_cryptde : CryptDE;
  routes : list ReceiptRouteState;
  spent_charge_wei : Z;
}.

Record RoutingReceiptQuote := mkQuote {
  q_provider_public_key : PublicKey;
  q_service_rate : Z;
  q_byte_rate : Z;
}.

Global Instance ServiceReceipt_eq_dec : EqDecision ServiceReceipt.
Proof. solve_decision. Defined.
Global Instance SignedServiceReceipt_eq_dec : EqDecision SignedServiceReceipt.
Proof. solve_decision. Defined.
Global Instance ReceiptSessionPolicy_eq_dec : EqDecision ReceiptSessionPolicy.
Proof. solve_decision. Defined.
Global Instance AuthorizedReceiptSession_eq_dec : EqDecision AuthorizedReceiptSession.
Proof. solve_decision. Defined.

(** The recovery store: each call returns a result and the store after it. *)
Class RecoveryStore (St : Type) := {
  store_load : St → Z →
    result (option (PersistedReceiptSessionHeader * list ReceiptRouteState)) string * St;
  save_header : St → PersistedReceiptSessionHeader → result unit string * St;
  save_header_and_route :
    St → PersistedReceiptSessionHeader → ReceiptRouteState → result unit string * St;
  store_clear : St → result unit string * St;
}.

(** The crates behind a session's key pair and texts: libsodium, [base64], and
    the [from_hex] of [rustc_hex] (an error is its debug text). *)
Class SessionKeys := {
  hex_decode : string → result (list Z) string;
  session_sodium : Real.Sodium;
  #[global] session_base64 :: Base64;
}.

(** [Box::new(CryptDEReal::new(chain))], with the chain's token contract and the
    randomness drawn. *)
Definition new_cryptde `{E : Ethsign} `{K : SessionKeys} (contract rand : list Z) : CryptDE :=
  Real.real_cryptde session_sodium (Real.real_new session_sodium keccak256 contract rand).

(** [CryptDEReal::new(chain).make_from_str(value, chain)] *)
Definition make_from_str `{E : Ethsign} `{K : SessionKeys} (contract : list Z) (value : string)
    : result CryptDE string :=
  let? c := Real.real_make_from_str session_sodium keccak256 contract value in
  Ok (Real.real_cryptde session_sodium c).

Record Manager (St : Type) := mkManager {
  config : ReceiptSessionConfig;
  pending_opt : option PendingReceiptSession;
  active_opt : option ActiveReceiptSession;
  recovery_store_opt : option St;
  recovery_required : bool;
}.
Arguments mkManager {St}.
Arguments config {St}.
Arguments pending_opt {St}.
Arguments active_opt {St}.
Arguments recovery_store_opt {St}.
Arguments recovery_required {St}.

(** ** The monad of the manager's methods *)

Definition M (St A : Type) : Type :=
  Manager St → exec (result A ReceiptSessionManagerError * Manager St).

Section Monad.
Context {St : Type}.

Definition ret {A} (a : A) : M St A := fun m => Ret (Ok a, m).
Definition fail {A} (e : ReceiptSessionManagerError) : M St A := fun m => Ret (Err e, m).
Definition bind {A B} (c : M St A) (k : A → M St B) : M St B := fun m =>
  match c m with
  | Ret (Ok a, m') => k a m'
  | Ret (Err e, m') => Ret (Err e, m')
  | Panic => Panic
  end.
Definition get_manager : M St (Manager St) := fun m => Ret (Ok m, m).
Definition lift {A} (r : result A ReceiptSessionManagerError) : M St A := fun m => Ret (r, m).
Definition lift_fallible {A} (c : fallible A ReceiptSessionManagerError) : M St A := fun m =>
  match c with Ret r => Ret (r, m) | Panic => Panic end.

Definition set_pending (p : option PendingReceiptSession) : M St unit := fun m =>
  Ret (Ok (), mkManager (config m) p (active_opt m) (recovery_store_opt m) (recovery_required m)).
Definition set_active (a : option ActiveReceiptSession) : M St unit := fun m =>
  Ret (Ok (), mkManager (config m) (pending_opt m) a (recovery_store_opt m) (recovery_required m)).
Definition set_store (s : option St) : M St unit := fun m =>
  Ret (Ok (), mkManager (config m) (pending_opt m) (active_opt m) s (recovery_required m)).
End Monad.

Notation "'do' x := c 'in' k" := (bind c (fun x => k))
  (at level 10, x pattern, c at level 200, k at level 200) : rust_scope.

Definition NO_PASSWORD : string := "a database password is required for recoverable sessions".

Section Manager.
Context `{E : Ethsign} `{C : Cbor} `{K : SessionKeys} {St : Type} `{R : RecoveryStore St}.

Abbreviation MM := (M St).

(** ** Helpers *)

Definition find_stream (k : StreamKey) (rs : list ReceiptRouteState)
    : option (nat * ReceiptRouteState) := list_find (fun r => stream_key r = k) rs.
Definition find_epoch (epoch : list Z) (rs : list ReceiptRouteState)
    : option (nat * ReceiptRouteState) := list_find (fun r => rsr_route_epoch (request r) = epoch) rs.

Definition fresh_route_request (active : ActiveReceiptSession) (rand : list Z)
    : result ReceiptSessionRequest ReceiptSessionManagerError :=
  let route_epoch := random (payer_cryptde active) rand 32 in
  if all_zero route_epoch ||
     existsb (fun r => bool_decide (rsr_route_epoch (request r) = route_epoch)) (routes active)
  then Err (SignatureProblem "secure route-epoch generation returned an invalid value")
  else map_err Verification (session_request_new (active_authorization active) route_epoch).

Definition route_state (k : StreamKey) (req : ReceiptSessionRequest) : ReceiptRouteState :=
  mkRouteState k req None None None [] 0 0 None None [] [] ∅.

Definition persisted_header (active : ActiveReceiptSession) : PersistedReceiptSessionHeader :=
  mkHeader (active_authorization active) (cryptde_to_string (payer_cryptde active))
    (spent_charge_wei active).

(** [let _ = store.clear()] *)
Definition clear_store : MM unit :=
  do m := get_manager in
  match recovery_store_opt m with
  | Some s => set_store (Some (snd (store_clear s)))
  | None => ret ()
  end.

Definition revoke_after_persistence_error {A} (message : string) : MM A :=
  do _ := set_active None in
  do _ := clear_store in
  fail (Persistence message).

Definition persist_header : MM unit :=
  do m := get_manager in
  match active_opt m with
  | None => ret ()
  | Some active =>
      let header := persisted_header active in
      match recovery_store_opt m with
      | Some s =>
          let '(r, s') := save_header s header in
          do _ := set_store (Some s') in
          match r with Ok _ => ret () | Err msg => revoke_after_persistence_error msg end
      | None => if recovery_required m then revoke_after_persistence_error NO_PASSWORD else ret ()
      end
  end.

Definition persist_route (k : StreamKey) : MM unit :=
  do m := get_manager in
  match active_opt m with
  | None => ret ()
  | Some active =>
      match find_stream k (routes active) with
      | None => fail ReceiptRouteNotFound
      | Some (_, route) =>
          match recovery_store_opt m with
          | Some s =>
              let '(r, s') := save_header_and_route s (persisted_header active) route in
              do _ := set_store (Some s') in
              match r with Ok _ => ret () | Err msg => revoke_after_persistence_error msg end
          | None => if recovery_required m then revoke_after_persistence_error NO_PASSWORD else ret ()
          end
      end
  end.

(** ** Sessions *)

Definition manager_new (cfg : ReceiptSessionConfig) : Manager St :=
  mkManager cfg None None None false.

Definition status (now : Z) : MM ReceiptSessionStatus :=
  do m := get_manager in
  let expired :=
    match active_opt m with
    | Some a => rsp_expires_at_unix_s (policy (active_authorization a)) <? now
    | None => false
    end in
  do _ := (if expired then do _ := set_active None in clear_store else ret ()) in
  do m := get_manager in
  match active_opt m with
  | Some a =>
      let p := policy (active_authorization a) in
      if now <=? rsp_expires_at_unix_s p then
        ret {| protocol_version_opt := Some (rsp_protocol_version p);
               chain_name_opt := Some (chain_name (config m));
               chain_id_opt := Some (rsp_chain_id p);
               masq_token_contract_opt := Some (token_contract (config m));
               settlement_contract_opt := Some (rsp_settlement_contract p);
               payer_wallet_address_opt := Some (payer_wallet_address p);
               payer_session_public_key_opt := Some (public_key (payer_cryptde a));
               authorization_id_opt :=
                 Some (receipt_session_contract_id (payer_wallet_address p)
                         (rsp_authorization_nonce p));
               max_total_charge_wei_opt := Some (max_total_charge_wei p);
               spent_charge_wei_opt := Some (spent_charge_wei a);
               valid_from_unix_s_opt := Some (rsp_valid_from_unix_s p);
               expires_at_unix_s_opt := Some (rsp_expires_at_unix_s p) |}
      else ret inactive
  | None => ret inactive
  end.

Definition requires_service_receipt_capability (now : Z) : MM bool :=
  do s := status now in ret (is_active s).

(** [parse::<u128>()] on a decimal string (an optional leading [+] is allowed
    by Rust). *)
Definition parse_u128 (s : string) : option Z :=
  let digits :=
    match s with
    | String c s' => if char_byte c =? 43 then s' else s
    | EmptyString => s
    end in
  match parse_dec digits with
  | Some n => if bool_decide (in_u 128 n) then Some n else None
  | None => None
  end.

Definition propose (max_total : string) (duration_seconds now : Z) (key_rand nonce_rand : list Z)
    : MM ReceiptSessionProposal :=
  match parse_u128 max_total with
  | None => fail (Amount max_total)
  | Some max_total_charge =>
      if (max_total_charge =? 0) || (MAX_RECEIPT_SESSION_CHARGE_WEI <? max_total_charge)
      then fail (Amount (dec max_total_charge))
      else if negb (in_range_incl MIN_RECEIPT_SESSION_DURATION_SECONDS
                      MAX_RECEIPT_SESSION_DURATION_SECONDS duration_seconds)
      then fail (Duration duration_seconds)
      else
        do expires_at := lift (ok_or (checked_add 64 now duration_seconds) TimeOverflow) in
        do m := get_manager in
        let cryptde := new_cryptde (token_contract (config m)) key_rand in
        let authorization_nonce := random cryptde nonce_rand 32 in
        if all_zero authorization_nonce
        then fail (SignatureProblem "secure nonce generation returned an invalid value")
        else
          let p := session_policy_new (cfg_chain_id (config m)) (cfg_settlement_contract (config m))
                     (cfg_payer_wallet_address (config m)) (public_key cryptde) max_total_charge
                     now expires_at authorization_nonce in
          do typed := lift (map_err Verification (session_eip712_typed_data p)) in
          let id := hex_text authorization_nonce in
          do _ := set_pending (Some (mkPending id p cryptde)) in
          ret {| prop_proposal_id := id;
                 prop_chain_name := chain_name (config m);
                 prop_masq_token_contract := token_contract (config m);
                 prop_authorization_id :=
                   receipt_session_contract_id (payer_wallet_address p) (rsp_authorization_nonce p);
                 prop_policy := p;
                 prop_eip712_typed_data := typed |}
  end.

(** [strip_prefix("0x").unwrap_or(input)] *)
Definition strip_0x (s : string) : string :=
  match s with
  | String a (String b rest) => if (char_byte a =? 48) && (char_byte b =? 120) then rest else s
  | _ => s
  end.

Definition signature_from_hex (input : string) : result Signature ReceiptSessionManagerError :=
  let? bytes := map_err SignatureProblem (hex_decode (strip_0x input)) in
  if negb (length bytes =? 65)%nat then
    Err (SignatureProblem ("expected 65 bytes, received " ++ dec (Z.of_nat (length bytes)))%string)
  else
    let r := take 32 bytes in
    let s := take 32 (drop 32 bytes) in
    if all_zero r || all_zero s || bytes_ltb SECP256K1_HALF_ORDER s then
      Err (SignatureProblem "r and s must be non-zero and s must use canonical low-s form")
    else
      let b := default 0 (bytes !! 64%nat) in
      if (b =? 0) || (b =? 1) then Ok (mkSignature b r s)
      else if (b =? 27) || (b =? 28) then Ok (mkSignature (b - 27) r s)
      else Err (SignatureProblem ("recovery ID " ++ dec b ++ " is not 0, 1, 27 or 28")%string).

Definition activate (id wallet_signature : string) (now : Z) : MM ReceiptSessionStatus :=
  do m := get_manager in
  match pending_opt m with
  | None => fail NoPendingProposal
  | Some pending =>
      if negb (bool_decide (proposal_id pending = id)) then fail ProposalMismatch
      else if rsp_expires_at_unix_s (pending_policy pending) <? now then
        do _ := set_pending None in fail Expired
      else
        do signature := lift (signature_from_hex wallet_signature) in
        let auth := mkAuthorizedSession (pending_policy pending) signature in
        do _ := lift (map_err Verification
          (session_verify auth (cfg_chain_id (config m)) (cfg_settlement_contract (config m))
             (rsp_payer_session_public_key (pending_policy pending)) now 0)) in
        do _ := (match recovery_store_opt m with
                 | Some s =>
                     let '(r, s') := store_clear s in
                     do _ := set_store (Some s') in
                     lift (map_err Persistence r)
                 | None => if recovery_required m then fail (Persistence NO_PASSWORD) else ret ()
                 end) in
        do _ := set_pending None in
        do _ := set_active (Some (mkActive auth (pending_cryptde pending) [] 0)) in
        do _ := persist_header in
        status now
  end.

Definition stop : MM ReceiptSessionStatus :=
  do _ := set_pending None in
  do _ := set_active None in
  do _ := clear_store in
  ret inactive.

(** ** Streams and their routes *)

Definition with_routes (a : ActiveReceiptSession) (rs : list ReceiptRouteState)
    : ActiveReceiptSession :=
  mkActive (active_authorization a) (payer_cryptde a) rs (spent_charge_wei a).

Definition request_for_stream (k : StreamKey) (now : Z) (rand : list Z)
    : MM (option ReceiptSessionRequest) :=
  do _ := status now in
  do m := get_manager in
  match active_opt m with
  | None => ret None
  | Some active =>
      match find_stream k (routes active) with
      | Some (_, route) => ret (Some (request route))
      | None =>
          if (MAX_RECEIPT_SESSION_ROUTES <=? length (routes active))%nat
          then fail (SignatureProblem "receipt session reached its route limit")
          else
            do req := lift (fresh_route_request active rand) in
            do _ := set_active (Some (with_routes active (routes active ++ [route_state k req]))) in
            do _ := persist_route k in
            ret (Some req)
      end
  end.

Definition rotate_route_for_stream (k : StreamKey) (now : Z) (rand : list Z)
    : MM (option ReceiptSessionRequest) :=
  do _ := status now in
  do m := get_manager in
  match active_opt m with
  | None => ret None
  | Some active =>
      do replacement := lift (fresh_route_request active rand) in
      do _ := (match find_stream k (routes active) with
               | Some (position, _) =>
                   set_active (Some (with_routes active
                     (<[position := route_state k replacement]> (routes active))))
               | None =>
                   if (length (routes active) <? MAX_RECEIPT_SESSION_ROUTES)%nat then
                     set_active (Some (with_routes active
                       (routes active ++ [route_state k replacement])))
                   else fail (SignatureProblem "receipt session reached its route limit")
               end) in
      do _ := persist_route k in
      ret (Some replacement)
  end.

Definition route_epoch_for_stream (m : Manager St) (k : StreamKey) : option (list Z) :=
  match active_opt m with
  | None => None
  | Some active =>
      match find_stream k (routes active) with
      | Some (_, route) => Some (rsr_route_epoch (request route))
      | None => None
      end
  end.

(** The prologue of the stream operations: the session, if any, after expiry,
    and the route of the stream. *)
Definition with_stream {A} (k : StreamKey) (now : Z)
    (body : ActiveReceiptSession → nat → ReceiptRouteState → MM A) : MM A :=
  do _ := status now in
  do m := get_manager in
  match active_opt m with
  | None => fail NoActiveSession
  | Some active =>
      match find_stream k (routes active) with
      | None => fail ReceiptRouteNotFound
      | Some (i, route) => body active i route
      end
  end.

Definition put_route (active : ActiveReceiptSession) (i : nat) (route : ReceiptRouteState) : MM unit :=
  set_active (Some (with_routes active (<[i := route]> (routes active)))).

Definition bind_exit_quote (k : StreamKey) (provider : PublicKey) (service_rate byte_rate now : Z)
    : MM unit :=
  with_stream k now (fun active i route =>
    match expected_provider_public_key_opt route, exit_service_rate_opt route,
          exit_byte_rate_opt route with
    | None, None, None =>
        do _ := put_route active i
          (mkRouteState (stream_key route) (request route) (Some provider) (Some service_rate)
             (Some byte_rate) (observed_responses route) (pending_request_payload_size route)
             (pending_request_service_units route) (checkpoint_opt route)
             (acknowledged_payload_opt route) (routing_request_providers route)
             (routing_response_providers route) (routing_provider_states route)) in
        persist_route k
    | Some p, Some sr, Some br =>
        if bool_decide (p = provider) && (sr =? service_rate) && (br =? byte_rate) then ret ()
        else fail (Verification ProviderPublicKeyMismatch)
    | _, _, _ => fail (Verification ProviderPublicKeyMismatch)
    end).

(** The loop that collects the quotes of a route, by provider. *)
Fixpoint collect_quotes (quotes : list RoutingReceiptQuote)
    (states : gmap PublicKey RoutingProviderReceiptState)
    : result (gmap PublicKey RoutingProviderReceiptState) ReceiptSessionManagerError :=
  match quotes with
  | [] => Ok states
  | q :: quotes =>
      match states !! q_provider_public_key q with
      | Some existing =>
          if negb (rp_service_rate existing =? q_service_rate q)
             || negb (rp_byte_rate existing =? q_byte_rate q)
          then Err ReceiptQuoteUnavailable
          else collect_quotes quotes states
      | None =>
          collect_quotes quotes
            (<[q_provider_public_key q :=
                 mkProviderState (q_service_rate q) (q_byte_rate q) [] None None]> states)
      end
  end.

Definition bind_routing_quotes (k : StreamKey)
    (request_quotes response_quotes : list RoutingReceiptQuote) (now : Z) : MM unit :=
  with_stream k now (fun active i route =>
    let request_providers := map q_provider_public_key request_quotes in
    let response_providers := map q_provider_public_key response_quotes in
    let quotes := request_quotes ++ response_quotes in
    if negb (bool_decide (routing_provider_states route = ∅)) then
      if negb (bool_decide (routing_request_providers route = request_providers))
         || negb (bool_decide (routing_response_providers route = response_providers))
         || existsb (fun q =>
              match routing_provider_states route !! q_provider_public_key q with
              | Some s => negb (rp_service_rate s =? q_service_rate q)
                          || negb (rp_byte_rate s =? q_byte_rate q)
              | None => true
              end) quotes
      then fail ReceiptQuoteUnavailable
      else ret ()
    else
      do states := lift (collect_quotes quotes ∅) in
      do _ := put_route active i
        (mkRouteState (stream_key route) (request route) (expected_provider_public_key_opt route)
           (exit_service_rate_opt route) (exit_byte_rate_opt route) (observed_responses route)
           (pending_request_payload_size route) (pending_request_service_units route)
           (checkpoint_opt route) (acknowledged_payload_opt route)
           request_providers response_providers states) in
      persist_route k).

Definition with_provider_states (route : ReceiptRouteState)
    (states : gmap PublicKey RoutingProviderReceiptState) : ReceiptRouteState :=
  mkRouteState (stream_key route) (request route) (expected_provider_public_key_opt route)
    (exit_service_rate_opt route) (exit_byte_rate_opt route) (observed_responses route)
    (pending_request_payload_size route) (pending_request_service_units route)
    (checkpoint_opt route) (acknowledged_payload_opt route)
    (routing_request_providers route) (routing_response_providers route) states.

Definition push_payload (payload_size : Z) (s : RoutingProviderReceiptState)
    : RoutingProviderReceiptState :=
  mkProviderState (rp_service_rate s) (rp_byte_rate s) (observed_payloads s ++ [payload_size])
    (rp_checkpoint_opt s) (rp_acknowledged_payload_opt s).

Fixpoint push_payloads (providers : list PublicKey) (payload_size : Z)
    (states : gmap PublicKey RoutingProviderReceiptState)
    : exec (gmap PublicKey RoutingProviderReceiptState) :=
  match providers with
  | [] => Ret states
  | p :: providers =>
      let* s := expect (states !! p) in
      push_payloads providers payload_size (<[p := push_payload payload_size s]> states)
  end.

Definition record_routing_payload (route : ReceiptRouteState) (providers : list PublicKey)
    (payload_size : Z) : fallible ReceiptRouteState ReceiptSessionManagerError :=
  if existsb (fun p =>
       match routing_provider_states route !! p with
       | Some s =>
           (MAX_PENDING_RECEIPT_RESPONSES_PER_ROUTE <=? length (observed_payloads s))%nat
       | None => true
       end) providers
  then Ret (Err ReceiptObservationMismatch)
  else
    let* states := push_payloads providers payload_size (routing_provider_states route) in
    Ret (Ok (with_provider_states route states)).

Definition record_routing_request (k : StreamKey) (payload_size now : Z) : MM unit :=
  with_stream k now (fun active i route =>
    do route' := lift_fallible
      (record_routing_payload route (routing_request_providers route) payload_size) in
    do _ := put_route active i route' in
    persist_route k).

Definition record_routing_response (k : StreamKey) (payload_size now : Z) : MM unit :=
  with_stream k now (fun active i route =>
    do route' := lift_fallible
      (record_routing_payload route (routing_response_providers route) payload_size) in
    do _ := put_route active i route' in
    persist_route k).

Definition with_observations (route : ReceiptRouteState) (observed : list (Z * Z * Z))
    (pending_size pending_units : Z) : ReceiptRouteState :=
  mkRouteState (stream_key route) (request route) (expected_provider_public_key_opt route)
    (exit_service_rate_opt route) (exit_byte_rate_opt route) observed pending_size pending_units
    (checkpoint_opt route) (acknowledged_payload_opt route)
    (routing_request_providers route) (routing_response_providers route)
    (routing_provider_states route).

Definition record_exit_response (k : StreamKey) (sequence payload_size now : Z) : MM unit :=
  with_stream k now (fun active i route =>
    if (match checkpoint_opt route with
        | Some checkpoint => sequence <=? last_sequence checkpoint
        | None => false
        end)
       || (MAX_PENDING_RECEIPT_RESPONSES_PER_ROUTE <=? length (observed_responses route))%nat
    then fail ReceiptObservationMismatch
    else if existsb (fun o => fst (fst o) =? sequence) (observed_responses route)
    then fail ReceiptObservationMismatch
    else
      do aggregate_payload_size := lift (ok_or
        (checked_add 64 (pending_request_payload_size route) payload_size)
        ReceiptObservationMismatch) in
      do aggregate_service_units := lift (ok_or
        (checked_add 64 (pending_request_service_units route) 1) ReceiptObservationMismatch) in
      do _ := put_route active i
        (with_observations route
           (observed_responses route ++ [(sequence, aggregate_payload_size, aggregate_service_units)])
           0 0) in
      persist_route k).

(** On the second overflow the payload size has already been added. *)
Definition record_exit_request (k : StreamKey) (payload_size now : Z) : MM unit :=
  with_stream k now (fun active i route =>
    if payload_size =? 0 then ret ()
    else
      do size := lift (ok_or (checked_add 64 (pending_request_payload_size route) payload_size)
                         ReceiptObservationMismatch) in
      do _ := put_route active i
        (with_observations route (observed_responses route) size
           (pending_request_service_units route)) in
      do units := lift (ok_or (checked_add 64 (pending_request_service_units route) 1)
                          ReceiptObservationMismatch) in
      do _ := put_route active i
        (with_observations route (observed_responses route) size units) in
      persist_route k).

(** The [Debug] texts of the errors, which leave out every payload. *)
Definition cryptdec_error_debug (e : CryptdecError) : string :=
  match e with
  | EmptyKey => "EmptyKey"
  | EmptyData => "EmptyData"
  | InvalidKey _ => "InvalidKey([REDACTED])"
  | InvalidSignature _ => "InvalidSignature([REDACTED])"
  | OpeningFailed => "OpeningFailed"
  | OtherError _ => "OtherError([REDACTED])"
  end.

Definition route_error_debug (e : RouteError) : string :=
  match e with
  | HopDecodeProblem _ => "HopDecodeProblem([REDACTED])"
  | EmptyRoute => "EmptyRoute"
  | TooFewKeysInRouteSegment => "TooFewKeysInRouteSegment"
  | DisjointRouteSegments => "DisjointRouteSegments"
  end.

Definition codex_error_debug (e : CodexError) : string :=
  match e with
  | SerializationError _ => "SerializationError([REDACTED])"
  | DeserializationError _ => "DeserializationError([REDACTED])"
  | EncryptionError error => "EncryptionError(" ++ cryptdec_error_debug error ++ ")"
  | DecryptionError error => "DecryptionError(" ++ cryptdec_error_debug error ++ ")"
  | RoutingError error => "RoutingError(" ++ route_error_debug error ++ ")"
  end%string.

Definition decrypt_routing_offer
    (from_slice : list Z → result SignedServiceReceipt string)
    (encrypted_offer : CryptData) (now : Z) : MM SignedServiceReceipt :=
  do _ := status now in
  do m := get_manager in
  match active_opt m with
  | None => fail NoActiveSession
  | Some active =>
      lift_fallible (map_err_fallible
        (fun e => SignatureProblem ("cannot decrypt routing receipt: " ++ codex_error_debug e)%string)
        (decodex from_slice (payer_cryptde active) encrypted_offer))
  end.

(** ** Acknowledging offers *)

(** The checkpoint of a provider's receipts moved over an acknowledged one,
    and the total it had before. *)
Definition next_checkpoint (cp_opt : option ReceiptSequenceCheckpoint)
    (a : AcknowledgedServiceReceipt) (cryptde : CryptDE)
    : fallible (ReceiptSequenceCheckpoint * Z) ServiceReceiptError :=
  match cp_opt with
  | Some existing =>
      let! (cp, _) := advance existing a cryptde in
      Ret (Ok (cp, cp_cumulative_charge_wei existing))
  | None => let! cp := begin a cryptde in Ret (Ok (cp, 0))
  end.

(** The common end of both acknowledgements: sign, verify against the
    authorization, move the checkpoint and charge the session.  Nothing is
    changed before every test has passed. *)
Definition charge_offer (cfg : ReceiptSessionConfig) (active : ActiveReceiptSession)
    (cp_opt : option ReceiptSequenceCheckpoint) (signed : SignedServiceReceipt) (now : Z)
    : fallible (ReceiptSequenceCheckpoint * ServiceReceiptPayload_0v1 * Z)
        ReceiptSessionManagerError :=
  let! acknowledged :=
    map_err_fallible Verification (acknowledge signed (payer_cryptde active)) in
  let! _ := map_err_fallible Verification
    (verify_for_receipt (active_authorization active) acknowledged (payer_cryptde active)
       (cfg_chain_id cfg) (cfg_settlement_contract cfg) now) in
  let! (cp, previous_charge) :=
    map_err_fallible Verification (next_checkpoint cp_opt acknowledged (payer_cryptde active)) in
  let! delta := Ret (ok_or (checked_sub 128 (cp_cumulative_charge_wei cp) previous_charge)
                       (Verification CumulativeChargeMismatch)) in
  let! spent := Ret (ok_or (checked_add 128 (spent_charge_wei active) delta)
                       (Verification AmountLimitExceeded)) in
  if max_total_charge_wei (policy (active_authorization active)) <? spent
  then Ret (Err (Verification AmountLimitExceeded))
  else Ret (Ok (cp, mkReceiptPayload (active_authorization active) acknowledged, spent)).

(** A payload already acknowledged for exactly this offer. *)
Definition repeated (payload_opt : option ServiceReceiptPayload_0v1)
    (signed : SignedServiceReceipt) : option ServiceReceiptPayload_0v1 :=
  match payload_opt with
  | Some payload =>
      if bool_decide (signed_receipt (acknowledged_receipt payload) = signed)
      then Some payload else None
  | None => None
  end.

(** The prologue of both: the session and the route of the offer's epoch. *)
Definition with_epoch {A} (epoch : list Z) (now : Z)
    (body : ActiveReceiptSession → nat → ReceiptRouteState → MM A) : MM A :=
  do _ := status now in
  do m := get_manager in
  match active_opt m with
  | None => fail NoActiveSession
  | Some active =>
      match find_epoch epoch (routes active) with
      | None => fail ReceiptRouteNotFound
      | Some (i, route) => body active i route
      end
  end.

Definition charged_route (active : ActiveReceiptSession) (i : nat) (route : ReceiptRouteState)
    (spent : Z) : MM unit :=
  set_active (Some (mkActive (active_authorization active) (payer_cryptde active)
    (<[i := route]> (routes active)) spent)).

Definition with_acknowledgement (route : ReceiptRouteState) (cp : ReceiptSequenceCheckpoint)
    (payload : ServiceReceiptPayload_0v1) : ReceiptRouteState :=
  mkRouteState (stream_key route) (request route) (expected_provider_public_key_opt route)
    (exit_service_rate_opt route) (exit_byte_rate_opt route) (tail (observed_responses route))
    (pending_request_payload_size route) (pending_request_service_units route)
    (Some cp) (Some payload)
    (routing_request_providers route) (routing_response_providers route)
    (routing_provider_states route).

Definition with_provider_acknowledgement (s : RoutingProviderReceiptState)
    (cp : ReceiptSequenceCheckpoint) (payload : ServiceReceiptPayload_0v1)
    : RoutingProviderReceiptState :=
  mkProviderState (rp_service_rate s) (rp_byte_rate s) (tail (observed_payloads s))
    (Some cp) (Some payload).

Definition acknowledge_routing_offer (signed : SignedServiceReceipt) (now : Z)
    : MM ServiceReceiptPayload_0v1 :=
  let offered := receipt signed in
  with_epoch (route_epoch offered) now (fun active i route =>
    do s := lift (ok_or (routing_provider_states route !! provider_public_key offered)
                    ReceiptQuoteUnavailable) in
    match repeated (rp_acknowledged_payload_opt s) signed with
    | Some payload => ret payload
    | None =>
        do expected_payload_size :=
          lift (ok_or (head (observed_payloads s)) ReceiptObservationMismatch) in
        do expected_sequence :=
          lift (match rp_checkpoint_opt s with
                | Some cp => ok_or (checked_add 64 (last_sequence cp) 1) ReceiptObservationMismatch
                | None => Ok 1
                end) in
        if negb (bool_decide (service_kind offered = Routing))
           || negb (service_rate offered =? rp_service_rate s)
           || negb (byte_rate offered =? rp_byte_rate s)
           || negb (sequence offered =? expected_sequence)
           || negb (payload_size offered =? expected_payload_size)
           || negb (service_units offered =? 1)
        then fail ReceiptObservationMismatch
        else
          do m := get_manager in
          do (cp, payload, spent) :=
            lift_fallible (charge_offer (config m) active (rp_checkpoint_opt s) signed now) in
          do _ := charged_route active i
            (with_provider_states route
               (<[provider_public_key offered := with_provider_acknowledgement s cp payload]>
                  (routing_provider_states route))) spent in
          do _ := persist_route (stream_key route) in
          ret payload
    end).

Definition acknowledge_offer (signed : SignedServiceReceipt) (now : Z)
    : MM ServiceReceiptPayload_0v1 :=
  let offered := receipt signed in
  if bool_decide (service_kind offered = Routing) then acknowledge_routing_offer signed now
  else
    with_epoch (route_epoch offered) now (fun active i route =>
      match repeated (acknowledged_payload_opt route) signed with
      | Some payload => ret payload
      | None =>
          do expected_provider :=
            lift (ok_or (expected_provider_public_key_opt route) ReceiptQuoteUnavailable) in
          do expected_service_rate :=
            lift (ok_or (exit_service_rate_opt route) ReceiptQuoteUnavailable) in
          do expected_byte_rate :=
            lift (ok_or (exit_byte_rate_opt route) ReceiptQuoteUnavailable) in
          do (o_sequence, o_size, o_units) :=
            lift (ok_or (head (observed_responses route)) ReceiptObservationMismatch) in
          if negb (bool_decide (provider_public_key offered = expected_provider))
          then fail (Verification ProviderPublicKeyMismatch)
          else if negb (bool_decide (service_kind offered = Exit))
             || negb (service_rate offered =? expected_service_rate)
             || negb (byte_rate offered =? expected_byte_rate)
             || negb (sequence offered =? o_sequence)
             || negb (payload_size offered =? o_size)
             || negb (service_units offered =? o_units)
          then fail ReceiptObservationMismatch
          else
            do m := get_manager in
            do (cp, payload, spent) :=
              lift_fallible (charge_offer (config m) active (checkpoint_opt route) signed now) in
            do _ := charged_route active i (with_acknowledgement route cp payload) spent in
            do _ := persist_route (stream_key route) in
            ret payload
      end).

(** ** Recovery *)

Definition checkpoint_matches (header : PersistedReceiptSessionHeader) (route : ReceiptRouteState)
    (cp : ReceiptSequenceCheckpoint) (provider : PublicKey) : bool :=
  bool_decide (cp_route_epoch cp = rsr_route_epoch (request route))
  && bool_decide (cp_provider_public_key cp = provider)
  && bool_decide (cp_accounting_commitment cp = rsr_accounting_commitment (request route))
  && bool_decide (cp_payer_session_public_key cp =
       rsp_payer_session_public_key (policy (h_authorization header))).

Definition exit_checkpoint_inconsistent (header : PersistedReceiptSessionHeader)
    (route : ReceiptRouteState) : bool :=
  match checkpoint_opt route with
  | Some cp =>
      match expected_provider_public_key_opt route with
      | Some provider => negb (checkpoint_matches header route cp provider)
      | None => true
      end
  | None => false
  end.

Definition provider_checkpoint_inconsistent (header : PersistedReceiptSessionHeader)
    (route : ReceiptRouteState) (entry : PublicKey * RoutingProviderReceiptState) : bool :=
  match rp_checkpoint_opt (snd entry) with
  | Some cp => negb (checkpoint_matches header route cp (fst entry))
  | None => false
  end.

(** The loop over the recovered routes; [stream_keys] and [route_epochs] are
    the sets of what earlier routes inserted. *)
Fixpoint restore_routes (cfg : ReceiptSessionConfig) (header : PersistedReceiptSessionHeader)
    (now : Z) (stream_keys route_epochs : gset (list Z)) (rs : list ReceiptRouteState)
    : result unit ReceiptSessionManagerError :=
  match rs with
  | [] => Ok ()
  | route :: rs =>
      let epoch := rsr_route_epoch (request route) in
      if bool_decide (stream_key route ∈ stream_keys)
         || bool_decide (epoch ∈ route_epochs)
         || negb (bool_decide (authorization (request route) = h_authorization header))
         || (MAX_PENDING_RECEIPT_RESPONSES_PER_ROUTE <? length (observed_responses route))%nat
         || existsb (fun e =>
              (MAX_PENDING_RECEIPT_RESPONSES_PER_ROUTE <? length (observed_payloads (snd e)))%nat)
              (map_to_list (routing_provider_states route))
      then Err (Persistence "recovered receipt route is inconsistent")
      else
        let? _ := map_err Verification
          (session_request_verify (request route) (cfg_chain_id cfg)
             (cfg_settlement_contract cfg) now) in
        if exit_checkpoint_inconsistent header route
           || existsb (provider_checkpoint_inconsistent header route)
                (map_to_list (routing_provider_states route))
        then Err (Persistence "recovered receipt checkpoint identity is inconsistent")
        else restore_routes cfg header now ({[stream_key route]} ∪ stream_keys)
               ({[epoch]} ∪ route_epochs) rs
  end.

Definition restore_active (cfg : ReceiptSessionConfig) (header : PersistedReceiptSessionHeader)
    (rs : list ReceiptRouteState) (now : Z) : result ActiveReceiptSession ReceiptSessionManagerError :=
  if (MAX_RECEIPT_SESSION_ROUTES <? length rs)%nat
  then Err (Persistence "recovered route limit is invalid")
  else
    let? cryptde := map_err Persistence (make_from_str (token_contract cfg) (h_payer_cryptde header)) in
    let? _ := map_err Verification
      (session_verify (h_authorization header) (cfg_chain_id cfg) (cfg_settlement_contract cfg)
         (public_key cryptde) now (h_spent_charge_wei header)) in
    if negb (bool_decide
      (payer_wallet_address (policy (h_authorization header)) = cfg_payer_wallet_address cfg))
    then Err (Persistence "recovered payer wallet differs from Node configuration")
    else
      let? _ := restore_routes cfg header now ∅ ∅ rs in
      Ok (mkActive (h_authorization header) cryptde rs (h_spent_charge_wei header)).

Definition new_recovery_required (cfg : ReceiptSessionConfig) (store_opt : option St) (now : Z)
    : result (Manager St) ReceiptSessionManagerError :=
  match store_opt with
  | None => Ok (mkManager cfg None None None true)
  | Some store =>
      let '(loaded, store') := store_load store now in
      let? found := map_err Persistence loaded in
      match found with
      | Some (header, rs) =>
          let? active := restore_active cfg header rs now in
          Ok (mkManager cfg None (Some active) (Some store') true)
      | None => Ok (mkManager cfg None None (Some store') true)
      end
  end.

(** ** The manager as a machine *)

(** One call of the manager's interface, with its arguments. *)
Inductive Call :=
| CallStatus (now : Z)
| CallPropose (max_total : string) (duration now : Z) (key_rand nonce_rand : list Z)
| CallActivate (id signature : string) (now : Z)
| CallStop
| CallRequest (k : StreamKey) (now : Z) (rand : list Z)
| CallRotate (k : StreamKey) (now : Z) (rand : list Z)
| CallBindExit (k : StreamKey) (provider : PublicKey) (service_rate byte_rate now : Z)
| CallBindRouting (k : StreamKey) (request_quotes response_quotes : list RoutingReceiptQuote)
    (now : Z)
| CallRoutingRequest (k : StreamKey) (size now : Z)
| CallRoutingResponse (k : StreamKey) (size now : Z)
| CallDecrypt (from_slice : list Z → result SignedServiceReceipt string) (offer : CryptData)
    (now : Z)
| CallExitResponse (k : StreamKey) (seq size now : Z)
| CallExitRequest (k : StreamKey) (size now : Z)
| CallAcknowledge (signed : SignedServiceReceipt) (now : Z).

(** A call, its result kept only where it is a signed acknowledgement. *)
Definition quiet {A} (c : MM A) : MM (list ServiceReceiptPayload_0v1) := do _ := c in ret [].

Definition run_call (c : Call) : MM (list ServiceReceiptPayload_0v1) :=
  match c with
  | CallStatus now => quiet (status now)
  | CallPropose max d now kr nr => quiet (propose max d now kr nr)
  | CallActivate id sig now => quiet (activate id sig now)
  | CallStop => quiet stop
  | CallRequest k now rand => quiet (request_for_stream k now rand)
  | CallRotate k now rand => quiet (rotate_route_for_stream k now rand)
  | CallBindExit k p sr br now => quiet (bind_exit_quote k p sr br now)
  | CallBindRouting k rq rs now => quiet (bind_routing_quotes k rq rs now)
  | CallRoutingRequest k size now => quiet (record_routing_request k size now)
  | CallRoutingResponse k size now => quiet (record_routing_response k size now)
  | CallDecrypt from_slice offer now => quiet (decrypt_routing_offer from_slice offer now)
  | CallExitResponse k seq size now => quiet (record_exit_response k seq size now)
  | CallExitRequest k size now => quiet (record_exit_request k size now)
  | CallAcknowledge signed now => do p := acknowledge_offer signed now in ret [p]
  end.

(** A sequence of calls, whatever each returns: the acknowledgements handed
    out and the manager left behind. *)
Fixpoint run_calls (cs : list Call) (m : Manager St)
    : exec (list ServiceReceiptPayload_0v1 * Manager St) :=
  match cs with
  | [] => Ret ([], m)
  | c :: cs =>
      let* (r, m') := run_call c m in
      let* (ps, m'') := run_calls cs m' in
      Ret ((match r with Ok p => p | Err _ => [] end) ++ ps, m'')
  end.

End Manager.
