(* ===== verification/SessionLimit.v ===== *)
(** * SessionLimit: what a receipt session guarantees

    The invariant of the session manager of [ReceiptSession] and its
    consequences: whatever is called in whatever order, the charges the node
    has acknowledged under one authorization stay within the limit the wallet
    signed; a session that was saved resumes unchanged.

    The proofs go through a small program logic on the monad of the manager:
    [hoare] is a triple with one postcondition for a result and one for an
    error, both of the manager left behind. *)

From stdpp Require Import base list numbers option strings gmap fin_maps.
From Stdlib Require Import ZArith Lia.
From S2P Require Import Prelude Text CryptDE Wallet ServiceReceipt ReceiptSettlement Eip712.
From S2P Require Import Route.
From S2P Require Import ReceiptSession.

Local Open Scope Z_scope.
Local Open Scope rust_scope.
Local Open Scope list_scope.

(** ** Lists *)

Lemma elem_of_insert_inv {A} (l : list A) i x y : y ∈ <[i := x]> l → y = x ∨ y ∈ l.
Proof.
  revert i. induction l as [|z l IH]; intros [|i]; simpl; rewrite ?elem_of_cons; naive_solver.
Qed.

Lemma NoDup_insert_fresh {A} (l : list A) i x : NoDup l → x ∉ l → NoDup (<[i := x]> l).
Proof.
  revert i. induction l as [|y l IH]; intros i Hnd Hx; [done|].
  apply NoDup_cons in Hnd as [Hy Hnd]. apply not_elem_of_cons in Hx as [Hxy Hx].
  destruct i as [|i]; simpl; apply NoDup_cons; [done|]. split; [|by apply IH].
  intros [?|?]%elem_of_insert_inv; naive_solver.
Qed.

Lemma fmap_insert_same {A B} (f : A → B) (l : list A) i x y :
  l !! i = Some x → f y = f x → f <$> <[i := y]> l = f <$> l.
Proof.
  intros Hi Hf. rewrite list_fmap_insert, Hf. apply list_insert_id.
  by rewrite list_lookup_fmap, Hi.
Qed.

(** ** The ledger of acknowledged receipts *)

Definition ledger_charge (l : list SignedServiceReceipt) : Z :=
  sum_Z (map (fun s => charge_of (receipt s)) l).

(** The charges of the different receipts of [L] together are at most [spent]. *)
Definition covered (L : list SignedServiceReceipt) (spent : Z) : Prop :=
  ∀ l, NoDup l → l ⊆ L → ledger_charge l ≤ spent.

Lemma ledger_charge_Permutation l l' : l ≡ₚ l' → ledger_charge l = ledger_charge l'.
Proof.
  unfold ledger_charge, sum_Z. induction 1; simpl in *; lia.
Qed.

Lemma covered_mono L L' s s' : L' ⊆ L → s ≤ s' → covered L s → covered L' s'.
Proof. intros HL Hs Hc l Hnd Hl. etrans; [apply Hc; [done|set_solver]|done]. Qed.

Lemma covered_nil spent : 0 ≤ spent → covered [] spent.
Proof.
  intros Hs l _ Hl. destruct l as [|x l]; [done|]. specialize (Hl x). set_solver.
Qed.

Lemma covered_cons L spent x :
  0 ≤ charge_of (receipt x) → covered L spent →
  covered (x :: L) (spent + charge_of (receipt x)).
Proof.
  intros Hx Hc l Hnd Hl. destruct (decide (x ∈ l)) as [Hin|Hin].
  - apply elem_of_Permutation in Hin as [l' Hp].
    rewrite (ledger_charge_Permutation _ _ Hp). unfold ledger_charge. simpl.
    rewrite Hp in Hnd. apply NoDup_cons in Hnd as [Hn Hnd].
    assert (ledger_charge l' ≤ spent); [|unfold ledger_charge in *; lia].
    apply Hc; [done|]. intros y Hy. specialize (Hl y). rewrite Hp in Hl. set_solver.
  - assert (ledger_charge l ≤ spent); [|lia]. apply Hc; [done|].
    intros y Hy. specialize (Hl y Hy). set_solver.
Qed.

(** ** The invariant *)

(** What recovery asks of the observations of routing providers. *)
Definition payloads_bounded (route : ReceiptRouteState) : Prop :=
  map_Forall (fun _ s =>
    (length (observed_payloads s) ≤ MAX_PENDING_RECEIPT_RESPONSES_PER_ROUTE)%nat)
    (routing_provider_states route).

Section Invariant.
Context `{E : Ethsign} `{C : Cbor} `{K : SessionKeys} {St : Type} `{R : RecoveryStore St}.

(** The manager's configuration; which authorizations are meant; which key
    pairs a session may hold; which keys providers may have; and whether no
    provider is quoted twice in one direction of a route. *)
Context (cfg : ReceiptSessionConfig) (A0 : AuthorizedReceiptSession → Prop) (K0 : CryptDE → Prop)
  (Q0 : PublicKey → Prop) (B0 : Prop).

(** A checkpoint is the one of [provider] on this route of the session. *)
Definition checkpoint_identity (route : ReceiptRouteState) (provider : PublicKey)
    (cp : ReceiptSequenceCheckpoint) : Prop :=
  cp_route_epoch cp = rsr_route_epoch (request route) ∧
  cp_provider_public_key cp = provider ∧
  cp_accounting_commitment cp = rsr_accounting_commitment (request route) ∧
  cp_payer_session_public_key cp =
    rsp_payer_session_public_key (policy (authorization (request route))).

Definition in_ledger (L : list SignedServiceReceipt) (auth : AuthorizedReceiptSession)
    (payload_opt : option ServiceReceiptPayload_0v1) : Prop :=
  ∀ p, payload_opt = Some p →
    payload_authorization p = auth ∧ signed_receipt (acknowledged_receipt p) ∈ L.

Record request_inv (auth : AuthorizedReceiptSession) (req : ReceiptSessionRequest) : Prop := {
  ri_authorization : authorization req = auth;
  ri_epoch : all_zero (rsr_route_epoch req) = false;
  ri_commitment :
    rsr_accounting_commitment req =
    make_accounting_commitment (rsr_route_epoch req) (rsp_payer_session_public_key (policy auth));
}.

Definition provider_inv (L : list SignedServiceReceipt) (auth : AuthorizedReceiptSession)
    (route : ReceiptRouteState) (provider : PublicKey) (s : RoutingProviderReceiptState) : Prop :=
  Q0 provider ∧
  (∀ cp, rp_checkpoint_opt s = Some cp → checkpoint_identity route provider cp) ∧
  in_ledger L auth (rp_acknowledged_payload_opt s).

Record route_inv (L : list SignedServiceReceipt) (auth : AuthorizedReceiptSession)
    (route : ReceiptRouteState) : Prop := {
  rt_request : request_inv auth (request route);
  rt_observed : (length (observed_responses route) ≤ MAX_PENDING_RECEIPT_RESPONSES_PER_ROUTE)%nat;
  rt_checkpoint cp : checkpoint_opt route = Some cp →
    ∃ provider, expected_provider_public_key_opt route = Some provider ∧
                checkpoint_identity route provider cp;
  rt_expected provider : expected_provider_public_key_opt route = Some provider → Q0 provider;
  rt_acknowledged : in_ledger L auth (acknowledged_payload_opt route);
  rt_providers : map_Forall (provider_inv L auth route) (routing_provider_states route);
  rt_payloads : B0 → NoDup (routing_request_providers route) ∧ NoDup (routing_response_providers route) ∧
    payloads_bounded route;
}.

(** The wallet signed this session, for this node's chain, contract, wallet
    and session key. *)
Record authorization_inv (auth : AuthorizedReceiptSession) (cryptde : CryptDE) : Prop := {
  ai_meant : A0 auth;
  ai_key : K0 cryptde;
  ai_session_key : rsp_payer_session_public_key (policy auth) = public_key cryptde;
  ai_wallet : payer_wallet_address (policy auth) = cfg_payer_wallet_address cfg;
  ai_verified : ∃ now,
    session_verify auth (cfg_chain_id cfg) (cfg_settlement_contract cfg) (public_key cryptde) now 0
    = Ok ();
}.

Record session_inv (L : list SignedServiceReceipt) (a : ActiveReceiptSession) : Prop := {
  si_authorization : authorization_inv (active_authorization a) (payer_cryptde a);
  si_spent : 0 ≤ spent_charge_wei a ≤ max_total_charge_wei (policy (active_authorization a));
  si_covered : covered L (spent_charge_wei a);
  si_count : (length (routes a) ≤ MAX_RECEIPT_SESSION_ROUTES)%nat;
  si_streams : NoDup (stream_key <$> routes a);
  si_epochs : NoDup (rsr_route_epoch ∘ request <$> routes a);
  si_routes : Forall (route_inv L (active_authorization a)) (routes a);
}.

Record pending_inv (p : PendingReceiptSession) : Prop := {
  pi_key : K0 (pending_cryptde p);
  pi_session_key : rsp_payer_session_public_key (pending_policy p) = public_key (pending_cryptde p);
  pi_wallet : payer_wallet_address (pending_policy p) = cfg_payer_wallet_address cfg;
}.

(** [limit] bounds the ledger also when the session is over. *)
Record manager_inv (limit : Z) (L : list SignedServiceReceipt) (m : Manager St) : Prop := {
  mi_config : config m = cfg;
  mi_limit : covered L limit;
  mi_pending p : pending_opt m = Some p → pending_inv p;
  mi_active a : active_opt m = Some a → session_inv L a;
}.

(** ** A program logic for the manager *)

(** [panics] says whether a panic is accepted. *)
Context (panics : Prop).

Definition hoare {A} (P : Manager St → Prop) (c : M St A) (Q : A → Manager St → Prop)
    (Er : Manager St → Prop) : Prop :=
  ∀ m, P m →
    match c m with
    | Ret (Ok a, m') => Q a m'
    | Ret (Err _, m') => Er m'
    | Panic => panics
    end.

Lemma hoare_ret {A} (P : Manager St → Prop) (a : A) (Q : A → Manager St → Prop) Er :
  (∀ m, P m → Q a m) → hoare P (ret a) Q Er.
Proof. intros H m Hm. by apply H. Qed.

Lemma hoare_fail {A} (P : Manager St → Prop) e (Q : A → Manager St → Prop) (Er : Manager St → Prop) :
  (∀ m, P m → Er m) → hoare P (fail e) Q Er.
Proof. intros H m Hm. by apply H. Qed.

Lemma hoare_bind {A B} P (c : M St A) (k : A → M St B) Q' Q Er :
  hoare P c Q' Er → (∀ a, hoare (Q' a) (k a) Q Er) → hoare P (bind c k) Q Er.
Proof.
  intros Hc Hk m Hm. specialize (Hc m Hm). unfold bind.
  destruct (c m) as [[[a|e] m']|]; [|done|done]. by apply Hk.
Qed.

Lemma hoare_seq {A B} P (c : M St A) (k : M St B) P' Q Er :
  hoare P c (fun _ => P') Er → hoare P' k Q Er → hoare P (bind c (fun _ => k)) Q Er.
Proof. intros Hc Hk. by eapply hoare_bind. Qed.

Lemma hoare_conseq {A} (P P' : Manager St → Prop) (c : M St A) Q Q' (Er Er' : Manager St → Prop) :
  hoare P c Q Er → (∀ m, P' m → P m) → (∀ a m, Q a m → Q' a m) → (∀ m, Er m → Er' m) →
  hoare P' c Q' Er'.
Proof.
  intros Hc HP HQ HE m Hm. specialize (Hc m (HP m Hm)).
  destruct (c m) as [[[a|e] m']|]; auto.
Qed.

Lemma hoare_pre {A} (P P' : Manager St → Prop) (c : M St A) Q Er :
  hoare P c Q Er → (∀ m, P' m → P m) → hoare P' c Q Er.
Proof. intros Hc HP. by eapply hoare_conseq; [done|..]. Qed.

Lemma hoare_get (P : Manager St → Prop) (Q : Manager St → Manager St → Prop) Er :
  (∀ m, P m → Q m m) → hoare P get_manager Q Er.
Proof. intros H m Hm. by apply H. Qed.

Lemma hoare_lift {A} (P : Manager St → Prop) (r : result A ReceiptSessionManagerError) Er :
  (∀ m, P m → Er m) → hoare P (lift r) (fun a m => P m ∧ r = Ok a) Er.
Proof. intros H m Hm. unfold lift. destruct r; auto. Qed.

Lemma hoare_lift_fallible {A} (P : Manager St → Prop)
    (c : fallible A ReceiptSessionManagerError) Er :
  (c = Panic → panics) → (∀ m, P m → Er m) →
  hoare P (lift_fallible c) (fun a m => P m ∧ c = Ret (Ok a)) Er.
Proof. intros Hp H m Hm. unfold lift_fallible. destruct c as [[a|e]|]; auto. Qed.

Lemma hoare_pure {A} (phi : Prop) P (c : M St A) Q Er :
  (phi → hoare P c Q Er) → hoare (fun m => P m ∧ phi) c Q Er.
Proof. intros H m [Hm Hphi]. by apply H. Qed.

(** Reading the manager and going on with a body. *)
Lemma hoare_with_manager {A} P (k : Manager St → M St A) Q Er :
  (∀ m0, P m0 → hoare (fun m => m = m0) (k m0) Q Er) →
  hoare P (bind get_manager k) Q Er.
Proof.
  intros H m Hm. unfold bind, get_manager. by apply (H m Hm).
Qed.

Lemma hoare_set_active (P : Manager St → Prop) a (Q : unit → Manager St → Prop) Er :
  (∀ m, P m → Q () (mkManager (config m) (pending_opt m) a (recovery_store_opt m)
                      (recovery_required m))) →
  hoare P (set_active a) Q Er.
Proof. intros H m Hm. by apply H. Qed.

Lemma hoare_set_pending (P : Manager St → Prop) p (Q : unit → Manager St → Prop) Er :
  (∀ m, P m → Q () (mkManager (config m) p (active_opt m) (recovery_store_opt m)
                      (recovery_required m))) →
  hoare P (set_pending p) Q Er.
Proof. intros H m Hm. by apply H. Qed.

(** ** Every call keeps the invariant *)

Context (limit : Z).
Hypothesis A0_limit : ∀ auth, A0 auth → max_total_charge_wei (policy auth) ≤ limit.

Abbreviation I := (manager_inv limit).
Abbreviation keeps L c := (hoare (I L) c (fun _ => I L) (I L)).

Lemma inv_end_session L m p s r :
  I L m → (p = pending_opt m ∨ p = None) → I L (mkManager (config m) p None s r).
Proof.
  intros [Hc Hl Hp Ha] Hpm. split; simpl; [done|done| |done].
  intros p' ->. destruct Hpm as [Hpm|]; [by apply Hp|done].
Qed.

Lemma keeps_set_store L s : keeps L (set_store s).
Proof. intros m [Hc Hl Hp Ha]. by split. Qed.

Lemma keeps_end L : keeps L (set_active None).
Proof. apply hoare_set_active. intros m Hm. apply inv_end_session; auto. Qed.

Lemma keeps_clear_store L : keeps L clear_store.
Proof.
  apply hoare_with_manager. intros m0 Hm0.
  destruct (recovery_store_opt m0).
  - eapply hoare_pre; [apply keeps_set_store|]. by intros ? ->.
  - apply hoare_ret. by intros ? ->.
Qed.

Lemma keeps_revoke L {A} msg : keeps L (revoke_after_persistence_error (A:=A) msg).
Proof.
  eapply hoare_seq; [apply keeps_end|].
  eapply hoare_seq; [apply keeps_clear_store|].
  by apply hoare_fail.
Qed.

(** The common end of [persist_header] and [persist_route]. *)
Lemma keeps_persist L (m0 : Manager St) (save : St → result unit string * St) :
  keeps L (match recovery_store_opt m0 with
           | Some s =>
               let '(r, s') := save s in
               do _ := set_store (Some s') in
               match r with Ok _ => ret () | Err msg => revoke_after_persistence_error msg end
           | None =>
               if recovery_required m0 then revoke_after_persistence_error NO_PASSWORD else ret ()
           end).
Proof.
  destruct (recovery_store_opt m0) as [s|].
  - destruct (save s) as [r s']. eapply hoare_seq; [apply keeps_set_store|].
    destruct r; [by apply hoare_ret|apply keeps_revoke].
  - destruct (recovery_required m0); [apply keeps_revoke|by apply hoare_ret].
Qed.

Lemma keeps_persist_header L : keeps L persist_header.
Proof.
  apply hoare_with_manager. intros m0 Hm0.
  destruct (active_opt m0) as [a|]; [|apply hoare_ret; by intros ? ->].
  eapply hoare_pre; [apply keeps_persist|]. by intros ? ->.
Qed.

Lemma keeps_persist_route L k : keeps L (persist_route k).
Proof.
  apply hoare_with_manager. intros m0 Hm0.
  destruct (active_opt m0) as [a|]; [|apply hoare_ret; by intros ? ->].
  destruct (find_stream k (routes a)) as [[i route]|]; [|apply hoare_fail; by intros ? ->].
  eapply hoare_pre; [apply keeps_persist|]. by intros ? ->.
Qed.

Lemma keeps_status L now : keeps L (status now).
Proof.
  apply hoare_with_manager. intros m0 Hm0.
  eapply hoare_seq with (P' := I L).
  - destruct (match active_opt m0 with Some _ => _ | None => false end).
    + eapply hoare_pre; [eapply hoare_seq; [apply keeps_end|apply keeps_clear_store]|].
      by intros ? ->.
    + apply hoare_ret. by intros ? ->.
  - apply hoare_with_manager. intros m1 Hm1.
    destruct (active_opt m1) as [a|]; [cbv zeta; case_match|]; apply hoare_ret; by intros ? ->.
Qed.

Lemma keeps_stop L : keeps L stop.
Proof.
  eapply hoare_seq with (P' := I L).
  { apply hoare_set_pending. intros m [Hc Hl Hp Ha]. by split. }
  eapply hoare_seq; [apply keeps_end|].
  eapply hoare_seq; [apply keeps_clear_store|]. by apply hoare_ret.
Qed.

(** ** Routes *)

Lemma find_stream_Some k rs i route :
  find_stream k rs = Some (i, route) → rs !! i = Some route ∧ stream_key route = k.
Proof. unfold find_stream. intros (? & ? & _)%list_find_Some. done. Qed.

Lemma find_stream_None k rs : find_stream k rs = None → k ∉ (stream_key <$> rs).
Proof.
  unfold find_stream. intros H%list_find_None (r & -> & Hr)%list_elem_of_fmap.
  rewrite Forall_forall in H. by apply (H r).
Qed.

Lemma find_epoch_Some e rs i route :
  find_epoch e rs = Some (i, route) → rs !! i = Some route ∧ rsr_route_epoch (request route) = e.
Proof. unfold find_epoch. intros (? & ? & _)%list_find_Some. done. Qed.

Lemma keeps_with_stream {A} L k now (body : _ → _ → _ → M St A) :
  (∀ active i route, session_inv L active → routes active !! i = Some route →
     stream_key route = k → keeps L (body active i route)) →
  keeps L (with_stream k now body).
Proof.
  intros Hbody. eapply hoare_seq; [apply keeps_status|].
  apply hoare_with_manager. intros m0 Hm0.
  destruct (active_opt m0) as [a|] eqn:Ha; [|apply hoare_fail; by intros ? ->].
  destruct (find_stream k (routes a)) as [[i route]|] eqn:Hf; [|apply hoare_fail; by intros ? ->].
  apply find_stream_Some in Hf as [? ?].
  eapply hoare_pre; [apply Hbody; [by eapply mi_active|done|done]|]. by intros ? ->.
Qed.

Lemma hoare_with_epoch {A} L epoch now (body : _ → _ → _ → M St A) Q (Er : Manager St → Prop) :
  (∀ m, I L m → Er m) →
  (∀ active i route, session_inv L active → routes active !! i = Some route →
     rsr_route_epoch (request route) = epoch →
     hoare (fun m => I L m ∧ active_opt m = Some active) (body active i route) Q Er) →
  hoare (I L) (with_epoch epoch now body) Q Er.
Proof.
  intros HE Hbody.
  eapply hoare_seq; [eapply hoare_conseq; [apply keeps_status|done|intros ? ? H0; exact H0|done]|].
  apply hoare_with_manager. intros m0 Hm0.
  destruct (active_opt m0) as [a|] eqn:Ha; [|apply hoare_fail; intros ? ->; by apply HE].
  destruct (find_epoch epoch (routes a)) as [[i route]|] eqn:Hf;
    [|apply hoare_fail; intros ? ->; by apply HE].
  apply find_epoch_Some in Hf as [? ?].
  eapply hoare_pre; [apply Hbody; [by eapply mi_active|done|done]|]. by intros ? ->.
Qed.

Lemma inv_set_active L L' m a :
  I L m → covered L' limit → session_inv L' a →
  I L' (mkManager (config m) (pending_opt m) (Some a) (recovery_store_opt m) (recovery_required m)).
Proof. intros [Hc Hl Hp Ha] Hl' Hs. split; simpl; [done|done|done|]. by intros ? [= <-]. Qed.

Lemma keeps_set_session L a : session_inv L a → keeps L (set_active (Some a)).
Proof.
  intros Ha. apply hoare_set_active. intros m Hm.
  eapply inv_set_active; [done| |done]. by apply Hm.
Qed.

Lemma session_inv_route L a i route :
  session_inv L a → routes a !! i = Some route → route_inv L (active_authorization a) route.
Proof. intros Ha Hi. eapply Forall_lookup_1; [apply Ha|done]. Qed.

(** Replacing a route's state, and its spending. *)
Lemma session_inv_update L L' a i route route' spent :
  session_inv L a → L ⊆ L' → routes a !! i = Some route →
  stream_key route' = stream_key route → request route' = request route →
  route_inv L' (active_authorization a) route' →
  0 ≤ spent ≤ max_total_charge_wei (policy (active_authorization a)) → covered L' spent →
  Forall (route_inv L' (active_authorization a)) (routes a) →
  session_inv L' (mkActive (active_authorization a) (payer_cryptde a) (<[i:=route']> (routes a)) spent).
Proof.
  intros Ha HL Hi Hk Hr Hroute Hspent Hcov Hall. destruct Ha as [Hauth _ _ Hn Hs He _].
  split; simpl; [done|done|done| | | |].
  - by rewrite length_insert.
  - by rewrite (fmap_insert_same _ _ _ _ _ Hi Hk).
  - rewrite (fmap_insert_same _ _ _ _ _ Hi); [done|]. simpl. by rewrite Hr.
  - by apply Forall_insert.
Qed.

Lemma keeps_put_route L a i route route' :
  session_inv L a → routes a !! i = Some route →
  stream_key route' = stream_key route → request route' = request route →
  route_inv L (active_authorization a) route' →
  keeps L (put_route a i route').
Proof.
  intros Ha Hi Hk Hr Hroute. apply keeps_set_session.
  by eapply session_inv_update; try (done || apply Ha).
Qed.

Lemma fresh_route_request_Ok a rand req :
  fresh_route_request a rand = Ok req →
  request_inv (active_authorization a) req ∧
  rsr_route_epoch req ∉ (rsr_route_epoch ∘ request <$> routes a).
Proof.
  unfold fresh_route_request, session_request_new. intros H. rust_inv H.
  rewrite map_err_Ok in H. rust_inv H. apply orb_false_iff in Hguard as [Hz He]. subst req.
  split; [by split|]. simpl. intros (r & Hr & Hin)%list_elem_of_fmap.
  apply not_true_iff_false in He. apply He, existsb_exists. exists r.
  split; [by apply list_elem_of_In|]. by apply bool_decide_eq_true.
Qed.

Lemma route_state_inv L auth k req : request_inv auth req → route_inv L auth (route_state k req).
Proof.
  intros Hreq. split; simpl; [done|lia|done|done|done|apply map_Forall_empty|].
  intros _. split; [constructor|]. split; [constructor|apply map_Forall_empty].
Qed.

Lemma session_inv_append L a k req :
  session_inv L a → k ∉ (stream_key <$> routes a) →
  (length (routes a) < MAX_RECEIPT_SESSION_ROUTES)%nat →
  request_inv (active_authorization a) req →
  rsr_route_epoch req ∉ (rsr_route_epoch ∘ request <$> routes a) →
  session_inv L (with_routes a (routes a ++ [route_state k req])).
Proof.
  intros [Hauth Hs Hc Hn Hk He Hr] Hfresh Hlt Hreq Hep.
  split; simpl; [done|done|done| | | |].
  - rewrite length_app. simpl. lia.
  - rewrite fmap_app. apply NoDup_app. split; [done|]. split; [|apply NoDup_singleton].
    intros x Hx ->%list_elem_of_singleton. done.
  - rewrite fmap_app. apply NoDup_app. split; [done|]. split; [|apply NoDup_singleton].
    intros x Hx ->%list_elem_of_singleton. done.
  - apply Forall_app. split; [done|]. apply Forall_singleton. by apply route_state_inv.
Qed.

Lemma session_inv_replace L a i route req :
  session_inv L a → routes a !! i = Some route →
  request_inv (active_authorization a) req →
  rsr_route_epoch req ∉ (rsr_route_epoch ∘ request <$> routes a) →
  session_inv L (with_routes a (<[i := route_state (stream_key route) req]> (routes a))).
Proof.
  intros [Hauth Hs Hc Hn Hk He Hr] Hi Hreq Hep.
  split; simpl; [done|done|done| | | |].
  - by rewrite length_insert.
  - by rewrite (fmap_insert_same _ _ _ _ _ Hi).
  - rewrite list_fmap_insert. by apply NoDup_insert_fresh.
  - apply Forall_insert; [done|]. by apply route_state_inv.
Qed.

Lemma keeps_request_for_stream L k now rand : keeps L (request_for_stream k now rand).
Proof.
  eapply hoare_seq; [apply keeps_status|]. apply hoare_with_manager. intros m0 Hm0.
  destruct (active_opt m0) as [a|] eqn:Ha; [|apply hoare_ret; by intros ? ->].
  destruct (find_stream k (routes a)) as [[i route]|] eqn:Hf; [apply hoare_ret; by intros ? ->|].
  destruct (_ <=? _)%nat eqn:Hn; [apply hoare_fail; by intros ? ->|].
  eapply hoare_bind; [apply hoare_lift; by intros ? ->|]. intros req.
  apply hoare_pure. intros [Hreq Hep]%fresh_route_request_Ok. guards.
  eapply hoare_seq; [|eapply hoare_seq; [apply keeps_persist_route|by apply hoare_ret]].
  eapply hoare_pre; [apply keeps_set_session|by intros ? ->].
  apply session_inv_append; try done; [by eapply mi_active|by apply find_stream_None].
Qed.

Lemma keeps_rotate L k now rand : keeps L (rotate_route_for_stream k now rand).
Proof.
  eapply hoare_seq; [apply keeps_status|]. apply hoare_with_manager. intros m0 Hm0.
  destruct (active_opt m0) as [a|] eqn:Ha; [|apply hoare_ret; by intros ? ->].
  eapply hoare_bind; [apply hoare_lift; by intros ? ->|]. intros req.
  apply hoare_pure. intros [Hreq Hep]%fresh_route_request_Ok.
  eapply hoare_seq; [|eapply hoare_seq; [apply keeps_persist_route|by apply hoare_ret]].
  pose proof (mi_active _ _ _ Hm0 _ Ha) as Hs.
  destruct (find_stream k (routes a)) as [[i route]|] eqn:Hf.
  - apply find_stream_Some in Hf as [Hi <-].
    eapply hoare_pre; [by apply keeps_set_session, session_inv_replace|by intros ? ->].
  - apply find_stream_None in Hf.
    destruct (_ <? _)%nat eqn:Hn; [|apply hoare_fail; by intros ? ->]. guards.
    eapply hoare_pre; [by apply keeps_set_session, session_inv_append|by intros ? ->].
Qed.

Lemma keeps_bind_exit_quote L k provider sr br now :
  Q0 provider → keeps L (bind_exit_quote k provider sr br now).
Proof.
  intros Hgood. apply keeps_with_stream. intros a i route Ha Hi Hk.
  destruct (expected_provider_public_key_opt route) as [p|] eqn:Hp,
    (exit_service_rate_opt route), (exit_byte_rate_opt route);
    try (by apply hoare_fail).
  - case_match; [by apply hoare_ret|by apply hoare_fail].
  - pose proof (session_inv_route _ _ _ _ Ha Hi) as [Hq Ho Hc _ Hl Hs Hb].
    eapply hoare_seq; [|apply keeps_persist_route].
    eapply keeps_put_route; try done. split; simpl; try done; [|by intros ? [= <-]].
    intros cp Hcp. destruct (Hc cp Hcp) as (? & ? & _). congruence.
Qed.

(** The states of fresh quotes hold no checkpoint and no acknowledgement. *)
Definition fresh_state (s : RoutingProviderReceiptState) : Prop :=
  rp_checkpoint_opt s = None ∧ rp_acknowledged_payload_opt s = None ∧ observed_payloads s = [].

Lemma collect_quotes_fresh quotes states states' :
  Forall (fun q => Q0 (q_provider_public_key q)) quotes →
  collect_quotes quotes states = Ok states' →
  map_Forall (fun p s => Q0 p ∧ fresh_state s) states →
  map_Forall (fun p s => Q0 p ∧ fresh_state s) states'.
Proof.
  revert states. induction quotes as [|q quotes IH]; intros states Hgood; simpl.
  - by intros [= <-].
  - apply Forall_cons in Hgood as [Hq Hgood]. case_match.
    + case_match; [done|]. by apply IH.
    + intros H0 Hs. apply (IH _ Hgood H0). by apply map_Forall_insert_2.
Qed.

Lemma keeps_bind_routing_quotes L k rq rs now :
  Forall (fun q => Q0 (q_provider_public_key q)) (rq ++ rs) →
  (B0 → NoDup (map q_provider_public_key rq) ∧ NoDup (map q_provider_public_key rs)) →
  keeps L (bind_routing_quotes k rq rs now).
Proof.
  intros Hgood Hnd. apply keeps_with_stream. intros a i route Ha Hi Hk.
  cbv zeta. case_match; [case_match; [by apply hoare_fail|by apply hoare_ret]|].
  eapply hoare_bind; [by apply hoare_lift|]. intros states.
  apply hoare_pure. intros Hc. apply collect_quotes_fresh in Hc; [|done|apply map_Forall_empty].
  pose proof (session_inv_route _ _ _ _ Ha Hi) as [Hq Ho Hcp He Hl Hs _].
  eapply hoare_seq; [|apply keeps_persist_route].
  eapply keeps_put_route; try done. split; simpl; try done.
  - intros p s (Hg & Hn1 & Hn2 & _)%Hc. split; [done|]. split; [by rewrite Hn1|]. unfold in_ledger. by rewrite Hn2.
  - intros [? ?]%Hnd. split; [done|]. split; [done|]. intros p s (_ & _ & _ & ->)%Hc. simpl. lia.
Qed.

(** Pushing observations changes nothing else, and never misses a provider
    that was found before. *)
Lemma push_payloads_spec providers size states :
  (∀ p, p ∈ providers → is_Some (states !! p)) →
  ∃ states', push_payloads providers size states = Ret states' ∧
    ∀ p s', states' !! p = Some s' → ∃ s, states !! p = Some s ∧
      rp_checkpoint_opt s' = rp_checkpoint_opt s ∧
      rp_acknowledged_payload_opt s' = rp_acknowledged_payload_opt s ∧
      (p ∉ providers → observed_payloads s' = observed_payloads s) ∧
      (NoDup providers → length (observed_payloads s') ≤ S (length (observed_payloads s)))%nat.
Proof.
  revert states. induction providers as [|p ps IH]; intros states Hin; simpl.
  - exists states. split; [done|]. intros p s' Hs. exists s'. split_and!; auto.
  - destruct (Hin p) as [s Hs]; [set_solver|]. rewrite Hs. simpl.
    destruct (IH (<[p := push_payload size s]> states)) as (states' & Hrun & Hst).
    { intros q Hq. destruct (decide (q = p)) as [->|].
      - rewrite lookup_insert_eq. eauto.
      - rewrite lookup_insert_ne by done. apply Hin. set_solver. }
    exists states'. split; [done|]. intros q s' (s0 & Hs0 & H1 & H2 & H3 & H4)%Hst.
    destruct (decide (q = p)) as [->|].
    + rewrite lookup_insert_eq in Hs0. injection Hs0 as <-. exists s. split_and!; try done; [set_solver|].
      intros [Hn _]%NoDup_cons. rewrite (H3 Hn). cbn. rewrite length_app. cbn. lia.
    + rewrite lookup_insert_ne in Hs0 by done. exists s0. split_and!; try done; [set_solver|].
      intros [_ ?]%NoDup_cons. auto.
Qed.

Lemma record_routing_payload_inv L auth route providers size :
  route_inv L auth route → (B0 → NoDup providers) →
  match record_routing_payload route providers size with
  | Ret (Ok route') =>
      stream_key route' = stream_key route ∧ request route' = request route ∧
      route_inv L auth route'
  | Ret (Err e) => e = ReceiptObservationMismatch
  | Panic => False
  end.
Proof.
  intros [Hq Ho Hcp He Hl Hs Hb] Hnd. unfold record_routing_payload.
  destruct (existsb _ providers) eqn:Hex; [done|].
  destruct (push_payloads_spec providers size (routing_provider_states route))
    as (states' & -> & Hst).
  { intros p Hp. apply not_true_iff_false in Hex. apply not_eq_None_Some. intros Hnone.
    apply Hex, existsb_exists. exists p. rewrite Hnone. split; [by apply list_elem_of_In|done]. }
  simpl. split; [done|]. split; [done|]. split; simpl; try done.
  - intros p s' (s & Hsp & H1 & H2 & _)%Hst. destruct (Hs p s Hsp) as (? & ? & ?).
    split; [done|]. split; [by rewrite H1|by rewrite H2].
  - intros HB. destruct (Hb HB) as (? & ? & Hpb). split; [done|]. split; [done|].
    intros p s' (s & Hsp & _ & _ & H3 & H4)%Hst. specialize (H4 (Hnd HB)).
    destruct (decide (p ∈ providers)) as [Hp|Hp]; [|rewrite (H3 Hp); by apply (Hpb p s)].
    enough (length (observed_payloads s) < MAX_PENDING_RECEIPT_RESPONSES_PER_ROUTE)%nat by lia.
    apply Nat.nle_gt. intros Hfull. apply not_true_iff_false in Hex. apply Hex, existsb_exists.
    exists p. split; [by apply list_elem_of_In|]. rewrite Hsp. by apply Nat.leb_le.
Qed.

Lemma keeps_record_routing L k size now (dir : ReceiptRouteState → list PublicKey) :
  dir = routing_request_providers ∨ dir = routing_response_providers →
  keeps L (with_stream k now (fun active i route =>
    do route' := lift_fallible (record_routing_payload route (dir route) size) in
    do _ := put_route active i route' in
    persist_route k)).
Proof.
  intros Hdir. apply keeps_with_stream. intros a i route Ha Hi Hk.
  pose proof (session_inv_route _ _ _ _ Ha Hi) as Hroute.
  assert (B0 → NoDup (dir route)) as Hnd.
  { intros (? & ? & _)%(rt_payloads _ _ _ Hroute). by destruct Hdir as [-> | ->]. }
  pose proof (record_routing_payload_inv L _ route (dir route) size Hroute Hnd) as Hrec.
  eapply hoare_bind; [apply hoare_lift_fallible; [|done]|].
  { intros Hp. by rewrite Hp in Hrec. }
  intros route'. apply hoare_pure. intros Hr. rewrite Hr in Hrec.
  destruct Hrec as (? & ? & ?).
  eapply hoare_seq; [|apply keeps_persist_route]. by eapply keeps_put_route.
Qed.

Lemma with_observations_inv L auth route observed size units :
  route_inv L auth route →
  (length observed ≤ MAX_PENDING_RECEIPT_RESPONSES_PER_ROUTE)%nat →
  route_inv L auth (with_observations route observed size units).
Proof. intros [] Hlen. by split. Qed.

Lemma keeps_record_exit_response L k seq size now : keeps L (record_exit_response k seq size now).
Proof.
  apply keeps_with_stream. intros a i route Ha Hi Hk.
  destruct (_ || _) eqn:Hg; [by apply hoare_fail|]. guards.
  destruct (existsb _ _); [by apply hoare_fail|].
  eapply hoare_bind; [by apply hoare_lift|]. intros aggregate_size. apply hoare_pure. intros _.
  eapply hoare_bind; [by apply hoare_lift|]. intros aggregate_units. apply hoare_pure. intros _.
  eapply hoare_seq; [|apply keeps_persist_route]. eapply keeps_put_route; try done.
  apply with_observations_inv; [by eapply session_inv_route|]. rewrite length_app. simpl. lia.
Qed.

Lemma keeps_record_exit_request L k size now : keeps L (record_exit_request k size now).
Proof.
  apply keeps_with_stream. intros a i route Ha Hi Hk.
  destruct (_ =? _); [by apply hoare_ret|].
  pose proof (session_inv_route _ _ _ _ Ha Hi) as Hroute.
  assert (∀ s u, keeps L (put_route a i (with_observations route (observed_responses route) s u)))
    as Hput.
  { intros s u. eapply keeps_put_route; try done. apply with_observations_inv; [done|apply Hroute]. }
  eapply hoare_bind; [by apply hoare_lift|]. intros sz. apply hoare_pure. intros _.
  eapply hoare_seq; [apply Hput|].
  eapply hoare_bind; [by apply hoare_lift|]. intros units. apply hoare_pure. intros _.
  eapply hoare_seq; [apply Hput|]. apply keeps_persist_route.
Qed.

(** ** Proposing, activating, decrypting *)

Hypothesis K0_new : ∀ rand, K0 (new_cryptde (token_contract cfg) rand).
Hypothesis K0_verify : ∀ c pk, K0 c → Q0 pk ∨ pk = public_key c → panics ∨ verifies_under c pk.
Hypothesis K0_decode : ∀ c ct, K0 c → decode c ct = Panic → panics.

Lemma keeps_propose L max d now kr nr : keeps L (propose max d now kr nr).
Proof.
  unfold propose. destruct (parse_u128 max) as [n|]; [|by apply hoare_fail].
  case_match; [by apply hoare_fail|]. case_match; [by apply hoare_fail|].
  eapply hoare_bind; [by apply hoare_lift|]. intros expires. apply hoare_pure. intros _.
  apply hoare_with_manager. intros m0 Hm0. cbv zeta. rewrite (mi_config _ _ _ Hm0).
  case_match; [apply hoare_fail; by intros ? ->|].
  eapply hoare_bind; [apply hoare_lift; by intros ? ->|]. intros typed.
  apply hoare_pure. intros _.
  eapply hoare_seq with (P' := I L); [|by apply hoare_ret].
  apply hoare_set_pending. intros ? ->. destruct Hm0 as [Hc Hl Hp Ha].
  split; simpl; [done|done| |done]. intros ? [= <-]. by split; simpl; rewrite ?Hc.
Qed.

Lemma keeps_decrypt L from_slice offer now : keeps L (decrypt_routing_offer from_slice offer now).
Proof.
  eapply hoare_seq; [apply keeps_status|]. apply hoare_with_manager. intros m0 Hm0.
  destruct (active_opt m0) as [a|] eqn:Ha; [|apply hoare_fail; by intros ? ->].
  eapply hoare_conseq; [apply hoare_lift_fallible with (P := I L); [|done]|..].
  - unfold decodex. rewrite map_err_fallible_Panic, try_bind_Panic, map_err_fallible_Panic.
    intros [Hp|(x & _ & Hx)]; [|done]. eapply K0_decode; [|done].
    eapply ai_key, si_authorization, mi_active; done.
  - by intros ? ->.
  - by intros ?? [? _].
  - done.
Qed.

Lemma session_inv_fresh auth c :
  authorization_inv auth c → 0 ≤ max_total_charge_wei (policy auth) →
  session_inv [] (mkActive auth c [] 0).
Proof.
  intros Ha Hm. split; simpl; try done; [|unfold MAX_RECEIPT_SESSION_ROUTES; lia|constructor..].
  by apply covered_nil.
Qed.

Lemma session_verify_limit s chain_id contract key now u :
  session_verify s chain_id contract key now 0 = Ok u →
  0 ≤ max_total_charge_wei (policy s) ≤ MAX_RECEIPT_SESSION_CHARGE_WEI.
Proof.
  intros (_ & _ & _ & _ & _ & H & _)%session_verify_Ok. lia.
Qed.

(** A session that has just been activated has an empty ledger. *)
Lemma hoare_activate L id sig now :
  0 ≤ limit →
  (∀ auth key now, session_verify auth (cfg_chain_id cfg) (cfg_settlement_contract cfg) key now 0
                   = Ok () → A0 auth) →
  hoare (I L) (activate id sig now) (fun _ => I []) (fun m => I L m ∨ I [] m).
Proof.
  intros Hlim HA. apply hoare_with_manager. intros m0 Hm0.
  destruct (pending_opt m0) as [p|] eqn:Hp; [|apply hoare_fail; intros ? ->; by left].
  pose proof (mi_pending _ _ _ Hm0 _ Hp) as [Hk Hkey Hw].
  destruct (negb _); [apply hoare_fail; intros ? ->; by left|].
  destruct (_ <? _).
  { eapply hoare_seq with (P' := I L); [|apply hoare_fail; by left].
    apply hoare_set_pending. intros ? ->. destruct Hm0. by split. }
  eapply hoare_bind; [apply hoare_lift; intros ? ->; by left|]. intros s. apply hoare_pure. intros _.
  cbv zeta.
  eapply hoare_bind; [apply hoare_lift; intros ? ->; by left|]. intros [].
  apply hoare_pure. rewrite map_err_Ok, (mi_config _ _ _ Hm0). intros Hv.
  eapply hoare_seq with (P' := I L).
  { destruct (recovery_store_opt m0) as [st|].
    - destruct (store_clear st) as [r st'].
      eapply hoare_conseq with (Er := I L) (Q := fun _ => I L);
        [eapply hoare_seq; [apply keeps_set_store|]|by intros ? ->|done|by left].
      eapply hoare_conseq; [by apply hoare_lift with (Er := I L)|done|by intros ?? [? _]|done].
    - destruct (recovery_required m0); [apply hoare_fail; intros ? ->; by left|].
      apply hoare_ret. by intros ? ->. }
  eapply hoare_seq with (P' := I L).
  { apply hoare_set_pending. intros m [Hc Hl Hp' Ha]. by split. }
  eapply hoare_conseq with (P := I L) (Er := I []) (Q := fun _ => I []); [|done|done|by right].
  eapply hoare_seq with (P' := I []); [|eapply hoare_seq; [apply keeps_persist_header|apply keeps_status]].
  apply hoare_set_active. intros m Hm. eapply inv_set_active; [done|by apply covered_nil|].
  apply session_inv_fresh; [|by eapply session_verify_limit].
  split; simpl; try done; [by eapply HA|]. rewrite <- Hkey. by eexists.
Qed.

(** ** Acknowledging *)

Lemma acknowledge_Ok s c a :
  acknowledge s c = Ret (Ok a) → signed_receipt a = s ∧ payer_session_public_key a = public_key c.
Proof. unfold acknowledge. intros H. rust_inv H. by subst a. Qed.

(** What a charged offer guarantees. *)
Record charged (a : ActiveReceiptSession) (now : Z) (signed : SignedServiceReceipt)
    (cp_opt : option ReceiptSequenceCheckpoint) (cp : ReceiptSequenceCheckpoint)
    (p : ServiceReceiptPayload_0v1) (spent : Z) : Prop := {
  ch_authorization : payload_authorization p = active_authorization a;
  ch_signed : signed_receipt (acknowledged_receipt p) = signed;
  ch_authorizes : session_authorizes (active_authorization a) (cfg_chain_id cfg)
    (cfg_settlement_contract cfg) (public_key (payer_cryptde a)) now
    (cumulative_charge_wei (receipt signed));
  ch_provider : provider_signed signed (payer_cryptde a);
  ch_payer : payer_signed (acknowledged_receipt p) (payer_cryptde a);
  ch_commitment : accounting_commitment (receipt signed) =
    make_accounting_commitment (route_epoch (receipt signed)) (public_key (payer_cryptde a));
  ch_checkpoint : cp = checkpoint_of (receipt signed) (public_key (payer_cryptde a));
  ch_previous : match cp_opt with
    | Some old => last_sequence old < sequence (receipt signed) ∧
        cumulative_charge_wei (receipt signed) =
          cp_cumulative_charge_wei old + charge_of (receipt signed)
    | None => cumulative_charge_wei (receipt signed) = charge_of (receipt signed)
    end;
  ch_positive : 0 ≤ charge_of (receipt signed);
  ch_spent : spent = spent_charge_wei a + charge_of (receipt signed);
  ch_limit : spent ≤ max_total_charge_wei (policy (active_authorization a));
}.

(** A checkpoint moves by exactly the charge of the receipt. *)
Lemma next_checkpoint_Ok cp_opt ack c cp previous :
  next_checkpoint cp_opt ack c = Ret (Ok (cp, previous)) →
  let r := receipt (signed_receipt ack) in
  acknowledged_verify ack c = Ret (Ok (charge_of r)) ∧
  cp = checkpoint_of r (payer_session_public_key ack) ∧
  cp_cumulative_charge_wei cp = previous + charge_of r ∧
  match cp_opt with
  | Some old => last_sequence old < sequence r ∧ previous = cp_cumulative_charge_wei old
  | None => previous = 0
  end.
Proof.
  unfold next_checkpoint, begin, advance. destruct cp_opt as [old|]; intros H.
  - apply try_bind_Ok in H as ([cp' amount] & Hadv & [= <- <-]%Ret_inj%Ok_inj).
    apply advance_Ok in Hadv as (Hv & (He & Hp & Hc & Hk) & Hseq & _ & Ht & -> & _).
    cbv zeta. split; [done|]. split; [|split; [exact Ht|done]].
    unfold checkpoint_after, checkpoint_of. by rewrite He, Hp, Hc, Hk.
  - apply try_bind_Ok in H as (cp' & Hbeg & [= <- <-]%Ret_inj%Ok_inj).
    apply begin_Ok in Hbeg as (Hv & Ht & ->).
    cbv zeta. split; [done|]. split; [done|]. split; [|done]. exact Ht.
Qed.

Lemma charge_offer_Ok a cp_opt signed now cp p spent :
  charge_offer cfg a cp_opt signed now = Ret (Ok (cp, p, spent)) →
  charged a now signed cp_opt cp p spent.
Proof.
  unfold charge_offer. intros H. apply try_bind_Ok in H as (ack & Hack & H).
  apply map_err_fallible_Ok, acknowledge_Ok in Hack as [Hs Hk].
  apply try_bind_Ok in H as (charge & Hver & H). apply map_err_fallible_Ok in Hver.
  unfold verify_for_receipt in Hver. apply try_bind_Ok in Hver as (c & Hav & Hver).
  apply try_bind_Ok in Hver as ([] & Hses & _). apply Ret_inj, session_verify_Ok in Hses.
  apply try_bind_Ok in H as ([cp' previous] & Hcp & H). apply map_err_fallible_Ok in Hcp.
  apply next_checkpoint_Ok in Hcp as (_ & -> & Hcum & Hprev).
  apply acknowledged_verify_Ok in Hav as (_ & _ & Hps & Hpay & _ & Hcommit).
  rewrite Hs, Hk in *. rust_inv H. unfold ok_or in *. guards.
  destruct (checked_sub _ _ _) as [d|] eqn:Hsub; [|done]. apply Ok_inj in Hrun as ->.
  destruct (checked_add _ _ _) as [t|] eqn:Hadd; [|done]. apply Ok_inj in Hrun0 as ->.
  apply checked_sub_Some in Hsub as [-> Hin]. apply checked_add_Some in Hadd as [-> _].
  injection H as <- <- <-. rewrite Hcum in Hin, Hguard. unfold in_u in Hin.
  change (cp_cumulative_charge_wei _) with (cumulative_charge_wei (receipt signed)) in Hcum.
  split; simpl; try done; try lia. destruct cp_opt; [|lia]. destruct Hprev. split; [done|lia].
Qed.

Lemma acknowledge_returns s c :
  verifies_under c (provider_public_key (receipt s)) → acknowledge s c ≠ Panic.
Proof.
  intros T. unfold acknowledge. pose proof (signed_verify_returns s c T).
  destruct (signed_verify s c) as [[t|]|]; try done. cbn [try_bind].
  destruct (_ =? _)%nat; [done|]. destruct (negb _); [done|].
  destruct (acknowledgement_data _ _) as [d|]; [|done]. cbn [try_bind].
  by destruct (sign c d).
Qed.

Lemma next_checkpoint_returns cp_opt ack c :
  verifies_under c (provider_public_key (receipt (signed_receipt ack))) →
  verifies_under c (payer_session_public_key ack) → next_checkpoint cp_opt ack c ≠ Panic.
Proof.
  intros T T'. pose proof (acknowledged_verify_returns ack c T T') as Hv.
  unfold next_checkpoint, begin, advance, begin_with_contiguity, advance_with_contiguity.
  destruct (acknowledged_verify ack c) as [[t|]|], cp_opt; try done; cbn [try_bind];
    repeat (case_match; try done); cbn [try_bind]; unfold ok_or in *;
    repeat (case_match; try done); simplify_eq/=.
Qed.

Lemma charge_offer_returns a cp_opt signed now :
  verifies_under (payer_cryptde a) (provider_public_key (receipt signed)) →
  verifies_under (payer_cryptde a) (public_key (payer_cryptde a)) →
  charge_offer cfg a cp_opt signed now ≠ Panic.
Proof.
  intros T T' Hp. unfold charge_offer in Hp.
  apply try_bind_Panic in Hp as [Hp|(ack & Hack & Hp)].
  { apply map_err_fallible_Panic in Hp. by eapply acknowledge_returns. }
  apply map_err_fallible_Ok, acknowledge_Ok in Hack as [Hs Hk]. rewrite <- Hs in T. rewrite <- Hk in T'.
  apply try_bind_Panic in Hp as [Hp|(t & _ & Hp)].
  { apply map_err_fallible_Panic in Hp. unfold verify_for_receipt in Hp.
    apply try_bind_Panic in Hp as [Hp|(u & _ & Hp)]; [by eapply acknowledged_verify_returns|].
    by apply try_bind_Panic in Hp as [|(? & _ & ?)]. }
  apply try_bind_Panic in Hp as [Hp|([cp previous] & _ & Hp)].
  { apply map_err_fallible_Panic in Hp. by eapply next_checkpoint_returns. }
  apply try_bind_Panic in Hp as [|(d & _ & Hp)]; [done|].
  apply try_bind_Panic in Hp as [|(s & _ & Hp)]; [done|]. by case_match.
Qed.

Lemma in_ledger_mono L L' auth p : L ⊆ L' → in_ledger L auth p → in_ledger L' auth p.
Proof. intros HL H q [? ?]%H. split; [done|set_solver]. Qed.

Lemma route_inv_mono L L' auth route : L ⊆ L' → route_inv L auth route → route_inv L' auth route.
Proof.
  intros HL [Hq Ho Hc He Ha Hs Hb]. split; try done; [by eapply in_ledger_mono|].
  eapply map_Forall_impl; [done|]. intros p s (? & ? & ?). split; [done|]. split; [done|by eapply in_ledger_mono].
Qed.

(** The checkpoint of a charged offer is the provider's on the route. *)
Lemma charged_identity L a i route now signed cp_opt cp p spent :
  session_inv L a → routes a !! i = Some route →
  rsr_route_epoch (request route) = route_epoch (receipt signed) →
  charged a now signed cp_opt cp p spent →
  checkpoint_identity route (provider_public_key (receipt signed)) cp.
Proof.
  intros Ha Hi He Hch. rewrite (ch_checkpoint _ _ _ _ _ _ _ Hch).
  destruct (rt_request _ _ _ (session_inv_route _ _ _ _ Ha Hi)) as [Hauth _ Hcom].
  destruct (si_authorization _ _ Ha) as [_ _ Hkey _ _].
  split; simpl; [done|]. split; [done|]. rewrite Hauth, Hkey. split; [|done].
  rewrite Hcom, He, Hkey. apply (ch_commitment _ _ _ _ _ _ _ Hch).
Qed.

(** Storing a charged offer in its route. *)
Lemma session_inv_charged L a i route route' now signed cp_opt cp p spent :
  session_inv L a → routes a !! i = Some route →
  charged a now signed cp_opt cp p spent →
  stream_key route' = stream_key route → request route' = request route →
  route_inv (signed :: L) (active_authorization a) route' →
  covered (signed :: L) spent ∧
  session_inv (signed :: L)
    (mkActive (active_authorization a) (payer_cryptde a) (<[i := route']> (routes a)) spent).
Proof.
  intros Ha Hi Hch Hk Hr Hroute.
  assert (covered (signed :: L) spent) as Hcov.
  { rewrite (ch_spent _ _ _ _ _ _ _ Hch). apply covered_cons; [apply Hch|apply Ha]. }
  split; [done|].
  eapply session_inv_update; try done; [set_solver| |].
  - pose proof (si_spent _ _ Ha). pose proof (ch_positive _ _ _ _ _ _ _ Hch).
    pose proof (ch_limit _ _ _ _ _ _ _ Hch). rewrite (ch_spent _ _ _ _ _ _ _ Hch) in *. lia.
  - eapply Forall_impl; [apply Ha|]. intros r. apply route_inv_mono. set_solver.
Qed.

(** After an acknowledgement the ledger has the receipt; after an error it may
    have it, where signing succeeded and saving did not. *)
Definition grown (L : list SignedServiceReceipt) (m : Manager St) : Prop :=
  ∃ L', L ⊆ L' ∧ I L' m.
Definition acknowledged_in (L : list SignedServiceReceipt) (signed : SignedServiceReceipt)
    (p : ServiceReceiptPayload_0v1) (m : Manager St) : Prop :=
  I (signed :: L) m ∧ A0 (payload_authorization p) ∧
  signed_receipt (acknowledged_receipt p) = signed.

Lemma grown_refl L m : I L m → grown L m.
Proof. intros H. by exists L. Qed.

Lemma hoare_charge L a i route cp_opt signed now
    (upd : ReceiptSequenceCheckpoint → ServiceReceiptPayload_0v1 → ReceiptRouteState) :
  session_inv L a → routes a !! i = Some route → Q0 (provider_public_key (receipt signed)) →
  (∀ cp p spent, charged a now signed cp_opt cp p spent →
     stream_key (upd cp p) = stream_key route ∧ request (upd cp p) = request route ∧
     route_inv (signed :: L) (active_authorization a) (upd cp p)) →
  hoare (I L)
    (do m := get_manager in
     do (cp, payload, spent) := lift_fallible (charge_offer (config m) a cp_opt signed now) in
     do _ := charged_route a i (upd cp payload) spent in
     do _ := persist_route (stream_key route) in
     ret payload)
    (acknowledged_in L signed) (grown L).
Proof.
  intros Ha Hi Hgood Hupd. apply hoare_with_manager. intros m0 Hm0. rewrite (mi_config _ _ _ Hm0).
  eapply hoare_bind.
  { apply hoare_lift_fallible; [|intros ? ->; by apply grown_refl].
    intros Hp. destruct (si_authorization _ _ Ha) as [_ Hk _ _ _].
    destruct (K0_verify _ _ Hk (or_introl Hgood)) as [|T]; [done|].
    destruct (K0_verify _ _ Hk (or_intror eq_refl)) as [|T']; [done|].
    by apply charge_offer_returns in Hp. }
  intros [[cp p] spent]. apply hoare_pure. intros Hch%charge_offer_Ok.
  destruct (Hupd _ _ _ Hch) as (Hk & Hr & Hroute).
  destruct (session_inv_charged _ _ _ _ _ _ _ _ _ _ _ Ha Hi Hch Hk Hr Hroute) as [Hcov Hs].
  assert (A0 (active_authorization a)) as HA by apply Ha.
  eapply hoare_conseq with (P := I L) (Er := I (signed :: L)) (Q := acknowledged_in L signed);
    [|by intros ? ->|done|intros; eexists; split; [|done]; set_solver].
  eapply hoare_seq with (P' := I (signed :: L)).
  - apply hoare_set_active. intros m Hm. eapply inv_set_active; [done| |done].
    eapply covered_mono; [done| |done].
    etrans; [apply (ch_limit _ _ _ _ _ _ _ Hch)|by apply A0_limit].
  - eapply hoare_seq; [apply keeps_persist_route|]. apply hoare_ret. intros m Hm.
    split; [done|]. rewrite (ch_authorization _ _ _ _ _ _ _ Hch). split; [done|apply Hch].
Qed.

(** Returning a stored acknowledgement again. *)
Lemma hoare_repeated L a payload_opt signed p :
  session_inv L a → in_ledger L (active_authorization a) payload_opt →
  repeated payload_opt signed = Some p →
  hoare (fun m => I L m ∧ active_opt m = Some a) (ret p) (acknowledged_in L signed) (grown L).
Proof.
  intros Ha Hl Hrep. unfold repeated in Hrep. destruct payload_opt as [q|]; [|done].
  case_bool_decide as Hq; [|done]. injection Hrep as <-.
  destruct (Hl q eq_refl) as [Hauth Hin]. rewrite Hq in Hin.
  apply hoare_ret. intros m [[Hc Hlim Hp Hact] Hma].
  assert (∀ s, covered L s → covered (signed :: L) s) as Hcov.
  { intros s. apply covered_mono; [set_solver|done]. }
  split; [|split; [rewrite Hauth; apply Ha|done]].
  split; [done|by apply Hcov|done|]. intros a' Ha'. destruct (Hact a' Ha') as [? ? Hcv ? ? ? Hr].
  split; try done; [by apply Hcov|]. eapply Forall_impl; [done|]. intros r.
  apply route_inv_mono. set_solver.
Qed.

Lemma in_ledger_new L a now signed cp_opt cp p spent :
  charged a now signed cp_opt cp p spent → in_ledger (signed :: L) (active_authorization a) (Some p).
Proof.
  intros Hch q [= <-]. split; [apply Hch|]. rewrite (ch_signed _ _ _ _ _ _ _ Hch). set_solver.
Qed.

Lemma hoare_acknowledge_routing L signed now :
  hoare (I L) (acknowledge_routing_offer signed now) (acknowledged_in L signed) (grown L).
Proof.
  apply hoare_with_epoch; [apply grown_refl|]. intros a i route Ha Hi He.
  pose proof (session_inv_route _ _ _ _ Ha Hi) as Hroute.
  assert (∀ m, I L m ∧ active_opt m = Some a → grown L m) as HE by (intros ? [? _]; by apply grown_refl).
  eapply hoare_bind; [by apply hoare_lift|]. intros s. apply hoare_pure. intros Hs.
  destruct (_ !! _) as [s'|] eqn:Hlook in Hs; [|done]. apply Ok_inj in Hs as ->.
  destruct (rt_providers _ _ _ Hroute _ _ Hlook) as (Hgood & Hid & Hled).
  destruct (repeated _ _) as [p|] eqn:Hrep; [by eapply hoare_repeated|].
  eapply hoare_bind; [by apply hoare_lift|]. intros size. apply hoare_pure. intros _.
  eapply hoare_bind; [by apply hoare_lift|]. intros seq. apply hoare_pure. intros _.
  destruct (_ || _); [by apply hoare_fail|].
  eapply hoare_pre; [|by intros ? [? _]].
  apply (hoare_charge L a i route (rp_checkpoint_opt s) signed now (fun cp payload =>
    with_provider_states route
      (<[provider_public_key (receipt signed) := with_provider_acknowledgement s cp payload]>
         (routing_provider_states route)))); [done|done|done|].
  intros cp p spent Hch. split; [done|]. split; [done|].
  pose proof (charged_identity _ _ _ _ _ _ _ _ _ _ Ha Hi He Hch) as Hcpid.
  destruct (route_inv_mono L (signed :: L) _ _ ltac:(set_solver) Hroute) as [Hq Ho Hc Hx Hl Hps Hb].
  split; simpl; try done.
  - apply map_Forall_insert_2; [|done].
    split; [done|]. split; simpl; [by intros ? [= <-]|by eapply in_ledger_new].
  - intros (? & ? & Hpb)%Hb. split; [done|]. split; [done|]. apply map_Forall_insert_2; [|done].
    assert (∀ l : list Z, length (tail l) ≤ length l)%nat as Htail by (intros []; simpl; lia).
    etrans; [apply Htail|exact (Hpb _ _ Hlook)].
Qed.

Lemma hoare_acknowledge L signed now :
  hoare (I L) (acknowledge_offer signed now) (acknowledged_in L signed) (grown L).
Proof.
  unfold acknowledge_offer. case_bool_decide; [apply hoare_acknowledge_routing|].
  apply hoare_with_epoch; [apply grown_refl|]. intros a i route Ha Hi He.
  pose proof (session_inv_route _ _ _ _ Ha Hi) as Hroute.
  assert (∀ m, I L m ∧ active_opt m = Some a → grown L m) as HE by (intros ? [? _]; by apply grown_refl).
  destruct (repeated _ _) as [p|] eqn:Hrep.
  { eapply hoare_repeated; [done| |done]. apply Hroute. }
  eapply hoare_bind; [by apply hoare_lift|]. intros provider. apply hoare_pure. intros Hprov.
  eapply hoare_bind; [by apply hoare_lift|]. intros sr. apply hoare_pure. intros _.
  eapply hoare_bind; [by apply hoare_lift|]. intros br. apply hoare_pure. intros _.
  eapply hoare_bind; [by apply hoare_lift|]. intros [[o_seq o_size] o_units].
  apply hoare_pure. intros _.
  destruct (negb _) eqn:Hp; [by apply hoare_fail|]. guards.
  destruct (_ || _); [by apply hoare_fail|].
  eapply hoare_pre; [|by intros ? [? _]].
  apply (hoare_charge L a i route (checkpoint_opt route) signed now (with_acknowledgement route));
    [done|done|subst; eapply rt_expected; [done|];
       destruct (expected_provider_public_key_opt route); [by apply Ok_inj in Hprov as ->|done]|].
  intros cp p spent Hch. split; [done|]. split; [done|].
  pose proof (charged_identity _ _ _ _ _ _ _ _ _ _ Ha Hi He Hch) as Hcpid.
  destruct (route_inv_mono L (signed :: L) _ _ ltac:(set_solver) Hroute) as [Hq Ho Hc Hx Hl Hps Hb].
  split; simpl; try done; [|intros cp' [= <-]|by eapply in_ledger_new].
  - destruct (observed_responses route); simpl in *; lia.
  - exists provider. destruct (expected_provider_public_key_opt route); [|done].
    apply Ok_inj in Hprov as ->. subst provider. done.
Qed.

(** ** Sequences of calls *)

Definition is_activation (c : Call) : bool :=
  match c with CallActivate _ _ _ => true | _ => false end.

(** The providers whose quotes a call brings. *)
Definition quotes_of (c : Call) : list PublicKey :=
  match c with
  | CallBindExit _ provider _ _ _ => [provider]
  | CallBindRouting _ rq rs _ => map q_provider_public_key (rq ++ rs)
  | _ => []
  end.
Definition quoted_once (c : Call) : Prop :=
  match c with
  | CallBindRouting _ rq rs _ =>
      NoDup (map q_provider_public_key rq) ∧ NoDup (map q_provider_public_key rs)
  | _ => True
  end.
Abbreviation call_ok := (fun c => Forall Q0 (quotes_of c) ∧ (B0 → quoted_once c)).

(** The payloads handed out are of the session and in the ledger. *)
Definition recorded (L : list SignedServiceReceipt) (ps : list ServiceReceiptPayload_0v1) : Prop :=
  Forall (fun p => A0 (payload_authorization p) ∧ signed_receipt (acknowledged_receipt p) ∈ L) ps.

Lemma quiet_keeps {A} L (c : M St A) :
  keeps L c →
  hoare (I L) (quiet c) (fun ps m => ∃ L', L ⊆ L' ∧ I L' m ∧ recorded L' ps) (grown L).
Proof.
  intros Hc. eapply hoare_seq; [eapply hoare_conseq; [exact Hc|done|intros ? ? H0; exact H0|apply grown_refl]|].
  apply hoare_ret. intros m Hm. exists L. split; [done|]. split; [done|constructor].
Qed.

Lemma run_call_keeps L c :
  is_activation c = false → call_ok c →
  hoare (I L) (run_call c) (fun ps m => ∃ L', L ⊆ L' ∧ I L' m ∧ recorded L' ps) (grown L).
Proof.
  destruct c; simpl; intros Hna [Hok Hnd]; try done;
    try (by apply quiet_keeps; auto using keeps_status, keeps_propose, keeps_stop,
           keeps_request_for_stream, keeps_rotate, keeps_record_exit_response, keeps_record_exit_request,
           keeps_decrypt).
  - apply quiet_keeps, keeps_bind_exit_quote. by apply Forall_cons_1 in Hok as [? _].
  - apply quiet_keeps, keeps_bind_routing_quotes; [exact (proj1 (List.Forall_map _ _ _) Hok)|done].
  - apply quiet_keeps, (keeps_record_routing L k size now routing_request_providers). by left.
  - apply quiet_keeps, (keeps_record_routing L k size now routing_response_providers). by right.
  - eapply hoare_bind; [apply hoare_acknowledge|]. intros p. apply hoare_ret.
    intros m (Hm & HA & Hs). exists (signed :: L). split; [set_solver|]. split; [done|].
    apply Forall_singleton. rewrite Hs. split; [done|set_solver].
Qed.

Lemma run_calls_keeps cs L m :
  Forall (fun c => is_activation c = false) cs → Forall call_ok cs → I L m →
  match run_calls cs m with
  | Ret (ps, m') => ∃ L', L ⊆ L' ∧ I L' m' ∧ recorded L' ps
  | Panic => panics
  end.
Proof.
  intros Hna. revert L m. induction Hna as [|c cs Hc _ IH]; intros L m Hok Hm; simpl.
  { exists L. split; [done|]. split; [done|constructor]. }
  apply Forall_cons in Hok as [Hoc Hok]. pose proof (run_call_keeps L c Hc Hoc m Hm) as Hrun.
  assert (match run_call c m with
          | Ret (r, m') => ∃ L', L ⊆ L' ∧ I L' m' ∧
              recorded L' (match r with Ok ps => ps | Err _ => [] end)
          | Panic => panics end) as Hstep.
  { destruct (run_call c m) as [[[ps|e] m']|]; [done| |done].
    destruct Hrun as (L' & ? & ?). exists L'. split; [done|]. split; [done|constructor]. }
  destruct (run_call c m) as [[r m']|]; [|done]. simpl.
  destruct Hstep as (L' & HL & Hm' & Hps). specialize (IH L' m' Hok Hm').
  destruct (run_calls cs m') as [[ps' m'']|]; [|done]. simpl.
  destruct IH as (L'' & HL' & Hm'' & Hps'). exists L''. split; [set_solver|]. split; [done|].
  apply Forall_app. split; [|done]. eapply Forall_impl; [done|]. simpl. set_solver.
Qed.

(** With activations, each of which starts a new ledger. *)
Lemma run_calls_inv cs m :
  0 ≤ limit →
  (∀ auth key now, session_verify auth (cfg_chain_id cfg) (cfg_settlement_contract cfg) key now 0
                   = Ok () → A0 auth) →
  Forall call_ok cs → (∃ L, I L m) →
  match run_calls cs m with
  | Ret (_, m') => ∃ L', I L' m'
  | Panic => panics
  end.
Proof.
  intros Hlim HA Hok. revert m. induction Hok as [|c cs Hoc _ IH]; intros m [L Hm]; simpl; [by exists L|].
  assert (match run_call c m with Ret (_, m') => ∃ L', I L' m' | Panic => panics end) as Hstep.
  { destruct (is_activation c) eqn:Hc.
    - destruct c; try done. pose proof (hoare_activate L id signature now Hlim HA m Hm) as H.
      simpl. unfold quiet, bind. destruct (activate _ _ _ m) as [[[|] m']|]; simpl; eauto.
      destruct H; eauto.
    - pose proof (run_call_keeps L c Hc Hoc m Hm) as H.
      destruct (run_call c m) as [[[|] m']|]; [|destruct H as (L' & _ & ?); eauto|done].
      destruct H as (L' & _ & ? & _). eauto. }
  destruct (run_call c m) as [[r m']|]; [|done]. simpl. specialize (IH m' Hstep).
  destruct (run_calls cs m') as [[ps' m'']|]; done.
Qed.
End Invariant.

(** ** Runs that succeed *)

Section Runs.
Context `{E : Ethsign} `{C : Cbor} `{K : SessionKeys} {St : Type} `{R : RecoveryStore St}.

Lemma bind_run {A B} (c : M St A) (k : A → M St B) m b m' :
  bind c k m = Ret (Ok b, m') →
  ∃ a m1, c m = Ret (Ok a, m1) ∧ k a m1 = Ret (Ok b, m').
Proof. unfold bind. destruct (c m) as [[[a|e] m1]|]; try done. eauto. Qed.

Lemma lift_run {A} (r : result A ReceiptSessionManagerError) (m m' : Manager St) a :
  lift r m = Ret (Ok a, m') → r = Ok a ∧ m' = m.
Proof. unfold lift. intros [= -> ->]. done. Qed.

Lemma lift_fallible_run {A} (c : fallible A ReceiptSessionManagerError) (m m' : Manager St) a :
  lift_fallible c m = Ret (Ok a, m') → c = Ret (Ok a) ∧ m' = m.
Proof. unfold lift_fallible. destruct c; [|done]. intros [= -> ->]. done. Qed.

Lemma ok_or_Ok {A B} (o : option A) (e : B) a : ok_or o e = Ok a → o = Some a.
Proof. destruct o; simpl; [by intros [= ->]|done]. Qed.

(** A session that is there after [status] was there before, unexpired, and
    nothing has changed. *)
Lemma status_run now (m m' : Manager St) r a :
  status now m = Ret (r, m') → active_opt m' = Some a →
  m' = m ∧ now ≤ rsp_expires_at_unix_s (policy (active_authorization a)).
Proof.
  unfold status, clear_store, bind, get_manager, set_active, set_store, ret.
  destruct (active_opt m) as [b|] eqn:Ha; simpl.
  - destruct (_ <? now) eqn:He; simpl.
    + destruct (recovery_store_opt m); simpl; by intros [= <- <-].
    + guards. rewrite Ha. case_match; intros [= <- <-]; rewrite Ha; intros [= <-]; done.
  - rewrite Ha. intros [= <- <-]. by rewrite Ha.
Qed.

Lemma with_epoch_run {A} epoch now (body : _ → _ → _ → M St A) m x m' :
  with_epoch epoch now body m = Ret (Ok x, m') →
  ∃ a i route, active_opt m = Some a ∧
    now ≤ rsp_expires_at_unix_s (policy (active_authorization a)) ∧
    routes a !! i = Some route ∧ rsr_route_epoch (request route) = epoch ∧
    body a i route m = Ret (Ok x, m').
Proof.
  intros (st & m1 & Hst & H)%bind_run. apply bind_run in H as (m2 & m3 & [= <- <-]%Ret_inj & H).
  destruct (active_opt m1) as [a|] eqn:Ha; [|done].
  destruct (status_run _ _ _ _ _ Hst Ha) as [-> Hexp].
  destruct (find_epoch epoch (routes a)) as [[i route]|] eqn:Hf; [|done].
  apply find_epoch_Some in Hf as [? ?]. eauto 10.
Qed.

Lemma persist_route_run k (m m' : Manager St) u :
  persist_route k m = Ret (Ok u, m') → active_opt m' = active_opt m.
Proof.
  unfold persist_route, revoke_after_persistence_error, clear_store, bind, get_manager,
    set_active, set_store, ret, fail.
  destruct (active_opt m) as [a|] eqn:Ha; [|by intros [= _ <-]].
  destruct (find_stream k (routes a)) as [[i route]|]; [|done].
  destruct (recovery_store_opt m) as [s|].
  - destruct (save_header_and_route _ _ _) as [[r|e] s']; simpl; [|by repeat case_match].
    intros H. apply Ret_inj in H. injection H as _ <-. exact Ha.
  - destruct (recovery_required m); simpl; [by destruct (recovery_store_opt m)|].
    intros H. apply Ret_inj in H. injection H as _ <-. exact Ha.
Qed.

Definition charged_session (a : ActiveReceiptSession) (i : nat) (route : ReceiptRouteState)
    (spent : Z) : ActiveReceiptSession :=
  mkActive (active_authorization a) (payer_cryptde a) (<[i := route]> (routes a)) spent.

(** The common end of the two acknowledgements. *)
Lemma charge_run a i cp_opt signed now k
    (upd : ReceiptSequenceCheckpoint → ServiceReceiptPayload_0v1 → ReceiptRouteState)
    (m m' : Manager St) p :
  (do m := get_manager in
   do (cp, payload, spent) := lift_fallible (charge_offer (config m) a cp_opt signed now) in
   do _ := charged_route a i (upd cp payload) spent in
   do _ := persist_route k in
   ret payload) m = Ret (Ok p, m') →
  ∃ cp spent, charged (config m) a now signed cp_opt cp p spent ∧
    active_opt m' = Some (charged_session a i (upd cp p) spent).
Proof.
  intros H. apply bind_run in H as (m2 & m3 & [= <- <-]%Ret_inj & H).
  apply bind_run in H as ([[cp q] spent] & m1 & Hch & H).
  apply lift_fallible_run in Hch as [Hch ->].
  apply bind_run in H as (u & m1 & Hset & H).
  apply bind_run in H as (u' & m4 & Hper & H). apply persist_route_run in Hper.
  injection H as -> ->. exists cp, spent. split; [by apply charge_offer_Ok|].
  rewrite Hper. unfold charged_route, set_active in Hset. by injection Hset as _ <-.
Qed.

Lemma repeated_Some payload_opt signed p :
  repeated payload_opt signed = Some p →
  payload_opt = Some p ∧ signed_receipt (acknowledged_receipt p) = signed.
Proof.
  unfold repeated. destruct payload_opt as [q|]; [|done]. case_bool_decide; [|done].
  by intros [= ->].
Qed.
End Runs.

(** ** Recovery *)

Section Recovery.
Context `{E : Ethsign} `{C : Cbor} `{K : SessionKeys}.

(** A verified authorization verifies again, inside its window and limit. *)
Lemma session_verify_later s chain_id contract key now0 now cumulative :
  session_verify s chain_id contract key now0 0 = Ok () →
  rsp_valid_from_unix_s (policy s) ≤ now ≤ rsp_expires_at_unix_s (policy s) →
  cumulative ≤ max_total_charge_wei (policy s) →
  session_verify s chain_id contract key now cumulative = Ok ().
Proof.
  unfold session_verify. intros H Hnow Hcum.
  apply result_bind_Ok in H as ([] & Hs & H). rewrite Hs. cbn [result_bind].
  destruct (negb (_ =? _)); [done|]. destruct (negb _); [done|]. destruct (negb _); [done|].
  destruct (now0 <? _); [done|]. destruct (_ <? now0); [done|].
  destruct (max_total_charge_wei _ <? 0); [done|].
  rewrite (proj2 (Z.ltb_ge now _)), (proj2 (Z.ltb_ge _ now)), (proj2 (Z.ltb_ge _ cumulative)) by lia.
  exact H.
Qed.

Lemma existsb_map_to_list_false {V} (f : PublicKey * V → bool) (m : gmap PublicKey V) :
  map_Forall (fun k v => f (k, v) = false) m → existsb f (map_to_list m) = false.
Proof.
  intros H. apply not_true_iff_false. intros ([k v] & Hin & Hf)%existsb_exists.
  apply list_elem_of_In, elem_of_map_to_list in Hin. by rewrite (H k v Hin) in Hf.
Qed.

Lemma checkpoint_matches_identity header route cp provider :
  authorization (request route) = h_authorization header →
  checkpoint_identity route provider cp → checkpoint_matches header route cp provider = true.
Proof.
  intros Hauth (H1 & H2 & H3 & H4). unfold checkpoint_matches. rewrite <- Hauth.
  by rewrite !bool_decide_eq_true_2.
Qed.

Lemma request_verifies cfg auth req key now0 now :
  session_verify auth (cfg_chain_id cfg) (cfg_settlement_contract cfg) key now0 0 = Ok () →
  rsp_payer_session_public_key (policy auth) = key →
  rsp_valid_from_unix_s (policy auth) ≤ now ≤ rsp_expires_at_unix_s (policy auth) →
  request_inv auth req →
  session_request_verify req (cfg_chain_id cfg) (cfg_settlement_contract cfg) now = Ok ().
Proof.
  intros Hv Hkey Hnow [Ha He Hc]. unfold session_request_verify.
  rewrite He, Ha, Hc, Hkey, bool_decide_eq_true_2 by done. cbn [negb].
  eapply session_verify_later; [done|done|]. by eapply session_verify_limit.
Qed.

Lemma restore_routes_Ok cfg Q0 B0 header L now0 now rs sk se :
  let auth := h_authorization header in
  session_verify auth (cfg_chain_id cfg) (cfg_settlement_contract cfg)
    (rsp_payer_session_public_key (policy auth)) now0 0 = Ok () →
  rsp_valid_from_unix_s (policy auth) ≤ now ≤ rsp_expires_at_unix_s (policy auth) →
  NoDup (stream_key <$> rs) → NoDup (rsr_route_epoch ∘ request <$> rs) →
  (∀ r, r ∈ rs → (stream_key r ∉ sk) ∧ rsr_route_epoch (request r) ∉ se) →
  Forall (route_inv Q0 B0 L auth) rs → Forall payloads_bounded rs →
  restore_routes cfg header now sk se rs = Ok ().
Proof.
  cbv zeta. intros Hv Hnow. revert sk se.
  induction rs as [|r rs IH]; intros sk se Hk He Hfresh Hrt Hb; [done|].
  apply NoDup_cons in Hk as [Hk1 Hk]. apply NoDup_cons in He as [He1 He].
  apply Forall_cons in Hrt as [Hr Hrt]. apply Forall_cons in Hb as [Hb1 Hb].
  destruct (Hfresh r) as [Hs1 Hs2]; [set_solver|].
  destruct Hr as [Hq Ho Hcp _ Hl Hps _]. simpl.
  rewrite (ri_authorization _ _ Hq), !bool_decide_eq_false_2, bool_decide_eq_true_2 by done.
  rewrite (proj2 (Nat.ltb_ge _ _)) by done. cbn [negb orb].
  rewrite existsb_map_to_list_false
    by (intros p s Hps'; apply Nat.ltb_ge; by apply (Hb1 p s)).
  rewrite (request_verifies _ _ _ _ _ now Hv eq_refl Hnow Hq). cbn [map_err result_bind].
  assert (exit_checkpoint_inconsistent header r = false) as ->.
  { unfold exit_checkpoint_inconsistent. destruct (checkpoint_opt r) as [cp|]; [|done].
    destruct (Hcp cp eq_refl) as (provider & -> & Hid).
    rewrite checkpoint_matches_identity; [done|apply Hq|done]. }
  rewrite existsb_map_to_list_false.
  2: { intros p s Hs. unfold provider_checkpoint_inconsistent. simpl.
       destruct (Hps p s Hs) as (_ & Hid & _). destruct (rp_checkpoint_opt s) as [cp|]; [|done].
       rewrite checkpoint_matches_identity; [done|apply Hq|by apply Hid]. }
  cbn [orb]. apply IH; try done. intros r' Hr'. destruct (Hfresh r') as [? ?]; [set_solver|].
  split.
  - intros [Heq%elem_of_singleton|?]%elem_of_union; [|done].
    apply Hk1. rewrite <- Heq. by apply list_elem_of_fmap_2.
  - intros [Heq%elem_of_singleton|?]%elem_of_union; [|done].
    apply He1. simpl. rewrite <- Heq. by apply (list_elem_of_fmap_2 (rsr_route_epoch ∘ request)).
Qed.

(** What the crates document: libsodium's laws, the texts of [base64] and of hex
    digits are read back. *)
Class SessionKeysLaws : Prop := {
  hex_decode_to_hex bs : bytes_ok bs → hex_decode (to_hex bs) = Ok bs;
  #[global] session_sodium_laws :: Real.SodiumLaws session_sodium;
  #[global] session_base64_laws :: Base64Laws session_base64;
}.

(** The key pairs of a node's sessions, and the keys of 64 bytes. *)
Definition generated (cfg : ReceiptSessionConfig) (c : CryptDE) : Prop :=
  ∃ rand, c = new_cryptde (token_contract cfg) rand.
Definition full_key (pk : PublicKey) : Prop :=
  length pk = (Real.PUBLICKEYBYTES + Real.PUBLICKEYBYTES)%nat.

Lemma make_from_str_to_string `{SL : !SessionKeysLaws} contract rand :
  make_from_str contract (cryptde_to_string (new_cryptde contract rand)) = Ok (new_cryptde contract rand).
Proof.
  unfold make_from_str, new_cryptde. cbn [Real.real_cryptde cryptde_to_string].
  rewrite (Real.real_make_from_str_to_string session_sodium). reflexivity.
Qed.

(** Session keys verify under every key of 64 bytes, their own included, and
    open whatever arrives. *)
Lemma generated_verifies `{SL : !SessionKeysLaws} cfg c pk :
  generated cfg c → full_key pk ∨ pk = public_key c → verifies_under c pk.
Proof.
  intros [rand ->] [Hpk| ->]; apply Real.real_verifies_under; [done|].
  eapply (Real.real_public_key_parts session_sodium), Real.real_new_keys_ok. Unshelve. all: apply _.
Qed.
Lemma generated_decodes `{SL : !SessionKeysLaws} cfg c ct : generated cfg c → decode c ct ≠ Panic.
Proof. intros [rand ->]. eapply Real.real_decode_returns, Real.real_new_keys_ok. Unshelve. all: apply _. Qed.

(** A saved session is restored, its routes in whatever order. *)
Lemma restore_active_Ok `{SL : !SessionKeysLaws} cfg A0 Q0 B0 L a rs now :
  session_inv cfg A0 (generated cfg) Q0 B0 L a →
  rsp_valid_from_unix_s (policy (active_authorization a)) ≤ now
    ≤ rsp_expires_at_unix_s (policy (active_authorization a)) →
  Forall payloads_bounded (routes a) → rs ≡ₚ routes a →
  restore_active cfg (persisted_header a) rs now = Ok (with_routes a rs).
Proof.
  intros [[_ [rand Hgen] Hkey Hw [now0 Hv]] Hs Hcov Hn Hk He Hr] Hnow Hb Hp.
  unfold restore_active. rewrite (proj2 (Nat.ltb_ge _ _)) by (by rewrite Hp).
  simpl. rewrite Hgen, make_from_str_to_string, <- Hgen. cbn [map_err result_bind].
  rewrite (session_verify_later _ _ _ _ _ now _ Hv) by (done || lia). cbn [map_err result_bind].
  rewrite bool_decide_eq_true_2 by done. cbn [negb].
  rewrite (restore_routes_Ok cfg Q0 B0 (persisted_header a) L now0 now); [done|..]; simpl; try done.
  - by rewrite Hkey.
  - by rewrite Hp.
  - by rewrite Hp.
  - by rewrite Hp.
  - by rewrite Hp.
Qed.
End Recovery.

(** ** Properties *)

Section Properties.
Context `{E : Ethsign} `{C : Cbor} `{K : SessionKeys} {St : Type} `{R : RecoveryStore St}.

(** A manager with neither a proposal nor a session, as [manager_new] and a
    recovery from an empty store leave it. *)
Definition idle (m : Manager St) : Prop := pending_opt m = None ∧ active_opt m = None.

Definition within_limits (auth : AuthorizedReceiptSession) : Prop :=
  max_total_charge_wei (policy auth) ≤ MAX_RECEIPT_SESSION_CHARGE_WEI.

Lemma within_limits_verified auth chain_id contract key now :
  session_verify auth chain_id contract key now 0 = Ok () → within_limits auth.
Proof. intros H%session_verify_limit. apply H. Qed.

Lemma idle_inv cfg A0 K0 Q0 B0 limit (m : Manager St) :
  idle m → config m = cfg → 0 ≤ limit → manager_inv cfg A0 K0 Q0 B0 limit [] m.
Proof.
  intros [Hp Ha] Hc Hl. split; [done|by apply covered_nil| |]; intros ?; by rewrite ?Hp, ?Ha.
Qed.

Lemma session_inv_meant cfg (A0 A1 : AuthorizedReceiptSession → Prop) K0 Q0 B0 L a :
  session_inv cfg A0 K0 Q0 B0 L a → A1 (active_authorization a) → session_inv cfg A1 K0 Q0 B0 L a.
Proof. intros [[? ? ? ? ?] ? ? ? ? ? ?] HA. by split. Qed.

(** Calls are fine where nothing is asked of their quotes. *)
Lemma any_keys (cs : list Call) :
  Forall (fun c => Forall (fun _ => True) (quotes_of c) ∧ (False → quoted_once c)) cs.
Proof. apply Forall_true. intros c. split; [by apply Forall_true|done]. Qed.
Lemma keys_only (Q0 : PublicKey → Prop) cs :
  Forall (fun c => Forall Q0 (quotes_of c)) cs →
  Forall (fun c => Forall Q0 (quotes_of c) ∧ (False → quoted_once c)) cs.
Proof. intros H. by eapply Forall_impl; [exact H|]. Qed.

(** What any calls leave of an idle manager. *)
Lemma idle_run_Ret (K0 : CryptDE → Prop) m0 cs ps m :
  (∀ rand, K0 (new_cryptde (token_contract (config m0)) rand)) → idle m0 → run_calls cs m0 = Ret (ps, m) →
  ∃ L, manager_inv (config m0) within_limits K0 (fun _ => True) False MAX_RECEIPT_SESSION_CHARGE_WEI L m.
Proof.
  intros HK Hidle Hrun.
  assert (∃ L, manager_inv (config m0) within_limits K0 (fun _ => True) False MAX_RECEIPT_SESSION_CHARGE_WEI L m0)
    as H0 by (exists []; by apply idle_inv).
  pose proof (run_calls_inv (config m0) within_limits K0 (fun _ => True) False True MAX_RECEIPT_SESSION_CHARGE_WEI
    ltac:(done) HK ltac:(by left) ltac:(done) cs m0 ltac:(done)
    (fun auth key now => within_limits_verified auth _ _ key now) (any_keys cs) H0) as H.
  by rewrite Hrun in H.
Qed.

(** A manager as calls leave it whose providers have keys of 64 bytes. *)
Definition managed (m : Manager St) : Prop :=
  ∃ L, manager_inv (config m) within_limits (generated (config m)) full_key False MAX_RECEIPT_SESSION_CHARGE_WEI L m.

Lemma managed_idle (m : Manager St) : idle m → managed m.
Proof. intros Hm. exists []. by apply idle_inv. Qed.

Lemma managed_calls `{SL : !SessionKeysLaws} cs (m : Manager St) :
  Forall (fun c => Forall full_key (quotes_of c)) cs → managed m →
  match run_calls cs m with Ret (_, m') => managed m' ∧ config m' = config m | Panic => False end.
Proof.
  intros Hcs [L Hm].
  pose proof (run_calls_inv (config m) within_limits (generated (config m)) full_key False False
    MAX_RECEIPT_SESSION_CHARGE_WEI ltac:(done) ltac:(intros rand; by exists rand)
    ltac:(intros c pk Hc Hpk; right; by eapply generated_verifies)
    ltac:(intros c ct Hc Hp; by eapply generated_decodes in Hp) cs m ltac:(done)
    (fun auth key now => within_limits_verified auth _ _ key now) (keys_only _ _ Hcs) (ex_intro _ L Hm)) as H.
  destruct (run_calls cs m) as [[ps m']|]; [|done]. destruct H as [L' H].
  pose proof (mi_config _ _ _ _ _ _ _ _ H) as Hc. split; [|done]. exists L'. by rewrite Hc.
Qed.

(** Calls that do not activate another session. *)
Lemma session_run cfg auth cs m ps m' :
  let inv := manager_inv cfg (eq auth) (fun _ => True) (fun _ => True) False (max_total_charge_wei (policy auth)) in
  Forall (fun c => is_activation c = false) cs → inv [] m →
  run_calls cs m = Ret (ps, m') →
  ∃ L, inv L m' ∧ recorded (eq auth) L ps.
Proof.
  intros inv Hcs Hinv Hrun.
  assert (match run_calls cs m with
          | Ret (ps, m') => ∃ L', [] ⊆ L' ∧ inv L' m' ∧ recorded (eq auth) L' ps
          | Panic => True
          end) as H.
  { apply (run_calls_keeps cfg (eq auth) (fun _ => True) (fun _ => True) False True); auto using any_keys.
    by intros ? <-. }
  rewrite Hrun in H. destruct H as (L & _ & ? & ?). by exists L.
Qed.

(** A receipt session never spends beyond the wallet's signature.  Take a
    manager after any calls, activate a session, and make any further calls
    in any order (streams, rotations, quotes, observations, offers, repeats
    and failures of the store included) short of another activation: every
    acknowledgement handed out carries the activated authorization, and the
    charges of all different receipts acknowledged, of all providers and routes
    together, are at most the total the wallet signed. *)
Theorem session_limit_enforced m0 cs1 ps1 m1 id sig now st m2 a cs2 ps m3 :
  idle m0 → run_calls cs1 m0 = Ret (ps1, m1) →
  activate id sig now m1 = Ret (Ok st, m2) → active_opt m2 = Some a →
  Forall (fun c => is_activation c = false) cs2 → run_calls cs2 m2 = Ret (ps, m3) →
  Forall (fun p => payload_authorization p = active_authorization a) ps ∧
  ∀ l, NoDup l → l ⊆ map (signed_receipt ∘ acknowledged_receipt) ps →
    ledger_charge l ≤ max_total_charge_wei (policy (active_authorization a)).
Proof.
  intros Hidle Hrun1 Hact Ha Hcs2 Hrun2.
  destruct (idle_run_Ret (fun _ => True) _ _ _ _ ltac:(done) Hidle Hrun1) as [L HL].
  pose proof (hoare_activate (config m0) within_limits (fun _ => True) (fun _ => True) False True
    MAX_RECEIPT_SESSION_CHARGE_WEI L id sig now ltac:(done)
    (fun auth key now0 => within_limits_verified auth _ _ key now0) m1 HL) as Hinv.
  rewrite Hact in Hinv. pose proof (mi_active _ _ _ _ _ _ _ _ Hinv a Ha) as Hs.
  set (auth := active_authorization a) in *.
  assert (manager_inv (config m0) (eq auth) (fun _ => True) (fun _ => True) False
            (max_total_charge_wei (policy auth)) [] m2) as Hinv'.
  { destruct Hinv as [Hc _ Hp _]. pose proof (si_spent _ _ _ _ _ _ _ Hs).
    split; [done|apply covered_nil; unfold auth in *; lia|done|].
    intros a' Ha'. rewrite Ha in Ha'. injection Ha' as <-. by eapply session_inv_meant. }
  destruct (session_run _ _ _ _ _ _ Hcs2 Hinv' Hrun2) as (L' & Hm3 & Hrec).
  split; [eapply Forall_impl; [exact Hrec|]; by intros p [<- _]|].
  intros l Hnd Hl. apply (mi_limit _ _ _ _ _ _ _ _ Hm3 l Hnd).
  intros s (p & <- & Hp)%Hl%list_elem_of_In%in_map_iff. apply list_elem_of_In in Hp.
  unfold recorded in Hrec. rewrite Forall_forall in Hrec. by apply Hrec.
Qed.

(** [C30] No sequence of calls breaks a session or panics.  The session keys are
    libsodium's, as [propose] draws them.  Take any calls on an idle manager
    (proposals, activations, streams, rotations, quotes, observations, offers of
    receipts with any provider key and signature, encrypted offers of any bytes,
    failures of the store) in which the providers of the bound quotes have keys
    of 64 bytes: every call returns, and the session left, if any, has its
    spending within the signed limit, at most 4096 routes, no stream and no
    route epoch twice, and every route carries the session's authorization, a
    commitment to its own epoch and the session key, at most 64 observed
    responses, and only providers with keys of 64 bytes.  libsodium's key sizes
    are as documented. *)
Theorem calls_return_sound_sessions `{SL : !SessionKeysLaws} m0 cs :
  idle m0 → Forall (fun c => Forall full_key (quotes_of c)) cs →
  ∃ ps m, run_calls cs m0 = Ret (ps, m) ∧
    ∀ a, active_opt m = Some a →
      0 ≤ spent_charge_wei a ≤ max_total_charge_wei (policy (active_authorization a)) ∧
      (length (routes a) ≤ MAX_RECEIPT_SESSION_ROUTES)%nat ∧
      NoDup (map stream_key (routes a)) ∧
      NoDup (map (rsr_route_epoch ∘ request) (routes a)) ∧
      Forall (fun r =>
        request_inv (active_authorization a) (request r) ∧
        (length (observed_responses r) ≤ MAX_PENDING_RECEIPT_RESPONSES_PER_ROUTE)%nat ∧
        (∀ p, expected_provider_public_key_opt r = Some p → full_key p) ∧
        map_Forall (fun p _ => full_key p) (routing_provider_states r)) (routes a).
Proof.
  intros Hidle Hcs. pose proof (managed_calls cs m0 Hcs (managed_idle _ Hidle)) as H.
  destruct (run_calls cs m0) as [[ps m]|]; [|done]. destruct H as [[L H] _].
  exists ps, m. split; [done|]. intros a Ha.
  destruct (mi_active _ _ _ _ _ _ _ _ H a Ha) as [_ Hs _ Hn Hk He Hr].
  split; [done|]. split; [done|]. split; [done|]. split; [done|].
  eapply Forall_impl; [exact Hr|]. intros r [? ? _ ? _ Hp _]. split_and!; try done.
  eapply map_Forall_impl; [exact Hp|]. by intros p st [? _].
Qed.

(** A restart resumes the session: whatever calls led to it, a session
    written to the store and read back, its routes in any order, is restored
    exactly, at any time inside its window, where no routing provider has more
    than 64 observations waiting. *)
Theorem restart_resumes_session `{SL : !SessionKeysLaws} m0 cs ps m a rs now :
  idle m0 → run_calls cs m0 = Ret (ps, m) → active_opt m = Some a →
  rsp_valid_from_unix_s (policy (active_authorization a)) ≤ now
    ≤ rsp_expires_at_unix_s (policy (active_authorization a)) →
  Forall payloads_bounded (routes a) → rs ≡ₚ routes a →
  restore_active (config m0) (persisted_header a) rs now = Ok (with_routes a rs).
Proof.
  intros Hidle Hrun Ha Hnow Hb Hp.
  destruct (idle_run_Ret (generated (config m0)) _ _ _ _ ltac:(intros rand; by exists rand) Hidle Hrun)
    as [L HL].
  eapply restore_active_Ok; try done. by eapply mi_active.
Qed.

(** What an exit offer must satisfy to be acknowledged.  When
    [acknowledge_offer] returns a payload for an exit receipt there is an
    unexpired session with a route of the receipt's epoch, and either the route
    holds this very payload for this very offer and nothing changes, or the
    offer has the provider and the rates of the bound quote and the sequence,
    size and units of the oldest observed response, it is charged (signatures,
    authorization, contiguous totals, limit), and the session afterwards is the
    one before with that observation consumed, the route's checkpoint and payload
    replaced, and the spending increased by exactly the receipt's charge. *)
Theorem exit_offer_acknowledged signed now (m m' : Manager St) p :
  service_kind (receipt signed) = Exit →
  acknowledge_offer signed now m = Ret (Ok p, m') →
  ∃ a i route, active_opt m = Some a ∧
    now ≤ rsp_expires_at_unix_s (policy (active_authorization a)) ∧
    routes a !! i = Some route ∧
    rsr_route_epoch (request route) = route_epoch (receipt signed) ∧
    ((acknowledged_payload_opt route = Some p ∧
      signed_receipt (acknowledged_receipt p) = signed ∧ m' = m) ∨
     (expected_provider_public_key_opt route = Some (provider_public_key (receipt signed)) ∧
      exit_service_rate_opt route = Some (service_rate (receipt signed)) ∧
      exit_byte_rate_opt route = Some (byte_rate (receipt signed)) ∧
      head (observed_responses route) =
        Some (sequence (receipt signed), payload_size (receipt signed),
              service_units (receipt signed)) ∧
      ∃ cp spent, charged (config m) a now signed (checkpoint_opt route) cp p spent ∧
        active_opt m' = Some (charged_session a i (with_acknowledgement route cp p) spent))).
Proof.
  intros Hkind. unfold acknowledge_offer. rewrite Hkind, bool_decide_eq_false_2 by done.
  intros (a & i & route & Ha & Hexp & Hi & He & H)%with_epoch_run.
  exists a, i, route. split; [done|]. split; [done|]. split; [done|]. split; [done|].
  destruct (repeated _ _) as [q|] eqn:Hrep.
  { apply repeated_Some in Hrep as [? ?]. injection H as -> ->. by left. }
  right.
  apply bind_run in H as (prov & m1 & [Hprov%ok_or_Ok ->]%lift_run & H).
  apply bind_run in H as (sr & m2 & [Hsr%ok_or_Ok ->]%lift_run & H).
  apply bind_run in H as (br & m3 & [Hbr%ok_or_Ok ->]%lift_run & H).
  apply bind_run in H as ([[os oz] ou] & m4 & [Ho%ok_or_Ok ->]%lift_run & H).
  destruct (negb _) eqn:Hp; [done|]. destruct (_ || _) eqn:Hg; [done|]. guards. subst.
  repeat split; try done. by apply charge_run in H.
Qed.

(** What a routing offer must satisfy to be acknowledged: as for an exit,
    with the state the provider has on the route, its quoted rates, the oldest
    observed payload, one service unit, and a sequence that continues the
    provider's checkpoint without a gap, from one. *)
Theorem routing_offer_acknowledged signed now (m m' : Manager St) p :
  service_kind (receipt signed) = Routing →
  acknowledge_offer signed now m = Ret (Ok p, m') →
  ∃ a i route s, active_opt m = Some a ∧
    now ≤ rsp_expires_at_unix_s (policy (active_authorization a)) ∧
    routes a !! i = Some route ∧
    rsr_route_epoch (request route) = route_epoch (receipt signed) ∧
    routing_provider_states route !! provider_public_key (receipt signed) = Some s ∧
    ((rp_acknowledged_payload_opt s = Some p ∧
      signed_receipt (acknowledged_receipt p) = signed ∧ m' = m) ∨
     (service_rate (receipt signed) = rp_service_rate s ∧
      byte_rate (receipt signed) = rp_byte_rate s ∧
      head (observed_payloads s) = Some (payload_size (receipt signed)) ∧
      service_units (receipt signed) = 1 ∧
      sequence (receipt signed) =
        match rp_checkpoint_opt s with Some cp => last_sequence cp + 1 | None => 1 end ∧
      ∃ cp spent, charged (config m) a now signed (rp_checkpoint_opt s) cp p spent ∧
        active_opt m' = Some (charged_session a i
          (with_provider_states route
             (<[provider_public_key (receipt signed) := with_provider_acknowledgement s cp p]>
                (routing_provider_states route))) spent))).
Proof.
  intros Hkind. unfold acknowledge_offer. rewrite Hkind, bool_decide_eq_true_2 by done.
  intros (a & i & route & Ha & Hexp & Hi & He & H)%with_epoch_run.
  apply bind_run in H as (s & m1 & [Hs%ok_or_Ok ->]%lift_run & H).
  exists a, i, route, s. do 5 (split; [done|]).
  destruct (repeated _ _) as [q|] eqn:Hrep.
  { apply repeated_Some in Hrep as [? ?]. injection H as -> ->. by left. }
  right.
  apply bind_run in H as (size & m2 & [Hsize%ok_or_Ok ->]%lift_run & H).
  apply bind_run in H as (seq & m3 & [Hseq ->]%lift_run & H).
  destruct (_ || _) eqn:Hg; [done|]. guards. subst.
  repeat split; try done.
  - destruct (rp_checkpoint_opt s) as [cp|]; [|by apply Ok_inj in Hseq].
    apply ok_or_Ok, checked_add_Some in Hseq as [-> _]. done.
  - by eapply (charge_run a i _ signed now _ (fun cp p => with_provider_states route
      (<[provider_public_key (receipt signed) := with_provider_acknowledgement s cp p]>
         (routing_provider_states route)))) in H.
Qed.

(** What a wallet's signature must be like to be taken. *)
Definition canonical_signature (sig : Signature) : Prop :=
  (sig_v sig = 0 ∨ sig_v sig = 1) ∧ length (sig_r sig) = 32%nat ∧ length (sig_s sig) = 32%nat ∧
  all_zero (sig_r sig) = false ∧ all_zero (sig_s sig) = false ∧
  bytes_ltb SECP256K1_HALF_ORDER (sig_s sig) = false.

Lemma strip_0x_hex_text bs : strip_0x (hex_text bs) = to_hex bs.
Proof. done. Qed.

Lemma strip_0x_to_hex bs : bytes_ok bs → strip_0x (to_hex bs) = to_hex bs.
Proof.
  destruct 1 as [|b bs Hb _]; [done|]. cbn [to_hex strip_0x].
  pose proof (Z.mod_pos_bound b 16 ltac:(lia)) as Hm. pose proof (char_hex_char _ Hm) as Hc.
  unfold char_hex in Hc. destruct (char_byte (hex_char (b mod 16)) =? 120) eqn:He.
  - guards. by rewrite He in Hc.
  - by rewrite andb_false_r.
Qed.

(** Wallet signatures in hexadecimal: the 65 bytes r, s, v of a canonical
    signature are read back from their text, with or without the prefix 0x and
    in both conventions for v (0/1 and 27/28); conversely whatever text is
    accepted gives a canonical signature, with s in the lower half of the
    group order. *)
Theorem signature_hex_roundtrip `{SL : !SessionKeysLaws} sig :
  canonical_signature sig → bytes_ok (sig_r sig) → bytes_ok (sig_s sig) →
  (∀ v text, v = sig_v sig ∨ v = sig_v sig + 27 →
     let bytes := sig_r sig ++ sig_s sig ++ [v] in
     text = to_hex bytes ∨ text = hex_text bytes →
     signature_from_hex text = Ok sig) ∧
  (∀ text sig', signature_from_hex text = Ok sig' → canonical_signature sig').
Proof.
  intros (Hv & Hr & Hs & Hr0 & Hs0 & Hlow) Br Bs. split.
  - intros v text Hvv. cbv zeta. intros Ht.
    assert (bytes_ok (sig_r sig ++ sig_s sig ++ [v])) as Hb.
    { rewrite !Forall_app, Forall_singleton. split; [done|]. split; [done|].
      unfold is_byte, in_u. change (2 ^ 8) with 256. lia. }
    unfold signature_from_hex.
    replace (strip_0x text) with (to_hex (sig_r sig ++ sig_s sig ++ [v]))
      by (destruct Ht as [->| ->]; rewrite ?strip_0x_hex_text, ?strip_0x_to_hex; done).
    rewrite (hex_decode_to_hex _ Hb). cbn [map_err result_bind].
    rewrite !length_app, Hr, Hs. cbn [length Nat.add Nat.eqb negb].
    rewrite take_app_length' by done. rewrite drop_app_length' by done.
    rewrite take_app_length' by done. rewrite Hr0, Hs0, Hlow. cbn [orb].
    rewrite (lookup_app_r _ _ 64) by lia. rewrite (lookup_app_r _ _ (64 - _)) by lia.
    rewrite Hr, Hs. cbn [Nat.sub lookup list_lookup default].
    destruct sig as [v0 r s]; simpl in *.
    destruct Hvv as [->| ->], Hv as [->| ->]; done.
  - intros text sig' H. unfold signature_from_hex in H. rust_inv H. guards.
    assert (∀ v, v = 0 ∨ v = 1 →
      canonical_signature (mkSignature v (take 32 a) (take 32 (drop 32 a)))) as Hcan.
    { intros v Hv'. repeat split; simpl; try done; rewrite length_take, ?length_drop; lia. }
    repeat case_match; guards; try done; apply Ok_inj in H as <-; apply Hcan;
      repeat match goal with H : _ || _ = true |- _ => apply orb_true_iff in H as [H|H] end;
      guards; lia.
Qed.

(** What a proposal leaves pending. *)
Lemma propose_run max d now kr nr (m m' : Manager St) prop :
  propose max d now kr nr m = Ret (Ok prop, m') →
  let p := prop_policy prop in
  m' = mkManager (config m) (Some (mkPending (prop_proposal_id prop) p
           (new_cryptde (token_contract (config m)) kr)))
         (active_opt m) (recovery_store_opt m) (recovery_required m) ∧
  rsp_chain_id p = cfg_chain_id (config m) ∧
  rsp_settlement_contract p = cfg_settlement_contract (config m) ∧
  rsp_payer_session_public_key p = public_key (new_cryptde (token_contract (config m)) kr) ∧
  rsp_valid_from_unix_s p = now ∧ rsp_expires_at_unix_s p = now + d ∧
  parse_u128 max = Some (max_total_charge_wei p) ∧
  0 ≤ max_total_charge_wei p ∧ session_eip712_typed_data p = Ok (prop_eip712_typed_data prop).
Proof.
  unfold propose. destruct (parse_u128 max) as [n|] eqn:Hn; [|done].
  destruct (_ || _); [done|]. destruct (negb _); [done|]. intros H.
  apply bind_run in H as (e & m1 & [He%ok_or_Ok ->]%lift_run & H).
  apply checked_add_Some in He as [-> _]. apply bind_run in H as (m1 & m2 & [= <- <-]%Ret_inj & H).
  cbv zeta in H. destruct (all_zero _); [done|].
  apply bind_run in H as (typed & m1 & [Ht%map_err_Ok ->]%lift_run & H).
  apply bind_run in H as (u & m1 & Hset & H). injection H as <- <-.
  injection Hset as _ <-. cbv zeta. cbn [prop_policy prop_eip712_typed_data].
  repeat split; try done. simpl. unfold parse_u128 in Hn.
  destruct (parse_dec _) as [k|]; [|done]. case_bool_decide as Hin; [|done].
  injection Hn as ->. apply Hin.
Qed.

(** A signed proposal becomes the active session.  The owner of the
    payer's wallet signs the policy of a proposal; any accepted text of that
    signature, presented inside the window with the proposal's id, activates a
    session with that authorization and the proposal's own key, without routes
    and with nothing spent, and the reported status is active with the amounts
    of the policy.  No recovery store is attached or required. *)
Theorem signed_proposal_activates `{EL : !EthsignLaws E} max d now kr nr (m m1 : Manager St) prop
    secret auth text now' :
  propose max d now kr nr m = Ret (Ok prop, m1) →
  authorize_session (prop_policy prop) (WSecretKey secret) = Ok auth →
  signature_from_hex text = Ok (wallet_signature auth) →
  now ≤ now' ≤ now + d → recovery_store_opt m = None → recovery_required m = false →
  ∃ st m2, activate (prop_proposal_id prop) text now' m1 = Ret (Ok st, m2) ∧
    active_opt m2 = Some (mkActive auth (new_cryptde (token_contract (config m)) kr) [] 0) ∧ pending_opt m2 = None ∧
    is_active st = true ∧ spent_charge_wei_opt st = Some 0 ∧
    max_total_charge_wei_opt st = parse_u128 max ∧ expires_at_unix_s_opt st = Some (now + d).
Proof.
  intros Hprop Hauth Htext Hnow Hstore Hreq.
  apply propose_run in Hprop as (-> & Hch & Hct & Hk & Hf & He & Hmax & Hpos & _).
  assert (auth = mkAuthorizedSession (prop_policy prop) (wallet_signature auth)) as Heq.
  { unfold authorize_session in Hauth. rust_inv Hauth. by subst. }
  pose proof (authorize_session_verifies _ _ _ now' 0 Hauth ltac:(lia) Hpos) as Hv.
  unfold activate, bind, get_manager, lift, set_pending, set_active, persist_header, ret.
  cbn [pending_opt config proposal_id pending_policy pending_cryptde].
  rewrite bool_decide_eq_true_2 by done. cbn [negb].
  rewrite (proj2 (Z.ltb_ge _ _)) by lia. rewrite Htext, <- Heq, <- Hch, <- Hct, Hv.
  cbn [map_err recovery_store_opt recovery_required]. rewrite Hstore, Hreq.
  unfold status, bind, get_manager, ret, set_active, set_store. cbn -[Z.ltb Z.leb].
  rewrite Heq. cbn -[Z.ltb Z.leb].
  rewrite (proj2 (Z.ltb_ge _ _)) by lia. cbn -[Z.leb].
  rewrite (proj2 (Z.leb_le _ _)) by lia. eexists _, _. split; [reflexivity|]. cbn. rewrite Hmax, He. done.
Qed.

(** The limit on waiting observations holds per provider, not per mention:
    a provider named twice among a route's request providers passes the test
    with 63 waiting payloads and has 65 afterwards, and a session with that route
    is then refused on recovery. *)
Theorem repeated_provider_blocks_recovery cfg header now route p s size :
  routing_provider_states route = {[p := s]} → length (observed_payloads s) = 63%nat →
  ∃ route' s', record_routing_payload route [p; p] size = Ret (Ok route') ∧
    routing_provider_states route' !! p = Some s' ∧ length (observed_payloads s') = 65%nat ∧
    restore_routes cfg header now ∅ ∅ [route'] =
      Err (Persistence "recovered receipt route is inconsistent").
Proof.
  intros Hst Hlen. unfold record_routing_payload. rewrite Hst. cbn [existsb push_payloads].
  rewrite lookup_singleton_eq, Hlen. cbn [Nat.leb MAX_PENDING_RECEIPT_RESPONSES_PER_ROUTE orb].
  unfold expect. cbn [exec_bind]. rewrite lookup_insert_eq. cbn [exec_bind].
  rewrite !insert_insert_eq. eexists _, _. split; [reflexivity|].
  cbn [with_provider_states routing_provider_states].
  rewrite lookup_insert_eq. split; [reflexivity|].
  assert (length (observed_payloads (push_payload size (push_payload size s))) = 65%nat) as H65.
  { cbn. rewrite !length_app, Hlen. done. }
  split; [done|]. cbn [restore_routes].
  match goal with |- (if ?b then _ else _) = _ => assert (b = true) as ->; [|done] end.
  apply orb_true_iff. right. apply existsb_exists.
  exists (p, push_payload size (push_payload size s)).
  split; [|apply Nat.ltb_lt; cbn [snd]; rewrite H65; unfold MAX_PENDING_RECEIPT_RESPONSES_PER_ROUTE; lia].
  apply list_elem_of_In, elem_of_map_to_list. cbn. apply lookup_insert_eq.
Qed.
End Properties.

(** ** A session *)

Definition sample_keys : SessionKeys := {|
  hex_decode s := match from_hex s with Some bs => Ok bs | None => Err "invalid"%string end;
  session_sodium := sample_sodium;
  session_base64 := sample_base64
|}.

(** The key pair the consumer draws for its session, and a provider's on the
    same chain. *)
Definition sample_session_cryptde : CryptDE :=
  new_cryptde (E := sample_ethsign) (K := sample_keys) (repeat 6 20) [].
Definition session_provider : CryptDE :=
  new_cryptde (E := sample_ethsign) (K := sample_keys) (repeat 6 20) [1; 2; 3].

(** A store that keeps what it is given. *)
Definition sample_store : RecoveryStore
    (option (PersistedReceiptSessionHeader * list ReceiptRouteState)) := {|
  store_load s _ := (Ok s, s);
  save_header s h := (Ok (), Some (h, match s with Some (_, rs) => rs | None => [] end));
  save_header_and_route s h r :=
    (Ok (), Some (h, r :: match s with
                          | Some (_, rs) => filter (fun r' => stream_key r' ≠ stream_key r) rs
                          | None => [] end));
  store_clear _ := (Ok (), None)
|}.

#[local] Existing Instance sample_ethsign.
#[local] Existing Instance sample_cbor.
#[local] Existing Instance sample_keys.
#[local] Existing Instance sample_store.

Lemma sample_keys_laws : @SessionKeysLaws sample_keys.
Proof.
  split; [|exact sample_sodium_laws|exact sample_base64_laws].
  intros bs Hbs. simpl. by rewrite (from_hex_to_hex _ Hbs).
Qed.

Definition sample_config : ReceiptSessionConfig :=
  mkConfig "polygon" (repeat 6 20) 137 (repeat 2 20) (repeat 3 20).
Definition sample_idle : Manager (option (PersistedReceiptSessionHeader * list ReceiptRouteState)) :=
  manager_new sample_config.

Definition sample_proposing : list Call := [CallPropose "1000" 300 100 [] (repeat 8 32)].
Definition sample_signature : Signature := mkSignature 0 (repeat 1 32) sample_secret.
Definition sample_signature_text : string := hex_text (repeat 1 32 ++ sample_secret ++ [27]).

Definition offer_of (kind : ServiceKind) (sr : Z) : SignedServiceReceipt :=
  let r := receipt_new sample_epoch 1 kind (public_key session_provider)
    (make_accounting_commitment sample_epoch (public_key sample_session_cryptde)) 100 sr 2 in
  match sign_receipt r session_provider with Ok s => s | Err _ => mkSigned r [] end.
Definition sample_offer : SignedServiceReceipt := offer_of Exit 10.
Definition sample_routing_offer : SignedServiceReceipt := offer_of Routing 5.

(** Two acknowledged offers of one provider, for exit and for routing, and a
    repeat of the first. *)
Definition sample_calls : list Call := [
  CallRequest [7] 150 sample_epoch;
  CallBindExit [7] (public_key session_provider) 10 2 150;
  CallBindRouting [7] [mkQuote (public_key session_provider) 5 2] [] 150;
  CallExitResponse [7] 1 100 160;
  CallRoutingRequest [7] 100 160;
  CallAcknowledge sample_offer 170;
  CallAcknowledge sample_offer 171;
  CallAcknowledge sample_routing_offer 172].

Definition run_state (cs : list Call)
    (m : Manager (option (PersistedReceiptSessionHeader * list ReceiptRouteState))) :=
  match run_calls cs m with Ret (_, m') => m' | Panic => m end.
Definition run_payloads (cs : list Call)
    (m : Manager (option (PersistedReceiptSessionHeader * list ReceiptRouteState))) :=
  match run_calls cs m with Ret (ps, _) => ps | Panic => [] end.
Definition returned {A} (c : exec A) : bool := match c with Ret _ => true | Panic => false end.

Lemma run_returned cs m :
  returned (run_calls cs m) = true → run_calls cs m = Ret (run_payloads cs m, run_state cs m).
Proof. unfold run_payloads, run_state. by destruct (run_calls cs m) as [[]|]. Qed.

Definition outcome {A} (c : M (option (PersistedReceiptSessionHeader * list ReceiptRouteState)) A)
    (m : Manager (option (PersistedReceiptSessionHeader * list ReceiptRouteState))) : option A :=
  match c m with Ret (Ok a, _) => Some a | _ => None end.
Definition after {A} (c : M (option (PersistedReceiptSessionHeader * list ReceiptRouteState)) A)
    (m : Manager (option (PersistedReceiptSessionHeader * list ReceiptRouteState))) :=
  match c m with Ret (_, m') => m' | Panic => m end.

Lemma outcome_run {A} (c : M (option (PersistedReceiptSessionHeader * list ReceiptRouteState)) A) m :
  bool_decide (is_Some (outcome c m)) = true → ∃ a, c m = Ret (Ok a, after c m).
Proof.
  intros H%bool_decide_eq_true_1. unfold outcome, after in *.
  destruct (c m) as [[[a|e] m']|]; [by exists a|by destruct H..].
Qed.

Definition sample_proposed := run_state sample_proposing sample_idle.
Definition sample_activate := activate (hex_text (repeat 8 32)) sample_signature_text 120.
Definition sample_activated := after sample_activate sample_proposed.
Definition sample_done := run_state sample_calls sample_activated.
Definition active_of
    (m : Manager (option (PersistedReceiptSessionHeader * list ReceiptRouteState))) :=
  default (mkActive sample_session sample_session_cryptde [] 0) (active_opt m).

Lemma active_of_Some m :
  match active_opt m with Some _ => true | None => false end = true → active_opt m = Some (active_of m).
Proof. unfold active_of. by destruct (active_opt m). Qed.

Lemma sample_activation_run :
  ∃ st, sample_activate sample_proposed = Ret (Ok st, sample_activated).
Proof. apply outcome_run. by vm_compute. Qed.

Lemma session_limit_enforced_witness :
  ledger_charge [sample_offer; sample_routing_offer] = 415 ∧
  ledger_charge [sample_offer; sample_routing_offer] ≤
    max_total_charge_wei (policy (active_authorization (active_of sample_activated))).
Proof.
  split; [by vm_compute|]. destruct sample_activation_run as [st Hact].
  refine (proj2 (session_limit_enforced sample_idle sample_proposing _ sample_proposed _ _ _ st
    sample_activated (active_of sample_activated) sample_calls _ sample_done
    _ (run_returned _ _ _) Hact _ _ (run_returned _ _ _)) _ _ _).
  - done.
  - by vm_compute.
  - apply active_of_Some. by vm_compute.
  - by repeat constructor.
  - by vm_compute.
  - by apply (bool_decide_unpack _); vm_compute.
  - intros s Hs. apply (bool_decide_eq_true_1 _). revert s Hs. by apply Forall_forall, (bool_decide_unpack _); vm_compute.
Defined.

Lemma sample_quotes :
  Forall (fun c => Forall full_key (quotes_of c))
    (sample_proposing ++ CallActivate (hex_text (repeat 8 32)) sample_signature_text 120 :: sample_calls).
Proof. by repeat (constructor || by vm_compute). Qed.

Lemma calls_return_sound_sessions_witness :
  ∃ ps m, run_calls (sample_proposing ++
      CallActivate (hex_text (repeat 8 32)) sample_signature_text 120 :: sample_calls) sample_idle
    = Ret (ps, m) ∧
    ∀ a, active_opt m = Some a → NoDup (map stream_key (routes a)).
Proof.
  destruct (calls_return_sound_sessions (SL := sample_keys_laws) sample_idle (sample_proposing ++
      CallActivate (hex_text (repeat 8 32)) sample_signature_text 120 :: sample_calls))
    as (ps & m & Hrun & H); [done|apply sample_quotes|].
  exists ps, m. split; [done|]. intros a Ha. by destruct (H a Ha) as (_ & _ & ? & _).
Defined.

Definition sample_full : list Call := sample_proposing ++
  CallActivate (hex_text (repeat 8 32)) sample_signature_text 120 :: sample_calls.
Definition sample_full_state := run_state sample_full sample_idle.

Lemma restart_resumes_session_witness :
  length (routes (active_of sample_full_state)) = 1%nat ∧
  restore_active sample_config (persisted_header (active_of sample_full_state))
    (routes (active_of sample_full_state)) 300 =
  Ok (with_routes (active_of sample_full_state) (routes (active_of sample_full_state))).
Proof.
  split; [by vm_compute|].
  refine (restart_resumes_session (SL := sample_keys_laws) sample_idle sample_full _
    sample_full_state (active_of sample_full_state) _ 300 _ (run_returned _ _ _) _ _ _ _).
  - done.
  - by vm_compute.
  - apply active_of_Some. by vm_compute.
  - split; by apply Z.leb_le; vm_compute.
  - by apply (bool_decide_unpack _); vm_compute.
  - done.
Defined.

Definition sample_before_offer := run_state (take 5 sample_calls) sample_activated.

Lemma sample_exit_run :
  ∃ p, acknowledge_offer sample_offer 170 sample_before_offer =
    Ret (Ok p, after (acknowledge_offer sample_offer 170) sample_before_offer).
Proof. apply outcome_run. by vm_compute. Qed.

Lemma sample_routing_run :
  ∃ p, acknowledge_offer sample_routing_offer 170 sample_before_offer =
    Ret (Ok p, after (acknowledge_offer sample_routing_offer 170) sample_before_offer).
Proof. apply outcome_run. by vm_compute. Qed.

Lemma exit_offer_acknowledged_witness :
  ∃ a i route, active_opt sample_before_offer = Some a ∧ routes a !! i = Some route ∧
    rsr_route_epoch (request route) = sample_epoch.
Proof.
  destruct sample_exit_run as [p Hrun].
  destruct (exit_offer_acknowledged sample_offer 170 sample_before_offer _ p
    ltac:(by vm_compute) Hrun) as (a & i & route & Ha & _ & Hi & He & _).
  exists a, i, route. split; [done|]. split; [done|]. rewrite He. by vm_compute.
Defined.

Lemma routing_offer_acknowledged_witness :
  ∃ a i route s, active_opt sample_before_offer = Some a ∧ routes a !! i = Some route ∧
    routing_provider_states route !! public_key session_provider = Some s.
Proof.
  destruct sample_routing_run as [p Hrun].
  destruct (routing_offer_acknowledged sample_routing_offer 170 sample_before_offer _ p
    ltac:(by vm_compute) Hrun) as (a & i & route & s & Ha & _ & Hi & _ & Hs & _).
  exists a, i, route, s. split; [done|]. split; [done|]. by rewrite <- Hs.
Defined.

Lemma signature_hex_roundtrip_witness :
  signature_from_hex sample_signature_text = Ok sample_signature.
Proof.
  refine (proj1 (signature_hex_roundtrip (SL := sample_keys_laws) sample_signature _ _ _)
    27 sample_signature_text _ _).
  - repeat split; try done; [by left].
  - by repeat constructor.
  - by repeat constructor.
  - by right.
  - by right.
Defined.

Lemma sample_proposal_run :
  ∃ prop, propose "1000" 300 100 [] (repeat 8 32) sample_idle = Ret (Ok prop, sample_proposed).
Proof.
  destruct (outcome_run (propose "1000" 300 100 [] (repeat 8 32)) sample_idle) as [prop H].
  - by vm_compute.
  - exists prop. rewrite H. unfold sample_proposed, run_state, sample_proposing. cbn [run_calls run_call].
    unfold quiet, bind. by rewrite H.
Qed.

Lemma signed_proposal_activates_witness :
  ∃ prop st m2, propose "1000" 300 100 [] (repeat 8 32) sample_idle = Ret (Ok prop, sample_proposed) ∧
    activate (prop_proposal_id prop) sample_signature_text 120 sample_proposed = Ret (Ok st, m2) ∧
    is_active st = true.
Proof.
  destruct sample_proposal_run as [prop Hprop].
  assert (prop_policy prop = pending_policy (default (mkPending ""%string sample_policy sample_payer)
    (pending_opt sample_proposed))) as Hp by by apply propose_run in Hprop as [-> _].
  destruct (signed_proposal_activates (EL := sample_ethsign_laws) "1000" 300 100 [] (repeat 8 32)
    sample_idle sample_proposed prop sample_secret
    (mkAuthorizedSession (prop_policy prop) sample_signature) sample_signature_text 120)
    as (st & m2 & Hrun & _ & _ & Hact & _).
  - exact Hprop.
  - rewrite Hp. by vm_compute.
  - by vm_compute.
  - lia.
  - done.
  - done.
  - by exists prop, st, m2.
Defined.

Lemma repeated_provider_blocks_recovery_witness :
  ∃ route',
    restore_routes sample_config (persisted_header (active_of sample_full_state)) 300 ∅ ∅ [route']
    = Err (Persistence "recovered receipt route is inconsistent").
Proof.
  destruct (repeated_provider_blocks_recovery sample_config
    (persisted_header (active_of sample_full_state)) 300
    (with_provider_states
       (route_state [7] (mkSessionRequest sample_session sample_epoch (repeat 1 32)))
       {[ [1; 2; 3] := mkProviderState 5 2 (repeat 100 63) None None ]})
    [1; 2; 3] (mkProviderState 5 2 (repeat 100 63) None None) 100)
    as (route' & _ & _ & _ & _ & H); [done|done|].
  exists route'. exact H.
Defined.
