(* ===== verification/NodeRecord.v ===== *)
(** * NodeRecord: what a node knows of another node

    [neighborhood/node_record.rs], with the parts of [sub_lib/node_addr.rs],
    [sub_lib/neighborhood.rs] and [neighborhood/node_location.rs] it is made
    of, and the gossip records of [neighborhood/gossip.rs] it exchanges.

    Sets of keys are [gset]s; a [BTreeSet] is iterated in the order of the
    keys ([btree_iter]), a [HashSet] in an order of which only the interface
    [HashOrder] is known.  The clock is an argument [now].  Where the code
    formats a message, the model keeps a constructor with what the message
    interpolates. *)

From stdpp Require Import base list numbers option strings gmap sorting.
From Stdlib Require Import ZArith Lia.
From S2P Require Import Prelude Text CountrySerde CountryFinder CryptDE Wallet.

Local Open Scope Z_scope.
Local Open Scope rust_scope.
Local Open Scope list_scope.

Global Instance IpAddr_eq_dec : EqDecision IpAddr.
Proof. solve_decision. Defined.
Global Instance IpAddr_countable : Countable IpAddr.
Proof.
  apply (inj_countable' (fun i => match i with IpV4 z => inl z | IpV6 z => inr z end)
    (fun s => match s with inl z => IpV4 z | inr z => IpV6 z end)).
  by intros [].
Defined.

(** ** Iteration orders *)

Definition key_le (a b : PublicKey) : Prop := bytes_leb a b = true.
Global Instance key_le_dec : RelDecision key_le.
Proof. intros a b. unfold key_le. apply _. Defined.

(** [BTreeSet::iter] *)
Definition btree_iter (s : gset PublicKey) : list PublicKey := merge_sort key_le (elements s).

(** [HashSet::into_iter] *)
Class HashOrder := {
  hash_iter : gset PublicKey → list PublicKey;
  hash_iter_perm s : hash_iter s ≡ₚ elements s;
}.

(** ** Addresses *)

Record NodeAddr := mkNodeAddr { na_ip_addr : IpAddr; na_ports : list Z }.
Global Instance NodeAddr_eq_dec : EqDecision NodeAddr.
Proof. solve_decision. Defined.

Record SocketAddr := mkSocket { sock_ip : IpAddr; sock_port : Z }.

(** [Vec::dedup] *)
Fixpoint dedup (l : list Z) : list Z :=
  match l with
  | a :: ((b :: _) as rest) => if a =? b then dedup rest else a :: dedup rest
  | _ => l
  end.

Definition node_addr_new (ip : IpAddr) (ports : list Z) : NodeAddr :=
  mkNodeAddr ip (dedup (merge_sort Z.le ports)).

(** [From<&SocketAddr> for NodeAddr] *)
Definition node_addr_of_socket (s : SocketAddr) : NodeAddr := node_addr_new (sock_ip s) [sock_port s].

(** [From<NodeAddr> for Vec<SocketAddr>] and [for SocketAddr], whose [all[0]]
    panics without ports. *)
Definition socket_addrs (a : NodeAddr) : list SocketAddr :=
  map (mkSocket (na_ip_addr a)) (na_ports a).
Definition socket_addr (a : NodeAddr) : exec SocketAddr := expect (head (socket_addrs a)).

(** ** Rates *)

Record RatePack := mkRatePack {
  routing_byte_rate : Z;
  routing_service_rate : Z;
  exit_byte_rate : Z;
  exit_service_rate : Z;
}.
Global Instance RatePack_eq_dec : EqDecision RatePack.
Proof. solve_decision. Defined.

Definition saturating_mul (w a b : Z) : Z := Z.min (max_u w) (a * b).

Definition routing_charge (r : RatePack) (payload_size : Z) : Z :=
  saturating_add 64 (routing_service_rate r)
    (saturating_mul 64 (routing_byte_rate r) payload_size).

Definition exit_charge (r : RatePack) (payload_size : Z) : Z :=
  saturating_add 64 (exit_service_rate r) (saturating_mul 64 (exit_byte_rate r) payload_size).

Record RatePackLimits := mkLimits { lo : RatePack; hi : RatePack }.

(** One message of a [ConfiguratorError] of [analyze]. *)
Inductive RateViolation :=
| BelowMinimum (name : string) (candidate min : Z)
| AboveMaximum (name : string) (candidate max : Z).

Definition check_min_and_max (candidate min max : Z) (name : string)
    (error : list RateViolation) : list RateViolation :=
  if candidate <? min then error ++ [BelowMinimum name candidate min]
  else if max <? candidate then error ++ [AboveMaximum name candidate max]
  else error.

Definition analyze (l : RatePackLimits) (r : RatePack) : result unit (list RateViolation) :=
  let error := check_min_and_max (routing_byte_rate r) (routing_byte_rate (lo l))
                 (routing_byte_rate (hi l)) "routing_byte_rate" [] in
  let error := check_min_and_max (routing_service_rate r) (routing_service_rate (lo l))
                 (routing_service_rate (hi l)) "routing_service_rate" error in
  let error := check_min_and_max (exit_byte_rate r) (exit_byte_rate (lo l))
                 (exit_byte_rate (hi l)) "exit_byte_rate" error in
  let error := check_min_and_max (exit_service_rate r) (exit_service_rate (lo l))
                 (exit_service_rate (hi l)) "exit_service_rate" error in
  match error with [] => Ok () | _ => Err error end.

Definition rate_check (l : RatePackLimits) (r : RatePack) : bool := is_ok (analyze l r).

(** ** Records *)

Global Instance WalletKind_eq_decision : EqDecision WalletKind.
Proof. solve_decision. Defined.

Record NodeRecordInner_0v1 := mkInner {
  nri_public_key : PublicKey;
  earning_wallet : WalletKind;
  rate_pack : RatePack;
  neighbors : gset PublicKey;
  accepts_connections : bool;
  routes_data : bool;
  version : Z;
  country_code_opt : option string;
  protocol_capabilities : Z;
  receipt_settlement_contract_opt : option Address;
}.

Global Instance NodeRecordInner_eq_dec : EqDecision NodeRecordInner_0v1.
Proof. solve_decision. Defined.

Definition SERVICE_RECEIPT_SETTLEMENT_V1_CAPABILITY : Z := Z.shiftl 1 0.

Definition supports_service_receipt_settlement_v1 (n : NodeRecordInner_0v1) : bool :=
  negb (Z.land (protocol_capabilities n) SERVICE_RECEIPT_SETTLEMENT_V1_CAPABILITY =? 0)
  && match receipt_settlement_contract_opt n with
     | Some a => negb (bool_decide (a = repeat 0 20))
     | None => false
     end.

Record NodeRecordMetadata := mkMetadata {
  last_update : Z;
  node_addr_opt : option NodeAddr;
  unreachable_hosts : gset string;
  node_location_opt : option string;
  country_undesirability : Z;
  route_latency_ewma_ms_opt : option Z;
}.

Record NodeRecord := mkRecord {
  inner : NodeRecordInner_0v1;
  metadata : NodeRecordMetadata;
  signed_gossip : PlainData;
  signature : CryptData;
}.

Record AccessibleGossipRecord := mkAgr {
  agr_signed_gossip : PlainData;
  agr_signature : CryptData;
  agr_node_addr_opt : option NodeAddr;
  agr_inner : NodeRecordInner_0v1;
}.

Record GossipNodeRecord := mkGnr {
  signed_data : PlainData;
  gnr_signature : CryptData;
  gnr_node_addr_opt : option NodeAddr;
}.

Definition nr_public_key (n : NodeRecord) : PublicKey := nri_public_key (inner n).
Definition nr_addr (n : NodeRecord) : option NodeAddr := node_addr_opt (metadata n).

Inductive NodeRecordError := SelfNeighborAttempt (key : PublicKey).

Inductive NeighborhoodDatabaseError :=
| NodeKeyNotFound (key : PublicKey)
| NodeKeyCollision (key : PublicKey)
| DbSelfNeighborAttempt (key : PublicKey)
| NodeAddrAlreadySet (addr : NodeAddr)
| EmptyPortList.

Inductive UpdateError :=
| PublicKeyChanged (existing incoming : PublicKey)
| RatePackChanged (existing incoming : RatePack)
| NodeAddrChanged (existing incoming : NodeAddr).

(** Field updates. *)
Definition with_inner (i : NodeRecordInner_0v1) (n : NodeRecord) : NodeRecord :=
  mkRecord i (metadata n) (signed_gossip n) (signature n).
Definition with_metadata (m : NodeRecordMetadata) (n : NodeRecord) : NodeRecord :=
  mkRecord (inner n) m (signed_gossip n) (signature n).
Definition with_neighbors (s : gset PublicKey) (i : NodeRecordInner_0v1) : NodeRecordInner_0v1 :=
  mkInner (nri_public_key i) (earning_wallet i) (rate_pack i) s (accepts_connections i)
    (routes_data i) (version i) (country_code_opt i) (protocol_capabilities i)
    (receipt_settlement_contract_opt i).
Definition with_version (v : Z) (i : NodeRecordInner_0v1) : NodeRecordInner_0v1 :=
  mkInner (nri_public_key i) (earning_wallet i) (rate_pack i) (neighbors i) (accepts_connections i)
    (routes_data i) v (country_code_opt i) (protocol_capabilities i)
    (receipt_settlement_contract_opt i).
Definition with_wallet (w : WalletKind) (i : NodeRecordInner_0v1) : NodeRecordInner_0v1 :=
  mkInner (nri_public_key i) w (rate_pack i) (neighbors i) (accepts_connections i)
    (routes_data i) (version i) (country_code_opt i) (protocol_capabilities i)
    (receipt_settlement_contract_opt i).
Definition with_addr (a : option NodeAddr) (m : NodeRecordMetadata) : NodeRecordMetadata :=
  mkMetadata (last_update m) a (unreachable_hosts m) (node_location_opt m)
    (country_undesirability m) (route_latency_ewma_ms_opt m).
Definition with_last_update (t : Z) (m : NodeRecordMetadata) : NodeRecordMetadata :=
  mkMetadata t (node_addr_opt m) (unreachable_hosts m) (node_location_opt m)
    (country_undesirability m) (route_latency_ewma_ms_opt m).
Definition with_location (l : option string) (m : NodeRecordMetadata) : NodeRecordMetadata :=
  mkMetadata (last_update m) (node_addr_opt m) (unreachable_hosts m) l
    (country_undesirability m) (route_latency_ewma_ms_opt m).
Definition with_country_undesirability (u : Z) (m : NodeRecordMetadata) : NodeRecordMetadata :=
  mkMetadata (last_update m) (node_addr_opt m) (unreachable_hosts m) (node_location_opt m)
    u (route_latency_ewma_ms_opt m).

Definition metadata_new (now : Z) : NodeRecordMetadata := mkMetadata now None ∅ None 0 None.

(** [Clone for NodeAddr] sorts the ports again. *)
Definition clone_addr (a : NodeAddr) : NodeAddr := node_addr_new (na_ip_addr a) (na_ports a).

(** [#[derive(Clone)]] on the records that hold an address. *)
Definition clone_agr (a : AccessibleGossipRecord) : AccessibleGossipRecord :=
  mkAgr (agr_signed_gossip a) (agr_signature a) (clone_addr <$> agr_node_addr_opt a) (agr_inner a).
Definition clone_record (n : NodeRecord) : NodeRecord :=
  with_metadata (with_addr (clone_addr <$> nr_addr n) (metadata n)) n.

(** [serde_cbor] at the type of inner records. *)
Class InnerCbor := {
  cbor_inner : NodeRecordInner_0v1 → result (list Z) string;
  uncbor_inner : list Z → result NodeRecordInner_0v1 string;
}.

(** A record is decoded as it was encoded. *)
Class InnerCborLaws (I : InnerCbor) : Prop := {
  cbor_inner_roundtrip i bs : cbor_inner i = Ok bs → uncbor_inner bs = Ok i;
}.

(** [Result::expect] *)
Definition expect_ok {A E} (r : result A E) : exec A :=
  match r with Ok a => Ret a | Err _ => Panic end.

Section Record.
Context `{I : InnerCbor}.

(** The free function [regenerate_signed_gossip]. *)
Definition signed_gossip_of (i : NodeRecordInner_0v1) (cryptde : CryptDE)
    : exec (PlainData * CryptData) :=
  let* data := expect_ok (cbor_inner i) in
  let* sig := expect_ok (sign cryptde data) in
  Ret (data, sig).

Definition regenerate_signed_gossip (n : NodeRecord) (cryptde : CryptDE) : exec NodeRecord :=
  let* (data, sig) := signed_gossip_of (inner n) cryptde in
  Ret (mkRecord (inner n) (metadata n) data sig).

(** [AccessibleGossipRecord::regenerate_signed_gossip] *)
Definition agr_regenerate_signed_gossip (a : AccessibleGossipRecord) (cryptde : CryptDE)
    : exec AccessibleGossipRecord :=
  let* (data, sig) := signed_gossip_of (agr_inner a) cryptde in
  Ret (mkAgr data sig (agr_node_addr_opt a) (agr_inner a)).

Record NodeRecordInputs := mkInputs {
  in_earning_wallet : WalletKind;
  in_rate_pack : RatePack;
  in_accepts_connections : bool;
  in_routes_data : bool;
  in_version : Z;
  in_location_opt : option string;
}.

Definition record_new (pk : PublicKey) (cryptde : CryptDE) (inputs : NodeRecordInputs) (now : Z)
    : exec NodeRecord :=
  let node_record := {|
    inner := {|
      nri_public_key := pk;
      earning_wallet := in_earning_wallet inputs;
      rate_pack := in_rate_pack inputs;
      neighbors := ∅;
      accepts_connections := in_accepts_connections inputs;
      routes_data := in_routes_data inputs;
      version := in_version inputs;
      country_code_opt := in_location_opt inputs;
      protocol_capabilities := 0;
      receipt_settlement_contract_opt := None |};
    metadata := with_location (in_location_opt inputs) (metadata_new now);
    signed_gossip := [];
    signature := [] |} in
  regenerate_signed_gossip node_record cryptde.
End Record.

(** ** Operations on one record *)

Definition set_node_addr (n : NodeRecord) (a : NodeAddr)
    : result (bool * NodeRecord) NeighborhoodDatabaseError :=
  match nr_addr n with
  | Some existing =>
      if bool_decide (a = existing) then Ok (false, n)
      else Err (NodeAddrAlreadySet (clone_addr existing))
  | None => Ok (true, with_metadata (with_addr (Some (clone_addr a)) (metadata n)) n)
  end.

Definition unset_node_addr (n : NodeRecord) : NodeRecord :=
  with_metadata (with_addr None (metadata n)) n.

Definition half_neighbor_keys (n : NodeRecord) : gset PublicKey := neighbors (inner n).

Definition has_half_neighbor (n : NodeRecord) (k : PublicKey) : bool :=
  bool_decide (k ∈ neighbors (inner n)).

Definition add_half_neighbor_key (n : NodeRecord) (k : PublicKey)
    : result NodeRecord NodeRecordError :=
  if bool_decide (k = nr_public_key n) then Err (SelfNeighborAttempt (nr_public_key n))
  else Ok (with_inner (with_neighbors ({[k]} ∪ neighbors (inner n)) (inner n)) n).

Definition remove_half_neighbor_key (n : NodeRecord) (k : PublicKey) : bool * NodeRecord :=
  (bool_decide (k ∈ neighbors (inner n)),
   with_inner (with_neighbors (neighbors (inner n) ∖ {[k]}) (inner n)) n).

Definition clear_half_neighbors (n : NodeRecord) : NodeRecord :=
  with_inner (with_neighbors ∅ (inner n)) n.

(** [self.inner.version += 1] panics on overflow in a checked build. *)
Definition increment_version (n : NodeRecord) : exec NodeRecord :=
  let* v := expect (checked_add 32 (version (inner n)) 1) in
  Ret (with_inner (with_version v (inner n)) n).

Definition set_version (n : NodeRecord) (v : Z) : NodeRecord :=
  with_inner (with_version v (inner n)) n.

Definition set_earning_wallet (n : NodeRecord) (w : WalletKind) : bool * NodeRecord :=
  if kind_eqb (earning_wallet (inner n)) w then (false, n)
  else (true, with_inner (with_wallet w (inner n)) n).

(** [NodeRecord::update]: an error may come after the address was set. *)
Definition update (n : NodeRecord) (a : AccessibleGossipRecord) (now : Z)
    : result unit UpdateError * NodeRecord :=
  if negb (bool_decide (nri_public_key (agr_inner a) = nr_public_key n)) then
    (Err (PublicKeyChanged (nr_public_key n) (nri_public_key (agr_inner a))), n)
  else if negb (bool_decide (rate_pack (agr_inner a) = rate_pack (inner n))) then
    (Err (RatePackChanged (rate_pack (inner n)) (rate_pack (agr_inner a))), n)
  else
    let finish addr :=
      (Ok (), mkRecord (agr_inner a) (with_last_update now (with_addr addr (metadata n)))
                (agr_signed_gossip a) (agr_signature a)) in
    match nr_addr n, agr_node_addr_opt a with
    | None, None => finish None
    | None, Some na => finish (Some (clone_addr na))
    | Some existing, None => finish (Some existing)
    | Some existing, Some incoming =>
        if negb (bool_decide (existing = incoming))
        then (Err (NodeAddrChanged existing incoming), n)
        else finish (Some existing)
    end.

(** ** Where a node is, from its address *)

Section Location.
Context (finder : CountryCodeFinder).

Definition get_node_location (ip_opt : option IpAddr) : exec (option string) :=
  match ip_opt with
  | Some ip =>
      let* country_opt := find_country finder ip in
      Ret (iso3166 <$> country_opt)
  | None => Ret None
  end.

(** [From<AccessibleGossipRecord> for NodeRecord] *)
Definition record_of_agr (a : AccessibleGossipRecord) (now : Z) : exec NodeRecord :=
  let* location := get_node_location (na_ip_addr <$> agr_node_addr_opt a) in
  Ret {| inner := agr_inner a;
         metadata := with_addr (agr_node_addr_opt a) (with_location location (metadata_new now));
         signed_gossip := agr_signed_gossip a;
         signature := agr_signature a |}.

Section Gnr.
Context `{I : InnerCbor}.

(** [TryFrom<&GossipNodeRecord> for NodeRecord] *)
Definition record_of_gnr (g : GossipNodeRecord) (now : Z) : exec (result NodeRecord string) :=
  match uncbor_inner (signed_data g) with
  | Err e => Ret (Err e)
  | Ok i =>
      let* location := get_node_location (na_ip_addr <$> gnr_node_addr_opt g) in
      Ret (Ok {| inner := i;
                 metadata := with_addr (clone_addr <$> gnr_node_addr_opt g)
                               (with_location location (metadata_new now));
                 signed_gossip := signed_data g;
                 signature := gnr_signature g |})
  end.

(** [TryFrom<GossipNodeRecord> for AccessibleGossipRecord] *)
Definition agr_of_gnr (g : GossipNodeRecord) : result AccessibleGossipRecord string :=
  let? i := uncbor_inner (signed_data g) in
  Ok (mkAgr (signed_data g) (gnr_signature g) (gnr_node_addr_opt g) i).
End Gnr.
End Location.

(** [From<NodeRecord>] and [From<AccessibleGossipRecord>] for [GossipNodeRecord]. *)
Definition gnr_of_record (n : NodeRecord) : GossipNodeRecord :=
  mkGnr (signed_gossip n) (signature n) (nr_addr n).
Definition gnr_of_agr (a : AccessibleGossipRecord) : GossipNodeRecord :=
  mkGnr (agr_signed_gossip a) (agr_signature a) (agr_node_addr_opt a).

(** ** Facts about the parts *)

Lemma analyze_Ok l r :
  analyze l r = Ok () ↔
  routing_byte_rate (lo l) ≤ routing_byte_rate r ≤ routing_byte_rate (hi l) ∧
  routing_service_rate (lo l) ≤ routing_service_rate r ≤ routing_service_rate (hi l) ∧
  exit_byte_rate (lo l) ≤ exit_byte_rate r ≤ exit_byte_rate (hi l) ∧
  exit_service_rate (lo l) ≤ exit_service_rate r ≤ exit_service_rate (hi l).
Proof.
  unfold analyze, check_min_and_max.
  repeat match goal with |- context [if ?a <? ?b then _ else _] => destruct (Z.ltb_spec a b) end;
    simpl; (split; [try done; intros _; lia|try done; lia]).
Qed.

(** What [update] leaves alone, and what it takes. *)
Lemma update_spec n a now r n' :
  update n a now = (r, n') →
  nr_public_key n' = nr_public_key n ∧ rate_pack (inner n') = rate_pack (inner n) ∧
  match r with
  | Ok _ => inner n' = agr_inner a ∧ signed_gossip n' = agr_signed_gossip a ∧
            signature n' = agr_signature a ∧
            (∀ x, nr_addr n = Some x → nr_addr n' = Some x)
  | Err _ => n' = n
  end.
Proof.
  unfold update. cbv zeta. intros Heq.
  destruct (decide (nri_public_key (agr_inner a) = nr_public_key n)) as [H1|H1];
    [rewrite bool_decide_eq_true_2 in Heq by done
    |rewrite bool_decide_eq_false_2 in Heq by done; by injection Heq as <- <-].
  destruct (decide (rate_pack (agr_inner a) = rate_pack (inner n))) as [H2|H2];
    [rewrite bool_decide_eq_true_2 in Heq by done
    |rewrite bool_decide_eq_false_2 in Heq by done; by injection Heq as <- <-].
  cbn [negb] in Heq.
  destruct (nr_addr n) as [x|] eqn:Hx, (agr_node_addr_opt a) as [y|] eqn:Hy;
    [destruct (negb _); [by injection Heq as <- <-|]|..];
    injection Heq as <- <-; (split; [done|]; split; [done|]); by repeat split.
Qed.
