(* ===== verification/NeighborhoodDb.v ===== *)
(** * NeighborhoodDb: the database of known nodes

    [neighborhood/neighborhood_database.rs] with the methods of
    [node_record.rs] that need the database: records by public key, an index
    from IP addresses to keys, and the local node's own record, the root.  The
    invariant [db_inv] says what the rest of the neighborhood relies on; every
    operation keeps it.  Rendering as a graph for debugging is not modelled. *)

From stdpp Require Import base list numbers option strings gmap sorting fin_maps.
From Stdlib Require Import ZArith Lia.
From S2P Require Import Prelude Text CountrySerde CountryFinder CryptDE Wallet NodeRecord.

Local Open Scope Z_scope.
Local Open Scope rust_scope.
Local Open Scope list_scope.

Definition ISOLATED_NODE_GRACE_PERIOD_SECS : Z := 30.

Record NeighborhoodDatabase := mkDb {
  this_node : PublicKey;
  by_public_key : gmap PublicKey NodeRecord;
  by_ip_addr : gmap IpAddr PublicKey;
}.

(** [D] is the type of node descriptors. *)
Inductive NeighborhoodMode (D : Type) :=
| Standard (node_addr : NodeAddr) (neighbor_configs : list D) (rates : RatePack)
| ZeroHop
| OriginateOnly (neighbor_configs : list D) (rates : RatePack)
| ConsumeOnly (neighbor_configs : list D).
Arguments Standard {D}.
Arguments ZeroHop {D}.
Arguments OriginateOnly {D}.
Arguments ConsumeOnly {D}.

Definition ZERO_RATE_PACK : RatePack := mkRatePack 0 0 0 0.

Definition mode_node_addr_opt {D} (m : NeighborhoodMode D) : option NodeAddr :=
  match m with Standard a _ _ => Some (clone_addr a) | _ => None end.
Definition mode_rate_pack {D} (m : NeighborhoodMode D) : RatePack :=
  match m with Standard _ _ r => r | OriginateOnly _ r => r | _ => ZERO_RATE_PACK end.
Definition mode_accepts_connections {D} (m : NeighborhoodMode D) : bool :=
  match m with Standard _ _ _ => true | _ => false end.
Definition mode_routes_data {D} (m : NeighborhoodMode D) : bool :=
  match m with Standard _ _ _ => true | OriginateOnly _ _ => true | _ => false end.

Definition with_records (db : NeighborhoodDatabase) (r : gmap PublicKey NodeRecord)
    : NeighborhoodDatabase := mkDb (this_node db) r (by_ip_addr db).
Definition with_index (db : NeighborhoodDatabase) (i : gmap IpAddr PublicKey)
    : NeighborhoodDatabase := mkDb (this_node db) (by_public_key db) i.

(** ** Lookups *)

Definition node_by_key (db : NeighborhoodDatabase) (k : PublicKey) : option NodeRecord :=
  by_public_key db !! k.
Definition root (db : NeighborhoodDatabase) : exec NodeRecord :=
  expect (node_by_key db (this_node db)).
Definition keys (db : NeighborhoodDatabase) : gset PublicKey := dom (by_public_key db).

Definition node_by_ip (db : NeighborhoodDatabase) (ip : IpAddr) : option NodeRecord :=
  match by_ip_addr db !! ip with Some k => node_by_key db k | None => None end.

Definition db_has_half_neighbor (db : NeighborhoodDatabase) (from to : PublicKey) : bool :=
  match node_by_key db from with Some f => has_half_neighbor f to | None => false end.
Definition db_has_full_neighbor (db : NeighborhoodDatabase) (from to : PublicKey) : bool :=
  db_has_half_neighbor db from to && db_has_half_neighbor db to from.

Definition full_neighbor_keys (n : NodeRecord) (db : NeighborhoodDatabase) : gset PublicKey :=
  filter (fun k => db_has_half_neighbor db k (nr_public_key n) = true) (half_neighbor_keys n).

Definition has_full_neighbor (n : NodeRecord) (db : NeighborhoodDatabase) (k : PublicKey) : bool :=
  if negb (bool_decide (k ∈ half_neighbor_keys n)) then false
  else match node_by_key db k with
       | Some r => bool_decide (nr_public_key n ∈ half_neighbor_keys r)
       | None => false
       end.

(** [iter.map(f).collect()] where [f] may panic *)
Fixpoint exec_mapM {A B} (f : A → exec B) (l : list A) : exec (list B) :=
  match l with
  | [] => Ret []
  | a :: l => let* b := f a in let* bs := exec_mapM f l in Ret (b :: bs)
  end.

Section Ordered.
Context `{H : HashOrder}.

Definition full_neighbors (n : NodeRecord) (db : NeighborhoodDatabase) : exec (list NodeRecord) :=
  exec_mapM (fun k => expect (node_by_key db k)) (hash_iter (full_neighbor_keys n db)).

Definition gossip_target_degree (db : NeighborhoodDatabase) (target : PublicKey) : exec nat :=
  match node_by_key db target with
  | None => Ret O
  | Some target_node =>
      let* full := full_neighbors target_node db in
      let full_accepting_degree :=
        length (filter (fun n => accepts_connections (inner n) = true) full) in
      let nonexistent_degree := size (half_neighbor_keys target_node ∖ keys db) in
      Ret (full_accepting_degree + nonexistent_degree)%nat
  end.
End Ordered.

(** ** Changes *)

Definition add_arbitrary_node (db : NeighborhoodDatabase) (n : NodeRecord) : NeighborhoodDatabase :=
  let pk := nr_public_key n in
  mkDb (this_node db) (<[pk := n]> (by_public_key db))
    (match nr_addr n with
     | Some a => <[na_ip_addr a := pk]> (by_ip_addr db)
     | None => by_ip_addr db
     end).

Definition check_for_ports (addr_opt : option NodeAddr) : result unit NeighborhoodDatabaseError :=
  match addr_opt with
  | None => Ok ()
  | Some a => match na_ports a with [] => Err EmptyPortList | _ => Ok () end
  end.

Definition check_for_collision (db : NeighborhoodDatabase) (k : PublicKey)
    : result unit NeighborhoodDatabaseError :=
  if bool_decide (k ∈ keys db) then Err (NodeKeyCollision k) else Ok ().

Definition add_node (db : NeighborhoodDatabase) (n : NodeRecord)
    : result (PublicKey * NeighborhoodDatabase) NeighborhoodDatabaseError :=
  let pk := nr_public_key n in
  let? _ := check_for_ports (nr_addr n) in
  let? _ := check_for_collision db pk in
  Ok (pk, add_arbitrary_node db n).

(** Only the local node gets neighbors this way. *)
Definition add_half_neighbor (db : NeighborhoodDatabase) (k : PublicKey) (now : Z)
    : result (bool * NeighborhoodDatabase) NeighborhoodDatabaseError :=
  if negb (bool_decide (k ∈ keys db)) then Err (NodeKeyNotFound k)
  else if db_has_half_neighbor db (this_node db) k then Ok (false, db)
  else
    match node_by_key db (this_node db) with
    | Some node =>
        match add_half_neighbor_key node k with
        | Err (SelfNeighborAttempt key) => Err (DbSelfNeighborAttempt key)
        | Ok node' =>
            Ok (true, with_records db
              (<[this_node db := with_metadata (with_last_update now (metadata node')) node']>
                 (by_public_key db)))
        end
    | None => Err (NodeKeyNotFound (this_node db))
    end.

(** [root_mut] with a change of the root. *)
Definition map_root (db : NeighborhoodDatabase) (f : NodeRecord → exec NodeRecord)
    : exec NeighborhoodDatabase :=
  let* r := root db in
  let* r' := f r in
  Ret (with_records db (<[this_node db := r']> (by_public_key db))).

(** The capabilities of the root and the contract it settles with. *)
Definition with_settlement (capabilities : Z) (contract_opt : option Address) (r : NodeRecord) : NodeRecord :=
  let i := inner r in
  with_inner (mkInner (nri_public_key i) (earning_wallet i) (rate_pack i) (neighbors i)
    (accepts_connections i) (routes_data i) (version i) (country_code_opt i) capabilities contract_opt) r.

Definition remove_neighbor (db : NeighborhoodDatabase) (k : PublicKey)
    : exec (result bool PublicKey * NeighborhoodDatabase) :=
  match node_by_key db k with
  | None => Ret (Err k, db)
  | Some n =>
      let db1 := with_records db (<[k := unset_node_addr n]> (by_public_key db)) in
      let db2 := match nr_addr n with
                 | Some a => with_index db1 (delete (na_ip_addr a) (by_ip_addr db1))
                 | None => db1
                 end in
      let* r := root db2 in
      let '(removed, r') := remove_half_neighbor_key r k in
      let db3 := with_records db2 (<[this_node db2 := r']> (by_public_key db2)) in
      if removed then
        let* db4 := map_root db3 increment_version in Ret (Ok true, db4)
      else Ret (Ok false, db3)
  end.

Definition remove_node (db : NeighborhoodDatabase) (k : PublicKey) : NeighborhoodDatabase :=
  let addr_opt := match node_by_key db k with Some n => nr_addr n | None => None end in
  mkDb (this_node db) (delete k (by_public_key db))
    (match addr_opt with
     | Some a => delete (na_ip_addr a) (by_ip_addr db)
     | None => by_ip_addr db
     end).

Definition referenced_node_keys (db : NeighborhoodDatabase) : exec (gset PublicKey) :=
  let* r := root db in
  Ret ({[nr_public_key r]} ∪ ⋃ (map (fun e => neighbors (inner (snd e)))
                                   (map_to_list (by_public_key db)))).

(** [time_t_timestamp() - 30] panics before the 30th second of 1970. *)
Definition cull_dead_nodes (db : NeighborhoodDatabase) (now : Z) : exec NeighborhoodDatabase :=
  let* referenced := referenced_node_keys db in
  let* deadline := expect (checked_sub 32 now ISOLATED_NODE_GRACE_PERIOD_SECS) in
  let to_cull := filter (fun k =>
    match node_by_key db k with
    | Some n => last_update (metadata n) <=? deadline
    | None => false
    end = true) (keys db ∖ referenced) in
  Ret (foldl remove_node db (btree_iter to_cull)).

Definition new_public_ip (db : NeighborhoodDatabase) (ip : IpAddr) : exec NeighborhoodDatabase :=
  let* r := root db in
  let* old := expect (nr_addr r) in
  let r' := with_metadata (with_addr (Some (node_addr_new ip (na_ports old))) (metadata r)) r in
  Ret (mkDb (this_node db) (<[this_node db := r']> (by_public_key db))
         (<[ip := nr_public_key r]> (delete (na_ip_addr old) (by_ip_addr db)))).

Section New.
Context `{I : InnerCbor} (finder : CountryCodeFinder).

Definition db_new {D} (mode : NeighborhoodMode D) (wallet : WalletKind) (cryptde : CryptDE) (now : Z)
    : exec NeighborhoodDatabase :=
  let result := mkDb (public_key cryptde) ∅ ∅ in
  let* location_opt := get_node_location finder (na_ip_addr <$> mode_node_addr_opt mode) in
  let inputs := mkInputs wallet (mode_rate_pack mode) (mode_accepts_connections mode)
                  (mode_routes_data mode) 0 location_opt in
  let* r := record_new (public_key cryptde) cryptde inputs now in
  let* r := match mode_node_addr_opt mode with
            | Some a => let* p := expect_ok (set_node_addr r a) in Ret (snd p)
            | None => Ret r
            end in
  let* r := regenerate_signed_gossip r cryptde in
  Ret (add_arbitrary_node result r).
(** [Neighborhood::new] sets them in the new database, and signs the root again. *)
Definition announce_settlement (capabilities : Z) (contract_opt : option Address) (cryptde : CryptDE)
    (db : NeighborhoodDatabase) : exec NeighborhoodDatabase :=
  map_root db (fun r => regenerate_signed_gossip (with_settlement capabilities contract_opt r) cryptde).
End New.

(** ** The invariant *)

(** The root is there, its half neighbors are known nodes other than itself;
    records are filed under their own key; the index points to records that
    claim the address.  (The converse of the last does not hold: of two nodes
    that claim one address, only the later is indexed.) *)
Record db_inv (db : NeighborhoodDatabase) : Prop := {
  di_root : ∃ r, by_public_key db !! this_node db = Some r ∧
                 neighbors (inner r) ⊆ keys db ∖ {[this_node db]};
  di_keys : map_Forall (fun k n => nr_public_key n = k) (by_public_key db);
  di_index : map_Forall (fun ip k => ∃ n, by_public_key db !! k = Some n ∧
                                          na_ip_addr <$> nr_addr n = Some ip) (by_ip_addr db);
}.

Lemma expect_Ret {A} (o : option A) a : expect o = Ret a ↔ o = Some a.
Proof. destruct o; simpl; naive_solver. Qed.

Lemma root_Ret db r : root db = Ret r ↔ by_public_key db !! this_node db = Some r.
Proof. unfold root, node_by_key. apply expect_Ret. Qed.

Lemma known_iff db k : k ∈ keys db ↔ ∃ n, by_public_key db !! k = Some n.
Proof. unfold keys. apply elem_of_dom. Qed.

Lemma inv_root db :
  db_inv db → ∃ r, root db = Ret r ∧ nr_public_key r = this_node db ∧
                   neighbors (inner r) ⊆ keys db ∖ {[this_node db]}.
Proof.
  intros [(r & Hr & Hn) Hk _]. exists r. split; [by apply root_Ret|].
  split; [by apply (Hk _ _ Hr)|done].
Qed.

Lemma node_by_ip_key db ip n :
  db_inv db → node_by_ip db ip = Some n →
  by_public_key db !! nr_public_key n = Some n ∧ na_ip_addr <$> nr_addr n = Some ip.
Proof.
  intros [_ Hk Hi]. unfold node_by_ip, node_by_key.
  destruct (by_ip_addr db !! ip) as [k|] eqn:Hip; [|done]. intros Hn.
  destruct (Hi _ _ Hip) as (n' & Hn' & Ha). rewrite Hn in Hn'. injection Hn' as <-.
  rewrite (Hk _ _ Hn). done.
Qed.

(** Replacing a record, its key and address kept. *)
Lemma inv_set_record db k n n' :
  db_inv db → by_public_key db !! k = Some n →
  nr_public_key n' = k → (∀ a, nr_addr n = Some a → nr_addr n' = Some a) →
  (k = this_node db → neighbors (inner n') ⊆ keys db ∖ {[this_node db]}) →
  db_inv (with_records db (<[k := n']> (by_public_key db))).
Proof.
  intros [(r & Hr & Hn) Hk Hi] Hlook Hpk Haddr Hroot.
  assert (dom (<[k := n']> (by_public_key db)) = keys db) as Hdom.
  { rewrite dom_insert_L. unfold keys. apply elem_of_dom_2 in Hlook. set_solver. }
  split; simpl; unfold keys; simpl; rewrite ?Hdom.
  - destruct (decide (k = this_node db)) as [->|Hne].
    + exists n'. rewrite lookup_insert_eq. auto.
    + exists r. rewrite lookup_insert_ne by done. done.
  - by apply map_Forall_insert_2.
  - intros ip k' Hip. destruct (Hi _ _ Hip) as (m & Hm & Ha).
    destruct (decide (k = k')) as [->|].
    + exists n'. rewrite lookup_insert_eq. split; [done|].
      rewrite Hlook in Hm. injection Hm as <-.
      destruct (nr_addr n) as [a|] eqn:Hna; [|done]. by rewrite (Haddr a).
    + exists m. by rewrite lookup_insert_ne.
Qed.

Lemma inv_add_arbitrary db n :
  db_inv db → nr_public_key n ∉ keys db → db_inv (add_arbitrary_node db n).
Proof.
  intros [(r & Hr & Hn) Hk Hi] Hfresh. unfold keys in *. rewrite not_elem_of_dom in Hfresh.
  assert (nr_public_key n ≠ this_node db) by (intros Heq; rewrite Heq in *; congruence).
  split; simpl.
  - exists r. rewrite lookup_insert_ne by done. split; [done|]. unfold keys; simpl.
    rewrite dom_insert_L. set_solver.
  - by apply map_Forall_insert_2.
  - assert (map_Forall (fun ip k => ∃ m, <[nr_public_key n:=n]> (by_public_key db) !! k = Some m ∧
      na_ip_addr <$> nr_addr m = Some ip) (by_ip_addr db)) as Hold.
    { intros ip k Hip. destruct (Hi _ _ Hip) as (m & Hm & ?). exists m.
      rewrite lookup_insert_ne by congruence. done. }
    destruct (nr_addr n) as [a|] eqn:Ha; [|done].
    apply map_Forall_insert_2; [|done]. exists n. rewrite lookup_insert_eq, Ha. done.
Qed.

Lemma add_node_Ok db n k db' :
  add_node db n = Ok (k, db') ↔
  (∀ a, nr_addr n = Some a → na_ports a ≠ []) ∧ (nr_public_key n ∉ keys db) ∧
  k = nr_public_key n ∧ db' = add_arbitrary_node db n.
Proof.
  unfold add_node, check_for_ports, check_for_collision. split.
  - intros H. rust_inv H. guards. injection H as <- <-. split; [|done].
    intros x Hx. rewrite Hx in Hrun. by destruct (na_ports x).
  - intros (Hp & Hf & -> & ->). rewrite bool_decide_eq_false_2 by done.
    destruct (nr_addr n) as [x|]; [|done]. specialize (Hp x eq_refl). by destruct (na_ports x).
Qed.

Lemma inv_add_node db n k db' : db_inv db → add_node db n = Ok (k, db') → db_inv db'.
Proof. intros Hi (_ & Hf & _ & ->)%add_node_Ok. by apply inv_add_arbitrary. Qed.

Lemma add_half_neighbor_Ok db k now b db' :
  db_inv db → add_half_neighbor db k now = Ok (b, db') →
  (b = false ∧ db' = db) ∨
  (b = true ∧ k ∈ keys db ∖ {[this_node db]} ∧
   ∃ r, by_public_key db !! this_node db = Some r ∧
     db' = with_records db (<[this_node db :=
       mkRecord (with_neighbors ({[k]} ∪ neighbors (inner r)) (inner r))
         (with_last_update now (metadata r)) (signed_gossip r) (signature r)]> (by_public_key db))).
Proof.
  intros Hi. destruct (inv_root _ Hi) as (r & Hr & Hpk & _). apply root_Ret in Hr.
  unfold add_half_neighbor, node_by_key. rewrite Hr.
  destruct (negb _) eqn:Hin; [done|]. guards.
  destruct (db_has_half_neighbor _ _ _); [intros [= <- <-]; by left|].
  unfold add_half_neighbor_key. case_bool_decide as Hself; [done|]. intros H. injection H as <- <-.
  right. split; [done|]. split; [set_solver|]. by exists r.
Qed.

Lemma inv_add_half_neighbor db k now b db' :
  db_inv db → add_half_neighbor db k now = Ok (b, db') → db_inv db'.
Proof.
  intros Hi H. destruct (add_half_neighbor_Ok _ _ _ _ _ Hi H) as [[_ ->]|(_ & Hk & r & Hr & ->)];
    [done|].
  eapply inv_set_record; try done; simpl.
  - by apply (di_keys _ Hi _ _ Hr).
  - intros _. destruct (di_root _ Hi) as (r' & Hr' & Hn). rewrite Hr in Hr'. injection Hr' as <-.
    set_solver.
Qed.

(** Adding a known node other than the root never fails. *)
Lemma add_half_neighbor_known db k now :
  db_inv db → k ∈ keys db → k ≠ this_node db →
  ∃ b db', add_half_neighbor db k now = Ok (b, db') ∧ db_inv db' ∧
    (b = true ↔ ¬ db_has_half_neighbor db (this_node db) k = true).
Proof.
  intros Hi Hk Hne. pose proof (inv_add_half_neighbor db k now) as Hpres.
  unfold add_half_neighbor in *.
  destruct (inv_root _ Hi) as (r & Hr & Hpk & _). apply root_Ret in Hr.
  rewrite bool_decide_eq_true_2 in * by done. cbn [negb] in *.
  destruct (db_has_half_neighbor _ _ _) eqn:Hh.
  - eexists _, _. split; [reflexivity|]. split; [done|]. split; [done|]. by intros [].
  - unfold node_by_key in *. rewrite Hr in *. unfold add_half_neighbor_key in *.
    rewrite Hpk in *. rewrite bool_decide_eq_false_2 in * by done.
    eexists _, _. split; [reflexivity|]. split; [by eapply Hpres|]. by split.
Qed.

(** Changing the root's own data but not its key, address or neighbors. *)
Lemma inv_map_root db f db' :
  db_inv db → map_root db f = Ret db' →
  (∀ r r', f r = Ret r' → nr_public_key r' = nr_public_key r ∧ nr_addr r' = nr_addr r ∧
                          neighbors (inner r') ⊆ neighbors (inner r)) →
  db_inv db'.
Proof.
  intros Hi H Hf. unfold map_root in H. apply exec_bind_Ret in H as (r & Hr & H).
  apply exec_bind_Ret in H as (r' & Hr' & H). injection H as <-. apply root_Ret in Hr.
  destruct (Hf _ _ Hr') as (Hk & Ha & Hn).
  eapply inv_set_record; try done.
  - rewrite Hk. by apply (di_keys _ Hi _ _ Hr).
  - by rewrite Ha.
  - intros _. destruct (di_root _ Hi) as (r0 & Hr0 & ?). rewrite Hr in Hr0. injection Hr0 as <-.
    set_solver.
Qed.

Lemma map_root_returns db f :
  db_inv db → (∀ r, root db = Ret r → ∃ r', f r = Ret r') → ∃ db', map_root db f = Ret db'.
Proof.
  intros Hi Hf. destruct (inv_root _ Hi) as (r & Hr & _). destruct (Hf r Hr) as [r' Hr'].
  unfold map_root. rewrite Hr. cbn [exec_bind]. rewrite Hr'. by eexists.
Qed.

Lemma increment_version_Ret n n' :
  increment_version n = Ret n' →
  in_u 32 (version (inner n) + 1) ∧ n' = with_inner (with_version (version (inner n) + 1) (inner n)) n.
Proof.
  unfold increment_version. intros (v & Hv & H)%exec_bind_Ret.
  apply expect_Ret, checked_add_Some in Hv as [-> ?]. by injection H as <-.
Qed.

(** Dropping an address together with its index entry. *)
Lemma inv_drop_addr db k n :
  db_inv db → by_public_key db !! k = Some n →
  db_inv (mkDb (this_node db) (<[k := unset_node_addr n]> (by_public_key db))
    (match nr_addr n with
     | Some a => delete (na_ip_addr a) (by_ip_addr db)
     | None => by_ip_addr db
     end)).
Proof.
  intros Hi Hk. destruct Hi as [(r & Hr & Hn) Hkeys Hidx].
  assert (dom (<[k := unset_node_addr n]> (by_public_key db)) = keys db) as Hdom.
  { rewrite dom_insert_L. unfold keys. apply elem_of_dom_2 in Hk. set_solver. }
  split; simpl; unfold keys; simpl; rewrite ?Hdom.
  - destruct (decide (k = this_node db)) as [->|Hne].
    + exists (unset_node_addr n). rewrite lookup_insert_eq. split; [done|].
      rewrite Hr in Hk. by injection Hk as <-.
    + exists r. by rewrite lookup_insert_ne.
  - apply map_Forall_insert_2; [by apply (Hkeys _ _ Hk)|done].
  - assert (∀ ip k', by_ip_addr db !! ip = Some k' → na_ip_addr <$> nr_addr n ≠ Some ip →
      ∃ m, <[k:=unset_node_addr n]> (by_public_key db) !! k' = Some m ∧
           na_ip_addr <$> nr_addr m = Some ip) as Hold.
    { intros ip k' Hip Hne. destruct (Hidx _ _ Hip) as (m & Hm & Ha). exists m.
      rewrite lookup_insert_ne by (intros <-; congruence). done. }
    destruct (nr_addr n) as [a|] eqn:Hna; intros ip k' Hip.
    + apply lookup_delete_Some in Hip as [Hne Hip]. apply Hold; [done|]. simpl. congruence.
    + by apply Hold.
Qed.

(** What [remove_neighbor] does to a known node: it never fails, and reports
    whether the node was a neighbor of the root. *)
Lemma remove_neighbor_spec db k n :
  db_inv db → by_public_key db !! k = Some n →
  (∀ r, root db = Ret r → in_u 32 (version (inner r) + 1)) →
  ∃ db', remove_neighbor db k = Ret (Ok (db_has_half_neighbor db (this_node db) k), db') ∧
    db_inv db' ∧ this_node db' = this_node db.
Proof.
  intros Hi Hk Hver. pose proof (inv_drop_addr _ _ _ Hi Hk) as Hdrop.
  set (db2 := mkDb _ _ _) in Hdrop.
  destruct (inv_root _ Hdrop) as (r2 & Hr2 & Hpk2 & Hn2).
  destruct (inv_root _ Hi) as (r & Hr & Hpk & Hn).
  assert (inner r2 = inner r) as Hinner.
  { apply root_Ret in Hr, Hr2. subst db2. simpl in Hr2.
    destruct (decide (k = this_node db)) as [->|].
    - rewrite lookup_insert_eq in Hr2. injection Hr2 as <-. rewrite Hr in Hk. by injection Hk as <-.
    - rewrite lookup_insert_ne in Hr2 by done. congruence. }
  unfold remove_neighbor, node_by_key. rewrite Hk. cbv zeta.
  assert (match nr_addr n with
          | Some a => with_index (with_records db (<[k:=unset_node_addr n]> (by_public_key db)))
              (delete (na_ip_addr a)
                 (by_ip_addr (with_records db (<[k:=unset_node_addr n]> (by_public_key db)))))
          | None => with_records db (<[k:=unset_node_addr n]> (by_public_key db))
          end = db2) as ->.
  { subst db2. by destruct (nr_addr n). }
  rewrite Hr2. cbn [exec_bind remove_half_neighbor_key].
  assert (db_inv (with_records db2 (<[this_node db2 :=
            with_inner (with_neighbors (neighbors (inner r2) ∖ {[k]}) (inner r2)) r2]>
            (by_public_key db2)))) as Hi3.
  { eapply inv_set_record; [done|by apply root_Ret|done|done|].
    intros _. simpl. set_solver. }
  assert (bool_decide (k ∈ neighbors (inner r2)) = db_has_half_neighbor db (this_node db) k) as ->.
  { rewrite Hinner. unfold db_has_half_neighbor, node_by_key. apply root_Ret in Hr. by rewrite Hr. }
  destruct (db_has_half_neighbor _ _ _) eqn:Hh; [|by eexists].
  unfold map_root. destruct (inv_root _ Hi3) as (r3 & Hr3 & _). rewrite Hr3. cbn [exec_bind].
  assert (version (inner r3) = version (inner r)) as Hv.
  { apply root_Ret in Hr3. simpl in Hr3. rewrite lookup_insert_eq in Hr3. injection Hr3 as <-.
    simpl. by rewrite Hinner. }
  destruct (increment_version r3) as [r4|] eqn:Hinc.
  - cbn [exec_bind]. eexists. split; [reflexivity|]. split; [|done].
    eapply (inv_map_root _ increment_version); [exact Hi3| |].
    + unfold map_root. rewrite Hr3. cbn [exec_bind]. by rewrite Hinc.
    + intros x x' [_ ->]%increment_version_Ret. done.
  - exfalso. unfold increment_version, checked_add in Hinc. rewrite Hv in Hinc.
    rewrite decide_True in Hinc by by apply Hver. done.
Qed.

Lemma inv_remove_node db k :
  db_inv db → k ≠ this_node db → db_has_half_neighbor db (this_node db) k = false →
  db_inv (remove_node db k).
Proof.
  intros [(r & Hr & Hn) Hkeys Hidx] Hne Hnn.
  unfold db_has_half_neighbor, node_by_key in Hnn. rewrite Hr in Hnn.
  apply bool_decide_eq_false in Hnn.
  unfold remove_node, node_by_key. split; simpl.
  - exists r. rewrite lookup_delete_ne by done. split; [done|]. unfold keys in *; simpl.
    rewrite dom_delete_L. set_solver.
  - by apply map_Forall_delete.
  - intros ip k' Hip.
    assert (by_ip_addr db !! ip = Some k' ∧ k' ≠ k) as [Hip' Hk'].
    { destruct (by_public_key db !! k) as [n|] eqn:Hlk.
      - destruct (nr_addr n) as [a|] eqn:Ha; simpl in Hip.
        + apply lookup_delete_Some in Hip as [Hipne Hip]. split; [done|]. intros ->.
          destruct (Hidx _ _ Hip) as (m & Hm & Hma). rewrite Hlk in Hm. injection Hm as <-.
          rewrite Ha in Hma. simpl in Hma. congruence.
        + split; [done|]. intros ->. destruct (Hidx _ _ Hip) as (m & Hm & Hma).
          rewrite Hlk in Hm. injection Hm as <-. by rewrite Ha in Hma.
      - split; [done|]. intros ->. destruct (Hidx _ _ Hip) as (m & Hm & _). congruence. }
    destruct (Hidx _ _ Hip') as (m & Hm & Ha). exists m. by rewrite lookup_delete_ne.
Qed.

(** Nodes outside [kept] are removed one after the other. *)
Lemma inv_remove_nodes l db :
  db_inv db →
  Forall (fun k => k ≠ this_node db ∧ db_has_half_neighbor db (this_node db) k = false) l →
  let db' := foldl remove_node db l in
  db_inv db' ∧ this_node db' = this_node db ∧
  by_public_key db' = filter (fun e => e.1 ∉ l) (by_public_key db).
Proof.
  revert db. induction l as [|k l IH]; intros db Hi Hall; simpl.
  - split; [done|]. split; [done|]. symmetry. apply map_filter_id. intros. set_solver.
  - apply Forall_cons in Hall as [[Hne Hh] Hall].
    assert (by_public_key (remove_node db k) !! this_node db = by_public_key db !! this_node db)
      as Hroot by (by apply lookup_delete_ne).
    destruct (IH (remove_node db k)) as (Hi' & Ht & Hrec).
    + by apply inv_remove_node.
    + eapply Forall_impl; [exact Hall|]. intros k' [? Hk']. split; [done|].
      unfold db_has_half_neighbor, node_by_key in *. simpl in *. by rewrite Hroot.
    + split; [done|]. split; [done|]. rewrite Hrec. simpl. apply map_eq. intros i.
      rewrite !map_lookup_filter, !lookup_delete.
      destruct (decide (k = i)) as [->|]; simpl.
      * destruct (by_public_key db !! i); simpl; [|done]. rewrite option_guard_False; set_solver.
      * destruct (by_public_key db !! i); simpl; [|done].
        destruct (decide (i ∈ l)); repeat case_guard; set_solver.
Qed.

Lemma referenced_Ret db ks :
  db_inv db → referenced_node_keys db = Ret ks →
  this_node db ∈ ks ∧
  ∀ k k', db_has_half_neighbor db k k' = true → k' ∈ ks.
Proof.
  intros Hi. unfold referenced_node_keys. intros (r & Hr & H)%exec_bind_Ret. injection H as <-.
  destruct (inv_root _ Hi) as (r' & Hr' & Hpk & _). rewrite Hr in Hr'. injection Hr' as <-.
  split; [set_solver|]. intros k k' Hh. unfold db_has_half_neighbor, node_by_key in Hh.
  destruct (by_public_key db !! k) as [n|] eqn:Hn; [|done]. apply bool_decide_eq_true in Hh.
  apply elem_of_union. right. apply elem_of_union_list. exists (neighbors (inner n)).
  split; [|done]. apply list_elem_of_fmap. exists (k, n). split; [done|].
  by apply elem_of_map_to_list.
Qed.

Lemma elem_of_btree_iter k s : k ∈ btree_iter s ↔ k ∈ s.
Proof. unfold btree_iter. by rewrite merge_sort_Permutation, elem_of_elements. Qed.

(** Culling removes exactly the unreferenced records that are old enough. *)
Lemma cull_dead_nodes_spec db now :
  db_inv db → in_u 32 (now - ISOLATED_NODE_GRACE_PERIOD_SECS) →
  ∃ db' ks, cull_dead_nodes db now = Ret db' ∧ referenced_node_keys db = Ret ks ∧ db_inv db' ∧
    this_node db' = this_node db ∧
    ∀ k n, by_public_key db' !! k = Some n ↔
      by_public_key db !! k = Some n ∧
      (k ∈ ks ∨ now - ISOLATED_NODE_GRACE_PERIOD_SECS < last_update (metadata n)).
Proof.
  intros Hi Hnow. destruct (referenced_node_keys db) as [ks|] eqn:Href.
  2: { destruct (inv_root _ Hi) as (r & Hr & _). unfold referenced_node_keys in Href.
       by rewrite Hr in Href. }
  destruct (referenced_Ret _ _ Hi Href) as [Hself Hrefs].
  unfold cull_dead_nodes, checked_sub. rewrite Href, decide_True by done. cbn [exec_bind expect].
  set (to_cull := filter _ _).
  destruct (inv_remove_nodes (btree_iter to_cull) db Hi) as (Hi' & Ht & Hrec).
  { apply Forall_forall. intros k Hk. rewrite elem_of_btree_iter in Hk. subst to_cull.
    apply elem_of_filter in Hk as [_ Hk]. split; [set_solver|].
    apply not_true_iff_false. intros Hh%Hrefs. set_solver. }
  eexists _, ks. split; [reflexivity|]. split; [done|]. split; [done|]. split; [done|].
  intros k n. rewrite Hrec. rewrite map_lookup_filter_Some. simpl.
  rewrite elem_of_btree_iter. subst to_cull. rewrite elem_of_filter, elem_of_difference.
  unfold keys, node_by_key. split.
  - intros [Hk Hnot]. split; [done|]. destruct (decide (k ∈ ks)); [by left|]. right.
    rewrite Hk in Hnot. apply elem_of_dom_2 in Hk as Hd.
    destruct (Z.leb_spec (last_update (metadata n)) (now - ISOLATED_NODE_GRACE_PERIOD_SECS)); [|lia].
    exfalso. by apply Hnot.
  - intros [Hk Hor]. split; [done|]. rewrite Hk. intros [Hle [_ Hn]].
    apply Z.leb_le in Hle. destruct Hor; [done|lia].
Qed.

Lemma inv_new_public_ip db ip db' :
  db_inv db → new_public_ip db ip = Ret db' → db_inv db' ∧ this_node db' = this_node db.
Proof.
  intros Hi H. unfold new_public_ip in H. apply exec_bind_Ret in H as (r & Hr & H).
  apply exec_bind_Ret in H as (old & Hold & H). apply expect_Ret in Hold.
  injection H as <-. split; [|done].
  destruct (inv_root _ Hi) as (r' & Hr' & Hpk & Hn). rewrite Hr in Hr'. injection Hr' as <-.
  apply root_Ret in Hr. destruct Hi as [_ Hkeys Hidx].
  set (r' := with_metadata _ r).
  assert (dom (<[this_node db := r']> (by_public_key db)) = keys db) as Hdom.
  { rewrite dom_insert_L. unfold keys. apply elem_of_dom_2 in Hr. set_solver. }
  split; simpl; unfold keys; simpl; rewrite ?Hdom.
  - exists r'. rewrite lookup_insert_eq. done.
  - by apply map_Forall_insert_2.
  - apply map_Forall_insert_2.
    + exists r'. rewrite Hpk, lookup_insert_eq. done.
    + intros ip' k Hip. apply lookup_delete_Some in Hip as [Hne Hip].
      destruct (Hidx _ _ Hip) as (m & Hm & Ha). exists m. rewrite lookup_insert_ne; [done|].
      intros <-. rewrite Hr in Hm. injection Hm as <-. rewrite Hold in Ha. simpl in Ha. congruence.
Qed.

Lemma exec_mapM_Ret {A B} (f : A → exec B) l bs :
  exec_mapM f l = Ret bs ↔ Forall2 (fun a b => f a = Ret b) l bs.
Proof.
  revert bs. induction l as [|a l IH]; intros bs; simpl.
  - split; [intros [= <-]; constructor|]. by inversion 1.
  - rewrite exec_bind_Ret. split.
    + intros (b & Hb & H). apply exec_bind_Ret in H as (bs' & Hbs & H). injection H as <-.
      constructor; [done|]. by apply IH.
    + inversion 1 as [|? b ? bs' Hb Hbs]; subst. exists b. split; [done|].
      apply exec_bind_Ret. exists bs'. split; [by apply IH|done].
Qed.

Lemma elem_of_full_neighbor_keys n db k :
  k ∈ full_neighbor_keys n db ↔
  k ∈ neighbors (inner n) ∧ db_has_half_neighbor db k (nr_public_key n) = true.
Proof. unfold full_neighbor_keys, half_neighbor_keys. rewrite elem_of_filter. tauto. Qed.

Section Degree.
Context `{H : HashOrder}.

Lemma elem_of_hash_iter k s : k ∈ hash_iter s ↔ k ∈ s.
Proof. by rewrite hash_iter_perm, elem_of_elements. Qed.

(** The full neighbors of a node are found, in some order, without panic. *)
Lemma full_neighbors_returns n db :
  ∃ ns, full_neighbors n db = Ret ns ∧
    Forall2 (fun k m => by_public_key db !! k = Some m) (hash_iter (full_neighbor_keys n db)) ns.
Proof.
  assert (∀ l, (∀ k, k ∈ l → is_Some (by_public_key db !! k)) →
    ∃ ns, Forall2 (fun k m => by_public_key db !! k = Some m) l ns) as Hall.
  { induction l as [|k l IH]; intros Hl; [by exists []|].
    destruct (Hl k) as [m Hm]; [set_solver|]. destruct IH as [ns Hns]; [set_solver|].
    exists (m :: ns). by constructor. }
  destruct (Hall (hash_iter (full_neighbor_keys n db))) as [ns Hns].
  { intros k Hk. rewrite elem_of_hash_iter, elem_of_full_neighbor_keys in Hk.
    destruct Hk as [_ Hk]. unfold db_has_half_neighbor, node_by_key in Hk.
    destruct (by_public_key db !! k); [by eexists|done]. }
  exists ns. split; [|done]. unfold full_neighbors. apply exec_mapM_Ret.
  eapply Forall2_impl; [exact Hns|]. intros k m Hm. by apply expect_Ret.
Qed.

Lemma gossip_target_degree_returns db k : ∃ d, gossip_target_degree db k = Ret d.
Proof.
  unfold gossip_target_degree. destruct (node_by_key db k) as [n|]; [|by eexists].
  destruct (full_neighbors_returns n db) as (ns & -> & _). by eexists.
Qed.
End Degree.

Lemma regenerate_Ret `{I : InnerCbor} n c n' :
  regenerate_signed_gossip n c = Ret n' →
  inner n' = inner n ∧ metadata n' = metadata n ∧
  cbor_inner (inner n') = Ok (signed_gossip n') ∧ sign c (signed_gossip n') = Ok (signature n').
Proof.
  unfold regenerate_signed_gossip, signed_gossip_of. intros ([d s] & H1 & H)%exec_bind_Ret.
  injection H as <-. apply exec_bind_Ret in H1 as (d' & Hd & H1).
  apply exec_bind_Ret in H1 as (s' & Hs & H1). injection H1 as -> ->. simpl.
  destruct (cbor_inner _) as [x|] eqn:Hc; [|done]. destruct (sign c d) as [y|] eqn:Hy; [|done].
  injection Hd as ->. injection Hs as ->. done.
Qed.

(** A new database has the invariant and a signed root. *)
Lemma db_new_inv `{I : InnerCbor} finder {D} (mode : NeighborhoodMode D) wallet c now db :
  db_new finder mode wallet c now = Ret db →
  db_inv db ∧ this_node db = public_key c ∧ keys db = {[public_key c]}.
Proof.
  unfold db_new. intros (loc & _ & H)%exec_bind_Ret. cbv zeta in H.
  apply exec_bind_Ret in H as (r & Hr & H). apply exec_bind_Ret in H as (r2 & Hr2 & H).
  apply exec_bind_Ret in H as (r3 & Hr3 & H). injection H as <-.
  apply regenerate_Ret in Hr as (Hr & _). apply regenerate_Ret in Hr3 as (Hr3 & _).
  assert (inner r2 = inner r) as Hr2'.
  { destruct (mode_node_addr_opt mode) as [a|]; [|by injection Hr2 as <-].
    apply exec_bind_Ret in Hr2 as ([b r'] & Hset & Hr2). injection Hr2 as <-.
    unfold set_node_addr in Hset. destruct (nr_addr r); simpl in *.
    - case_bool_decide; [|done]. by injection Hset as _ <-.
    - by injection Hset as _ <-. }
  assert (nr_public_key r3 = public_key c ∧ neighbors (inner r3) = ∅) as [Hk Hn].
  { unfold nr_public_key. by rewrite Hr3, Hr2', Hr. }
  unfold add_arbitrary_node. rewrite Hk.
  split; [|split; [done|unfold keys; simpl; by rewrite dom_insert_L, dom_empty_L, union_empty_r_L]].
  split; simpl.
  - exists r3. rewrite lookup_insert_eq, Hn. split; [done|set_solver].
  - apply map_Forall_insert_2; [done|apply map_Forall_empty].
  - destruct (nr_addr r3) as [a|] eqn:Ha; [|apply map_Forall_empty].
    apply map_Forall_insert_2; [|apply map_Forall_empty].
    exists r3. by rewrite lookup_insert_eq, Ha.
Qed.
