(* ===== verification/ExitPreferences.v ===== *)
(** * ExitPreferences: where the user wants traffic to leave the network

    [UserExitPreferences] of [neighborhood/mod.rs] and [ExitLocation] of
    [masq_lib/messages.rs]: the countries the user asked for, in priorities,
    and the undesirability each node's record gets from them. *)

From stdpp Require Import base list numbers option strings gmap sorting.
From Stdlib Require Import ZArith Lia.
From S2P Require Import Prelude Text CountrySerde CountryFinder CryptDE Wallet NodeRecord.
From S2P Require Import NeighborhoodDb.

Local Open Scope Z_scope.
Local Open Scope rust_scope.
Local Open Scope list_scope.

Definition UNREACHABLE_COUNTRY_PENALTY : Z := 100000000.
Definition ZERO_UNDESIRABILITY : Z := 0.
Definition COUNTRY_UNDESIRABILITY_FACTOR : Z := 1000.
Definition ZZ_COUNTRY_CODE_STRING : string := "ZZ".

Record ExitLocation := mkLocation { country_codes : list string; priority : Z }.

Inductive FallbackPreference := Nothing | ExitCountryWithFallback | ExitCountryNoFallback.
Global Instance FallbackPreference_eq_dec : EqDecision FallbackPreference.
Proof. solve_decision. Defined.

Record UserExitPreferences := mkPreferences {
  exit_countries : list string;
  fallback_preference : FallbackPreference;
  locations_opt : option (list ExitLocation);
  db_countries : list string;
}.

Definition preferences_new : UserExitPreferences := mkPreferences [] Nothing None [].

Definition should_set_country_undesirability (country_code : string) (l : ExitLocation) : bool :=
  bool_decide (country_code ∈ country_codes l)
  && negb (bool_decide (country_code = ZZ_COUNTRY_CODE_STRING)).

Definition is_unreachable_country_penalty (p : UserExitPreferences) (country_code : string) : bool :=
  (bool_decide (fallback_preference p = ExitCountryWithFallback)
   && negb (bool_decide (country_code ∈ exit_countries p)))
  || bool_decide (country_code = ZZ_COUNTRY_CODE_STRING).

(** Priorities count from one: [0] and priorities above four million panic. *)
Definition calculate_country_undesirability (priority : Z) : exec Z :=
  let* p := expect (checked_sub 32 priority 1) in
  expect (checked_mul 32 COUNTRY_UNDESIRABILITY_FACTOR p).

Definition set_country_undesirability (n : NodeRecord) (u : Z) : NodeRecord :=
  with_metadata (with_country_undesirability u (metadata n)) n.

(** One round of the loop over the locations. *)
Definition assign_location (p : UserExitPreferences) (country_code : string) (n : NodeRecord)
    (l : ExitLocation) : exec NodeRecord :=
  let* n :=
    (if should_set_country_undesirability country_code l
     then let* u := calculate_country_undesirability (wrap_u 32 (priority l)) in
          Ret (set_country_undesirability n u)
     else Ret n) in
  Ret (if is_unreachable_country_penalty p country_code
       then set_country_undesirability n UNREACHABLE_COUNTRY_PENALTY else n).

Fixpoint assign_locations (p : UserExitPreferences) (country_code : string) (n : NodeRecord)
    (ls : list ExitLocation) : exec NodeRecord :=
  match ls with
  | [] => Ret n
  | l :: ls => let* n := assign_location p country_code n l in assign_locations p country_code n ls
  end.

Definition assign_nodes_country_undesirability (p : UserExitPreferences) (n : NodeRecord)
    : exec NodeRecord :=
  let country_code := default ZZ_COUNTRY_CODE_STRING (country_code_opt (inner n)) in
  match locations_opt p with
  | Some exit_locations_by_priority => assign_locations p country_code n exit_locations_by_priority
  | None => Ret n
  end.

(** [set_country_undesirability_and_exit_countries], over [nodes_mut] *)
Fixpoint exec_map_records (f : NodeRecord → exec NodeRecord) (l : list (PublicKey * NodeRecord))
    (m : gmap PublicKey NodeRecord) : exec (gmap PublicKey NodeRecord) :=
  match l with
  | [] => Ret m
  | (k, n) :: l => let* n' := f n in exec_map_records f l (<[k := n']> m)
  end.

Definition set_country_undesirability_and_exit_countries (p : UserExitPreferences)
    (db : NeighborhoodDatabase) (exit_locations_by_priority : list ExitLocation)
    : exec (UserExitPreferences * NeighborhoodDatabase) :=
  let nodes := map_to_list (by_public_key db) in
  match exit_locations_by_priority with
  | _ :: _ =>
      let* m := exec_map_records (assign_nodes_country_undesirability p) nodes (by_public_key db) in
      Ret (p, with_records db m)
  | [] =>
      let* m := exec_map_records (fun n => Ret (set_country_undesirability n ZERO_UNDESIRABILITY))
                  nodes (by_public_key db) in
      Ret (mkPreferences [] (fallback_preference p) (locations_opt p) (db_countries p),
           with_records db m)
  end.

(** ** What the user asks for *)

Definition is_fallback_routing_active (p : UserExitPreferences) : bool :=
  match fallback_preference p with
  | Nothing => true
  | ExitCountryWithFallback => true
  | ExitCountryNoFallback => false
  end.

Definition set_exit_locations_opt (p : UserExitPreferences) (ls : list ExitLocation)
    : UserExitPreferences :=
  mkPreferences (exit_countries p) (fallback_preference p)
    (match exit_countries p with
     | _ :: _ => Some ls
     | [] => match fallback_preference p with ExitCountryNoFallback => None | _ => Some ls end
     end) (db_countries p).

Definition code_in_db_countries_or_fallback_active (p : UserExitPreferences) (code : string) : bool :=
  bool_decide (code ∈ db_countries p)
  || bool_decide (fallback_preference p = ExitCountryWithFallback).

Definition fallback_active_and_code_missing_in_db_countries (p : UserExitPreferences) (code : string)
    : bool :=
  bool_decide (fallback_preference p = ExitCountryWithFallback)
  && negb (bool_decide (code ∈ db_countries p)).

Definition with_exit_countries (p : UserExitPreferences) (cs : list string) : UserExitPreferences :=
  mkPreferences cs (fallback_preference p) (locations_opt p) (db_countries p).

(** [Vec::remove] at the first position of [code] *)
Fixpoint remove_first (code : string) (l : list string) : list string :=
  match l with
  | [] => []
  | c :: l => if bool_decide (c = code) then l else c :: remove_first code l
  end.

Definition synchronize_code (st : UserExitPreferences * list string) (code : string)
    : UserExitPreferences * list string :=
  let '(p, missing) := st in
  if code_in_db_countries_or_fallback_active p code then
    let p := if negb (bool_decide (code ∈ exit_countries p))
             then with_exit_countries p (exit_countries p ++ [code]) else p in
    let missing := if fallback_active_and_code_missing_in_db_countries p code
                   then missing ++ [code] else missing in
    (p, missing)
  else (with_exit_countries p (remove_first code (exit_countries p)), missing ++ [code]).

Definition synchronize_exit_countries_and_return_missing (p : UserExitPreferences)
    (codes : list string) : UserExitPreferences * list string :=
  foldl synchronize_code (p, []) codes.

(** The loop of [extract_exit_locations_from_message], its preferences already
    holding the countries in the database. *)
Definition extract_exit_locations (p : UserExitPreferences) (requested : list ExitLocation)
    : UserExitPreferences * list string :=
  foldl (fun st l =>
    let '(p', m) := synchronize_exit_countries_and_return_missing (fst st) (country_codes l) in
    (p', snd st ++ m)) (p, []) requested.

Definition error_message_indicates (p : UserExitPreferences) (missing_countries : list string) : bool :=
  let desired := concat (map country_codes (default [] (locations_opt p))) in
  match desired, missing_countries with
  | [], [] => false
  | _, _ => bool_decide (merge_sort String.le missing_countries = merge_sort String.le desired)
  end.

(** ** Facts *)

Lemma assign_location_Ret p cc n l n' :
  assign_location p cc n l = Ret n' → ∃ u, n' = set_country_undesirability n u.
Proof.
  unfold assign_location. intros (m & Hm & H)%exec_bind_Ret. apply Ret_inj in H.
  assert (∃ u, m = set_country_undesirability n u) as [u ->].
  { destruct (should_set_country_undesirability _ _).
    - apply exec_bind_Ret in Hm as (u & _ & Hm). injection Hm as <-. by eexists.
    - injection Hm as <-. exists (country_undesirability (metadata n)). by destruct n as [? [] ? ?]. }
  destruct (is_unreachable_country_penalty _ _); subst; by eexists.
Qed.

(** Assigning touches nothing but the undesirability of the country. *)
Lemma assign_Ret p n n' :
  assign_nodes_country_undesirability p n = Ret n' →
  ∃ u, n' = set_country_undesirability n u.
Proof.
  unfold assign_nodes_country_undesirability. cbv zeta.
  assert (n = set_country_undesirability n (country_undesirability (metadata n))) as Hid
    by (by destruct n as [? [] ? ?]).
  destruct (locations_opt p) as [ls|]; [|intros [= <-]; by eexists].
  generalize (default ZZ_COUNTRY_CODE_STRING (country_code_opt (inner n))) as cc. intros cc.
  assert (∀ m, (∃ u, m = set_country_undesirability n u) → assign_locations p cc m ls = Ret n' →
    ∃ u, n' = set_country_undesirability n u) as Hind; [|eauto].
  clear. induction ls as [|l ls IH]; intros m Hm; simpl; [by intros [= <-]|].
  intros (m' & Hl & H)%exec_bind_Ret. apply (IH m'); [|done].
  apply assign_location_Ret in Hl as [u ->]. destruct Hm as [u' ->]. by eexists.
Qed.
