(* ===== verification/Gossip.v ===== *)
(** * Gossip: what a node tells another about its neighborhood

    [neighborhood/gossip.rs] (messages, their builder and their decoding),
    [neighborhood/gossip_producer.rs], and the checks that [handle_gossip] of
    [neighborhood/mod.rs] makes before it hands a message on.  A message is a
    list of signed records; the producer leaves out the target's own record
    and hides the addresses the target has no business knowing.  The clock is
    an argument [now].  Rendering as a graph for debugging is not modelled. *)

From stdpp Require Import base list numbers option strings gmap sorting fin_maps.
From Stdlib Require Import ZArith Lia.
From S2P Require Import Prelude Text CountrySerde CountryFinder CryptDE Wallet NodeRecord.
From S2P Require Import NeighborhoodDb.

Local Open Scope Z_scope.
Local Open Scope rust_scope.
Local Open Scope list_scope.

Record Gossip_0v1 := mkGossip { node_records : list GossipNodeRecord }.

Definition without_addr (g : GossipNodeRecord) : GossipNodeRecord :=
  mkGnr (signed_data g) (gnr_signature g) None.

(** [From<(&NeighborhoodDatabase, &PublicKey, bool)> for GossipNodeRecord] *)
Definition gnr_of_db (db : NeighborhoodDatabase) (k : PublicKey) (reveal_node_addr : bool)
    : exec GossipNodeRecord :=
  let* n := expect (node_by_key db k) in
  let gnr := gnr_of_record (clone_record n) in
  Ret (if negb reveal_node_addr then without_addr gnr else gnr).

(** ** The builder *)

Record GossipBuilder := mkBuilder {
  gb_db : NeighborhoodDatabase;
  gb_gossip : Gossip_0v1;
  keys_so_far : gset PublicKey;
}.

Definition builder_new (db : NeighborhoodDatabase) : GossipBuilder := mkBuilder db (mkGossip []) ∅.

(** [GossipBuilder::node]: it panics at a key given twice or unknown. *)
Definition builder_node (b : GossipBuilder) (k : PublicKey) (reveal_node_addr : bool)
    : exec GossipBuilder :=
  if bool_decide (k ∈ keys_so_far b) then Panic
  else
    match node_by_key (gb_db b) k with
    | None => Panic
    | Some n =>
        let gnr := gnr_of_record (clone_record n) in
        let gnr := if negb reveal_node_addr || negb (accepts_connections (inner n))
                   then without_addr gnr else gnr in
        Ret (mkBuilder (gb_db b) (mkGossip (node_records (gb_gossip b) ++ [gnr]))
               ({[nr_public_key n]} ∪ keys_so_far b))
    end.

Definition build (b : GossipBuilder) : Gossip_0v1 := gb_gossip b.

(** ** The producer *)

Definition DEAD_NODE_CHECK_INTERVAL_SECS : Z := 60.

Section Produce.
Context `{H : HashOrder}.

Definition reveals (db : NeighborhoodDatabase) (target_node n : NodeRecord) : exec bool :=
  if accepts_connections (inner n) then
    let* r := root db in
    Ret (bool_decide (nr_public_key n = nr_public_key r)
         || has_half_neighbor target_node (nr_public_key n))
  else Ret false.

Fixpoint build_all (db : NeighborhoodDatabase) (target_node : NodeRecord) (so_far : GossipBuilder)
    (ns : list NodeRecord) : exec GossipBuilder :=
  match ns with
  | [] => Ret so_far
  | n :: ns =>
      let* reveal_node_addr := reveals db target_node n in
      let* so_far := builder_node so_far (nr_public_key n) reveal_node_addr in
      build_all db target_node so_far ns
  end.

(** [GossipProducerReal::produce], with the time of the last check for dead
    nodes, which it updates, as it does the database.  [u32] subtraction of a
    later time panics. *)
Definition produce (last_dead_node_check : Z) (db : NeighborhoodDatabase) (target : PublicKey)
    (now : Z) : exec (option Gossip_0v1 * Z * NeighborhoodDatabase) :=
  let* elapsed := expect (checked_sub 32 now last_dead_node_check) in
  let* (last, db) :=
    (if DEAD_NODE_CHECK_INTERVAL_SECS <=? elapsed
     then let* db := cull_dead_nodes db now in Ret (now, db)
     else Ret (last_dead_node_check, db)) in
  match node_by_key db target with
  | None => Ret (None, last, db)
  | Some target_node =>
      let* referenced_keys := referenced_node_keys db in
      let ns := omap (node_by_key db)
        (filter (fun k => k ∈ referenced_keys)
           (filter (fun k => k ≠ target) (hash_iter (keys db)))) in
      let* builder := build_all db target_node (builder_new db) ns in
      Ret (Some (build builder), last, db)
  end.

Definition produce_debut (db : NeighborhoodDatabase) : exec Gossip_0v1 :=
  let* r := root db in
  let* b := builder_node (builder_new db) (nr_public_key r) true in
  Ret (build b).
End Produce.

(** ** Reading a message *)

Section Read.
Context `{I : InnerCbor}.

(** [From<(NodeRecordInner_0v1, Option<NodeAddr>, &dyn CryptDE)>] *)
Definition gnr_of_inner (i : NodeRecordInner_0v1) (addr_opt : option NodeAddr) (cryptde : CryptDE)
    : exec GossipNodeRecord :=
  let* (data, sig) := signed_gossip_of i cryptde in
  Ret (mkGnr data sig addr_opt).

(** [TryInto<Vec<AccessibleGossipRecord>> for Gossip_0v1] *)
Fixpoint agrs_of_records (gs : list GossipNodeRecord) : result (list AccessibleGossipRecord) string :=
  match gs with
  | [] => Ok []
  | g :: gs =>
      let? a := agr_of_gnr g in
      let? l := agrs_of_records gs in
      Ok (a :: l)
  end.
Definition agrs_of_gossip (g : Gossip_0v1) : result (list AccessibleGossipRecord) string :=
  agrs_of_records (node_records g).

(** [iter.any(p)] where [p] may panic *)
Fixpoint exec_any {A} (p : A → exec bool) (l : list A) : exec bool :=
  match l with
  | [] => Ret false
  | a :: l => let* b := p a in if b then Ret true else exec_any p l
  end.

Definition signature_invalid (cryptde : CryptDE) (a : AccessibleGossipRecord) : exec bool :=
  let* valid := verify_signature cryptde (agr_signed_gossip a) (agr_signature a)
                  (nri_public_key (agr_inner a)) in
  Ret (negb valid).

(** [Result::ok] *)
Definition result_ok {A E} (r : result A E) : option A :=
  match r with Ok a => Some a | Err _ => None end.

(** The part of [handle_gossip] before [handle_gossip_agrs]: the records of a
    message all of which decode and are signed by the nodes they describe. *)
Definition admitted_agrs (cryptde : CryptDE) (g : Gossip_0v1)
    : exec (option (list AccessibleGossipRecord)) :=
  let record_count := length (node_records g) in
  let agrs := omap (fun r => result_ok (agr_of_gnr r)) (node_records g) in
  if (length agrs <? record_count)%nat then Ret None
  else
    let* bad := exec_any (signature_invalid cryptde) agrs in
    Ret (if bad then None else Some agrs).

(** ** Signed records *)

(** Data and signature stand for the inner record, and [v] accepts them. *)
Definition signed_by (v : CryptDE) (i : NodeRecordInner_0v1) (data : PlainData) (sig : CryptData)
    : Prop :=
  uncbor_inner data = Ok i ∧ verify_signature v data sig (nri_public_key i) = Ret true.
Definition agr_signed (v : CryptDE) (a : AccessibleGossipRecord) : Prop :=
  signed_by v (agr_inner a) (agr_signed_gossip a) (agr_signature a).
Definition record_signed (v : CryptDE) (n : NodeRecord) : Prop :=
  signed_by v (inner n) (signed_gossip n) (signature n).
Definition db_signed (v : CryptDE) (db : NeighborhoodDatabase) : Prop :=
  map_Forall (fun _ => record_signed v) (by_public_key db).

(** Nothing is dropped exactly when every record decodes. *)
Lemma omap_agrs gs as' :
  (length gs ≤ length (omap (fun r => result_ok (agr_of_gnr r)) gs))%nat ∧
  omap (fun r => result_ok (agr_of_gnr r)) gs = as' ↔
  Forall2 (fun r a => agr_of_gnr r = Ok a) gs as'.
Proof.
  revert as'. induction gs as [|r gs IH]; intros as'; csimpl.
  - split; [intros [_ <-]; constructor|]. by inversion 1.
  - assert (length (omap (fun r => result_ok (agr_of_gnr r)) gs) ≤ length gs)%nat as Hle
      by (clear; induction gs as [|r gs IH]; csimpl; [done|]; destruct (agr_of_gnr r); csimpl; lia).
    destruct (agr_of_gnr r) as [a|] eqn:Hr; csimpl.
    + split.
      * intros [Hl <-]. constructor; [done|]. apply IH. split; [lia|done].
      * inversion 1 as [|? ? ? ? Ha Htl]; subst. apply IH in Htl as [? <-].
        split; [lia|]. congruence.
    + split; [intros [? _]; lia|]. inversion 1; congruence.
Qed.

Lemma agr_of_gnr_Ok r a :
  agr_of_gnr r = Ok a ↔
  uncbor_inner (signed_data r) = Ok (agr_inner a) ∧ agr_signed_gossip a = signed_data r ∧
  agr_signature a = gnr_signature r ∧ agr_node_addr_opt a = gnr_node_addr_opt r.
Proof.
  unfold agr_of_gnr. destruct a; simpl. destruct (uncbor_inner _); simpl; naive_solver.
Qed.

Lemma no_bad_signature c gs as' :
  Forall2 (fun r a => agr_of_gnr r = Ok a) gs as' →
  exec_any (signature_invalid c) as' = Ret false ↔ Forall (agr_signed c) as'.
Proof.
  induction 1 as [|r a gs as' Ha _ IH]; simpl; [by split|].
  apply agr_of_gnr_Ok in Ha as (Ha & Hs & _).
  rewrite Forall_cons, <- IH. unfold signature_invalid, agr_signed, signed_by.
  rewrite Hs. destruct (verify_signature _ _ _ _) as [[]|]; simpl; naive_solver.
Qed.

(** What is admitted decodes to what was signed, record by record. *)
Lemma admitted_spec c g agrs :
  admitted_agrs c g = Ret (Some agrs) ↔
  Forall2 (fun r a => agr_of_gnr r = Ok a) (node_records g) agrs ∧ Forall (agr_signed c) agrs.
Proof.
  unfold admitted_agrs. cbv zeta. rewrite <- omap_agrs.
  destruct (_ <? _)%nat eqn:Hlen; guards; [split; [done|]; intros [[? _] _]; lia|].
  rewrite exec_bind_Ret. pose proof (proj1 (omap_agrs _ _) (conj Hlen eq_refl)) as Hd. pose proof (no_bad_signature c _ _ Hd) as Hs. split.
  - intros (b & Hb & Heq). destruct b; [done|]. injection Heq as <-. naive_solver.
  - intros [[_ <-] HF]. exists false. naive_solver.
Qed.

(** ** What is produced *)

(** The record of [n] as a node that has [target_node]'s neighbors sees it. *)
Definition shown (db : NeighborhoodDatabase) (target_node n : NodeRecord) : AccessibleGossipRecord :=
  mkAgr (signed_gossip n) (signature n)
    (if accepts_connections (inner n) &&
        (bool_decide (nr_public_key n = this_node db)
         || has_half_neighbor target_node (nr_public_key n))
     then clone_addr <$> nr_addr n else None)
    (inner n).

Lemma builder_node_Ret db b k n reveal :
  gb_db b = db → by_public_key db !! k = Some n → k ∉ keys_so_far b →
  builder_node b k reveal =
  Ret (mkBuilder db (mkGossip (node_records (gb_gossip b) ++
         [mkGnr (signed_gossip n) (signature n)
            (if reveal && accepts_connections (inner n) then clone_addr <$> nr_addr n else None)]))
       ({[nr_public_key n]} ∪ keys_so_far b)).
Proof.
  intros Hdb Hk Hnew. unfold builder_node. rewrite bool_decide_eq_false_2 by done.
  rewrite Hdb. unfold node_by_key. rewrite Hk. cbv zeta.
  unfold gnr_of_record, clone_record, without_addr, nr_addr. simpl.
  by destruct reveal, (accepts_connections (inner n)).
Qed.

Lemma build_all_Ret db t b ns :
  db_inv db → gb_db b = db →
  Forall (fun n => by_public_key db !! nr_public_key n = Some n) ns →
  NoDup (map nr_public_key ns) → (∀ n, n ∈ ns → nr_public_key n ∉ keys_so_far b) →
  ∃ b', build_all db t b ns = Ret b' ∧
    node_records (build b') =
    node_records (build b) ++ map (fun n => gnr_of_agr (shown db t n)) ns.
Proof.
  intros Hi. destruct (inv_root _ Hi) as (r & Hr & Hrk & _).
  revert b. induction ns as [|n ns IH]; intros b Hb Hns Hnd Hnew; simpl.
  - exists b. by rewrite app_nil_r.
  - apply Forall_cons in Hns as [Hn Hns]. simpl in Hnd. apply NoDup_cons in Hnd as [Hfresh Hnd].
    assert (reveals db t n = Ret (accepts_connections (inner n) &&
      (bool_decide (nr_public_key n = this_node db) || has_half_neighbor t (nr_public_key n))))
      as ->.
    { unfold reveals. destruct (accepts_connections _); [|done]. by rewrite Hr, <- Hrk. }
    cbn [exec_bind]. rewrite (builder_node_Ret db b _ n) by (try done; set_solver). cbn [exec_bind].
    destruct (IH (mkBuilder db (mkGossip (node_records (gb_gossip b) ++
      [mkGnr (signed_gossip n) (signature n)
         (if accepts_connections (inner n) &&
             (bool_decide (nr_public_key n = this_node db) || has_half_neighbor t (nr_public_key n))
             && accepts_connections (inner n)
          then clone_addr <$> nr_addr n else None)]))
       ({[nr_public_key n]} ∪ keys_so_far b))) as (b' & Hb' & Hrec); try done.
    { intros m Hm. simpl. assert (nr_public_key m ≠ nr_public_key n).
      { intros Heq. apply Hfresh. rewrite <- Heq. apply list_elem_of_fmap. by exists m. }
      specialize (Hnew m). set_solver. }
    exists b'. split; [done|]. rewrite Hrec. unfold build. simpl. rewrite <- app_assoc. simpl.
    do 2 f_equal. unfold gnr_of_agr, shown. simpl.
    by destruct (accepts_connections (inner n)), (_ || _).
Qed.

Lemma shown_admitted v db t ns :
  Forall (record_signed v) ns →
  Forall2 (fun r a => agr_of_gnr r = Ok a) (map (fun n => gnr_of_agr (shown db t n)) ns)
    (map (shown db t) ns) ∧ Forall (agr_signed v) (map (shown db t) ns).
Proof.
  induction 1 as [|n ns [Hd Hv] _ [IH1 IH2]]; [by split|]. simpl. split; constructor; try done.
  by apply agr_of_gnr_Ok.
Qed.

Section Producing.
Context `{H : HashOrder}.

(** The records a message to [target] is made of. *)
Definition gossip_nodes (db : NeighborhoodDatabase) (target : PublicKey) (ks : gset PublicKey)
    : list NodeRecord :=
  omap (node_by_key db)
    (filter (fun k => k ∈ ks) (filter (fun k => k ≠ target) (hash_iter (keys db)))).

Lemma elem_of_gossip_nodes db target ks n :
  db_inv db →
  n ∈ gossip_nodes db target ks ↔
  by_public_key db !! nr_public_key n = Some n ∧ nr_public_key n ≠ target ∧ nr_public_key n ∈ ks.
Proof.
  intros Hi. unfold gossip_nodes, node_by_key. rewrite list_elem_of_omap. split.
  - intros (k & Hk & Hn). rewrite !list_elem_of_filter, elem_of_hash_iter in Hk.
    rewrite (di_keys _ Hi _ _ Hn). naive_solver.
  - intros (Hn & Hne & Hks). exists (nr_public_key n). split; [|done].
    rewrite !list_elem_of_filter, elem_of_hash_iter. split; [done|]. split; [done|].
    by apply elem_of_dom_2 in Hn.
Qed.

Lemma gossip_nodes_NoDup db target ks :
  db_inv db → NoDup (map nr_public_key (gossip_nodes db target ks)).
Proof.
  intros Hi. unfold gossip_nodes. set (l := filter _ _).
  assert (NoDup l) as Hnd.
  { subst l. apply NoDup_filter, NoDup_filter. rewrite hash_iter_perm. apply NoDup_elements. }
  clearbody l. induction l as [|k l IH]; csimpl; [constructor|].
  apply NoDup_cons in Hnd as [Hk Hnd].
  assert (∀ j, j ∈ map nr_public_key (omap (node_by_key db) l) → j ∈ l) as Hsub'.
  { intros j Hj. apply list_elem_of_fmap in Hj as (n & -> & Hn).
    apply list_elem_of_omap in Hn as (j & Hj & Hn). by rewrite (di_keys _ Hi _ _ Hn). }
  destruct (node_by_key db k) as [n|] eqn:Hn; csimpl; [|by apply IH].
  constructor; [|by apply IH]. rewrite (di_keys _ Hi _ _ Hn). by intros ?%Hsub'.
Qed.

(** Whoever is spoken of: the root and every half neighbor of anyone. *)
Lemma referenced_iff db :
  db_inv db → ∃ ks, referenced_node_keys db = Ret ks ∧
    ∀ k, k ∈ ks ↔ k = this_node db ∨ ∃ k', db_has_half_neighbor db k' k = true.
Proof.
  intros Hi. destruct (inv_root _ Hi) as (r & Hr & Hpk & _).
  destruct (referenced_node_keys db) as [ks|] eqn:Href.
  2: { unfold referenced_node_keys in Href. by rewrite Hr in Href. }
  exists ks. split; [done|]. destruct (referenced_Ret _ _ Hi Href) as [Hself Hrefs].
  intros k. split; [|naive_solver]. unfold referenced_node_keys in Href. rewrite Hr in Href.
  cbn [exec_bind] in Href. injection Href as <-. rewrite elem_of_union, elem_of_singleton.
  intros [->|Hk]; [by left|]. right. apply elem_of_union_list in Hk as (s & Hs & Hk).
  apply list_elem_of_fmap in Hs as ([k' n] & -> & Hn). apply elem_of_map_to_list in Hn.
  exists k'. unfold db_has_half_neighbor, node_by_key. rewrite Hn.
  by apply bool_decide_eq_true.
Qed.

(** The check for dead nodes that may come first. *)
Lemma culled_first last db now :
  db_inv db → in_u 32 now → in_u 32 (now - last) →
  (DEAD_NODE_CHECK_INTERVAL_SECS ≤ now - last → ISOLATED_NODE_GRACE_PERIOD_SECS ≤ now) →
  ∃ last' db', (if DEAD_NODE_CHECK_INTERVAL_SECS <=? now - last
     then let* db := cull_dead_nodes db now in Ret (now, db) else Ret (last, db)) = Ret (last', db') ∧
    db_inv db' ∧ this_node db' = this_node db ∧ by_public_key db' ⊆ by_public_key db.
Proof.
  intros Hi Hn Hu Hgrace. destruct (_ <=? _) eqn:Hle; guards; [|by eexists _, _].
  destruct (cull_dead_nodes_spec db now Hi) as (db' & ks & -> & _ & Hi' & Ht & Hrec).
  { specialize (Hgrace Hle). unfold in_u, ISOLATED_NODE_GRACE_PERIOD_SECS in *. lia. }
  eexists _, _. split; [reflexivity|]. split; [done|]. split; [done|].
  apply map_subseteq_spec. intros k n Hkn. by apply Hrec in Hkn as [? _].
Qed.

(** The records of [produce]'s message, when there is one. *)
Lemma produce_spec v last db target now :
  db_inv db → db_signed v db → in_u 32 now → in_u 32 (now - last) →
  (DEAD_NODE_CHECK_INTERVAL_SECS ≤ now - last → ISOLATED_NODE_GRACE_PERIOD_SECS ≤ now) →
  ∃ g last' db', produce last db target now = Ret (g, last', db') ∧
    db_inv db' ∧ this_node db' = this_node db ∧ by_public_key db' ⊆ by_public_key db ∧
    match g with
    | None => target ∉ keys db'
    | Some g => ∃ t ks, by_public_key db' !! target = Some t ∧
        (∀ k, k ∈ ks ↔ k = this_node db' ∨ ∃ k', db_has_half_neighbor db' k' k = true) ∧
        admitted_agrs v g = Ret (Some (map (shown db' t) (gossip_nodes db' target ks)))
    end.
Proof.
  intros Hi Hs Hn Hu Hgrace. unfold produce, checked_sub. rewrite decide_True by done.
  cbn [exec_bind expect].
  destruct (culled_first last db now Hi Hn Hu Hgrace) as (last' & db' & -> & Hi' & Ht & Hsub).
  cbn [exec_bind]. unfold node_by_key at 1. destruct (by_public_key db' !! target) as [t|] eqn:Htg.
  2: { eexists _, _, _. split; [reflexivity|]. do 3 (split; [done|]).
       unfold keys. by apply not_elem_of_dom. }
  destruct (referenced_iff db' Hi') as (ks & -> & Hks). cbn [exec_bind].
  fold (gossip_nodes db' target ks).
  assert (∀ n, n ∈ gossip_nodes db' target ks → by_public_key db' !! nr_public_key n = Some n)
    as Hin by (intros n [? _]%elem_of_gossip_nodes; done).
  destruct (build_all_Ret db' t (builder_new db') (gossip_nodes db' target ks))
    as (b & -> & Hb); try done.
  { by apply Forall_forall. }
  { by apply gossip_nodes_NoDup. }
  cbn [exec_bind]. eexists _, _, _. split; [reflexivity|]. repeat (split; [done|]).
  exists t, ks. repeat (split; [done|]). apply admitted_spec. rewrite Hb. simpl.
  apply shown_admitted. apply Forall_forall. intros n Hn'%Hin.
  apply (Hs (nr_public_key n)). by eapply map_subseteq_spec.
Qed.
End Producing.
End Read.

(** ** The properties *)

Section Properties.
Context `{I : InnerCbor} `{H : HashOrder}.

(** [C33] Producing gossip for a target never panics on a database in its
    invariant whose records are signed (and a clock that does not run
    backwards); when the target is known, the receiver admits every record of
    the message, each record is exactly what the database holds of that node,
    every node spoken of other than the target appears once, and an address is
    revealed only for a node that accepts connections and is either the sender
    or already a half neighbor of the target. *)
Theorem gossip_faithful_and_discreet v last db target now :
  db_inv db → db_signed v db → in_u 32 now → in_u 32 (now - last) →
  (DEAD_NODE_CHECK_INTERVAL_SECS ≤ now - last → ISOLATED_NODE_GRACE_PERIOD_SECS ≤ now) →
  ∃ g last' db', produce last db target now = Ret (g, last', db') ∧
    db_inv db' ∧ by_public_key db' ⊆ by_public_key db ∧
    match g with
    | None => target ∉ keys db'
    | Some g => ∃ t agrs, by_public_key db' !! target = Some t ∧
        admitted_agrs v g = Ret (Some agrs) ∧
        NoDup (map (fun a => nri_public_key (agr_inner a)) agrs) ∧
        (∀ k, k ∈ map (fun a => nri_public_key (agr_inner a)) agrs ↔
              k ∈ keys db' ∧ k ≠ target ∧
              (k = this_node db ∨ ∃ k', db_has_half_neighbor db' k' k = true)) ∧
        Forall (fun a => ∃ n,
          by_public_key db' !! nri_public_key (agr_inner a) = Some n ∧
          agr_inner a = inner n ∧ agr_signed_gossip a = signed_gossip n ∧
          agr_signature a = signature n ∧
          agr_node_addr_opt a =
            if accepts_connections (inner n) &&
               (bool_decide (nr_public_key n = this_node db) || has_half_neighbor t (nr_public_key n))
            then clone_addr <$> nr_addr n else None) agrs
    end.
Proof.
  intros Hi Hs Hn Hu Hg.
  destruct (produce_spec v last db target now Hi Hs Hn Hu Hg)
    as (g & last' & db' & Hp & Hi' & Ht & Hsub & Hres).
  exists g, last', db'. split; [done|]. split; [done|]. split; [done|].
  destruct g as [g|]; [|done]. destruct Hres as (t & ks & Htg & Hks & Hadm).
  eexists t, _. split; [done|]. split; [exact Hadm|].
  rewrite map_map. simpl. fold nr_public_key. split; [by apply gossip_nodes_NoDup|]. split.
  - intros k. rewrite list_elem_of_fmap. setoid_rewrite elem_of_gossip_nodes; [|done].
    rewrite <- Ht. unfold keys. split.
    + intros (n & -> & Hk & Hne & Hin%Hks). apply elem_of_dom_2 in Hk as ?. done.
    + intros ([n Hk]%elem_of_dom & Hne & Href). exists n.
      rewrite (di_keys _ Hi' _ _ Hk). split; [done|]. split; [done|]. split; [done|]. by apply Hks.
  - rewrite <- Ht. apply Forall_forall. intros a Ha. apply list_elem_of_fmap in Ha as (n & -> & Ha).
    apply elem_of_gossip_nodes in Ha as [Hk _]; [|done]. by exists n.
Qed.
End Properties.

(** ** A small network

    Nodes 1, 2 and 3 in a row, under the transparent [CryptDE], for concrete
    runs. *)
Module Sample.
Definition inner_of (k v : Z) (accepts routes : bool) (ns : list Z) : NodeRecordInner_0v1 :=
  mkInner [k] (WAddress (repeat k 20)) (mkRatePack 1 2 3 4) (list_to_set (map (fun n => [n]) ns))
    accepts routes v None 0 None.

(** A serializer: every list behind its length. *)
Definition put (l : list Z) : list Z := Z.of_nat (length l) :: l.
Definition get (bs : list Z) : option (list Z * list Z) :=
  match bs with
  | n :: bs => Some (take (Z.to_nat n) bs, drop (Z.to_nat n) bs)
  | [] => None
  end.
Lemma get_put l bs : get (put l ++ bs) = Some (l, bs).
Proof. unfold get, put. simpl. rewrite Nat2Z.id. by rewrite take_app_length, drop_app_length. Qed.

Fixpoint get_all (n : nat) (bs : list Z) : option (list (list Z) * list Z) :=
  match n with
  | O => Some ([], bs)
  | S n => '(l, bs) ← get bs; '(ls, bs) ← get_all n bs; Some (l :: ls, bs)
  end.
Lemma get_all_put ls bs : get_all (length ls) (concat (map put ls) ++ bs) = Some (ls, bs).
Proof.
  induction ls as [|l ls IH]; [done|]. cbn [map concat length get_all].
  rewrite <- app_assoc, get_put. cbn [mbind option_bind]. by rewrite IH.
Qed.

Definition put_bool (b : bool) : Z := if b then 1 else 0.
Definition put_opt (o : option (list Z)) : list Z :=
  match o with None => put [] | Some l => put (1 :: l) end.
Definition get_opt (l : list Z) : option (list Z) := match l with [] => None | _ :: l => Some l end.
Definition string_codes (s : string) : list Z := map Z.of_N (map Ascii.N_of_ascii (String.list_ascii_of_string s)).
Definition codes_string (l : list Z) : string :=
  String.string_of_list_ascii (map Ascii.ascii_of_N (map Z.to_N l)).
Lemma codes_string_codes s : codes_string (string_codes s) = s.
Proof.
  unfold codes_string, string_codes. induction s as [|c s IH]; [done|]. simpl in *.
  rewrite N2Z.id, Ascii.ascii_N_embedding. by f_equal.
Qed.
Definition put_wallet (w : WalletKind) : list Z :=
  match w with
  | WAddress a => 0 :: a
  | WSecretKey a => 1 :: a
  | WPublicKey a => 2 :: a
  | WUninitialized => []
  end.
Definition get_wallet (l : list Z) : WalletKind :=
  match l with
  | [] => WUninitialized
  | t :: a => if t =? 0 then WAddress a else if t =? 1 then WSecretKey a else WPublicKey a
  end.

Definition enc (i : NodeRecordInner_0v1) : list Z :=
  put (nri_public_key i) ++ put (put_wallet (earning_wallet i)) ++
  put_opt (string_codes <$> country_code_opt i) ++ put_opt (receipt_settlement_contract_opt i) ++
  [routing_byte_rate (rate_pack i); routing_service_rate (rate_pack i);
   exit_byte_rate (rate_pack i); exit_service_rate (rate_pack i);
   put_bool (accepts_connections i); put_bool (routes_data i); version i; protocol_capabilities i;
   Z.of_nat (length (elements (neighbors i)))] ++
  concat (map put (elements (neighbors i))) ++ [].
Definition dec (bs : list Z) : result NodeRecordInner_0v1 string :=
  ok_or ('(k, bs) ← get bs; '(w, bs) ← get bs; '(cc, bs) ← get bs; '(rs, bs) ← get bs;
    match bs with
    | a :: b :: c :: d :: ac :: rd :: v :: pc :: n :: bs =>
        '(ns, _) ← get_all (Z.to_nat n) bs;
        Some (mkInner k (get_wallet w) (mkRatePack a b c d) (list_to_set ns) (ac =? 1) (rd =? 1) v
                (codes_string <$> get_opt cc) pc (get_opt rs))
    | _ => None
    end) "bad"%string.
Lemma dec_enc i : dec (enc i) = Ok i.
Proof.
  unfold dec, enc, put_opt.
  rewrite get_put. cbn [mbind option_bind]. rewrite get_put. cbn [mbind option_bind].
  assert (∀ o, match o with None => put [] | Some l => put (1 :: l) end =
               put (match o with None => [] | Some l => 1 :: l end)) as Hopt by (by intros []).
  rewrite !Hopt, get_put. cbn [mbind option_bind]. rewrite get_put. cbn [mbind option_bind].
  simpl. rewrite Nat2Z.id, get_all_put. simpl.
  destruct i as [k w r ns ac rd v cc pc rs]. simpl. f_equal. f_equal.
  - by destruct w.
  - by destruct r.
  - apply list_to_set_elements_L.
  - by destruct ac.
  - by destruct rd.
  - destruct cc as [s|]; [|done]. simpl. by rewrite codes_string_codes.
  - by destruct rs.
Qed.
Global Instance cbor : InnerCbor := {| cbor_inner := fun i => Ok (enc i); uncbor_inner := dec |}.
Global Instance cbor_laws : InnerCborLaws cbor.
Proof. split. intros i bs [= <-]. apply dec_enc. Qed.
Global Instance order : HashOrder := {| hash_iter := elements; hash_iter_perm := fun s => reflexivity _ |}.

Definition owner (k : Z) : Null.CryptDENull :=
  Null.set_key_pair (fun x => x) (Null.mkNull [] [] [] 0) [k] [].
Definition cryptde (k : Z) : CryptDE := Null.null_cryptde (B := sample_base64) (fun _ => [7]) (owner k).
Lemma cryptde_signs k : is_byte k → Signs (cryptde k) (cryptde k).
Proof.
  intros Hk. apply Null.null_Signs; [|done]. apply Null.set_key_pair_ok; [done|].
  constructor; [done|constructor].
Qed.

Definition addr (k : Z) : NodeAddr := mkNodeAddr (IpV4 k) [80].
Definition record (k v : Z) (accepts routes : bool) (ns : list Z) (a : option NodeAddr) : NodeRecord :=
  let i := inner_of k v accepts routes ns in
  mkRecord i (mkMetadata 1000 a ∅ None 0 None) (enc i) [k; 7].

Definition node1 : NodeRecord := record 1 5 true true [2] (Some (addr 1)).
Definition node2 : NodeRecord := record 2 5 true true [1; 3] (Some (addr 2)).
Definition node3 : NodeRecord := record 3 5 true true [2] (Some (addr 3)).

(** The database of node 1. *)
Definition db : NeighborhoodDatabase :=
  mkDb [1] (list_to_map [([1], node1); ([2], node2); ([3], node3)])
    (list_to_map [(IpV4 1, [1]); (IpV4 2, [2]); (IpV4 3, [3])]).

Lemma db_ok : db_inv db.
Proof.
  split.
  - exists node1. split; [by vm_compute|]. refine (bool_decide_unpack _ _). by vm_compute.
  - refine (bool_decide_unpack _ _). by vm_compute.
  - intros ip k Hk. unfold db in Hk. simpl in Hk.
    rewrite !lookup_insert_Some, lookup_empty in Hk.
    destruct Hk as [[<- <-]|[_ [[<- <-]|[_ [[<- <-]|[_ ?]]]]]]; [| | |done]; by eexists.
Qed.

Lemma db_all_signed : db_signed (cryptde 1) db.
Proof.
  unfold db_signed, db. simpl. repeat apply map_Forall_insert_2; [| | |apply map_Forall_empty];
    (split; [apply dec_enc|by vm_compute]).
Qed.
End Sample.

(** Node 1 tells node 2 about itself and node 3, whose address node 2 knows. *)
Lemma gossip_faithful_and_discreet_witness :
  ∃ g last' db', produce 1000 Sample.db [2] 1010 = Ret (Some g, last', db') ∧
    length (node_records g) = 2%nat.
Proof.
  destruct (gossip_faithful_and_discreet (Sample.cryptde 1) 1000 Sample.db [2] 1010
    Sample.db_ok Sample.db_all_signed) as (g & last' & db' & Hp & _ & _ & Hg); try done.
  exists (mkGossip (node_records (default (mkGossip []) g))), last', db'.
  assert (∃ g0 x y, produce 1000 Sample.db [2] 1010 = Ret (Some g0, x, y) ∧
    length (node_records g0) = 2%nat) as (g0 & x & y & Hrun & Hlen)
    by (eexists _, _, _; split; [vm_compute; reflexivity|done]).
  rewrite Hrun in Hp. injection Hp as <- <- <-. simpl. split; [|done]. by destruct g0.
Defined.
