(* ===== verification/GossipAcceptor.v ===== *)
(** * GossipAcceptor: what a node does with gossip it receives

    [neighborhood/gossip_acceptor.rs] with [neighborhood/malefactor.rs]: a
    chain of handlers (Debut, Pass, Introduction, Standard Gossip, Reject), the
    first of which that does not decline a message takes it, changes the
    database and says what to do next.  The trait object [GossipHandler] is a
    record of its two methods.

    A sort by degree of a set with an unspecified order is a stable sort of
    [hash_iter], whose order is arbitrary.  Messages to the neighborhood's own
    mailbox ([cpm_recipient]) are a list of what was queued.  A formatted
    reason is a constructor with what the text interpolates; the time stamp of
    a malefactor is left out.  [now] is the time in seconds, [system_now] in
    nanoseconds. *)

From stdpp Require Import base list numbers option strings gmap sorting fin_maps.
From Stdlib Require Import ZArith Lia.
From S2P Require Import Prelude Text CountrySerde CountryFinder CryptDE Wallet NodeRecord.
From S2P Require Import NeighborhoodDb ExitPreferences Gossip.

Local Open Scope Z_scope.
Local Open Scope rust_scope.
Local Open Scope list_scope.

Definition MAX_DEGREE : nat := 5.
Definition PASS_GOSSIP_EXPIRED_TIME : Z := 60 * 1000000000.

(** ** Outcomes *)

Inductive Reason :=
| Literal (s : string)
| WrongRecordCount (kind : string) (expected actual : nat)
| RatePackLimitViolation (description : string) (e : list RateViolation)
| ImmutableChanged (introducer : PublicKey) (e : UpdateError)
| ResidesAtOurAddress (impostor : PublicKey)
| MultipleRecordsClaim (ip : IpAddr)
| ClaimsOurKey (k : PublicKey) (ip_opt : option IpAddr)
| RevealedUnknownAddress (source : PublicKey) (ip : IpAddr) (victim : PublicKey)
| Unclassifiable (records : nat).

Record Malefactor := mkMalefactor {
  mal_public_key_opt : option PublicKey;
  mal_ip_address_opt : option IpAddr;
  mal_earning_wallet_opt : option WalletKind;
  mal_consuming_wallet_opt : option WalletKind;
  mal_reason : Reason;
}.

Definition malefactor_new (public_key_opt : option PublicKey) (ip_address_opt : option IpAddr)
    (earning_wallet_opt consuming_wallet_opt : option WalletKind) (reason : Reason)
    : exec Malefactor :=
  match public_key_opt, ip_address_opt, earning_wallet_opt, consuming_wallet_opt with
  | None, None, None, None => Panic
  | _, _, _, _ => Ret (mkMalefactor public_key_opt ip_address_opt earning_wallet_opt
                         consuming_wallet_opt reason)
  end.

Inductive GossipFailure_0v1 := NoNeighbors | NoSuitableNeighbors | ManualRejection | UnknownFailure.

Inductive GossipAcceptanceResult :=
| Accepted
| Reply (g : Gossip_0v1) (k : PublicKey) (a : NodeAddr)
| Failed (f : GossipFailure_0v1) (k : PublicKey) (a : NodeAddr)
| Ban (m : Malefactor).

Inductive Qualification := Matched | Unmatched (r : Reason) | Malformed (m : Malefactor).

Inductive ConnectionProgressEvent :=
| TcpConnectionSuccessful
| TcpConnectionFailed
| NoGossipResponseReceived
| PassLoopFound
| StandardGossipReceived
| IntroductionGossipReceived (ip : IpAddr)
| PassGossipReceived (ip : IpAddr).

Record ConnectionProgressMessage := mkCpm { peer_addr : IpAddr; event : ConnectionProgressEvent }.

Record NeighborhoodMetadata := mkNMetadata {
  connection_progress_peers : list IpAddr;
  db_patch_size : Z;
  user_exit_preferences_opt : option UserExitPreferences;
}.

(** What a handler changes: the database, the pass targets it has seen, the
    mailbox. *)
Record AcceptorState := mkState {
  st_db : NeighborhoodDatabase;
  previous_pass_targets : gmap IpAddr Z;
  cpms : list ConnectionProgressMessage;
}.
Definition with_db (st : AcceptorState) (db : NeighborhoodDatabase) : AcceptorState :=
  mkState db (previous_pass_targets st) (cpms st).
Definition try_send_connection_progress (st : AcceptorState) (m : ConnectionProgressMessage)
    : AcceptorState := mkState (st_db st) (previous_pass_targets st) (cpms st ++ [m]).

Abbreviation agr_key a := (nri_public_key (agr_inner a)).
Abbreviation agr_wallet a := (earning_wallet (agr_inner a)).
Definition agr_ip (a : AccessibleGossipRecord) : option IpAddr := na_ip_addr <$> agr_node_addr_opt a.

(** ** Helpers over code that may panic *)

Fixpoint exec_filter {A} (p : A → exec bool) (l : list A) : exec (list A) :=
  match l with
  | [] => Ret []
  | a :: l => let* b := p a in let* l' := exec_filter p l in Ret (if b then a :: l' else l')
  end.

Fixpoint exec_skip_while {A} (p : A → exec bool) (l : list A) : exec (list A) :=
  match l with
  | [] => Ret []
  | a :: l' => let* b := p a in if b then exec_skip_while p l' else Ret l
  end.

Fixpoint exec_find {A} (p : A → exec bool) (l : list A) : exec (option A) :=
  match l with
  | [] => Ret None
  | a :: l => let* b := p a in if b then Ret (Some a) else exec_find p l
  end.

(** The order of [sort_unstable_by] on degrees. *)
Definition degree_le (a b : nat * PublicKey) : Prop := (a.1 ≤ b.1)%nat.
Global Instance degree_le_dec : RelDecision degree_le.
Proof. intros a b. unfold degree_le. apply _. Defined.

Section Acceptor.
Context `{I : InnerCbor} `{H : HashOrder} (finder : CountryCodeFinder) (cryptde : CryptDE).
Context (rate_pack_limits : RatePackLimits) (md : NeighborhoodMetadata) (now system_now : Z).

(** [GossipAcceptorReal::validate_incoming_agr] *)
Definition validate_incoming_agr (a : AccessibleGossipRecord) (description : string)
    : result unit Reason :=
  if routes_data (agr_inner a) then
    match analyze rate_pack_limits (rate_pack (agr_inner a)) with
    | Ok _ => Ok ()
    | Err e => Err (RatePackLimitViolation description e)
    end
  else Ok ().

Definition make_debut (db : NeighborhoodDatabase) : exec Gossip_0v1 :=
  let* r := root db in
  let* b := builder_node (builder_new db) (nr_public_key r) true in
  Ret (build b).

(** [GossipAcceptorReal::make_debut_triple] *)
Definition make_debut_triple (db : NeighborhoodDatabase) (debut_target : AccessibleGossipRecord)
    : fallible (Gossip_0v1 * PublicKey * NodeAddr) string :=
  match agr_node_addr_opt debut_target with
  | None => Ret (Err "no IP address supplied"%string)
  | Some a =>
      match na_ports a with
      | [] => Ret (Err "no ports were specified"%string)
      | _ => let* g := make_debut db in Ret (Ok (g, agr_key debut_target, clone_addr a))
      end
  end.

(** [NodeRecord::from(agr)], then the preferences of the user. *)
Definition new_record (a : AccessibleGossipRecord) : exec NodeRecord :=
  let* n := record_of_agr finder a now in
  match user_exit_preferences_opt md with
  | Some p => assign_nodes_country_undesirability p n
  | None => Ret n
  end.

(** [increment_version] and [regenerate_signed_gossip] on the root *)
Definition renew_root (db : NeighborhoodDatabase) : exec NeighborhoodDatabase :=
  map_root db (fun r => let* r := increment_version r in regenerate_signed_gossip r cryptde).

(** ** Debut *)

Definition node_and_neighbor_keys (a : AccessibleGossipRecord) : gset PublicKey :=
  {[agr_key a]} ∪ neighbors (agr_inner a).

Definition keys_ordered_by_degree_excluding (db : NeighborhoodDatabase)
    (ks excluding : gset PublicKey) : exec (list PublicKey) :=
  let neighbor_keys := filter (fun k => k ∉ excluding) (hash_iter ks) in
  let* degrees := exec_mapM (fun k => let* d := gossip_target_degree db k in Ret (d, k))
                    neighbor_keys in
  Ret (map snd (merge_sort degree_le degrees)).

Definition find_least_connected_neighbor_excluding (db : NeighborhoodDatabase)
    (ks : gset PublicKey) (excluded : AccessibleGossipRecord) : exec (option PublicKey) :=
  let* ordered := keys_ordered_by_degree_excluding db ks (node_and_neighbor_keys excluded) in
  Ret (head ordered).

Definition find_least_connected_half_neighbor_excluding (db : NeighborhoodDatabase)
    (excluded : AccessibleGossipRecord) : exec (option PublicKey) :=
  let* r := root db in
  find_least_connected_neighbor_excluding db (half_neighbor_keys r) excluded.

Definition accepts_and_routes (db : NeighborhoodDatabase) (k : PublicKey) : exec bool :=
  let* n := expect (node_by_key db k) in
  Ret (accepts_connections (inner n) && routes_data (inner n)).

Definition find_least_connected_full_neighbor_excluding (db : NeighborhoodDatabase)
    (excluded : AccessibleGossipRecord) : exec (option PublicKey) :=
  let* r := root db in
  let* candidates := exec_filter (accepts_and_routes db) (hash_iter (full_neighbor_keys r db)) in
  find_least_connected_neighbor_excluding db (list_to_set candidates) excluded.

Definition root_full_neighbors_ordered_by_degree_excluding (db : NeighborhoodDatabase)
    (excluded : AccessibleGossipRecord) : exec (list PublicKey) :=
  let* r := root db in
  keys_ordered_by_degree_excluding db (full_neighbor_keys r db) (node_and_neighbor_keys excluded).

Definition find_more_appropriate_neighbor (db : NeighborhoodDatabase)
    (excluded : AccessibleGossipRecord) : exec (option PublicKey) :=
  let* neighbor_vec := root_full_neighbors_ordered_by_degree_excluding db excluded in
  let* candidates := exec_filter (accepts_and_routes db) neighbor_vec in
  let* qualified_neighbors :=
    exec_skip_while (fun k => let* d := gossip_target_degree db k in Ret (d <=? 2)%nat) candidates in
  match head qualified_neighbors with
  | None => Ret None
  | Some key =>
      let* d := gossip_target_degree db key in
      let* r := root db in
      let* mine := gossip_target_degree db (nr_public_key r) in
      Ret (if (mine <=? d)%nat then None else Some key)
  end.

Definition make_pass_gossip (db : NeighborhoodDatabase) (pass_target : PublicKey)
    : exec Gossip_0v1 :=
  let* b := builder_node (builder_new db) pass_target true in
  Ret (build b).

Definition counts_us_among_neighbors (a : AccessibleGossipRecord) (db : NeighborhoodDatabase)
    : exec bool :=
  let* r := root db in
  Ret (bool_decide (nr_public_key r ∈ neighbors (agr_inner a))).

Definition should_not_make_another_introduction (db : NeighborhoodDatabase)
    (a : AccessibleGossipRecord) : bool :=
  let routing_neighbors := filter (fun pk =>
    match node_by_key db pk with Some n => routes_data (inner n) | None => false end = true)
    (btree_iter (neighbors (agr_inner a))) in
  (0 <? length routing_neighbors)%nat.

(** A debut of the root that names the debutant as its only neighbor. *)
Definition create_second_node_gossip_response (db : NeighborhoodDatabase)
    (debut_node_key : PublicKey) : exec Gossip_0v1 :=
  let* r := root db in
  let root_node := clear_half_neighbors (clone_record r) in
  let* root_node := expect_ok (add_half_neighbor_key root_node debut_node_key) in
  let* gnr := gnr_of_inner (inner root_node) (clone_addr <$> nr_addr root_node) cryptde in
  Ret (mkGossip [gnr]).

Definition try_to_make_introduction (db : NeighborhoodDatabase) (a : AccessibleGossipRecord)
    (gossip_source : SocketAddr) : exec (option (Gossip_0v1 * PublicKey * NodeAddr)) :=
  let* lcn_opt := find_least_connected_full_neighbor_excluding db a in
  match lcn_opt with
  | Some lcn_key =>
      let debut_node_addr :=
        match agr_node_addr_opt a with
        | Some x => clone_addr x
        | None => node_addr_of_socket gossip_source
        end in
      let* r := root db in
      let* b := builder_node (builder_new db) (nr_public_key r) true in
      let* b := builder_node b lcn_key true in
      Ret (Some (build b, agr_key a, debut_node_addr))
  | None => Ret None
  end.

(** What is said to a debutant that was added to the database. *)
Definition answer_debut (db : NeighborhoodDatabase) (a : AccessibleGossipRecord)
    (gossip_source : SocketAddr) : exec GossipAcceptanceResult :=
  if should_not_make_another_introduction db a then
    let* known := counts_us_among_neighbors a db in
    if known then Ret Accepted
    else
      let* triple := make_debut_triple db a in
      match triple with
      | Ok (redebut_gossip, k, addr) => Ret (Reply redebut_gossip k addr)
      | Err _ => Ret Accepted
      end
  else
    let* introduction := try_to_make_introduction db a gossip_source in
    match introduction with
    | Some (g, target_key, target_node_addr) => Ret (Reply g target_key target_node_addr)
    | None =>
        let* known := counts_us_among_neighbors a db in
        if known then Ret Accepted
        else
          let* debut_gossip := create_second_node_gossip_response db (agr_key a) in
          let* addr := expect (agr_node_addr_opt a) in
          Ret (Reply debut_gossip (agr_key a) (clone_addr addr))
    end.

(** [DebutHandler::try_accept_debut]; [None] is the error, without a change. *)
Definition try_accept_debut (db : NeighborhoodDatabase) (a : AccessibleGossipRecord)
    (gossip_source : SocketAddr) : exec (option (GossipAcceptanceResult * NeighborhoodDatabase)) :=
  let* r := root db in
  let* degree := gossip_target_degree db (nr_public_key r) in
  if (MAX_DEGREE <=? degree)%nat then Ret None
  else
    let* debuting_node := new_record (clone_agr a) in
    let* (debut_node_key, db) := expect_ok (add_node db debuting_node) in
    match add_half_neighbor db debut_node_key now with
    | Ok (true, db) =>
        let* db := renew_root db in
        let* res := answer_debut db a gossip_source in
        Ret (Some (res, db))
    | _ => Panic
    end.

Definition debut_qualifies (db : NeighborhoodDatabase) (agrs : list AccessibleGossipRecord)
    (gossip_source : SocketAddr) : exec Qualification :=
  match agrs with
  | [a] =>
      if bool_decide (is_Some (node_by_key db (agr_key a)))
      then Ret (Unmatched (Literal "Node record already in database"))
      else
        let malformed msg :=
          let* m := malefactor_new (Some (agr_key a)) (Some (sock_ip gossip_source))
                      (Some (agr_wallet a)) None (Literal msg) in
          Ret (Malformed m) in
        match agr_node_addr_opt a with
        | None =>
            if accepts_connections (agr_inner a) then malformed "Debut contained no NodeAddr"%string
            else Ret Matched
        | Some node_addr =>
            if accepts_connections (agr_inner a) then
              match na_ports node_addr with
              | [] => malformed "Debut contained NodeAddr with no ports"%string
              | _ =>
                  if bool_decide (na_ip_addr node_addr = sock_ip gossip_source) then Ret Matched
                  else Ret (Unmatched (Literal "Node record is not Gossip source"))
              end
            else malformed "Debut does not accept connections, yet contained NodeAddr"%string
        end
  | _ => Ret (Unmatched (WrongRecordCount "Debut" 1 (length agrs)))
  end.

Definition debut_handle (st : AcceptorState) (agrs : list AccessibleGossipRecord)
    (gossip_source : SocketAddr) : exec (list GossipAcceptanceResult * AcceptorState) :=
  let db := st_db st in
  let* agr := expect (head agrs) in
  let source_agr :=
    match agr_node_addr_opt agr with
    | None => mkAgr (agr_signed_gossip agr) (agr_signature agr)
                (Some (node_addr_of_socket gossip_source)) (agr_inner agr)
    | Some _ => agr
    end in
  match validate_incoming_agr source_agr "Debut" with
  | Err message =>
      let* a := expect (agr_node_addr_opt source_agr) in
      let* m := malefactor_new (Some (agr_key source_agr)) (Some (na_ip_addr a))
                  (Some (agr_wallet source_agr)) None message in
      Ret ([Ban m], st)
  | Ok _ =>
      let source_key := agr_key source_agr in
      let* a := expect (agr_node_addr_opt source_agr) in
      let source_node_addr := clone_addr a in
      let* preferred := find_more_appropriate_neighbor db source_agr in
      match preferred with
      | Some preferred_key =>
          let* g := make_pass_gossip db preferred_key in
          Ret ([Reply g source_key source_node_addr], st)
      | None =>
          let* accepted := try_accept_debut db source_agr gossip_source in
          match accepted with
          | Some (res, db') => Ret ([res], with_db st db')
          | None =>
              let* lcn := find_least_connected_half_neighbor_excluding db source_agr in
              match lcn with
              | None =>
                  let* a := expect (agr_node_addr_opt source_agr) in
                  Ret ([Failed NoSuitableNeighbors source_key (clone_addr a)], st)
              | Some lcn_key =>
                  let* g := make_pass_gossip db lcn_key in
                  Ret ([Reply g source_key source_node_addr], st)
              end
          end
      end
  end.

(** ** Pass *)

Definition pass_qualifies (db : NeighborhoodDatabase) (agrs : list AccessibleGossipRecord)
    (gossip_source : SocketAddr) : exec Qualification :=
  match agrs with
  | [a] =>
      match agr_node_addr_opt a with
      | None => Ret (Unmatched (Literal "Pass Node record always has a NodeAddr"))
      | Some node_addr =>
          match na_ports node_addr with
          | [] =>
              let* m := malefactor_new (Some (agr_key a)) (Some (sock_ip gossip_source))
                          (Some (agr_wallet a)) None
                          (Literal "Pass contained NodeAddr with no ports") in
              Ret (Malformed m)
          | _ =>
              if bool_decide (na_ip_addr node_addr = sock_ip gossip_source)
              then Ret (Unmatched (Literal "Pass Node record must not be Gossip source"))
              else Ret Matched
          end
      end
  | _ => Ret (Unmatched (WrongRecordCount "Pass" 1 (length agrs)))
  end.

Definition pass_handle (st : AcceptorState) (agrs : list AccessibleGossipRecord)
    (gossip_source : SocketAddr) : exec (list GossipAcceptanceResult * AcceptorState) :=
  let* pass_agr := expect (head agrs) in
  let* a := expect (agr_node_addr_opt pass_agr) in
  let pass_target_node_addr := clone_addr a in
  let pass_target_ip_addr := na_ip_addr pass_target_node_addr in
  let send_cpm st e := try_send_connection_progress st (mkCpm (sock_ip gossip_source) e) in
  let stamped := mkState (st_db st)
    (<[pass_target_ip_addr := system_now]> (previous_pass_targets st)) (cpms st) in
  let pass_on st :=
    let st := send_cpm st (PassGossipReceived pass_target_ip_addr) in
    let* g := make_debut (st_db st) in
    Ret ([Reply g (agr_key pass_agr) pass_target_node_addr], st) in
  match previous_pass_targets st !! pass_target_ip_addr with
  | None =>
      if bool_decide (pass_target_ip_addr ∈ connection_progress_peers md)
      then Ret ([], send_cpm st PassLoopFound)
      else pass_on stamped
  | Some timestamp =>
      let duration_since := Z.max 0 (system_now - timestamp) in
      if duration_since <=? PASS_GOSSIP_EXPIRED_TIME
      then Ret ([], send_cpm stamped PassLoopFound)
      else pass_on stamped
  end.

(** ** Introduction *)

(** [order_is_introducee_introducer]: [true] when the first record is the
    introducer's. *)
Definition order_is_introducee_introducer (first_agr second_agr : AccessibleGossipRecord)
    (gossip_source : SocketAddr) : fallible bool Qualification :=
  match agr_ip first_agr, agr_ip second_agr with
  | Some first_ip, Some second_ip =>
      if bool_decide (first_ip = sock_ip gossip_source) then Ret (Ok true)
      else if bool_decide (second_ip = sock_ip gossip_source) then Ret (Ok false)
      else
        let* m := malefactor_new None (Some (sock_ip gossip_source)) None None
                    (Literal "In Introduction, neither Node record claims the source IP") in
        Ret (Err (Malformed m))
  | _, _ => Ret (Err (Unmatched (Literal "Both Node records in Introduction must have NodeAddr")))
  end.

Definition identify_players (agrs : list AccessibleGossipRecord) (gossip_source : SocketAddr)
    : fallible (AccessibleGossipRecord * AccessibleGossipRecord) Qualification :=
  match agrs with
  | first_agr :: second_agr :: _ =>
      let! first_is_introducer := order_is_introducee_introducer first_agr second_agr gossip_source in
      Ret (Ok (if first_is_introducer then (first_agr, second_agr) else (second_agr, first_agr)))
  | _ => Panic
  end.

Definition malformed_by (k : PublicKey) (ip_opt : option IpAddr) (w : WalletKind) (msg : string)
    : exec (option Qualification) :=
  let* m := malefactor_new (Some k) ip_opt (Some w) None (Literal msg) in
  Ret (Some (Malformed m)).

Definition verify_introducer (gossip_source : SocketAddr) (introducer : AccessibleGossipRecord)
    (root_node : NodeRecord) : exec (option Qualification) :=
  if bool_decide (agr_key introducer = nr_public_key root_node) then
    malformed_by (agr_key introducer) (Some (sock_ip gossip_source)) (agr_wallet introducer)
      "Introducer claims local Node's public key"
  else
    let* a := expect (agr_node_addr_opt introducer) in
    match na_ports a with
    | [] => malformed_by (agr_key introducer) (Some (na_ip_addr a)) (agr_wallet introducer)
              "Introducer has no ports"
    | _ =>
        match nr_addr root_node with
        | Some root_addr =>
            if bool_decide (na_ip_addr a = na_ip_addr root_addr) then
              malformed_by (agr_key introducer) (Some (na_ip_addr a)) (agr_wallet introducer)
                "Introducer claims to be at local Node's IP address"
            else Ret None
        | None => Ret None
        end
    end.

Definition verify_introducee (introducer introducee : AccessibleGossipRecord)
    (gossip_source : SocketAddr) : exec (option Qualification) :=
  match agr_node_addr_opt introducee with
  | None => Ret (Some (Unmatched (Literal "Introducee has no NodeAddr")))
  | Some a =>
      match na_ports a with
      | [] => malformed_by (agr_key introducer) (agr_ip introducer) (agr_wallet introducer)
                "Introducer introduced introducee with no ports"
      | _ =>
          if bool_decide (na_ip_addr a = sock_ip gossip_source) then
            malformed_by (agr_key introducer) (Some (sock_ip gossip_source)) (agr_wallet introducer)
              "Introducer claims the same IP address as its introducee"
          else Ret None
      end
  end.

Definition verify_both (db : NeighborhoodDatabase) (introducer introducee : AccessibleGossipRecord)
    : exec (option Qualification) :=
  let* r := root db in
  let half_neighbors := half_neighbor_keys r in
  Ret (if bool_decide (agr_key introducee ∈ half_neighbors)
          && bool_decide (agr_key introducer ∈ half_neighbors)
       then Some (Unmatched
              (Literal "Introducer and introducee are already our half-neighbors"))
       else None).

Definition introduction_qualifies (db : NeighborhoodDatabase) (agrs : list AccessibleGossipRecord)
    (gossip_source : SocketAddr) : exec Qualification :=
  if negb (length agrs =? 2)%nat
  then Ret (Unmatched (WrongRecordCount "Introduction" 2 (length agrs)))
  else
    let* players := identify_players agrs gossip_source in
    match players with
    | Err qual => Ret qual
    | Ok (introducer, introducee) =>
        let* r := root db in
        let* q1 := verify_introducer gossip_source introducer r in
        match q1 with
        | Some qual => Ret qual
        | None =>
            let* q2 := verify_introducee introducer introducee gossip_source in
            match q2 with
            | Some qual => Ret qual
            | None =>
                let* q3 := verify_both db introducer introducee in
                Ret (default Matched q3)
            end
        end
    end.

(** [IntroductionHandler::update_database] *)
Definition update_database (db : NeighborhoodDatabase) (introducer : AccessibleGossipRecord)
    : exec (result bool UpdateError * NeighborhoodDatabase) :=
  let introducer_key := agr_key introducer in
  let befriend db :=
    let* (added, db) := expect_ok (add_half_neighbor db introducer_key now) in
    let* db := (if added : bool then renew_root db else Ret db) in
    Ret (Ok true, db) in
  match node_by_key db introducer_key with
  | Some existing =>
      if version (inner existing) <? version (agr_inner introducer) then
        let '(res, existing') := update existing introducer now in
        let db := with_records db (<[introducer_key := existing']> (by_public_key db)) in
        match res with
        | Err e => Ret (Err e, db)
        | Ok _ => befriend db
        end
      else Ret (Ok false, db)
  | None =>
      let* new_introducer := new_record introducer in
      let* (_, db) := expect_ok (add_node db new_introducer) in
      befriend db
  end.

Definition update_introducer_if_appropriate (db : NeighborhoodDatabase)
    (introducer : AccessibleGossipRecord) (ban_opt : option Reason)
    : exec (option Reason * bool * NeighborhoodDatabase) :=
  match ban_opt with
  | None =>
      let* (res, db) := update_database db (clone_agr introducer) in
      match res with
      | Ok updated => Ret (None, updated, db)
      | Err e => Ret (Some (ImmutableChanged (agr_key introducer) e), false, db)
      end
  | Some _ => Ret (ban_opt, false, db)
  end.

Definition result_err {A E} (r : result A E) : option E :=
  match r with Ok _ => None | Err e => Some e end.

Definition make_ban_result (a : AccessibleGossipRecord) (message : Reason)
    : exec GossipAcceptanceResult :=
  let* addr := expect (agr_node_addr_opt a) in
  let* m := malefactor_new (Some (agr_key a)) (Some (na_ip_addr addr)) (Some (agr_wallet a)) None
              message in
  Ret (Ban m).

Definition ban_if (a : AccessibleGossipRecord) (message_opt : option Reason)
    : exec (list GossipAcceptanceResult) :=
  match message_opt with
  | Some message => let* b := make_ban_result a message in Ret [b]
  | None => Ret []
  end.

Definition introduction_handle (st : AcceptorState) (agrs : list AccessibleGossipRecord)
    (gossip_source : SocketAddr) : exec (list GossipAcceptanceResult * AcceptorState) :=
  let* r := root (st_db st) in
  if (MAX_DEGREE <=? size (full_neighbor_keys r (st_db st)))%nat then Ret ([], st)
  else
    let* players := identify_players agrs gossip_source in
    let* (introducer, introducee) := expect_ok players in
    let introducer_ban := result_err (validate_incoming_agr introducer "Introducer") in
    let* (introducer_ban, introducer_updated, db) :=
      update_introducer_if_appropriate (st_db st) introducer introducer_ban in
    let st := with_db st db in
    let introducee_ban := result_err (validate_incoming_agr introducee "Introducee") in
    let* bans1 := ban_if introducer introducer_ban in
    let* bans2 := ban_if introducee introducee_ban in
    let results := bans1 ++ bans2 in
    match introducer_ban with
    | Some _ => Ret (results, st)
    | None =>
        let results := results ++ (if introducer_updated then [Accepted] else []) in
        match introducee_ban with
        | None =>
            let* triple := make_debut_triple db introducee in
            let* (debut, target_key, target_node_addr) := expect_ok triple in
            let* introducer_addr := expect (agr_node_addr_opt introducer) in
            Ret (results ++ [Reply debut target_key target_node_addr],
                 try_send_connection_progress st
                   (mkCpm (na_ip_addr introducer_addr)
                      (IntroductionGossipReceived (na_ip_addr target_node_addr))))
        | Some _ => Ret (results, st)
        end
    end.

(** ** Standard Gossip *)

(** One step of the fold that looks for addresses claimed twice. *)
Definition note_ip (so_far : gset IpAddr * gset IpAddr) (ip : IpAddr) : gset IpAddr * gset IpAddr :=
  let '(addr_set, dup_set) := so_far in
  if bool_decide (ip ∈ addr_set) then (addr_set, {[ip]} ∪ dup_set)
  else ({[ip]} ∪ addr_set, dup_set).

Definition standard_qualifies (db : NeighborhoodDatabase) (agrs : list AccessibleGossipRecord)
    (gossip_source : SocketAddr) : exec Qualification :=
  let agrs_with_ips := filter (fun a => is_Some (agr_node_addr_opt a)) agrs in
  let malformed k_opt ip_opt w_opt r :=
    let* m := malefactor_new k_opt ip_opt w_opt None r in Ret (Malformed m) in
  let* root_node := root db in
  let* impostor :=
    (if accepts_connections (inner root_node) then
       exec_find (fun a =>
         let* ip := expect (agr_ip a) in
         let* root_addr := expect (nr_addr root_node) in
         Ret (bool_decide (ip = na_ip_addr root_addr))) agrs_with_ips
     else Ret None) in
  match impostor with
  | Some a => malformed None (Some (sock_ip gossip_source)) None (ResidesAtOurAddress (agr_key a))
  | None =>
      match find (fun a => bool_decide (agr_key a = nr_public_key root_node)) agrs with
      | Some a => malformed (Some (agr_key a)) None (Some (agr_wallet a))
                    (Literal "Standard Gossip contains a record claiming this Node's public key")
      | None =>
          let dup_set := snd (foldl note_ip (∅, ∅) (omap agr_ip agrs_with_ips)) in
          match elements dup_set with
          | [] => Ret Matched
          | first_dup_ip :: _ =>
              malformed None (Some (sock_ip gossip_source)) None (MultipleRecordsClaim first_dup_ip)
          end
      end
  end.

(** [compute_patch_recursive]: the recursion is bounded by the hops left. *)
Fixpoint compute_patch_recursive (agrs : gmap PublicKey AccessibleGossipRecord)
    (root_node : NodeRecord) (hops_remaining : nat) (patch : gset PublicKey)
    (current_node_key : PublicKey) : gset PublicKey :=
  let patch := {[current_node_key]} ∪ patch in
  match hops_remaining with
  | O => patch
  | S hops =>
      let neighbors_opt :=
        if bool_decide (current_node_key = nr_public_key root_node)
        then Some (neighbors (inner root_node))
        else (fun a => neighbors (agr_inner a)) <$> agrs !! current_node_key in
      match neighbors_opt with
      | None => patch ∖ {[current_node_key]}
      | Some ns =>
          foldl (fun patch n =>
            if bool_decide (n ∈ patch) then patch
            else compute_patch_recursive agrs root_node hops patch n) patch (btree_iter ns)
      end
  end.

(** A later record of a key replaces an earlier one in the map. *)
Definition agrs_by_key (agrs : list AccessibleGossipRecord)
    : gmap PublicKey AccessibleGossipRecord :=
  list_to_map (reverse (map (fun a => (agr_key a, a)) agrs)).

Definition compute_patch (agrs : list AccessibleGossipRecord) (root_node : NodeRecord)
    (db_patch_size : Z) : gset PublicKey :=
  compute_patch_recursive (agrs_by_key agrs) root_node (Z.to_nat db_patch_size) ∅
    (nr_public_key root_node).

Definition contained_by_patch (a : AccessibleGossipRecord) (patch : gset PublicKey) : bool :=
  bool_decide (agr_key a ∈ patch).

(** The rates first. *)
Fixpoint extract_rate_violators (agrs : list AccessibleGossipRecord)
    : exec (list AccessibleGossipRecord * list GossipAcceptanceResult) :=
  match agrs with
  | [] => Ret ([], [])
  | a :: agrs =>
      match validate_incoming_agr a "Standard Gossip record" with
      | Ok _ =>
          let* (valid, bans) := extract_rate_violators agrs in
          Ret (a :: valid, bans)
      | Err message =>
          let* m := malefactor_new (Some (agr_key a)) (agr_ip a) (Some (agr_wallet a)) None message in
          let* (valid, bans) := extract_rate_violators agrs in
          Ret (valid, Ban m :: bans)
      end
  end.

Definition reveals_unknown_address (a : AccessibleGossipRecord) (gossip_source_ip : IpAddr)
    (next_door_neighbor_keys : gset PublicKey) : bool :=
  match agr_ip a with
  | Some ip => negb (bool_decide (ip = gossip_source_ip))
               && negb (bool_decide (agr_key a ∈ next_door_neighbor_keys))
  | None => false
  end.

(** Then our own key, and addresses the source should not know. *)
Fixpoint extract_liars (db : NeighborhoodDatabase) (next_door_neighbor_keys : gset PublicKey)
    (gossip_source_agr : AccessibleGossipRecord) (gossip_source_ip : IpAddr)
    (agrs : list AccessibleGossipRecord)
    : exec (list AccessibleGossipRecord * list GossipAcceptanceResult) :=
  match agrs with
  | [] => Ret ([], [])
  | a :: agrs =>
      let rest := extract_liars db next_door_neighbor_keys gossip_source_agr gossip_source_ip agrs in
      if bool_decide (agr_key a = this_node db) then
        let* m := malefactor_new (Some (agr_key a)) (agr_ip a) (Some (agr_wallet a)) None
                    (ClaimsOurKey (agr_key a) (agr_ip a)) in
        let* (valid, bans) := rest in
        Ret (valid, Ban m :: bans)
      else if reveals_unknown_address a gossip_source_ip next_door_neighbor_keys then
        let* m := malefactor_new (Some (agr_key gossip_source_agr)) (Some gossip_source_ip)
                    (Some (agr_wallet gossip_source_agr)) None
                    (RevealedUnknownAddress (agr_key gossip_source_agr) gossip_source_ip
                       (agr_key a)) in
        let* (valid, bans) := rest in
        Ret (valid, Ban m :: bans)
      else
        let* (valid, bans) := rest in
        Ret (a :: valid, bans)
  end.

Definition extract_malefactors (agrs : list AccessibleGossipRecord) (db : NeighborhoodDatabase)
    (gossip_source_agr : AccessibleGossipRecord) (gossip_source : SocketAddr)
    : exec (list AccessibleGossipRecord * list GossipAcceptanceResult) :=
  let* (valid_agrs, bans) := extract_rate_violators agrs in
  let* r := root db in
  let* (valid_agrs, more_bans) :=
    extract_liars db (neighbors (inner r)) gossip_source_agr (sock_ip gossip_source) valid_agrs in
  Ret (valid_agrs, bans ++ more_bans).

Definition is_new (db : NeighborhoodDatabase) (a : AccessibleGossipRecord) : bool :=
  negb (bool_decide (agr_key a ∈ keys db)).
Definition is_obsolete (db : NeighborhoodDatabase) (a : AccessibleGossipRecord) : bool :=
  bool_decide (agr_key a ∈ keys db) &&
  match node_by_key db (agr_key a) with
  | Some existing => version (inner existing) <? version (agr_inner a)
  | None => false
  end.

Definition identify_non_introductory_new_and_obsolete_nodes (db : NeighborhoodDatabase)
    (agrs : list AccessibleGossipRecord)
    : list AccessibleGossipRecord * list AccessibleGossipRecord :=
  (filter (fun a => is_new db a = true) agrs, filter (fun a => is_obsolete db a = true) agrs).

Fixpoint add_new_nodes (db : NeighborhoodDatabase) (agrs : list AccessibleGossipRecord)
    : exec NeighborhoodDatabase :=
  match agrs with
  | [] => Ret db
  | a :: agrs =>
      let* n := new_record a in
      let* (_, db) := expect_ok (add_node db n) in
      add_new_nodes db agrs
  end.

(** [update_database_record]: a refused update is logged. *)
Definition update_database_record (db : NeighborhoodDatabase) (a : AccessibleGossipRecord)
    : exec (bool * NeighborhoodDatabase) :=
  let* existing := expect (node_by_key db (agr_key a)) in
  let '(res, existing') := update existing a now in
  Ret (is_ok res, with_records db (<[agr_key a := existing']> (by_public_key db))).

Fixpoint update_obsolete_nodes (db : NeighborhoodDatabase) (agrs : list AccessibleGossipRecord)
    : exec NeighborhoodDatabase :=
  match agrs with
  | [] => Ret db
  | a :: agrs =>
      let* (_, db) := update_database_record db a in
      update_obsolete_nodes db agrs
  end.

Definition add_src_node_as_half_neighbor (db : NeighborhoodDatabase) (gossip_source : SocketAddr)
    : exec (bool * NeighborhoodDatabase) :=
  match node_by_ip db (sock_ip gossip_source) with
  | None => Ret (false, db)
  | Some gossip_node =>
      let* r := root db in
      if (MAX_DEGREE <=? size (full_neighbor_keys r db))%nat then Ret (false, db)
      else
        match add_half_neighbor db (nr_public_key gossip_node) now with
        | Ok (true, db) => let* db := renew_root db in Ret (true, db)
        | _ => Ret (false, db)
        end
  end.

Definition check_full_neighbor (db : NeighborhoodDatabase) (gossip_source_ip : IpAddr) : exec bool :=
  match node_by_ip db gossip_source_ip with
  | Some n => let* r := root db in Ret (db_has_full_neighbor db (nr_public_key r) (nr_public_key n))
  | None => Ret false
  end.

(** The record of the sender among those it sent. *)
Definition is_gossip_source (db : NeighborhoodDatabase) (gossip_source : SocketAddr)
    (a : AccessibleGossipRecord) : bool :=
  if accepts_connections (agr_inner a)
  then bool_decide (agr_ip a = Some (sock_ip gossip_source))
  else match node_by_ip db (sock_ip gossip_source) with
       | Some n => bool_decide (nr_public_key n = agr_key a)
       | None => false
       end.

Definition standard_handle (st : AcceptorState) (agrs : list AccessibleGossipRecord)
    (gossip_source : SocketAddr) : exec (list GossipAcceptanceResult * AcceptorState) :=
  let db := st_db st in
  let* initial_neighborship_status := check_full_neighbor db (sock_ip gossip_source) in
  match find (is_gossip_source db gossip_source) agrs with
  | None =>
      let* m := malefactor_new None (Some (sock_ip gossip_source)) None None
        (Literal "Standard gossip sender omitted its self-record; identity redacted") in
      Ret ([Ban m], st)
  | Some source_agr =>
      let gossip_source_agr := clone_agr source_agr in
      let* r := root db in
      let patch := compute_patch agrs r (db_patch_size md) in
      let in_patch_agrs := filter (fun a => contained_by_patch a patch = true) agrs in
      let* (worthy_agrs, malefactor_bans) :=
        extract_malefactors in_patch_agrs db gossip_source_agr gossip_source in
      let '(new_agrs, obsolete_agrs) :=
        identify_non_introductory_new_and_obsolete_nodes db worthy_agrs in
      let* db := add_new_nodes db new_agrs in
      let* db := update_obsolete_nodes db obsolete_agrs in
      let* (added, db) := add_src_node_as_half_neighbor db gossip_source in
      let db_changed :=
        negb (length new_agrs =? 0)%nat || negb (length obsolete_agrs =? 0)%nat || added in
      let* final_neighborship_status := check_full_neighbor db (sock_ip gossip_source) in
      let st := with_db st db in
      if db_changed then
        let st :=
          if negb initial_neighborship_status && final_neighborship_status
          then try_send_connection_progress st
                 (mkCpm (sock_ip gossip_source) StandardGossipReceived)
          else st in
        Ret (Accepted :: malefactor_bans, st)
      else Ret (malefactor_bans, st)
  end.

(** ** Reject, and the chain *)

Definition reject_qualifies (db : NeighborhoodDatabase) (agrs : list AccessibleGossipRecord)
    (gossip_source : SocketAddr) : exec Qualification :=
  let* m := malefactor_new None (Some (sock_ip gossip_source)) None None
              (Unclassifiable (length agrs)) in
  Ret (Malformed m).

(** The trait [GossipHandler]. *)
Record GossipHandler := mkHandler {
  type_name : string;
  qualifies : NeighborhoodDatabase → list AccessibleGossipRecord → SocketAddr → exec Qualification;
  handle : AcceptorState → list AccessibleGossipRecord → SocketAddr →
           exec (list GossipAcceptanceResult * AcceptorState);
}.

Definition gossip_handlers : list GossipHandler :=
  [ mkHandler "DebutHandler" debut_qualifies debut_handle;
    mkHandler "PassHandler" pass_qualifies pass_handle;
    mkHandler "IntroductionHandler" introduction_qualifies introduction_handle;
    mkHandler "StandardGossipHandler" standard_qualifies standard_handle;
    mkHandler "RejectHandler" reject_qualifies (fun _ _ _ => Panic) ].

Fixpoint first_qualifying (hs : list GossipHandler) (db : NeighborhoodDatabase)
    (agrs : list AccessibleGossipRecord) (gossip_source : SocketAddr)
    : exec (Qualification * GossipHandler) :=
  match hs with
  | [] => Panic
  | h :: hs =>
      let* q := qualifies h db agrs gossip_source in
      match q with
      | Unmatched _ => first_qualifying hs db agrs gossip_source
      | _ => Ret (q, h)
      end
  end.

(** [GossipAcceptorReal::handle] *)
Definition acceptor_handle (st : AcceptorState) (agrs : list AccessibleGossipRecord)
    (gossip_source : SocketAddr) : exec (list GossipAcceptanceResult * AcceptorState) :=
  let* (qualification, h) := first_qualifying gossip_handlers (st_db st) agrs gossip_source in
  match qualification with
  | Matched => handle h st agrs gossip_source
  | Unmatched _ => Panic
  | Malformed m => Ret ([Ban m], st)
  end.

(** [handle_gossip] of the neighborhood, up to the acceptor's answer. *)
Definition receive_gossip (st : AcceptorState) (g : Gossip_0v1) (gossip_source : SocketAddr)
    : exec (list GossipAcceptanceResult * AcceptorState) :=
  let* agrs_opt := admitted_agrs cryptde g in
  match agrs_opt with
  | None => Ret ([], st)
  | Some agrs => acceptor_handle st agrs gossip_source
  end.
End Acceptor.
