(* ===== verification/GossipInvariant.v ===== *)
(** * GossipInvariant: what receiving gossip preserves

    Every message, well-formed or hostile, leaves the neighborhood database in
    its invariant with every record signed by the node it describes, and only
    lets it evolve: no node is forgotten, versions do not go back, rates and
    known addresses stay as they were. *)

From stdpp Require Import base list numbers option strings gmap sorting fin_maps.
From Stdlib Require Import ZArith Lia.
From S2P Require Import Prelude Text CountrySerde CountryFinder CryptDE Wallet NodeRecord.
From S2P Require Import NeighborhoodDb ExitPreferences Gossip GossipAcceptor.

Local Open Scope Z_scope.
Local Open Scope rust_scope.
Local Open Scope list_scope.

(** ** How a database may change *)

Record evolves (db db' : NeighborhoodDatabase) : Prop := {
  ev_root : this_node db' = this_node db;
  ev_nodes k n : by_public_key db !! k = Some n →
    ∃ n', by_public_key db' !! k = Some n' ∧ version (inner n) ≤ version (inner n') ∧
      rate_pack (inner n') = rate_pack (inner n) ∧
      (∀ a, nr_addr n = Some a → nr_addr n' = Some a) ∧
      (k = this_node db → neighbors (inner n) ⊆ neighbors (inner n'));
}.

Global Instance evolves_preorder : PreOrder evolves.
Proof.
  split.
  - intros db. split; [done|]. intros k n Hn. exists n. split; [done|]. split; [lia|]. done.
  - intros a b c [Hr Hn] [Hr' Hn']. split; [congruence|]. intros k n Hk.
    destruct (Hn _ _ Hk) as (m & Hm & Hv & Hp & Ha & Hs).
    destruct (Hn' _ _ Hm) as (m' & Hm' & Hv' & Hp' & Ha' & Hs'). exists m'. split; [done|].
    split; [lia|]. split; [congruence|]. split; [auto|]. intros Hk'.
    rewrite Hr in Hs'. set_solver.
Qed.

Lemma evolves_keys db db' : evolves db db' → keys db ⊆ keys db'.
Proof.
  intros [_ Hn] k Hk. unfold keys in *. apply elem_of_dom in Hk as [n Hk].
  destruct (Hn _ _ Hk) as (n' & Hk' & _). by apply elem_of_dom_2 in Hk'.
Qed.

(** Replacing one record by a later one. *)
Lemma evolves_set db k n n' :
  by_public_key db !! k = Some n → version (inner n) ≤ version (inner n') →
  rate_pack (inner n') = rate_pack (inner n) → (∀ a, nr_addr n = Some a → nr_addr n' = Some a) →
  (k = this_node db → neighbors (inner n) ⊆ neighbors (inner n')) →
  evolves db (with_records db (<[k := n']> (by_public_key db))).
Proof.
  intros Hk Hv Hp Ha Hs. split; [done|]. intros j m Hj. simpl.
  destruct (decide (k = j)) as [->|].
  - exists n'. rewrite lookup_insert_eq. rewrite Hk in Hj. by injection Hj as <-.
  - exists m. rewrite lookup_insert_ne by done. split; [done|]. split; [lia|]. done.
Qed.

Lemma evolves_add db n :
  nr_public_key n ∉ keys db → evolves db (add_arbitrary_node db n).
Proof.
  intros Hfresh. split; [done|]. intros k m Hk. exists m. simpl.
  assert (nr_public_key n ≠ k).
  { intros <-. apply Hfresh. unfold keys. by apply elem_of_dom_2 in Hk. }
  rewrite lookup_insert_ne by done. split; [done|]. split; [lia|]. done.
Qed.

(** ** The root's neighbors *)

Definition root_neighbors (db : NeighborhoodDatabase) : gset PublicKey :=
  match by_public_key db !! this_node db with Some r => neighbors (inner r) | None => ∅ end.

(** Full neighbors of the root that accept connections. *)
Definition accepting_full_neighbors (db : NeighborhoodDatabase) : gset PublicKey :=
  filter (fun k => match by_public_key db !! k with
                   | Some n => accepts_connections (inner n)
                               && bool_decide (this_node db ∈ neighbors (inner n))
                   | None => false
                   end = true) (root_neighbors db).

(** The root gains at most one neighbor, and none beyond the highest degree. *)
Definition befriends_within_degree (db db' : NeighborhoodDatabase) : Prop :=
  root_neighbors db' = root_neighbors db ∨
  ∃ k, (k ∉ root_neighbors db) ∧ root_neighbors db' = {[k]} ∪ root_neighbors db ∧
    (size (accepting_full_neighbors db' ∖ {[k]}) < MAX_DEGREE)%nat.

Lemma accepting_full_mono db db' X :
  this_node db' = this_node db → root_neighbors db' ∖ X ⊆ root_neighbors db →
  (∀ j, j ∈ root_neighbors db' ∖ X → by_public_key db' !! j = by_public_key db !! j) →
  accepting_full_neighbors db' ∖ X ⊆ accepting_full_neighbors db.
Proof.
  intros Ht Hsub Hsame j. unfold accepting_full_neighbors.
  rewrite elem_of_difference, !elem_of_filter. intros [[Hp Hj] Hx].
  rewrite Ht, Hsame in Hp by set_solver. set_solver.
Qed.

Lemma accepting_full_full db r :
  db_inv db → by_public_key db !! this_node db = Some r →
  accepting_full_neighbors db ⊆ full_neighbor_keys r db.
Proof.
  intros Hi Hr k. unfold accepting_full_neighbors, root_neighbors. rewrite Hr.
  rewrite elem_of_filter, elem_of_full_neighbor_keys. intros [Hp Hk]. split; [done|].
  unfold db_has_half_neighbor, node_by_key. destruct (by_public_key db !! k) as [n|]; [|done].
  rewrite (di_keys _ Hi _ _ Hr). by apply andb_true_iff in Hp as [_ ?].
Qed.

(** ** Databases whose records are all signed *)

Section Good.
Context `{I : InnerCbor} `{L : !InnerCborLaws I} (cryptde : CryptDE) `{S : !Signs cryptde cryptde}.

Record db_good (db : NeighborhoodDatabase) : Prop := {
  good_inv : db_inv db;
  good_signed : db_signed cryptde db;
  good_owner : this_node db = public_key cryptde;
}.

Lemma good_add_node db n k db' :
  db_good db → record_signed cryptde n → add_node db n = Ok (k, db') →
  db_good db' ∧ evolves db db' ∧ k = nr_public_key n ∧ keys db' = {[k]} ∪ keys db ∧
  by_public_key db' !! this_node db = by_public_key db !! this_node db.
Proof.
  intros [Hi Hs Ho] Hn Hadd. pose proof (inv_add_node _ _ _ _ Hi Hadd) as Hi'.
  apply add_node_Ok in Hadd as (_ & Hf & -> & ->).
  split; [split; [done| |done]|split; [by apply evolves_add|split; [done|split]]].
  - by apply map_Forall_insert_2.
  - unfold keys. simpl. by rewrite dom_insert_L.
  - simpl. apply lookup_insert_ne. intros Heq. apply Hf. rewrite Heq.
    destruct (di_root _ Hi) as (r & Hr & _). unfold keys. by apply elem_of_dom_2 in Hr.
Qed.

(** A record of another node replaced by what that node signed.  Among
    several records of one node in a message, a later one may be older: only
    the version at the start, in [db0], is a bound. *)
Lemma good_update db0 db k n a now r n' :
  db_good db → evolves db0 db → by_public_key db !! k = Some n → update n a now = (r, n') →
  agr_signed cryptde a → k ≠ this_node db →
  (∀ n0, by_public_key db0 !! k = Some n0 → version (inner n0) ≤ version (agr_inner a)) →
  let db' := with_records db (<[k := n']> (by_public_key db)) in
  db_good db' ∧ evolves db0 db' ∧ keys db' = keys db.
Proof.
  intros [Hi Hs Ho] [Hroot Hev] Hk Hu Ha Hne Hv. apply update_spec in Hu as (Hpk & Hrate & Hu). simpl.
  assert (record_signed cryptde n' ∧ (∀ x, nr_addr n = Some x → nr_addr n' = Some x) ∧
          (inner n' = agr_inner a ∨ inner n' = inner n)) as (Hsig & Haddr & Hin).
  { destruct r as [[]|e].
    - destruct Hu as (Hin & Hsg & Hsn & Hx). unfold record_signed. rewrite Hin, Hsg, Hsn. auto.
    - subst n'. split; [by apply (Hs _ _ Hk)|auto]. }
  split; [split; simpl|split].
  - eapply inv_set_record; try done. rewrite Hpk. by apply (di_keys _ Hi _ _ Hk).
  - by apply map_Forall_insert_2.
  - done.
  - split; [done|]. intros j n0 Hj. simpl. destruct (Hev _ _ Hj) as (m & Hm & Hvm & Hpm & Ham & Hsm).
    destruct (decide (k = j)) as [<-|].
    + exists n'. rewrite lookup_insert_eq. rewrite Hk in Hm. injection Hm as <-.
      split; [done|]. split; [|split; [congruence|split; [auto|congruence]]].
      destruct Hin as [->| ->]; [by apply Hv|done].
    + exists m. rewrite lookup_insert_ne by done. done.
  - unfold keys. simpl. rewrite dom_insert_L. apply elem_of_dom_2 in Hk. set_solver.
Qed.

Lemma renew_root_Ret db db' r :
  by_public_key db !! this_node db = Some r → nr_public_key r = public_key cryptde →
  renew_root cryptde db = Ret db' →
  ∃ r', db' = with_records db (<[this_node db := r']> (by_public_key db)) ∧
    inner r' = with_version (version (inner r) + 1) (inner r) ∧ metadata r' = metadata r ∧
    record_signed cryptde r'.
Proof.
  intros Hr Hpk. unfold renew_root, map_root. apply root_Ret in Hr. rewrite Hr. cbn [exec_bind].
  intros (r' & H & Heq)%exec_bind_Ret. injection Heq as <-.
  apply exec_bind_Ret in H as (r1 & [_ ->]%increment_version_Ret & H).
  apply regenerate_Ret in H as (Hin & Hmd & Hc & Hsg). exists r'. split; [done|].
  rewrite Hin in Hc. simpl in *. split; [done|]. split; [done|]. split.
  - rewrite Hin. by apply cbor_inner_roundtrip.
  - apply sign_verifies in Hsg as [_ Hsg]. rewrite Hin. simpl.
    unfold nr_public_key in Hpk. by rewrite Hpk.
Qed.

(** The root takes a neighbor and signs its record again. *)
Lemma good_befriend db k now db1 db2 :
  db_good db → add_half_neighbor db k now = Ok (true, db1) → renew_root cryptde db1 = Ret db2 →
  db_good db2 ∧ evolves db db2 ∧ keys db2 = keys db ∧ (k ∉ root_neighbors db) ∧
  root_neighbors db2 = {[k]} ∪ root_neighbors db ∧
  accepting_full_neighbors db2 ∖ {[k]} ⊆ accepting_full_neighbors db.
Proof.
  intros [Hi Hs Ho] Hadd Hren.
  assert (k ∉ root_neighbors db) as Hnew.
  { unfold add_half_neighbor in Hadd. destruct (inv_root _ Hi) as (r & Hr & _).
    apply root_Ret in Hr. unfold root_neighbors. rewrite Hr.
    unfold db_has_half_neighbor, node_by_key, has_half_neighbor in Hadd. rewrite Hr in Hadd.
    destruct (negb _); [done|]. case_bool_decide; [done|]. done. }
  destruct (add_half_neighbor_Ok _ _ _ _ _ Hi Hadd) as [[? _]|(_ & Hk & r & Hr & ->)]; [done|].
  pose proof (di_keys _ Hi _ _ Hr) as Hpk. simpl in Hpk.
  eapply renew_root_Ret in Hren as (r' & -> & Hin & Hmd & Hsig).
  2: { simpl. by rewrite lookup_insert_eq. }
  2: { unfold nr_public_key in *. simpl. congruence. }
  simpl in *. unfold with_records. simpl. rewrite insert_insert_eq.
  fold (with_records db (<[this_node db := r']> (by_public_key db))).
  assert (nr_public_key r' = this_node db) as Hpk' by (unfold nr_public_key in *; by rewrite Hin).
  assert (∀ a, nr_addr r = Some a → nr_addr r' = Some a) as Haddr
    by (intros a; unfold nr_addr; by rewrite Hmd).
  assert (neighbors (inner r') = {[k]} ∪ neighbors (inner r)) as Hnb by by rewrite Hin.
  assert (neighbors (inner r) ⊆ keys db ∖ {[this_node db]}) as Hsub.
  { destruct (di_root _ Hi) as (r0 & Hr0 & Hn). rewrite Hr in Hr0. by injection Hr0 as <-. }
  assert (root_neighbors (with_records db (<[this_node db := r']> (by_public_key db))) =
          {[k]} ∪ root_neighbors db) as Hrn.
  { unfold root_neighbors. simpl. by rewrite lookup_insert_eq, Hr. }
  split; [split|]; simpl; [|by apply map_Forall_insert_2|done|].
  { eapply inv_set_record; try done. intros _. set_solver. }
  split; [eapply evolves_set; try done; rewrite Hin; simpl; [lia|done|set_solver]|].
  split; [unfold keys; simpl; rewrite dom_insert_L; apply elem_of_dom_2 in Hr; set_solver|].
  split; [done|]. split; [done|].
  apply accepting_full_mono; [done|rewrite Hrn; set_solver|].
  rewrite Hrn. intros j Hj. simpl. apply lookup_insert_ne. intros <-.
  unfold root_neighbors in Hj. rewrite Hr in Hj. set_solver.
Qed.
End Good.

(** The degree of the root counts every full neighbor that accepts
    connections. *)
Lemma degree_covers_accepting `{H : HashOrder} db d :
  db_inv db → gossip_target_degree db (this_node db) = Ret d →
  (size (accepting_full_neighbors db) ≤ d)%nat.
Proof.
  intros Hi. destruct (inv_root _ Hi) as (r & Hr & _). apply root_Ret in Hr.
  pose proof (accepting_full_full _ _ Hi Hr) as Hsub.
  unfold gossip_target_degree, node_by_key. rewrite Hr.
  destruct (full_neighbors_returns r db) as (ns & -> & Hns). cbn [exec_bind]. intros [= <-].
  set (p := fun k => match by_public_key db !! k with
                     | Some n => accepts_connections (inner n) | None => false end = true).
  assert (∀ l ns, Forall2 (fun k m => by_public_key db !! k = Some m) l ns →
    length (filter (fun n => accepts_connections (inner n) = true) ns) = length (filter p l)) as Hlen.
  { induction 1 as [|k m l ms Hk _ IH]; [done|]. rewrite !filter_cons.
    assert (p k ↔ accepts_connections (inner m) = true) as Hp by (unfold p; by rewrite Hk).
    repeat case_decide; simpl; naive_solver. }
  rewrite (Hlen _ _ Hns).
  assert (NoDup (filter p (hash_iter (full_neighbor_keys r db)))) as Hnd.
  { apply NoDup_filter. rewrite hash_iter_perm. apply NoDup_elements. }
  rewrite <- (size_list_to_set (C := gset PublicKey) _ Hnd).
  assert (∀ X Y : gset PublicKey, X ⊆ Y → ∀ m, size X ≤ size Y + m)%nat as Hle.
  { intros X Y HXY m. apply subseteq_size in HXY. lia. }
  apply Hle. intros k Hk. apply elem_of_list_to_set, list_elem_of_filter. split.
  - apply elem_of_filter in Hk as [Hk _]. unfold p. destruct (by_public_key db !! k); [|done].
    by apply andb_true_iff in Hk as [? _].
  - apply elem_of_hash_iter. by apply Hsub.
Qed.

(** ** The handlers *)

Section Handlers.
Context `{I : InnerCbor} `{L : !InnerCborLaws I} `{H : HashOrder} (finder : CountryCodeFinder).
Context (cryptde : CryptDE) `{S : !Signs cryptde cryptde}.
Context (limits : RatePackLimits) (md : NeighborhoodMetadata) (now system_now : Z).

(** What handling one message may do to a database. *)
Record may_become (db db' : NeighborhoodDatabase) : Prop := {
  mb_good : db_good cryptde db';
  mb_evolves : evolves db db';
  mb_degree : befriends_within_degree db db';
}.

Lemma may_become_refl db : db_good cryptde db → may_become db db.
Proof. intros Hg. split; [done|reflexivity|by left]. Qed.

Lemma new_record_signed a n :
  new_record finder md now a = Ret n → agr_signed cryptde a →
  record_signed cryptde n ∧ inner n = agr_inner a.
Proof.
  unfold new_record. intros (m & Hm & Hn)%exec_bind_Ret Ha.
  assert (record_signed cryptde m ∧ inner m = agr_inner a) as [Hs Hin].
  { unfold record_of_agr in Hm. apply exec_bind_Ret in Hm as (l & _ & Hm). by injection Hm as <-. }
  destruct (user_exit_preferences_opt md) as [p|]; [|by injection Hn as <-].
  apply assign_Ret in Hn as [u ->]. done.
Qed.

(** A node of a changed database is befriended, the root untouched so far. *)
Lemma befriended_after db db1 k b db2 db3 :
  db_good cryptde db1 → evolves db db1 → root_neighbors db1 = root_neighbors db →
  accepting_full_neighbors db1 ∖ {[k]} ⊆ accepting_full_neighbors db →
  (size (accepting_full_neighbors db) < MAX_DEGREE)%nat →
  add_half_neighbor db1 k now = Ok (b, db2) →
  (if b then renew_root cryptde db2 else Ret db2) = Ret db3 →
  may_become db db3.
Proof.
  intros Hg1 He1 Hrn1 Hacc1 Hd Hhalf Hren.
  pose proof (add_half_neighbor_Ok _ _ _ _ _ (good_inv _ _ Hg1) Hhalf) as [[-> ->]|(-> & _)].
  { injection Hren as <-. split; [done|done|by left]. }
  destruct (good_befriend _ _ _ _ _ _ Hg1 Hhalf Hren) as (Hg3 & He3 & _ & Hnew & Hrn & Hacc).
  split; [done|by etrans|]. right. exists k. rewrite Hrn1 in *. split; [done|]. split; [done|].
  eapply Nat.le_lt_trans; [|exact Hd]. apply subseteq_size.
  clear -Hacc Hacc1. intros j [Hj Hk]%elem_of_difference. apply Hacc1, elem_of_difference.
  split; [|done]. by apply Hacc, elem_of_difference.
Qed.

(** A stranger is added and befriended. *)
Lemma stranger_befriended db n k db1 b db2 db3 :
  db_good cryptde db → record_signed cryptde n →
  (size (accepting_full_neighbors db) < MAX_DEGREE)%nat →
  add_node db n = Ok (k, db1) → add_half_neighbor db1 k now = Ok (b, db2) →
  (if b then renew_root cryptde db2 else Ret db2) = Ret db3 →
  may_become db db3.
Proof.
  intros Hg Hn Hd Hadd Hhalf Hren.
  destruct (good_add_node _ _ _ _ _ Hg Hn Hadd) as (Hg1 & He1 & -> & Hk1 & Hr1).
  assert (root_neighbors db1 = root_neighbors db) as Hrn1.
  { unfold root_neighbors. by rewrite (ev_root _ _ He1), Hr1. }
  eapply befriended_after; try done.
  apply accepting_full_mono; [apply (ev_root _ _ He1)|rewrite Hrn1; set_solver|].
  rewrite Hrn1. intros j Hj. apply add_node_Ok in Hadd as (_ & Hf & _ & ->). simpl.
  apply lookup_insert_ne. set_solver.
Qed.

Lemma may_become_after db db1 db' :
  evolves db db1 → root_neighbors db1 = root_neighbors db → may_become db1 db' → may_become db db'.
Proof.
  intros He Hrn [Hg He' Hd]. split; [done|by etrans|].
  unfold befriends_within_degree in *. by rewrite Hrn in Hd.
Qed.

Lemma try_accept_debut_ok db a src res db' :
  db_good cryptde db → agr_signed cryptde a →
  try_accept_debut finder cryptde md now db a src = Ret (Some (res, db')) → may_become db db'.
Proof.
  intros Hg Ha. unfold try_accept_debut. intros (r & Hr & Hrun)%exec_bind_Ret.
  apply exec_bind_Ret in Hrun as (d & Hd & Hrun).
  assert (nr_public_key r = this_node db) as Hpk.
  { apply root_Ret in Hr. by apply (di_keys _ (good_inv _ _ Hg) _ _ Hr). }
  rewrite Hpk in Hd. apply degree_covers_accepting in Hd; [|apply Hg].
  destruct (_ <=? _)%nat eqn:Hmax; [done|]. guards.
  apply exec_bind_Ret in Hrun as (n & Hn & Hrun).
  apply new_record_signed in Hn as [Hs Hin]; [|done].
  apply exec_bind_Ret in Hrun as ([k db1] & Hadd & Hrun).
  destruct (add_node db n) as [[? ?]|] eqn:Hadd'; [|done]. injection Hadd as -> ->.
  destruct (add_half_neighbor db1 k now) as [[[] db2]|] eqn:Hhalf; try done.
  apply exec_bind_Ret in Hrun as (db3 & Hren & Hrun).
  apply exec_bind_Ret in Hrun as (? & _ & Hrun). injection Hrun as <- <-.
  eapply stranger_befriended; try done. lia.
Qed.

Lemma debut_handle_ok st agrs src res st' :
  db_good cryptde (st_db st) → Forall (agr_signed cryptde) agrs →
  debut_handle finder cryptde limits md now st agrs src = Ret (res, st') →
  may_become (st_db st) (st_db st').
Proof.
  intros Hg Ha. unfold debut_handle. intros (a & Hhd & Hrun)%exec_bind_Ret.
  apply expect_Ret in Hhd. destruct agrs as [|a' agrs]; [done|]. injection Hhd as ->.
  apply Forall_cons in Ha as [Ha _]. cbv zeta in Hrun.
  set (sa := match agr_node_addr_opt a with Some _ => a | None => _ end) in Hrun.
  assert (agr_signed cryptde sa) as Hsa by (subst sa; by destruct (agr_node_addr_opt a)).
  clearbody sa. destruct (validate_incoming_agr limits sa "Debut").
  - apply exec_bind_Ret in Hrun as (x & _ & Hrun). apply exec_bind_Ret in Hrun as (p & _ & Hrun).
    destruct p as [k|].
    { apply exec_bind_Ret in Hrun as (g & _ & Hrun). injection Hrun as <- <-.
      by apply may_become_refl. }
    apply exec_bind_Ret in Hrun as ([[r db']|] & Htry & Hrun).
    + injection Hrun as <- <-. by eapply try_accept_debut_ok.
    + apply exec_bind_Ret in Hrun as ([k|] & _ & Hrun);
        apply exec_bind_Ret in Hrun as (? & _ & Hrun); injection Hrun as <- <-;
        by apply may_become_refl.
  - apply exec_bind_Ret in Hrun as (x & _ & Hrun). apply exec_bind_Ret in Hrun as (m & _ & Hrun).
    injection Hrun as <- <-. by apply may_become_refl.
Qed.

Lemma pass_handle_db st agrs src res st' :
  pass_handle md system_now st agrs src = Ret (res, st') → st_db st' = st_db st.
Proof.
  unfold pass_handle. intros (a & _ & Hrun)%exec_bind_Ret.
  apply exec_bind_Ret in Hrun as (x & _ & Hrun). cbv zeta in Hrun.
  destruct (_ !! _); [destruct (_ <=? _)|case_bool_decide];
    try (injection Hrun as <- <-; done);
    apply exec_bind_Ret in Hrun as (g & _ & Hrun); injection Hrun as <- <-; done.
Qed.

Lemma update_database_ok db a res db' :
  db_good cryptde db → agr_signed cryptde a → agr_key a ≠ this_node db →
  (size (accepting_full_neighbors db) < MAX_DEGREE)%nat →
  update_database finder cryptde md now db a = Ret (res, db') → may_become db db'.
Proof.
  intros Hg Ha Hne Hd. unfold update_database. cbv zeta. unfold node_by_key.
  destruct (by_public_key db !! agr_key a) as [n|] eqn:Hn.
  - destruct (_ <? _) eqn:Hv; [guards|intros [= <- <-]; by apply may_become_refl].
    destruct (update n a now) as [r n'] eqn:Hu.
    destruct (good_update _ db db _ _ _ _ _ _ Hg (reflexivity db) Hn Hu Ha Hne)
      as (Hg1 & He1 & Hk1); [intros ? [= <-]%(eq_trans (eq_sym Hn)); lia|].
    set (db1 := with_records db _) in *.
    assert (root_neighbors db1 = root_neighbors db) as Hrn.
    { unfold root_neighbors. simpl. by rewrite lookup_insert_ne. }
    destruct r as [[]|e].
    + intros ([b db2] & Hhalf & Hrun)%exec_bind_Ret.
      destruct (add_half_neighbor db1 _ now) as [[? ?]|] eqn:Hhalf'; [|done]. injection Hhalf as -> ->.
      apply exec_bind_Ret in Hrun as (db3 & Hren & Hrun). injection Hrun as <- <-.
      eapply befriended_after; try done.
      apply accepting_full_mono; [done|rewrite Hrn; set_solver|].
      intros j Hj. simpl. apply lookup_insert_ne. set_solver.
    + intros [= <- <-]. split; [done|done|by left].
  - intros (n & Hnr & Hrun)%exec_bind_Ret.
    apply new_record_signed in Hnr as [Hs Hin]; [|done].
    apply exec_bind_Ret in Hrun as ([k db1] & Hadd & Hrun).
    destruct (add_node db n) as [[? ?]|] eqn:Hadd'; [|done]. injection Hadd as -> ->.
    apply exec_bind_Ret in Hrun as ([b db2] & Hhalf & Hrun).
    destruct (add_half_neighbor db1 _ now) as [[? ?]|] eqn:Hhalf'; [|done]. injection Hhalf as -> ->.
    apply exec_bind_Ret in Hrun as (db3 & Hren & Hrun). injection Hrun as <- <-.
    assert (k = agr_key a) as ->.
    { apply add_node_Ok in Hadd' as (_ & _ & -> & _). unfold nr_public_key. by rewrite Hin. }
    by eapply stranger_befriended.
Qed.

(** The players of a message that qualified as an introduction. *)
Lemma introduction_players db agrs src p :
  introduction_qualifies db agrs src = Ret Matched →
  identify_players agrs src = Ret (Ok p) →
  ∀ r, root db = Ret r → agr_key p.1 ≠ nr_public_key r.
Proof.
  unfold introduction_qualifies. intros Hq Hp r Hr. destruct (negb _); [done|].
  rewrite Hp in Hq. cbn [exec_bind] in Hq. destruct p as [i1 i2]. rewrite Hr in Hq.
  cbn [exec_bind] in Hq. apply exec_bind_Ret in Hq as (q & Hv & Hq).
  unfold verify_introducer in Hv. case_bool_decide as Hk; [|done].
  apply exec_bind_Ret in Hv as (m & _ & Hv). by injection Hv as <-.
Qed.

Lemma identify_players_elem agrs src p :
  identify_players agrs src = Ret (Ok p) → p.1 ∈ agrs ∧ p.2 ∈ agrs.
Proof.
  unfold identify_players. destruct agrs as [|a [|b agrs]]; try done.
  intros (f & _ & Hp)%try_bind_Ok. injection Hp as <-. destruct f; set_solver.
Qed.

Lemma introduction_handle_ok st agrs src res st' :
  db_good cryptde (st_db st) → Forall (agr_signed cryptde) agrs →
  introduction_qualifies (st_db st) agrs src = Ret Matched →
  introduction_handle finder cryptde limits md now st agrs src = Ret (res, st') →
  may_become (st_db st) (st_db st').
Proof.
  intros Hg Ha Hq. unfold introduction_handle. intros (r & Hr & Hrun)%exec_bind_Ret.
  destruct (_ <=? _)%nat eqn:Hmax; [injection Hrun as <- <-; by apply may_become_refl|]. guards.
  assert (size (accepting_full_neighbors (st_db st)) < MAX_DEGREE)%nat as Hd.
  { eapply Nat.le_lt_trans; [|exact Hmax]. apply subseteq_size, accepting_full_full; [apply Hg|].
    by apply root_Ret. }
  apply exec_bind_Ret in Hrun as (pl & Hpl & Hrun).
  apply exec_bind_Ret in Hrun as ([i1 i2] & Hex & Hrun). destruct pl as [p|]; [|done].
  injection Hex as ->.
  pose proof (introduction_players _ _ _ _ Hq Hpl r Hr) as Hne. simpl in Hne.
  apply identify_players_elem in Hpl as [Hi1 _]. rewrite Forall_forall in Ha.
  apply Ha in Hi1. simpl in Hi1. cbv zeta in Hrun.
  apply exec_bind_Ret in Hrun as ([[ban upd] db] & Hup & Hrun).
  assert (may_become (st_db st) db) as Hmb.
  { unfold update_introducer_if_appropriate in Hup. destruct (result_err _).
    - injection Hup as <- <- <-. by apply may_become_refl.
    - apply exec_bind_Ret in Hup as ([res' db'] & Hud & Hup).
      assert (db' = db) as -> by (destruct res'; by injection Hup).
      eapply update_database_ok; [done| | |exact Hd|exact Hud]; [exact Hi1|].
      simpl. apply root_Ret in Hr. by rewrite <- (di_keys _ (good_inv _ _ Hg) _ _ Hr). }
  apply exec_bind_Ret in Hrun as (b1 & _ & Hrun). apply exec_bind_Ret in Hrun as (b2 & _ & Hrun).
  destruct ban; [by injection Hrun as <- <-|].
  destruct (result_err (validate_incoming_agr limits i2 "Introducee"));
    [by injection Hrun as <- <-|].
  apply exec_bind_Ret in Hrun as (t & _ & Hrun).
  apply exec_bind_Ret in Hrun as ([[g k] x] & _ & Hrun).
  apply exec_bind_Ret in Hrun as (y & _ & Hrun). by injection Hrun as <- <-.
Qed.

(** Records that pass both filters of Standard Gossip. *)
Lemma rate_violators_out agrs valid bans :
  extract_rate_violators limits agrs = Ret (valid, bans) →
  ∀ a, a ∈ valid → a ∈ agrs ∧ validate_incoming_agr limits a "Standard Gossip record" = Ok ().
Proof.
  revert valid bans. induction agrs as [|a agrs IH]; intros valid bans; simpl.
  - intros [= <- <-] x Hx. by apply elem_of_nil in Hx.
  - destruct (validate_incoming_agr _ _ _) as [[]|] eqn:Hval; intros Hrun.
    + apply exec_bind_Ret in Hrun as ([v bs] & Hrec & Hrun). injection Hrun as <- <-.
      intros x. rewrite elem_of_cons. intros [->|Hx]; [set_solver|].
      destruct (IH _ _ Hrec x Hx). set_solver.
    + apply exec_bind_Ret in Hrun as ([v bs] & Hrec & Hrun). injection Hrun as <- <-.
      intros x Hx. destruct (IH _ _ Hrec x Hx). set_solver.
Qed.

Lemma liars_out db nbrs sa ip agrs valid bans :
  extract_liars db nbrs sa ip agrs = Ret (valid, bans) →
  ∀ a, a ∈ valid → a ∈ agrs ∧ agr_key a ≠ this_node db ∧ reveals_unknown_address a ip nbrs = false.
Proof.
  revert valid bans. induction agrs as [|a agrs IH]; intros valid bans; simpl.
  - intros [= <- <-] x Hx. by apply elem_of_nil in Hx.
  - case_bool_decide as Hk; [|destruct (reveals_unknown_address a ip nbrs) eqn:Hrev]; intros Hrun.
    1,2: apply exec_bind_Ret in Hrun as ([v bs] & Hrec & Hrun); injection Hrun as <- <-;
         intros x Hx; destruct (IH _ _ Hrec x Hx); set_solver.
    apply exec_bind_Ret in Hrun as ([v bs] & Hrec & Hrun). injection Hrun as <- <-.
    intros x. rewrite elem_of_cons. intros [->|Hx]; [set_solver|].
    destruct (IH _ _ Hrec x Hx). set_solver.
Qed.

Lemma malefactors_out agrs db sa src valid bans r :
  root db = Ret r → extract_malefactors limits agrs db sa src = Ret (valid, bans) →
  ∀ a, a ∈ valid → a ∈ agrs ∧ agr_key a ≠ this_node db ∧
    validate_incoming_agr limits a "Standard Gossip record" = Ok () ∧
    reveals_unknown_address a (sock_ip src) (neighbors (inner r)) = false.
Proof.
  intros Hr. unfold extract_malefactors. intros ([v1 b1] & H1 & Hrun)%exec_bind_Ret.
  rewrite Hr in Hrun. cbn [exec_bind] in Hrun.
  apply exec_bind_Ret in Hrun as ([v2 b2] & H2 & Hrun). injection Hrun as <- <-.
  intros a Ha. apply (liars_out _ _ _ _ _ _ _ H2) in Ha as (Ha & Hk & Hrev).
  by apply (rate_violators_out _ _ _ H1) in Ha as [? ?].
Qed.

Lemma add_new_nodes_ok db agrs db' :
  db_good cryptde db → Forall (agr_signed cryptde) agrs →
  add_new_nodes finder md now db agrs = Ret db' →
  db_good cryptde db' ∧ evolves db db' ∧ root_neighbors db' = root_neighbors db.
Proof.
  revert db. induction agrs as [|a agrs IH]; intros db Hg Ha; simpl.
  - intros [= <-]. split; [done|]. by split; [reflexivity|].
  - apply Forall_cons in Ha as [Ha Has]. intros (n & Hn & Hrun)%exec_bind_Ret.
    apply new_record_signed in Hn as [Hs Hin]; [|done].
    apply exec_bind_Ret in Hrun as ([k db1] & Hadd & Hrun).
    destruct (add_node db n) as [[? ?]|] eqn:Hadd'; [|done]. injection Hadd as -> ->.
    destruct (good_add_node _ _ _ _ _ Hg Hs Hadd') as (Hg1 & He1 & _ & _ & Hr1).
    destruct (IH db1 Hg1 Has Hrun) as (Hg2 & He2 & Hr2). split; [done|]. split; [by etrans|].
    rewrite Hr2. unfold root_neighbors. by rewrite (ev_root _ _ He1), Hr1.
Qed.

Lemma update_obsolete_ok db0 db agrs db' :
  db_good cryptde db → evolves db0 db → Forall (agr_signed cryptde) agrs →
  Forall (fun a => agr_key a ≠ this_node db ∧
    ∀ n0, by_public_key db0 !! agr_key a = Some n0 → version (inner n0) ≤ version (agr_inner a)) agrs →
  update_obsolete_nodes now db agrs = Ret db' →
  db_good cryptde db' ∧ evolves db0 db' ∧ root_neighbors db' = root_neighbors db.
Proof.
  revert db. induction agrs as [|a agrs IH]; intros db Hg He Ha Hv; simpl.
  - intros [= <-]. done.
  - apply Forall_cons in Ha as [Ha Has]. apply Forall_cons in Hv as [[Hne Hv] Hvs].
    intros ([b db1] & Hup & Hrun)%exec_bind_Ret. unfold update_database_record in Hup.
    apply exec_bind_Ret in Hup as (n & Hn & Hup). apply expect_Ret in Hn.
    destruct (update n a now) as [r n'] eqn:Hu. injection Hup as <- <-.
    destruct (good_update _ _ _ _ _ _ _ _ _ Hg He Hn Hu Ha Hne Hv) as (Hg1 & He1 & _).
    destruct (IH _ Hg1 He1 Has) as (Hg2 & He2 & Hr2); [done|done|].
    split; [done|]. split; [done|]. rewrite Hr2. unfold root_neighbors. simpl.
    by rewrite lookup_insert_ne.
Qed.

Lemma add_src_ok db src b db' :
  db_good cryptde db → add_src_node_as_half_neighbor cryptde now db src = Ret (b, db') →
  may_become db db'.
Proof.
  intros Hg. unfold add_src_node_as_half_neighbor.
  destruct (node_by_ip db (sock_ip src)) as [n|];
    [|intros [= <- <-]; by apply may_become_refl].
  intros (r & Hr & Hrun)%exec_bind_Ret.
  destruct (_ <=? _)%nat eqn:Hmax; [injection Hrun as <- <-; by apply may_become_refl|]. guards.
  destruct (add_half_neighbor db _ now) as [[[] db2]|] eqn:Hhalf;
    try (injection Hrun as <- <-; by apply may_become_refl).
  apply exec_bind_Ret in Hrun as (db3 & Hren & Hrun). injection Hrun as <- <-.
  eapply (befriended_after db db); try done; [set_solver|].
  eapply Nat.le_lt_trans; [|exact Hmax]. apply subseteq_size, accepting_full_full; [apply Hg|].
  by apply root_Ret.
Qed.

Lemma standard_handle_ok st agrs src res st' :
  db_good cryptde (st_db st) → Forall (agr_signed cryptde) agrs →
  standard_handle finder cryptde limits md now st agrs src = Ret (res, st') →
  may_become (st_db st) (st_db st').
Proof.
  intros Hg Ha. unfold standard_handle. intros (init & _ & Hrun)%exec_bind_Ret.
  destruct (find _ agrs) as [sa|].
  2: { apply exec_bind_Ret in Hrun as (m & _ & Hrun). injection Hrun as <- <-.
       by apply may_become_refl. }
  apply exec_bind_Ret in Hrun as (r & Hr & Hrun). cbv zeta in Hrun.
  apply exec_bind_Ret in Hrun as ([worthy bans] & Hext & Hrun).
  assert (∀ a, a ∈ worthy → agr_signed cryptde a ∧ agr_key a ≠ this_node (st_db st)) as Hw.
  { intros a Hw. eapply malefactors_out in Hext as (Hin & Hne & _); [|done|done].
    apply list_elem_of_filter in Hin as [_ Hin]. rewrite Forall_forall in Ha. auto. }
  cbn [identify_non_introductory_new_and_obsolete_nodes] in Hrun.
  unfold identify_non_introductory_new_and_obsolete_nodes in Hrun.
  apply exec_bind_Ret in Hrun as (db1 & Hnew & Hrun).
  apply exec_bind_Ret in Hrun as (db2 & Hobs & Hrun).
  apply exec_bind_Ret in Hrun as ([added db3] & Hsrc & Hrun).
  apply exec_bind_Ret in Hrun as (fin & _ & Hrun).
  apply add_new_nodes_ok in Hnew as (Hg1 & He1 & Hr1); [|done|].
  2: { apply Forall_forall. intros a [_ Hin]%list_elem_of_filter. by apply Hw. }
  apply (update_obsolete_ok (st_db st)) in Hobs as (Hg2 & He2 & Hr2); [|done|done| |].
  - apply add_src_ok in Hsrc; [|done].
    assert (st_db st' = db3) as ->.
    { destruct (_ || added); [destruct (negb init && fin)|]; by injection Hrun as _ <-. }
    eapply may_become_after; [exact He2|congruence|done].
  - apply Forall_forall. intros a [_ Hin]%list_elem_of_filter. by apply Hw.
  - apply Forall_forall. intros a [Hob Hin]%list_elem_of_filter.
    rewrite (ev_root _ _ He1). split; [by apply Hw|]. intros n0 Hn0.
    unfold is_obsolete, node_by_key in Hob. rewrite Hn0 in Hob. guards. lia.
Qed.

Lemma acceptor_handle_ok st agrs src res st' :
  db_good cryptde (st_db st) → Forall (agr_signed cryptde) agrs →
  acceptor_handle finder cryptde limits md now system_now st agrs src = Ret (res, st') →
  may_become (st_db st) (st_db st').
Proof.
  intros Hg Ha. unfold acceptor_handle. intros ([q h] & Hq & Hrun)%exec_bind_Ret.
  destruct q as [|r|m]; [|done|injection Hrun as <- <-; by apply may_become_refl].
  unfold gossip_handlers in Hq. cbn [first_qualifying qualifies] in Hq.
  repeat match type of Hq with
  | exec_bind ?c _ = Ret _ =>
      let E := fresh "Hqual" in
      destruct c as [[| |]|] eqn:E; cbn [exec_bind] in Hq; try discriminate Hq;
      try (injection Hq as <-; cbn [handle] in Hrun)
  end.
  - by eapply debut_handle_ok.
  - apply pass_handle_db in Hrun as ->. by apply may_become_refl.
  - by eapply introduction_handle_ok.
  - by eapply standard_handle_ok.
Qed.

Lemma receive_gossip_ok st g src res st' :
  db_good cryptde (st_db st) →
  receive_gossip finder cryptde limits md now system_now st g src = Ret (res, st') →
  may_become (st_db st) (st_db st').
Proof.
  intros Hg. unfold receive_gossip. intros (o & Hadm & Hrun)%exec_bind_Ret.
  destruct o as [agrs|]; [|injection Hrun as <- <-; by apply may_become_refl].
  apply admitted_spec in Hadm as [_ Ha]. by eapply acceptor_handle_ok.
Qed.
End Handlers.

(** ** The other changes *)

Section Others.
Context `{I : InnerCbor} `{L : !InnerCborLaws I} `{H : HashOrder} (finder : CountryCodeFinder).
Context (cryptde : CryptDE) `{S : !Signs cryptde cryptde}.

Lemma regenerate_signed n n' :
  nr_public_key n = public_key cryptde → regenerate_signed_gossip n cryptde = Ret n' →
  record_signed cryptde n' ∧ inner n' = inner n ∧ metadata n' = metadata n.
Proof.
  intros Hpk (Hin & Hmd & Hc & Hsg)%regenerate_Ret. split; [|done]. split.
  - by apply cbor_inner_roundtrip.
  - apply sign_verifies in Hsg as [_ Hsg]. rewrite Hin. unfold nr_public_key in Hpk. by rewrite Hpk.
Qed.

Lemma db_new_good {D} (mode : NeighborhoodMode D) wallet now db :
  db_new finder mode wallet cryptde now = Ret db → db_good cryptde db.
Proof.
  intros Hnew. pose proof (db_new_inv _ _ _ _ _ _ Hnew) as (Hi & Ht & Hk). split; [done| |done].
  unfold db_new in Hnew. cbv zeta in Hnew. apply exec_bind_Ret in Hnew as (l & _ & Hnew).
  apply exec_bind_Ret in Hnew as (r & _ & Hnew). apply exec_bind_Ret in Hnew as (r2 & _ & Hnew).
  apply exec_bind_Ret in Hnew as (r3 & Hr3 & Hnew). injection Hnew as <-.
  assert (nr_public_key r3 = public_key cryptde) as Hpk.
  { unfold keys in Hk. simpl in Hk. rewrite dom_insert_L, dom_empty_L in Hk. set_solver. }
  apply map_Forall_insert_2; [|apply map_Forall_empty].
  eapply regenerate_signed; [|exact Hr3].
  apply regenerate_Ret in Hr3 as (Hin & _). unfold nr_public_key in *. congruence.
Qed.

(** The root that announces a contract signs again. *)
Lemma announce_good capabilities contract_opt db db' :
  db_good cryptde db → announce_settlement capabilities contract_opt cryptde db = Ret db' → db_good cryptde db'.
Proof.
  intros [Hi Hs Ho] Hann. unfold announce_settlement in Hann. split; [| |].
  - eapply inv_map_root; [exact Hi|exact Hann|]. intros x x' (Hx & Hy & _)%regenerate_Ret.
    unfold nr_public_key, nr_addr. by rewrite Hx, Hy.
  - unfold map_root in Hann. apply exec_bind_Ret in Hann as (r & Hr & Hann).
    apply exec_bind_Ret in Hann as (r' & Hr' & Hann). injection Hann as <-.
    apply map_Forall_insert_2; [|done]. eapply regenerate_signed; [|exact Hr'].
    apply root_Ret in Hr. rewrite <- Ho. exact (di_keys _ Hi _ _ Hr).
  - unfold map_root in Hann. apply exec_bind_Ret in Hann as (r & _ & Hann).
    apply exec_bind_Ret in Hann as (r' & _ & Hann). by injection Hann as <-.
Qed.

Lemma produce_good last db target now g last' db' :
  db_good cryptde db → produce last db target now = Ret (g, last', db') → db_good cryptde db'.
Proof.
  intros [Hi Hs Ho] Hp. unfold produce in Hp. apply exec_bind_Ret in Hp as (e & _ & Hp).
  apply exec_bind_Ret in Hp as ([l db1] & Hc & Hp).
  assert (db_good cryptde db1) as Hg1.
  { destruct (_ <=? _); [|by injection Hc as <- <-].
    apply exec_bind_Ret in Hc as (db2 & Hc & Heq). injection Heq as <- <-.
    destruct (cull_dead_nodes_spec db now Hi) as (db3 & ks & Hc' & _ & Hi3 & Ht & Hrec).
    { unfold cull_dead_nodes in Hc. apply exec_bind_Ret in Hc as (? & _ & Hc).
      apply exec_bind_Ret in Hc as (d & Hd & _). apply expect_Ret, checked_sub_Some in Hd. naive_solver. }
    rewrite Hc in Hc'. injection Hc' as <-. split; [done| |congruence].
    intros k n [Hk _]%Hrec. by apply (Hs _ _ Hk). }
  destruct (node_by_key db1 target); [|by injection Hp as <- <- <-].
  apply exec_bind_Ret in Hp as (? & _ & Hp). apply exec_bind_Ret in Hp as (? & _ & Hp).
  by injection Hp as <- <- <-.
Qed.

(** After [remove_neighbor], the root signs again when it lost a neighbor. *)
Lemma remove_neighbor_good db k b db1 db2 :
  db_good cryptde db → remove_neighbor db k = Ret (Ok b, db1) →
  (if b then map_root db1 (fun r => regenerate_signed_gossip r cryptde) else Ret db1) = Ret db2 →
  db_good cryptde db2.
Proof.
  intros [Hi Hs Ho] Hrem Hren. unfold remove_neighbor, node_by_key in Hrem.
  destruct (by_public_key db !! k) as [n|] eqn:Hk; [|done]. cbv zeta in Hrem.
  pose proof (inv_drop_addr _ _ _ Hi Hk) as Hdrop. set (d2 := mkDb _ _ _) in Hdrop.
  assert (match nr_addr n with
          | Some a => with_index (with_records db (<[k:=unset_node_addr n]> (by_public_key db)))
              (delete (na_ip_addr a)
                 (by_ip_addr (with_records db (<[k:=unset_node_addr n]> (by_public_key db)))))
          | None => with_records db (<[k:=unset_node_addr n]> (by_public_key db))
          end = d2) as Heq by (subst d2; by destruct (nr_addr n)).
  rewrite Heq in Hrem. clear Heq.
  assert (db_signed cryptde d2) as Hs2.
  { apply map_Forall_insert_2; [by apply (Hs _ _ Hk)|done]. }
  assert (this_node d2 = public_key cryptde) as Ho2 by done. clearbody d2.
  apply exec_bind_Ret in Hrem as (r & Hr & Hrem). apply root_Ret in Hr as Hr'.
  destruct (inv_root _ Hdrop) as (r0 & Hr0 & Hpk & Hn). rewrite Hr in Hr0. injection Hr0 as <-.
  cbn [remove_half_neighbor_key] in Hrem.
  set (r1 := with_inner _ r) in Hrem.
  assert (db_inv (with_records d2 (<[this_node d2 := r1]> (by_public_key d2)))) as Hi3.
  { eapply inv_set_record; try done. intros _. simpl. set_solver. }
  destruct (bool_decide (k ∈ neighbors (inner r))) eqn:Hb; guards.
  - apply exec_bind_Ret in Hrem as (db4 & Hm & Hrem). injection Hrem as <- <-.
    assert (db_inv db4) as Hi4.
    { eapply inv_map_root; [exact Hi3|exact Hm|]. intros x x' [_ ->]%increment_version_Ret. done. }
    unfold map_root in Hm. apply exec_bind_Ret in Hm as (r3 & Hr3 & Hm).
    apply exec_bind_Ret in Hm as (r4 & Hr4 & Hm). injection Hm as <-.
    assert (db_inv db2) as Hi5.
    { eapply inv_map_root; [exact Hi4|exact Hren|]. intros x x' (Hx & Hy & _)%regenerate_Ret.
      unfold nr_public_key, nr_addr. by rewrite Hx, Hy. }
    unfold map_root in Hren. apply exec_bind_Ret in Hren as (r5 & Hr5 & Hren).
    apply exec_bind_Ret in Hren as (r6 & Hr6 & Hren). injection Hren as <-.
    split; [done| |done]. simpl. rewrite !insert_insert_eq.
    apply map_Forall_insert_2; [|done]. eapply regenerate_signed; [|exact Hr6].
    apply root_Ret in Hr5. simpl in Hr5. rewrite lookup_insert_eq in Hr5. injection Hr5 as <-.
    rewrite <- Ho2. apply (di_keys _ Hi4). simpl. by rewrite lookup_insert_eq.
  - injection Hrem as <- <-. injection Hren as <-. split; [done| |done].
    apply map_Forall_insert_2; [|done].
    assert (r1 = r) as ->; [|by apply (Hs2 _ _ Hr')].
    subst r1. destruct r as [i m s g]. unfold with_inner. simpl in *. f_equal.
    destruct i. unfold with_neighbors. simpl in *. f_equal. set_solver.
Qed.

Lemma exec_map_records_ok (f : NodeRecord → exec NodeRecord) (P : NodeRecord → NodeRecord → Prop) l m m' :
  (∀ n n', f n = Ret n' → P n n') → (∀ n, P n n) → (∀ a b c, P a b → P b c → P a c) →
  (∀ k n, (k, n) ∈ l → m !! k = Some n) → NoDup (l.*1) →
  exec_map_records f l m = Ret m' →
  ∀ k, match m !! k, m' !! k with
       | Some n, Some n' => P n n'
       | None, None => True
       | _, _ => False
       end.
Proof.
  intros Hf Hrefl Htrans. revert m. induction l as [|[k n] l IH]; intros m Hl Hnd; simpl.
  - intros [= <-] k. by destruct (m !! k).
  - simpl in Hnd. apply NoDup_cons in Hnd as [Hk Hnd].
    intros (n' & Hn' & Hrun)%exec_bind_Ret j.
    assert (∀ j x, (j, x) ∈ l → <[k := n']> m !! j = Some x) as Hl'.
    { intros i x Hi. rewrite lookup_insert_ne; [set_solver|]. intros <-. apply Hk.
      apply list_elem_of_fmap. by exists (k, x). }
    specialize (IH _ Hl' Hnd Hrun j).
    destruct (decide (k = j)) as [<-|].
    + rewrite lookup_insert_eq in IH. rewrite (Hl k n) by set_solver.
      destruct (m' !! k); [|done]. eauto.
    + by rewrite lookup_insert_ne in IH.
Qed.

(** Undesirability is local metadata: nothing signed changes. *)
Lemma preferences_good p db ls p' db' :
  db_good cryptde db → set_country_undesirability_and_exit_countries p db ls = Ret (p', db') →
  db_good cryptde db'.
Proof.
  intros [Hi Hs Ho] Hrun.
  assert (∃ m, db' = with_records db m ∧ ∀ k, match by_public_key db !! k, m !! k with
     | Some n, Some n' => ∃ u, n' = set_country_undesirability n u
     | None, None => True | _, _ => False end) as (m & -> & Hm).
  { assert (∀ k n, (k, n) ∈ map_to_list (by_public_key db) → by_public_key db !! k = Some n) as Hl
      by (intros k n; apply elem_of_map_to_list).
    pose proof (NoDup_fst_map_to_list (by_public_key db)) as Hnd.
    assert (∀ n : NodeRecord, ∃ u, n = set_country_undesirability n u) as Hrefl.
    { intros [? [] ? ?]. by eexists. }
    assert (∀ a b c, (∃ u, b = set_country_undesirability a u) →
      (∃ u, c = set_country_undesirability b u) → ∃ u, c = set_country_undesirability a u) as Htr.
    { intros a b c [u ->] [u' ->]. by eexists. }
    unfold set_country_undesirability_and_exit_countries in Hrun.
    destruct ls; apply exec_bind_Ret in Hrun as (m & Hm & Hrun); injection Hrun as <- <-;
      exists m; (split; [done|]);
      eapply (exec_map_records_ok _ (fun n n' => ∃ u, n' = set_country_undesirability n u)); try done.
    - intros n n' [= <-]. by eexists.
    - apply assign_Ret. }
  assert (dom m = keys db) as Hdom.
  { apply set_eq. intros k. unfold keys. rewrite !elem_of_dom. specialize (Hm k).
    destruct (by_public_key db !! k), (m !! k); try done; split; (by intros []) || by eexists. }
  assert (∀ k n', m !! k = Some n' → ∃ n u, by_public_key db !! k = Some n ∧
    n' = set_country_undesirability n u) as Hback.
  { intros k n' Hk. specialize (Hm k). rewrite Hk in Hm.
    destruct (by_public_key db !! k) as [n|]; [|done]. destruct Hm as [u ->]. by eexists _, _. }
  assert (∀ k n, by_public_key db !! k = Some n → ∃ u, m !! k = Some (set_country_undesirability n u))
    as Hfwd.
  { intros k n Hk. specialize (Hm k). rewrite Hk in Hm. destruct (m !! k); [|done].
    destruct Hm as [u ->]. by eexists. }
  destruct Hi as [(r & Hr & Hn) Hk Hx]. split; [split|..]; simpl.
  - destruct (Hfwd _ _ Hr) as [u Hu]. eexists. split; [exact Hu|]. unfold keys. simpl.
    by rewrite Hdom.
  - intros k n' (n & u & Hkn & ->)%Hback. by apply (Hk _ _ Hkn).
  - intros ip k Hip. destruct (Hx _ _ Hip) as (n & Hkn & Ha). destruct (Hfwd _ _ Hkn) as [u Hu].
    by eexists.
  - intros k n' (n & u & Hkn & ->)%Hback. by apply (Hs _ _ Hkn).
  - done.
Qed.

(** ** Reachable databases *)

(** Every change of the database of a running neighborhood: start-up, with the
    contract that is announced for settlement, gossip received, gossip produced
    (with its culling), the loss of a neighbor, new preferences of the user.
    Settings and clock may differ at each step.  A change of the public address
    is not among them: the actor does not sign the root again after it, which
    [NeighborhoodRun.SampleRun.new_public_ip_not_resigned] shows. *)
Inductive reachable : NeighborhoodDatabase → Prop :=
| reach_new D (mode : NeighborhoodMode D) wallet now db :
    db_new finder mode wallet cryptde now = Ret db → reachable db
| reach_settlement capabilities contract_opt db db' :
    reachable db → announce_settlement capabilities contract_opt cryptde db = Ret db' → reachable db'
| reach_receive limits md now system_now st g src res st' :
    reachable (st_db st) →
    receive_gossip finder cryptde limits md now system_now st g src = Ret (res, st') →
    reachable (st_db st')
| reach_produce last db target now g last' db' :
    reachable db → produce last db target now = Ret (g, last', db') → reachable db'
| reach_lose db k b db1 db2 :
    reachable db → remove_neighbor db k = Ret (Ok b, db1) →
    (if b then map_root db1 (fun r => regenerate_signed_gossip r cryptde) else Ret db1) = Ret db2 →
    reachable db2
| reach_preferences p db ls p' db' :
    reachable db → set_country_undesirability_and_exit_countries p db ls = Ret (p', db') →
    reachable db'.
End Others.

(** ** The properties *)

Section Properties.
Context `{I : InnerCbor} `{L : !InnerCborLaws I} `{H : HashOrder} (finder : CountryCodeFinder).
Context (cryptde : CryptDE) `{S : !Signs cryptde cryptde}.

(** [C17] In every reachable database the root is present under the node's own
    key and its half neighbors are known nodes other than itself, every record
    is filed under its own key, the address index points at records with that
    address, and every record, the root's included, decodes to what the node
    it describes signed: whatever was received, in whatever order, what is
    gossiped on is authentic, for as long as the node keeps its public address. *)
Theorem reachable_authentic db :
  reachable finder cryptde db → db_good cryptde db.
Proof.
  induction 1.
  - by eapply db_new_good.
  - by eapply announce_good.
  - by eapply receive_gossip_ok.
  - by eapply produce_good.
  - by eapply remove_neighbor_good.
  - by eapply preferences_good.
Qed.

(** Whatever message arrives, from whomever: no known node is forgotten,
    no version goes back, no rate pack and no known address changes, the root
    keeps its neighbors and gains at most one, and gains one only while fewer
    than [MAX_DEGREE] others are full neighbors that accept connections. *)
Theorem receiving_only_evolves limits md now system_now st g src res st' :
  db_good cryptde (st_db st) →
  receive_gossip finder cryptde limits md now system_now st g src = Ret (res, st') →
  evolves (st_db st) (st_db st') ∧ befriends_within_degree (st_db st) (st_db st').
Proof.
  intros Hg Hrun. by destruct (receive_gossip_ok _ _ _ _ _ _ _ _ _ _ _ Hg Hrun) as [_ ? ?].
Qed.
End Properties.

(** ** A concrete run: node 1 starts up, then node 2 debuts to it. *)
Module Run.
Import Sample.
Global Instance signs : Signs (cryptde 1) (cryptde 1).
Proof. by apply cryptde_signs. Qed.
Definition finder : CountryCodeFinder := mkFinder (Table.new sample_pairs) [] [].
Definition mode : NeighborhoodMode unit := OriginateOnly [] (mkRatePack 1 2 3 4).
Definition start : NeighborhoodDatabase :=
  match db_new finder mode (WAddress (repeat 1 20)) (cryptde 1) 1000 with
  | Ret db => db | Panic => mkDb [] ∅ ∅ end.
Definition limits : RatePackLimits := mkLimits (mkRatePack 0 0 0 0) (mkRatePack 9 9 9 9).
Definition md : NeighborhoodMetadata := mkNMetadata [] 3 (Some preferences_new).
Definition gnr (k v : Z) (accepts routes : bool) (ns : list Z) (a : option NodeAddr) : GossipNodeRecord :=
  gnr_of_record (record k v accepts routes ns a).
Definition receive (st : AcceptorState) (g : Gossip_0v1) (src : SocketAddr)
    : exec (list GossipAcceptanceResult * AcceptorState) :=
  receive_gossip finder (cryptde 1) limits md 1001 0 st g src.
Definition debut : Gossip_0v1 := mkGossip [gnr 2 1 true true [] (Some (addr 2))].
Definition debut_source : SocketAddr := mkSocket (IpV4 2) 1234.
Definition started : AcceptorState := mkState start ∅ [].
Definition after_debut : AcceptorState :=
  match receive started debut debut_source with Ret (_, st) => st | Panic => started end.

Lemma start_run : db_new finder mode (WAddress (repeat 1 20)) (cryptde 1) 1000 = Ret start.
Proof.
  unfold start. destruct (db_new _ _ _ _ _) eqn:E; [done|]. exfalso. revert E. by vm_compute.
Qed.
Lemma debut_run : ∃ res, receive started debut debut_source = Ret (res, after_debut).
Proof.
  unfold after_debut. destruct (receive _ _ _) as [[res st]|] eqn:E; [by exists res|].
  exfalso. revert E. by vm_compute.
Qed.
Lemma start_good : db_good (cryptde 1) start.
Proof. exact (db_new_good _ _ _ _ _ _ start_run). Qed.
End Run.

Lemma reachable_authentic_witness :
  keys (st_db Run.after_debut) = {[ [1]; [2] ]} ∧ db_good (Sample.cryptde 1) (st_db Run.after_debut).
Proof.
  split; [by vm_compute|]. destruct Run.debut_run as [res Hrun].
  apply (reachable_authentic Run.finder (Sample.cryptde 1)).
  eapply reach_receive; [|exact Hrun]. eapply reach_new, Run.start_run.
Defined.

Lemma receiving_only_evolves_witness :
  root_neighbors Run.start = ∅ ∧ root_neighbors (st_db Run.after_debut) = {[ [2] ]} ∧
  evolves Run.start (st_db Run.after_debut).
Proof.
  split; [by vm_compute|]. split; [by vm_compute|]. destruct Run.debut_run as [res Hrun].
  apply (receiving_only_evolves Run.finder (Sample.cryptde 1) _ _ _ _ Run.started _ _ _ _ Run.start_good Hrun).
Defined.
