(* ===== verification/GossipSafety.v ===== *)
(** * GossipSafety: gossip cannot stop a node, and where it can

    When handling a message returns at all (no panic), how far Standard Gossip
    reaches (the patch), how Pass Gossip is kept from going round in circles;
    and the messages a node does not survive. *)

From stdpp Require Import base list numbers option strings gmap sorting fin_maps.
From Stdlib Require Import ZArith Lia.
From S2P Require Import Prelude Text CountrySerde CountryFinder CryptDE Wallet NodeRecord.
From S2P Require Import NeighborhoodDb ExitPreferences Gossip GossipAcceptor GossipInvariant.

Local Open Scope Z_scope.
Local Open Scope rust_scope.
Local Open Scope list_scope.

(** ** The patch *)

(** Whom a node names as neighbors: the root in its own record, the others in
    the records of the message. *)
Definition named_neighbors (agrs : gmap PublicKey AccessibleGossipRecord) (root_node : NodeRecord)
    (k : PublicKey) : option (gset PublicKey) :=
  if bool_decide (k = nr_public_key root_node) then Some (neighbors (inner root_node))
  else (fun a => neighbors (agr_inner a)) <$> agrs !! k.

(** [j] is reached from [k] in at most [d] hops. *)
Inductive within (agrs : gmap PublicKey AccessibleGossipRecord) (root_node : NodeRecord)
    : nat → PublicKey → PublicKey → Prop :=
| within_here d k : within agrs root_node d k k
| within_hop d k ns n j :
    named_neighbors agrs root_node k = Some ns → n ∈ ns → within agrs root_node d n j →
    within agrs root_node (S d) k j.

Section Patch.
Context (agrs : gmap PublicKey AccessibleGossipRecord) (root_node : NodeRecord).

Lemma patch_grows hops patch k :
  k ∉ patch → patch ⊆ compute_patch_recursive agrs root_node hops patch k.
Proof.
  revert patch k. induction hops as [|hops IH]; intros patch k Hk; simpl; [set_solver|].
  destruct (if bool_decide _ then _ else _) as [ns|]; [|set_solver].
  assert (patch ⊆ {[k]} ∪ patch) as Hsub by set_solver. revert Hsub.
  generalize ({[k]} ∪ patch) as acc. induction (btree_iter ns) as [|n l IHl]; intros acc Hacc; [done|].
  simpl. apply IHl. case_bool_decide; [done|]. etrans; [exact Hacc|]. by apply IH.
Qed.

Lemma patch_within hops patch k j :
  j ∈ compute_patch_recursive agrs root_node hops patch k →
  j ∈ patch ∨ within agrs root_node hops k j.
Proof.
  revert patch k. induction hops as [|hops IH]; intros patch k; simpl.
  { rewrite elem_of_union, elem_of_singleton. intros [->|]; [right; constructor|by left]. }
  assert (named_neighbors agrs root_node k =
    if bool_decide (k = nr_public_key root_node) then Some (neighbors (inner root_node))
    else (fun a => neighbors (agr_inner a)) <$> agrs !! k) as Hn by done.
  rewrite <- Hn. clear Hn.
  destruct (named_neighbors agrs root_node k) as [ns|] eqn:Hns; [|set_solver].
  assert (∀ n, n ∈ btree_iter ns → n ∈ ns) as Hin by (intros n; apply elem_of_btree_iter).
  revert Hin. cut (j ∈ {[k]} ∪ patch → j ∈ patch ∨ within agrs root_node (S hops) k j).
  2: { rewrite elem_of_union, elem_of_singleton. intros [->|]; [right; constructor|by left]. }
  generalize ({[k]} ∪ patch) as acc.
  induction (btree_iter ns) as [|n l IHl]; intros acc Hacc Hin; [done|]. simpl. apply IHl; [|set_solver].
  case_bool_decide; [done|]. intros [?|Hw]%IH; [by apply Hacc|].
  right. eapply within_hop; [done| |done]. set_solver.
Qed.
End Patch.

(** ** Pass *)

Lemma pass_on_stamps md system_now st agrs src res st' :
  pass_handle md system_now st agrs src = Ret (res, st') → res ≠ [] →
  ∃ a x, head agrs = Some a ∧ agr_node_addr_opt a = Some x ∧
    previous_pass_targets st' !! na_ip_addr x = Some system_now.
Proof.
  unfold pass_handle. intros (a & Ha & Hrun)%exec_bind_Ret Hres. apply expect_Ret in Ha.
  apply exec_bind_Ret in Hrun as (x & Hx & Hrun). apply expect_Ret in Hx. exists a, x.
  split; [done|]. split; [done|]. cbv zeta in Hrun.
  destruct (_ !! _); [destruct (_ <=? _)|case_bool_decide];
    try (injection Hrun as <- <-; done);
    apply exec_bind_Ret in Hrun as (g & _ & Hrun); injection Hrun as <- <-;
    simpl; by rewrite lookup_insert_eq.
Qed.

Lemma pass_suppressed md system_now st agrs src a x t :
  head agrs = Some a → agr_node_addr_opt a = Some x →
  previous_pass_targets st !! na_ip_addr x = Some t →
  system_now - t ≤ PASS_GOSSIP_EXPIRED_TIME →
  pass_handle md system_now st agrs src =
  Ret ([], try_send_connection_progress
             (mkState (st_db st) (<[na_ip_addr x := system_now]> (previous_pass_targets st)) (cpms st))
             (mkCpm (sock_ip src) PassLoopFound)).
Proof.
  intros Ha Hx Ht Hle. unfold pass_handle. rewrite Ha. cbn [exec_bind expect]. rewrite Hx.
  cbn [exec_bind expect]. cbv zeta. cbn [clone_addr node_addr_new na_ip_addr]. rewrite Ht.
  rewrite (proj2 (Z.leb_le _ _)); [done|]. unfold PASS_GOSSIP_EXPIRED_TIME in *. lia.
Qed.

Lemma pass_answered md system_now st agrs src a x t g :
  head agrs = Some a → agr_node_addr_opt a = Some x →
  previous_pass_targets st !! na_ip_addr x = Some t →
  PASS_GOSSIP_EXPIRED_TIME < system_now - t → make_debut (st_db st) = Ret g →
  pass_handle md system_now st agrs src =
  Ret ([Reply g (agr_key a) (clone_addr x)], try_send_connection_progress
         (mkState (st_db st) (<[na_ip_addr x := system_now]> (previous_pass_targets st)) (cpms st))
         (mkCpm (sock_ip src) (PassGossipReceived (na_ip_addr x)))).
Proof.
  intros Ha Hx Ht Hlt Hg. unfold pass_handle. rewrite Ha. cbn [exec_bind expect]. rewrite Hx.
  cbn [exec_bind expect]. cbv zeta. cbn [clone_addr node_addr_new na_ip_addr]. rewrite Ht.
  rewrite (proj2 (Z.leb_gt _ _)) by (unfold PASS_GOSSIP_EXPIRED_TIME in *; lia).
  cbn [try_send_connection_progress st_db]. rewrite Hg. done.
Qed.

(** ** The properties of the patch and of Pass *)

(** Standard Gossip only takes records of nodes at most [db_patch_size]
    hops away, counted over the neighbors the root and the records of the
    message name; the root itself is always in the patch. *)
Theorem patch_is_local agrs root_node size :
  nr_public_key root_node ∈ compute_patch agrs root_node size ∧
  ∀ k, k ∈ compute_patch agrs root_node size →
    within (agrs_by_key agrs) root_node (Z.to_nat size) (nr_public_key root_node) k.
Proof.
  unfold compute_patch. split.
  - destruct (Z.to_nat size) as [|n]; simpl; [set_solver|]. rewrite bool_decide_eq_true_2 by done.
    set (root_key := nr_public_key root_node).
    assert (root_key ∈ {[root_key]} ∪ (∅ : gset PublicKey)) as Hin by set_solver. revert Hin.
    generalize ({[root_key]} ∪ (∅ : gset PublicKey)) as acc.
    induction (btree_iter (neighbors (inner root_node))) as [|k l IH]; intros acc Hin; [done|].
    simpl. apply IH. case_bool_decide; [done|]. by eapply patch_grows.
  - intros k [Hk|Hk]%patch_within; [set_solver|done].
Qed.

(** ** Handling returns *)

Definition returns {A} (c : exec A) : Prop := ∃ a, c = Ret a.

Lemma returns_bind {A B} (c : exec A) (k : A → exec B) :
  returns c → (∀ a, c = Ret a → returns (k a)) → returns (exec_bind c k).
Proof. intros [a ->] Hk. by apply Hk. Qed.

Lemma returns_Ret {A} (a : A) : returns (Ret a).
Proof. by eexists. Qed.

Create HintDb returns.
#[export] Hint Resolve returns_Ret : returns.

(** Goes through a run: each part returns by the hints, each value is named. *)
Ltac returns_step x Hx := apply returns_bind; [eauto with returns|intros x Hx].

Lemma malefactor_returns k ip w c r :
  is_Some k ∨ is_Some ip → returns (malefactor_new k ip w c r).
Proof. intros [[x ->]|[x ->]]; unfold malefactor_new; [|destruct k]; by eexists. Qed.
#[export] Hint Extern 1 (returns (malefactor_new _ _ _ _ _)) =>
  apply malefactor_returns; eauto : returns.

Lemma exec_filter_returns {A} (p : A → exec bool) l :
  (∀ a, a ∈ l → returns (p a)) → ∃ l', exec_filter p l = Ret l' ∧ ∀ a, a ∈ l' → a ∈ l.
Proof.
  induction l as [|a l IH]; intros Hp; simpl; [by exists []|].
  destruct (Hp a) as [b ->]; [set_solver|]. destruct IH as (l' & -> & Hl'); [set_solver|].
  simpl. eexists. split; [done|]. destruct b; set_solver.
Qed.

Lemma exec_skip_while_returns {A} (p : A → exec bool) l :
  (∀ a, a ∈ l → returns (p a)) → ∃ l', exec_skip_while p l = Ret l' ∧ ∀ a, a ∈ l' → a ∈ l.
Proof.
  induction l as [|a l IH]; intros Hp; simpl; [by exists []|].
  destruct (Hp a) as [b ->]; [set_solver|]. simpl. destruct b; [|by eexists].
  destruct IH as (l' & -> & Hl'); [set_solver|]. eexists. split; [done|]. set_solver.
Qed.

Lemma root_returns db : db_inv db → returns (root db).
Proof. intros Hi. destruct (inv_root _ Hi) as (r & ? & _). by exists r. Qed.
#[export] Hint Resolve root_returns : returns.

Lemma root_key db r : db_inv db → root db = Ret r → nr_public_key r = this_node db.
Proof. intros Hi Hr. apply root_Ret in Hr. by apply (di_keys _ Hi _ _ Hr). Qed.

Lemma root_known db : db_inv db → this_node db ∈ keys db.
Proof. intros Hi. destruct (di_root _ Hi) as (r & Hr & _). apply known_iff. by exists r. Qed.

Lemma builder_returns db k reveal :
  k ∈ keys db → returns (builder_node (builder_new db) k reveal).
Proof.
  intros [n Hn]%known_iff. unfold builder_node, node_by_key. simpl.
  rewrite bool_decide_eq_false_2 by set_solver. rewrite Hn. by eexists.
Qed.

Lemma make_debut_returns db : db_inv db → returns (make_debut db).
Proof.
  intros Hi. unfold make_debut. returns_step r Hr. rewrite (root_key _ _ Hi Hr).
  apply returns_bind; [by apply builder_returns, root_known|]. eauto with returns.
Qed.

Lemma make_pass_returns db k : k ∈ keys db → returns (make_pass_gossip db k).
Proof.
  intros Hk. unfold make_pass_gossip. apply returns_bind; [by apply builder_returns|].
  eauto with returns.
Qed.

Section Returns.
Context `{I : InnerCbor} `{H : HashOrder} (finder : CountryCodeFinder) (cryptde : CryptDE).
Context (limits : RatePackLimits) (md : NeighborhoodMetadata) (now system_now : Z).

(** What the surroundings must do: records can be serialized, data signed,
    addresses located, and the user's priorities count from one. *)
Record surroundings_ok : Prop := {
  so_cbor i : ∃ bs, cbor_inner i = Ok bs;
  so_sign data : ∃ sig, sign cryptde data = Ok sig;
  so_country ip : returns (find_country finder ip);
  so_preferences p n : user_exit_preferences_opt md = Some p →
    returns (assign_nodes_country_undesirability p n);
}.
Context (Hso : surroundings_ok).

(** What the database must be like. *)
Record ready (db : NeighborhoodDatabase) : Prop := {
  rd_inv : db_inv db;
  rd_version r : by_public_key db !! this_node db = Some r → in_u 32 (version (inner r) + 1);
  rd_addr r : by_public_key db !! this_node db = Some r → accepts_connections (inner r) = true →
    is_Some (nr_addr r);
}.

Lemma signed_gossip_returns i : returns (signed_gossip_of i cryptde).
Proof.
  unfold signed_gossip_of. destruct (so_cbor Hso i) as [bs ->]. simpl.
  destruct (so_sign Hso bs) as [sig ->]. simpl. eauto with returns.
Qed.

Lemma new_record_returns a : returns (new_record finder md now a).
Proof.
  unfold new_record, record_of_agr. apply returns_bind.
  - apply returns_bind; [|eauto with returns]. unfold get_node_location.
    destruct (na_ip_addr <$> _) as [ip|]; [|eauto with returns].
    apply returns_bind; [apply (so_country Hso)|eauto with returns].
  - intros n _. destruct (user_exit_preferences_opt md) eqn:Hp; [|eauto with returns].
    by apply (so_preferences Hso).
Qed.

Lemma renew_root_returns db r :
  by_public_key db !! this_node db = Some r → in_u 32 (version (inner r) + 1) →
  returns (renew_root cryptde db).
Proof.
  intros Hr Hv. unfold renew_root, map_root. apply root_Ret in Hr. rewrite Hr. cbn [exec_bind].
  apply returns_bind; [|eauto with returns]. unfold increment_version, checked_add.
  rewrite decide_True by done. cbn [exec_bind expect]. unfold regenerate_signed_gossip.
  apply returns_bind; [apply signed_gossip_returns|]. intros [] _. eauto with returns.
Qed.

Lemma ordered_returns db ks ex :
  ∃ l, keys_ordered_by_degree_excluding db ks ex = Ret l ∧ ∀ k, k ∈ l → k ∈ ks ∖ ex.
Proof.
  unfold keys_ordered_by_degree_excluding. cbv zeta.
  assert (∀ l, ∃ ds, exec_mapM (fun k => let* d := gossip_target_degree db k in Ret (d, k)) l = Ret ds ∧
    map snd ds = l) as Hall.
  { induction l as [|k l (ds & IH & Hds)]; [by exists []|]. simpl.
    destruct (gossip_target_degree_returns db k) as [d ->]. simpl. rewrite IH. simpl.
    eexists. split; [done|]. simpl. by f_equal. }
  destruct (Hall (filter (fun k => k ∉ ex) (hash_iter ks))) as (ds & -> & Hds). simpl.
  eexists. split; [done|]. intros k Hk.
  assert (k ∈ map snd ds) as Hk'.
  { apply list_elem_of_fmap in Hk as (p & -> & Hp). rewrite merge_sort_Permutation in Hp.
    apply list_elem_of_fmap. by exists p. }
  rewrite Hds in Hk'. apply list_elem_of_filter in Hk' as [? Hk'].
  apply elem_of_hash_iter in Hk'. set_solver.
Qed.

Lemma root_neighbors_known db r k :
  db_inv db → root db = Ret r → k ∈ neighbors (inner r) → k ∈ keys db ∧ k ≠ this_node db.
Proof.
  intros Hi Hr Hk. destruct (inv_root _ Hi) as (r' & Hr' & _ & Hn). rewrite Hr in Hr'.
  injection Hr' as <-. set_solver.
Qed.

Lemma accepts_and_routes_returns db k : k ∈ keys db → returns (accepts_and_routes db k).
Proof.
  intros [n Hn]%known_iff. unfold accepts_and_routes, node_by_key. rewrite Hn. by eexists.
Qed.

Lemma full_neighbor_known db r k :
  db_inv db → root db = Ret r → k ∈ full_neighbor_keys r db → k ∈ keys db ∧ k ≠ this_node db.
Proof.
  intros Hi Hr [Hk _]%elem_of_full_neighbor_keys. by eapply root_neighbors_known.
Qed.

Lemma find_more_returns db a :
  db_inv db → ∃ o, find_more_appropriate_neighbor db a = Ret o ∧ ∀ k, o = Some k → k ∈ keys db.
Proof.
  intros Hi. unfold find_more_appropriate_neighbor, root_full_neighbors_ordered_by_degree_excluding.
  destruct (root_returns _ Hi) as [r Hr]. rewrite Hr. cbn [exec_bind].
  destruct (ordered_returns db (full_neighbor_keys r db) (node_and_neighbor_keys a)) as (l & -> & Hl).
  cbn [exec_bind].
  destruct (exec_filter_returns (accepts_and_routes db) l) as (l1 & -> & Hl1).
  { intros k Hk%Hl. apply accepts_and_routes_returns. eapply full_neighbor_known; set_solver. }
  cbn [exec_bind].
  destruct (exec_skip_while_returns (fun k => let* d := gossip_target_degree db k in Ret (d <=? 2)%nat) l1)
    as (l2 & -> & Hl2).
  { intros k _. destruct (gossip_target_degree_returns db k) as [d ->]. by eexists. }
  cbn [exec_bind]. destruct l2 as [|k l2]; simpl; [by exists None|].
  destruct (gossip_target_degree_returns db k) as [d ->].
  destruct (gossip_target_degree_returns db (nr_public_key r)) as [d' ->]. simpl.
  eexists. split; [done|]. intros j. destruct (d' <=? d)%nat; [done|]. intros [= <-].
  eapply full_neighbor_known; [done|done|]. specialize (Hl k). specialize (Hl1 k). set_solver.
Qed.

Lemma least_connected_returns db ks a :
  ∃ o, find_least_connected_neighbor_excluding db ks a = Ret o ∧ ∀ k, o = Some k → k ∈ ks.
Proof.
  unfold find_least_connected_neighbor_excluding.
  destruct (ordered_returns db ks (node_and_neighbor_keys a)) as (l & -> & Hl). simpl.
  eexists. split; [done|]. intros k Hk. destruct l as [|x l]; [done|]. injection Hk as ->.
  set_solver.
Qed.

(** *** Debut *)

Lemma counts_us_returns a db : db_inv db → returns (counts_us_among_neighbors a db).
Proof. intros Hi. unfold counts_us_among_neighbors. returns_step r Hr. eauto with returns. Qed.

Lemma debut_triple_returns db a : db_inv db → returns (make_debut_triple db a).
Proof.
  intros Hi. unfold make_debut_triple. destruct (agr_node_addr_opt a); [|eauto with returns].
  destruct (na_ports _); [eauto with returns|].
  apply returns_bind; [by apply make_debut_returns|eauto with returns].
Qed.

Lemma introduction_attempt_returns db a src :
  db_inv db → returns (try_to_make_introduction db a src).
Proof.
  intros Hi. unfold try_to_make_introduction, find_least_connected_full_neighbor_excluding.
  destruct (root_returns _ Hi) as [r Hr]. rewrite Hr. cbn [exec_bind].
  destruct (exec_filter_returns (accepts_and_routes db) (hash_iter (full_neighbor_keys r db)))
    as (l & -> & Hl).
  { intros k Hk%elem_of_hash_iter. apply accepts_and_routes_returns. by eapply full_neighbor_known. }
  cbn [exec_bind].
  destruct (least_connected_returns db (list_to_set l) a) as (o & -> & Ho). cbn [exec_bind].
  destruct o as [k|]; [|eauto with returns]. specialize (Ho k eq_refl).
  apply elem_of_list_to_set, Hl, elem_of_hash_iter in Ho.
  destruct (full_neighbor_known _ _ _ Hi Hr Ho) as [Hk Hne].
  rewrite (root_key _ _ Hi Hr). pose proof (root_known _ Hi) as [n Hn]%known_iff.
  apply known_iff in Hk as [m Hm]. pose proof (di_keys _ Hi _ _ Hn) as Hnk. simpl in Hnk.
  rewrite (builder_node_Ret db (builder_new db) _ n) by (try done; simpl; set_solver).
  cbn [exec_bind]. rewrite (builder_node_Ret db _ _ m); [eauto with returns|done|done|].
  simpl. rewrite Hnk. set_solver.
Qed.

Lemma second_node_returns db k :
  db_inv db → k ≠ this_node db → returns (create_second_node_gossip_response cryptde db k).
Proof.
  intros Hi Hne. unfold create_second_node_gossip_response. returns_step r Hr.
  cbv zeta. unfold add_half_neighbor_key. simpl.
  pose proof (root_key _ _ Hi Hr) as Hk. unfold nr_public_key in *. simpl.
  rewrite bool_decide_eq_false_2 by congruence. cbn [exec_bind expect_ok].
  apply returns_bind; [|eauto with returns]. unfold gnr_of_inner.
  apply returns_bind; [apply signed_gossip_returns|]. intros [] _. eauto with returns.
Qed.

Lemma answer_debut_returns db a src :
  db_inv db → agr_key a ≠ this_node db → is_Some (agr_node_addr_opt a) →
  returns (answer_debut cryptde db a src).
Proof.
  intros Hi Hne [x Hx]. unfold answer_debut. destruct (should_not_make_another_introduction _ _).
  - apply returns_bind; [by apply counts_us_returns|]. intros [] _; [eauto with returns|].
    apply returns_bind; [by apply debut_triple_returns|]. intros [[[? ?] ?]|] _; eauto with returns.
  - apply returns_bind; [by apply introduction_attempt_returns|].
    intros [[[? ?] ?]|] _; [eauto with returns|].
    apply returns_bind; [by apply counts_us_returns|]. intros [] _; [eauto with returns|].
    apply returns_bind; [by apply second_node_returns|]. intros g _. rewrite Hx. simpl.
    eauto with returns.
Qed.

(** A new neighbor, and the root renewed. *)
Lemma befriend_returns db k r :
  db_inv db → k ∈ keys db → k ≠ this_node db → by_public_key db !! this_node db = Some r →
  in_u 32 (version (inner r) + 1) →
  ∃ b db1, add_half_neighbor db k now = Ok (b, db1) ∧ (b = true ↔ k ∉ neighbors (inner r)) ∧
    ∃ db2, (if b then renew_root cryptde db1 else Ret db1) = Ret db2 ∧ db_inv db2 ∧
      this_node db2 = this_node db.
Proof.
  intros Hi Hk Hne Hr Hv.
  destruct (add_half_neighbor_known db k now Hi Hk Hne) as (b & db1 & Hadd & Hi1 & Hb).
  exists b, db1. split; [done|]. split.
  { rewrite Hb. unfold db_has_half_neighbor, node_by_key, has_half_neighbor. rewrite Hr.
    by rewrite bool_decide_eq_true. }
  destruct (add_half_neighbor_Ok _ _ _ _ _ Hi Hadd) as [[-> ->]|(-> & _ & r' & Hr' & Hdb1)].
  { by exists db. }
  rewrite Hr in Hr'. injection Hr' as <-.
  destruct (renew_root_returns db1 (mkRecord (with_neighbors ({[k]} ∪ neighbors (inner r)) (inner r))
         (with_last_update now (metadata r)) (signed_gossip r) (signature r))) as [db2 Hren].
  { rewrite Hdb1. simpl. by rewrite lookup_insert_eq. }
  { done. }
  exists db2. split; [done|]. assert (this_node db1 = this_node db) as <- by by rewrite Hdb1.
  split.
  - eapply inv_map_root; [exact Hi1|exact Hren|]. intros x x' (y & [_ ->]%increment_version_Ret & Hy)%exec_bind_Ret.
    apply regenerate_Ret in Hy as (Hin & Hmd & _). unfold nr_public_key, nr_addr.
    by rewrite Hin, Hmd.
  - unfold renew_root, map_root in Hren. apply exec_bind_Ret in Hren as (? & _ & Hren).
    apply exec_bind_Ret in Hren as (? & _ & Hren). by injection Hren as <-.
Qed.

(** A stranger with ports, or without an address, can be added. *)
Lemma add_stranger_returns db n :
  ready db → nr_public_key n ∉ keys db → (∀ x, nr_addr n = Some x → na_ports x ≠ []) →
  ∃ db1, add_node db n = Ok (nr_public_key n, db1) ∧ db_inv db1 ∧ this_node db1 = this_node db ∧
    keys db1 = {[nr_public_key n]} ∪ keys db ∧
    by_public_key db1 !! this_node db = by_public_key db !! this_node db.
Proof.
  intros [Hi _ _] Hf Hp. exists (add_arbitrary_node db n). split; [by apply add_node_Ok|].
  split; [by apply inv_add_arbitrary|]. split; [done|]. split.
  - unfold keys. simpl. by rewrite dom_insert_L.
  - simpl. apply lookup_insert_ne. intros Heq. apply Hf. rewrite Heq. by apply root_known.
Qed.

Lemma new_record_addr a n :
  new_record finder md now a = Ret n → inner n = agr_inner a ∧ nr_addr n = agr_node_addr_opt a.
Proof.
  unfold new_record. intros (m & Hm & Hn)%exec_bind_Ret.
  assert (inner m = agr_inner a ∧ nr_addr m = agr_node_addr_opt a) as [Hin Ha].
  { unfold record_of_agr in Hm. apply exec_bind_Ret in Hm as (l & _ & Hm). by injection Hm as <-. }
  destruct (user_exit_preferences_opt md) as [p|]; [|by injection Hn as <-].
  apply assign_Ret in Hn as [u ->]. done.
Qed.

Lemma dedup_nonempty l : l ≠ [] → dedup l ≠ [].
Proof.
  induction l as [|a [|b l] IH]; [done|done|]. intros _. cbn [dedup].
  destruct (a =? b); [by apply IH|done].
Qed.

Lemma clone_addr_ports x : na_ports x ≠ [] → na_ports (clone_addr x) ≠ [].
Proof.
  intros Hp. simpl. apply dedup_nonempty. intros Hm. apply Hp.
  apply Permutation_nil_r. by rewrite <- Hm, merge_sort_Permutation.
Qed.

Lemma try_accept_debut_returns db a x src :
  ready db → agr_key a ∉ keys db → agr_node_addr_opt a = Some x → na_ports x ≠ [] →
  returns (try_accept_debut finder cryptde md now db a src).
Proof.
  intros Hrd Hf Hx Hp. pose proof (rd_inv _ Hrd) as Hi. unfold try_accept_debut.
  destruct (inv_root _ Hi) as (r & Hr & Hrk & Hrn). rewrite Hr. cbn [exec_bind].
  destruct (gossip_target_degree_returns db (nr_public_key r)) as [d ->]. cbn [exec_bind].
  destruct (_ <=? _)%nat; [eauto with returns|].
  destruct (new_record_returns (clone_agr a)) as [n Hn]. rewrite Hn. cbn [exec_bind].
  apply new_record_addr in Hn as [Hin Ha]. simpl in Hin, Ha. rewrite Hx in Ha. simpl in Ha.
  assert (nr_public_key n = agr_key a) as Hnk by (unfold nr_public_key; by rewrite Hin).
  destruct (add_stranger_returns db n) as (db1 & Hadd & Hi1 & Ht1 & Hk1 & Hr1); [done|by rewrite Hnk| |].
  { rewrite Ha. intros ? [= <-]. by apply clone_addr_ports. }
  rewrite Hadd. cbn [exec_bind expect_ok]. rewrite Hnk in *. apply root_Ret in Hr.
  assert (agr_key a ≠ this_node db) as Hne.
  { intros Heq. apply Hf. rewrite Heq. by apply root_known. }
  destruct (befriend_returns db1 (agr_key a) r) as (b & db2 & Hhalf & Hb & db3 & Hren & Hi3 & Ht3).
  { done. } { set_solver. } { congruence. } { by rewrite Ht1, Hr1. } { by apply (rd_version _ Hrd). }
  rewrite Hhalf. assert (b = true) as ->. { apply Hb. set_solver. }
  rewrite Hren. cbn [exec_bind]. apply returns_bind; [|eauto with returns].
  apply answer_debut_returns; [done|congruence|by exists x].
Qed.

Lemma debut_handle_returns st agrs src :
  ready (st_db st) → debut_qualifies (st_db st) agrs src = Ret Matched →
  returns (debut_handle finder cryptde limits md now st agrs src).
Proof.
  intros Hrd Hq. pose proof (rd_inv _ Hrd) as Hi. unfold debut_qualifies in Hq.
  destruct agrs as [|a [|? ?]]; try done. unfold debut_handle. cbn [head exec_bind expect]. cbv zeta.
  case_bool_decide as Hold; [done|]. cbv zeta in Hq.
  set (sa := match agr_node_addr_opt a with Some _ => a | None => _ end).
  assert (agr_key sa = agr_key a) as Hsk by (subst sa; by destruct (agr_node_addr_opt a)).
  assert (∃ x, agr_node_addr_opt sa = Some x ∧ na_ports x ≠ []) as (x & Hx & Hp).
  { subst sa. destruct (agr_node_addr_opt a) as [x|] eqn:Hx; [|by eexists].
    destruct (accepts_connections (agr_inner a)); [|done]. exists x. split; [done|].
    by destruct (na_ports x). }
  clearbody sa. rewrite Hx. cbn [expect exec_bind].
  assert (agr_key sa ∉ keys (st_db st)) as Hf.
  { rewrite Hsk. intros [n Hn]%known_iff. apply Hold. unfold node_by_key. by rewrite Hn. }
  destruct (validate_incoming_agr _ _ _); [|returns_step m Hm; eauto with returns].
  destruct (find_more_returns (st_db st) sa Hi) as (o & -> & Ho). cbn [exec_bind].
  destruct o as [k|].
  { apply returns_bind; [by apply make_pass_returns, Ho|eauto with returns]. }
  apply returns_bind; [by eapply try_accept_debut_returns|].
  intros [[? ?]|] _; [eauto with returns|]. unfold find_least_connected_half_neighbor_excluding.
  destruct (root_returns _ Hi) as [r Hr]. rewrite Hr. cbn [exec_bind].
  destruct (least_connected_returns (st_db st) (half_neighbor_keys r) sa) as (o & -> & Ho').
  cbn [exec_bind]. destruct o as [k|]; [|eauto with returns].
  apply returns_bind; [|eauto with returns]. apply make_pass_returns.
  eapply root_neighbors_known; [done|done|by apply Ho'].
Qed.

(** *** Pass and Introduction *)

Lemma pass_handle_returns st agrs src :
  ready (st_db st) → pass_qualifies (st_db st) agrs src = Ret Matched →
  returns (pass_handle md system_now st agrs src).
Proof.
  intros Hrd Hq. pose proof (rd_inv _ Hrd) as Hi. unfold pass_qualifies in Hq.
  destruct agrs as [|a [|? ?]]; try done. unfold pass_handle. cbn [head exec_bind expect]. cbv zeta.
  destruct (agr_node_addr_opt a) as [x|]; [|done]. clear Hq. cbn [exec_bind expect].
  assert (returns (make_debut (st_db st))) by by apply make_debut_returns.
  destruct (_ !! _); [destruct (_ <=? _)|case_bool_decide]; eauto with returns;
    (apply returns_bind; [done|eauto with returns]).
Qed.

Lemma introduction_matched db agrs src r :
  root db = Ret r → introduction_qualifies db agrs src = Ret Matched →
  ∃ i1 i2 x y, identify_players agrs src = Ret (Ok (i1, i2)) ∧ agr_key i1 ≠ nr_public_key r ∧
    agr_node_addr_opt i1 = Some x ∧ na_ports x ≠ [] ∧
    agr_node_addr_opt i2 = Some y ∧ na_ports y ≠ [].
Proof.
  intros Hr Hq. unfold introduction_qualifies in Hq. destruct (negb _); [done|].
  apply exec_bind_Ret in Hq as (pl & Hpl & Hq). destruct pl as [[i1 i2]|e].
  2: { injection Hq as ->. unfold identify_players in Hpl.
       destruct agrs as [|a [|b ?]]; try done. unfold order_is_introducee_introducer in Hpl.
       destruct (agr_ip a), (agr_ip b); try done.
       repeat (case_bool_decide; [done|]). done. }
  rewrite Hr in Hq. cbn [exec_bind] in Hq.
  apply exec_bind_Ret in Hq as (q1 & Hv & Hq). unfold verify_introducer in Hv.
  case_bool_decide as Hk; [injection Hv as <-; done|].
  apply exec_bind_Ret in Hv as (x & Hx & Hv). apply expect_Ret in Hx.
  assert (na_ports x ≠ []) as Hp. { intros Hp. rewrite Hp in Hv. by injection Hv as <-. }
  destruct q1 as [q|].
  { exfalso. destruct (na_ports x); [done|]. destruct (nr_addr r); [|done].
    case_bool_decide; [|done]. injection Hv as <-. done. }
  apply exec_bind_Ret in Hq as (q2 & Hv2 & Hq). unfold verify_introducee in Hv2.
  destruct (agr_node_addr_opt i2) as [y|] eqn:Hy; [|by injection Hv2 as <-].
  assert (na_ports y ≠ []) as Hp2. { intros Hp2. rewrite Hp2 in Hv2. by injection Hv2 as <-. }
  by exists i1, i2, x, y.
Qed.

Lemma update_database_returns db a x :
  ready db → agr_key a ≠ this_node db → agr_node_addr_opt a = Some x → na_ports x ≠ [] →
  ∃ res db', update_database finder cryptde md now db a = Ret (res, db') ∧ db_inv db'.
Proof.
  intros Hrd Hne Hx Hp. pose proof (rd_inv _ Hrd) as Hi. unfold update_database. cbv zeta.
  destruct (inv_root _ Hi) as (r & Hr & Hrk & Hrn). apply root_Ret in Hr. unfold node_by_key.
  destruct (by_public_key db !! agr_key a) as [n|] eqn:Hn.
  - destruct (_ <? _); [|by eexists _, _].
    destruct (update n a now) as [res n'] eqn:Hu. apply update_spec in Hu as (Hpk & _ & Hu).
    assert (db_inv (with_records db (<[agr_key a := n']> (by_public_key db)))) as Hi1.
    { eapply inv_set_record; try done.
      - rewrite Hpk. by apply (di_keys _ Hi _ _ Hn).
      - destruct res; [by destruct Hu as (_ & _ & _ & ?)|by subst]. }
    set (db1 := with_records db _) in *. destruct res; [|by eexists _, _].
    destruct (befriend_returns db1 (agr_key a) r) as (b & db2 & Hhalf & _ & db3 & Hren & Hi3 & _).
    { done. } { apply known_iff. exists n'. simpl. by rewrite lookup_insert_eq. } { done. }
    { simpl. by rewrite lookup_insert_ne. } { by apply (rd_version _ Hrd). }
    rewrite Hhalf. cbn [exec_bind expect_ok]. rewrite Hren. by eexists _, _.
  - destruct (new_record_returns a) as [n' Hn']. rewrite Hn'. cbn [exec_bind].
    apply new_record_addr in Hn' as [Hin Ha]. rewrite Hx in Ha.
    assert (nr_public_key n' = agr_key a) as Hnk by (unfold nr_public_key; by rewrite Hin).
    destruct (add_stranger_returns db n') as (db1 & Hadd & Hi1 & Ht1 & Hk1 & Hr1); [done| | |].
    { rewrite Hnk. rewrite known_iff. rewrite Hn. by intros [? ?]. }
    { rewrite Ha. by intros ? [= <-]. }
    rewrite Hadd. cbn [exec_bind expect_ok]. rewrite Hnk in *.
    destruct (befriend_returns db1 (agr_key a) r) as (b & db2 & Hhalf & _ & db3 & Hren & Hi3 & _).
    { done. } { set_solver. } { congruence. } { by rewrite Ht1, Hr1. } { by apply (rd_version _ Hrd). }
    rewrite Hhalf. cbn [exec_bind expect_ok]. rewrite Hren. by eexists _, _.
Qed.

Lemma introduction_handle_returns st agrs src :
  ready (st_db st) → introduction_qualifies (st_db st) agrs src = Ret Matched →
  returns (introduction_handle finder cryptde limits md now st agrs src).
Proof.
  intros Hrd Hq. pose proof (rd_inv _ Hrd) as Hi. unfold introduction_handle.
  destruct (root_returns _ Hi) as [r Hr]. rewrite Hr. cbn [exec_bind].
  destruct (introduction_matched _ _ _ _ Hr Hq) as (i1 & i2 & x & y & Hpl & Hk & Hx & Hpx & Hy & Hpy).
  destruct (_ <=? _)%nat; [eauto with returns|]. rewrite Hpl. cbn [exec_bind expect_ok]. cbv zeta.
  assert (∃ ban upd db, update_introducer_if_appropriate finder cryptde md now (st_db st) i1
      (result_err (validate_incoming_agr limits i1 "Introducer")) = Ret (ban, upd, db) ∧ db_inv db)
    as (ban & upd & db & -> & Hi').
  { unfold update_introducer_if_appropriate. destruct (result_err _); [by eexists _, _, _|].
    destruct (update_database_returns (st_db st) (clone_agr i1) (clone_addr x)) as (res & db' & -> & ?).
    { done. } { simpl. by rewrite <- (root_key _ _ Hi Hr). } { simpl. by rewrite Hx. }
    { by apply clone_addr_ports. }
    cbn [exec_bind]. destruct res; by eexists _, _, _. }
  cbn [exec_bind].
  assert (∀ i z o, agr_node_addr_opt i = Some z → returns (ban_if i o)) as Hban.
  { intros i z [m|] Hz; unfold ban_if, make_ban_result; [|eauto with returns]. rewrite Hz.
    cbn [exec_bind expect]. by eexists. }
  apply returns_bind; [by eapply Hban|]. intros b1 _.
  apply returns_bind; [by eapply Hban|]. intros b2 _.
  destruct ban; [eauto with returns|]. destruct (result_err _); [eauto with returns|].
  unfold make_debut_triple. rewrite Hy. destruct (na_ports y) eqn:Hpy'; [done|].
  destruct (make_debut_returns _ Hi') as [g ->]. cbn [exec_bind expect_ok]. rewrite Hx.
  cbn [exec_bind expect]. eauto with returns.
Qed.

(** *** Standard Gossip *)

Lemma rate_violators_return agrs : returns (extract_rate_violators limits agrs).
Proof.
  induction agrs as [|a agrs [[v b] IH]]; simpl; [eauto with returns|]. rewrite IH.
  destruct (validate_incoming_agr _ _ _); simpl; eauto with returns.
Qed.

Lemma liars_return db nbrs sa ip agrs : returns (extract_liars db nbrs sa ip agrs).
Proof.
  induction agrs as [|a agrs [[v b] IH]]; simpl; [eauto with returns|]. rewrite IH.
  case_bool_decide; [|destruct (reveals_unknown_address _ _ _)]; simpl; eauto with returns.
Qed.

Lemma add_new_nodes_return db agrs :
  ready db → NoDup (map (fun a => agr_key a) agrs) →
  Forall (fun a => (agr_key a ∉ keys db) ∧ ∀ x, agr_node_addr_opt a = Some x → na_ports x ≠ []) agrs →
  ∃ db', add_new_nodes finder md now db agrs = Ret db' ∧ ready db' ∧ keys db ⊆ keys db' ∧
    this_node db' = this_node db.
Proof.
  revert db. induction agrs as [|a agrs IH]; intros db Hrd Hnd Hall; simpl; [by exists db|].
  apply Forall_cons in Hall as [[Hf Hp] Hall]. apply NoDup_cons in Hnd as [Hna Hnd].
  destruct (new_record_returns a) as [n Hn]. rewrite Hn. cbn [exec_bind].
  apply new_record_addr in Hn as [Hin Ha].
  assert (nr_public_key n = agr_key a) as Hnk by (unfold nr_public_key; by rewrite Hin).
  destruct (add_stranger_returns db n) as (db1 & Hadd & Hi1 & Ht1 & Hk1 & Hr1).
  { done. } { by rewrite Hnk. } { by rewrite Ha. }
  rewrite Hadd. cbn [exec_bind expect_ok]. rewrite Hnk in *.
  destruct (IH db1) as (db' & Hdb' & Hrd' & Hsub & Ht').
  - split; [done|..]; rewrite Ht1, Hr1; apply Hrd.
  - done.
  - apply Forall_forall. rewrite Forall_forall in Hall. intros b Hb. destruct (Hall b Hb) as [? ?].
    split; [|done]. rewrite Hk1. assert (agr_key b ≠ agr_key a); [|set_solver].
    intros Heq. apply Hna. rewrite <- Heq. apply list_elem_of_fmap. by exists b.
  - exists db'. split; [done|]. split; [done|]. split; [set_solver|congruence].
Qed.

Lemma update_obsolete_return db agrs :
  ready db → Forall (fun a => agr_key a ∈ keys db ∧ agr_key a ≠ this_node db) agrs →
  ∃ db', update_obsolete_nodes now db agrs = Ret db' ∧ ready db'.
Proof.
  revert db. induction agrs as [|a agrs IH]; intros db Hrd Hall; simpl; [by exists db|].
  apply Forall_cons in Hall as [[[n Hn]%known_iff Hne] Hall].
  unfold update_database_record, node_by_key. rewrite Hn. cbn [exec_bind expect].
  destruct (update n a now) as [res n'] eqn:Hu. apply update_spec in Hu as (Hpk & _ & Hu).
  cbn [exec_bind]. pose proof (rd_inv _ Hrd) as Hi. apply IH.
  - split; simpl; [|rewrite lookup_insert_ne by done; apply Hrd..].
    eapply inv_set_record; try done.
    + rewrite Hpk. by apply (di_keys _ Hi _ _ Hn).
    + destruct res; [by destruct Hu as (_ & _ & _ & ?)|by subst].
  - eapply Forall_impl; [exact Hall|]. intros b [Hk ?]. split; [|done].
    apply known_iff. apply known_iff in Hk as [m Hm]. simpl.
    destruct (decide (agr_key a = agr_key b)) as [Heq|].
    + rewrite Heq, lookup_insert_eq. by eexists.
    + rewrite lookup_insert_ne by done. by eexists.
Qed.

Lemma add_src_returns db src :
  ready db → ∃ b db', add_src_node_as_half_neighbor cryptde now db src = Ret (b, db') ∧ db_inv db'.
Proof.
  intros Hrd. pose proof (rd_inv _ Hrd) as Hi. unfold add_src_node_as_half_neighbor.
  destruct (node_by_ip db (sock_ip src)) as [n|] eqn:Hn; [|by eexists _, _].
  destruct (inv_root _ Hi) as (r & Hr & _). rewrite Hr. cbn [exec_bind].
  destruct (_ <=? _)%nat; [by eexists _, _|]. apply root_Ret in Hr.
  apply node_by_ip_key in Hn as [Hn _]; [|done].
  destruct (decide (nr_public_key n = this_node db)) as [Heq|Hne].
  - rewrite Heq. destruct (add_half_neighbor db (this_node db) now) as [[[] db1]|] eqn:Hadd;
      [|by eexists _, _..].
    destruct (add_half_neighbor_Ok _ _ _ _ _ Hi Hadd) as [[? _]|(_ & Hk & _)]; set_solver.
  - destruct (befriend_returns db (nr_public_key n) r) as (b & db2 & -> & _ & db3 & Hren & Hi3 & _).
    { done. } { apply known_iff. by eexists. } { done. } { done. } { by apply (rd_version _ Hrd). }
    destruct b; [rewrite Hren; by eexists _, _|by eexists _, _].
Qed.

Lemma check_full_returns db ip : db_inv db → returns (check_full_neighbor db ip).
Proof.
  intros Hi. unfold check_full_neighbor. destruct (node_by_ip db ip); [|eauto with returns].
  returns_step r Hr. eauto with returns.
Qed.

(** Records one could do without: two of one node, an address without ports. *)
Definition agrs_ok (agrs : list AccessibleGossipRecord) : Prop :=
  NoDup (map (fun a => agr_key a) agrs) ∧
  Forall (fun a => ∀ x, agr_node_addr_opt a = Some x → na_ports x ≠ []) agrs.

Lemma NoDup_map_sublist {A B} (f : A → B) l l' :
  l' `sublist_of` l → NoDup (map f l) → NoDup (map f l').
Proof. intros Hs Hn. eapply sublist_NoDup; [exact Hn|]. by apply (fmap_sublist f). Qed.

Lemma filter_sublist {A} (P : A → Prop) `{∀ x, Decision (P x)} l : filter P l `sublist_of` l.
Proof.
  induction l as [|a l IH]; [done|]. rewrite filter_cons. case_decide; by constructor.
Qed.

Lemma rate_violators_sublist agrs valid bans :
  extract_rate_violators limits agrs = Ret (valid, bans) → valid `sublist_of` agrs.
Proof.
  revert valid bans. induction agrs as [|a agrs IH]; intros valid bans; simpl; [by intros [= <- <-]|].
  destruct (validate_incoming_agr _ _ _); simpl;
    intros ([v b] & Hrec & Heq)%exec_bind_Ret; injection Heq as <- <-; constructor; by eapply IH.
Qed.

Lemma liars_sublist db nbrs sa ip agrs valid bans :
  extract_liars db nbrs sa ip agrs = Ret (valid, bans) → valid `sublist_of` agrs.
Proof.
  revert valid bans. induction agrs as [|a agrs IH]; intros valid bans; simpl; [by intros [= <- <-]|].
  case_bool_decide; [|destruct (reveals_unknown_address _ _ _)]; simpl;
    intros ([v b] & Hrec & Heq)%exec_bind_Ret; injection Heq as <- <-; constructor; by eapply IH.
Qed.

Lemma malefactors_return agrs db sa src :
  db_inv db → ∃ valid bans, extract_malefactors limits agrs db sa src = Ret (valid, bans) ∧
    valid `sublist_of` agrs ∧ ∀ a, a ∈ valid → agr_key a ≠ this_node db.
Proof.
  intros Hi. destruct (root_returns _ Hi) as [r Hr].
  destruct (extract_malefactors limits agrs db sa src) as [[v b]|] eqn:He.
  - exists v, b. split; [done|]. split.
    + unfold extract_malefactors in He. apply exec_bind_Ret in He as ([v1 b1] & H1 & He).
      rewrite Hr in He. cbn [exec_bind] in He.
      apply exec_bind_Ret in He as ([v2 b2] & H2 & He). injection He as <- <-.
      etrans; [by eapply liars_sublist|by eapply rate_violators_sublist].
    + intros a Ha. by destruct (malefactors_out _ _ _ _ _ _ _ _ _ Hr He a Ha) as (_ & ? & _).
  - exfalso. unfold extract_malefactors in He. destruct (rate_violators_return agrs) as [[v1 b1] E1].
    rewrite E1, Hr in He. cbn [exec_bind] in He.
    destruct (liars_return db (neighbors (inner r)) sa (sock_ip src) v1) as [[v2 b2] E2].
    by rewrite E2 in He.
Qed.

Lemma standard_handle_returns st agrs src :
  ready (st_db st) → agrs_ok agrs →
  returns (standard_handle finder cryptde limits md now st agrs src).
Proof.
  intros Hrd [Hnd Hports]. pose proof (rd_inv _ Hrd) as Hi. unfold standard_handle. cbv zeta.
  destruct (check_full_returns (st_db st) (sock_ip src) Hi) as [init ->]. cbn [exec_bind].
  destruct (find _ agrs) as [sa|]; [|returns_step m Hm; eauto with returns].
  destruct (root_returns _ Hi) as [r Hr]. rewrite Hr. cbn [exec_bind].
  set (in_patch := filter _ agrs).
  destruct (malefactors_return in_patch (st_db st) (clone_agr sa) src Hi) as (worthy & bans & -> & Hsub & Hne).
  cbn [exec_bind].
  assert (worthy `sublist_of` agrs) as Hsub'.
  { etrans; [exact Hsub|]. apply filter_sublist. }
  cbn [identify_non_introductory_new_and_obsolete_nodes]. unfold identify_non_introductory_new_and_obsolete_nodes.
  destruct (add_new_nodes_return (st_db st) (filter (fun a => is_new (st_db st) a = true) worthy))
    as (db1 & -> & Hrd1 & Hk1 & Ht1).
  { done. }
  { eapply NoDup_map_sublist; [|exact Hnd]. etrans; [apply filter_sublist|done]. }
  { apply Forall_forall. intros a [Hn Ha]%list_elem_of_filter. unfold is_new in Hn. guards.
    split; [done|]. rewrite Forall_forall in Hports. apply Hports.
    eapply elem_of_sublist; [exact Ha|exact Hsub']. }
  cbn [exec_bind].
  destruct (update_obsolete_return db1 (filter (fun a => is_obsolete (st_db st) a = true) worthy))
    as (db2 & -> & Hrd2).
  { done. }
  { apply Forall_forall. intros a [Hn Ha]%list_elem_of_filter. unfold is_obsolete in Hn. guards.
    split; [set_solver|]. rewrite Ht1. by apply Hne. }
  cbn [exec_bind]. destruct (add_src_returns db2 src Hrd2) as (b & db3 & -> & Hi3). cbn [exec_bind].
  destruct (check_full_returns db3 (sock_ip src) Hi3) as [fin ->]. cbn [exec_bind].
  destruct (_ || b); eauto with returns.
Qed.

Lemma exec_find_returns {A} (p : A → exec bool) l :
  (∀ a, a ∈ l → returns (p a)) → returns (exec_find p l).
Proof.
  induction l as [|a l IH]; intros Hp; simpl; [eauto with returns|].
  destruct (Hp a) as [b ->]; [set_solver|]. simpl. destruct b; [eauto with returns|].
  apply IH. set_solver.
Qed.

Lemma standard_qualifies_returns db agrs src :
  ready db → returns (standard_qualifies db agrs src).
Proof.
  intros Hrd. pose proof (rd_inv _ Hrd) as Hi. unfold standard_qualifies. cbv zeta.
  destruct (root_returns _ Hi) as [r Hr]. rewrite Hr. cbn [exec_bind]. apply root_Ret in Hr.
  apply returns_bind.
  - destruct (accepts_connections (inner r)) eqn:Hac; [|eauto with returns].
    destruct (rd_addr _ Hrd r Hr Hac) as [x ->].
    apply exec_find_returns. intros a [[y Hy] _]%list_elem_of_filter. unfold agr_ip.
    rewrite Hy. simpl. eauto with returns.
  - intros [a|] _; [by eexists|]. destruct (find _ agrs); [by eexists|].
    destruct (elements _); by eexists.
Qed.

Lemma introduction_qualifies_returns db agrs src :
  db_inv db → returns (introduction_qualifies db agrs src).
Proof.
  intros Hi. unfold introduction_qualifies. destruct (negb _) eqn:Hlen; [eauto with returns|]. guards.
  destruct agrs as [|a [|b [|? ?]]]; try done. unfold identify_players, order_is_introducee_introducer.
  destruct (root_returns _ Hi) as [r Hr].
  assert (∀ i1 i2 x, agr_node_addr_opt i1 = Some x →
    returns (let* r := root db in
        let* q1 := verify_introducer src i1 r in
        match q1 with
        | Some qual => Ret qual
        | None =>
            let* q2 := verify_introducee i1 i2 src in
            match q2 with
            | Some qual => Ret qual
            | None => let* q3 := verify_both db i1 i2 in Ret (default Matched q3)
            end
        end)) as Hrest.
  { intros i1 i2 x Hx. rewrite Hr. cbn [exec_bind]. apply returns_bind.
    - unfold verify_introducer. case_bool_decide; [by eexists|]. rewrite Hx. cbn [exec_bind expect].
      destruct (na_ports x); [by eexists|]. destruct (nr_addr r); [|eauto with returns].
      case_bool_decide; by eexists.
    - intros [q|] _; [eauto with returns|]. apply returns_bind.
      + unfold verify_introducee. destruct (agr_node_addr_opt i2) as [y|]; [|eauto with returns].
        destruct (na_ports y); [by eexists|]. case_bool_decide; by eexists.
      + intros [q|] _; [eauto with returns|]. unfold verify_both. rewrite Hr. by eexists. }
  unfold agr_ip. destruct (agr_node_addr_opt a) as [x|] eqn:Hx, (agr_node_addr_opt b) as [y|] eqn:Hy;
    cbn [fmap option_fmap option_map try_bind exec_bind]; [|eauto with returns..].
  case_bool_decide; cbn [try_bind exec_bind]; [by eapply Hrest|].
  case_bool_decide; cbn [try_bind exec_bind]; [by eapply Hrest|]. by eexists.
Qed.

Lemma single_qualifies_return db agrs src :
  returns (debut_qualifies db agrs src) ∧ returns (pass_qualifies db agrs src).
Proof.
  unfold debut_qualifies, pass_qualifies. destruct agrs as [|a [|? ?]]; [by split; eexists| |by split; eexists].
  split.
  - case_bool_decide; [by eexists|]. cbv zeta.
    destruct (agr_node_addr_opt a) as [x|]; destruct (accepts_connections _); try by eexists.
    destruct (na_ports x); [by eexists|]. case_bool_decide; by eexists.
  - destruct (agr_node_addr_opt a) as [x|]; [|by eexists].
    destruct (na_ports x); [by eexists|]. case_bool_decide; by eexists.
Qed.

Lemma acceptor_returns st agrs src :
  ready (st_db st) → agrs_ok agrs →
  returns (acceptor_handle finder cryptde limits md now system_now st agrs src).
Proof.
  intros Hrd Hok. pose proof (rd_inv _ Hrd) as Hi.
  unfold acceptor_handle, gossip_handlers. cbn [first_qualifying qualifies].
  destruct (single_qualifies_return (st_db st) agrs src) as [[q1 Hq1] [q2 Hq2]].
  rewrite Hq1. cbn [exec_bind].
  destruct q1; cbn [exec_bind handle]; [by apply debut_handle_returns| |eauto with returns].
  rewrite Hq2. cbn [exec_bind].
  destruct q2; cbn [exec_bind handle]; [by apply pass_handle_returns| |eauto with returns].
  destruct (introduction_qualifies_returns (st_db st) agrs src Hi) as [q3 Hq3]. rewrite Hq3.
  cbn [exec_bind].
  destruct q3; cbn [exec_bind handle]; [by apply introduction_handle_returns| |eauto with returns].
  destruct (standard_qualifies_returns (st_db st) agrs src Hrd) as [q4 Hq4]. rewrite Hq4.
  cbn [exec_bind].
  destruct q4; cbn [exec_bind handle]; [by apply standard_handle_returns| |eauto with returns].
  by eexists.
Qed.
End Returns.

Lemma exec_any_returns {A} (p : A → exec bool) l :
  (∀ a, a ∈ l → returns (p a)) → returns (exec_any p l).
Proof.
  induction l as [|a l IH]; intros Hp; simpl; [eauto with returns|].
  destruct (Hp a) as [b ->]; [set_solver|]. simpl. destruct b; [eauto with returns|].
  apply IH. set_solver.
Qed.

Lemma admitted_returns `{I : InnerCbor} c g :
  Forall (fun r => ∀ a, agr_of_gnr r = Ok a →
    returns (verify_signature c (agr_signed_gossip a) (agr_signature a) (agr_key a))) (node_records g) →
  returns (admitted_agrs c g).
Proof.
  intros Hv. unfold admitted_agrs. cbv zeta. destruct (_ <? _)%nat; [eauto with returns|].
  apply returns_bind; [|eauto with returns]. apply exec_any_returns. intros a Ha.
  apply list_elem_of_omap in Ha as (r & Hr & Ha). rewrite Forall_forall in Hv.
  unfold signature_invalid. apply returns_bind; [|eauto with returns]. apply (Hv r Hr).
  unfold result_ok in Ha. destruct (agr_of_gnr r); [|done]. by injection Ha as ->.
Qed.

Lemma add_new_nodes_repeated `{I : InnerCbor} finder md now db agrs :
  (¬ NoDup (map (fun a => agr_key a) agrs) ∨ ∃ a, a ∈ agrs ∧ agr_key a ∈ keys db) →
  add_new_nodes finder md now db agrs = Panic.
Proof.
  revert db. induction agrs as [|a agrs IH]; intros db Hdup; simpl.
  { destruct Hdup as [Hdup|(a & Ha & _)]; [by destruct Hdup; constructor|set_solver]. }
  destruct (new_record finder md now a) as [n|] eqn:Hn; [|done]. cbn [exec_bind].
  apply new_record_addr in Hn as [Hin _].
  assert (nr_public_key n = agr_key a) as Hnk by (unfold nr_public_key; by rewrite Hin).
  destruct (add_node db n) as [[k db1]|] eqn:Hadd; [|done]. cbn [expect_ok exec_bind].
  apply add_node_Ok in Hadd as (_ & Hf & -> & ->). rewrite Hnk in Hf. apply IH.
  assert (keys (add_arbitrary_node db n) = {[agr_key a]} ∪ keys db) as Hk.
  { unfold keys. simpl. by rewrite dom_insert_L, Hnk. }
  destruct Hdup as [Hdup|(b & Hb & Hbk)].
  - destruct (decide (agr_key a ∈ map (fun a => agr_key a) agrs)) as [Hin'|Hnin].
    + right. apply list_elem_of_fmap in Hin' as (b & Hab & Hb). exists b. set_solver.
    + left. intros Hnd. apply Hdup. cbn [map]. by constructor.
  - right. apply elem_of_cons in Hb as [->|Hb]; [done|]. exists b. set_solver.
Qed.

(** ** The properties *)

(** [C34] Passes do not loop.  After a Pass that was answered, the next Pass
    to the same address (whoever sends it, whatever has become of the database)
    within sixty seconds, by a clock that may even run backwards, gets no reply,
    only a report that a loop was found; one that comes later is answered again,
    with exactly one message, the node's debut, to that address, and a report
    that a Pass was received, if the database is then in its invariant.  Either
    way the address is stamped with the new time. *)
Theorem pass_loop_broken `{I : InnerCbor} `{H : HashOrder} md1 t1 st1 agrs1 src1 res1 st2 db2 md2 t2 agrs2 src2 a1 a2 :
  pass_handle md1 t1 st1 agrs1 src1 = Ret (res1, st2) → res1 ≠ [] →
  head agrs1 = Some a1 → head agrs2 = Some a2 → agr_ip a1 = agr_ip a2 →
  ∃ x, agr_node_addr_opt a2 = Some x ∧
    let stamped event := mkState db2 (<[na_ip_addr x := t2]> (previous_pass_targets st2))
                           (cpms st2 ++ [mkCpm (sock_ip src2) event]) in
    (t2 - t1 ≤ PASS_GOSSIP_EXPIRED_TIME →
     pass_handle md2 t2 (with_db st2 db2) agrs2 src2 = Ret ([], stamped PassLoopFound)) ∧
    (PASS_GOSSIP_EXPIRED_TIME < t2 - t1 → db_inv db2 → ∃ g, make_debut db2 = Ret g ∧
     pass_handle md2 t2 (with_db st2 db2) agrs2 src2 =
       Ret ([Reply g (agr_key a2) (clone_addr x)], stamped (PassGossipReceived (na_ip_addr x)))).
Proof.
  intros H1 Hres Ha1 Ha2 Hip.
  destruct (pass_on_stamps _ _ _ _ _ _ _ H1 Hres) as (a & x & Ha & Hx & Hst).
  rewrite Ha1 in Ha. injection Ha as <-. unfold agr_ip in Hip. rewrite Hx in Hip. simpl in Hip.
  destruct (agr_node_addr_opt a2) as [y|] eqn:Hy; [|done]. injection Hip as Hip. rewrite Hip in Hst.
  exists y. split; [done|]. cbv zeta. split.
  - intros Hle. by rewrite (pass_suppressed md2 t2 (with_db st2 db2) agrs2 src2 a2 y t1).
  - intros Hlt Hdb. destruct (make_debut_returns db2 Hdb) as [g Hg]. exists g. split; [done|].
    by rewrite (pass_answered md2 t2 (with_db st2 db2) agrs2 src2 a2 y t1 g).
Qed.

(** [C32] Handling a message never panics (and so always ends with an answer)
    when the message names no node twice and no address without ports, the
    checks of its signatures return, the local database is in its invariant
    with room for the next version of the root's record, and serializing,
    signing, locating and the user's priorities work: whatever the handlers
    look up, sort or unwrap is there. *)
Theorem receiving_returns `{I : InnerCbor} `{H : HashOrder} finder cryptde limits md now system_now
    st g src :
  surroundings_ok finder cryptde md → ready (st_db st) →
  Forall (fun r => ∀ a, agr_of_gnr r = Ok a →
    returns (verify_signature cryptde (agr_signed_gossip a) (agr_signature a) (agr_key a)))
    (node_records g) →
  (∀ agrs, admitted_agrs cryptde g = Ret (Some agrs) → agrs_ok agrs) →
  ∃ res st', receive_gossip finder cryptde limits md now system_now st g src = Ret (res, st').
Proof.
  intros Hso Hrd Hv Hok. unfold receive_gossip.
  destruct (admitted_returns cryptde g Hv) as [o Ho]. rewrite Ho. cbn [exec_bind].
  destruct o as [agrs|]; [|by eexists _, _].
  destruct (acceptor_returns finder cryptde limits md now system_now Hso st agrs src Hrd)
    as [[res st'] Hrun]; [by apply Hok|]. by exists res, st'.
Qed.

Module Hostile.
Import Sample Run.

(** A neighbor sends its own record and, twice, that of a node it names. *)
Definition twice : Gossip_0v1 :=
  mkGossip [gnr 2 2 true true [1; 3] (Some (addr 2)); gnr 3 1 true true [2] None;
            gnr 3 1 true true [2] None].

(** The root 1 has neighbors 2 and 3; 4 is a neighbor of 3, two hops away. *)
Definition root_node : NodeRecord := record 1 5 true true [2; 3] None.
Definition agr (k : Z) (ns : list Z) : AccessibleGossipRecord :=
  mkAgr [] [] None (inner_of k 1 true true ns).
Definition near : list AccessibleGossipRecord := [agr 2 [1; 3]; agr 3 [1; 2; 4]; agr 4 [3]].
End Hostile.

(** A list of new nodes in which one appears twice makes [add_new_nodes]
    panic, whatever the database; and nothing before it prevents that: a
    neighbor's Standard Gossip that carries a third node's properly signed
    record twice panics the node that receives it. *)
Theorem repeated_record_panics :
  (∀ (I : InnerCbor) finder md now db agrs,
     ¬ NoDup (map (fun a => agr_key a) agrs) → add_new_nodes finder md now db agrs = Panic) ∧
  (∃ agrs, admitted_agrs (Sample.cryptde 1) Hostile.twice = Ret (Some agrs)) ∧
  Run.receive Run.after_debut Hostile.twice Run.debut_source = Panic.
Proof.
  split; [intros; apply add_new_nodes_repeated; by left|]. split; [|by vm_compute].
  eexists. apply admitted_spec. split; repeat constructor; vm_compute; reflexivity.
Qed.

(** The patch depends on the order of the keys: the search goes depth
    first and marks a node visited however few hops it had left there, so a
    node within [db_patch_size] hops, all of whose records are in the message,
    can be left out, and its record ignored. *)
Theorem patch_misses_near_node :
  within (agrs_by_key Hostile.near) Hostile.root_node 2 [1] [4] ∧
  (∃ a, a ∈ Hostile.near ∧ agr_key a = [4]) ∧
  [4] ∉ compute_patch Hostile.near Hostile.root_node 2.
Proof.
  split; [|split].
  - assert (named_neighbors (agrs_by_key Hostile.near) Hostile.root_node [1] = Some {[ [2]; [3] ]})
      as H1 by by vm_compute.
    assert (named_neighbors (agrs_by_key Hostile.near) Hostile.root_node [3] = Some {[ [1]; [2]; [4] ]})
      as H3 by by vm_compute.
    eapply within_hop; [exact H1| |eapply within_hop; [exact H3| |apply within_here]]; set_solver.
  - exists (Hostile.agr 4 [3]). split; [|done]. unfold Hostile.near. set_solver.
  - refine (bool_decide_unpack _ _). by vm_compute.
Qed.

(** Under the libsodium implementation, one record with a 64-byte
    signature and a public key that is not 64 bytes long panics the receiver,
    whoever sends it and whatever its database: the key is taken apart before
    anything checks its length. *)
Theorem short_key_gossip_panics `{B : Base64} `{I : InnerCbor} `{H : HashOrder} sodium c finder limits md now
    system_now st r rs i src :
  uncbor_inner (signed_data r) = Ok i → length (gnr_signature r) = Real.SIGNATUREBYTES →
  length (nri_public_key i) ≠ (Real.PUBLICKEYBYTES + Real.PUBLICKEYBYTES)%nat →
  Forall (fun r => is_ok (uncbor_inner (signed_data r)) = true) rs →
  receive_gossip finder (Real.real_cryptde sodium c) limits md now system_now st
    (mkGossip (r :: rs)) src = Panic.
Proof.
  intros Hdec Hsig Hkey Hrs. unfold receive_gossip, admitted_agrs. cbv zeta.
  assert (∃ agrs, Forall2 (fun r a => agr_of_gnr r = Ok a) (r :: rs) agrs ∧
    ∃ a as', agrs = a :: as' ∧ agr_of_gnr r = Ok a) as (agrs & Hall & a & as' & -> & Ha).
  { assert (agr_of_gnr r = Ok (mkAgr (signed_data r) (gnr_signature r) (gnr_node_addr_opt r) i)) as Hr
      by by apply agr_of_gnr_Ok.
    assert (∃ as', Forall2 (fun r a => agr_of_gnr r = Ok a) rs as') as [as' Has].
    { clear -Hrs. induction Hrs as [|x rs Hx _ [as' IH]]; [by exists []|].
      destruct (uncbor_inner (signed_data x)) as [j|] eqn:Hj; [|done].
      exists (mkAgr (signed_data x) (gnr_signature x) (gnr_node_addr_opt x) j :: as').
      constructor; [by apply agr_of_gnr_Ok|done]. }
    eexists. split; [constructor; [exact Hr|exact Has]|]. by eexists _, _. }
  cbn [node_records]. apply omap_agrs in Hall as [Hlen Hall]. rewrite Hall in *.
  rewrite (proj2 (Nat.ltb_ge _ _)) by done. cbn [exec_any]. unfold signature_invalid at 1.
  apply agr_of_gnr_Ok in Ha as (Hin & _ & Hs & _). rewrite Hdec in Hin. injection Hin as Hin.
  cbn [verify_signature Real.real_cryptde].
  rewrite (proj2 (Real.real_verify_panics sodium c _ _ _)); [done|]. by rewrite Hs, <- Hin.
Qed.

(** ** Concrete runs *)

Lemma sample_surroundings : surroundings_ok Run.finder (Sample.cryptde 1) Run.md.
Proof.
  split.
  - intros i. by eexists.
  - intros data. by eexists.
  - intros [ip|ip]; by eexists.
  - intros p n [= <-]. by eexists.
Qed.

Lemma sample_ready : ready Run.start.
Proof.
  split.
  - apply Run.start_good.
  - intros r Hr. assert (version (inner r) = 0) as ->; [|done].
    assert (version ∘ inner <$> by_public_key Run.start !! this_node Run.start = Some 0) as Hv
      by by vm_compute.
    rewrite Hr in Hv. by injection Hv.
  - intros r Hr Hac.
    assert (accepts_connections ∘ inner <$> by_public_key Run.start !! this_node Run.start = Some false)
      as Hv by by vm_compute.
    rewrite Hr in Hv. injection Hv. simpl in *. congruence.
Qed.

Lemma receiving_returns_witness :
  ∃ res st', Run.receive Run.started Run.debut Run.debut_source = Ret (res, st').
Proof.
  apply (receiving_returns Run.finder (Sample.cryptde 1) Run.limits Run.md 1001 0 Run.started Run.debut
    Run.debut_source sample_surroundings sample_ready).
  - constructor; [|constructor]. intros a (Hin & _ & Hs & _)%agr_of_gnr_Ok.
    change (Sample.dec (Sample.enc (Sample.inner_of 2 1 true true [])) = Ok (agr_inner a)) in Hin.
    rewrite Sample.dec_enc in Hin. injection Hin as Hin. rewrite Hs, <- Hin. exists true. by vm_compute.
  - intros agrs [Hall _]%admitted_spec. unfold Run.debut in Hall. simpl in Hall.
    inversion Hall as [|? a ? ? (_ & _ & _ & Ha)%agr_of_gnr_Ok Hnil]. inversion Hnil. subst.
    split; [apply NoDup_singleton|]. constructor; [|constructor]. rewrite Ha. by intros x [= <-].
Defined.

(** Node 3 passes node 1 on to an address, twice within a minute. *)
Definition pass_agr : AccessibleGossipRecord := mkAgr [] [] (Some (Sample.addr 5)) (Sample.inner_of 5 1 true true []).
Lemma pass_loop_broken_witness :
  ∃ res1 st2 st3 st4 g,
    pass_handle Run.md 0 Run.started [pass_agr] Run.debut_source = Ret (res1, st2) ∧ length res1 = 1%nat ∧
    pass_handle Run.md (59 * 1000000000) (with_db st2 Run.start) [pass_agr] Run.debut_source = Ret ([], st3) ∧
    pass_handle Run.md (61 * 1000000000) (with_db st2 Run.start) [pass_agr] Run.debut_source =
      Ret ([Reply g (agr_key pass_agr) (clone_addr (Sample.addr 5))], st4).
Proof.
  destruct (pass_handle Run.md 0 Run.started [pass_agr] Run.debut_source) as [[res1 st2]|] eqn:E1;
    [|exfalso; revert E1; by vm_compute].
  assert (length res1 = 1%nat) as Hlen.
  { assert (match pass_handle Run.md 0 Run.started [pass_agr] Run.debut_source with
            | Ret (res, _) => length res | Panic => O end = 1%nat) as Hl by by vm_compute.
    by rewrite E1 in Hl. }
  destruct (pass_loop_broken Run.md 0 Run.started [pass_agr] Run.debut_source res1 st2 Run.start
    Run.md (59 * 1000000000) [pass_agr] Run.debut_source pass_agr pass_agr E1) as (x & _ & Hrun & _);
    try done; [by intros ->|].
  destruct (pass_loop_broken Run.md 0 Run.started [pass_agr] Run.debut_source res1 st2 Run.start
    Run.md (61 * 1000000000) [pass_agr] Run.debut_source pass_agr pass_agr E1) as (x' & Hx' & _ & Hrun');
    try done; [by intros ->|]. injection Hx' as <-.
  destruct (Hrun' ltac:(by vm_compute) ltac:(apply sample_ready)) as (g & _ & Hlater).
  eexists _, _, _, _, _. split; [done|]. split; [done|]. split; [apply Hrun; by vm_compute|exact Hlater].
Defined.

Lemma short_key_gossip_panics_witness :
  receive_gossip Run.finder (Real.real_cryptde (B := sample_base64) sample_sodium (Real.mkReal (repeat 6 64) [] [] [] [])) Run.limits
    Run.md 1001 0 Run.started
    (mkGossip [mkGnr (Sample.enc (Sample.inner_of 2 1 true true [])) (repeat 0 64) None]) Run.debut_source
  = Panic.
Proof.
  apply (short_key_gossip_panics (B := sample_base64) sample_sodium (Real.mkReal (repeat 6 64) [] [] [] []) Run.finder Run.limits Run.md
    1001 0 Run.started (mkGnr (Sample.enc (Sample.inner_of 2 1 true true [])) (repeat 0 64) None) []
    (Sample.inner_of 2 1 true true [])); [apply Sample.dec_enc|done|done|constructor].
Defined.
