(* ===== verification/RouteFinder.v ===== *)
(** * RouteFinder: the search for the least undesirable route

    The routing engine of [neighborhood/mod.rs]: a depth-first search over full
    neighborships that prunes with the least undesirability found so far and
    leaves the choice among the best routes to a random draw.  The fields of
    [Neighborhood] it reads, the database and the user's exit preferences, are
    section variables, as are the arguments that do not change along the
    recursion.

    The recursion is bounded by fuel, and running out of it is a [Panic], which
    [enough_fuel] excludes: a route has no cycle, so it is never longer than
    the database.  The draw ([rand]'s [IteratorRandom::choose]) is the class
    [Choose]; that it is uniform is not stated. *)

From stdpp Require Import base list numbers option strings gmap sorting fin_maps.
From Stdlib Require Import ZArith Lia.
From S2P Require Import Prelude Text CountrySerde CountryFinder CryptDE Wallet NodeRecord.
From S2P Require Import NeighborhoodDb ExitPreferences Gossip.

Local Open Scope Z_scope.
Local Open Scope rust_scope.
Local Open Scope list_scope.

Definition UNREACHABLE_HOST_PENALTY : Z := 100000000.
Definition RESPONSE_UNDESIRABILITY_FACTOR : Z := 1000.
Definition MAX_ROUTE_LATENCY_SAMPLE_MS : Z := 60000.
Definition ROUTE_LATENCY_UNDESIRABILITY_PER_MS : Z := 1000.
Definition ROUTE_LATENCY_EWMA_OLD_WEIGHT : Z := 3.
Definition ROUTE_LATENCY_EWMA_TOTAL_WEIGHT : Z := 4.
Definition PAYLOAD_ZERO_SIZE : Z := 0.

(** ** Signed arithmetic that saturates *)

Definition MAX_I64 : Z := 0x7fffffffffffffff.
Definition MIN_I64 : Z := -0x8000000000000000.
Definition clamp_i64 (z : Z) : Z := Z.max MIN_I64 (Z.min MAX_I64 z).
Definition saturating_add_i64 (a b : Z) : Z := clamp_i64 (a + b).
Definition saturating_mul_i64 (a b : Z) : Z := clamp_i64 (a * b).

Inductive RouteDirection := Over | Back.
Global Instance RouteDirection_eq_dec : EqDecision RouteDirection.
Proof. solve_decision. Defined.

Inductive UndesirabilityType := Relay | ExitRequest (hostname : string) | ExitAndRouteResponse.

Record ComputedRouteSegment := mkComputed { nodes : list PublicKey; undesirability : Z }.

(** ** Undesirability *)

Definition charge_to_undesirability (charge : Z) : Z :=
  if charge <=? MAX_I64 then charge else MAX_I64.

Definition route_latency_undesirability (n : NodeRecord) : Z :=
  match route_latency_ewma_ms_opt (metadata n) with
  | Some latency_ms => saturating_mul_i64 latency_ms ROUTE_LATENCY_UNDESIRABILITY_PER_MS
  | None => 0
  end.

Definition compute_undesirability (n : NodeRecord) (payload_size : Z) (t : UndesirabilityType) : Z :=
  match t with
  | Relay => charge_to_undesirability (routing_charge (rate_pack (inner n)) payload_size)
  | ExitRequest hostname =>
      let exit_undesirability :=
        charge_to_undesirability (exit_charge (rate_pack (inner n)) payload_size) in
      let unreachable_host_undesirability :=
        if bool_decide (hostname ∈ unreachable_hosts (metadata n)) then UNREACHABLE_HOST_PENALTY
        else 0 in
      saturating_add_i64
        (saturating_add_i64
           (saturating_add_i64 exit_undesirability unreachable_host_undesirability)
           (country_undesirability (metadata n)))
        (route_latency_undesirability n)
  | ExitAndRouteResponse =>
      let total_charge := saturating_add 64 (exit_charge (rate_pack (inner n)) payload_size)
                            (routing_charge (rate_pack (inner n)) payload_size) in
      saturating_add_i64 (charge_to_undesirability total_charge) (route_latency_undesirability n)
  end.

(** ** What is learnt about exits *)

Inductive NRMetadataChange :=
| AddUnreachableHost (hostname : string)
| RemoveUnreachableHost (hostname : string)
| RecordRouteSuccess (hostname : string) (latency_ms : Z).

Definition with_experience (hosts : gset string) (latency_opt : option Z) (m : NodeRecordMetadata)
    : NodeRecordMetadata :=
  mkMetadata (last_update m) (node_addr_opt m) hosts (node_location_opt m)
    (country_undesirability m) latency_opt.

Definition change_metadata (c : NRMetadataChange) (m : NodeRecordMetadata) : NodeRecordMetadata :=
  match c with
  | AddUnreachableHost hostname =>
      with_experience ({[hostname]} ∪ unreachable_hosts m) (route_latency_ewma_ms_opt m) m
  | RemoveUnreachableHost hostname =>
      with_experience (unreachable_hosts m ∖ {[hostname]}) (route_latency_ewma_ms_opt m) m
  | RecordRouteSuccess hostname latency_ms =>
      let bounded_sample := Z.min latency_ms MAX_ROUTE_LATENCY_SAMPLE_MS in
      with_experience (unreachable_hosts m ∖ {[hostname]})
        (Some (match route_latency_ewma_ms_opt m with
               | Some previous =>
                   wrap_u 32 ((previous * ROUTE_LATENCY_EWMA_OLD_WEIGHT + bounded_sample)
                              / ROUTE_LATENCY_EWMA_TOTAL_WEIGHT)
               | None => bounded_sample
               end)) m
  end.

(** [Handler<UpdateNodeRecordMetadataMessage>] *)
Definition update_node_record_metadata (db : NeighborhoodDatabase) (k : PublicKey)
    (c : NRMetadataChange) : NeighborhoodDatabase :=
  match node_by_key db k with
  | None => db
  | Some n => with_records db
      (<[k := with_metadata (change_metadata c (metadata n)) n]> (by_public_key db))
  end.

Definition is_orig_node_on_back_leg (n : NodeRecord) (target_key_opt : option PublicKey)
    (direction : RouteDirection) : bool :=
  match direction with
  | Over => false
  | Back => match target_key_opt with
            | None => false
            | Some target_key => bool_decide (nr_public_key n = target_key)
            end
  end.

Definition last_key_qualifies (last_node : NodeRecord) (target_opt : option PublicKey) : bool :=
  match target_opt with
  | Some target_key => bool_decide (nr_public_key last_node = target_key)
  | None => true
  end.

Definition route_length_qualifies (hops_remaining : nat) : bool := (hops_remaining =? 0)%nat.

(** [iter.flat_map(f).collect()] where [f] may panic and keeps a state *)
Fixpoint exec_flat_map {A B St} (f : A → St → exec (list B * St)) (l : list A) (st : St)
    : exec (list B * St) :=
  match l with
  | [] => Ret ([], st)
  | a :: l =>
      let* (bs, st) := f a st in
      let* (bs', st) := exec_flat_map f l st in
      Ret (bs ++ bs', st)
  end.

Section Search.
Context `{H : HashOrder} (db : NeighborhoodDatabase) (prefs : UserExitPreferences).

Definition validate_last_node_not_too_close_to_first_node (prefix_len : nat)
    (first_node_key candidate_node_key : PublicKey) : bool :=
  if (prefix_len <=? 2)%nat then true
  else negb (db_has_half_neighbor db candidate_node_key first_node_key).

Definition validate_country_code_when_fallback_routing (last_node : PublicKey) : bool :=
  let last_cc :=
    match node_by_key db last_node with
    | Some nr => default "ZZ"%string (country_code_opt (inner nr))
    | None => "ZZ"%string
    end in
  if bool_decide (last_cc ∈ exit_countries prefs) then true
  else
    match exit_countries prefs with
    | [] => true
    | _ => negb (existsb (fun country =>
             bool_decide (country ∈ db_countries prefs) && negb (bool_decide (country = last_cc)))
             (exit_countries prefs))
    end.

Definition is_fallback_and_last_node_qualifies (last_node_key : PublicKey) : bool :=
  bool_decide (fallback_preference prefs = ExitCountryWithFallback)
  && validate_country_code_when_fallback_routing last_node_key.

(** What stays the same along one search. *)
Context (target_opt : option PublicKey) (payload_size : Z) (direction : RouteDirection).
Context (hostname : string) (minimum_protocol_capabilities : Z) (research_neighborhood : bool).

Definition last_node_is_always_true (last_node_key : PublicKey) : bool :=
  bool_decide (fallback_preference prefs = Nothing)
  || is_fallback_and_last_node_qualifies last_node_key
  || research_neighborhood
  || bool_decide (direction = Back).

Definition validate_last_node_country_code (last_node_key : PublicKey) : bool :=
  if last_node_is_always_true last_node_key then true
  else
    match node_by_key db last_node_key with
    | Some n =>
        match country_code_opt (inner n) with
        | Some country_code => bool_decide (country_code ∈ exit_countries prefs)
        | None => false
        end
    | None => false
    end.

Definition compute_new_undesirability (n : NodeRecord) (undesirability : Z) (hops_remaining : nat) : Z :=
  let undesirability_type :=
    match direction, target_opt with
    | Over, None => if (hops_remaining =? 0)%nat then ExitRequest hostname else Relay
    | _, _ => Relay
    end in
  saturating_add_i64 undesirability (compute_undesirability n payload_size undesirability_type).

(** The three filters of [routing_guts]. *)
Definition settlement_contract_matches (required_opt : option Address) (n : NodeRecord) : bool :=
  if negb (Z.land minimum_protocol_capabilities SERVICE_RECEIPT_SETTLEMENT_V1_CAPABILITY =? 0)
  then match required_opt with
       | Some required => bool_decide (receipt_settlement_contract_opt (inner n) = Some required)
       | None => false
       end
  else true.

Definition is_candidate (prefix : list PublicKey) (required_opt : option Address) (n : NodeRecord) : bool :=
  negb (bool_decide (nr_public_key n ∈ prefix))
  && (routes_data (inner n) || is_orig_node_on_back_leg n target_opt direction)
  && (Z.land (protocol_capabilities (inner n)) minimum_protocol_capabilities =?
        minimum_protocol_capabilities)
  && settlement_contract_matches required_opt n.

(** The two references the recursion writes through: the least undesirability
    found so far, and the exits found by research. *)
Abbreviation SearchState := (Z * list PublicKey)%type.

Definition routing_guts
    (engine : list PublicKey → Z → nat → SearchState → exec (list ComputedRouteSegment * SearchState))
    (prefix : list PublicKey) (undesirability : Z) (hops_remaining : nat) (previous_node : NodeRecord)
    (st : SearchState) : exec (list ComputedRouteSegment * SearchState) :=
  let* r := root db in
  let* neighbors := full_neighbors previous_node db in
  let new_hops_remaining := pred hops_remaining in
  exec_flat_map (fun n st =>
    engine (prefix ++ [nr_public_key n])
      (compute_new_undesirability n undesirability new_hops_remaining) new_hops_remaining st)
    (filter (fun n => is_candidate prefix (receipt_settlement_contract_opt (inner r)) n = true) neighbors)
    st.

(** The three qualifications of a finished route. *)
Definition arrives (prefix : list PublicKey) (hops_remaining : nat) (first_node_key : PublicKey)
    (previous_node : NodeRecord) : bool :=
  route_length_qualifies hops_remaining && last_key_qualifies previous_node target_opt
  && validate_last_node_not_too_close_to_first_node (length prefix) first_node_key
       (nr_public_key previous_node).

(** A targetless search does not go on past the minimum hop count, unless for
    the sake of a country. *)
Definition gives_up (hops_remaining : nat) : bool :=
  ((hops_remaining =? 0)%nat && bool_decide (target_opt = None) && negb research_neighborhood)
  && (bool_decide (fallback_preference prefs = Nothing)
      || bool_decide (exit_countries prefs = [])).

Fixpoint routing_engine (fuel : nat) (prefix : list PublicKey) (undesirability : Z)
    (hops_remaining : nat) (st : SearchState) : exec (list ComputedRouteSegment * SearchState) :=
  match fuel with
  | O => Panic
  | S fuel =>
      let '(minimum_undesirability, research_exits) := st in
      if (minimum_undesirability <? undesirability) && negb research_neighborhood then Ret ([], st)
      else
        let* first_node_key := expect (head prefix) in
        let* last_node_key := expect (list.last prefix) in
        let* previous_node := expect (node_by_key db last_node_key) in
        let guts st := routing_guts (routing_engine fuel) prefix undesirability hops_remaining
                         previous_node st in
        if arrives prefix hops_remaining first_node_key previous_node then
          if negb research_neighborhood
             && validate_last_node_country_code (nr_public_key previous_node)
          then Ret ([mkComputed prefix undesirability],
                    (if undesirability <? minimum_undesirability then undesirability
                     else minimum_undesirability, research_exits))
          else if research_neighborhood && bool_decide (last_node_key ∈ research_exits)
          then Ret ([], st)
          else guts (if research_neighborhood
                     then (minimum_undesirability, research_exits ++ [last_node_key]) else st)
        else if gives_up hops_remaining then Ret ([], st)
        else guts st
  end.
End Search.

(** ** The interface of the engine *)

(** [IteratorRandom::choose]: some item, if there is one. *)
Class Choose (R : Type) := {
  choose : R → list ComputedRouteSegment → option ComputedRouteSegment;
  choose_elem r l x : choose r l = Some x → x ∈ l;
  choose_some r l : l ≠ [] → is_Some (choose r l);
}.

Section Interface.
Context `{H : HashOrder} `{C : Choose R} (db : NeighborhoodDatabase) (prefs : UserExitPreferences).

(** Fuel for a search from one node. *)
Definition enough_fuel : nat := S (size (by_public_key db)).

Definition choose_uniform_minimum_route (computed_routes : list ComputedRouteSegment)
    (minimum_undesirability : Z) (rng : R) : option (list PublicKey) :=
  nodes <$> choose rng
    (filter (fun route => undesirability route = minimum_undesirability) computed_routes).

Definition compute_initial_undesirability (key : PublicKey) (payload_size : Z)
    (direction : RouteDirection) : exec Z :=
  if bool_decide (direction = Over) then Ret 0
  else
    let* n := expect (node_by_key db key) in
    Ret (compute_undesirability n payload_size ExitAndRouteResponse).

Definition find_best_route_segment (source : PublicKey) (target_opt : option PublicKey)
    (minimum_hops : nat) (payload_size : Z) (direction : RouteDirection) (hostname : string)
    (minimum_protocol_capabilities : Z) (rng : R) : exec (option (list PublicKey)) :=
  let* initial_undesirability := compute_initial_undesirability source payload_size direction in
  let* (computed_routes, (minimum_undesirability, _)) :=
    routing_engine db prefs target_opt payload_size direction hostname minimum_protocol_capabilities
      false enough_fuel [source] initial_undesirability minimum_hops (MAX_I64, []) in
  Ret (choose_uniform_minimum_route computed_routes minimum_undesirability rng).

Definition find_exit_locations (source : PublicKey) (minimum_hops : nat) : exec (list PublicKey) :=
  let* (_, (_, research_exits)) :=
    routing_engine db prefs None PAYLOAD_ZERO_SIZE Over "booga.com"%string 0 true enough_fuel
      [source] 0 minimum_hops (MAX_I64, []) in
  Ret research_exits.
End Interface.

(** ** Costs are never negative *)

(** The fields at their widths. *)
Record record_widths (n : NodeRecord) : Prop := {
  rw_routing_byte : in_u 64 (routing_byte_rate (rate_pack (inner n)));
  rw_routing_service : in_u 64 (routing_service_rate (rate_pack (inner n)));
  rw_exit_byte : in_u 64 (exit_byte_rate (rate_pack (inner n)));
  rw_exit_service : in_u 64 (exit_service_rate (rate_pack (inner n)));
  rw_country : in_u 32 (country_undesirability (metadata n));
  rw_latency l : route_latency_ewma_ms_opt (metadata n) = Some l → in_u 32 l;
}.

Lemma saturating_add_i64_bounds a b :
  0 ≤ a ≤ MAX_I64 → 0 ≤ b → a ≤ saturating_add_i64 a b ≤ MAX_I64.
Proof. unfold saturating_add_i64, clamp_i64, MIN_I64, MAX_I64. lia. Qed.

Lemma charge_to_undesirability_bounds c : 0 ≤ c → 0 ≤ charge_to_undesirability c ≤ MAX_I64.
Proof. intros Hc. unfold charge_to_undesirability, MAX_I64. destruct (_ <=? _) eqn:E; guards; lia. Qed.

Lemma charge_nonneg s b p : 0 ≤ s → 0 ≤ b → 0 ≤ p → 0 ≤ saturating_add 64 s (saturating_mul 64 b p).
Proof. intros. unfold saturating_add, saturating_mul, max_u. nia. Qed.

Lemma latency_bounds n : record_widths n → 0 ≤ route_latency_undesirability n ≤ MAX_I64.
Proof.
  intros Hw. unfold route_latency_undesirability, saturating_mul_i64, clamp_i64, MIN_I64, MAX_I64.
  destruct (route_latency_ewma_ms_opt (metadata n)) as [l|] eqn:Hl; [|lia].
  apply (rw_latency _ Hw) in Hl. unfold in_u in Hl.
  unfold ROUTE_LATENCY_UNDESIRABILITY_PER_MS. lia.
Qed.

Lemma undesirability_bounds n payload t :
  record_widths n → 0 ≤ payload → 0 ≤ compute_undesirability n payload t ≤ MAX_I64.
Proof.
  intros Hw Hp. pose proof Hw as [[? _] [? _] [? _] [? _] [? _] _]. pose proof (latency_bounds n Hw).
  destruct t as [|h|]; simpl.
  - apply charge_to_undesirability_bounds. by apply charge_nonneg.
  - set (e := charge_to_undesirability _).
    assert (0 ≤ e ≤ MAX_I64) by (by apply charge_to_undesirability_bounds, charge_nonneg).
    set (u := if bool_decide _ then _ else _).
    assert (0 ≤ u) by (subst u; case_bool_decide; [done|lia]).
    pose proof (saturating_add_i64_bounds e u). pose proof (saturating_add_i64_bounds
      (saturating_add_i64 e u) (country_undesirability (metadata n))).
    pose proof (saturating_add_i64_bounds (saturating_add_i64 (saturating_add_i64 e u)
      (country_undesirability (metadata n))) (route_latency_undesirability n)). lia.
  - set (t := saturating_add 64 _ _).
    assert (0 ≤ t).
    { subst t. unfold saturating_add at 1. apply Z.min_glb; [done|].
      apply Z.add_nonneg_nonneg; by apply charge_nonneg. }
    pose proof (charge_to_undesirability_bounds t). 
    pose proof (saturating_add_i64_bounds (charge_to_undesirability t) (route_latency_undesirability n)).
    lia.
Qed.

(** ** Ways through the network *)

Lemma full_neighbors_elem `{H : HashOrder} db n ns m :
  db_inv db →
  full_neighbors n db = Ret ns →
  m ∈ ns ↔ nr_public_key m ∈ full_neighbor_keys n db ∧ by_public_key db !! nr_public_key m = Some m.
Proof.
  intros Hi Hns. destruct (full_neighbors_returns n db) as (ns' & Hns' & Hall).
  rewrite Hns in Hns'. injection Hns' as <-. split.
  - intros Hm. apply list_elem_of_lookup in Hm as [i Hm].
    destruct (Forall2_lookup_r _ _ _ _ _ Hall Hm) as (k & Hk & Hkm).
    rewrite (di_keys _ Hi _ _ Hkm). split; [|done]. apply elem_of_hash_iter.
    by eapply list_elem_of_lookup_2.
  - intros [Hk Hm]. apply elem_of_hash_iter, list_elem_of_lookup in Hk as [i Hk].
    destruct (Forall2_lookup_l _ _ _ _ _ Hall Hk) as (m' & Hm' & Hkm).
    rewrite Hm in Hkm. injection Hkm as <-. by eapply list_elem_of_lookup_2.
Qed.

Lemma prefix_length db (prefix : list PublicKey) :
  NoDup prefix → (∀ k, k ∈ prefix → k ∈ keys db) → (length prefix ≤ size (by_public_key db))%nat.
Proof.
  intros Hnd Hin. rewrite <- (size_dom (D := gset PublicKey)). fold (keys db).
  rewrite <- (size_list_to_set (C := gset PublicKey) _ Hnd). apply subseteq_size. set_solver.
Qed.

Lemma last_known db (prefix : list PublicKey) last :
  (∀ k, k ∈ prefix → k ∈ keys db) → list.last prefix = Some last →
  ∃ n, by_public_key db !! last = Some n.
Proof.
  intros Hin Hlast. apply known_iff, Hin. rewrite last_lookup in Hlast.
  by eapply list_elem_of_lookup_2.
Qed.

Section Ways.
Context (db : NeighborhoodDatabase) (target_opt : option PublicKey) (direction : RouteDirection).
Context (minimum_protocol_capabilities : Z).

(** The nodes of [ext] can be visited after those of [prefix], one after the
    other, none twice. *)
Inductive travels : list PublicKey → list PublicKey → Prop :=
| travels_nil prefix : travels prefix []
| travels_cons prefix last n r m ext :
    list.last prefix = Some last → by_public_key db !! last = Some n →
    by_public_key db !! this_node db = Some r →
    nr_public_key m ∈ full_neighbor_keys n db → by_public_key db !! nr_public_key m = Some m →
    is_candidate target_opt direction minimum_protocol_capabilities prefix
      (receipt_settlement_contract_opt (inner r)) m = true →
    travels (prefix ++ [nr_public_key m]) ext → travels prefix (nr_public_key m :: ext).

(** Each node is a full neighbor of the one before. *)
Fixpoint linked (l : list PublicKey) : Prop :=
  match l with
  | a :: ((b :: _) as rest) => db_has_full_neighbor db a b = true ∧ linked rest
  | _ => True
  end.

(** A node that can carry the traffic: it routes data, or is the originator at
    the end of the way back; it has the capabilities asked for; and when these
    include receipts, it settles with our contract. *)
Definition usable (k : PublicKey) : Prop :=
  ∃ m, by_public_key db !! k = Some m ∧
    (routes_data (inner m) = true ∨ (direction = Back ∧ target_opt = Some k)) ∧
    Z.land (protocol_capabilities (inner m)) minimum_protocol_capabilities =
      minimum_protocol_capabilities ∧
    (Z.land minimum_protocol_capabilities SERVICE_RECEIPT_SETTLEMENT_V1_CAPABILITY ≠ 0 →
     ∃ r c, by_public_key db !! this_node db = Some r ∧
       receipt_settlement_contract_opt (inner r) = Some c ∧
       receipt_settlement_contract_opt (inner m) = Some c).

Lemma candidate_usable prefix r m :
  by_public_key db !! this_node db = Some r → by_public_key db !! nr_public_key m = Some m →
  is_candidate target_opt direction minimum_protocol_capabilities prefix
    (receipt_settlement_contract_opt (inner r)) m = true →
  (nr_public_key m ∉ prefix) ∧ usable (nr_public_key m).
Proof.
  intros Hr Hm Hc. unfold is_candidate in Hc. apply andb_true_iff in Hc as [Hc Hset].
  apply andb_true_iff in Hc as [Hc Hcap]. apply andb_true_iff in Hc as [Hnew Hrt]. guards.
  split; [done|]. exists m. split; [done|]. split; [|split; [done|]].
  - apply orb_true_iff in Hrt as [?|Ho]; [by left|right]. unfold is_orig_node_on_back_leg in Ho.
    destruct direction; [done|]. destruct target_opt; [|done]. guards. by subst.
  - intros Hreq. unfold settlement_contract_matches in *.
    rewrite (proj2 (Z.eqb_neq _ _) Hreq) in *. cbn [negb] in *.
    destruct (receipt_settlement_contract_opt (inner r)) as [c|] eqn:Hrc; [|done].
    exists r, c. guards. done.
Qed.

Lemma travels_facts prefix ext :
  db_inv db → travels prefix ext → NoDup prefix →
  NoDup (prefix ++ ext) ∧ Forall usable ext ∧
  ∀ last, list.last prefix = Some last → linked (last :: ext).
Proof.
  intros Hi. induction 1 as [prefix|prefix last n r m ext Hl Hn Hr Hk Hm Hc _ IH]; intros Hnd.
  - rewrite app_nil_r. by repeat constructor.
  - destruct (candidate_usable _ _ _ Hr Hm Hc) as [Hnew Hu].
    destruct IH as (Hnd' & Hus & Hlink).
    { apply NoDup_app. split; [done|]. split; [set_solver|apply NoDup_singleton]. }
    split; [by rewrite <- app_assoc in Hnd'|]. split; [by constructor|].
    intros last' Hl'. rewrite Hl in Hl'. injection Hl' as <-. split.
    + apply elem_of_full_neighbor_keys in Hk as [Hk1 Hk2].
      rewrite (di_keys _ Hi _ _ Hn) in Hk2.
      unfold db_has_full_neighbor. rewrite Hk2, andb_true_r.
      unfold db_has_half_neighbor, node_by_key, has_half_neighbor. rewrite Hn.
      by apply bool_decide_eq_true.
    + apply Hlink. by rewrite last_snoc.
Qed.
End Ways.

(** ** The routes there are *)

Section Spec.
Context `{H : HashOrder} (db : NeighborhoodDatabase) (prefs : UserExitPreferences).
Context (target_opt : option PublicKey) (payload_size : Z) (direction : RouteDirection).
Context (hostname : string) (minimum_protocol_capabilities : Z).

Abbreviation arrives_at := (arrives db target_opt).
Abbreviation country_ok := (validate_last_node_country_code db prefs direction false).
Abbreviation stops := (gives_up prefs target_opt false).
Abbreviation candidate := (is_candidate target_opt direction minimum_protocol_capabilities).
Abbreviation new_cost := (compute_new_undesirability target_opt payload_size direction hostname).
Abbreviation engine :=
  (routing_engine db prefs target_opt payload_size direction hostname minimum_protocol_capabilities false).

(** [prefix], of undesirability [u] and with [hops] to go, can be completed to
    [route] of undesirability [v]: no search order, no pruning. *)
Inductive leads_to : list PublicKey → Z → nat → list PublicKey → Z → Prop :=
| leads_here prefix u hops first last n :
    head prefix = Some first → list.last prefix = Some last → by_public_key db !! last = Some n →
    arrives_at prefix hops first n = true → country_ok (nr_public_key n) = true →
    leads_to prefix u hops prefix u
| leads_on prefix u hops first last n r m route v :
    head prefix = Some first → list.last prefix = Some last → by_public_key db !! last = Some n →
    (if arrives_at prefix hops first n then country_ok (nr_public_key n) = false
     else stops hops = false) →
    by_public_key db !! this_node db = Some r →
    nr_public_key m ∈ full_neighbor_keys n db → by_public_key db !! nr_public_key m = Some m →
    candidate prefix (receipt_settlement_contract_opt (inner r)) m = true →
    leads_to (prefix ++ [nr_public_key m]) (new_cost m u (pred hops)) (pred hops) route v →
    leads_to prefix u hops route v.

Context (Hi : db_inv db) (Hw : map_Forall (fun _ => record_widths) (by_public_key db)).
Context (Hpay : 0 ≤ payload_size).

Lemma new_cost_bounds m u hops :
  record_widths m → 0 ≤ u ≤ MAX_I64 → u ≤ new_cost m u hops ≤ MAX_I64.
Proof.
  intros Hm Hu. unfold compute_new_undesirability. apply saturating_add_i64_bounds; [done|].
  by apply undesirability_bounds.
Qed.

(** Going on never makes a route less undesirable. *)
Lemma leads_to_mono prefix u hops route v :
  leads_to prefix u hops route v → 0 ≤ u ≤ MAX_I64 → u ≤ v ≤ MAX_I64.
Proof.
  induction 1 as [|prefix u hops first last n r m route v ? ? ? ? ? ? Hm ? ? IH]; [lia|].
  intros Hu. pose proof (new_cost_bounds m u (pred hops) (Hw _ _ Hm) Hu). lia.
Qed.

(** *** What a pruned search finds of a set of routes *)

(** From the least undesirability [min] so far, the routes [rs] of the set [T]
    and the new least undesirability [min']. *)
Record finds (T : ComputedRouteSegment → Prop) (min : Z) (rs : list ComputedRouteSegment) (min' : Z)
    : Prop := {
  fi_le : min' ≤ min;
  fi_sound x : x ∈ rs → T x;
  fi_least x : T x → min' ≤ undesirability x;
  fi_complete x : T x → undesirability x = min' → x ∈ rs;
  fi_attained : min' = min ∨ ∃ x, x ∈ rs ∧ undesirability x = min';
}.

Lemma finds_nothing (T : ComputedRouteSegment → Prop) min :
  (∀ x, T x → min < undesirability x) → finds T min [] min.
Proof.
  intros HT. split; [lia|set_solver|..|by left]; intros x Hx; specialize (HT x Hx); lia.
Qed.

Lemma finds_app T1 T2 min rs1 min1 rs2 min2 :
  finds T1 min rs1 min1 → finds T2 min1 rs2 min2 →
  finds (fun x => T1 x ∨ T2 x) min (rs1 ++ rs2) min2.
Proof.
  intros [H1 S1 L1 C1 A1] [H2 S2 L2 C2 A2]. split.
  - lia.
  - intros x [?|?]%elem_of_app; auto.
  - intros x [Hx|Hx]; [specialize (L1 x Hx); lia|auto].
  - intros x [Hx|Hx] Hu; apply elem_of_app; [left|right; auto].
    apply C1; [done|]. specialize (L1 x Hx). lia.
  - destruct A2 as [->|(x & Hx & ?)]; [|right; exists x; set_solver].
    destruct A1 as [->|(x & Hx & ?)]; [by left|right; exists x; set_solver].
Qed.

Lemma finds_ext T T' min rs min' : (∀ x, T x ↔ T' x) → finds T min rs min' → finds T' min rs min'.
Proof. intros HT [? ? ? ? ?]. split; naive_solver. Qed.

(** A search through several candidates in turn. *)
Lemma flat_map_finds {A} (f : A → Z * list PublicKey → exec (list ComputedRouteSegment * (Z * list PublicKey)))
    (T : A → ComputedRouteSegment → Prop) l min exits :
  (∀ a min, a ∈ l → ∃ rs min', f a (min, exits) = Ret (rs, (min', exits)) ∧ finds (T a) min rs min') →
  ∃ rs min', exec_flat_map f l (min, exits) = Ret (rs, (min', exits)) ∧
    finds (fun x => ∃ a, a ∈ l ∧ T a x) min rs min'.
Proof.
  revert min. induction l as [|a l IH]; intros min Hf; simpl.
  { eexists _, _. split; [done|]. apply finds_nothing. set_solver. }
  destruct (Hf a min) as (rs1 & min1 & -> & H1); [set_solver|]. cbn [exec_bind].
  destruct (IH min1) as (rs2 & min2 & -> & H2); [set_solver|]. cbn [exec_bind].
  eexists _, _. split; [done|]. eapply finds_ext; [|by eapply finds_app].
  intros x. simpl. set_solver.
Qed.

(** The first step of a completion: done here, or on to a candidate. *)
Lemma leads_to_inv prefix u hops first last n route v :
  head prefix = Some first → list.last prefix = Some last → by_public_key db !! last = Some n →
  leads_to prefix u hops route v →
  if arrives_at prefix hops first n && country_ok (nr_public_key n) then route = prefix ∧ v = u
  else (arrives_at prefix hops first n = true ∨ stops hops = false) ∧
    ∃ r m, by_public_key db !! this_node db = Some r ∧ nr_public_key m ∈ full_neighbor_keys n db ∧
      by_public_key db !! nr_public_key m = Some m ∧
      candidate prefix (receipt_settlement_contract_opt (inner r)) m = true ∧
      leads_to (prefix ++ [nr_public_key m]) (new_cost m u (pred hops)) (pred hops) route v.
Proof.
  intros Hh Hl Hn Hlead.
  destruct Hlead as [? ? ? first' last' n' Hh' Hl' Hn' Ha Hc
                    |? ? ? first' last' n' r m ? ? Hh' Hl' Hn' Hgo ? ? ? ? ?];
    rewrite Hh in Hh'; injection Hh' as <-; rewrite Hl in Hl'; injection Hl' as <-;
    rewrite Hn in Hn'; injection Hn' as <-.
  - by rewrite Ha, Hc.
  - destruct (arrives_at _ _ _ _); [rewrite Hgo|]; (split; [auto|]); by exists r, m.
Qed.

(** The candidates of one step, each searched as [eng] should. *)
Lemma guts_finds eng prefix u hops first last n min exits :
  head prefix = Some first → list.last prefix = Some last → by_public_key db !! last = Some n →
  (if arrives_at prefix hops first n then country_ok (nr_public_key n) = false
   else stops hops = false) →
  (∀ m min, by_public_key db !! nr_public_key m = Some m → nr_public_key m ∉ prefix →
    ∃ rs min', eng (prefix ++ [nr_public_key m]) (new_cost m u (pred hops)) (pred hops) (min, exits)
        = Ret (rs, (min', exits)) ∧
      finds (fun x => leads_to (prefix ++ [nr_public_key m]) (new_cost m u (pred hops)) (pred hops)
                        (nodes x) (undesirability x)) min rs min') →
  ∃ rs min', routing_guts db target_opt payload_size direction hostname minimum_protocol_capabilities
      eng prefix u hops n (min, exits) = Ret (rs, (min', exits)) ∧
    finds (fun x => leads_to prefix u hops (nodes x) (undesirability x)) min rs min'.
Proof.
  intros Hhd Hlast Hn Hgo Heng. unfold routing_guts.
  destruct (inv_root _ Hi) as (r & Hr & _). rewrite Hr. cbn [exec_bind]. apply root_Ret in Hr.
  destruct (full_neighbors_returns n db) as (ns & Hns & _). rewrite Hns. cbn [exec_bind].
  edestruct (flat_map_finds (fun m st => eng (prefix ++ [nr_public_key m])
      (new_cost m u (pred hops)) (pred hops) st)
    (fun m x => leads_to (prefix ++ [nr_public_key m]) (new_cost m u (pred hops)) (pred hops)
                  (nodes x) (undesirability x))
    (filter (fun m => candidate prefix (receipt_settlement_contract_opt (inner r)) m = true) ns)
    min exits) as (rs & min' & Hrun & Hfinds).
  { intros m min1 [Hc Hm]%list_elem_of_filter. apply (full_neighbors_elem db n ns m Hi Hns) in Hm as [_ Hm].
    apply Heng; [done|]. unfold is_candidate in Hc. guards. done. }
  exists rs, min'. split; [exact Hrun|]. eapply finds_ext; [|exact Hfinds]. intros x. simpl. split.
  - intros (m & [Hc Hm]%list_elem_of_filter & Hx).
    apply (full_neighbors_elem db n ns m Hi Hns) in Hm as [Hk Hm].
    eapply leads_on; [exact Hhd|exact Hlast|exact Hn|exact Hgo|exact Hr|exact Hk|exact Hm|exact Hc|exact Hx].
  - intros Hx. apply (leads_to_inv _ _ _ _ _ _ _ _ Hhd Hlast Hn) in Hx.
    destruct (arrives_at prefix hops first n); [rewrite Hgo in Hx|]; cbn [andb] in Hx;
      destruct Hx as (_ & r' & m & Hr' & Hk & Hm & Hc & Hx); rewrite Hr in Hr'; injection Hr' as <-;
      exists m; (split; [|done]); apply list_elem_of_filter; (split; [done|]);
      by apply (full_neighbors_elem db n ns m Hi Hns).
Qed.

(** The pruned search, with enough fuel, finds the best of the routes there
    are. *)
Lemma engine_finds fuel prefix u hops min exits :
  prefix ≠ [] → NoDup prefix → (∀ k, k ∈ prefix → k ∈ keys db) →
  (size (by_public_key db) < fuel + length prefix)%nat → 0 ≤ u ≤ MAX_I64 →
  ∃ rs min', engine fuel prefix u hops (min, exits) = Ret (rs, (min', exits)) ∧
    finds (fun x => leads_to prefix u hops (nodes x) (undesirability x)) min rs min'.
Proof.
  revert prefix u hops min. induction fuel as [|fuel IH]; intros prefix u hops min Hne Hnd Hin Hfuel Hu.
  { pose proof (prefix_length db prefix Hnd Hin). lia. }
  cbn [routing_engine]. destruct ((min <? u) && negb false) eqn:Hprune.
  { eexists _, _. split; [done|]. apply finds_nothing. intros x Hx.
    apply leads_to_mono in Hx; [|done]. guards. lia. }
  apply andb_false_iff in Hprune as [Hprune|]; [|done]. guards.
  destruct (head prefix) as [first|] eqn:Hhd; [|by destruct prefix].
  destruct (list.last prefix) as [last|] eqn:Hlast; [|by apply last_None in Hlast].
  destruct (last_known _ _ _ Hin Hlast) as [n Hn].
  unfold node_by_key. cbn [expect exec_bind]. rewrite Hn. cbn [expect exec_bind negb andb].
  pose proof (fun rt v => leads_to_inv _ u hops _ _ _ rt v Hhd Hlast Hn) as Hinv.
  assert ((if arrives_at prefix hops first n then country_ok (nr_public_key n) = false
           else stops hops = false) →
    ∃ rs min', routing_guts db target_opt payload_size direction hostname minimum_protocol_capabilities
      (engine fuel) prefix u hops n (min, exits) = Ret (rs, (min', exits)) ∧
    finds (fun x => leads_to prefix u hops (nodes x) (undesirability x)) min rs min') as Hguts.
  { intros Hgo. apply (guts_finds _ _ _ _ _ _ _ _ _ Hhd Hlast Hn Hgo). intros m min1 Hm Hnew. apply IH.
    - by destruct prefix.
    - apply NoDup_app. split; [done|]. split; [set_solver|apply NoDup_singleton].
    - intros k [?|Hk]%elem_of_app; [auto|]. apply list_elem_of_singleton in Hk as ->.
      apply known_iff. by exists m.
    - rewrite length_app. simpl. lia.
    - pose proof (new_cost_bounds m u (pred hops) (Hw _ _ Hm) Hu). lia. }
  destruct (arrives_at prefix hops first n) eqn:Harr; [destruct (country_ok _) eqn:Hcc|].
  - assert (∀ x, leads_to prefix u hops (nodes x) (undesirability x) ↔ x = mkComputed prefix u) as Hone.
    { intros [rt v]. simpl. split; [intros Hx%Hinv; naive_solver|]. intros [= -> ->].
      by eapply leads_here. }
    eexists _, _. split; [done|]. split; [destruct (u <? min) eqn:E; guards; lia|..].
    + intros x ->%list_elem_of_singleton. by apply Hone.
    + intros x ->%Hone. simpl. destruct (u <? min) eqn:E; guards; lia.
    + intros x ->%Hone _. by apply list_elem_of_singleton.
    + destruct (u <? min) eqn:E; [right|by left]. eexists. by split; [apply list_elem_of_singleton|].
  - by apply Hguts.
  - destruct (stops hops) eqn:Hstop; [|by apply Hguts].
    eexists _, _. split; [done|]. apply finds_nothing. intros x Hx%Hinv. exfalso. cbn [andb] in Hx.
    naive_solver.
Qed.

(** A completion is a way, long enough, whose end qualifies. *)
Lemma leads_to_way prefix u hops route v :
  leads_to prefix u hops route v →
  ∃ ext first last n, route = prefix ++ ext ∧
    travels db target_opt direction minimum_protocol_capabilities prefix ext ∧
    (hops ≤ length ext)%nat ∧
    head route = Some first ∧ list.last route = Some last ∧ by_public_key db !! last = Some n ∧
    arrives_at route 0 first n = true ∧ country_ok last = true ∧
    (target_opt = None → fallback_preference prefs = Nothing → length ext = hops).
Proof.
  induction 1 as [prefix u hops first last n Hh Hl Hn Ha Hc
    |prefix u hops first last n r m route v Hh Hl Hn Hgo Hr Hk Hm Hc _ IH].
  - assert (hops = O) as -> by (unfold arrives, route_length_qualifies in Ha; by guards).
    rewrite (di_keys _ Hi _ _ Hn) in Hc. exists [], first, last, n. rewrite app_nil_r.
    split; [done|]. split; [constructor|]. by repeat split.
  - destruct IH as (ext & first' & last' & n' & -> & Htr & Hlen & Hh' & Hl' & Hn' & Ha' & Hc' & Hex).
    rewrite <- app_assoc in *. exists (nr_public_key m :: ext), first', last', n'.
    split; [done|]. split; [by econstructor|]. split; [simpl; lia|]. repeat (split; [done|]).
    intros Ht Hf. simpl. rewrite (Hex Ht Hf). destruct hops as [|hops]; [exfalso|simpl; lia].
    destruct (arrives_at prefix 0 first n).
    + unfold validate_last_node_country_code, last_node_is_always_true in Hgo.
      by rewrite Hf in Hgo.
    + unfold gives_up in Hgo. by rewrite Ht, Hf in Hgo.
Qed.
End Spec.

(** ** Research of the exits *)

Section Research.
Context `{H : HashOrder} (db : NeighborhoodDatabase) (prefs : UserExitPreferences).
Context (payload_size : Z) (hostname : string) (Hi : db_inv db).

Abbreviation research := (routing_engine db prefs None payload_size Over hostname 0 true).

(** An exit at the end of a way of at least [hops] more nodes, and not next to
    the start when there is anything between. *)
Definition exit_beyond (prefix : list PublicKey) (hops : nat) (e : PublicKey) : Prop :=
  ∃ ext first, travels db None Over 0 prefix ext ∧ (hops ≤ length ext)%nat ∧
    list.last (prefix ++ ext) = Some e ∧ head prefix = Some first ∧
    validate_last_node_not_too_close_to_first_node db (length (prefix ++ ext)) first e = true.

(** The exits known before stay, those that come are new and [P]. *)
Record gathers (P : PublicKey → Prop) (exits exits' : list PublicKey) : Prop := {
  ga_keep e : e ∈ exits → e ∈ exits';
  ga_nodup : NoDup exits → NoDup exits';
  ga_new e : e ∈ exits' → e ∈ exits ∨ P e;
}.

Lemma gathers_refl P exits : gathers P exits exits.
Proof. split; auto. Qed.

Lemma gathers_trans P a b c : gathers P a b → gathers P b c → gathers P a c.
Proof. intros [? ? ?] [? ? ?]. split; naive_solver. Qed.

Lemma gathers_impl (P Q : PublicKey → Prop) a b : (∀ e, P e → Q e) → gathers P a b → gathers Q a b.
Proof. intros HPQ [? ? ?]. split; naive_solver. Qed.

Lemma flat_map_gathers {A} (f : A → Z * list PublicKey → exec (list ComputedRouteSegment * (Z * list PublicKey)))
    (P : PublicKey → Prop) l min exits :
  (∀ a exits, a ∈ l → ∃ exits', f a (min, exits) = Ret ([], (min, exits')) ∧ gathers P exits exits') →
  ∃ exits', exec_flat_map f l (min, exits) = Ret ([], (min, exits')) ∧ gathers P exits exits'.
Proof.
  revert exits. induction l as [|a l IH]; intros exits Hf; simpl.
  { eexists. split; [done|]. apply gathers_refl. }
  destruct (Hf a exits) as (e1 & -> & H1); [set_solver|]. cbn [exec_bind].
  destruct (IH e1) as (e2 & -> & H2); [set_solver|]. cbn [exec_bind].
  eexists. split; [done|]. by eapply gathers_trans.
Qed.

Lemma exit_beyond_step prefix hops last n r m e :
  list.last prefix = Some last → by_public_key db !! last = Some n →
  by_public_key db !! this_node db = Some r →
  nr_public_key m ∈ full_neighbor_keys n db → by_public_key db !! nr_public_key m = Some m →
  is_candidate None Over 0 prefix (receipt_settlement_contract_opt (inner r)) m = true →
  exit_beyond (prefix ++ [nr_public_key m]) (pred hops) e → exit_beyond prefix hops e.
Proof.
  intros Hl Hn Hr Hk Hm Hc (ext & first & Htr & Hlen & Hlast & Hhd & Hfar).
  rewrite <- app_assoc in Hlast, Hfar. exists (nr_public_key m :: ext), first.
  split; [by econstructor|]. split; [simpl; lia|]. split; [done|]. split; [|done].
  by destruct prefix.
Qed.

Lemma research_gathers fuel prefix u hops min exits :
  prefix ≠ [] → NoDup prefix → (∀ k, k ∈ prefix → k ∈ keys db) →
  (size (by_public_key db) < fuel + length prefix)%nat →
  ∃ exits', research fuel prefix u hops (min, exits) = Ret ([], (min, exits')) ∧
    gathers (exit_beyond prefix hops) exits exits'.
Proof.
  revert prefix u hops exits. induction fuel as [|fuel IH]; intros prefix u hops exits Hne Hnd Hin Hfuel.
  { pose proof (prefix_length db prefix Hnd Hin). lia. }
  cbn [routing_engine]. rewrite andb_false_r.
  destruct (head prefix) as [first|] eqn:Hhd; [|by destruct prefix].
  destruct (list.last prefix) as [last|] eqn:Hlast; [|by apply last_None in Hlast].
  destruct (last_known _ _ _ Hin Hlast) as [n Hn].
  unfold node_by_key. cbn [expect exec_bind]. rewrite Hn. cbn [expect exec_bind negb andb].
  assert (∀ exits0, ∃ exits', routing_guts db None payload_size Over hostname 0 (research fuel) prefix u
      hops n (min, exits0) = Ret ([], (min, exits')) ∧ gathers (exit_beyond prefix hops) exits0 exits')
    as Hguts.
  { intros exits0. unfold routing_guts. destruct (inv_root _ Hi) as (r & Hr & _). rewrite Hr.
    cbn [exec_bind]. apply root_Ret in Hr.
    destruct (full_neighbors_returns n db) as (ns & Hns & _). rewrite Hns. cbn [exec_bind].
    apply flat_map_gathers. intros m exits1 [Hc Hm]%list_elem_of_filter.
    apply (full_neighbors_elem db n ns m Hi Hns) in Hm as [Hk Hm].
    destruct (candidate_usable _ _ _ _ _ _ _ Hr Hm Hc) as [Hnew _].
    edestruct (IH (prefix ++ [nr_public_key m])) as (exits2 & Hrun & Hga).
    - by destruct prefix.
    - apply NoDup_app. split; [done|]. split; [set_solver|apply NoDup_singleton].
    - intros k [?|Hk']%elem_of_app; [auto|]. apply list_elem_of_singleton in Hk' as ->.
      apply known_iff. by exists m.
    - rewrite length_app. simpl. lia.
    - exists exits2. split; [exact Hrun|]. eapply gathers_impl; [|exact Hga]. intros e.
      by eapply exit_beyond_step. }
  destruct (arrives db None prefix hops first n) eqn:Harr.
  - case_bool_decide as Hold; [eexists; split; [done|apply gathers_refl]|].
    destruct (Hguts (exits ++ [last])) as (exits' & Hrun & Hga). exists exits'. split; [exact Hrun|].
    eapply gathers_trans; [|exact Hga]. split.
    + set_solver.
    + intros Hnd'. apply NoDup_app. split; [done|]. split; [set_solver|apply NoDup_singleton].
    + intros e [?|He]%elem_of_app; [by left|right]. apply list_elem_of_singleton in He as ->.
      unfold arrives, route_length_qualifies in Harr. guards. subst hops.
      exists [], first. rewrite app_nil_r. split; [constructor|]. split; [done|]. split; [done|].
      split; [done|]. by rewrite <- (di_keys _ Hi _ _ Hn).
  - unfold gives_up. cbn [negb]. rewrite !andb_false_r. cbn [andb]. apply Hguts.
Qed.
End Research.

(** ** The properties *)

Section Properties.
Context `{H : HashOrder} `{C : Choose R} (db : NeighborhoodDatabase) (prefs : UserExitPreferences).

Lemma initial_bounds source payload_size direction :
  map_Forall (fun _ => record_widths) (by_public_key db) → 0 ≤ payload_size → source ∈ keys db →
  ∃ u, compute_initial_undesirability db source payload_size direction = Ret u ∧ 0 ≤ u ≤ MAX_I64.
Proof.
  intros Hw Hp [n Hn]%known_iff. unfold compute_initial_undesirability.
  case_bool_decide; [by exists 0|]. unfold node_by_key. rewrite Hn. cbn [exec_bind expect].
  eexists. split; [done|]. by apply undesirability_bounds, Hp; apply (Hw _ _ Hn).
Qed.

(** The best segment, against the routes there are. *)
Lemma best_segment_spec source target_opt minimum_hops payload_size direction hostname caps rng :
  db_inv db → map_Forall (fun _ => record_widths) (by_public_key db) → 0 ≤ payload_size →
  source ∈ keys db →
  ∃ u o, compute_initial_undesirability db source payload_size direction = Ret u ∧
    find_best_route_segment db prefs source target_opt minimum_hops payload_size direction hostname
      caps rng = Ret o ∧
    match o with
    | None => ∀ route v, ¬ leads_to db prefs target_opt payload_size direction hostname caps
                             [source] u minimum_hops route v
    | Some route => ∃ v, leads_to db prefs target_opt payload_size direction hostname caps
                           [source] u minimum_hops route v ∧
        ∀ route' v', leads_to db prefs target_opt payload_size direction hostname caps
                       [source] u minimum_hops route' v' → v ≤ v'
    end.
Proof.
  intros Hi Hw Hp Hs. destruct (initial_bounds source payload_size direction Hw Hp Hs) as (u & Hu & Hb).
  unfold find_best_route_segment. rewrite Hu. cbn [exec_bind].
  destruct (engine_finds db prefs target_opt payload_size direction hostname caps Hi Hw Hp
    (enough_fuel db) [source] u minimum_hops MAX_I64 []) as (rs & min' & -> & [Hle Hsound Hleast Hcomp Hatt]).
  { done. } { apply NoDup_singleton. } { intros k ->%list_elem_of_singleton. done. }
  { unfold enough_fuel. simpl. lia. } { done. }
  cbn [exec_bind]. eexists _, _. split; [done|]. split; [done|]. unfold choose_uniform_minimum_route.
  set (best := filter _ rs).
  assert (∀ route v, leads_to db prefs target_opt payload_size direction hostname caps [source] u
            minimum_hops route v → best ≠ []) as Hsome.
  { intros route v Hr. assert (∃ x, x ∈ rs ∧ undesirability x = min') as (x & Hx & Hmin).
    { destruct Hatt as [Heq|]; [|done]. exists (mkComputed route v).
      pose proof (Hleast (mkComputed route v) Hr). simpl in *.
      apply leads_to_mono in Hr as Hv; [|done..]. split; [apply Hcomp; [done|simpl; lia]|lia]. }
    assert (x ∈ best) by (by apply list_elem_of_filter). intros Hb'. rewrite Hb' in *. set_solver. }
  destruct (choose rng best) as [x|] eqn:Hch; simpl.
  - apply choose_elem, list_elem_of_filter in Hch as [Hmin Hx]. exists (undesirability x).
    split; [by apply Hsound|]. intros r' v' Hr'. rewrite Hmin.
    apply (Hleast (mkComputed r' v') Hr').
  - intros route v Hr. apply Hsome in Hr. destruct (choose_some rng best Hr) as [? ?]. congruence.
Qed.

(** What every route of a search from [source] is like. *)
Definition sound_route (source : PublicKey) (target_opt : option PublicKey) (minimum_hops : nat)
    (direction : RouteDirection) (caps : Z) (route : list PublicKey) : Prop :=
  ∃ ext last, route = source :: ext ∧ NoDup route ∧ linked db route ∧
    Forall (usable db target_opt direction caps) ext ∧ (minimum_hops ≤ length ext)%nat ∧
    list.last route = Some last ∧ (∀ target, target_opt = Some target → last = target) ∧
    ((2 < length route)%nat → db_has_half_neighbor db last source = false) ∧
    validate_last_node_country_code db prefs direction false last = true ∧
    (target_opt = None → fallback_preference prefs = Nothing → length ext = minimum_hops).

Lemma leads_to_sound source target_opt payload_size direction hostname caps u hops route v :
  db_inv db →
  leads_to db prefs target_opt payload_size direction hostname caps [source] u hops route v →
  sound_route source target_opt hops direction caps route.
Proof.
  intros Hi Hlead. apply leads_to_way in Hlead as
    (ext & first & last & n & -> & Htr & Hlen & Hh & Hl & Hn & Ha & Hc & Hex); [|done].
  apply travels_facts in Htr as (Hnd & Hus & Hlink); [|done|apply NoDup_singleton].
  injection Hh as <-. exists ext, last. split; [done|]. split; [done|].
  split; [by apply (Hlink source)|]. split; [done|]. split; [done|]. split; [done|].
  unfold arrives in Ha. guards. pose proof (di_keys _ Hi _ _ Hn) as Hk. simpl in Hk.
  split; [|split; [|done]].
  - intros t ->. unfold last_key_qualifies in *. guards. congruence.
  - intros Hlong. unfold validate_last_node_not_too_close_to_first_node in *.
    rewrite (proj2 (Nat.leb_gt _ _)) in * by exact Hlong. guards. congruence.
Qed.

(** [C14] The pruned, randomised search is exact.  On a database in its
    invariant it returns (the fuel is enough, nothing panics); it returns no
    route only when there is none; and the route it returns starts at the
    source, visits no node twice, goes from full neighbor to full neighbor over
    nodes that route data and have the capabilities and the settlement contract
    asked for, is at least as long as asked, ends at the target if there is
    one, does not end next to the source, respects the user's countries, and is
    of the least undesirability of all routes there are. *)
Theorem best_route_exact source target_opt minimum_hops payload_size direction hostname caps rng :
  db_inv db → map_Forall (fun _ => record_widths) (by_public_key db) → 0 ≤ payload_size →
  source ∈ keys db →
  ∃ u o, compute_initial_undesirability db source payload_size direction = Ret u ∧
    find_best_route_segment db prefs source target_opt minimum_hops payload_size direction hostname
      caps rng = Ret o ∧
    match o with
    | None => ∀ route v, ¬ leads_to db prefs target_opt payload_size direction hostname caps
                             [source] u minimum_hops route v
    | Some route => sound_route source target_opt minimum_hops direction caps route ∧
        ∃ v, leads_to db prefs target_opt payload_size direction hostname caps
               [source] u minimum_hops route v ∧
          ∀ route' v', leads_to db prefs target_opt payload_size direction hostname caps
                         [source] u minimum_hops route' v' → v ≤ v'
    end.
Proof.
  intros Hi Hw Hp Hs.
  destruct (best_segment_spec source target_opt minimum_hops payload_size direction hostname caps rng
    Hi Hw Hp Hs) as (u & o & Hu & Hrun & Ho).
  exists u, o. split; [done|]. split; [done|]. destruct o as [route|]; [|done].
  destruct Ho as (v & Hv & Hmin). split; [by eapply leads_to_sound|]. by exists v.
Qed.

(** The research of possible exits returns, lists none twice, and each is
    at the end of a way from the source of at least the hops asked for, without
    cycles and over nodes that route data, and not next to the source. *)
Theorem researched_exits_reachable source minimum_hops :
  db_inv db → source ∈ keys db →
  ∃ exits, find_exit_locations db prefs source minimum_hops = Ret exits ∧ NoDup exits ∧
    Forall (exit_beyond db [source] minimum_hops) exits.
Proof.
  intros Hi Hs. unfold find_exit_locations.
  destruct (research_gathers db prefs PAYLOAD_ZERO_SIZE "booga.com" Hi (enough_fuel db) [source] 0
    minimum_hops MAX_I64 []) as (exits & -> & [_ Hnd Hnew]).
  { done. } { apply NoDup_singleton. } { by intros k ->%list_elem_of_singleton. }
  { unfold enough_fuel. simpl. lia. }
  cbn [exec_bind]. exists exits. split; [done|]. split; [apply Hnd; constructor|].
  apply Forall_forall. intros e [?|?]%Hnew; [set_solver|done].
Qed.
End Properties.

(** ** Concrete searches, over three nodes in a row *)

Global Instance choose_first : Choose unit.
Proof.
  refine {| choose := fun _ l => head l |}.
  - intros _ [|y l] x; [done|]. intros [= ->]. set_solver.
  - intros _ [|y l]; [done|]. by eexists.
Defined.

Lemma sample_widths : map_Forall (fun _ => record_widths) (by_public_key Sample.db).
Proof.
  unfold Sample.db. simpl. repeat apply map_Forall_insert_2; [| | |apply map_Forall_empty]; by split.
Qed.

Lemma best_route_exact_witness :
  find_best_route_segment Sample.db preferences_new [1] None 2 100 Over "host" 0 () =
    Ret (Some [[1]; [2]; [3]]) ∧
  sound_route Sample.db preferences_new [1] None 2 Over 0 [[1]; [2]; [3]].
Proof.
  assert (find_best_route_segment Sample.db preferences_new [1] None 2 100 Over "host" 0 () =
    Ret (Some [[1]; [2]; [3]])) as Hrun by by vm_compute.
  split; [exact Hrun|].
  destruct (best_route_exact Sample.db preferences_new [1] None 2 100 Over "host" 0 ()
    Sample.db_ok sample_widths) as (u & o & _ & Ho & Hres); [done|by apply known_iff; eexists|].
  rewrite Hrun in Ho. injection Ho as <-. apply Hres.
Defined.

Lemma researched_exits_reachable_witness :
  ∃ exits, find_exit_locations Sample.db preferences_new [1] 2 = Ret exits ∧ exits = [[3]] ∧
    Forall (exit_beyond Sample.db [[1]] 2) exits.
Proof.
  destruct (researched_exits_reachable Sample.db preferences_new [1] 2 Sample.db_ok)
    as (exits & Hrun & _ & Hall); [by apply known_iff; eexists|].
  exists exits. split; [exact Hrun|]. split; [|exact Hall].
  assert (find_exit_locations Sample.db preferences_new [1] 2 = Ret [[3]]) as Hrun' by by vm_compute.
  rewrite Hrun in Hrun'. by injection Hrun'.
Defined.
