(* ===== verification/RouteQuery.v ===== *)
(** * RouteQuery: answering a request for a route

    The part of [Neighborhood] ([neighborhood/mod.rs]) that composes the
    search ([RouteFinder]) with the construction of onion routes ([Route]):
    queries for a round trip, what each node of it is expected to charge for,
    the minimum number of hops and the patch size, and the countries a user may
    exit from. *)

From stdpp Require Import base list numbers option strings gmap sorting fin_maps.
From Stdlib Require Import ZArith Lia.
From S2P Require Import Prelude Text CountrySerde CountryFinder CryptDE Wallet ServiceReceipt.
From S2P Require Import Route NodeRecord NeighborhoodDb ExitPreferences Gossip RouteFinder.

Local Open Scope Z_scope.
Local Open Scope rust_scope.
Local Open Scope list_scope.

(** ** Hops and patches *)

Inductive Hops := OneHop | TwoHops | ThreeHops | FourHops | FiveHops | SixHops.
Definition hops_usize (h : Hops) : nat :=
  match h with
  | OneHop => 1 | TwoHops => 2 | ThreeHops => 3 | FourHops => 4 | FiveHops => 5 | SixHops => 6
  end.

(** [FromStr for Hops] *)
Definition hops_from_str (value : string) : result Hops string :=
  if bool_decide (value = "1"%string) then Ok OneHop
  else if bool_decide (value = "2"%string) then Ok TwoHops
  else if bool_decide (value = "3"%string) then Ok ThreeHops
  else if bool_decide (value = "4"%string) then Ok FourHops
  else if bool_decide (value = "5"%string) then Ok FiveHops
  else if bool_decide (value = "6"%string) then Ok SixHops
  else Err "Invalid value for min hops provided"%string.

Definition DEFAULT_MIN_HOPS : Hops := ThreeHops.

Definition calculate_db_patch_size (min_hops : Hops) : Z :=
  let db_patch_size :=
    if (hops_usize min_hops <=? hops_usize DEFAULT_MIN_HOPS)%nat then DEFAULT_MIN_HOPS
    else min_hops in
  Z.of_nat (hops_usize db_patch_size).

(** The fields of [Neighborhood] used here. *)
Record NeighborhoodState := mkNeighborhood {
  nb_cryptde : CryptDE;
  nb_db : NeighborhoodDatabase;
  nb_prefs : UserExitPreferences;
  nb_consuming_wallet_opt : option WalletKind;
  nb_contract : Address;
  nb_zero_hop : bool;
  nb_min_hops : Hops;
  nb_db_patch_size : Z;
}.

Definition with_min_hops (nb : NeighborhoodState) (h : Hops) (patch : Z) : NeighborhoodState :=
  mkNeighborhood (nb_cryptde nb) (nb_db nb) (nb_prefs nb) (nb_consuming_wallet_opt nb) (nb_contract nb)
    (nb_zero_hop nb) h patch.
Definition with_prefs (nb : NeighborhoodState) (p : UserExitPreferences) : NeighborhoodState :=
  mkNeighborhood (nb_cryptde nb) (nb_db nb) p (nb_consuming_wallet_opt nb) (nb_contract nb)
    (nb_zero_hop nb) (nb_min_hops nb) (nb_db_patch_size nb).
Definition with_database (nb : NeighborhoodState) (db : NeighborhoodDatabase) : NeighborhoodState :=
  mkNeighborhood (nb_cryptde nb) db (nb_prefs nb) (nb_consuming_wallet_opt nb) (nb_contract nb)
    (nb_zero_hop nb) (nb_min_hops nb) (nb_db_patch_size nb).

Definition set_min_hops_and_patch_size (nb : NeighborhoodState) (new_min_hops : Hops)
    : NeighborhoodState := with_min_hops nb new_min_hops (calculate_db_patch_size new_min_hops).

(** At start-up, with the value of the persistent configuration. *)
Definition validate_or_replace_min_hops_value (nb : NeighborhoodState) (value_in_db : Hops)
    : NeighborhoodState :=
  if negb (hops_usize (nb_min_hops nb) =? hops_usize value_in_db)%nat
  then with_min_hops nb value_in_db (nb_db_patch_size nb) else nb.

(** ** Queries *)

Record Host := mkHost { host_name : string; host_port : Z }.

Record RouteQueryMessage := mkQuery {
  target_key_opt : option PublicKey;
  target_component : Component;
  return_component_opt : option Component;
  payload_size : Z;
  host : Host;
  minimum_protocol_capabilities : Z;
  query_receipt_request_opt : option ReceiptSessionRequest;
}.

Inductive ExpectedService :=
| RoutingService (k : PublicKey) (w : WalletKind) (r : RatePack)
| ExitService (k : PublicKey) (w : WalletKind) (r : RatePack)
| NoService.

Record RouteQueryResponse := mkResponse {
  response_route : Route;
  request_services : list ExpectedService;
  response_services : list ExpectedService;
  response_host : Host;
}.

Inductive QueryError :=
| NoRoutes (minimum_hop_count : nat) (c : Component)
| EmptySegment
| NoConsumingWallet
| NoSegmentKeys
| UnknownNeighbor.

Definition anticipated_response_payload_len (request_payload_len : Z) : Z :=
  saturating_mul 64 request_payload_len RESPONSE_UNDESIRABILITY_FACTOR.

Section Query.
Context `{E : Ethsign} `{HC : HopCbor} `{H : HashOrder} `{C : Choose R}.

Definition make_route_segment (nb : NeighborhoodState) (origin : PublicKey)
    (target_opt : option PublicKey) (minimum_hop_count : nat) (component : Component)
    (payload : Z) (direction : RouteDirection) (hostname : string) (caps : Z) (rng : R)
    : fallible RouteSegment QueryError :=
  let* route_opt := find_best_route_segment (nb_db nb) (nb_prefs nb) origin target_opt
                      minimum_hop_count payload direction hostname caps rng in
  Ret (match route_opt with
       | None => Err (NoRoutes minimum_hop_count component)
       | Some route => Ok (mkSegment route component)
       end).

Definition calculate_expected_service (db : NeighborhoodDatabase) (k : PublicKey)
    (originator_key exit_key : option PublicKey) : fallible ExpectedService QueryError :=
  match node_by_key db k with
  | Some n =>
      let* r := root db in
      if bool_decide (k = nr_public_key r) then Ret (Ok NoService)
      else
        match originator_key, exit_key with
        | Some o, Some e =>
            if bool_decide (k = o) || bool_decide (k = e)
            then Ret (Ok (ExitService k (earning_wallet (inner n)) (rate_pack (inner n))))
            else Ret (Ok (RoutingService k (earning_wallet (inner n)) (rate_pack (inner n))))
        | _, _ => Ret (Err NoSegmentKeys)
        end
  | None => Ret (Err UnknownNeighbor)
  end.

(** [iter.map(f).collect::<Result<_, _>>()] *)
Fixpoint try_mapM {A B Er} (f : A → fallible B Er) (l : list A) : fallible (list B) Er :=
  match l with
  | [] => Ret (Ok [])
  | a :: l => let! b := f a in let! bs := try_mapM f l in Ret (Ok (b :: bs))
  end.

Definition make_expected_services (db : NeighborhoodDatabase) (segment : RouteSegment)
    : fallible (list ExpectedService) QueryError :=
  try_mapM (fun k => calculate_expected_service db k (head (Route.keys segment))
                       (list.last (Route.keys segment))) (Route.keys segment).

Definition compose_route_query_response_with_receipts (nb : NeighborhoodState)
    (over back : RouteSegment) (host : Host) (request_opt : option ReceiptSessionRequest)
    (rand : nat → list Z) : fallible RouteQueryResponse QueryError :=
  let segments := [over; back] in
  if existsb (fun rs => (length (Route.keys rs) =? 0)%nat) segments then Ret (Err EmptySegment)
  else
    let has_long_segment := existsb (fun rs => (2 <? length (Route.keys rs))%nat) segments in
    if bool_decide (nb_consuming_wallet_opt nb = None) && has_long_segment
    then Ret (Err NoConsumingWallet)
    else
      let! expected_request_services := make_expected_services (nb_db nb) over in
      let! expected_response_services := make_expected_services (nb_db nb) back in
      let* built := round_trip_with_receipts over back (nb_cryptde nb) (nb_consuming_wallet_opt nb)
                      (Some (nb_contract nb)) request_opt rand in
      let* r := expect_ok built in
      Ret (Ok (mkResponse r expected_request_services expected_response_services host)).

(** The two draws of the search and the bytes of the encryption are given. *)
Definition make_round_trip_route (nb : NeighborhoodState) (msg : RouteQueryMessage)
    (rng_over rng_back : R) (rand : nat → list Z) : fallible RouteQueryResponse QueryError :=
  let! over := make_route_segment nb (public_key (nb_cryptde nb)) (target_key_opt msg)
    (hops_usize (nb_min_hops nb)) (target_component msg) (payload_size msg) Over
    (host_name (host msg)) (minimum_protocol_capabilities msg) rng_over in
  let* last_key := expect (list.last (Route.keys over)) in
  let* return_component := expect (return_component_opt msg) in
  let! back := make_route_segment nb last_key (Some (public_key (nb_cryptde nb)))
    (hops_usize (nb_min_hops nb)) return_component
    (anticipated_response_payload_len (payload_size msg)) Back
    (host_name (host msg)) (minimum_protocol_capabilities msg) rng_back in
  compose_route_query_response_with_receipts nb over back (host msg)
    (query_receipt_request_opt msg) rand.

Definition zero_hop_route_response (nb : NeighborhoodState) (host : Host) (rand : nat → list Z)
    : exec RouteQueryResponse :=
  let me := public_key (nb_cryptde nb) in
  let* built := round_trip (mkSegment [me; me] ProxyClient) (mkSegment [me; me] ProxyServer)
                  (nb_cryptde nb) None None rand in
  let* r := expect_ok built in
  Ret (mkResponse r [NoService; NoService] [NoService; NoService] host).

Definition handle_route_query_message (nb : NeighborhoodState) (msg : RouteQueryMessage)
    (rng_over rng_back : R) (rand : nat → list Z) : exec (option RouteQueryResponse) :=
  let* route_result :=
    (if nb_zero_hop nb
     then let* r := zero_hop_route_response nb (host msg) rand in Ret (Ok r)
     else make_round_trip_route nb msg rng_over rng_back rand) in
  Ret (result_ok route_result).

(** ** Countries *)

(** [Vec::dedup] on a sorted vector of strings *)
Fixpoint dedup_strings (l : list string) : list string :=
  match l with
  | a :: ((b :: _) as rest) =>
      if bool_decide (a = b) then dedup_strings rest else a :: dedup_strings rest
  | _ => l
  end.

Definition init_db_countries (nb : NeighborhoodState) : exec (list string) :=
  let* exit_nodes := find_exit_locations (nb_db nb) (nb_prefs nb) (this_node (nb_db nb))
                       (hops_usize (nb_min_hops nb)) in
  let db_countries := omap (fun k =>
    match node_by_key (nb_db nb) k with
    | Some n => country_code_opt (inner n)
    | None => None
    end) exit_nodes in
  Ret (dedup_strings (merge_sort String.le db_countries)).

Definition with_db_countries (p : UserExitPreferences) (cs : list string) : UserExitPreferences :=
  mkPreferences (exit_countries p) (fallback_preference p) (locations_opt p) cs.
Definition with_fallback (p : UserExitPreferences) (f : FallbackPreference) : UserExitPreferences :=
  mkPreferences (exit_countries p) f (locations_opt p) (db_countries p).

(** The reply to the UI: an error that lists missing countries, or the state of
    the preferences. *)
Inductive ExitLocationReply :=
| MissingCountriesError (missing : list string)
| ExitLocationResponse (fallback_routing : bool) (selection : list ExitLocation)
    (countries : option (list string)) (missing : list string).

Definition create_exit_location_response (p : UserExitPreferences) (missing : list string)
    (show_countries : bool) : ExitLocationReply :=
  if error_message_indicates p missing then MissingCountriesError missing
  else
    let sorted := match concat (map country_codes (default [] (locations_opt p))), missing with
                  | [], [] => missing
                  | _, _ => merge_sort String.le missing
                  end in
    ExitLocationResponse (is_fallback_routing_active p) (default [] (locations_opt p))
      (if show_countries then Some (db_countries p) else None) sorted.

(** [handle_exit_location_message] *)
Definition handle_exit_location_message (nb : NeighborhoodState) (requested : list ExitLocation)
    (fallback_routing show_countries : bool) : exec (ExitLocationReply * NeighborhoodState) :=
  let* countries := init_db_countries nb in
  let '(p, missing) := extract_exit_locations (with_db_countries (nb_prefs nb) countries) requested in
  let p := with_fallback p
    (match fallback_routing, requested with
     | _, [] => Nothing
     | true, _ => ExitCountryWithFallback
     | false, _ => ExitCountryNoFallback
     end) in
  let p := if show_countries then p else set_exit_locations_opt p requested in
  let* (p, db) :=
    (if (1 <? size (by_public_key (nb_db nb)))%nat
     then set_country_undesirability_and_exit_countries p (nb_db nb) requested
     else Ret (p, nb_db nb)) in
  Ret (create_exit_location_response p missing show_countries,
       with_prefs (with_database nb db) p).
End Query.

(** ** What a query is answered with *)

Section Answers.
Context `{E : Ethsign} `{HC : HopCbor} `{HL : !HopCborLaws HC} `{H : HashOrder} `{C : Choose R}.

(** What the node [k] of a segment with exit [exit] is to be paid for. *)
Definition is_service_of (db : NeighborhoodDatabase) (exit k : PublicKey) (s : ExpectedService) : Prop :=
  if bool_decide (k = this_node db) then s = NoService
  else ∃ n, by_public_key db !! k = Some n ∧
    s = if bool_decide (k = exit)
        then ExitService k (earning_wallet (inner n)) (rate_pack (inner n))
        else RoutingService k (earning_wallet (inner n)) (rate_pack (inner n)).

Lemma try_mapM_Ok {A B Er} (f : A → fallible B Er) (P : A → B → Prop) l :
  (∀ a, a ∈ l → ∃ b, f a = Ret (Ok b) ∧ P a b) →
  ∃ bs, try_mapM f l = Ret (Ok bs) ∧ Forall2 P l bs.
Proof.
  induction l as [|a l IH]; intros Hf; simpl; [by exists []|].
  destruct (Hf a) as (b & -> & Hb); [set_solver|]. cbn [try_bind].
  destruct IH as (bs & -> & Hbs); [set_solver|]. cbn [try_bind].
  eexists. split; [done|]. by constructor.
Qed.

(** One end of the segment is the exit, the other the local node. *)
Lemma expected_services_Ok db seg exit a b :
  db_inv db → (∀ k, k ∈ Route.keys seg → k ∈ keys db) →
  head (Route.keys seg) = Some a → list.last (Route.keys seg) = Some b →
  (a = exit ∧ b = this_node db ∨ a = this_node db ∧ b = exit) →
  ∃ ss, make_expected_services db seg = Ret (Ok ss) ∧
    Forall2 (is_service_of db exit) (Route.keys seg) ss.
Proof.
  intros Hi Hin Ha Hb Hends. unfold make_expected_services. apply try_mapM_Ok. intros k Hk.
  apply Hin, known_iff in Hk as [n Hn]. unfold calculate_expected_service, node_by_key. rewrite Hn.
  destruct (inv_root _ Hi) as (r & Hr & Hrk & _). rewrite Hr. cbn [exec_bind].
  unfold is_service_of. rewrite Hrk. case_bool_decide as Hme; [by eexists|]. rewrite Ha, Hb.
  destruct (decide (k = exit)) as [Heq|Hne].
  - rewrite (bool_decide_eq_true_2 (k = exit)) by done.
    assert (bool_decide (k = a) || bool_decide (k = b) = true) as ->.
    { destruct Hends as [[-> _]|[_ ->]]; rewrite (bool_decide_eq_true_2 (k = exit)) by done;
        [done|apply orb_true_r]. }
    eexists. split; [done|]. by exists n.
  - rewrite (bool_decide_eq_false_2 (k = exit)) by done.
    assert (bool_decide (k = a) || bool_decide (k = b) = false) as ->.
    { apply orb_false_iff. rewrite !bool_decide_eq_false. naive_solver. }
    eexists. split; [done|]. by exists n.
Qed.

Lemma itinerary_readers over back l :
  Route.keys over ≠ [] → Route.keys back ≠ [] → l ∈ itinerary over (Some back) →
  reader l ∈ Route.keys over ++ Route.keys back.
Proof.
  assert (∀ ks kk, kk ∈ tuple_windows ks → fst kk ∈ (ks : list PublicKey)) as Hwin.
  { induction ks as [|a [|b ks] IH]; intros kk Hkk; [by apply elem_of_nil in Hkk..|].
    change (kk ∈ (a, b) :: tuple_windows (b :: ks)) in Hkk.
    apply elem_of_cons in Hkk as [->|Hkk]; [set_solver|]. apply IH in Hkk. set_solver. }
  assert (∀ ks, ks ≠ [] → default [] (list.last ks) ∈ (ks : list PublicKey)) as Hlast.
  { intros ks Hne. destruct (list.last ks) as [x|] eqn:Hl; [|by apply last_None in Hl].
    simpl. rewrite last_lookup in Hl. by eapply list_elem_of_lookup_2. }
  intros Ho Hb. unfold itinerary. rewrite !elem_of_app. intros Hl.
  assert (∀ ks x, x ∈ legs_over ks → reader x ∈ ks) as Hover.
  { intros ks x Hx. apply list_elem_of_fmap in Hx as (kk & -> & Hkk). by apply Hwin. }
  assert (∀ ks oc x, x ∈ legs_back ks oc → reader x ∈ ks) as Hback.
  { intros ks oc x. unfold legs_back. pose proof (Hwin ks) as Hw.
    destruct (tuple_windows ks) as [|[a b] ws]; [set_solver|]. rewrite elem_of_cons.
    intros [->|Hx]; [apply (Hw (a, b)); set_solver|].
    apply list_elem_of_fmap in Hx as (kk & -> & Hkk). apply Hw. set_solver. }
  pose proof (Hlast _ Hb). naive_solver (set_solver).
Qed.

(** The routes a segment is chosen from. *)
Definition segment_routes (nb : NeighborhoodState) (msg : RouteQueryMessage) (origin : PublicKey)
    (target_opt : option PublicKey) (payload : Z) (direction : RouteDirection)
    (route : list PublicKey) (v : Z) : Prop :=
  ∃ u, compute_initial_undesirability (nb_db nb) origin payload direction = Ret u ∧
    leads_to (nb_db nb) (nb_prefs nb) target_opt payload direction (host_name (host msg))
      (minimum_protocol_capabilities msg) [origin] u (hops_usize (nb_min_hops nb)) route v.

(** [route] is a sound one of least undesirability. *)
Definition best_segment (nb : NeighborhoodState) (msg : RouteQueryMessage) (origin : PublicKey)
    (target_opt : option PublicKey) (payload : Z) (direction : RouteDirection)
    (route : list PublicKey) : Prop :=
  sound_route (nb_db nb) (nb_prefs nb) origin target_opt (hops_usize (nb_min_hops nb)) direction
    (minimum_protocol_capabilities msg) route ∧
  ∃ v, segment_routes nb msg origin target_opt payload direction route v ∧
    ∀ route' v', segment_routes nb msg origin target_opt payload direction route' v' → v ≤ v'.

Lemma segment_spec nb msg origin target_opt component payload direction rng :
  db_inv (nb_db nb) → map_Forall (fun _ => record_widths) (by_public_key (nb_db nb)) → 0 ≤ payload →
  origin ∈ keys (nb_db nb) →
  ∃ res, make_route_segment nb origin target_opt (hops_usize (nb_min_hops nb)) component payload
      direction (host_name (host msg)) (minimum_protocol_capabilities msg) rng = Ret res ∧
    match res with
    | Ok seg => recipient seg = component ∧
        best_segment nb msg origin target_opt payload direction (Route.keys seg)
    | Err e => e = NoRoutes (hops_usize (nb_min_hops nb)) component ∧
        ∀ route v, ¬ segment_routes nb msg origin target_opt payload direction route v
    end.
Proof.
  intros Hi Hw Hp Ho. unfold make_route_segment.
  destruct (best_segment_spec (nb_db nb) (nb_prefs nb) origin target_opt (hops_usize (nb_min_hops nb))
    payload direction (host_name (host msg)) (minimum_protocol_capabilities msg) rng Hi Hw Hp Ho)
    as (u & o & Hu & -> & Hres). cbn [exec_bind]. eexists. split; [done|].
  destruct o as [route|]; simpl.
  - destruct Hres as (v & Hv & Hmin). split; [done|]. split; [by eapply leads_to_sound|].
    exists v. split; [by exists u|]. intros r' v' (u' & Hu' & Hr'). rewrite Hu in Hu'.
    injection Hu' as <-. by eapply Hmin.
  - split; [done|]. intros r v (u' & Hu' & Hr). rewrite Hu in Hu'. injection Hu' as <-.
    by eapply Hres.
Qed.

Lemma sound_known db prefs source target_opt hops direction caps route :
  source ∈ keys db → sound_route db prefs source target_opt hops direction caps route →
  ∀ k, k ∈ route → k ∈ keys db.
Proof.
  intros Hs (ext & last & -> & _ & _ & Hus & _) k Hk. apply elem_of_cons in Hk as [->|Hk]; [done|].
  rewrite Forall_forall in Hus. destruct (Hus k Hk) as (m & Hm & _). apply known_iff. by exists m.
Qed.

(** The keys of two segments that meet at [exit], and those of the nodes on
    them, are enough to build the route and to travel it. *)
Lemma compose_spec nb over back exit host request owner rand :
  let db := nb_db nb in
  let me := this_node db in
  db_inv db → payer_ready (nb_consuming_wallet_opt nb) →
  (∀ k, k ∈ keys db → reads (nb_cryptde nb) (owner k) k) →
  (∀ k, k ∈ Route.keys over ++ Route.keys back → k ∈ keys db) →
  head (Route.keys over) = Some me → list.last (Route.keys over) = Some exit →
  head (Route.keys back) = Some exit → list.last (Route.keys back) = Some me →
  ∃ res, compose_route_query_response_with_receipts nb over back host request rand = Ret res ∧
    match res with
    | Err e => e = NoConsumingWallet ∧ nb_consuming_wallet_opt nb = None ∧
        (2 < length (Route.keys over) ∨ 2 < length (Route.keys back))%nat
    | Ok resp => response_host resp = host ∧
        Forall2 (is_service_of db exit) (Route.keys over) (request_services resp) ∧
        Forall2 (is_service_of db exit) (Route.keys back) (response_services resp) ∧
        ∀ rand', ∃ hs r',
          walk (response_route resp) (map (fun l => owner (reader l)) (itinerary over (Some back))) rand'
            = Ret (Ok (hs, r')) ∧
          Forall2 (hop_serves (nb_consuming_wallet_opt nb) (Some (nb_contract nb)) request)
            (itinerary over (Some back)) hs
    end.
Proof.
  intros db me Hi Hpay Hown Hin Ho1 Ho2 Hb1 Hb2. unfold compose_route_query_response_with_receipts.
  cbv zeta. cbn [existsb].
  assert (Route.keys over ≠ []) as Hone by (by intros Heq; rewrite Heq in Ho1).
  assert (Route.keys back ≠ []) as Hbne by (by intros Heq; rewrite Heq in Hb1).
  assert (∀ l : list PublicKey, l ≠ [] → (length l =? 0)%nat = false) as Hlen0 by (by intros []).
  rewrite !Hlen0 by done. cbn [orb].
  destruct (bool_decide _ && _) eqn:Hwallet.
  { eexists. split; [done|]. guards. split; [done|]. split; [done|].
    rewrite orb_false_r, orb_true_iff, !Nat.ltb_lt in *. tauto. }
  destruct (expected_services_Ok db over exit me exit Hi) as (ss1 & Hs1 & Hf1); [set_solver|done|done|by right|].
  destruct (expected_services_Ok db back exit exit me Hi) as (ss2 & Hs2 & Hf2); [set_solver|done|done|by left|].
  fold db. rewrite Hs1. cbn [try_bind]. rewrite Hs2. cbn [try_bind].
  assert (validate_route_segments over (Some back) = None) as Hval.
  { unfold validate_route_segments. rewrite Ho2. destruct (Route.keys back); [done|].
    injection Hb1 as ->. by rewrite bool_decide_eq_true_2. }
  assert (Forall2 (fun l c => reads (nb_cryptde nb) c (reader l)) (itinerary over (Some back))
    (map (fun l => owner (reader l)) (itinerary over (Some back)))) as Hreads.
  { apply Forall2_fmap_r, Forall_Forall2_diag, Forall_forall. intros l Hl.
    apply Hown, Hin. by apply itinerary_readers. }
  unfold round_trip_with_receipts.
  destruct (construct_and_walk (nb_cryptde nb) over (Some back) _ (Some (nb_contract nb)) request _
    rand Hval ltac:(done) Hpay Hreads) as (r & hs & Hr & Hs & Hwalk). rewrite Hr.
  cbn [exec_bind expect_ok]. eexists. split; [done|]. simpl. split; [done|]. split; [done|].
  split; [done|]. intros rand'. destruct (Hwalk rand') as (r' & Hw & _). by exists hs, r'.
Qed.

(** [C31] A query for a round trip, outside zero-hop mode, is always answered
    without panic: with an error only when no route over, or none back from its
    exit, exists, or when a route of more than one hop has no wallet to pay for
    it; otherwise with a route whose way over and way back are sound and of
    least undesirability, with the services every node of it will charge for
    (none for ourselves, exit service at the exit, routing in between, at each
    node's own rates and to its own wallet), and which the nodes on it, each
    with its own key only, hand from one to the next, to the exit and back to
    us. *)
Theorem round_trip_answered nb msg return_component rng_over rng_back rand owner :
  db_inv (nb_db nb) → map_Forall (fun _ => record_widths) (by_public_key (nb_db nb)) →
  this_node (nb_db nb) = public_key (nb_cryptde nb) → 0 ≤ payload_size msg →
  return_component_opt msg = Some return_component → payer_ready (nb_consuming_wallet_opt nb) →
  (∀ k, k ∈ keys (nb_db nb) → reads (nb_cryptde nb) (owner k) k) →
  let me := public_key (nb_cryptde nb) in
  let back_payload := anticipated_response_payload_len (payload_size msg) in
  ∃ res, make_round_trip_route nb msg rng_over rng_back rand = Ret res ∧
    match res with
    | Err (NoRoutes _ _) =>
        (∀ route v, ¬ segment_routes nb msg me (target_key_opt msg) (payload_size msg) Over route v) ∨
        ∃ over exit, best_segment nb msg me (target_key_opt msg) (payload_size msg) Over over ∧
          list.last over = Some exit ∧
          ∀ route v, ¬ segment_routes nb msg exit (Some me) back_payload Back route v
    | Err NoConsumingWallet => nb_consuming_wallet_opt nb = None
    | Err _ => False
    | Ok resp => ∃ over back exit,
        list.last over = Some exit ∧
        best_segment nb msg me (target_key_opt msg) (payload_size msg) Over over ∧
        best_segment nb msg exit (Some me) back_payload Back back ∧
        Forall2 (is_service_of (nb_db nb) exit) over (request_services resp) ∧
        Forall2 (is_service_of (nb_db nb) exit) back (response_services resp) ∧
        let journey := itinerary (mkSegment over (target_component msg))
                         (Some (mkSegment back return_component)) in
        ∀ rand', ∃ hs r',
          walk (response_route resp) (map (fun l => owner (reader l)) journey) rand' = Ret (Ok (hs, r')) ∧
          Forall2 (hop_serves (nb_consuming_wallet_opt nb) (Some (nb_contract nb))
                     (query_receipt_request_opt msg)) journey hs
    end.
Proof.
  intros Hi Hw Hme Hp Hret Hpay Hown me back_payload. unfold make_round_trip_route. fold me back_payload.
  assert (me ∈ keys (nb_db nb)) as Hmek.
  { unfold me. rewrite <- Hme. destruct (di_root _ Hi) as (r & Hr & _). apply known_iff. by exists r. }
  destruct (segment_spec nb msg me (target_key_opt msg) (target_component msg) (payload_size msg) Over
    rng_over Hi Hw Hp Hmek) as (res & -> & Hover).
  destruct res as [[over oc]|e]; cbn [try_bind].
  2: { eexists. split; [done|]. destruct Hover as [-> Hno]. by left. }
  destruct Hover as [Hoc Hover]. cbn [Route.keys recipient] in *. subst oc.
  pose proof Hover as [Hso _]. destruct Hso as (ext & exit & Heq & _ & _ & _ & _ & Hlast & _).
  rewrite Hlast. cbn [expect exec_bind]. rewrite Hret. cbn [expect exec_bind].
  assert (∀ k, k ∈ over → k ∈ keys (nb_db nb)) as Hok by (eapply sound_known; [done|apply Hover]).
  assert (exit ∈ keys (nb_db nb)) as Hexit.
  { apply Hok. rewrite last_lookup in Hlast. by eapply list_elem_of_lookup_2. }
  destruct (segment_spec nb msg exit (Some me) return_component back_payload Back rng_back Hi Hw)
    as (res & -> & Hback); [unfold back_payload, anticipated_response_payload_len, saturating_mul,
      RESPONSE_UNDESIRABILITY_FACTOR, max_u; lia|done|].
  destruct res as [[back bc]|e]; cbn [try_bind].
  2: { eexists. split; [done|]. destruct Hback as [-> Hno]. right. by exists over, exit. }
  destruct Hback as [Hbc Hback]. cbn [Route.keys recipient] in *. subst bc.
  pose proof Hback as [Hsb _]. destruct Hsb as (ext' & last' & Heq' & _ & _ & _ & _ & Hlast' & Htgt & _).
  rewrite (Htgt me eq_refl) in Hlast'.
  destruct (compose_spec nb (mkSegment over (target_component msg)) (mkSegment back return_component)
    exit (host msg) (query_receipt_request_opt msg) owner rand Hi Hpay Hown) as (res & -> & Hres).
  { cbn [Route.keys]. intros k [?|Hk]%elem_of_app; [by apply Hok|].
    eapply sound_known; [exact Hexit|apply Hback|done]. }
  { cbn [Route.keys]. rewrite Heq, Hme. done. } { done. }
  { cbn [Route.keys]. by rewrite Heq'. } { by rewrite Hme. }
  eexists. split; [done|]. destruct res as [resp|e].
  - destruct Hres as (_ & Hs1 & Hs2 & Hwalk). by exists over, back, exit.
  - by destruct Hres as (-> & ? & _).
Qed.
End Answers.

(** ** A concrete query, over three nodes in a row *)

Definition sample_neighborhood : NeighborhoodState :=
  mkNeighborhood (Sample.cryptde 1) Sample.db preferences_new (Some (WSecretKey sample_secret))
    (repeat 9 20) false TwoHops 3.
Definition sample_query : RouteQueryMessage :=
  mkQuery None ProxyClient (Some ProxyServer) 1000 (mkHost "example.com" 443) 0 None.
Definition sample_owner (k : PublicKey) : CryptDE :=
  Null.null_cryptde (B := sample_base64) (fun _ => [7]) (Null.mkNull (Null.other_key_data k) k [] 0).
Definition sample_answer : exec (result RouteQueryResponse QueryError) :=
  make_round_trip_route (E := sample_ethsign) (HC := sample_hop_cbor)
    sample_neighborhood sample_query () () (fun _ => []).

Lemma round_trip_answered_witness :
  ∃ resp, sample_answer = Ret (Ok resp) ∧
    length (request_services resp) = 3%nat ∧ length (response_services resp) = 3%nat.
Proof.
  destruct (round_trip_answered (E := sample_ethsign) (HC := sample_hop_cbor)
    (HL := sample_hop_cbor_laws) sample_neighborhood sample_query ProxyServer () () (fun _ => [])
    sample_owner) as (res & Hrun & Hres).
  - exact Sample.db_ok.
  - exact sample_widths.
  - by vm_compute.
  - by vm_compute.
  - done.
  - intros msg. by eexists.
  - intros k Hk. assert (k ∈ [[1]; [2]; [3]]) as Hin.
    { assert (keys Sample.db ⊆ list_to_set [[1]; [2]; [3]]) as Hsub
        by (refine (bool_decide_unpack _ _); by vm_compute).
      by apply Hsub, elem_of_list_to_set in Hk. }
    split; [done|]. apply Null.null_Decrypts.
    repeat (apply elem_of_cons in Hin as [->|Hin]; [by repeat constructor|]). by apply elem_of_nil in Hin.
  - unfold sample_answer. exists (match res with Ok r => r | Err _ => mkResponse (mkRoute []) [] [] (mkHost "" 0) end).
    assert (match sample_answer with Ret (Ok r) => length (request_services r) =? 3
              | _ => false end = true)%nat as Hlen by by vm_compute.
    assert (match sample_answer with Ret (Ok r) => length (response_services r) =? 3
              | _ => false end = true)%nat as Hlen' by by vm_compute.
    unfold sample_answer in Hlen, Hlen'. rewrite Hrun in Hlen, Hlen'.
    destruct res as [r|]; [|done]. split; [exact Hrun|]. split; by apply Nat.eqb_eq.
Defined.

(** At start-up the hops of the configuration replace those the node was
    built with, but not the patch size computed from them: a node that is to
    use six hops goes on judging gossip within a patch of three. *)
Theorem replaced_min_hops_keep_patch_size :
  let nb := validate_or_replace_min_hops_value sample_neighborhood SixHops in
  nb_min_hops nb = SixHops ∧ nb_db_patch_size nb = 3 ∧ calculate_db_patch_size SixHops = 6 ∧
  nb_db_patch_size (set_min_hops_and_patch_size sample_neighborhood SixHops) = 6.
Proof. by vm_compute. Qed.
