(* ===== verification/VersionedData.v ===== *)
(** * VersionedData: data with a version, and the migrations between versions

    [sub_lib/versioned_data.rs], [masq_lib/data_version.rs] and the migration
    tables of [sub_lib/migrations/]: every payload that travels between nodes
    is serialized with the version of its layout, and read back through a table
    of steps that lead from other versions to the reader's own.  Serialization
    ([serde_cbor]) is a parameter. *)

From stdpp Require Import base list numbers option strings gmap sorting fin_maps.
From Stdlib Require Import ZArith Lia.
From S2P Require Import Prelude.

Local Open Scope Z_scope.
Local Open Scope rust_scope.
Local Open Scope list_scope.

(** ** Versions *)

Record DataVersion := mkVersion { major : Z; minor : Z }.
Global Instance DataVersion_eq_dec : EqDecision DataVersion.
Proof. solve_decision. Defined.
Global Instance DataVersion_countable : Countable DataVersion.
Proof.
  refine (inj_countable' (fun v => (major v, minor v)) (fun '(a, b) => mkVersion a b) _).
  by intros [].
Defined.

Definition FUTURE_VERSION : DataVersion := mkVersion 0xFFFF 0xFFFF.

(** [PartialOrd::partial_cmp], which is total here *)
Definition version_compare (a b : DataVersion) : comparison :=
  match major a ?= major b with
  | Eq => minor a ?= minor b
  | c => c
  end.
Definition version_lt (a b : DataVersion) : bool :=
  match version_compare a b with Lt => true | _ => false end.

(** [DataVersion::new] *)
Definition version_new (maj min : Z) : exec DataVersion :=
  if (4095 <? maj) || (4095 <? min) then Panic else Ret (mkVersion maj min).

(** ** Steps and tables *)

(** The reasons of semantic errors, without their wording. *)
Inductive SemanticReason :=
| MissingRequiredFields (names : list string)
| InvalidReceiptSettlementContract
| ExpectedValue (kind : string)
| InvalidItem (detail : string).

Inductive StepError :=
| StepDeserializationError (from to : DataVersion) (detail : string)
| SemanticError (reason : SemanticReason).

Inductive MigrationError :=
| MigrationNotFound (from to : DataVersion)
| MigrationFailed (e : StepError).

(** The trait [MigrationStep]; [dup] is a copy. *)
Definition MigrationStep : Type := list Z → exec (result (list Z) StepError).

(** [ComboStep::migrate] *)
Definition combo_step (substeps : list MigrationStep) : MigrationStep := fun data =>
  foldl (fun sofar (substep : MigrationStep) =>
    let* r := sofar in
    match r with Err e => Ret (Err e) | Ok input => substep input end) (Ret (Ok data)) substeps.

Record Migrations := mkMigrations {
  current_version : DataVersion;
  table : gmap DataVersion (gmap DataVersion MigrationStep);
}.

Definition migrations_new (current : DataVersion) : Migrations := mkMigrations current ∅.

(** The order in which a [HashMap] lists its keys. *)
Class VersionOrder := {
  version_iter : gset DataVersion → list DataVersion;
  version_iter_perm vs : version_iter vs ≡ₚ elements vs;
}.

(** [Migrations::validate_step]: [true] unless it panics *)
Definition validate_step (ms : Migrations) (from to : DataVersion) : bool :=
  negb (bool_decide (to = FUTURE_VERSION))
  && negb (bool_decide (from = to))
  && negb (version_lt (current_version ms) to)
  && (bool_decide (from = FUTURE_VERSION)
      || (negb (version_lt to from)
          && (major from =? major to)
          && (major from =? major (current_version ms))
          && (major to =? major (current_version ms)))).

Definition add_step (ms : Migrations) (from to : DataVersion) (step : MigrationStep)
    : exec Migrations :=
  if validate_step ms from to then
    Ret (mkMigrations (current_version ms)
           (<[from := <[to := step]> (default ∅ (table ms !! from))]> (table ms)))
  else Panic.

Section Search.
Context `{VO : VersionOrder}.

(** The [fold] of [find_migration_chain]: the first of the shortest. *)
Definition shorter (sofar elem : list MigrationStep) : list MigrationStep :=
  if bool_decide (sofar = []) || (length elem <? length sofar)%nat then elem else sofar.

(** What one key of a map contributes to the search. *)
Definition chain_through (find : DataVersion → exec (list MigrationStep)) (to : DataVersion)
    (from_map : gmap DataVersion MigrationStep) (next_key : DataVersion)
    : exec (option (list MigrationStep)) :=
  let* migration := expect (from_map !! next_key) in
  if bool_decide (next_key = to) then Ret (Some [migration])
  else
    let* tail := find next_key in
    Ret (match tail with [] => None | _ => Some (migration :: tail) end).

Fixpoint fold_chains (f : DataVersion → exec (option (list MigrationStep))) (ks : list DataVersion)
    (sofar : list MigrationStep) : exec (list MigrationStep) :=
  match ks with
  | [] => Ret sofar
  | k :: ks =>
      let* c := f k in
      fold_chains f ks (match c with None => sofar | Some elem => shorter sofar elem end)
  end.

Fixpoint find_migration_chain (fuel : nat) (ms : Migrations) (to from : DataVersion)
    : exec (list MigrationStep) :=
  match fuel with
  | O => Panic
  | S fuel =>
      let* from_map := expect (table ms !! from) in
      fold_chains (chain_through (find_migration_chain fuel ms to) to from_map)
        (version_iter (dom from_map)) []
  end.

(** Enough for any chain: the versions along one differ. *)
Definition chain_fuel (ms : Migrations) : nat := S (size (table ms)).

(** [Migrations::migration], which remembers the chain it found *)
Definition migration (ms : Migrations) (from : DataVersion)
    : exec (option MigrationStep * Migrations) :=
  match table ms !! from with
  | None => Ret (None, ms)
  | Some from_map =>
      match from_map !! current_version ms with
      | Some boxed_step => Ret (Some boxed_step, ms)
      | None =>
          let* elements := find_migration_chain (chain_fuel ms) ms (current_version ms) from in
          match elements with
          | [] => Ret (None, ms)
          | _ =>
              let step := combo_step elements in
              Ret (Some step, mkMigrations (current_version ms)
                     (<[from := <[current_version ms := step]> from_map]> (table ms)))
          end
      end
  end.

(** ** Versioned data *)

(** [VersionedData<T>]: the type of the data is a phantom. *)
Record VersionedData := mkVersioned { vd_version : DataVersion; vd_bytes : list Z }.

(** [VersionedData::new], with the serialization of the data *)
Definition versioned_new {T} (ser : T → result (list Z) string) (ms : Migrations) (data : T)
    : exec VersionedData :=
  match ser data with
  | Ok bytes => Ret (mkVersioned (current_version ms) bytes)
  | Err _ => Panic
  end.

(** [VersionedData::extract] *)
Definition extract {T} (de : list Z → result T string) (ms : Migrations) (vd : VersionedData)
    : exec (result T MigrationError * Migrations) :=
  let from_version :=
    if version_lt (current_version ms) (vd_version vd) then FUTURE_VERSION else vd_version vd in
  let decoded (bytes : list Z) : result T MigrationError :=
    match de bytes with
    | Ok item => Ok item
    | Err e => Err (MigrationFailed (StepDeserializationError (current_version ms) (current_version ms) e))
    end in
  if bool_decide (from_version = current_version ms) then Ret (decoded (vd_bytes vd), ms)
  else
    let* (step_opt, ms') := migration ms from_version in
    match step_opt with
    | None => Ret (Err (MigrationNotFound from_version (current_version ms)), ms')
    | Some step =>
        let* migrated := step (vd_bytes vd) in
        match migrated with
        | Err e => Ret (Err (MigrationFailed e), ms')
        | Ok bytes => Ret (decoded bytes, ms')
        end
    end.
End Search.

(** ** Chains of steps *)

Section Chains.
Context `{VO : VersionOrder} (ms : Migrations).

Definition edge (from to : DataVersion) (s : MigrationStep) : Prop :=
  ∃ m, table ms !! from = Some m ∧ m !! to = Some s.

(** The steps that lead from a version to [to], which is met at the end only. *)
Inductive chain (to : DataVersion) : DataVersion → list MigrationStep → Prop :=
| chain_last from s : edge from to s → chain to from [s]
| chain_more from k s ss : edge from k s → k ≠ to → chain to k ss → chain to from (s :: ss).

(** A version without steps that the search comes to. *)
Inductive dead_end (to : DataVersion) : DataVersion → Prop :=
| dead_here from : table ms !! from = None → dead_end to from
| dead_beyond from k s : edge from k s → k ≠ to → dead_end to k → dead_end to from.

(** [r] is a shortest of the lists of [C], or empty if there is none. *)
Definition best_of (C : list MigrationStep → Prop) (r : list MigrationStep) : Prop :=
  (r = [] ∧ ∀ c, ¬ C c) ∨ (r ≠ [] ∧ C r ∧ ∀ c, C c → (length r ≤ length c)%nat).

(** Every step was accepted by [validate_step]. *)
Definition valid : Prop := ∀ from to s, edge from to s → validate_step ms from to = true.

Lemma fold_chains_best f (T : DataVersion → list MigrationStep → Prop) (D : DataVersion → Prop) ks :
  (∀ k, k ∈ ks →
    match f k with
    | Panic => D k
    | Ret None => ∀ c, ¬ T k c
    | Ret (Some c) => best_of (T k) c ∧ c ≠ []
    end) →
  ∀ C sofar, best_of C sofar →
  match fold_chains f ks sofar with
  | Panic => ∃ k, k ∈ ks ∧ D k
  | Ret r => best_of (fun c => C c ∨ ∃ k, k ∈ ks ∧ T k c) r ∧ ∀ k, k ∈ ks → f k ≠ Panic
  end.
Proof.
  induction ks as [|k ks IH]; intros Hf C sofar Hb; simpl.
  - split; [|set_solver]. destruct Hb as [[-> Hn]|(Hne & Hc & Hm)]; [left|right].
    + split; [done|]. intros c [?|(k & ?%elem_of_nil & _)]; [by eapply Hn|done].
    + split; [done|]. split; [by left|]. intros c [?|(k & ?%elem_of_nil & _)]; [by apply Hm|done].
  - pose proof (Hf k ltac:(set_solver)) as Hk. destruct (f k) as [o|] eqn:Ef; cbn [exec_bind].
    2: { exists k. set_solver. }
    assert (best_of (fun c => C c ∨ T k c)
      (match o with None => sofar | Some elem => shorter sofar elem end)) as Hb'.
    { destruct o as [elem|].
      - destruct Hk as [[[-> _]|(_ & Ht & Hmin)] Hne]; [done|]. right. unfold shorter.
        destruct Hb as [[-> Hn]|(Hs & Hc & Hm)].
        + rewrite bool_decide_true by done. simpl. split; [done|]. split; [by right|].
          intros c [?|?]; [by destruct (Hn c)|by apply Hmin].
        + rewrite bool_decide_false by done. simpl. destruct (Nat.ltb_spec (length elem) (length sofar)).
          * split; [done|]. split; [by right|]. intros c [Hc'|?]; [|by apply Hmin].
            apply Hm in Hc'. lia.
          * split; [done|]. split; [by left|]. intros c [?|Hc']; [by apply Hm|]. apply Hmin in Hc'. lia.
      - destruct Hb as [[-> Hn]|(Hs & Hc & Hm)]; [left|right].
        + split; [done|]. intros c [?|?]; [by eapply Hn|by eapply Hk].
        + split; [done|]. split; [by left|]. intros c [?|?]; [by apply Hm|by destruct (Hk c)]. }
    specialize (IH ltac:(set_solver) _ _ Hb'). destruct (fold_chains f ks _) as [r|].
    + destruct IH as [IH IHp]. split.
      * clear -IH. destruct IH as [[-> Hn]|(Hs & Hc & Hm)]; [left|right].
        -- split; [done|]. intros c Hc. apply (Hn c). set_solver.
        -- split; [done|]. split; [set_solver|]. intros c Hc'. apply Hm. set_solver.
      * intros k' [->|?]%elem_of_cons; [by rewrite Ef|by apply IHp].
    + destruct IH as (k' & ? & ?). exists k'. set_solver.
Qed.

(** ** The search ends *)

Lemma version_lt_iff a b :
  version_lt a b = true ↔ major a < major b ∨ (major a = major b ∧ minor a < minor b).
Proof.
  unfold version_lt, version_compare. destruct (Z.compare_spec (major a) (major b));
    [destruct (Z.compare_spec (minor a) (minor b))|..]; split; intros; try done; lia.
Qed.

Lemma version_lt_trans a b c :
  version_lt a b = true → version_lt b c = true → version_lt a c = true.
Proof. rewrite !version_lt_iff. lia. Qed.

Lemma version_not_lt a b : a ≠ b → version_lt b a = false → version_lt a b = true.
Proof.
  intros Hne Hlt. destruct (version_lt a b) eqn:E; [done|]. exfalso. apply Hne.
  assert (¬ version_lt a b = true) as Ha by (by rewrite E).
  assert (¬ version_lt b a = true) as Hb by (by rewrite Hlt).
  rewrite version_lt_iff in Ha, Hb. destruct a as [a1 a2], b as [b1 b2]. cbn in *. f_equal; lia.
Qed.

Lemma edge_up from to s :
  valid → edge from to s →
  to ≠ FUTURE_VERSION ∧ (from = FUTURE_VERSION ∨ version_lt from to = true).
Proof.
  intros Hv He%Hv. unfold validate_step in He.
  rewrite !andb_true_iff, orb_true_iff, !andb_true_iff, !negb_true_iff, !bool_decide_eq_true,
    !bool_decide_eq_false in He.
  destruct He as [[[? Hne] ?] [?|[[[Hlt ?] ?] ?]]]; (split; [done|]); [by left|right].
  by apply version_not_lt.
Qed.

Definition later (v : DataVersion) : gset DataVersion :=
  filter (fun k => version_lt v k = true) (dom (table ms) ∖ {[FUTURE_VERSION]}).
Definition rank (v : DataVersion) : nat :=
  if bool_decide (v = FUTURE_VERSION) then size (dom (table ms)) else size (later v).

Lemma rank_edge v w s :
  valid → edge v w s → w ∈ dom (table ms) → (rank w < rank v)%nat.
Proof.
  intros Hv He Hw. destruct (edge_up v w s Hv He) as [Hwf Hup]. unfold rank.
  rewrite (bool_decide_false (w = FUTURE_VERSION)) by done. case_bool_decide as Hvf.
  - subst v. apply subset_size. destruct He as (m & Hm & _). apply elem_of_dom_2 in Hm.
    unfold later. split; [set_solver|]. intros Hsub. specialize (Hsub _ Hm). set_solver.
  - destruct Hup as [?|Hup]; [done|]. apply subset_size. unfold later. split.
    + intros k. rewrite !elem_of_filter. intros [? ?]. split; [|done]. by eapply version_lt_trans.
    + intros Hsub. assert (w ∈ filter (fun k => version_lt w k = true)
        (dom (table ms) ∖ {[FUTURE_VERSION]})) as Hin.
      { apply Hsub. apply elem_of_filter. set_solver. }
      apply elem_of_filter in Hin as [Hlt _]. apply version_lt_iff in Hlt. lia.
Qed.

Lemma rank_bound v : (rank v ≤ size (table ms))%nat.
Proof.
  rewrite <- size_dom. unfold rank. case_bool_decide; [done|]. apply subseteq_size. unfold later. set_solver.
Qed.

Lemma best_of_ext (C C' : list MigrationStep → Prop) r :
  (∀ c, C c ↔ C' c) → best_of C r → best_of C' r.
Proof. intros HC. unfold best_of. setoid_rewrite HC. done. Qed.

Lemma chain_inv to from c :
  chain to from c ↔ ∃ k s, edge from k s ∧
    ((k = to ∧ c = [s]) ∨ (k ≠ to ∧ ∃ ss, chain to k ss ∧ c = s :: ss)).
Proof.
  split.
  - intros [f s He|f k s ss He Hk Hc].
    + exists to, s. eauto.
    + exists k, s. eauto 6.
  - intros (k & s & He & [[-> ->]|(Hk & ss & Hc & ->)]); [by constructor|by econstructor].
Qed.

Lemma find_migration_chain_spec to fuel :
  valid → ∀ from, (from ∈ dom (table ms) → (rank from < fuel)%nat) →
  match find_migration_chain fuel ms to from with
  | Panic => dead_end to from
  | Ret r => best_of (chain to from) r ∧ ¬ dead_end to from
  end.
Proof.
  intros Hv. induction fuel as [|fuel IH]; intros from Hfuel; simpl.
  { constructor. destruct (table ms !! from) eqn:E; [|done]. apply elem_of_dom_2, Hfuel in E. lia. }
  destruct (table ms !! from) as [m|] eqn:Em; cbn [expect exec_bind]; [|by constructor].
  pose proof (Hfuel (elem_of_dom_2 _ _ _ Em)) as Hr.
  set (T k c := ∃ s, edge from k s ∧
    ((k = to ∧ c = [s]) ∨ (k ≠ to ∧ ∃ ss, chain to k ss ∧ c = s :: ss))).
  set (D k := ∃ s, edge from k s ∧ k ≠ to ∧ dead_end to k).
  assert (∀ k, k ∈ version_iter (dom m) → is_Some (m !! k)) as Hdom.
  { intros k. rewrite version_iter_perm, elem_of_elements, elem_of_dom. done. }
  assert (∀ k, k ∈ version_iter (dom m) →
    match chain_through (find_migration_chain fuel ms to) to m k with
    | Panic => D k
    | Ret None => (∀ c, ¬ T k c)
    | Ret (Some c) => best_of (T k) c ∧ c ≠ []
    end ∧ (D k → chain_through (find_migration_chain fuel ms to) to m k = Panic)) as Hk.
  { intros k [s Hs]%Hdom. assert (edge from k s) as He by (by exists m).
    assert (∀ s', edge from k s' → s' = s) as Huniq.
    { intros s' (m' & Hm' & Hs'). rewrite Em in Hm'. injection Hm' as <-. congruence. }
    unfold chain_through. rewrite Hs. cbn [expect exec_bind]. case_bool_decide as Hto.
    { split; [|intros (? & _ & ? & _); done]. split; [|done]. right. split; [done|]. split; [exists s; eauto|].
      intros c (s' & _ & [[_ ->]|[? _]]); [simpl; lia|done]. }
    specialize (IH k). assert (k ∈ dom (table ms) → (rank k < fuel)%nat) as Hrk.
    { intros Hin. pose proof (rank_edge from k s Hv He Hin). lia. }
    specialize (IH Hrk). destruct (find_migration_chain fuel ms to k) as [tail|]; cbn [exec_bind].
    - destruct IH as [IH Hnd]. split; [|intros (? & _ & _ & ?); done].
      destruct IH as [[-> Hn]|(Hne & Hc & Hm)].
      + intros c (s' & _ & [[? _]|(_ & ss & ? & _)]); [done|by eapply Hn].
      + destruct tail as [|x tail]; [done|]. split; [|done]. right. split; [done|].
        split; [exists s; eauto 8|]. intros c (s' & _ & [[? _]|(_ & ss & Hss & ->)]); [done|].
        apply Hm in Hss. simpl in *. lia.
    - split; [exists s; eauto|done]. }
  pose proof (fold_chains_best _ T D _ (fun k Hin => proj1 (Hk k Hin)) (fun _ => False) []
    ltac:(left; split; [done|tauto])) as Hfold.
  destruct (fold_chains _ _ []) as [r|].
  - destruct Hfold as [Hb Hnp]. split.
    + eapply best_of_ext; [|exact Hb]. intros c. rewrite chain_inv. split.
      * intros [[]|(k & Hin & s & He & ?)]. by exists k, s.
      * intros (k & s & He & ?). right. exists k. split; [|by exists s].
        destruct He as (m' & Hm' & Hs'). rewrite Em in Hm'. injection Hm' as <-.
        rewrite version_iter_perm, elem_of_elements. by apply elem_of_dom_2 in Hs'.
    + intros Hd. inversion Hd as [? Hnone|? k s He Hne Hd']; subst; [congruence|].
      assert (k ∈ version_iter (dom m)) as Hin.
      { destruct He as (m' & Hm' & Hs'). rewrite Em in Hm'. injection Hm' as <-.
        rewrite version_iter_perm, elem_of_elements. by apply elem_of_dom_2 in Hs'. }
      apply (Hnp k Hin). apply Hk; [done|]. by exists s.
  - destruct Hfold as (k & Hin & s & He & Hne & Hd). by eapply dead_beyond.
Qed.

Lemma chain_edges to from c :
  valid → chain to from c →
  to ≠ FUTURE_VERSION ∧ from ≠ to ∧ is_Some (table ms !! from) ∧
  (from = FUTURE_VERSION ∨ (version_lt from to = true ∧ major from = major (current_version ms) ∧
     major to = major (current_version ms))) ∧ version_lt (current_version ms) to = false.
Proof.
  intros Hv. induction 1 as [from s He|from k s ss He Hk Hc IH].
  - destruct (edge_up _ _ _ Hv He) as [Hf Hup]. destruct He as (m & Hm & Hs).
    assert (validate_step ms from to = true) as Hval by (eapply Hv; by exists m).
    unfold validate_step in Hval. rewrite !andb_true_iff, orb_true_iff, !andb_true_iff, !negb_true_iff,
      !bool_decide_eq_true, !bool_decide_eq_false, !Z.eqb_eq in Hval. naive_solver.
  - destruct IH as (Hf & Hkt & _ & Hup & Hcur). destruct (edge_up _ _ _ Hv He) as [Hkf Hup'].
    destruct Hup as [?|(Hlt & Hmk & Hmt)]; [done|]. destruct He as (m & Hm & Hs).
    assert (validate_step ms from k = true) as Hval by (eapply Hv; by exists m).
    unfold validate_step in Hval. rewrite !andb_true_iff, orb_true_iff, !andb_true_iff, !negb_true_iff,
      !bool_decide_eq_true, !bool_decide_eq_false, !Z.eqb_eq in Hval.
    destruct Hup' as [->|Hup'].
    + split_and!; try done; by left.
    + destruct Hval as [_ [->|[[[_ ?] ?] ?]]]; [split_and!; try done; by left|].
      split_and!; try done.
      * intros ->. pose proof (version_lt_trans _ _ _ Hlt Hup') as Hx. apply version_lt_iff in Hx. lia.
      * right. split_and!; [by eapply version_lt_trans|lia|done].
Qed.
End Chains.

(** The tables the program can have: built with [add_step], used through
    [migration]. *)
Inductive built `{VO : VersionOrder} : Migrations → Prop :=
| built_new c : built (migrations_new c)
| built_add ms from to s ms' : built ms → add_step ms from to s = Ret ms' → built ms'
| built_used ms from o ms' : built ms → migration ms from = Ret (o, ms') → built ms'.

Section Built.
Context `{VO : VersionOrder}.

Lemma validate_same ms ms' from to :
  current_version ms' = current_version ms → validate_step ms' from to = validate_step ms from to.
Proof. unfold validate_step. by intros ->. Qed.

Lemma valid_insert ms from to s m :
  valid ms → validate_step ms from to = true → (∀ k s', m !! k = Some s' → edge ms from k s') →
  valid (mkMigrations (current_version ms) (<[from := <[to := s]> m]> (table ms))).
Proof.
  intros Hv Hval Hm f t s' (m' & Hm' & Hs'). rewrite (validate_same ms) by done. simpl in Hm'.
  destruct (decide (f = from)) as [->|Hne].
  - rewrite lookup_insert_eq in Hm'. injection Hm' as <-. destruct (decide (t = to)) as [->|Ht]; [done|].
    rewrite lookup_insert_ne in Hs' by done. eapply Hv, Hm, Hs'.
  - rewrite lookup_insert_ne in Hm' by done. eapply Hv. by exists m'.
Qed.

Lemma migration_result ms from :
  valid ms →
  match migration ms from with
  | Panic => is_Some (table ms !! from) ∧ dead_end ms (current_version ms) from
  | Ret (None, ms') => ms' = ms ∧ ∀ c, ¬ chain ms (current_version ms) from c
  | Ret (Some step, ms') =>
      (∃ c, chain ms (current_version ms) from c ∧
        (∀ c', chain ms (current_version ms) from c' → (length c ≤ length c')%nat) ∧
        ∀ data, step data = combo_step c data) ∧
      current_version ms' = current_version ms ∧ valid ms' ∧ migration ms' from = Ret (Some step, ms')
  end.
Proof.
  intros Hv. unfold migration at 1. destruct (table ms !! from) as [m|] eqn:Em.
  2: { split; [done|]. intros c Hc. by destruct (chain_edges ms _ _ _ Hv Hc) as (_ & _ & [? ?] & _); congruence. }
  destruct (m !! current_version ms) as [s|] eqn:Es.
  { split.
    - exists [s]. split; [constructor; by exists m|]. split; [intros c' []; simpl; lia|].
      intros data. reflexivity.
    - split; [done|]. split; [done|]. unfold migration. by rewrite Em, Es. }
  pose proof (find_migration_chain_spec ms (current_version ms) (chain_fuel ms) Hv from) as Hfind.
  destruct (find_migration_chain _ _ _ _) as [r|]; cbn [exec_bind].
  2: { split; [by eexists|]. apply Hfind. intros _. unfold chain_fuel. pose proof (rank_bound ms from). lia. }
  destruct Hfind as [Hb _].
  { intros _. unfold chain_fuel. pose proof (rank_bound ms from). lia. }
  destruct Hb as [[-> Hn]|(Hne & Hc & Hm)]; [done|]. destruct r as [|x r]; [done|]. split.
  - exists (x :: r). done.
  - split; [done|]. split.
    + apply valid_insert; [done| |].
      * destruct (chain_edges ms _ _ _ Hv Hc) as (? & ? & _ & Hup & Hcur). unfold validate_step.
        rewrite (bool_decide_false (current_version ms = _)), (bool_decide_false (from = current_version ms)),
          Hcur by done. cbn [negb andb].
        destruct Hup as [->|(Hlt & Hmf & Hmt)]; [by rewrite bool_decide_true|].
        rewrite Hmf, Z.eqb_refl.
        assert (version_lt (current_version ms) from = false) as ->.
        { destruct (version_lt (current_version ms) from) eqn:E; [|done].
          pose proof (version_lt_trans _ _ _ Hlt E) as Hx. apply version_lt_iff in Hx. lia. }
        by rewrite orb_true_r.
      * intros k s' Hs'. by exists m.
    + unfold migration. simpl. by rewrite !lookup_insert_eq.
Qed.

Lemma built_valid ms : built ms → valid ms.
Proof.
  induction 1 as [c|ms from to s ms' _ Hv Hadd|ms from o ms' _ Hv Hm].
  - intros from to s (m & Hm & _). simpl in Hm. by rewrite lookup_empty in Hm.
  - unfold add_step in Hadd. destruct (validate_step ms from to) eqn:E; [|done]. injection Hadd as <-.
    apply valid_insert; [done..|]. intros k s' Hs'. destruct (table ms !! from) as [m|] eqn:Em.
    + by exists m.
    + simpl in Hs'. by rewrite lookup_empty in Hs'.
  - pose proof (migration_result ms from Hv) as Hres. rewrite Hm in Hres.
    destruct o; [naive_solver|]. by destruct Hres as [-> _].
Qed.

(** Migration to the current version, over any table that can be built:
    the search for a chain of steps ends; the step it yields does what a
    shortest chain of registered steps does, one after the other, and is found
    at once the next time; without a chain there is none; and it panics only
    when it comes to a version that no step leaves. *)
Theorem migration_exact ms from :
  built ms →
  match migration ms from with
  | Panic => dead_end ms (current_version ms) from
  | Ret (None, ms') => ms' = ms ∧ ∀ c, ¬ chain ms (current_version ms) from c
  | Ret (Some step, ms') =>
      (∃ c, chain ms (current_version ms) from c ∧
        (∀ c', chain ms (current_version ms) from c' → (length c ≤ length c')%nat) ∧
        ∀ data, step data = combo_step c data) ∧
      built ms' ∧ migration ms' from = Ret (Some step, ms')
  end.
Proof.
  intros Hb. pose proof (migration_result ms from (built_valid ms Hb)) as Hres.
  destruct (migration ms from) as [[[step|] ms']|] eqn:E; [|done|naive_solver].
  destruct Hres as (Hc & _ & _ & Hagain). split; [done|]. split; [|done]. by eapply built_used.
Qed.
End Built.
