(* ===== verification/Migrations.v ===== *)
(** * Migrations: reading payloads of other versions

    The tables of [sub_lib/migrations/]: payloads of the current version are
    decoded; those of a later one are read field by field out of a CBOR value,
    for the kinds of payload that have such a step; receipts and metered
    responses of any other version are refused. *)

From stdpp Require Import base list numbers option strings gmap sorting fin_maps.
From Stdlib Require Import ZArith Lia Ascii.
From S2P Require Import Prelude Text CryptDE Wallet ServiceReceipt SequenceBuffer NodeRecord.
From S2P Require Import NeighborhoodDb ExitPreferences Gossip GossipAcceptor VersionedData.

Local Open Scope Z_scope.
Local Open Scope rust_scope.
Local Open Scope list_scope.

(** [serde_cbor::Value]; the entries of a map are in the order of their keys,
    which are distinct. *)
#[warnings="-register-all"]
Inductive Value :=
| VNull
| VBool (b : bool)
| VInteger (n : Z)
| VFloat (bits : Z)
| VBytes (bs : list Z)
| VText (s : string)
| VArray (vs : list Value)
| VMap (kvs : list (Value * Value)).

(** ** Payloads *)

Inductive ProxyProtocol := HTTP | TLS.

Record ClientRequestPayload_0v1 := mkClientRequest {
  crp_stream_key : list Z;
  crp_sequenced_packet : SequencedPacket;
  target_hostname : string;
  target_port : Z;
  protocol : ProxyProtocol;
  originator_public_key : PublicKey;
  crp_dns_attempt_id_opt : option Z;
  receipt_session_request_opt : option ReceiptSessionRequest;
}.

Record ClientResponsePayload_0v1 := mkClientResponse {
  crsp_stream_key : list Z;
  crsp_sequenced_packet : SequencedPacket;
}.

Record DnsResolveFailure_0v1 := mkDnsFailure {
  drf_stream_key : list Z;
  drf_dns_attempt_id_opt : option Z;
}.

(** [value_to_type::<T>] at the types used, and [Address::from_str]: what
    [serde_cbor] and [web3] make of a value. *)
Class ValueReader := {
  as_stream_key : Value → option (list Z);
  as_sequenced_packet : Value → option SequencedPacket;
  as_string : Value → option string;
  as_u16 : Value → option Z;
  as_u64 : Value → option Z;
  as_protocol : Value → option ProxyProtocol;
  as_public_key : Value → option PublicKey;
  as_session_request : Value → option ReceiptSessionRequest;
  as_wallet : Value → option WalletKind;
  as_rate_pack : Value → option RatePack;
  as_gossip_node_record : Value → result GossipNodeRecord string;
  address_from_str : string → option Address;
}.

(** A variable assigned in the loop over the entries of a map: [f] tells what
    an entry under the key makes of it, [None] if it leaves it alone. *)
Definition read_field {T} (name : string) (f : Value → option (option T)) (kvs : list (Value * Value))
    : option T :=
  foldl (fun (acc : option T) '(k, v) =>
    match k with
    | VText field_name =>
        if bool_decide (field_name = name) then default acc (f v) else acc
    | _ => acc
    end) None kvs.

(** [check_field]: the names of the fields that were not found *)
Definition check_field {T} (name : string) (field : option T) : list string :=
  match field with None => [name] | Some _ => [] end.

Section Readers.
Context `{VR : ValueReader}.

(** [TryFrom<&Value> for GossipFailure_0v1] *)
Definition gossip_failure_of_value (v : Value) : result GossipFailure_0v1 StepError :=
  match v with
  | VText name =>
      if bool_decide (name = "NoNeighbors"%string) then Ok NoNeighbors
      else if bool_decide (name = "NoSuitableNeighbors"%string) then Ok NoSuitableNeighbors
      else if bool_decide (name = "ManualRejection"%string) then Ok ManualRejection
      else Ok UnknownFailure
  | _ => Err (SemanticError (ExpectedValue "Value::Text"))
  end.

(** [TryFrom<&Value> for GossipNodeRecord] *)
Definition gnr_of_value (v : Value) : result GossipNodeRecord StepError :=
  map_err (fun e => SemanticError (InvalidItem e)) (as_gossip_node_record v).

(** The records of one array, until one is refused *)
Fixpoint gnrs_of_values (vs : list Value) (error_opt : option StepError)
    (records : list GossipNodeRecord) : option StepError * list GossipNodeRecord :=
  match vs with
  | [] => (error_opt, records)
  | v :: vs =>
      match error_opt, gnr_of_value v with
      | Some e, _ => gnrs_of_values vs (Some e) records
      | None, Err e => gnrs_of_values vs (Some e) records
      | None, Ok gnr => gnrs_of_values vs None (records ++ [gnr])
      end
  end.

(** [TryFrom<&Value> for Gossip_0v1] *)
Definition gossip_of_value (v : Value) : result Gossip_0v1 StepError :=
  match v with
  | VMap kvs =>
      let '(error_opt, records) :=
        foldl (fun '(error_opt, records) '(k, fv) =>
          match k, fv with
          | VText field_name, VArray field_value =>
              if bool_decide (field_name = "node_records"%string)
              then gnrs_of_values field_value error_opt [] else (error_opt, records)
          | _, _ => (error_opt, records)
          end) (None, []) kvs in
      match error_opt with Some e => Err e | None => Ok (mkGossip records) end
  | _ => Err (SemanticError (ExpectedValue "Value::Map"))
  end.

(** [TryFrom<&Value> for DnsResolveFailure_0v1] *)
Definition dns_failure_of_value (v : Value) : result DnsResolveFailure_0v1 StepError :=
  match v with
  | VMap kvs =>
      let stream_key_opt := read_field "stream_key" (fun v => Some (as_stream_key v)) kvs in
      let dns_attempt_id_opt := read_field "dns_attempt_id_opt" (fun v => Some (as_u64 v)) kvs in
      match stream_key_opt with
      | None => Err (SemanticError (MissingRequiredFields (check_field "stream_key" stream_key_opt)))
      | Some stream_key => Ok (mkDnsFailure stream_key dns_attempt_id_opt)
      end
  | _ => Err (SemanticError (ExpectedValue "Value::Map"))
  end.

(** [TryFrom<&Value> for ClientResponsePayload_0v1] *)
Definition client_response_of_value (v : Value) : result ClientResponsePayload_0v1 StepError :=
  match v with
  | VMap kvs =>
      let stream_key_opt := read_field "stream_key" (fun v => Some (as_stream_key v)) kvs in
      let sequenced_packet_opt :=
        read_field "sequenced_packet" (fun v => Some (as_sequenced_packet v)) kvs in
      match stream_key_opt, sequenced_packet_opt with
      | Some stream_key, Some sequenced_packet => Ok (mkClientResponse stream_key sequenced_packet)
      | _, _ => Err (SemanticError (MissingRequiredFields
          (check_field "stream_key" stream_key_opt
           ++ check_field "sequenced_packet" sequenced_packet_opt)))
      end
  | _ => Err (SemanticError (ExpectedValue "Value::Map"))
  end.

(** [TryFrom<&Value> for ClientRequestPayload_0v1] *)
Definition client_request_of_value (v : Value) : result ClientRequestPayload_0v1 StepError :=
  match v with
  | VMap kvs =>
      let stream_key_opt := read_field "stream_key" (fun v => Some (as_stream_key v)) kvs in
      let sequenced_packet_opt :=
        read_field "sequenced_packet" (fun v => Some (as_sequenced_packet v)) kvs in
      let hostname_opt := read_field "target_hostname" (fun v => Some (as_string v)) kvs in
      let port_opt := read_field "target_port" (fun v => Some (as_u16 v)) kvs in
      let protocol_opt := read_field "protocol" (fun v => Some (as_protocol v)) kvs in
      let originator_opt := read_field "originator_public_key" (fun v => Some (as_public_key v)) kvs in
      let dns_attempt_id_opt := read_field "dns_attempt_id_opt" (fun v => Some (as_u64 v)) kvs in
      let request_opt := read_field "receipt_session_request_opt" (fun v => Some (as_session_request v)) kvs in
      match stream_key_opt, sequenced_packet_opt, hostname_opt, port_opt, protocol_opt, originator_opt with
      | Some stream_key, Some sequenced_packet, Some hostname, Some port, Some protocol, Some originator =>
          Ok (mkClientRequest stream_key sequenced_packet hostname port protocol originator
                dns_attempt_id_opt request_opt)
      | _, _, _, _, _, _ => Err (SemanticError (MissingRequiredFields
          (check_field "stream_key" stream_key_opt
           ++ check_field "sequenced_packet" sequenced_packet_opt
           ++ check_field "target_hostname" hostname_opt
           ++ check_field "target_port" port_opt
           ++ check_field "protocol" protocol_opt
           ++ check_field "originator_public_key" originator_opt)))
      end
  | _ => Err (SemanticError (ExpectedValue "Value::Map"))
  end.

(** [NodeRecordInner_0v1::public_keys_to_btree_set] *)
Fixpoint public_keys_to_btree_set (vs : list Value) : option (gset PublicKey) :=
  match vs with
  | [] => Some ∅
  | v :: vs => k ← as_public_key v; ks ← public_keys_to_btree_set vs; Some ({[k]} ∪ ks)
  end.

(** The address in a text, [None] if it is not one or zero *)
Definition contract_of_text (s : string) : option Address :=
  match s with
  | String "0"%char (String "x"%char address) =>
      a ← address_from_str address; if forallb (Z.eqb 0) a then None else Some a
  | _ => None
  end.

(** [TryFrom<&Value> for NodeRecordInner_0v1] *)
Definition inner_of_value (v : Value) : result NodeRecordInner_0v1 StepError :=
  match v with
  | VMap kvs =>
      let public_key_opt := read_field "public_key"
        (fun v => match v with VBytes bs => Some (Some bs) | _ => None end) kvs in
      let earning_wallet_opt := read_field "earning_wallet"
        (fun v => match v with VMap _ => Some (as_wallet v) | _ => None end) kvs in
      let rate_pack_opt := read_field "rate_pack"
        (fun v => match v with VMap _ => Some (as_rate_pack v) | _ => None end) kvs in
      let neighbors_opt := read_field "neighbors"
        (fun v => match v with VArray vs => Some (public_keys_to_btree_set vs) | _ => None end) kvs in
      let accepts_connections_opt := read_field "accepts_connections"
        (fun v => match v with VBool b => Some (Some b) | _ => None end) kvs in
      let routes_data_opt := read_field "routes_data"
        (fun v => match v with VBool b => Some (Some b) | _ => None end) kvs in
      let version_opt := read_field "version"
        (fun v => match v with
                  | VInteger n => if (n <? 0) || (0xFFFFFFFF <=? n) then None else Some (Some n)
                  | _ => None
                  end) kvs in
      let country_code_opt := read_field "country_code"
        (fun v => match v with VText s => Some (Some s) | _ => None end) kvs in
      let protocol_capabilities_opt := read_field "protocol_capabilities"
        (fun v => match v with
                  | VInteger n => if (n <? 0) || (max_u 64 <? n) then None else Some (Some n)
                  | _ => None
                  end) kvs in
      let receipt_settlement_contract_opt := read_field "receipt_settlement_contract_opt"
        (fun v => match v with
                  | VText s => Some (contract_of_text s)
                  | VNull => Some None
                  | _ => None
                  end) kvs in
      let invalid_receipt_settlement_contract := read_field "receipt_settlement_contract_opt"
        (fun v => match v with
                  | VText s => Some (if bool_decide (contract_of_text s = None) then Some tt else None)
                  | _ => None
                  end) kvs in
      match public_key_opt, earning_wallet_opt, rate_pack_opt, neighbors_opt,
            accepts_connections_opt, routes_data_opt, version_opt, country_code_opt with
      | Some public_key, Some earning_wallet, Some rate_pack, Some neighbors,
        Some accepts_connections, Some routes_data, Some version, Some country_code =>
          if bool_decide (invalid_receipt_settlement_contract = Some tt)
          then Err (SemanticError InvalidReceiptSettlementContract)
          else Ok (mkInner public_key earning_wallet rate_pack neighbors accepts_connections
                     routes_data version (Some country_code) (default 0 protocol_capabilities_opt)
                     receipt_settlement_contract_opt)
      | _, _, _, _, _, _, _, _ => Err (SemanticError (MissingRequiredFields
          (check_field "public_key" public_key_opt
           ++ check_field "earning_wallet" earning_wallet_opt
           ++ check_field "rate_pack" rate_pack_opt
           ++ check_field "neighbors" neighbors_opt
           ++ check_field "accepts_connections" accepts_connections_opt
           ++ check_field "routes_data" routes_data_opt
           ++ check_field "version" version_opt
           ++ check_field "country_code" country_code_opt)))
      end
  | _ => Err (SemanticError (ExpectedValue "Value::Map"))
  end.
End Readers.

(** ** The tables *)

(** The step [migrate_value!] defines: decode a CBOR value, convert it, encode
    the result. *)
Definition migrate_value {T} (de_value : list Z → result Value string) (ser : T → result (list Z) string)
    (tv : DataVersion) (b : Value → result T StepError) : MigrationStep := fun data =>
  match de_value data with
  | Err e => Ret (Err (StepDeserializationError FUTURE_VERSION tv e))
  | Ok v =>
      match b v with
      | Ok out_item => match ser out_item with Ok bytes => Ret (Ok bytes) | Err _ => Panic end
      | Err e => Ret (Err e)
      end
  end.

(** The current version of every payload. *)
Definition PAYLOAD_CURRENT_VERSION : DataVersion := mkVersion 0 1.

(** A table with one step, from the future. *)
Definition migrations_from_future (step : MigrationStep) : exec Migrations :=
  add_step (migrations_new PAYLOAD_CURRENT_VERSION) FUTURE_VERSION PAYLOAD_CURRENT_VERSION step.

Section Tables.
Context `{VR : ValueReader} (de_value : list Z → result Value string).

Definition gossip_migrations (ser : Gossip_0v1 → result (list Z) string) : exec Migrations :=
  migrations_from_future (migrate_value de_value ser (mkVersion 0 1) gossip_of_value).
Definition gossip_failure_migrations (ser : GossipFailure_0v1 → result (list Z) string)
    : exec Migrations :=
  migrations_from_future (migrate_value de_value ser (mkVersion 0 1) gossip_failure_of_value).
Definition node_record_inner_migrations (ser : NodeRecordInner_0v1 → result (list Z) string)
    : exec Migrations :=
  migrations_from_future (migrate_value de_value ser (mkVersion 0 1) inner_of_value).
Definition client_request_migrations (ser : ClientRequestPayload_0v1 → result (list Z) string)
    : exec Migrations :=
  migrations_from_future (migrate_value de_value ser (mkVersion 0 1) client_request_of_value).
Definition client_response_migrations (ser : ClientResponsePayload_0v1 → result (list Z) string)
    : exec Migrations :=
  migrations_from_future (migrate_value de_value ser (mkVersion 0 1) client_response_of_value).
Definition dns_failure_migrations (ser : DnsResolveFailure_0v1 → result (list Z) string)
    : exec Migrations :=
  migrations_from_future (migrate_value de_value ser (mkVersion 0 1) dns_failure_of_value).
(** Receipts, receipt offers and metered responses have no steps. *)
Definition receipt_migrations : Migrations := migrations_new PAYLOAD_CURRENT_VERSION.
End Tables.

(** The table of a payload with, or without, a step from the future. *)
Definition payload_table (step : option MigrationStep) : exec Migrations :=
  match step with None => Ret receipt_migrations | Some s => migrations_from_future s end.

Section Properties.
Context `{VO : VersionOrder}.

(** Whatever is written with the current version is read back; a payload
    of an earlier version is refused; one of a later version goes through the
    step from the future, and is refused by the tables of receipts, receipt
    offers and metered responses, which have none. *)
Theorem payload_versions {T} (ser : T → result (list Z) string) (de : list Z → result T string)
    (step : option MigrationStep) ms :
  payload_table step = Ret ms → (∀ x bytes, ser x = Ok bytes → de bytes = Ok x) →
  (∀ x vd, versioned_new ser ms x = Ret vd → extract de ms vd = Ret (Ok x, ms)) ∧
  (∀ vd, version_lt (vd_version vd) PAYLOAD_CURRENT_VERSION = true →
    extract de ms vd = Ret (Err (MigrationNotFound (vd_version vd) PAYLOAD_CURRENT_VERSION), ms)) ∧
  (∀ vd, version_lt PAYLOAD_CURRENT_VERSION (vd_version vd) = true →
    extract de ms vd =
    match step with
    | None => Ret (Err (MigrationNotFound FUTURE_VERSION PAYLOAD_CURRENT_VERSION), ms)
    | Some s =>
        let* migrated := s (vd_bytes vd) in
        Ret (match migrated with
             | Err e => Err (MigrationFailed e)
             | Ok bytes =>
                 map_err (fun e => MigrationFailed
                   (StepDeserializationError PAYLOAD_CURRENT_VERSION PAYLOAD_CURRENT_VERSION e)) (de bytes)
             end, ms)
    end).
Proof.
  intros Hms Hde.
  assert (current_version ms = PAYLOAD_CURRENT_VERSION ∧
    (∀ v, table ms !! v = match step with
       | Some s => if bool_decide (v = FUTURE_VERSION) then Some {[PAYLOAD_CURRENT_VERSION := s]} else None
       | None => None
       end)) as [Hcur Htable].
  { destruct step as [s|]; injection Hms as <-; (split; [done|]); intros v; simpl.
    - rewrite lookup_insert. case_decide as Hv; case_bool_decide; subst; try congruence; try done.
    - by rewrite lookup_empty. }
  split_and!.
  - intros x vd. unfold versioned_new. destruct (ser x) as [bytes|] eqn:Ex; [|done]. intros [= <-].
    unfold extract. simpl. rewrite Hcur. change (version_lt PAYLOAD_CURRENT_VERSION PAYLOAD_CURRENT_VERSION) with false.
    cbn iota. rewrite bool_decide_true by done. by rewrite (Hde _ _ Ex).
  - intros vd Hlt. unfold extract. rewrite Hcur.
    assert (version_lt PAYLOAD_CURRENT_VERSION (vd_version vd) = false) as ->.
    { destruct (version_lt PAYLOAD_CURRENT_VERSION (vd_version vd)) eqn:E; [|done].
      pose proof (version_lt_trans _ _ _ Hlt E) as Hx. apply version_lt_iff in Hx. lia. }
    rewrite bool_decide_false by (intros E; rewrite E in Hlt; done).
    unfold migration. rewrite Htable. destruct step; [|done].
    rewrite bool_decide_false by (intros E; rewrite E in Hlt; done). done.
  - intros vd Hlt. unfold extract. rewrite Hcur, Hlt, bool_decide_false by done.
    unfold migration. rewrite Htable. destruct step as [s|]; [|done].
    rewrite bool_decide_true by done. rewrite Hcur, lookup_singleton_eq. cbn [exec_bind].
    destruct (s (vd_bytes vd)) as [[bytes|e]|]; [|done..]. cbn [exec_bind]. by destruct (de bytes).
Qed.

Lemma read_field_untouched {T} name (f : Value → option (option T)) kvs :
  (∀ v, (VText name, v) ∈ kvs → f v = None) → read_field name f kvs = None.
Proof.
  unfold read_field. intros Hf. assert (∀ acc : option T, acc = None → foldl (fun (acc : option T) '(k, v) =>
    match k with
    | VText field_name => if bool_decide (field_name = name) then default acc (f v) else acc
    | _ => acc
    end) acc kvs = None) as Hgen; [|by apply Hgen].
  induction kvs as [|[k v] kvs IH]; intros acc Hacc; [done|]. simpl. apply IH; [intros; apply Hf; set_solver|].
  destruct k; try done. case_bool_decide; [|done]. subst. rewrite Hf by set_solver. done.
Qed.

(** A record of a later version is refused for want of a [country_code] unless
    its writer renamed the field the record has today, [country_code_opt]. *)
Theorem future_record_wants_other_name `{VR : ValueReader} kvs :
  (∀ s, (VText "country_code", VText s) ∉ kvs) →
  ∃ names, inner_of_value (VMap kvs) = Err (SemanticError (MissingRequiredFields names)) ∧
    "country_code"%string ∈ names.
Proof.
  intros Hno. unfold inner_of_value.
  rewrite (read_field_untouched "country_code").
  2: { intros v Hv. destruct v; try done. by destruct (Hno s). }
  repeat (case_match; try (eexists; split; [reflexivity|set_solver])); try done.
Qed.

(** The search for a chain panics at a version no step leaves: data that could
    only be reported as not migratable ends the program. *)
Theorem dead_end_panics (s : MigrationStep) ms :
  add_step (migrations_new (mkVersion 0 3)) (mkVersion 0 1) (mkVersion 0 2) s = Ret ms →
  migration ms (mkVersion 0 1) = Panic.
Proof.
  intros Hadd. assert (valid ms) as Hv by (eapply built_valid, built_add; [apply built_new|exact Hadd]).
  assert (table ms = {[mkVersion 0 1 := {[mkVersion 0 2 := s]}]} ∧ current_version ms = mkVersion 0 3)
    as [Ht Hcur] by (injection Hadd as <-; done).
  pose proof (find_migration_chain_spec ms (mkVersion 0 3) (chain_fuel ms) Hv (mkVersion 0 1)) as Hf.
  unfold migration. rewrite Hcur, Ht, lookup_singleton_eq, lookup_singleton_ne by done.
  destruct (find_migration_chain _ _ _ _); [|done]. destruct Hf as [_ Hnd].
  { intros _. unfold chain_fuel. pose proof (rank_bound ms (mkVersion 0 1)). lia. }
  destruct Hnd. eapply (dead_beyond _ _ _ (mkVersion 0 2)); [|done|].
  - exists {[mkVersion 0 2 := s]}. by rewrite Ht, !lookup_singleton_eq.
  - constructor. by rewrite Ht, lookup_singleton_ne by done.
Qed.
End Properties.

(** ** Concrete tables *)

Global Instance sample_version_order : VersionOrder :=
  {| version_iter := elements; version_iter_perm := fun vs => reflexivity _ |}.

(** Steps that append the version they lead to. *)
Definition sample_step (n : Z) : MigrationStep := fun data => Ret (Ok (data ++ [n])).
Definition sample_migrations : Migrations :=
  mkMigrations (mkVersion 0 3)
    (list_to_map [(mkVersion 0 1, {[mkVersion 0 2 := sample_step 2]});
                  (mkVersion 0 2, {[mkVersion 0 3 := sample_step 3]})]).

Lemma sample_migrations_built : built sample_migrations.
Proof.
  eapply (built_add (mkMigrations (mkVersion 0 3)
    {[mkVersion 0 2 := {[mkVersion 0 3 := sample_step 3]}]}) (mkVersion 0 1) (mkVersion 0 2) (sample_step 2));
    [|reflexivity].
  eapply (built_add (migrations_new (mkVersion 0 3)) (mkVersion 0 2) (mkVersion 0 3) (sample_step 3));
    [apply built_new|reflexivity].
Qed.

Lemma migration_exact_witness :
  ∃ step ms', migration sample_migrations (mkVersion 0 1) = Ret (Some step, ms') ∧
    step [0] = Ret (Ok [0; 2; 3]) ∧ built ms'.
Proof.
  pose proof (migration_exact sample_migrations (mkVersion 0 1) sample_migrations_built) as Hex.
  assert (match migration sample_migrations (mkVersion 0 1) with
    | Ret (Some step, _) => step [0] = Ret (Ok [0; 2; 3]) | _ => False end) as Hrun by by vm_compute.
  destruct (migration sample_migrations (mkVersion 0 1)) as [[[step|] ms']|]; [|done..].
  exists step, ms'. destruct Hex as (_ & Hb & _). done.
Defined.

(** Lists of bytes as their own serialization. *)
Lemma payload_versions_witness :
  extract Ok receipt_migrations (mkVersioned (mkVersion 0 1) [5]) = Ret (Ok [5], receipt_migrations) ∧
  extract (T := list Z) Ok receipt_migrations (mkVersioned (mkVersion 1 0) [5]) =
    Ret (Err (MigrationNotFound FUTURE_VERSION (mkVersion 0 1)), receipt_migrations).
Proof.
  destruct (payload_versions (T := list Z) Ok Ok None receipt_migrations eq_refl) as (Hcur & _ & Hlater);
    [by intros x bytes [= <-]|].
  split; [by apply (Hcur [5])|by apply (Hlater (mkVersioned (mkVersion 1 0) [5]))].
Defined.
