(* ===== verification/CoresPackage.v ===== *)
(** * CoresPackage: the packages that travel over the network

    [sub_lib/hopper.rs] and [hopper/live_cores_package.rs]: a package that is
    about to be sent (incipient), one under way (live) and one that has arrived
    (expired); the payload is a versioned message, encrypted to the node it is
    meant for, and the route is an onion ([Route]).  Serialization is a
    parameter. *)

From stdpp Require Import base list numbers option strings gmap.
From Stdlib Require Import ZArith Lia.
From S2P Require Import Prelude CryptDE Wallet ServiceReceipt Route NodeRecord VersionedData.

Local Open Scope Z_scope.
Local Open Scope rust_scope.
Local Open Scope list_scope.

(** The eight kinds of message, each with the version and bytes of its payload. *)
Inductive MessageType :=
| MtClientRequest (vd : VersionedData)
| MtClientResponse (vd : VersionedData)
| MtGossip (vd : VersionedData)
| MtGossipFailure (vd : VersionedData)
| MtDnsResolveFailed (vd : VersionedData)
| MtServiceReceipt (vd : VersionedData)
| MtServiceReceiptOffer (vd : VersionedData)
| MtMeteredClientResponse (vd : VersionedData).

Record NoLookupIncipientCoresPackage := mkNoLookup {
  nl_public_key : PublicKey;
  nl_node_addr : NodeAddr;
  nl_payload : CryptData;
}.

Record IncipientCoresPackage := mkIncipient {
  icp_route : Route;
  icp_payload : CryptData;
  icp_routing_receipt_offers : list CryptData;
}.

Record LiveCoresPackage := mkLive {
  lcp_version : DataVersion;
  lcp_route : Route;
  lcp_payload : CryptData;
  lcp_routing_receipt_offers : list CryptData;
}.

Record ExpiredCoresPackage (T : Type) := mkExpired {
  immediate_neighbor : SocketAddr;
  paying_wallet : option WalletKind;
  remaining_route : Route;
  ecp_payload : T;
  payload_len : nat;
  ecp_routing_receipt_offers : list CryptData;
}.
Arguments mkExpired {T}.
Arguments immediate_neighbor {T}.
Arguments paying_wallet {T}.
Arguments remaining_route {T}.
Arguments ecp_payload {T}.
Arguments payload_len {T}.
Arguments ecp_routing_receipt_offers {T}.

(** [serde_cbor] on messages and live packages. *)
Class PackageCbor := {
  cbor_message : MessageType → result (list Z) string;
  uncbor_message : list Z → result MessageType string;
  cbor_live : LiveCoresPackage → result (list Z) string;
  uncbor_live : list Z → result LiveCoresPackage string;
}.

(** What is written is not empty and reads back the same; routes, keys and
    offers are strings of bytes and always written. *)
Class PackageCborLaws (P : PackageCbor) : Prop := {
  cbor_message_total m : ∃ bs, cbor_message m = Ok bs;
  cbor_message_roundtrip m bs : cbor_message m = Ok bs → bs ≠ [] ∧ uncbor_message bs = Ok m;
  cbor_live_total p : ∃ bs, cbor_live p = Ok bs;
  cbor_live_roundtrip p bs : cbor_live p = Ok bs → bs ≠ [] ∧ uncbor_live bs = Ok p;
}.

Definition live_version : DataVersion := mkVersion 0 0.

Definition live_new (route : Route) (payload : CryptData) : LiveCoresPackage :=
  mkLive live_version route payload [].
Definition live_with_offers (p : LiveCoresPackage) (offers : list CryptData) : LiveCoresPackage :=
  mkLive (lcp_version p) (lcp_route p) (lcp_payload p) offers.

Inductive PackageError :=
| CouldNotEncryptPayload (e : CodexError)
| BadSingleHop (e : CodexError)
| CouldNotDecryptNextHop (e : CodexError).

Section Packages.
Context `{E : Ethsign} `{HC : HopCbor} `{PC : PackageCbor}.

(** [NoLookupIncipientCoresPackage::new] *)
Definition no_lookup_new (cryptde : CryptDE) (rand : list Z) (k : PublicKey) (addr : NodeAddr)
    (payload : MessageType) : fallible NoLookupIncipientCoresPackage PackageError :=
  let! encrypted_payload := map_err_fallible CouldNotEncryptPayload
                              (encodex cbor_message cryptde rand k payload) in
  Ret (Ok (mkNoLookup k (clone_addr addr) encrypted_payload)).

(** [IncipientCoresPackage::new] *)
Definition incipient_new (cryptde : CryptDE) (rand : list Z) (route : Route) (payload : MessageType)
    (payload_destination_key : PublicKey) : fallible IncipientCoresPackage PackageError :=
  let! encrypted_payload := map_err_fallible CouldNotEncryptPayload
                              (encodex cbor_message cryptde rand payload_destination_key payload) in
  Ret (Ok (mkIncipient route encrypted_payload [])).
Definition incipient_with_offers (p : IncipientCoresPackage) (offers : list CryptData)
    : IncipientCoresPackage := mkIncipient (icp_route p) (icp_payload p) offers.

(** [LiveCoresPackage::into_next_live] *)
Definition into_next_live (p : LiveCoresPackage) (cryptde : CryptDE) (rand : list Z)
    : fallible (LiveHop * LiveCoresPackage) CodexError :=
  let* (r, route) := shift (lcp_route p) cryptde rand in
  Ret (match r with
       | Ok next_hop =>
           Ok (next_hop, live_with_offers (live_new route (lcp_payload p)) (lcp_routing_receipt_offers p))
       | Err e => Err e
       end).

(** [LiveCoresPackage::from_no_lookup_incipient] *)
Definition from_no_lookup_incipient (p : NoLookupIncipientCoresPackage) (cryptde : CryptDE)
    (rand : nat → list Z) : fallible (LiveCoresPackage * PublicKey) PackageError :=
  let! route := map_err_fallible BadSingleHop (single_hop (nl_public_key p) cryptde rand) in
  let* (r, route) := shift route cryptde (rand 2%nat) in
  match r with
  | Ok _ => Ret (Ok (live_new route (nl_payload p), nl_public_key p))
  | Err _ => Panic
  end.

(** [LiveCoresPackage::from_incipient] *)
Definition from_incipient (p : IncipientCoresPackage) (cryptde : CryptDE) (rand : list Z)
    : fallible (LiveCoresPackage * LiveHop) PackageError :=
  let* (r, route) := shift (icp_route p) cryptde rand in
  Ret (match r with
       | Ok next_hop =>
           Ok (live_with_offers (live_new route (icp_payload p)) (icp_routing_receipt_offers p), next_hop)
       | Err e => Err (CouldNotDecryptNextHop e)
       end).

(** [LiveCoresPackage::to_expired] *)
Definition to_expired (p : LiveCoresPackage) (immediate_neighbor_addr : SocketAddr)
    (main_cryptde payload_cryptde : CryptDE) : fallible (ExpiredCoresPackage MessageType) CodexError :=
  let! top_hop := next_hop (lcp_route p) main_cryptde in
  let! decoded_payload := decodex uncbor_message payload_cryptde (lcp_payload p) in
  Ret (Ok (mkExpired immediate_neighbor_addr (payer_wallet <$> payer top_hop) (lcp_route p)
             decoded_payload (length (lcp_payload p)) (lcp_routing_receipt_offers p))).
End Packages.
