(* ===== verification/ConnectionStatus.v ===== *)
(** * ConnectionStatus: how far the node has come in joining the network

    [neighborhood/overall_connection_status.rs]: the progress of the connection
    to each initial node, and the overall stage that is shown to the user. *)

From stdpp Require Import base list numbers option strings gmap.
From Stdlib Require Import ZArith Lia.
From S2P Require Import Prelude CountrySerde CountryFinder CryptDE NodeRecord GossipAcceptor.

Local Open Scope Z_scope.
Local Open Scope rust_scope.
Local Open Scope list_scope.

(** ** Data *)

(** [masq_lib::blockchains::chains::Chain] *)
Inductive Chain := EthMainnet | EthRopsten | PolyMainnet | PolyAmoy | BaseMainnet | BaseSepolia | Dev.
Global Instance Chain_eq_dec : EqDecision Chain.
Proof. solve_decision. Defined.

Record NodeDescriptor := mkDescriptor {
  nd_blockchain : Chain;
  nd_encryption_public_key : PublicKey;
  nd_node_addr_opt : option NodeAddr;
}.
Global Instance NodeDescriptor_eq_dec : EqDecision NodeDescriptor.
Proof. solve_decision. Defined.

Inductive ConnectionStageErrors :=
| TcpConnectionFailedError | NoGossipResponseReceivedError | PassLoopFoundError | DebutRejected.
Inductive ConnectionStage :=
| StageZero
| TcpConnectionEstablished
| NeighborshipEstablished
| Failed_ (e : ConnectionStageErrors).
Global Instance ConnectionStageErrors_eq_dec : EqDecision ConnectionStageErrors.
Proof. solve_decision. Defined.
Global Instance ConnectionStage_eq_dec : EqDecision ConnectionStage.
Proof. solve_decision. Defined.

Definition is_failed (s : ConnectionStage) : bool :=
  match s with Failed_ _ => true | _ => false end.

(** [TryFrom<&ConnectionStage> for usize] *)
Definition stage_usize (s : ConnectionStage) : option nat :=
  match s with
  | StageZero => Some 0%nat
  | TcpConnectionEstablished => Some 1%nat
  | NeighborshipEstablished => Some 2%nat
  | Failed_ _ => None
  end.

Record ConnectionProgress := mkProgress {
  initial_node_descriptor : NodeDescriptor;
  current_peer_addr : IpAddr;
  connection_stage : ConnectionStage;
}.
Global Instance ConnectionProgress_eq_dec : EqDecision ConnectionProgress.
Proof. solve_decision. Defined.

Definition with_stage (p : ConnectionProgress) (s : ConnectionStage) : ConnectionProgress :=
  mkProgress (initial_node_descriptor p) (current_peer_addr p) s.

(** [ConnectionProgress::new]: a descriptor without an address panics. *)
Definition progress_new (nd : NodeDescriptor) : exec ConnectionProgress :=
  let* addr := expect (nd_node_addr_opt nd) in
  Ret (mkProgress nd (na_ip_addr addr) StageZero).

(** ** One connection *)

Definition transition_is_valid (from to : ConnectionStage) : bool :=
  match from, to with
  | StageZero, TcpConnectionEstablished => true
  | StageZero, Failed_ _ => true
  | TcpConnectionEstablished, NeighborshipEstablished => true
  | TcpConnectionEstablished, Failed_ _ => true
  | NeighborshipEstablished, Failed_ _ => true
  | _, _ => false
  end.

Definition update_stage (p : ConnectionProgress) (s : ConnectionStage) : bool * ConnectionProgress :=
  if bool_decide (connection_stage p = s) then (false, p)
  else if transition_is_valid (connection_stage p) s then (true, with_stage p s)
  else (false, p).

Definition handle_pass_gossip (p : ConnectionProgress) (new_pass_target : IpAddr)
    : bool * ConnectionProgress :=
  match connection_stage p with
  | StageZero | TcpConnectionEstablished =>
      (true, mkProgress (initial_node_descriptor p) new_pass_target StageZero)
  | _ => (false, p)
  end.

Definition retry_initial_node (p : ConnectionProgress) : bool * ConnectionProgress :=
  if is_failed (connection_stage p) then
    match nd_node_addr_opt (initial_node_descriptor p) with
    | Some addr => (true, mkProgress (initial_node_descriptor p) (na_ip_addr addr) StageZero)
    | None => (false, p)
    end
  else (false, p).

Definition reset_initial_node_for_user_retry (p : ConnectionProgress) : ConnectionProgress :=
  match nd_node_addr_opt (initial_node_descriptor p) with
  | Some addr => mkProgress (initial_node_descriptor p) (na_ip_addr addr) StageZero
  | None => p
  end.

Definition reject_debut (p : ConnectionProgress) : bool * ConnectionProgress :=
  match connection_stage p with
  | StageZero | TcpConnectionEstablished => update_stage p (Failed_ DebutRejected)
  | _ => (false, p)
  end.

(** [OverallConnectionStatus::update_connection_stage] *)
Definition update_connection_stage (p : ConnectionProgress) (event : ConnectionProgressEvent)
    : bool * ConnectionProgress :=
  match event with
  | TcpConnectionSuccessful => update_stage p TcpConnectionEstablished
  | TcpConnectionFailed => update_stage p (Failed_ TcpConnectionFailedError)
  | IntroductionGossipReceived _ => update_stage p NeighborshipEstablished
  | StandardGossipReceived => update_stage p NeighborshipEstablished
  | PassGossipReceived new_pass_target => handle_pass_gossip p new_pass_target
  | PassLoopFound => update_stage p (Failed_ PassLoopFoundError)
  | NoGossipResponseReceived => update_stage p (Failed_ NoGossipResponseReceivedError)
  end.

(** ** All of them *)

Inductive OverallConnectionStage := NotConnected | ConnectedToNeighbor | RouteFound.
Global Instance OverallConnectionStage_eq_dec : EqDecision OverallConnectionStage.
Proof. solve_decision. Defined.

(** The number reported to the mobile runtime. *)
Definition stage_as_u8 (s : OverallConnectionStage) : Z :=
  match s with NotConnected => 0 | ConnectedToNeighbor => 1 | RouteFound => 2 end.

Inductive UiConnectionStage := UiNotConnected | UiConnectedToNeighbor | UiRouteFound.
Inductive UiConnectionStatusReason := EntryNodesUnreachable | RouteNotReady | RouteProofStale.

Definition ui_stage (s : OverallConnectionStage) : UiConnectionStage :=
  match s with
  | NotConnected => UiNotConnected
  | ConnectedToNeighbor => UiConnectedToNeighbor
  | RouteFound => UiRouteFound
  end.

Record OverallConnectionStatus := mkStatus {
  stage : OverallConnectionStage;
  progress : list ConnectionProgress;
}.

Fixpoint progress_of_descriptors (nds : list NodeDescriptor) : exec (list ConnectionProgress) :=
  match nds with
  | [] => Ret []
  | nd :: nds =>
      let* p := progress_new nd in
      let* ps := progress_of_descriptors nds in
      Ret (p :: ps)
  end.

(** [OverallConnectionStatus::new] *)
Definition status_new (nds : list NodeDescriptor) : exec OverallConnectionStatus :=
  let* ps := progress_of_descriptors nds in
  Ret (mkStatus NotConnected ps).

Definition iter_initial_node_descriptors (s : OverallConnectionStatus) : list NodeDescriptor :=
  map initial_node_descriptor (progress s).

Definition get_peer_addrs (s : OverallConnectionStatus) : list IpAddr := map current_peer_addr (progress s).

(** [progress.iter_mut().find(p)]: the position of the entry a reference is
    handed out to, and the entry. *)
Fixpoint find_progress (p : ConnectionProgress → bool) (ps : list ConnectionProgress)
    : option (nat * ConnectionProgress) :=
  match ps with
  | [] => None
  | x :: ps =>
      if p x then Some (0%nat, x)
      else match find_progress p ps with Some (i, y) => Some (S i, y) | None => None end
  end.

Definition get_connection_progress_by_ip (s : OverallConnectionStatus) (peer_addr : IpAddr)
    : option (nat * ConnectionProgress) :=
  find_progress (fun p => bool_decide (current_peer_addr p = peer_addr)) (progress s).

Definition get_connection_progress_by_desc (s : OverallConnectionStatus) (nd : NodeDescriptor)
    : option (nat * ConnectionProgress) :=
  find_progress (fun p => bool_decide (initial_node_descriptor p = nd)) (progress s).

Definition get_connection_progress_to_modify (s : OverallConnectionStatus) (msg : ConnectionProgressMessage)
    : option (nat * ConnectionProgress) :=
  let is_duplicate :=
    match event msg with
    | PassGossipReceived pass_target => bool_decide (pass_target ∈ get_peer_addrs s)
    | _ => false
    end in
  if is_duplicate then None else get_connection_progress_by_ip s (peer_addr msg).

(** Writing through such a reference. *)
Definition put_progress (s : OverallConnectionStatus) (i : nat) (p : ConnectionProgress)
    : OverallConnectionStatus := mkStatus (stage s) (<[i := p]> (progress s)).
Definition set_stage (s : OverallConnectionStatus) (st : OverallConnectionStage)
    : OverallConnectionStatus := mkStatus st (progress s).

Definition status_is_empty (s : OverallConnectionStatus) : bool := bool_decide (progress s = []).

(** [OverallConnectionStatus::remove]: [Vec::remove] panics out of range. *)
Definition status_remove (s : OverallConnectionStatus) (index : nat)
    : exec (NodeDescriptor * OverallConnectionStatus) :=
  let* removed := expect (progress s !! index) in
  Ret (initial_node_descriptor removed, mkStatus (stage s) (delete index (progress s))).

Definition can_make_routes (s : OverallConnectionStatus) : bool := bool_decide (stage s = RouteFound).

Definition ui_connection_status_reason (s : OverallConnectionStatus) : option UiConnectionStatusReason :=
  match stage s with
  | RouteFound => None
  | ConnectedToNeighbor => Some RouteNotReady
  | NotConnected =>
      if negb (status_is_empty s) && forallb (fun p => is_failed (connection_stage p)) (progress s)
      then Some EntryNodesUnreachable else None
  end.
