(* ===== verification/NeighborhoodActor.v ===== *)
(** * NeighborhoodActor: the messages of the neighborhood

    The handlers of [Neighborhood] ([neighborhood/mod.rs]) and what each sends
    to the other actors: to the UI, the Accountant, the Hopper, the mobile
    runtime, its own mailbox and its timers.  They compose the acceptor and the
    producer of gossip, the search for routes, the preferences of the user and
    the status of the connections. *)

From stdpp Require Import base list numbers option strings gmap.
From Stdlib Require Import ZArith Lia.
From S2P Require Import Prelude CountrySerde CountryFinder CryptDE Wallet ServiceReceipt Route.
From S2P Require Import NodeRecord NeighborhoodDb ExitPreferences Gossip GossipAcceptor.
From S2P Require Import RouteFinder RouteQuery VersionedData Migrations CoresPackage.
From S2P Require Import ConnectionStatus.

Local Open Scope Z_scope.
Local Open Scope rust_scope.
Local Open Scope list_scope.

Definition CONSECUTIVE_ROUTE_FAILURES_BEFORE_DEMOTION : Z := 3.

(** ** State and messages *)

(** [bound] stands for the four recipients, which [handle_bind_message] sets
    together; [limits_opt] for the acceptor, which has the limits of the
    configuration from [handle_start_message] on and panics before. *)
Record Actor := mkActor {
  nb : NeighborhoodState;
  status : OverallConnectionStatus;
  limits_opt : option RatePackLimits;
  pass_targets : gmap IpAddr Z;
  last_dead_node_check : Z;
  bound : bool;
  chain_ : Chain;
  db_password_opt : option string;
  topology_route_available : bool;
  accountant_started : bool;
  consecutive_route_failures : Z;
  route_readiness_generation : Z;
  route_readiness_proof_is_stale : bool;
  route_readiness_expiration_handle_opt : option Z;
}.

(** What is sent, in order.  A timer is named by the generation it was set in. *)
Inductive Out :=
| UiBroadcast (s : UiConnectionStage)
| UiStatusResponse (client_id context_id : Z) (s : UiConnectionStage) (r : option UiConnectionStatusReason)
| UiExitLocationReply (client_id context_id : Z) (r : ExitLocationReply)
| MobileStage (n : Z)
| MobileStreamConnectionFailed
| StartAccountant
| AskLater (prev_connection_progress : ConnectionProgress)
| RunLater (generation : Z)
| CancelFuture (generation : Z)
| ToHopper (p : IncipientCoresPackage)
| ToHopperNoLookup (p : NoLookupIncipientCoresPackage)
| ToSelf (m : ConnectionProgressMessage)
| SavePastNeighbors (nds : option (list NodeDescriptor))
| NodeQueryResponse (r : option (PublicKey * option NodeAddr * RatePack)).

(** A handler changes the actor, sends messages and may panic. *)
Definition act (A : Type) : Type := Actor → exec (A * Actor * list Out).
Definition act_ret {A} (x : A) : act A := fun a => Ret (x, a, []).
Definition act_bind {A B} (c : act A) (k : A → act B) : act B := fun a =>
  match c a with
  | Panic => Panic
  | Ret (x, a, out) =>
      match k x a with
      | Panic => Panic
      | Ret (y, a, out') => Ret (y, a, out ++ out')
      end
  end.
Notation "'act*' x := c 'in' k" := (act_bind c (fun x => k))
  (at level 10, x pattern, c at level 100, k at level 200) : rust_scope.
Notation "'do*' c 'in' k" := (act_bind c (fun _ => k))
  (at level 10, c at level 100, k at level 200) : rust_scope.

Definition get {A} (f : Actor → A) : act A := fun a => Ret (f a, a, []).
Definition modify (f : Actor → Actor) : act unit := fun a => Ret ((), f a, []).
Definition send (o : Out) : act unit := fun a => Ret ((), a, [o]).
Definition run {A} (e : exec A) : act A := fun a =>
  match e with Ret x => Ret (x, a, []) | Panic => Panic end.
Definition when (b : bool) (c : act unit) : act unit := if b then c else act_ret ().
(** [recipient_opt.as_ref().expect(...)] *)
Definition expect_bound : act unit := act* b := get bound in if b then act_ret () else run Panic.

(** Assignments to fields. *)
Definition set_nb (x : NeighborhoodState) (a : Actor) : Actor :=
  mkActor x (status a) (limits_opt a) (pass_targets a) (last_dead_node_check a) (bound a) (chain_ a)
    (db_password_opt a) (topology_route_available a) (accountant_started a)
    (consecutive_route_failures a) (route_readiness_generation a) (route_readiness_proof_is_stale a)
    (route_readiness_expiration_handle_opt a).
Definition set_status (x : OverallConnectionStatus) (a : Actor) : Actor :=
  mkActor (nb a) x (limits_opt a) (pass_targets a) (last_dead_node_check a) (bound a) (chain_ a)
    (db_password_opt a) (topology_route_available a) (accountant_started a)
    (consecutive_route_failures a) (route_readiness_generation a) (route_readiness_proof_is_stale a)
    (route_readiness_expiration_handle_opt a).
Definition set_gossip (db : NeighborhoodDatabase) (targets : gmap IpAddr Z) (last : Z) (a : Actor) : Actor :=
  mkActor (with_database (nb a) db) (status a) (limits_opt a) targets last (bound a) (chain_ a)
    (db_password_opt a) (topology_route_available a) (accountant_started a)
    (consecutive_route_failures a) (route_readiness_generation a) (route_readiness_proof_is_stale a)
    (route_readiness_expiration_handle_opt a).
Definition set_limits (x : option RatePackLimits) (a : Actor) : Actor :=
  mkActor (nb a) (status a) x (pass_targets a) (last_dead_node_check a) (bound a) (chain_ a)
    (db_password_opt a) (topology_route_available a) (accountant_started a)
    (consecutive_route_failures a) (route_readiness_generation a) (route_readiness_proof_is_stale a)
    (route_readiness_expiration_handle_opt a).
Definition set_bound (x : bool) (a : Actor) : Actor :=
  mkActor (nb a) (status a) (limits_opt a) (pass_targets a) (last_dead_node_check a) x (chain_ a)
    (db_password_opt a) (topology_route_available a) (accountant_started a)
    (consecutive_route_failures a) (route_readiness_generation a) (route_readiness_proof_is_stale a)
    (route_readiness_expiration_handle_opt a).
Definition set_password (x : option string) (a : Actor) : Actor :=
  mkActor (nb a) (status a) (limits_opt a) (pass_targets a) (last_dead_node_check a) (bound a) (chain_ a)
    x (topology_route_available a) (accountant_started a)
    (consecutive_route_failures a) (route_readiness_generation a) (route_readiness_proof_is_stale a)
    (route_readiness_expiration_handle_opt a).
(** The flags of the route: topology, accountant, failures, generation, stale. *)
Definition set_route (topology accountant : bool) (failures generation : Z) (stale : bool) (a : Actor)
    : Actor :=
  mkActor (nb a) (status a) (limits_opt a) (pass_targets a) (last_dead_node_check a) (bound a) (chain_ a)
    (db_password_opt a) topology accountant failures generation stale
    (route_readiness_expiration_handle_opt a).
Definition set_topology (x : bool) (a : Actor) : Actor :=
  set_route x (accountant_started a) (consecutive_route_failures a) (route_readiness_generation a)
    (route_readiness_proof_is_stale a) a.
Definition set_accountant_started (a : Actor) : Actor :=
  set_route (topology_route_available a) true (consecutive_route_failures a)
    (route_readiness_generation a) (route_readiness_proof_is_stale a) a.
Definition set_failures (x : Z) (a : Actor) : Actor :=
  set_route (topology_route_available a) (accountant_started a) x (route_readiness_generation a)
    (route_readiness_proof_is_stale a) a.
Definition set_generation (x : Z) (a : Actor) : Actor :=
  set_route (topology_route_available a) (accountant_started a) (consecutive_route_failures a) x
    (route_readiness_proof_is_stale a) a.
Definition set_stale (x : bool) (a : Actor) : Actor :=
  set_route (topology_route_available a) (accountant_started a) (consecutive_route_failures a)
    (route_readiness_generation a) x a.
Definition set_handle (x : option Z) (a : Actor) : Actor :=
  mkActor (nb a) (status a) (limits_opt a) (pass_targets a) (last_dead_node_check a) (bound a) (chain_ a)
    (db_password_opt a) (topology_route_available a) (accountant_started a)
    (consecutive_route_failures a) (route_readiness_generation a) (route_readiness_proof_is_stale a) x.

(** ** The actor at the beginning *)

Definition ROUTING_RECEIPT_V1_CAPABILITY : Z := Z.shiftl 1 1.
Definition CURRENT_PROTOCOL_CAPABILITIES : Z :=
  Z.lor SERVICE_RECEIPT_SETTLEMENT_V1_CAPABILITY ROUTING_RECEIPT_V1_CAPABILITY.

(** [Chain::is_mainnet] *)
Definition is_mainnet (c : Chain) : bool :=
  match c with EthMainnet | PolyMainnet | BaseMainnet => true | _ => false end.

Definition neighbor_configs (mode : NeighborhoodMode NodeDescriptor) : list NodeDescriptor :=
  match mode with
  | Standard _ nds _ => nds
  | ZeroHop => []
  | OriginateOnly nds _ => nds
  | ConsumeOnly nds => nds
  end.
Definition is_decentralized (mode : NeighborhoodMode NodeDescriptor) : bool :=
  match mode with ZeroHop => false | _ => true end.

(** [Neighborhood::new], with the parts of the configuration it reads; the
    contract of the chain is the one hops are paid through. *)
Definition actor_new `{I : InnerCbor} (finder : CountryCodeFinder) (cryptde : CryptDE)
    (mode : NeighborhoodMode NodeDescriptor) (earning_wallet : WalletKind)
    (consuming_wallet_opt : option WalletKind) (min_hops : Hops) (c : Chain) (chain_contract : Address)
    (settlement_contract_opt : option Address) (password_opt : option string) (now : Z) : exec Actor :=
  let* db := db_new finder mode earning_wallet cryptde now in
  let contract_opt := if is_decentralized mode then settlement_contract_opt else None in
  let capabilities := match contract_opt with Some _ => CURRENT_PROTOCOL_CAPABILITIES | None => 0 end in
  let* db := announce_settlement capabilities contract_opt cryptde db in
  if forallb (fun nd => Bool.eqb (is_mainnet (nd_blockchain nd)) (is_mainnet c)) (neighbor_configs mode) then
    let* s := status_new (neighbor_configs mode) in
    Ret (mkActor
      (mkNeighborhood cryptde db preferences_new consuming_wallet_opt chain_contract
         (negb (is_decentralized mode)) min_hops (calculate_db_patch_size min_hops))
      s None ∅ now false c password_opt false false 0 0 false None)
  else Panic.

(** ** The stage *)

(** [update_ocs_stage_and_send_message_to_ui] *)
Definition update_ocs_stage_and_send_message_to_ui (new_stage : OverallConnectionStage) : act unit :=
  act* s := get status in
  if bool_decide (new_stage = stage s) then act_ret ()
  else
    do* modify (set_status (set_stage s new_stage)) in
    do* send (MobileStage (stage_as_u8 new_stage)) in
    send (UiBroadcast (ui_stage new_stage)).

(** The stage without a route. *)
Definition fallback_stage (db : NeighborhoodDatabase) : exec OverallConnectionStage :=
  let* r := root db in
  Ret (if bool_decide (full_neighbor_keys r db = ∅) then NotConnected else ConnectedToNeighbor).

Definition start_accountant_if_needed : act unit :=
  act* started := get accountant_started in
  if started then act_ret ()
  else
    do* expect_bound in
    do* send StartAccountant in
    modify set_accountant_started.

Definition set_mobile_connection_stage (s : OverallConnectionStage) : act unit :=
  act* b := get bound in
  if b then update_ocs_stage_and_send_message_to_ui s
  else
    act* st := get status in
    do* modify (set_status (set_stage st s)) in
    send (MobileStage (stage_as_u8 s)).

(** [Handler<RouteUseSucceededMessage>] *)
Definition handle_route_use_succeeded : act unit :=
  do* modify (set_failures 0) in
  do* modify (set_topology true) in
  do* modify (set_stale false) in
  act* handle := get route_readiness_expiration_handle_opt in
  do* modify (set_handle None) in
  do* (match handle with Some g => send (CancelFuture g) | None => act_ret () end) in
  act* generation := get route_readiness_generation in
  let generation := wrap_u 64 (generation + 1) in
  do* modify (set_generation generation) in
  do* start_accountant_if_needed in
  do* expect_bound in
  do* update_ocs_stage_and_send_message_to_ui RouteFound in
  do* send (RunLater generation) in
  modify (set_handle (Some generation)).

(** [Handler<RouteUseFailedMessage>] *)
Definition handle_route_use_failed : act unit :=
  act* failures := get consecutive_route_failures in
  let failures := saturating_add 64 failures 1 in
  do* modify (set_failures failures) in
  act* s := get status in
  if (failures <? CONSECUTIVE_ROUTE_FAILURES_BEFORE_DEMOTION)
     || negb (bool_decide (stage s = RouteFound)) then act_ret ()
  else
    do* modify (set_topology false) in
    do* modify (set_stale false) in
    act* db := get (fun a => nb_db (nb a)) in
    act* fallback := run (fallback_stage db) in
    do* expect_bound in
    update_ocs_stage_and_send_message_to_ui fallback.

Definition expire_route_readiness_lease (generation : Z) : act bool :=
  act* current := get route_readiness_generation in
  act* s := get status in
  if negb (generation =? current) || negb (bool_decide (stage s = RouteFound)) then act_ret false
  else
    act* db := get (fun a => nb_db (nb a)) in
    act* fallback := run (fallback_stage db) in
    do* modify (set_stale true) in
    act* b := get bound in
    do* (if b then update_ocs_stage_and_send_message_to_ui fallback
          else act* st := get status in modify (set_status (set_stage st fallback))) in
    act_ret true.

(** The closure of [run_later] *)
Definition handle_lease_timer (generation : Z) : act unit :=
  do* modify (set_handle None) in
  do* expire_route_readiness_lease generation in
  act_ret ().

(** ** Connections *)

(** [send_ask_about_debut_gossip_message] *)
Definition send_ask_about_debut_gossip_message (current_peer : IpAddr) : act unit :=
  act* s := get status in
  act* found := run (expect (get_connection_progress_by_ip s current_peer)) in
  send (AskLater found.2).

(** [Handler<ConnectionProgressMessage>] *)
Definition handle_connection_progress (msg : ConnectionProgressMessage) : act unit :=
  act* s := get status in
  match get_connection_progress_to_modify s msg with
  | None => act_ret ()
  | Some (i, p) =>
      let '(event_was_applied, p') := update_connection_stage p (event msg) in
      do* modify (set_status (put_progress s i p')) in
      if negb event_was_applied then act_ret ()
      else
        match event msg with
        | TcpConnectionSuccessful => send_ask_about_debut_gossip_message (peer_addr msg)
        | IntroductionGossipReceived _ | StandardGossipReceived =>
            if bool_decide (stage s = NotConnected)
            then do* expect_bound in update_ocs_stage_and_send_message_to_ui ConnectedToNeighbor
            else act_ret ()
        | TcpConnectionFailed | PassLoopFound | NoGossipResponseReceived =>
            when (bool_decide (stage s = NotConnected))
              (send_ask_about_debut_gossip_message (peer_addr msg))
        | PassGossipReceived _ => act_ret ()
        end
  end.

(** [handle_gossip_failure] and its [Handler] *)
Definition handle_gossip_failure (failure_source : SocketAddr) (failure : GossipFailure_0v1)
    : act (option IpAddr) :=
  act* s := get status in
  match get_connection_progress_by_ip s (sock_ip failure_source) with
  | None => act_ret None
  | Some (position, p) =>
      let '(rejection_was_applied, p') := reject_debut p in
      do* modify (set_status (put_progress s position p')) in
      if negb rejection_was_applied then act_ret None
      else
        match failure with
        | ManualRejection => act_ret None
        | _ => act_ret (Some (sock_ip failure_source))
        end
  end.
Definition handle_gossip_failure_package (failure_source : SocketAddr) (failure : GossipFailure_0v1)
    : act unit :=
  act* retry := handle_gossip_failure failure_source failure in
  match retry with
  | Some retry_peer =>
      act* s := get status in
      when (bool_decide (stage s = NotConnected)) (send_ask_about_debut_gossip_message retry_peer)
  | None => act_ret ()
  end.

Section Handlers.
Context `{E : Ethsign} `{HC : HopCbor} `{PC : PackageCbor} `{I : InnerCbor} `{H : HashOrder} `{C : Choose R}.

(** What the handlers read from outside: the clocks, the generator of random
    numbers for routes and encryptions, the table of countries, serialization
    of gossip, the contact keys of [CryptDE] and the peers of the mailbox. *)
Record Env := mkEnv {
  finder : CountryCodeFinder;
  now : Z;
  system_now : Z;
  rng_over : R;
  rng_back : R;
  rand : nat → nat → list Z;
  cbor_gossip : Gossip_0v1 → result (list Z) string;
  cbor_gossip_failure : GossipFailure_0v1 → result (list Z) string;
  contact_key : PublicKey → exec PublicKey;
}.
Context (env : Env).

(** [From<T> for VersionedData<T>] for gossip and its failures *)
Definition gossip_message (g : Gossip_0v1) : exec MessageType :=
  let* vd := versioned_new (cbor_gossip env) (migrations_new PAYLOAD_CURRENT_VERSION) g in
  Ret (MtGossip vd).
Definition gossip_failure_message (f : GossipFailure_0v1) : exec MessageType :=
  let* vd := versioned_new (cbor_gossip_failure env) (migrations_new PAYLOAD_CURRENT_VERSION) f in
  Ret (MtGossipFailure vd).

(** [send_no_lookup_package]; [n] tells the sends of one handler apart *)
Definition send_no_lookup_package (n : nat) (m : MessageType) (k : PublicKey) (addr : NodeAddr) : act unit :=
  act* state := get nb in
  act* package := run (no_lookup_new (nb_cryptde state) (rand env n 0) k addr m) in
  match package with
  | Err _ => act_ret ()
  | Ok p => act* b := get bound in when b (send (ToHopperNoLookup p))
  end.

Definition send_debut_gossip_to_descriptor (n : nat) (g : Gossip_0v1) (nd : NodeDescriptor) : act unit :=
  act* addr := run (expect (nd_node_addr_opt nd)) in
  act* m := run (gossip_message g) in
  send_no_lookup_package n m (nd_encryption_public_key nd) addr.

Fixpoint send_debuts (n : nat) (g : Gossip_0v1) (nds : list NodeDescriptor) : act unit :=
  match nds with
  | [] => act_ret ()
  | nd :: nds => do* send_debut_gossip_to_descriptor n g nd in send_debuts (S n) g nds
  end.
Definition send_debut_gossip_to_all_initial_descriptors : act unit :=
  act* s := get status in
  if status_is_empty s then act_ret ()
  else
    act* state := get nb in
    act* g := run (produce_debut (nb_db state)) in
    send_debuts 0 g (iter_initial_node_descriptors s).

(** [Handler<AskAboutDebutGossipMessage>] *)
Definition handle_ask_about_debut_gossip (prev : ConnectionProgress) : act unit :=
  let nd := initial_node_descriptor prev in
  act* s := get status in
  let retry_target_in_use :=
    match nd_node_addr_opt nd with
    | Some addr => existsb (fun p => negb (bool_decide (initial_node_descriptor p = nd))
                                     && bool_decide (current_peer_addr p = na_ip_addr addr)) (progress s)
    | None => false
    end in
  match get_connection_progress_by_desc s nd with
  | None => act_ret ()
  | Some (i, p) =>
      if bool_decide (prev = p) then
        match connection_stage p with
        | TcpConnectionEstablished =>
            let '(applied, p') := update_connection_stage p NoGossipResponseReceived in
            do* modify (set_status (put_progress s i p')) in
            when applied (send_ask_about_debut_gossip_message (current_peer_addr p'))
        | Failed_ _ =>
            if bool_decide (stage s = NotConnected) then
              if retry_target_in_use then send_ask_about_debut_gossip_message (current_peer_addr p)
              else
                let '(retried, p') := retry_initial_node p in
                do* modify (set_status (put_progress s i p')) in
                when retried (
                  act* state := get nb in
                  act* g := run (produce_debut (nb_db state)) in
                  send_debut_gossip_to_descriptor 0 g (initial_node_descriptor p'))
            else act_ret ()
        | _ => act_ret ()
        end
      else act_ret ()
  end.

(** ** Gossip to the neighbors *)

(** [gossip_to_neighbor] and [create_single_hop_route] *)
Definition gossip_to_neighbor (n : nat) (neighbor : PublicKey) (g : Gossip_0v1) : act unit :=
  act* state := get nb in
  let cryptde := nb_cryptde state in
  act* route := run (one_way (mkSegment [public_key cryptde; neighbor] Neighborhood) cryptde None None
                       (rand env n)) in
  match route with
  | Err _ => act_ret ()
  | Ok route =>
      act* m := run (gossip_message g) in
      act* package := run (incipient_new cryptde (rand env n 2%nat) route m neighbor) in
      match package with
      | Err _ => act_ret ()
      | Ok p => act* b := get bound in when b (send (ToHopper p))
      end
  end.

(** The producer, with the time of its last check for dead nodes. *)
Definition produce_for (neighbor : PublicKey) : act (option Gossip_0v1) :=
  act* state := get nb in
  act* last := get last_dead_node_check in
  act* targets := get pass_targets in
  act* res := run (produce last (nb_db state) neighbor (now env)) in
  let '(g, last', db') := res in
  do* modify (set_gossip db' targets last') in
  act_ret g.

Fixpoint gossip_to_each (n : nat) (neighbors : list PublicKey) : act unit :=
  match neighbors with
  | [] => act_ret ()
  | k :: ks =>
      act* g := produce_for k in
      do* (match g with Some g => gossip_to_neighbor n k g | None => act_ret () end) in
      gossip_to_each (S n) ks
  end.

Definition set_database (db : NeighborhoodDatabase) : act unit :=
  modify (fun a => set_gossip db (pass_targets a) (last_dead_node_check a) a).

Definition gossip_to_neighbors : act unit :=
  act* state := get nb in
  act* db := run (map_root (nb_db state) (fun r => regenerate_signed_gossip r (nb_cryptde state))) in
  do* set_database db in
  act* r := run (root db) in
  gossip_to_each 0 (hash_iter (half_neighbor_keys r)).

(** ** Routes *)

(** The query [search_for_a_new_route] makes up. *)
Definition search_query : RouteQueryMessage :=
  mkQuery None ProxyClient (Some ProxyServer) 10000 (mkHost "booga.com" 1234) 0 None.

Definition search_for_a_new_route : act unit :=
  act* state := get nb in
  act* response := run (handle_route_query_message state search_query (rng_over env) (rng_back env)
                          (rand env 1000)) in
  match response with
  | Some _ => do* modify (set_topology true) in start_accountant_if_needed
  | None => modify (set_topology false)
  end.

Definition check_connectedness : act unit :=
  act* available := get topology_route_available in
  if available then act_ret () else search_for_a_new_route.

Definition invalidate_route_after_neighbor_loss : act unit :=
  do* modify (set_topology false) in
  do* modify (set_stale false) in
  act* db := get (fun a => nb_db (nb a)) in
  act* fallback := run (fallback_stage db) in
  act* s := get status in
  act* b := get bound in
  do* when (bool_decide (stage s = RouteFound) || bool_decide (fallback = NotConnected))
        (if b then update_ocs_stage_and_send_message_to_ui fallback
         else modify (set_status (set_stage s fallback))) in
  when b check_connectedness.

(** ** Gossip that arrives *)

Definition neighbor_keys (db : NeighborhoodDatabase) : exec (gset PublicKey) :=
  let* r := root db in Ret (full_neighbor_keys r db).

(** [NodeDescriptor::from((record, chain, cryptde))] *)
Definition descriptor_of_record (c : Chain) (n : NodeRecord) : exec NodeDescriptor :=
  let* k := contact_key env (nr_public_key n) in
  Ret (mkDescriptor c k (clone_addr <$> nr_addr n)).

(** [to_node_descriptors] *)
Fixpoint to_node_descriptors (db : NeighborhoodDatabase) (c : Chain) (ks : list PublicKey)
    : exec (list NodeDescriptor) :=
  match ks with
  | [] => Ret []
  | k :: ks =>
      let* n := expect (node_by_key db k) in
      let* nd := descriptor_of_record c n in
      let* nds := to_node_descriptors db c ks in
      Ret (nd :: nds)
  end.

Definition curate_past_neighbors (ks : gset PublicKey) : act unit :=
  act* password := get db_password_opt in
  match password with
  | None => act_ret ()
  | Some _ =>
      act* state := get nb in
      act* c := get chain_ in
      act* nds := run (to_node_descriptors (nb_db state) c (hash_iter ks)) in
      send (SavePastNeighbors (match nds with [] => None | _ => Some nds end))
  end.

Definition handle_database_changes (before after : gset PublicKey) : act unit :=
  do* when (negb (bool_decide (after = before))) (curate_past_neighbors after) in
  check_connectedness.

Definition refresh_db_countries : act unit :=
  act* state := get nb in
  act* countries := run (init_db_countries state) in
  modify (fun a => set_nb (with_prefs (nb a) (with_db_countries (nb_prefs (nb a)) countries)) a).

(** [handle_gossip_reply] and [handle_gossip_failed] *)
Definition handle_gossip_reply (n : nat) (g : Gossip_0v1) (k : PublicKey) (addr : NodeAddr) : act unit :=
  act* m := run (gossip_message g) in send_no_lookup_package n m k addr.
Definition handle_gossip_failed (n : nat) (f : GossipFailure_0v1) (k : PublicKey) (addr : NodeAddr)
    : act unit :=
  act* m := run (gossip_failure_message f) in send_no_lookup_package n m k addr.

Definition handle_acceptance_result (n : nat) (res : GossipAcceptanceResult) : act unit :=
  match res with
  | Accepted => do* refresh_db_countries in gossip_to_neighbors
  | Reply next_debut target_key target_node_addr =>
      act* state := get nb in
      do* (match nb_min_hops state with OneHop => refresh_db_countries | _ => act_ret () end) in
      handle_gossip_reply n next_debut target_key target_node_addr
  | Failed failure target_key target_node_addr =>
      handle_gossip_failed n failure target_key target_node_addr
  | Ban _ => act_ret ()
  end.

Fixpoint handle_acceptance_results (n : nat) (ress : list GossipAcceptanceResult) : act unit :=
  match ress with
  | [] => act_ret ()
  | res :: ress => do* handle_acceptance_result n res in handle_acceptance_results (S n) ress
  end.

Fixpoint send_progress (ms : list ConnectionProgressMessage) : act unit :=
  match ms with
  | [] => act_ret ()
  | m :: ms => do* send (ToSelf m) in send_progress ms
  end.

(** [handle_agrs], with the real acceptor *)
Definition handle_agrs (agrs : list AccessibleGossipRecord) (gossip_source : SocketAddr) : act unit :=
  act* state := get nb in
  act* s := get status in
  act* limits := get limits_opt in
  act* limits := run (expect limits) in
  act* targets := get pass_targets in
  let md := mkNMetadata (get_peer_addrs s) (nb_db_patch_size state) (Some (nb_prefs state)) in
  act* res := run (acceptor_handle (finder env) (nb_cryptde state) limits md (now env) (system_now env)
                     (mkState (nb_db state) targets []) agrs gossip_source) in
  let '(acceptance_results, st) := res in
  do* modify (fun a => set_gossip (st_db st) (previous_pass_targets st) (last_dead_node_check a) a) in
  do* send_progress (cpms st) in
  handle_acceptance_results 0 acceptance_results.

(** [handle_gossip_agrs] *)
Definition handle_gossip_agrs (agrs : list AccessibleGossipRecord) (gossip_source : SocketAddr) : act unit :=
  act* db := get (fun a => nb_db (nb a)) in
  act* before := run (neighbor_keys db) in
  do* handle_agrs agrs gossip_source in
  act* db := get (fun a => nb_db (nb a)) in
  act* after := run (neighbor_keys db) in
  handle_database_changes before after.

(** [handle_gossip] *)
Definition handle_gossip (g : Gossip_0v1) (gossip_source : SocketAddr) : act unit :=
  act* state := get nb in
  act* agrs_opt := run (admitted_agrs (nb_cryptde state) g) in
  match agrs_opt with
  | None => act_ret ()
  | Some agrs => handle_gossip_agrs agrs gossip_source
  end.

(** ** The loss of a neighbor *)

(** [Handler<RemoveNeighborMessage>] *)
Definition handle_remove_neighbor (k : PublicKey) : act unit :=
  act* state := get nb in
  act* res := run (NeighborhoodDb.remove_neighbor (nb_db state) k) in
  let '(r, db) := res in
  do* set_database db in
  match r with
  | Ok true => do* invalidate_route_after_neighbor_loss in gossip_to_neighbors
  | _ => act_ret ()
  end.

(** [remove_neighbor] of the actor *)
Definition remove_lost_neighbor (k : PublicKey) : act unit :=
  act* state := get nb in
  act* res := run (NeighborhoodDb.remove_neighbor (nb_db state) k) in
  let '(r, db) := res in
  do* set_database db in
  match r with
  | Err _ => run Panic
  | Ok true => do* invalidate_route_after_neighbor_loss in gossip_to_neighbors
  | Ok false => act_ret ()
  end.

(** [handle_stream_shutdown_msg] *)
Definition handle_stream_shutdown_msg (clandestine : bool) (peer : SocketAddr) : act unit :=
  if negb clandestine then run Panic
  else
    act* s := get status in
    do* (match get_connection_progress_by_ip s (sock_ip peer) with
         | Some (i, p) =>
             let '(_, p') := update_connection_stage p TcpConnectionFailed in
             let s' := put_progress s i p' in
             do* modify (set_status s') in
             do* send MobileStreamConnectionFailed in
             when (negb (existsb (fun p => bool_decide (connection_stage p = NeighborshipEstablished))
                           (progress s')))
               (set_mobile_connection_stage NotConnected)
         | None => act_ret ()
         end) in
    act* state := get nb in
    match node_by_ip (nb_db state) (sock_ip peer) with
    | None => act_ret ()
    | Some n => remove_lost_neighbor (nr_public_key n)
    end.

(** ** Start and configuration *)

Definition handle_bind_message : act unit := modify (set_bound true).

(** [replace_initial_neighbors_for_mobile_retry], with the parsed descriptors,
    [None] if one of them did not parse *)
Definition replace_initial_neighbors_for_mobile_retry (parsed : option (list NodeDescriptor)) : act unit :=
  act* c := get chain_ in
  match parsed with
  | Some ((_ :: _) as descriptors) =>
      if forallb (fun nd => bool_decide (nd_blockchain nd = c)) descriptors then
        act* s := get status in
        act* s' := run (status_new descriptors) in
        do* modify (set_status (set_stage s' (stage s))) in
        do* modify (set_topology false) in
        do* modify (set_stale false) in
        do* modify (set_failures 0) in
        set_mobile_connection_stage NotConnected
      else send MobileStreamConnectionFailed
  | _ => send MobileStreamConnectionFailed
  end.

(** [handle_start_message], with what it reads: the limits and the hops of the
    configuration and the entry nodes the mobile runtime has waiting *)
Definition handle_start_message (limits : RatePackLimits) (hops_in_db : Hops)
    (entry_nodes : option (option (list NodeDescriptor))) : act unit :=
  do* modify (set_limits (Some limits)) in
  do* modify (fun a => set_nb (validate_or_replace_min_hops_value (nb a) hops_in_db) a) in
  act* s := get status in
  do* (match entry_nodes with
       | Some parsed => replace_initial_neighbors_for_mobile_retry parsed
       | None =>
           when (bool_decide (stage s = NotConnected))
             (modify (set_status (mkStatus (stage s)
                (map reset_initial_node_for_user_retry (progress s)))))
       end) in
  send_debut_gossip_to_all_initial_descriptors.

(** [handle_new_ip_location]: the record changes, its version and its signed
    form do not. *)
Definition relocate (location : option string) (r : NodeRecord) : NodeRecord :=
  let i := inner r in
  with_metadata (with_location location (metadata r))
    (with_inner (mkInner (nri_public_key i) (earning_wallet i) (rate_pack i) (neighbors i)
       (accepts_connections i) (routes_data i) (version i) location (protocol_capabilities i)
       (receipt_settlement_contract_opt i)) r).

(** [handle_new_public_ip] *)
Definition handle_new_public_ip (ip : IpAddr) : act unit :=
  act* state := get nb in
  act* db := run (new_public_ip (nb_db state) ip) in
  act* location := run (get_node_location (finder env) (Some ip)) in
  act* db := run (map_root db (fun r => Ret (relocate location r))) in
  set_database db.

Inductive ConfigChange :=
| UpdateWallets (consuming_wallet : WalletKind)
| UpdateMinHops (h : Hops)
| UpdatePassword (p : string).

Definition synchronize_all (p : UserExitPreferences) (ls : list ExitLocation) : UserExitPreferences :=
  foldl (fun p l => (synchronize_exit_countries_and_return_missing p (country_codes l)).1) p ls.

(** [handle_config_change_msg] *)
Definition handle_config_change_msg (change : ConfigChange) : act unit :=
  match change with
  | UpdateWallets w =>
      modify (fun a => set_nb (mkNeighborhood (nb_cryptde (nb a)) (nb_db (nb a)) (nb_prefs (nb a)) (Some w)
        (nb_contract (nb a)) (nb_zero_hop (nb a)) (nb_min_hops (nb a)) (nb_db_patch_size (nb a))) a)
  | UpdateMinHops h =>
      do* modify (fun a => set_nb (set_min_hops_and_patch_size (nb a) h) a) in
      do* modify (set_topology false) in
      do* modify (set_stale false) in
      act* s := get status in
      do* when (can_make_routes s)
            (do* expect_bound in update_ocs_stage_and_send_message_to_ui ConnectedToNeighbor) in
      do* refresh_db_countries in
      act* state := get nb in
      do* (match locations_opt (nb_prefs state) with
           | Some ls =>
               act* res := run (set_country_undesirability_and_exit_countries
                                  (synchronize_all (nb_prefs state) ls) (nb_db state) ls) in
               let '(p, db) := res in
               modify (fun a => set_nb (with_prefs (with_database (nb a) db) p) a)
           | None => act_ret ()
           end) in
      search_for_a_new_route
  | UpdatePassword p => modify (set_password (Some p))
  end.

(** ** Questions *)

Inductive NodeQueryMessage := QueryIpAddress (ip : IpAddr) | QueryPublicKey (k : PublicKey).

(** [Handler<DispatcherNodeQueryMessage>] *)
Definition handle_dispatcher_node_query (q : NodeQueryMessage) : act unit :=
  act* db := get (fun a => nb_db (nb a)) in
  let record := match q with
                | QueryIpAddress ip => node_by_ip db ip
                | QueryPublicKey k => node_by_key db k
                end in
  send (NodeQueryResponse
    ((fun n => (nr_public_key n, clone_addr <$> nr_addr n, rate_pack (inner n))) <$> record)).

(** [handle_connection_status_message] *)
Definition handle_connection_status_message (client_id context_id : Z) : act unit :=
  act* s := get status in
  act* stale := get route_readiness_proof_is_stale in
  do* expect_bound in
  send (UiStatusResponse client_id context_id (ui_stage (stage s))
          (if stale then Some RouteProofStale else ui_connection_status_reason s)).

(** [handle_exit_location_message], with the reply *)
Definition handle_exit_location (client_id context_id : Z) (requested : list ExitLocation)
    (fallback_routing show_countries : bool) : act unit :=
  act* state := get nb in
  act* res := run (handle_exit_location_message state requested fallback_routing show_countries) in
  let '(reply, state') := res in
  do* modify (set_nb state') in
  do* expect_bound in
  send (UiExitLocationReply client_id context_id reply).

(** [Handler<UpdateNodeRecordMetadataMessage>] *)
Definition handle_update_metadata (k : PublicKey) (c : NRMetadataChange) : act unit :=
  act* db := get (fun a => nb_db (nb a)) in
  set_database (update_node_record_metadata db k c).

(** ** The mailbox *)

Inductive Message :=
| BindMessage
| StartMessage (limits : RatePackLimits) (hops_in_db : Hops)
    (entry_nodes : option (option (list NodeDescriptor)))
| NewPublicIp (ip : IpAddr)
| ConfigChangeMsg (change : ConfigChange)
| DispatcherNodeQueryMessage (q : NodeQueryMessage)
| RouteUseSucceededMessage
| RouteUseFailedMessage
| LeaseTimer (generation : Z)
| GossipPackage (g : Gossip_0v1) (gossip_source : SocketAddr)
| GossipFailurePackage (failure_source : SocketAddr) (failure : GossipFailure_0v1)
| RemoveNeighborMessage (k : PublicKey)
| ConnectionProgressMsg (m : ConnectionProgressMessage)
| AskAboutDebutGossipMessage (prev : ConnectionProgress)
| UpdateNodeRecordMetadataMessage (k : PublicKey) (c : NRMetadataChange)
| StreamShutdownMsg (clandestine : bool) (peer : SocketAddr)
| UiConnectionStatusRequest (client_id context_id : Z)
| UiSetExitLocationRequest (client_id context_id : Z) (requested : list ExitLocation)
    (fallback_routing show_countries : bool).

Definition handle_message (m : Message) : act unit :=
  match m with
  | BindMessage => handle_bind_message
  | StartMessage limits hops_in_db entry_nodes => handle_start_message limits hops_in_db entry_nodes
  | NewPublicIp ip => handle_new_public_ip ip
  | ConfigChangeMsg change => handle_config_change_msg change
  | DispatcherNodeQueryMessage q => handle_dispatcher_node_query q
  | RouteUseSucceededMessage => handle_route_use_succeeded
  | RouteUseFailedMessage => handle_route_use_failed
  | LeaseTimer generation => handle_lease_timer generation
  | GossipPackage g src => handle_gossip g src
  | GossipFailurePackage src f => handle_gossip_failure_package src f
  | RemoveNeighborMessage k => handle_remove_neighbor k
  | ConnectionProgressMsg m => handle_connection_progress m
  | AskAboutDebutGossipMessage prev => handle_ask_about_debut_gossip prev
  | UpdateNodeRecordMetadataMessage k c => handle_update_metadata k c
  | StreamShutdownMsg clandestine peer => handle_stream_shutdown_msg clandestine peer
  | UiConnectionStatusRequest client_id context_id =>
      handle_connection_status_message client_id context_id
  | UiSetExitLocationRequest client_id context_id requested fallback show =>
      handle_exit_location client_id context_id requested fallback show
  end.
End Handlers.
Arguments Env : clear implicits.

(** A history of messages, each with what was read from outside. *)
Fixpoint run_messages `{E : Ethsign} `{HC : HopCbor} `{PC : PackageCbor} `{I : InnerCbor}
    `{H : HashOrder} `{C : Choose R} (ms : list (Env R * Message)) (a : Actor)
    : exec (Actor * list Out) :=
  match ms with
  | [] => Ret (a, [])
  | (env, m) :: ms =>
      let* (_, a, out) := handle_message env m a in
      let* (a, out') := run_messages ms a in
      Ret (a, out ++ out')
  end.
