(* ===== verification/NeighborhoodRun.v ===== *)
(** * NeighborhoodRun: what holds over any history of messages

    The stage that is shown, the start of the Accountant and the connections to
    the initial nodes, over every sequence of messages to the neighborhood
    ([NeighborhoodActor]). *)

From stdpp Require Import base list numbers option strings gmap.
From Stdlib Require Import ZArith Lia.
From S2P Require Import Prelude CountrySerde CountryFinder CryptDE Wallet ServiceReceipt Route.
From S2P Require Import NodeRecord NeighborhoodDb ExitPreferences Gossip GossipAcceptor.
From S2P Require Import RouteFinder RouteQuery VersionedData Migrations CoresPackage.
From S2P Require Import ConnectionStatus NeighborhoodActor.

Local Open Scope Z_scope.
Local Open Scope rust_scope.
Local Open Scope list_scope.

(** ** What the outputs say *)

(** The stage on the screen of a user who has seen [s] and then [out]. *)
Definition shown (s : UiConnectionStage) (out : list Out) : UiConnectionStage :=
  foldl (fun s o => match o with UiBroadcast s' => s' | _ => s end) s out.

(** How often the Accountant was started. *)
Definition is_start (o : Out) : bool := match o with StartAccountant => true | _ => false end.
Definition starts (out : list Out) : nat := length (filter (fun o => is_start o = true) out).

Lemma shown_app s out out' : shown s (out ++ out') = shown (shown s out) out'.
Proof. apply foldl_app. Qed.
Lemma starts_app out out' : starts (out ++ out') = (starts out + starts out')%nat.
Proof. unfold starts. by rewrite filter_app, length_app. Qed.

(** ** Connections that do not meet *)

Definition descriptor_ip (nd : NodeDescriptor) : option IpAddr := na_ip_addr <$> nd_node_addr_opt nd.

(** Initial nodes at different addresses, all of them known. *)
Definition entries_ok (nds : list NodeDescriptor) : Prop :=
  Forall is_Some (map descriptor_ip nds) ∧ NoDup (map descriptor_ip nds).

(** The same of those in the status, whose present peers differ too. *)
Definition peers_ok (s : OverallConnectionStatus) : Prop :=
  entries_ok (iter_initial_node_descriptors s) ∧ NoDup (get_peer_addrs s).

Lemma map_insert_same {A B} (f : A → B) l i x y :
  l !! i = Some x → f y = f x → map f (<[i := y]> l) = map f l.
Proof.
  intros Hx Hy. change (f <$> <[i := y]> l = f <$> l). rewrite list_fmap_insert, Hy.
  apply list_insert_id. by rewrite list_lookup_fmap, Hx.
Qed.

Lemma peers_put s i p p' :
  peers_ok s → progress s !! i = Some p → initial_node_descriptor p' = initial_node_descriptor p →
  (∀ j q, j ≠ i → progress s !! j = Some q → current_peer_addr q ≠ current_peer_addr p') →
  peers_ok (put_progress s i p').
Proof.
  intros [He Hn] Hi Hd Hne. split.
  - unfold iter_initial_node_descriptors, put_progress. cbn [progress]. by erewrite map_insert_same.
  - unfold get_peer_addrs, put_progress in *. cbn [progress].
    change (NoDup (current_peer_addr <$> <[i := p']> (progress s))). rewrite list_fmap_insert.
    apply NoDup_alt. intros j k x Hj Hk.
    assert (i < length (progress s))%nat as Hlt by (by eapply lookup_lt_Some).
    destruct (decide (j = i)) as [->|Hji], (decide (k = i)) as [->|Hki]; [done|..].
    + rewrite list_lookup_insert_eq in Hj by (by rewrite length_fmap). injection Hj as <-.
      rewrite list_lookup_insert_ne in Hk by done. apply list_lookup_fmap_Some in Hk as (q & Heq & Hq).
      by destruct (Hne k q).
    + rewrite list_lookup_insert_eq in Hk by (by rewrite length_fmap). injection Hk as <-.
      rewrite list_lookup_insert_ne in Hj by done. apply list_lookup_fmap_Some in Hj as (q & Heq & Hq).
      by destruct (Hne j q).
    + rewrite list_lookup_insert_ne in Hj, Hk by done. by eapply NoDup_lookup.
Qed.

(** An update that stays with its peer. *)
Lemma peers_put_same s i p p' :
  peers_ok s → progress s !! i = Some p → initial_node_descriptor p' = initial_node_descriptor p →
  current_peer_addr p' = current_peer_addr p → peers_ok (put_progress s i p').
Proof.
  intros Hok Hi Hd Hc. eapply peers_put; [done..|]. intros j q Hji Hq Heq. apply Hji.
  eapply (NoDup_lookup (get_peer_addrs s)); [apply Hok| |]; unfold get_peer_addrs;
    apply list_lookup_fmap_Some; [exists q; split; [|done]|exists p; split; [|done]]; [reflexivity|congruence].
Qed.

Lemma find_progress_Some f ps i p :
  find_progress f ps = Some (i, p) → ps !! i = Some p ∧ f p = true.
Proof.
  revert i. induction ps as [|x ps IH]; intros i; simpl; [done|]. destruct (f x) eqn:Ef.
  { by intros [= <- <-]. }
  destruct (find_progress f ps) as [[j y]|] eqn:E; [|done]. intros [= <- <-]. by apply IH.
Qed.

(** A passage from one state to another in which every stage that is announced
    or reached anew is one of [S], and connections stay apart if [G]. *)
Record passes (S : OverallConnectionStage → Prop) (G : Prop) (a a' : Actor) (out : list Out) : Prop := {
  ps_bound : bound a = true → bound a' = true;
  ps_shown : bound a = true → shown (ui_stage (stage (status a))) out = ui_stage (stage (status a'));
  ps_stage : stage (status a') = stage (status a) ∨ S (stage (status a'));
  ps_told s : UiBroadcast s ∈ out → ∃ st, s = ui_stage st ∧ S st;
  ps_started : accountant_started a = true → accountant_started a' = true;
  ps_peers : G → peers_ok (status a) → peers_ok (status a');
  ps_starts : starts out = (if accountant_started a then 0 else if accountant_started a' then 1 else 0)%nat;
}.

Lemma passes_refl S G a : passes S G a a [].
Proof. split; try done; [by left|set_solver|by destruct (accountant_started a)]. Qed.

Lemma passes_trans S G a a' a'' out out' :
  passes S G a a' out → passes S G a' a'' out' → passes S G a a'' (out ++ out').
Proof.
  intros [Hb Hs Hst Ht Ha Hp Hc] [Hb' Hs' Hst' Ht' Ha' Hp' Hc']. split.
  - auto.
  - intros Hbound. rewrite shown_app, Hs by done. auto.
  - destruct Hst' as [->|]; [|by right]. destruct Hst as [->|]; [by left|by right].
  - intros s [?|?]%elem_of_app; eauto.
  - auto.
  - auto.
  - rewrite starts_app, Hc, Hc'. destruct (accountant_started a) eqn:E; [by rewrite Ha|].
    destruct (accountant_started a') eqn:E'; [by rewrite Ha'|done].
Qed.

Lemma passes_mono (S S' : OverallConnectionStage → Prop) (G G' : Prop) a a' out :
  (∀ s, S s → S' s) → (G' → G) → passes S G a a' out → passes S' G' a a' out.
Proof.
  intros HS HG [Hb Hs Hst Ht Ha Hp Hc]. split; try done; [naive_solver| |auto].
  intros s (st & -> & ?)%Ht. eauto.
Qed.

(** A computation all of whose runs pass so, from one state and from any. *)
Definition keeps_at {A} (S : OverallConnectionStage → Prop) (G : Prop) (a : Actor) (c : act A) : Prop :=
  ∀ x a' out, c a = Ret (x, a', out) → passes S G a a' out.
Definition keeps {A} (S : OverallConnectionStage → Prop) (G : Prop) (c : act A) : Prop :=
  ∀ a, keeps_at S G a c.

Section Logic.
Context (S : OverallConnectionStage → Prop) (G : Prop).

(** A change of other fields, or of the stage before the UI is there. *)
Lemma passes_silent a a' :
  bound a' = bound a → accountant_started a' = accountant_started a →
  (G → peers_ok (status a) → peers_ok (status a')) →
  (stage (status a') = stage (status a) ∨ bound a = false ∧ S (stage (status a'))) →
  passes S G a a' [].
Proof.
  intros Hb Ha Hp Hst. split.
  - congruence.
  - intros Hbd. destruct Hst as [->|[? _]]; [done|congruence].
  - naive_solver.
  - set_solver.
  - congruence.
  - done.
  - rewrite Ha. by destruct (accountant_started a).
Qed.

Lemma at_bind {A B} a (c : act A) (k : A → act B) :
  keeps_at S G a c → (∀ x, keeps S G (k x)) → keeps_at S G a (act_bind c k).
Proof.
  intros Hc Hk y a' out. unfold act_bind. destruct (c a) as [[[x a1] o1]|] eqn:E; [|done].
  destruct (k x a1) as [[[y' a2] o2]|] eqn:E'; [|done]. intros [= <- <- <-].
  eapply passes_trans; [by eapply Hc|by eapply Hk].
Qed.
Lemma at_get {A B} a (f : Actor → A) (k : A → act B) :
  keeps_at S G a (k (f a)) → keeps_at S G a (act_bind (get f) k).
Proof.
  intros Hk y a' out. unfold act_bind, get. destruct (k (f a) a) as [[[y' a2] o2]|] eqn:E; [|done].
  intros [= <- <- <-]. by eapply Hk.
Qed.
Lemma at_run {A B} a (e : exec A) (k : A → act B) :
  (∀ x, e = Ret x → keeps_at S G a (k x)) → keeps_at S G a (act_bind (run e) k).
Proof.
  intros Hk y a' out. unfold act_bind, run. destruct e as [x|]; [|done].
  destruct (k x a) as [[[y' a2] o2]|] eqn:E; [|done]. intros [= <- <- <-]. by eapply Hk.
Qed.
Lemma at_modify {B} a (f : Actor → Actor) (k : unit → act B) :
  passes S G a (f a) [] → keeps_at S G (f a) (k ()) → keeps_at S G a (act_bind (modify f) k).
Proof.
  intros Hf Hk y a' out. unfold act_bind, modify. destruct (k () (f a)) as [[[y' a2] o2]|] eqn:E; [|done].
  intros [= <- <- <-]. eapply (passes_trans _ _ _ _ _ [] o2); [done|by eapply Hk].
Qed.
Lemma at_modify_last a f : passes S G a (f a) [] → keeps_at S G a (modify f).
Proof. by intros Hf x a' out [= <- <- <-]. Qed.
Lemma at_ret {A} a (x : A) : keeps_at S G a (act_ret x).
Proof. intros y a' out [= <- <- <-]. apply passes_refl. Qed.
Lemma at_run_last {A} a (e : exec A) : keeps_at S G a (run e).
Proof. intros y a' out. unfold run. destruct e; [|done]. intros [= <- <- <-]. apply passes_refl. Qed.
Lemma at_when b a (c : act unit) : (b = true → keeps_at S G a c) → keeps_at S G a (when b c).
Proof. intros Hc. destruct b; [by apply Hc|apply at_ret]. Qed.

Definition loud (o : Out) : bool :=
  match o with UiBroadcast _ | StartAccountant => true | _ => false end.
Lemma keeps_send o : loud o = false → keeps S G (send o).
Proof.
  intros Hq a x a' out [= <- <- <-]. split; try done; [by destruct o|by left| |].
  - intros s Hin%list_elem_of_singleton. by subst o.
  - destruct o; try done; by destruct (accountant_started a).
Qed.
Lemma at_send {B} a o (k : unit → act B) :
  loud o = false → keeps_at S G a (k ()) → keeps_at S G a (act_bind (send o) k).
Proof.
  intros Hq Hk y a' out. unfold act_bind. destruct (send o a) as [[[[] a1] o1]|] eqn:E; [|done].
  pose proof (keeps_send o Hq a _ _ _ E) as Hp. injection E as <- <-.
  destruct (k () a) as [[[y' a2] o2]|] eqn:E'; [|done]. intros [= <- <- <-].
  eapply (passes_trans _ _ _ _ _ [o] o2); [done|by eapply Hk].
Qed.

Lemma keeps_expect_bound : keeps S G expect_bound.
Proof. intros a. apply at_get. destruct (bound a); [apply at_ret|apply at_run_last]. Qed.

Lemma at_expect_bound {B} a (k : unit → act B) :
  (bound a = true → keeps_at S G a (k ())) → keeps_at S G a (act_bind expect_bound k).
Proof.
  intros Hk y a' out. unfold expect_bound, act_bind, get. destruct (bound a); [|done].
  unfold act_ret. destruct (k () a) as [[[y' a2] o2]|] eqn:E'; [|done]. intros [= <- <- <-].
  by eapply Hk.
Qed.

Lemma keeps_start_accountant : keeps S G start_accountant_if_needed.
Proof.
  intros a x a' out. unfold start_accountant_if_needed, act_bind, get. destruct (accountant_started a) eqn:Ea.
  { intros [= <- <- <-]. apply passes_refl. }
  unfold expect_bound, act_bind, get. destruct (bound a) eqn:Eb; [|done]. intros [= <- <- <-]. simpl.
  split; simpl; try done; [by left|set_solver|by rewrite Ea].
Qed.

Lemma keeps_update_stage s : S s → keeps S G (update_ocs_stage_and_send_message_to_ui s).
Proof.
  intros HS a x a' out. unfold update_ocs_stage_and_send_message_to_ui, act_bind, get.
  case_bool_decide; [intros [= <- <- <-]; apply passes_refl|]. intros [= <- <- <-].
  split; simpl; try done; [by right|set_solver|by destruct (accountant_started a)].
Qed.
End Logic.

Create HintDb keeps.
#[export] Hint Resolve keeps_send keeps_expect_bound keeps_start_accountant keeps_update_stage
  passes_refl : keeps.

(** Case analysis along the code of a handler. *)
Ltac keeps_step :=
  match goal with
  | |- keeps _ _ _ => let a := fresh "a" in intros a
  | |- forall _, _ => intro
  | |- passes _ _ _ _ [] => apply passes_silent; [done|done|try done|first [by left|idtac]]
  | |- keeps_at _ _ _ (act_bind (get _) _) => apply at_get; cbn beta
  | |- keeps_at _ _ _ (act_bind (run _) _) => apply at_run; intros ? ?
  | |- keeps_at _ _ _ (act_bind (modify _) _) => apply at_modify; [|cbn beta]
  | |- keeps_at _ _ _ (act_bind (send _) _) => apply at_send; [done|cbn beta]
  | |- keeps_at _ _ _ (act_bind expect_bound _) => apply at_expect_bound; intros ?; cbn beta
  | |- keeps_at _ _ _ (act_bind _ _) => apply at_bind
  | |- keeps_at _ _ _ (modify _) => apply at_modify_last
  | |- keeps_at _ _ _ (act_ret _) => apply at_ret
  | |- keeps_at _ _ _ (run _) => apply at_run_last
  | |- keeps_at _ _ _ (send _) => apply keeps_send; done
  | |- keeps_at _ _ _ (when _ _) => apply at_when; intros ?
  | |- keeps_at _ _ _ (if ?x then _ else _) => destruct x eqn:?
  | |- keeps_at _ _ _ (let '(_, _) := ?x in _) => destruct x as [? ?] eqn:?
  | |- keeps_at _ _ _ (match ?x with _ => _ end) => destruct x eqn:?
  | |- keeps_at ?S ?G ?a ?c => solve [assert (keeps S G c) as Hkeeps by eauto with keeps; apply Hkeeps]
  end.
Ltac keeps_tac := repeat keeps_step.

(** ** The handlers *)

Section Handlers.
Context (S : OverallConnectionStage → Prop) (G : Prop) (HN : S NotConnected) (HCN : S ConnectedToNeighbor).

Lemma fallback_in db s : fallback_stage db = Ret s → S s.
Proof.
  unfold fallback_stage. destruct (root db); [|done]. cbn [exec_bind]. intros [= <-]. by case_bool_decide.
Qed.
#[local] Hint Resolve fallback_in : keeps.

Lemma keeps_ask peer : keeps S G (send_ask_about_debut_gossip_message peer).
Proof. unfold send_ask_about_debut_gossip_message. keeps_tac. Qed.
#[local] Hint Resolve keeps_ask : keeps.

Lemma keeps_set_mobile s : S s → keeps S G (set_mobile_connection_stage s).
Proof.
  intros HS. unfold set_mobile_connection_stage. keeps_tac. by right.
Qed.
#[local] Hint Resolve keeps_set_mobile : keeps.

Lemma keeps_failed : keeps S G handle_route_use_failed.
Proof. unfold handle_route_use_failed. keeps_tac. Qed.

Lemma keeps_expire g : keeps S G (expire_route_readiness_lease g).
Proof.
  unfold expire_route_readiness_lease. keeps_tac.
  right. split; [done|]. by eapply fallback_in.
Qed.
#[local] Hint Resolve keeps_expire : keeps.

Lemma keeps_timer g : keeps S G (handle_lease_timer g).
Proof. unfold handle_lease_timer. keeps_tac. Qed.

Lemma update_stage_peer p st b p' :
  update_stage p st = (b, p') →
  initial_node_descriptor p' = initial_node_descriptor p ∧ current_peer_addr p' = current_peer_addr p.
Proof. unfold update_stage. intros Hu. repeat case_match; by simplify_eq. Qed.

Lemma update_connection_peer p e b p' :
  update_connection_stage p e = (b, p') →
  initial_node_descriptor p' = initial_node_descriptor p ∧
  (current_peer_addr p' = current_peer_addr p ∨ e = PassGossipReceived (current_peer_addr p')).
Proof.
  destruct e; cbn [update_connection_stage]; try (intros [Hd Hp]%update_stage_peer; by auto).
  unfold handle_pass_gossip. intros Hu. repeat case_match; simplify_eq; auto.
Qed.

Lemma peers_connection s msg i p b p' :
  get_connection_progress_to_modify s msg = Some (i, p) →
  update_connection_stage p (event msg) = (b, p') → peers_ok s → peers_ok (put_progress s i p').
Proof.
  unfold get_connection_progress_to_modify. intros Hf Hu Hok.
  destruct (update_connection_peer _ _ _ _ Hu) as [Hd Hp].
  destruct (match event msg with PassGossipReceived pass_target => _ | _ => false end) eqn:Edup; [done|].
  apply find_progress_Some in Hf as [Hi _]. destruct Hp as [Hp|Hp]; [by eapply peers_put_same|].
  rewrite Hp in Edup. apply bool_decide_eq_false in Edup. eapply peers_put; [done..|].
  intros j q _ Hq Heq. apply Edup. unfold get_peer_addrs. rewrite <- Heq.
  apply list_elem_of_fmap. exists q. split; [done|]. by eapply list_elem_of_lookup_2.
Qed.

Lemma keeps_connection_progress m : keeps S G (handle_connection_progress m).
Proof. unfold handle_connection_progress. keeps_tac; by eapply peers_connection. Qed.

Lemma keeps_gossip_failure src f : keeps S G (handle_gossip_failure_package src f).
Proof.
  unfold handle_gossip_failure_package, handle_gossip_failure. keeps_tac.
  all: match goal with Hf : get_connection_progress_by_ip _ _ = _, Hr : reject_debut _ = _ |- _ =>
    apply find_progress_Some in Hf as [? _]; unfold reject_debut in Hr end.
  all: eapply peers_put_same; [done..| |]; repeat case_match; simplify_eq; try done.
  all: match goal with Hu : update_stage _ _ = _ |- _ => by apply update_stage_peer in Hu as [??] end.
Qed.

Lemma peers_retry s nd i p b p' :
  get_connection_progress_by_desc s nd = Some (i, p) →
  match nd_node_addr_opt nd with
  | Some addr => existsb (fun q => negb (bool_decide (initial_node_descriptor q = nd))
                                   && bool_decide (current_peer_addr q = na_ip_addr addr)) (progress s)
  | None => false
  end = false →
  retry_initial_node p = (b, p') → peers_ok s → peers_ok (put_progress s i p').
Proof.
  intros [Hi Hnd%bool_decide_eq_true]%find_progress_Some Hfree Hr Hok. unfold retry_initial_node in Hr.
  rewrite Hnd in Hr.
  destruct (is_failed _); [|injection Hr as <- <-; by eapply peers_put_same].
  destruct (nd_node_addr_opt nd) as [addr|] eqn:Ea; injection Hr as <- <-; [|by eapply peers_put_same].
  eapply peers_put; [done..|]. intros j q Hji Hq Heq. cbn [current_peer_addr] in Heq.
  assert (initial_node_descriptor q = nd) as Hqd.
  { destruct (decide (initial_node_descriptor q = nd)) as [|Hne]; [done|]. exfalso.
    assert (existsb (fun q => negb (bool_decide (initial_node_descriptor q = nd))
      && bool_decide (current_peer_addr q = na_ip_addr addr)) (progress s) = true) as Htrue; [|congruence].
    apply existsb_exists. exists q. split; [by eapply list_elem_of_In, list_elem_of_lookup_2|].
    by rewrite bool_decide_false, bool_decide_true. }
  apply Hji. destruct Hok as [[_ Hnd'] _].
  eapply (NoDup_lookup (map descriptor_ip (iter_initial_node_descriptors s))); [done| |];
    unfold iter_initial_node_descriptors; rewrite map_map; apply list_lookup_fmap_Some; eexists; split.
  - symmetry. reflexivity. - done. - cbn beta. by rewrite Hqd, Hnd. - done.
Qed.

Section Env.
Context `{E : Ethsign} `{HC : HopCbor} `{PC : PackageCbor} `{I : InnerCbor} `{H : HashOrder} `{C : Choose R}.
Context (env : Env R).

Lemma keeps_no_lookup n m k addr : keeps S G (send_no_lookup_package env n m k addr).
Proof. unfold send_no_lookup_package. keeps_tac. Qed.
#[local] Hint Resolve keeps_no_lookup : keeps.

Lemma keeps_debut n g nd : keeps S G (send_debut_gossip_to_descriptor env n g nd).
Proof. unfold send_debut_gossip_to_descriptor. keeps_tac. Qed.
#[local] Hint Resolve keeps_debut : keeps.

Lemma keeps_debuts g nds n : keeps S G (send_debuts env n g nds).
Proof. revert n. induction nds as [|nd nds IH]; intros n; simpl; keeps_tac. Qed.
#[local] Hint Resolve keeps_debuts : keeps.

Lemma keeps_ask_about prev : keeps S G (handle_ask_about_debut_gossip env prev).
Proof.
  unfold handle_ask_about_debut_gossip. keeps_tac.
  - match goal with Hf : get_connection_progress_by_desc _ _ = _, Hu : update_connection_stage _ _ = _ |- _ =>
      apply find_progress_Some in Hf as [? _]; apply update_stage_peer in Hu as [??] end.
    by eapply peers_put_same.
  - by eapply peers_retry.
Qed.

Lemma keeps_set_database db : keeps S G (set_database db).
Proof. unfold set_database. keeps_tac. Qed.
#[local] Hint Resolve keeps_set_database : keeps.

Lemma keeps_gossip_to_neighbors : keeps S G (gossip_to_neighbors env).
Proof.
  assert (∀ ks n, keeps S G (gossip_to_each env n ks)) as Heach.
  { induction ks as [|k ks IH]; intros n; simpl; [keeps_tac|].
    unfold produce_for, gossip_to_neighbor. keeps_tac. }
  unfold gossip_to_neighbors. keeps_tac; try apply Heach.
Qed.
#[local] Hint Resolve keeps_gossip_to_neighbors : keeps.

Lemma keeps_search : keeps S G (search_for_a_new_route env).
Proof. unfold search_for_a_new_route. keeps_tac. Qed.
#[local] Hint Resolve keeps_search : keeps.

Lemma keeps_check : keeps S G (check_connectedness env).
Proof. unfold check_connectedness. keeps_tac. Qed.
#[local] Hint Resolve keeps_check : keeps.

Lemma keeps_invalidate : keeps S G (invalidate_route_after_neighbor_loss env).
Proof.
  unfold invalidate_route_after_neighbor_loss. keeps_tac.
  right. split; [done|]. by eapply fallback_in.
Qed.
#[local] Hint Resolve keeps_invalidate : keeps.

Lemma keeps_refresh : keeps S G refresh_db_countries.
Proof. unfold refresh_db_countries. keeps_tac. Qed.
#[local] Hint Resolve keeps_refresh : keeps.

Lemma keeps_results ress n : keeps S G (handle_acceptance_results env n ress).
Proof.
  revert n. induction ress as [|res ress IH]; intros n; simpl; [keeps_tac|].
  unfold handle_acceptance_result, handle_gossip_reply, handle_gossip_failed. keeps_tac.
Qed.
#[local] Hint Resolve keeps_results : keeps.

Lemma keeps_send_progress ms : keeps S G (send_progress ms).
Proof. induction ms as [|m ms IH]; simpl; keeps_tac. Qed.
#[local] Hint Resolve keeps_send_progress : keeps.

Lemma keeps_gossip g src : keeps S G (handle_gossip env g src).
Proof.
  unfold handle_gossip, handle_gossip_agrs, handle_agrs, handle_database_changes, curate_past_neighbors.
  keeps_tac.
Qed.

Lemma keeps_lost k : keeps S G (remove_lost_neighbor env k).
Proof. unfold remove_lost_neighbor. keeps_tac. Qed.
#[local] Hint Resolve keeps_lost : keeps.

Lemma keeps_shutdown b peer : keeps S G (handle_stream_shutdown_msg env b peer).
Proof.
  unfold handle_stream_shutdown_msg. keeps_tac.
  match goal with Hf : get_connection_progress_by_ip _ _ = _, Hu : update_connection_stage _ _ = _ |- _ =>
    apply find_progress_Some in Hf as [? _]; apply update_stage_peer in Hu as [??] end.
  by eapply peers_put_same.
Qed.

(** The initial nodes the mobile runtime has waiting are well chosen. *)
Definition entry_nodes_ok (nodes : option (option (list NodeDescriptor))) : Prop :=
  match nodes with Some (Some nds) => entries_ok nds | _ => True end.

Lemma status_new_peers nds s :
  status_new nds = Ret s →
  stage s = NotConnected ∧ iter_initial_node_descriptors s = nds ∧
  map Some (get_peer_addrs s) = map descriptor_ip nds.
Proof.
  unfold status_new. destruct (progress_of_descriptors nds) as [ps|] eqn:Eps; [|done]. intros [= <-].
  split; [done|]. unfold iter_initial_node_descriptors, get_peer_addrs. cbn [progress]. revert ps Eps.
  induction nds as [|nd nds IH]; intros ps; cbn [progress_of_descriptors].
  { by intros [= <-]. }
  unfold progress_new. destruct (nd_node_addr_opt nd) as [addr|] eqn:Ea; [|done]. cbn [expect exec_bind].
  destruct (progress_of_descriptors nds) as [ps'|]; [|done]. cbn [exec_bind]. intros [= <-]. simpl.
  destruct (IH ps' eq_refl) as [-> ->]. split; [done|]. unfold descriptor_ip at 2. by rewrite Ea.
Qed.

Lemma status_new_ok nds s st : status_new nds = Ret s → entries_ok nds → peers_ok (set_stage s st).
Proof.
  intros (_ & Hd & Hp)%status_new_peers He. split.
  - unfold set_stage. change (iter_initial_node_descriptors (mkStatus st (progress s)))
      with (iter_initial_node_descriptors s). by rewrite Hd.
  - change (get_peer_addrs (set_stage s st)) with (get_peer_addrs s).
    apply (NoDup_fmap_1 Some). change (NoDup (map Some (get_peer_addrs s))). rewrite Hp. apply He.
Qed.

Lemma reset_ok s :
  peers_ok s → peers_ok (mkStatus (stage s) (map reset_initial_node_for_user_retry (progress s))).
Proof.
  intros [He _].
  assert (∀ p, is_Some (descriptor_ip (initial_node_descriptor p)) →
    initial_node_descriptor (reset_initial_node_for_user_retry p) = initial_node_descriptor p ∧
    Some (current_peer_addr (reset_initial_node_for_user_retry p)) =
      descriptor_ip (initial_node_descriptor p)) as Hreset.
  { intros p [ip Hip]. unfold reset_initial_node_for_user_retry. unfold descriptor_ip in *.
    by destruct (nd_node_addr_opt (initial_node_descriptor p)). }
  destruct s as [st ps]. unfold iter_initial_node_descriptors, get_peer_addrs in *. cbn [progress stage] in *.
  assert (map initial_node_descriptor (map reset_initial_node_for_user_retry ps) =
      map initial_node_descriptor ps ∧
    map Some (map current_peer_addr (map reset_initial_node_for_user_retry ps)) =
      map descriptor_ip (map initial_node_descriptor ps)) as [Hd Hp].
  { destruct He as [Hs _]. induction ps as [|p ps IH]; [done|]. simpl in *. apply Forall_cons in Hs as [Hp Hs].
    destruct (Hreset p Hp) as [-> ->]. by destruct (IH Hs) as [-> ->]. }
  split; unfold iter_initial_node_descriptors, get_peer_addrs; cbn [progress].
  - by rewrite Hd.
  - apply (NoDup_fmap_1 Some). change (NoDup (map Some (map current_peer_addr
      (map reset_initial_node_for_user_retry ps)))). rewrite Hp. apply He.
Qed.

Lemma keeps_start limits h nodes :
  (G → entry_nodes_ok nodes) → keeps S G (handle_start_message env limits h nodes).
Proof.
  intros HG. unfold handle_start_message, replace_initial_neighbors_for_mobile_retry,
    send_debut_gossip_to_all_initial_descriptors. keeps_tac.
  all: subst; first [by eapply status_new_ok, HG | by apply reset_ok].
Qed.

Lemma keeps_config c : keeps S G (handle_config_change_msg env c).
Proof. unfold handle_config_change_msg. keeps_tac. Qed.
End Env.
End Handlers.

Section Properties.
Context `{E : Ethsign} `{HC : HopCbor} `{PC : PackageCbor} `{I : InnerCbor} `{H : HashOrder} `{C : Choose R}.

(** Only a used route is a found one. *)
Definition found_by (m : Message) (s : OverallConnectionStage) : Prop :=
  s = RouteFound → m = RouteUseSucceededMessage.

(** A start with well-chosen initial nodes, or another message. *)
Definition message_ok (m : Message) : Prop :=
  match m with StartMessage _ _ nodes => entry_nodes_ok nodes | _ => True end.

Lemma message_passes (env : Env R) m : keeps (found_by m) (message_ok m) (handle_message env m).
Proof.
  assert (found_by m NotConnected) as HN by done.
  assert (found_by m ConnectedToNeighbor) as HCN by done. destruct m; cbn [handle_message].
  - intros a x a' out [= <- <- <-]. split; simpl; try done; [by left|set_solver|].
    by destruct (accountant_started a).
  - by apply keeps_start.
  - unfold handle_new_public_ip. keeps_tac. by apply keeps_set_database.
  - by apply keeps_config.
  - unfold handle_dispatcher_node_query. keeps_tac.
  - assert (found_by RouteUseSucceededMessage RouteFound) by done.
    unfold handle_route_use_succeeded. keeps_tac.
  - by apply keeps_failed.
  - by apply keeps_timer.
  - by apply keeps_gossip.
  - by apply keeps_gossip_failure.
  - unfold handle_remove_neighbor. keeps_tac; [by apply keeps_set_database|by apply keeps_invalidate|
      by apply keeps_gossip_to_neighbors].
  - by apply keeps_connection_progress.
  - by apply keeps_ask_about.
  - unfold handle_update_metadata. keeps_tac. by apply keeps_set_database.
  - by apply keeps_shutdown.
  - unfold handle_connection_status_message. keeps_tac.
  - unfold handle_exit_location. keeps_tac.
Qed.

Lemma messages_pass (ms : list (Env R * Message)) a a' out :
  run_messages ms a = Ret (a', out) →
  passes (fun s => s = RouteFound → RouteUseSucceededMessage ∈ map snd ms) (Forall message_ok (map snd ms))
    a a' out.
Proof.
  revert a a' out. induction ms as [|[env m] ms IH]; intros a a' out; cbn [run_messages].
  { intros [= <- <-]. apply passes_refl. }
  destruct (handle_message env m a) as [[[[] a1] o1]|] eqn:Em; [|done]. cbn [exec_bind].
  destruct (run_messages ms a1) as [[a2 o2]|] eqn:Er; [|done]. cbn [exec_bind]. intros [= <- <-].
  eapply passes_trans; (eapply passes_mono; [| |first [by eapply message_passes | by eapply IH]]).
  - intros s Hs ->. rewrite <- Hs by done. set_solver.
  - by intros [? ?]%Forall_cons.
  - intros s Hs ->. cbn [map]. set_solver.
  - by intros [? ?]%Forall_cons.
Qed.

(** [C18] Over any history of messages, in any order: the user is shown the
    stage the node is in; the Accountant is told to start at most once, and not
    again; and the node comes to have a route, or says so, only if response
    data came back over one. *)
Theorem history_shown_honestly (ms : list (Env R * Message)) a a' out :
  run_messages ms a = Ret (a', out) → bound a = true →
  shown (ui_stage (stage (status a))) out = ui_stage (stage (status a')) ∧
  (starts out ≤ 1)%nat ∧ (accountant_started a = true → starts out = 0%nat) ∧
  (RouteUseSucceededMessage ∉ map snd ms →
    (UiBroadcast UiRouteFound ∉ out) ∧
    (stage (status a') = RouteFound → stage (status a) = RouteFound)).
Proof.
  intros Hrun Hb. destruct (messages_pass ms a a' out Hrun) as [_ Hs Hst Ht Ha _ Hc].
  split; [by apply Hs|]. split; [rewrite Hc; by destruct (accountant_started a), (accountant_started a'); lia|].
  split; [intros Hst'; by rewrite Hc, Hst'|]. intros Hno. split.
  - intros (st & Heq & HS)%Ht. destruct st; try done. by apply Hno, HS.
  - intros Hrf. destruct Hst as [<-|HS]; [done|]. exfalso. by apply Hno, HS.
Qed.

(** If the initial nodes are at different known addresses, no two
    connection attempts ever have the same peer, whatever passes, refusals,
    failures, retries and restarts there are: what is told about a peer is told
    about one attempt. *)
Theorem connections_never_meet (ms : list (Env R * Message)) a a' out :
  run_messages ms a = Ret (a', out) → Forall message_ok (map snd ms) →
  peers_ok (status a) → peers_ok (status a').
Proof. intros Hrun Hok. by destruct (messages_pass ms a a' out Hrun) as [_ _ _ _ _ Hp _]; apply Hp. Qed.
End Properties.

(** ** A concrete history

    Two initial nodes; the first answers, a route is used, fails three times and
    is used again. *)

Module SampleRun.
#[local] Existing Instances sample_ethsign sample_hop_cbor Sample.cbor Sample.order.
#[local] Instance package_cbor : PackageCbor := {|
  cbor_message := fun _ => Ok [1]; uncbor_message := fun _ => Err "unread";
  cbor_live := fun _ => Ok [1]; uncbor_live := fun _ => Err "unread";
|}.

Definition env : Env unit :=
  mkEnv (mkFinder (Table.new sample_pairs) [] []) 5 1000 () () (fun _ _ => [])
    (fun _ => Ok [1]) (fun _ => Ok [1]) (fun k => Ret k).

Definition descriptor (n : Z) : NodeDescriptor :=
  mkDescriptor BaseSepolia [n] (Some (mkNodeAddr (IpV4 n) [1234])).

Definition actor : Actor :=
  mkActor sample_neighborhood
    (mkStatus NotConnected
       [mkProgress (descriptor 2) (IpV4 2) StageZero; mkProgress (descriptor 4) (IpV4 4) StageZero])
    None ∅ 0 true BaseSepolia None false false 0 0 false None.

Definition messages : list (Env unit * Message) := map (pair env)
  [ConnectionProgressMsg (mkCpm (IpV4 2) TcpConnectionSuccessful);
   ConnectionProgressMsg (mkCpm (IpV4 4) (PassGossipReceived (IpV4 2)));
   ConnectionProgressMsg (mkCpm (IpV4 2) StandardGossipReceived);
   RouteUseSucceededMessage; RouteUseFailedMessage; RouteUseFailedMessage; RouteUseFailedMessage;
   RouteUseSucceededMessage; LeaseTimer 1; LeaseTimer 2].
Definition before_use : list (Env unit * Message) := take 3 messages.

Definition broadcasts (out : list Out) : list UiConnectionStage :=
  omap (fun o => match o with UiBroadcast s => Some s | _ => None end) out.
(** What is to be seen of a run: that it ends, the stages that are shown, the
    starts of the Accountant and the peers at the end. *)
Definition seen (e : exec (Actor * list Out)) : option (list UiConnectionStage * nat * list IpAddr) :=
  match e with
  | Ret (a, out) => Some (broadcasts out, starts out, get_peer_addrs (status a))
  | Panic => None
  end.
Definition shown_stages : list UiConnectionStage :=
  [UiConnectedToNeighbor; UiRouteFound; UiConnectedToNeighbor; UiRouteFound; UiConnectedToNeighbor].

Lemma messages_seen : seen (run_messages messages actor) = Some (shown_stages, 1%nat, [IpV4 2; IpV4 4]).
Proof. by vm_compute. Qed.
Lemma before_use_seen :
  seen (run_messages before_use actor) = Some ([UiConnectedToNeighbor], 0%nat, [IpV4 2; IpV4 4]).
Proof. by vm_compute. Qed.
Lemma actor_peers_ok : peers_ok (status actor).
Proof.
  split; [split|]; cbn.
  - repeat constructor; by eexists.
  - by refine (bool_decide_unpack _ _).
  - by refine (bool_decide_unpack _ _).
Qed.
Lemma seen_run e x : seen e = Some x →
  ∃ a out, e = Ret (a, out) ∧ x = (broadcasts out, starts out, get_peer_addrs (status a)).
Proof. destruct e as [[a out]|]; [|done]. intros [= <-]. by exists a, out. Qed.

Lemma history_shown_honestly_witness :
  (∃ a out, run_messages messages actor = Ret (a, out) ∧ broadcasts out = shown_stages ∧
     shown UiNotConnected out = ui_stage (stage (status a)) ∧ starts out = 1%nat) ∧
  (∃ a out, run_messages before_use actor = Ret (a, out) ∧ UiBroadcast UiRouteFound ∉ out).
Proof.
  split.
  - destruct (seen_run _ _ messages_seen) as (a & out & Hrun & [= Hb Hs _]). exists a, out.
    destruct (history_shown_honestly messages actor a out Hrun eq_refl) as (Hshown & _).
    exact (conj Hrun (conj (eq_sym Hb) (conj Hshown (eq_sym Hs)))).
  - destruct (seen_run _ _ before_use_seen) as (a & out & Hrun & _). exists a, out.
    destruct (history_shown_honestly before_use actor a out Hrun eq_refl) as (_ & _ & _ & Hno).
    split; [exact Hrun|]. refine (proj1 (Hno _)). cbn [before_use messages map take snd].
    intros Hin. repeat (apply elem_of_cons in Hin as [?|Hin]; [discriminate|]). by apply elem_of_nil in Hin.
Defined.

Lemma connections_never_meet_witness :
  ∃ a out, run_messages messages actor = Ret (a, out) ∧ peers_ok (status a) ∧
    get_peer_addrs (status a) = [IpV4 2; IpV4 4].
Proof.
  destruct (seen_run _ _ messages_seen) as (a & out & Hrun & [= _ _ Hp]). exists a, out.
  split; [exact Hrun|]. split; [|exact (eq_sym Hp)].
  apply (connections_never_meet messages actor a out Hrun).
  - by repeat constructor.
  - exact actor_peers_ok.
Defined.

(** A descriptor that has no address is read without complaint, and a retry of
    the mobile client that names one stops the node. *)
Theorem retry_without_address_panics :
  replace_initial_neighbors_for_mobile_retry (Some [mkDescriptor BaseSepolia [2] None]) actor = Panic.
Proof. by vm_compute. Qed.

(** A new public address changes the country the node has of itself, but
    neither the version nor the signed form of its record. *)
Theorem new_public_ip_not_resigned :
  let here := map (mkBlock (V4 70 80)) (take 1 (drop 1 (Table.list_of (Table.new sample_pairs)))) in
  let env := mkEnv (mkFinder (Table.new sample_pairs) here []) 5 1000 () () (fun _ _ => [])
    (fun _ => Ok [1]) (fun _ => Ok [1]) (fun k => Ret k) in
  match handle_new_public_ip env (IpV4 77) actor with
  | Ret (_, a, _) =>
      match root (nb_db (nb a)), root (nb_db (nb actor)) with
      | Ret r', Ret r => country_code_opt (inner r') ≠ country_code_opt (inner r) ∧
                         version (inner r') = version (inner r) ∧ signed_gossip r' = signed_gossip r
      | _, _ => False
      end
  | Panic => False
  end.
Proof. vm_compute. split; [done|]. by split. Qed.
End SampleRun.
