(* ===== verification/ReceiptDao.v ===== *)
(** * ReceiptDao: the provider's books

    [accountant/db_access_objects/receipt_checkpoint_dao.rs]: the tables in
    which a provider keeps the receipts payers acknowledged, what is spent of
    each authorization, the balance that is receivable, the offers under way and
    the claims to be settled on the chain.

    A table is a map from its primary key to its row, as
    [database/db_initializer.rs] declares them; a column that holds CBOR or the
    decimal digits of a number is the value it was written from.  A transaction
    that ends in an error is rolled back: it returns no database. *)

From stdpp Require Import base list numbers option strings gmap.
From Stdlib Require Import ZArith Lia.
From S2P Require Import Prelude CryptDE Wallet ServiceReceipt ReceiptSettlement BigInt.

Local Open Scope Z_scope.
Local Open Scope rust_scope.
Local Open Scope list_scope.

(** ** Data *)

Record RoutingReceiptOfferState := mkOfferState {
  os_authorization_nonce : list Z;
  os_payer_session_public_key : PublicKey;
  os_expires_at_unix_s : Z;
  last_signed_receipt : SignedServiceReceipt;
}.
Global Instance RoutingReceiptOfferState_eq_dec : EqDecision RoutingReceiptOfferState.
Proof. solve_decision. Defined.

Record ConfirmedSettlementClaim := mkConfirmed {
  cf_claim_id : list Z;
  cf_cumulative_charge_wei : Z;
}.
Record SettlementReconciliationCandidate := mkCandidate {
  cd_claim_id : list Z;
  cd_cumulative_charge_wei : Z;
}.
Record SettlementChainObservation := mkObservation {
  ob_chain_id : Z;
  ob_settlement_contract : Address;
  confirmation_depth : Z;
  latest_block_number : Z;
  observed_block_number : Z;
  observed_block_hash : list Z;
  ob_claims : list ConfirmedSettlementClaim;
}.
Record SettlementReconciliationOutcome := mkOutcome {
  archived_claim_count : Z;
  restored_claim_count : Z;
  still_pending_claim_count : Z;
  revalidated_archive_count : Z;
  unknown_claim_count : Z;
}.
Record PendingSettlementClaimRecord := mkPending {
  pd_receipt_payload : ServiceReceiptPayload_0v1;
  accepted_at_unix_s : Z;
}.

Inductive ReceiptCheckpointDaoError :=
| DaoAmountLimitExceeded
| AuthorizationIdentityMismatch
| AuthorizationNonceAlreadyUsed
| BalanceOverflow
| CheckpointIdentityMismatch
| DatabaseError (message : string)
| DeserializationFailed (message : string)
| OfferStateCapacityExceeded
| OfferStateIdentityMismatch
| SettlementClaimIdentityMismatch
| SettlementConfirmationDepthReduced
| SettlementObservationIdentityMismatch
| SettlementObservationInvalid
| SettlementObservationRegressed
| SerializationFailed (message : string)
| StaleCheckpoint
| StaleOfferState.

(** The economic route: epoch, provider, session of the payer. *)
Abbreviation Stream := (list Z * list Z * list Z)%type.

Record ClaimRow := mkClaimRow {
  cr_claim_id : list Z;
  cr_authorization_nonce : list Z;
  cr_cumulative_charge_wei : Z;
  cr_receipt_payload : ServiceReceiptPayload_0v1;
  cr_accepted_at : Z;
}.
Global Instance ClaimRow_eq_dec : EqDecision ClaimRow.
Proof. solve_decision. Defined.

(** An archived claim keeps its row; what the chain confirmed comes with it. *)
Record ArchiveRow := mkArchiveRow {
  ar_stream : Stream;
  ar_row : ClaimRow;
  ar_confirmed_cumulative_charge_wei : Z;
  ar_observed_block_number : Z;
  ar_observed_block_hash : list Z;
}.

Record ReconciliationCheckpoint := mkReconciliation {
  rc_chain_id : Z;
  rc_settlement_contract : Address;
  rc_confirmation_depth : Z;
  rc_observed_block_number : Z;
  rc_observed_block_hash : list Z;
}.

Record ReceiptDb := mkReceiptDb {
  receipt_sequence_checkpoint : gmap Stream ReceiptSequenceCheckpoint;
  receipt_session_authorization : gmap (list Z) (AuthorizedReceiptSession * Z);
  routing_receipt_offer_state : gmap (list Z * Stream) RoutingReceiptOfferState;
  receivable : gmap Address (Z * Z);
  receipt_settlement_claim_outbox : gmap Stream ClaimRow;
  receipt_settlement_claim_archive : gmap (list Z) ArchiveRow;
  reconciliation_checkpoint_opt : option ReconciliationCheckpoint;
  provider_authorization_opt : option AuthorizedProviderSettlement;
}.

Definition with_offers (db : ReceiptDb) (t : gmap (list Z * Stream) RoutingReceiptOfferState) : ReceiptDb :=
  mkReceiptDb (receipt_sequence_checkpoint db) (receipt_session_authorization db) t (receivable db)
    (receipt_settlement_claim_outbox db) (receipt_settlement_claim_archive db)
    (reconciliation_checkpoint_opt db) (provider_authorization_opt db).
Definition with_provider (db : ReceiptDb) (a : option AuthorizedProviderSettlement) : ReceiptDb :=
  mkReceiptDb (receipt_sequence_checkpoint db) (receipt_session_authorization db)
    (routing_receipt_offer_state db) (receivable db) (receipt_settlement_claim_outbox db)
    (receipt_settlement_claim_archive db) (reconciliation_checkpoint_opt db) a.
Definition with_claims (db : ReceiptDb) (outbox : gmap Stream ClaimRow) (archive : gmap (list Z) ArchiveRow)
    (rc : option ReconciliationCheckpoint) : ReceiptDb :=
  mkReceiptDb (receipt_sequence_checkpoint db) (receipt_session_authorization db)
    (routing_receipt_offer_state db) (receivable db) outbox archive rc (provider_authorization_opt db).
Definition with_checkpoints (db : ReceiptDb) (t : gmap Stream ReceiptSequenceCheckpoint) : ReceiptDb :=
  mkReceiptDb t (receipt_session_authorization db) (routing_receipt_offer_state db) (receivable db)
    (receipt_settlement_claim_outbox db) (receipt_settlement_claim_archive db)
    (reconciliation_checkpoint_opt db) (provider_authorization_opt db).
Definition with_authorizations (db : ReceiptDb) (t : gmap (list Z) (AuthorizedReceiptSession * Z)) : ReceiptDb :=
  mkReceiptDb (receipt_sequence_checkpoint db) t (routing_receipt_offer_state db) (receivable db)
    (receipt_settlement_claim_outbox db) (receipt_settlement_claim_archive db)
    (reconciliation_checkpoint_opt db) (provider_authorization_opt db).

Section Dao.
Context `{E : Ethsign} `{C : Cbor} `{SC : SettlementCbor}.

Definition stream_of_checkpoint (cp : ReceiptSequenceCheckpoint) : Stream :=
  (cp_route_epoch cp, cp_provider_public_key cp, cp_payer_session_public_key cp).

(** ** Checkpoints and authorizations *)

Definition dao_checkpoint (db : ReceiptDb) (s : Stream) : option ReceiptSequenceCheckpoint :=
  receipt_sequence_checkpoint db !! s.

(** What both writers of checkpoints ask of a stored one. *)
Definition check_advance (cp stored : ReceiptSequenceCheckpoint) : result unit ReceiptCheckpointDaoError :=
  if bool_decide (cp_route_epoch cp = cp_route_epoch stored ∧
       cp_provider_public_key cp = cp_provider_public_key stored ∧
       cp_payer_session_public_key cp = cp_payer_session_public_key stored ∧
       cp_accounting_commitment cp = cp_accounting_commitment stored) then
    if (last_sequence cp <=? last_sequence stored)
       || (cp_cumulative_charge_wei cp <=? cp_cumulative_charge_wei stored)
    then Err StaleCheckpoint else Ok ()
  else Err CheckpointIdentityMismatch.

Definition save_checkpoint (db : ReceiptDb) (cp : ReceiptSequenceCheckpoint)
    : result ReceiptDb ReceiptCheckpointDaoError :=
  let s := stream_of_checkpoint cp in
  let? _ := match receipt_sequence_checkpoint db !! s with
            | Some existing => check_advance cp existing
            | None => Ok ()
            end in
  Ok (with_checkpoints db (<[s := cp]> (receipt_sequence_checkpoint db))).

Definition dao_authorization (db : ReceiptDb) (nonce : list Z) : option AuthorizedReceiptSession :=
  fst <$> receipt_session_authorization db !! nonce.

Definition save_authorization (db : ReceiptDb) (a : AuthorizedReceiptSession)
    : result ReceiptDb ReceiptCheckpointDaoError :=
  match receipt_session_authorization db !! rsp_authorization_nonce (policy a) with
  | Some _ => Err AuthorizationNonceAlreadyUsed
  | None => Ok (with_authorizations db
      (<[rsp_authorization_nonce (policy a) := (a, 0)]> (receipt_session_authorization db)))
  end.

(** ** Offers under way *)

Definition deserialize_routing_offer_state (nonce : list Z) (s : Stream) (state : RoutingReceiptOfferState)
    : result RoutingReceiptOfferState ReceiptCheckpointDaoError :=
  let r := receipt (last_signed_receipt state) in
  if bool_decide (os_authorization_nonce state = nonce ∧
       (route_epoch r, provider_public_key r, os_payer_session_public_key state) = s ∧
       service_kind r = Routing)
  then Ok state else Err OfferStateIdentityMismatch.

Definition dao_routing_offer_state (db : ReceiptDb) (nonce : list Z) (s : Stream)
    : result (option RoutingReceiptOfferState) ReceiptCheckpointDaoError :=
  match routing_receipt_offer_state db !! (nonce, s) with
  | None => Ok None
  | Some state => let? state := deserialize_routing_offer_state nonce s state in Ok (Some state)
  end.

(** The decimal expiry, cast to a 64-bit integer by the query. *)
Definition sql_integer (n : Z) : Z := Z.min n (2 ^ 63 - 1).

Definition save_routing_offer_state (db : ReceiptDb) (state : RoutingReceiptOfferState)
    (now_unix_s : Z) (maximum_states : nat) : result ReceiptDb ReceiptCheckpointDaoError :=
  let r := receipt (last_signed_receipt state) in
  let s := (route_epoch r, provider_public_key r, os_payer_session_public_key state) in
  let key := (os_authorization_nonce state, s) in
  if bool_decide (service_kind r ≠ Routing ∨ os_authorization_nonce state = repeat 0 32 ∨
       os_payer_session_public_key state = [] ∨ route_epoch r = repeat 0 32 ∨
       provider_public_key r = [] ∨ os_expires_at_unix_s state < now_unix_s)
  then Err OfferStateIdentityMismatch
  else
    let live := filter (fun kv => ¬ sql_integer (os_expires_at_unix_s kv.2) < now_unix_s)
                  (routing_receipt_offer_state db) in
    match live !! key with
    | Some existing =>
        let? existing := deserialize_routing_offer_state (os_authorization_nonce state) s existing in
        if bool_decide (existing = state) then Ok (with_offers db live)
        else
          let previous := receipt (last_signed_receipt existing) in
          if bool_decide (os_expires_at_unix_s state ≠ os_expires_at_unix_s existing ∨
               accounting_commitment r ≠ accounting_commitment previous ∨
               service_rate r ≠ service_rate previous ∨ byte_rate r ≠ byte_rate previous ∨
               checked_add 64 (sequence previous) 1 ≠ Some (sequence r) ∨
               cumulative_charge_wei r ≤ cumulative_charge_wei previous)
          then Err StaleOfferState
          else Ok (with_offers db (<[key := state]> live))
    | None =>
        if negb (sequence r =? 1) then Err StaleOfferState
        else if (maximum_states <=? size live)%nat then Err OfferStateCapacityExceeded
        else Ok (with_offers db (<[key := state]> live))
    end.

(** ** Accepting a receipt *)

Definition MAX_DB_BALANCE : Z := Z.shiftl 1 126 - 1.

Definition deserialize_settlement_claim (s : Stream) (row : ClaimRow)
    : result ServiceReceiptPayload_0v1 ReceiptCheckpointDaoError :=
  let p := cr_receipt_payload row in
  let auth := policy (payload_authorization p) in
  let ack := acknowledged_receipt p in
  let r := receipt (signed_receipt ack) in
  if bool_decide (rsp_authorization_nonce auth = cr_authorization_nonce row ∧
       (route_epoch r, provider_public_key r, payer_session_public_key ack) = s ∧
       rsp_payer_session_public_key auth = payer_session_public_key ack ∧
       cumulative_charge_wei r = cr_cumulative_charge_wei row)
  then
    let? computed_claim_id := map_err (fun _ => DeserializationFailed "claim id")
                                (receipt_settlement_claim_id p) in
    if bool_decide (computed_claim_id = cr_claim_id row) then Ok p
    else Err SettlementClaimIdentityMismatch
  else Err SettlementClaimIdentityMismatch.

Definition validate_settlement_claim_for_checkpoint (p : ServiceReceiptPayload_0v1)
    (cp : ReceiptSequenceCheckpoint) : result unit ReceiptCheckpointDaoError :=
  let auth := policy (payload_authorization p) in
  let ack := acknowledged_receipt p in
  let r := receipt (signed_receipt ack) in
  if bool_decide (rsp_payer_session_public_key auth = cp_payer_session_public_key cp ∧
       payer_session_public_key ack = cp_payer_session_public_key cp ∧
       route_epoch r = cp_route_epoch cp ∧ provider_public_key r = cp_provider_public_key cp ∧
       accounting_commitment r = cp_accounting_commitment cp ∧ sequence r = last_sequence cp ∧
       cumulative_charge_wei r = cp_cumulative_charge_wei cp)
  then Ok () else Err SettlementClaimIdentityMismatch.

(** The balance after a charge, in its two columns. *)
Definition add_to_receivable (t : gmap Address (Z * Z)) (wallet : Address) (charge_delta : Z)
    : fallible (gmap Address (Z * Z)) ReceiptCheckpointDaoError :=
  if bool_decide (in_i 128 charge_delta) then
    let* existing_balance :=
      match t !! wallet with
      | Some (high, low) => reconstitute high low
      | None => Ret 0
      end in
    let new_balance := existing_balance + charge_delta in
    if bool_decide (in_i 128 new_balance ∧ new_balance ≤ MAX_DB_BALANCE) then
      let* parts := deconstruct new_balance in
      Ret (Ok (<[wallet := parts]> t))
    else Ret (Err BalanceOverflow)
  else Ret (Err BalanceOverflow).

(** [insert into receipt_settlement_claim_outbox]: both keys are unique. *)
Definition has_claim (outbox : gmap Stream ClaimRow) (id : list Z) : bool :=
  existsb (fun kv => bool_decide (cr_claim_id kv.2 = id)) (map_to_list outbox).
Definition insert_claim (outbox : gmap Stream ClaimRow) (s : Stream) (row : ClaimRow)
    : result (gmap Stream ClaimRow) ReceiptCheckpointDaoError :=
  if bool_decide (is_Some (outbox !! s)) || has_claim outbox (cr_claim_id row)
  then Err (DatabaseError "unique constraint") else Ok (<[s := row]> outbox).

(** The claim of the same stream that is stored. *)
Definition check_stored_claim (db : ReceiptDb) (s : Stream) (auth : AuthorizedReceiptSession)
    : result unit ReceiptCheckpointDaoError :=
  match receipt_settlement_claim_outbox db !! s with
  | Some row =>
      let? stored_payload := deserialize_settlement_claim s row in
      if bool_decide (payload_authorization stored_payload = auth) then Ok ()
      else Err SettlementClaimIdentityMismatch
  | None => Ok ()
  end.

(** What was spent of the authorization before. *)
Definition stored_spent (db : ReceiptDb) (auth : AuthorizedReceiptSession)
    : result Z ReceiptCheckpointDaoError :=
  match receipt_session_authorization db !! rsp_authorization_nonce (policy auth) with
  | Some (stored, spent) => if bool_decide (stored = auth) then Ok spent else Err AuthorizationIdentityMismatch
  | None => Ok 0
  end.

(** What the checkpoint adds to the stored one. *)
Definition charge_delta_of (db : ReceiptDb) (cp : ReceiptSequenceCheckpoint)
    : result Z ReceiptCheckpointDaoError :=
  match receipt_sequence_checkpoint db !! stream_of_checkpoint cp with
  | Some stored =>
      let? _ := check_advance cp stored in
      ok_or (checked_sub 128 (cp_cumulative_charge_wei cp) (cp_cumulative_charge_wei stored)) StaleCheckpoint
  | None => Ok (cp_cumulative_charge_wei cp)
  end.

(** The row of the claim in the outbox: inserted, or updated. *)
Definition write_claim (db : ReceiptDb) (s : Stream) (row : ClaimRow)
    : result (gmap Stream ClaimRow) ReceiptCheckpointDaoError :=
  match receipt_settlement_claim_outbox db !! s with
  | Some stored =>
      Ok (<[s := mkClaimRow (cr_claim_id stored) (cr_authorization_nonce stored)
                   (cr_cumulative_charge_wei row) (cr_receipt_payload row) (cr_accepted_at row)]>
            (receipt_settlement_claim_outbox db))
  | None => insert_claim (receipt_settlement_claim_outbox db) s row
  end.

Definition accept_verified_receipt (db : ReceiptDb) (p : ServiceReceiptPayload_0v1)
    (cp : ReceiptSequenceCheckpoint) (timestamp : Z) : fallible (Z * ReceiptDb) ReceiptCheckpointDaoError :=
  let! _ := Ret (validate_settlement_claim_for_checkpoint p cp) in
  let auth := payload_authorization p in
  let s := stream_of_checkpoint cp in
  let nonce := rsp_authorization_nonce (policy auth) in
  if negb (bool_decide (rsp_payer_session_public_key (policy auth) = cp_payer_session_public_key cp ∧
       make_accounting_commitment (cp_route_epoch cp) (cp_payer_session_public_key cp)
         = cp_accounting_commitment cp))
  then Ret (Err AuthorizationIdentityMismatch)
  else
    let! claim_id := Ret (map_err (fun _ => SerializationFailed "claim id")
                            (receipt_settlement_claim_id p)) in
    let! _ := Ret (check_stored_claim db s auth) in
    let! spent_charge_wei := Ret (stored_spent db auth) in
    let! charge_delta := Ret (charge_delta_of db cp) in
    let! new_spent_charge_wei := Ret (ok_or (checked_add 128 spent_charge_wei charge_delta)
                                        DaoAmountLimitExceeded) in
    if max_total_charge_wei (policy auth) <? new_spent_charge_wei
    then Ret (Err DaoAmountLimitExceeded)
    else
      let! balances := add_to_receivable (receivable db) (payer_wallet_address (policy auth)) charge_delta in
      let row := mkClaimRow claim_id nonce (cp_cumulative_charge_wei cp) p timestamp in
      let! outbox := Ret (write_claim db s row) in
      Ret (Ok (charge_delta,
        mkReceiptDb (<[s := cp]> (receipt_sequence_checkpoint db))
          (<[nonce := (auth, new_spent_charge_wei)]> (receipt_session_authorization db))
          (routing_receipt_offer_state db) balances outbox
          (delete claim_id (receipt_settlement_claim_archive db))
          (reconciliation_checkpoint_opt db) (provider_authorization_opt db))).

(** ** Pages of claims *)

Definition after (start_after_claim_id_opt : option (list Z)) (id : list Z) : bool :=
  match start_after_claim_id_opt with None => true | Some start => negb (bytes_leb id start) end.

Fixpoint claim_records (rows : list (Stream * ClaimRow))
    : result (list PendingSettlementClaimRecord) ReceiptCheckpointDaoError :=
  match rows with
  | [] => Ok []
  | (s, row) :: rows =>
      let? p := deserialize_settlement_claim s row in
      let? rest := claim_records rows in
      Ok (mkPending p (cr_accepted_at row) :: rest)
  end.

Definition pending_settlement_claim_records_page (db : ReceiptDb) (start_after : option (list Z))
    (limit : nat) : result (list PendingSettlementClaimRecord) ReceiptCheckpointDaoError :=
  claim_records (take limit (sort_by_key (fun kv => cr_claim_id kv.2)
    (filter (fun kv => after start_after (cr_claim_id kv.2) = true)
       (map_to_list (receipt_settlement_claim_outbox db))))).

Definition pending_settlement_claims_page (db : ReceiptDb) (start_after : option (list Z)) (limit : nat)
    : result (list ServiceReceiptPayload_0v1) ReceiptCheckpointDaoError :=
  let? records := pending_settlement_claim_records_page db start_after limit in
  Ok (map pd_receipt_payload records).

Definition settlement_reconciliation_candidates_page (db : ReceiptDb) (start_after : option (list Z))
    (limit : nat) : list SettlementReconciliationCandidate :=
  let pending := map (fun kv => mkCandidate (cr_claim_id kv.2) (cr_cumulative_charge_wei kv.2))
                   (map_to_list (receipt_settlement_claim_outbox db)) in
  let archived := map (fun kv => mkCandidate kv.1 (cr_cumulative_charge_wei (ar_row kv.2)))
                    (filter (fun kv => has_claim (receipt_settlement_claim_outbox db) kv.1 = false)
                       (map_to_list (receipt_settlement_claim_archive db))) in
  take limit (sort_by_key cd_claim_id
    (filter (fun c => after start_after (cd_claim_id c) = true) (pending ++ archived))).

(** ** Reconciliation with the chain *)

Definition claim_by_id (outbox : gmap Stream ClaimRow) (id : list Z) : option (Stream * ClaimRow) :=
  head (filter (fun kv => cr_claim_id kv.2 = id) (map_to_list outbox)).

Definition observation_valid (ob : SettlementChainObservation) : bool :=
  negb (confirmation_depth ob =? 0)
  && bool_decide (checked_sub 64 (latest_block_number ob) (observed_block_number ob)
                  = Some (confirmation_depth ob))
  && negb (forallb (fun b => b =? 0) (observed_block_hash ob))
  && bool_decide (NoDup (map cf_claim_id (ob_claims ob))).

Definition observation_follows (ob : SettlementChainObservation) (rc : option ReconciliationCheckpoint)
    : result unit ReceiptCheckpointDaoError :=
  match rc with
  | None => Ok ()
  | Some rc =>
      if negb (bool_decide (rc_settlement_contract rc = ob_settlement_contract ob))
         || negb (rc_chain_id rc =? ob_chain_id ob)
      then Err SettlementObservationIdentityMismatch
      else if confirmation_depth ob <? rc_confirmation_depth rc
      then Err SettlementConfirmationDepthReduced
      else if observed_block_number ob <? rc_observed_block_number rc
      then Err SettlementObservationRegressed
      else Ok ()
  end.

(** The tables of claims and the counts, while an observation is applied. *)
Record Tally := mkTally {
  t_outbox : gmap Stream ClaimRow;
  t_archive : gmap (list Z) ArchiveRow;
  t_outcome : SettlementReconciliationOutcome;
}.

Definition payload_on_chain (ob : SettlementChainObservation) (p : ServiceReceiptPayload_0v1) : bool :=
  (rsp_chain_id (policy (payload_authorization p)) =? ob_chain_id ob)
  && bool_decide (rsp_settlement_contract (policy (payload_authorization p)) = ob_settlement_contract ob).

Definition count (archived restored pending revalidated unknown : Z) (o : SettlementReconciliationOutcome)
    : SettlementReconciliationOutcome :=
  mkOutcome (archived_claim_count o + archived) (restored_claim_count o + restored)
    (still_pending_claim_count o + pending) (revalidated_archive_count o + revalidated)
    (unknown_claim_count o + unknown).

Definition reconcile_claim (ob : SettlementChainObservation) (t : Tally) (c : ConfirmedSettlementClaim)
    : result Tally ReceiptCheckpointDaoError :=
  let id := cf_claim_id c in
  let archive_row s row := mkArchiveRow s row (cf_cumulative_charge_wei c)
                             (observed_block_number ob) (observed_block_hash ob) in
  match claim_by_id (t_outbox t) id with
  | Some (s, row) =>
      let? p := deserialize_settlement_claim s row in
      if negb (payload_on_chain ob p) then Err SettlementObservationIdentityMismatch
      else if cf_cumulative_charge_wei c <? cumulative_charge_wei (receipt (signed_receipt (acknowledged_receipt p)))
      then Ok (mkTally (t_outbox t) (t_archive t) (count 0 0 1 0 0 (t_outcome t)))
      else Ok (mkTally (delete s (t_outbox t)) (<[id := archive_row s row]> (t_archive t))
                 (count 1 0 0 0 0 (t_outcome t)))
  | None =>
      match t_archive t !! id with
      | None => Ok (mkTally (t_outbox t) (t_archive t) (count 0 0 0 0 1 (t_outcome t)))
      | Some ar =>
          let s := ar_stream ar in
          let row := ar_row ar in
          let? p := deserialize_settlement_claim s
                      (mkClaimRow id (cr_authorization_nonce row) (cr_cumulative_charge_wei row)
                         (cr_receipt_payload row) (cr_accepted_at row)) in
          if negb (payload_on_chain ob p) then Err SettlementObservationIdentityMismatch
          else if cf_cumulative_charge_wei c <? cumulative_charge_wei (receipt (signed_receipt (acknowledged_receipt p)))
          then
            let? outbox := insert_claim (t_outbox t) s
                             (mkClaimRow id (cr_authorization_nonce row) (cr_cumulative_charge_wei row)
                                (cr_receipt_payload row) (cr_accepted_at row)) in
            Ok (mkTally outbox (delete id (t_archive t)) (count 0 1 0 0 0 (t_outcome t)))
          else Ok (mkTally (t_outbox t) (<[id := archive_row s row]> (t_archive t))
                     (count 0 0 0 1 0 (t_outcome t)))
      end
  end.

Fixpoint reconcile_all (ob : SettlementChainObservation) (t : Tally) (cs : list ConfirmedSettlementClaim)
    : result Tally ReceiptCheckpointDaoError :=
  match cs with
  | [] => Ok t
  | c :: cs => let? t := reconcile_claim ob t c in reconcile_all ob t cs
  end.

Definition reconcile_settlement_claims (db : ReceiptDb) (ob : SettlementChainObservation)
    : result (SettlementReconciliationOutcome * ReceiptDb) ReceiptCheckpointDaoError :=
  if negb (observation_valid ob) then Err SettlementObservationInvalid
  else
    let? _ := observation_follows ob (reconciliation_checkpoint_opt db) in
    let? t := reconcile_all ob (mkTally (receipt_settlement_claim_outbox db)
                (receipt_settlement_claim_archive db) (mkOutcome 0 0 0 0 0)) (ob_claims ob) in
    Ok (t_outcome t, with_claims db (t_outbox t) (t_archive t)
      (Some (mkReconciliation (ob_chain_id ob) (ob_settlement_contract ob) (confirmation_depth ob)
               (observed_block_number ob) (observed_block_hash ob)))).

(** ** The authorization of the provider *)

Definition provider_settlement_authorization (db : ReceiptDb) : option AuthorizedProviderSettlement :=
  provider_authorization_opt db.
Definition save_provider_settlement_authorization (db : ReceiptDb) (a : AuthorizedProviderSettlement)
    : ReceiptDb := with_provider db (Some a).
Definition clear_provider_settlement_authorization (db : ReceiptDb) : ReceiptDb := with_provider db None.
End Dao.
