(* ===== verification/ReceiptBooks.v ===== *)
(** * ReceiptBooks: the provider's books balance

    What holds of the tables of [ReceiptDao] over any history of its
    operations: sums over tables, the invariant that ties the tables together,
    and what a reconciliation with the chain does to the claims. *)

From stdpp Require Import base list numbers option strings gmap.
From Stdlib Require Import ZArith Lia.
From S2P Require Import Prelude CryptDE Wallet ServiceReceipt ReceiptSettlement BigInt ReceiptDao.

Local Open Scope Z_scope.
Local Open Scope rust_scope.
Local Open Scope list_scope.

Section Books.
Context `{E : Ethsign} `{C : Cbor} `{SC : SettlementCbor}.

(** ** Histories *)

Inductive DaoOp :=
| AcceptReceipt (p : ServiceReceiptPayload_0v1) (cp : ReceiptSequenceCheckpoint) (timestamp : Z)
| SaveOffer (state : RoutingReceiptOfferState) (now : Z) (maximum : nat)
| SaveCheckpoint (cp : ReceiptSequenceCheckpoint)
| SaveAuthorization (a : AuthorizedReceiptSession)
| Reconcile (ob : SettlementChainObservation)
| SaveProvider (a : AuthorizedProviderSettlement)
| ClearProvider.

(** An error leaves the tables as they were. *)
Definition dao_step (op : DaoOp) (db : ReceiptDb) : exec ReceiptDb :=
  match op with
  | AcceptReceipt p cp t =>
      let* r := accept_verified_receipt db p cp t in
      Ret (match r with Ok (_, db') => db' | Err _ => db end)
  | SaveOffer state now maximum =>
      Ret (match save_routing_offer_state db state now maximum with Ok db' => db' | Err _ => db end)
  | SaveCheckpoint cp => Ret (match save_checkpoint db cp with Ok db' => db' | Err _ => db end)
  | SaveAuthorization a => Ret (match save_authorization db a with Ok db' => db' | Err _ => db end)
  | Reconcile ob =>
      Ret (match reconcile_settlement_claims db ob with Ok (_, db') => db' | Err _ => db end)
  | SaveProvider a => Ret (save_provider_settlement_authorization db a)
  | ClearProvider => Ret (clear_provider_settlement_authorization db)
  end.
Fixpoint dao_run (ops : list DaoOp) (db : ReceiptDb) : exec ReceiptDb :=
  match ops with
  | [] => Ret db
  | op :: ops => let* db := dao_step op db in dao_run ops db
  end.

(** The amounts of checkpoints and authorizations are [u128]s. *)
Definition op_ok (op : DaoOp) : Prop :=
  match op with
  | AcceptReceipt _ cp _ | SaveCheckpoint cp => in_u 128 (cp_cumulative_charge_wei cp)
  | SaveAuthorization a => in_u 128 (max_total_charge_wei (policy a))
  | _ => True
  end.

(** ** The charges of a history *)

(** A charge is what [accept_verified_receipt] returns for an accepted receipt,
    with the authorization and the stream that the receipt itself names. *)
Record Charge := mkCharge {
  ch_authorization : AuthorizedReceiptSession;
  ch_stream : Stream;
  ch_wei : Z;
}.

Definition stream_of_receipt (p : ServiceReceiptPayload_0v1) : Stream :=
  let ack := acknowledged_receipt p in
  let r := receipt (signed_receipt ack) in
  (route_epoch r, provider_public_key r, payer_session_public_key ack).

Definition charged_by (op : DaoOp) (db : ReceiptDb) : list Charge :=
  match op with
  | AcceptReceipt p cp t =>
      match accept_verified_receipt db p cp t with
      | Ret (Ok (delta, _)) => [mkCharge (payload_authorization p) (stream_of_receipt p) delta]
      | _ => []
      end
  | _ => []
  end.
Fixpoint charges (ops : list DaoOp) (db : ReceiptDb) : list Charge :=
  match ops with
  | [] => []
  | op :: ops =>
      charged_by op db ++ match dao_step op db with Ret db => charges ops db | Panic => [] end
  end.

(** The streams whose checkpoint is written without a receipt. *)
Definition saved_by (op : DaoOp) : list Stream :=
  match op with SaveCheckpoint cp => [stream_of_checkpoint cp] | _ => [] end.
Definition saved (ops : list DaoOp) : list Stream := concat (map saved_by ops).

Definition nonce_of (c : Charge) : list Z := rsp_authorization_nonce (policy (ch_authorization c)).
Definition payer_of (c : Charge) : Address := payer_wallet_address (policy (ch_authorization c)).

(** What the charges with a given nonce, payer or stream come to. *)
Definition sum_of `{EqDecision A} (key : Charge → A) (k : A) (cs : list Charge) : Z :=
  foldr (fun c total => (if bool_decide (key c = k) then ch_wei c else 0) + total) 0 cs.

Lemma sum_of_app `{EqDecision A} (key : Charge → A) k cs cs' :
  sum_of key k (cs ++ cs') = sum_of key k cs + sum_of key k cs'.
Proof. unfold sum_of. induction cs as [|c cs IH]; cbn [app foldr]; lia. Qed.

Lemma sum_of_one `{EqDecision A} (key : Charge → A) k c :
  sum_of key k [c] = if bool_decide (key c = k) then ch_wei c else 0.
Proof. cbn. lia. Qed.

(** ** The invariant *)

Definition balance (t : gmap Address (Z * Z)) (w : Address) : Z := from_option row_value 0 (t !! w).
Definition spent (db : ReceiptDb) (nonce : list Z) : Z :=
  from_option snd 0 (receipt_session_authorization db !! nonce).
Definition reached (db : ReceiptDb) (s : Stream) : Z :=
  from_option cp_cumulative_charge_wei 0 (receipt_sequence_checkpoint db !! s).

(** A claim of a stream reads back, and is for no more than was accepted. *)
Definition claim_ok (cps : gmap Stream ReceiptSequenceCheckpoint) (s : Stream) (row : ClaimRow) : Prop :=
  deserialize_settlement_claim s row = Ok (cr_receipt_payload row) ∧
  accounting_commitment (receipt (signed_receipt (acknowledged_receipt (cr_receipt_payload row))))
    = make_accounting_commitment s.1.1 s.2 ∧
  ∃ cp, cps !! s = Some cp ∧ cr_cumulative_charge_wei row ≤ cp_cumulative_charge_wei cp.

(** No claim is there twice. *)
Definition claims_apart (outbox : gmap Stream ClaimRow) (archive : gmap (list Z) ArchiveRow) : Prop :=
  (∀ s s' r r', outbox !! s = Some r → outbox !! s' = Some r' → cr_claim_id r = cr_claim_id r' → s = s') ∧
  (∀ s r, outbox !! s = Some r → archive !! cr_claim_id r = None).

Definition claims_ok (cps : gmap Stream ReceiptSequenceCheckpoint) (outbox : gmap Stream ClaimRow)
    (archive : gmap (list Z) ArchiveRow) : Prop :=
  map_Forall (claim_ok cps) outbox ∧
  map_Forall (fun id ar => cr_claim_id (ar_row ar) = id ∧ claim_ok cps (ar_stream ar) (ar_row ar)) archive ∧
  claims_apart outbox archive.

(** [start] are the balances before the history, [cs] its charges, and [others]
    the streams whose checkpoint was also written otherwise. *)
Record books_ok (start : gmap Address (Z * Z)) (others : list Stream) (cs : list Charge) (db : ReceiptDb) : Prop := {
  within_limits : map_Forall (fun nonce r => rsp_authorization_nonce (policy r.1) = nonce ∧
    0 ≤ r.2 ≤ max_total_charge_wei (policy r.1)) (receipt_session_authorization db);
  checkpoints_named : map_Forall (fun s cp => stream_of_checkpoint cp = s ∧
    in_u 128 (cp_cumulative_charge_wei cp)) (receipt_sequence_checkpoint db);
  charges_authorized : Forall (fun c => 0 ≤ ch_wei c ∧
    dao_authorization db (nonce_of c) = Some (ch_authorization c)) cs;
  spent_is_charged nonce : spent db nonce = sum_of nonce_of nonce cs;
  owed_is_charged w : balance (receivable db) w = balance start w + sum_of payer_of w cs;
  charged_is_reached s : sum_of ch_stream s cs ≤ reached db s ∧ (s ∉ others → sum_of ch_stream s cs = reached db s);
  rows_ok : map_Forall (fun _ => row_ok) (receivable db);
  claims_are_ok : claims_ok (receipt_sequence_checkpoint db) (receipt_settlement_claim_outbox db)
    (receipt_settlement_claim_archive db);
}.

(** ** Accepting a receipt *)

Lemma add_to_receivable_spec t w delta :
  map_Forall (fun _ => row_ok) t → 0 ≤ delta →
  ∃ r, add_to_receivable t w delta = Ret r ∧
    match r with
    | Ok t' => map_Forall (fun _ => row_ok) t' ∧
        ∀ w', balance t' w' = balance t w' + (if bool_decide (w = w') then delta else 0)
    | Err _ => True
    end.
Proof.
  intros Ht Hd. unfold add_to_receivable. case_bool_decide as Hi; [|by eexists].
  assert ((match t !! w with Some (high, low) => reconstitute high low | None => Ret 0 end)
    = Ret (balance t w) ∧ - 2 ^ 126 ≤ balance t w) as [-> Hlow].
  { unfold balance. destruct (t !! w) as [[h l]|] eqn:Hw; [|done]. specialize (Ht _ _ Hw).
    split; [by apply (reconstitute_row (h, l))|]. apply row_value_range, in_i_127 in Ht. apply Ht. }
  cbn [exec_bind]. case_bool_decide as Hn; [|by eexists].
  assert (in_i 127 (balance t w + delta)) as Hin.
  { apply in_i_127. destruct Hn as [_ Hn]. unfold MAX_DB_BALANCE in Hn.
    change (Z.shiftl 1 126) with (2 ^ 126) in Hn. lia. }
  rewrite deconstruct_Ret by done. destruct (deconstruct_row _ Hin) as [Hr Hv]. cbn [exec_bind].
  eexists. split; [done|]. split; [by apply map_Forall_insert_2|].
  intros w'. unfold balance at 1. case_bool_decide as Hw.
  - subst w'. rewrite lookup_insert_eq. by cbn [from_option].
  - rewrite lookup_insert_ne by done. fold (balance t w'). lia.
Qed.

(** What an accepted receipt is, and what it changes. *)
Record accepted (db : ReceiptDb) (p : ServiceReceiptPayload_0v1) (cp : ReceiptSequenceCheckpoint)
    (delta : Z) (db' : ReceiptDb) : Prop := {
  ac_matches : validate_settlement_claim_for_checkpoint p cp = Ok ();
  ac_commitment : make_accounting_commitment (cp_route_epoch cp) (cp_payer_session_public_key cp)
    = cp_accounting_commitment cp;
  ac_delta : delta = cp_cumulative_charge_wei cp - from_option cp_cumulative_charge_wei 0
    (receipt_sequence_checkpoint db !! stream_of_checkpoint cp);
  ac_grows : 0 ≤ delta;
  ac_checkpoints : receipt_sequence_checkpoint db' =
    <[stream_of_checkpoint cp := cp]> (receipt_sequence_checkpoint db);
  ac_stored r : receipt_session_authorization db !!
    rsp_authorization_nonce (policy (payload_authorization p)) = Some r → r.1 = payload_authorization p;
  ac_limit : from_option snd 0 (receipt_session_authorization db !!
    rsp_authorization_nonce (policy (payload_authorization p))) + delta
    ≤ max_total_charge_wei (policy (payload_authorization p));
  ac_authorizations : receipt_session_authorization db' =
    <[rsp_authorization_nonce (policy (payload_authorization p)) := (payload_authorization p,
      from_option snd 0 (receipt_session_authorization db !!
        rsp_authorization_nonce (policy (payload_authorization p))) + delta)]>
      (receipt_session_authorization db);
  ac_rows : map_Forall (fun _ => row_ok) (receivable db');
  ac_balance w : balance (receivable db') w = balance (receivable db) w +
    (if bool_decide (payer_wallet_address (policy (payload_authorization p)) = w) then delta else 0);
  ac_claims : ∃ id row, receipt_settlement_claim_id p = Ok id ∧
    receipt_settlement_claim_outbox db' = <[stream_of_checkpoint cp := row]> (receipt_settlement_claim_outbox db) ∧
    receipt_settlement_claim_archive db' = delete id (receipt_settlement_claim_archive db) ∧
    cr_receipt_payload row = p ∧ cr_cumulative_charge_wei row = cp_cumulative_charge_wei cp ∧
    match receipt_settlement_claim_outbox db !! stream_of_checkpoint cp with
    | Some stored => cr_claim_id row = cr_claim_id stored ∧
        cr_authorization_nonce row = cr_authorization_nonce stored ∧
        payload_authorization (cr_receipt_payload stored) = payload_authorization p
    | None => cr_claim_id row = id ∧
        cr_authorization_nonce row = rsp_authorization_nonce (policy (payload_authorization p)) ∧
        has_claim (receipt_settlement_claim_outbox db) id = false
    end;
}.

Lemma check_advance_Ok cp stored u :
  check_advance cp stored = Ok u → cp_cumulative_charge_wei stored < cp_cumulative_charge_wei cp.
Proof.
  unfold check_advance. case_bool_decide; [|done]. destruct (_ || _) eqn:Hb; [done|].
  apply orb_false_elim in Hb as [_ Hb]. intros _. lia.
Qed.

Lemma insert_claim_Ok outbox s row outbox' :
  insert_claim outbox s row = Ok outbox' →
  outbox !! s = None ∧ has_claim outbox (cr_claim_id row) = false ∧ outbox' = <[s := row]> outbox.
Proof.
  unfold insert_claim. case_bool_decide as Hs; [done|]. destruct (has_claim _ _); [done|].
  intros [= <-]. split; [|done]. by apply eq_None_not_Some.
Qed.

Lemma deserialize_payload s row q :
  deserialize_settlement_claim s row = Ok q → q = cr_receipt_payload row.
Proof.
  unfold deserialize_settlement_claim. case_bool_decide; [|done].
  destruct (receipt_settlement_claim_id _); [|done]. cbn [map_err result_bind].
  case_bool_decide; [|done]. by intros [= <-].
Qed.

Lemma check_stored_claim_Ok db s auth u row :
  check_stored_claim db s auth = Ok u → receipt_settlement_claim_outbox db !! s = Some row →
  payload_authorization (cr_receipt_payload row) = auth.
Proof.
  unfold check_stored_claim. intros Hok Hrow. rewrite Hrow in Hok.
  destruct (deserialize_settlement_claim s row) as [q|] eqn:Hq; [|done].
  apply deserialize_payload in Hq as ->. cbn [result_bind] in Hok. by case_bool_decide.
Qed.

Lemma stored_spent_Ok db auth spent :
  stored_spent db auth = Ok spent →
  spent = from_option snd 0 (receipt_session_authorization db !! rsp_authorization_nonce (policy auth)) ∧
  ∀ r, receipt_session_authorization db !! rsp_authorization_nonce (policy auth) = Some r → r.1 = auth.
Proof.
  unfold stored_spent. destruct (receipt_session_authorization db !! _) as [[stored sp]|]; [|by intros [= <-]].
  case_bool_decide; [|done]. intros [= <-]. split; [done|]. by intros ? [= <-].
Qed.

Lemma charge_delta_Ok db cp delta :
  charge_delta_of db cp = Ok delta → in_u 128 (cp_cumulative_charge_wei cp) →
  delta = cp_cumulative_charge_wei cp - from_option cp_cumulative_charge_wei 0
    (receipt_sequence_checkpoint db !! stream_of_checkpoint cp) ∧ 0 ≤ delta.
Proof.
  unfold charge_delta_of, in_u. destruct (receipt_sequence_checkpoint db !! _) as [stored|];
    [|intros [= <-]; cbn [from_option]; lia].
  destruct (check_advance cp stored) as [u|] eqn:Hadv; [|done].
  apply check_advance_Ok in Hadv. cbn [result_bind from_option].
  destruct (checked_sub _ _ _) as [d|] eqn:Hd; [|done]. apply checked_sub_Some in Hd as [-> _].
  intros [= <-] _. lia.
Qed.

Lemma write_claim_Ok db s row outbox :
  write_claim db s row = Ok outbox →
  ∃ row', outbox = <[s := row']> (receipt_settlement_claim_outbox db) ∧
    cr_receipt_payload row' = cr_receipt_payload row ∧
    cr_cumulative_charge_wei row' = cr_cumulative_charge_wei row ∧
    match receipt_settlement_claim_outbox db !! s with
    | Some stored => cr_claim_id row' = cr_claim_id stored ∧
        cr_authorization_nonce row' = cr_authorization_nonce stored
    | None => row' = row ∧ has_claim (receipt_settlement_claim_outbox db) (cr_claim_id row) = false
    end.
Proof.
  unfold write_claim. destruct (receipt_settlement_claim_outbox db !! s) as [stored|] eqn:Hs.
  - intros [= <-]. by eexists.
  - intros (_ & Hfresh & ->)%insert_claim_Ok. by exists row.
Qed.

Lemma accept_spec start others cs db p cp t :
  books_ok start others cs db → in_u 128 (cp_cumulative_charge_wei cp) →
  ∃ r, accept_verified_receipt db p cp t = Ret r ∧
    match r with Ok (delta, db') => accepted db p cp delta db' | Err _ => True end.
Proof.
  intros Hb Hcp. unfold accept_verified_receipt.
  destruct (validate_settlement_claim_for_checkpoint p cp) as [[]|] eqn:Hval; [|by eexists].
  cbn [try_bind]. case_bool_decide as Hid; [|by eexists]. cbn [negb].
  destruct (receipt_settlement_claim_id p) as [id|] eqn:Hclaim; [|by eexists]. cbn [map_err try_bind].
  set (s := stream_of_checkpoint cp) in *. set (auth := payload_authorization p) in *.
  destruct (check_stored_claim db s auth) as [u|] eqn:Hstored; [|by eexists]. cbn [try_bind].
  destruct (stored_spent db auth) as [before|] eqn:Hspent; [|by eexists]. cbn [try_bind].
  apply stored_spent_Ok in Hspent as [-> Hsame].
  destruct (charge_delta_of db cp) as [delta|] eqn:Hdelta; [|by eexists]. cbn [try_bind].
  apply charge_delta_Ok in Hdelta as [Hdelta Hge]; [|done].
  destruct (checked_add 128 _ delta) as [spent'|] eqn:Hadd; [|by eexists].
  apply checked_add_Some in Hadd as [-> _]. cbn [ok_or try_bind].
  destruct (_ <? _) eqn:Hlim; [by eexists|]. apply Z.ltb_ge in Hlim.
  destruct (add_to_receivable_spec (receivable db) (payer_wallet_address (policy auth)) delta
    (rows_ok _ _ _ _ Hb) Hge) as (r4 & -> & Hr4).
  destruct r4 as [t'|]; [|by eexists]. destruct Hr4 as [Hrows Hbal]. cbn [try_bind].
  destruct (write_claim db s _) as [outbox|] eqn:Hwrite; [|by eexists]. cbn [try_bind].
  apply write_claim_Ok in Hwrite as (row & -> & Hpay & Hcharge & Hrow).
  eexists. split; [done|]. split; cbn; try done; [by destruct Hid|]. exists id, row.
  split; [done|]. split; [done|]. split; [done|]. split; [done|]. split; [done|]. fold s auth.
  destruct (receipt_settlement_claim_outbox db !! s) as [stored|] eqn:Hout.
  - destruct Hrow as [-> ->]. split; [done|]. split; [done|]. by eapply check_stored_claim_Ok.
  - by destruct Hrow as [-> ?].
Qed.

(** *** What is added up *)

Lemma accepted_sums start others cs db p cp delta db' :
  let c := mkCharge (payload_authorization p) (stream_of_checkpoint cp) delta in
  books_ok start others cs db → accepted db p cp delta db' →
  (∀ nonce, spent db' nonce = sum_of nonce_of nonce (cs ++ [c])) ∧
  (∀ w, balance (receivable db') w = balance start w + sum_of payer_of w (cs ++ [c])) ∧
  ∀ s, sum_of ch_stream s (cs ++ [c]) ≤ reached db' s ∧
    (s ∉ others → sum_of ch_stream s (cs ++ [c]) = reached db' s).
Proof.
  cbn zeta. intros Hb Ha. split; [|split].
  - intros nonce. rewrite sum_of_app, sum_of_one, <- (spent_is_charged _ _ _ _ Hb). unfold spent, nonce_of.
    rewrite (ac_authorizations _ _ _ _ _ Ha). cbn [ch_authorization ch_wei]. case_bool_decide as Hn.
    + subst nonce. by rewrite lookup_insert_eq.
    + rewrite lookup_insert_ne by done. lia.
  - intros w. rewrite (ac_balance _ _ _ _ _ Ha), (owed_is_charged _ _ _ _ Hb), sum_of_app, sum_of_one.
    unfold payer_of. cbn [ch_authorization ch_wei]. case_bool_decide; lia.
  - intros s. destruct (charged_is_reached _ _ _ _ Hb s) as [Hle Heq]. pose proof (ac_delta _ _ _ _ _ Ha) as Hd.
    rewrite sum_of_app, sum_of_one. unfold reached in *. rewrite (ac_checkpoints _ _ _ _ _ Ha). cbn [ch_stream ch_wei].
    case_bool_decide as Hs.
    + subst s. rewrite lookup_insert_eq. cbn [from_option]. split; [lia|]. intros Hn. specialize (Heq Hn). lia.
    + rewrite lookup_insert_ne by done. split; [lia|]. intros Hn. specialize (Heq Hn). lia.
Qed.

Lemma accepted_authorized start others cs db p cp delta db' :
  books_ok start others cs db → accepted db p cp delta db' →
  Forall (fun c => 0 ≤ ch_wei c ∧ dao_authorization db' (nonce_of c) = Some (ch_authorization c))
    (cs ++ [mkCharge (payload_authorization p) (stream_of_checkpoint cp) delta]).
Proof.
  intros Hb Ha. unfold dao_authorization. rewrite (ac_authorizations _ _ _ _ _ Ha). apply Forall_app. split.
  - eapply Forall_impl; [apply (charges_authorized _ _ _ _ Hb)|]. cbn beta. intros c [Hge Hc]. split; [done|].
    rewrite lookup_insert. case_decide as Hn; [|done]. unfold dao_authorization in Hc. rewrite <- Hn in Hc.
    apply fmap_Some in Hc as (row & Hrow & Hc). apply (ac_stored _ _ _ _ _ Ha) in Hrow. cbn. congruence.
  - constructor; [|constructor]. split; [apply (ac_grows _ _ _ _ _ Ha)|].
    unfold nonce_of. cbn [ch_authorization]. by rewrite lookup_insert_eq.
Qed.

(** *** The claims *)

Lemma deserialize_Ok s row q :
  deserialize_settlement_claim s row = Ok q ↔
  q = cr_receipt_payload row ∧
  rsp_authorization_nonce (policy (payload_authorization q)) = cr_authorization_nonce row ∧
  (route_epoch (receipt (signed_receipt (acknowledged_receipt q))),
   provider_public_key (receipt (signed_receipt (acknowledged_receipt q))),
   payer_session_public_key (acknowledged_receipt q)) = s ∧
  rsp_payer_session_public_key (policy (payload_authorization q))
    = payer_session_public_key (acknowledged_receipt q) ∧
  cumulative_charge_wei (receipt (signed_receipt (acknowledged_receipt q))) = cr_cumulative_charge_wei row ∧
  receipt_settlement_claim_id q = Ok (cr_claim_id row).
Proof.
  unfold deserialize_settlement_claim. split.
  - case_bool_decide as Hc; [|done]. destruct (receipt_settlement_claim_id _) as [id|] eqn:Hid; [|done].
    cbn [map_err result_bind]. case_bool_decide; [|done]. intros [= <-]. subst id. naive_solver.
  - intros (-> & ? & ? & ? & ? & Hid). rewrite bool_decide_true by naive_solver.
    rewrite Hid. cbn [map_err result_bind]. by rewrite bool_decide_true.
Qed.

(** The identity of a claim is that of its stream and its authorization. *)
Lemma claim_id_same p q :
  payload_authorization p = payload_authorization q →
  payer_session_public_key (acknowledged_receipt p) = payer_session_public_key (acknowledged_receipt q) →
  route_epoch (receipt (signed_receipt (acknowledged_receipt p)))
    = route_epoch (receipt (signed_receipt (acknowledged_receipt q))) →
  provider_public_key (receipt (signed_receipt (acknowledged_receipt p)))
    = provider_public_key (receipt (signed_receipt (acknowledged_receipt q))) →
  accounting_commitment (receipt (signed_receipt (acknowledged_receipt p)))
    = accounting_commitment (receipt (signed_receipt (acknowledged_receipt q))) →
  receipt_settlement_claim_id p = receipt_settlement_claim_id q.
Proof. unfold receipt_settlement_claim_id, ack_receipt. by intros -> -> -> -> ->. Qed.

Lemma claim_ok_mono cps cps' s row :
  (∀ cp, cps !! s = Some cp → ∃ cp', cps' !! s = Some cp' ∧
    cp_cumulative_charge_wei cp ≤ cp_cumulative_charge_wei cp') →
  claim_ok cps s row → claim_ok cps' s row.
Proof.
  intros Hg (? & ? & cp & Hcp & Hle). split; [done|]. split; [done|].
  destruct (Hg cp Hcp) as (cp' & ? & ?). exists cp'. split; [done|]. lia.
Qed.

Lemma validate_claim_Ok p cp :
  validate_settlement_claim_for_checkpoint p cp = Ok () →
  rsp_payer_session_public_key (policy (payload_authorization p)) = cp_payer_session_public_key cp ∧
  payer_session_public_key (acknowledged_receipt p) = cp_payer_session_public_key cp ∧
  route_epoch (receipt (signed_receipt (acknowledged_receipt p))) = cp_route_epoch cp ∧
  provider_public_key (receipt (signed_receipt (acknowledged_receipt p))) = cp_provider_public_key cp ∧
  accounting_commitment (receipt (signed_receipt (acknowledged_receipt p))) = cp_accounting_commitment cp ∧
  cumulative_charge_wei (receipt (signed_receipt (acknowledged_receipt p))) = cp_cumulative_charge_wei cp.
Proof. unfold validate_settlement_claim_for_checkpoint. case_bool_decide; naive_solver. Qed.

Lemma has_claim_false outbox id :
  has_claim outbox id = false ↔ ∀ s row, outbox !! s = Some row → cr_claim_id row ≠ id.
Proof.
  unfold has_claim. rewrite <- not_true_iff_false, existsb_exists. split.
  - intros Hn s row Hrow Hid. apply Hn. exists (s, row). split; [|by apply bool_decide_eq_true].
    by apply list_elem_of_In, elem_of_map_to_list.
  - intros Hn ([s row] & Hin & Hid). apply bool_decide_eq_true in Hid.
    apply list_elem_of_In, elem_of_map_to_list in Hin. by eapply Hn.
Qed.

Lemma accepted_row start others cs db p cp delta db' :
  books_ok start others cs db → accepted db p cp delta db' →
  ∃ row, claim_ok (receipt_sequence_checkpoint db') (stream_of_checkpoint cp) row ∧
    receipt_settlement_claim_outbox db' = <[stream_of_checkpoint cp := row]> (receipt_settlement_claim_outbox db) ∧
    receipt_settlement_claim_archive db' = delete (cr_claim_id row) (receipt_settlement_claim_archive db) ∧
    match receipt_settlement_claim_outbox db !! stream_of_checkpoint cp with
    | Some stored => cr_claim_id row = cr_claim_id stored
    | None => has_claim (receipt_settlement_claim_outbox db) (cr_claim_id row) = false
    end.
Proof.
  intros Hb Ha. pose proof (validate_claim_Ok _ _ (ac_matches _ _ _ _ _ Ha)) as (Hs1 & Hs2 & He & Hp & Hc & Hcum).
  destruct (ac_claims _ _ _ _ _ Ha) as (id & row & Hid & Hout & Harch & Hpay & Hcharge & Hrow).
  assert (cr_claim_id row = id ∧
    cr_authorization_nonce row = rsp_authorization_nonce (policy (payload_authorization p))) as [Hrid Hnonce].
  { destruct (receipt_settlement_claim_outbox db !! stream_of_checkpoint cp) as [stored|] eqn:Hst;
      [|by destruct Hrow as (? & ? & _)]. destruct Hrow as (-> & -> & Hauth).
    destruct (claims_are_ok _ _ _ _ Hb) as (Hok & _ & _). destruct (Hok _ _ Hst) as (Hd & Hcm & _).
    apply deserialize_Ok in Hd as (_ & Hn & Hstream & Hk & _ & Hcid). injection Hstream as Hse Hsp Hss.
    cbn in Hcm. rewrite Hauth in Hn. split; [|done].
    rewrite (claim_id_same _ p) in Hcid; [congruence|done|congruence..|].
    rewrite Hcm, Hc, <- (ac_commitment _ _ _ _ _ Ha). done. }
  exists row. split_and!; [|done|by rewrite Hrid|].
  - split; [|split].
    + apply deserialize_Ok. rewrite Hpay. split_and!; try congruence. unfold stream_of_checkpoint. congruence.
    + rewrite Hpay, Hc. cbn. by rewrite (ac_commitment _ _ _ _ _ Ha).
    + exists cp. rewrite (ac_checkpoints _ _ _ _ _ Ha), lookup_insert_eq. split; [done|]. lia.
  - destruct (receipt_settlement_claim_outbox db !! stream_of_checkpoint cp);
      [by destruct Hrow|]. rewrite Hrid. by destruct Hrow as (_ & _ & ?).
Qed.

Lemma accepted_grows db p cp delta db' s cp0 :
  accepted db p cp delta db' → receipt_sequence_checkpoint db !! s = Some cp0 →
  ∃ cp', receipt_sequence_checkpoint db' !! s = Some cp' ∧
    cp_cumulative_charge_wei cp0 ≤ cp_cumulative_charge_wei cp'.
Proof.
  intros Ha Hs. rewrite (ac_checkpoints _ _ _ _ _ Ha). pose proof (ac_delta _ _ _ _ _ Ha) as Hd.
  pose proof (ac_grows _ _ _ _ _ Ha). destruct (decide (s = stream_of_checkpoint cp)) as [->|Hne].
  - rewrite Hs in Hd. cbn [from_option] in Hd. exists cp. rewrite lookup_insert_eq. split; [done|lia].
  - exists cp0. by rewrite lookup_insert_ne.
Qed.

Lemma accepted_claims start others cs db p cp delta db' :
  books_ok start others cs db → accepted db p cp delta db' →
  claims_ok (receipt_sequence_checkpoint db') (receipt_settlement_claim_outbox db')
    (receipt_settlement_claim_archive db').
Proof.
  intros Hb Ha. destruct (accepted_row _ _ _ _ _ _ _ _ Hb Ha) as (row & Hrow & -> & -> & Hsame).
  destruct (claims_are_ok _ _ _ _ Hb) as (Hout & Harch & Huniq & Hdisj).
  assert (∀ s r, claim_ok (receipt_sequence_checkpoint db) s r → claim_ok (receipt_sequence_checkpoint db') s r)
    as Hmono. { intros s r. apply claim_ok_mono. intros cp0. by apply (accepted_grows db p cp delta). }
  assert (∀ s r, receipt_settlement_claim_outbox db !! s = Some r → s ≠ stream_of_checkpoint cp →
    cr_claim_id r ≠ cr_claim_id row) as Hfresh.
  { intros s r Hs Hne Heq. destruct (receipt_settlement_claim_outbox db !! stream_of_checkpoint cp)
      as [stored|] eqn:Hst.
    - apply Hne, (Huniq _ _ _ _ Hs Hst). congruence.
    - by eapply has_claim_false. }
  split; [|split; [|split]].
  - apply map_Forall_insert_2; [done|]. intros s r Hs. by apply Hmono, Hout.
  - apply map_Forall_delete. intros id ar Hid. destruct (Harch id ar Hid). by split; [|apply Hmono].
  - intros s s' r r'. rewrite !lookup_insert_Some. intros [[<- <-]|[Hne Hs]] [[<- <-]|[Hne' Hs']] Heq; try done.
    + exfalso. by eapply (Hfresh s').
    + exfalso. by eapply (Hfresh s).
    + by eapply Huniq.
  - intros s r. rewrite lookup_insert_Some. intros [[<- <-]|[Hne Hs]]; [by apply lookup_delete_eq|].
    rewrite lookup_delete_ne; [by eapply Hdisj|]. intros Heq. by apply (Hfresh s r).
Qed.

Lemma accepted_stream db p cp delta db' :
  accepted db p cp delta db' → stream_of_receipt p = stream_of_checkpoint cp.
Proof.
  intros Ha. apply ac_matches, validate_claim_Ok in Ha as (_ & Hs & He & Hp & _).
  unfold stream_of_receipt, stream_of_checkpoint. congruence.
Qed.

Lemma accepted_books start others cs db p cp delta db' :
  books_ok start others cs db → in_u 128 (cp_cumulative_charge_wei cp) → accepted db p cp delta db' →
  books_ok start others (cs ++ [mkCharge (payload_authorization p) (stream_of_receipt p) delta]) db'.
Proof.
  intros Hb Hcp Ha. rewrite (accepted_stream _ _ _ _ _ Ha).
  destruct (accepted_sums _ _ _ _ _ _ _ _ Hb Ha) as (Hspent & Hbal & Hreached).
  split; [| |by eapply accepted_authorized|done|done|done|apply (ac_rows _ _ _ _ _ Ha)|by eapply accepted_claims].
  - rewrite (ac_authorizations _ _ _ _ _ Ha). apply map_Forall_insert_2; [|apply (within_limits _ _ _ _ Hb)].
    cbn [fst snd]. split; [done|]. split; [|apply (ac_limit _ _ _ _ _ Ha)].
    pose proof (ac_grows _ _ _ _ _ Ha).
    destruct (receipt_session_authorization db !! _) as [[a sp]|] eqn:Hst; cbn [from_option]; [|lia].
    apply (within_limits _ _ _ _ Hb) in Hst. cbn in *. lia.
  - rewrite (ac_checkpoints _ _ _ _ _ Ha). apply map_Forall_insert_2; [done|apply (checkpoints_named _ _ _ _ Hb)].
Qed.

(** ** Checkpoints and authorizations written without a receipt *)

Lemma save_checkpoint_books start others cs db cp db' :
  books_ok start others cs db → in_u 128 (cp_cumulative_charge_wei cp) → save_checkpoint db cp = Ok db' →
  books_ok start (others ++ [stream_of_checkpoint cp]) cs db'.
Proof.
  intros [Hl Hn Ha Hsp Ho Hr Hrows Hc] Hcp. unfold save_checkpoint. destruct (match _ with Some _ => _ | None => _ end) as [u|] eqn:Hadv;
    [|done]. cbn [result_bind]. intros [= <-].
  assert (∀ s cp0, receipt_sequence_checkpoint db !! s = Some cp0 →
    ∃ cp', <[stream_of_checkpoint cp := cp]> (receipt_sequence_checkpoint db) !! s = Some cp' ∧
      cp_cumulative_charge_wei cp0 ≤ cp_cumulative_charge_wei cp') as Hgrows.
  { intros s cp0 Hs. rewrite lookup_insert. case_decide as Heq; [subst s|by exists cp0].
    rewrite Hs in Hadv. apply check_advance_Ok in Hadv. exists cp. split; [done|lia]. }
  split; cbn [with_checkpoints receipt_session_authorization receipt_sequence_checkpoint receivable
    receipt_settlement_claim_outbox receipt_settlement_claim_archive]; try done.
  - by apply map_Forall_insert_2.
  - intros s. destruct (Hr s) as [Hle Heq]. unfold reached in *. cbn [with_checkpoints receipt_sequence_checkpoint]. split.
    + destruct (receipt_sequence_checkpoint db !! s) as [cp0|] eqn:Hs.
      * destruct (Hgrows s cp0 Hs) as (cp' & -> & ?). cbn in *. lia.
      * rewrite lookup_insert. case_decide; [|by rewrite Hs]. cbn in *. unfold in_u in Hcp. lia.
    + intros [Hs Hne]%not_elem_of_app. rewrite list_elem_of_singleton in Hne.
      rewrite lookup_insert_ne by congruence. by apply Heq.
  - destruct Hc as (Hout & Harch & Hap). split; [|split; [|done]].
    + intros s row Hs. eapply claim_ok_mono; [apply Hgrows|by apply Hout].
    + intros id ar Hid. destruct (Harch id ar Hid). split; [done|]. by eapply claim_ok_mono; [apply Hgrows|].
Qed.

Lemma save_authorization_books start others cs db a db' :
  books_ok start others cs db → in_u 128 (max_total_charge_wei (policy a)) → save_authorization db a = Ok db' →
  books_ok start others cs db'.
Proof.
  intros [Hl Hn Ha Hsp Ho Hr Hrows Hc] Hmax. unfold save_authorization.
  destruct (receipt_session_authorization db !! rsp_authorization_nonce (policy a)) as [row|] eqn:Hnone; [done|].
  intros [= <-]. split; cbn [with_authorizations receipt_session_authorization receipt_sequence_checkpoint receivable
    receipt_settlement_claim_outbox receipt_settlement_claim_archive]; try done.
  - apply map_Forall_insert_2; [|done]. cbn [fst snd]. unfold in_u in Hmax. split; [done|lia].
  - eapply Forall_impl; [exact Ha|]. cbn beta. unfold dao_authorization. cbn [with_authorizations receipt_session_authorization].
    intros c [Hge Hc']. split; [done|]. rewrite lookup_insert_ne; [done|]. intros Heq. by rewrite <- Heq, Hnone in Hc'.
  - intros nonce. rewrite <- Hsp. unfold spent. cbn [with_authorizations receipt_session_authorization].
    rewrite lookup_insert. case_decide as Heq; [|done]. subst nonce. by rewrite Hnone.
Qed.

(** ** Reconciliation *)

(** Where a claim is: pending ([true]) or archived. *)
Definition claim_view (outbox : gmap Stream ClaimRow) (archive : gmap (list Z) ArchiveRow) (id : list Z)
    : option (Stream * ClaimRow * bool) :=
  match claim_by_id outbox id with
  | Some (s, row) => Some (s, row, true)
  | None => (fun ar => (ar_stream ar, ar_row ar, false)) <$> archive !! id
  end.

(** What the chain's word does to a claim: only whether it is pending. *)
Definition settle (confirmed : Z) (v : Stream * ClaimRow * bool) : Stream * ClaimRow * bool :=
  (v.1, confirmed <? cr_cumulative_charge_wei v.1.2).

Lemma claim_by_id_Some outbox archive id s row :
  claims_apart outbox archive →
  claim_by_id outbox id = Some (s, row) ↔ outbox !! s = Some row ∧ cr_claim_id row = id.
Proof.
  intros [Huniq _]. unfold claim_by_id.
  assert (∀ kv, kv ∈ filter (fun kv : Stream * ClaimRow => cr_claim_id kv.2 = id) (map_to_list outbox) ↔
    outbox !! kv.1 = Some kv.2 ∧ cr_claim_id kv.2 = id) as Hin.
  { intros [s' r']. rewrite list_elem_of_filter, elem_of_map_to_list. cbn. tauto. }
  destruct (filter _ _) as [|kv l] eqn:Hf; cbn [head].
  - split; [done|]. intros Hs. by apply (Hin (s, row)), elem_of_nil in Hs.
  - assert (outbox !! kv.1 = Some kv.2 ∧ cr_claim_id kv.2 = id) as [Hkv Hid] by (apply Hin; left).
    split; [intros [= ->]; by split|]. intros [Hs Hid'].
    assert (kv.1 = s) as Heq by (eapply Huniq; [exact Hkv|exact Hs|congruence]).
    destruct kv as [s0 r0]. cbn in *. congruence.
Qed.

Lemma claim_by_id_ext outbox archive outbox' archive' id :
  claims_apart outbox archive → claims_apart outbox' archive' →
  (∀ s row, cr_claim_id row = id → outbox !! s = Some row ↔ outbox' !! s = Some row) →
  claim_by_id outbox id = claim_by_id outbox' id.
Proof.
  intros Ha Ha' Hext. apply option_eq. intros [s row].
  rewrite (claim_by_id_Some outbox archive), (claim_by_id_Some outbox' archive') by done.
  split; intros [Hs Hid]; (split; [by apply Hext|done]).
Qed.

(** A claim is moved from one table to the other, or back. *)
Lemma archive_claim cps outbox archive s row ar :
  claims_ok cps outbox archive → outbox !! s = Some row → ar_stream ar = s → ar_row ar = row →
  let outbox' := delete s outbox in
  let archive' := <[cr_claim_id row := ar]> archive in
  claims_ok cps outbox' archive' ∧
  ∀ id, claim_view outbox' archive' id =
    if bool_decide (id = cr_claim_id row) then Some (s, row, false) else claim_view outbox archive id.
Proof.
  intros (Hout & Harch & Hap) Hs <- <-. pose proof Hap as [Huniq Hdisj]. cbn zeta.
  set (s := ar_stream ar) in *. set (row := ar_row ar) in *.
  assert (claims_apart (delete s outbox) (<[cr_claim_id row := ar]> archive)) as Hap'.
  { split.
    - intros s1 s2 r1 r2 [_ H1]%lookup_delete_Some [_ H2]%lookup_delete_Some. by apply Huniq.
    - intros s1 r1 [Hne H1]%lookup_delete_Some. rewrite lookup_insert_ne; [by eapply Hdisj|].
      intros Heq. by apply Hne, (Huniq _ _ _ _ Hs H1). }
  split; [split; [by apply map_Forall_delete|split; [|done]]|].
  { apply map_Forall_insert_2; [|done]. split; [done|]. by apply Hout. }
  intros id. unfold claim_view. case_bool_decide as Hid.
  - subst id. rewrite (proj2 (eq_None_not_Some (claim_by_id _ _))).
    { by rewrite lookup_insert_eq. }
    intros [[s1 r1] H1]. apply (claim_by_id_Some _ _ _ _ _ Hap') in H1 as [[Hne H1]%lookup_delete_Some Hid1].
    by apply Hne, (Huniq _ _ _ _ Hs H1).
  - rewrite lookup_insert_ne by done.
    rewrite (claim_by_id_ext (delete s outbox) (<[cr_claim_id row := ar]> archive) outbox archive); try done.
    intros s1 r1 Hr1. rewrite lookup_delete_Some. split; [by intros [_ ?]|]. intros H1. split; [|done].
    intros <-. apply Hid. rewrite Hs in H1. congruence.
Qed.

Lemma restore_claim cps outbox archive ar outbox' :
  claims_ok cps outbox archive → archive !! cr_claim_id (ar_row ar) = Some ar →
  insert_claim outbox (ar_stream ar) (ar_row ar) = Ok outbox' →
  let archive' := delete (cr_claim_id (ar_row ar)) archive in
  claims_ok cps outbox' archive' ∧
  ∀ id, claim_view outbox' archive' id =
    if bool_decide (id = cr_claim_id (ar_row ar)) then Some (ar_stream ar, ar_row ar, true)
    else claim_view outbox archive id.
Proof.
  intros (Hout & Harch & Hap) Har (Hnone & Hfresh & ->)%insert_claim_Ok. pose proof Hap as [Huniq Hdisj].
  cbn zeta. set (s := ar_stream ar) in *. set (row := ar_row ar) in *.
  pose proof (proj1 (has_claim_false _ _) Hfresh) as Hne.
  assert (claims_apart (<[s := row]> outbox) (delete (cr_claim_id row) archive)) as Hap'.
  { split.
    - intros s1 s2 r1 r2. rewrite !lookup_insert_Some. intros [[<- <-]|[_ H1]] [[<- <-]|[_ H2]] Heq; try done.
      + exfalso. by apply (Hne s2 r2).
      + exfalso. by apply (Hne s1 r1).
      + by eapply Huniq.
    - intros s1 r1. rewrite lookup_insert_Some. intros [[<- <-]|[_ H1]]; [by apply lookup_delete_eq|].
      rewrite lookup_delete_ne; [by eapply Hdisj|]. intros Heq. by apply (Hne s1 r1). }
  split; [split; [|split; [by apply map_Forall_delete|done]]|].
  { apply map_Forall_insert_2; [|done]. by apply (Harch _ _ Har). }
  intros id. unfold claim_view. case_bool_decide as Hid.
  - subst id. rewrite (proj2 (claim_by_id_Some _ _ _ s row Hap')); [done|]. by rewrite lookup_insert_eq.
  - rewrite lookup_delete_ne by done.
    rewrite (claim_by_id_ext (<[s := row]> outbox) (delete (cr_claim_id row) archive) outbox archive); try done.
    intros s1 r1 Hr1. rewrite lookup_insert_Some. split; [|intros H1; right].
    + intros [[_ <-]|[_ ?]]; [by destruct Hid|done].
    + split; [|done]. intros <-. congruence.
Qed.

Lemma revalidate_claim cps outbox archive ar ar' :
  claims_ok cps outbox archive → archive !! cr_claim_id (ar_row ar) = Some ar →
  ar_stream ar' = ar_stream ar → ar_row ar' = ar_row ar →
  let archive' := <[cr_claim_id (ar_row ar) := ar']> archive in
  claims_ok cps outbox archive' ∧ ∀ id, claim_view outbox archive' id = claim_view outbox archive id.
Proof.
  intros (Hout & Harch & Huniq & Hdisj) Har Hs Hr. cbn zeta. split; [split; [done|split; [|split; [done|]]]|].
  - apply map_Forall_insert_2; [|done]. rewrite Hs, Hr. by apply (Harch _ _ Har).
  - intros s r H1. rewrite lookup_insert_ne; [by eapply Hdisj|]. intros Heq.
    specialize (Hdisj _ _ H1). rewrite <- Heq in Hdisj. congruence.
  - intros id. unfold claim_view. destruct (claim_by_id outbox id) as [[]|]; [done|].
    destruct (decide (id = cr_claim_id (ar_row ar))) as [->|Hne];
      [rewrite lookup_insert_eq, Har; cbn; by rewrite Hs, Hr|by rewrite lookup_insert_ne].
Qed.

Definition total (o : SettlementReconciliationOutcome) : Z :=
  archived_claim_count o + restored_claim_count o + still_pending_claim_count o
  + revalidated_archive_count o + unknown_claim_count o.

Lemma row_eta id row :
  cr_claim_id row = id →
  mkClaimRow id (cr_authorization_nonce row) (cr_cumulative_charge_wei row) (cr_receipt_payload row)
    (cr_accepted_at row) = row.
Proof. destruct row. by intros <-. Qed.

Lemma deserialized_charge s row q :
  deserialize_settlement_claim s row = Ok q →
  cumulative_charge_wei (receipt (signed_receipt (acknowledged_receipt q))) = cr_cumulative_charge_wei row.
Proof. intros (_ & _ & _ & _ & ? & _)%deserialize_Ok. done. Qed.

Definition tally_ok (cps : gmap Stream ReceiptSequenceCheckpoint) (t : Tally) : Prop :=
  claims_ok cps (t_outbox t) (t_archive t).
Definition tally_view (t : Tally) : list Z → option (Stream * ClaimRow * bool) :=
  claim_view (t_outbox t) (t_archive t).

Lemma reconcile_claim_spec cps ob t c t' :
  tally_ok cps t → reconcile_claim ob t c = Ok t' →
  tally_ok cps t' ∧ total (t_outcome t') = total (t_outcome t) + 1 ∧
  ∀ id, tally_view t' id = if bool_decide (id = cf_claim_id c)
    then settle (cf_cumulative_charge_wei c) <$> tally_view t id else tally_view t id.
Proof.
  destruct t as [outbox archive o]. unfold tally_ok, tally_view, reconcile_claim. cbn [t_outbox t_archive t_outcome].
  intros Hok. pose proof Hok as (_ & Harch & Hap). set (id0 := cf_claim_id c).
  destruct (claim_by_id outbox id0) as [[s row]|] eqn:Hid.
  - pose proof Hid as Hid'. apply (claim_by_id_Some _ _ _ _ _ Hap) in Hid as [Hs Hrid].
    destruct (deserialize_settlement_claim s row) as [q|] eqn:Hq; [|done]. cbn [result_bind].
    rewrite (deserialized_charge _ _ _ Hq). destruct (negb _); [done|]. destruct (_ <? _) eqn:Hlt.
    + intros [= <-]. cbn [t_outbox t_archive t_outcome]. split; [done|]. split; [unfold total; cbn; lia|].
      intros id. case_bool_decide as Hi; [|done]. subst id. unfold claim_view. rewrite Hid'. cbn.
      unfold settle. cbn. by rewrite Hlt.
    + intros [= <-]. cbn [t_outbox t_archive t_outcome].
      destruct (archive_claim cps outbox archive s row (mkArchiveRow s row (cf_cumulative_charge_wei c)
        (observed_block_number ob) (observed_block_hash ob)) Hok Hs eq_refl eq_refl) as [Hok' Hview].
      rewrite <- Hrid. split; [done|]. split; [unfold total; cbn; lia|]. intros id. rewrite Hview.
      case_bool_decide as Hi; [|done]. subst id. unfold claim_view. rewrite Hrid, Hid'. cbn.
      unfold settle. cbn. by rewrite Hlt.
  - assert (claim_view outbox archive id0 = (fun ar => (ar_stream ar, ar_row ar, false)) <$> archive !! id0)
      as Hview0 by (unfold claim_view; by rewrite Hid).
    destruct (archive !! id0) as [ar|] eqn:Har.
    + destruct (Harch _ _ Har) as [Hrid _]. rewrite row_eta by done.
      destruct (deserialize_settlement_claim _ _) as [q|] eqn:Hq; [|done]. cbn [result_bind].
      rewrite (deserialized_charge _ _ _ Hq). destruct (negb _); [done|]. destruct (_ <? _) eqn:Hlt.
      * destruct (insert_claim _ _ _) as [outbox'|] eqn:Hins; [|done]. cbn [result_bind]. intros [= <-].
        cbn [t_outbox t_archive t_outcome]. rewrite <- Hrid in Har |- *.
        destruct (restore_claim cps outbox archive ar outbox' Hok Har Hins) as [Hok' Hview].
        split; [done|]. split; [unfold total; cbn; lia|]. intros id. rewrite Hview.
        case_bool_decide as Hi; [|done]. rewrite Hi, Hrid, Hview0. cbn. unfold settle. cbn. by rewrite Hlt.
      * intros [= <-]. cbn [t_outbox t_archive t_outcome]. rewrite <- Hrid in Har |- *.
        destruct (revalidate_claim cps outbox archive ar (mkArchiveRow (ar_stream ar) (ar_row ar)
          (cf_cumulative_charge_wei c) (observed_block_number ob) (observed_block_hash ob)) Hok Har
          eq_refl eq_refl) as [Hok' Hview].
        split; [done|]. split; [unfold total; cbn; lia|]. intros id. rewrite Hview.
        case_bool_decide as Hi; [|done]. rewrite Hi, Hrid, Hview0. cbn. unfold settle. cbn. by rewrite Hlt.
    + intros [= <-]. cbn [t_outbox t_archive t_outcome]. split; [done|]. split; [unfold total; cbn; lia|].
      intros id. case_bool_decide as Hi; [|done]. subst id. by rewrite Hview0.
Qed.

(** What the observation says of a claim. *)
Fixpoint confirmed (cs : list ConfirmedSettlementClaim) (id : list Z) : option Z :=
  match cs with
  | [] => None
  | c :: cs => if bool_decide (id = cf_claim_id c) then Some (cf_cumulative_charge_wei c) else confirmed cs id
  end.

Lemma confirmed_None cs id : id ∉ map cf_claim_id cs → confirmed cs id = None.
Proof.
  induction cs as [|c cs IH]; [done|]. cbn. intros [? ?]%not_elem_of_cons. rewrite bool_decide_false by done. auto.
Qed.

Lemma reconcile_all_spec cps ob cs t t' :
  NoDup (map cf_claim_id cs) → tally_ok cps t → reconcile_all ob t cs = Ok t' →
  tally_ok cps t' ∧ total (t_outcome t') = total (t_outcome t) + Z.of_nat (length cs) ∧
  ∀ id, tally_view t' id = match confirmed cs id with
    | Some z => settle z <$> tally_view t id
    | None => tally_view t id
    end.
Proof.
  revert t. induction cs as [|c cs IH]; intros t Hnd Hok; cbn [reconcile_all].
  { intros [= <-]. split; [done|]. split; [cbn; lia|done]. }
  destruct (reconcile_claim ob t c) as [t1|] eqn:Hc; [|done]. cbn [result_bind]. intros Hall.
  apply NoDup_cons in Hnd as [Hnin Hnd]. destruct (reconcile_claim_spec cps ob t c t1 Hok Hc) as (Hok1 & Htot & Hview).
  destruct (IH t1 Hnd Hok1 Hall) as (Hok' & Htot' & Hview'). split; [done|]. split; [cbn [length]; lia|].
  intros id. rewrite Hview', Hview. cbn [confirmed]. case_bool_decide as Hid; [|done].
  subst id. by rewrite confirmed_None.
Qed.

Lemma observation_valid_NoDup ob : observation_valid ob = true → NoDup (map cf_claim_id (ob_claims ob)).
Proof. unfold observation_valid. intros [_ H]%andb_true_iff. by apply bool_decide_eq_true in H. Qed.

Lemma reconcile_spec cps db ob outcome db' :
  claims_ok cps (receipt_settlement_claim_outbox db) (receipt_settlement_claim_archive db) →
  reconcile_settlement_claims db ob = Ok (outcome, db') →
  claims_ok cps (receipt_settlement_claim_outbox db') (receipt_settlement_claim_archive db') ∧
  total outcome = Z.of_nat (length (ob_claims ob)) ∧
  (∀ id, claim_view (receipt_settlement_claim_outbox db') (receipt_settlement_claim_archive db') id =
    let before := claim_view (receipt_settlement_claim_outbox db) (receipt_settlement_claim_archive db) id in
    match confirmed (ob_claims ob) id with Some z => settle z <$> before | None => before end) ∧
  db' = with_claims db (receipt_settlement_claim_outbox db') (receipt_settlement_claim_archive db')
          (reconciliation_checkpoint_opt db').
Proof.
  intros Hok. unfold reconcile_settlement_claims. destruct (observation_valid ob) eqn:Hv; [|done]. cbn [negb].
  destruct (observation_follows _ _) as [u|]; [|done]. cbn [result_bind].
  destruct (reconcile_all ob _ _) as [t|] eqn:Hall; [|done]. cbn [result_bind]. intros [= <- <-].
  destruct (reconcile_all_spec cps ob (ob_claims ob) (mkTally _ _ _) t (observation_valid_NoDup _ Hv) Hok Hall)
    as (Hok' & Htot & Hview). cbn. done.
Qed.

(** ** Histories keep the books *)

Lemma books_same start others cs db db' :
  books_ok start others cs db →
  receipt_sequence_checkpoint db' = receipt_sequence_checkpoint db →
  receipt_session_authorization db' = receipt_session_authorization db →
  receivable db' = receivable db →
  claims_ok (receipt_sequence_checkpoint db) (receipt_settlement_claim_outbox db')
    (receipt_settlement_claim_archive db') →
  books_ok start others cs db'.
Proof.
  intros [? ? ? ? ? ? ? ?] Hc Ha Hr ?. split; unfold spent, reached, dao_authorization; by rewrite ?Hc, ?Ha, ?Hr.
Qed.

Lemma books_others start others others' cs db :
  others ⊆ others' → books_ok start others cs db → books_ok start others' cs db.
Proof.
  intros Hsub [? ? ? ? ? Hr ? ?]. split; try done. intros s. destruct (Hr s) as [? Heq]. split; [done|].
  intros Hs. apply Heq. set_solver.
Qed.

Lemma save_offer_tables db state now maximum db' :
  save_routing_offer_state db state now maximum = Ok db' → ∃ t, db' = with_offers db t.
Proof.
  unfold save_routing_offer_state. case_bool_decide; [done|]. cbn zeta.
  destruct (filter _ _ !! _) as [existing|].
  - destruct (deserialize_routing_offer_state _ _ _) as [e|]; [|done]. cbn [result_bind].
    case_bool_decide; [intros [= <-]; by eexists|]. case_bool_decide; [done|]. intros [= <-]. by eexists.
  - destruct (negb _); [done|]. destruct (_ <=? _)%nat; [done|]. intros [= <-]. by eexists.
Qed.

Lemma dao_step_books start others cs op db :
  books_ok start others cs db → op_ok op →
  ∃ db', dao_step op db = Ret db' ∧ books_ok start (others ++ saved_by op) (cs ++ charged_by op db) db'.
Proof.
  intros Hb Hop. destruct op as [p cp t|state now maximum|cp|a|ob|a|]; cbn [dao_step charged_by saved_by];
    rewrite ?(app_nil_r cs), ?(app_nil_r others).
  - destruct (accept_spec start others cs db p cp t Hb Hop) as (r & -> & Hr). cbn [exec_bind]. eexists. split; [done|].
    destruct r as [[delta db']|]; [by eapply accepted_books|by rewrite app_nil_r].
  - eexists. split; [done|]. destruct (save_routing_offer_state _ _ _ _) as [db'|] eqn:Hs; [|done].
    apply save_offer_tables in Hs as [t ->]. eapply books_same; try done. apply Hb.
  - eexists. split; [done|]. destruct (save_checkpoint _ _) as [db'|] eqn:Hs; [by eapply save_checkpoint_books|].
    eapply books_others; [|exact Hb]. set_solver.
  - eexists. split; [done|]. destruct (save_authorization _ _) as [db'|] eqn:Hs; [by eapply save_authorization_books|done].
  - eexists. split; [done|]. destruct (reconcile_settlement_claims _ _) as [[o db']|] eqn:Hs; [|done].
    destruct (reconcile_spec _ _ _ _ _ (claims_are_ok _ _ _ _ Hb) Hs) as (Hok & _ & _ & Hdb').
    rewrite Hdb' in Hok |- *. eapply books_same; done.
  - eexists. split; [done|]. eapply books_same; try done. apply Hb.
  - eexists. split; [done|]. eapply books_same; try done. apply Hb.
Qed.

Lemma dao_run_books start ops : ∀ others cs db,
  books_ok start others cs db → Forall op_ok ops →
  ∃ db', dao_run ops db = Ret db' ∧ books_ok start (others ++ saved ops) (cs ++ charges ops db) db'.
Proof.
  induction ops as [|op ops IH]; intros others cs db Hb Hops.
  { exists db. cbn [saved charges map concat]. by rewrite !app_nil_r. }
  apply Forall_cons in Hops as [Hop Hops]. destruct (dao_step_books start others cs op db Hb Hop) as (db1 & Hs & Hb1).
  cbn [dao_run charges]. unfold saved. cbn [map concat]. fold (saved ops). rewrite Hs. cbn [exec_bind].
  rewrite !app_assoc. by apply IH.
Qed.

(** The tables before the first receipt: only balances from before. *)
Definition empty_books (balances : gmap Address (Z * Z)) : ReceiptDb :=
  mkReceiptDb ∅ ∅ ∅ balances ∅ ∅ None None.

Lemma empty_books_ok balances : map_Forall (fun _ => row_ok) balances → books_ok balances [] [] (empty_books balances).
Proof.
  intros Hr. split; cbn [empty_books receipt_session_authorization receipt_sequence_checkpoint receivable
    receipt_settlement_claim_outbox receipt_settlement_claim_archive].
  - apply map_Forall_empty.
  - apply map_Forall_empty.
  - constructor.
  - done.
  - intros w. cbn. lia.
  - intros s. unfold reached. cbn [empty_books receipt_sequence_checkpoint]. by rewrite lookup_empty.
  - done.
  - split; [apply map_Forall_empty|]. split; [apply map_Forall_empty|]. split; intros *; by rewrite lookup_empty.
Qed.

(** ** Properties *)

(** [C16] Any history of the provider's books, of receipts accepted, offers,
    checkpoints and authorizations saved and reconciliations with the chain, runs
    without panic, and afterwards the books balance against the receipts that
    were accepted: what is spent of each authorization is the sum of the charges
    of the receipts that carried it, all of which carried the very authorization
    that is stored under its nonce, and is no more than its payer allowed,
    however many routes shared it; what each payer owes has grown by the sum of
    the charges of the receipts that name it as the payer; the charges of the
    receipts of each stream come to the total of its checkpoint (to no more than
    it, when the checkpoint was also saved without a receipt); and every claim,
    pending or archived, reads back, is there once, and asks for no more than the
    checkpoint of its stream.  The history starts with balances from before and
    nothing else, and all amounts are 128-bit. *)
Theorem books_balance ops balances :
  map_Forall (fun _ => row_ok) balances → Forall op_ok ops →
  ∃ db, dao_run ops (empty_books balances) = Ret db ∧
    books_ok balances (saved ops) (charges ops (empty_books balances)) db.
Proof. intros Hr Hops. by apply (dao_run_books balances ops [] []); [apply empty_books_ok|]. Qed.

(** A reconciliation with the chain, whenever it is accepted, loses no
    claim, invents none and changes none: a claim the observation names is
    afterwards archived exactly if the chain confirms its whole charge and
    pending otherwise, also if it was archived before; the others are where they
    were; each named claim is counted once. *)
Theorem reconciliation_exact ops balances db ob outcome db' :
  map_Forall (fun _ => row_ok) balances → Forall op_ok ops →
  dao_run ops (empty_books balances) = Ret db →
  reconcile_settlement_claims db ob = Ok (outcome, db') →
  total outcome = Z.of_nat (length (ob_claims ob)) ∧
  ∀ id, claim_view (receipt_settlement_claim_outbox db') (receipt_settlement_claim_archive db') id =
    let before := claim_view (receipt_settlement_claim_outbox db) (receipt_settlement_claim_archive db) id in
    match confirmed (ob_claims ob) id with Some z => settle z <$> before | None => before end.
Proof.
  intros Hr Hops Hrun Hrec. destruct (dao_run_books balances ops [] [] _ (empty_books_ok _ Hr) Hops) as (db1 & Hrun1 & Hb).
  rewrite Hrun in Hrun1. injection Hrun1 as <-.
  destruct (reconcile_spec _ _ _ _ _ (claims_are_ok _ _ _ _ Hb) Hrec) as (_ & ? & ? & _). done.
Qed.
End Books.

(** ** A concrete history

    The authorization of a second payer is saved, and a checkpoint without a
    receipt; two streams of one session, the first twice; a stream of the second
    payer; more streams of the first until the limit of the session refuses one;
    then the chain confirms the second receipt of the first stream, and takes it
    back. *)

Module SampleBooks.
#[local] Existing Instances sample_ethsign sample_cbor sample_settlement_cbor.

Definition start : gmap Address (Z * Z) := {[ repeat 3 20 := (0, 1000) ]}.
Definition other_session : AuthorizedReceiptSession :=
  mkAuthorizedSession (session_policy_new 137 (repeat 2 20) (repeat 4 20) (public_key sample_payer) 300 100 400
    (repeat 9 32)) (mkSignature 0 (repeat 1 32) sample_secret).
Definition first_for (session : AuthorizedReceiptSession) (epoch : list Z) : DaoOp :=
  let ack := sample_ack (first_receipt epoch sample_provider sample_payer sample_first) in
  AcceptReceipt (mkReceiptPayload session ack) (checkpoint_of (ack_receipt ack) [4; 5]) 200.
Definition first_of : list Z → DaoOp := first_for sample_session.
Definition other_epoch : list Z := repeat 10 32.
Definition loose_checkpoint : ReceiptSequenceCheckpoint :=
  checkpoint_of (ack_receipt (sample_ack (first_receipt (repeat 11 32) sample_provider sample_payer sample_first))) [4; 5].
Definition later : DaoOp :=
  AcceptReceipt (mkReceiptPayload sample_session (default sample_ack0 (list.last sample_acks))) sample_cp 210.
Definition claim_of_first : list Z := keccak256 (SETTLEMENT_CLAIM_ID_DOMAIN ++ sample_epoch).
Definition observe (confirmed_wei block : Z) : SettlementChainObservation :=
  mkObservation 137 (repeat 2 20) 10 (block + 10) block (repeat 7 32)
    [mkConfirmed claim_of_first confirmed_wei; mkConfirmed [1] 5].
Definition ops : list DaoOp :=
  [SaveAuthorization other_session; SaveCheckpoint loose_checkpoint;
   first_of sample_epoch; later; later; first_for other_session other_epoch; first_of (repeat 5 32); first_of (repeat 6 32);
   first_of (repeat 7 32); first_of (repeat 8 32); Reconcile (observe 335 100)].

Definition seen (e : exec ReceiptDb) : option (list Z * list Z * nat * nat * list Z) :=
  match e with
  | Ret db => Some (map (spent db) [repeat 8 32; repeat 9 32],
      map (fun r => cp_cumulative_charge_wei r.2) (map_to_list (receipt_sequence_checkpoint db)),
      size (receipt_settlement_claim_outbox db), size (receipt_settlement_claim_archive db),
      map (balance (receivable db)) [repeat 3 20; repeat 4 20])
  | Panic => None
  end.

Lemma ops_seen :
  seen (dao_run ops (empty_books start)) = Some ([965; 210], [210; 210; 210; 210; 210; 335], 4%nat, 1%nat, [1965; 210]).
Proof. by vm_compute. Qed.
Lemma ops_charged :
  map (fun c => (nonce_of c, ch_wei c)) (charges ops (empty_books start)) =
  [(repeat 8 32, 210); (repeat 8 32, 125); (repeat 9 32, 210); (repeat 8 32, 210); (repeat 8 32, 210); (repeat 8 32, 210)].
Proof. by vm_compute. Qed.
Lemma ops_ok : Forall op_ok ops.
Proof. repeat constructor; by vm_compute. Qed.
Lemma start_ok : map_Forall (fun _ => row_ok) start.
Proof. apply map_Forall_singleton. by split; vm_compute. Qed.

Lemma books_balance_witness :
  ∃ db, dao_run ops (empty_books start) = Ret db ∧
    books_ok start (saved ops) (charges ops (empty_books start)) db ∧
    map (balance (receivable db)) [repeat 3 20; repeat 4 20] = [1965; 210].
Proof.
  destruct (books_balance ops start start_ok ops_ok) as (db & Hrun & Hb). exists db.
  split; [exact Hrun|]. split; [exact Hb|].
  pose proof ops_seen as Hs. rewrite Hrun in Hs. apply (f_equal (option_map snd)) in Hs.
  cbn [seen option_map snd] in Hs. congruence.
Defined.

(** After the history the chain confirms less than before: the archived claim
    is pending again. *)
Definition taken_back (db : ReceiptDb) : option (Z * option bool) :=
  match reconcile_settlement_claims db (observe 200 101) with
  | Ok (o, db') => Some (restored_claim_count o,
      (fun v => v.2) <$> claim_view (receipt_settlement_claim_outbox db')
                           (receipt_settlement_claim_archive db') claim_of_first)
  | Err _ => None
  end.
Lemma taken_back_seen :
  match dao_run ops (empty_books start) with Ret db => taken_back db | Panic => None end = Some (1, Some true).
Proof. by vm_compute. Qed.

Lemma reconciliation_exact_witness :
  ∃ db outcome db', dao_run ops (empty_books start) = Ret db ∧
    reconcile_settlement_claims db (observe 200 101) = Ok (outcome, db') ∧
    total outcome = 2 ∧ restored_claim_count outcome = 1.
Proof.
  pose proof taken_back_seen as Hs. destruct (dao_run ops (empty_books start)) as [db|] eqn:Hrun; [|done].
  unfold taken_back in Hs. destruct (reconcile_settlement_claims db (observe 200 101)) as [[o db']|] eqn:Hrec; [|done].
  exists db, o, db'. split; [done|]. split; [exact Hrec|].
  destruct (reconciliation_exact ops start db (observe 200 101) o db' start_ok ops_ok Hrun Hrec) as [Ht _].
  split; [exact Ht|]. injection Hs as Hs _. exact Hs.
Defined.
End SampleBooks.
