(* ===== verification/Hopper.v ===== *)
(** * Hopper: sending, relaying and delivering packages

    [hopper/consuming_service.rs] turns a package of another actor into a live
    one and sends it off; [hopper/routing_service.rs] receives live packages
    from the network, checks who pays, passes them on or hands them to the actor
    they are for, and, for routes that are metered, offers the payer a receipt
    and accepts the receipts that come back.  [hopper/mod.rs] dispatches to the
    two.  The durable state is [ReceiptDb]. *)

From stdpp Require Import base list numbers option strings gmap.
From Stdlib Require Import ZArith Lia.
From S2P Require Import Prelude CryptDE Wallet ServiceReceipt ReceiptSettlement Route NodeRecord.
From S2P Require Import GossipAcceptor Gossip VersionedData Migrations CoresPackage ReceiptDao.

Local Open Scope Z_scope.
Local Open Scope rust_scope.
Local Open Scope list_scope.

Definition MAX_ROUTING_RECEIPT_OFFERS_PER_PACKAGE : nat := 64.
Definition MAX_ROUTING_RECEIPT_SESSION_STATES : nat := 4096.

(** ** Data *)

Inductive Endpoint := EpKey (k : PublicKey) | EpSocket (a : SocketAddr).

Record TransmitDataMsg := mkTransmit {
  tx_endpoint : Endpoint;
  tx_last_data : bool;
  tx_sequence_number_opt : option Z;
  tx_data : list Z;
}.

Record InboundClientData := mkInbound {
  ib_timestamp : Z;
  ib_client_addr : SocketAddr;
  ib_reception_port_opt : option Z;
  ib_last_data : bool;
  ib_is_clandestine : bool;
  ib_sequence_number_opt : option Z;
  ib_data : list Z;
}.

Record ReportRoutingServiceProvidedMessage := mkRoutingReport {
  rrs_timestamp : Z;
  rrs_paying_wallet : WalletKind;
  rrs_payload_size : nat;
  rrs_service_rate : Z;
  rrs_byte_rate : Z;
}.

Record ServiceReceiptOfferPayload_0v1 := mkOfferPayload { offer_signed_receipt : SignedServiceReceipt }.
Record MeteredClientResponsePayload_0v1 := mkMetered {
  metered_response : ClientResponsePayload_0v1;
  metered_receipt_offer : ServiceReceiptOfferPayload_0v1;
}.

(** What is sent, to whom. *)
Inductive HopperOut :=
| ToDispatcher (m : TransmitDataMsg)
| ToHopper (d : InboundClientData)
| ToAccountantRouting (r : ReportRoutingServiceProvidedMessage)
| ToProxyClient (p : ExpiredCoresPackage ClientRequestPayload_0v1)
| ToProxyServerResponse (p : ExpiredCoresPackage ClientResponsePayload_0v1)
| ToProxyServerMetered (p : ExpiredCoresPackage MeteredClientResponsePayload_0v1)
| ToProxyServerDnsFailure (p : ExpiredCoresPackage DnsResolveFailure_0v1)
| ToProxyServerOffer (p : ExpiredCoresPackage ServiceReceiptOfferPayload_0v1)
| ToNeighborhoodGossip (p : ExpiredCoresPackage Gossip_0v1)
| ToNeighborhoodFailure (p : ExpiredCoresPackage GossipFailure_0v1).

Record ReceiptContext := mkReceiptContext {
  rc_dao : ReceiptDb;
  ctx_chain_id : Z;
  ctx_settlement_contract : Address;
}.

(** [banned] is the content of the cache of delinquent wallets, which holds
    address wallets only; [rs_digest] is the digest of the main [CryptDE]. *)
Record RoutingService := mkRoutingService {
  rs_main : CryptDE;
  rs_alias : CryptDE;
  rs_digest : list Z;
  proxy_client_running : bool;
  per_routing_service : Z;
  per_routing_byte : Z;
  rs_is_decentralized : bool;
  service_receipt_context_opt : option ReceiptContext;
  banned : gset Address;
}.

Definition with_context (rs : RoutingService) (ctx : option ReceiptContext) : RoutingService :=
  mkRoutingService (rs_main rs) (rs_alias rs) (rs_digest rs) (proxy_client_running rs)
    (per_routing_service rs) (per_routing_byte rs) (rs_is_decentralized rs) ctx (banned rs).

(** [RoutingService::new] and [enable_service_receipts] *)
Definition routing_service_new (main alias : CryptDE) (digest : list Z) (proxy_client : bool)
    (per_service per_byte : Z) (decentralized : bool) (bans : gset Address) : RoutingService :=
  mkRoutingService main alias digest proxy_client per_service per_byte decentralized None bans.
Definition enable_service_receipts (rs : RoutingService) (dao : ReceiptDb) (chain_id : Z) (contract : Address)
    : RoutingService := with_context rs (Some (mkReceiptContext dao chain_id contract)).

(** What a handler reads from outside: the clock, in seconds, and the random
    bytes of its encryptions. *)
Record HopperEnv := mkHopperEnv { he_now : Z; he_rand : nat → list Z }.

(** [serde_cbor] on the payloads, and on values of later versions. *)
Class PayloadCbor := {
  de_value : list Z → result Value string;
  ser_client_request : ClientRequestPayload_0v1 → result (list Z) string;
  de_client_request : list Z → result ClientRequestPayload_0v1 string;
  ser_client_response : ClientResponsePayload_0v1 → result (list Z) string;
  de_client_response : list Z → result ClientResponsePayload_0v1 string;
  ser_dns_failure : DnsResolveFailure_0v1 → result (list Z) string;
  de_dns_failure : list Z → result DnsResolveFailure_0v1 string;
  ser_gossip : Gossip_0v1 → result (list Z) string;
  de_gossip : list Z → result Gossip_0v1 string;
  ser_gossip_failure : GossipFailure_0v1 → result (list Z) string;
  de_gossip_failure : list Z → result GossipFailure_0v1 string;
  ser_offer : ServiceReceiptOfferPayload_0v1 → result (list Z) string;
  de_offer : list Z → result ServiceReceiptOfferPayload_0v1 string;
  de_receipt : list Z → result ServiceReceiptPayload_0v1 string;
  de_metered : list Z → result MeteredClientResponsePayload_0v1 string;
}.

Section Hopper.
Context `{E : Ethsign} `{C : Cbor} `{SC : SettlementCbor} `{HC : HopCbor} `{PC : PackageCbor}.
Context `{VR : ValueReader} `{VO : VersionOrder} `{PY : PayloadCbor}.

(** [From<X> for MessageType] *)
Definition client_request_message (x : ClientRequestPayload_0v1) : exec MessageType :=
  let* ms := client_request_migrations de_value ser_client_request in
  let* vd := versioned_new ser_client_request ms x in
  Ret (MtClientRequest vd).
Definition client_response_message (x : ClientResponsePayload_0v1) : exec MessageType :=
  let* ms := client_response_migrations de_value ser_client_response in
  let* vd := versioned_new ser_client_response ms x in
  Ret (MtClientResponse vd).

(** ** The consuming service *)

Definition launch_lcp (encrypted_package : CryptData) (next_stop : Endpoint) : HopperOut :=
  ToDispatcher (mkTransmit next_stop false None encrypted_package).

Definition loopback : SocketAddr := mkSocket (CountryFinder.IpV4 (127 * 2 ^ 24 + 1)) 0.
Definition zero_hop (now : Z) (encrypted_package : CryptData) : HopperOut :=
  ToHopper (mkInbound now loopback None false true None encrypted_package).

(** [consume_no_lookup]: [socket_addrs[0]] panics without a port. *)
Definition consume_no_lookup (cryptde : CryptDE) (env : HopperEnv) (p : NoLookupIncipientCoresPackage)
    : exec (list HopperOut) :=
  let* live := from_no_lookup_incipient p cryptde (he_rand env) in
  match live with
  | Err _ => Ret []
  | Ok (live_package, _) =>
      let* encrypted := encodex cbor_live cryptde (he_rand env 3%nat) (nl_public_key p) live_package in
      match encrypted with
      | Err _ => Ret []
      | Ok encrypted_package =>
          let* addr := expect (head (socket_addrs (nl_node_addr p))) in
          Ret [launch_lcp encrypted_package (EpSocket addr)]
      end
  end.

Definition consume (cryptde : CryptDE) (env : HopperEnv) (p : IncipientCoresPackage) : exec (list HopperOut) :=
  let* live := from_incipient p cryptde (he_rand env 0%nat) in
  match live with
  | Err _ => Ret []
  | Ok (live_package, next_hop) =>
      let* encrypted := encodex cbor_live cryptde (he_rand env 1%nat) (hop_public_key next_hop) live_package in
      match encrypted with
      | Err _ => Ret []
      | Ok encrypted_package =>
          if bool_decide (hop_public_key next_hop = public_key cryptde)
          then Ret [zero_hop (he_now env) encrypted_package]
          else Ret [launch_lcp encrypted_package (EpKey (hop_public_key next_hop))]
      end
  end.

(** ** Payers *)

(** [Payer::is_delinquent], [BannedCache::is_banned] *)
Definition is_delinquent (rs : RoutingService) (p : Payer) : exec bool :=
  let* a := address (payer_wallet p) in Ret (bool_decide (a ∈ banned rs)).

(** ** Payloads *)

(** [X::try_from(vd)] *)
Definition read_payload {T} (de : list Z → result T string) (table : exec Migrations) (vd : VersionedData)
    : fallible T MigrationError :=
  let* ms := table in
  let* (r, _) := extract de ms vd in
  Ret r.

Definition with_payload {S T} (p : ExpiredCoresPackage S) (payload : T) : ExpiredCoresPackage T :=
  mkExpired (immediate_neighbor p) (paying_wallet p) (remaining_route p) payload (payload_len p)
    (ecp_routing_receipt_offers p).

(** A payload that cannot be read is dropped. *)
Definition forward {S T} (rs : RoutingService) (p : ExpiredCoresPackage S) (payload : fallible T MigrationError)
    (send : ExpiredCoresPackage T → HopperOut) : exec (RoutingService * list HopperOut) :=
  let* r := payload in
  match r with
  | Ok x => Ret (rs, [send (with_payload p x)])
  | Err _ => Ret (rs, [])
  end.

(** ** Receipts that come back *)

(** The checkpoint an acknowledged receipt leads to. *)
Definition next_checkpoint (rs : RoutingService) (ctx : ReceiptContext) (payload : ServiceReceiptPayload_0v1)
    : fallible ReceiptSequenceCheckpoint ServiceReceiptError :=
  let ack := acknowledged_receipt payload in
  let r := receipt (signed_receipt ack) in
  match dao_checkpoint (rc_dao ctx) (route_epoch r, provider_public_key r, payer_session_public_key ack) with
  | Some checkpoint =>
      let! res := advance_for_settlement checkpoint ack (rs_main rs) in Ret (Ok (fst res))
  | None => begin_for_settlement ack (rs_main rs)
  end.

(** [accept_service_receipt] *)
Definition accept_service_receipt (rs : RoutingService) (env : HopperEnv) (payload : ServiceReceiptPayload_0v1)
    : exec RoutingService :=
  match service_receipt_context_opt rs with
  | None => Ret rs
  | Some ctx =>
      let ack := acknowledged_receipt payload in
      if negb (bool_decide (provider_public_key (receipt (signed_receipt ack)) = public_key (rs_main rs)))
      then Ret rs
      else
        let* verified := verify_for_receipt (payload_authorization payload) ack (rs_main rs)
                           (ctx_chain_id ctx) (ctx_settlement_contract ctx) (he_now env) in
        match verified with
        | Err _ => Ret rs
        | Ok _ =>
            let* checkpoint := next_checkpoint rs ctx payload in
            match checkpoint with
            | Err _ => Ret rs
            | Ok cp =>
                let* accepted := accept_verified_receipt (rc_dao ctx) payload cp (he_now env) in
                match accepted with
                | Err _ => Ret rs
                | Ok (_, dao) =>
                    Ret (with_context rs (Some (mkReceiptContext dao (ctx_chain_id ctx)
                                                  (ctx_settlement_contract ctx))))
                end
            end
        end
  end.

(** ** Delivery at this node *)

(** [route_expired_package] *)
Definition route_expired_package (rs : RoutingService) (env : HopperEnv) (c : Component)
    (p : ExpiredCoresPackage MessageType) (payer_owns_secret_key : bool)
    : exec (RoutingService * list HopperOut) :=
  match c, ecp_payload p with
  | ProxyClient, MtClientRequest vd =>
      if negb (rs_is_decentralized rs) || payer_owns_secret_key then
        if proxy_client_running rs then
          forward rs p (read_payload de_client_request (client_request_migrations de_value ser_client_request) vd)
            ToProxyClient
        else Ret (rs, [])
      else Ret (rs, [])
  | ProxyServer, MtClientResponse vd =>
      forward rs p (read_payload de_client_response (client_response_migrations de_value ser_client_response) vd)
        ToProxyServerResponse
  | ProxyServer, MtMeteredClientResponse vd =>
      forward rs p (read_payload de_metered (Ret receipt_migrations) vd) ToProxyServerMetered
  | ProxyServer, MtDnsResolveFailed vd =>
      forward rs p (read_payload de_dns_failure (dns_failure_migrations de_value ser_dns_failure) vd)
        ToProxyServerDnsFailure
  | Neighborhood, MtGossip vd =>
      forward rs p (read_payload de_gossip (gossip_migrations de_value ser_gossip) vd) ToNeighborhoodGossip
  | Neighborhood, MtGossipFailure vd =>
      forward rs p (read_payload de_gossip_failure (gossip_failure_migrations de_value ser_gossip_failure) vd)
        ToNeighborhoodFailure
  | ProxyServer, MtServiceReceiptOffer vd =>
      forward rs p (read_payload de_offer (Ret receipt_migrations) vd) ToProxyServerOffer
  | Hopper, MtServiceReceipt vd =>
      let* r := read_payload de_receipt (Ret receipt_migrations) vd in
      match r with
      | Ok payload => let* rs := accept_service_receipt rs env payload in Ret (rs, [])
      | Err _ => Ret (rs, [])
      end
  | _, _ => Ret (rs, [])
  end.

(** [extract_expired_package] and [route_data_to_peripheral_component] *)
Definition extract_expired_package (rs : RoutingService) (immediate_neighbor_addr : SocketAddr)
    (live_package : LiveCoresPackage) (c : Component) : fallible (ExpiredCoresPackage MessageType) CodexError :=
  to_expired live_package immediate_neighbor_addr (rs_main rs)
    (match c with ProxyServer => rs_alias rs | _ => rs_main rs end).
Definition route_data_to_peripheral_component (rs : RoutingService) (env : HopperEnv) (c : Component)
    (immediate_neighbor_addr : SocketAddr) (live_package : LiveCoresPackage) (owns : bool)
    : exec (RoutingService * list HopperOut) :=
  let* expired := extract_expired_package rs immediate_neighbor_addr live_package c in
  match expired with
  | Err _ => Ret (rs, [])
  | Ok p => route_expired_package rs env c p owns
  end.

(** [route_data_around_again] *)
Definition route_data_around_again (rs : RoutingService) (env : HopperEnv) (live_package : LiveCoresPackage)
    (ibcd : InboundClientData) : exec (RoutingService * list HopperOut) :=
  let* next := into_next_live live_package (rs_main rs) (he_rand env 0%nat) in
  match next with
  | Err _ => Ret (rs, [])
  | Ok (_, next_lcp) =>
      let* payload := encodex cbor_live (rs_main rs) (he_rand env 1%nat) (public_key (rs_main rs)) next_lcp in
      match payload with
      | Err _ => Panic
      | Ok payload =>
          Ret (rs, [ToHopper (mkInbound (ib_timestamp ibcd) (ib_client_addr ibcd) (ib_reception_port_opt ibcd)
                      (ib_last_data ibcd) (ib_is_clandestine ibcd) (ib_sequence_number_opt ibcd) payload)])
      end
  end.

(** [route_data_internally] *)
Definition route_data_internally (rs : RoutingService) (env : HopperEnv) (next_hop : LiveHop)
    (immediate_neighbor_addr : SocketAddr) (live_package : LiveCoresPackage) (ibcd : InboundClientData)
    : exec (RoutingService * list HopperOut) :=
  match component next_hop with
  | Hopper => route_data_around_again rs env live_package ibcd
  | c =>
      let* delinquent := match payer next_hop with
                         | None => Ret false
                         | Some p => is_delinquent rs p
                         end in
      if delinquent then Ret (rs, [])
      else
        let* owns := payer_owns_secret_key next_hop (rs_digest rs) in
        route_data_to_peripheral_component rs env c immediate_neighbor_addr live_package owns
  end.

(** ** Passing on *)

(** [to_transmit_data_msg] *)
Definition to_transmit_data_msg (rs : RoutingService) (env : HopperEnv) (live_package : LiveCoresPackage)
    (last_data : bool) : fallible TransmitDataMsg CodexError :=
  let! next := into_next_live live_package (rs_main rs) (he_rand env 0%nat) in
  let '(next_hop, next_live_package) := next in
  let! encrypted := encodex cbor_live (rs_main rs) (he_rand env 1%nat) (hop_public_key next_hop)
                      next_live_package in
  Ret (Ok (mkTransmit (EpKey (hop_public_key next_hop)) last_data None encrypted)).

(** The receipt a metered route is offered: a new one, the next one if the last
    was acknowledged, or the last again. *)
Definition next_signed_receipt (rs : RoutingService) (request : ReceiptSessionRequest) (payload_size : Z)
    (state_opt : option RoutingReceiptOfferState) (checkpoint_opt : option ReceiptSequenceCheckpoint)
    : fallible (SignedServiceReceipt * bool) string :=
  let provider := public_key (rs_main rs) in
  let session := rsp_payer_session_public_key (policy (authorization request)) in
  match state_opt with
  | Some state =>
      let previous := receipt (last_signed_receipt state) in
      if negb (bool_decide
        (os_authorization_nonce state = rsp_authorization_nonce (policy (authorization request)) ∧
         os_payer_session_public_key state = session ∧
         os_expires_at_unix_s state = rsp_expires_at_unix_s (policy (authorization request)) ∧
         route_epoch previous = rsr_route_epoch request ∧ provider_public_key previous = provider ∧
         accounting_commitment previous = rsr_accounting_commitment request ∧
         service_kind previous = Routing ∧ service_rate previous = per_routing_service rs ∧
         byte_rate previous = per_routing_byte rs))
      then Ret (Err "durable routing receipt identity changed"%string)
      else
        let! _ := map_err_fallible (fun _ => "durable routing receipt signature is invalid"%string)
                    (signed_verify (last_signed_receipt state) (rs_main rs)) in
        match checkpoint_opt with
        | None => Ret (Ok (last_signed_receipt state, false))
        | Some cp =>
            if (last_sequence cp =? sequence previous)
               && (cp_cumulative_charge_wei cp =? cumulative_charge_wei previous) then
              let! next_sequence := Ret (ok_or (checked_add 64 (sequence previous) 1)
                                          "routing receipt sequence exhausted"%string) in
              let! r := Ret (map_err (fun _ => "cannot advance routing receipt"%string)
                          (next_for_same_route previous next_sequence Routing payload_size
                             (per_routing_service rs) (per_routing_byte rs))) in
              let! signed := Ret (map_err (fun _ => "cannot sign routing receipt"%string)
                               (sign_receipt r (rs_main rs))) in
              Ret (Ok (signed, true))
            else if (last_sequence cp <? sequence previous)
                    && (cp_cumulative_charge_wei cp <? cumulative_charge_wei previous)
            then Ret (Ok (last_signed_receipt state, false))
            else Ret (Err "routing acknowledgement is inconsistent with durable offer"%string)
        end
  | None =>
      match checkpoint_opt with
      | Some _ => Ret (Err "routing acknowledgement exists without durable offer state"%string)
      | None =>
          let! signed := Ret (map_err (fun _ => "cannot sign routing receipt"%string)
            (sign_receipt (receipt_new (rsr_route_epoch request) 1 Routing provider
               (rsr_accounting_commitment request) payload_size (per_routing_service rs)
               (per_routing_byte rs)) (rs_main rs))) in
          Ret (Ok (signed, true))
      end
  end.

(** [make_routing_receipt_offer], with the tables it leaves *)
Definition make_routing_receipt_offer (rs : RoutingService) (env : HopperEnv) (request : ReceiptSessionRequest)
    (payload_size : nat) : fallible (CryptData * RoutingService) string :=
  match service_receipt_context_opt rs with
  | None => Ret (Err "service-receipt settlement is disabled"%string)
  | Some ctx =>
      let auth := policy (authorization request) in
      let session := rsp_payer_session_public_key auth in
      let provider := public_key (rs_main rs) in
      let s := (rsr_route_epoch request, provider, session) in
      let! _ := Ret (map_err (fun _ => "invalid receipt authorization"%string)
                  (session_request_verify request (ctx_chain_id ctx) (ctx_settlement_contract ctx)
                     (he_now env))) in
      let! state_opt := Ret (map_err (fun _ => "cannot load durable routing receipt"%string)
                          (dao_routing_offer_state (rc_dao ctx) (rsp_authorization_nonce auth) s)) in
      let checkpoint_opt := dao_checkpoint (rc_dao ctx) s in
      if match checkpoint_opt with
         | Some cp => negb (bool_decide (stream_of_checkpoint cp = s ∧
                        cp_accounting_commitment cp = rsr_accounting_commitment request))
         | None => false
         end
      then Ret (Err "durable routing acknowledgement identity changed"%string)
      else
        let! res := next_signed_receipt rs request (Z.of_nat payload_size) state_opt checkpoint_opt in
        let '(signed, persist_new_state) := res in
        let! _ := Ret (map_err (fun _ => "routing receipt exceeds authorization"%string)
                    (session_verify (authorization request) (ctx_chain_id ctx) (ctx_settlement_contract ctx)
                       session (he_now env) (cumulative_charge_wei (receipt signed)))) in
        let! encrypted_offer := map_err_fallible (fun _ => "cannot encrypt routing receipt"%string)
                    (encodex ser_offer (rs_main rs) (he_rand env 2%nat) session (mkOfferPayload signed)) in
        if persist_new_state then
          let! dao := Ret (map_err (fun _ => "cannot persist routing receipt"%string)
            (save_routing_offer_state (rc_dao ctx)
               (mkOfferState (rsp_authorization_nonce auth) session (rsp_expires_at_unix_s auth) signed)
               (he_now env) MAX_ROUTING_RECEIPT_SESSION_STATES)) in
          Ret (Ok (encrypted_offer, with_context rs (Some (mkReceiptContext dao (ctx_chain_id ctx)
                                                             (ctx_settlement_contract ctx)))))
        else Ret (Ok (encrypted_offer, rs))
  end.

(** The end of [route_data_externally] *)
Definition transmit (rs : RoutingService) (env : HopperEnv) (live_package : LiveCoresPackage) (last_data : bool)
    (out : list HopperOut) : exec (RoutingService * list HopperOut) :=
  let* m := to_transmit_data_msg rs env live_package last_data in
  match m with
  | Ok m => Ret (rs, out ++ [ToDispatcher m])
  | Err _ => Ret (rs, out)
  end.

(** [route_data_externally] *)
Definition route_data_externally (rs : RoutingService) (env : HopperEnv) (live_package : LiveCoresPackage)
    (payer_opt : option Payer) (request_opt : option ReceiptSessionRequest) (last_data : bool)
    : exec (RoutingService * list HopperOut) :=
  let payload_size := length (lcp_payload live_package) in
  match payer_opt with
  | None => Ret (rs, [])
  | Some p =>
      let* owns := owns_secret_key p (rs_digest rs) in
      if negb owns then Ret (rs, [])
      else
        let* delinquent := is_delinquent rs p in
        if delinquent then Ret (rs, [])
        else
          match request_opt with
          | Some request =>
              let* wallet := address (payer_wallet p) in
              if negb (bool_decide (payer_wallet_address (policy (authorization request)) = wallet))
              then Ret (rs, [])
              else if (MAX_ROUTING_RECEIPT_OFFERS_PER_PACKAGE
                         <=? length (lcp_routing_receipt_offers live_package))%nat
              then Ret (rs, [])
              else
                let* offer := make_routing_receipt_offer rs env request payload_size in
                match offer with
                | Err _ => Ret (rs, [])
                | Ok (encrypted_offer, rs) =>
                    transmit rs env
                      (live_with_offers live_package (lcp_routing_receipt_offers live_package ++ [encrypted_offer]))
                      last_data []
                end
          | None =>
              transmit rs env live_package last_data
                [ToAccountantRouting (mkRoutingReport (he_now env) (payer_wallet p) payload_size
                   (per_routing_service rs) (per_routing_byte rs))]
          end
  end.

(** ** [route] *)

Definition is_destined_for_here (rs : RoutingService) (next_hop : LiveHop) : bool :=
  bool_decide (hop_public_key next_hop = public_key (rs_main rs)).

Definition route_data (rs : RoutingService) (env : HopperEnv) (sender_addr : SocketAddr) (next_hop : LiveHop)
    (live_package : LiveCoresPackage) (last_data : bool) (ibcd : InboundClientData)
    : exec (RoutingService * list HopperOut) :=
  if bool_decide (component next_hop = Hopper) && negb (is_destined_for_here rs next_hop)
  then route_data_externally rs env live_package (payer next_hop) (routing_receipt_request_opt next_hop) last_data
  else route_data_internally rs env next_hop sender_addr live_package ibcd.

(** [clone_but_data] *)
Definition clone_but_data (now : Z) (d : InboundClientData) : InboundClientData :=
  mkInbound now (ib_client_addr d) (ib_reception_port_opt d) (ib_last_data d) (ib_is_clandestine d)
    (ib_sequence_number_opt d) [].

Definition route (rs : RoutingService) (env : HopperEnv) (ibcd : InboundClientData)
    : exec (RoutingService * list HopperOut) :=
  let* live := decodex uncbor_live (rs_main rs) (ib_data ibcd) in
  match live with
  | Err _ => Ret (rs, [])
  | Ok live_package =>
      let* hop := next_hop (lcp_route live_package) (rs_main rs) in
      match hop with
      | Err _ => Ret (rs, [])
      | Ok next_hop =>
          route_data rs env (ib_client_addr ibcd) next_hop live_package (ib_last_data ibcd)
            (clone_but_data (he_now env) ibcd)
      end
  end.
End Hopper.
