(* ===== verification/HopperDelivery.v ===== *)
(** * HopperDelivery: a request reaches the exit, and its response the origin

    The hoppers of the nodes on a round-trip route, each with its own keys
    only, carry a request to the proxy client of the exit node and the response
    back to the proxy server of the origin. *)

From stdpp Require Import base list numbers option strings gmap.
From Stdlib Require Import ZArith Lia.
From S2P Require Import Prelude CryptDE Wallet ServiceReceipt ReceiptSettlement Route NodeRecord.
From S2P Require Import VersionedData Migrations CoresPackage ReceiptDao Hopper.

Local Open Scope Z_scope.
Local Open Scope rust_scope.
Local Open Scope list_scope.

(** What is written reads back the same. *)
Class PayloadCborLaws (P : PayloadCbor) : Prop := {
  client_request_roundtrip x : ∃ bs, ser_client_request x = Ok bs ∧ de_client_request bs = Ok x;
  client_response_roundtrip x : ∃ bs, ser_client_response x = Ok bs ∧ de_client_response bs = Ok x;
}.

(** ** The network between the hoppers *)

(** A node: its routing service, what it reads from outside, and the address it
    sees its neighbor at. *)
Record Stop := mkStop { service : RoutingService; env_at : HopperEnv; neighbor_addr : SocketAddr }.
Definition main_at (s : Stop) : CryptDE := rs_main (service s).
Definition key_at (s : Stop) : PublicKey := public_key (main_at s).

(** A message that has crossed the network. *)
Definition arrived (s : Stop) (m : TransmitDataMsg) : InboundClientData :=
  mkInbound (he_now (env_at s)) (neighbor_addr s) None (tx_last_data m) true None (tx_data m).

(** What a node sends, with the message it hands to the network, if that comes last. *)
Definition split_dispatch (out : list HopperOut) : list HopperOut * option TransmitDataMsg :=
  match list.last out with
  | Some (ToDispatcher m) => (removelast out, Some m)
  | _ => (out, None)
  end.

Section Delivery.
Context `{E : Ethsign} `{C : Cbor} `{SC : SettlementCbor} `{HC : HopCbor} `{PC : PackageCbor}.
Context `{VR : ValueReader} `{VO : VersionOrder} `{PY : PayloadCbor}.

(** A message goes from stop to stop as long as each hands one to the next. *)
Fixpoint travel (stops : list Stop) (m : TransmitDataMsg) : exec (list HopperOut) :=
  match stops with
  | [] => Ret [ToDispatcher m]
  | s :: stops =>
      match tx_endpoint m with
      | EpKey k =>
          if bool_decide (k = key_at s) then
            let* (_, out) := route (service s) (env_at s) (arrived s m) in
            match split_dispatch out with
            | (out, Some m) => let* more := travel stops m in Ret (out ++ more)
            | (out, None) => Ret out
            end
          else Ret [ToDispatcher m]
      | EpSocket _ => Ret [ToDispatcher m]
      end
  end.

(** ** Routes on the way *)

(** The nodes [cs] would read the hops [hs] off the route, whatever garbage they
    leave behind. *)
Definition leads (r : Route) (cs : list CryptDE) (hs : list LiveHop) : Prop :=
  ∀ rand, ∃ r', walk r cs rand = Ret (Ok (hs, r')).

Lemma leads_step r c cs hs :
  leads r (c :: cs) hs →
  ∃ h hs', hs = h :: hs' ∧ next_hop r c = Ret (Ok h) ∧
    ∀ g, ∃ r', shift r c g = Ret (Ok h, r') ∧ leads r' cs hs'.
Proof.
  intros Hl. destruct (Hl (fun _ => [])) as [r0 Hr0]. cbn [walk] in Hr0.
  unfold shift, next_hop in *. destruct (hops r) as [|top rest] eqn:Hh; [done|].
  destruct (hop_decode c top) as [[h|e]|] eqn:Hd; cbn [exec_bind fst snd] in Hr0; [|done..].
  destruct (walk _ cs _) as [[[hs' r1]|]|]; cbn [try_bind] in Hr0; [|done..]. injection Hr0 as <- _.
  exists h, hs'. split; [done|]. split; [done|]. intros g. eexists. split; [cbn; done|].
  intros rand. destruct (Hl (fun n => match n with O => g | S n => rand n end)) as [r2 Hr2]. cbn [walk] in Hr2.
  unfold shift in Hr2. rewrite Hh, Hd in Hr2. cbn [exec_bind fst snd] in Hr2.
  destruct (walk _ cs rand) as [[[hs2 r3]|]|]; cbn [try_bind fst snd] in Hr2; [|done..].
  injection Hr2 as -> _. by eexists.
Qed.

(** ** Packages *)

Definition packed (c : CryptDE) (p : LiveCoresPackage) (d : list Z) : Prop :=
  decodex uncbor_live c d = Ret (Ok p).

Section Laws.
Context {PL : PackageCborLaws PC}.

Lemma live_package_readable e c rand p :
  Decrypts e c → ∃ d, encodex cbor_live e rand (public_key c) p = Ret (Ok d) ∧ packed c p d.
Proof.
  intros HD. destruct (cbor_live_total p) as [bs Hbs].
  destruct (cbor_live_roundtrip p bs Hbs) as [Hne Hun]. destruct (encode_decodes rand bs Hne) as (d & Henc & Hdec).
  exists d. unfold encodex, packed, decodex. rewrite Hbs. cbn [map_err try_bind].
  rewrite Henc, Hdec. cbn [map_err_fallible map_err try_bind]. by rewrite Hun.
Qed.

Lemma message_readable e c rand m :
  Decrypts e c → ∃ d, encodex cbor_message e rand (public_key c) m = Ret (Ok d) ∧
    decodex uncbor_message c d = Ret (Ok m).
Proof.
  intros HD. destruct (cbor_message_total m) as [bs Hbs].
  destruct (cbor_message_roundtrip m bs Hbs) as [Hne Hun]. destruct (encode_decodes rand bs Hne) as (d & Henc & Hdec).
  exists d. unfold encodex, decodex. rewrite Hbs. cbn [map_err try_bind].
  rewrite Henc, Hdec. cbn [map_err_fallible map_err try_bind]. by rewrite Hun.
Qed.

Lemma next_live p c cs h hs g :
  leads (lcp_route p) (c :: cs) (h :: hs) →
  ∃ p', into_next_live p c g = Ret (Ok (h, p')) ∧ leads (lcp_route p') cs hs ∧
    lcp_payload p' = lcp_payload p ∧ lcp_routing_receipt_offers p' = lcp_routing_receipt_offers p.
Proof.
  intros (h0 & hs0 & [= <- <-] & _ & Hs)%leads_step. destruct (Hs g) as (r' & Hr & Hl).
  unfold into_next_live. rewrite Hr. cbn [exec_bind]. by eexists.
Qed.

(** ** One relay *)

Context {EL : EthsignLaws E} (secret : list Z) (contract : Address).
Let wallet : option WalletKind := Some (WSecretKey secret).

(** The node knows its own digest and does not refuse the payer. *)
Definition willing (s : Stop) : Prop :=
  rs_digest (service s) = create_digest (key_at s) contract ∧
  key_provider_address secret ∉ banned (service s).

(** The hop a leg of the route is read as, by a node that is willing. *)
Lemma hop_payer s nxt c h :
  willing s → hop_serves wallet (Some contract) None (mkLeg (key_at s) nxt c) h →
  ∃ q, payer h = Some q ∧ payer_wallet q = WAddress (key_provider_address secret) ∧
    owns_secret_key q (rs_digest (service s)) = Ret true ∧ is_delinquent (service s) q = Ret false ∧
    hop_public_key h = nxt ∧ component h = c ∧ routing_receipt_request_opt h = None.
Proof.
  intros [Hd Hb] (Hk & Hc & Hr & Hp). cbn in Hp. apply exec_bind_Ret in Hp as (q & Hq & [= Hpay]).
  exists q. rewrite Hd. pose proof (as_payer_owns _ _ _ _ Hq) as Howns.
  destruct (as_payer_shape _ _ _ _ Hq) as (sec & sig & [= <-] & _ & ->).
  split; [done|]. split; [done|]. split; [exact Howns|]. split; [|done].
  unfold is_delinquent. cbn. by rewrite bool_decide_false.
Qed.

Definition report (s : Stop) (size : nat) : HopperOut :=
  ToAccountantRouting (mkRoutingReport (he_now (env_at s)) (WAddress (key_provider_address secret)) size
    (per_routing_service (service s)) (per_routing_byte (service s))).

Lemma relay_step s nxt m p cs h hs :
  willing s → packed (main_at s) p (tx_data m) →
  leads (lcp_route p) (main_at s :: cs) (h :: hs) →
  hop_serves wallet (Some contract) None (mkLeg (key_at s) (key_at nxt) Hopper) h →
  key_at nxt ≠ key_at s → Decrypts (main_at s) (main_at nxt) →
  ∃ d p', route (service s) (env_at s) (arrived s m) =
      Ret (service s, [report s (length (lcp_payload p));
                       ToDispatcher (mkTransmit (EpKey (key_at nxt)) (tx_last_data m) None d)]) ∧
    packed (main_at nxt) p' d ∧ leads (lcp_route p') cs hs ∧ lcp_payload p' = lcp_payload p ∧
    lcp_routing_receipt_offers p' = lcp_routing_receipt_offers p.
Proof.
  intros Hw Hpk Hl Hserves Hne HD.
  destruct (hop_payer _ _ _ _ Hw Hserves) as (q & Hpay & Hqw & Hown & Hdel & Hkey & Hcomp & Hreq).
  destruct (leads_step _ _ _ _ Hl) as (h0 & hs0 & [= <- <-] & Hnext & _).
  destruct (next_live p (main_at s) cs h hs (he_rand (env_at s) 0%nat) Hl) as (p' & Hlive & Hl' & Hpl & Hof).
  destruct (live_package_readable (main_at s) (main_at nxt) (he_rand (env_at s) 1%nat) p' HD) as (d & Henc & Hpk').
  exists d, p'. split; [|done]. unfold route, main_at in *. cbn [ib_data arrived].
  unfold packed in Hpk. rewrite Hpk. cbn [exec_bind]. rewrite Hnext. cbn [exec_bind].
  unfold route_data, is_destined_for_here. rewrite Hcomp, Hkey, bool_decide_true by done.
  rewrite bool_decide_false by done. cbn [andb negb].
  unfold route_data_externally. rewrite Hpay, Hown. cbn [exec_bind negb]. rewrite Hdel. cbn [exec_bind].
  rewrite Hreq, Hqw. unfold transmit, to_transmit_data_msg. rewrite Hlive. cbn [try_bind].
  unfold key_at in Hkey. unfold main_at in Hkey. rewrite Hkey, Henc. cbn [try_bind exec_bind]. done.
Qed.

(** ** A chain of relays *)

Definition steps (a b : Stop) : Prop := key_at b ≠ key_at a ∧ Decrypts (main_at a) (main_at b).
Definition way (stops : list Stop) : Prop := Forall (fun ab => steps ab.1 ab.2) (tuple_windows stops).
Definition way_legs (stops : list Stop) : list Leg :=
  map (fun ab => mkLeg (key_at ab.1) (key_at ab.2) Hopper) (tuple_windows stops).

Lemma tuple_windows_cons {A} (x : A) l f : tuple_windows (x :: l ++ [f]) = (x, hd f l) :: tuple_windows (l ++ [f]).
Proof. by destruct l. Qed.

Lemma travel_step s stops m m' out more :
  tx_endpoint m = EpKey (key_at s) →
  route (service s) (env_at s) (arrived s m) = Ret (service s, out ++ [ToDispatcher m']) →
  travel stops m' = Ret more → travel (s :: stops) m = Ret (out ++ more).
Proof.
  intros He Hr Ht. cbn [travel]. rewrite He, bool_decide_true by done. rewrite Hr. cbn [exec_bind].
  unfold split_dispatch. rewrite last_snoc, removelast_last, Ht. done.
Qed.

Lemma relays_pass relays f m p cs hs_way hs last :
  Forall willing relays → way (relays ++ [f]) →
  tx_endpoint m = EpKey (key_at (hd f relays)) → packed (main_at (hd f relays)) p (tx_data m) →
  leads (lcp_route p) (map main_at relays ++ cs) (hs_way ++ hs) →
  Forall2 (hop_serves wallet (Some contract) None) (way_legs (relays ++ [f])) hs_way →
  (∀ m' p', tx_endpoint m' = EpKey (key_at f) → packed (main_at f) p' (tx_data m') →
    leads (lcp_route p') cs hs → lcp_payload p' = lcp_payload p →
    lcp_routing_receipt_offers p' = lcp_routing_receipt_offers p →
    travel [f] m' = Ret (last p')) →
  ∃ p', leads (lcp_route p') cs hs ∧ lcp_payload p' = lcp_payload p ∧
    lcp_routing_receipt_offers p' = lcp_routing_receipt_offers p ∧
    travel (relays ++ [f]) m = Ret (map (fun s => report s (length (lcp_payload p))) relays ++ last p').
Proof.
  revert m p hs_way. induction relays as [|s relays IH]; intros m p hs_way Hw Hway He Hpk Hl Hs Hlast.
  - inversion Hs; subst. exists p. cbn [map app] in *. split; [done|]. split; [done|]. split; [done|]. by apply Hlast.
  - apply Forall_cons in Hw as [Hws Hw]. unfold way, way_legs in *. cbn [app] in Hway, Hs.
    rewrite tuple_windows_cons in Hway, Hs. cbn [map] in Hs.
    apply Forall_cons in Hway as [[Hne HD] Hway]. inversion Hs as [|? h ? hs' Hh Hs']; subst.
    cbn [hd map app fst snd] in *.
    destruct (relay_step s (hd f relays) m p _ h _ Hws Hpk Hl Hh Hne HD) as (d & p1 & Hroute & Hpk1 & Hl1 & Hp1 & Ho1).
    destruct (IH (mkTransmit (EpKey (key_at (hd f relays))) (tx_last_data m) None d) p1 hs' Hw Hway eq_refl Hpk1 Hl1 Hs')
      as (p' & Hl' & Hp' & Ho' & Ht).
    { intros m' p2 ? ? ? ? ?. apply Hlast; [done..|congruence|congruence]. }
    exists p'. split; [done|]. split; [congruence|]. split; [congruence|].
    rewrite <- Hp1. change (report s ?n :: ?x ++ ?y) with ([report s n] ++ (x ++ y)).
    eapply travel_step; [done| |exact Ht]. rewrite Hp1. exact Hroute.
Qed.

(** ** The two ends *)

Lemma consume_step s env icp cs h hs nxt :
  leads (icp_route icp) (main_at s :: cs) (h :: hs) → hop_public_key h = key_at nxt → steps s nxt →
  ∃ d p, consume (main_at s) env icp =
      Ret [ToDispatcher (mkTransmit (EpKey (key_at nxt)) false None d)] ∧
    packed (main_at nxt) p d ∧ leads (lcp_route p) cs hs ∧ lcp_payload p = icp_payload icp ∧
    lcp_routing_receipt_offers p = icp_routing_receipt_offers icp.
Proof.
  intros Hl Hk [Hne HD]. destruct (leads_step _ _ _ _ Hl) as (h0 & hs0 & [= <- <-] & _ & Hs).
  destruct (Hs (he_rand env 0%nat)) as (r' & Hr & Hl').
  unfold consume, from_incipient. rewrite Hr. cbn [exec_bind].
  set (p := live_with_offers _ _).
  destruct (live_package_readable (main_at s) (main_at nxt) (he_rand env 1%nat) p HD) as (d & Henc & Hpk).
  exists d, p. rewrite Hk. unfold key_at at 1. rewrite Henc. cbn [exec_bind].
  rewrite bool_decide_false by done. done.
Qed.

Lemma peripheral_step s m p cs h hs c nxt msg (out : ExpiredCoresPackage MessageType → HopperOut) :
  willing s → tx_endpoint m = EpKey (key_at s) → packed (main_at s) p (tx_data m) →
  leads (lcp_route p) (main_at s :: cs) (h :: hs) → c ≠ Hopper →
  hop_serves wallet (Some contract) None (mkLeg (key_at s) nxt c) h →
  decodex uncbor_message (match c with ProxyServer => rs_alias (service s) | _ => main_at s end) (lcp_payload p)
    = Ret (Ok msg) →
  let pkg := mkExpired (neighbor_addr s) (Some (WAddress (key_provider_address secret))) (lcp_route p) msg
               (length (lcp_payload p)) (lcp_routing_receipt_offers p) in
  route_expired_package (service s) (env_at s) c pkg true = Ret (service s, [out pkg]) →
  (∀ q t, out q ≠ ToDispatcher t) →
  travel [s] m = Ret [out pkg].
Proof.
  intros Hw He Hpk Hl Hc Hserves Hdec pkg Hroute Hout.
  destruct (hop_payer _ _ _ _ Hw Hserves) as (q & Hpay & Hqw & Hown & Hdel & Hkey & Hcomp & Hreq).
  destruct (leads_step _ _ _ _ Hl) as (h0 & hs0 & [= <- <-] & Hnext & _).
  assert (route (service s) (env_at s) (arrived s m) = Ret (service s, [out pkg])) as Hr.
  { unfold route, main_at in *. cbn [ib_data arrived]. unfold packed in Hpk. rewrite Hpk. cbn [exec_bind].
    rewrite Hnext. cbn [exec_bind]. unfold route_data. rewrite bool_decide_false by congruence. cbn [andb].
    unfold route_data_internally. rewrite Hpay, Hdel. cbn [exec_bind].
    unfold payer_owns_secret_key. rewrite Hpay, Hown. cbn [exec_bind]. rewrite Hcomp.
    assert (to_expired p (neighbor_addr s) (rs_main (service s))
      (match c with ProxyServer => rs_alias (service s) | _ => rs_main (service s) end) = Ret (Ok pkg)) as Hexp.
    { unfold to_expired. rewrite Hnext. cbn [try_bind]. rewrite Hdec. cbn [try_bind].
      rewrite Hpay. cbn. by rewrite Hqw. }
    destruct c; [|done|..]; unfold route_data_to_peripheral_component, extract_expired_package, arrived; cbn [ib_client_addr];
      rewrite Hexp; cbn [exec_bind]; exact Hroute. }
  cbn [travel]. rewrite He, bool_decide_true by done. rewrite Hr. cbn [exec_bind].
  unfold split_dispatch. cbn [list.last]. specialize (Hout pkg). by destruct (out pkg).
Qed.

Context {PYL : PayloadCborLaws PY} {HL : HopCborLaws HC}.

Lemma current_read {T} (ser : T → result (list Z) string) de ms x bs :
  current_version ms = PAYLOAD_CURRENT_VERSION → ser x = Ok bs → de bs = Ok x →
  read_payload de (Ret ms) (mkVersioned PAYLOAD_CURRENT_VERSION bs) = Ret (Ok x).
Proof.
  intros Hv _ Hde. unfold read_payload. cbn [exec_bind]. unfold extract. cbn [vd_version vd_bytes].
  rewrite Hv. change (version_lt PAYLOAD_CURRENT_VERSION PAYLOAD_CURRENT_VERSION) with false.
  cbn iota. rewrite bool_decide_true by done. cbn [exec_bind]. by rewrite Hde.
Qed.

Lemma request_readable x :
  ∃ vd, client_request_message x = Ret (MtClientRequest vd) ∧
    read_payload de_client_request (client_request_migrations de_value ser_client_request) vd = Ret (Ok x).
Proof.
  destruct (client_request_roundtrip x) as (bs & Hs & Hd).
  exists (mkVersioned PAYLOAD_CURRENT_VERSION bs). unfold client_request_message.
  destruct (client_request_migrations de_value ser_client_request) as [ms|] eqn:Hms; [|done].
  assert (current_version ms = PAYLOAD_CURRENT_VERSION) as Hv by (by injection Hms as <-).
  cbn [exec_bind]. unfold versioned_new. rewrite Hs. cbn [exec_bind]. rewrite Hv. split; [done|].
  by eapply current_read.
Qed.

Lemma response_readable x :
  ∃ vd, client_response_message x = Ret (MtClientResponse vd) ∧
    read_payload de_client_response (client_response_migrations de_value ser_client_response) vd = Ret (Ok x).
Proof.
  destruct (client_response_roundtrip x) as (bs & Hs & Hd).
  exists (mkVersioned PAYLOAD_CURRENT_VERSION bs). unfold client_response_message.
  destruct (client_response_migrations de_value ser_client_response) as [ms|] eqn:Hms; [|done].
  assert (current_version ms = PAYLOAD_CURRENT_VERSION) as Hv by (by injection Hms as <-).
  cbn [exec_bind]. unfold versioned_new. rewrite Hs. cbn [exec_bind]. rewrite Hv. split; [done|].
  by eapply current_read.
Qed.

(** ** The itinerary of a round trip *)

Lemma tuple_windows_map {A B} (f : A → B) l :
  tuple_windows (map f l) = map (fun ab => (f ab.1, f ab.2)) (tuple_windows l).
Proof. induction l as [|a [|b l] IH]; [done..|]. cbn in *. by rewrite IH. Qed.

Lemma legs_over_way stops : legs_over (map key_at stops) = way_legs stops.
Proof. unfold legs_over, way_legs. by rewrite tuple_windows_map, map_map. Qed.

Lemma last_key s l f : default [] (list.last (map key_at (s :: l ++ [f]))) = key_at f.
Proof. change (s :: l ++ [f]) with ((s :: l) ++ [f]). rewrite map_app. cbn [map]. by rewrite last_snoc. Qed.

Lemma legs_back_way x l f c :
  legs_back (map key_at (x :: l ++ [f])) c = mkLeg (key_at x) (key_at (hd f l)) c :: way_legs (l ++ [f]).
Proof.
  unfold legs_back, way_legs. rewrite tuple_windows_map, tuple_windows_cons. cbn [map fst snd].
  f_equal. by rewrite map_map.
Qed.

(** The legs of origin, relays, exit, relays, origin. *)
Lemma round_trip_legs o relays x backs :
  itinerary (mkSegment (map key_at (o :: relays ++ [x])) ProxyClient)
    (Some (mkSegment (map key_at (x :: backs ++ [o])) ProxyServer)) =
  (mkLeg (key_at o) (key_at (hd x relays)) Hopper :: way_legs (relays ++ [x])) ++
  (mkLeg (key_at x) (key_at (hd o backs)) ProxyClient :: way_legs (backs ++ [o])) ++
  [mkLeg (key_at o) [] ProxyServer].
Proof.
  unfold itinerary. cbn [keys recipient]. rewrite legs_over_way, last_key, legs_back_way. unfold way_legs at 1.
  rewrite tuple_windows_cons. done.
Qed.

Lemma way_reads e l f :
  Forall (fun s => Decrypts e (main_at s)) l →
  Forall2 (fun lg c => reads e c (reader lg)) (way_legs (l ++ [f])) (map main_at l).
Proof.
  induction 1 as [|s l Hs _ IH]; [constructor|]. unfold way_legs in *. cbn [app map].
  rewrite tuple_windows_cons. cbn [map]. by constructor.
Qed.

Lemma round_trip_valid o relays x backs :
  validate_route_segments (mkSegment (map key_at (o :: relays ++ [x])) ProxyClient)
    (Some (mkSegment (map key_at (x :: backs ++ [o])) ProxyServer)) = None.
Proof.
  unfold validate_route_segments. cbn [keys]. change (o :: relays ++ [x]) with ((o :: relays) ++ [x]).
  rewrite map_app. cbn [map]. rewrite last_snoc. by rewrite bool_decide_true.
Qed.

(** ** Delivery *)

(** From the hopper of one end, over the relays, to an actor of the other. *)
Lemma trip a env relays f icp cs h0 hs_way hf hs c nxt msg (out : ExpiredCoresPackage MessageType → HopperOut) :
  Forall willing relays → willing f → way (a :: relays ++ [f]) →
  leads (icp_route icp) (main_at a :: map main_at relays ++ main_at f :: cs) (h0 :: hs_way ++ hf :: hs) →
  hop_public_key h0 = key_at (hd f relays) →
  Forall2 (hop_serves wallet (Some contract) None) (way_legs (relays ++ [f])) hs_way →
  c ≠ Hopper → hop_serves wallet (Some contract) None (mkLeg (key_at f) nxt c) hf →
  decodex uncbor_message (match c with ProxyServer => rs_alias (service f) | _ => main_at f end) (icp_payload icp)
    = Ret (Ok msg) →
  (∀ pkg, ecp_payload pkg = msg →
    route_expired_package (service f) (env_at f) c pkg true = Ret (service f, [out pkg])) →
  (∀ q t, out q ≠ ToDispatcher t) →
  ∃ m pkg, consume (main_at a) env icp = Ret [ToDispatcher m] ∧
    travel (relays ++ [f]) m = Ret (map (fun s => report s (length (icp_payload icp))) relays ++ [out pkg]) ∧
    ecp_payload pkg = msg ∧ paying_wallet pkg = Some (WAddress (key_provider_address secret)) ∧
    leads (remaining_route pkg) (main_at f :: cs) (hf :: hs).
Proof.
  intros Hw Hwf Hway Hl Hk Hs Hc Hsf Hdec Hroute Hout. unfold way in Hway. rewrite tuple_windows_cons in Hway.
  apply Forall_cons in Hway as [Hstep Hway].
  destruct (consume_step a env icp _ h0 _ (hd f relays) Hl Hk Hstep) as (d & p & Hcons & Hpk & Hlp & Hpl & Hof).
  set (m := mkTransmit _ _ _ _) in Hcons.
  set (pkg_of p' := mkExpired (neighbor_addr f) (Some (WAddress (key_provider_address secret))) (lcp_route p') msg
    (length (lcp_payload p')) (lcp_routing_receipt_offers p')).
  destruct (relays_pass relays f m p (main_at f :: cs) hs_way (hf :: hs) (fun p' => [out (pkg_of p')])
    Hw Hway eq_refl Hpk Hlp Hs) as (p' & Hlp' & Hpl' & _ & Ht).
  { intros m' p' He Hpk' Hlp' Hpl' Hof'. eapply (peripheral_step f m' p' cs hf hs c nxt msg out); try done.
    - by rewrite Hpl', Hpl.
    - by apply Hroute. }
  exists m, (pkg_of p'). split; [done|]. split; [by rewrite <- Hpl|]. done.
Qed.

(** [C15] A request handed to the hopper of the origin, for a round-trip route
    through any number of relays, leaves for the first of them and is relayed,
    each node using its own keys only and reporting one routing service at its
    own rates to the payer's address, until the proxy client of the exit gets
    exactly the request, the address of its payer and a route back; and any
    response the exit sends on that route with its own hopper, encrypted to the
    alias of the origin, is relayed likewise and reaches the proxy server of the
    origin unchanged. *)
Theorem request_and_response_delivered o relays x backs req rand rand1 rand2 :
  Forall willing (o :: relays ++ x :: backs) → proxy_client_running (service x) = true →
  way (o :: relays ++ [x]) → way (x :: backs ++ [o]) →
  Forall (fun s => Decrypts (main_at o) (main_at s)) (o :: relays ++ x :: backs) →
  Decrypts (main_at x) (rs_alias (service o)) → (∀ msg, ∃ sig, secret_sign secret msg = Ok sig) →
  let over := mkSegment (map key_at (o :: relays ++ [x])) ProxyClient in
  let back := mkSegment (map key_at (x :: backs ++ [o])) ProxyServer in
  ∃ r msg icp m pkg,
    round_trip over back (main_at o) wallet (Some contract) rand = Ret (Ok r) ∧
    client_request_message req = Ret msg ∧
    incipient_new (main_at o) rand1 r msg (key_at x) = Ret (Ok icp) ∧
    consume (main_at o) (env_at o) icp = Ret [ToDispatcher m] ∧
    travel (relays ++ [x]) m =
      Ret (map (fun s => report s (length (icp_payload icp))) relays ++ [ToProxyClient pkg]) ∧
    ecp_payload pkg = req ∧ paying_wallet pkg = Some (WAddress (key_provider_address secret)) ∧
    ∀ resp, ∃ msg' icp' m' pkg',
      client_response_message resp = Ret msg' ∧
      incipient_new (main_at x) rand2 (remaining_route pkg) msg' (public_key (rs_alias (service o))) = Ret (Ok icp') ∧
      consume (main_at x) (env_at x) icp' = Ret [ToDispatcher m'] ∧
      travel (backs ++ [o]) m' =
        Ret (map (fun s => report s (length (icp_payload icp'))) backs ++ [ToProxyServerResponse pkg']) ∧
      ecp_payload pkg' = resp.
Proof.
  intros Hw Hrun Hway Hwayb Hread Halias Hsign over back.
  apply Forall_cons in Hw as [Hwo [Hwr [Hwx Hwb]%Forall_cons]%Forall_app].
  pose proof Hread as [Hro [Hrr [Hrx Hrb]%Forall_cons]%Forall_app]%Forall_cons.
  assert (Forall2 (fun l c => reads (main_at o) c (reader l)) (itinerary over (Some back))
    ((main_at o :: map main_at relays) ++ (main_at x :: map main_at backs) ++ [main_at o])) as Hnodes.
  { unfold over, back. rewrite round_trip_legs. repeat (apply Forall2_app || apply Forall2_cons); try done;
      try (by apply way_reads). all: split_and!; try done; by apply way_reads. }
  destruct (construct_and_walk (main_at o) over (Some back) wallet (Some contract) None _ rand
    (round_trip_valid o relays x backs) ltac:(done) Hsign Hnodes) as (r & hs & Hr & Hserve & Hwalk).
  assert (leads r ((main_at o :: map main_at relays) ++ (main_at x :: map main_at backs) ++ [main_at o]) hs) as Hl.
  { intros rand'. destruct (Hwalk rand') as (r' & Hr' & _). by exists r'. }
  unfold over, back in Hserve. rewrite round_trip_legs in Hserve.
  apply Forall2_app_inv_l in Hserve as (hs1 & hs2 & Hs1 & Hs2 & ->).
  apply Forall2_cons_inv_l in Hs1 as (h0 & hs_over & Hh0 & Hover & ->).
  apply Forall2_app_inv_l in Hs2 as (hs3 & hs4 & Hs3 & Hs4 & ->).
  apply Forall2_cons_inv_l in Hs3 as (hx & hs_back & Hhx & Hback & ->).
  apply Forall2_cons_inv_l in Hs4 as (ho & hs5 & Hho & Hs5 & ->). apply Forall2_nil_inv_l in Hs5 as ->.
  destruct (request_readable req) as (vd & Hmsg & Hvd).
  destruct (message_readable (main_at o) (main_at x) rand1 (MtClientRequest vd) Hrx) as (payload & Henc & Hdec).
  destruct (trip o (env_at o) relays x (mkIncipient r payload []) (map main_at backs ++ [main_at o]) h0 hs_over hx
    (hs_back ++ [ho]) ProxyClient (key_at (hd o backs)) (MtClientRequest vd)
    (fun p => ToProxyClient (with_payload p req))) as (m & pkg & Hcons & Ht & Hp & Hpw & Hlp); try done.
  { apply Hh0. }
  { intros pkg Hpkg. unfold route_expired_package. rewrite Hpkg, orb_true_r, Hrun. unfold forward. by rewrite Hvd. }
  exists r, (MtClientRequest vd), (mkIncipient r payload []), m, (with_payload pkg req).
  split; [exact Hr|]. split; [done|]. split; [unfold incipient_new, key_at; by rewrite Henc|].
  split; [done|]. split; [done|]. split; [done|]. split; [done|].
  intros resp. destruct (response_readable resp) as (vd' & Hmsg' & Hvd').
  destruct (message_readable (main_at x) (rs_alias (service o)) rand2 (MtClientResponse vd') Halias)
    as (payload' & Henc' & Hdec').
  destruct (trip x (env_at x) backs o (mkIncipient (remaining_route pkg) payload' []) [] hx hs_back ho
    [] ProxyServer [] (MtClientResponse vd') (fun p => ToProxyServerResponse (with_payload p resp)))
    as (m' & pkg' & Hcons' & Ht' & Hp' & _); try done.
  { apply Hhx. }
  { intros pkg' Hpkg'. unfold route_expired_package. rewrite Hpkg'. unfold forward. by rewrite Hvd'. }
  exists (MtClientResponse vd'), (mkIncipient (remaining_route pkg) payload' []), m', (with_payload pkg' resp).
  split; [done|]. split; [unfold incipient_new; cbn [remaining_route with_payload]; by rewrite Henc'|]. done.
Qed.
End Laws.
End Delivery.

(** ** Three nodes *)

Module SampleHopper.
#[local] Existing Instances sample_ethsign sample_cbor sample_settlement_cbor sample_hop_cbor.
#[local] Existing Instances ReceiptSessionRequest_eq_dec ReceiptSessionRequest_countable.

#[local] Instance VersionedData_eq_dec : EqDecision VersionedData.
Proof. solve_decision. Defined.
#[local] Instance VersionedData_countable : Countable VersionedData.
Proof.
  refine (inj_countable' (fun v => (vd_version v, vd_bytes v)) (fun t => mkVersioned t.1 t.2) _). by intros [].
Defined.
#[local] Instance MessageType_eq_dec : EqDecision MessageType.
Proof. solve_decision. Defined.
#[local] Instance MessageType_countable : Countable MessageType.
Proof.
  refine (inj_countable'
    (fun m => match m with
              | MtClientRequest v => (0, v) | MtClientResponse v => (1, v) | MtGossip v => (2, v)
              | MtGossipFailure v => (3, v) | MtDnsResolveFailed v => (4, v) | MtServiceReceipt v => (5, v)
              | MtServiceReceiptOffer v => (6, v) | MtMeteredClientResponse v => (7, v)
              end)
    (fun '(n, v) => if n =? 0 then MtClientRequest v else if n =? 1 then MtClientResponse v
       else if n =? 2 then MtGossip v else if n =? 3 then MtGossipFailure v
       else if n =? 4 then MtDnsResolveFailed v else if n =? 5 then MtServiceReceipt v
       else if n =? 6 then MtServiceReceiptOffer v else MtMeteredClientResponse v) _). by intros [].
Defined.
#[local] Instance Route_eq_dec : EqDecision Route.
Proof. solve_decision. Defined.
#[local] Instance LiveCoresPackage_eq_dec : EqDecision LiveCoresPackage.
Proof. solve_decision. Defined.
#[local] Instance LiveCoresPackage_countable : Countable LiveCoresPackage.
Proof.
  refine (inj_countable' (fun p => (lcp_version p, hops (lcp_route p), lcp_payload p, lcp_routing_receipt_offers p))
    (fun '(v, h, p, o) => mkLive v (mkRoute h) p o) _). by intros [? []].
Defined.
#[local] Instance ClientResponse_eq_dec : EqDecision ClientResponsePayload_0v1.
Proof. solve_decision. Defined.
#[local] Instance ClientResponse_countable : Countable ClientResponsePayload_0v1.
Proof.
  refine (inj_countable' (fun p => (crsp_stream_key p, SequenceBuffer.data (crsp_sequenced_packet p),
      SequenceBuffer.sequence_number (crsp_sequenced_packet p), SequenceBuffer.last_data (crsp_sequenced_packet p)))
    (fun '(k, d, n, l) => mkClientResponse k (SequenceBuffer.mkPacket d n l)) _). by intros [? []].
Defined.
#[local] Instance ProxyProtocol_eq_dec : EqDecision ProxyProtocol.
Proof. solve_decision. Defined.
#[local] Instance ClientRequest_eq_dec : EqDecision ClientRequestPayload_0v1.
Proof. solve_decision. Defined.
#[local] Instance ClientRequest_countable : Countable ClientRequestPayload_0v1.
Proof.
  refine (inj_countable' (fun p => ((crp_stream_key p, SequenceBuffer.data (crp_sequenced_packet p),
      SequenceBuffer.sequence_number (crp_sequenced_packet p), SequenceBuffer.last_data (crp_sequenced_packet p)),
      (target_hostname p, target_port p, match protocol p with HTTP => true | TLS => false end,
       originator_public_key p), crp_dns_attempt_id_opt p, receipt_session_request_opt p))
    (fun '((k, d, n, l), (h, t, b, o), a, r) =>
       mkClientRequest k (SequenceBuffer.mkPacket d n l) h t (if b : bool then HTTP else TLS) o a r) _).
  by intros [? [] ? ? []].
Defined.

Definition write {A} `{Countable A} (x : A) : result (list Z) string := Ok [Zpos (countable.encode x)].
Definition read {A} `{Countable A} (bs : list Z) : result A string :=
  match bs with
  | [Zpos p] => match countable.decode p with Some x => Ok x | None => Err EmptyString end
  | _ => Err EmptyString
  end.
Lemma read_write {A} `{Countable A} (x : A) bs : write x = Ok bs → bs ≠ [] ∧ read bs = Ok x.
Proof. intros [= <-]. split; [done|]. unfold read. by rewrite decode_encode. Qed.

Definition package_cbor : PackageCbor := {|
  cbor_message := write; uncbor_message := read; cbor_live := write; uncbor_live := read;
|}.
Lemma package_cbor_laws : PackageCborLaws package_cbor.
Proof. split; try (by eexists); intros *; apply read_write. Qed.

Definition payload_cbor : PayloadCbor := {|
  de_value := fun _ => Err EmptyString;
  ser_client_request := write; de_client_request := read;
  ser_client_response := write; de_client_response := read;
  ser_dns_failure := fun _ => Err EmptyString; de_dns_failure := fun _ => Err EmptyString;
  ser_gossip := fun _ => Err EmptyString; de_gossip := fun _ => Err EmptyString;
  ser_gossip_failure := fun _ => Err EmptyString; de_gossip_failure := fun _ => Err EmptyString;
  ser_offer := fun o => Ok [sequence (receipt (offer_signed_receipt o))]; de_offer := fun _ => Err EmptyString;
  de_receipt := fun _ => Ok (mkReceiptPayload sample_session sample_ack0);
  de_metered := fun _ => Err EmptyString;
|}.
Lemma payload_cbor_laws : PayloadCborLaws payload_cbor.
Proof.
  split; intros x; (eexists; split; [reflexivity|]); cbn [de_client_request de_client_response payload_cbor read];
    by rewrite decode_encode.
Qed.

Definition value_reader : ValueReader := {|
  as_stream_key := fun _ => None; as_sequenced_packet := fun _ => None; as_string := fun _ => None;
  as_u16 := fun _ => None; as_u64 := fun _ => None; as_protocol := fun _ => None; as_public_key := fun _ => None;
  as_session_request := fun _ => None; as_wallet := fun _ => None; as_rate_pack := fun _ => None;
  as_gossip_node_record := fun _ => Err EmptyString; address_from_str := fun _ => None;
|}.
Definition version_order : VersionOrder := {|
  version_iter := elements; version_iter_perm := fun vs => reflexivity _;
|}.

Definition contract : Address := repeat 2 20.
Definition node (key : list Z) : Stop :=
  mkStop (routing_service_new (sample_null key) (sample_null (key ++ [7]))
      (create_digest key contract) true 10 1 true ∅)
    (mkHopperEnv 1000 (fun _ => [])) (mkSocket (CountryFinder.IpV4 5) 443).
Definition request : ClientRequestPayload_0v1 :=
  mkClientRequest (repeat 1 20) (SequenceBuffer.mkPacket [71; 69; 84] 0 false) "example.com" 443 TLS [1; 1; 7] None None.

Lemma node_steps k k' : k ≠ k' → k' ≠ [] → bytes_ok k' → steps (node k) (node k').
Proof. intros Hne ? ?. split; [cbn; congruence|]. by apply Null.null_Decrypts. Qed.
Lemma node_willing k : willing sample_secret contract (node k).
Proof. split; [done|]. cbn. set_solver. Qed.

#[local] Existing Instances package_cbor payload_cbor value_reader version_order.

Lemma request_and_response_delivered_witness :
  let over := mkSegment [[1; 1]; [2; 2]; [3; 3]] ProxyClient in
  let back := mkSegment [[3; 3]; [4; 4]; [1; 1]] ProxyServer in
  ∃ r msg icp m pkg,
    round_trip over back (sample_null [1; 1]) (Some (WSecretKey sample_secret)) (Some contract) (fun _ => [])
      = Ret (Ok r) ∧
    client_request_message request = Ret msg ∧
    incipient_new (sample_null [1; 1]) [] r msg [3; 3] = Ret (Ok icp) ∧
    consume (sample_null [1; 1]) (env_at (node [1; 1])) icp = Ret [ToDispatcher m] ∧
    travel [node [2; 2]; node [3; 3]] m =
      Ret [report sample_secret (node [2; 2]) (length (icp_payload icp)); ToProxyClient pkg] ∧
    ecp_payload pkg = request.
Proof.
  destruct (request_and_response_delivered (PL := package_cbor_laws) (EL := sample_ethsign_laws)
    (PYL := payload_cbor_laws) (HL := sample_hop_cbor_laws) sample_secret contract (node [1; 1]) [node [2; 2]]
    (node [3; 3]) [node [4; 4]] request (fun _ => []) [] [])
    as (r & msg & icp & m & pkg & Hr & Hmsg & Hicp & Hcons & Ht & Hp & _).
  - repeat (apply Forall_cons; split; [apply node_willing|]). constructor.
  - done.
  - repeat (apply Forall_cons; split; [by apply node_steps; repeat constructor|]). constructor.
  - repeat (apply Forall_cons; split; [by apply node_steps; repeat constructor|]). constructor.
  - repeat (apply Forall_cons; split; [by apply Null.null_Decrypts; repeat constructor|]). constructor.
  - by apply Null.null_Decrypts; repeat constructor.
  - intros msg. by eexists.
  - exists r, msg, icp, m, pkg. exact (conj Hr (conj Hmsg (conj Hicp (conj Hcons (conj Ht Hp))))).
Defined.
End SampleHopper.
