(* ===== verification/HopperReceipts.v ===== *)
(** * HopperReceipts: what becomes of the receipts payers send back

    A payer sends an acknowledged receipt to its provider on a round-trip route
    whose target component is the hopper
    ([RouteQueryMessage::service_receipt_delivery_route_request]).  The routing
    service of the provider takes a hop for the hopper for one to pass on, so
    that the package goes back on the return route and no receipt is booked. *)

From stdpp Require Import base list numbers option strings gmap.
From Stdlib Require Import ZArith Lia.
From S2P Require Import Prelude CryptDE Wallet ServiceReceipt ReceiptSettlement Route NodeRecord.
From S2P Require Import VersionedData Migrations CoresPackage ReceiptDao ReceiptBooks Hopper HopperDelivery.

Local Open Scope Z_scope.
Local Open Scope rust_scope.
Local Open Scope list_scope.

Section Receipts.
Context `{E : Ethsign} `{C : Cbor} `{SC : SettlementCbor} `{HC : HopCbor} `{PC : PackageCbor}.
Context `{VR : ValueReader} `{VO : VersionOrder} `{PY : PayloadCbor}.

(** Whatever comes from the network, one package after the other. *)
Fixpoint run_routes (inputs : list (HopperEnv * InboundClientData)) (rs : RoutingService)
    : exec (RoutingService * list HopperOut) :=
  match inputs with
  | [] => Ret (rs, [])
  | (env, d) :: inputs =>
      let* (rs, out) := route rs env d in
      let* (rs, out') := run_routes inputs rs in
      Ret (rs, out ++ out')
  end.

Definition first_offers (t : gmap (list Z * Stream) RoutingReceiptOfferState) : Prop :=
  map_Forall (fun _ st => sequence (receipt (last_signed_receipt st)) = 1) t.

(** Of the tables only the one of offers may change, and no offer is a second
    one as long as nothing is acknowledged. *)
Definition unbooked (rs rs' : RoutingService) : Prop :=
  ∀ ctx, service_receipt_context_opt rs = Some ctx →
    ∃ t, service_receipt_context_opt rs' = Some (mkReceiptContext (with_offers (rc_dao ctx) t)
           (ctx_chain_id ctx) (ctx_settlement_contract ctx)) ∧
      (receipt_sequence_checkpoint (rc_dao ctx) = ∅ → first_offers (routing_receipt_offer_state (rc_dao ctx)) →
       first_offers t).

Lemma unbooked_refl rs : unbooked rs rs.
Proof.
  intros [db ch co] Hc. exists (routing_receipt_offer_state db). cbn. split; [|done]. rewrite Hc. by destruct db.
Qed.

Lemma unbooked_trans rs1 rs2 rs3 : unbooked rs1 rs2 → unbooked rs2 rs3 → unbooked rs1 rs3.
Proof.
  intros H12 H23 ctx Hc. destruct (H12 ctx Hc) as (t & Hc2 & Ht). destruct (H23 _ Hc2) as (t' & Hc3 & Ht').
  exists t'. cbn in *. split; [done|]. auto.
Qed.

Lemma save_offer_first db state now maximum db' :
  save_routing_offer_state db state now maximum = Ok db' →
  sequence (receipt (last_signed_receipt state)) = 1 → first_offers (routing_receipt_offer_state db) →
  first_offers (routing_receipt_offer_state db').
Proof.
  intros Hs H1 Hf. unfold save_routing_offer_state in Hs. revert Hs. case_bool_decide; [done|]. cbn zeta.
  set (live := filter _ _). assert (first_offers live) as Hlive.
  { intros k st [Hk _]%map_lookup_filter_Some. by apply (Hf k). }
  assert (∀ k, first_offers (<[k := state]> live)) as Hins by (intros k; by apply map_Forall_insert_2).
  destruct (live !! _) as [existing|].
  - destruct (deserialize_routing_offer_state _ _ _) as [e|]; [|done]. cbn [result_bind].
    case_bool_decide; [by intros [= <-]|]. case_bool_decide; [done|]. intros [= <-]. apply Hins.
  - destruct (negb _); [done|]. destruct (_ <=? _)%nat; [done|]. intros [= <-]. apply Hins.
Qed.

Lemma first_receipt_signed rs request size state_opt signed :
  next_signed_receipt rs request size state_opt None = Ret (Ok (signed, true)) →
  sequence (receipt signed) = 1.
Proof.
  unfold next_signed_receipt. destruct state_opt as [state|].
  - destruct (negb _); [done|]. destruct (signed_verify _ _) as [[|]|]; cbn [map_err_fallible map_err try_bind]; done.
  - unfold sign_receipt. destruct (validate _); [|done]. cbn [result_bind]. destruct (negb _); [done|].
    destruct (signing_data _); [|done]. cbn [result_bind]. destruct (map_err Signing _); [|done].
    cbn [result_bind map_err try_bind]. by intros [= <-].
Qed.

Lemma offer_unbooked rs env request size ct rs' :
  make_routing_receipt_offer rs env request size = Ret (Ok (ct, rs')) → unbooked rs rs'.
Proof.
  unfold make_routing_receipt_offer. destruct (service_receipt_context_opt rs) as [ctx|] eqn:Hctx; [|done].
  cbn zeta. destruct (map_err _ (session_request_verify _ _ _ _)); [|done]. cbn [try_bind].
  destruct (map_err _ (dao_routing_offer_state _ _ _)) as [state_opt|]; [|done]. cbn [try_bind].
  set (cp_opt := dao_checkpoint _ _). destruct (match cp_opt with Some _ => _ | None => _ end); [done|].
  destruct (next_signed_receipt _ _ _ _ _) as [[[signed persist]|]|] eqn:Hnext; cbn [try_bind]; [|done..].
  destruct (map_err _ (session_verify _ _ _ _ _ _)); [|done]. cbn [try_bind].
  destruct (map_err_fallible _ (encodex _ _ _ _ _)) as [[offer|]|]; cbn [try_bind]; [|done..].
  destruct persist; [|intros [= <- <-]; apply unbooked_refl].
  destruct (save_routing_offer_state _ _ _ _) as [dao|] eqn:Hsave; [|done]. cbn [map_err try_bind].
  intros [= <- <-] ctx' Hctx'. rewrite Hctx in Hctx'. injection Hctx' as <-.
  exists (routing_receipt_offer_state dao). cbn. split; [by destruct (save_offer_tables _ _ _ _ _ Hsave) as [t ->]|].
  intros Hnone Hfirst. eapply save_offer_first; [exact Hsave| |done]. cbn.
  assert (cp_opt = None) as Hcp by (unfold cp_opt, dao_checkpoint; by rewrite Hnone, lookup_empty).
  rewrite Hcp in Hnext. by eapply first_receipt_signed.
Qed.

Lemma forward_same {S T} rs (p : ExpiredCoresPackage S) (payload : fallible T MigrationError) send rs' out :
  forward rs p payload send = Ret (rs', out) → rs' = rs.
Proof. unfold forward. destruct payload as [[x|e]|]; cbn; [| |done]; by intros [= <- _]. Qed.

Lemma expired_same rs env c p owns rs' out :
  c ≠ Hopper → route_expired_package rs env c p owns = Ret (rs', out) → rs' = rs.
Proof.
  intros Hc. unfold route_expired_package.
  destruct c, (ecp_payload p); try done; try (by intros [= <- _]); try (apply forward_same).
  destruct (_ || _); [|by intros [= <- _]]. destruct (proxy_client_running rs); [apply forward_same|by intros [= <- _]].
Qed.

Lemma internally_same rs env h addr p d rs' out :
  route_data_internally rs env h addr p d = Ret (rs', out) → rs' = rs.
Proof.
  unfold route_data_internally. destruct (component h) eqn:Hc.
  2: { unfold route_data_around_again. destruct (into_next_live _ _ _) as [[[hh np]|]|]; cbn [exec_bind];
         [|by intros [= <- _]|done]. destruct (encodex _ _ _ _ _) as [[x|]|]; cbn [exec_bind]; [|done..].
       by intros [= <- _]. }
  all: destruct (match payer h with Some _ => _ | None => _ end) as [[|]|]; cbn [exec_bind];
    [by intros [= <- _]| |done].
  all: destruct (payer_owns_secret_key h _) as [owns|]; cbn [exec_bind]; [|done].
  all: unfold route_data_to_peripheral_component.
  all: destruct (extract_expired_package _ _ _ _) as [[q|]|]; cbn [exec_bind]; [|by intros [= <- _]|done].
  all: by apply expired_same.
Qed.

Lemma transmit_same rs env p last out rs' out' :
  transmit rs env p last out = Ret (rs', out') → rs' = rs.
Proof.
  unfold transmit. destruct (to_transmit_data_msg _ _ _ _) as [[m|]|]; cbn [exec_bind]; [| |done];
    by intros [= <- _].
Qed.

Lemma externally_unbooked rs env p payer_opt request_opt last rs' out :
  route_data_externally rs env p payer_opt request_opt last = Ret (rs', out) → unbooked rs rs'.
Proof.
  unfold route_data_externally. pose proof (unbooked_refl rs) as Hrefl.
  destruct payer_opt as [q|]; [|by intros [= <- _]].
  destruct (owns_secret_key q _) as [[|]|]; cbn [exec_bind negb]; [|by intros [= <- _]|done].
  destruct (is_delinquent rs q) as [[|]|]; cbn [exec_bind]; [by intros [= <- _]| |done].
  destruct request_opt as [request|]; [|by intros ->%transmit_same].
  destruct (address _) as [w|]; cbn [exec_bind]; [|done]. destruct (negb _); [by intros [= <- _]|].
  destruct (_ <=? _)%nat; [by intros [= <- _]|].
  destruct (make_routing_receipt_offer _ _ _ _) as [[[ct rs1]|]|] eqn:Hoffer; cbn [exec_bind];
    [|by intros [= <- _]|done]. intros ->%transmit_same. by eapply offer_unbooked.
Qed.

Lemma route_unbooked rs env d rs' out : route rs env d = Ret (rs', out) → unbooked rs rs'.
Proof.
  unfold route. pose proof (unbooked_refl rs) as Hrefl.
  destruct (decodex _ _ _) as [[p|]|]; cbn [exec_bind]; [|by intros [= <- _]|done].
  destruct (next_hop _ _) as [[h|]|]; cbn [exec_bind]; [|by intros [= <- _]|done].
  unfold route_data. destruct (_ && _); [by apply externally_unbooked|by intros ->%internally_same].
Qed.

(** [C35] Whatever packages arrive from the network, in any number and order,
    the routing service books no receipt: checkpoints, authorizations, balances
    and claims stay as they were; and a provider that starts without
    acknowledged receipts only ever has first offers, so that a metered stream
    is charged for one package. *)
Theorem arriving_receipts_never_booked inputs rs rs' out ctx :
  run_routes inputs rs = Ret (rs', out) → service_receipt_context_opt rs = Some ctx →
  ∃ t, service_receipt_context_opt rs' = Some (mkReceiptContext (with_offers (rc_dao ctx) t)
         (ctx_chain_id ctx) (ctx_settlement_contract ctx)) ∧
    (receipt_sequence_checkpoint (rc_dao ctx) = ∅ → first_offers (routing_receipt_offer_state (rc_dao ctx)) →
     first_offers t).
Proof.
  intros Hrun. revert ctx. change (unbooked rs rs'). revert rs out Hrun.
  induction inputs as [|[env d] inputs IH]; intros rs out; cbn [run_routes].
  { intros [= <- _]. apply unbooked_refl. }
  destruct (route rs env d) as [[rs1 o1]|] eqn:Hr; [|done]. cbn [exec_bind].
  destruct (run_routes inputs rs1) as [[rs2 o2]|] eqn:Hrest; [|done]. cbn [exec_bind]. intros [= <- _].
  eapply unbooked_trans; [by eapply route_unbooked|by eapply IH].
Qed.
End Receipts.

Module SampleReceipt.
Import SampleHopper.
#[local] Existing Instances sample_ethsign sample_cbor sample_settlement_cbor sample_hop_cbor.
#[local] Existing Instances package_cbor payload_cbor value_reader version_order.

(** A provider that meters, and a receipt sent to its hopper and back. *)
Definition provider : RoutingService :=
  enable_service_receipts (service (node [3; 3])) (empty_books ∅) 8453 contract.
Definition receipt_message : MessageType := MtServiceReceipt (mkVersioned (mkVersion 0 1) [1]).
Definition sent : exec (list HopperOut) :=
  let* r := round_trip (mkSegment [[1; 1]; [3; 3]] Hopper) (mkSegment [[3; 3]; [1; 1]] ProxyServer)
              (sample_null [1; 1]) (Some (WSecretKey sample_secret)) (Some contract) (fun _ => []) in
  match r with
  | Err _ => Panic
  | Ok r =>
      let* icp := incipient_new (sample_null [1; 1]) [] r receipt_message [3; 3] in
      match icp with Err _ => Panic | Ok icp => consume (sample_null [1; 1]) (mkHopperEnv 1000 (fun _ => [])) icp end
  end.
Definition receipt_arriving : InboundClientData :=
  match sent with
  | Ret [ToDispatcher m] => arrived (node [3; 3]) m
  | _ => mkInbound 0 loopback None false false None []
  end.
Definition handed_on (out : list HopperOut) : list (option Endpoint) :=
  map (fun o => match o with ToDispatcher m => Some (tx_endpoint m) | _ => None end) out.

Lemma provider_hands_on :
  ∃ rs' out, run_routes [(env_at (node [3; 3]), receipt_arriving)] provider = Ret (rs', out) ∧
    handed_on out = [None; Some (EpKey [1; 1])].
Proof.
  assert (∀ x : exec (RoutingService * list HopperOut),
    match x with Ret (_, out) => handed_on out = [None; Some (EpKey [1; 1])] | Panic => False end →
    ∃ rs' out, x = Ret (rs', out) ∧ handed_on out = [None; Some (EpKey [1; 1])]) as Hx
    by (intros [[rs' out]|]; [by exists rs', out|done]).
  apply Hx. vm_compute. reflexivity.
Qed.

(** The provider charges for routing the receipt and sends it back to where it
    came from. *)
Lemma arriving_receipts_never_booked_witness :
  ∃ rs' out t,
    run_routes [(env_at (node [3; 3]), receipt_arriving)] provider = Ret (rs', out) ∧
    handed_on out = [None; Some (EpKey [1; 1])] ∧
    service_receipt_context_opt rs' =
      Some (mkReceiptContext (with_offers (empty_books ∅) t) 8453 contract) ∧ first_offers t.
Proof.
  destruct provider_hands_on as (rs' & out & Hrun & Hout).
  destruct (arriving_receipts_never_booked _ _ _ _ (mkReceiptContext (empty_books ∅) 8453 contract) Hrun
    (eq_refl : service_receipt_context_opt provider = _)) as (t & Hc & Ht).
  exists rs', out, t. exact (conj Hrun (conj Hout (conj Hc (Ht eq_refl (map_Forall_empty _))))).
Defined.
End SampleReceipt.
