(* ===== verification/Recovery.v ===== *)
(** * Recovery: the store a receipt session is recovered from

    [proxy_server/receipt_session_recovery.rs]: the session's header and its
    routes, encrypted under a key of the node, in two tables of the database;
    the implementation of the interface [RecoveryStore] that [ReceiptSession]
    is written against.

    A column that holds the decimal digits of a number is that number.  The
    nonces of the encryptions are drawn from a stream the state carries. *)

From stdpp Require Import base list numbers option strings gmap.
From Stdlib Require Import ZArith Lia.
From S2P Require Import Prelude Text CryptDE Wallet ServiceReceipt ReceiptSettlement Eip712.
From S2P Require Import Route ReceiptSession SessionLimit.

Local Open Scope Z_scope.
Local Open Scope rust_scope.
Local Open Scope list_scope.

(** The row of [receipt_session_recovery], and the two tables; the routes are
    by [stream_key_cbor], with [route_epoch] and [encrypted_route]. *)
Record RecoveryRow := mkRecoveryRow {
  rr_authorization_nonce : list Z;
  rr_payer_session_public_key : PublicKey;
  rr_expires_at_unix_s : Z;
  encrypted_header : list Z;
}.

Record RecoveryDb := mkRecoveryDb {
  receipt_session_recovery : option RecoveryRow;
  receipt_session_route_recovery : gmap (list Z) (list Z * list Z);
  recovery_key : list Z;
  nonce_source : nat → list Z;
  nonces_drawn : nat;
}.

(** [serde_cbor] on what the store keeps. *)
Class RecoveryCbor := {
  ser_header : PersistedReceiptSessionHeader → result (list Z) string;
  de_header : list Z → result PersistedReceiptSessionHeader string;
  ser_route : ReceiptRouteState → result (list Z) string;
  de_route : list Z → result ReceiptRouteState string;
  ser_stream_key : StreamKey → result (list Z) string;
}.

Class RecoveryCborLaws (RC : RecoveryCbor) : Prop := {
  de_ser_header h bs : ser_header h = Ok bs → de_header bs = Ok h;
  de_ser_route r bs : ser_route r = Ok bs → de_route bs = Ok r;
  ser_stream_key_inj k k' bs : ser_stream_key k = Ok bs → ser_stream_key k' = Ok bs → k = k';
}.

Section Store.
Context (S : Real.Sodium) `{RC : RecoveryCbor}.

Definition with_tables (db : RecoveryDb) (h : option RecoveryRow) (t : gmap (list Z) (list Z * list Z))
    : RecoveryDb := mkRecoveryDb h t (recovery_key db) (nonce_source db) (nonces_drawn db).

(** [encrypt]: the nonce is drawn once the value is serialized. *)
Definition store_encrypt (db : RecoveryDb) (serialized : result (list Z) string)
    : result (list Z) string * RecoveryDb :=
  match serialized with
  | Err e => (Err ("cannot serialize recovery state: " ++ e)%string, db)
  | Ok bytes =>
      let db' := mkRecoveryDb (receipt_session_recovery db) (receipt_session_route_recovery db)
                   (recovery_key db) (nonce_source db) (Datatypes.S (nonces_drawn db)) in
      (map_err (fun e => "cannot encrypt recovery state: " ++ cryptdec_error_debug e)%string
         (Real.real_encode_sym S (nonce_source db (nonces_drawn db)) (recovery_key db) bytes), db')
  end.

Definition store_decrypt {T} (db : RecoveryDb) (from_slice : list Z → result T string)
    (encrypted : list Z) : result T string :=
  let? plain := map_err (fun e => "cannot authenticate recovery state: " ++ cryptdec_error_debug e)%string
                  (Real.real_decode_sym S (recovery_key db) encrypted) in
  map_err (fun e => "cannot deserialize recovery state: " ++ e)%string (from_slice plain).

Definition stream_key_cbor (route : ReceiptRouteState) : result (list Z) string :=
  map_err (fun e => "cannot serialize recovery stream key: " ++ e)%string (ser_stream_key (stream_key route)).

(** [save_header_with] *)
Definition header_row (header : PersistedReceiptSessionHeader) (encrypted : list Z) : RecoveryRow :=
  let p := policy (h_authorization header) in
  mkRecoveryRow (rsp_authorization_nonce p) (rsp_payer_session_public_key p) (rsp_expires_at_unix_s p) encrypted.

Definition real_clear (db : RecoveryDb) : result unit string * RecoveryDb := (Ok (), with_tables db None ∅).

Definition real_save_header (db : RecoveryDb) (header : PersistedReceiptSessionHeader)
    : result unit string * RecoveryDb :=
  match store_encrypt db (ser_header header) with
  | (Err e, db) => (Err e, db)
  | (Ok encrypted, db) =>
      (Ok (), with_tables db (Some (header_row header encrypted)) (receipt_session_route_recovery db))
  end.

Definition real_save_header_and_route (db : RecoveryDb) (header : PersistedReceiptSessionHeader)
    (route : ReceiptRouteState) : result unit string * RecoveryDb :=
  if negb (bool_decide (authorization (request route) = h_authorization header))
  then (Err "route authorization differs from recovery header"%string, db)
  else
    match store_encrypt db (ser_header header) with
    | (Err e, db) => (Err e, db)
    | (Ok encrypted_header, db) =>
        match store_encrypt db (ser_route route) with
        | (Err e, db) => (Err e, db)
        | (Ok encrypted_route, db) =>
            match stream_key_cbor route with
            | Err e => (Err e, db)
            | Ok key =>
                (Ok (), with_tables db (Some (header_row header encrypted_header))
                   (<[key := (rsr_route_epoch (request route), encrypted_route)]>
                      (receipt_session_route_recovery db)))
            end
        end
    end.

(** The loop over the rows of the routes. *)
Fixpoint load_routes (db : RecoveryDb) (header : PersistedReceiptSessionHeader)
    (rows : list (list Z * (list Z * list Z))) : result (list ReceiptRouteState) string :=
  match rows with
  | [] => Ok []
  | (key, (epoch, encrypted_route)) :: rows =>
      let? route := store_decrypt db de_route encrypted_route in
      let? key' := stream_key_cbor route in
      if negb (bool_decide (key' = key)) || negb (bool_decide (rsr_route_epoch (request route) = epoch))
         || negb (bool_decide (authorization (request route) = h_authorization header))
      then Err "recovery route identity does not match its index"%string
      else let? routes := load_routes db header rows in Ok (route :: routes)
  end.

Definition real_load (db : RecoveryDb) (now : Z)
    : result (option (PersistedReceiptSessionHeader * list ReceiptRouteState)) string * RecoveryDb :=
  match receipt_session_recovery db with
  | None => (Ok None, db)
  | Some row =>
      if rr_expires_at_unix_s row <? now then
        match real_clear db with
        | (Err e, db) => (Err e, db)
        | (Ok _, db) => (Ok None, db)
        end
      else
        (let? header := store_decrypt db de_header (encrypted_header row) in
         let p := policy (h_authorization header) in
         if negb (bool_decide (rsp_authorization_nonce p = rr_authorization_nonce row))
            || negb (bool_decide (rsp_payer_session_public_key p = rr_payer_session_public_key row))
            || negb (rsp_expires_at_unix_s p =? rr_expires_at_unix_s row)
         then Err "recovery header identity does not match its index"%string
         else
           let? routes := load_routes db header
             (sort_by_key fst (map_to_list (receipt_session_route_recovery db))) in
           Ok (Some (header, routes)), db)
  end.

Definition recovery_store : RecoveryStore RecoveryDb := {|
  store_load := real_load;
  save_header := real_save_header;
  save_header_and_route := real_save_header_and_route;
  store_clear := real_clear;
|}.
End Store.

(** ** What the store holds *)

(** The first route of a stream. *)
Definition stream_route (k : StreamKey) (rs : list ReceiptRouteState) : option ReceiptRouteState :=
  snd <$> find_stream k rs.

Lemma stream_route_cons k r rs :
  stream_route k (r :: rs) = if decide (stream_key r = k) then Some r else stream_route k rs.
Proof.
  unfold stream_route, find_stream. cbn [list_find]. destruct (decide _); [done|]. destruct (list_find _ rs) as [[]|]; done.
Qed.

Lemma stream_route_insert k rs i r :
  is_Some (rs !! i) → (∀ r0, rs !! i = Some r0 → stream_key r0 = stream_key r) → k ≠ stream_key r →
  stream_route k (<[i := r]> rs) = stream_route k rs.
Proof.
  revert i. induction rs as [|r0 rs IH]; intros i [x Hx] Hkey Hk; [done|].
  destruct i as [|i]; simpl in *; rewrite !stream_route_cons.
  - rewrite (Hkey r0 eq_refl). by rewrite !decide_False by congruence.
  - destruct (decide _); [done|]. apply IH; [by exists x|done|done].
Qed.

Lemma stream_route_app k rs r : k ≠ stream_key r → stream_route k (rs ++ [r]) = stream_route k rs.
Proof.
  intros Hk. induction rs as [|r0 rs IH]; simpl; rewrite !stream_route_cons.
  - by rewrite decide_False by congruence.
  - by rewrite IH.
Qed.

Lemma stream_route_Some k rs r :
  NoDup (stream_key <$> rs) → stream_route k rs = Some r ↔ r ∈ rs ∧ stream_key r = k.
Proof.
  intros Hnd. induction rs as [|r0 rs IH]; [set_solver|].
  rewrite stream_route_cons. apply NoDup_cons in Hnd as [Hr0 Hnd]. specialize (IH Hnd).
  rewrite elem_of_cons. destruct (decide _) as [<-|Hne].
  - split; [intros [= <-]; by split; [left|]|]. intros [[->|Hin] Hk]; [done|].
    destruct Hr0. rewrite <- Hk. by apply list_elem_of_fmap_2.
  - rewrite IH. naive_solver.
Qed.

Lemma stream_route_perm k rs rs' :
  rs ≡ₚ rs' → NoDup (stream_key <$> rs) → stream_route k rs = stream_route k rs'.
Proof.
  intros Hp Hnd. apply option_eq. intros r. rewrite !stream_route_Some; [by rewrite Hp|by rewrite <- Hp|done].
Qed.

Section Durable.
Context `{E : Ethsign} `{C : Cbor} `{K : SessionKeys} `{RC : RecoveryCbor} {RCL : RecoveryCborLaws RC}.
Context (S : Real.Sodium) {SL : Real.SodiumLaws S}.

#[local] Instance store_instance : RecoveryStore RecoveryDb := recovery_store S.

Definition route_row (db : RecoveryDb) (r : ReceiptRouteState) (row : list Z * list Z) : Prop :=
  row.1 = rsr_route_epoch (request r) ∧ store_decrypt S db de_route row.2 = Ok r.

Definition held (db : RecoveryDb) (rs : list ReceiptRouteState) (k : StreamKey) : Prop :=
  match stream_route k rs with
  | Some r => ∃ key row, ser_stream_key k = Ok key ∧ receipt_session_route_recovery db !! key = Some row ∧
                route_row db r row
  | None => ∀ key, ser_stream_key k = Ok key → receipt_session_route_recovery db !! key = None
  end.

Definition header_held (db : RecoveryDb) (a : ActiveReceiptSession) : Prop :=
  ∃ enc, receipt_session_recovery db = Some (header_row (persisted_header a) enc) ∧
    store_decrypt S db de_header enc = Ok (persisted_header a).

(** The key and the nonces have the lengths libsodium wants, and every row is
    the one of a stream. *)
Record store_ok (db : RecoveryDb) : Prop := {
  so_key : length (recovery_key db) = Real.KEYBYTES;
  so_nonces n : length (nonce_source db n) = Real.NONCEBYTES;
  so_rows key : is_Some (receipt_session_route_recovery db !! key) → ∃ k, ser_stream_key k = Ok key;
}.

Definition cleared (db : RecoveryDb) : Prop :=
  receipt_session_recovery db = None ∧ receipt_session_route_recovery db = ∅.

Definition few_units (n : Z) (a : ActiveReceiptSession) : Prop :=
  NoDup (stream_key <$> routes a) ∧ Forall (fun r => 0 ≤ pending_request_service_units r ≤ n) (routes a).

(** The store holds the session that is active, and nothing otherwise. *)
Definition durable (n : Z) (m : Manager RecoveryDb) : Prop :=
  ∃ db, recovery_store_opt m = Some db ∧ store_ok db ∧
    match active_opt m with
    | Some a => header_held db a ∧ (∀ k, held db (routes a) k) ∧ few_units n a
    | None => cleared db
    end.

(** The same but for the header and the route of [k], which are about to be saved. *)
Definition unsaved (n : Z) (k : StreamKey) (m : Manager RecoveryDb) : Prop :=
  ∃ db a, recovery_store_opt m = Some db ∧ store_ok db ∧ active_opt m = Some a ∧
    is_Some (stream_route k (routes a)) ∧ (∀ k', k' ≠ k → held db (routes a) k') ∧ few_units n a.

Lemma store_decrypt_key {T} db db' (from : list Z → result T string) enc :
  recovery_key db' = recovery_key db → store_decrypt S db' from enc = store_decrypt S db from enc.
Proof. intros Hk. unfold store_decrypt. by rewrite Hk. Qed.

Lemma held_same db db' rs k :
  receipt_session_route_recovery db' = receipt_session_route_recovery db →
  recovery_key db' = recovery_key db → held db rs k → held db' rs k.
Proof.
  intros Ht Hk. unfold held. rewrite Ht. destruct (stream_route k rs); [|done].
  intros (key & row & ? & ? & ? & ?). exists key, row. repeat split; try done.
  by rewrite (store_decrypt_key db db').
Qed.

Lemma durable_mono n n' m : n ≤ n' → durable n m → durable n' m.
Proof.
  intros Hn (db & ? & ? & H). exists db. split; [done|]. split; [done|]. destruct (active_opt m); [|done].
  destruct H as (? & ? & Hnd & Hf). do 3 (split; [done|]). eapply Forall_impl; [exact Hf|]. simpl. lia.
Qed.

(** An encryption uses a nonce and leaves the tables alone; what it returns can
    be read again. *)
Lemma store_encrypt_spec db ser res db' :
  store_encrypt S db ser = (res, db') →
  db' = mkRecoveryDb (receipt_session_recovery db) (receipt_session_route_recovery db) (recovery_key db)
          (nonce_source db) (nonces_drawn db') ∧
  ∀ enc, res = Ok enc → store_ok db →
    ∃ bytes, ser = Ok bytes ∧ Real.real_decode_sym S (recovery_key db) enc = Ok bytes.
Proof.
  unfold store_encrypt. destruct ser as [bytes|e]; intros [= <- <-]; [|split; [by destruct db|done]].
  split; [done|]. intros enc Henc Hok. exists bytes. split; [done|].
  destruct (Real.real_sym_roundtrip S (nonce_source db (nonces_drawn db)) (recovery_key db) bytes)
    as (ct & Hct & Hdec); [apply (so_nonces _ Hok)|apply (so_key _ Hok)|].
  rewrite Hct in Henc. cbn in Henc. by injection Henc as <-.
Qed.

Lemma store_ok_tables db h t :
  store_ok db → (∀ key, is_Some (t !! key) → ∃ k, ser_stream_key k = Ok key) → store_ok (with_tables db h t).
Proof. intros [? ? ?] Ht. by split. Qed.

Lemma store_ok_drawn db n :
  store_ok db →
  store_ok (mkRecoveryDb (receipt_session_recovery db) (receipt_session_route_recovery db) (recovery_key db)
              (nonce_source db) n).
Proof. intros [? ? ?]. by split. Qed.

(** *** Saving *)

Lemma durable_clear n : hoare True (fun m => ∃ db, recovery_store_opt m = Some db ∧ store_ok db ∧ active_opt m = None)
  (clear_store (St := RecoveryDb)) (fun _ => durable n) (durable n).
Proof.
  apply hoare_with_manager. intros m0 (db & Hs & Hok & Ha). rewrite Hs.
  intros ? ->. exists (with_tables db None ∅). split; [done|]. split; [|simpl; by rewrite Ha].
  apply store_ok_tables; [done|]. intros key [x Hx]. by rewrite lookup_empty in Hx.
Qed.

Lemma durable_revoke {A} n msg :
  hoare True (fun m => ∃ db, recovery_store_opt m = Some db ∧ store_ok db)
    (revoke_after_persistence_error (St := RecoveryDb) (A := A) msg) (fun _ => durable n) (durable n).
Proof.
  eapply hoare_seq; [apply hoare_set_active; intros m (db & Hs & Hok)|].
  { instantiate (1 := fun m => ∃ db, recovery_store_opt m = Some db ∧ store_ok db ∧ active_opt m = None).
    by exists db. }
  eapply hoare_seq; [apply (durable_clear n)|]. by apply hoare_fail.
Qed.

(** What a save that returns leaves behind. *)
Lemma save_header_held db a res db' :
  store_ok db → real_save_header S db (persisted_header a) = (res, db') →
  store_ok db' ∧ receipt_session_route_recovery db' = receipt_session_route_recovery db ∧
  recovery_key db' = recovery_key db ∧ (res = Ok () → header_held db' a).
Proof.
  intros Hok. unfold real_save_header. destruct (store_encrypt _ _ _) as [r1 db1] eqn:H1.
  destruct (store_encrypt_spec _ _ _ _ H1) as [Hdb1 Henc]. destruct r1 as [enc|e]; intros [= <- <-].
  - destruct (Henc enc eq_refl Hok) as (bytes & Hser & Hdec). rewrite Hdb1. split.
    { apply store_ok_tables; [by apply store_ok_drawn|]. apply (so_rows _ Hok). }
    split; [done|]. split; [done|]. intros _. exists enc. split; [done|]. unfold store_decrypt. cbn. rewrite Hdec.
    cbn. by rewrite (de_ser_header _ _ Hser).
  - rewrite Hdb1. split; [by apply store_ok_drawn|]. done.
Qed.

Lemma save_route_held db a rs route k res db' :
  store_ok db → stream_route k rs = Some route → stream_key route = k →
  (∀ k', k' ≠ k → held db rs k') →
  real_save_header_and_route S db (persisted_header a) route = (res, db') →
  store_ok db' ∧ (res = Ok () → header_held db' a ∧ ∀ k', held db' rs k').
Proof.
  intros Hok Hroute Hk Hheld. unfold real_save_header_and_route.
  destruct (negb _); [intros [= <- <-]; by split|].
  destruct (store_encrypt S db _) as [r1 db1] eqn:H1.
  destruct (store_encrypt_spec _ _ _ _ H1) as [Hdb1 Henc1].
  assert (store_ok db1) as Hok1 by (rewrite Hdb1; by apply store_ok_drawn).
  destruct r1 as [enc1|e]; [|intros [= <- <-]; by split].
  destruct (store_encrypt S db1 _) as [r2 db2] eqn:H2.
  destruct (store_encrypt_spec _ _ _ _ H2) as [Hdb2 Henc2].
  assert (store_ok db2) as Hok2 by (rewrite Hdb2; by apply store_ok_drawn).
  destruct r2 as [enc2|e]; [|intros [= <- <-]; by split].
  unfold stream_key_cbor. rewrite Hk. destruct (ser_stream_key k) as [key|e] eqn:Hkey; intros [= <- <-]; [|by split].
  assert (recovery_key db2 = recovery_key db ∧
    receipt_session_route_recovery db2 = receipt_session_route_recovery db) as [Hrk Htab]
    by (rewrite Hdb2, Hdb1; done).
  split.
  { apply store_ok_tables; [done|]. intros key' [row Hrow]. apply lookup_insert_Some in Hrow as [[<- _]|[_ Hrow]].
    - by exists k.
    - apply (so_rows _ Hok2). by exists row. }
  intros _. destruct (Henc1 enc1 eq_refl Hok) as (b1 & Hs1 & Hd1), (Henc2 enc2 eq_refl Hok1) as (b2 & Hs2 & Hd2).
  split.
  { exists enc1. split; [done|]. unfold store_decrypt. cbn. rewrite Hrk, Hd1. cbn. by rewrite (de_ser_header _ _ Hs1). }
  intros k'. destruct (decide (k' = k)) as [->|Hne].
  - unfold held. rewrite Hroute. exists key, (rsr_route_epoch (request route), enc2). cbn.
    split; [done|]. split; [by rewrite lookup_insert_eq|]. split; [done|]. unfold store_decrypt. cbn.
    replace (recovery_key db2) with (recovery_key db1) by (by rewrite Hdb2). rewrite Hd2. cbn.
    by rewrite (de_ser_route _ _ Hs2).
  - specialize (Hheld k' Hne). unfold held in *. destruct (stream_route k' rs) as [r|].
    + destruct Hheld as (key' & row & Hk' & Hrow & Hep & Hd). exists key', row. cbn. split; [done|].
      split; [|split; [done|]].
      * rewrite Htab, lookup_insert_ne; [done|]. intros <-. destruct Hne. by eapply ser_stream_key_inj.
      * by rewrite (store_decrypt_key db).
    + intros key' Hk'. cbn. rewrite Htab, lookup_insert_ne; [by apply Hheld|]. intros <-. destruct Hne.
      by eapply ser_stream_key_inj.
Qed.

(** *** Every call keeps the store in step *)

(** Case analysis on the outermost test of a program. *)
Local Ltac hoare_if := match goal with |- hoare _ _ (if ?b then _ else _) _ _ => destruct b eqn:? end.


Abbreviation steady n c := (hoare True (durable n) c (fun _ => durable n) (durable n)).

Lemma durable_persist_header n :
  hoare True (fun m => ∃ db a, recovery_store_opt m = Some db ∧ store_ok db ∧ active_opt m = Some a ∧
                (∀ k, held db (routes a) k) ∧ few_units n a)
    persist_header (fun _ => durable n) (durable n).
Proof.
  apply hoare_with_manager. intros m0 (db & a & Hs & Hok & Ha & Hheld & Hf). rewrite Ha, Hs. cbn [save_header store_instance recovery_store].
  destruct (real_save_header S db (persisted_header a)) as [r db'] eqn:Hsave.
  destruct (save_header_held _ _ _ _ Hok Hsave) as (Hok' & Ht & Hk & Hh).
  intros ? ->. destruct r as [[]|msg].
  - exists db'. split; [done|]. split; [done|]. simpl. rewrite Ha. split; [by apply Hh|]. split; [|done].
    intros k. by apply (held_same db).
  - apply (durable_revoke n msg). by exists db'.
Qed.

Lemma durable_persist_route n k :
  hoare True (unsaved n k) (persist_route k) (fun _ => durable n) (durable n).
Proof.
  apply hoare_with_manager. intros m0 (db & a & Hs & Hok & Ha & [route Hroute] & Hheld & Hf). rewrite Ha.
  pose proof Hroute as Hr. unfold stream_route in Hroute.
  destruct (find_stream k (routes a)) as [[i r]|] eqn:Hfind; [|done]. cbn in Hroute. injection Hroute as ->.
  destruct (find_stream_Some _ _ _ _ Hfind) as [_ Hkey].
  rewrite Hs. cbn [save_header_and_route store_instance recovery_store].
  destruct (real_save_header_and_route S db (persisted_header a) route) as [r db'] eqn:Hsave.
  destruct (save_route_held _ _ _ _ _ _ _ Hok Hr Hkey Hheld Hsave) as [Hok' Hh].
  intros ? ->. destruct r as [[]|msg].
  - exists db'. split; [done|]. split; [done|]. simpl. rewrite Ha. by destruct (Hh eq_refl).
  - apply (durable_revoke n msg). by exists db'.
Qed.

Lemma steady_ret {A} n (x : A) : steady n (ret x).
Proof. by apply hoare_ret. Qed.
Lemma steady_fail {A} n e : steady n (fail (A := A) e).
Proof. by apply hoare_fail. Qed.
Lemma steady_lift {A} n (r : result A _) : steady n (lift r).
Proof. intros m Hm. unfold lift. by destruct r. Qed.
Lemma steady_quiet {A} n n' (c : M RecoveryDb A) :
  hoare True (durable n) c (fun _ => durable n') (durable n') →
  hoare True (durable n) (quiet c) (fun _ => durable n') (durable n').
Proof. intros Hc. eapply hoare_bind; [exact Hc|]. intros x. by apply hoare_ret. Qed.

Lemma durable_store n m : durable n m → ∃ db, recovery_store_opt m = Some db ∧ store_ok db.
Proof. intros (db & ? & ? & _). by exists db. Qed.

Lemma steady_status n now : steady n (status now).
Proof.
  apply hoare_with_manager. intros m0 Hm0.
  eapply hoare_seq with (P' := durable n).
  - destruct (match active_opt m0 with Some _ => _ | None => false end).
    + eapply hoare_pre; [|intros ? ->; exact Hm0]. eapply hoare_seq; [|apply (durable_clear n)].
      apply hoare_set_active. intros m (db & ? & ?)%durable_store. by exists db.
    + apply hoare_ret. by intros ? ->.
  - apply hoare_with_manager. intros m1 Hm1.
    destruct (active_opt m1) as [a|]; [cbv zeta; case_match|]; apply hoare_ret; by intros ? ->.
Qed.

Lemma steady_get {A} n (k : Manager RecoveryDb → M RecoveryDb A) :
  (∀ m, steady n (k m)) → steady n (bind get_manager k).
Proof. intros H. apply hoare_with_manager. intros m0 Hm0. eapply hoare_pre; [apply H|]. by intros ? ->. Qed.
Lemma steady_bind {A B} n (c : M RecoveryDb A) (k : A → M RecoveryDb B) :
  steady n c → (∀ x, steady n (k x)) → steady n (bind c k).
Proof. intros Hc Hk. by eapply hoare_bind. Qed.
Lemma steady_set_pending n p : steady n (set_pending p).
Proof. by apply hoare_set_pending. Qed.

Lemma steady_propose n max d now kr nr : steady n (propose (St := RecoveryDb) max d now kr nr).
Proof.
  unfold propose. destruct (parse_u128 max); [|apply steady_fail].
  repeat (case_match; [apply steady_fail|]).
  apply steady_bind; [apply steady_lift|intros expires]. apply steady_get. intros m. cbv zeta.
  case_match; [apply steady_fail|]. apply steady_bind; [apply steady_lift|intros typed].
  apply steady_bind; [apply steady_set_pending|intros _]. apply steady_ret.
Qed.

Lemma steady_stop n : steady n (stop (St := RecoveryDb)).
Proof.
  apply steady_bind; [apply steady_set_pending|intros _].
  eapply hoare_seq; [|eapply hoare_seq; [apply (durable_clear n)|apply steady_ret]].
  apply hoare_set_active. intros m (db & ? & ?)%durable_store. by exists db.
Qed.

(** The session that an activation is about to write. *)
Lemma durable_activated n auth c :
  0 ≤ n →
  hoare True (fun m => ∃ db, recovery_store_opt m = Some db ∧ store_ok db ∧ cleared db)
    (do _ := set_pending None in do _ := set_active (Some (mkActive auth c [] 0)) in persist_header)
    (fun _ => durable n) (durable n).
Proof.
  intros Hn. eapply hoare_seq with (P' := fun m => ∃ db, recovery_store_opt m = Some db ∧ store_ok db ∧ cleared db).
  { by apply hoare_set_pending. }
  eapply hoare_seq; [apply hoare_set_active|apply durable_persist_header].
  intros m (db & Hs & Hok & _ & Ht). exists db, (mkActive auth c [] 0). do 3 (split; [done|]).
  split; [|split; constructor]. intros k key _. by rewrite Ht, lookup_empty.
Qed.

Lemma hoare_ext {A} P (c c' : M RecoveryDb A) Q Er :
  (∀ m, c m = c' m) → hoare True P c' Q Er → hoare True P c Q Er.
Proof. intros Hc H m Hm. rewrite Hc. by apply H. Qed.

Lemma steady_activate n id sig now : 0 ≤ n → steady n (activate (St := RecoveryDb) id sig now).
Proof.
  intros Hn. apply hoare_with_manager. intros m0 Hm0. eapply hoare_pre with (P := fun m => m = m0 ∧ durable n m).
  2: { by intros ? ->. }
  assert (∀ A e, hoare True (fun m => m = m0 ∧ durable n m) (fail (A := A) e) (fun _ => durable n) (durable n)) as Hfail
    by (intros A e; apply hoare_fail; by intros m []).
  destruct (pending_opt m0) as [p|]; [|apply Hfail]. case_match; [apply Hfail|]. case_match.
  { eapply hoare_pre with (P := durable n); [|by intros m []].
    apply steady_bind; [apply steady_set_pending|intros _; apply steady_fail]. }
  eapply hoare_bind with (Q' := fun _ m => m = m0 ∧ durable n m).
  { intros m Hm. unfold lift. destruct (signature_from_hex sig); [done|apply Hm]. }
  intros signature. cbv zeta. eapply hoare_bind with (Q' := fun _ m => m = m0 ∧ durable n m).
  { intros m Hm. unfold lift. destruct (map_err _ _); [done|apply Hm]. }
  intros _. destruct (durable_store _ _ Hm0) as (db & Hs & Hok). rewrite Hs.
  eapply hoare_bind with (Q' := fun _ m => ∃ db, recovery_store_opt m = Some db ∧ store_ok db ∧ cleared db).
  { intros m _. simpl. exists (with_tables db None ∅). split; [done|]. split; [|done].
    apply store_ok_tables; [done|]. intros key [x Hx]. by rewrite lookup_empty in Hx. }
  intros _. eapply hoare_ext with (c' := bind (do _ := set_pending None in
    do _ := set_active (Some (mkActive _ _ [] 0)) in persist_header) (fun _ => status now)).
  { done. }
  eapply hoare_seq; [by apply durable_activated|apply steady_status].
Qed.

Lemma stream_route_is_Some k rs : k ∈ stream_key <$> rs → is_Some (stream_route k rs).
Proof.
  induction rs as [|r rs IH]; simpl; [set_solver|]. rewrite stream_route_cons.
  destruct (decide _); [by eexists|]. intros [?|?]%elem_of_cons; [congruence|auto].
Qed.

(** A route of the session is replaced, and is still to be saved. *)
Lemma unsaved_put n n' m a i route route' spent :
  durable n m → active_opt m = Some a → routes a !! i = Some route →
  stream_key route' = stream_key route → 0 ≤ pending_request_service_units route' ≤ n' → n ≤ n' →
  unsaved n' (stream_key route)
    (mkManager (config m) (pending_opt m)
       (Some (mkActive (active_authorization a) (payer_cryptde a) (<[i := route']> (routes a)) spent))
       (recovery_store_opt m) (recovery_required m)).
Proof.
  intros (db & Hs & Hok & H) Ha Hi Hkey Hu Hn. rewrite Ha in H. destruct H as (_ & Hheld & Hnd & Hf).
  eexists db, _. do 3 (split; [done|]). cbn [routes].
  assert (stream_key <$> <[i := route']> (routes a) = stream_key <$> routes a) as Hkeys
    by by eapply fmap_insert_same. split.
  { apply stream_route_is_Some. rewrite Hkeys. by eapply list_elem_of_fmap_2, list_elem_of_lookup_2. }
  split; [|split].
  - intros k' Hk'. specialize (Hheld k'). unfold held in *. rewrite stream_route_insert; [done|by eexists| |congruence].
    intros r0 Hr0. rewrite Hi in Hr0. injection Hr0 as <-. done.
  - cbn [routes]. by rewrite Hkeys.
  - cbn [routes]. apply Forall_insert; [|done]. eapply Forall_impl; [exact Hf|]. simpl. lia.
Qed.

(** A route is added for a stream that has none. *)
Lemma unsaved_add n m a route :
  durable n m → active_opt m = Some a → find_stream (stream_key route) (routes a) = None →
  0 ≤ pending_request_service_units route ≤ n →
  unsaved n (stream_key route)
    (mkManager (config m) (pending_opt m) (Some (with_routes a (routes a ++ [route])))
       (recovery_store_opt m) (recovery_required m)).
Proof.
  intros (db & Hs & Hok & H) Ha Hnone Hu. rewrite Ha in H. destruct H as (_ & Hheld & Hnd & Hf).
  eexists db, _. do 3 (split; [done|]). cbn [routes with_routes]. split.
  { apply stream_route_is_Some. rewrite fmap_app. set_solver. }
  split; [|split; cbn [routes with_routes]].
  - intros k' Hk'. specialize (Hheld k'). unfold held in *. by rewrite stream_route_app.
  - rewrite fmap_app. apply NoDup_app. split; [done|]. split; [|apply NoDup_singleton].
    intros k Hk ->%list_elem_of_singleton. by apply find_stream_None in Hnone.
  - apply Forall_app. by split; [|apply Forall_singleton].
Qed.

(** The session, and the manager, a body starts with. *)
Abbreviation running n a c n' :=
  (hoare True (fun m => durable n m ∧ active_opt m = Some a) c (fun _ => durable n') (durable n')).

Lemma running_steady {A} n n' a (c : M RecoveryDb A) : n ≤ n' → steady n c → running n a c n'.
Proof.
  intros Hn H. eapply hoare_conseq; [exact H|by intros m []|intros x m|intros m]; by apply durable_mono.
Qed.

Lemma running_put {A} n n' a i route route' spent (c : M RecoveryDb A) :
  routes a !! i = Some route → stream_key route' = stream_key route →
  0 ≤ pending_request_service_units route' ≤ n' → n ≤ n' →
  hoare True (durable n') c (fun _ => durable n') (durable n') →
  running n a (do _ := charged_route a i route' spent in do _ := persist_route (stream_key route) in c) n'.
Proof.
  intros Hi Hk Hu Hn Hc. eapply hoare_seq; [|eapply hoare_seq; [apply durable_persist_route|exact Hc]].
  apply hoare_set_active. intros m [Hm Ha]. by eapply unsaved_put.
Qed.

Lemma running_put_last n n' a i route route' :
  routes a !! i = Some route → stream_key route' = stream_key route →
  0 ≤ pending_request_service_units route' ≤ n' → n ≤ n' →
  running n a (do _ := put_route a i route' in persist_route (stream_key route)) n'.
Proof.
  intros Hi Hk Hu Hn. eapply hoare_seq; [|apply durable_persist_route].
  apply hoare_set_active. intros m [Hm Ha]. by eapply unsaved_put.
Qed.

Lemma with_stream_durable {A} n n' k now (body : _ → _ → _ → M RecoveryDb A) :
  n ≤ n' →
  (∀ a i route, routes a !! i = Some route → stream_key route = k →
     0 ≤ pending_request_service_units route ≤ n → running n a (body a i route) n') →
  hoare True (durable n) (with_stream k now body) (fun _ => durable n') (durable n').
Proof.
  intros Hn Hbody.
  eapply hoare_seq with (P' := durable n).
  { eapply hoare_conseq; [apply (steady_status n)|done|done|intros m; by apply durable_mono]. }
  apply hoare_with_manager. intros m0 Hm0.
  destruct (active_opt m0) as [a|] eqn:Ha; [|apply hoare_fail; intros ? ->; by eapply durable_mono].
  destruct (find_stream k (routes a)) as [[i route]|] eqn:Hf;
    [|apply hoare_fail; intros ? ->; by eapply durable_mono].
  destruct (find_stream_Some _ _ _ _ Hf) as [Hi Hk]. eapply hoare_pre; [apply (Hbody a i route)|]; try done.
  - destruct Hm0 as (db & _ & _ & H). rewrite Ha in H. destruct H as (_ & _ & _ & H).
    rewrite Forall_lookup in H. by apply (H i).
  - by intros ? ->.
Qed.

Lemma running_lift {A B} n n' a (r : result A _) (k : A → M RecoveryDb B) :
  n ≤ n' → (∀ x, r = Ok x → running n a (k x) n') → running n a (bind (lift r) k) n'.
Proof.
  intros Hn Hk. eapply hoare_bind; [apply hoare_lift; intros m []; by eapply durable_mono|].
  intros x. cbn beta. apply hoare_pure. apply Hk.
Qed.
Lemma running_lift_fallible {A B} n n' a (c : fallible A _) (k : A → M RecoveryDb B) :
  n ≤ n' → (∀ x, c = Ret (Ok x) → running n a (k x) n') → running n a (bind (lift_fallible c) k) n'.
Proof.
  intros Hn Hk. eapply hoare_bind; [apply hoare_lift_fallible; [done|intros m []; by eapply durable_mono]|].
  intros x. cbn beta. apply hoare_pure. apply Hk.
Qed.

Lemma steady_bind_exit_quote n k p sr br now : steady n (bind_exit_quote k p sr br now).
Proof.
  apply with_stream_durable; [done|]. intros a i route Hi <- Hu.
  repeat case_match; try (apply running_steady; [done|apply steady_ret || apply steady_fail]).
  by apply running_put_last.
Qed.

Lemma steady_bind_routing_quotes n k rq rs now : steady n (bind_routing_quotes k rq rs now).
Proof.
  apply with_stream_durable; [done|]. intros a i route Hi <- Hu. cbv zeta.
  hoare_if; [hoare_if; (apply running_steady; [done|apply steady_ret || apply steady_fail])|].
  apply running_lift; [done|]. intros states _. by apply running_put_last.
Qed.

Lemma record_routing_payload_same route providers size route' :
  record_routing_payload route providers size = Ret (Ok route') →
  stream_key route' = stream_key route ∧ pending_request_service_units route' = pending_request_service_units route.
Proof.
  unfold record_routing_payload. destruct (existsb _ _); [done|].
  destruct (push_payloads _ _ _); [|done]. by intros [= <-].
Qed.

Lemma steady_record_routing n k size now providers :
  steady n (with_stream k now (fun active i route =>
    do route' := lift_fallible (record_routing_payload route (providers route) size) in
    do _ := put_route active i route' in persist_route k)).
Proof.
  apply with_stream_durable; [done|]. intros a i route Hi <- Hu.
  apply running_lift_fallible; [done|]. intros route' [Hk Hu']%record_routing_payload_same.
  apply running_put_last; [done|done|by rewrite Hu'|done].
Qed.

Lemma steady_record_exit_response n k seq size now : 0 ≤ n → steady n (record_exit_response k seq size now).
Proof.
  intros Hn. apply with_stream_durable; [done|]. intros a i route Hi <- Hu.
  do 2 (hoare_if; [apply running_steady; [done|apply steady_fail]|]).
  apply running_lift; [done|]. intros x _. apply running_lift; [done|]. intros y _. by apply running_put_last.
Qed.

Lemma durable_record_exit_request n k size now :
  n < 2 ^ 64 - 1 →
  hoare True (durable n) (record_exit_request k size now) (fun _ => durable (n + 1)) (durable (n + 1)).
Proof.
  intros Hn. apply with_stream_durable; [lia|]. intros a i route Hi <- Hu.
  hoare_if; [apply running_steady; [lia|apply steady_ret]|]. apply running_lift; [lia|]. intros total _.
  assert (checked_add 64 (pending_request_service_units route) 1 = Some (pending_request_service_units route + 1))
    as Hadd by (apply checked_add_Some; unfold in_u; lia).
  rewrite Hadd. eapply hoare_seq with (P' := fun m' => ∃ m, durable n m ∧ active_opt m = Some a ∧
    config m' = config m ∧ pending_opt m' = pending_opt m ∧ recovery_store_opt m' = recovery_store_opt m ∧
    recovery_required m' = recovery_required m).
  { apply hoare_set_active. intros m [Hm Ha]. by exists m. }
  eapply hoare_seq with (P' := unsaved (n + 1) (stream_key route)); [|apply durable_persist_route].
  apply hoare_set_active. intros m' (m & Hm & Ha & -> & -> & -> & ->). eapply unsaved_put; try done; simpl; lia.
Qed.

Lemma running_get {A} n n' a (k : Manager RecoveryDb → M RecoveryDb A) :
  (∀ m, running n a (k m) n') → running n a (bind get_manager k) n'.
Proof. intros H. apply hoare_with_manager. intros m0 Hm0. eapply hoare_pre; [apply H|]. by intros ? ->. Qed.

Lemma with_epoch_durable {A} n epoch now (body : _ → _ → _ → M RecoveryDb A) :
  (∀ a i route, routes a !! i = Some route → 0 ≤ pending_request_service_units route ≤ n →
     running n a (body a i route) n) →
  steady n (with_epoch epoch now body).
Proof.
  intros Hbody. eapply hoare_seq; [apply steady_status|].
  apply hoare_with_manager. intros m0 Hm0.
  destruct (active_opt m0) as [a|] eqn:Ha; [|apply hoare_fail; by intros ? ->].
  destruct (find_epoch epoch (routes a)) as [[i route]|] eqn:Hf; [|apply hoare_fail; by intros ? ->].
  destruct (find_epoch_Some _ _ _ _ Hf) as [Hi _]. eapply hoare_pre; [apply (Hbody a i route)|]; try done.
  - destruct Hm0 as (db & _ & _ & H). rewrite Ha in H. destruct H as (_ & _ & _ & H).
    rewrite Forall_lookup in H. by apply (H i).
  - by intros ? ->.
Qed.

Lemma steady_acknowledge_routing n signed now : steady n (acknowledge_routing_offer signed now).
Proof.
  apply with_epoch_durable. intros a i route Hi Hu. apply running_lift; [done|]. intros st _.
  destruct (repeated _ _); [apply running_steady; [done|apply steady_ret]|].
  do 2 (apply running_lift; [done|]; intros ? _).
  hoare_if; [apply running_steady; [done|apply steady_fail]|].
  apply running_get. intros m. apply running_lift_fallible; [done|]. intros [[cp payload] spent] _.
  by apply running_put; [..|apply steady_ret].
Qed.

Lemma steady_acknowledge n signed now : steady n (acknowledge_offer signed now).
Proof.
  unfold acknowledge_offer. cbv zeta. hoare_if; [apply steady_acknowledge_routing|].
  apply with_epoch_durable. intros a i route Hi Hu.
  destruct (repeated _ _); [apply running_steady; [done|apply steady_ret]|].
  do 3 (apply running_lift; [done|]; intros ? _). apply running_lift; [done|]. intros [[o1 o2] o3] _.
  do 2 (hoare_if; [apply running_steady; [done|apply steady_fail]|]).
  apply running_get. intros m. apply running_lift_fallible; [done|]. intros [[cp payload] spent] _.
  by apply running_put; [..|apply steady_ret].
Qed.

Lemma steady_decrypt n from offer now : steady n (decrypt_routing_offer (St := RecoveryDb) from offer now).
Proof.
  eapply hoare_seq; [apply steady_status|]. apply hoare_with_manager. intros m0 Hm0.
  destruct (active_opt m0) as [a|]; [|apply hoare_fail; by intros ? ->].
  intros ? ->. unfold lift_fallible. by destruct (map_err_fallible _ _) as [[|]|].
Qed.

(** Both ways to add a route. *)
Lemma running_add {A} n a k req (c : M RecoveryDb A) :
  0 ≤ n → find_stream k (routes a) = None → steady n c →
  running n a (do _ := set_active (Some (with_routes a (routes a ++ [route_state k req]))) in
               do _ := persist_route k in c) n.
Proof.
  intros Hn Hk Hc. eapply hoare_seq; [|eapply hoare_seq; [apply durable_persist_route|exact Hc]].
  apply hoare_set_active. intros m [Hm Ha]. by apply unsaved_add.
Qed.

Lemma steady_request n k now rand : 0 ≤ n → steady n (request_for_stream k now rand).
Proof.
  intros Hn. eapply hoare_seq; [apply steady_status|]. apply hoare_with_manager. intros m0 Hm0.
  destruct (active_opt m0) as [a|] eqn:Ha; [|apply hoare_ret; by intros ? ->].
  eapply hoare_pre with (P := fun m => durable n m ∧ active_opt m = Some a); [|by intros ? ->].
  destruct (find_stream k (routes a)) as [[i route]|] eqn:Hf; [apply running_steady; [done|apply steady_ret]|].
  hoare_if; [apply running_steady; [done|apply steady_fail]|].
  apply running_lift; [done|]. intros req _. apply running_add; [done|done|apply steady_ret].
Qed.

Lemma steady_rotate n k now rand : 0 ≤ n → steady n (rotate_route_for_stream k now rand).
Proof.
  intros Hn. eapply hoare_seq; [apply steady_status|]. apply hoare_with_manager. intros m0 Hm0.
  destruct (active_opt m0) as [a|] eqn:Ha; [|apply hoare_ret; by intros ? ->].
  eapply hoare_pre with (P := fun m => durable n m ∧ active_opt m = Some a); [|by intros ? ->].
  apply running_lift; [done|]. intros req _.
  destruct (find_stream k (routes a)) as [[i route]|] eqn:Hf.
  - destruct (find_stream_Some _ _ _ _ Hf) as [Hi <-].
    eapply hoare_seq; [|eapply hoare_seq; [apply durable_persist_route|apply steady_ret]].
    apply hoare_set_active. intros m [Hm Ha']. by eapply unsaved_put.
  - eapply hoare_seq with (P' := unsaved n k); [|eapply hoare_seq; [apply durable_persist_route|apply steady_ret]].
    hoare_if; [|apply hoare_fail; by intros m []].
    apply hoare_set_active. intros m [Hm Ha']. by apply (unsaved_add n m a (route_state k req)).
Qed.

(** *** Runs *)

Lemma call_durable n c :
  0 ≤ n < 2 ^ 64 - 1 → hoare True (durable n) (run_call c) (fun _ => durable (n + 1)) (durable (n + 1)).
Proof.
  intros Hn. assert (∀ A (c : M RecoveryDb A), steady n c →
    hoare True (durable n) (quiet c) (fun _ => durable (n + 1)) (durable (n + 1))) as Hq.
  { intros A c' H. apply steady_quiet. eapply hoare_conseq; [exact H|done|..]; intros *; apply durable_mono; lia. }
  destruct c; cbn [run_call]; try (apply steady_quiet, durable_record_exit_request; lia);
    try (apply Hq; (apply steady_status || apply steady_propose || apply steady_stop || apply steady_activate ||
      apply steady_request || apply steady_rotate || apply steady_bind_exit_quote ||
      apply steady_bind_routing_quotes || apply steady_record_routing || apply steady_decrypt ||
      apply steady_record_exit_response); lia).
  eapply hoare_bind with (Q' := fun _ => durable (n + 1)); [|intros p; by apply hoare_ret].
  eapply hoare_conseq; [apply (steady_acknowledge n)|done|..]; intros *; apply durable_mono; lia.
Qed.
End Durable.
