(* ===== verification/RecoveryRun.v ===== *)
(** * RecoveryRun: receipt sessions across restarts of the node

    The session manager of [ReceiptSession] on the store of [Recovery], over any
    history of calls and of restarts, at each of which the manager is lost and
    [enable_recoverable_receipt_sessions] of [proxy_server/mod.rs] makes one
    from the database. *)

From stdpp Require Import base list numbers option strings gmap.
From Stdlib Require Import ZArith Lia.
From S2P Require Import Prelude Text CryptDE Wallet ServiceReceipt ReceiptSettlement Eip712.
From S2P Require Import Route ReceiptSession SessionLimit Recovery.

Local Open Scope Z_scope.
Local Open Scope rust_scope.
Local Open Scope list_scope.

(** The manager, and the database if the manager has no store. *)
Record World := mkWorld { w_manager : Manager RecoveryDb; w_db : RecoveryDb }.

Definition database (w : World) : RecoveryDb := default (w_db w) (recovery_store_opt (w_manager w)).

Inductive Event := Do (c : Call) | Restart (now : Z).

Definition is_new_session (e : Event) : bool := match e with Do c => is_activation c | Restart _ => false end.
Definition is_call (e : Event) : bool := match e with Do _ => true | Restart _ => false end.

Section Run.
Context `{E : Ethsign} `{C : Cbor} `{K : SessionKeys} `{RC : RecoveryCbor} (S : Real.Sodium).

#[local] Instance run_store : RecoveryStore RecoveryDb := recovery_store S.

(** [enable_recoverable_receipt_sessions]: a manager that cannot be restored is
    replaced by one without a store. *)
Definition enable_recoverable_receipt_sessions (cfg : ReceiptSessionConfig) (store_opt : option RecoveryDb)
    (now : Z) : option (Manager RecoveryDb) :=
  match new_recovery_required cfg store_opt now with
  | Ok manager => Some manager
  | Err _ => match new_recovery_required cfg None now with Ok manager => Some manager | Err _ => None end
  end.

Definition restart (now : Z) (w : World) : World :=
  let db := database w in
  mkWorld (default (w_manager w) (enable_recoverable_receipt_sessions (config (w_manager w)) (Some db) now))
    (snd (store_load db now)).

Fixpoint run_history (es : list Event) (w : World) : exec (list ServiceReceiptPayload_0v1 * World) :=
  match es with
  | [] => Ret ([], w)
  | Do c :: es =>
      let* (r, m) := run_call c (w_manager w) in
      let* (ps, w) := run_history es (mkWorld m (database w)) in
      Ret ((match r with Ok p => p | Err _ => [] end) ++ ps, w)
  | Restart now :: es => run_history es (restart now w)
  end.
End Run.

(** ** Reading the store *)

Section Load.
Context `{E : Ethsign} `{C : Cbor} `{K : SessionKeys} `{RC : RecoveryCbor} {RCL : RecoveryCborLaws RC}.
Context (S : Real.Sodium) {SL : Real.SodiumLaws S}.

(** A row of the table is the one of a route of the session. *)
Definition row_matches (db : RecoveryDb) (rs : list ReceiptRouteState) (kr : list Z * (list Z * list Z))
    (r : ReceiptRouteState) : Prop :=
  r ∈ rs ∧ ser_stream_key (stream_key r) = Ok kr.1 ∧ route_row S db r kr.2.

Lemma load_routes_Ok db header rs rows :
  Forall (fun r => authorization (request r) = h_authorization header) rs →
  Forall (fun kr => ∃ r, row_matches db rs kr r) rows →
  ∃ rs', load_routes S db header rows = Ok rs' ∧ Forall2 (row_matches db rs) rows rs'.
Proof.
  intros Hauth. induction 1 as [|[key [epoch enc]] rows (r & Hin & Hkey & Hep & Hdec) _ IH].
  { exists []. by split. }
  destruct IH as (rs' & Hload & Hrows). exists (r :: rs'). cbn in *. split; [|by constructor].
  rewrite Hdec. cbn [result_bind]. unfold stream_key_cbor. rewrite Hkey. cbn [map_err result_bind].
  rewrite !bool_decide_eq_true_2; [cbn [negb orb]; by rewrite Hload| |done|done].
  rewrite Forall_forall in Hauth. by apply Hauth.
Qed.

Lemma rows_routes_perm db rs rows rs' :
  NoDup (stream_key <$> rs) → NoDup rows.*1 →
  (∀ r, r ∈ rs → ∃ key, ser_stream_key (stream_key r) = Ok key ∧ key ∈ rows.*1) →
  Forall2 (row_matches db rs) rows rs' → rs' ≡ₚ rs.
Proof.
  intros Hnd Hrows Hcov H2.
  assert (∀ r, r ∈ rs' → ∃ kr, kr ∈ rows ∧ row_matches db rs kr r) as Hback.
  { intros r (i & Hi)%list_elem_of_lookup. destruct (Forall2_lookup_r _ _ _ _ _ H2 Hi) as (kr & Hkr & Hm).
    exists kr. split; [by eapply list_elem_of_lookup_2|done]. }
  apply NoDup_Permutation.
  - clear Hcov Hback. revert Hrows. induction H2 as [|kr r rows rs' Hr H2 IH]; [constructor|].
    cbn. intros [Hkr Hrows]%NoDup_cons. apply NoDup_cons. split; [|by apply IH].
    intros (i & Hi)%list_elem_of_lookup. destruct (Forall2_lookup_r _ _ _ _ _ H2 Hi) as (kr' & Hkr' & _ & Hk' & _).
    destruct Hr as (_ & Hk & _). rewrite Hk in Hk'. injection Hk' as Hk'. destruct Hkr. rewrite Hk'.
    by eapply list_elem_of_fmap_2, list_elem_of_lookup_2.
  - by eapply NoDup_fmap_1.
  - intros r. split; [by intros (kr & _ & ? & _)%Hback|]. intros Hr.
    destruct (Hcov r Hr) as (key & Hkey & Hin).
    apply list_elem_of_fmap in Hin as (kr & -> & (i & Hi)%list_elem_of_lookup).
    destruct (Forall2_lookup_l _ _ _ _ _ H2 Hi) as (r' & Hr' & Hin' & Hk' & _).
    assert (stream_key r' = stream_key r) as Heq by by eapply ser_stream_key_inj.
    assert (r' = r) as ->; [|by eapply list_elem_of_lookup_2].
    pose proof (proj2 (stream_route_Some (stream_key r) rs r Hnd) (conj Hr eq_refl)) as H1.
    pose proof (proj2 (stream_route_Some (stream_key r) rs r' Hnd) (conj Hin' Heq)) as H3. congruence.
Qed.

(** A store that holds a session loads it, until it expires. *)
Lemma load_held db a now :
  store_ok db → header_held S db a → (∀ k, held S db (routes a) k) → NoDup (stream_key <$> routes a) →
  Forall (fun r => authorization (request r) = active_authorization a) (routes a) →
  now ≤ rsp_expires_at_unix_s (policy (active_authorization a)) →
  ∃ rs, rs ≡ₚ routes a ∧ real_load S db now = (Ok (Some (persisted_header a, rs)), db).
Proof.
  intros Hok (enc & Hrow & Hdec) Hheld Hnd Hauth Hnow.
  set (rows := sort_by_key fst (map_to_list (receipt_session_route_recovery db))).
  assert (rows ≡ₚ map_to_list (receipt_session_route_recovery db)) as Hp by apply sort_by_key_perm.
  destruct (load_routes_Ok db (persisted_header a) (routes a) rows) as (rs & Hload & H2); [done| |].
  { rewrite Hp. apply Forall_forall. intros [key row] Hin%elem_of_map_to_list.
    destruct (so_rows _ Hok key) as [k Hk]; [by exists row|]. specialize (Hheld k). unfold held in Hheld.
    destruct (stream_route k (routes a)) as [r|] eqn:Hr; [|by rewrite (Hheld key Hk) in Hin].
    destruct Hheld as (key' & row' & Hk' & Hrow' & Hm). rewrite Hk in Hk'. injection Hk' as <-.
    rewrite Hin in Hrow'. injection Hrow' as <-. apply (stream_route_Some _ _ _ Hnd) in Hr as [Hr <-].
    exists r. by split. }
  exists rs. split.
  - apply (rows_routes_perm db _ rows); [done|rewrite Hp; apply NoDup_fst_map_to_list| |exact H2].
    intros r Hr. specialize (Hheld (stream_key r)). unfold held in Hheld.
    rewrite (proj2 (stream_route_Some _ _ r Hnd) (conj Hr eq_refl)) in Hheld.
    destruct Hheld as (key & row & Hkey & Hin & _). exists key. split; [done|]. rewrite Hp.
    change key with (fst (key, row)). by apply list_elem_of_fmap_2, elem_of_map_to_list.
  - unfold real_load. rewrite Hrow. cbn [rr_expires_at_unix_s header_row persisted_header h_authorization encrypted_header].
    rewrite (proj2 (Z.ltb_ge _ _)) by done. rewrite Hdec. cbn [result_bind].
    cbn [rr_authorization_nonce rr_payer_session_public_key rr_expires_at_unix_s header_row].
    rewrite !bool_decide_eq_true_2 by done. rewrite Z.eqb_refl. cbn [negb orb].
    fold rows. by rewrite Hload.
Qed.
End Load.

(** ** A manager without a store *)

Section Disabled.
Context `{E : Ethsign} `{C : Cbor} `{K : SessionKeys} {St : Type} `{R : RecoveryStore St}.

Definition disabled (m : Manager St) : Prop :=
  recovery_store_opt m = None ∧ recovery_required m = true ∧ active_opt m = None.

Abbreviation idles c := (hoare True disabled c (fun _ => disabled) disabled).

Lemma status_none now (m : Manager St) : active_opt m = None → status now m = Ret (Ok inactive, m).
Proof. intros Ha. unfold status, bind, get_manager, ret. by rewrite !Ha. Qed.

Lemma idles_propose max d now kr nr : idles (propose (St := St) max d now kr nr).
Proof.
  unfold propose. destruct (parse_u128 max); [|by apply hoare_fail].
  repeat (case_match; [by apply hoare_fail|]).
  eapply hoare_bind with (Q' := fun _ => disabled); [intros m Hm; unfold lift; by destruct (ok_or _ _)|intros expires].
  apply hoare_with_manager. intros m0 Hm0. cbv zeta. case_match; [apply hoare_fail; by intros ? ->|].
  eapply hoare_bind with (Q' := fun _ => disabled); [intros m ->; unfold lift; by destruct (map_err _ _)|intros typed].
  eapply hoare_seq with (P' := disabled); [by apply hoare_set_pending|by apply hoare_ret].
Qed.

Lemma disabled_activate id sig now (m : Manager St) :
  disabled m → ∃ e m', activate id sig now m = Ret (Err e, m') ∧ disabled m'.
Proof.
  intros (Hs & Hr & Ha). unfold activate, bind at 1, get_manager.
  destruct (pending_opt m) as [p|]; [|by eexists _, m].
  destruct (negb _); [by eexists _, m|]. destruct (_ <? _); [by eexists _, _|].
  unfold bind at 1, lift at 1. destruct (signature_from_hex sig); [|by eexists _, m].
  unfold bind at 1, lift at 1. destruct (map_err _ _); [|by eexists _, m].
  rewrite Hs, Hr. by eexists _, m.
Qed.

Lemma disabled_call c (m : Manager St) :
  disabled m →
  match run_call c m with
  | Ret (r, m') => disabled m' ∧ match r with Ok ps => ps = [] | Err _ => True end
  | Panic => True
  end.
Proof.
  intros Hm. pose proof Hm as (Hs & Hr & Ha).
  assert (∀ A (c : M St A), idles c →
    match quiet c m with
    | Ret (r, m') => disabled m' ∧ match r with Ok ps => ps = [] | Err _ => True end
    | Panic => True
    end) as Hq.
  { intros A c' Hc'. specialize (Hc' m Hm). unfold quiet, bind. by destruct (c' m) as [[[|] ?]|]. }
  assert (∀ A k now body, with_stream (A := A) k now body m = Ret (Err NoActiveSession, m)) as Hws.
  { intros A k now body. unfold with_stream, bind at 1. rewrite status_none by done. unfold bind, get_manager.
    by rewrite Ha. }
  assert (∀ A epoch now body, with_epoch (A := A) epoch now body m = Ret (Err NoActiveSession, m)) as Hwe.
  { intros A k now body. unfold with_epoch, bind at 1. rewrite status_none by done. unfold bind, get_manager.
    by rewrite Ha. }
  destruct c; cbn [run_call];
    try (unfold quiet, bind at 1; unfold bind_exit_quote, bind_routing_quotes, record_routing_request,
      record_routing_response, record_exit_response, record_exit_request; rewrite Hws; done);
    try (unfold quiet, bind at 1; unfold request_for_stream, rotate_route_for_stream, decrypt_routing_offer,
      bind at 1; rewrite status_none by done; unfold bind, get_manager; by rewrite Ha).
  - unfold quiet, bind at 1. by rewrite status_none.
  - apply Hq, idles_propose.
  - unfold quiet, bind at 1. by destruct (disabled_activate id signature now m Hm) as (e & m' & -> & ?).
  - unfold quiet, stop, clear_store, bind, set_pending, set_active, get_manager, ret. cbn. by rewrite Hs.
  - unfold bind at 1. unfold acknowledge_offer, acknowledge_routing_offer. cbv zeta.
    destruct (bool_decide _); rewrite Hwe; done.
Qed.
End Disabled.

(** ** Histories *)

Section History.
Context `{E : Ethsign} `{C : Cbor} `{K : SessionKeys} {KL : SessionKeysLaws}.
Context `{RC : RecoveryCbor} {RCL : RecoveryCborLaws RC}.
Context (S : Real.Sodium) {SL : Real.SodiumLaws S}.

#[local] Instance history_store : RecoveryStore RecoveryDb := run_store S.

Section World.
Context (cfg : ReceiptSessionConfig) (A0 : AuthorizedReceiptSession → Prop) (B0 : Prop) (limit : Z).

Abbreviation inv := (manager_inv (St := RecoveryDb) cfg A0 (generated cfg) (fun _ => True) B0 limit).
Abbreviation session := (session_inv cfg A0 (generated cfg) (fun _ => True) B0).

(** What the database holds of a session that is in order. *)
Definition dormant (n : Z) (L : list SignedServiceReceipt) (db : RecoveryDb) : Prop :=
  store_ok db ∧
  (cleared db ∨ ∃ a, header_held S db a ∧ (∀ k, held S db (routes a) k) ∧ few_units n a ∧ session L a).

Definition world_inv (n : Z) (L : list SignedServiceReceipt) (w : World) : Prop :=
  inv L (w_manager w) ∧
  match recovery_store_opt (w_manager w) with
  | Some _ => durable S n (w_manager w)
  | None => disabled (w_manager w) ∧ dormant n L (w_db w)
  end.

Lemma world_dormant n L w : world_inv n L w → dormant n L (database w).
Proof.
  intros [Hi Hw]. unfold database. destruct (recovery_store_opt (w_manager w)) as [db|] eqn:Hs; [|by destruct Hw].
  destruct Hw as (db' & Hs' & Hok & H). rewrite Hs in Hs'. injection Hs' as <-. split; [done|].
  destruct (active_opt (w_manager w)) as [a|] eqn:Ha; [|by left]. right. exists a.
  destruct H as (? & ? & ?). split; [done|]. split; [done|]. split; [done|]. by apply (mi_active _ _ _ _ _ _ _ _ Hi).
Qed.

Lemma dormant_mono n n' L db : n ≤ n' → dormant n L db → dormant n' L db.
Proof.
  intros Hn [Hok [Hc|(a & ? & ? & [? Hu] & ?)]]; (split; [done|]); [by left|]. right. exists a.
  split; [done|]. split; [done|]. split; [|done]. split; [done|]. eapply Forall_impl; [exact Hu|]. simpl. lia.
Qed.

Lemma world_mono n n' L w : n ≤ n' → world_inv n L w → world_inv n' L w.
Proof.
  intros Hn [Hi Hw]. split; [done|]. destruct (recovery_store_opt _); [by eapply durable_mono|].
  destruct Hw. split; [done|]. by eapply dormant_mono.
Qed.

Lemma session_perm L a rs : rs ≡ₚ routes a → session L a → session L (with_routes a rs).
Proof.
  intros Hp [Ha Hs Hc Hn Hk He Hr]. split; cbn; [done|done|done|by rewrite Hp|by rewrite Hp|by rewrite Hp|].
  by rewrite Hp.
Qed.

Lemma session_routes L a :
  session L a → Forall (fun r => authorization (request r) = active_authorization a) (routes a).
Proof. intros [_ _ _ _ _ _ Hr]. eapply Forall_impl; [exact Hr|]. by intros r [[? _ _] _ _ _ _ _ _]. Qed.

Lemma restored_session a L rs now x :
  session L a → restore_active cfg (persisted_header a) rs now = Ok x → x = with_routes a rs.
Proof.
  intros [[_ [rand Hgen] _ _ _] _ _ _ _ _ _]. unfold restore_active. destruct (_ <? _)%nat; [done|].
  cbn [h_payer_cryptde persisted_header]. rewrite Hgen, make_from_str_to_string, <- Hgen. cbn [map_err result_bind].
  destruct (session_verify _ _ _ _ _ _); [|done]. cbn [map_err result_bind].
  destruct (negb _); [done|]. destruct (restore_routes _ _ _ _ _ _); [|done]. by intros [= <-].
Qed.

Lemma restored_held n db a rs :
  rs ≡ₚ routes a → header_held S db a → (∀ k, held S db (routes a) k) → few_units n a →
  header_held S db (with_routes a rs) ∧ (∀ k, held S db rs k) ∧ few_units n (with_routes a rs).
Proof.
  intros Hp Hh Hheld [Hnd Hu]. split; [done|]. split.
  - intros k. specialize (Hheld k). unfold held in *.
    by rewrite (stream_route_perm k rs (routes a) Hp) by (by rewrite Hp).
  - split; cbn [routes with_routes]; by rewrite Hp.
Qed.

Lemma fresh_inv L m : idle m → config m = cfg → covered L limit → inv L m.
Proof. intros [Hp Ha] Hc Hl. split; [done|done|intros p; by rewrite Hp|intros a; by rewrite Ha]. Qed.

Lemma restart_inv n L now w : world_inv n L w → world_inv n L (restart S now w).
Proof.
  intros Hw. pose proof (world_dormant _ _ _ Hw) as [Hok Hdb]. destruct Hw as [Hi _].
  pose proof (mi_limit _ _ _ _ _ _ _ _ Hi) as Hl. unfold restart. rewrite (mi_config _ _ _ _ _ _ _ _ Hi).
  set (db := database w) in *. unfold enable_recoverable_receipt_sessions, new_recovery_required.
  cbn [store_load run_store recovery_store].
  assert (∀ db', store_ok db' → cleared db' → real_load S db now = (Ok None, db') → world_inv n L (mkWorld
    (mkManager cfg None None (Some db') true) db')) as Hnone.
  { intros db' Hok' Hcl _. split; [by apply fresh_inv|]. exists db'. by split. }
  destruct Hdb as [Hcl|(a & Hh & Hheld & Hu & Hs)].
  { assert (real_load S db now = (Ok None, db)) as Hload by (unfold real_load; by rewrite (proj1 Hcl)).
    rewrite Hload. cbn. by apply Hnone. }
  destruct (Z.le_gt_cases now (rsp_expires_at_unix_s (policy (active_authorization a)))) as [Hnow|Hnow].
  - destruct (load_held S db a now) as (rs & Hp & Hload); [done|done|done|apply Hu|by eapply session_routes|done|].
    rewrite Hload. cbn [map_err result_bind snd].
    destruct (restore_active cfg (persisted_header a) rs now) as [x|e] eqn:Hr; cbn [result_bind default].
    + apply (restored_session _ L) in Hr as ->; [|done]. split; cbn [w_manager recovery_store_opt].
      * split; [done|done|done|]. cbn. intros y [= <-]. by apply session_perm.
      * exists db. split; [done|]. split; [done|]. by apply restored_held.
    + split; cbn [w_manager recovery_store_opt w_db]; [by apply fresh_inv|]. split; [done|]. split; [done|].
      right. by exists a.
  - assert (real_load S db now = (Ok None, with_tables db None ∅)) as Hload.
    { unfold real_load. destruct Hh as (enc & -> & _). cbn. by rewrite (proj2 (Z.ltb_lt _ _)) by lia. }
    rewrite Hload. cbn. apply Hnone; [|done|done]. apply store_ok_tables; [done|].
    intros key [y Hy]. by rewrite lookup_empty in Hy.
Qed.

Hypothesis A0_limit : ∀ auth, A0 auth → max_total_charge_wei (policy auth) ≤ limit.

Lemma inv_weaken L L' m : L ⊆ L' → disabled m → inv L' m → inv L m.
Proof.
  intros HL (_ & _ & Ha) [Hc Hl Hp _]. split; [done| |done|intros a; by rewrite Ha].
  by eapply covered_mono; [exact HL| |exact Hl].
Qed.

Lemma call_inv n L c w r m :
  0 ≤ n < 2 ^ 64 - 1 → is_activation c = false → (B0 → quoted_once c) → world_inv n L w → run_call c (w_manager w) = Ret (r, m) →
  ∃ L', L ⊆ L' ∧ world_inv (n + 1) L' (mkWorld m (database w)) ∧
    recorded A0 L' (match r with Ok ps => ps | Err _ => [] end).
Proof.
  intros Hn Hc Hq Hw Hrun. pose proof (world_dormant _ _ _ Hw) as Hdb. destruct Hw as [Hi Hw].
  assert (∃ L', L ⊆ L' ∧ inv L' m ∧ recorded A0 L' (match r with Ok ps => ps | Err _ => [] end)) as (L' & HL & Hi' & Hrec).
  { assert (Forall (fun _ => True) (quotes_of c) ∧ (B0 → quoted_once c)) as Hq0 by (split; [by apply Forall_true|done]).
    pose proof (run_call_keeps cfg A0 (generated cfg) (fun _ => True) B0 True limit A0_limit ltac:(intros rand; by exists rand)
      ltac:(by left) ltac:(done) L c Hc Hq0 (w_manager w) Hi) as Hkeep.
    rewrite Hrun in Hkeep. destruct r as [ps|e]; [done|]. destruct Hkeep as (L' & ? & ?). exists L'.
    split; [done|]. by split; [|constructor]. }
  destruct (recovery_store_opt (w_manager w)) as [db|] eqn:Hs.
  - pose proof (call_durable S n c Hn (w_manager w) Hw) as Hd.
    assert (durable S (n + 1) m) as Hdur.
    { change (store_instance S) with history_store in Hd. rewrite Hrun in Hd. by destruct r. }
    exists L'. split; [done|]. split; [|done]. split; [done|]. cbn.
    destruct (durable_store _ _ _ Hdur) as (db' & -> & _). done.
  - destruct Hw as [Hdis Hw]. pose proof (disabled_call c _ Hdis) as Hd. rewrite Hrun in Hd.
    destruct Hd as [Hdis' Hr]. exists L. split; [done|]. split; [split; cbn|].
    + by eapply inv_weaken.
    + rewrite (proj1 Hdis'). split; [done|]. apply (dormant_mono n); [lia|done].
    + destruct r; [subst; constructor|constructor].
Qed.

Definition calls_in (es : list Event) : Z := Z.of_nat (length (filter (fun e => is_call e = true) es)).

Lemma calls_in_nil : calls_in [] = 0.
Proof. done. Qed.
Lemma calls_in_Do c es : calls_in (Do c :: es) = calls_in es + 1.
Proof. unfold calls_in. rewrite filter_cons_True by done. simpl length. lia. Qed.
Lemma calls_in_Restart now es : calls_in (Restart now :: es) = calls_in es.
Proof. unfold calls_in. by rewrite filter_cons_False by done. Qed.
Lemma calls_in_pos es : 0 ≤ calls_in es.
Proof. unfold calls_in. lia. Qed.

Abbreviation events_ok es := (B0 → Forall (fun e => match e with Do c => quoted_once c | Restart _ => True end) es).
Lemma events_cons e es : events_ok (e :: es) →
  (B0 → match e with Do c => quoted_once c | Restart _ => True end) ∧ events_ok es.
Proof. intros H. split; intros [? ?]%H%Forall_cons; done. Qed.

Lemma history_inv es : ∀ n L w ps w',
  Forall (fun e => is_new_session e = false) es → events_ok es → 0 ≤ n → n + calls_in es < 2 ^ 64 →
  world_inv n L w → run_history S es w = Ret (ps, w') →
  ∃ L', L ⊆ L' ∧ world_inv (n + calls_in es) L' w' ∧ recorded A0 L' ps.
Proof.
  induction es as [|[c|now] es IH]; intros n L w ps w' Hes Hok Hn Hlt Hw; cbn [run_history]; try apply events_cons in Hok as [Hq Hok].
  - intros [= <- <-]. exists L. rewrite calls_in_nil, Z.add_0_r. split; [done|]. by split; [|constructor].
  - rewrite calls_in_Do in *. apply Forall_cons in Hes as [Hc Hes]. pose proof (calls_in_pos es).
    destruct (run_call c (w_manager w)) as [[r m]|] eqn:Hrun; [|done]. cbn [exec_bind].
    destruct (run_history S es _) as [[ps2 w2]|] eqn:Hrest; [|done]. cbn [exec_bind]. intros [= <- <-].
    destruct (call_inv n L c w r m) as (L1 & HL1 & Hw1 & Hr1); [lia|done|done|done|done|].
    destruct (IH (n + 1) L1 _ _ _ Hes Hok ltac:(lia) ltac:(lia) Hw1 Hrest) as (L2 & HL2 & Hw2 & Hr2).
    exists L2. split; [set_solver|]. split; [by replace (n + (calls_in es + 1)) with (n + 1 + calls_in es) by lia|].
    apply Forall_app. split; [|done]. eapply Forall_impl; [exact Hr1|]. simpl. set_solver.
  - rewrite calls_in_Restart in *. apply Forall_cons in Hes as [_ Hes]. intros Hrest.
    by apply (IH n L (restart S now w)); [..|apply restart_inv|].
Qed.

Hypothesis limit_pos : 0 ≤ limit.
Hypothesis A0_verified : ∀ auth key now,
  session_verify auth (cfg_chain_id cfg) (cfg_settlement_contract cfg) key now 0 = Ok () → A0 auth.

(** An activation, and what is left if it fails. *)
Lemma activate_inv n L id sig now w r m :
  0 ≤ n → world_inv n L w → activate id sig now (w_manager w) = Ret (r, m) →
  (∃ L', world_inv n L' (mkWorld m (database w))) ∧
  (∀ st, r = Ok st → world_inv n [] (mkWorld m (database w)) ∧ durable S n m).
Proof.
  intros Hn Hw Hrun. pose proof (world_dormant _ _ _ Hw) as Hdb. destruct Hw as [Hi Hw].
  pose proof (hoare_activate cfg A0 (generated cfg) (fun _ => True) B0 True limit L id sig now limit_pos A0_verified (w_manager w) Hi) as Ha.
  rewrite Hrun in Ha. destruct (recovery_store_opt (w_manager w)) as [db|] eqn:Hs.
  - pose proof (steady_activate S n id sig now Hn (w_manager w) Hw) as Hd.
    assert (durable S n m) as Hdur.
    { change (store_instance S) with history_store in Hd. rewrite Hrun in Hd. by destruct r. }
    assert (∀ L', inv L' m → world_inv n L' (mkWorld m (database w))) as Hworld.
    { intros L' Hi'. split; [done|]. cbn. by destruct (durable_store _ _ _ Hdur) as (db' & -> & _). }
    destruct r as [st|e]; [split; [|intros ? _; split; [|done]]; eauto|]. split; [|done]. destruct Ha; eauto.
  - destruct Hw as [Hdis _]. destruct (disabled_activate id sig now _ Hdis) as (e & m' & Heq & Hdis').
    rewrite Hrun in Heq. injection Heq as -> ->. split; [|done]. exists L. split; cbn.
    + destruct Ha as [?|[Hc _ Hp _]]; [done|]. split; [done|apply (mi_limit _ _ _ _ _ _ _ _ Hi)|done|].
      intros a. by rewrite (proj2 (proj2 Hdis')).
    + rewrite (proj1 Hdis'). by split.
Qed.

Lemma history_any es : ∀ n L w ps w',
  events_ok es → 0 ≤ n → n + calls_in es < 2 ^ 64 → world_inv n L w → run_history S es w = Ret (ps, w') →
  ∃ L', world_inv (n + calls_in es) L' w'.
Proof.
  induction es as [|[c|now] es IH]; intros n L w ps w' Hok Hn Hlt Hw; cbn [run_history]; try apply events_cons in Hok as [Hq Hok].
  - intros [= <- <-]. exists L. by rewrite calls_in_nil, Z.add_0_r.
  - rewrite calls_in_Do in *. pose proof (calls_in_pos es).
    destruct (run_call c (w_manager w)) as [[r m]|] eqn:Hrun; [|done]. cbn [exec_bind].
    destruct (run_history S es _) as [[ps2 w2]|] eqn:Hrest; [|done]. cbn [exec_bind]. intros [= <- <-].
    assert (∃ L', world_inv (n + 1) L' (mkWorld m (database w))) as [L1 Hw1].
    { destruct (is_activation c) eqn:Hact.
      - destruct c; try done. cbn [run_call] in Hrun. unfold quiet, bind in Hrun.
        destruct (activate id signature now (w_manager w)) as [[r' m']|] eqn:Ha; [|done].
        assert (m' = m) as -> by (destruct r'; by injection Hrun).
        destruct (activate_inv n L id signature now w r' m) as [[L' Hw'] _]; [done..|]. exists L'.
        by apply (world_mono n); [lia|].
      - destruct (call_inv n L c w r m) as (L1 & _ & ? & _); [lia|done..|]. by exists L1. }
    replace (n + (calls_in es + 1)) with (n + 1 + calls_in es) by lia.
    eapply (IH (n + 1) L1); [done|lia|lia|exact Hw1|exact Hrest].
  - rewrite calls_in_Restart in *. intros Hrest.
    by apply (IH n L (restart S now w) ps); [..|apply restart_inv|].
Qed.
End World.

(** A node that has never had a session. *)
Definition unused (w : World) : Prop :=
  idle (w_manager w) ∧ ∃ db, recovery_store_opt (w_manager w) = Some db ∧ store_ok db ∧ cleared db.

Abbreviation legal B0 w0 := (world_inv (config (w_manager w0)) within_limits B0 MAX_RECEIPT_SESSION_CHARGE_WEI).

Lemma unused_inv B0 w : unused w → legal B0 w 0 [] w.
Proof.
  intros [Hidle (db & Hs & Hok & Hc)]. split; [by apply idle_inv|]. rewrite Hs. exists db.
  split; [done|]. split; [done|]. by rewrite (proj2 Hidle).
Qed.

Lemma history_legal (B0 : Prop) w0 es ps w :
  (B0 → Forall (fun e => match e with Do c => quoted_once c | Restart _ => True end) es) →
  unused w0 → calls_in es < 2 ^ 64 → run_history S es w0 = Ret (ps, w) → ∃ L, legal B0 w0 (calls_in es) L w.
Proof.
  intros Hok Hw0 Hes Hrun. apply (history_any (config (w_manager w0)) within_limits B0 MAX_RECEIPT_SESSION_CHARGE_WEI
    ltac:(done) ltac:(done) (fun auth key now => within_limits_verified auth _ _ key now) es 0 [] w0 ps w);
    [done|done|done|by apply unused_inv|done].
Qed.

(** The routing quotes bound in a history name no provider twice in one
    direction of a route. *)
Definition no_provider_twice (es : list Event) : Prop :=
  Forall (fun e => match e with Do c => quoted_once c | Restart _ => True end) es.

(** [C36] A restart brings the session back.  Whatever calls were made and
    whatever restarts came before, in whatever order, on a node that never had a
    session, as long as there were fewer than 2^64 calls and no provider was
    quoted twice in one direction of a route: if a session is active, and the
    node stops and is started again inside the session's window, then the
    session is active again exactly as it was, its routes in the order of their
    keys, and the database is unchanged.  libsodium, [base64] and CBOR read back
    what they wrote. *)
Theorem restart_recovers_session w0 es ps w a now :
  unused w0 → calls_in es < 2 ^ 64 → no_provider_twice es → run_history S es w0 = Ret (ps, w) →
  active_opt (w_manager w) = Some a →
  rsp_valid_from_unix_s (policy (active_authorization a)) ≤ now
    ≤ rsp_expires_at_unix_s (policy (active_authorization a)) →
  ∃ rs, rs ≡ₚ routes a ∧ active_opt (w_manager (restart S now w)) = Some (with_routes a rs) ∧
    database (restart S now w) = database w.
Proof.
  intros Hw0 Hes Honce Hrun Ha Hnow. destruct (history_legal True _ _ _ _ (fun _ => Honce) Hw0 Hes Hrun) as [L [Hi Hw]].
  pose proof (mi_active _ _ _ _ _ _ _ _ Hi a Ha) as Hs. unfold restart, database.
  destruct (recovery_store_opt (w_manager w)) as [db|] eqn:Hst;
    [|destruct Hw as [(_ & _ & Hn) _]; congruence].
  destruct Hw as (db' & Hst' & Hok & Hd). rewrite Hst in Hst'. injection Hst' as <-.
  rewrite Ha in Hd. destruct Hd as (Hh & Hheld & Hnd & _).
  destruct (load_held S db a now) as (rs & Hp & Hload); [done..|by eapply session_routes|lia|].
  exists rs. split; [done|]. unfold enable_recoverable_receipt_sessions, new_recovery_required.
  change (default (w_db w) (Some db)) with db. cbn [store_load run_store recovery_store]. rewrite Hload.
  cbn [map_err result_bind].
  rewrite (mi_config _ _ _ _ _ _ _ _ Hi).
  assert (Forall payloads_bounded (routes a)) as Hb.
  { destruct Hs as [_ _ _ _ _ _ Hr]. eapply Forall_impl; [exact Hr|]. by intros r [_ _ _ _ _ _ (_ & _ & ?)]. }
  rewrite (restore_active_Ok (config (w_manager w0)) within_limits _ _ L a rs now Hs Hnow Hb Hp). done.
Qed.

(** [C19] The limit the wallet signed holds across restarts.  On a node that
    never had a session, after any history, activate a session and let any
    calls and restarts follow, in any order, short of another activation and
    fewer than 2^64 calls in all: every acknowledgement handed out, before or
    after a restart, carries the activated authorization, and the charges of all
    different receipts acknowledged are together at most the total the wallet
    signed. *)
Theorem limit_survives_restarts w0 es1 ps1 w1 id sig now st m a es2 ps w2 :
  unused w0 → calls_in es1 + calls_in es2 < 2 ^ 64 →
  run_history S es1 w0 = Ret (ps1, w1) → activate id sig now (w_manager w1) = Ret (Ok st, m) →
  active_opt m = Some a → Forall (fun e => is_new_session e = false) es2 →
  run_history S es2 (mkWorld m (database w1)) = Ret (ps, w2) →
  Forall (fun p => payload_authorization p = active_authorization a) ps ∧
  ∀ l, NoDup l → l ⊆ map (signed_receipt ∘ acknowledged_receipt) ps →
    ledger_charge l ≤ max_total_charge_wei (policy (active_authorization a)).
Proof.
  intros Hw0 Hes Hrun1 Hact Ha Hes2 Hrun2. pose proof (calls_in_pos es1). pose proof (calls_in_pos es2).
  destruct (history_legal False w0 es1 ps1 w1) as [L Hw1]; [done|done|lia|done|].
  destruct (activate_inv (config (w_manager w0)) within_limits False MAX_RECEIPT_SESSION_CHARGE_WEI ltac:(done)
    (fun auth key now => within_limits_verified auth _ _ key now) (calls_in es1) L id sig now w1 (Ok st) m)
    as [_ Hok]; [done..|].
  destruct (Hok st eq_refl) as [[Hi _] Hdur]. cbn [w_manager] in Hi. clear Hok.
  set (auth := active_authorization a) in *.
  assert (world_inv (config (w_manager w0)) (eq auth) False (max_total_charge_wei (policy auth)) (calls_in es1) []
            (mkWorld m (database w1))) as Hw.
  { pose proof (mi_active _ _ _ _ _ _ _ _ Hi a Ha) as Hs. pose proof (si_spent _ _ _ _ _ _ _ Hs) as Hsp. fold auth in Hsp.
    split; cbn; [|by destruct (durable_store _ _ _ Hdur) as (db' & -> & _)].
    destruct Hi as [Hc _ Hp _]. split; [done|apply covered_nil; lia|done|].
    intros a' Ha'. rewrite Ha in Ha'. injection Ha' as <-. by eapply session_inv_meant. }
  destruct (history_inv (config (w_manager w0)) (eq auth) False (max_total_charge_wei (policy auth)) ltac:(by intros ? <-)
    es2 (calls_in es1) [] (mkWorld m (database w1)) ps w2) as (L' & _ & [Hi2 _] & Hrec); [done|done|done|lia|done|done|].
  split; [eapply Forall_impl; [exact Hrec|]; by intros p [<- _]|].
  intros l Hnd Hl. apply (mi_limit _ _ _ _ _ _ _ _ Hi2 l Hnd).
  intros s (p & <- & Hp)%Hl%list_elem_of_In%in_map_iff. apply list_elem_of_In in Hp.
  unfold recorded in Hrec. rewrite Forall_forall in Hrec. by apply Hrec.
Qed.
End History.

(** ** A session that is interrupted *)

Module SampleRestart.
#[local] Existing Instances sample_ethsign sample_cbor sample_keys.
#[local] Existing Instance sample_store.

#[local] Instance AcknowledgedServiceReceipt_eq_dec : EqDecision AcknowledgedServiceReceipt.
Proof. solve_decision. Defined.
#[local] Instance ServiceReceiptPayload_eq_dec : EqDecision ServiceReceiptPayload_0v1.
Proof. solve_decision. Defined.
#[local] Instance ReceiptSessionRequest_eq_dec : EqDecision ReceiptSessionRequest.
Proof. solve_decision. Defined.
#[local] Instance Checkpoint_eq_dec : EqDecision ReceiptSequenceCheckpoint.
Proof. solve_decision. Defined.
#[local] Instance ProviderState_eq_dec : EqDecision RoutingProviderReceiptState.
Proof. solve_decision. Defined.
#[local] Instance RouteState_eq_dec : EqDecision ReceiptRouteState.
Proof. solve_decision. Defined.
#[local] Instance Header_eq_dec : EqDecision PersistedReceiptSessionHeader.
Proof. solve_decision. Defined.

(** A serialization that numbers the values of a list. *)
Definition number_in {A} `{EqDecision A} (known : list A) (x : A) : result (list Z) string :=
  match list_find (fun y => y = x) known with Some (i, _) => Ok [Z.of_nat i] | None => Err EmptyString end.
Definition numbered {A} (known : list A) (bs : list Z) : result A string :=
  match bs with
  | [z] => match known !! Z.to_nat z with Some x => Ok x | None => Err EmptyString end
  | _ => Err EmptyString
  end.
Lemma numbered_number_in {A} `{EqDecision A} (known : list A) x bs :
  number_in known x = Ok bs → numbered known bs = Ok x.
Proof.
  unfold number_in. destruct (list_find _ known) as [[i y]|] eqn:Hf; [|done]. intros [= <-].
  apply list_find_Some in Hf as (Hi & -> & _). cbn. by rewrite Nat2Z.id, Hi.
Qed.

(** The values that come up in the sample session of [SessionLimit]. *)
Definition stages : list ActiveReceiptSession :=
  omap (fun i => active_opt (run_state (take i sample_full) sample_idle)) (seq 0 12).
Definition recovery_cbor : RecoveryCbor := {|
  ser_header := number_in (map persisted_header stages);
  de_header := numbered (map persisted_header stages);
  ser_route := number_in (concat (map routes stages));
  de_route := numbered (concat (map routes stages));
  ser_stream_key := Ok;
|}.
#[local] Existing Instance recovery_cbor.
Lemma recovery_cbor_laws : RecoveryCborLaws recovery_cbor.
Proof. split; [intros *; apply numbered_number_in..|]. by intros k k' bs [= ->] [= ->]. Qed.

Definition new_db : RecoveryDb := mkRecoveryDb None ∅ (repeat 5 32) (fun _ => repeat 2 24) 0.
Definition new_node : World := mkWorld (mkManager sample_config None None (Some new_db) true) new_db.
Lemma new_node_unused : unused new_node.
Proof.
  split; [done|]. exists new_db. split; [done|]. split; [|done]. split; [done..|].
  intros key [x Hx]. by destruct (lookup_empty_Some key x Hx).
Qed.

Definition world_after (es : list Event) (w : World) : World :=
  match run_history sample_sodium es w with Ret (_, w) => w | Panic => w end.
Definition payloads_of (es : list Event) (w : World) : list ServiceReceiptPayload_0v1 :=
  match run_history sample_sodium es w with Ret (ps, _) => ps | Panic => [] end.
Lemma history_returned es w :
  returned (run_history sample_sodium es w) = true →
  run_history sample_sodium es w = Ret (payloads_of es w, world_after es w).
Proof. unfold payloads_of, world_after. by destruct (run_history _ es w) as [[]|]. Qed.

Definition before_restart : list Event := map Do sample_full.
Definition stopped : World := world_after before_restart new_node.
Definition session_in (w : World) : ActiveReceiptSession :=
  default (mkActive sample_session sample_session_cryptde [] 0) (active_opt (w_manager w)).

Lemma session_in_Some w :
  match active_opt (w_manager w) with Some _ => true | None => false end = true →
  active_opt (w_manager w) = Some (session_in w).
Proof. unfold session_in. by destruct (active_opt (w_manager w)). Qed.

Lemma restart_recovers_session_witness :
  spent_charge_wei (session_in stopped) = 415 ∧
  ∃ rs, rs ≡ₚ routes (session_in stopped) ∧
    active_opt (w_manager (restart sample_sodium 300 stopped)) = Some (with_routes (session_in stopped) rs) ∧
    database (restart sample_sodium 300 stopped) = database stopped.
Proof.
  split; [by vm_compute|].
  refine (restart_recovers_session (KL := sample_keys_laws) (RCL := recovery_cbor_laws) sample_sodium
    (SL := sample_sodium_laws) new_node before_restart _ stopped (session_in stopped) 300
    new_node_unused _ _ (history_returned _ _ _) _ _).
  - by vm_compute.
  - by repeat (apply NoDup_singleton || apply NoDup_nil_2 || constructor).
  - by vm_compute.
  - apply session_in_Some. by vm_compute.
  - split; by apply Z.leb_le; vm_compute.
Defined.

(** The session is interrupted between its two acknowledgements. *)
Definition proposed : World := world_after (map Do sample_proposing) new_node.
#[local] Instance sample_history_store : RecoveryStore RecoveryDb := history_store sample_sodium.
Definition activation : exec (result ReceiptSessionStatus ReceiptSessionManagerError * Manager RecoveryDb) :=
  activate (hex_text (repeat 8 32)) sample_signature_text 120 (w_manager proposed).
Definition activated : Manager RecoveryDb :=
  match activation with Ret (_, m) => m | Panic => w_manager proposed end.
Definition interrupted : list Event :=
  map Do (take 7 sample_calls) ++ [Restart 171] ++ map Do (drop 7 sample_calls).

Lemma activation_run : ∃ st, activation = Ret (Ok st, activated).
Proof.
  assert (∀ x : exec (result ReceiptSessionStatus ReceiptSessionManagerError * Manager RecoveryDb),
    match x with Ret (Ok _, _) => true | _ => false end = true →
    ∃ st, x = Ret (Ok st, match x with Ret (_, m) => m | Panic => w_manager proposed end)) as Hx
    by (intros [[[st|] m]|] ?; try done; by exists st).
  apply Hx. by vm_compute.
Qed.

Lemma limit_survives_restarts_witness :
  ledger_charge [sample_offer; sample_routing_offer] = 415 ∧
  ledger_charge [sample_offer; sample_routing_offer] ≤
    max_total_charge_wei (policy (active_authorization (session_in (mkWorld activated new_db)))).
Proof.
  split; [by vm_compute|]. destruct activation_run as [st Hact].
  refine (proj2 (limit_survives_restarts (KL := sample_keys_laws) (RCL := recovery_cbor_laws) sample_sodium
    (SL := sample_sodium_laws) new_node (map Do sample_proposing) _ proposed
    (hex_text (repeat 8 32)) sample_signature_text 120 st activated (session_in (mkWorld activated new_db)) interrupted _
    (world_after interrupted (mkWorld activated (database proposed)))
    new_node_unused _ (history_returned _ _ _) Hact _ _ (history_returned _ _ _)) _ _ _).
  - by vm_compute.
  - by vm_compute.
  - apply (session_in_Some (mkWorld activated new_db)). by vm_compute.
  - by repeat constructor.
  - by vm_compute.
  - by apply (bool_decide_unpack _); vm_compute.
  - intros s Hs. apply (bool_decide_eq_true_1 _). revert s Hs. by apply Forall_forall, (bool_decide_unpack _); vm_compute.
Defined.
End SampleRestart.
