(* ===== verification/AckOutbox.v ===== *)
(** * AckOutbox: acknowledgements that are still to be delivered

    [accountant/db_access_objects/receipt_acknowledgement_outbox_dao.rs]: the
    consumer keeps every acknowledgement until it is on its way to the provider.
    The table [receipt_acknowledgement_outbox] is a map from its primary key,
    the epoch of the route; a column that holds CBOR is the value it encodes. *)

From stdpp Require Import base list numbers option strings gmap.
From Stdlib Require Import ZArith Lia.
From S2P Require Import Prelude Text CryptDE Wallet ServiceReceipt ReceiptSettlement.
From S2P Require Import Route ReceiptSession.

Local Open Scope Z_scope.
Local Open Scope rust_scope.
Local Open Scope list_scope.

Inductive OutboxError := OutboxDatabase (s : string) | OutboxIdentityMismatch.

Record OutboxRow := mkOutboxRow {
  or_provider_public_key : PublicKey;
  or_acknowledgement : ServiceReceiptPayload_0v1;
  or_created_at_unix_s : Z;
}.
Abbreviation Outbox := (gmap (list Z) OutboxRow).

Inductive CumulativeEnqueueDisposition := Idempotent | Replace | Stale.

Global Instance AcknowledgedServiceReceipt_eq_dec : EqDecision AcknowledgedServiceReceipt.
Proof. solve_decision. Defined.
Global Instance ServiceReceiptPayload_eq_dec : EqDecision ServiceReceiptPayload_0v1.
Proof. solve_decision. Defined.

Definition payload_receipt (p : ServiceReceiptPayload_0v1) : ServiceReceipt :=
  receipt (signed_receipt (acknowledged_receipt p)).

Definition identity (p : ServiceReceiptPayload_0v1) : list Z * PublicKey :=
  (route_epoch (payload_receipt p), provider_public_key (payload_receipt p)).

(** [deserialize] *)
Definition checked_row (epoch : list Z) (provider : PublicKey) (p : ServiceReceiptPayload_0v1)
    : result ServiceReceiptPayload_0v1 OutboxError :=
  if bool_decide (identity p = (epoch, provider)) then Ok p else Err OutboxIdentityMismatch.

Definition cumulative_enqueue_disposition (existing new : ServiceReceiptPayload_0v1)
    : result CumulativeEnqueueDisposition OutboxError :=
  if bool_decide (existing = new) then Ok Idempotent
  else
    let er := payload_receipt existing in
    let nr := payload_receipt new in
    if negb (bool_decide (payload_authorization existing = payload_authorization new ∧
         payer_session_public_key (acknowledged_receipt existing)
           = payer_session_public_key (acknowledged_receipt new) ∧
         route_epoch er = route_epoch nr ∧ provider_public_key er = provider_public_key nr ∧
         accounting_commitment er = accounting_commitment nr))
    then Err OutboxIdentityMismatch
    else if (sequence nr <? sequence er) && (cumulative_charge_wei nr <? cumulative_charge_wei er) then Ok Stale
    else if (sequence er <? sequence nr) && (cumulative_charge_wei er <? cumulative_charge_wei nr) then Ok Replace
    else Err OutboxIdentityMismatch.

Definition enqueue (db : Outbox) (p : ServiceReceiptPayload_0v1) (created_at : Z) : result Outbox OutboxError :=
  let (epoch, provider) := identity p in
  match db !! epoch with
  | None => Ok (<[epoch := mkOutboxRow provider p created_at]> db)
  | Some row =>
      if negb (bool_decide (or_provider_public_key row = provider)) then Err OutboxIdentityMismatch
      else
        let? existing := checked_row epoch (or_provider_public_key row) (or_acknowledgement row) in
        let? d := cumulative_enqueue_disposition existing p in
        match d with
        | Idempotent | Stale => Ok db
        | Replace => Ok (<[epoch := mkOutboxRow provider p created_at]> db)
        end
  end.

(** [order by cast(created_at_unix_s as integer), route_epoch] *)
Definition row_leb (x y : list Z * OutboxRow) : bool :=
  (or_created_at_unix_s x.2 <? or_created_at_unix_s y.2)
  || ((or_created_at_unix_s x.2 =? or_created_at_unix_s y.2) && bytes_leb x.1 y.1).
Fixpoint insert_row (x : list Z * OutboxRow) (l : list (list Z * OutboxRow)) : list (list Z * OutboxRow) :=
  match l with
  | [] => [x]
  | y :: l => if row_leb x y then x :: y :: l else y :: insert_row x l
  end.
Fixpoint checked_rows (rows : list (list Z * OutboxRow)) : result (list ServiceReceiptPayload_0v1) OutboxError :=
  match rows with
  | [] => Ok []
  | (epoch, row) :: rows =>
      let? p := checked_row epoch (or_provider_public_key row) (or_acknowledgement row) in
      let? ps := checked_rows rows in
      Ok (p :: ps)
  end.
Definition pending (db : Outbox) : result (list ServiceReceiptPayload_0v1) OutboxError :=
  checked_rows (foldr insert_row [] (map_to_list db)).

Definition delete_acknowledgement (db : Outbox) (p : ServiceReceiptPayload_0v1) : Outbox :=
  let (epoch, provider) := identity p in
  match db !! epoch with
  | Some row =>
      if bool_decide (or_provider_public_key row = provider ∧ or_acknowledgement row = p)
      then delete epoch db else db
  | None => db
  end.

(** ** What the outbox promises *)

Inductive OutboxOp := Enqueue (p : ServiceReceiptPayload_0v1) (created_at : Z) | Delete (p : ServiceReceiptPayload_0v1).

(** An error leaves the table as it was. *)
Definition outbox_step (db : Outbox) (op : OutboxOp) : Outbox :=
  match op with
  | Enqueue p t => match enqueue db p t with Ok db' => db' | Err _ => db end
  | Delete p => delete_acknowledgement db p
  end.
Definition outbox_run (db : Outbox) (ops : list OutboxOp) : Outbox := foldl outbox_step db ops.

(** [q] stands for [p]: the same stream of receipts, no less acknowledged. *)
Definition stands_for (q p : ServiceReceiptPayload_0v1) : Prop :=
  q = p ∨
  payload_authorization q = payload_authorization p ∧
  payer_session_public_key (acknowledged_receipt q) = payer_session_public_key (acknowledged_receipt p) ∧
  identity q = identity p ∧ accounting_commitment (payload_receipt q) = accounting_commitment (payload_receipt p) ∧
  sequence (payload_receipt p) < sequence (payload_receipt q) ∧
  cumulative_charge_wei (payload_receipt p) < cumulative_charge_wei (payload_receipt q).

Definition rows_ok (db : Outbox) : Prop :=
  map_Forall (fun epoch row => identity (or_acknowledgement row) = (epoch, or_provider_public_key row)) db.

Lemma stands_for_trans q p r : stands_for q p → stands_for p r → stands_for q r.
Proof.
  intros [->|(Ha & Hk & Hi & Hc & Hs & Ht)] [->|(Ha' & Hk' & Hi' & Hc' & Hs' & Ht')]; [by left|right..]; try done.
  rewrite Ha, Hk, Hi, Hc. split_and!; try done; lia.
Qed.

Lemma stands_for_identity q p : stands_for q p → identity q = identity p.
Proof. by intros [->|(_ & _ & ? & _)]. Qed.

(** What an accepted acknowledgement does to the table. *)
Lemma enqueue_Ok db p t db' :
  rows_ok db → enqueue db p t = Ok db' →
  ∃ q, stands_for q p ∧
    or_acknowledgement <$> (db' !! route_epoch (payload_receipt p)) = Some q ∧
    (∀ e, e ≠ route_epoch (payload_receipt p) → db' !! e = db !! e) ∧
    (∀ row, db !! route_epoch (payload_receipt p) = Some row → stands_for q (or_acknowledgement row)) ∧ rows_ok db'.
Proof.
  intros Hok. unfold enqueue. set (epoch := route_epoch (payload_receipt p)). cbn [identity]. fold epoch.
  assert (∀ row, or_provider_public_key row = provider_public_key (payload_receipt p) →
    identity (or_acknowledgement row) = identity p → rows_ok (<[epoch := row]> db)) as Hins.
  { intros row Hr Hi. apply map_Forall_insert_2; [|done]. rewrite Hi, Hr. done. }
  destruct (db !! epoch) as [row|] eqn:Hrow.
  - destruct (bool_decide (or_provider_public_key row = _)) eqn:Hp; [|done]. cbn [negb].
    apply bool_decide_eq_true_1 in Hp. pose proof (Hok _ _ Hrow) as Hid. cbn in Hid.
    unfold checked_row. rewrite bool_decide_eq_true_2 by done. cbn [result_bind].
    unfold cumulative_enqueue_disposition. cbv zeta. destruct (bool_decide (or_acknowledgement row = p)) eqn:Heq.
    { apply bool_decide_eq_true_1 in Heq. cbn. intros [= <-]. exists p. rewrite Hrow. cbn. rewrite Heq.
      split; [by left|]. split; [done|]. split; [done|]. split; [|done]. intros ? [= <-]. rewrite Heq. by left. }
    destruct (bool_decide (_ ∧ _)) eqn:Hsame; [|done]. apply bool_decide_eq_true_1 in Hsame as (Ha & Hk & He & Hpr & Hc).
    cbn [negb]. destruct (_ && _) eqn:Hstale.
    { cbn. intros [= <-]. apply andb_true_iff in Hstale as [?%Z.ltb_lt ?%Z.ltb_lt].
      exists (or_acknowledgement row). rewrite Hrow. split.
      - right. split_and!; [done|done|unfold identity; by rewrite He, Hpr|done|done|done].
      - split; [done|]. split; [done|]. split; [|done]. intros ? [= <-]. by left. }
    match goal with |- context [if ?b then Ok Replace else _] => destruct b eqn:Hrep end; [|by intros [=]]. cbn [result_bind]. intros [= <-].
    apply andb_true_iff in Hrep as [?%Z.ltb_lt ?%Z.ltb_lt]. exists p. rewrite lookup_insert_eq. split; [by left|].
    split; [done|]. split; [intros e ?; by rewrite lookup_insert_ne|]. split; [|by apply Hins].
    intros ? [= <-]. right. split_and!; [done|done|unfold identity; by rewrite He, Hpr|done|done|done].
  - intros [= <-]. exists p. rewrite lookup_insert_eq. split; [by left|]. split; [done|].
    split; [intros e ?; by rewrite lookup_insert_ne|]. split; [done|by apply Hins].
Qed.

Definition keeps_for (db : Outbox) (p : ServiceReceiptPayload_0v1) : Prop :=
  rows_ok db ∧ ∃ row, db !! route_epoch (payload_receipt p) = Some row ∧ stands_for (or_acknowledgement row) p.

Lemma step_keeps db p op :
  keeps_for db p → (∀ q, op = Delete q → ¬ stands_for q p) → keeps_for (outbox_step db op) p.
Proof.
  intros [Hok (row & Hrow & Hst)] Hop. destruct op as [r t|r]; cbn [outbox_step].
  - destruct (enqueue db r t) as [db'|e] eqn:He; [|by split; [|exists row]].
    destruct (enqueue_Ok _ _ _ _ Hok He) as (q & Hq & Hl & Hother & Hprev & Hok'). split; [done|].
    destruct (decide (route_epoch (payload_receipt p) = route_epoch (payload_receipt r))) as [Heq|Hne].
    + rewrite Heq in *. destruct (db' !! _) as [row'|]; [|done]. cbn in Hl. injection Hl as <-. exists row'.
      split; [done|]. eapply stands_for_trans; [by apply Hprev|done].
    + exists row. by rewrite Hother.
  - unfold delete_acknowledgement. cbn [identity].
    destruct (db !! route_epoch (payload_receipt r)) as [row'|] eqn:Hr; [|by split; [|exists row]].
    destruct (bool_decide _) eqn:Hb; [|by split; [|exists row]]. apply bool_decide_eq_true_1 in Hb as [_ Hb].
    split; [by apply map_Forall_delete|]. exists row. split; [|done]. rewrite lookup_delete_ne; [done|].
    intros Heq. rewrite Heq in Hr. rewrite Hrow in Hr. injection Hr as <-. rewrite Hb in Hst. by apply (Hop r).
Qed.

Lemma insert_row_perm x l : insert_row x l ≡ₚ x :: l.
Proof. induction l as [|y l IH]; [done|]. simpl. destruct (row_leb x y); [done|]. rewrite IH. constructor. Qed.

Lemma pending_rows db :
  rows_ok db → ∃ ps, pending db = Ok ps ∧ ∀ e row, db !! e = Some row → or_acknowledgement row ∈ ps.
Proof.
  intros Hok. set (rows := foldr insert_row [] (map_to_list db)).
  assert (rows ≡ₚ map_to_list db) as Hp.
  { unfold rows. induction (map_to_list db) as [|x l IH]; [done|]. simpl. by rewrite insert_row_perm, IH. }
  assert (∀ l, Forall (fun kr => db !! kr.1 = Some kr.2) l →
    checked_rows l = Ok (map (fun kr => or_acknowledgement kr.2) l)) as Hl.
  { induction 1 as [|[e row] l Hr _ IH]; [done|]. cbn in *. unfold checked_row.
    rewrite bool_decide_eq_true_2 by (by apply Hok). cbn [result_bind]. by rewrite IH. }
  eexists. split.
  - apply Hl. fold rows. rewrite Hp. apply Forall_forall. by intros [e row] ?%elem_of_map_to_list.
  - intros e row Hr. fold rows. apply list_elem_of_In, in_map_iff. exists (e, row). split; [done|].
    apply list_elem_of_In. rewrite Hp. by apply elem_of_map_to_list.
Qed.

(** [C37] An acknowledgement that was accepted stays in the outbox, itself or a
    later one of the same stream, whatever is enqueued or deleted in whatever
    order, until one that stands for it is deleted; and as long as it is there,
    an acknowledgement of another provider of the same route is refused. *)
Theorem acknowledgement_kept db p t db' ops :
  rows_ok db → enqueue db p t = Ok db' →
  Forall (fun op => ∀ q, op = Delete q → ¬ stands_for q p) ops →
  ∃ ps q, pending (outbox_run db' ops) = Ok ps ∧ q ∈ ps ∧ stands_for q p ∧
    ∀ r t', route_epoch (payload_receipt r) = route_epoch (payload_receipt p) →
      provider_public_key (payload_receipt r) ≠ provider_public_key (payload_receipt p) →
      enqueue (outbox_run db' ops) r t' = Err OutboxIdentityMismatch.
Proof.
  intros Hok He Hops.
  assert (keeps_for db' p) as Hk.
  { destruct (enqueue_Ok _ _ _ _ Hok He) as (q & Hq & Hl & _ & _ & Hok'). split; [done|].
    destruct (db' !! _) as [row|]; [|done]. cbn in Hl. injection Hl as <-. by exists row. }
  assert (keeps_for (outbox_run db' ops) p) as [Hok2 (row & Hrow & Hst)].
  { clear He. revert db' Hk. induction Hops as [|op ops Hop _ IH]; intros db' Hk; [done|].
    cbn. apply IH. by apply step_keeps. }
  destruct (pending_rows _ Hok2) as (ps & Hps & Hin). exists ps, (or_acknowledgement row).
  split; [done|]. split; [by eapply Hin|]. split; [done|]. intros r t' Hep Hpr.
  unfold enqueue. cbn [identity]. rewrite Hep, Hrow. rewrite bool_decide_eq_false_2; [done|].
  pose proof (Hok2 _ _ Hrow) as Hid. cbn in Hid. rewrite (stands_for_identity _ _ Hst) in Hid.
  unfold identity in Hid. congruence.
Qed.


Module SampleOutbox.

Definition sample_payload (ack : AcknowledgedServiceReceipt) : ServiceReceiptPayload_0v1 :=
  mkReceiptPayload sample_session ack.
Definition sample_first := sample_payload sample_ack0.
Definition sample_later := sample_payload (default sample_ack0 (list.last sample_acks)).
Definition sample_outbox : Outbox :=
  match enqueue ∅ sample_first 300 with Ok db => db | Err _ => ∅ end.
Definition sample_ops : list OutboxOp := [Enqueue sample_first 301; Enqueue sample_later 310; Enqueue sample_first 311].

Lemma acknowledgement_kept_witness :
  pending (outbox_run sample_outbox sample_ops) = Ok [sample_later] ∧
  ∃ ps q, pending (outbox_run sample_outbox sample_ops) = Ok ps ∧ q ∈ ps ∧ stands_for q sample_first ∧
    ∀ r t', route_epoch (payload_receipt r) = route_epoch (payload_receipt sample_first) →
      provider_public_key (payload_receipt r) ≠ provider_public_key (payload_receipt sample_first) →
      enqueue (outbox_run sample_outbox sample_ops) r t' = Err OutboxIdentityMismatch.
Proof.
  split; [vm_compute; reflexivity|].
  refine (acknowledgement_kept ∅ sample_first 300 sample_outbox sample_ops _ _ _).
  - exact (map_Forall_empty _).
  - vm_compute. reflexivity.
  - repeat (apply Forall_cons_2; [intros q [=]|]). apply Forall_nil_2.
Defined.

End SampleOutbox.
