(* ===== verification/StreamTables.v ===== *)
(** * StreamTables: the tables of the proxy server's streams

    [sub_lib/bidi_hashmap.rs], the map between streams and the browser's
    sockets, and [ResponseSequenceReplayWindow] ([proxy_server/mod.rs]), which
    lets every response of a stream through once, in any order within a window.
    A [HashSet] of sequence numbers is a [gset Z]. *)

From stdpp Require Import base list numbers option gmap sets.
From Stdlib Require Import ZArith Lia.
From S2P Require Import Prelude SequenceBuffer.

Local Open Scope Z_scope.
Local Open Scope list_scope.

(** ** [BidiHashMap] *)

Record BidiHashMap (A B : Type) `{Countable A} `{Countable B} := mkBidi {
  map_ab : gmap A B;
  map_ba : gmap B A;
}.
Arguments mkBidi {A B _ _ _ _} _ _.
Arguments map_ab {A B _ _ _ _} _.
Arguments map_ba {A B _ _ _ _} _.

Section Bidi.
Context {A B : Type} `{Countable A} `{Countable B}.

Definition bidi_new : BidiHashMap A B := mkBidi ∅ ∅.
Definition bidi_insert (a : A) (b : B) (m : BidiHashMap A B) : BidiHashMap A B :=
  mkBidi (<[a := b]> (map_ab m)) (<[b := a]> (map_ba m)).
Definition bidi_len (m : BidiHashMap A B) : nat := size (map_ab m).
Definition a_to_b (m : BidiHashMap A B) (a : A) : option B := map_ab m !! a.
Definition b_to_a (m : BidiHashMap A B) (b : B) : option A := map_ba m !! b.
Definition remove_a (a : A) (m : BidiHashMap A B) : option B * BidiHashMap A B :=
  match map_ab m !! a with
  | Some b => (Some b, mkBidi (delete a (map_ab m)) (delete b (map_ba m)))
  | None => (None, mkBidi (delete a (map_ab m)) (map_ba m))
  end.
Definition remove_b (b : B) (m : BidiHashMap A B) : option A * BidiHashMap A B :=
  match map_ba m !! b with
  | Some a => (Some a, mkBidi (delete a (map_ab m)) (delete b (map_ba m)))
  | None => (None, mkBidi (map_ab m) (delete b (map_ba m)))
  end.
Definition bidi_is_empty (m : BidiHashMap A B) : bool :=
  bool_decide (map_ab m = ∅) && bool_decide (map_ba m = ∅).

(** The two maps are inverse to each other. *)
Definition bijective (m : BidiHashMap A B) : Prop :=
  ∀ a b, map_ab m !! a = Some b ↔ map_ba m !! b = Some a.

Lemma bijective_new : bijective bidi_new.
Proof. intros a b. cbn. by rewrite !lookup_empty. Qed.

Lemma bijective_insert m a b :
  bijective m → map_ab m !! a = None → map_ba m !! b = None → bijective (bidi_insert a b m).
Proof.
  intros Hm Ha Hb x y. cbn.
  destruct (decide (x = a)) as [->|Hx], (decide (y = b)) as [->|Hy]; simplify_map_eq; [done| | |apply Hm].
  - split; [by intros [= ->]|]. intros Hy'. by apply Hm in Hy'; simplify_eq.
  - split; [|by intros [= ->]]. intros Hx'. by apply Hm in Hx'; simplify_eq.
Qed.

Lemma remove_a_ab m a : map_ab (snd (remove_a a m)) = delete a (map_ab m).
Proof. unfold remove_a. by destruct (map_ab m !! a). Qed.

Lemma bijective_remove_a m a : bijective m → bijective (snd (remove_a a m)).
Proof.
  intros Hm x y. unfold remove_a. destruct (map_ab m !! a) as [b|] eqn:E; cbn.
  - pose proof (proj1 (Hm a b) E) as Hb. rewrite !lookup_delete_Some. split.
    + intros [Hx Hl]. split; [|by apply Hm]. intros <-. apply Hm in Hl. congruence.
    + intros [Hy Hl]. split; [|by apply Hm]. intros <-. apply Hm in Hl. congruence.
  - rewrite lookup_delete_Some, <- (Hm x y). naive_solver.
Qed.
End Bidi.

(** ** The replay window *)

Record ResponseSequenceReplayWindow := mkWindow {
  next_expected_sequence : Z;
  sequence_space_exhausted : bool;
  seen_out_of_order : gset Z;
}.
Definition window_default : ResponseSequenceReplayWindow := mkWindow 0 false ∅.

(** The loop of [admit_sequence]: the numbers seen that have become consecutive. *)
Fixpoint drain (fuel : nat) (w : ResponseSequenceReplayWindow) : ResponseSequenceReplayWindow :=
  match fuel with
  | O => w
  | S fuel =>
      if bool_decide (next_expected_sequence w ∈ seen_out_of_order w) then
        let seen := seen_out_of_order w ∖ {[next_expected_sequence w]} in
        match checked_add 64 (next_expected_sequence w) 1 with
        | Some next => drain fuel (mkWindow next (sequence_space_exhausted w) seen)
        | None => mkWindow (next_expected_sequence w) true seen
        end
      else w
  end.

Inductive Refusal := SequenceSpaceExhausted | DuplicateOrStale | BeyondReorderWindow.

Definition admit_sequence (w : ResponseSequenceReplayWindow) (sequence : Z)
    : result unit Refusal * ResponseSequenceReplayWindow :=
  if sequence_space_exhausted w then (Err SequenceSpaceExhausted, w)
  else if (sequence <? next_expected_sequence w) || bool_decide (sequence ∈ seen_out_of_order w)
  then (Err DuplicateOrStale, w)
  else if MAX_SEQUENCE_REORDER_WINDOW <=? sequence - next_expected_sequence w
  then (Err BeyondReorderWindow, w)
  else
    let seen := seen_out_of_order w ∪ {[sequence]} in
    (Ok (), drain (S (size seen)) (mkWindow (next_expected_sequence w) false seen)).

Fixpoint admit_all (w : ResponseSequenceReplayWindow) (ns : list Z) : list bool * ResponseSequenceReplayWindow :=
  match ns with
  | [] => ([], w)
  | n :: ns =>
      let (r, w) := admit_sequence w n in
      let (rs, w) := admit_all w ns in
      (is_ok r :: rs, w)
  end.

(** *** Against the set of what has been let through *)

(** The least number that is not in [seen]. *)
Fixpoint least_from (fuel : nat) (i : Z) (seen : gset Z) : Z :=
  match fuel with
  | O => i
  | S fuel => if bool_decide (i ∈ seen) then least_from fuel (i + 1) seen else i
  end.
Definition least_missing (seen : gset Z) : Z := least_from (size seen) 0 seen.

Fixpoint admit_spec (seen : gset Z) (ns : list Z) : list bool :=
  match ns with
  | [] => []
  | n :: ns =>
      let ok := negb (bool_decide (n ∈ seen)) && (n <? least_missing seen + MAX_SEQUENCE_REORDER_WINDOW) in
      ok :: admit_spec (if ok then {[n]} ∪ seen else seen) ns
  end.

(** The window stands for [seen]. *)
Record window_for (w : ResponseSequenceReplayWindow) (seen : gset Z) : Prop := {
  wf_seen : ∀ i, i ∈ seen ↔ 0 ≤ i < next_expected_sequence w ∨ i ∈ seen_out_of_order w
              ∨ sequence_space_exhausted w = true ∧ i = max_u 64;
  wf_next : 0 ≤ next_expected_sequence w ≤ max_u 64;
  wf_exhausted : sequence_space_exhausted w = true → next_expected_sequence w = max_u 64;
  wf_ahead : ∀ i, i ∈ seen_out_of_order w →
    next_expected_sequence w < i ≤ max_u 64 ∧ i < next_expected_sequence w + MAX_SEQUENCE_REORDER_WINDOW;
}.

(** The same before the loop, when the next number may have been seen. *)
Definition window_pre (w : ResponseSequenceReplayWindow) (seen : gset Z) : Prop :=
  (∀ i, i ∈ seen ↔ 0 ≤ i < next_expected_sequence w ∨ i ∈ seen_out_of_order w) ∧
  0 ≤ next_expected_sequence w ≤ max_u 64 ∧ sequence_space_exhausted w = false ∧
  ∀ i, i ∈ seen_out_of_order w →
    next_expected_sequence w ≤ i ≤ max_u 64 ∧ i < next_expected_sequence w + MAX_SEQUENCE_REORDER_WINDOW.

Lemma drain_for fuel w seen :
  (size (seen_out_of_order w) < fuel)%nat → window_pre w seen → window_for (drain fuel w) seen.
Proof.
  revert w. induction fuel as [|fuel IH]; intros w Hf (Hs & Hn & Hx & Ha); [lia|]. cbn [drain].
  destruct (bool_decide_reflect (next_expected_sequence w ∈ seen_out_of_order w)) as [Hin|Hout].
  - assert (size (seen_out_of_order w ∖ {[next_expected_sequence w]}) < fuel)%nat as Hsize.
    { rewrite size_difference, size_singleton by set_solver.
      pose proof (size_non_empty_iff (seen_out_of_order w)). enough (size (seen_out_of_order w) ≠ 0%nat) by lia.
      rewrite size_non_empty_iff. set_solver. }
    unfold checked_add. destruct (decide (in_u 64 (next_expected_sequence w + 1))) as [Hu|Hu].
    + apply IH; [done|]. unfold window_pre. cbn. unfold in_u, max_u in *. split; [|split; [lia|split; [done|]]].
      * intros i. rewrite Hs, elem_of_difference, elem_of_singleton.
        destruct (decide (i = next_expected_sequence w)) as [->|]; [|intuition lia]. split; [lia|]. by right.
      * intros i [Hi ?%not_elem_of_singleton]%elem_of_difference. specialize (Ha i Hi). lia.
    + assert (next_expected_sequence w = max_u 64) as Hmax by (unfold in_u, max_u in *; lia).
      split; cbn; [|lia|done|].
      * intros i. rewrite Hs, elem_of_difference, elem_of_singleton, Hmax.
        destruct (decide (i = max_u 64)) as [->|]; [|intuition lia]. rewrite <- Hmax. intuition.
      * intros i [Hi ?%not_elem_of_singleton]%elem_of_difference. specialize (Ha i Hi). lia.
  - split; [|done|congruence|].
    + intros i. rewrite Hs, Hx. intuition congruence.
    + intros i Hi. specialize (Ha i Hi). assert (i ≠ next_expected_sequence w) by (intros ->; done). lia.
Qed.

Lemma least_from_spec fuel i m seen :
  i ≤ m → m - i ≤ Z.of_nat fuel → (∀ j, i ≤ j < m → j ∈ seen) → m ∉ seen → least_from fuel i seen = m.
Proof.
  revert i. induction fuel as [|fuel IH]; intros i Hi Hf Hin Hout; cbn; [lia|].
  destruct (decide (i = m)) as [->|Hne]; [by rewrite bool_decide_eq_false_2|].
  rewrite bool_decide_eq_true_2 by (apply Hin; lia). apply IH; [lia..| |done]. intros j ?. apply Hin. lia.
Qed.

Lemma least_missing_spec m seen :
  0 ≤ m → (∀ j, 0 ≤ j < m → j ∈ seen) → m ∉ seen → least_missing seen = m.
Proof.
  intros Hm Hin Hout. apply least_from_spec; [done| |done..].
  assert (list_to_set (C := gset Z) (seqZ 0 m) ⊆ seen) as Hsub.
  { intros j Hj. rewrite elem_of_list_to_set, elem_of_seqZ in Hj. apply Hin. lia. }
  apply subseteq_size in Hsub. rewrite size_list_to_set, length_seqZ in Hsub by apply NoDup_seqZ. lia.
Qed.

Lemma window_for_default : window_for window_default ∅.
Proof. split; cbn; [|unfold max_u; lia|done|set_solver]. intros i. set_solver by lia. Qed.

Lemma admit_for w seen n :
  window_for w seen → in_u 64 n →
  let ok := negb (bool_decide (n ∈ seen)) && (n <? least_missing seen + MAX_SEQUENCE_REORDER_WINDOW) in
  is_ok (fst (admit_sequence w n)) = ok ∧ window_for (snd (admit_sequence w n)) (if ok then {[n]} ∪ seen else seen).
Proof.
  intros Hw Hn. pose proof Hw as [Hs Hnx Hx Ha]. cbv zeta. unfold admit_sequence.
  destruct (sequence_space_exhausted w) eqn:Hex.
  { assert (n ∈ seen) as Hin by (apply Hs; rewrite (Hx eq_refl); unfold in_u, max_u in *; lia).
    by rewrite bool_decide_eq_true_2. }
  assert (least_missing seen = next_expected_sequence w) as Hleast.
  { apply least_missing_spec; [lia|intros j ?; apply Hs; lia|]. rewrite Hs.
    intros [?|[Hi|[? _]]]; [lia| |done]. specialize (Ha _ Hi). lia. }
  rewrite Hleast. assert (bool_decide (n ∈ seen)
    = (n <? next_expected_sequence w) || bool_decide (n ∈ seen_out_of_order w)) as ->.
  { apply Bool.eq_iff_eq_true. rewrite orb_true_iff, !bool_decide_eq_true, Z.ltb_lt, Hs. unfold in_u in Hn. intuition (done || lia). }
  destruct (_ || _) eqn:Hseen; [done|]. apply orb_false_iff in Hseen as [Hlt Hooo].
  apply Z.ltb_ge in Hlt. apply bool_decide_eq_false_1 in Hooo. cbn [negb andb].
  destruct (Z.leb_spec MAX_SEQUENCE_REORDER_WINDOW (n - next_expected_sequence w)) as [Hfar|Hnear].
  { rewrite (proj2 (Z.ltb_ge _ _)) by lia. done. }
  rewrite (proj2 (Z.ltb_lt _ _)) by lia. split; [done|]. cbn [snd]. apply drain_for; [cbn; lia|].
  unfold window_pre. cbn. split; [|split; [done|split; [done|]]].
  - intros i. rewrite elem_of_union, elem_of_singleton, Hs, elem_of_union, elem_of_singleton. intuition congruence.
  - intros i [Hi| ->%elem_of_singleton]%elem_of_union; [specialize (Ha _ Hi); lia|]. unfold in_u, max_u in *. lia.
Qed.

(** [C20] The replay window is exact: a response is let through if and only if
    none with its sequence number has been before and it is less than a window
    ahead of the least number still missing, up to the last number of the
    sequence space. *)
Theorem replay_window_refines ns :
  Forall (in_u 64) ns → fst (admit_all window_default ns) = admit_spec ∅ ns.
Proof.
  intros Hns. pose proof window_for_default as Hw.
  revert Hw. generalize window_default (∅ : gset Z). induction Hns as [|n ns Hn _ IH]; intros w seen Hw; [done|].
  cbn [admit_all admit_spec]. destruct (admit_for w seen n Hw Hn) as [Hok Hw'].
  destruct (admit_sequence w n) as [r w']. cbn in Hok, Hw'. specialize (IH w' _ Hw').
  destruct (admit_all w' ns) as [rs w'']. cbn in *. by rewrite Hok, IH.
Qed.

Lemma replay_window_refines_witness :
  fst (admit_all window_default [2; 0; 2; 1; 4098; 0; 3; 4098]) = [true; true; false; true; true; false; true; false].
Proof. rewrite replay_window_refines; [by vm_compute|]. repeat constructor; by vm_compute. Defined.
