(* ===== verification/ProtocolPack.v ===== *)
(** * ProtocolPack: which host does a browser's packet name?

    [sub_lib/binary_traverser.rs], [proxy_server/protocol_pack.rs],
    [proxy_server/http_protocol_pack.rs] and [proxy_server/tls_protocol_pack.rs]:
    the proxy server finds the host a packet is meant for in the request line or
    the [Host] header of an HTTP request, or in the server name of a TLS
    ClientHello.  [proxy_server/server_impersonator_http.rs] and
    [server_impersonator_tls.rs]: what it answers itself when it cannot serve.

    Bytes are [list Z]; a Rust [String] is a [string] of its UTF-8 bytes.  The
    regular expression for hosts and the names of HTTP methods belong to the
    crates [regex] and [http], and are parameters. *)

From Stdlib Require Import ZArith Lia String Ascii.
From stdpp Require Import base list numbers option.
From S2P Require Import Prelude Text RouteQuery Migrations Hopper.

Local Open Scope Z_scope.
Local Open Scope rust_scope.
Local Open Scope list_scope.

Definition HTTP_PORT : Z := 80.
Definition TLS_PORT : Z := 443.

(** ** Bytes and text of the standard library *)

(** [&data[a..b]] *)
Definition slice (l : list Z) (a b : nat) : exec (list Z) :=
  if ((a <=? b) && (b <=? length l))%nat then Ret (take (b - a) (drop a l)) else Panic.

(** A continuation byte, and the bounds of the second byte after a lead byte. *)
Definition is_cont (b : Z) : bool := (128 <=? b) && (b <=? 191).
Definition second_ok (lead b : Z) : bool :=
  if lead =? 224 then (160 <=? b) && (b <=? 191)
  else if lead =? 237 then (128 <=? b) && (b <=? 159)
  else if lead =? 240 then (144 <=? b) && (b <=? 191)
  else if lead =? 244 then (128 <=? b) && (b <=? 143)
  else is_cont b.

(** [std::str::from_utf8]: the well-formed byte sequences of Unicode. *)
Fixpoint utf8_valid (bs : list Z) : bool :=
  match bs with
  | [] => true
  | a :: bs =>
      if a <? 128 then utf8_valid bs
      else if (194 <=? a) && (a <=? 223) then
        match bs with b :: bs => is_cont b && utf8_valid bs | _ => false end
      else if (224 <=? a) && (a <=? 239) then
        match bs with b :: c :: bs => second_ok a b && is_cont c && utf8_valid bs | _ => false end
      else if (240 <=? a) && (a <=? 244) then
        match bs with
        | b :: c :: d :: bs => second_ok a b && is_cont c && is_cont d && utf8_valid bs
        | _ => false
        end
      else false
  end.
Definition from_utf8 (bs : list Z) : option string :=
  if utf8_valid bs then Some (bytes_string bs) else None.

(** [str::split] at an ASCII character *)
Fixpoint str_split (sep : ascii) (s : string) : list string :=
  match s with
  | EmptyString => [EmptyString]
  | String c s =>
      if Ascii.eqb c sep then EmptyString :: str_split sep s
      else match str_split sep s with
           | part :: parts => String c part :: parts
           | [] => [String c EmptyString]
           end
  end.

(** [parse::<u16>()] *)
Definition parse_u16 (s : string) : option Z :=
  let digits :=
    match s with
    | String c s' => if char_byte c =? 43 then s' else s
    | EmptyString => s
    end in
  match parse_dec digits with
  | Some n => if bool_decide (in_u 16 n) then Some n else None
  | None => None
  end.

Definition byte (data : list Z) (idx : nat) : Z := nth idx data 0.

(** ** [PlainData] and its traverser *)

Definition get_u8 (data : list Z) (idx : nat) : option Z :=
  if (length data <=? idx)%nat then None else Some (byte data idx).
Definition get_u16 (data : list Z) (idx : nat) : option Z :=
  if (length data <=? idx + 1)%nat then None
  else Some (Z.lor (Z.shiftl (byte data idx) 8) (byte data (idx + 1))).
Definition get_u24 (data : list Z) (idx : nat) : option Z :=
  if (length data <=? idx + 2)%nat then None
  else Some (Z.lor (Z.lor (Z.shiftl (byte data idx) 16) (Z.shiftl (byte data (idx + 1)) 8)) (byte data (idx + 2))).
Definition get_u32 (data : list Z) (idx : nat) : option Z :=
  if (length data <=? idx + 3)%nat then None
  else Some (Z.lor (Z.lor (Z.lor (Z.shiftl (byte data idx) 24) (Z.shiftl (byte data (idx + 1)) 16))
                     (Z.shiftl (byte data (idx + 2)) 8)) (byte data (idx + 3))).

Record BinaryTraverser := mkTraverser { plain_data : list Z; position : nat }.

Definition traversal (A : Type) : Type := BinaryTraverser → result A unit * BinaryTraverser.
Definition tv_ret {A} (x : A) : traversal A := fun t => (Ok x, t).
Definition tv_fail {A} : traversal A := fun t => (Err (), t).
(** the operator [?] *)
Definition tv_bind {A B} (c : traversal A) (k : A → traversal B) : traversal B := fun t =>
  match c t with
  | (Ok x, t) => k x t
  | (Err e, t) => (Err e, t)
  end.
Notation "'tv*' x := c 'in' k" := (tv_bind c (fun x => k))
  (at level 10, x pattern, c at level 100, k at level 200) : rust_scope.

Definition traverser_new (data : list Z) : BinaryTraverser := mkTraverser data 0.
Definition offset : traversal nat := fun t => (Ok (position t), t).
Definition is_valid (t : BinaryTraverser) : bool := (position t <? length (plain_data t))%nat.
Definition advance (bytes : nat) : traversal unit := fun t =>
  let t := mkTraverser (plain_data t) (position t + bytes) in
  (if (length (plain_data t) <? position t)%nat then Err () else Ok (), t).
Definition convert_result {A} (f : BinaryTraverser → option A) : traversal A := fun t => (ok_or (f t) (), t).
Definition next_bytes (count : nat) : traversal (list Z) :=
  tv* p := offset in
  tv* _ := advance count in
  fun t => (Ok (take count (drop p (plain_data t))), t).
Definition t_get_u8 : traversal Z :=
  tv* _ := advance 1 in convert_result (fun t => get_u8 (plain_data t) (position t - 1)).
Definition t_get_u16 : traversal Z :=
  tv* _ := advance 2 in convert_result (fun t => get_u16 (plain_data t) (position t - 2)).
Definition t_get_u24 : traversal Z :=
  tv* _ := advance 3 in convert_result (fun t => get_u24 (plain_data t) (position t - 3)).
Definition t_get_u32 : traversal Z :=
  tv* _ := advance 4 in convert_result (fun t => get_u32 (plain_data t) (position t - 4)).

(** ** TLS *)

Definition ok_is (b : Z) (r : result Z unit) : bool := match r with Ok x => x =? b | Err _ => false end.

Definition is_handshake (t : BinaryTraverser) : bool * BinaryTraverser :=
  let (r, t) := t_get_u8 t in (ok_is 22 r, t).

(** [advance(5 - offset).expect("Internal Error")] *)
Definition is_client_hello (t : BinaryTraverser) : exec (bool * BinaryTraverser) :=
  match advance (5 - position t) t with
  | (Err _, _) => Panic
  | (Ok _, t) => let (r, t) := t_get_u8 t in Ret (ok_is 1 r, t)
  end.

Definition host_name_from_list_entry : traversal string :=
  tv* server_name_length := t_get_u16 in
  tv* server_name_bytes := next_bytes (Z.to_nat server_name_length) in
  match from_utf8 server_name_bytes with
  | Some hostname => tv_ret hostname
  | None => tv_fail
  end.

(** The loop over the entries of the list of server names. *)
Fixpoint list_entries (fuel : nat) (server_name_list_end : nat) : traversal string := fun t =>
  match fuel with
  | O => (Err (), t)
  | S fuel =>
      if (position t <? server_name_list_end)%nat then
        (tv* server_name_type := t_get_u8 in
         if server_name_type =? 0 then host_name_from_list_entry
         else
           tv* server_name_length := t_get_u16 in
           tv* _ := advance (Z.to_nat server_name_length) in
           list_entries fuel server_name_list_end) t
      else (Err (), t)
  end.
Definition host_name_from_extension : traversal string := fun t =>
  (tv* _ := advance 2 in
   tv* server_name_list_length := t_get_u16 in
   tv* o := offset in
   list_entries (S (length (plain_data t))) (o + Z.to_nat server_name_list_length)) t.

(** The loop over the extensions of a ClientHello. *)
Fixpoint extensions (fuel : nat) (extensions_end : nat) : traversal string := fun t =>
  match fuel with
  | O => (Err (), t)
  | S fuel =>
      if (position t <? extensions_end)%nat then
        (tv* extension_type := t_get_u16 in
         if extension_type =? 0 then host_name_from_extension
         else
           tv* extension_length := t_get_u16 in
           tv* _ := advance (Z.to_nat extension_length) in
           extensions fuel extensions_end) t
      else (Err (), t)
  end.
Definition host_name_from_client_hello : traversal string := fun t =>
  (tv* _ := advance (43 - position t) in
   tv* session_id_length := t_get_u8 in
   tv* _ := advance (Z.to_nat session_id_length) in
   tv* cipher_suites_length := t_get_u16 in
   tv* _ := advance (Z.to_nat cipher_suites_length) in
   tv* compression_methods_length := t_get_u8 in
   tv* _ := advance (Z.to_nat compression_methods_length) in
   tv* extensions_length := t_get_u16 in
   tv* extensions_offset := offset in
   extensions (S (length (plain_data t))) (extensions_offset + Z.to_nat extensions_length)) t.

Definition tls_find_host (data : list Z) : exec (option Host) :=
  let (handshake, t) := is_handshake (traverser_new data) in
  if negb handshake then Ret None
  else
    let* (hello, t) := is_client_hello t in
    if negb hello then Ret None
    else match fst (host_name_from_client_hello t) with
         | Ok name => Ret (Some (mkHost name TLS_PORT))
         | Err _ => Ret None
         end.

Definition hex_digit_upper (d : Z) : ascii := ascii_of_nat (Z.to_nat (if d <? 10 then 48 + d else 55 + d)).
(** [{:02X}] of a byte *)
Definition hex_byte (b : Z) : string :=
  String (hex_digit_upper (b / 16)) (String (hex_digit_upper (b mod 16)) EmptyString).
Definition usize_text (n : nat) : string := dec (Z.of_nat n).
Definition described (table : list (Z * string)) (opcode : Z) (unknown : string) : string :=
  match list_find (fun e => e.1 = opcode) table with
  | Some (_, (_, name)) => name
  | None => (unknown ++ hex_byte opcode)%string
  end.

Definition describe_client_hello (data : list Z) : exec string :=
  let* h := tls_find_host data in
  match h with
  | Some _ => Ret "ClientHello with SNI [REDACTED]"%string
  | None => Ret "ClientHello with no SNI extension"%string
  end.
Definition describe_handshake (data : list Z) : exec string :=
  match get_u8 data 5 with
  | Some opcode =>
      if opcode =? 1 then describe_client_hello data
      else Ret (described
        [(0, "HelloRequest"); (2, "ServerHello"); (3, "HelloVerifyRequest"); (4, "NewSessionTicket");
         (5, "EndOfEarlyData"); (6, "HelloRetryRequest"); (11, "Certificate"); (12, "ServerKeyExchange");
         (13, "CertificateRequest"); (14, "ServerHelloDone"); (15, "CertificateVerify");
         (16, "ClientKeyExchange"); (20, "Finished")]%string opcode "Unrecognized Handshake 0x")
  | None => Ret ("Incomplete " ++ usize_text (length data) ++ "-byte Handshake packet")%string
  end.
Definition describe_cipher_spec (data : list Z) : string :=
  match get_u8 data 5 with
  | Some opcode => described [(1, "ChangeCipherSpec"%string)] opcode "Unrecognized ChangeCipherSpec 0x"
  | None => ("Incomplete " ++ usize_text (length data) ++ "-byte ChangeCipherSpec packet")%string
  end.
Definition describe_alert (data : list Z) : string :=
  let incomplete := ("Incomplete " ++ usize_text (length data) ++ "-byte Alert packet")%string in
  match get_u8 data 5 with
  | None => incomplete
  | Some l =>
      let level := described [(1, "Warning"); (2, "Fatal")]%string l "Unrecognized Alert Level 0x" in
      match get_u8 data 6 with
      | None => incomplete
      | Some d =>
          (level ++ " " ++ described
             [(0, "CloseNotify"); (1, "Unrecognized Alert Description 0x01"); (10, "UnexpectedMessage");
              (20, "BadRecordMAC"); (21, "DecryptionFailed"); (22, "RecordOverflow"); (30, "DecompressionFailure");
              (40, "HandshakeFailure"); (41, "NoCertificate"); (42, "BadCertificate");
              (43, "UnsupportedCertificate"); (44, "CertificateRevoked"); (45, "CertificateExpired");
              (46, "CertificateUnknown"); (47, "IllegalParameter"); (48, "UnknownCA"); (49, "AccessDenied");
              (50, "DecodeError"); (51, "DecryptError"); (60, "ExportRestriction"); (70, "ProtocolVersion");
              (71, "InsufficientSecurity"); (80, "InternalError"); (90, "UserCanceled"); (100, "NoRenegotiation");
              (114, "UnsupportedExtension")] d "Unrecognized Alert Description 0x")%string
      end
  end.
Definition describe_application_data (data : list Z) : string :=
  if (length data <? 5)%nat then "Incomplete ApplicationData"%string
  else (usize_text (length data - 5) ++ "-byte ApplicationData")%string.
Definition tls_describe_packet (data : list Z) : exec string :=
  match get_u8 data 0 with
  | Some opcode =>
      if opcode =? 22 then describe_handshake data
      else if opcode =? 20 then Ret (describe_cipher_spec data)
      else if opcode =? 21 then Ret (describe_alert data)
      else if opcode =? 23 then Ret (describe_application_data data)
      else Ret (usize_text (length data) ++ "-byte packet of unrecognized type 0x" ++ hex_byte opcode)%string
  | None => Ret ("Incomplete " ++ usize_text (length data) ++ "-byte TLS packet")%string
  end.

(** ** HTTP *)

(** [masq_lib::utils::index_of] *)
Fixpoint starts_with (needles haystack : list Z) : bool :=
  match needles, haystack with
  | [], _ => true
  | _ :: _, [] => false
  | n :: needles, h :: haystack => (h =? n) && starts_with needles haystack
  end.
Fixpoint index_from (haystack needles : list Z) : option nat :=
  match haystack with
  | [] => None
  | _ :: rest => if starts_with needles haystack then Some O else S <$> index_from rest needles
  end.
Definition index_of (haystack needles : list Z) : option nat :=
  match needles with [] => None | _ => index_from haystack needles end.

(** The crates [regex] and [http]: what [HOST_PATTERN] captures of a text, what
    the third group of [Hostname]'s pattern does, and whether
    [Method::from_bytes] reads [CONNECT]. *)
Class HttpCrates := {
  host_pattern : string → option string;
  hostname_pattern : string → option string;
  is_connect_method : list Z → bool;
}.

(** the operator [?] on an [Option], and [take_while] *)
Definition some_bind {A B} (o : option A) (k : A → exec (option B)) : exec (option B) :=
  match o with Some x => k x | None => Ret None end.
Notation "'some*' x := o 'in' k" := (some_bind o (fun x => k))
  (at level 10, x pattern, o at level 100, k at level 200) : rust_scope.
Fixpoint take_until (b : Z) (l : list Z) : list Z :=
  match l with
  | [] => []
  | x :: l => if x =? b then [] else x :: take_until b l
  end.

Section Http.
Context `{H : HttpCrates}.

Definition CRLF : list Z := [13; 10].

Definition port_from_string (port_str : string) : result Z string :=
  match parse_u16 port_str with
  | None => Err ("Port '" ++ port_str ++ "' is not a number")%string
  | Some port => Ok port
  end.

Definition host_from_host_name_and_port (host_and_port : string) : option Host :=
  match str_split ":" host_and_port with
  | [name] => Some (mkHost name HTTP_PORT)
  | [name; port] =>
      match port_from_string port with
      | Ok port => Some (mkHost name port)
      | Err _ => None
      end
  | _ => None
  end.

Definition is_connect (data : list Z) : bool := is_connect_method (take_until 32 (take 8 data)).

Definition find_url_host (data : list Z) : exec (option Host) :=
  some* idx := index_of data CRLF in
  let* first_line := slice data 0 idx in
  some* space := index_of first_line [32] in
  let path_begin := (space + 1)%nat in
  let* from_path := slice data path_begin (length data) in
  some* path_len := index_of from_path [32] in
  let* path := slice data path_begin (path_len + path_begin) in
  some* path := from_utf8 path in
  some* host_name_and_port := host_pattern path in
  Ret (match host_from_host_name_and_port host_name_and_port with
       | Some h => if bool_decide (host_name h = EmptyString) then None else Some h
       | None => None
       end).

Definition find_header_host (data : list Z) : exec (option Host) :=
  some* idx := index_of data (CRLF ++ CRLF) in
  let* headers := slice data 0 (idx + 2) in
  let needle := CRLF ++ string_bytes "Host: " in
  some* at_ := index_of headers needle in
  let begin := (at_ + length needle)%nat in
  let* from_value := slice headers begin (length headers) in
  some* value_len := index_of from_value CRLF in
  let* host_header_value := slice headers begin (value_len + begin) in
  some* host_and_port := from_utf8 host_header_value in
  Ret (host_from_host_name_and_port host_and_port).

Definition http_find_host (data : list Z) : exec (option Host) :=
  let (first, second) := if is_connect data then (find_url_host, find_header_host)
                         else (find_header_host, find_url_host) in
  let* h := first data in
  match h with Some h => Ret (Some h) | None => second data end.
End Http.

Definition http_describe_packet (data : list Z) : string :=
  if starts_with (string_bytes "HTTP/") data
  then ("HTTP response (" ++ usize_text (length data) ++ " bytes); contents redacted")%string
  else ("HTTP request (" ++ usize_text (length data) ++ " bytes); target and contents redacted")%string.

(** ** What the node answers in place of a server *)

(** [str::replace] *)
Fixpoint str_drop (n : nat) (s : string) : string :=
  match n, s with
  | O, _ => s
  | S n, String _ s => str_drop n s
  | S _, EmptyString => EmptyString
  end.
Fixpoint replace_loop (fuel : nat) (from to s : string) : string :=
  match fuel with
  | O => s
  | S fuel =>
      match s with
      | EmptyString => EmptyString
      | String c s' =>
          if String.prefix from s then (to ++ replace_loop fuel from to (str_drop (String.length from) s))%string
          else String c (replace_loop fuel from to s')
      end
  end.
Definition str_replace (from to s : string) : string := replace_loop (String.length s) from to s.

Definition newline : string := String (ascii_of_nat 10) EmptyString.
Definition crlf : string := String (ascii_of_nat 13) newline.
Definition quote : string := String (ascii_of_nat 34) EmptyString.

Definition ERROR_TEMPLATE : string :=
  ("<html>" ++ newline ++ "<body>" ++ newline ++ "<h1>Error {status}</h1>" ++ newline
   ++ "<h2>Title: {title}</h2>" ++ newline ++ "<h3>Subtitle: {subtitle}</h3>" ++ newline
   ++ "<p>{content}</p>" ++ newline ++ "</body>" ++ newline ++ "</html>" ++ newline)%string.
Definition HTTP_RESPONSE_TEMPLATE : string :=
  ("HTTP/1.1 {status} Routing Error" ++ crlf ++ "Content-Type: text/html" ++ crlf
   ++ "Content-Length: {length}" ++ crlf ++ crlf ++ "{body}")%string.

Definition make_error_page (status : Z) (title subtitle content : string) : string :=
  str_replace "{content}" content (str_replace "{subtitle}" subtitle
    (str_replace "{title}" title (str_replace "{status}" (dec status) ERROR_TEMPLATE))).
Definition make_error_response (status : Z) (title subtitle content : string) : list Z :=
  let html := make_error_page status title subtitle content in
  string_bytes (str_replace "{body}" html
    (str_replace "{length}" (usize_text (String.length html))
       (str_replace "{status}" (dec status) HTTP_RESPONSE_TEMPLATE))).

Definition TLS_INTERNAL_ERROR_ALERT : list Z := [21; 3; 3; 0; 2; 2; 80].
Definition TLS_UNRECOGNIZED_NAME_ALERT : list Z := [21; 3; 3; 0; 2; 2; 112].

(** [from_protocol(protocol).server_impersonator()] *)
Definition route_query_failure_response (p : ProxyProtocol) (server_name : string) : list Z :=
  match p with
  | HTTP => make_error_response 503 "Routing Problem" ("Can't find a route to " ++ server_name)%string
      ("MASQ can't find a route through the Network yet to a Node that knows where to find " ++ server_name
       ++ ". Maybe later enough will be known about the Network to find that Node, but we can't guarantee it. We're sorry.")%string
  | TLS => TLS_INTERNAL_ERROR_ALERT
  end.
Definition dns_resolution_failure_response (p : ProxyProtocol) (server_name : string) : list Z :=
  match p with
  | HTTP => make_error_response 503 "DNS Resolution Problem"
      ("Exit Nodes couldn't resolve " ++ quote ++ server_name ++ quote)%string
      ("DNS Failure, We have tried multiple Exit Nodes and all have failed to resolve this address " ++ server_name)%string
  | TLS => TLS_UNRECOGNIZED_NAME_ALERT
  end.
Definition consuming_wallet_absent (p : ProxyProtocol) : list Z :=
  match p with
  | HTTP => make_error_response 402 "Consuming Wallet Required" "Can't consume without wallet to pay from"
      "You're trying to consume routing and exit services from other Nodes, but you haven't specified a consuming wallet from which your Node can pay the bills you're about to incur. Set up a funded consuming wallet and try again."
  | TLS => TLS_INTERNAL_ERROR_ALERT
  end.

(** ** The packs *)

Definition proxy_protocol (p : ProxyProtocol) : ProxyProtocol := p.
Definition standard_port (p : ProxyProtocol) : Z := match p with HTTP => HTTP_PORT | TLS => TLS_PORT end.
Definition find_host `{H : HttpCrates} (p : ProxyProtocol) (data : list Z) : exec (option Host) :=
  match p with HTTP => http_find_host data | TLS => tls_find_host data end.

(** A pack is named by its protocol. *)
Definition from_protocol (p : ProxyProtocol) : ProxyProtocol := p.
Definition from_standard_port (port : Z) : option ProxyProtocol :=
  if port =? HTTP_PORT then Some HTTP else if port =? TLS_PORT then Some TLS else None.
Definition from_ibcd (ibcd : InboundClientData) : result ProxyProtocol string :=
  match ib_reception_port_opt ibcd with
  | None => Err ("No origin port specified with " ++ usize_text (length (ib_data ibcd))
                 ++ "-byte non-clandestine packet; contents redacted")%string
  | Some origin_port =>
      ok_or (from_standard_port origin_port)
        ("No protocol associated with origin port " ++ dec origin_port ++ " for "
         ++ usize_text (length (ib_data ibcd)) ++ "-byte non-clandestine packet; contents redacted")%string
  end.
