(* ===== verification/ProtocolHosts.v ===== *)
(** * ProtocolHosts: the packs find the host that was written

    What [ProtocolPack] finds in well-formed packets: the server name of a TLS
    ClientHello as RFC 5246 and RFC 6066 lay it out, and the authority of an
    HTTP request; and on which packets a pack does not return at all. *)

From Stdlib Require Import ZArith Lia String Ascii.
From stdpp Require Import base list numbers option.
From S2P Require Import Prelude Text RouteQuery Migrations Hopper ProtocolPack.

Local Open Scope Z_scope.
Local Open Scope rust_scope.
Local Open Scope list_scope.

(** ** Reading from a traverser *)

(** [c] reads exactly [x] and returns [r]. *)
Definition reads {A} (c : traversal A) (x : list Z) (r : A) : Prop :=
  ∀ pre post, c (mkTraverser (pre ++ x ++ post) (length pre))
    = (Ok r, mkTraverser (pre ++ x ++ post) (length pre + length x)).

Lemma reads_bind {A B} (c : traversal A) (k : A → traversal B) x y a b :
  reads c x a → reads (k a) y b → reads (tv_bind c k) (x ++ y) b.
Proof.
  intros Hc Hk pre post. unfold tv_bind. rewrite <- (assoc_L (++)), Hc.
  specialize (Hk (pre ++ x) post). rewrite <- !(assoc_L (++)), length_app in Hk. rewrite Hk, length_app.
  do 2 f_equal. lia.
Qed.

Lemma bind_reads {A B} (c : traversal A) (k : A → traversal B) x r pre post :
  reads c x r →
  tv_bind c k (mkTraverser (pre ++ x ++ post) (length pre))
  = k r (mkTraverser ((pre ++ x) ++ post) (length (pre ++ x))).
Proof. intros Hc. unfold tv_bind. by rewrite Hc, <- (assoc_L (++)), length_app. Qed.

Lemma reads_advance x : reads (advance (length x)) x ().
Proof.
  intros pre post. unfold advance. cbn [plain_data position]. rewrite !length_app.
  by rewrite (proj2 (Nat.ltb_ge _ _)) by lia.
Qed.

Lemma reads_skip n x : length x = n → reads (advance n) x ().
Proof. intros <-. apply reads_advance. Qed.

Lemma byte_app pre b post : byte (pre ++ b :: post) (length pre) = b.
Proof. unfold byte. by rewrite nth_middle. Qed.

Lemma reads_u8 b : reads t_get_u8 [b] b.
Proof.
  intros pre post. unfold t_get_u8, tv_bind. rewrite (reads_skip 1 [b]) by done.
  unfold convert_result, get_u8. cbn [plain_data position length].
  rewrite Nat.add_sub, !length_app. cbn [length].
  rewrite (proj2 (Nat.leb_gt _ _)) by lia. cbn [app ok_or]. by rewrite byte_app.
Qed.

Lemma reads_u16 n : in_u 16 n → reads t_get_u16 (be_bytes 2 n) n.
Proof.
  intros Hn pre post. unfold t_get_u16, tv_bind. rewrite (reads_skip 2) by apply length_be_bytes.
  unfold convert_result, get_u16. cbn [plain_data position].
  rewrite length_be_bytes, Nat.add_sub, !length_app, length_be_bytes.
  rewrite (proj2 (Nat.leb_gt _ _)) by lia. cbn [ok_or]. do 2 f_equal.
  destruct (be_bytes 2 n) as [|a [|b [|]]] eqn:E; try (by apply (f_equal length) in E; rewrite length_be_bytes in E).
  pose proof (be_bytes_ok 2 n) as Hok. rewrite E in Hok.
  pose proof (be_value_bytes 2 n) as Hv. rewrite E in Hv. cbn in Hv.
  pose proof (proj1 (Forall_cons_1 _ _ _ Hok)) as Ha. pose proof (Forall_inv (Forall_inv_tail Hok)) as Hb.
  cbn [app]. rewrite byte_app.
  change (pre ++ a :: b :: post) with (pre ++ [a] ++ b :: post).
  rewrite (assoc_L (++)). replace (length pre + 1)%nat with (length (pre ++ [a])) by (rewrite length_app; done).
  rewrite byte_app, Z.lor_comm, lor_low_high by (done || lia).
  unfold in_u in *. rewrite Z.mod_small in Hv by done. lia.
Qed.

Lemma reads_next x : reads (next_bytes (length x)) x x.
Proof.
  intros pre post. unfold next_bytes, tv_bind. cbn [offset]. rewrite reads_advance. cbn.
  by rewrite drop_app_length, take_app_length.
Qed.

(** ** A ClientHello *)

Definition u16_prefixed (bs : list Z) : list Z := be_bytes 2 (Z.of_nat (length bs)) ++ bs.
Definition extension (e : Z * list Z) : list Z := be_bytes 2 e.1 ++ u16_prefixed e.2.
Definition name_entry (e : Z * list Z) : list Z := [e.1] ++ u16_prefixed e.2.

Record ClientHello := mkHello {
  record_header : list Z;            (* version and length of the record *)
  hello_head : list Z;               (* length, version and random of the handshake *)
  session_id : list Z;
  cipher_suites : list Z;
  compression_methods : list Z;
  extensions_before : list (Z * list Z);
  names_before : list (Z * list Z);  (* of types other than host names *)
  server_name : string;
  names_after : list Z;
  extensions_after : list Z;
}.

Definition name_list (h : ClientHello) : list Z :=
  concat (map name_entry (names_before h)) ++ name_entry (0, string_bytes (server_name h)) ++ names_after h.
Definition hello_extensions (h : ClientHello) : list Z :=
  concat (map extension (extensions_before h)) ++ extension (0, u16_prefixed (name_list h)) ++ extensions_after h.
Definition hello_bytes (h : ClientHello) : list Z :=
  [22] ++ record_header h ++ [1] ++ hello_head h
  ++ [Z.of_nat (length (session_id h))] ++ session_id h
  ++ u16_prefixed (cipher_suites h)
  ++ [Z.of_nat (length (compression_methods h))] ++ compression_methods h
  ++ u16_prefixed (hello_extensions h).

(** The lengths fit their fields. *)
Record hello_ok (h : ClientHello) : Prop := {
  ho_record : length (record_header h) = 4%nat;
  ho_head : length (hello_head h) = 37%nat;
  ho_suites : in_u 16 (Z.of_nat (length (cipher_suites h)));
  ho_extensions : in_u 16 (Z.of_nat (length (hello_extensions h)));
  ho_before : Forall (fun e => in_u 16 e.1 ∧ e.1 ≠ 0) (extensions_before h);
  ho_names : Forall (fun e => e.1 ≠ 0) (names_before h);
  ho_utf8 : utf8_valid (string_bytes (server_name h)) = true;
}.

Lemma reads_prefixed bs : in_u 16 (Z.of_nat (length bs)) →
  reads (tv* n := t_get_u16 in advance (Z.to_nat n)) (u16_prefixed bs) ().
Proof.
  intros Hn. apply (reads_bind _ _ _ _ _ _ (reads_u16 _ Hn)). rewrite Nat2Z.id. apply reads_advance.
Qed.

Lemma tv_bind_assoc {A B C} (c : traversal A) (k : A → traversal B) (k' : B → traversal C) t :
  tv_bind (tv_bind c k) k' t = tv_bind c (fun x => tv_bind (k x) k') t.
Proof. unfold tv_bind. destruct (c t) as [[]]; done. Qed.

Lemma reads_entry name : utf8_valid (string_bytes name) = true →
  in_u 16 (Z.of_nat (length (string_bytes name))) →
  reads host_name_from_list_entry (u16_prefixed (string_bytes name)) name.
Proof.
  intros Hu Hn. unfold host_name_from_list_entry, u16_prefixed.
  apply (reads_bind _ _ _ _ _ _ (reads_u16 _ Hn)). rewrite Nat2Z.id.
  rewrite <- (app_nil_r (string_bytes name)) at 2.
  apply (reads_bind _ _ _ _ _ _ (reads_next _)).
  unfold from_utf8. rewrite Hu. rewrite bytes_string_bytes.
  intros pre post. unfold tv_ret. cbn. do 2 f_equal. lia.
Qed.

(** The loop over server names passes by those of other types. *)
Lemma list_entries_skip es fuel end_ pre post :
  Forall (fun e => e.1 ≠ 0 ∧ in_u 16 (Z.of_nat (length e.2))) es →
  (length es <= fuel)%nat → (length pre + length (concat (map name_entry es)) <= end_)%nat →
  list_entries fuel end_ (mkTraverser (pre ++ concat (map name_entry es) ++ post) (length pre))
  = list_entries (fuel - length es) end_
      (mkTraverser (pre ++ concat (map name_entry es) ++ post) (length pre + length (concat (map name_entry es)))).
Proof.
  revert fuel pre. induction es as [|[ty bs] es IH]; intros fuel pre Hes Hf He.
  { cbn. by rewrite Nat.add_0_r, Nat.sub_0_r. }
  apply Forall_cons_1 in Hes as [[Hty Hlen] Hes]. cbn in Hty, Hlen. destruct fuel as [|fuel]; [cbn in Hf; lia|].
  cbn [map concat] in *. set (rest := concat (map name_entry es)) in *.
  cbn [list_entries position]. rewrite length_app in He. cbn in He.
  rewrite (proj2 (Nat.ltb_lt _ _)) by lia. unfold name_entry at 1. cbn [fst snd].
  rewrite <- !(assoc_L (++)), (bind_reads _ _ _ _ _ _ (reads_u8 ty)).
  rewrite (proj2 (Z.eqb_neq _ _)) by done.
  rewrite <- tv_bind_assoc, (bind_reads _ _ _ _ _ _ (reads_prefixed bs Hlen)).
  unfold rest. rewrite IH; [|done|cbn in Hf; lia|].
  - fold rest. cbn [length Nat.sub]. f_equal. unfold name_entry. cbn [fst snd].
    rewrite <- !(assoc_L (++)). f_equal. rewrite !length_app. cbn. lia.
  - fold rest. rewrite !length_app. cbn. lia.
Qed.

(** The loop over extensions passes by those that are not the server name. *)
Lemma extensions_skip es fuel end_ pre post :
  Forall (fun e => (in_u 16 e.1 ∧ e.1 ≠ 0) ∧ in_u 16 (Z.of_nat (length e.2))) es →
  (length es <= fuel)%nat → (length pre + length (concat (map extension es)) <= end_)%nat →
  extensions fuel end_ (mkTraverser (pre ++ concat (map extension es) ++ post) (length pre))
  = extensions (fuel - length es) end_
      (mkTraverser (pre ++ concat (map extension es) ++ post) (length pre + length (concat (map extension es)))).
Proof.
  revert fuel pre. induction es as [|[ty bs] es IH]; intros fuel pre Hes Hf He.
  { cbn. by rewrite Nat.add_0_r, Nat.sub_0_r. }
  apply Forall_cons_1 in Hes as [[[Hty Hnz] Hlen] Hes]. cbn [fst snd] in *. destruct fuel as [|fuel]; [cbn in Hf; lia|].
  cbn [map concat] in *. set (rest := concat (map extension es)) in *.
  cbn [extensions position]. rewrite length_app in He. unfold extension in He at 1. rewrite length_app, length_be_bytes in He.
  rewrite (proj2 (Nat.ltb_lt _ _)) by lia. unfold extension at 1. cbn [fst snd] in *.
  rewrite <- !(assoc_L (++)), (bind_reads _ _ _ _ _ _ (reads_u16 ty Hty)).
  rewrite (proj2 (Z.eqb_neq _ _)) by done.
  rewrite <- tv_bind_assoc, (bind_reads _ _ _ _ _ _ (reads_prefixed bs Hlen)).
  unfold rest. rewrite IH; [|done|cbn in Hf; lia|].
  - fold rest. cbn [length Nat.sub]. f_equal. unfold extension. cbn [fst snd].
    rewrite <- !(assoc_L (++)). f_equal. rewrite !length_app. lia.
  - fold rest. rewrite !length_app, length_be_bytes. lia.
Qed.

Lemma part_length {A} (f : A → list Z) (g : A → list Z) es :
  (∀ e, (length (g e) <= length (f e))%nat) →
  Forall (fun e => (length (g e) <= length (concat (map f es)))%nat) es.
Proof.
  intros Hg. induction es as [|e es IH]; constructor; cbn; rewrite length_app; [pose proof (Hg e); lia|].
  eapply Forall_impl, IH. cbn. intros ? ?. lia.
Qed.

Lemma parts_length {A} (f : A → list Z) es :
  (∀ e, (1 <= length (f e))%nat) → (length es <= length (concat (map f es)))%nat.
Proof. intros Hf. induction es as [|e es IH]; [done|]. cbn. rewrite length_app. pose proof (Hf e). lia. Qed.

Lemma length_u16_prefixed bs : length (u16_prefixed bs) = (2 + length bs)%nat.
Proof. unfold u16_prefixed. by rewrite length_app, length_be_bytes. Qed.
Lemma length_name_entry e : length (name_entry e) = (3 + length e.2)%nat.
Proof. unfold name_entry. by rewrite length_app, length_u16_prefixed. Qed.
Lemma length_extension e : length (extension e) = (4 + length e.2)%nat.
Proof. unfold extension. by rewrite length_app, length_u16_prefixed, length_be_bytes. Qed.

Lemma short_list (bs : list Z) n : (length bs <= n)%nat → in_u 16 (Z.of_nat n) → in_u 16 (Z.of_nat (length bs)).
Proof. unfold in_u. lia. Qed.

(** The extension of the server name yields the first host name of its list. *)
Lemma server_name_found h pre post :
  hello_ok h → in_u 16 (Z.of_nat (length (name_list h))) →
  fst (host_name_from_extension
    (mkTraverser (pre ++ u16_prefixed (u16_prefixed (name_list h)) ++ post) (length pre))) = Ok (server_name h).
Proof.
  intros Hok Hlen. destruct Hok as [_ _ _ _ _ Hnames Hutf8]. set (l := name_list h) in *.
  unfold host_name_from_extension. cbn [plain_data].
  set (data := pre ++ u16_prefixed (u16_prefixed l) ++ post).
  set (fuel := Datatypes.S (length data)).
  assert (data = pre ++ be_bytes 2 (Z.of_nat (length (u16_prefixed l))) ++ be_bytes 2 (Z.of_nat (length l)) ++ l ++ post)
    as Hdata by (unfold data, u16_prefixed; by rewrite <- !(assoc_L (++))).
  rewrite Hdata, (bind_reads _ _ _ _ _ _ (reads_skip 2 _ (length_be_bytes 2 _))).
  rewrite (bind_reads _ _ _ _ _ _ (reads_u16 _ Hlen)). unfold tv_bind at 1. cbn [offset position].
  rewrite Nat2Z.id. set (pre2 := (pre ++ _) ++ _). unfold l at 2, name_list.
  set (es := names_before h). rewrite <- !(assoc_L (++)).
  assert (length l = (length (concat (map name_entry es)) + 3 + length (string_bytes (server_name h)) + length (names_after h))%nat)
    as Hl by (unfold l, name_list; fold es; rewrite !length_app, length_name_entry; cbn [snd]; lia).
  rewrite list_entries_skip.
  - destruct (fuel - length es)%nat as [|f] eqn:Hf.
    { exfalso. pose proof (parts_length name_entry es ltac:(intros; rewrite length_name_entry; lia)).
      unfold fuel, data in Hf. rewrite !length_app, !length_u16_prefixed in Hf. lia. }
    cbn [list_entries position]. rewrite (proj2 (Nat.ltb_lt _ _)) by lia. unfold name_entry at 2. cbn [fst snd].
    rewrite <- !(assoc_L (++)), <- (length_app pre2 (concat (map name_entry es))), (assoc_L (++) pre2).
    rewrite (bind_reads _ _ _ _ _ _ (reads_u8 0)). cbn [Z.eqb].
    rewrite reads_entry; [done|done|]. eapply short_list; [|exact Hlen]. lia.
  - apply Forall_forall. intros e He. split.
    + rewrite Forall_forall in Hnames. by apply Hnames.
    + pose proof (part_length name_entry snd es ltac:(intros; rewrite length_name_entry; lia)) as Hp.
      rewrite Forall_forall in Hp. specialize (Hp _ He). cbn in Hp. eapply short_list; [|exact Hlen]. lia.
  - pose proof (parts_length name_entry es ltac:(intros; rewrite length_name_entry; lia)).
    unfold fuel, data. rewrite !length_app, !length_u16_prefixed. lia.
  - lia.
Qed.

(** [C21] A ClientHello that names its server is understood: whatever its session,
    cipher suites, compression methods and other extensions, the host found is
    its first host name, at the port of TLS. *)
Theorem client_hello_host h :
  hello_ok h → tls_find_host (hello_bytes h) = Ret (Some (mkHost (server_name h) TLS_PORT)).
Proof.
  intros Hok. pose proof Hok as [Hrec Hhead Hsuites Hext Hbefore _ _].
  set (es := extensions_before h) in *.
  assert (length (hello_extensions h) = (length (concat (map extension es)) + 6 + length (name_list h) + length (extensions_after h))%nat)
    as Hl by (unfold hello_extensions; fold es; rewrite !length_app, length_extension; cbn [snd]; rewrite length_u16_prefixed; lia).
  assert (in_u 16 (Z.of_nat (length (name_list h)))) as Hnames by (eapply short_list; [|exact Hext]; lia).
  unfold tls_find_host, is_handshake, traverser_new, hello_bytes.
  change (mkTraverser ([22] ++ ?l) 0) with (mkTraverser ([] ++ [22] ++ l) (length (@nil Z))).
  rewrite (reads_u8 22). cbn [ok_is Z.eqb negb].
  unfold is_client_hello. cbn [position length Nat.add Nat.sub].
  change ([] ++ [22] ++ ?l) with ([22] ++ l). change 1%nat with (length [22]) at 1.
  rewrite (reads_skip 4 _ Hrec). rewrite <- length_app, (assoc_L (++) [22]), (reads_u8 1).
  cbn [ok_is Z.eqb negb exec_bind]. rewrite <- length_app, (assoc_L (++) _ [1]).
  set (pre := ([22] ++ _) ++ [1]).
  assert (43 - length pre = 37)%nat as Hpre by (unfold pre; rewrite !length_app, Hrec; done).
  unfold host_name_from_client_hello. cbn [plain_data position].
  match goal with |- context [extensions (Datatypes.S ?n)] => set (fuel := Datatypes.S n) end.
  rewrite Hpre, (bind_reads _ _ _ _ _ _ (reads_skip 37 _ Hhead)), (bind_reads _ _ _ _ _ _ (reads_u8 _)), Nat2Z.id.
  rewrite (bind_reads _ _ _ _ _ _ (reads_advance (session_id h))), <- tv_bind_assoc.
  rewrite (bind_reads _ _ _ _ _ _ (reads_prefixed _ Hsuites)), (bind_reads _ _ _ _ _ _ (reads_u8 _)), Nat2Z.id.
  rewrite (bind_reads _ _ _ _ _ _ (reads_advance (compression_methods h))).
  change (u16_prefixed (hello_extensions h))
    with (be_bytes 2 (Z.of_nat (length (hello_extensions h))) ++ hello_extensions h).
  rewrite (bind_reads _ _ _ _ _ _ (reads_u16 _ Hext)). unfold tv_bind at 1. cbn [offset position]. rewrite Nat2Z.id.
  match goal with |- context [mkTraverser (?p ++ hello_extensions h)] => set (pre2 := p) end.
  assert (length es < fuel)%nat as Hfuel.
  { pose proof (parts_length extension es ltac:(intros; rewrite length_extension; lia)).
    unfold fuel. rewrite !length_app, !length_u16_prefixed. lia. }
  clearbody pre2 fuel. unfold hello_extensions at 2. fold es. rewrite extensions_skip; [..|lia|lia].
  - destruct (fuel - length es)%nat as [|f] eqn:Hf; [lia|]. cbn [extensions position].
    rewrite (proj2 (Nat.ltb_lt _ _)) by lia. unfold extension at 2. cbn [fst snd].
    rewrite <- (length_app pre2 (concat (map extension es))), (assoc_L (++) pre2), <- !(assoc_L (++) (be_bytes 2 0)).
    rewrite (bind_reads _ _ _ _ _ _ (reads_u16 0 ltac:(done))). cbn [Z.eqb].
    by rewrite server_name_found.
  - apply Forall_forall. intros e He. split; [rewrite Forall_forall in Hbefore; by apply Hbefore|].
    pose proof (part_length extension snd es ltac:(intros; rewrite length_extension; lia)) as Hp.
    rewrite Forall_forall in Hp. specialize (Hp _ He). cbn in Hp. eapply short_list; [|exact Hext]. lia.
Qed.

(** ** The loops end before their fuel does *)

(** On success [c] has moved [n] bytes or more and not left the data. *)
Definition moves {A} (n : nat) (c : traversal A) : Prop :=
  ∀ t r t', c t = (Ok r, t') →
    plain_data t' = plain_data t ∧ (position t + n <= position t')%nat ∧ (position t' <= length (plain_data t))%nat.

Lemma moves_advance n : moves n (advance n).
Proof.
  intros t r t'. unfold advance. cbn [plain_data position].
  destruct (Nat.ltb_spec (length (plain_data t)) (position t + n)); [done|]. intros [= _ <-]. cbn.
  split; [done|lia].
Qed.
Lemma moves_bind {A B} m n (c : traversal A) (k : A → traversal B) :
  moves m c → (∀ x, moves n (k x)) → moves (m + n) (tv_bind c k).
Proof.
  intros Hc Hk t r t'. unfold tv_bind. destruct (c t) as [[x|] t1] eqn:E; [|done]. intros E2.
  destruct (Hc _ _ _ E) as (Hd & ? & ?). destruct (Hk _ _ _ _ E2) as (Hd' & ? & ?).
  rewrite Hd in *. split; [congruence|lia].
Qed.
Lemma moves_get {A} n (f : BinaryTraverser → option A) : moves n (tv* _ := advance n in convert_result f).
Proof.
  intros t r t'. unfold tv_bind. destruct (advance n t) as [[x|] t1] eqn:E; [|done].
  unfold convert_result. intros [= _ <-]. by apply (moves_advance n t x).
Qed.

(** One round of a loop: read a type and, unless it is the one looked for, a
    length, and skip that many bytes. *)
Lemma round_fuel m (c : traversal Z) (found : traversal string) (k k' : traversal string) t :
  moves (Datatypes.S m) c →
  (∀ t', plain_data t' = plain_data t → (position t < position t' <= length (plain_data t))%nat →
    k t' = k' t') →
  (tv* ty := c in if ty =? 0 then found else tv* n := t_get_u16 in tv* _ := advance (Z.to_nat n) in k) t
  = (tv* ty := c in if ty =? 0 then found else tv* n := t_get_u16 in tv* _ := advance (Z.to_nat n) in k') t.
Proof.
  intros Hc Hk. unfold tv_bind at 1 4. destruct (c t) as [[ty|] t1] eqn:E1; [|done].
  destruct (Hc _ _ _ E1) as (Hd1 & ? & ?). destruct (ty =? 0); [done|].
  unfold tv_bind at 1 3. destruct (t_get_u16 t1) as [[n|] t2] eqn:E2; [|done].
  destruct (moves_get 2 _ _ _ _ E2) as (Hd2 & ? & ?).
  unfold tv_bind. destruct (advance (Z.to_nat n) t2) as [[u|] t3] eqn:E3; [|done].
  destruct (moves_advance _ _ _ _ E3) as (Hd3 & ? & ?). apply Hk; [congruence|].
  rewrite Hd2, Hd1 in *. lia.
Qed.

Lemma list_entries_fuel f f' e t :
  (length (plain_data t) < f + position t)%nat → (length (plain_data t) < f' + position t)%nat →
  (0 < f)%nat → (0 < f')%nat → list_entries f e t = list_entries f' e t.
Proof.
  revert f' t. induction f as [|f IH]; intros [|f'] t Hf Hf' ? ?; [lia..|].
  cbn [list_entries]. destruct (position t <? e)%nat; [|done].
  apply (round_fuel 0); [apply moves_get|]. intros t' Hd Hp. apply IH; rewrite ?Hd; lia.
Qed.

Lemma extensions_fuel f f' e t :
  (length (plain_data t) < f + position t)%nat → (length (plain_data t) < f' + position t)%nat →
  (0 < f)%nat → (0 < f')%nat → extensions f e t = extensions f' e t.
Proof.
  revert f' t. induction f as [|f IH]; intros [|f'] t Hf Hf' ? ?; [lia..|].
  cbn [extensions]. destruct (position t <? e)%nat; [|done].
  apply (round_fuel 1); [apply moves_get|]. intros t' Hd Hp. apply IH; rewrite ?Hd; lia.
Qed.

Lemma short_handshake_panics data :
  tls_find_host data = Panic ↔ ∃ rest, data = 22 :: rest ∧ (length rest < 4)%nat.
Proof.
  unfold tls_find_host, is_handshake, traverser_new. destruct data as [|b rest].
  { cbn. split; [done|]. by intros (? & ? & _). }
  change (mkTraverser (b :: rest) 0) with (mkTraverser ([] ++ [b] ++ rest) (length (@nil Z))).
  rewrite (reads_u8 b [] rest). cbn [ok_is length Nat.add app].
  destruct (Z.eqb_spec b 22) as [->|Hb]; cbn [negb].
  2:{ split; [done|]. intros (? & [= -> _] & _). done. }
  unfold is_client_hello, advance. cbn [plain_data position Nat.add Nat.sub length].
  destruct (Nat.ltb_spec (S (length rest)) 5).
  { cbn. split; [|done]. intros _. exists rest. split; [done|lia]. }
  split; [|intros (? & [= <-] & ?); lia].
  destruct (t_get_u8 _) as [r t]. cbn [exec_bind]. destruct (negb _); [done|].
  by destruct (fst _).
Qed.

(** ** HTTP requests *)

(** What the crates document: the pattern captures the host of a URL or of an
    authority, and method names are compared as they are written. *)
Definition visible (b : Z) : Prop := 33 ≤ b ≤ 126 ∧ b ≠ 47.
Class HttpCratesLaws (H : HttpCrates) : Prop := {
  pattern_authority : ∀ host,
    host ≠ EmptyString → Forall visible (string_bytes host) →
    host ≠ "http:"%string → host ≠ "https:"%string → host_pattern host = Some host;
  method_connect : ∀ bs, is_connect_method bs = true ↔ bs = string_bytes "CONNECT";
}.

Definition authority (name : string) (port_opt : option Z) : string :=
  match port_opt with None => name | Some port => (name ++ ":" ++ dec port)%string end.
(** Visible ASCII without [/] and [:]. *)
Definition name_ok (name : string) : Prop :=
  name ≠ EmptyString ∧ Forall (fun b => visible b ∧ b ≠ 58) (string_bytes name).

Lemma undec_digits acc s n : undec acc s = Some n → Forall (fun b => 48 ≤ b ≤ 57) (string_bytes s).
Proof.
  revert acc. induction s as [|c s IH]; intros acc; [by constructor|]. cbn.
  destruct ((48 <=? char_byte c) && (char_byte c <=? 57)) eqn:E; [|done]. intros Hs. constructor; [lia|by eapply IH].
Qed.

Lemma dec_digits n : in_u 16 n → ∃ c s, dec n = String c s ∧ Forall (fun b => 48 ≤ b ≤ 57) (string_bytes (dec n)).
Proof.
  intros Hn. pose proof (parse_dec_dec n ltac:(unfold in_u in *; lia)) as Hp.
  destruct (dec n) as [|c s] eqn:E; [done|]. exists c, s. split; [done|]. by eapply undec_digits.
Qed.

Lemma parse_u16_dec n : in_u 16 n → parse_u16 (dec n) = Some n.
Proof.
  intros Hn. pose proof (parse_dec_dec n ltac:(unfold in_u in *; lia)) as Hp.
  destruct (dec_digits n Hn) as (c & s & E & Hd). unfold parse_u16. rewrite E in *.
  apply Forall_cons_1 in Hd as [Hc _]. rewrite (proj2 (Z.eqb_neq _ _)) by (cbn in Hc; lia).
  rewrite Hp. by rewrite bool_decide_eq_true_2.
Qed.

Lemma split_none s : Forall (fun b => b ≠ 58) (string_bytes s) → str_split ":" s = [s].
Proof.
  induction s as [|c s IH]; [done|]. intros [Hc Hs]%Forall_cons_1. cbn [str_split].
  destruct (Ascii.eqb_spec c ":") as [->|_]; [by vm_compute in Hc|]. by rewrite IH.
Qed.

Lemma split_one s t : Forall (fun b => b ≠ 58) (string_bytes s) → Forall (fun b => b ≠ 58) (string_bytes t) →
  str_split ":" (s ++ ":" ++ t) = [s; t].
Proof.
  intros Hs Ht. set (u := (":" ++ t)%string). induction s as [|c s IH].
  - change (EmptyString :: str_split ":" t = [EmptyString; t]). by rewrite split_none.
  - apply Forall_cons_1 in Hs as [Hc Hs]. 
    change (str_split ":" (String c (s ++ u)) = [String c s; t]). cbn [str_split].
    destruct (Ascii.eqb_spec c ":") as [->|_]; [by vm_compute in Hc|]. by rewrite IH.
Qed.

Lemma authority_read `{H : HttpCrates} name port_opt :
  name_ok name → (∀ port, port_opt = Some port → in_u 16 port) →
  host_from_host_name_and_port (authority name port_opt) = Some (mkHost name (default HTTP_PORT port_opt)).
Proof.
  intros [_ Hn] Hp. assert (Forall (fun b => b ≠ 58) (string_bytes name)) as Hcolon.
  { eapply Forall_impl, Hn. by intros ? [_ ?]. }
  unfold host_from_host_name_and_port. destruct port_opt as [port|]; cbn [authority default].
  - destruct (dec_digits port) as (? & ? & _ & Hd); [by apply Hp|]. rewrite split_one; [|done|].
    + unfold port_from_string. by rewrite parse_u16_dec by (by apply Hp).
    + eapply Forall_impl, Hd. cbn. lia.
  - by rewrite split_none.
Qed.

Lemma authority_visible name port_opt :
  name_ok name → (∀ port, port_opt = Some port → in_u 16 port) →
  Forall visible (string_bytes (authority name port_opt)) ∧ authority name port_opt ≠ EmptyString ∧
  authority name port_opt ≠ "http:"%string ∧ authority name port_opt ≠ "https:"%string.
Proof.
  intros [Hne Hn] Hp. assert (Forall visible (string_bytes name)) as Hv.
  { eapply Forall_impl, Hn. by intros ? [? _]. }
  destruct port_opt as [port|]; cbn [authority].
  - destruct (dec_digits port) as (c & s & E & Hd); [by apply Hp|]. split.
    { rewrite !string_bytes_app. apply Forall_app_2; [done|]. apply Forall_app_2.
      - constructor; [by vm_compute|constructor].
      - eapply Forall_impl, Hd. unfold visible. lia. }
    assert (∀ t, (name ++ ":" ++ dec port)%string ≠ (t ++ ":")%string) as Hends.
    { intros t Heq. apply (f_equal string_bytes) in Heq. rewrite !string_bytes_app in Heq.
      apply (f_equal list.last) in Heq. rewrite (assoc_L (++)), last_app in Heq.
      rewrite E in *. change (string_bytes t ++ string_bytes ":") with (string_bytes t ++ [58]) in Heq.
      rewrite last_snoc in Heq.
      destruct (list.last (string_bytes (String c s))) as [b|] eqn:El; [|by apply last_None in El].
      apply last_Some_elem_of, list_elem_of_In in El. rewrite Forall_forall in Hd. specialize (Hd _ El). injection Heq. lia. }
    split_and!; [by destruct name|apply (Hends "http"%string)|apply (Hends "https"%string)].
  - split; [done|]. split; [done|]. split; intros ->; cbn in Hn; repeat apply Forall_cons_1 in Hn as [? Hn]; naive_solver.
Qed.

(** *** Finding bytes *)

Lemma index_from_skip b l rest n :
  Forall (fun x => x ≠ b) l → index_from (l ++ rest) (b :: n) = Nat.add (length l) <$> index_from rest (b :: n).
Proof.
  induction 1 as [|x l Hx _ IH] using Forall_ind.
  { change ([] ++ rest) with rest. by destruct (index_from rest (b :: n)). }
  cbn [app index_from starts_with]. rewrite (proj2 (Z.eqb_neq _ _)) by done. cbn [andb].
  rewrite IH. by destruct (index_from rest (b :: n)).
Qed.

Definition header_lines (hs : list (list Z)) : list Z := concat (map (fun h => CRLF ++ h) hs).
(** A request: its first line, its headers and its body. *)
Definition request_bytes (first : list Z) (hs : list (list Z)) (body : list Z) : list Z :=
  first ++ header_lines hs ++ CRLF ++ CRLF ++ body.
Definition no_cr (l : list Z) : Prop := Forall (fun b => b ≠ 13) l.

(** At a line break: either the rest of the needle follows, or the search goes
    on behind it. *)
Lemma index_from_break l rest n :
  no_cr l →
  index_from (l ++ CRLF ++ rest) (13 :: 10 :: n)
  = if starts_with n rest then Some (length l) else Nat.add (length l + 2) <$> index_from rest (13 :: 10 :: n).
Proof.
  intros Hl. rewrite index_from_skip by done. cbn [app CRLF index_from starts_with].
  rewrite !Z.eqb_refl. cbn [andb]. destruct (starts_with n rest); [cbn; by rewrite Nat.add_0_r|].
  change (10 =? 13) with false. cbn [andb]. destruct (index_from rest _); cbn; [|done]. f_equal. lia.
Qed.

Lemma header_end first hs body :
  no_cr first → Forall (fun h => no_cr h ∧ h ≠ []) hs →
  index_of (request_bytes first hs body) (CRLF ++ CRLF) = Some (length first + length (header_lines hs))%nat.
Proof.
  intros Hf Hhs. unfold request_bytes, header_lines.
  change (index_of ?h (CRLF ++ CRLF)) with (index_from h (13 :: 10 :: [13; 10])).
  revert first Hf. induction Hhs as [|h hs [Hh Hne] _ IH] using Forall_ind; intros first Hf; cbn [map concat].
  - change ([] ++ ?l) with l. rewrite index_from_break by done. cbn. by rewrite Nat.add_0_r.
  - rewrite <- !(assoc_L (++)), index_from_break by done.
    destruct h as [|x h]; [done|]. pose proof (Forall_cons_1 _ _ _ Hh) as [Hx _].
    match goal with |- context [if ?b then _ else _] =>
      assert (b = false) as -> by (cbn; by rewrite (proj2 (Z.eqb_neq _ _))) end.
    rewrite (IH (x :: h)) by done. cbn. f_equal. rewrite !length_app. cbn. lia.
Qed.

Lemma starts_with_cut n h l : no_cr n → starts_with n h = false → starts_with n (h ++ 13 :: l) = false.
Proof.
  intros Hn. revert h. induction Hn as [|b n Hb _ IH] using Forall_ind; intros [|x h]; cbn [app starts_with]; try done.
  - intros _. by rewrite (proj2 (Z.eqb_neq _ _)).
  - destruct (x =? b); [|done]. cbn. apply IH.
Qed.

Lemma host_line first before rest :
  no_cr first → Forall (fun h => no_cr h ∧ starts_with (string_bytes "Host: ") h = false ∧ h ≠ []) before →
  index_of (first ++ header_lines before ++ CRLF ++ string_bytes "Host: " ++ rest) (CRLF ++ string_bytes "Host: ")
  = Some (length first + length (header_lines before))%nat.
Proof.
  intros Hf Hb. unfold header_lines.
  change (index_of ?h (CRLF ++ string_bytes "Host: ")) with (index_from h (13 :: 10 :: string_bytes "Host: ")).
  revert first Hf. induction Hb as [|h hs (Hh & Hs & Hne) _ IH] using Forall_ind; intros first Hf; cbn [map concat].
  - change ([] ++ ?l) with l. rewrite index_from_break by done.
    assert (∀ n l, starts_with n (n ++ l) = true) as Hself
      by (intros n l; induction n; [done|]; cbn; by rewrite Z.eqb_refl).
    rewrite Hself. f_equal. cbn. lia.
  - rewrite <- !(assoc_L (++)), index_from_break by done.
    assert (∃ l, concat (map (fun h => CRLF ++ h) hs) ++ CRLF ++ string_bytes "Host: " ++ rest = 13 :: l) as [l Hl].
    { destruct hs; [by eexists|]. cbn. by eexists. }
    rewrite Hl, starts_with_cut by (done || by repeat constructor). rewrite <- Hl. rewrite IH by done. cbn. f_equal. rewrite !length_app. cbn. lia.
Qed.

Lemma slice_app pre x post : slice (pre ++ x ++ post) (length pre) (length x + length pre) = Ret x.
Proof.
  unfold slice. rewrite !length_app. rewrite (proj2 (Nat.leb_le _ _)), (proj2 (Nat.leb_le _ _)) by lia. cbn [andb].
  rewrite drop_app_length. by replace (length x + length pre - length pre)%nat with (length x) by lia; rewrite take_app_length.
Qed.

Lemma slice_from pre x : slice (pre ++ x) (length pre) (length (pre ++ x)) = Ret x.
Proof.
  rewrite <- (app_nil_r x) at 1. rewrite length_app, Nat.add_comm. apply slice_app.
Qed.

Lemma ascii_utf8 bs : Forall (fun b => 0 ≤ b < 128) bs → utf8_valid bs = true.
Proof.
  induction 1 as [|b bs Hb _ IH] using Forall_ind; [done|]. cbn [utf8_valid].
  by rewrite (proj2 (Z.ltb_lt _ _)) by lia.
Qed.

Lemma visible_utf8 s : Forall visible (string_bytes s) → from_utf8 (string_bytes s) = Some s.
Proof.
  intros Hs. unfold from_utf8. rewrite ascii_utf8, bytes_string_bytes; [done|].
  eapply Forall_impl, Hs. unfold visible. lia.
Qed.

Lemma visible_no_cr s : Forall visible (string_bytes s) → no_cr (string_bytes s).
Proof. intros Hs. eapply Forall_impl, Hs. unfold visible. lia. Qed.

Section Requests.
Context {H : HttpCrates} {HL : HttpCratesLaws H}.
Context (name : string) (port_opt : option Z).
Context (Hname : name_ok name) (Hport : ∀ port, port_opt = Some port → in_u 16 port).

Let auth := authority name port_opt.

Lemma header_host_found first before after body :
  no_cr first → Forall (fun h => no_cr h ∧ h ≠ []) after →
  Forall (fun h => no_cr h ∧ starts_with (string_bytes "Host: ") h = false ∧ h ≠ []) before →
  find_header_host (request_bytes first (before ++ [string_bytes "Host: " ++ string_bytes auth] ++ after) body)
  = Ret (Some (mkHost name (default HTTP_PORT port_opt))).
Proof.
  destruct (authority_visible name port_opt Hname Hport) as (Hv & _). fold auth in Hv.
  intros Hf Ha Hb. unfold find_header_host. set (hs := before ++ _).
  rewrite header_end; [|done|].
  2:{ unfold hs. apply Forall_app_2; [by eapply Forall_impl, Hb; intros ? (? & _ & ?)|]. constructor.
      - split; [|done]. apply Forall_app_2; [by repeat constructor|by apply visible_no_cr].
      - done. }
  cbn [some_bind]. unfold request_bytes.
  set (lines := first ++ header_lines hs ++ CRLF).
  assert (first ++ header_lines hs ++ CRLF ++ CRLF ++ body = [] ++ lines ++ CRLF ++ body) as ->
    by (unfold lines; by rewrite <- !(assoc_L (++))).
  replace (length first + length (header_lines hs) + 2)%nat with (length lines + length (@nil Z))%nat
    by (unfold lines; rewrite !length_app; cbn; lia).
  change 0%nat with (length (@nil Z)) at 1. rewrite slice_app. cbn [exec_bind].
  assert (lines = (first ++ header_lines before) ++ (CRLF ++ string_bytes "Host: ")
                    ++ string_bytes auth ++ CRLF ++ concat (map (fun h => h ++ CRLF) after)) as Hlines.
  { unfold lines, hs, header_lines. rewrite !map_app, !concat_app. cbn [map concat].
    rewrite app_nil_r, <- !(assoc_L (++)). do 5 f_equal.
    induction after as [|h l IH]; [done|]. cbn [map concat]. rewrite <- !(assoc_L (++)). do 2 f_equal.
    apply IH. by apply Forall_cons_1 in Ha as [_ ?]. }
  rewrite Hlines. clear Hlines. set (rest := concat (map _ after)). clearbody rest.
  rewrite <- !(assoc_L (++)), host_line by done. cbn [some_bind].
  rewrite (assoc_L (++) first), (assoc_L (++) CRLF), (assoc_L (++) (first ++ _)).
  rewrite <- !length_app, slice_from. cbn [exec_bind].
  change (index_of ?l CRLF) with (index_from l (13 :: 10 :: [])).
  rewrite index_from_break by (by apply visible_no_cr). cbn [starts_with some_bind].
  rewrite slice_app. cbn [exec_bind]. rewrite visible_utf8 by done. cbn [some_bind].
  unfold auth. by rewrite authority_read.
Qed.

Lemma url_host_found version tail :
  no_cr version →
  find_url_host (string_bytes "CONNECT " ++ string_bytes auth ++ [32] ++ version ++ CRLF ++ tail)
  = Ret (Some (mkHost name (default HTTP_PORT port_opt))).
Proof.
  destruct (authority_visible name port_opt Hname Hport) as (Hv & Hne & Hh & Hhs). fold auth in Hv, Hne, Hh, Hhs.
  intros Hver. unfold find_url_host.
  set (line := string_bytes "CONNECT " ++ string_bytes auth ++ [32] ++ version).
  assert (string_bytes "CONNECT " ++ string_bytes auth ++ [32] ++ version ++ CRLF ++ tail = line ++ CRLF ++ tail) as ->
    by (unfold line; by rewrite <- !(assoc_L (++))).
  assert (no_cr line) as Hline.
  { unfold line. apply Forall_app_2; [by repeat constructor|]. apply Forall_app_2; [by apply visible_no_cr|].
    by apply Forall_app_2; [repeat constructor|]. }
  change (index_of ?l CRLF) with (index_from l (13 :: 10 :: [])). rewrite index_from_break by done.
  cbn [starts_with some_bind].
  replace (length line) with (length line + length (@nil Z))%nat at 1 by (cbn; lia).
  change 0%nat with (length (@nil Z)) at 1. change (slice (line ++ CRLF ++ tail)) with (slice ([] ++ line ++ CRLF ++ tail)).
  rewrite slice_app. cbn [exec_bind]. unfold line at 1.
  change (string_bytes "CONNECT " ++ ?l) with (string_bytes "CONNECT" ++ [32] ++ l).
  change (index_of ?l [32]) with (index_from l (32 :: [])).
  rewrite index_from_skip by (by repeat constructor).
  change (Nat.add _ <$> _) with (Some 7%nat). cbn [some_bind].
  assert (line ++ CRLF ++ tail = string_bytes "CONNECT " ++ string_bytes auth ++ [32] ++ version ++ CRLF ++ tail) as ->
    by (unfold line; by rewrite <- !(assoc_L (++))).
  change (7 + 1)%nat with (length (string_bytes "CONNECT ")). change ([] ++ ?l) with l. rewrite slice_from. cbn [exec_bind].
  change (index_of ?l [32]) with (index_from l (32 :: [])).
  rewrite index_from_skip by (eapply Forall_impl, Hv; unfold visible; lia).
  change (index_from ([32] ++ _) _) with (Some 0%nat). cbn [fmap option_fmap option_map some_bind].
  rewrite Nat.add_0_r, slice_app. cbn [exec_bind]. rewrite visible_utf8 by done. cbn [some_bind].
  rewrite pattern_authority by done. cbn [some_bind]. unfold auth. rewrite authority_read by done.
  cbn [host_name]. rewrite bool_decide_eq_false_2; [done|]. apply Hname.
Qed.
End Requests.

(** [C22] The host of an HTTP request is the one it names: that of its [Host]
    header, wherever it stands among the headers, and for CONNECT that of the
    request target, whatever the headers say; without a port it is port 80. *)
Theorem request_host {H : HttpCrates} {HL : HttpCratesLaws H} name port_opt :
  name_ok name → (∀ port, port_opt = Some port → in_u 16 port) →
  (∀ first before after body,
     no_cr first → take_until 32 (take 8 first) ≠ string_bytes "CONNECT" → (8 <= length first)%nat →
     Forall (fun h => no_cr h ∧ starts_with (string_bytes "Host: ") h = false ∧ h ≠ []) before →
     Forall (fun h => no_cr h ∧ h ≠ []) after →
     http_find_host (request_bytes first
       (before ++ [string_bytes "Host: " ++ string_bytes (authority name port_opt)] ++ after) body)
     = Ret (Some (mkHost name (default HTTP_PORT port_opt)))) ∧
  (∀ version tail, no_cr version →
     http_find_host (string_bytes "CONNECT " ++ string_bytes (authority name port_opt) ++ [32] ++ version ++ CRLF ++ tail)
     = Ret (Some (mkHost name (default HTTP_PORT port_opt)))).
Proof.
  intros Hname Hport. unfold http_find_host, is_connect. split.
  - intros first before after body Hf Hm Hlen Hb Ha.
    assert (∀ hs, take 8 (request_bytes first hs body) = take 8 first) as Htake.
    { intros hs. unfold request_bytes. by rewrite take_app_le. }
    rewrite Htake. destruct (is_connect_method _) eqn:E; [by apply method_connect in E|].
    by rewrite header_host_found.
  - intros version tail Hver.
    assert (is_connect_method (string_bytes "CONNECT") = true) as Hc by (by apply method_connect).
    change (take_until 32 (take 8 (string_bytes "CONNECT " ++ _))) with (string_bytes "CONNECT").
    rewrite Hc. by rewrite url_host_found.
Qed.

(** ** Which packets are not survived *)

Lemma starts_with_spec n h : starts_with n h = true ↔ ∃ rest, h = n ++ rest.
Proof.
  revert h. induction n as [|b n IH]; intros [|x h]; cbn [starts_with app]; try naive_solver.
  rewrite andb_true_iff, IH, Z.eqb_eq. naive_solver.
Qed.

Lemma index_of_bound h n i : index_of h n = Some i → (i + length n <= length h)%nat.
Proof.
  intros Hi. assert (index_from h n = Some i) as Hf by (by destruct n).
  clear Hi. revert i Hf. induction h as [|x h IH]; intros i; [done|]. cbn [index_from].
  destruct (starts_with n (x :: h)) eqn:E.
  - intros [= <-]. apply starts_with_spec in E as [rest ->]. rewrite length_app. lia.
  - destruct (index_from h n) as [j|]; [|done]. intros [= <-]. specialize (IH j eq_refl). cbn. lia.
Qed.

Lemma slice_ok l a b : (a <= b)%nat → (b <= length l)%nat → ∃ s, slice l a b = Ret s ∧ length s = (b - a)%nat.
Proof.
  intros Ha Hb. unfold slice. rewrite (proj2 (Nat.leb_le _ _)), (proj2 (Nat.leb_le _ _)) by lia.
  eexists. split; [done|]. rewrite length_take, length_drop. lia.
Qed.

Ltac found H := match goal with |- context [some_bind (index_of ?h ?n) _] =>
  destruct (index_of h n) eqn:H; cbn [some_bind]; [apply index_of_bound in H; cbn [length] in H|by eexists] end.
Ltac sliced := match goal with |- context [exec_bind (slice ?l ?a ?b) _] =>
  destruct (slice_ok l a b) as (? & -> & ?); [cbn in *; lia..|]; cbn [exec_bind] end.

Lemma url_host_returns `{H : HttpCrates} data : ∃ r, find_url_host data = Ret r.
Proof.
  unfold find_url_host. found Ha. sliced. found Hb. sliced. found Hc. sliced.
  destruct (from_utf8 _); cbn; [|by eexists]. destruct (host_pattern _); cbn; by eexists.
Qed.

Lemma header_host_returns `{H : HttpCrates} data : ∃ r, find_header_host data = Ret r.
Proof.
  unfold find_header_host. found Ha. sliced. found Hb. sliced. found Hc. sliced.
  destruct (from_utf8 _); cbn; by eexists.
Qed.

Lemma http_host_returns `{H : HttpCrates} data : http_find_host data ≠ Panic.
Proof.
  unfold http_find_host. destruct (url_host_returns data) as [u Hu], (header_host_returns data) as [h Hh].
  destruct (is_connect data); rewrite ?Hu, ?Hh; cbn; [by destruct u|by destruct h].
Qed.

(** [C23] Looking for the host of a packet ends, and it panics on exactly the TLS
    packets of one to four bytes that start with the content type of a
    handshake. *)
Theorem find_host_panics `{H : HttpCrates} p data :
  find_host p data = Panic ↔ p = TLS ∧ ∃ rest, data = 22 :: rest ∧ (length rest < 4)%nat.
Proof.
  destruct p; cbn [find_host].
  - split; [|by intros []]. by intros ?%http_host_returns.
  - rewrite short_handshake_panics. naive_solver.
Qed.

(** ** The node's own answers *)

Definition brace : ascii := ascii_of_nat 123.
Fixpoint no_brace (s : string) : Prop :=
  match s with EmptyString => True | String c s => c ≠ brace ∧ no_brace s end.

Lemma replace_past from to a b :
  no_brace a → str_replace (String brace from) to (a ++ b) = (a ++ str_replace (String brace from) to b)%string.
Proof.
  induction a as [|c a IH]; [done|]. intros [Hc Ha].
  change (str_replace (String brace from) to (String c (a ++ b)) = String c (a ++ str_replace (String brace from) to b)).
  rewrite <- IH by done. unfold str_replace. cbn [String.length replace_loop String.prefix].
  destruct (ascii_dec brace c); [congruence|done].
Qed.

Lemma dec_no_brace n : no_brace (dec n).
Proof.
  unfold dec. assert (no_brace EmptyString) as Hacc by done. revert Hacc. generalize EmptyString.
  generalize 40%nat. intros fuel. revert n. induction fuel as [|fuel IH]; intros n acc Hacc; [done|].
  cbn [dec_loop]. assert (no_brace (String (hex_char (n mod 10)) acc)) as Hs.
  { split; [|done]. unfold hex_char. pose proof (Z.mod_pos_bound n 10 ltac:(lia)).
    rewrite (proj2 (Z.ltb_lt _ _)) by lia. intros Heq. apply (f_equal nat_of_ascii) in Heq.
    rewrite nat_ascii_embedding in Heq by lia. change (nat_of_ascii brace) with 123%nat in Heq. lia. }
  destruct (n <? 10); [done|]. by apply IH.
Qed.

(** An error response is a well-formed HTTP response: its head, with a
    content length that is exactly the number of bytes of the page after it. *)
Theorem error_response_framed status title subtitle content :
  let page := make_error_page status title subtitle content in
  make_error_response status title subtitle content
  = string_bytes ("HTTP/1.1 " ++ dec status ++ " Routing Error" ++ crlf ++ "Content-Type: text/html" ++ crlf
                  ++ "Content-Length: " ++ dec (Z.of_nat (length (string_bytes page))) ++ crlf ++ crlf)
    ++ string_bytes page.
Proof.
  intros page. assert (∀ s, String.length s = length (string_bytes s)) as Hlen by (intros s; induction s; cbn; congruence).
  unfold make_error_response. fold page. rewrite <- string_bytes_app. f_equal. unfold usize_text. rewrite Hlen.
  assert (no_brace (dec (Z.of_nat (length (string_bytes page))))) as Hn by apply dec_no_brace.
  set (n := dec (Z.of_nat _)) in *. clearbody n. clearbody page.
  pose proof (dec_no_brace status) as Hst. set (st := dec status) in *. clearbody st.
  change (str_replace "{status}" st HTTP_RESPONSE_TEMPLATE) with
    ("HTTP/1.1 " ++ (st ++ (" Routing Error" ++ crlf ++ "Content-Type: text/html" ++ crlf
      ++ "Content-Length: {length}" ++ crlf ++ crlf ++ "{body}")))%string.
  change "{length}"%string with (String brace "length}"). change "{body}"%string with (String brace "body}").
  assert (no_brace "HTTP/1.1 ") as Hhead by (repeat split; done).
  rewrite !(replace_past "length}" n) by done.
  change (str_replace (String brace "length}") n _) with ("Content-Length: " ++ (n ++ (crlf ++ (crlf ++ "{body}"))))%string.
  rewrite !(replace_past "body}" page) by done.
  change (str_replace (String brace "body}") page _) with (page ++ EmptyString)%string.
  apply string_bytes_inj. rewrite !string_bytes_app. by rewrite <- !(assoc_L (++)), app_nil_r.
Qed.

Module SampleHosts.

Definition sample_hello : ClientHello :=
  mkHello [3; 1; 2; 0] (repeat 7 37) [1; 2; 3; 4] [19; 1; 19; 2] [0]
    [(43, [2; 3; 4]); (10, [])] [(1, [9; 9])] "www.example.com" [] (be_bytes 2 16 ++ [0; 1; 5]).

Lemma client_hello_host_witness :
  hello_ok sample_hello ∧ tls_find_host (hello_bytes sample_hello) = Ret (Some (mkHost "www.example.com" 443)).
Proof.
  assert (hello_ok sample_hello) as Hok.
  { constructor; try (by vm_compute); repeat constructor; by vm_compute. }
  split; [exact Hok|]. exact (client_hello_host sample_hello Hok).
Defined.

Definition sample_pattern (s : string) : option string :=
  let bs := string_bytes s in
  let bs := if starts_with (string_bytes "http://") bs then drop 7 bs
            else if starts_with (string_bytes "https://") bs then drop 8 bs else bs in
  match take_until 47 (take_until 32 bs) with [] => None | c => Some (bytes_string c) end.
#[local] Instance sample_crates : HttpCrates := {|
  host_pattern := sample_pattern;
  hostname_pattern := fun _ => None;
  is_connect_method := fun bs => bool_decide (bs = string_bytes "CONNECT");
|}.

Lemma take_until_none b l : Forall (fun x => x ≠ b) l → take_until b l = l.
Proof.
  induction 1 as [|x l Hx _ IH] using Forall_ind; [done|]. cbn [take_until].
  by rewrite (proj2 (Z.eqb_neq _ _)), IH by done.
Qed.

Lemma no_slash n bs : Forall visible bs → 47 ∈ n → starts_with n bs = false.
Proof.
  intros Hv Hn. destruct (starts_with n bs) eqn:E; [|done]. apply starts_with_spec in E as [rest ->].
  apply Forall_app in Hv as [Hv _]. apply list_elem_of_In in Hn. rewrite Forall_forall in Hv.
  destruct (Hv _ Hn) as [_ ?]. done.
Qed.

#[local] Instance sample_crates_laws : HttpCratesLaws sample_crates.
Proof.
  split; [|intros bs; apply bool_decide_eq_true].
  intros host Hne Hv _ _. cbn [host_pattern sample_crates]. unfold sample_pattern.
  rewrite !no_slash by (done || by apply list_elem_of_In; cbn; tauto).
  rewrite (take_until_none 32), (take_until_none 47) by (eapply Forall_impl, Hv; unfold visible; lia).
  destruct (string_bytes host) as [|b bs] eqn:E; [by destruct host|]. by rewrite <- E, bytes_string_bytes.
Qed.

Definition sample_first : list Z := string_bytes "GET /index.html HTTP/1.1".
Definition sample_headers : list (list Z) := [string_bytes "Accept: */*"].

Lemma request_host_witness :
  http_find_host (request_bytes sample_first
    (sample_headers ++ [string_bytes "Host: " ++ string_bytes "example.com:8080"] ++ sample_headers) [1; 2])
  = Ret (Some (mkHost "example.com" 8080)).
Proof.
  refine (proj1 (request_host "example.com" (Some 8080) _ _) sample_first sample_headers sample_headers [1; 2] _ _ _ _ _).
  - split; [done|]. repeat constructor; by vm_compute.
  - by intros port [= <-].
  - repeat constructor; by vm_compute.
  - by vm_compute.
  - vm_compute. lia.
  - repeat constructor; by vm_compute.
  - repeat constructor; by vm_compute.
Defined.

End SampleHosts.
