(* ===== verification/Framers.v ===== *)
(** * Framers and masqueraders: messages cut out of a stream of bytes

    [sub_lib/framer.rs], [json_framer.rs], [sub_lib/tls_framer.rs],
    [masquerader.rs], [null_masquerader.rs] and [json_masquerader.rs]: what the
    node finds in the bytes it reads from a socket.  A framer keeps the bytes
    that have come so far and hands out one frame at a time; a masquerader reads
    the message inside a frame.  The JSON reader and base64 are crates
    ([JsonCrate]). *)

From Stdlib Require Import ZArith Lia String Ascii.
From stdpp Require Import base list numbers option.
From S2P Require Import Prelude Text ProtocolPack ProtocolHosts.

Local Open Scope Z_scope.
Local Open Scope rust_scope.
Local Open Scope list_scope.

(** ** Vectors *)

(** [Vec::split_off]: what stays, and what is split off *)
Definition split_off (l : list Z) (n : nat) : exec (list Z * list Z) :=
  if (n <=? length l)%nat then Ret (take n l, drop n l) else Panic.
(** [&l[a..]] *)
Definition slice_tail (l : list Z) (a : nat) : exec (list Z) := slice l a (length l).
(** [l[i]] *)
Definition index (l : list Z) (i : nat) : exec Z := expect (l !! i).
(** [Option::is_some] *)
Definition is_some {A} (o : option A) : bool := match o with Some _ => true | None => false end.
(** [a + b] of an [i32], as a build with overflow checks has it *)
Definition i32_add (a b : Z) : exec Z :=
  if bool_decide (in_i 32 (a + b)) then Ret (a + b) else Panic.

Record FramedChunk := mkFramed { fc_chunk : list Z; fc_last_chunk : bool }.

(** ** JSON: objects between braces *)
Module JsonFramer.

Definition MAX_JSON_FRAME_BYTES : Z := 1048576.

Record JsonFramer := mkJson {
  possible_start : option nat;
  possible_end : option nat;
  data_so_far : list Z;
  brace_nest_count : Z;
  in_single_quote_string : bool;
  in_double_quote_string : bool;
  after_backslash : bool;
}.

Definition new : JsonFramer := mkJson None None [] 0 false false false.
Definition with_data (data : list Z) (f : JsonFramer) : JsonFramer :=
  mkJson (possible_start f) (possible_end f) data (brace_nest_count f)
    (in_single_quote_string f) (in_double_quote_string f) (after_backslash f).
Definition with_start (s : option nat) (f : JsonFramer) : JsonFramer :=
  mkJson s (possible_end f) (data_so_far f) (brace_nest_count f)
    (in_single_quote_string f) (in_double_quote_string f) (after_backslash f).
Definition with_end (e : option nat) (f : JsonFramer) : JsonFramer :=
  mkJson (possible_start f) e (data_so_far f) (brace_nest_count f)
    (in_single_quote_string f) (in_double_quote_string f) (after_backslash f).
Definition with_count (n : Z) (f : JsonFramer) : JsonFramer :=
  mkJson (possible_start f) (possible_end f) (data_so_far f) n
    (in_single_quote_string f) (in_double_quote_string f) (after_backslash f).
Definition with_quotes (sq dq : bool) (f : JsonFramer) : JsonFramer :=
  mkJson (possible_start f) (possible_end f) (data_so_far f) (brace_nest_count f) sq dq (after_backslash f).
Definition with_backslash (b : bool) (f : JsonFramer) : JsonFramer :=
  mkJson (possible_start f) (possible_end f) (data_so_far f) (brace_nest_count f)
    (in_single_quote_string f) (in_double_quote_string f) b.

Definition reset (f : JsonFramer) : JsonFramer := mkJson None None (data_so_far f) 0 false false false.

Definition add_data (data : list Z) (f : JsonFramer) : JsonFramer :=
  let too_long :=
    match checked_add 64 (Z.of_nat (length (data_so_far f))) (Z.of_nat (length data)) with
    | Some combined_len => MAX_JSON_FRAME_BYTES <? combined_len
    | None => true
    end in
  if too_long then reset (with_data [] f) else with_data (data_so_far f ++ data) f.

Definition check_data_chunk (f : JsonFramer) : exec (option (list Z) * JsonFramer) :=
  match possible_start f, possible_end f with
  | Some start, Some end_ =>
      let* chunk := slice (data_so_far f) start end_ in
      Ret (Some chunk, reset f)
  | _, _ => Ret (None, f)
  end.

Definition BS : Z := 92.
Definition SQ : Z := 39.
Definition DQ : Z := 34.
Definition OB : Z := 123.
Definition CB : Z := 125.

Definition handle_quotes (byte : Z) (f : JsonFramer) : JsonFramer :=
  match possible_start f with
  | None => f
  | Some _ =>
      match in_single_quote_string f, byte =? SQ, in_double_quote_string f, byte =? DQ with
      | false, false, false, true => with_quotes (in_single_quote_string f) true f
      | false, false, true, true => with_quotes (in_single_quote_string f) false f
      | false, true, false, false => with_quotes true (in_double_quote_string f) f
      | true, true, false, false => with_quotes false (in_double_quote_string f) f
      | _, _, _, _ => f
      end
  end.

Definition handle_braces (byte : Z) (offset : nat) (f : JsonFramer) : exec JsonFramer :=
  if byte =? OB then
    let* n := i32_add (brace_nest_count f) 1 in
    let f := with_count n f in
    Ret (if n =? 1 then with_start (Some offset) (with_count 1 (reset f)) else f)
  else if byte =? CB then
    let* n := i32_add (brace_nest_count f) (-1) in
    let f := with_count n f in
    Ret (if n <? 0 then with_start None (with_count 0 f)
         else if (n =? 0) && is_some (possible_start f) then with_end (Some (offset + 1)%nat) f
         else f)
  else Ret f.

Definition update_state (byte : Z) (offset : nat) (f : JsonFramer) : exec JsonFramer :=
  if after_backslash f then Ret (with_backslash false f)
  else
    let f := handle_quotes byte f in
    if negb (in_single_quote_string f) && negb (in_double_quote_string f) then handle_braces byte offset f
    else if is_some (possible_start f) && (byte =? BS) then Ret (with_backslash true f)
    else Ret f.

(** The loop of [take_frame] over the bytes from offset [i] on, and what follows
    it. *)
Fixpoint scan (bytes : list Z) (i : nat) (f : JsonFramer) : exec (option FramedChunk * JsonFramer) :=
  match bytes with
  | byte :: bytes =>
      let* f := update_state byte i f in
      let* checked := check_data_chunk f in
      let '(chunk_opt, f) := checked in
      match chunk_opt with
      | Some chunk =>
          let* rest := slice_tail (data_so_far f) (i + 1) in
          Ret (Some (mkFramed chunk true), with_data rest f)
      | None => scan bytes (S i) f
      end
  | [] =>
      match possible_start f, possible_end f with
      | None, None => Ret (None, with_data [] f)
      | Some start, None =>
          let* rest := slice_tail (data_so_far f) start in
          Ret (None, with_start (Some O) (with_data rest f))
      | _, _ => Panic
      end
  end.
Definition take_frame (f : JsonFramer) : exec (option FramedChunk * JsonFramer) :=
  let f := reset f in scan (data_so_far f) O f.

End JsonFramer.

(** ** TLS: records with their length *)
Module TlsFramer.

Definition PRESERVE_HEADER_LEN : nat := 4.

Record TlsFramer := mkTls { data_so_far : list Z }.
Definition new : TlsFramer := mkTls [].

Definition is_valid_content_type (candidate : Z) : bool := (20 <=? candidate) && (candidate <=? 23).
Definition is_valid_protocol_version (byte1 byte2 : Z) : bool :=
  (byte1 =? 3) && ((byte2 =? 1) || (byte2 =? 3)).
Definition convert_to_usize (hi_byte lo_byte : Z) : Z := Z.lor (Z.shiftl hi_byte 8) lo_byte.

(** [Err O] is not to try again, [Err x] to try again from [x]. *)
Definition search_for_frame_offset (data : list Z) : exec (result nat nat) :=
  match index_of data [3] with
  | None => Ret (Err O)
  | Some O => Ret (Err 1%nat)
  | Some (S offset) =>
      if (length data <=? offset + 4)%nat then Ret (Err O)
      else
        let* content_type := index data offset in
        let* byte1 := index data (offset + 1) in
        let* byte2 := index data (offset + 2) in
        Ret (if is_valid_content_type content_type && is_valid_protocol_version byte1 byte2
             then Ok offset else Err (offset + 1)%nat)
  end.
(** The loop; with as much fuel as bytes, and one, it does not run out
    ([find_frame_offset_returns]). *)
Fixpoint find_loop (fuel : nat) (data : list Z) (accumulated_offset : nat) : exec (option nat) :=
  match fuel with
  | O => Panic
  | S fuel =>
      let* rest := slice_tail data accumulated_offset in
      let* found := search_for_frame_offset rest in
      match found with
      | Ok offset => Ret (Some (accumulated_offset + offset)%nat)
      | Err O => Ret None
      | Err next_offset => find_loop fuel data (accumulated_offset + next_offset)
      end
  end.
Definition find_frame_offset (data : list Z) : exec (option nat) := find_loop (S (length data)) data O.

Definition add_data (data : list Z) (f : TlsFramer) : TlsFramer := mkTls (data_so_far f ++ data).
Definition take_frame (f : TlsFramer) : exec (option FramedChunk * TlsFramer) :=
  let data_so_far_len := length (data_so_far f) in
  let* found := find_frame_offset (data_so_far f) in
  match found with
  | None =>
      let split_point :=
        if (data_so_far_len <? PRESERVE_HEADER_LEN)%nat then data_so_far_len
        else (data_so_far_len - PRESERVE_HEADER_LEN)%nat in
      let* parts := split_off (data_so_far f) split_point in
      Ret (None, mkTls parts.2)
  | Some offset =>
      let* parts := split_off (data_so_far f) offset in
      let from_offset := parts.2 in
      let* hi := index from_offset 3 in
      let* lo := index from_offset 4 in
      let length_ := Z.to_nat (convert_to_usize hi lo) in
      if (5 + length_ <=? length from_offset)%nat then
        let* split := split_off from_offset (5 + length_) in
        Ret (Some (mkFramed split.1 false), mkTls split.2)
      else Ret (None, mkTls from_offset)
  end.

End TlsFramer.

(** ** Masqueraders *)

Record UnmaskedChunk := mkUnmasked { uc_chunk : list Z; uc_last_chunk : bool; uc_sequenced : bool }.

Inductive MasqueradeError :=
| NotThisMasquerader
| LowLevelDataError (why : string)
| MidLevelDataError (why : string)
| HighLevelDataError (why : string).

Definition masquerade_error_text (e : MasqueradeError) : string :=
  match e with
  | LowLevelDataError s => "Low-level data error: " ++ s
  | MidLevelDataError s => "Mid-level data error: " ++ s
  | HighLevelDataError s => "High-level data error: " ++ s
  | NotThisMasquerader => "Data not for this masquerader"
  end%string.

(** The structures written and read as JSON. *)
Record JsonMasqueraderStringStructure := mkTextStructure { st_bodyText : string }.
Record JsonMasqueraderDataStructure := mkDataStructure { st_bodyData : string }.
Record JsonMasqueraderUnmaskStructure := mkUnmaskStructure { bodyText : option string; bodyData : option string }.

(** The category of an error of [serde_json] *)
Inductive Category := Syntax | Data | Eof | Io.

(** The crates [serde_json] and [base64] *)
Class JsonCrate := {
  text_to_string : JsonMasqueraderStringStructure → result string Category;
  data_to_string : JsonMasqueraderDataStructure → result string Category;
  from_str : string → result JsonMasqueraderUnmaskStructure Category;
  base64_encode : list Z → string;
  base64_decode : string → option (list Z);
}.

Section JsonMasquerader.
Context `{HJ : JsonCrate}.

Definition make_text_structure (s : string) : result string Category := text_to_string (mkTextStructure s).
Definition make_binary_structure (data : list Z) : result string Category :=
  data_to_string (mkDataStructure (base64_encode data)).

Definition json_mask (data : list Z) : exec (result (list Z) MasqueradeError) :=
  let made :=
    match from_utf8 data with
    | Some s => make_text_structure s
    | None => make_binary_structure data
    end in
  match made with
  | Ok json_string => Ret (Ok (string_bytes json_string))
  | Err _ => Panic
  end.

Definition string_from_data (data : list Z) : result string MasqueradeError :=
  ok_or (from_utf8 data) (LowLevelDataError "Data is not a UTF-8 string").
Definition structure_from_string (json_string : string) : result JsonMasqueraderUnmaskStructure MasqueradeError :=
  map_err (fun e => MidLevelDataError
    match e with
    | Syntax => "Data is not JSON"
    | Data => "JSON does not match schema"
    | Eof => "JSON was truncated"
    | Io => "Unexpected JSON parsing error; details redacted"
    end) (from_str json_string).
Definition data_vector_from_structure (structure : JsonMasqueraderUnmaskStructure) :
    result (list Z) MasqueradeError :=
  match bodyText structure, bodyData structure with
  | Some text, None => Ok (string_bytes text)
  | None, Some data => ok_or (base64_decode data) (HighLevelDataError "Can't decode Base64; contents redacted")
  | Some _, Some _ => Err (HighLevelDataError "Found both bodyText and bodyData; can't choose")
  | None, None => Err (HighLevelDataError "Found neither bodyText nor bodyData; need one")
  end.
Definition json_unmask (data : list Z) : result UnmaskedChunk MasqueradeError :=
  let? json_string := string_from_data data in
  let? structure := structure_from_string json_string in
  let? data_vector := data_vector_from_structure structure in
  Ok (mkUnmasked data_vector true false).

(** The masqueraders behind the trait *)
Inductive Masquerader := JsonMasquerader | NullMasquerader.
Definition try_unmask (m : Masquerader) (item : list Z) : result UnmaskedChunk MasqueradeError :=
  match m with
  | JsonMasquerader => json_unmask item
  | NullMasquerader => Ok (mkUnmasked item true true)
  end.
Definition mask (m : Masquerader) (data : list Z) : exec (result (list Z) MasqueradeError) :=
  match m with
  | JsonMasquerader => json_mask data
  | NullMasquerader => Ret (Ok data)
  end.

End JsonMasquerader.

(** ** The JSON framer *)
Module JsonFraming.
Import JsonFramer.

(** No object is open. *)
Definition idle (data : list Z) : JsonFramer := mkJson None None data 0 false false false.

(** Between the bytes before [i] and the byte at [i]: an object is open from its
    start on, with at most [i] braces, or no brace is. *)
Definition scanned (i : nat) (f : JsonFramer) : Prop :=
  possible_end f = None ∧
  match possible_start f with
  | Some s => (s < i)%nat ∧ 1 ≤ brace_nest_count f ≤ Z.of_nat i
  | None => brace_nest_count f = 0
  end.

Lemma i32_add_ok a b : -2147483648 ≤ a + b < 2147483648 → i32_add a b = Ret (a + b).
Proof. intros H. unfold i32_add. by rewrite bool_decide_eq_true_2 by (unfold in_i; lia). Qed.

Lemma handle_quotes_same byte f :
  let f' := handle_quotes byte f in
  possible_start f' = possible_start f ∧ possible_end f' = possible_end f ∧ data_so_far f' = data_so_far f ∧
  brace_nest_count f' = brace_nest_count f.
Proof. cbn. unfold handle_quotes. by repeat case_match. Qed.

Lemma slice_Ret l a b : (a <= b)%nat → (b <= length l)%nat → slice l a b = Ret (take (b - a) (drop a l)).
Proof. intros Ha Hb. unfold slice. by rewrite (proj2 (Nat.leb_le a b) Ha), (proj2 (Nat.leb_le b _) Hb). Qed.
Lemma slice_tail_Ret l a : (a <= length l)%nat → slice_tail l a = Ret (drop a l).
Proof.
  intros Ha. unfold slice_tail. rewrite slice_Ret by lia. f_equal. apply take_ge. rewrite length_drop. lia.
Qed.

(** One byte: the state stays sound, and an open object stays open or ends. *)
Lemma step_braces byte i f :
  scanned i f → Z.of_nat i < MAX_JSON_FRAME_BYTES →
  ∃ f', handle_braces byte i f = Ret f' ∧ data_so_far f' = data_so_far f ∧
    ((scanned (S i) f' ∧ ∀ s, possible_start f = Some s → possible_start f' = Some s) ∨
     ∃ s, possible_start f = Some s ∧ possible_start f' = Some s ∧ possible_end f' = Some (i + 1)%nat).
Proof.
  unfold MAX_JSON_FRAME_BYTES, scanned. intros [He Hs] Hi. unfold handle_braces. destruct (byte =? OB).
  - rewrite i32_add_ok by (destruct (possible_start f); lia). cbn [exec_bind].
    eexists; split; [reflexivity|]. destruct (Z.eqb_spec (brace_nest_count f + 1) 1); cbn; (split; [done|left]);
      destruct (possible_start f); (split; [split; [done|lia]|intros ? [=]; subst]); lia || done.
  - destruct (byte =? CB); [|eexists; split_and!; [done..|left]; split; [|done]; split; [done|];
      destruct (possible_start f); lia].
    rewrite i32_add_ok by (destruct (possible_start f); lia). cbn [exec_bind].
    eexists; split; [reflexivity|].
    destruct (Z.ltb_spec (brace_nest_count f + -1) 0); cbn.
    { split; [done|left]. destruct (possible_start f) eqn:E; [lia|]. done. }
    destruct (possible_start f) as [s|] eqn:E; [|lia].
    destruct (Z.eqb_spec (brace_nest_count f + -1) 0); cbn; (split; [done|]).
    + right. exists s. by rewrite E.
    + left. rewrite E. split; [split; [done|lia]|done].
Qed.

Lemma step_update byte i f :
  scanned i f → Z.of_nat i < MAX_JSON_FRAME_BYTES →
  ∃ f', update_state byte i f = Ret f' ∧ data_so_far f' = data_so_far f ∧
    ((scanned (S i) f' ∧ ∀ s, possible_start f = Some s → possible_start f' = Some s) ∨
     ∃ s, possible_start f = Some s ∧ possible_start f' = Some s ∧ possible_end f' = Some (i + 1)%nat).
Proof.
  intros H Hi. unfold update_state.
  assert (∀ g, possible_start g = possible_start f → possible_end g = possible_end f →
    brace_nest_count g = brace_nest_count f → scanned (S i) g) as Hkeep.
  { intros g H1 H2 H3. unfold scanned in *. rewrite H1, H2, H3. destruct H as [-> H]. split; [done|].
    destruct (possible_start f); lia. }
  destruct (after_backslash f); [eexists; split_and!; [done..|left]; split; [by apply Hkeep|done]|].
  pose proof (handle_quotes_same byte f) as Hq. cbv zeta in Hq. revert Hq. generalize (handle_quotes byte f).
  intros g (H1 & H2 & H3 & H4). rewrite <- H1, <- H3. case_match.
  - apply step_braces; [|done]. unfold scanned in *. by rewrite H1, H2, H4.
  - case_match; eexists; (split_and!; [done..|left]; split; [by apply Hkeep|done]).
Qed.

(** The loop finds a frame, or keeps the bytes from the start of an open object
    on; it never panics. *)
Lemma scan_spec bytes : ∀ i f pre,
  data_so_far f = pre ++ bytes → length pre = i → scanned i f →
  Z.of_nat (length (data_so_far f)) ≤ MAX_JSON_FRAME_BYTES →
  (∃ s k f', scan bytes i f = Ret (Some (mkFramed (take (k - s) (drop s (data_so_far f))) true), f') ∧
     (s < k <= length (data_so_far f))%nat ∧ data_so_far f' = drop k (data_so_far f) ∧
     ∀ s', possible_start f = Some s' → s = s') ∨
  (∃ n f', scan bytes i f = Ret (None, f') ∧ data_so_far f' = drop n (data_so_far f) ∧
     ∀ s', possible_start f = Some s' → n = s').
Proof.
  induction bytes as [|byte bytes IH]; intros i f pre Hd Hpre Hf Hlen; cbn [scan].
  { right. destruct Hf as [-> Hs]. destruct (possible_start f) as [s|].
    - rewrite slice_tail_Ret by (rewrite Hd, length_app; lia). exists s; eexists; split; [reflexivity|].
      split; [done|]. by intros ? [= <-].
    - exists (length (data_so_far f)); eexists; split; [reflexivity|]. split; [by rewrite drop_all|done]. }
  assert (i < length (data_so_far f))%nat as Hi by (rewrite Hd, length_app; cbn; lia).
  destruct (step_update byte i f Hf ltac:(lia)) as (g & -> & Hg & [[Hsc Hst]|(s & Hs & Hsg & Heg)]); cbn [exec_bind].
  - assert (check_data_chunk g = Ret (None, g)) as ->.
    { unfold check_data_chunk. destruct Hsc as [-> _]. by destruct (possible_start g). }
    cbn [exec_bind]. rewrite <- Hg in Hd, Hlen |- *.
    destruct (IH (S i) g (pre ++ [byte])) as [(s & k & f' & -> & ? & ? & Hs)|(n & f' & -> & ? & Hs)].
    + by rewrite <- app_assoc.
    + rewrite length_app. cbn. lia.
    + done.
    + done.
    + left. exists s, k, f'. split; [done|]. split; [done|]. split; [done|]. eauto.
    + right. exists n, f'. split; [done|]. split; [done|]. eauto.
  - left. destruct Hf as [_ Hf]. rewrite Hs in Hf. unfold check_data_chunk. rewrite Hsg, Heg, Hg.
    rewrite slice_Ret by lia. cbn [exec_bind data_so_far reset].
    rewrite slice_tail_Ret by (rewrite Hg; lia). exists s, (i + 1)%nat; eexists; split; [reflexivity|].
    split; [lia|]. split; [cbn; by rewrite Hg|]. intros ?; congruence.
Qed.

(** [take_frame] hands out a part of the bytes and keeps what follows it, or
    keeps a tail of the bytes. *)
Lemma take_frame_spec f :
  Z.of_nat (length (data_so_far f)) ≤ MAX_JSON_FRAME_BYTES →
  (∃ s k f', take_frame f = Ret (Some (mkFramed (take (k - s) (drop s (data_so_far f))) true), f') ∧
     (s < k <= length (data_so_far f))%nat ∧ data_so_far f' = drop k (data_so_far f)) ∨
  (∃ n f', take_frame f = Ret (None, f') ∧ data_so_far f' = drop n (data_so_far f)).
Proof.
  intros Hlen. unfold take_frame. change (data_so_far f) with (data_so_far (reset f)) in *.
  destruct (scan_spec (data_so_far (reset f)) O (reset f) []) as [(s & k & f' & -> & ? & ? & _)|(n & f' & -> & ? & _)].
  - done.
  - done.
  - split; [done|reflexivity].
  - done.
  - left. by exists s, k, f'.
  - right. by exists n, f'.
Qed.

Lemma add_data_bounded data f :
  Z.of_nat (length (data_so_far (add_data data f))) ≤ Z.max (Z.of_nat (length (data_so_far f))) MAX_JSON_FRAME_BYTES.
Proof.
  unfold add_data. case_match; [cbn; lia|]. cbn. rewrite length_app.
  destruct (checked_add 64 _ _) eqn:E; [|done].
  apply checked_add_Some in E as [-> _]. lia.
Qed.
Lemma add_data_small data f :
  Z.of_nat (length (data_so_far f) + length data) ≤ MAX_JSON_FRAME_BYTES →
  add_data data f = with_data (data_so_far f ++ data) f.
Proof.
  intros H. unfold add_data.
  assert (checked_add 64 (Z.of_nat (length (data_so_far f))) (Z.of_nat (length data))
    = Some (Z.of_nat (length (data_so_far f) + length data))) as ->.
  { rewrite Nat2Z.inj_add. apply checked_add_Some. split; [done|]. unfold in_u, MAX_JSON_FRAME_BYTES in *. lia. }
  by rewrite (proj2 (Z.ltb_ge _ _) H).
Qed.

(** The calls of a framer, in any order. *)
Inductive call := AddData (data : list Z) | TakeFrame.
Fixpoint run_calls (calls : list call) (f : JsonFramer) : exec (list FramedChunk * JsonFramer) :=
  match calls with
  | [] => Ret ([], f)
  | AddData data :: calls => run_calls calls (add_data data f)
  | TakeFrame :: calls =>
      let* taken := take_frame f in
      let* rest := run_calls calls taken.2 in
      Ret (option_list taken.1 ++ rest.1, rest.2)
  end.

Lemma run_calls_bounded calls : ∀ f,
  Z.of_nat (length (data_so_far f)) ≤ MAX_JSON_FRAME_BYTES →
  ∃ frames f', run_calls calls f = Ret (frames, f') ∧
    Z.of_nat (length (data_so_far f')) ≤ MAX_JSON_FRAME_BYTES ∧
    Forall (fun fr => 1 ≤ Z.of_nat (length (fc_chunk fr)) ≤ MAX_JSON_FRAME_BYTES) frames.
Proof.
  induction calls as [|[data|] calls IH]; intros f Hf; cbn [run_calls].
  - eexists [], f. by split_and!.
  - apply IH. pose proof (add_data_bounded data f). lia.
  - destruct (take_frame_spec f Hf) as [(s & k & f' & -> & Hk & Hd)|(n & f' & -> & Hd)]; cbn [exec_bind fst snd];
      (destruct (IH f') as (frames & f'' & -> & Hb & Hfr); [rewrite Hd, length_drop; lia|]);
      cbn [exec_bind fst snd]; eexists _, f''; (split; [reflexivity|]); (split; [done|]); cbn [option_list app]; [|done].
    constructor; [|done]. cbn [fc_chunk]. rewrite length_take, length_drop. lia.
Qed.

(** [C12] The JSON framer is bounded and cannot be crashed: whatever bytes are
    given to it and however often it is asked for a frame, it never panics (no
    brace count overflows, no slice is out of range, its internal error is not
    reached), it keeps at most one megabyte, and every frame it hands out has a
    byte and at most a megabyte. *)
Theorem json_framer_bounded calls :
  ∃ frames f, run_calls calls new = Ret (frames, f) ∧
    Z.of_nat (length (data_so_far f)) ≤ MAX_JSON_FRAME_BYTES ∧
    Forall (fun fr => 1 ≤ Z.of_nat (length (fc_chunk fr)) ≤ MAX_JSON_FRAME_BYTES) frames.
Proof. apply run_calls_bounded. cbn. unfold MAX_JSON_FRAME_BYTES. lia. Qed.

(** *** More bytes do not change a frame already complete *)

Lemma update_state_data d byte i f :
  update_state byte i (with_data d f) = let* f := update_state byte i f in Ret (with_data d f).
Proof.
  unfold update_state, handle_quotes, handle_braces. destruct f as [s e d0 n sq dq []]; [reflexivity|].
  set (up := i32_add n 1). set (down := i32_add n (-1)).
  destruct s, sq, dq, (byte =? SQ), (byte =? DQ), (byte =? OB), (byte =? CB), (byte =? BS); try reflexivity;
    cbn -[i32_add]; fold up down; (destruct up, down); try reflexivity; cbn; by repeat case_match.
Qed.

Lemma scan_extend q bytes : ∀ i f pre fr f',
  data_so_far f = pre ++ bytes → length pre = i →
  scan bytes i f = Ret (Some fr, f') →
  scan (bytes ++ q) i (with_data (data_so_far f ++ q) f) = Ret (Some fr, with_data (data_so_far f' ++ q) f').
Proof.
  induction bytes as [|byte bytes IH]; intros i f pre fr f' Hd Hpre; cbn [scan app].
  { intros Hs. exfalso. destruct (possible_start f), (possible_end f); try done. by destruct (slice_tail _ _). }
  rewrite update_state_data. destruct (update_state byte i f) as [g|] eqn:Eu; [|done]. cbn [exec_bind].
  assert (data_so_far g = data_so_far f) as Hg.
  { revert Eu. unfold update_state, handle_quotes, handle_braces, i32_add, exec_bind. repeat case_match;
      intros; simplify_eq; done. }
  assert (length (data_so_far f) = S (i + length bytes))%nat as Hl by (rewrite Hd, length_app; cbn; lia).
  unfold check_data_chunk. cbn [possible_start possible_end with_data data_so_far].
  destruct (possible_start g) as [s|] eqn:Es, (possible_end g) as [e|] eqn:Ee; cbn [exec_bind];
    try (rewrite <- Hg; apply (IH (S i) g (pre ++ [byte])); [by rewrite Hg, <- app_assoc|rewrite length_app; cbn; lia]).
  unfold slice. destruct (Nat.leb_spec s e); [|done]. destruct (Nat.leb_spec e (length (data_so_far g))); [|done].
  cbn [andb exec_bind].
  rewrite slice_tail_Ret by (cbn; rewrite Hg; lia). cbn [exec_bind]. intros [= <- <-].
  assert ((e <=? length (data_so_far f ++ q))%nat = true) as -> by (apply Nat.leb_le; rewrite length_app; rewrite Hg in *; lia).
  cbn [andb exec_bind].
  rewrite slice_tail_Ret by (cbn; rewrite length_app; lia). cbn [exec_bind data_so_far reset with_data]. rewrite Hg.
  rewrite (drop_app_le (data_so_far f) q (i + 1)) by lia.
  rewrite Hg in *. by rewrite drop_app_le, take_app_le by (rewrite ?length_drop; lia).
Qed.

(** *** Objects are framed *)

(** What stands between the quotes of a JSON string (RFC 8259): no quote and no
    backslash that is not escaped. *)
Inductive json_chars : list Z → Prop :=
| chars_nil : json_chars []
| chars_plain c l : c ≠ DQ → c ≠ BS → json_chars l → json_chars (c :: l)
| chars_escaped c l : json_chars l → json_chars (BS :: c :: l).
Definition quoted (x : list Z) : list Z := DQ :: x ++ [DQ].
(** An object with one member that is a string *)
Definition object_text (w : list Z) : Prop :=
  ∃ name value, json_chars name ∧ json_chars value ∧ w = OB :: quoted name ++ 58 :: quoted value ++ [CB].

Definition between (s : nat) (d : list Z) : JsonFramer := mkJson (Some s) None d 1 false false false.
Definition inside (s : nat) (d : list Z) : JsonFramer := mkJson (Some s) None d 1 false true false.

(** A byte that leaves the framer where it is *)
Lemma scan_byte byte i f g rest :
  update_state byte i f = Ret g → possible_end g = None → scan (byte :: rest) i f = scan rest (S i) g.
Proof.
  intros Hu He. cbn [scan]. rewrite Hu. cbn [exec_bind]. unfold check_data_chunk. rewrite He.
  by destruct (possible_start g).
Qed.

Lemma inside_plain c i s d : c ≠ DQ → c ≠ BS → update_state c i (inside s d) = Ret (inside s d).
Proof.
  intros Hq Hb. unfold update_state, handle_quotes. cbn [after_backslash inside possible_start in_single_quote_string in_double_quote_string].
  rewrite (proj2 (Z.eqb_neq c DQ) Hq), (proj2 (Z.eqb_neq c BS) Hb). by destruct (c =? SQ).
Qed.

Lemma scan_chars x i s d rest : json_chars x → scan (x ++ rest) i (inside s d) = scan rest (i + length x) (inside s d).
Proof.
  intros Hx. revert i. induction Hx as [|c l Hq Hb _ IH|c l _ IH]; intros i; cbn [app].
  - by rewrite Nat.add_0_r.
  - rewrite (scan_byte c i _ (inside s d)) by (done || by apply inside_plain). rewrite IH. f_equal. cbn. lia.
  - rewrite (scan_byte BS i _ (mkJson (Some s) None d 1 false true true)) by reflexivity.
    rewrite (scan_byte c (S i) _ (inside s d)) by reflexivity. rewrite IH. f_equal. cbn. lia.
Qed.

Lemma scan_quoted x i s d rest : json_chars x →
  scan (quoted x ++ rest) i (between s d) = scan rest (i + length (quoted x)) (between s d).
Proof.
  intros Hx. unfold quoted. cbn [app]. rewrite (scan_byte DQ i _ (inside s d)) by reflexivity.
  rewrite <- app_assoc, scan_chars by done. cbn [app].
  rewrite (scan_byte DQ _ _ (between s d)) by reflexivity. f_equal. cbn. rewrite length_app. cbn. lia.
Qed.

Lemma scan_object w rest d : object_text w → d = w ++ rest →
  scan d O (idle d) = Ret (Some (mkFramed w true), idle rest).
Proof.
  intros (name & value & Hn & Hv & Hw) Hd. rewrite Hd at 1. rewrite Hw at 1. cbn [app].
  rewrite (scan_byte OB O _ (between O d)) by reflexivity.
  rewrite <- app_assoc, scan_quoted by done. cbn [app].
  rewrite (scan_byte 58 _ _ (between O d)) by reflexivity.
  rewrite <- app_assoc, scan_quoted by done. cbn [app].
  set (i := (S (1 + length (quoted name)) + length (quoted value))%nat).
  assert (length w = i + 1)%nat as Hl.
  { rewrite Hw. unfold i. cbn [length]. rewrite !length_app. cbn [length]. rewrite length_app. cbn [length]. lia. }
  cbn [scan]. change (update_state CB i (between O d)) with (Ret (mkJson (Some O) (Some (i + 1)%nat) d 0 false false false)).
  cbn [exec_bind]. unfold check_data_chunk. cbn [possible_start possible_end data_so_far].
  rewrite slice_Ret by (rewrite ?Hd, ?length_app; lia). cbn [exec_bind data_so_far reset].
  rewrite slice_tail_Ret by (rewrite Hd, length_app; lia). cbn [exec_bind with_data].
  rewrite Nat.sub_0_r, drop_0, <- Hl, Hd, take_app_length, drop_app_length. reflexivity.
Qed.

(** A whole object at the front is the next frame. *)
Lemma take_frame_object w rest f :
  object_text w → data_so_far f = w ++ rest → take_frame f = Ret (Some (mkFramed w true), idle rest).
Proof. intros Hw Hd. unfold take_frame, reset. cbn [data_so_far]. by apply scan_object. Qed.

(** An object not yet complete is kept until it is. *)
Lemma take_frame_partial p q f :
  object_text (p ++ q) → q ≠ [] → data_so_far f = p → Z.of_nat (length p) ≤ MAX_JSON_FRAME_BYTES →
  ∃ f', take_frame f = Ret (None, f') ∧ data_so_far f' = p.
Proof.
  intros Hw Hq Hd Hlen. unfold take_frame, reset. cbn [data_so_far]. rewrite Hd. fold (idle p).
  destruct p as [|b p']; [by eexists|].
  assert (b = OB) as -> by (destruct Hw as (? & ? & _ & _ & H); by injection H).
  rewrite (scan_byte OB O _ (between O (OB :: p'))) by reflexivity.
  destruct (scan_spec p' 1 (between O (OB :: p')) [OB]) as [(s & k & f' & Hs & Hk & Hd' & _)|(n & f' & Hs & Hd' & Hn)].
  - done.
  - done.
  - split; [done|]. cbn. lia.
  - done.
  - exfalso. apply (scan_extend q) with (pre := [OB]) in Hs; [|done..].
    pose proof (scan_object _ [] ((OB :: p') ++ q) Hw ltac:(by rewrite app_nil_r)) as Ho.
    cbn [app] in Ho. rewrite (scan_byte OB O _ (between O (OB :: p' ++ q))) in Ho by reflexivity.
    change (with_data (data_so_far (between O (OB :: p')) ++ q) (between O (OB :: p'))) with (between O (OB :: p' ++ q)) in Hs.
    rewrite Ho in Hs. injection Hs as Hs _. apply (f_equal length) in Hs.
    rewrite length_take, length_drop in Hs. cbn in Hs. rewrite length_app in Hs. destruct q; [done|]. cbn in Hs. lia.
  - eexists; split; [done|]. rewrite Hd'. by rewrite (Hn O eq_refl).
Qed.

End JsonFraming.

(** ** The TLS framer *)
Module TlsFraming.
Import TlsFramer.

Lemma split_off_Ret l n : (n <= length l)%nat → split_off l n = Ret (take n l, drop n l).
Proof. intros H. unfold split_off. by rewrite (proj2 (Nat.leb_le _ _) H). Qed.
Lemma index_Ret l i : (i < length l)%nat → ∃ b, index l i = Ret b ∧ l !! i = Some b.
Proof. intros [b Hb]%lookup_lt_is_Some. exists b. unfold index. by rewrite Hb. Qed.

Lemma search_spec data : ∃ r, search_for_frame_offset data = Ret r ∧
  match r with
  | Ok offset => (offset + 4 < length data)%nat ∧ ∃ b, data !! offset = Some b ∧ is_valid_content_type b = true
  | Err next => (next <= length data)%nat
  end.
Proof.
  unfold search_for_frame_offset. destruct (index_of data [3]) as [[|offset]|] eqn:E;
    [apply index_of_bound in E; cbn in E; by eexists|apply index_of_bound in E; cbn in E|eexists; split; [done|]; cbn; lia].
  destruct (Nat.leb_spec (length data) (offset + 4)); [eexists; split; [done|]; cbn; lia|].
  destruct (index_Ret data offset ltac:(lia)) as (b & -> & Hb).
  destruct (index_Ret data (offset + 1) ltac:(lia)) as (b1 & -> & _).
  destruct (index_Ret data (offset + 2) ltac:(lia)) as (b2 & -> & _). cbn [exec_bind].
  eexists; split; [reflexivity|]. destruct (is_valid_content_type b) eqn:Ev; cbn [andb]; [|lia].
  destruct (is_valid_protocol_version b1 b2); [|lia]. split; [done|]. by exists b.
Qed.

(** The search ends, at a whole header of a record or nowhere. *)
Lemma find_loop_spec fuel : ∀ data acc,
  (acc <= length data)%nat → (length data < acc + fuel)%nat →
  ∃ o, find_loop fuel data acc = Ret o ∧
    ∀ k, o = Some k → (k + 4 < length data)%nat ∧ ∃ b, data !! k = Some b ∧ is_valid_content_type b = true.
Proof.
  induction fuel as [|fuel IH]; intros data acc Ha Hf; [lia|]. cbn [find_loop].
  rewrite JsonFraming.slice_tail_Ret by done. cbn [exec_bind].
  destruct (search_spec (drop acc data)) as (r & -> & Hr). cbn [exec_bind]. destruct r as [offset|[|next]].
  - eexists; split; [reflexivity|]. intros k [= <-]. rewrite length_drop in Hr. split; [lia|].
    destruct Hr as (_ & b & Hb & Hv). rewrite lookup_drop in Hb. by exists b.
  - by eexists.
  - rewrite length_drop in Hr. apply IH; lia.
Qed.
Lemma find_frame_offset_returns data : ∃ o, find_frame_offset data = Ret o ∧
  ∀ k, o = Some k → (k + 4 < length data)%nat ∧ ∃ b, data !! k = Some b ∧ is_valid_content_type b = true.
Proof. apply find_loop_spec; lia. Qed.

(** The framer never panics; a frame is a part of the bytes, of five bytes or
    more, that starts with a content type. *)
Lemma tls_take_frame_spec f : ∃ o f', take_frame f = Ret (o, f') ∧
  match o with
  | Some fr => ∃ pre, data_so_far f = pre ++ fc_chunk fr ++ data_so_far f' ∧ (5 <= length (fc_chunk fr))%nat ∧
      ∃ b rest, fc_chunk fr = b :: rest ∧ is_valid_content_type b = true
  | None => ∃ n, data_so_far f' = drop n (data_so_far f)
  end.
Proof.
  unfold take_frame. destruct (find_frame_offset_returns (data_so_far f)) as ([k|] & -> & Hk); cbn [exec_bind].
  - destruct (Hk k eq_refl) as (Hl & b & Hb & Hv). rewrite split_off_Ret by lia. cbn [exec_bind snd].
    destruct (index_Ret (drop k (data_so_far f)) 3) as (hi & -> & _); [rewrite length_drop; lia|].
    destruct (index_Ret (drop k (data_so_far f)) 4) as (lo & -> & _); [rewrite length_drop; lia|].
    cbn [exec_bind]. case_match eqn:E.
    + apply Nat.leb_le in E. rewrite split_off_Ret by done. cbn [exec_bind fst snd]. eexists _, _. split; [reflexivity|].
      cbn [fc_chunk data_so_far]. exists (take k (data_so_far f)). rewrite !take_drop. split; [done|].
      rewrite length_take. split; [lia|]. exists b. rewrite (drop_S _ _ _ Hb). cbn [take Nat.add]. by eexists.
    + eexists _, _. split; [reflexivity|]. by exists k.
  - rewrite split_off_Ret by (case_match; lia). cbn [exec_bind snd]. eexists _, _. split; [reflexivity|]. by eexists.
Qed.

(** A record as TLS has it: its type, its version, the length of its body. *)
Definition tls_record (r : list Z) : Prop :=
  ∃ content_type version body,
    r = content_type :: 3 :: version :: be_bytes 2 (Z.of_nat (length body)) ++ body ∧
    is_valid_content_type content_type = true ∧ (version = 1 ∨ version = 3) ∧ Z.of_nat (length body) < 65536.

Lemma convert_be_bytes n : 0 ≤ n < 65536 → ∃ hi lo, be_bytes 2 n = [hi; lo] ∧ convert_to_usize hi lo = n.
Proof.
  intros Hn. exists (n / 2 ^ 8 mod 2 ^ 8), (n mod 2 ^ 8). split; [reflexivity|]. unfold convert_to_usize.
  rewrite Z.lor_comm, lor_low_high by (lia || by apply Z.mod_pos_bound).
  change (2 ^ 8) with 256. rewrite (Z.mod_small (n / 256)) by (Z.to_euclidean_division_equations; lia).
  pose proof (Z.div_mod n 256). lia.
Qed.

(** A whole record at the front is the next frame. *)
Lemma take_frame_record r rest :
  tls_record r → take_frame (mkTls (r ++ rest)) = Ret (Some (mkFramed r false), mkTls rest).
Proof.
  intros (ct & v & body & Hr & Hct & Hv & Hlen).
  destruct (convert_be_bytes (Z.of_nat (length body))) as (hi & lo & Hbe & Hconv); [lia|]. rewrite Hbe in Hr.
  cbn [app] in Hr. unfold take_frame, find_frame_offset. cbn [data_so_far].
  assert (length (r ++ rest) = S (4 + length body + length rest))%nat as Hl by (rewrite Hr; cbn; rewrite length_app; lia).
  assert (search_for_frame_offset (r ++ rest) = Ret (Ok O)) as Hsearch.
  { rewrite Hr. unfold search_for_frame_offset. cbn [app index_of index_from starts_with].
    assert ((ct =? 3) = false) as -> by (unfold is_valid_content_type in Hct; lia).
    cbn [andb fmap option_fmap option_map Z.eqb Pos.eqb]. cbn [length Nat.leb Nat.add].
    change (index (ct :: 3 :: v :: hi :: lo :: body ++ rest) 0) with (Ret ct). 
    cbn [exec_bind]. rewrite Hct. destruct Hv as [-> | ->]; reflexivity. }
  cbn [find_loop]. rewrite JsonFraming.slice_tail_Ret, drop_0 by lia. cbn [exec_bind]. rewrite Hsearch.
  cbn [exec_bind]. rewrite split_off_Ret by lia. cbn [Nat.add exec_bind snd]. rewrite drop_0.
  assert (index (r ++ rest) 3 = Ret hi ∧ index (r ++ rest) 4 = Ret lo) as [-> ->] by (by rewrite Hr).
  cbn [exec_bind]. rewrite Hconv, Nat2Z.id, (proj2 (Nat.leb_le _ _)) by lia. cbv zeta.
  rewrite split_off_Ret by lia. cbn [exec_bind fst snd].
  assert (S (S (S (S (S (length body))))) = length r)%nat as -> by (rewrite Hr; cbn; lia).
  by rewrite take_app_length, drop_app_length.
Qed.

(** A record not yet complete is kept, when four bytes of it have come. *)
Lemma take_frame_incomplete p q :
  tls_record (p ++ q) → q ≠ [] → p = [] ∨ (4 <= length p)%nat → take_frame (mkTls p) = Ret (None, mkTls p).
Proof.
  intros (ct & v & body & Hr & Hct & Hv & Hlen) Hq [-> | Hp]; [reflexivity|].
  destruct (convert_be_bytes (Z.of_nat (length body))) as (hi & lo & Hbe & Hconv); [lia|]. rewrite Hbe in Hr.
  assert (length (p ++ q) = 5 + length body)%nat as Hl by (rewrite Hr; cbn; lia). rewrite length_app in Hl.
  destruct p as [|p0 [|p1 [|p2 [|p3 p]]]]; cbn in Hp; try lia. injection Hr as -> -> -> -> Hr.
  assert ((ct =? 3) = false) as Hne by (unfold is_valid_content_type in Hct; lia).
  destruct p as [|p4 p].
  - unfold take_frame, find_frame_offset. cbn [data_so_far find_loop length]. rewrite JsonFraming.slice_tail_Ret by (cbn; lia).
    rewrite drop_0. cbn [exec_bind]. unfold search_for_frame_offset. cbn [index_of index_from starts_with].
    by rewrite Hne.
  - injection Hr as -> Hr. unfold take_frame, find_frame_offset. cbn [data_so_far find_loop].
    rewrite JsonFraming.slice_tail_Ret, drop_0 by lia. cbn [exec_bind].
    unfold search_for_frame_offset. cbn [index_of index_from starts_with]. rewrite Hne.
    cbn [andb fmap option_fmap option_map Z.eqb Pos.eqb]. cbn [length Nat.leb Nat.add].
    change (index (ct :: 3 :: v :: hi :: lo :: p) 0) with (Ret ct).
    cbn [exec_bind]. rewrite Hct. assert (is_valid_protocol_version 3 v = true) as Hver by (by destruct Hv as [-> | ->]).
    change (index (ct :: 3 :: v :: hi :: lo :: p) 1) with (Ret 3). change (index (ct :: 3 :: v :: hi :: lo :: p) 2) with (Ret v).
    cbn [exec_bind]. rewrite Hver. cbn [andb exec_bind Nat.add]. rewrite split_off_Ret by lia. cbn [exec_bind snd].
    rewrite drop_0. change (index (ct :: 3 :: v :: hi :: lo :: p) 3) with (Ret hi).
    change (index (ct :: 3 :: v :: hi :: lo :: p) 4) with (Ret lo). cbn [exec_bind].
    rewrite Hconv, Nat2Z.id. cbn [length]. rewrite (proj2 (Nat.leb_gt _ _)); [done|]. destruct q; [done|]. cbn [length] in *. lia.
Qed.

(** Bytes that come alone, fewer than four of them, are dropped. *)
Lemma short_data_dropped f : (length (data_so_far f) < 4)%nat → take_frame f = Ret (None, new).
Proof.
  intros Hl. unfold take_frame. destruct (find_frame_offset_returns (data_so_far f)) as ([k|] & -> & Hk); cbn [exec_bind].
  { destruct (Hk k eq_refl). lia. }
  rewrite (proj2 (Nat.ltb_lt _ _)) by (unfold PRESERVE_HEADER_LEN; lia). rewrite split_off_Ret by done.
  cbn [exec_bind snd]. by rewrite drop_all.
Qed.

End TlsFraming.

(** ** Messages behind the masquerade *)

(** What is relied on of [serde_json] and [base64]: a structure is written as an
    object of JSON and read back from it; what is encoded is decoded. *)
Class JsonLaws `{HJ : JsonCrate} := {
  text_written s : utf8_valid (string_bytes s) = true → ∃ out,
    text_to_string (mkTextStructure s) = Ok out ∧ utf8_valid (string_bytes out) = true ∧
    JsonFraming.object_text (string_bytes out) ∧ from_str out = Ok (mkUnmaskStructure (Some s) None);
  data_written s : utf8_valid (string_bytes s) = true → ∃ out,
    data_to_string (mkDataStructure s) = Ok out ∧ utf8_valid (string_bytes out) = true ∧
    JsonFraming.object_text (string_bytes out) ∧ from_str out = Ok (mkUnmaskStructure None (Some s));
  base64_text d : bytes_ok d → utf8_valid (string_bytes (base64_encode d)) = true;
  base64_read d : bytes_ok d → base64_decode (base64_encode d) = Some d;
}.

Section Masks.
Context `{HL : JsonLaws}.

Lemma string_bytes_string bs : bytes_ok bs → string_bytes (bytes_string bs) = bs.
Proof.
  induction 1 as [|b bs Hb _ IH]; [done|]. cbn [bytes_string string_bytes]. rewrite IH. f_equal.
  unfold char_byte, is_byte, in_u in *. rewrite nat_ascii_embedding; lia.
Qed.

Lemma from_utf8_text s : utf8_valid (string_bytes s) = true → from_utf8 (string_bytes s) = Some s.
Proof. intros H. unfold from_utf8. by rewrite H, bytes_string_bytes. Qed.

(** A message that is masked is an object, and unmasked again. *)
Lemma mask_unmask d : bytes_ok d → ∃ w,
  json_mask d = Ret (Ok w) ∧ JsonFraming.object_text w ∧ json_unmask w = Ok (mkUnmasked d true false).
Proof.
  intros Hd. unfold json_mask, json_unmask, string_from_data, structure_from_string.
  unfold from_utf8 at 1. destruct (utf8_valid d) eqn:E.
  - assert (string_bytes (bytes_string d) = d) as Hs by (by apply string_bytes_string).
    destruct (text_written (bytes_string d)) as (out & Ht & Hu & Ho & Hf); [by rewrite Hs|].
    unfold make_text_structure. rewrite Ht. eexists; split_and!; [done..|].
    rewrite from_utf8_text by done. cbn [ok_or result_bind]. rewrite Hf. cbn. by rewrite Hs.
  - destruct (data_written (base64_encode d)) as (out & Ht & Hu & Ho & Hf); [by apply base64_text|].
    unfold make_binary_structure. rewrite Ht. eexists; split_and!; [done..|].
    rewrite from_utf8_text by done. cbn [ok_or result_bind]. rewrite Hf. cbn. by rewrite base64_read.
Qed.

End Masks.
