(* ===== verification/HttpFramer.v ===== *)
(** * The framer of HTTP packets

    [sub_lib/framer_utils.rs], [sub_lib/http_packet_framer.rs] and
    [http_request_start_finder.rs]: the framer a browser's socket has on the
    HTTP port, and on the TLS port for [CONNECT].  It finds the start of a
    request, collects the lines of its header, hands out the header with what
    has come of the body, then the rest of the body as it comes; the body of a
    chunked request is handed out chunk by chunk. *)

From Stdlib Require Import ZArith Lia String Ascii.
From stdpp Require Import base list numbers option.
From S2P Require Import Prelude Text ProtocolPack ProtocolHosts Framers.

Local Open Scope Z_scope.
Local Open Scope rust_scope.
Local Open Scope list_scope.

(** ** Text of the standard library *)

(** [[u8]::eq_ignore_ascii_case] *)
Definition to_ascii_lowercase (b : Z) : Z := if (65 <=? b) && (b <=? 90) then b + 32 else b.
Definition eq_ignore_ascii_case (a b : list Z) : bool :=
  bool_decide (map to_ascii_lowercase a = map to_ascii_lowercase b).

(** The white space of Unicode, in UTF-8 *)
Definition white_space : list (list Z) :=
  [[9]; [10]; [11]; [12]; [13]; [32]; [194; 133]; [194; 160]; [225; 154; 128]]
  ++ map (fun b => [226; 128; b]) [128; 129; 130; 131; 132; 133; 134; 135; 136; 137; 138; 168; 169; 175]
  ++ [[226; 129; 159]; [227; 128; 128]].
Fixpoint strip_loop (fuel : nat) (spaces : list (list Z)) (s : list Z) : list Z :=
  match fuel with
  | O => s
  | S fuel =>
      match List.find (fun w => starts_with w s) spaces with
      | Some w => strip_loop fuel spaces (drop (length w) s)
      | None => s
      end
  end.
(** [str::trim] *)
Definition trim (s : list Z) : list Z :=
  let s := strip_loop (length s) white_space s in
  reverse (strip_loop (length s) (map reverse white_space) (reverse s)).

(** [str::split] at a byte *)
Fixpoint split_at (sep : Z) (s : list Z) : list (list Z) :=
  match s with
  | [] => [[]]
  | c :: s =>
      if c =? sep then [] :: split_at sep s
      else match split_at sep s with
           | part :: parts => (c :: part) :: parts
           | [] => [[c]]
           end
  end.

(** [parse::<usize>()] *)
Definition parse_usize (s : string) : option Z :=
  let digits :=
    match s with
    | String c s' => if char_byte c =? 43 then s' else s
    | EmptyString => s
    end in
  match parse_dec digits with
  | Some n => if bool_decide (in_u 64 n) then Some n else None
  | None => None
  end.

(** [[u8]::ends_with] *)
Definition ends_with (l suffix : list Z) : bool := starts_with (reverse suffix) (reverse l).

(** [masq_lib::utils::index_of_from] *)
Fixpoint position (needle : Z) (l : list Z) : option nat :=
  match l with
  | [] => None
  | b :: l => if b =? needle then Some O else S <$> position needle l
  end.
Definition index_of_from (haystack : list Z) (needle : Z) (start_at : nat) : option nat :=
  (fun i => (start_at + i)%nat) <$> position needle (drop start_at haystack).

(** ** [framer_utils.rs]: the header of a chunk *)

Record ChunkOffsetLength := mkChunkHeader { col_offset : nat; col_length : Z; col_chunk_size : Z }.

Definition position_in_range (digit first last : Z) : option Z :=
  if digit <? first then None else if last <? digit then None else Some (digit - first).
Definition evaluate_hex_digit (digit : Z) : option Z :=
  match position_in_range digit 48 57 with
  | Some pos => Some pos
  | None =>
      match position_in_range digit 65 70 with
      | Some pos => Some (10 + pos)
      | None => (fun pos => 10 + pos) <$> position_in_range digit 97 102
      end
  end.

(** The loop of [parse_chunk_size_at] over what is left of the line from
    [index] on. *)
Fixpoint digits_loop (rest : list Z) (index : nat) (chunk_size : Z) (digit_count : nat) : option (nat * Z) :=
  let done_ := if (digit_count =? 0)%nat then None else Some (index, chunk_size) in
  match rest with
  | [] => done_
  | b :: rest =>
      match evaluate_hex_digit b with
      | None => done_
      | Some digit =>
          if (digit_count =? 8)%nat then None
          else
            match checked_mul 64 chunk_size 16 with
            | None => None
            | Some n =>
                match checked_add 64 n digit with
                | None => None
                | Some chunk_size => digits_loop rest (index + 1) chunk_size (digit_count + 1)
                end
            end
      end
  end.
Definition parse_chunk_size_at (line : list Z) (offset : nat) : option (nat * Z) :=
  digits_loop (drop offset line) offset 0 O.

Definition valid_chunk_extension (extension : list Z) : bool :=
  match extension with
  | b :: _ => (b =? 59) && forallb (fun b => (b =? 9) || ((32 <=? b) && (b <=? 126))) extension
  | [] => false
  end.

(** The loops of [parse_chunk_header_line] and of [partial_chunk_header_offset]
    over the offsets. *)
Definition header_at (line : list Z) (offset : nat) : exec (option (nat * Z)) :=
  match parse_chunk_size_at line offset with
  | None => Ret None
  | Some (digits_end, chunk_size) =>
      if (digits_end =? length line)%nat then Ret (Some (offset, chunk_size))
      else
        let* b := index line digits_end in
        if b =? 59 then
          let* extension := slice_tail line digits_end in
          Ret (if valid_chunk_extension extension then Some (offset, chunk_size) else None)
        else Ret None
  end.
Fixpoint first_header (line : list Z) (offsets : list nat) : exec (option (nat * Z)) :=
  match offsets with
  | [] => Ret None
  | offset :: offsets =>
      let* found := header_at line offset in
      match found with
      | Some result => Ret (Some result)
      | None => first_header line offsets
      end
  end.
Definition parse_chunk_header_line (line : list Z) : exec (option (nat * Z)) :=
  first_header line (seq 0 (length line)).
Definition partial_chunk_header_offset (line : list Z) : exec (option nat) :=
  let* found := first_header line (seq 0 (length line)) in
  Ret (fst <$> found).

Definition find_next_chunk_offset_length (data_so_far : list Z) : exec (result ChunkOffsetLength nat) :=
  match index_of data_so_far CRLF with
  | None => Ret (Err O)
  | Some O => Ret (Err 2%nat)
  | Some crlf_offset =>
      let* line := slice data_so_far 0 crlf_offset in
      let* parsed := parse_chunk_header_line line in
      match parsed with
      | Some (offset, chunk_size) =>
          Ret (match checked_add 64 chunk_size (Z.of_nat (crlf_offset - offset)) with
               | Some length_ =>
                   match checked_add 64 length_ 2 with
                   | Some length_ => Ok (mkChunkHeader offset length_ chunk_size)
                   | None => Err (crlf_offset + 2)%nat
                   end
               | None => Err (crlf_offset + 2)%nat
               end)
      | None => Ret (Err (crlf_offset + 2)%nat)
      end
  end.
(** The loop; as much fuel as bytes, and one, is enough
    ([find_chunk_offset_length_returns]). *)
Fixpoint chunk_loop (fuel : nat) (data_so_far : list Z) (accumulated_offset : nat) :
    exec (option ChunkOffsetLength) :=
  match fuel with
  | O => Panic
  | S fuel =>
      let* rest := slice_tail data_so_far accumulated_offset in
      let* next := find_next_chunk_offset_length rest in
      match next with
      | Err O => Ret None
      | Err next_offset => chunk_loop fuel data_so_far (accumulated_offset + next_offset)
      | Ok r => Ret (Some (mkChunkHeader (col_offset r + accumulated_offset) (col_length r) (col_chunk_size r)))
      end
  end.
Definition find_chunk_offset_length (data_so_far : list Z) : exec (option ChunkOffsetLength) :=
  chunk_loop (S (length data_so_far)) data_so_far O.

(** [windows(2).rposition(..)]: where the last CRLF starts *)
Fixpoint last_crlf (l : list Z) : option nat :=
  match l with
  | [] => None
  | _ :: rest =>
      match last_crlf rest with
      | Some i => Some (S i)
      | None => if starts_with CRLF l then Some O else None
      end
  end.
Definition find_incomplete_chunk_header_offset (data_so_far : list Z) : exec (option nat) :=
  let line_start := match last_crlf data_so_far with Some offset => (offset + 2)%nat | None => O end in
  let* line := slice_tail data_so_far line_start in
  let* found := partial_chunk_header_offset line in
  Ret ((fun offset => (line_start + offset)%nat) <$> found).

(** ** [http_packet_framer.rs] *)

Definition MAX_HTTP_HEADER_BYTES : Z := 65536.
Definition BYTES_TO_PRESERVE : nat := 9.
Definition DOUBLE_CRLF : list Z := [13; 10; 13; 10].

Inductive PacketProgressState := SeekingPacketStart | SeekingBodyStart | SeekingBodyEnd.
Inductive ChunkExistenceState := Standard | ChunkedResponse | Chunk.
Inductive ChunkProgressState := NoChunk | SeekingLengthHeader | SeekingEndOfChunk | SeekingEndOfFinalChunk.

#[global] Instance PacketProgressState_eq_dec : EqDecision PacketProgressState.
Proof. solve_decision. Defined.
#[global] Instance ChunkExistenceState_eq_dec : EqDecision ChunkExistenceState.
Proof. solve_decision. Defined.

Record HttpFramerState := mkHttp {
  data_so_far : list Z;
  packet_progress_state : PacketProgressState;
  content_length : Z;
  transfer_encoding_chunked : ChunkExistenceState;
  chunk_progress_state : ChunkProgressState;
  chunk_size : option Z;
  lines : list (list Z);
}.

Definition http_new : HttpFramerState := mkHttp [] SeekingPacketStart 0 Standard NoChunk None [].

Definition with_data (data : list Z) (s : HttpFramerState) : HttpFramerState :=
  mkHttp data (packet_progress_state s) (content_length s) (transfer_encoding_chunked s)
    (chunk_progress_state s) (chunk_size s) (lines s).
Definition with_progress (p : PacketProgressState) (s : HttpFramerState) : HttpFramerState :=
  mkHttp (data_so_far s) p (content_length s) (transfer_encoding_chunked s)
    (chunk_progress_state s) (chunk_size s) (lines s).
Definition with_content_length (n : Z) (s : HttpFramerState) : HttpFramerState :=
  mkHttp (data_so_far s) (packet_progress_state s) n (transfer_encoding_chunked s)
    (chunk_progress_state s) (chunk_size s) (lines s).
Definition with_encoding (e : ChunkExistenceState) (s : HttpFramerState) : HttpFramerState :=
  mkHttp (data_so_far s) (packet_progress_state s) (content_length s) e
    (chunk_progress_state s) (chunk_size s) (lines s).
Definition with_chunk (c : ChunkProgressState) (size : option Z) (s : HttpFramerState) : HttpFramerState :=
  mkHttp (data_so_far s) (packet_progress_state s) (content_length s) (transfer_encoding_chunked s)
    c size (lines s).
Definition with_lines (ls : list (list Z)) (s : HttpFramerState) : HttpFramerState :=
  mkHttp (data_so_far s) (packet_progress_state s) (content_length s) (transfer_encoding_chunked s)
    (chunk_progress_state s) (chunk_size s) ls.

(** *** The start of a request ([http_request_start_finder.rs]) *)

Definition METHODS : list (list Z) :=
  map string_bytes ["GET"; "HEAD"; "POST"; "PUT"; "DELETE"; "CONNECT"; "OPTIONS"; "TRACE"; "PATCH"]%string.
Definition LONGEST_METHOD_LEN : nat := 7.

(** [Iterator::min] *)
Definition minimum (l : list nat) : option nat :=
  match l with [] => None | x :: l => Some (foldl Nat.min x l) end.

Definition seek_packet_start (s : HttpFramerState) : exec (bool * HttpFramerState) :=
  if bool_decide (packet_progress_state s = SeekingPacketStart) then
    match minimum (omap (index_of (data_so_far s)) METHODS) with
    | Some first_method_offset =>
        let* parts := split_off (data_so_far s) first_method_offset in
        Ret (true, with_lines [] (with_content_length 0 (with_progress SeekingBodyStart (with_data parts.2 s))))
    | None =>
        let index :=
          if (LONGEST_METHOD_LEN <? length (data_so_far s))%nat
          then (length (data_so_far s) - LONGEST_METHOD_LEN)%nat else O in
        let* parts := split_off (data_so_far s) index in
        Ret (false, with_data parts.2 s)
    end
  else Ret (false, s).

(** *** The lines of the header *)

(** The total of the bytes of the lines: [try_fold] with [checked_add] *)
Fixpoint total_bytes (total : Z) (ls : list (list Z)) : option Z :=
  match ls with
  | [] => Some total
  | line :: ls =>
      match checked_add 64 total (Z.of_nat (length line)) with
      | Some total => total_bytes total ls
      | None => None
      end
  end.
Definition header_bytes_would_exceed_limit (additional_len : nat) (s : HttpFramerState) : bool :=
  match total_bytes 0 (lines s) with
  | Some total =>
      match checked_add 64 total (Z.of_nat additional_len) with
      | Some total => MAX_HTTP_HEADER_BYTES <? total
      | None => true
      end
  | None => true
  end.

Definition discard_oversized_header (s : HttpFramerState) : HttpFramerState :=
  mkHttp [] SeekingPacketStart 0 Standard NoChunk None [].
Definition discard_current_request (s : HttpFramerState) : HttpFramerState :=
  mkHttp (data_so_far s) SeekingPacketStart 0 Standard NoChunk None [].

Definition is_blank (b : Z) : bool := (b =? 32) || (b =? 9).
Fixpoint drop_blanks (l : list Z) : list Z :=
  match l with
  | b :: rest => if is_blank b then drop_blanks rest else l
  | [] => []
  end.
Definition header_value (line header_name : list Z) : option (list Z) :=
  match position 58 line with
  | None => None
  | Some colon =>
      if negb (eq_ignore_ascii_case (take colon line) header_name) then None
      else
        let value := drop (colon + 1) line in
        let value := if ends_with value CRLF then take (length value - 2) value else value in
        let value := drop_blanks value in
        Some (reverse (drop_blanks (reverse value)))
  end.

Definition Content_Length : list Z := string_bytes "Content-Length".
Definition Transfer_Encoding : list Z := string_bytes "Transfer-Encoding".

Definition check_for_content_length (line : list Z) (s : HttpFramerState) : bool * HttpFramerState :=
  match header_value line Content_Length with
  | None => (true, s)
  | Some value =>
      if existsb (fun previous_line => is_some (header_value previous_line Content_Length)) (lines s)
      then (false, discard_current_request s)
      else if negb (bool_decide (transfer_encoding_chunked s = Standard)) then (true, s)
      else
        match from_utf8 value with
        | None => (false, discard_current_request s)
        | Some length_str =>
            match parse_usize length_str with
            | Some length_ => (true, with_content_length length_ s)
            | None => (false, discard_current_request s)
            end
        end
  end.

Definition check_for_transfer_encoding (line : list Z) (s : HttpFramerState) : bool * HttpFramerState :=
  match header_value line Transfer_Encoding with
  | None => (true, s)
  | Some value =>
      match from_utf8 value with
      | None => (false, discard_current_request s)
      | Some _ =>
          if existsb (fun encoding => eq_ignore_ascii_case (trim encoding) (string_bytes "chunked"))
               (split_at 44 value)
          then (true, with_chunk SeekingLengthHeader None (with_encoding ChunkedResponse (with_content_length 0 s)))
          else (true, s)
      end
  end.

Definition check_for_zero_length (line : list Z) (s : HttpFramerState) : bool * HttpFramerState :=
  if negb (length line =? 2)%nat then (false, s) else (true, with_progress SeekingBodyEnd s).

(** The loop; each turn takes a line of two bytes or more, so that as much fuel
    as bytes, and one, is enough. *)
Fixpoint body_start_loop (fuel : nat) (s : HttpFramerState) : exec (bool * HttpFramerState) :=
  match fuel with
  | O => Panic
  | S fuel =>
      if bool_decide (packet_progress_state s = SeekingBodyStart) then
        match index_of (data_so_far s) CRLF with
        | Some line_end =>
            let line_len := (line_end + 2)%nat in
            if header_bytes_would_exceed_limit line_len s then Ret (false, discard_oversized_header s)
            else
              let* parts := split_off (data_so_far s) line_len in
              let line := parts.1 in
              let s := with_data parts.2 s in
              let '(ok, s) := check_for_content_length line s in
              if negb ok then Ret (false, s)
              else
                let '(ok, s) := check_for_transfer_encoding line s in
                if negb ok then Ret (false, s)
                else
                  let '(result, s) := check_for_zero_length line s in
                  let s := with_lines (lines s ++ [line]) s in
                  if result then Ret (true, s) else body_start_loop fuel s
        | None =>
            Ret (false, if header_bytes_would_exceed_limit (length (data_so_far s)) s
                        then discard_oversized_header s else s)
        end
      else Ret (false, s)
  end.
Definition seek_body_start (s : HttpFramerState) : exec (bool * HttpFramerState) :=
  body_start_loop (S (length (data_so_far s))) s.

(** *** The body *)

Definition usize_sub (a b : Z) : exec Z := if b <=? a then Ret (a - b) else Panic.

Definition seek_body_end (s : HttpFramerState) : exec (option (list Z) * HttpFramerState) :=
  if negb (bool_decide (packet_progress_state s = SeekingBodyEnd)) then Ret (None, s)
  else
    let has_header := match lines s with [] => false | _ => true end in
    let body_bytes_to_take := Z.to_nat (Z.min (Z.of_nat (length (data_so_far s))) (content_length s)) in
    if negb has_header && (body_bytes_to_take =? 0)%nat then Ret (None, s)
    else
      let* parts := split_off (data_so_far s) body_bytes_to_take in
      let body := parts.1 in
      let s := with_data parts.2 s in
      let* remaining := usize_sub (content_length s) (Z.of_nat (length body)) in
      let s := with_content_length remaining s in
      let request := concat (lines s) ++ body in
      let s := with_lines [] s in
      let s :=
        if remaining =? 0 then
          let s := with_progress SeekingPacketStart s in
          if bool_decide (transfer_encoding_chunked s = ChunkedResponse)
          then with_chunk SeekingLengthHeader None (with_encoding Chunk s)
          else with_encoding Standard s
        else s in
      Ret (Some request, s).

Definition take_packet_frame (s : HttpFramerState) : exec (option FramedChunk * HttpFramerState) :=
  let* started :=
    if bool_decide (packet_progress_state s = SeekingPacketStart)
    then seek_packet_start s else Ret (true, s) in
  let '(found, s) := started in
  if negb found then Ret (None, s)
  else
    let* sought :=
      if bool_decide (packet_progress_state s = SeekingBodyStart)
      then seek_body_start s else Ret (true, s) in
    let '(found, s) := sought in
    if negb found then Ret (None, s)
    else if bool_decide (packet_progress_state s = SeekingBodyEnd) then
      let* ended := seek_body_end s in
      Ret ((fun request => mkFramed request false) <$> ended.1, ended.2)
    else Ret (None, s).

(** *** Chunks *)

(** [take_chunk_frame] and the three functions it calls, which call it again; a
    depth of four is enough ([take_chunk_frame_returns]). *)
Definition length_header_step (s : HttpFramerState) : exec (bool * HttpFramerState) :=
  let* found := find_chunk_offset_length (data_so_far s) in
  match found with
  | None =>
      if MAX_HTTP_HEADER_BYTES <? Z.of_nat (length (data_so_far s)) then Ret (false, discard_oversized_header s)
      else
        let* incomplete := find_incomplete_chunk_header_offset (data_so_far s) in
        match incomplete with
        | Some offset =>
            let* parts := split_off (data_so_far s) offset in
            Ret (false, with_data parts.2 s)
        | None =>
            if (BYTES_TO_PRESERVE <? length (data_so_far s))%nat then
              let* parts := split_off (data_so_far s) (length (data_so_far s) - BYTES_TO_PRESERVE) in
              Ret (false, with_data parts.2 s)
            else Ret (false, s)
        end
  | Some chunk_offset_length =>
      let* parts := split_off (data_so_far s) (col_offset chunk_offset_length) in
      let s := with_data parts.2 s in
      Ret (true,
           if col_chunk_size chunk_offset_length =? 0 then with_chunk SeekingEndOfFinalChunk None s
           else with_chunk SeekingEndOfChunk (Some (col_length chunk_offset_length)) s)
  end.

(** [Ok] is the frame to return, [Err ()] to call [take_chunk_frame] again. *)
Definition end_of_chunk_step (s : HttpFramerState) : exec (result (option FramedChunk) unit * HttpFramerState) :=
  let* size := expect (chunk_size s) in
  let complete_chunk_size_opt := checked_add 64 size 2 in
  let complete :=
    match complete_chunk_size_opt with
    | Some complete_chunk_size => complete_chunk_size <=? Z.of_nat (length (data_so_far s))
    | None => false
    end in
  if negb complete then
    if (size =? 0) || (length (data_so_far s) =? 0)%nat then Ret (Ok None, s)
    else
      let bytes_to_take := Z.to_nat (Z.min (Z.of_nat (length (data_so_far s))) size) in
      let* parts := split_off (data_so_far s) bytes_to_take in
      let chunk := parts.1 in
      let s := with_data parts.2 s in
      let* remaining := usize_sub size (Z.of_nat (length chunk)) in
      Ret (Ok (Some (mkFramed chunk false)), with_chunk (chunk_progress_state s) (Some remaining) s)
  else
    let* complete_chunk_size := expect complete_chunk_size_opt in
    let* parts := split_off (data_so_far s) (Z.to_nat complete_chunk_size) in
    let chunk := parts.1 in
    let s := with_data parts.2 s in
    let* rescued :=
      if negb (ends_with chunk CRLF) then
        let* last := index chunk (length chunk - 1) in
        let* before := index chunk (length chunk - 2) in
        Ret (take (length chunk - 2) chunk, with_data (before :: last :: data_so_far s) s)
      else Ret (chunk, s) in
    let '(chunk, s) := rescued in
    let s := with_chunk SeekingLengthHeader None s in
    Ret (match chunk with [] => Err () | _ => Ok (Some (mkFramed chunk false)) end, s).

Definition final_chunk_step (s : HttpFramerState) : exec (option FramedChunk * HttpFramerState) :=
  match index_of (data_so_far s) DOUBLE_CRLF with
  | Some offset =>
      let* parts := split_off (data_so_far s) (offset + 4) in
      let s := with_chunk NoChunk None (with_encoding Standard (with_data parts.2 s)) in
      Ret (Some (mkFramed parts.1 false), s)
  | None =>
      Ret (None, if MAX_HTTP_HEADER_BYTES <? Z.of_nat (length (data_so_far s)) then discard_oversized_header s else s)
  end.

Fixpoint chunk_frame_loop (fuel : nat) (s : HttpFramerState) : exec (option FramedChunk * HttpFramerState) :=
  match fuel with
  | O => Panic
  | S fuel =>
      match chunk_progress_state s with
      | NoChunk => Panic
      | SeekingLengthHeader =>
          let* step := length_header_step s in
          let '(again, s) := step in
          if again then chunk_frame_loop fuel s else Ret (None, s)
      | SeekingEndOfChunk =>
          let* step := end_of_chunk_step s in
          match step with
          | (Ok frame, s) => Ret (frame, s)
          | (Err _, s) => chunk_frame_loop fuel s
          end
      | SeekingEndOfFinalChunk => final_chunk_step s
      end
  end.
Definition take_chunk_frame (s : HttpFramerState) : exec (option FramedChunk * HttpFramerState) :=
  chunk_frame_loop 4 s.

Definition http_add_data (data : list Z) (s : HttpFramerState) : HttpFramerState :=
  with_data (data_so_far s ++ data) s.
Definition http_take_frame (s : HttpFramerState) : exec (option FramedChunk * HttpFramerState) :=
  if bool_decide (transfer_encoding_chunked s = Chunk) then take_chunk_frame s else take_packet_frame s.

(** What the log says of a packet *)
Definition summarize_http_packet (request : list Z) : exec string :=
  match index_of_from request 32 O with
  | None => Ret "<bad HTTP syntax: no spaces>"%string
  | Some first_space_index =>
      match index_of_from request 32 (first_space_index + 1) with
      | None => Ret "<bad HTTP syntax: one space>"%string
      | Some second_space_index =>
          let* first_bytes := slice request 0 first_space_index in
          match from_utf8 first_bytes with
          | None => Ret "<bad HTTP syntax: UTF-8 encoding error>"%string
          | Some first_token =>
              let* second_bytes := slice request (first_space_index + 1) second_space_index in
              match from_utf8 second_bytes with
              | None => Ret "<bad HTTP syntax: UTF-8 encoding error>"%string
              | Some second_token =>
                  Ret (if starts_with (string_bytes "HTTP/") first_bytes
                       then first_token ++ " " ++ second_token
                       else first_token ++ " [target redacted]")%string
              end
          end
      end
  end.

(** ** The framer never panics *)

Import JsonFraming TlsFraming.

(** The header of a chunk is looked for within the bytes. *)
Lemma digits_loop_spec rest : ∀ index size n e z,
  digits_loop rest index size n = Some (e, z) → in_u 64 size → (index <= e <= index + length rest)%nat ∧ in_u 64 z ∧
    (n = O → (index < e)%nat).
Proof.
  induction rest as [|b rest IH]; intros index size n e z; cbn [digits_loop length].
  - destruct n; [done|]. cbn. intros [= <- <-] Hs. split_and!; [lia..|done|done].
  - destruct (evaluate_hex_digit b).
    + destruct (n =? 8)%nat; [done|]. destruct (checked_mul _ _ _); [|done]. destruct (checked_add _ _ _) eqn:E; [|done].
      apply checked_add_Some in E as [-> Hin]. intros H _. apply IH in H as (H1 & H2 & _); [|done]. split_and!; [lia..|done|lia].
    + destruct n; [done|]. cbn. intros [= <- <-] Hs. split_and!; [lia..|done|done].
Qed.

Lemma header_at_spec line offset : (offset <= length line)%nat → ∃ o, header_at line offset = Ret o ∧
  ∀ k z, o = Some (k, z) → k = offset ∧ (k < length line)%nat ∧ in_u 64 z.
Proof.
  intros Ho. unfold header_at. destruct (parse_chunk_size_at line offset) as [[e z]|] eqn:E; [|by eexists].
  apply digits_loop_spec in E as (He & Hz & Hlt); [|unfold in_u; lia]. specialize (Hlt eq_refl).
  rewrite length_drop in He.
  destruct (Nat.eqb_spec e (length line)); [eexists; split; [done|]; intros ?? [= <- <-]; by split_and!; try lia|].
  destruct (index_Ret line e ltac:(lia)) as (b & -> & _). cbn [exec_bind].
  destruct (b =? 59); [|by eexists]. rewrite slice_tail_Ret by lia. cbn [exec_bind].
  eexists; split; [done|]. intros ??. case_match; [|done]. intros [= <- <-]. by split_and!; try lia.
Qed.

Lemma first_header_spec line offsets : Forall (fun o => o <= length line)%nat offsets →
  ∃ o, first_header line offsets = Ret o ∧ ∀ k z, o = Some (k, z) → (k < length line)%nat ∧ in_u 64 z.
Proof.
  induction 1 as [|offset offsets Ho _ IH] using Forall_ind; cbn [first_header]; [by eexists|].
  destruct (header_at_spec line offset Ho) as ([[k z]|] & -> & Hk); cbn [exec_bind]; [|done].
  eexists; split; [done|]. intros ?? [= <- <-]. by apply (Hk k z).
Qed.
Lemma parse_header_line_spec line : ∃ o, parse_chunk_header_line line = Ret o ∧
  ∀ k z, o = Some (k, z) → (k < length line)%nat ∧ in_u 64 z.
Proof. apply first_header_spec. apply Forall_seq. lia. Qed.

Lemma find_next_spec data : ∃ r, find_next_chunk_offset_length data = Ret r ∧
  match r with
  | Ok c => (col_offset c <= length data)%nat ∧ in_u 64 (col_length c) ∧ 3 ≤ col_length c
  | Err next => (next <= length data)%nat
  end.
Proof.
  unfold find_next_chunk_offset_length. destruct (index_of data CRLF) as [i|] eqn:E; [|eexists; split; [done|]; cbn; lia].
  apply index_of_bound in E. cbn [length CRLF] in E. destruct i as [|i]; [by eexists|].
  rewrite slice_Ret by lia. cbn [exec_bind]. rewrite Nat.sub_0_r, drop_0.
  destruct (parse_header_line_spec (take (S i) data)) as ([[k z]|] & -> & Hk); cbn [exec_bind];
    [|eexists; split; [done|]; cbn; lia].
  destruct (Hk k z eq_refl) as [Hlt Hz]. rewrite length_take in Hlt. eexists; split; [done|].
  destruct (checked_add 64 z _) eqn:E1; [|cbn; lia]. apply checked_add_Some in E1 as [-> H1].
  destruct (checked_add 64 _ 2) eqn:E2; [|cbn; lia]. apply checked_add_Some in E2 as [-> H2]. cbn.
  split; [lia|]. split; [done|]. unfold in_u in *. lia.
Qed.
Lemma chunk_loop_spec fuel : ∀ data acc,
  (acc <= length data)%nat → (length data < acc + fuel)%nat →
  ∃ o, chunk_loop fuel data acc = Ret o ∧
    ∀ c, o = Some c → (col_offset c <= length data)%nat ∧ in_u 64 (col_length c) ∧ 3 ≤ col_length c.
Proof.
  induction fuel as [|fuel IH]; intros data acc Ha Hf; [lia|]. cbn [chunk_loop].
  rewrite slice_tail_Ret by done. cbn [exec_bind].
  destruct (find_next_spec (drop acc data)) as (r & -> & Hr). cbn [exec_bind]. rewrite length_drop in Hr.
  destruct r as [c|[|next]].
  - eexists; split; [reflexivity|]. intros ? [= <-]. cbn. split; [lia|]. apply Hr.
  - by eexists.
  - apply IH; lia.
Qed.
Lemma find_chunk_offset_length_returns data : ∃ o, find_chunk_offset_length data = Ret o ∧
  ∀ c, o = Some c → (col_offset c <= length data)%nat ∧ in_u 64 (col_length c) ∧ 3 ≤ col_length c.
Proof. apply chunk_loop_spec; lia. Qed.

Lemma last_crlf_bound l i : last_crlf l = Some i → (i + 2 <= length l)%nat.
Proof.
  revert i. induction l as [|b l IH]; intros i; [done|]. cbn [last_crlf length].
  destruct (last_crlf l) as [j|]; [intros [= <-]; specialize (IH j eq_refl); lia|].
  destruct (starts_with CRLF (b :: l)) eqn:E; [|done]. intros [= <-].
  apply starts_with_spec in E as [rest H]. apply (f_equal length) in H. cbn in H. lia.
Qed.
Lemma find_incomplete_spec data : ∃ o, find_incomplete_chunk_header_offset data = Ret o ∧
  ∀ k, o = Some k → (k <= length data)%nat.
Proof.
  unfold find_incomplete_chunk_header_offset.
  set (line_start := match last_crlf data with Some offset => _ | None => _ end).
  assert (line_start <= length data)%nat as Hl.
  { unfold line_start. destruct (last_crlf data) eqn:E; [by apply last_crlf_bound|lia]. }
  rewrite slice_tail_Ret by done. cbn [exec_bind]. unfold partial_chunk_header_offset.
  destruct (first_header_spec (drop line_start data) (seq 0 (length (drop line_start data)))) as (o & -> & Ho);
    [apply Forall_seq; lia|]. cbn [exec_bind]. eexists; split; [done|]. intros k.
  destruct o as [[k' z]|]; [|done]. intros [= <-]. destruct (Ho k' z eq_refl) as [Hk _]. rewrite length_drop in Hk. lia.
Qed.

(** *** The state of the framer *)

(** Lengths are machine words, lines have their CRLF, a chunk that is being read
    has its size, and a chunked body has its progress. *)
Definition http_ok (s : HttpFramerState) : Prop :=
  in_u 64 (content_length s) ∧ Forall (fun l => 2 <= length l)%nat (lines s) ∧
  (transfer_encoding_chunked s = Chunk → chunk_progress_state s ≠ NoChunk) ∧
  (chunk_progress_state s = SeekingEndOfChunk → ∃ n, chunk_size s = Some n ∧ in_u 64 n).

(** The bytes the framer holds *)
Definition held (s : HttpFramerState) : list Z := concat (lines s) ++ data_so_far s.

(** What a call of the framer does to the bytes it holds: a frame has a byte at
    least, and what is held shrinks by it at least. *)
Definition took (s : HttpFramerState) (o : option FramedChunk) (s' : HttpFramerState) : Prop :=
  http_ok s' ∧
  match o with
  | Some fr => fc_chunk fr ≠ [] ∧ (length (held s') + length (fc_chunk fr) <= length (held s))%nat
  | None => (length (held s') <= length (held s))%nat
  end.

Lemma idle_ok data : http_ok (mkHttp data SeekingPacketStart 0 Standard NoChunk None []).
Proof. by split_and!; try constructor. Qed.
#[local] Hint Resolve idle_ok : core.

Lemma minimum_bound (P : nat → Prop) l m : Forall P l → minimum l = Some m → P m.
Proof.
  destruct l as [|x l]; [done|]. intros [Hx Hl]%Forall_cons_1 [= <-]. revert x Hx.
  induction Hl as [|y l Hy _ IH] using Forall_ind; intros x Hx; [done|]. cbn. apply IH.
  destruct (Nat.min_spec x y) as [[_ ->]|[_ ->]]; done.
Qed.

Lemma seek_packet_start_spec s : http_ok s → ∃ b s', seek_packet_start s = Ret (b, s') ∧ http_ok s' ∧
  transfer_encoding_chunked s' = transfer_encoding_chunked s ∧
  (length (held s') <= length (held s))%nat.
Proof.
  intros (H1 & H2 & H3 & H4). unfold seek_packet_start. case_bool_decide; [|by eexists _, _].
  destruct (minimum _) as [m|] eqn:E.
  - assert (m <= length (data_so_far s))%nat as Hm.
    { eapply (minimum_bound (fun m => m <= length (data_so_far s))%nat); [|done].
      apply List.Forall_forall. intros i. rewrite <- list_elem_of_In. intros (method & _ & Hi)%list_elem_of_omap. apply index_of_bound in Hi. lia. }
    rewrite split_off_Ret by done. cbn [exec_bind snd]. eexists _, _. split; [reflexivity|].
    split; [by split_and!; try constructor|]. split; [done|]. unfold held. cbn. rewrite length_app, length_drop. lia.
  - rewrite split_off_Ret by (case_match; lia). cbn [exec_bind snd]. eexists _, _. split; [reflexivity|].
    split; [by split_and!|]. split; [done|]. unfold held. cbn. rewrite !length_app, length_drop. lia.
Qed.

Lemma content_length_spec line s : http_ok s → ∃ b s', check_for_content_length line s = (b, s') ∧ http_ok s' ∧
  data_so_far s' = data_so_far s ∧ (lines s' = lines s ∨ lines s' = []) ∧
  (transfer_encoding_chunked s' = transfer_encoding_chunked s ∨ transfer_encoding_chunked s' = Standard) ∧
  (b = true → lines s' = lines s ∧ packet_progress_state s' = packet_progress_state s).
Proof.
  intros Hs. unfold check_for_content_length, parse_usize, discard_current_request. repeat case_match;
    eexists _, _; (split; [reflexivity|]); simplify_eq; split_and!; auto; try done.
  all: destruct Hs as (? & ? & ? & ?); try done; case_bool_decide; by simplify_eq.
Qed.

Lemma transfer_encoding_spec line s : http_ok s → ∃ b s', check_for_transfer_encoding line s = (b, s') ∧ http_ok s' ∧
  data_so_far s' = data_so_far s ∧ (lines s' = lines s ∨ lines s' = []) ∧
  (transfer_encoding_chunked s' = transfer_encoding_chunked s ∨ transfer_encoding_chunked s' ≠ Chunk) ∧
  (b = true → lines s' = lines s ∧ packet_progress_state s' = packet_progress_state s).
Proof.
  intros Hs. unfold check_for_transfer_encoding, discard_current_request. repeat case_match;
    eexists _, _; (split; [reflexivity|]); simplify_eq; split_and!; auto; try done.
  all: destruct Hs as (? & ? & ? & ?); done.
Qed.

Lemma body_start_spec fuel : ∀ s, http_ok s → (length (data_so_far s) < fuel)%nat → transfer_encoding_chunked s ≠ Chunk →
  ∃ b s', body_start_loop fuel s = Ret (b, s') ∧ http_ok s' ∧ (length (held s') <= length (held s))%nat ∧
    transfer_encoding_chunked s' ≠ Chunk.
Proof.
  induction fuel as [|fuel IH]; intros s Hs Hf Hc; [lia|]. cbn [body_start_loop].
  case_bool_decide as Hp; [|by eexists _, _; split_and!].
  destruct (index_of (data_so_far s) CRLF) as [i|] eqn:E.
  - apply index_of_bound in E. cbn [length CRLF] in E.
    case_match; [eexists _, _; split_and!; [done|apply idle_ok|cbn; lia|done]|].
    rewrite split_off_Ret by lia. cbn [exec_bind fst snd]. set (s0 := with_data _ s). set (line := take _ _).
    assert (http_ok s0) as Hs0 by done.
    assert (length line = i + 2)%nat as Hline by (unfold line; rewrite length_take; lia).
    assert (length (held s0) + length line = length (held s))%nat as Hheld.
    { unfold held, s0. cbn. rewrite Hline, !length_app, length_drop. lia. }
    destruct (content_length_spec line s0 Hs0) as (b1 & s1 & -> & Hs1 & Hd1 & Hl1 & He1 & Hb1).
    assert (length (held s1) <= length (held s0))%nat.
    { unfold held. rewrite Hd1, !length_app. destruct Hl1 as [-> | ->]; cbn; lia. }
    assert (transfer_encoding_chunked s1 ≠ Chunk) by (destruct He1 as [-> | ->]; done).
    destruct b1; cbn [negb]; [|eexists _, _; split_and!; [done..|lia|done]].
    destruct (transfer_encoding_spec line s1 Hs1) as (b2 & s2 & -> & Hs2 & Hd2 & Hl2 & He2 & Hb2).
    assert (length (held s2) <= length (held s1))%nat.
    { unfold held. rewrite Hd2, !length_app. destruct Hl2 as [-> | ->]; cbn; lia. }
    assert (transfer_encoding_chunked s2 ≠ Chunk) by (destruct He2 as [-> | ?]; done).
    destruct b2; cbn [negb]; [|eexists _, _; split_and!; [done..|lia|done]].
    assert (∀ p, http_ok (with_lines (lines s2 ++ [line]) (with_progress p s2))) as Hok.
    { intros p. destruct Hs2 as (? & ? & ? & ?). split_and!; try done. cbn. apply Forall_app. split; [done|].
      constructor; [lia|done]. }
    assert (∀ p, length (held (with_lines (lines s2 ++ [line]) (with_progress p s2))) <= length (held s))%nat as Hle.
    { intros p. unfold held in *. cbn. rewrite concat_app, !length_app in *. cbn. rewrite app_nil_r. lia. }
    unfold check_for_zero_length. destruct (length line =? 2)%nat eqn:Ez; cbn [negb].
    + eexists _, _. split_and!; [done|apply Hok|apply Hle|done].
    + destruct (IH (with_lines (lines s2 ++ [line]) s2)) as (b & s' & -> & ? & ? & ?).
      * apply (Hok (packet_progress_state s2)).
      * cbn. rewrite Hd2, Hd1. cbn. rewrite length_drop. lia.
      * done.
      * eexists _, _. split_and!; [done..| |done]. pose proof (Hle (packet_progress_state s2)).
        assert (held (with_lines (lines s2 ++ [line]) (with_progress (packet_progress_state s2) s2))
          = held (with_lines (lines s2 ++ [line]) s2)) as Heq by done. rewrite Heq in *. lia.
  - case_match; eexists _, _; split_and!; [done|apply idle_ok|cbn; lia|done|done..].
Qed.

Lemma concat_nonempty (ls : list (list Z)) : Forall (fun l => 2 <= length l)%nat ls → ls ≠ [] → (2 <= length (concat ls))%nat.
Proof. destruct ls as [|l ls]; [done|]. intros [Hl _]%Forall_cons_1 _. cbn. rewrite length_app. lia. Qed.

Lemma took_none s : http_ok s → took s None s.
Proof. intros Hs. by split. Qed.

Lemma seek_body_end_spec s : http_ok s → transfer_encoding_chunked s ≠ Chunk →
  ∃ o s', seek_body_end s = Ret (o, s') ∧ took s ((fun r => mkFramed r false) <$> o) s'.
Proof.
  intros Hs Hc. pose proof Hs as (H1 & H2 & H3 & H4). unfold seek_body_end.
  case_bool_decide; cbn [negb]; [|eexists _, _; split; [done|]; by apply took_none].
  set (n := Z.to_nat _). assert ((n <= length (data_so_far s))%nat ∧ Z.of_nat n ≤ content_length s) as [Hn Hn'].
  { unfold n, in_u in *. lia. }
  case_match eqn:E; [eexists _, _; split; [done|]; by apply took_none|]. rewrite split_off_Ret by done. cbn [exec_bind fst snd].
  unfold usize_sub. rewrite (proj2 (Z.leb_le _ _)) by (cbn; rewrite length_take; lia). cbn [exec_bind].
  eexists _, _. split; [reflexivity|]. cbn [content_length with_data lines with_content_length] in *.
  rewrite length_take, Nat.min_l by done. unfold took. cbn [fmap option_fmap option_map fc_chunk].
  split; [|split].
  - repeat case_match; unfold http_ok, in_u in *; cbn; split_and!; try constructor; try done; lia.
  - intros Hnil. apply (f_equal length) in Hnil. rewrite length_app, length_take, Nat.min_l in Hnil by done. cbn in Hnil.
    destruct (lines s) eqn:El; [|pose proof (concat_nonempty _ H2 ltac:(done)); lia].
    cbn in E. apply Nat.eqb_neq in E. lia.
  - rewrite length_app, length_take. unfold held. rewrite !length_app.
    repeat case_match; cbn; rewrite length_drop; lia.
Qed.

Lemma take_packet_frame_spec s : http_ok s → transfer_encoding_chunked s ≠ Chunk →
  ∃ o s', take_packet_frame s = Ret (o, s') ∧ took s o s'.
Proof.
  intros Hs Hc. unfold take_packet_frame.
  assert (∃ b s1, (if bool_decide (packet_progress_state s = SeekingPacketStart) then seek_packet_start s else Ret (true, s))
    = Ret (b, s1) ∧ http_ok s1 ∧ transfer_encoding_chunked s1 ≠ Chunk ∧ (length (held s1) <= length (held s))%nat)
    as (b1 & s1 & -> & Hs1 & Hc1 & Hl1).
  { case_bool_decide; [|by eexists _, _]. destruct (seek_packet_start_spec s Hs) as (b & s1 & -> & ? & He & ?).
    eexists _, _. rewrite He. by split_and!. }
  cbn [exec_bind]. destruct b1; cbn [negb]; [|by eexists _, _].
  assert (∃ b s2, (if bool_decide (packet_progress_state s1 = SeekingBodyStart) then seek_body_start s1 else Ret (true, s1))
    = Ret (b, s2) ∧ http_ok s2 ∧ transfer_encoding_chunked s2 ≠ Chunk ∧ (length (held s2) <= length (held s1))%nat)
    as (b2 & s2 & -> & Hs2 & Hc2 & Hl2).
  { case_bool_decide; [|by eexists _, _]. destruct (body_start_spec (S (length (data_so_far s1))) s1) as (b & s2 & Hb & ? & ? & ?);
      [done|lia|done|]. eexists _, _. by split_and!. }
  cbn [exec_bind]. destruct b2; cbn [negb]; [|eexists _, _; split; [done|]; split; [done|]; lia].
  case_bool_decide; [|eexists _, _; split; [done|]; split; [done|]; lia].
  destruct (seek_body_end_spec s2 Hs2 Hc2) as (o & s3 & -> & Hok & Ho). cbn [exec_bind fst snd].
  eexists _, _. split; [done|]. split; [done|]. destruct o; cbn in *; [split; [by apply Ho|]|]; lia.
Qed.

(** *** Chunks *)

Lemma length_header_spec s : http_ok s → ∃ b s', length_header_step s = Ret (b, s') ∧
  http_ok s' ∧ (length (held s') <= length (held s))%nat ∧
  (b = true → chunk_progress_state s' = SeekingEndOfFinalChunk ∨
     chunk_progress_state s' = SeekingEndOfChunk ∧ ∃ n, chunk_size s' = Some n ∧ in_u 64 n ∧ 1 ≤ n).
Proof.
  intros (H1 & H2 & H3 & H4). unfold length_header_step.
  assert (∀ n, http_ok (with_data (drop n (data_so_far s)) s) ∧
    (length (held (with_data (drop n (data_so_far s)) s)) <= length (held s))%nat) as Hdrop.
  { intros n. split; [by split_and!|]. unfold held. cbn. rewrite !length_app, length_drop. lia. }
  destruct (find_chunk_offset_length_returns (data_so_far s)) as ([c|] & -> & Hfound); cbn [exec_bind].
  - destruct (Hfound c eq_refl) as (Ho & Hl & Hl3). rewrite split_off_Ret by done. cbn [exec_bind snd].
    eexists _, _. split; [reflexivity|]. destruct (Hdrop (col_offset c)) as [(_ & _ & Hc3 & _) Hle].
    destruct (col_chunk_size c =? 0); (split; [split_and!; try done; cbn; intros; by eauto|]); (split; [done|]); intros _.
    + by left.
    + right. cbn. split; [done|]. exists (col_length c). split_and!; [done..|apply Hl|lia].
  - case_match; [eexists _, _; split_and!; [done|apply idle_ok|cbn; lia|done]|].
    destruct (find_incomplete_spec (data_so_far s)) as ([k|] & -> & Hk); cbn [exec_bind].
    + rewrite split_off_Ret by auto. cbn [exec_bind snd]. eexists _, _. split_and!; [reflexivity|apply Hdrop|apply Hdrop|done].
    + case_match; [|by eexists _, _; split_and!]. rewrite split_off_Ret by lia. cbn [exec_bind snd].
      eexists _, _. split_and!; [reflexivity|apply Hdrop|apply Hdrop|done].
Qed.

Lemma end_of_chunk_spec s n : http_ok s → chunk_size s = Some n → in_u 64 n →
  ∃ r s', end_of_chunk_step s = Ret (r, s') ∧ http_ok s' ∧
  match r with
  | Ok o => took s o s'
  | Err _ => n = 0 ∧ (length (held s') <= length (held s))%nat ∧ chunk_progress_state s' = SeekingLengthHeader
  end.
Proof.
  intros (H1 & H2 & H3 & H4) Hn Hu. unfold end_of_chunk_step. rewrite Hn. cbn [expect exec_bind].
  set (complete := match checked_add 64 n 2 with Some _ => _ | None => _ end).
  destruct complete eqn:Ec; cbn [negb].
  - unfold complete in Ec. destruct (checked_add 64 n 2) as [c|] eqn:E; [|done]. apply checked_add_Some in E as [-> Hc].
    apply Z.leb_le in Ec. cbn [expect exec_bind]. unfold in_u in Hu.
    rewrite split_off_Ret by lia. cbn [exec_bind fst snd]. set (chunk := take _ _). set (s0 := with_data _ s).
    assert (length chunk = Z.to_nat (n + 2)) as Hlc by (unfold chunk; rewrite length_take; lia).
    assert (∀ d, length d = length (data_so_far s0) ∨ length d = S (S (length (data_so_far s0))) →
      http_ok (with_chunk SeekingLengthHeader None (with_data d s0))) as Hok by (intros; by split_and!).
    assert (length (held s0) + length chunk = length (held s))%nat as Hh.
    { unfold held, s0. cbn. rewrite Hlc, !length_app, length_drop. lia. }
    destruct (ends_with chunk CRLF); cbn [negb exec_bind].
    + eexists _, _. split; [reflexivity|]. split; [by split_and!|]. destruct chunk as [|b rest] eqn:Eb; [cbn in Hlc; lia|].
      split; [by split_and!|]. cbn [fc_chunk]. split; [done|].
      change (held (with_chunk SeekingLengthHeader None s0)) with (held s0). lia.
    + destruct (index_Ret chunk (length chunk - 1) ltac:(lia)) as (last & -> & _).
      destruct (index_Ret chunk (length chunk - 2) ltac:(lia)) as (before & -> & _). cbn [exec_bind].
      eexists _, _. split; [reflexivity|]. split; [by split_and!|].
      assert (length (take (length chunk - 2) chunk) = Z.to_nat n) as Ht by (rewrite length_take; lia).
      destruct (take (length chunk - 2) chunk) as [|b body] eqn:Eb.
      * split; [cbn in Ht; lia|]. split; [|done]. unfold held in *. cbn in *. rewrite !length_app in *. cbn. lia.
      * split; [by split_and!|]. split; [done|]. cbn [fc_chunk]. rewrite Ht. unfold held in *. cbn in *. rewrite !length_app in *.
        cbn. lia.
  - case_match eqn:Es.
    + eexists _, _. split; [reflexivity|]. split; [by split_and!|]. split; [by split_and!|]. lia.
    + apply orb_false_elim in Es as [Es1 Es2]. apply Z.eqb_neq in Es1. apply Nat.eqb_neq in Es2. unfold in_u in Hu.
      set (t := Z.to_nat _). assert ((t <= length (data_so_far s))%nat ∧ (1 <= t)%nat ∧ Z.of_nat t ≤ n) as (Ht & Ht1 & Htn)
        by (unfold t; lia).
      rewrite split_off_Ret by done. cbn [exec_bind fst snd].
      unfold usize_sub. rewrite length_take, Nat.min_l, (proj2 (Z.leb_le _ _)) by lia. cbn [exec_bind].
      eexists _, _. split; [reflexivity|].
      assert (http_ok (with_chunk (chunk_progress_state (with_data (drop t (data_so_far s)) s)) (Some (n - Z.of_nat t))
        (with_data (drop t (data_so_far s)) s))) as Hok.
      { split_and!; try done. cbn. intros _. eexists; split; [done|]. unfold in_u. lia. }
      split; [done|]. split; [done|]. cbn [fc_chunk]. split.
      * intros Hnil. apply (f_equal length) in Hnil. rewrite length_take in Hnil. cbn in Hnil. lia.
      * rewrite length_take. unfold held. cbn. rewrite !length_app, length_drop. lia.
Qed.

Lemma final_chunk_spec s : http_ok s → ∃ o s', final_chunk_step s = Ret (o, s') ∧ took s o s'.
Proof.
  intros (H1 & H2 & H3 & H4). unfold final_chunk_step. destruct (index_of _ _) as [i|] eqn:E.
  - apply index_of_bound in E. cbn in E. rewrite split_off_Ret by lia. cbn [exec_bind fst snd].
    eexists _, _. split; [reflexivity|]. split; [by split_and!|]. cbn [fc_chunk]. split.
    + intros Hnil. apply (f_equal length) in Hnil. rewrite length_take in Hnil. cbn in Hnil. lia.
    + rewrite length_take. unfold held. cbn. rewrite !length_app, length_drop. lia.
  - eexists _, _. split; [reflexivity|]. case_match; (split; [first [apply idle_ok|by split_and!]|cbn; lia]).
Qed.

Lemma took_less s s' o s'' : (length (held s') <= length (held s))%nat → took s' o s'' → took s o s''.
Proof. intros Hle [Hok Ho]. split; [done|]. destruct o; [split; [apply Ho|]; destruct Ho|]; lia. Qed.

(** The three functions that call each other end. *)
Lemma chunk_loop_sized fuel s n : http_ok s → chunk_progress_state s = SeekingEndOfChunk → chunk_size s = Some n →
  in_u 64 n → 1 ≤ n → ∃ o s', chunk_frame_loop (S fuel) s = Ret (o, s') ∧ took s o s'.
Proof.
  intros Hs Hp Hn Hu H1. cbn [chunk_frame_loop]. rewrite Hp.
  destruct (end_of_chunk_spec s n Hs Hn Hu) as ([o|[]] & s' & -> & Hs' & Ho); cbn [exec_bind]; [by eexists _, _|lia].
Qed.
Lemma chunk_loop_header fuel s : http_ok s → chunk_progress_state s = SeekingLengthHeader →
  ∃ o s', chunk_frame_loop (S (S fuel)) s = Ret (o, s') ∧ took s o s'.
Proof.
  intros Hs Hp. remember (S fuel) as fuel' eqn:Ef. cbn [chunk_frame_loop]. rewrite Hp.
  destruct (length_header_spec s Hs) as (b & s1 & -> & Hs1 & Hle & Hb). cbn [exec_bind].
  destruct b; [|by eexists _, _]. destruct (Hb eq_refl) as [Hf|(Hc & n & Hn & Hu & H1)]; subst fuel'.
  - cbn [chunk_frame_loop]. rewrite Hf. destruct (final_chunk_spec s1 Hs1) as (o & s' & -> & Ho). eauto using took_less.
  - destruct (chunk_loop_sized fuel s1 n Hs1 Hc Hn Hu H1) as (o & s' & -> & Ho). eauto using took_less.
Qed.
Lemma take_chunk_frame_returns s : http_ok s → chunk_progress_state s ≠ NoChunk →
  ∃ o s', take_chunk_frame s = Ret (o, s') ∧ took s o s'.
Proof.
  intros Hs Hp. unfold take_chunk_frame. destruct (chunk_progress_state s) eqn:E; [done|by apply chunk_loop_header| |].
  - destruct Hs as (H1 & H2 & H3 & H4). destruct (H4 E) as (n & Hn & Hu). remember 3%nat as fuel. cbn [chunk_frame_loop]. rewrite E.
    destruct (end_of_chunk_spec s n ltac:(done) Hn Hu) as ([o|[]] & s' & -> & Hs' & Ho); cbn [exec_bind]; [by eexists _, _|].
    destruct Ho as (_ & Hle & Hc). subst fuel. destruct (chunk_loop_header 1 s' Hs' Hc) as (o & s'' & -> & Ho).
    eauto using took_less.
  - remember 3%nat as fuel. cbn [chunk_frame_loop]. rewrite E. by apply final_chunk_spec.
Qed.

(** The framer returns from every call. *)
Lemma http_take_frame_spec s : http_ok s → ∃ o s', http_take_frame s = Ret (o, s') ∧ took s o s'.
Proof.
  intros Hs. unfold http_take_frame. case_bool_decide as Hc; [|by apply take_packet_frame_spec].
  apply take_chunk_frame_returns; [done|]. by apply Hs.
Qed.
Lemma http_add_data_ok data s : http_ok s → http_ok (http_add_data data s).
Proof. done. Qed.

(** What is logged of a packet can always be said. *)
Lemma summarize_returns request : ∃ t, summarize_http_packet request = Ret t.
Proof.
  assert (∀ needle l i, position needle l = Some i → (i < length l)%nat) as Hpos.
  { intros needle. induction l as [|b l IH]; intros i; [done|]. cbn. case_match; [intros [= <-]; lia|].
    destruct (position needle l) as [j|]; [|done]. intros [= <-]. specialize (IH j eq_refl). lia. }
  assert (∀ needle a i, index_of_from request needle a = Some i → (a <= i < length request)%nat) as Hidx.
  { intros needle a i. unfold index_of_from. destruct (position needle _) as [j|] eqn:E; [|done].
    apply Hpos in E. rewrite length_drop in E. cbn. intros [= <-]. lia. }
  unfold summarize_http_packet. destruct (index_of_from _ _ 0) as [i|] eqn:E1; [|by eexists].
  destruct (index_of_from _ _ (i + 1)) as [j|] eqn:E2; [|by eexists].
  apply Hidx in E1, E2. rewrite slice_Ret by lia. cbn [exec_bind]. destruct (from_utf8 _); [|by eexists].
  rewrite slice_Ret by lia. cbn [exec_bind]. destruct (from_utf8 _); by eexists.
Qed.
