(* ===== verification/HttpFraming.v ===== *)
(** * Requests come out of the framer as they went in

    A stream of well-formed requests, with bodies of a declared length or in
    chunks, cut into reads at any place: the framer of HttpFramer hands out all
    of its bytes, in order and once, and holds none back when the last request
    is complete. *)

From Stdlib Require Import ZArith Lia String Ascii.
From stdpp Require Import base list numbers option.
From S2P Require Import Prelude Text ProtocolPack ProtocolHosts Framers HttpFramer.
Import JsonFraming TlsFraming.

Local Open Scope Z_scope.
Local Open Scope rust_scope.
Local Open Scope list_scope.

(** ** Requests *)

(** A body with a declared length, or chunks, each with its size in
    hexadecimal *)
Inductive Body := Sized (bytes : list Z) | Chunked (chunks : list (list Z * list Z)).
Record HttpRequest := mkRequest { rq_lines : list (list Z); rq_body : Body }.

Definition line_text (l : list Z) : list Z := l ++ CRLF.
Definition chunk_text (c : list Z * list Z) : list Z := c.1 ++ CRLF ++ c.2 ++ CRLF.
Definition chunks_text (cs : list (list Z * list Z)) : list Z := concat (map chunk_text cs) ++ [48] ++ DOUBLE_CRLF.
Definition body_text (b : Body) : list Z := match b with Sized bytes => bytes | Chunked cs => chunks_text cs end.
Definition header_text (ls : list (list Z)) : list Z := concat (map line_text ls).
Definition request_text (r : HttpRequest) : list Z := header_text (rq_lines r) ++ CRLF ++ body_text (rq_body r).
Definition texts (rs : list HttpRequest) : list Z := concat (map request_text rs).

(** The number a text of hexadecimal digits stands for *)
Fixpoint hex_number (acc : Z) (ds : list Z) : option Z :=
  match ds with
  | [] => Some acc
  | d :: ds => match evaluate_hex_digit d with Some x => hex_number (acc * 16 + x) ds | None => None end
  end.
Definition chunk_header (hex : list Z) (size : Z) : Prop := hex ≠ [] ∧ (length hex <= 8)%nat ∧ hex_number 0 hex = Some size.
Definition chunk_ok (c : list Z * list Z) : Prop := c.2 ≠ [] ∧ chunk_header c.1 (Z.of_nat (length c.2)).

Definition chunked_value (value : list Z) : bool :=
  existsb (fun encoding => eq_ignore_ascii_case (trim encoding) (string_bytes "chunked")) (split_at 44 value).
Definition chunked_line (l : list Z) : bool :=
  match header_value (line_text l) Transfer_Encoding with Some value => chunked_value value | None => false end.
Definition declared (ls : list (list Z)) : list (list Z) := omap (fun l => header_value (line_text l) Content_Length) ls.
Definition number_of (value : list Z) : option Z :=
  match from_utf8 value with Some t => parse_usize t | None => None end.

(** The lines say how the body is read: a length, once, or no length and no
    body; or the encoding is chunked. *)
Definition body_ok (ls : list (list Z)) (b : Body) : Prop :=
  match b with
  | Sized bytes =>
      Forall (fun l => header_value (line_text l) Transfer_Encoding = None) ls ∧
      (declared ls = [] ∧ bytes = [] ∨ ∃ value, declared ls = [value] ∧ number_of value = Some (Z.of_nat (length bytes)))
  | Chunked cs =>
      declared ls = [] ∧ Exists (fun l => chunked_line l = true) ls ∧ Forall chunk_ok cs ∧
      Forall (fun l => ∀ value, header_value (line_text l) Transfer_Encoding = Some value → is_Some (from_utf8 value)) ls
  end.
Definition well_formed (r : HttpRequest) : Prop :=
  (∃ method first rest, rq_lines r = (method ++ first) :: rest ∧ method ∈ METHODS) ∧
  Forall (fun l => no_cr l ∧ l ≠ []) (rq_lines r) ∧
  Z.of_nat (length (header_text (rq_lines r) ++ CRLF)) ≤ MAX_HTTP_HEADER_BYTES ∧
  body_ok (rq_lines r) (rq_body r).

(** ** Where the framer is in a stream *)

(** What the lines seen so far have told the framer *)
Definition seen_chunked (ls : list (list Z)) : bool := existsb chunked_line ls.
Definition seen_length (ls : list (list Z)) : Z :=
  match declared ls with value :: _ => default 0 (number_of value) | [] => 0 end.
Definition in_header (p : PacketProgressState) (d : list Z) (ls : list (list Z)) (texts : list (list Z)) : HttpFramerState :=
  mkHttp d p (seen_length ls) (if seen_chunked ls then ChunkedResponse else Standard)
    (if seen_chunked ls then SeekingLengthHeader else NoChunk) None texts.

Definition at_start (d : list Z) : HttpFramerState := mkHttp d SeekingPacketStart 0 Standard NoChunk None [].
Definition at_body (d : list Z) (n : Z) : HttpFramerState := mkHttp d SeekingBodyEnd n Standard NoChunk None [].
Definition at_chunk (d : list Z) (p : ChunkProgressState) (n : option Z) : HttpFramerState :=
  mkHttp d SeekingPacketStart 0 Chunk p n [].

(** [position s t]: the framer is at [s], and [t] is the stream from the first
    byte it has not put into a line on. *)
Inductive position : HttpFramerState → list Z → Prop :=
| p_start d rs : Forall well_formed rs → position (at_start d) (texts rs)
| p_header d r ls todo rs :
    well_formed r → rq_lines r = ls ++ todo → Forall well_formed rs →
    position (in_header SeekingBodyStart d ls (map line_text ls))
      (header_text todo ++ CRLF ++ body_text (rq_body r) ++ texts rs)
| p_body d body rs : body ≠ [] → Z.of_nat (length body) < 2 ^ 64 → Forall well_formed rs →
    position (at_body d (Z.of_nat (length body))) (body ++ texts rs)
| p_chunk d cs rs : Forall chunk_ok cs → Forall well_formed rs →
    position (at_chunk d SeekingLengthHeader None) (chunks_text cs ++ texts rs)
| p_data d x cs rs : Z.of_nat (length x) + 2 < 2 ^ 64 → Forall chunk_ok cs → Forall well_formed rs →
    position (at_chunk d SeekingEndOfChunk (Some (Z.of_nat (length x)))) (x ++ CRLF ++ chunks_text cs ++ texts rs)
| p_final d rs : Forall well_formed rs →
    position (at_chunk d SeekingEndOfFinalChunk None) (48 :: DOUBLE_CRLF ++ texts rs).

(** What a call of the framer does, when [q] is still to come: a frame is the
    next part of the stream, and without one nothing is lost, and nothing is
    held if nothing is to come. *)
Definition advances (s : HttpFramerState) (o : option FramedChunk) (s' : HttpFramerState) (q : list Z) : Prop :=
  position s' (data_so_far s' ++ q) ∧
  match o with
  | Some fr => held s = fc_chunk fr ++ held s'
  | None => held s = held s' ∧ (q = [] → held s' = [])
  end.

(** ** Bytes *)

Lemma cut (d q a b : list Z) : d ++ q = a ++ b →
  (∃ d', d = a ++ d' ∧ b = d' ++ q) ∨ (∃ a', a' ≠ [] ∧ a = d ++ a' ∧ q = a' ++ b).
Proof.
  intros H. destruct (decide (length a <= length d)%nat) as [Hle|Hlt].
  - left. exists (drop (length a) d). pose proof (f_equal (take (length a)) H) as Ht.
    rewrite take_app_le, take_app_length in Ht by done. split; [by rewrite <- Ht, take_drop at 1|].
    pose proof (f_equal (drop (length a)) H) as Hd. by rewrite drop_app_le, drop_app_length in Hd by done.
  - right. exists (drop (length d) a). pose proof (f_equal (take (length d)) H) as Ht.
    rewrite take_app_length, take_app_le in Ht by lia. split_and!.
    + intros Hnil. apply (f_equal length) in Hnil. rewrite length_drop in Hnil. cbn in Hnil. lia.
    + by rewrite Ht, take_drop at 1.
    + pose proof (f_equal (drop (length d)) H) as Hd. by rewrite drop_app_length, drop_app_le in Hd by lia.
Qed.

Lemma index_line l rest : no_cr l → index_of (l ++ CRLF ++ rest) CRLF = Some (length l).
Proof. intros Hl. change (index_of ?h CRLF) with (index_from h (13 :: 10 :: [])). by rewrite index_from_break. Qed.
Lemma index_line_cut l d a : no_cr l → l ++ CRLF = d ++ a → a ≠ [] → index_of d CRLF = None.
Proof.
  intros Hl H Ha. change (index_of ?h CRLF) with (index_from h (13 :: 10 :: [])).
  symmetry in H. apply cut in H as [(d' & -> & H)|(l' & _ & -> & H)].
  - rewrite index_from_skip by done. destruct d' as [|b [|b' d']]; [done| |].
    + injection H as <- H. done.
    + injection H as <- <- H. by destruct d', a.
  - apply Forall_app in Hl as [Hd _]. rewrite <- (app_nil_r d), index_from_skip by done. done.
Qed.

Lemma ends_with_app x y : ends_with (x ++ y) y = true.
Proof. unfold ends_with. apply starts_with_spec. rewrite reverse_app. by eexists. Qed.

(** ** The lines of a header *)

Lemma declared_app ls l : declared (ls ++ l) = declared ls ++ declared l.
Proof. apply omap_app. Qed.
Lemma seen_chunked_app ls l : seen_chunked (ls ++ l) = seen_chunked ls || seen_chunked l.
Proof. apply existsb_app. Qed.
Lemma declared_none ls : declared ls = [] →
  existsb (fun l => is_some (header_value l Content_Length)) (map line_text ls) = false.
Proof.
  unfold declared. induction ls as [|l ls IH]; [done|]. cbn [omap list_omap map existsb].
  destruct (header_value (line_text l) Content_Length); [done|]. by apply IH.
Qed.

(** A line of the header is read as the request means it. *)
Lemma line_checked r d ls l todo :
  well_formed r → rq_lines r = ls ++ l :: todo → ∃ s,
  check_for_content_length (line_text l) (in_header SeekingBodyStart d ls (map line_text ls)) = (true, s) ∧
  check_for_transfer_encoding (line_text l) s = (true, in_header SeekingBodyStart d (ls ++ [l]) (map line_text ls)).
Proof.
  intros (_ & _ & _ & Hb) Hls. unfold check_for_content_length, check_for_transfer_encoding.
  assert (declared (rq_lines r) = declared ls ++ option_list (header_value (line_text l) Content_Length) ++ declared todo) as Hd.
  { rewrite Hls, declared_app. f_equal; cbn; by destruct (header_value _ _). }
  assert (declared (ls ++ [l]) = declared ls ++ option_list (header_value (line_text l) Content_Length)) as Hd'.
  { rewrite declared_app. f_equal; cbn; by destruct (header_value _ _). }
  assert (seen_chunked (ls ++ [l]) = seen_chunked ls || chunked_line l) as Hc'.
  { rewrite seen_chunked_app. cbn. by rewrite orb_false_r. }
  destruct (rq_body r) as [bytes|cs]; cbn [body_ok] in Hb.
  - destruct Hb as [Hte Hcl]. rewrite Hls in Hte. apply Forall_app in Hte as [Hte1 [Hte2 _]%Forall_cons_1].
    assert (seen_chunked ls = false) as Hc.
    { clear -Hte1. induction Hte1 as [|x ls Hx _ IH] using Forall_ind; [done|]. cbn. unfold chunked_line. by rewrite Hx. }
    assert (seen_chunked (ls ++ [l]) = false) as Hc2 by (rewrite Hc', Hc; unfold chunked_line; by rewrite Hte2).
    destruct (header_value (line_text l) Content_Length) as [value|].
    + destruct Hcl as [[Hcl _]|(value' & Hcl & Hn)]; rewrite Hcl in Hd; [by destruct (declared ls)|].
      assert (declared ls = [] ∧ value' = value) as [Hnone ->].
      { destruct (declared ls) as [|x xs]; cbn in Hd; [by injection Hd|]. injection Hd as _ Hd. by destruct xs. }
      cbn [in_header lines transfer_encoding_chunked]. rewrite declared_none, Hc by done. cbn [bool_decide negb].
      unfold number_of in Hn. destruct (from_utf8 value) as [t|] eqn:Eu; [|done]. rewrite Hn.
      eexists; split; [reflexivity|]. rewrite Hte2. unfold in_header, seen_length.
      rewrite Hc, Hc2, Hd', Hnone. change (option_list (Some value)) with [value]. cbn [app]. unfold number_of. by rewrite Eu, Hn.
    + eexists; split; [reflexivity|]. rewrite Hte2. unfold in_header, seen_length. by rewrite Hc, Hc2, Hd', app_nil_r.
  - destruct Hb as (Hnone & _ & _ & Hutf). rewrite Hnone in Hd.
    assert (declared ls = [] ∧ header_value (line_text l) Content_Length = None) as [Hdl Hcl].
    { destruct (declared ls); [|done]. by destruct (header_value _ _). }
    rewrite Hcl in Hd' |- *. eexists; split; [reflexivity|].
    rewrite Hls in Hutf. apply Forall_app in Hutf as [_ [Hutf _]%Forall_cons_1].
    unfold in_header, seen_length. rewrite Hd', Hdl, Hc'. cbn [app option_list]. unfold chunked_line.
    destruct (header_value (line_text l) Transfer_Encoding) as [value|]; [|by rewrite orb_false_r].
    destruct (Hutf value eq_refl) as [t ->]. fold (chunked_value value).
    destruct (chunked_value value); [|by rewrite orb_false_r]. rewrite orb_true_r. reflexivity.
Qed.

Lemma total_bytes_sum ls : ∀ n, 0 ≤ n → n + Z.of_nat (length (concat ls)) < 2 ^ 64 →
  total_bytes n ls = Some (n + Z.of_nat (length (concat ls))).
Proof.
  induction ls as [|l ls IH]; intros n Hn Hlt; cbn [total_bytes concat length] in *; [f_equal; lia|].
  rewrite length_app in Hlt. unfold checked_add. rewrite decide_True by (unfold in_u; lia).
  rewrite IH by lia. f_equal. rewrite length_app. lia.
Qed.
Lemma header_fits s n : Z.of_nat (length (concat (lines s)) + n) ≤ MAX_HTTP_HEADER_BYTES →
  header_bytes_would_exceed_limit n s = false.
Proof.
  intros H. unfold header_bytes_would_exceed_limit, MAX_HTTP_HEADER_BYTES in *. rewrite total_bytes_sum by lia.
  unfold checked_add. rewrite decide_True by (unfold in_u; lia). apply Z.ltb_ge. lia.
Qed.

Lemma header_text_app a b : header_text (a ++ b) = header_text a ++ header_text b.
Proof. unfold header_text. by rewrite map_app, concat_app. Qed.

(** A line whose CRLF has come is split off, and not before. *)
Lemma header_turn r fuel d q ls l todo t :
  well_formed r → rq_lines r = ls ++ l :: todo → d ++ q = line_text l ++ t →
  (∃ d', d = line_text l ++ d' ∧ t = d' ++ q ∧
     body_start_loop (S fuel) (in_header SeekingBodyStart d ls (map line_text ls))
     = body_start_loop fuel (in_header SeekingBodyStart d' (ls ++ [l]) (map line_text (ls ++ [l])))) ∨
  q ≠ [] ∧ body_start_loop (S fuel) (in_header SeekingBodyStart d ls (map line_text ls))
    = Ret (false, in_header SeekingBodyStart d ls (map line_text ls)).
Proof.
  intros Hr Hls Hd. pose proof Hr as (_ & Hlines & Hmax & _). rewrite Hls in Hlines, Hmax.
  apply Forall_app in Hlines as [_ [[Hcr Hne] _]%Forall_cons_1].
  rewrite header_text_app, !length_app in Hmax. change (header_text (l :: todo)) with (line_text l ++ header_text todo) in Hmax.
  rewrite length_app in Hmax. cbn [body_start_loop]. cbn [in_header packet_progress_state data_so_far bool_decide].
  rewrite bool_decide_eq_true_2 by done.
  apply cut in Hd as [(d' & -> & ->)|(a & Ha & Hl & ->)].
  - left. exists d'. split; [done|]. split; [done|]. unfold line_text at 1. rewrite <- app_assoc, index_line by done.
    rewrite header_fits by (cbn [in_header lines]; fold (header_text ls); unfold line_text in Hmax; rewrite length_app in Hmax; cbn [length CRLF] in Hmax; lia).
    assert (length l + 2 = length (line_text l))%nat as Hll by (unfold line_text; rewrite length_app; cbn; lia).
    rewrite Hll, split_off_Ret by (rewrite length_app; lia).
    cbn [exec_bind fst snd]. rewrite take_app_length, drop_app_length.
    destruct (line_checked r d' ls l todo Hr Hls) as (s & H1 & H2).
    change (with_data d' (in_header SeekingBodyStart (line_text l ++ d') ls (map line_text ls)))
      with (in_header SeekingBodyStart d' ls (map line_text ls)). rewrite H1. cbn [negb]. rewrite H2. cbn [negb].
    unfold check_for_zero_length. rewrite (proj2 (Nat.eqb_neq _ _)) by (rewrite <- Hll; destruct l; [done|]; cbn; lia).
    cbn [negb]. by rewrite map_app.
  - right. split; [by destruct a|]. rewrite (index_line_cut l d a) by done.
    rewrite header_fits; [done|]. cbn [in_header lines]. fold (header_text ls). rewrite Hl, length_app in Hmax. lia.
Qed.

(** The empty line ends the header. *)
Lemma header_last r fuel d q t :
  well_formed r → d ++ q = CRLF ++ t →
  (∃ d', d = CRLF ++ d' ∧ t = d' ++ q ∧
     body_start_loop (S fuel) (in_header SeekingBodyStart d (rq_lines r) (map line_text (rq_lines r)))
     = Ret (true, in_header SeekingBodyEnd d' (rq_lines r) (map line_text (rq_lines r) ++ [CRLF]))) ∨
  q ≠ [] ∧ body_start_loop (S fuel) (in_header SeekingBodyStart d (rq_lines r) (map line_text (rq_lines r)))
    = Ret (false, in_header SeekingBodyStart d (rq_lines r) (map line_text (rq_lines r))).
Proof.
  intros (_ & _ & Hmax & _) Hd. rewrite length_app in Hmax. cbn [length CRLF] in Hmax.
  cbn [body_start_loop]. cbn [in_header packet_progress_state data_so_far]. rewrite bool_decide_eq_true_2 by done.
  apply cut in Hd as [(d' & -> & ->)|(a & Ha & Hl & ->)].
  - left. exists d'. split; [done|]. split; [done|]. assert (index_of (CRLF ++ d') CRLF = Some O) as -> by (apply (index_line []); constructor). cbn [length Nat.add].
    rewrite header_fits by (cbn [in_header lines]; fold (header_text (rq_lines r)); lia).
    rewrite split_off_Ret by (rewrite length_app; cbn; lia). reflexivity.
  - right. split; [by destruct a|]. rewrite (index_line_cut [] d a) by (done || constructor).
    rewrite header_fits; [done|]. cbn [in_header lines]. fold (header_text (rq_lines r)).
    apply (f_equal length) in Hl. rewrite length_app in Hl. cbn in Hl. lia.
Qed.

Lemma header_loop r rs q todo : well_formed r → ∀ fuel d ls,
  rq_lines r = ls ++ todo → (length d < fuel)%nat →
  d ++ q = header_text todo ++ CRLF ++ body_text (rq_body r) ++ texts rs →
  (∃ d' ls' todo',
     body_start_loop fuel (in_header SeekingBodyStart d ls (map line_text ls))
     = Ret (false, in_header SeekingBodyStart d' ls' (map line_text ls')) ∧ rq_lines r = ls' ++ todo' ∧ q ≠ [] ∧
     d' ++ q = header_text todo' ++ CRLF ++ body_text (rq_body r) ++ texts rs ∧
     header_text ls ++ d = header_text ls' ++ d') ∨
  (∃ d',
     body_start_loop fuel (in_header SeekingBodyStart d ls (map line_text ls))
     = Ret (true, in_header SeekingBodyEnd d' (rq_lines r) (map line_text (rq_lines r) ++ [CRLF])) ∧
     d' ++ q = body_text (rq_body r) ++ texts rs ∧ header_text ls ++ d = header_text (rq_lines r) ++ CRLF ++ d').
Proof.
  intros Hr. induction todo as [|l todo IH]; intros [|fuel] d ls Hls Hf Hd; try lia.
  - rewrite app_nil_r in Hls. rewrite <- Hls in *.
    destruct (header_last r fuel d q _ Hr Hd) as [(d' & -> & Hd' & ->)|[Hq ->]].
    + right. by exists d'.
    + left. eexists d, (rq_lines r), []. rewrite app_nil_r. by split_and!.
  - change (header_text (l :: todo)) with (line_text l ++ header_text todo) in Hd. rewrite <- app_assoc in Hd.
    destruct (header_turn r fuel d q ls l todo _ Hr Hls Hd) as [(d' & -> & Hd' & ->)|[Hq ->]].
    + rewrite length_app in Hf. destruct (IH fuel d' (ls ++ [l])) as [(d2 & ls2 & todo2 & H)|(d2 & H)].
      * by rewrite <- app_assoc.
      * unfold line_text in Hf. rewrite length_app in Hf. cbn in Hf. lia.
      * done.
      * left. exists d2, ls2, todo2. rewrite header_text_app, <- app_assoc in H. cbn in H. by rewrite app_nil_r in H.
      * right. exists d2. rewrite header_text_app, <- app_assoc in H. cbn in H. by rewrite app_nil_r in H.
    + left. exists d, ls, (l :: todo). split_and!; try done.
      change (header_text (l :: todo)) with (line_text l ++ header_text todo). by rewrite <- app_assoc.
Qed.

(** ** The body *)

Lemma seek_sized ts d q b rs :
  (ts = [] → b ≠ []) → Forall well_formed rs → Z.of_nat (length b) < 2 ^ 64 → d ++ q = b ++ texts rs →
  ∃ o s', seek_body_end (mkHttp d SeekingBodyEnd (Z.of_nat (length b)) Standard NoChunk None ts) = Ret (o, s') ∧
    position s' (data_so_far s' ++ q) ∧
    match o with
    | Some fr => concat ts ++ d = fr ++ held s'
    | None => ts = [] ∧ d = [] ∧ held s' = [] ∧ q ≠ []
    end.
Proof.
  intros Hts Hrs Hb Hd. unfold seek_body_end. cbn [packet_progress_state lines data_so_far content_length].
  rewrite bool_decide_eq_true_2 by done. cbn [negb].
  replace (Z.to_nat (Z.of_nat (length d) `min` Z.of_nat (length b))) with (Nat.min (length d) (length b)) by lia.
  destruct (negb _ && _) eqn:E.
  { destruct ts; [|done]. specialize (Hts eq_refl). cbn in E. apply Nat.eqb_eq in E. destruct b; [done|]. destruct d; [|done].
    eexists _, _. split; [reflexivity|]. split_and!; [cbn [data_so_far]; rewrite Hd; by apply (p_body [])|done..|].
    cbn in Hd. by rewrite Hd. }
  rewrite split_off_Ret by lia. cbn [exec_bind fst snd]. unfold usize_sub. cbn [content_length with_data].
  rewrite length_take. rewrite (proj2 (Z.leb_le _ _)) by lia. cbn [exec_bind].
  apply cut in Hd as [(d' & -> & Hd')|(a & Ha & -> & Hq)].
  - rewrite (Nat.min_r (length (b ++ d')) (length b)), (Nat.min_l (length b)) by (rewrite length_app; lia).
    rewrite Z.sub_diag, take_app_length, drop_app_length.
    cbn [Z.eqb with_lines with_progress with_content_length with_data transfer_encoding_chunked].
    rewrite bool_decide_eq_false_2 by done. eexists _, _. split; [reflexivity|]. cbn. split; [rewrite <- Hd'; by apply p_start|].
    unfold held. cbn. by rewrite <- app_assoc.
  - rewrite !(Nat.min_l (length d)) by (rewrite ?length_app; lia). rewrite take_ge, drop_ge, length_app by done.
    assert (Z.of_nat (length d + length a) - Z.of_nat (length d) = Z.of_nat (length a)) as -> by lia.
    destruct (Z.eqb_spec (Z.of_nat (length a)) 0); [destruct a; done|].
    eexists _, _. split; [reflexivity|]. cbn. split; [rewrite Hq; apply (p_body []); [done| |done]; rewrite length_app in Hb; lia|]. unfold held. cbn. by rewrite app_nil_r.
Qed.

Lemma parse_usize_range t n : parse_usize t = Some n → in_u 64 n.
Proof. unfold parse_usize. destruct (parse_dec _); [|done]. case_bool_decide; [|done]. by intros [= <-]. Qed.
Lemma sized_seen ls b : body_ok ls (Sized b) → seen_chunked ls = false ∧ seen_length ls = Z.of_nat (length b) ∧ Z.of_nat (length b) < 2 ^ 64.
Proof.
  intros [Hte Hcl]. split.
  - clear -Hte. induction Hte as [|x ls Hx _ IH] using Forall_ind; [done|]. cbn. unfold chunked_line. by rewrite Hx.
  - unfold seen_length. destruct Hcl as [[-> ->]|(v & -> & Hn)]; [done|]. rewrite Hn. split; [done|].
    unfold number_of in Hn. destruct (from_utf8 v); [|done]. apply parse_usize_range in Hn. unfold in_u in Hn. lia.
Qed.
Lemma chunked_seen ls cs : body_ok ls (Chunked cs) → seen_chunked ls = true ∧ seen_length ls = 0 ∧ Forall chunk_ok cs.
Proof.
  intros (Hcl & Hex & Hcs & _). unfold seen_length. rewrite Hcl. split_and!; [|done..]. clear -Hex. unfold seen_chunked.
  induction Hex as [x ls Hx|x ls _ IH] using Exists_ind; cbn [existsb]; [by rewrite Hx|by rewrite IH, orb_true_r].
Qed.

(** The header goes out with what has come of the body. *)
Lemma header_handed_out r d q rs :
  well_formed r → Forall well_formed rs → d ++ q = body_text (rq_body r) ++ texts rs →
  ∃ fr s', seek_body_end (in_header SeekingBodyEnd d (rq_lines r) (map line_text (rq_lines r) ++ [CRLF])) = Ret (Some fr, s') ∧
    position s' (data_so_far s' ++ q) ∧ header_text (rq_lines r) ++ CRLF ++ d = fr ++ held s'.
Proof.
  intros (_ & _ & _ & Hb) Hrs Hd. set (ts := map line_text (rq_lines r) ++ [CRLF]).
  assert (concat ts = header_text (rq_lines r) ++ CRLF) as Hts by (unfold ts; rewrite concat_app; done).
  assert (ts ≠ []) as Hne by (unfold ts; by destruct (map line_text (rq_lines r))).
  rewrite app_assoc, <- Hts. unfold in_header. destruct (rq_body r) as [b|cs].
  - apply sized_seen in Hb as (-> & -> & Hb).
    destruct (seek_sized ts d q b rs) as ([fr|] & s' & H & Hp & Hh); [done..| |]; [by exists fr, s'|].
    by destruct Hh.
  - apply chunked_seen in Hb as (-> & -> & Hcs). unfold seek_body_end.
    cbn [packet_progress_state lines data_so_far content_length]. rewrite bool_decide_eq_true_2 by done. cbn [negb].
    rewrite Z.min_r by lia. change (Z.to_nat 0) with O. destruct ts as [|x ts']; [done|]. cbn [negb andb].
    rewrite split_off_Ret, take_0, drop_0 by lia.
    unfold usize_sub. cbn [exec_bind fst snd take content_length with_data length Z.of_nat Z.leb Z.compare Z.sub Z.add Z.opp
      Z.eqb with_lines with_progress with_content_length transfer_encoding_chunked lines].
    change (0 - Z.of_nat 0) with 0. change (0 =? 0) with true. cbn [andb].
    rewrite bool_decide_eq_true_2 by done. eexists _, _. split; [reflexivity|]. cbn. split.
    + rewrite Hd. by apply p_chunk.
    + unfold held. cbn. by rewrite app_nil_r.
Qed.

(** ** The start of a request *)

Lemma fold_min_zero l : foldl Nat.min O l = O.
Proof. by induction l. Qed.
Lemma minimum_zero l : O ∈ l → minimum l = Some O.
Proof.
  destruct l as [|x l]; [by intros ?%not_elem_of_nil|]. cbn [minimum]. intros [<-|H]%elem_of_cons; [by rewrite fold_min_zero|].
  f_equal. revert x. induction l as [|y l IH]; intros x; [by apply not_elem_of_nil in H|].
  apply elem_of_cons in H as [<-|H]; cbn [foldl]; [by rewrite Nat.min_0_r, fold_min_zero|by apply IH].
Qed.

(** Of a part of a method no method is found. *)
Lemma partial_method m p a : m ∈ METHODS → m = p ++ a → a ≠ [] → minimum (omap (index_of p) METHODS) = None.
Proof.
  intros Hm -> Ha.
  assert (forallb (fun m => forallb (fun n => match omap (index_of (take n m)) METHODS with [] => true | _ => false end)
    (seq 0 (length m))) METHODS = true) as H by (vm_compute; reflexivity).
  rewrite forallb_forall in H. apply list_elem_of_In in Hm. apply H in Hm. rewrite forallb_forall in Hm.
  specialize (Hm (length p)). rewrite take_app_length in Hm. destruct (omap _ _); [done|].
  exfalso. discriminate Hm. apply in_seq. rewrite length_app. destruct a; [done|]. cbn. lia.
Qed.
Lemma method_short m : m ∈ METHODS → (length m <= 7)%nat.
Proof.
  intros Hm. assert (forallb (fun m => length m <=? 7)%nat METHODS = true) as H by (vm_compute; reflexivity).
  rewrite forallb_forall in H. apply list_elem_of_In in Hm. apply H in Hm. by apply Nat.leb_le.
Qed.

Lemma start_found r d q t :
  well_formed r → d ++ q = request_text r ++ t →
  seek_packet_start (at_start d) = Ret (true, in_header SeekingBodyStart d [] []) ∨
  q ≠ [] ∧ seek_packet_start (at_start d) = Ret (false, at_start d).
Proof.
  intros ((m & first & rest & Hls & Hm) & _) Hd. unfold seek_packet_start. cbn [at_start packet_progress_state data_so_far].
  rewrite bool_decide_eq_true_2 by done. unfold request_text in Hd. rewrite Hls in Hd.
  change (header_text (?l :: rest)) with (line_text l ++ header_text rest) in Hd. unfold line_text in Hd at 1.
  rewrite <- !app_assoc in Hd. apply cut in Hd as [(d' & -> & Hd')|(a & Ha & Hma & ->)].
  - left. rewrite minimum_zero; [|apply list_elem_of_omap; exists m; split; [done|]].
    + rewrite split_off_Ret by lia. cbn [exec_bind snd]. by rewrite drop_0.
    + assert (m ≠ []) as Hne.
      { intros ->. apply list_elem_of_In in Hm. cbn in Hm. repeat destruct Hm as [Hm|Hm]; done. }
      destruct m as [|b m]; [done|]. cbn [index_of index_from app].
      assert (starts_with (b :: m) (b :: m ++ d') = true) as -> by (apply starts_with_spec; by exists d'). done.
  - right. split; [by destruct a|]. rewrite (partial_method m d a) by done. apply method_short in Hm.
    rewrite Hma, length_app in Hm. rewrite (proj2 (Nat.ltb_ge _ _)) by (unfold LONGEST_METHOD_LEN; lia).
    rewrite split_off_Ret by lia. cbn [exec_bind snd]. by rewrite drop_0.
Qed.

(** ** A call of the framer, outside of chunks *)

Lemma header_advances r d q ls todo rs :
  well_formed r → rq_lines r = ls ++ todo → Forall well_formed rs →
  d ++ q = header_text todo ++ CRLF ++ body_text (rq_body r) ++ texts rs →
  let s := in_header SeekingBodyStart d ls (map line_text ls) in
  ∃ o s', take_packet_frame s = Ret (o, s') ∧ advances s o s' q.
Proof.
  intros Hr Hls Hrs Hd s. unfold take_packet_frame. cbn [s in_header packet_progress_state].
  rewrite bool_decide_eq_false_2 by done. cbn [exec_bind negb in_header packet_progress_state].
  rewrite bool_decide_eq_true_2 by done. unfold seek_body_start. fold s.
  destruct (header_loop r rs q todo Hr (S (length (data_so_far s))) d ls Hls ltac:(cbn; lia) Hd)
    as [(d' & ls' & todo' & Hl & Hls' & Hq & Hd' & Hh)|(d' & Hl & Hd' & Hh)];
    (unfold s at 2; rewrite Hl; cbn [exec_bind negb]).
  - eexists _, _. split; [reflexivity|]. split; [cbn [in_header data_so_far]; rewrite Hd'; by apply p_header|]. split; [done|].
    by intros ->.
  - cbn [in_header packet_progress_state]. rewrite bool_decide_eq_true_2 by done.
    destruct (header_handed_out r d' q rs Hr Hrs Hd') as (fr & s' & Hb & Hp & Hh').
    rewrite Hb. cbn [exec_bind fst snd].
    eexists _, _. split; [reflexivity|]. split; [done|]. cbn [fmap option_fmap option_map fc_chunk].
    rewrite <- Hh', <- Hh. reflexivity.
Qed.

Lemma start_advances d q rs :
  Forall well_formed rs → d ++ q = texts rs →
  ∃ o s', take_packet_frame (at_start d) = Ret (o, s') ∧ advances (at_start d) o s' q.
Proof.
  intros Hrs Hd. destruct rs as [|r rs].
  - apply app_eq_nil in Hd as [-> ->]. eexists _, _. split; [reflexivity|]. split; [by apply (p_start [] [])|done].
  - apply Forall_cons_1 in Hrs as [Hr Hrs]. change (texts (r :: rs)) with (request_text r ++ texts rs) in Hd.
    destruct (start_found r d q (texts rs) Hr Hd) as [Hs|[Hq Hs]].
    + unfold request_text in Hd. rewrite <- !app_assoc in Hd.
      destruct (header_advances r d q [] (rq_lines r) rs Hr eq_refl Hrs Hd) as (o & s' & Ht & Ha).
      exists o, s'. split; [|exact Ha]. rewrite <- Ht. unfold take_packet_frame at 1. cbn [at_start packet_progress_state].
      rewrite bool_decide_eq_true_2 by done. rewrite Hs. cbn [exec_bind negb].
      unfold take_packet_frame. cbn [in_header packet_progress_state].
      by rewrite (bool_decide_eq_false_2 (SeekingBodyStart = SeekingPacketStart)).
    + unfold take_packet_frame. cbn [at_start packet_progress_state]. rewrite bool_decide_eq_true_2 by done.
      rewrite Hs. cbn [exec_bind negb]. eexists _, _. split; [reflexivity|]. split; [|split; [done|by intros ->]].
      cbn [at_start data_so_far]. rewrite Hd. apply (p_start d (r :: rs)). by constructor.
Qed.

Lemma body_advances d q body rs :
  body ≠ [] → Forall well_formed rs → Z.of_nat (length body) < 2 ^ 64 → d ++ q = body ++ texts rs →
  let s := at_body d (Z.of_nat (length body)) in
  ∃ o s', take_packet_frame s = Ret (o, s') ∧ advances s o s' q.
Proof.
  intros Hb Hrs Hlen Hd s. unfold take_packet_frame. cbn [s at_body packet_progress_state].
  rewrite bool_decide_eq_false_2 by done. cbn [exec_bind negb at_body packet_progress_state].
  rewrite bool_decide_eq_false_2 by done. cbn [exec_bind negb at_body packet_progress_state].
  rewrite bool_decide_eq_true_2 by done.
  destruct (seek_sized [] d q body rs ltac:(done) Hrs Hlen Hd) as (o & s' & Hs & Hp & Ho). unfold s, at_body. rewrite Hs.
  cbn [exec_bind fst snd]. eexists _, _. split; [reflexivity|]. split; [done|]. destruct o as [fr|]; [done|].
  destruct Ho as (_ & -> & Hh & Hq). cbn [fmap option_fmap option_map]. rewrite Hh. done.
Qed.

(** ** The header of a chunk *)

Lemma hex_digit_range b x : evaluate_hex_digit b = Some x → 0 ≤ x < 16 ∧ b ≠ 13.
Proof.
  unfold evaluate_hex_digit, position_in_range.
  destruct (Z.ltb_spec b 48), (Z.ltb_spec 57 b), (Z.ltb_spec b 65), (Z.ltb_spec 70 b), (Z.ltb_spec b 97), (Z.ltb_spec 102 b);
    cbn; intros [= <-]; lia.
Qed.

Lemma hex_number_app a : ∀ acc b n, hex_number acc (a ++ b) = Some n → ∃ m, hex_number acc a = Some m ∧ hex_number m b = Some n.
Proof.
  induction a as [|d a IH]; intros acc b n; cbn [app hex_number]; [by eexists|].
  destruct (evaluate_hex_digit d); [|done]. apply IH.
Qed.
Lemma hex_no_cr hex : ∀ acc n, hex_number acc hex = Some n → no_cr hex.
Proof.
  induction hex as [|d hex IH]; intros acc n; cbn [hex_number]; [constructor|].
  destruct (evaluate_hex_digit d) eqn:E; [|done]. intros H. constructor; [by apply hex_digit_range in E as [_ E]|by eapply IH].
Qed.

Lemma digits_hex hex : ∀ index acc n size,
  hex_number acc hex = Some size → (n + length hex <= 8)%nat → 0 ≤ acc < 16 ^ Z.of_nat n → (0 < n + length hex)%nat →
  digits_loop hex index acc n = Some ((index + length hex)%nat, size) ∧ 0 ≤ size < 16 ^ 8.
Proof.
  induction hex as [|d hex IH]; intros index acc n size; cbn [hex_number digits_loop length].
  - intros [= <-] Hn Hacc Hpos. rewrite (proj2 (Nat.eqb_neq _ _)) by lia. rewrite Nat.add_0_r. split; [done|].
    pose proof (Z.pow_le_mono_r 16 (Z.of_nat n) 8). lia.
  - destruct (evaluate_hex_digit d) as [x|] eqn:E; [|done]. apply hex_digit_range in E as [Hx _].
    intros Hh Hn Hacc _. rewrite (proj2 (Nat.eqb_neq n 8)) by lia.
    assert (16 ^ Z.of_nat (n + 1) = 16 * 16 ^ Z.of_nat n) as Hp by (rewrite Nat2Z.inj_add, Z.pow_add_r by lia; lia).
    assert (16 ^ Z.of_nat (n + 1) ≤ 16 ^ 8) by (apply Z.pow_le_mono_r; lia).
    unfold checked_mul, checked_add. rewrite !decide_True by (unfold in_u; lia).
    destruct (IH (index + 1)%nat (acc * 16 + x) (n + 1)%nat size) as [-> Hs]; [done|lia|lia|lia|].
    split; [|done]. f_equal. f_equal. lia.
Qed.
Lemma digits_stop x : ∀ index acc n m, hex_number acc x = Some m →
  ∀ acc' z e, digits_loop (x ++ [13]) index acc' n = Some (e, z) → e = (index + length x)%nat.
Proof.
  induction x as [|d x IH]; intros index acc n m; cbn [hex_number app digits_loop length].
  - intros _ acc' z e. cbn. destruct (n =? 0)%nat; [done|]. intros [= <- _]. lia.
  - destruct (evaluate_hex_digit d); [|done]. intros Hx acc' z' e. destruct (n =? 8)%nat; [done|].
    destruct (checked_mul _ _ _); [|done]. destruct (checked_add _ _ _); [|done].
    intros H. rewrite (IH _ _ _ _ Hx _ _ _ H). lia.
Qed.

Lemma header_at_hex hex size : chunk_header hex size → header_at hex O = Ret (Some (O, size)) ∧ 0 ≤ size < 16 ^ 8.
Proof.
  intros (Hne & Hlen & Hn). unfold header_at, parse_chunk_size_at. rewrite drop_0.
  destruct (digits_hex hex 0 0 0 size) as [-> Hs]; [done|lia|cbn; lia|destruct hex; [done|cbn; lia]|].
  by rewrite Nat.eqb_refl.
Qed.

(** A header of a chunk that has come is found where it is. *)
Lemma chunk_header_found hex size rest :
  chunk_header hex size → find_chunk_offset_length (hex ++ CRLF ++ rest)
  = Ret (Some (mkChunkHeader O (Z.of_nat (length hex) + 2 + size) size)).
Proof.
  intros Hh. pose proof (header_at_hex hex size Hh) as [Hat Hs]. destruct Hh as (Hne & Hlen & Hn).
  unfold find_chunk_offset_length. cbn [chunk_loop]. rewrite slice_tail_Ret, drop_0 by lia. cbn [exec_bind].
  unfold find_next_chunk_offset_length. rewrite index_line by (by eapply hex_no_cr).
  destruct (length hex) as [|k] eqn:El; [by destruct hex|].
  rewrite slice_Ret by (rewrite ?length_app; lia). rewrite Nat.sub_0_r, drop_0. cbn [exec_bind].
  rewrite take_app_le, take_ge by lia. unfold parse_chunk_header_line. rewrite El. cbn [seq first_header]. rewrite Hat.
  cbn [exec_bind]. unfold checked_add. rewrite !decide_True by (unfold in_u; lia). cbn. do 3 f_equal. lia.
Qed.

Lemma no_last_crlf d : index_of d CRLF = None → last_crlf d = None.
Proof.
  change (index_of d CRLF) with (index_from d CRLF). induction d as [|b d IH]; [done|]. cbn [index_from last_crlf].
  destruct (starts_with CRLF (b :: d)); [done|]. intros H. rewrite IH; [done|]. by destruct (index_from d CRLF).
Qed.

(** Digits with a CR behind them are not yet a header. *)
Lemma no_header_before_lf hex size offs :
  hex_number 0 hex = Some size → Forall (fun o => o <= length hex)%nat offs → first_header (hex ++ [13]) offs = Ret None.
Proof.
  intros Hn. induction 1 as [|o offs Ho _ IH] using Forall_ind; [done|]. cbn [first_header].
  assert (header_at (hex ++ [13]) o = Ret None) as ->; [|done]. unfold header_at, parse_chunk_size_at.
  rewrite drop_app_le by done. rewrite <- (take_drop o hex) in Hn. apply hex_number_app in Hn as (m & _ & Hn).
  destruct (digits_loop _ _ _ _) as [[e z]|] eqn:E; [|done]. apply (digits_stop _ _ _ _ _ Hn) in E.
  rewrite length_drop in E. rewrite (proj2 (Nat.eqb_neq _ _)) by (rewrite length_app; cbn; lia).
  replace e with (length hex + 0)%nat by lia. unfold index. rewrite lookup_app_r by lia.
  by replace (length hex + 0 - length hex)%nat with O by lia.
Qed.

(** Few bytes without a CRLF are kept, if a header may start at the first of
    them or nowhere. *)
Lemma few_bytes_kept d s o :
  index_of d CRLF = None → (length d <= 9)%nat → data_so_far s = d → first_header d (seq 0 (length d)) = Ret o →
  (∀ k z, o = Some (k, z) → k = O) → length_header_step s = Ret (false, with_data d s).
Proof.
  intros Hidx Hl Hs Ho Hk. unfold length_header_step. rewrite Hs.
  unfold find_chunk_offset_length. cbn [chunk_loop]. rewrite slice_tail_Ret, drop_0 by lia. cbn [exec_bind].
  unfold find_next_chunk_offset_length. rewrite Hidx. cbn [exec_bind].
  rewrite (proj2 (Z.ltb_ge _ _)) by (unfold MAX_HTTP_HEADER_BYTES; lia).
  unfold find_incomplete_chunk_header_offset. rewrite no_last_crlf by done. rewrite slice_tail_Ret, drop_0 by lia.
  cbn [exec_bind]. unfold partial_chunk_header_offset. rewrite Ho. cbn [exec_bind].
  destruct o as [[k z]|]; cbn [fmap option_fmap option_map exec_bind fst].
  - rewrite (Hk k z eq_refl). rewrite split_off_Ret by lia. cbn [exec_bind snd Nat.add]. by rewrite drop_0.
  - rewrite (proj2 (Nat.ltb_ge _ _)) by (unfold BYTES_TO_PRESERVE; lia). rewrite <- Hs. by destruct s.
Qed.

(** A header that has not come yet is kept. *)
Lemma chunk_header_kept hex size d a s :
  chunk_header hex size → hex ++ CRLF = d ++ a → a ≠ [] → data_so_far s = d → length_header_step s = Ret (false, with_data d s).
Proof.
  intros Hh Hd Ha Hs. pose proof Hh as (Hne & Hlen & Hn). pose proof (hex_no_cr _ _ _ Hn) as Hcr.
  assert (length d <= 9)%nat as Hl.
  { apply (f_equal length) in Hd. rewrite !length_app in Hd. destruct a; [done|]. cbn in Hd. lia. }
  pose proof (index_line_cut hex d a Hcr Hd Ha) as Hidx.
  symmetry in Hd. apply cut in Hd as [(d' & -> & Hd')|(h' & Hh' & -> & Hd')].
  - destruct d' as [|b [|b' d']].
    + rewrite app_nil_r in *. apply (few_bytes_kept _ _ (Some (O, size))); [done..| |by intros ?? [= <- _]].
      destruct (length hex) as [|k] eqn:El; [by destruct hex|]. cbn [seq first_header].
      by rewrite (proj1 (header_at_hex hex size Hh)).
    + injection Hd' as <- Hd'. apply (few_bytes_kept _ _ None); [done..| |done].
      apply (no_header_before_lf _ size); [done|]. apply Forall_seq. rewrite length_app. cbn. lia.
    + injection Hd' as <- <- Hd'. by destruct d', a.
  - rewrite length_app in Hlen. apply hex_number_app in Hn as (m & Hm & _). destruct d as [|b d].
    { by apply (few_bytes_kept _ _ None). }
    assert (chunk_header (b :: d) m) as Hd by (split_and!; [done|lia|done]).
    apply (few_bytes_kept _ _ (Some (O, m))); [done..| |by intros ?? [= <- _]]. cbn [length seq first_header].
    by rewrite (proj1 (header_at_hex (b :: d) m Hd)).
Qed.

(** ** A call of the framer, inside of chunks *)

Lemma data_advances fuel d q x cs rs :
  Z.of_nat (length x) + 2 < 2 ^ 64 → Forall chunk_ok cs → Forall well_formed rs →
  d ++ q = x ++ CRLF ++ chunks_text cs ++ texts rs →
  let s := at_chunk d SeekingEndOfChunk (Some (Z.of_nat (length x))) in
  ∃ o s', chunk_frame_loop (S fuel) s = Ret (o, s') ∧ advances s o s' q.
Proof.
  intros Hx Hcs Hrs Hd s. cbn [chunk_frame_loop s at_chunk chunk_progress_state]. unfold s. unfold end_of_chunk_step.
  cbn [at_chunk chunk_size expect exec_bind data_so_far]. unfold checked_add. rewrite decide_True by (unfold in_u; lia).
  cbn [expect]. destruct (Z.leb_spec (Z.of_nat (length x) + 2) (Z.of_nat (length d))) as [Hle|Hlt]; cbn [negb].
  - rewrite app_assoc in Hd. apply cut in Hd as [(d' & -> & Hd')|(a & Ha & Hd' & _)];
      [|apply (f_equal length) in Hd'; rewrite !length_app in Hd'; destruct a; [done|]; cbn in Hd'; lia].
    cbn [exec_bind]. replace (Z.to_nat (Z.of_nat (length x) + 2)) with (length (x ++ CRLF)) by (rewrite length_app; cbn; lia).
    rewrite split_off_Ret by (rewrite !length_app; lia). cbn [exec_bind fst snd]. rewrite take_app_length, drop_app_length.
    rewrite ends_with_app. cbn [negb exec_bind]. destruct (x ++ CRLF) as [|b y] eqn:Ey; [by destruct x|].
    eexists _, _. split; [reflexivity|]. split; [|done]. cbn [data_so_far with_chunk with_data]. rewrite <- Hd'. by apply p_chunk.
  - destruct ((Z.of_nat (length x) =? 0) || (length d =? 0)%nat) eqn:Es.
    + eexists _, _. split; [reflexivity|]. split; [|split; [done|]].
      * unfold at_chunk. cbn [data_so_far]. rewrite Hd. by apply p_data.
      * intros ->. exfalso. rewrite app_nil_r in Hd. apply (f_equal length) in Hd. rewrite !length_app in Hd. cbn in Hd. lia.
    + apply orb_false_elim in Es as [Es1 Es2]. apply Z.eqb_neq in Es1. apply Nat.eqb_neq in Es2.
      replace (Z.to_nat (Z.of_nat (length d) `min` Z.of_nat (length x))) with (Nat.min (length d) (length x)) by lia.
      rewrite split_off_Ret by lia. cbn [exec_bind fst snd]. unfold usize_sub.
      rewrite length_take, (proj2 (Z.leb_le _ _)) by lia. cbn [exec_bind].
      eexists _, _. split; [reflexivity|]. apply cut in Hd as [(d' & -> & Hd')|(a & Ha & -> & Hq)].
      * rewrite (Nat.min_r (length (x ++ d')) (length x)), (Nat.min_l (length x)) by (rewrite length_app; lia).
        rewrite Z.sub_diag, take_app_length, drop_app_length. split; [|done].
        cbn [data_so_far with_chunk with_data]. rewrite <- Hd'. by apply (p_data d' []).
      * rewrite !(Nat.min_l (length d)) by (rewrite ?length_app; lia). rewrite take_ge, drop_ge, length_app by done.
        assert (Z.of_nat (length d + length a) - Z.of_nat (length d) = Z.of_nat (length a)) as -> by lia.
        split; [|unfold held; cbn; by rewrite app_nil_r]. cbn [data_so_far with_chunk with_data app]. rewrite Hq.
        apply (p_data []); [|done..]. rewrite length_app in Hx. lia.
Qed.

Lemma final_advances fuel d q rs :
  Forall well_formed rs → d ++ q = 48 :: DOUBLE_CRLF ++ texts rs →
  let s := at_chunk d SeekingEndOfFinalChunk None in
  ∃ o s', chunk_frame_loop (S fuel) s = Ret (o, s') ∧ advances s o s' q.
Proof.
  intros Hrs Hd s. cbn [chunk_frame_loop s at_chunk chunk_progress_state]. unfold s, final_chunk_step.
  cbn [at_chunk data_so_far]. pose proof Hd as Hd0. change (48 :: DOUBLE_CRLF ++ texts rs) with ((48 :: DOUBLE_CRLF) ++ texts rs) in Hd.
  apply cut in Hd as [(d' & -> & Hd')|(a & Ha & Hl & ->)].
  - assert (index_of ((48 :: DOUBLE_CRLF) ++ d') DOUBLE_CRLF = Some 1%nat) as -> by reflexivity.
    rewrite split_off_Ret by (cbn; lia). cbn [exec_bind fst snd]. eexists _, _. split; [reflexivity|].
    split; [|done]. cbn. rewrite drop_0, <- Hd'. by apply p_start.
  - assert (index_of d DOUBLE_CRLF = None ∧ (length d <= 5)%nat) as [-> Hlen].
    { assert (length d < 5)%nat as Hlt.
      { apply (f_equal length) in Hl. rewrite length_app in Hl. destruct a; [done|]. cbn in Hl. lia. }
      destruct d as [|? [|? [|? [|? [|? d]]]]]; cbn in Hlt; try lia; unfold DOUBLE_CRLF in Hl; cbn [app] in Hl; simplify_eq; (split; [reflexivity|cbn; lia]). }
    rewrite (proj2 (Z.ltb_ge _ _)) by (unfold MAX_HTTP_HEADER_BYTES; lia).
    eexists _, _. split; [reflexivity|]. split; [|split; [done|by intros [-> _]%app_eq_nil]].
    cbn [at_chunk data_so_far]. rewrite Hd0. by apply p_final.
Qed.

Lemma chunk_advances fuel d q cs rs :
  Forall chunk_ok cs → Forall well_formed rs → d ++ q = chunks_text cs ++ texts rs →
  let s := at_chunk d SeekingLengthHeader None in
  ∃ o s', chunk_frame_loop (S (S fuel)) s = Ret (o, s') ∧ advances s o s' q.
Proof.
  intros Hcs Hrs Hd s.
  assert (∃ hex size t, chunk_header hex size ∧ chunks_text cs ++ texts rs = hex ++ CRLF ++ t ∧
    ((size = 0 ∧ hex = [48] ∧ t = CRLF ++ texts rs) ∨
     ∃ x cs', size = Z.of_nat (length x) ∧ x ≠ [] ∧ Forall chunk_ok cs' ∧ t = x ++ CRLF ++ chunks_text cs' ++ texts rs))
    as (hex & size & t & Hh & Ht & Hcase).
  { destruct cs as [|[hex x] cs].
    - exists [48], 0, (CRLF ++ texts rs). split; [|by split; [|left]]. split_and!; [done|cbn; lia|done].
    - apply Forall_cons_1 in Hcs as [[Hx Hh] Hcs]. cbn [fst snd] in *.
      exists hex, (Z.of_nat (length x)), (x ++ CRLF ++ chunks_text cs ++ texts rs). split; [done|]. split.
      + unfold chunks_text. cbn [map concat]. unfold chunk_text at 1. cbn [fst snd]. by rewrite <- !app_assoc.
      + right. by exists x, cs. }
  pose proof (header_at_hex hex size Hh) as [_ Hsize].
  assert (length hex <= 8)%nat as Hlen by apply Hh.
  remember (S fuel) as fuel' eqn:Ef. cbn [chunk_frame_loop s at_chunk chunk_progress_state].
  rewrite Ht, app_assoc in Hd. pose proof Hd as Hd0. apply cut in Hd as [(d' & Hdd & Hd')|(a & Ha & Hl & Hq)].
  - pose proof (chunk_header_found hex size d' Hh) as Hfound. rewrite app_assoc, <- Hdd in Hfound.
    assert (length_header_step s = Ret (true, if size =? 0 then at_chunk d SeekingEndOfFinalChunk None
      else at_chunk d SeekingEndOfChunk (Some (Z.of_nat (length hex) + 2 + size)))) as Hstep.
    { unfold length_header_step. change (data_so_far s) with d. rewrite Hfound. cbn [exec_bind col_offset col_chunk_size col_length].
      rewrite split_off_Ret by lia. cbn [exec_bind snd]. rewrite drop_0. reflexivity. }
    unfold s in Hstep. unfold s. rewrite Hstep. cbn [exec_bind]. subst fuel'.
    destruct Hcase as [(-> & -> & ->)|(x & cs' & -> & Hx & Hcs' & ->)].
    + change (0 =? 0) with true. destruct (final_advances fuel d q rs Hrs) as (o & s' & Ho & Ha); [by rewrite Hd0, <- !app_assoc|].
      by exists o, s'.
    + destruct (Z.eqb_spec (Z.of_nat (length x)) 0); [by destruct x|].
      destruct (data_advances fuel d q (hex ++ CRLF ++ x) cs' rs) as (o & s' & Ho & Ha); [|done..| |].
      * rewrite !length_app. cbn. lia.
      * by rewrite Hd0, <- !app_assoc.
      * exists o, s'. split; [|done]. rewrite <- Ho. do 3 f_equal. rewrite !length_app. cbn. lia.
  - rewrite (chunk_header_kept hex size d a) by done. cbn [exec_bind]. eexists _, _. split; [reflexivity|].
    split; [|split; [done|]].
    + cbn [with_data at_chunk data_so_far]. rewrite Hd0, <- app_assoc, <- Ht. by apply p_chunk.
    + intros ->. by symmetry in Hq; apply app_eq_nil in Hq as [-> _].
Qed.

(** ** Every call of the framer *)
Lemma http_advances s q :
  position s (data_so_far s ++ q) → ∃ o s', http_take_frame s = Ret (o, s') ∧ advances s o s' q.
Proof.
  intros Hp. unfold http_take_frame. remember (data_so_far s ++ q) as t eqn:Ht. symmetry in Ht.
  destruct Hp; cbn [data_so_far at_start in_header at_body at_chunk] in Ht;
    cbn [transfer_encoding_chunked at_start in_header at_body at_chunk];
    first [rewrite bool_decide_eq_false_2 by (try done; by destruct (seen_chunked ls))|rewrite bool_decide_eq_true_2 by done].
  - by eapply start_advances.
  - by eapply header_advances.
  - by eapply body_advances.
  - by eapply (chunk_advances 2).
  - by eapply (data_advances 3).
  - by eapply (final_advances 3).
Qed.
Lemma http_receives s c q : position s (data_so_far s ++ c ++ q) → position (http_add_data c s) (data_so_far (http_add_data c s) ++ q).
Proof.
  unfold http_add_data. cbn [data_so_far with_data]. rewrite app_assoc. generalize ((data_so_far s ++ c) ++ q).
  intros t Hp. destruct Hp; by constructor.
Qed.

(** ** A header cut between CR and LF *)

Lemma digits_before_cr x : ∀ index acc n e z, digits_loop (x ++ [13]) index acc n = Some (e, z) → (e <= index + length x)%nat.
Proof.
  induction x as [|b x IH]; intros index acc n e z; cbn [app digits_loop length].
  - cbn. destruct (n =? 0)%nat; [done|]. intros [= <- _]. lia.
  - destruct (evaluate_hex_digit b).
    + destruct (n =? 8)%nat; [done|]. destruct (checked_mul _ _ _); [|done]. destruct (checked_add _ _ _); [|done].
      intros H%IH. lia.
    + destruct (n =? 0)%nat; [done|]. intros [= <- _]. lia.
Qed.
Lemma no_header_with_cr l offs : Forall (fun o => o <= length l)%nat offs → first_header (l ++ [13]) offs = Ret None.
Proof.
  induction 1 as [|o offs Ho _ IH] using Forall_ind; [done|]. cbn [first_header].
  assert (header_at (l ++ [13]) o = Ret None) as ->; [|done]. unfold header_at, parse_chunk_size_at.
  rewrite drop_app_le by done. destruct (digits_loop _ _ _ _) as [[e z]|] eqn:E; [|done].
  apply digits_before_cr in E. rewrite length_drop in E. rewrite (proj2 (Nat.eqb_neq _ _)) by (rewrite length_app; cbn; lia).
  destruct (index_Ret (l ++ [13]) e) as (b & -> & _); [rewrite length_app; cbn; lia|]. cbn [exec_bind].
  destruct (b =? 59); [|done]. rewrite slice_tail_Ret by (rewrite length_app; cbn; lia). cbn [exec_bind].
  rewrite drop_app_le by lia. unfold valid_chunk_extension.
  assert (forallb (fun b => (b =? 9) || ((32 <=? b) && (b <=? 126))) (drop e l ++ [13]) = false) as Hf
    by (rewrite forallb_app; cbn; by rewrite andb_false_r).
  destruct (drop e l ++ [13]) as [|c ext]; [done|]. rewrite Hf. by rewrite andb_false_r.
Qed.

(** Of a line of nine bytes or more whose CR has come the last nine bytes are
    kept. *)
Lemma last_nine_kept l :
  no_cr l → (9 <= length l)%nat → Z.of_nat (length l) < MAX_HTTP_HEADER_BYTES →
  http_take_frame (at_chunk (l ++ [13]) SeekingLengthHeader None)
  = Ret (None, at_chunk (drop (length l - 8) (l ++ [13])) SeekingLengthHeader None).
Proof.
  intros Hcr H9 Hmax. unfold http_take_frame. rewrite bool_decide_eq_true_2 by done. unfold take_chunk_frame.
  remember 3%nat as fuel. cbn [chunk_frame_loop at_chunk chunk_progress_state]. unfold length_header_step. cbn [at_chunk data_so_far].
  assert (index_of (l ++ [13]) CRLF = None) as Hidx.
  { apply (index_line_cut l (l ++ [13]) [10]); [done|by rewrite <- app_assoc|done]. }
  unfold find_chunk_offset_length. cbn [chunk_loop]. rewrite slice_tail_Ret, drop_0 by lia. cbn [exec_bind].
  unfold find_next_chunk_offset_length. rewrite Hidx. cbn [exec_bind].
  assert (length (l ++ [13%Z]) = S (length l)) as Hlen by (rewrite length_app; cbn; lia). rewrite Hlen.
  rewrite (proj2 (Z.ltb_ge _ _)) by lia. unfold find_incomplete_chunk_header_offset. rewrite no_last_crlf by done.
  rewrite slice_tail_Ret, drop_0 by lia. cbn [exec_bind]. unfold partial_chunk_header_offset.
  rewrite no_header_with_cr by (apply Forall_seq; rewrite Hlen; lia). cbn [exec_bind fmap option_fmap option_map].
  rewrite (proj2 (Nat.ltb_lt _ _)) by (unfold BYTES_TO_PRESERVE; lia). unfold BYTES_TO_PRESERVE.
  rewrite split_off_Ret by (rewrite Hlen; lia). cbn [exec_bind snd]. subst fuel. reflexivity.
Qed.

(** The digits of a size end where its extension starts. *)
Lemma digits_extended hex ext : ∀ index acc n size,
  hex_number acc hex = Some size → (n + length hex <= 8)%nat → 0 ≤ acc < 16 ^ Z.of_nat n → (0 < n + length hex)%nat →
  digits_loop (hex ++ 59 :: ext) index acc n = Some ((index + length hex)%nat, size).
Proof.
  induction hex as [|d hex IH]; intros index acc n size; cbn [hex_number app digits_loop length].
  - intros [= <-] Hn Hacc Hpos. change (evaluate_hex_digit 59) with (@None Z). cbv iota.
    rewrite (proj2 (Nat.eqb_neq _ _)) by lia. by rewrite Nat.add_0_r.
  - destruct (evaluate_hex_digit d) as [x|] eqn:E; [|done]. apply hex_digit_range in E as [Hx _].
    intros Hh Hn Hacc _. rewrite (proj2 (Nat.eqb_neq n 8)) by lia.
    assert (16 ^ Z.of_nat (n + 1) = 16 * 16 ^ Z.of_nat n) as Hp by (rewrite Nat2Z.inj_add, Z.pow_add_r by lia; lia).
    assert (16 ^ Z.of_nat (n + 1) ≤ 16 ^ 8) by (apply Z.pow_le_mono_r; lia).
    unfold checked_mul, checked_add. rewrite !decide_True by (unfold in_u; lia).
    rewrite (IH (index + 1)%nat (acc * 16 + x) (n + 1)%nat size); [|done|lia|lia|lia]. f_equal. f_equal. lia.
Qed.

Lemma extension_bytes ext :
  valid_chunk_extension ext = true → (∃ rest, ext = 59 :: rest) ∧ no_cr ext.
Proof.
  unfold valid_chunk_extension. destruct ext as [|b rest]; [done|]. intros [->%Z.eqb_eq H]%andb_true_iff.
  split; [by eexists|]. apply List.Forall_forall. intros c Hc. rewrite forallb_forall in H. specialize (H c Hc).
  apply orb_true_iff in H as [H%Z.eqb_eq|[H%Z.leb_le _]%andb_true_iff]; lia.
Qed.

(** A header with an extension is found where it is. *)
Lemma extended_header_found hex size ext :
  chunk_header hex size → valid_chunk_extension ext = true → Z.of_nat (length (hex ++ ext)) < MAX_HTTP_HEADER_BYTES →
  find_chunk_offset_length ((hex ++ ext) ++ CRLF)
  = Ret (Some (mkChunkHeader O (Z.of_nat (length (hex ++ ext)) + 2 + size) size)) ∧ 0 ≤ size < 16 ^ 8.
Proof.
  intros Hh Hext Hmax. pose proof (header_at_hex hex size Hh) as [_ Hs]. split; [|done].
  destruct Hh as (Hne & Hlen & Hn). pose proof (extension_bytes ext Hext) as [[rest He] Hcr].
  assert (no_cr (hex ++ ext)) as Hnocr by (apply Forall_app; split; [by eapply hex_no_cr|done]).
  assert (header_at (hex ++ ext) O = Ret (Some (O, size))) as Hat.
  { unfold header_at, parse_chunk_size_at. rewrite drop_0. rewrite He at 1.
    rewrite (digits_extended hex rest 0 0 0 size); [|done|lia|cbn; lia|destruct hex; [done|cbn; lia]].
    cbn [Nat.add]. rewrite (proj2 (Nat.eqb_neq _ _)) by (rewrite length_app, He; cbn; lia).
    unfold index. rewrite He at 1. rewrite list_lookup_middle by done. cbn [exec_bind].
    rewrite slice_tail_Ret by (rewrite length_app; lia). cbn [exec_bind]. by rewrite drop_app_length, Hext. }
  unfold find_chunk_offset_length. cbn [chunk_loop]. rewrite slice_tail_Ret, drop_0 by lia. cbn [exec_bind].
  unfold find_next_chunk_offset_length.
  pose proof (index_line (hex ++ ext) [] Hnocr) as Hidx. rewrite app_nil_r in Hidx. rewrite Hidx.
  destruct (length (hex ++ ext)) as [|k] eqn:El; [by destruct hex|].
  rewrite slice_Ret by (rewrite ?(length_app (hex ++ ext)); lia). rewrite Nat.sub_0_r, drop_0. cbn [exec_bind].
  rewrite take_app_le, take_ge by lia. unfold parse_chunk_header_line. rewrite El. cbn [seq first_header]. rewrite Hat.
  cbn [exec_bind]. unfold MAX_HTTP_HEADER_BYTES in Hmax. unfold checked_add.
  rewrite !decide_True by (unfold in_u; lia). cbn. do 3 f_equal. lia.
Qed.

(** [C39] The size of a chunk is lost when a read ends between the CR and the LF
    of its header, if the header has an extension of eight bytes or more.  When
    the whole header of a chunk that is not empty comes at once, it is handed
    out and the framer waits for as many bytes as it says; when the LF is
    missing, the framer keeps the last eight bytes of the extension and the CR,
    the same whatever the size is, to read a size from them when the LF comes. *)
Theorem split_chunk_header_lost hex size ext :
  chunk_header hex size → 0 < size → valid_chunk_extension ext = true → (8 <= length ext)%nat →
  Z.of_nat (length (hex ++ ext)) < MAX_HTTP_HEADER_BYTES →
  http_take_frame (at_chunk ((hex ++ ext) ++ CRLF) SeekingLengthHeader None)
    = Ret (Some (mkFramed ((hex ++ ext) ++ CRLF) false), at_chunk [] SeekingEndOfChunk (Some size)) ∧
  http_take_frame (at_chunk ((hex ++ ext) ++ [13]) SeekingLengthHeader None)
    = Ret (None, at_chunk (drop (length ext - 8) ext ++ [13]) SeekingLengthHeader None).
Proof.
  intros Hh Hpos Hext H8 Hmax. destruct (extended_header_found hex size ext Hh Hext Hmax) as [Hfound Hs].
  pose proof (extension_bytes ext Hext) as [_ Hcr]. destruct Hh as (Hne & Hlen & Hn).
  assert (1 <= length hex)%nat as H1 by (destruct hex; [done|cbn; lia]). split.
  - unfold http_take_frame. rewrite bool_decide_eq_true_2 by done. unfold take_chunk_frame.
    remember 2%nat as fuel. cbn [chunk_frame_loop at_chunk chunk_progress_state].
    unfold length_header_step. cbn [at_chunk data_so_far]. rewrite Hfound. cbn [exec_bind col_offset col_chunk_size col_length].
    rewrite split_off_Ret by lia. cbn [exec_bind snd]. rewrite drop_0, (proj2 (Z.eqb_neq _ _)) by lia.
    cbn [with_chunk with_data at_chunk chunk_progress_state]. unfold end_of_chunk_step.
    cbn [with_chunk with_data at_chunk chunk_size expect exec_bind data_so_far chunk_progress_state].
    assert (length ((hex ++ ext) ++ CRLF) = (length (hex ++ ext) + 2)%nat) as Hlc by (by rewrite length_app).
    unfold MAX_HTTP_HEADER_BYTES in Hmax. unfold checked_add. rewrite decide_True by (unfold in_u; lia).
    rewrite Hlc, (proj2 (Z.leb_gt _ _)) by lia. cbn [negb].
    rewrite (proj2 (Z.eqb_neq _ _)), (proj2 (Nat.eqb_neq _ _)) by lia. cbn [orb].
    rewrite Z.min_l, Nat2Z.id by lia. rewrite <- Hlc, split_off_Ret by lia. cbn [exec_bind fst snd].
    rewrite take_ge, drop_ge by lia. unfold usize_sub. rewrite Hlc, (proj2 (Z.leb_le _ _)) by lia. cbn [exec_bind].
    replace (Z.of_nat (length (hex ++ ext)) + 2 + size - Z.of_nat (length (hex ++ ext) + 2)) with size by lia.
    reflexivity.
  - rewrite last_nine_kept; [|apply Forall_app; split; [by eapply hex_no_cr|done]|rewrite length_app; lia|done].
    do 3 f_equal. rewrite <- app_assoc, drop_app_ge, drop_app_le by (rewrite length_app; lia).
    do 2 f_equal. rewrite length_app. lia.
Qed.
