(* ===== verification/Hostname.v ===== *)
(** * Hostname: requests to the node's own machine

    [Hostname] of [proxy_server/mod.rs] keeps the browser from reaching loopback
    and wildcard addresses through the network; it reads addresses with
    [IpAddr::from_str] of the standard library, whose parser is modelled here on
    the bytes of the text. *)

From Stdlib Require Import ZArith Lia String Ascii.
From stdpp Require Import base list numbers option.
From S2P Require Import Prelude Text CountryFinder ProtocolPack.

Local Open Scope Z_scope.
Local Open Scope list_scope.

(** ** [std::net::parser] *)

(** A reader consumes a prefix or, failing, nothing. *)
Definition reader (A : Type) : Type := list Z → option (A * list Z).
Definition rd_bind {A B} (c : reader A) (k : A → reader B) : reader B := fun bs =>
  match c bs with Some (x, bs) => k x bs | None => None end.
Notation "'rd*' x := c 'in' k" := (rd_bind c (fun x => k))
  (at level 10, x pattern, c at level 100, k at level 200).
Definition rd_ret {A} (x : A) : reader A := fun bs => Some (x, bs).

Definition read_given_char (c : Z) : reader unit := fun bs =>
  match bs with b :: bs => if b =? c then Some ((), bs) else None | [] => None end.

(** [char::to_digit] *)
Definition to_digit (radix b : Z) : option Z :=
  let d := if (48 <=? b) && (b <=? 57) then Some (b - 48)
           else if (97 <=? b) && (b <=? 122) then Some (b - 87)
           else if (65 <=? b) && (b <=? 90) then Some (b - 55) else None in
  match d with Some d => if d <? radix then Some d else None | None => None end.

(** [read_number]: the digits, at most [max_digits] of them and of a value below
    the bound of the type. *)
Fixpoint read_digits (radix bound : Z) (max_digits : nat) (value : Z) (count : nat) (bs : list Z)
    : option (Z * nat * list Z) :=
  match bs with
  | b :: rest =>
      match to_digit radix b with
      | Some d =>
          let value := value * radix + d in
          if (bound <=? value) || (max_digits <? S count)%nat then None
          else read_digits radix bound max_digits value (S count) rest
      | None => Some (value, count, bs)
      end
  | [] => Some (value, count, [])
  end.
Definition read_number (radix bound : Z) (max_digits : nat) (allow_zero_prefix : bool) : reader Z := fun bs =>
  let has_leading_zero := match bs with b :: _ => b =? 48 | [] => false end in
  match read_digits radix bound max_digits 0 0 bs with
  | Some (value, count, rest) =>
      if (count =? 0)%nat || (negb allow_zero_prefix && has_leading_zero && (1 <? count)%nat) then None
      else Some (value, rest)
  | None => None
  end.

Definition read_separated {A} (sep : Z) (index : nat) (inner : reader A) : reader A :=
  if (index =? 0)%nat then inner else rd* _ := read_given_char sep in inner.

(** [read_ipv4_addr]: the address as a number *)
Fixpoint read_octets (index n : nat) (value : Z) : reader Z :=
  match n with
  | O => rd_ret value
  | S n =>
      rd* octet := read_separated 46 index (read_number 10 256 3 false) in
      read_octets (S index) n (value * 256 + octet)
  end.
Definition read_ipv4_addr : reader Z := read_octets 0 4 0.

(** [read_groups]: the groups of sixteen bits, and whether an IPv4 address ended
    them; a group that cannot be read ends them too. *)
Fixpoint read_groups (index n : nat) : list Z → list Z * bool * list Z := fun bs =>
  match n with
  | O => ([], false, bs)
  | S n' =>
      let v4 := if (1 <? n)%nat then read_separated 58 index read_ipv4_addr bs else None in
      match v4 with
      | Some (ip, bs) => ([ip / 65536; ip mod 65536], true, bs)
      | None =>
          match read_separated 58 index (read_number 16 65536 4 true) bs with
          | Some (group, bs) =>
              let '(groups, ipv4, bs) := read_groups (S index) n' bs in (group :: groups, ipv4, bs)
          | None => ([], false, bs)
          end
      end
  end.
Definition read_ipv6_addr : reader Z := fun bs =>
  let '(head, head_ipv4, bs) := read_groups 0 8 bs in
  if (length head =? 8)%nat then Some (undigits 16 0 head, bs)
  else if head_ipv4 then None
  else
    (rd* _ := read_given_char 58 in
     rd* _ := read_given_char 58 in
     fun bs =>
       let '(tail, _, bs) := read_groups 0 (8 - (length head + 1)) bs in
       Some (undigits 16 0 (head ++ repeat 0 (8 - length head - length tail) ++ tail), bs)) bs.

Definition ip_from_str (s : string) : option IpAddr :=
  let bs := string_bytes s in
  match read_ipv4_addr bs with
  | Some (ip, []) => Some (IpV4 ip)
  | Some _ => None
  | None => match read_ipv6_addr bs with Some (ip, []) => Some (IpV6 ip) | _ => None end
  end.

(** ** [Hostname] *)

Definition hostname_new `{H : HttpCrates} (raw_url : string) : string :=
  match hostname_pattern raw_url with Some m => m | None => raw_url end.

Definition validate_ipv4 (addr : Z) : result unit string :=
  if addr =? 0 then Err "0.0.0.0"%string
  else if addr =? 2130706433 then Err "127.0.0.1"%string else Ok ().
Definition validate_ipv6 (addr : Z) : result unit string :=
  if addr =? 0 then Err "::"%string else if addr =? 1 then Err "::1"%string else Ok ().
Definition validate_raw_string (name : string) : result unit string :=
  if bool_decide (name = "localhost"%string) then Err "localhost"%string else Ok ().
Definition validate_non_loopback_host (hostname : string) : result unit string :=
  match ip_from_str hostname with
  | Some (IpV4 addr) => validate_ipv4 addr
  | Some (IpV6 addr) => validate_ipv6 addr
  | None => validate_raw_string hostname
  end.

(** ** Addresses as they are written *)

Definition dotted (a b c d : Z) : string := (dec a ++ "." ++ dec b ++ "." ++ dec c ++ "." ++ dec d)%string.

Example ip_texts :
  ip_from_str "192.168.1.255" = Some (IpV4 3232236031) ∧ ip_from_str "192.168.01.1" = None ∧
  ip_from_str "256.1.1.1" = None ∧ ip_from_str "::" = Some (IpV6 0) ∧ ip_from_str "::1" = Some (IpV6 1) ∧
  ip_from_str "0:0:0:0:0:0:0:1" = Some (IpV6 1) ∧ ip_from_str "::ffff:127.0.0.1" = Some (IpV6 281472812449793) ∧
  ip_from_str "1::2::3" = None ∧ ip_from_str "fe80::1:" = None ∧ ip_from_str "12345::" = None.
Proof. by vm_compute. Qed.
