(* ===== verification/ProxyServer.v ===== *)
(** * ProxyServer: between the browser and the network

    [proxy_server/mod.rs] and [proxy_server/client_request_payload_factory.rs]:
    the actor that turns the bytes of a browser into requests on routes of the
    network and the responses back into bytes, asks for routes, accounts for
    what it consumes, retries name resolution, and acknowledges the receipts of
    its providers.  Log messages are left out and every recipient accepts what
    it is sent.

    Times are nanoseconds since the Unix epoch.  Futures that wait for the
    neighborhood are messages of their own: what they were started with, and the
    answer.  The texts of errors are the constructors of [ProxyError]. *)

From Stdlib Require Import ZArith Lia String Ascii.
From stdpp Require Import base list numbers option gmap.
From S2P Require Import Prelude Text SequenceBuffer CountryFinder CryptDE Wallet ServiceReceipt.
From S2P Require Import Route Eip712 ReceiptSession NodeRecord RouteFinder RouteQuery VersionedData Migrations.
From S2P Require Import CoresPackage Hopper AckOutbox StreamTables ProtocolPack Hostname.

Local Open Scope Z_scope.
Local Open Scope rust_scope.
Local Open Scope list_scope.

Definition STREAM_KEY_PURGE_DELAY : Z := 30 * 10 ^ 9.
Definition DNS_FAILURE_RETRIES : Z := 3.
Definition MAX_PENDING_ROUTE_PACKETS_PER_STREAM : nat := 32.
Definition MAX_PENDING_ROUTE_BYTES_PER_STREAM : Z := 1048576.
Definition MAX_PENDING_RECEIPT_OFFERS : nat := 4096.
Definition MAX_RECEIPT_ACKNOWLEDGEMENT_RECOVERY_BATCH : nat := 64.

(** ** Data *)

Global Instance SocketAddr_eq_dec : EqDecision SocketAddr.
Proof. solve_decision. Defined.
Global Instance SocketAddr_countable : Countable SocketAddr.
Proof.
  apply (inj_countable' (fun a => (sock_ip a, sock_port a)) (fun p => mkSocket p.1 p.2)). by intros [].
Defined.

Inductive ExpectedServices :=
| OneWay (services : list ExpectedService)
| RoundTrip (request response : list ExpectedService).

(** [RouteQueryResponse], with both shapes of its services. *)
Record SelectedRoute := mkSelected {
  sel_route : Route;
  expected_services : ExpectedServices;
  sel_host : Host;
}.
(** The neighborhood answers with round trips only. *)
Definition selected (r : RouteQueryResponse) : SelectedRoute :=
  mkSelected (response_route r) (RoundTrip (request_services r) (response_services r)) (response_host r).

Record DNSFailureRetry := mkRetry {
  unsuccessful_request : ClientRequestPayload_0v1;
  retries_left : Z;
  active_attempt_id : Z;
}.

Record StreamInfo := mkStreamInfo {
  tunneled_host_opt : option string;
  dns_failure_retry_opt : option DNSFailureRetry;
  route_opt : option SelectedRoute;
  protocol_opt : option ProxyProtocol;
  browser_proxy_sequence_offset : bool;
  response_sequence_replay_window : ResponseSequenceReplayWindow;
  request_started_at_opt : option Z;
  time_to_live_opt : option Z;
  route_success_reported : bool;
}.

(** [retire_stream_key] stands for [retire_stream_key_sub_opt.is_some()]. *)
Record TransmitToHopperArgs := mkArgs {
  args_main_cryptde : CryptDE;
  args_payload : ClientRequestPayload_0v1;
  args_return_route_id : Z;
  args_route_request_id : Z;
  args_client_addr : SocketAddr;
  args_timestamp : Z;
  args_is_decentralized : bool;
  args_require_service_receipt_capability : bool;
  retire_stream_key : bool;
}.
Definition with_route_request_id (id : Z) (a : TransmitToHopperArgs) : TransmitToHopperArgs :=
  mkArgs (args_main_cryptde a) (args_payload a) (args_return_route_id a) id (args_client_addr a) (args_timestamp a)
    (args_is_decentralized a) (args_require_service_receipt_capability a) (retire_stream_key a).

Record PendingRouteRequest := mkPendingRoute {
  pr_route_request_id : Z;
  queued_payload_bytes : Z;
  packets : list TransmitToHopperArgs;
}.

Record ExitServiceConsumed := mkExitConsumed {
  ex_earning_wallet : WalletKind;
  ex_payload_size : nat;
  ex_service_rate : Z;
  ex_byte_rate : Z;
}.
Record RoutingServiceConsumed := mkRoutingConsumed {
  ro_earning_wallet : WalletKind;
  ro_service_rate : Z;
  ro_byte_rate : Z;
}.
Record ReportServicesConsumedMessage := mkServicesConsumed {
  sc_timestamp : Z;
  sc_exit : ExitServiceConsumed;
  sc_routing_payload_size : nat;
  sc_routing : list RoutingServiceConsumed;
}.
Record ReportRoutingServicesConsumedMessage := mkRoutingServicesConsumed {
  rc_timestamp : Z;
  rc_payload_size : nat;
  rc_routing : list RoutingServiceConsumed;
}.

Record NonClandestineAttributes := mkNonClandestine { reception_port : Z; nca_sequence_number : Z }.
Inductive RemovedStreamType := Clandestine | NonClandestine (nca : NonClandestineAttributes).
Record StreamShutdownMsg := mkShutdown {
  peer_addr : SocketAddr;
  stream_type : RemovedStreamType;
  report_to_counterpart : bool;
}.

Inductive ProxyError :=
| ClockBeforeEpoch
| NoProtocol (s : string)
| ConsumingWalletMissing
| NoPayloadCreated
| SessionProblem (e : ReceiptSessionManagerError)
| WildcardIp (s : string)
| RouteNotFound
| NeighborhoodRefused
| OneWayServices
| NoExitService
| MoreThanOneExitService
| PackageProblem (e : PackageError)
| ByteCountOverflow
| PendingQueueOverflow
| InitialPayloadOverflow
| RouteRequestIdOverflow
| DnsAttemptIdOverflow
| ExistingPendingRequest
| OutboxProblem (e : OutboxError).

Record AddRouteResultMessage := mkAddRoute {
  ar_stream_key : StreamKey;
  ar_route_request_id : Z;
  ar_result : result SelectedRoute ProxyError;
}.
Record RecordExitRequestForReceipt := mkRecordExit {
  re_stream_key : StreamKey;
  re_payload_size : Z;
  re_routing_payload_size : Z;
}.

(** What the user interface asks about receipt sessions, and is answered. *)
Inductive UiRequest :=
| UiProposal (max_total_charge_wei : string) (duration_seconds : Z)
| UiActivate (proposal_id wallet_signature : string)
| UiStatus
| UiStop.
Record UiReceiptSessionStatus := mkUiStatus {
  ui_active : bool;
  ui_protocol_version_opt : option Z;
  ui_chain_name_opt : option string;
  ui_chain_id_opt : option Z;
  ui_masq_token_contract_opt : option string;
  ui_settlement_contract_opt : option string;
  ui_payer_wallet_address_opt : option string;
  ui_payer_session_public_key_opt : option string;
  ui_authorization_id_opt : option string;
  ui_max_total_charge_wei_opt : option string;
  ui_spent_charge_wei_opt : option string;
  ui_remaining_charge_wei_opt : option string;
  ui_valid_from_unix_s_opt : option Z;
  ui_expires_at_unix_s_opt : option Z;
}.
Record UiReceiptSessionProposal := mkUiProposal {
  ui_proposal_id : string;
  ui_protocol_version : Z;
  ui_chain_name : string;
  ui_chain_id : Z;
  ui_masq_token_contract : string;
  ui_settlement_contract : string;
  ui_payer_wallet_address : string;
  ui_payer_session_public_key : string;
  ui_max_total_charge_wei : string;
  ui_valid_from_unix_s : Z;
  ui_expires_at_unix_s : Z;
  ui_authorization_id : string;
  ui_eip712_typed_data : Json;
}.
Inductive UiResponse :=
| UiProposalResponse (p : UiReceiptSessionProposal)
| UiActivateResponse (s : UiReceiptSessionStatus)
| UiStatusResponse (s : UiReceiptSessionStatus)
| UiStopResponse (s : UiReceiptSessionStatus)
| UiSessionUnavailable
| UiSessionError (e : ProxyError).

(** What is sent, to whom; the last six go to the actor itself. *)
Inductive PsOut :=
| ToBrowser (m : TransmitDataMsg)
| ToNetwork (p : IncipientCoresPackage)
| ServicesConsumed (m : ReportServicesConsumedMessage)
| RoutingServicesConsumed (m : ReportRoutingServicesConsumedMessage)
| RouteUseFailed
| RouteUseSucceeded
| NodeMetadata (k : PublicKey) (c : NRMetadataChange)
| ReportRouteHops (n : nat)
| UiReply (client_id context_id : Z) (r : UiResponse)
| AskRoute (args : TransmitToHopperArgs) (q : RouteQueryMessage)
| AskReceiptRoute (p : ServiceReceiptPayload_0v1) (m : MessageType) (q : RouteQueryMessage)
| RouteResult (m : AddRouteResultMessage)
| ShutDownStream (m : StreamShutdownMsg)
| SchedulePurge (k : StreamKey) (delay : Z)
| PurgeLater (k : StreamKey) (delay : Z)
| RetryAcknowledgements (schedule_after_delay : bool)
| RetryLater (delay : Z)
| ExitRequestSent (m : RecordExitRequestForReceipt).

(** ** Keys of streams *)

(** [add_socket_addr_to_hash]: the bytes of a client's address that are hashed *)
Definition socket_addr_bytes (a : SocketAddr) : list Z :=
  (match sock_ip a with IpV4 ip => be_bytes 4 ip | IpV6 ip => be_bytes 16 ip end)
  ++ [Z.land (sock_port a) 255; Z.shiftr (sock_port a) 8].
(** [StreamKey::new], with the crate's SHA-1 and the salt of the process *)
Definition make_stream_key (sha1 : list Z → list Z) (salt : list Z) (public_key : PublicKey) (client_addr : SocketAddr)
    : StreamKey :=
  sha1 (public_key ++ socket_addr_bytes client_addr ++ salt).

(** ** The actor *)

(** What does not change once the actor is made. *)
Record ProxyConfig := mkProxyConfig {
  is_decentralized : bool;
  consuming_wallet_balance : option Z;
  main_cryptde : CryptDE;
  alias_cryptde : CryptDE;
  stream_key_purge_delay : Z;
  is_running_in_integration_test : bool;
}.

(** [bound] stands for [subs.is_some()]; [St] is the store of the receipt
    session manager. *)
Record Proxy (St : Type) := mkProxy {
  cfg : ProxyConfig;
  bound : bool;
  keys_and_addrs : BidiHashMap StreamKey SocketAddr;
  stream_infos : gmap StreamKey StreamInfo;
  pending_route_requests : gmap StreamKey PendingRouteRequest;
  next_return_route_id : Z;
  next_route_request_id : Z;
  receipt_session_manager_opt : option (Manager St);
  pending_receipt_offers : gmap (list Z) ServiceReceiptOfferPayload_0v1;
  receipt_acknowledgement_outbox_opt : option Outbox;
  receipt_acknowledgement_retry_scheduled : bool;
}.
Arguments mkProxy {St}.
Arguments cfg {St}.
Arguments bound {St}.
Arguments keys_and_addrs {St}.
Arguments stream_infos {St}.
Arguments pending_route_requests {St}.
Arguments next_return_route_id {St}.
Arguments next_route_request_id {St}.
Arguments receipt_session_manager_opt {St}.
Arguments pending_receipt_offers {St}.
Arguments receipt_acknowledgement_outbox_opt {St}.
Arguments receipt_acknowledgement_retry_scheduled {St}.

(** The clock and the random bytes of one handler. *)
Record ProxyEnv := mkProxyEnv { pe_now : Z; pe_rand : nat → list Z }.
Definition unix_time_now (env : ProxyEnv) : result Z ProxyError :=
  if pe_now env <? 0 then Err ClockBeforeEpoch else Ok (pe_now env / 10 ^ 9).

Section Actor.
Context {St : Type}.
Abbreviation proxy := (Proxy St).

Definition proxy_new (c : ProxyConfig) : proxy :=
  mkProxy c false bidi_new ∅ ∅ 1 1 None ∅ None false.

(** A handler changes the actor, sends messages and may panic. *)
Definition ps (A : Type) : Type := proxy → exec (A * proxy * list PsOut).
Definition ps_ret {A} (x : A) : ps A := fun s => Ret (x, s, []).
Definition ps_bind {A B} (c : ps A) (k : A → ps B) : ps B := fun s =>
  match c s with
  | Panic => Panic
  | Ret (x, s, out) =>
      match k x s with
      | Panic => Panic
      | Ret (y, s, out') => Ret (y, s, out ++ out')
      end
  end.
Notation "'ps*' x := c 'in' k" := (ps_bind c (fun x => k))
  (at level 10, x pattern, c at level 100, k at level 200) : rust_scope.
Notation "'do*' c 'in' k" := (ps_bind c (fun _ => k))
  (at level 10, c at level 100, k at level 200) : rust_scope.
(** the operator [?] inside a handler *)
Definition ps_try {A B E} (c : ps (result A E)) (k : A → ps (result B E)) : ps (result B E) :=
  ps_bind c (fun r => match r with Ok x => k x | Err e => ps_ret (Err e) end).
Notation "'ps!' x := c 'in' k" := (ps_try c (fun x => k))
  (at level 10, x pattern, c at level 100, k at level 200) : rust_scope.

Definition get {A} (f : proxy → A) : ps A := fun s => Ret (f s, s, []).
Definition modify (f : proxy → proxy) : ps unit := fun s => Ret ((), f s, []).
Definition send (o : PsOut) : ps unit := fun s => Ret ((), s, [o]).
Definition run {A} (e : exec A) : ps A := fun s => match e with Ret x => Ret (x, s, []) | Panic => Panic end.
Definition when (b : bool) (c : ps unit) : ps unit := if b then c else ps_ret ().
(** [out_subs] and [self.subs.as_ref().expect(...)] *)
Definition out_subs : ps unit := ps* b := get bound in if b then ps_ret () else run Panic.

(** Assignments to fields. *)
Definition set_bound (s : proxy) : proxy :=
  mkProxy (cfg s) true (keys_and_addrs s) (stream_infos s) (pending_route_requests s) (next_return_route_id s)
    (next_route_request_id s) (receipt_session_manager_opt s) (pending_receipt_offers s)
    (receipt_acknowledgement_outbox_opt s) (receipt_acknowledgement_retry_scheduled s).
(** the three tables of the streams *)
Definition set_streams (keys : BidiHashMap StreamKey SocketAddr) (infos : gmap StreamKey StreamInfo)
    (pending : gmap StreamKey PendingRouteRequest) (s : proxy) : proxy :=
  mkProxy (cfg s) (bound s) keys infos pending (next_return_route_id s)
    (next_route_request_id s) (receipt_session_manager_opt s) (pending_receipt_offers s)
    (receipt_acknowledgement_outbox_opt s) (receipt_acknowledgement_retry_scheduled s).
Definition set_infos (infos : gmap StreamKey StreamInfo) (s : proxy) : proxy :=
  set_streams (keys_and_addrs s) infos (pending_route_requests s) s.
Definition set_pending_routes (pending : gmap StreamKey PendingRouteRequest) (s : proxy) : proxy :=
  set_streams (keys_and_addrs s) (stream_infos s) pending s.
Definition set_ids (return_id request_id : Z) (s : proxy) : proxy :=
  mkProxy (cfg s) (bound s) (keys_and_addrs s) (stream_infos s) (pending_route_requests s) return_id
    request_id (receipt_session_manager_opt s) (pending_receipt_offers s)
    (receipt_acknowledgement_outbox_opt s) (receipt_acknowledgement_retry_scheduled s).
(** the fields of receipts *)
Definition set_receipts (m : option (Manager St)) (offers : gmap (list Z) ServiceReceiptOfferPayload_0v1)
    (outbox : option Outbox) (retry : bool) (s : proxy) : proxy :=
  mkProxy (cfg s) (bound s) (keys_and_addrs s) (stream_infos s) (pending_route_requests s) (next_return_route_id s)
    (next_route_request_id s) m offers outbox retry.
Definition set_manager (m : option (Manager St)) (s : proxy) : proxy :=
  set_receipts m (pending_receipt_offers s) (receipt_acknowledgement_outbox_opt s)
    (receipt_acknowledgement_retry_scheduled s) s.
Definition set_offers (offers : gmap (list Z) ServiceReceiptOfferPayload_0v1) (s : proxy) : proxy :=
  set_receipts (receipt_session_manager_opt s) offers (receipt_acknowledgement_outbox_opt s)
    (receipt_acknowledgement_retry_scheduled s) s.
Definition set_outbox (outbox : option Outbox) (s : proxy) : proxy :=
  set_receipts (receipt_session_manager_opt s) (pending_receipt_offers s) outbox
    (receipt_acknowledgement_retry_scheduled s) s.
Definition set_retry_scheduled (b : bool) (s : proxy) : proxy :=
  set_receipts (receipt_session_manager_opt s) (pending_receipt_offers s) (receipt_acknowledgement_outbox_opt s) b s.

(** A call of the receipt session manager, when there is one. *)
Definition call_manager {A} (c : M St A) : ps (option (result A ReceiptSessionManagerError)) := fun s =>
  match receipt_session_manager_opt s with
  | None => Ret (None, s, [])
  | Some m => let* (r, m) := c m in Ret (Some r, set_manager (Some m) s, [])
  end.

(** [enable_receipt_sessions] and [enable_receipt_acknowledgement_outbox] *)
Definition enable_receipt_sessions (c : ReceiptSessionConfig) : ps unit :=
  modify (set_manager (Some (manager_new c))).
Definition enable_receipt_acknowledgement_outbox (outbox : Outbox) : ps unit :=
  modify (set_outbox (Some outbox)).

(** ** Streams *)

Definition stream_info (k : StreamKey) : ps (option StreamInfo) := get (fun s => stream_infos s !! k).
(** an assignment through [stream_info_mut] *)
Definition update_info (k : StreamKey) (f : StreamInfo → StreamInfo) : ps unit :=
  modify (fun s => set_infos (alter f k (stream_infos s)) s).

Definition with_tunnel (host : string) (i : StreamInfo) : StreamInfo :=
  mkStreamInfo (Some host) (dns_failure_retry_opt i) (route_opt i) (protocol_opt i) true
    (response_sequence_replay_window i) (request_started_at_opt i) (time_to_live_opt i) (route_success_reported i).
Definition with_dns_retry (r : option DNSFailureRetry) (p : option ProxyProtocol) (i : StreamInfo) : StreamInfo :=
  mkStreamInfo (tunneled_host_opt i) r (route_opt i) p (browser_proxy_sequence_offset i)
    (response_sequence_replay_window i) (request_started_at_opt i) (time_to_live_opt i) (route_success_reported i).
Definition with_route (r : option SelectedRoute) (i : StreamInfo) : StreamInfo :=
  mkStreamInfo (tunneled_host_opt i) (dns_failure_retry_opt i) r (protocol_opt i) (browser_proxy_sequence_offset i)
    (response_sequence_replay_window i) (request_started_at_opt i) (time_to_live_opt i) (route_success_reported i).
Definition with_window (w : ResponseSequenceReplayWindow) (i : StreamInfo) : StreamInfo :=
  mkStreamInfo (tunneled_host_opt i) (dns_failure_retry_opt i) (route_opt i) (protocol_opt i)
    (browser_proxy_sequence_offset i) w (request_started_at_opt i) (time_to_live_opt i) (route_success_reported i).
Definition with_time_to_live (t : Z) (i : StreamInfo) : StreamInfo :=
  mkStreamInfo (tunneled_host_opt i) (dns_failure_retry_opt i) (route_opt i) (protocol_opt i)
    (browser_proxy_sequence_offset i) (response_sequence_replay_window i) (request_started_at_opt i) (Some t)
    (route_success_reported i).
Definition with_success_reported (i : StreamInfo) : StreamInfo :=
  mkStreamInfo (tunneled_host_opt i) (dns_failure_retry_opt i) (route_opt i) (protocol_opt i)
    (browser_proxy_sequence_offset i) (response_sequence_replay_window i) (request_started_at_opt i)
    (time_to_live_opt i) true.

Definition purge_stream_key (k : StreamKey) : ps unit :=
  modify (fun s => set_streams (snd (remove_a k (keys_and_addrs s))) (delete k (stream_infos s))
                     (delete k (pending_route_requests s)) s).

Definition new_stream_info (timestamp : Z) : StreamInfo :=
  mkStreamInfo None None None None false window_default (Some timestamp) None false.

(** [make_stream_key], with the hash and the salt of the process. *)
Context (stream_key_new : PublicKey → SocketAddr → StreamKey).

Definition find_or_generate_stream_key (ibcd : InboundClientData) : ps StreamKey :=
  ps* keys := get keys_and_addrs in
  match b_to_a keys (ib_client_addr ibcd) with
  | Some k => ps_ret k
  | None =>
      ps* c := get cfg in
      let k := stream_key_new (public_key (main_cryptde c)) (ib_client_addr ibcd) in
      do* modify (fun s => set_streams (bidi_insert k (ib_client_addr ibcd) (keys_and_addrs s))
                             (<[k := new_stream_info (ib_timestamp ibcd)]> (stream_infos s))
                             (pending_route_requests s) s) in
      ps_ret k
  end.

Definition schedule_stream_key_purge (env : ProxyEnv) (k : StreamKey) : ps unit :=
  ps* info := stream_info k in
  match info with
  | None => ps_ret ()
  | Some _ =>
      do* update_info k (with_time_to_live (pe_now env)) in
      do* out_subs in
      ps* c := get cfg in
      send (SchedulePurge k (stream_key_purge_delay c))
  end.
End Actor.

Notation "'ps*' x := c 'in' k" := (ps_bind c (fun x => k))
  (at level 10, x pattern, c at level 100, k at level 200) : rust_scope.
Notation "'do*' c 'in' k" := (ps_bind c (fun _ => k))
  (at level 10, c at level 100, k at level 200) : rust_scope.
Notation "'ps!' x := c 'in' k" := (ps_try c (fun x => k))
  (at level 10, x pattern, c at level 100, k at level 200) : rust_scope.

(** ** Services *)

Definition is_exit (s : ExpectedService) : bool := match s with ExitService _ _ _ => true | _ => false end.
Definition is_billable (s : ExpectedService) : bool := match s with NoService => false | _ => true end.
Definition exit_node_key_opt (s : ExpectedService) : option PublicKey :=
  match s with ExitService k _ _ => Some k | _ => None end.
Fixpoint find_map {A B} (f : A → option B) (l : list A) : option B :=
  match l with
  | [] => None
  | x :: l => match f x with Some y => Some y | None => find_map f l end
  end.
Definition first_billable (l : list ExpectedService) : option ExpectedService :=
  find_map (fun s => if is_billable s then Some s else None) l.
Definition exit_count (l : list ExpectedService) : nat := length (List.filter is_exit l).

Definition get_response_services (r : SelectedRoute) : option (list ExpectedService) :=
  match expected_services r with RoundTrip _ back => Some back | OneWay _ => None end.
Definition find_exit_node_key (l : list ExpectedService) : option PublicKey := find_map exit_node_key_opt l.

Definition receipt_exit_quote (r : SelectedRoute) : option (PublicKey * Z * Z) :=
  match get_response_services r with
  | Some l => find_map (fun s => match s with
      | ExitService k _ rate => Some (k, exit_service_rate rate, exit_byte_rate rate)
      | _ => None
      end) l
  | None => None
  end.
Definition routing_quotes (l : list ExpectedService) : list RoutingReceiptQuote :=
  omap (fun s => match s with
    | RouteQuery.RoutingService k _ rate => Some (mkQuote k (routing_service_rate rate) (routing_byte_rate rate))
    | _ => None
    end) l.
Definition receipt_routing_quotes (r : SelectedRoute) : list RoutingReceiptQuote * list RoutingReceiptQuote :=
  match expected_services r with
  | RoundTrip request response => (routing_quotes request, routing_quotes response)
  | OneWay request => (routing_quotes request, [])
  end.

Definition response_services_are_valid (l : list ExpectedService) : bool :=
  (exit_count l <=? 1)%nat
  && negb (match first_billable l with Some (RouteQuery.RoutingService _ _ _) => true | _ => false end).

Definition route_can_transmit_request (r : SelectedRoute) (decentralized : bool) : bool :=
  match expected_services r with
  | RoundTrip request response =>
      (negb decentralized || (exit_count request =? 1)%nat) && response_services_are_valid response
  | OneWay _ => false
  end.

Definition report_on_routing_services (l : list ExpectedService) : list RoutingServiceConsumed :=
  omap (fun s => match s with
    | RouteQuery.RoutingService _ w rate => Some (mkRoutingConsumed w (routing_service_rate rate) (routing_byte_rate rate))
    | _ => None
    end) l.
Definition exits (l : list ExpectedService) : list (WalletKind * RatePack) :=
  omap (fun s => match s with ExitService _ w rate => Some (w, rate) | _ => None end) l.
Definition report_on_exit_service (l : list ExpectedService) (payload_size : nat)
    : result ExitServiceConsumed ProxyError :=
  match exits l with
  | [] => Err NoExitService
  | [(w, rate)] => Ok (mkExitConsumed w payload_size (exit_service_rate rate) (exit_byte_rate rate))
  | _ => Err MoreThanOneExitService
  end.

(** The crate [serde_cbor] on acknowledgements. *)
Class AckCbor := { ser_ack : ServiceReceiptPayload_0v1 → result (list Z) string }.

Section Receipts.
Context {St : Type} `{RS : RecoveryStore St} `{SK : SessionKeys} `{E : Ethsign} `{C : Cbor}.
Context `{HC : HopCbor} `{PC : PackageCbor} `{PY : PayloadCbor} `{AC : AckCbor} `{VO : VersionOrder}.
Abbreviation proxy := (Proxy St).
Abbreviation act := (ps (St := St)).

(** ** Acknowledgements *)

(** [From<ServiceReceiptPayload_0v1> for MessageType] *)
Definition ack_message (p : ServiceReceiptPayload_0v1) : exec MessageType :=
  let* vd := versioned_new ser_ack receipt_migrations p in Ret (MtServiceReceipt vd).

Definition service_receipt_delivery_route_request (k : PublicKey) (payload_size : Z) : RouteQueryMessage :=
  mkQuery (Some k) Route.Hopper (Some Route.ProxyServer) payload_size (mkHost "" 0)
    SERVICE_RECEIPT_SETTLEMENT_V1_CAPABILITY None.

Definition persist_receipt_acknowledgement (env : ProxyEnv) (p : ServiceReceiptPayload_0v1)
    : act (result unit ProxyError) :=
  ps* outbox_opt := get receipt_acknowledgement_outbox_opt in
  match outbox_opt with
  | Some outbox =>
      match enqueue outbox p (pe_now env / 10 ^ 9) with
      | Ok outbox => do* modify (set_outbox (Some outbox)) in ps_ret (Ok ())
      | Err e => ps_ret (Err (OutboxProblem e))
      end
  | None => ps_ret (Ok ())
  end.

Definition deliver_receipt_acknowledgement (p : ServiceReceiptPayload_0v1) : act unit :=
  let provider_public_key := provider_public_key (payload_receipt p) in
  ps* receipt_message := run (ack_message p) in
  match cbor_message receipt_message with
  | Err _ => ps_ret ()
  | Ok serialized =>
      do* out_subs in
      send (AskReceiptRoute p receipt_message
              (service_receipt_delivery_route_request provider_public_key (Z.of_nat (length serialized))))
  end.

(** The future of [deliver_receipt_acknowledgement], once the neighborhood has
    answered. *)
Definition receipt_route_answered (env : ProxyEnv) (p : ServiceReceiptPayload_0v1) (receipt_message : MessageType)
    (route_result : result (option SelectedRoute) unit) : act unit :=
  let schedule_retry := send (RetryAcknowledgements true) in
  match route_result with
  | Ok (Some r) =>
      let services := match expected_services r with OneWay s | RoundTrip s _ => s end in
      ps* c := get cfg in
      ps* package := run (incipient_new (main_cryptde c) (pe_rand env 0) (sel_route r) receipt_message
                            (provider_public_key (payload_receipt p))) in
      match package with
      | Ok package =>
          let routing := report_on_routing_services services in
          do* when (negb (match routing with [] => true | _ => false end))
            (send (RoutingServicesConsumed
               (mkRoutingServicesConsumed (pe_now env) (length (icp_payload package)) routing))) in
          do* send (ToNetwork package) in
          modify (fun s => set_outbox ((fun outbox => delete_acknowledgement outbox p)
                                         <$> receipt_acknowledgement_outbox_opt s) s)
      | Err _ => schedule_retry
      end
  | Ok None | Err _ => schedule_retry
  end.

Fixpoint deliver_all (l : list ServiceReceiptPayload_0v1) : act unit :=
  match l with
  | [] => ps_ret ()
  | p :: l => do* deliver_receipt_acknowledgement p in deliver_all l
  end.
Definition replay_persisted_receipt_acknowledgements : act unit :=
  ps* outbox_opt := get receipt_acknowledgement_outbox_opt in
  match outbox_opt with
  | None => ps_ret ()
  | Some outbox =>
      match AckOutbox.pending outbox with
      | Err _ => ps_ret ()
      | Ok l =>
          do* when (MAX_RECEIPT_ACKNOWLEDGEMENT_RECOVERY_BATCH <? length l)%nat
            (do* out_subs in send (RetryAcknowledgements true)) in
          deliver_all (take MAX_RECEIPT_ACKNOWLEDGEMENT_RECOVERY_BATCH l)
      end
  end.

Definition handle_service_receipt_offer (env : ProxyEnv) (offer : ServiceReceiptOfferPayload_0v1) : act unit :=
  match unix_time_now env with
  | Err _ => ps_ret ()
  | Ok now =>
      let route_epoch := route_epoch (receipt (offer_signed_receipt offer)) in
      ps* r := call_manager (acknowledge_offer (offer_signed_receipt offer) now) in
      match r with
      | Some (Ok payload) =>
          do* modify (fun s => set_offers (delete route_epoch (pending_receipt_offers s)) s) in
          ps* persisted := persist_receipt_acknowledgement env payload in
          match persisted with
          | Err _ => ps_ret ()
          | Ok _ => deliver_receipt_acknowledgement payload
          end
      | Some (Err ReceiptQuoteUnavailable) =>
          modify (fun s =>
            let offers := pending_receipt_offers s in
            match offers !! route_epoch with
            | Some _ => s
            | None => if (size offers <? MAX_PENDING_RECEIPT_OFFERS)%nat
                      then set_offers (<[route_epoch := offer]> offers) s else s
            end)
      | Some (Err _) | None => ps_ret ()
      end
  end.

Definition replay_pending_receipt_offer (env : ProxyEnv) (epoch : list Z) : act unit :=
  ps* offers := get pending_receipt_offers in
  match offers !! epoch with
  | Some offer =>
      do* modify (set_offers (delete epoch offers)) in
      handle_service_receipt_offer env offer
  | None => ps_ret ()
  end.

Fixpoint handle_offers (env : ProxyEnv) (l : list ServiceReceiptOfferPayload_0v1) : act unit :=
  match l with
  | [] => ps_ret ()
  | o :: l => do* handle_service_receipt_offer env o in handle_offers env l
  end.
(** The offers that can be decrypted, in their order. *)
Fixpoint decrypt_offers (now : Z) (l : list CryptData) : act (list ServiceReceiptOfferPayload_0v1) :=
  match l with
  | [] => ps_ret []
  | e :: l =>
      ps* r := call_manager (decrypt_routing_offer
                               (fun bs => let? o := de_offer bs in Ok (offer_signed_receipt o)) e now) in
      ps* rest := decrypt_offers now l in
      ps_ret (match r with Some (Ok signed) => mkOfferPayload signed :: rest | _ => rest end)
  end.
Definition handle_routing_receipt_offers (env : ProxyEnv) (k : StreamKey) (response_payload_size : nat)
    (encrypted_offers : list CryptData) : act unit :=
  ps* m := get receipt_session_manager_opt in
  match m with
  | None => ps_ret ()
  | Some _ =>
      match unix_time_now env with
      | Err _ => ps_ret ()
      | Ok now =>
          ps* _ := call_manager (record_routing_response k (Z.of_nat response_payload_size) now) in
          ps* offers := decrypt_offers now encrypted_offers in
          handle_offers env offers
      end
  end.

(** [Handler<RecordExitRequestForReceipt>] and [Handler<RetryReceiptAcknowledgements>] *)
Definition handle_record_exit_request (env : ProxyEnv) (msg : RecordExitRequestForReceipt) : act unit :=
  match unix_time_now env with
  | Err _ => ps_ret ()
  | Ok now =>
      ps* _ := call_manager (record_exit_request (re_stream_key msg) (re_payload_size msg) now) in
      ps* _ := call_manager (record_routing_request (re_stream_key msg) (re_routing_payload_size msg) now) in
      ps_ret ()
  end.
Definition RECEIPT_ACKNOWLEDGEMENT_RETRY_DELAY : Z := 30 * 10 ^ 9.
Definition handle_retry_receipt_acknowledgements (schedule_after_delay : bool) : act unit :=
  if schedule_after_delay then
    ps* scheduled := get receipt_acknowledgement_retry_scheduled in
    if scheduled then ps_ret ()
    else
      do* modify (set_retry_scheduled true) in
      send (RetryLater RECEIPT_ACKNOWLEDGEMENT_RETRY_DELAY)
  else
    do* modify (set_retry_scheduled false) in
    replay_persisted_receipt_acknowledgements.
(** [Handler<BindMessage>] *)
Definition handle_bind : act unit :=
  do* modify set_bound in replay_persisted_receipt_acknowledgements.
End Receipts.

Section Requests.
Context {St : Type} `{RS : RecoveryStore St} `{SK : SessionKeys} `{E : Ethsign} `{C : Cbor}.
Context `{HC : HopCbor} `{PC : PackageCbor} `{VR : ValueReader} `{VO : VersionOrder} `{PY : PayloadCbor}.
Context `{AC : AckCbor} `{HT : HttpCrates}.
Abbreviation proxy := (Proxy St).
Abbreviation act := (ps (St := St)).

(** ** Sending requests *)

Definition send_route_failure (p : ProxyProtocol) (target_hostname : string) (source_addr : SocketAddr) : act unit :=
  send (ToBrowser (mkTransmit (EpSocket source_addr) true (Some 0) (route_query_failure_response p target_hostname))).

Definition send_dns_failure_response_to_the_browser (client_addr : SocketAddr) (p : ProxyProtocol) (hostname : string)
    : act unit :=
  do* out_subs in
  send (ToBrowser (mkTransmit (EpSocket client_addr) true (Some 0) (dns_resolution_failure_response p hostname))).

Definition handle_route_failure (payload : ClientRequestPayload_0v1) (source_addr : SocketAddr) : act ProxyError :=
  do* send_route_failure (protocol payload) (target_hostname payload) source_addr in
  ps_ret RouteNotFound.

Definition request_len (p : ClientRequestPayload_0v1) : nat := length (SequenceBuffer.data (crp_sequenced_packet p)).

(** [n] numbers the encryptions of one handler. *)
Definition transmit_to_hopper (env : ProxyEnv) (n : nat) (args : TransmitToHopperArgs) (route : Route)
    (services : list ExpectedService) : act (result unit ProxyError) :=
  let destination_key_opt :=
    if args_is_decentralized args then find_exit_node_key services
    else Some (public_key (args_main_cryptde args)) in
  let payload := args_payload args in
  match destination_key_opt with
  | None =>
      ps* e := handle_route_failure payload (args_client_addr args) in
      ps_ret (Err e)
  | Some payload_destination_key =>
      ps* m := run (client_request_message payload) in
      ps* pkg := run (incipient_new (args_main_cryptde args) (pe_rand env n) route m payload_destination_key) in
      match pkg with
      | Err e =>
          do* send_route_failure (protocol payload) (target_hostname payload) (args_client_addr args) in
          ps_ret (Err (PackageProblem e))
      | Ok pkg =>
          do* when (negb (match receipt_session_request_opt payload with None => true | Some _ => false end)
                    && (0 <? request_len payload)%nat)
            (send (ExitRequestSent (mkRecordExit (crp_stream_key payload) (Z.of_nat (request_len payload))
                                      (Z.of_nat (length (icp_payload pkg)))))) in
          ps! _ :=
            (if args_is_decentralized args then
               match report_on_exit_service services (request_len payload) with
               | Err e => ps_ret (Err e)
               | Ok exit =>
                   do* send (ServicesConsumed (mkServicesConsumed (args_timestamp args) exit
                               (length (icp_payload pkg)) (report_on_routing_services services))) in
                   ps_ret (Ok ())
               end
             else ps_ret (Ok ())) in
          do* send (ToNetwork pkg) in
          do* when (retire_stream_key args)
            (send (ShutDownStream (mkShutdown (args_client_addr args) (NonClandestine (mkNonClandestine 0 0)) false))) in
          ps_ret (Ok ())
      end
  end.

Definition try_transmit_to_hopper (env : ProxyEnv) (n : nat) (args : TransmitToHopperArgs) (r : SelectedRoute)
    : act (result unit ProxyError) :=
  match expected_services r with
  | RoundTrip over _ => transmit_to_hopper env n args (sel_route r) over
  | OneWay _ => ps_ret (Err OneWayServices)
  end.

(** Packets that wait for a route, until one cannot be sent. *)
Fixpoint transmit_packets (env : ProxyEnv) (n : nat) (l : list TransmitToHopperArgs) (r : SelectedRoute)
    : act (result unit ProxyError) :=
  match l with
  | [] => ps_ret (Ok ())
  | args :: l => ps! _ := try_transmit_to_hopper env n args r in transmit_packets env (S n) l r
  end.

(** ** Waiting for a route *)

Definition get_next_return_route_id : act Z :=
  ps* id := get next_return_route_id in
  do* modify (fun s => set_ids (wrap_u 32 (id + 1)) (next_route_request_id s) s) in
  ps_ret id.
Definition get_next_route_request_id : act (result Z ProxyError) :=
  ps* id := get next_route_request_id in
  match checked_add 64 id 1 with
  | None => ps_ret (Err RouteRequestIdOverflow)
  | Some next =>
      do* modify (fun s => set_ids (next_return_route_id s) next s) in
      ps_ret (Ok id)
  end.

(** [TransmitToHopperArgs::new] *)
Definition args_new (payload : ClientRequestPayload_0v1) (client_addr : SocketAddr) (timestamp : Z) (retire : bool)
    : act TransmitToHopperArgs :=
  do* when retire out_subs in
  ps* id := get_next_return_route_id in
  do* out_subs in
  ps* c := get cfg in
  ps_ret (mkArgs (main_cryptde c) payload id 0 client_addr timestamp (is_decentralized c)
            (negb (match receipt_session_request_opt payload with None => true | Some _ => false end)) retire).

Definition queue_pending_route_packet (args : TransmitToHopperArgs)
    : act (result (option TransmitToHopperArgs) ProxyError) :=
  let payload := args_payload args in
  let k := crp_stream_key payload in
  let payload_size := Z.of_nat (request_len payload) in
  ps* pending := get pending_route_requests in
  match pending !! k with
  | Some p =>
      match checked_add 64 (queued_payload_bytes p) payload_size with
      | None => ps_ret (Err ByteCountOverflow)
      | Some queued =>
          if (MAX_PENDING_ROUTE_PACKETS_PER_STREAM <=? length (packets p))%nat
             || (MAX_PENDING_ROUTE_BYTES_PER_STREAM <? queued) then
            do* send_route_failure (protocol payload) (target_hostname payload) (args_client_addr args) in
            do* purge_stream_key k in
            ps_ret (Err PendingQueueOverflow)
          else
            do* modify (set_pending_routes (<[k := mkPendingRoute (pr_route_request_id p) queued
                          (packets p ++ [with_route_request_id (pr_route_request_id p) args])]> pending)) in
            ps_ret (Ok None)
      end
  | None =>
      if MAX_PENDING_ROUTE_BYTES_PER_STREAM <? payload_size then
        do* send_route_failure (protocol payload) (target_hostname payload) (args_client_addr args) in
        do* purge_stream_key k in
        ps_ret (Err InitialPayloadOverflow)
      else
        ps! route_request_id := get_next_route_request_id in
        let args := with_route_request_id route_request_id args in
        do* modify (fun s => set_pending_routes
              (<[k := mkPendingRoute route_request_id payload_size [args]]> (pending_route_requests s)) s) in
        ps_ret (Ok (Some args))
  end.

(** [IBCDHelperReal::make_route_query] *)
Definition data_indefinite_route_request (host : Host) (payload_size : Z) : RouteQueryMessage :=
  mkQuery None Route.ProxyClient (Some Route.ProxyServer) payload_size host 0 None.
Definition require_bilateral_service_receipts_v1 (request : ReceiptSessionRequest) (q : RouteQueryMessage)
    : RouteQueryMessage :=
  mkQuery (target_key_opt q) (target_component q) (return_component_opt q) (payload_size q) (host q)
    (Z.lor (minimum_protocol_capabilities q) (Z.lor SERVICE_RECEIPT_SETTLEMENT_V1_CAPABILITY (Z.shiftl 1 1)))
    (Some request).
Definition make_route_query (host : Host) (payload_size : Z) (request_opt : option ReceiptSessionRequest)
    : RouteQueryMessage :=
  let q := data_indefinite_route_request host payload_size in
  match request_opt with
  | Some request => require_bilateral_service_receipts_v1 request q
  | None => q
  end.
Definition request_route_and_transmit (args : TransmitToHopperArgs) : act unit :=
  let pld := args_payload args in
  send (AskRoute args (make_route_query (mkHost (target_hostname pld) (target_port pld))
                         (Z.of_nat (request_len pld)) (receipt_session_request_opt pld))).

(** [RouteQueryResponseResolverReal::resolve_message]: the future of
    [request_route_and_transmit], once the neighborhood has answered. *)
Definition resolve_message (args : TransmitToHopperArgs) (route_result : result (option SelectedRoute) unit)
    : act unit :=
  ps* r :=
    (match route_result with
     | Ok (Some r) =>
         if route_can_transmit_request r (args_is_decentralized args) then
           do* send (ReportRouteHops ((length (hops (sel_route r)) - 1) / 2)) in
           ps_ret (Ok r)
         else ps_ret (Err RouteNotFound)
     | Ok None => ps_ret (Err RouteNotFound)
     | Err _ => ps_ret (Err NeighborhoodRefused)
     end) in
  send (RouteResult (mkAddRoute (crp_stream_key (args_payload args)) (args_route_request_id args) r)).

(** ** The payload of a request *)

(** [ClientRequestPayloadFactoryReal::make] *)
Definition payload_make (ibcd : InboundClientData) (k : StreamKey) (host_from_history_opt : option Host)
    (cryptde : CryptDE) : exec (option ClientRequestPayload_0v1) :=
  match from_ibcd ibcd with
  | Err _ => Ret None
  | Ok pack =>
      let* found := find_host pack (ib_data ibcd) in
      let target_host_opt := match found with Some h => Some h | None => host_from_history_opt end in
      match target_host_opt, ib_sequence_number_opt ibcd with
      | Some target_host, Some sequence_number =>
          Ret (Some (mkClientRequest k (mkPacket (ib_data ibcd) sequence_number (ib_last_data ibcd))
                       (host_name target_host) (host_port target_host) (proxy_protocol pack) (public_key cryptde)
                       None None))
      | _, _ => Ret None
      end
  end.

Definition with_session_request (r : option ReceiptSessionRequest) (p : ClientRequestPayload_0v1)
    : ClientRequestPayload_0v1 :=
  mkClientRequest (crp_stream_key p) (crp_sequenced_packet p) (target_hostname p) (target_port p) (protocol p)
    (originator_public_key p) (crp_dns_attempt_id_opt p) r.
Definition with_hostname (h : string) (p : ClientRequestPayload_0v1) : ClientRequestPayload_0v1 :=
  mkClientRequest (crp_stream_key p) (crp_sequenced_packet p) h (target_port p) (protocol p)
    (originator_public_key p) (crp_dns_attempt_id_opt p) (receipt_session_request_opt p).
Definition with_dns_attempt (id : option Z) (p : ClientRequestPayload_0v1) : ClientRequestPayload_0v1 :=
  mkClientRequest (crp_stream_key p) (crp_sequenced_packet p) (target_hostname p) (target_port p) (protocol p)
    (originator_public_key p) id (receipt_session_request_opt p).
Definition with_reception_port (port : Z) (d : InboundClientData) : InboundClientData :=
  mkInbound (ib_timestamp d) (ib_client_addr d) (Some port) (ib_last_data d) (ib_is_clandestine d)
    (ib_sequence_number_opt d) (ib_data d).

(** The receipt session's part of a request. *)
Definition session_request (env : ProxyEnv) (k : StreamKey) (quote_opt : option (PublicKey * Z * Z))
    : act (result (option ReceiptSessionRequest) ProxyError) :=
  ps* m := get receipt_session_manager_opt in
  match m with
  | None => ps_ret (Ok None)
  | Some _ =>
      match unix_time_now env with
      | Err e => ps_ret (Err e)
      | Ok now =>
          ps* r := call_manager (request_for_stream k now (pe_rand env 0)) in
          match r with
          | Some (Ok (Some request)) =>
              match quote_opt with
              | Some (provider, service_rate, byte_rate) =>
                  ps* b := call_manager (bind_exit_quote k provider service_rate byte_rate now) in
                  ps_ret (match b with Some (Err e) => Err (SessionProblem e) | _ => Ok (Some request) end)
              | None => ps_ret (Ok (Some request))
              end
          | Some (Err e) => ps_ret (Err (SessionProblem e))
          | _ => ps_ret (Ok None)
          end
      end
  end.

Definition make_payload (env : ProxyEnv) (ibcd : InboundClientData) (k : StreamKey)
    : act (result ClientRequestPayload_0v1 ProxyError) :=
  ps* info_opt := get (fun s => stream_infos s !! k) in
  let route := match info_opt with Some i => route_opt i | None => None end in
  let tunnelled_host_opt := match info_opt with Some i => tunneled_host_opt i | None => None end in
  let quote_opt := match route with Some r => receipt_exit_quote r | None => None end in
  let new_ibcd := match tunnelled_host_opt with Some _ => with_reception_port TLS_PORT ibcd | None => ibcd end in
  ps* c := get cfg in
  ps* made := run (payload_make new_ibcd k (sel_host <$> route) (alias_cryptde c)) in
  match made with
  | None => ps_ret (Err NoPayloadCreated)
  | Some payload =>
      ps! request_opt := session_request env k quote_opt in
      let payload := with_session_request request_opt payload in
      ps_ret (Ok (match tunnelled_host_opt with
                  | Some hostname => with_hostname hostname payload
                  | None => payload
                  end))
  end.
End Requests.

Section Handlers.
Context {St : Type} `{RS : RecoveryStore St} `{SK : SessionKeys} `{E : Ethsign} `{C : Cbor}.
Context `{HC : HopCbor} `{PC : PackageCbor} `{VR : ValueReader} `{VO : VersionOrder} `{PY : PayloadCbor}.
Context `{AC : AckCbor} `{HT : HttpCrates}.
Context (stream_key_new : PublicKey → SocketAddr → StreamKey).
Abbreviation proxy := (Proxy St).
Abbreviation act := (ps (St := St)).

(** ** Data from the browser *)

(** The attempt a request belongs to, and what is kept to repeat it. *)
Definition remember_request (k : StreamKey) (payload : ClientRequestPayload_0v1)
    : act ClientRequestPayload_0v1 :=
  ps* c := get cfg in
  ps* info_opt := stream_info k in
  match info_opt with
  | None => run Panic
  | Some info =>
      let active_attempt_id := match dns_failure_retry_opt info with Some r => active_attempt_id r | None => 0 end in
      let payload := with_dns_attempt (Some active_attempt_id) payload in
      do* when (match dns_failure_retry_opt info with None => true | Some _ => false end)
        (update_info k (with_dns_retry
           (Some (mkRetry payload (if is_decentralized c then DNS_FAILURE_RETRIES else 0) active_attempt_id))
           (Some (protocol payload)))) in
      ps_ret payload
  end.

(** [IBCDHelperReal::handle_normal_client_data] *)
Definition handle_normal_client_data (env : ProxyEnv) (msg : InboundClientData) : act (result unit ProxyError) :=
  ps* c := get cfg in
  if match consuming_wallet_balance c with None => true | Some _ => false end && is_decentralized c then
    match from_ibcd msg with
    | Err e => ps_ret (Err (NoProtocol e))
    | Ok pack =>
        do* out_subs in
        do* send (ToBrowser (mkTransmit (EpSocket (ib_client_addr msg)) true (Some 0) (consuming_wallet_absent pack))) in
        ps_ret (Err ConsumingWalletMissing)
    end
  else
    ps* k := find_or_generate_stream_key stream_key_new msg in
    ps! payload := make_payload env msg k in
    match (if is_running_in_integration_test c then Ok ()
           else validate_non_loopback_host (hostname_new (target_hostname payload))) with
    | Err e => ps_ret (Err (WildcardIp e))
    | Ok _ =>
        ps* payload := remember_request k payload in
        ps* args := args_new payload (ib_client_addr msg) (ib_timestamp msg) (ib_last_data msg) in
        ps* info_opt := stream_info (crp_stream_key payload) in
        match info_opt with
        | None => run Panic
        | Some info =>
            match route_opt info with
            | Some r => try_transmit_to_hopper env 1 args r
            | None =>
                do* out_subs in
                ps! resolver_args_opt := queue_pending_route_packet args in
                do* (match resolver_args_opt with
                     | Some resolver_args => request_route_and_transmit resolver_args
                     | None => ps_ret ()
                     end) in
                ps_ret (Ok ())
            end
        end
    end.

Definition to_client (addr : SocketAddr) (last_data : bool) (sequence_number_opt : option Z) (bytes : list Z)
    : act unit :=
  do* out_subs in send (ToBrowser (mkTransmit (EpSocket addr) last_data sequence_number_opt bytes)).

Definition tls_connect (msg : InboundClientData) : act unit :=
  ps* host := run (http_find_host (ib_data msg)) in
  let bad_request := to_client (ib_client_addr msg) true (ib_sequence_number_opt msg)
                       (string_bytes ("HTTP/1.1 400 Bad Request" ++ crlf ++ "Content-Length: 0" ++ crlf ++ crlf)) in
  match host with
  | Some h =>
      if host_port h =? TLS_PORT then
        ps* k := find_or_generate_stream_key stream_key_new msg in
        ps* info := stream_info k in
        match info with
        | None => ps_ret ()
        | Some _ =>
            do* update_info k (with_tunnel (host_name h)) in
            to_client (ib_client_addr msg) false (ib_sequence_number_opt msg)
              (string_bytes ("HTTP/1.1 200 OK" ++ crlf ++ crlf))
        end
      else bad_request
  | None => bad_request
  end.

(** [Handler<InboundClientData>] *)
Definition handle_inbound (env : ProxyEnv) (msg : InboundClientData) : act unit :=
  if is_connect (ib_data msg) then tls_connect msg
  else ps* _ := handle_normal_client_data env msg in ps_ret ().

Definition handle_stream_shutdown_msg (env : ProxyEnv) (msg : StreamShutdownMsg) : act unit :=
  match stream_type msg with
  | Clandestine => run Panic
  | NonClandestine nca =>
      ps* keys := get keys_and_addrs in
      match b_to_a keys (peer_addr msg) with
      | None => ps_ret ()
      | Some k =>
          do* schedule_stream_key_purge env k in
          when (report_to_counterpart msg)
            (ps* _ := handle_normal_client_data env
                        (mkInbound (pe_now env) (peer_addr msg) (Some (reception_port nca)) true false
                           (Some (nca_sequence_number nca)) []) in
             ps_ret ())
      end
  end.

(** ** A route arrives *)

(** The session learns what the providers of the route charge. *)
Definition bind_quotes (env : ProxyEnv) (k : StreamKey) (r : SelectedRoute) : act (option (list Z)) :=
  match unix_time_now env with
  | Err _ => ps_ret None
  | Ok now =>
      let (request_quotes, response_quotes) := receipt_routing_quotes r in
      ps* _ := call_manager (bind_routing_quotes k request_quotes response_quotes now) in
      match receipt_exit_quote r with
      | None => ps_ret None
      | Some (provider, service_rate, byte_rate) =>
          ps* b := call_manager (bind_exit_quote k provider service_rate byte_rate now) in
          ps* m := get receipt_session_manager_opt in
          ps_ret (match b, m with
                  | Some (Ok _), Some m => route_epoch_for_stream m k
                  | _, _ => None
                  end)
      end
  end.

Definition handle_add_route_result_message (env : ProxyEnv) (msg : AddRouteResultMessage) : act unit :=
  let k := ar_stream_key msg in
  ps* info_opt := get (fun s => stream_infos s !! k) in
  match info_opt with
  | None => ps_ret ()
  | Some info =>
      match dns_failure_retry_opt info with
      | None => ps_ret ()
      | Some _ =>
          ps* pending := get pending_route_requests in
          match pending !! k with
          | None => ps_ret ()
          | Some p =>
              if negb (pr_route_request_id p =? ar_route_request_id msg) then ps_ret ()
              else
                do* modify (set_pending_routes (delete k pending)) in
                ps* failed :=
                  (match ar_result msg with
                   | Ok r =>
                       do* update_info k (with_route (Some r)) in
                       ps* epoch_opt := bind_quotes env k r in
                       do* (match epoch_opt with
                            | Some epoch => replay_pending_receipt_offer env epoch
                            | None => ps_ret ()
                            end) in
                       ps* sent := transmit_packets env 1 (packets p) r in
                       match sent with
                       | Ok _ => ps_ret false
                       | Err _ => do* update_info k (with_route None) in ps_ret true
                       end
                   | Err _ =>
                       do* (match packets p with
                            | args :: _ => send_route_failure (protocol (args_payload args))
                                             (target_hostname (args_payload args)) (args_client_addr args)
                            | [] => ps_ret ()
                            end) in
                       ps_ret true
                   end) in
                when failed (do* out_subs in send RouteUseFailed)
          end
      end
  end.

(** ** Responses *)

Definition report_response_services_consumed (env : ProxyEnv) (services : list ExpectedService)
    (exit_size routing_size : nat) : act unit :=
  if negb (response_services_are_valid services) then ps_ret ()
  else
    match first_billable services with
    | Some (ExitService _ w rate) =>
        do* out_subs in
        send (ServicesConsumed (mkServicesConsumed (pe_now env)
                (mkExitConsumed w exit_size (exit_service_rate rate) (exit_byte_rate rate))
                routing_size (report_on_routing_services services)))
    | _ => ps_ret ()
    end.

Definition get_expected_return_services (k : StreamKey) : act (option (list ExpectedService)) :=
  ps* info_opt := stream_info k in
  ps_ret (match info_opt with
          | None => None
          | Some info =>
              match route_opt info with
              | None => None
              | Some r =>
                  match expected_services r with
                  | RoundTrip _ back => if response_services_are_valid back then Some back else None
                  | OneWay _ => None
                  end
              end
          end).

(** Whether this response is the first proof that the route works. *)
Definition take_route_success (k : StreamKey) : act bool :=
  ps* info_opt := stream_info k in
  match info_opt with
  | None => ps_ret false
  | Some info =>
      if route_success_reported info then ps_ret false
      else do* update_info k with_success_reported in ps_ret true
  end.

(** What the neighborhood learns of the exit node and the route. *)
Definition report_route_success (env : ProxyEnv) (k : StreamKey) (exit_opt : option PublicKey)
    (first_success : bool) : act unit :=
  ps* info_opt := stream_info k in
  let latency_ms_opt :=
    if first_success then
      match info_opt with
      | Some info =>
          match request_started_at_opt info with
          | Some started => if pe_now env <? started then None
                            else Some (Z.min ((pe_now env - started) / 10 ^ 6) (max_u 32))
          | None => None
          end
      | None => None
      end
    else None in
  let route := match info_opt with Some info => route_opt info | None => None end in
  ps* b := get bound in
  do* (match exit_opt, route with
       | Some key, Some r =>
           when b (send (NodeMetadata key
             (match latency_ms_opt with
              | Some latency_ms => RecordRouteSuccess (host_name (sel_host r)) latency_ms
              | None => RemoveUnreachableHost (host_name (sel_host r))
              end)))
       | _, _ => ps_ret ()
       end) in
  when first_success (do* out_subs in send RouteUseSucceeded).

Definition handle_client_response_payload (env : ProxyEnv) (msg : ExpiredCoresPackage ClientResponsePayload_0v1)
    : act unit :=
  let response := ecp_payload msg in
  let k := crsp_stream_key response in
  let packet := crsp_sequenced_packet response in
  do* handle_routing_receipt_offers env k (payload_len msg) (ecp_routing_receipt_offers msg) in
  ps* services_opt := get_expected_return_services k in
  ps* info_opt := stream_info k in
  match services_opt, info_opt with
  | Some services, Some info =>
      match checked_add 64 (sequence_number packet) (if browser_proxy_sequence_offset info then 1 else 0) with
      | None => ps_ret ()
      | Some browser_sequence_number =>
          let (admission, window) := admit_sequence (response_sequence_replay_window info) (sequence_number packet) in
          do* update_info k (with_window window) in
          match admission with
          | Err _ => ps_ret ()
          | Ok _ =>
              do* (match unix_time_now env with
                   | Ok now =>
                       ps* _ := call_manager (record_exit_response k (sequence_number packet)
                                                (Z.of_nat (length (SequenceBuffer.data packet))) now) in
                       ps_ret ()
                   | Err _ => ps_ret ()
                   end) in
              let exit_opt := find_exit_node_key services in
              ps* first_success :=
                (if negb (match SequenceBuffer.data packet with [] => true | _ => false end)
                    && (match exit_opt with Some _ => true | None => false end)
                 then take_route_success k else ps_ret false) in
              do* report_route_success env k exit_opt first_success in
              do* report_response_services_consumed env services (length (SequenceBuffer.data packet)) (payload_len msg) in
              do* update_info k (fun i => with_dns_retry None (protocol_opt i) i) in
              ps* info_opt := stream_info k in
              match info_opt with
              | None => ps_ret ()
              | Some info =>
                  match time_to_live_opt info with
                  | Some _ => ps_ret ()
                  | None =>
                      ps* keys := get keys_and_addrs in
                      match a_to_b keys k with
                      | None => ps_ret ()
                      | Some addr =>
                          do* out_subs in
                          do* send (ToBrowser (mkTransmit (EpSocket addr) (SequenceBuffer.last_data packet)
                                      (Some browser_sequence_number) (SequenceBuffer.data packet))) in
                          when (SequenceBuffer.last_data packet) (purge_stream_key k)
                      end
                  end
              end
          end
      end
  | _, _ => ps_ret ()
  end.

(** [Handler<ExpiredCoresPackage<MeteredClientResponsePayload_0v1>>] *)
Definition handle_metered_response (env : ProxyEnv) (msg : ExpiredCoresPackage MeteredClientResponsePayload_0v1)
    : act unit :=
  do* handle_client_response_payload env
        (mkExpired (immediate_neighbor msg) (paying_wallet msg) (remaining_route msg)
           (metered_response (ecp_payload msg)) (payload_len msg) (ecp_routing_receipt_offers msg)) in
  handle_service_receipt_offer env (metered_receipt_offer (ecp_payload msg)).

(** ** Names that could not be resolved *)

Definition retry_dns_resolution (env : ProxyEnv) (retry : DNSFailureRetry) (client_addr : SocketAddr)
    : act (result DNSFailureRetry ProxyError) :=
  match checked_add 64 (active_attempt_id retry) 1 with
  | None => ps_ret (Err DnsAttemptIdOverflow)
  | Some next_attempt_id =>
      let request := with_dns_attempt (Some next_attempt_id) (unsuccessful_request retry) in
      ps* m := get receipt_session_manager_opt in
      ps! retry_payload :=
        (match m with
         | None => ps_ret (Ok request)
         | Some _ =>
             match unix_time_now env with
             | Err e => ps_ret (Err e)
             | Ok now =>
                 ps* r := call_manager (rotate_route_for_stream (crp_stream_key request) now (pe_rand env 0)) in
                 match r with
                 | Some (Err e) => ps_ret (Err (SessionProblem e))
                 | Some (Ok request_opt) =>
                     do* (match receipt_session_request_opt request with
                          | Some old => modify (fun s => set_offers (delete (rsr_route_epoch old) (pending_receipt_offers s)) s)
                          | None => ps_ret ()
                          end) in
                     ps_ret (Ok (with_session_request request_opt request))
                 | None => ps_ret (Ok request)
                 end
             end
         end) in
      ps* args := args_new retry_payload client_addr (pe_now env) false in
      do* out_subs in
      ps! queued := queue_pending_route_packet args in
      match queued with
      | None => ps_ret (Err ExistingPendingRequest)
      | Some resolver_args =>
          do* request_route_and_transmit resolver_args in
          ps_ret (Ok (mkRetry (unsuccessful_request retry) (retries_left retry) next_attempt_id))
      end
  end.

(** [retire_stream_key] and the answer to the browser *)
Definition give_up_dns (k : StreamKey) (client_addr : SocketAddr) (p : ProxyProtocol) (hostname : string) : act unit :=
  do* purge_stream_key k in
  send_dns_failure_response_to_the_browser client_addr p hostname.

(** The correlation state of a failure: the route, its return services, the exit,
    the retry and the protocol, and whether the failure is of an old node that
    cannot say which attempt it means. *)
Definition dns_failure_context (s : proxy) (failure : DnsResolveFailure_0v1)
    : option (StreamInfo * SelectedRoute * list ExpectedService * PublicKey * DNSFailureRetry * ProxyProtocol * bool) :=
  let k := drf_stream_key failure in
  info ← stream_infos s !! k;
  route ← route_opt info;
  services ← get_response_services route;
  if negb (response_services_are_valid services) then None
  else
    exit ← (if is_decentralized (cfg s) then find_exit_node_key services else Some (public_key (main_cryptde (cfg s))));
    retry ← dns_failure_retry_opt info;
    legacy ← (match drf_dns_attempt_id_opt failure with
              | Some id => if id =? active_attempt_id retry then Some false else None
              | None => Some (0 <? active_attempt_id retry)
              end);
    if bool_decide (is_Some (pending_route_requests s !! k)) then None
    else
      p ← protocol_opt info;
      Some (info, route, services, exit, retry, p, legacy).

Definition handle_dns_resolve_failure (env : ProxyEnv) (msg : ExpiredCoresPackage DnsResolveFailure_0v1) : act unit :=
  let failure := ecp_payload msg in
  let k := drf_stream_key failure in
  do* handle_routing_receipt_offers env k (payload_len msg) (ecp_routing_receipt_offers msg) in
  ps* context := get (fun s => dns_failure_context s failure) in
  ps* keys := get keys_and_addrs in
  match context, a_to_b keys k with
  | Some (info, route, services, exit_public_key, retry, p, legacy), Some client_addr =>
      let hostname := host_name (sel_host route) in
      if legacy then give_up_dns k client_addr p hostname
      else
        do* modify (fun s => set_infos (delete k (stream_infos s)) s) in
        do* out_subs in
        do* send (NodeMetadata exit_public_key (AddUnreachableHost hostname)) in
        do* report_response_services_consumed env services 0 (payload_len msg) in
        if 0 <? retries_left retry then
          ps* r := retry_dns_resolution env retry client_addr in
          match r with
          | Ok retry =>
              let retry := mkRetry (unsuccessful_request retry) (retries_left retry - 1) (active_attempt_id retry) in
              modify (fun s => set_infos (<[k := with_dns_retry (Some retry) (protocol_opt info) info]> (stream_infos s)) s)
          | Err _ => give_up_dns k client_addr p hostname
          end
        else give_up_dns k client_addr p hostname
  | _, _ => ps_ret ()
  end.

(** ** The user interface *)

Definition address_text (a : Address) : string := ("0x" ++ to_hex a)%string.
Definition receipt_session_status_response (s : ReceiptSessionStatus) : UiReceiptSessionStatus :=
  mkUiStatus (is_active s) (protocol_version_opt s) (chain_name_opt s) (chain_id_opt s)
    (address_text <$> masq_token_contract_opt s) (address_text <$> settlement_contract_opt s)
    (address_text <$> payer_wallet_address_opt s) (address_text <$> payer_session_public_key_opt s)
    (address_text <$> authorization_id_opt s) (dec <$> max_total_charge_wei_opt s) (dec <$> spent_charge_wei_opt s)
    (dec <$> (max ← max_total_charge_wei_opt s; spent ← spent_charge_wei_opt s; checked_sub 128 max spent))
    (valid_from_unix_s_opt s) (expires_at_unix_s_opt s).

Definition send_ui_response (client_id context_id : Z) (r : UiResponse) : act unit :=
  do* out_subs in send (UiReply client_id context_id r).
(** What is answered when there is no manager, or it refuses. *)
Definition ui_answer {A} (r : option (result A ReceiptSessionManagerError)) (f : A → UiResponse) : UiResponse :=
  match r with
  | Some (Ok x) => f x
  | Some (Err e) => UiSessionError (SessionProblem e)
  | None => UiSessionUnavailable
  end.

Definition proposal_response (p : ReceiptSessionProposal) : UiReceiptSessionProposal :=
  let policy := prop_policy p in
  mkUiProposal (prop_proposal_id p) (rsp_protocol_version policy) (prop_chain_name p) (rsp_chain_id policy)
    (address_text (prop_masq_token_contract p)) (address_text (rsp_settlement_contract policy))
    (address_text (payer_wallet_address policy)) (address_text (rsp_payer_session_public_key policy))
    (dec (max_total_charge_wei policy)) (rsp_valid_from_unix_s policy) (rsp_expires_at_unix_s policy)
    (address_text (prop_authorization_id p)) (prop_eip712_typed_data p).

Definition handle_receipt_session_proposal (env : ProxyEnv) (max_total : string) (duration : Z)
    (client_id context_id : Z) : act unit :=
  match unix_time_now env with
  | Err e => send_ui_response client_id context_id (UiSessionError e)
  | Ok now =>
      ps* r := call_manager (propose max_total duration now (pe_rand env 0) (pe_rand env 1)) in
      send_ui_response client_id context_id (ui_answer r (fun p => UiProposalResponse (proposal_response p)))
  end.
Definition handle_receipt_session_activation (env : ProxyEnv) (id wallet_signature : string)
    (client_id context_id : Z) : act unit :=
  match unix_time_now env with
  | Err e => send_ui_response client_id context_id (UiSessionError e)
  | Ok now =>
      ps* r := call_manager (activate id wallet_signature now) in
      do* when (match r with Some (Ok _) => true | _ => false end) (modify (set_offers ∅)) in
      send_ui_response client_id context_id
        (ui_answer r (fun s => UiActivateResponse (receipt_session_status_response s)))
  end.
Definition handle_receipt_session_status (env : ProxyEnv) (client_id context_id : Z) : act unit :=
  match unix_time_now env with
  | Err e => send_ui_response client_id context_id (UiSessionError e)
  | Ok now =>
      ps* r := call_manager (status now) in
      send_ui_response client_id context_id
        (ui_answer r (fun s => UiStatusResponse (receipt_session_status_response s)))
  end.
Definition handle_receipt_session_stop (client_id context_id : Z) : act unit :=
  ps* r := call_manager stop in
  do* when (match r with Some (Ok _) => true | _ => false end) (modify (set_offers ∅)) in
  send_ui_response client_id context_id
    (ui_answer r (fun s => UiStopResponse (receipt_session_status_response s))).
Definition handle_ui (env : ProxyEnv) (client_id context_id : Z) (r : UiRequest) : act unit :=
  match r with
  | UiProposal max_total duration => handle_receipt_session_proposal env max_total duration client_id context_id
  | UiActivate id signature => handle_receipt_session_activation env id signature client_id context_id
  | UiStatus => handle_receipt_session_status env client_id context_id
  | UiStop => handle_receipt_session_stop client_id context_id
  end.

(** ** The mailbox *)

Inductive PsMessage :=
| BindMessage
| InboundData (d : InboundClientData)
| StreamShutdown (m : StreamShutdownMsg)
| RouteAnswer (args : TransmitToHopperArgs) (r : result (option SelectedRoute) unit)
| AddRouteResult (m : AddRouteResultMessage)
| ClientResponse (p : ExpiredCoresPackage ClientResponsePayload_0v1)
| MeteredResponse (p : ExpiredCoresPackage MeteredClientResponsePayload_0v1)
| DnsFailure (p : ExpiredCoresPackage DnsResolveFailure_0v1)
| ReceiptOffer (p : ExpiredCoresPackage ServiceReceiptOfferPayload_0v1)
| ReceiptRouteAnswer (p : ServiceReceiptPayload_0v1) (m : MessageType) (r : result (option SelectedRoute) unit)
| RecordExitRequest (m : RecordExitRequestForReceipt)
| RetryReceiptAcknowledgements (schedule_after_delay : bool)
| ScheduleStreamKeyPurge (k : StreamKey) (delay : Z)
| StreamKeyPurge (k : StreamKey)
| FromUi (client_id context_id : Z) (r : UiRequest).

Definition handle_message (env : ProxyEnv) (m : PsMessage) : act unit :=
  match m with
  | BindMessage => handle_bind
  | InboundData d => handle_inbound env d
  | StreamShutdown m => handle_stream_shutdown_msg env m
  | RouteAnswer args r => resolve_message args r
  | AddRouteResult m => handle_add_route_result_message env m
  | ClientResponse p => handle_client_response_payload env p
  | MeteredResponse p => handle_metered_response env p
  | DnsFailure p => handle_dns_resolve_failure env p
  | ReceiptOffer p => handle_service_receipt_offer env (ecp_payload p)
  | ReceiptRouteAnswer p m r => receipt_route_answered env p m r
  | RecordExitRequest m => handle_record_exit_request env m
  | RetryReceiptAcknowledgements b => handle_retry_receipt_acknowledgements b
  | ScheduleStreamKeyPurge k delay => send (PurgeLater k delay)
  | StreamKeyPurge k => purge_stream_key k
  | FromUi client_id context_id r => handle_ui env client_id context_id r
  end.

(** A history of messages, each with the clock and random bytes of its handler:
    what each sent. *)
Fixpoint run_messages (l : list (ProxyEnv * PsMessage)) : act (list (list PsOut)) := fun s =>
  match l with
  | [] => Ret ([], s, [])
  | (env, m) :: l =>
      let* (_, s, out) := handle_message env m s in
      let* (outs, s, out') := run_messages l s in
      Ret (out :: outs, s, out ++ out')
  end.
End Handlers.
