(* ===== verification/ProxyStreams.v ===== *)
(** * ProxyStreams: the proxy server's streams stay consistent

    An invariant of the tables of [ProxyServer] that every message keeps, from
    the start of the actor on: streams and sockets are in bijection, every
    stream has its state and its responses a replay window, the packets that
    wait for a route are few, belong to their stream and are waited for under
    identifiers of their own, and names are tried a bounded number of times. *)

From Stdlib Require Import ZArith Lia String Ascii.
From stdpp Require Import base list numbers option gmap sets.
From S2P Require Import Prelude Text SequenceBuffer CountryFinder CryptDE Wallet ServiceReceipt.
From S2P Require Import Route Eip712 ReceiptSession SessionLimit NodeRecord RouteFinder RouteQuery VersionedData Migrations.
From S2P Require Import CoresPackage Hopper AckOutbox StreamTables ProtocolPack ProtocolHosts Hostname ProxyServer.

Local Open Scope Z_scope.
Local Open Scope rust_scope.
Local Open Scope list_scope.

(** ** Triples *)

(** Whether a panic is allowed: [True] for what holds of handlers that return,
    [False] for handlers that must. *)
Class MayPanic := allowed : Prop.

Section Triples.
Context {St : Type} {MP : MayPanic}.
Abbreviation proxy := (Proxy St).

Definition hoare {A} (P : proxy → Prop) (c : ps A) (Q : A → proxy → Prop) : Prop :=
  ∀ s, P s → match c s with Ret (x, s', _) => Q x s' | Panic => allowed end.
(** [c] keeps the invariant [P]. *)
Definition keeps {A} (P : proxy → Prop) (c : ps A) : Prop := hoare P c (fun _ => P).

Lemma ps_hoare_bind {A B} P (R : A → proxy → Prop) Q (c : ps A) (k : A → ps B) :
  hoare P c R → (∀ x, hoare (R x) (k x) Q) → hoare P (ps_bind c k) Q.
Proof.
  intros Hc Hk s Hs. unfold ps_bind. specialize (Hc s Hs). destruct (c s) as [[[x s1] o1]|]; [|done].
  specialize (Hk x s1 Hc). by destruct (k x s1) as [[[y s2] o2]|].
Qed.
Lemma hoare_weaken {A} P P' (Q Q' : A → proxy → Prop) c :
  hoare P' c Q' → (∀ s, P s → P' s) → (∀ x s, Q' x s → Q x s) → hoare P c Q.
Proof. intros Hc HP HQ s Hs. specialize (Hc s (HP s Hs)). destruct (c s) as [[[]]|]; auto. Qed.
Lemma ps_hoare_pre {A} (P : proxy → Prop) (φ : Prop) (c : ps A) Q :
  (φ → hoare P c Q) → hoare (fun s => φ ∧ P s) c Q.
Proof. intros Hc s [Hφ Hs]. by apply Hc. Qed.
Lemma ps_hoare_ret {A} (x : A) (Q : A → proxy → Prop) : hoare (Q x) (ps_ret x) Q.
Proof. by intros s. Qed.
Lemma ps_hoare_get {A} P (f : proxy → A) : hoare P (get f) (fun x s => x = f s ∧ P s).
Proof. by intros s. Qed.
Lemma hoare_modify (f : proxy → proxy) (Q : unit → proxy → Prop) : hoare (fun s => Q () (f s)) (modify f) Q.
Proof. by intros s. Qed.

Lemma hoare_keeps {A} (P : proxy → Prop) (c : ps A) : keeps P c → hoare P c (fun _ s => P s).
Proof. done. Qed.

Lemma keeps_bind {A B} P (c : ps A) (k : A → ps B) : keeps P c → (∀ x, keeps P (k x)) → keeps P (ps_bind c k).
Proof. intros Hc Hk. by eapply ps_hoare_bind. Qed.
Lemma keeps_try {A B E} P (c : ps (result A E)) (k : A → ps (result B E)) :
  keeps P c → (∀ x, keeps P (k x)) → keeps P (ps_try c k).
Proof. intros Hc Hk. apply keeps_bind; [done|]. intros [x|e]; [apply Hk|by intros s]. Qed.
Lemma keeps_ret {A} P (x : A) : keeps P (ps_ret x).
Proof. by intros s. Qed.
Lemma keeps_get {A} P (f : proxy → A) : keeps P (get f).
Proof. by intros s. Qed.
Lemma keeps_sending P o : keeps P (send o).
Proof. by intros s. Qed.
Lemma keeps_run {A} P (e : exec A) : (e = Panic → allowed) → keeps P (run e).
Proof. intros He s Hs. unfold run. destruct e; [done|]. by apply He. Qed.
Lemma keeps_when P b c : keeps P c → keeps P (when b c).
Proof. intros Hc. destruct b; [done|]. by intros s. Qed.
Lemma keeps_out_subs (P : proxy → Prop) : (∀ s, P s → bound s = true) → keeps P out_subs.
Proof. intros Hb s Hs. unfold out_subs, ps_bind, get. by rewrite (Hb s Hs). Qed.
Lemma keeps_modify (P : proxy → Prop) f : (∀ s, P s → P (f s)) → keeps P (modify f).
Proof. intros Hf s Hs. by apply Hf. Qed.
End Triples.

Create HintDb keeps.
#[export] Hint Resolve keeps_ret keeps_get keeps_sending : keeps.

(** Frames hold of handlers that return. *)
Lemma keeps_run_any {St A} (P : Proxy St → Prop) (e : exec A) : keeps (MP := True) P (run e).
Proof. by apply keeps_run. Qed.
Lemma keeps_out_subs_any {St} (P : Proxy St → Prop) : keeps (MP := True) P out_subs.
Proof. intros s Hs. unfold out_subs, ps_bind, get. by destruct (bound s). Qed.
#[export] Hint Resolve keeps_run_any keeps_out_subs_any : keeps.

(** ** The invariant *)

Definition bytes_waiting (l : list TransmitToHopperArgs) : Z :=
  foldr (fun a n => Z.of_nat (request_len (args_payload a)) + n) 0 l.

(** Addresses and ports of their width. *)
Definition valid_socket (a : SocketAddr) : Prop :=
  match sock_ip a with IpV4 ip => in_u 32 ip | IpV6 ip => in_u 128 ip end ∧ in_u 16 (sock_port a).

(** Routes whose providers have keys of 64 bytes. *)
Definition service_keyed (s : ExpectedService) : Prop :=
  match s with
  | ExitService k _ _ | RouteQuery.RoutingService k _ _ => full_key k
  | NoService => True
  end.
Definition route_keyed (r : SelectedRoute) : Prop :=
  match expected_services r with
  | RoundTrip request response => Forall service_keyed request ∧ Forall service_keyed response
  | OneWay request => Forall service_keyed request
  end.

Lemma exit_quote_keyed r provider sr br :
  route_keyed r → receipt_exit_quote r = Some (provider, sr, br) → full_key provider.
Proof.
  unfold route_keyed, receipt_exit_quote, get_response_services.
  destruct (expected_services r) as [|request response]; [done|]. intros [_ Hl].
  induction Hl as [|x l Hx _ IH] using Forall_ind; cbn [find_map]; [done|].
  destruct x; try done. by intros [= <- _ _].
Qed.
Lemma routing_quotes_keyed l :
  Forall service_keyed l → Forall full_key (map q_provider_public_key (routing_quotes l)).
Proof.
  induction 1 as [|x l Hx _ IH] using Forall_ind; [constructor|].
  unfold routing_quotes in *. destruct x; cbn; [by constructor|done|done].
Qed.
Lemma route_quotes_keyed r :
  route_keyed r →
  Forall full_key (map q_provider_public_key ((receipt_routing_quotes r).1 ++ (receipt_routing_quotes r).2)).
Proof.
  unfold route_keyed, receipt_routing_quotes. rewrite map_app. intros H. apply Forall_app.
  destruct (expected_services r); cbn; [|destruct H]; auto using routing_quotes_keyed.
Qed.

Record info_ok (k : StreamKey) (i : StreamInfo) : Prop := {
  io_window : ∃ seen, window_for (response_sequence_replay_window i) seen;
  io_retry : ∀ r, dns_failure_retry_opt i = Some r →
    0 ≤ retries_left r ∧ 0 ≤ active_attempt_id r ∧
    retries_left r + active_attempt_id r ≤ DNS_FAILURE_RETRIES ∧ crp_stream_key (unsuccessful_request r) = k;
  io_route : ∀ r, route_opt i = Some r → route_keyed r;
}.

Record pending_ok (main : CryptDE) (k : StreamKey) (addr : SocketAddr) (p : PendingRouteRequest) : Prop := {
  po_some : packets p ≠ [];
  po_count : (length (packets p) ≤ MAX_PENDING_ROUTE_PACKETS_PER_STREAM)%nat;
  po_bytes : queued_payload_bytes p = bytes_waiting (packets p) ∧
    queued_payload_bytes p ≤ MAX_PENDING_ROUTE_BYTES_PER_STREAM;
  po_packets : Forall (fun a => args_main_cryptde a = main ∧ crp_stream_key (args_payload a) = k ∧
    args_route_request_id a = pr_route_request_id p ∧ args_client_addr a = addr) (packets p);
}.

(** A method of the manager, seen as a call of its interface. *)
Definition same_run {St A} `{RS : RecoveryStore St} `{SK : SessionKeys} `{E : Ethsign} `{C : Cbor}
    (c : M St A) (call : Call) : Prop :=
  ∀ m, match c m with Ret (_, m') => ∃ r, run_call call m = Ret (r, m') | Panic => run_call call m = Panic end.

(** Every call whose quotes have keys of 64 bytes keeps the manager sound. *)
Definition calls_keep {St} `{RS : RecoveryStore St} `{SK : SessionKeys} `{E : Ethsign} `{C : Cbor} {MP : MayPanic}
    (sound : Manager St → Prop) : Prop :=
  ∀ call m, Forall full_key (quotes_of call) → sound m →
    match run_call call m with Ret (_, m') => sound m' | Panic => allowed end.

Section Invariant.
Context {St : Type} `{RS : RecoveryStore St} `{SK : SessionKeys} `{E : Ethsign} `{C : Cbor} {MP : MayPanic}.
Context (c0 : ProxyConfig) (stream_key_new : PublicKey → SocketAddr → StreamKey) (sound : Manager St → Prop).
Context (sound_run : calls_keep sound).
Abbreviation proxy := (Proxy St).
Abbreviation key_of := (stream_key_new (public_key (main_cryptde c0))).

(** [hole] holds the streams whose state is taken out of the table for a
    moment. *)
Record streams_ok (hole : gset StreamKey) (s : proxy) : Prop := {
  so_cfg : cfg s = c0;
  so_bound : bound s = true;
  so_manager : ∀ m, receipt_session_manager_opt s = Some m → sound m;
  so_bijective : bijective (keys_and_addrs s);
  so_keys : ∀ k a, map_ab (keys_and_addrs s) !! k = Some a → k = key_of a ∧ valid_socket a;
  so_infos : ∀ k, k ∉ hole → is_Some (stream_infos s !! k) ↔ is_Some (map_ab (keys_and_addrs s) !! k);
  so_hole : ∀ k, k ∈ hole → stream_infos s !! k = None;
  so_info : ∀ k i, stream_infos s !! k = Some i → info_ok k i;
  so_pending : ∀ k p, pending_route_requests s !! k = Some p →
    ∃ a, map_ab (keys_and_addrs s) !! k = Some a ∧ pending_ok (main_cryptde c0) k a p;
  so_ids : ∀ k p, pending_route_requests s !! k = Some p → 1 ≤ pr_route_request_id p < next_route_request_id s;
  so_distinct : ∀ k k' p p', pending_route_requests s !! k = Some p → pending_route_requests s !! k' = Some p' →
    pr_route_request_id p = pr_route_request_id p' → k = k';
  so_next : 1 ≤ next_route_request_id s;
  so_offers : (size (pending_receipt_offers s) ≤ MAX_PENDING_RECEIPT_OFFERS)%nat;
}.

(** *** Receipts are no concern of the streams *)

Lemma streams_ok_receipts h m offers outbox retry s :
  (size offers ≤ MAX_PENDING_RECEIPT_OFFERS)%nat → (∀ m', m = Some m' → sound m') →
  streams_ok h s → streams_ok h (set_receipts m offers outbox retry s).
Proof. intros Ho Hm []. by split. Qed.
Lemma streams_ok_offers h offers s :
  (size offers ≤ MAX_PENDING_RECEIPT_OFFERS)%nat → streams_ok h s → streams_ok h (set_offers offers s).
Proof. intros Ho Hs. apply streams_ok_receipts; [done|by destruct Hs|done]. Qed.

Lemma keeps_cfg {A} h (k : ProxyConfig → ps A) :
  keeps (streams_ok h) (k c0) → keeps (streams_ok h) (ps_bind (get cfg) k).
Proof. intros Hk s Hs. unfold ps_bind, get. rewrite (so_cfg _ _ Hs). specialize (Hk s Hs). by destruct (k c0 s) as [[[]]|]. Qed.
Lemma keeps_bound_subs h : keeps (streams_ok h) out_subs.
Proof. apply keeps_out_subs. by intros s []. Qed.

Lemma keeps_call_manager {A} h (c : M St A) call :
  same_run c call → Forall full_key (quotes_of call) → keeps (streams_ok h) (call_manager c).
Proof.
  intros Hc Hq s Hs. unfold call_manager. destruct (receipt_session_manager_opt s) as [m|] eqn:Em; [|done].
  specialize (Hc m). pose proof (sound_run call m Hq (so_manager _ _ Hs _ Em)) as Hr.
  destruct (c m) as [[r m']|]; [destruct Hc as [r' Hc]|]; rewrite Hc in Hr; [|done].
  cbn. apply streams_ok_receipts; [by destruct Hs|by intros ? [= <-]|done].
Qed.
Lemma keeps_outbox h f : keeps (streams_ok h) (modify (fun s => set_outbox (f s) s)).
Proof. apply keeps_modify. intros s Hs. by apply streams_ok_receipts; [destruct Hs..|]. Qed.
Lemma keeps_set_outbox h o : keeps (streams_ok h) (modify (set_outbox o)).
Proof. apply (keeps_outbox h (fun _ => o)). Qed.
Lemma keeps_retry_scheduled h b : keeps (streams_ok h) (modify (set_retry_scheduled b)).
Proof. apply keeps_modify. intros s Hs. by apply streams_ok_receipts; [destruct Hs..|]. Qed.
Lemma keeps_delete_offer h e : keeps (streams_ok h) (modify (fun s => set_offers (delete e (pending_receipt_offers s)) s)).
Proof.
  apply keeps_modify. intros s Hs. apply streams_ok_offers; [|done].
  pose proof (so_offers _ _ Hs). rewrite map_size_delete. destruct (_ !! e); cbn; lia.
Qed.
Lemma keeps_clear_offers h : keeps (streams_ok h) (modify (set_offers ∅)).
Proof. apply keeps_modify. intros s Hs. apply streams_ok_offers; [|done]. rewrite map_size_empty. lia. Qed.
Lemma keeps_bound h : keeps (streams_ok h) (modify set_bound).
Proof. apply keeps_modify. intros s []. by split. Qed.
Lemma keeps_return_id h : keeps (streams_ok h) get_next_return_route_id.
Proof.
  apply keeps_bind; [apply keeps_get|]. intros id. apply keeps_bind; [|intros; apply keeps_ret].
  apply keeps_modify. intros s []. by split.
Qed.
End Invariant.
#[export] Hint Extern 1 (Forall full_key (quotes_of _)) => exact (List.Forall_nil _) : keeps.
#[export] Hint Resolve keeps_bound_subs keeps_outbox keeps_set_outbox keeps_retry_scheduled keeps_delete_offer
  keeps_clear_offers keeps_bound keeps_return_id : keeps.

(** Follow the structure of a handler. *)
Ltac keep_step :=
  match goal with
  | |- keeps (streams_ok _ _ _ _) (ps_bind (get cfg) _) => apply keeps_cfg
  | |- keeps _ (ps_bind _ _) => apply keeps_bind; [|intros ?]
  | |- keeps _ (ps_try _ _) => apply keeps_try; [|intros ?]
  | |- keeps _ (when _ _) => apply keeps_when
  | |- keeps _ (match ?x with _ => _ end) => destruct x
  | |- keeps _ (let _ := _ in _) => cbv zeta
  | |- keeps _ _ => solve [eauto with keeps]
  end.
Ltac keep := repeat keep_step.

Section Calls.
Context {St : Type} `{RS : RecoveryStore St} `{SK : SessionKeys} `{E : Ethsign} `{C : Cbor}.

Lemma same_quiet {A} (c : M St A) call : (∀ m, run_call call m = quiet c m) → same_run c call.
Proof.
  intros Hq m. rewrite Hq. unfold quiet, bind. destruct (c m) as [[[x|e] m']|]; [by eexists|by eexists|done].
Qed.
Lemma same_acknowledge signed now : same_run (St := St) (acknowledge_offer signed now) (CallAcknowledge signed now).
Proof.
  intros m. cbn [run_call]. unfold bind. destruct (acknowledge_offer signed now m) as [[[x|e] m']|]; [by eexists|by eexists|done].
Qed.
Lemma same_status now : same_run (St := St) (status now) (CallStatus now).
Proof. by apply same_quiet. Qed.
Lemma same_propose x d now kr nr : same_run (St := St) (propose x d now kr nr) (CallPropose x d now kr nr).
Proof. by apply same_quiet. Qed.
Lemma same_activate id sig now : same_run (St := St) (activate id sig now) (CallActivate id sig now).
Proof. by apply same_quiet. Qed.
Lemma same_stop : same_run (St := St) stop CallStop.
Proof. by apply same_quiet. Qed.
Lemma same_request k now rand : same_run (St := St) (request_for_stream k now rand) (CallRequest k now rand).
Proof. by apply same_quiet. Qed.
Lemma same_rotate k now rand : same_run (St := St) (rotate_route_for_stream k now rand) (CallRotate k now rand).
Proof. by apply same_quiet. Qed.
Lemma same_bind_exit k p sr br now : same_run (St := St) (bind_exit_quote k p sr br now) (CallBindExit k p sr br now).
Proof. by apply same_quiet. Qed.
Lemma same_bind_routing k rq rs now :
  same_run (St := St) (bind_routing_quotes k rq rs now) (CallBindRouting k rq rs now).
Proof. by apply same_quiet. Qed.
Lemma same_routing_request k n now :
  same_run (St := St) (record_routing_request k n now) (CallRoutingRequest k n now).
Proof. by apply same_quiet. Qed.
Lemma same_routing_response k n now :
  same_run (St := St) (record_routing_response k n now) (CallRoutingResponse k n now).
Proof. by apply same_quiet. Qed.
Lemma same_decrypt f o now : same_run (St := St) (decrypt_routing_offer f o now) (CallDecrypt f o now).
Proof. by apply same_quiet. Qed.
Lemma same_exit_response k q n now : same_run (St := St) (record_exit_response k q n now) (CallExitResponse k q n now).
Proof. by apply same_quiet. Qed.
Lemma same_exit_request k n now : same_run (St := St) (record_exit_request k n now) (CallExitRequest k n now).
Proof. by apply same_quiet. Qed.
End Calls.
#[export] Hint Resolve same_acknowledge same_status same_propose same_activate same_stop same_request same_rotate
  same_bind_exit same_bind_routing same_routing_request same_routing_response same_decrypt same_exit_response
  same_exit_request : keeps.

(** ** Handlers that leave the streams alone *)

Section Receipts.
Context {St : Type} `{RS : RecoveryStore St} `{SK : SessionKeys} `{E : Ethsign} `{C : Cbor}.
Context `{HC : HopCbor} `{PC : PackageCbor} `{VR : ValueReader} `{VO : VersionOrder} `{PY : PayloadCbor}.
Context `{AC : AckCbor} `{HT : HttpCrates} {MP : MayPanic}.
Context (c0 : ProxyConfig) (stream_key_new : PublicKey → SocketAddr → StreamKey) (sound : Manager St → Prop).
Context (sound_run : calls_keep sound).
(** What other parts promise: messages are written, encryption returns. *)
Context (request_written : ∀ p, client_request_message p = Panic → allowed).
Context (ack_written : ∀ p, ack_message p = Panic → allowed).
Context (encryption_returns : ∀ rand r m k, incipient_new (main_cryptde c0) rand r m k = Panic → allowed).
Context (h : gset StreamKey).
Abbreviation ok := (streams_ok (St := St) c0 stream_key_new sound h).

Lemma keeps_call {A} (c : M St A) call :
  same_run c call → Forall full_key (quotes_of call) → keeps ok (call_manager c).
Proof. by apply keeps_call_manager. Qed.
Lemma keeps_ack p : keeps ok (run (ack_message p)).
Proof. by apply keeps_run, ack_written. Qed.
Lemma keeps_written p : keeps ok (run (client_request_message p)).
Proof. by apply keeps_run, request_written. Qed.
Lemma keeps_encryption rand r m k : keeps ok (run (incipient_new (main_cryptde c0) rand r m k)).
Proof. by apply keeps_run, encryption_returns. Qed.
#[local] Hint Resolve keeps_call keeps_ack keeps_written keeps_encryption : keeps.

Lemma keeps_persist_ack env p : keeps ok (persist_receipt_acknowledgement env p).
Proof. unfold persist_receipt_acknowledgement. keep. Qed.
Lemma keeps_deliver p : keeps ok (deliver_receipt_acknowledgement p).
Proof. unfold deliver_receipt_acknowledgement. keep. Qed.
Lemma keeps_receipt_answer env p m r : keeps ok (receipt_route_answered env p m r).
Proof. unfold receipt_route_answered. keep. Qed.
#[local] Hint Resolve keeps_persist_ack keeps_deliver : keeps.
Lemma keeps_deliver_all l : keeps ok (deliver_all l).
Proof. induction l; cbn [deliver_all]; keep. Qed.
#[local] Hint Resolve keeps_deliver_all : keeps.
Lemma keeps_replay : keeps ok replay_persisted_receipt_acknowledgements.
Proof. unfold replay_persisted_receipt_acknowledgements. keep. Qed.
#[local] Hint Resolve keeps_replay : keeps.

Lemma keeps_offer env o : keeps ok (handle_service_receipt_offer env o).
Proof.
  unfold handle_service_receipt_offer. keep. apply keeps_modify. intros p Hp. cbv zeta.
  destruct (_ !! _) eqn:El; [done|]. destruct (Nat.ltb_spec (size (pending_receipt_offers p)) MAX_PENDING_RECEIPT_OFFERS); [|done].
  apply streams_ok_offers; [|done]. rewrite map_size_insert, El. cbn. lia.
Qed.
#[local] Hint Resolve keeps_offer : keeps.
Lemma keeps_replay_offer env e : keeps ok (replay_pending_receipt_offer env e).
Proof.
  eapply ps_hoare_bind; [apply ps_hoare_get|]. intros offers. destruct (offers !! e) as [o|]; [|by intros s [_ ?]].
  eapply ps_hoare_bind; [|intros; apply keeps_offer]. intros s [-> Hs]. by apply (keeps_delete_offer c0 stream_key_new sound h e s).
Qed.
Lemma keeps_offers env l : keeps ok (handle_offers env l).
Proof. induction l; cbn [handle_offers]; keep. Qed.
Lemma keeps_decrypt_offers now l : keeps ok (decrypt_offers now l).
Proof. induction l; cbn [decrypt_offers]; keep. Qed.
#[local] Hint Resolve keeps_offers keeps_decrypt_offers : keeps.
Lemma keeps_routing_offers env k n l : keeps ok (handle_routing_receipt_offers env k n l).
Proof. unfold handle_routing_receipt_offers. keep. Qed.
Lemma keeps_record_exit env m : keeps ok (handle_record_exit_request env m).
Proof. unfold handle_record_exit_request. keep. Qed.
Lemma keeps_retry b : keeps ok (handle_retry_receipt_acknowledgements b).
Proof. unfold handle_retry_receipt_acknowledgements. keep. Qed.
Lemma keeps_bind_message : keeps ok handle_bind.
Proof. unfold handle_bind. keep. Qed.
Lemma keeps_ui env cl cx r : keeps ok (handle_ui env cl cx r).
Proof.
  unfold handle_ui, handle_receipt_session_proposal, handle_receipt_session_activation,
    handle_receipt_session_status, handle_receipt_session_stop, send_ui_response. keep.
Qed.
Lemma keeps_transmit env n args r l :
  args_main_cryptde args = main_cryptde c0 → keeps ok (transmit_to_hopper env n args r l).
Proof. intros Hm. unfold transmit_to_hopper, handle_route_failure, send_route_failure. rewrite Hm. keep. Qed.
#[local] Hint Resolve keeps_transmit : keeps.
Lemma keeps_try_transmit env n args r :
  args_main_cryptde args = main_cryptde c0 → keeps ok (try_transmit_to_hopper env n args r).
Proof. intros Hm. unfold try_transmit_to_hopper. keep. Qed.
#[local] Hint Resolve keeps_try_transmit : keeps.
Lemma keeps_packets env n l r :
  Forall (fun args => args_main_cryptde args = main_cryptde c0) l → keeps ok (transmit_packets env n l r).
Proof.
  intros Hl. revert n. induction Hl as [|args l Ha _ IH] using Forall_ind; intros n; cbn [transmit_packets]; keep.
Qed.
Lemma keeps_resolve args r : keeps ok (resolve_message args r).
Proof. unfold resolve_message. keep. Qed.
Lemma keeps_bind_exit k p sr br now : full_key p → keeps ok (call_manager (bind_exit_quote k p sr br now)).
Proof. intros Hp. eapply keeps_call; [apply same_bind_exit|]. by apply Forall_singleton. Qed.
Lemma keeps_session_request env k q :
  (∀ p sr br, q = Some (p, sr, br) → full_key p) → keeps ok (session_request env k q).
Proof.
  intros Hq. unfold session_request. destruct q as [[[p sr] br]|].
  - pose proof (keeps_bind_exit k p sr br) as Hb. specialize (Hq p sr br eq_refl). keep.
  - keep.
Qed.
Lemma keeps_bind_quotes env k r : route_keyed r → keeps ok (bind_quotes env k r).
Proof.
  intros Hr. unfold bind_quotes. destruct (unix_time_now env) as [now|e]; [|keep].
  pose proof (route_quotes_keyed _ Hr) as Hq. destruct (receipt_routing_quotes r) as [rq rs].
  apply keeps_bind; [eapply keeps_call; [apply same_bind_routing|done]|]. intros _.
  destruct (receipt_exit_quote r) as [[[p sr] br]|] eqn:He; [|keep].
  apply exit_quote_keyed in He; [|done]. apply keeps_bind; [by apply keeps_bind_exit|]. intros b. keep.
Qed.
Lemma keeps_response_report env l a b : keeps ok (report_response_services_consumed env l a b).
Proof. unfold report_response_services_consumed. keep. Qed.
Lemma keeps_success env k x b : keeps ok (report_route_success env k x b).
Proof. unfold report_route_success, stream_info. keep. Qed.
End Receipts.
#[export] Hint Resolve keeps_receipt_answer keeps_replay keeps_offer keeps_replay_offer keeps_routing_offers
  keeps_record_exit keeps_retry keeps_bind_message keeps_ui keeps_try_transmit keeps_packets keeps_resolve
  keeps_session_request keeps_bind_quotes keeps_response_report keeps_success : keeps.

(** ** Operations on streams *)

Section Streams.
Context {St : Type} {MP : MayPanic}.
Context (c0 : ProxyConfig) (stream_key_new : PublicKey → SocketAddr → StreamKey) (sound : Manager St → Prop).
Abbreviation proxy := (Proxy St).
Abbreviation ok := (streams_ok (St := St) c0 stream_key_new sound).

Lemma keeps_update_info h k f : (∀ i, info_ok k i → info_ok k (f i)) → keeps (ok h) (update_info k f).
Proof.
  intros Hf. apply keeps_modify. intros s []. split; cbn; try done.
  - intros k' Hk'. rewrite <- so_infos0 by done. by rewrite lookup_alter_is_Some.
  - intros k' Hk'. destruct (decide (k = k')) as [->|]; [rewrite lookup_alter_eq, so_hole0 by done; done|].
    rewrite lookup_alter_ne by done. auto.
  - intros k' i. destruct (decide (k = k')) as [->|]; [|rewrite lookup_alter_ne by done; auto].
    rewrite lookup_alter_eq. destruct (stream_infos s !! k') eqn:E; [|done]. intros [= <-]. auto.
Qed.

Lemma hoare_purge h k : hoare (ok h) (purge_stream_key k) (fun _ => ok (h ∖ {[k]})).
Proof.
  intros s []. cbn. split; cbn; rewrite ?remove_a_ab; try done.
  - by apply bijective_remove_a.
  - intros k' a [_ ?]%lookup_delete_Some. auto.
  - intros k' Hk'. destruct (decide (k = k')) as [->|]; [by rewrite !lookup_delete_eq|].
    rewrite !lookup_delete_ne by done. apply so_infos0. set_solver.
  - intros k' [Hk' ?]%elem_of_difference. rewrite lookup_delete_None. auto.
  - intros k' i [_ ?]%lookup_delete_Some. auto.
  - intros k' p [Hne Hp]%lookup_delete_Some. rewrite lookup_delete_ne by done. auto.
  - intros k' p [_ ?]%lookup_delete_Some. eauto.
  - intros k' k'' p p' [_ ?]%lookup_delete_Some [_ ?]%lookup_delete_Some. eauto.
Qed.
Lemma keeps_purge k : keeps (ok ∅) (purge_stream_key k).
Proof.
  eapply hoare_weaken; [apply (hoare_purge ∅)|done|]. intros u s.
  by replace ((∅ : gset StreamKey) ∖ {[k]}) with (∅ : gset StreamKey) by set_solver.
Qed.

Lemma new_info_ok k t : info_ok k (new_stream_info t).
Proof.
  split; [|done|done]. exists ∅. apply window_for_default.
Qed.

Context (key_inj : ∀ a b, valid_socket a → valid_socket b → stream_key_new (public_key (main_cryptde c0)) a
                          = stream_key_new (public_key (main_cryptde c0)) b → a = b).

Lemma fresh_key s a : valid_socket a → ok ∅ s → b_to_a (keys_and_addrs s) a = None →
  map_ab (keys_and_addrs s) !! stream_key_new (public_key (main_cryptde c0)) a = None.
Proof.
  intros Hv [] Ha. destruct (map_ab _ !! _) as [b|] eqn:E; [|done]. exfalso.
  destruct (so_keys0 _ _ E) as [Hk Hb]. apply key_inj in Hk; [|done..]. subst b. apply so_bijective0 in E.
  unfold b_to_a in Ha. congruence.
Qed.

(** After it the stream of the client's address is in the tables. *)
Definition linked (h : gset StreamKey) (k : StreamKey) (a : SocketAddr) (s : proxy) : Prop :=
  ok h s ∧ map_ab (keys_and_addrs s) !! k = Some a.

Lemma hoare_find ibcd :
  valid_socket (ib_client_addr ibcd) →
  hoare (ok ∅) (find_or_generate_stream_key stream_key_new ibcd) (fun k => linked ∅ k (ib_client_addr ibcd)).
Proof.
  intros Hv s Hs. unfold find_or_generate_stream_key, ps_bind, get, modify, ps_ret. cbn.
  destruct (b_to_a (keys_and_addrs s) (ib_client_addr ibcd)) as [k|] eqn:E.
  { split; [done|]. by apply (so_bijective _ _ _ _ _ Hs). }
  pose proof (fresh_key s _ Hv Hs E) as Hf. destruct Hs. rewrite so_cfg0. set (k := stream_key_new _ _) in *.
  assert (stream_infos s !! k = None) as Hi.
  { apply eq_None_not_Some. rewrite so_infos0 by set_solver. rewrite Hf. by intros []. }
  split; [|cbn; by rewrite lookup_insert_eq]. split; cbn; try done.
  - by apply bijective_insert.
  - intros k' a [[<- <-]|[_ ?]]%lookup_insert_Some; auto.
  - intros k' _. rewrite !lookup_insert_is_Some. specialize (so_infos0 k' ltac:(set_solver)). naive_solver.
  - intros k' i [[<- <-]|[_ ?]]%lookup_insert_Some; [apply new_info_ok|auto].
  - intros k' p Hp. destruct (so_pending0 _ _ Hp) as (a & Ha & ?). exists a. split; [|done].
    rewrite lookup_insert_ne; [done|]. intros <-. congruence.
Qed.

Lemma linked_keeps {A} h k a (c : ps A) :
  keeps (ok h) c → (∀ s, match c s with Ret (_, s', _) => keys_and_addrs s' = keys_and_addrs s | Panic => True end) →
  keeps (linked h k a) c.
Proof.
  intros Hc Hk s [Hs Hl]. specialize (Hc s Hs). specialize (Hk s). destruct (c s) as [[[x s'] o]|]; [|done].
  split; [done|]. by rewrite Hk.
Qed.

(** *** Packets that wait *)

Lemma bytes_waiting_app l l' : bytes_waiting (l ++ l') = bytes_waiting l + bytes_waiting l'.
Proof. induction l as [|a l IH]; cbn; [done|]. unfold bytes_waiting in *. lia. Qed.

Lemma keeps_fail_route h p n a : keeps (ok h) (send_route_failure p n a).
Proof. apply keeps_sending. Qed.

(** A packet is queued, or its stream is given up. *)
Lemma hoare_queue h args :
  let k := crp_stream_key (args_payload args) in
  args_main_cryptde args = main_cryptde c0 →
  hoare (linked h k (args_client_addr args)) (queue_pending_route_packet args)
    (fun r s => match r with
                | Ok None => linked h k (args_client_addr args) s
                | Ok (Some a) => linked h k (args_client_addr args) s ∧
                    ∃ p, pending_route_requests s !! k = Some p ∧ packets p = [a]
                | Err _ => ok h s ∨ ok (h ∖ {[k]}) s
                end).
Proof.
  intros k Hmain s [Hs Hl]. unfold queue_pending_route_packet, ps_bind, get. cbv beta iota zeta. fold k.
  pose proof (hoare_purge h k s Hs) as Hpurge.
  unfold MAX_PENDING_ROUTE_PACKETS_PER_STREAM, MAX_PENDING_ROUTE_BYTES_PER_STREAM.
  destruct (pending_route_requests s !! k) as [p|] eqn:Hp.
  - destruct (checked_add _ _ _) as [q|] eqn:Hq; [|by left].
    assert (q = queued_payload_bytes p + Z.of_nat (request_len (args_payload args))) as ->
      by (unfold checked_add in Hq; destruct (decide _); congruence).
    destruct ((32 <=? length (packets p))%nat || _) eqn:Hfull.
    { cbn in Hpurge |- *. by right. }
    apply orb_false_iff in Hfull as [Hc%Nat.leb_gt Hb%Z.ltb_ge]. cbn.
    split; [|done]. pose proof Hs as []. split; cbn; try done.
    + intros k' p' [[<- <-]|[_ ?]]%lookup_insert_Some; [|auto].
      destruct (so_pending0 _ _ Hp) as (a & Ha & []). exists a. split; [done|]. rewrite Hl in Ha. injection Ha as <-.
      split; cbn; [by destruct (packets p)|rewrite length_app; cbn; unfold MAX_PENDING_ROUTE_PACKETS_PER_STREAM; lia| |].
      * rewrite bytes_waiting_app. cbn. unfold MAX_PENDING_ROUTE_BYTES_PER_STREAM. lia.
      * apply Forall_app_2; [done|]. by repeat constructor.
    + intros k' p' [[<- <-]|[_ ?]]%lookup_insert_Some; cbn; eauto.
    + intros k1 k2 p1 p2 [[<- <-]|[Hn1 H1]]%lookup_insert_Some [[<- <-]|[Hn2 H2]]%lookup_insert_Some; cbn; eauto.
  - destruct (1048576 <? _) eqn:Hb; [cbn in Hpurge |- *; by right|]. apply Z.ltb_ge in Hb.
    unfold ps_try, get_next_route_request_id, ps_bind, get. cbv beta iota.
    destruct (checked_add 64 (next_route_request_id s) 1) as [n|] eqn:Hn; [|cbn; by left].
    assert (n = next_route_request_id s + 1) as -> by (unfold checked_add in Hn; destruct (decide _); congruence).
    cbn. split; [|rewrite lookup_insert_eq; by eexists]. split; [|done]. pose proof Hs as []. split; cbn; try done; [..|lia].
    + intros k' p' [[<- <-]|[_ ?]]%lookup_insert_Some; [|auto]. exists (args_client_addr args). split; [done|].
      split; cbn; [done|unfold MAX_PENDING_ROUTE_PACKETS_PER_STREAM; lia| |by repeat constructor].
      unfold MAX_PENDING_ROUTE_BYTES_PER_STREAM. change (request_len (args_payload (with_route_request_id _ args)))
        with (request_len (args_payload args)). lia.
    + intros k' p' [[<- <-]|[_ Hp']]%lookup_insert_Some; cbn; [lia|]. specialize (so_ids0 _ _ Hp'). lia.
    + intros k1 k2 p1 p2 [[<- <-]|[Hn1 H1]]%lookup_insert_Some [[<- <-]|[Hn2 H2]]%lookup_insert_Some; cbn; try done; eauto;
        [specialize (so_ids0 _ _ H2); lia|specialize (so_ids0 _ _ H1); lia].
Qed.
End Streams.

(** ** The handlers *)

Section Handlers.
Context {St : Type} `{RS : RecoveryStore St} `{SK : SessionKeys} `{E : Ethsign} `{C : Cbor}.
Context `{HC : HopCbor} `{PC : PackageCbor} `{VR : ValueReader} `{VO : VersionOrder} `{PY : PayloadCbor}.
Context `{AC : AckCbor} `{HT : HttpCrates} {MP : MayPanic}.
Context (c0 : ProxyConfig) (stream_key_new : PublicKey → SocketAddr → StreamKey) (sound : Manager St → Prop).
Context (sound_run : calls_keep sound).
Context (request_written : ∀ p, client_request_message p = Panic → allowed).
Context (ack_written : ∀ p, ack_message p = Panic → allowed).
Context (encryption_returns : ∀ rand r m k, incipient_new (main_cryptde c0) rand r m k = Panic → allowed).
Context (key_inj : ∀ a b, valid_socket a → valid_socket b → stream_key_new (public_key (main_cryptde c0)) a
                          = stream_key_new (public_key (main_cryptde c0)) b → a = b).
Abbreviation proxy := (Proxy St).
Abbreviation ok := (streams_ok (St := St) c0 stream_key_new sound).
Abbreviation linked := (linked (St := St) c0 stream_key_new sound).

(** A computation that does not touch the map of streams and sockets. *)
Definition same_keys {A} (c : ps A) : Prop :=
  ∀ s : proxy, match c s with Ret (_, s', _) => keys_and_addrs s' = keys_and_addrs s | Panic => True end.

Lemma same_keys_keeps {A} (c : ps A) : (∀ m, keeps (MP := True) (fun s : proxy => keys_and_addrs s = m) c) → same_keys c.
Proof. intros Hc s. specialize (Hc (keys_and_addrs s) s eq_refl). by destruct (c s) as [[[]]|]. Qed.

Lemma keys_call_manager {A} m (c : M St A) : keeps (MP := True) (fun s : proxy => keys_and_addrs s = m) (call_manager c).
Proof.
  intros s Hs. unfold call_manager. destruct (receipt_session_manager_opt s) as [mg|]; [|done].
  by destruct (c mg) as [[]|].
Qed.
Lemma keys_modify m f : (∀ s : proxy, keys_and_addrs (f s) = keys_and_addrs s) →
  keeps (MP := True) (fun s : proxy => keys_and_addrs s = m) (modify f).
Proof. intros Hf. apply keeps_modify. intros s <-. apply Hf. Qed.
#[local] Hint Resolve keys_call_manager keys_modify : keeps.

Lemma keys_session_request m env k q : keeps (MP := True) (fun s : proxy => keys_and_addrs s = m) (session_request env k q).
Proof. unfold session_request. keep. Qed.
#[local] Hint Resolve keys_session_request : keeps.

Lemma keys_args m p a t b : keeps (MP := True) (fun s : proxy => keys_and_addrs s = m) (args_new p a t b).
Proof. unfold args_new, get_next_return_route_id. keep. Qed.

Lemma payload_make_key ibcd k host cryptde p : payload_make ibcd k host cryptde = Ret (Some p) → crp_stream_key p = k.
Proof.
  unfold payload_make. destruct (from_ibcd ibcd); [|done]. destruct (find_host _ _) as [o|]; [|done]. cbn [exec_bind].
  destruct (match o with Some _ => _ | None => _ end), (ib_sequence_number_opt ibcd); try done. by intros [= <-].
Qed.
Lemma make_payload_key env ibcd k :
  hoare (MP := True) (fun _ : proxy => True) (make_payload env ibcd k) (fun r _ => ∀ p, r = Ok p → crp_stream_key p = k).
Proof.
  unfold make_payload. eapply ps_hoare_bind with (R := fun _ _ => True); [by intros s|]. intros i. cbv zeta.
  eapply ps_hoare_bind with (R := fun _ _ => True); [by intros s|]. intros c.
  eapply ps_hoare_bind with (R := fun r _ => ∀ p, r = Some p → crp_stream_key p = k).
  { intros s _. unfold run. destruct (payload_make _ _ _ _) eqn:Em; [|done]. intros p ->. by eapply payload_make_key. }
  intros [p|]; [|by intros s].
  eapply ps_hoare_bind with (R := fun _ _ => crp_stream_key p = k).
  { intros s Hp. specialize (Hp p eq_refl). by destruct (session_request _ _ _ _) as [[[]]|]. }
  intros [q|e]; [|by intros s]. intros s Hp x [= <-]. by destruct (match i with Some _ => _ | None => _ end).
Qed.
(** The host of the data is looked for without a panic. *)
Definition readable (ibcd : InboundClientData) : Prop := ∀ pack, find_host pack (ib_data ibcd) = Panic → allowed.

Lemma payload_make_returns ibcd k host cryptde :
  readable ibcd → payload_make ibcd k host cryptde = Panic → allowed.
Proof.
  intros Hr. unfold payload_make. destruct (from_ibcd ibcd) as [pack|]; [|done].
  specialize (Hr pack). destruct (find_host pack (ib_data ibcd)) as [o|]; [|auto]. cbn [exec_bind].
  by destruct (match o with Some _ => _ | None => _ end), (ib_sequence_number_opt ibcd).
Qed.
Lemma keeps_made h ibcd k host cryptde (t : option string) :
  readable ibcd → keeps (ok h)
    (run (payload_make (match t with Some _ => with_reception_port TLS_PORT ibcd | None => ibcd end) k host cryptde)).
Proof. intros Hr. apply keeps_run, payload_make_returns. by destruct t. Qed.
Lemma keeps_make_payload h env ibcd k : readable ibcd → keeps (ok h) (make_payload env ibcd k).
Proof.
  intros Hr. unfold make_payload. eapply ps_hoare_bind; [apply ps_hoare_get|]. intros info. cbv zeta.
  set (route := match info with Some i => route_opt i | None => None end).
  assert (∀ s, info = stream_infos s !! k ∧ ok h s → (∀ r, route = Some r → route_keyed r) ∧ ok h s) as Hinfo.
  { intros s [Hi Hs]. split; [|done]. intros r Hroute. destruct info as [i|]; [|done].
    eapply io_route; [|done]. by eapply so_info. }
  eapply hoare_weaken; [|exact Hinfo|exact (fun _ _ H => H)]. apply ps_hoare_pre. intros Hroute.
  assert (∀ p sr br, match route with Some r => receipt_exit_quote r | None => None end = Some (p, sr, br) →
    full_key p) as Hq.
  { intros p sr br. destruct route as [r|]; [|done]. intros H. eapply exit_quote_keyed; [by apply Hroute|done]. }
  apply keeps_cfg. apply keeps_bind; [by apply keeps_made|]. intros [payload|]; [|keep].
  apply keeps_try; [by apply keeps_session_request|]. intros q. keep.
Qed.
Lemma keys_make_payload m env ibcd k : keeps (MP := True) (fun s : proxy => keys_and_addrs s = m) (make_payload env ibcd k).
Proof. unfold make_payload. keep. Qed.

Lemma hoare_make_payload h env ibcd k a :
  readable ibcd →
  hoare (linked h k a) (make_payload env ibcd k)
    (fun r s => linked h k a s ∧ ∀ p, r = Ok p → crp_stream_key p = k).
Proof.
  intros Hr s Hs. pose proof (linked_keeps c0 stream_key_new sound h k a _ (keeps_make_payload h env ibcd k Hr)
    (same_keys_keeps _ (fun m => keys_make_payload m env ibcd k)) s Hs) as Hk.
  destruct (make_payload env ibcd k s) as [[[r s'] o]|] eqn:Em; [|done]. split; [done|].
  intros p ->. pose proof (make_payload_key env ibcd k s I) as H. rewrite Em in H. by apply H.
Qed.

Lemma linked_info k a s : linked ∅ k a s → is_Some (stream_infos s !! k).
Proof. intros [Hs Hl]. apply (so_infos _ _ _ _ _ Hs); [set_solver|]. by rewrite Hl. Qed.

Lemma hoare_remember k a payload :
  crp_stream_key payload = k →
  hoare (linked ∅ k a) (remember_request k payload) (fun p s => linked ∅ k a s ∧ crp_stream_key p = k).
Proof.
  intros Hp s Hsl. destruct (linked_info _ _ _ Hsl) as [i Hi]. destruct Hsl as [Hs Hl].
  unfold remember_request, ps_bind at 1, get at 1. cbv beta iota.
  unfold stream_info, ps_bind at 1, get at 1. cbv beta iota. rewrite Hi. unfold ps_bind at 1. unfold when.
  destruct (dns_failure_retry_opt i) as [r|] eqn:Hr; [by cbn|]. cbn.
  split; [|done]. split; [|done].
  refine (keeps_update_info c0 stream_key_new sound ∅ k _ _ s Hs). intros j []. split; [done| |done].
  intros r [= <-]. cbn. split; [by destruct (is_decentralized _)|]. split; [done|]. split; [|done].
  by destruct (is_decentralized _).
Qed.

Lemma hoare_args h k a payload t b :
  hoare (linked h k a) (args_new payload a t b)
    (fun args s => linked h k a s ∧ args_payload args = payload ∧ args_client_addr args = a ∧
                   args_main_cryptde args = main_cryptde c0).
Proof.
  intros s Hs.
  assert (keeps (ok h) (args_new payload a t b)) as Hk by (unfold args_new; keep).
  pose proof (linked_keeps c0 stream_key_new sound h k a _ Hk (same_keys_keeps _ (fun m => keys_args m payload a t b)) s Hs) as Hl.
  destruct (args_new payload a t b s) as [[[args s'] o]|] eqn:Ea; [|done]. split; [done|].
  revert Ea. rewrite <- (so_cfg _ _ _ _ _ (proj1 Hs)). clear. unfold args_new, ps_bind, when, out_subs, get_next_return_route_id, get, modify, run, ps_ret, ps_bind, get.
  destruct b; cbn; destruct (bound s) eqn:Hb; cbn; rewrite ?Hb; intros [=]; by subst.
Qed.

Lemma linked_ok h k a s : linked h k a s → ok h s.
Proof. by intros []. Qed.

Lemma keeps_normal env msg :
  valid_socket (ib_client_addr msg) → readable msg → keeps (ok ∅) (handle_normal_client_data stream_key_new env msg).
Proof.
  intros Hv Hr. unfold handle_normal_client_data. apply keeps_cfg. destruct (_ && _).
  { keep. }
  eapply ps_hoare_bind; [by apply hoare_find|]. intros k. set (a := ib_client_addr msg).
  eapply ps_hoare_bind; [by apply hoare_make_payload|]. intros [payload|e]; [|by intros s [[]]].
  destruct (if is_running_in_integration_test c0 then _ else _); [|by intros s [[]]].
  eapply (hoare_weaken _ (fun s => linked ∅ k a s ∧ crp_stream_key payload = k)); [|intros s [? ?]; split; auto|exact (fun _ _ H => H)].
  eapply ps_hoare_bind with (R := fun p s => linked ∅ k a s ∧ crp_stream_key p = k).
  { intros s [Hs Hp]. by apply hoare_remember. }
  intros p. eapply ps_hoare_bind with
    (R := fun args s => (crp_stream_key p = k ∧ args_main_cryptde args = main_cryptde c0) ∧
                        linked ∅ k a s ∧ args_payload args = p ∧ args_client_addr args = a).
  { intros s [Hs Hp]. pose proof (hoare_args ∅ k a p (ib_timestamp msg) (ib_last_data msg) s Hs) as H.
    fold a. destruct (args_new _ _ _ _ s) as [[[]]|]; [|done]. by destruct H as (? & ? & ? & ?). }
  intros args. apply ps_hoare_pre. intros [Hp Hmain].
  eapply ps_hoare_bind; [apply ps_hoare_get|]. intros [i|].
  2:{ intros s (Hi & Hs & _). rewrite Hp in Hi. by destruct (linked_info _ _ _ Hs) as [? Hi2]; rewrite Hi2 in Hi. }
  destruct (route_opt i) as [r|].
  { intros s (_ & [Hs _] & _). by apply keeps_try_transmit. }
  eapply ps_hoare_bind with (R := fun _ s => linked ∅ k a s ∧ args_payload args = p ∧ args_client_addr args = a).
  { intros s [_ Hs]. apply keeps_out_subs; [|done]. by intros ? [[[]] _]. }
  intros _. unfold ps_try. eapply ps_hoare_bind with (R := fun _ => ok ∅).
  { intros s (Hs & <- & Ha). rewrite <- Hp, <- Ha in Hs. pose proof (hoare_queue c0 stream_key_new sound ∅ args Hmain s Hs) as Hq.
    destruct (queue_pending_route_packet args s) as [[[[[x|]|] s'] o]|]; [by destruct Hq as [[] _]|by destruct Hq| |done].
    replace ((∅ : gset StreamKey) ∖ {[crp_stream_key (args_payload args)]}) with (∅ : gset StreamKey) in Hq by set_solver.
    by destruct Hq. }
  intros [[x|]|]; unfold request_route_and_transmit; apply hoare_keeps; keep.
Qed.
#[local] Hint Resolve keeps_normal : keeps.

Lemma keeps_host h data : keeps (ok h) (run (http_find_host data)).
Proof. apply keeps_run. by intros ?%http_host_returns. Qed.
#[local] Hint Resolve keeps_host : keeps.
Lemma keeps_connect msg : valid_socket (ib_client_addr msg) → keeps (ok ∅) (tls_connect stream_key_new msg).
Proof.
  intros Hv. unfold tls_connect, to_client. keep; [|apply keeps_update_info; by intros ? []].
  eapply hoare_weaken; [by apply hoare_find|done|]. by intros k s [].
Qed.

Lemma keeps_schedule env k : keeps (ok ∅) (schedule_stream_key_purge env k).
Proof. unfold schedule_stream_key_purge, stream_info. keep. apply keeps_update_info. by intros ? []. Qed.
#[local] Hint Resolve keeps_connect keeps_schedule : keeps.

Lemma readable_nothing t a p l c n : readable (mkInbound t a p l c n []).
Proof. intros pack H. destruct pack; [by apply http_host_returns in H|]. by apply short_handshake_panics in H as (? & ? & _). Qed.
#[local] Hint Resolve readable_nothing : keeps.

Lemma keeps_inbound env msg :
  valid_socket (ib_client_addr msg) → readable msg → keeps (ok ∅) (handle_inbound stream_key_new env msg).
Proof. intros Hv Hr. unfold handle_inbound. keep. Qed.
Lemma keeps_shutdown_msg env msg :
  valid_socket (peer_addr msg) → (stream_type msg = Clandestine → allowed) →
  keeps (ok ∅) (handle_stream_shutdown_msg stream_key_new env msg).
Proof. intros Hv Hc. unfold handle_stream_shutdown_msg. keep. apply keeps_run. auto. Qed.

Lemma keeps_forget h k :
  keeps (ok h) (ps* pending := get pending_route_requests in modify (set_pending_routes (delete k pending))).
Proof.
  intros s []. cbn. split; cbn; try done.
  - intros k' p [_ ?]%lookup_delete_Some. auto.
  - intros k' p [_ ?]%lookup_delete_Some. eauto.
  - intros k' k'' p p' [_ ?]%lookup_delete_Some [_ ?]%lookup_delete_Some. eauto.
Qed.

Lemma keeps_add_route env msg :
  (∀ r, ar_result msg = Ok r → route_keyed r) → keeps (ok ∅) (handle_add_route_result_message env msg).
Proof.
  intros Hmsg. unfold handle_add_route_result_message. cbv zeta. apply keeps_bind; [eauto with keeps|]. intros [i|]; [|keep].
  destruct (dns_failure_retry_opt i); [|keep].
  eapply ps_hoare_bind; [apply ps_hoare_get|]. intros pending. destruct (pending !! _) as [p|] eqn:Hp; [|by intros s [_ ?]].
  destruct (negb _); [by intros s [_ ?]|]. eapply ps_hoare_bind with
    (R := fun _ s => Forall (fun args => args_main_cryptde args = main_cryptde c0) (packets p) ∧ ok ∅ s).
  { intros s [-> Hs]. split; [|by apply (keeps_forget ∅ (ar_stream_key msg) s)].
    destruct (so_pending _ _ _ _ _ Hs _ _ Hp) as (a & _ & []). by eapply Forall_impl; [done|]; intros ? []. }
  intros _. apply ps_hoare_pre. intros Hmain. apply hoare_keeps. unfold send_route_failure.
  destruct (ar_result msg) as [r|e]; [specialize (Hmsg r eq_refl)|];
    keep; try (apply keeps_update_info; by intros ? []); try (by apply keeps_packets).
  apply keeps_update_info. intros i' []. split; [done|done|]. cbn. by intros r' [= <-].
Qed.

Lemma window_admit i k n : info_ok k i → in_u 64 n →
  info_ok k (with_window (snd (admit_sequence (response_sequence_replay_window i) n)) i).
Proof.
  intros [[seen Hw] Hr Hk] Hn. split; [|done|done]. cbn. destruct (admit_for _ _ _ Hw Hn) as [_ H]. by eexists.
Qed.

Lemma keeps_take_success k : keeps (ok ∅) (take_route_success k).
Proof. unfold take_route_success, stream_info. keep. apply keeps_update_info. by intros ? []. Qed.
Lemma keeps_no_retry h k : keeps (ok h) (update_info k (fun i => with_dns_retry None (protocol_opt i) i)).
Proof. apply keeps_update_info. intros i []. by split. Qed.
Lemma keeps_return_services h k : keeps (ok h) (get_expected_return_services k).
Proof. unfold get_expected_return_services, stream_info. keep. Qed.
#[local] Hint Resolve keeps_take_success keeps_no_retry keeps_return_services keeps_purge : keeps.

Lemma keeps_calls {A} h (c : M St A) call :
  same_run c call → Forall full_key (quotes_of call) → keeps (ok h) (call_manager c).
Proof. by apply keeps_call_manager. Qed.
#[local] Hint Resolve keeps_calls : keeps.

Lemma keeps_response env msg :
  in_u 64 (sequence_number (crsp_sequenced_packet (ecp_payload msg))) →
  keeps (ok ∅) (handle_client_response_payload env msg).
Proof.
  intros Hn. unfold handle_client_response_payload. cbv zeta.
  apply keeps_bind; [eauto with keeps|]. intros _. apply keeps_bind; [eauto with keeps|]. intros services.
  set (k := crsp_stream_key _). eapply ps_hoare_bind; [apply ps_hoare_get|]. intros info.
  destruct services as [services|]; [|by intros s [_ ?]]. destruct info as [info|]; [|by intros s [_ ?]].
  destruct (checked_add _ _ _) as [b|]; [|by intros s [_ ?]].
  destruct (admit_sequence _ _) as [r w] eqn:Ea. eapply ps_hoare_bind with (R := fun _ => ok ∅).
  { intros s [Hi Hs]. cbn in Hi. symmetry in Hi. pose proof (window_admit info k _ (so_info _ _ _ _ _ Hs k info Hi) Hn) as Hw.
    rewrite Ea in Hw. unfold update_info, modify. destruct Hs. split; cbn; try done.
    - intros k' Hk'. rewrite <- so_infos0 by done. by rewrite lookup_alter_is_Some.
    - intros k' i'. destruct (decide (k = k')) as [<-|]; [|rewrite lookup_alter_ne by done; auto].
      rewrite lookup_alter_eq, Hi. by intros [= <-]. }
  intros _. apply hoare_keeps. destruct r; [|keep]. unfold stream_info. keep.
Qed.

(** *** Names that could not be resolved *)

Definition hole_closed (k : StreamKey) (s : proxy) : Prop := ok {[k]} s ∨ ok ∅ s.

Lemma hoare_close k : hoare (hole_closed k) (purge_stream_key k) (fun _ => ok ∅).
Proof.
  intros s Hs. assert (∀ h, h = {[k]} ∨ h = ∅ → h ∖ {[k]} = (∅ : gset StreamKey)) as Hh by set_solver.
  destruct Hs as [Hs|Hs]; pose proof (hoare_purge c0 stream_key_new sound _ k s Hs) as H;
    (rewrite Hh in H; [exact H|auto]).
Qed.

Lemma hoare_give_up k a p n : hoare (hole_closed k) (give_up_dns k a p n) (fun _ => ok ∅).
Proof.
  eapply ps_hoare_bind; [apply hoare_close|]. intros u. apply hoare_keeps.
  unfold send_dns_failure_response_to_the_browser. keep.
Qed.

(** What a retry leaves: the packet waits and the attempt is counted, or the
    stream may be given up. *)
Definition retried (k : StreamKey) (a : SocketAddr) (retry : DNSFailureRetry) (r : result DNSFailureRetry ProxyError)
    (s : proxy) : Prop :=
  match r with
  | Ok retry' => linked {[k]} k a s ∧ retry' = mkRetry (unsuccessful_request retry) (retries_left retry) (active_attempt_id retry + 1)
  | Err _ => hole_closed k s
  end.

Lemma linked_modify k a f :
  (∀ s : proxy, keys_and_addrs (f s) = keys_and_addrs s) → keeps (ok {[k]}) (modify f) →
  keeps (linked {[k]} k a) (modify f).
Proof. intros Hk Hf. apply linked_keeps; [done|]. intros s. apply Hk. Qed.
Lemma linked_manager {A} k a (c : M St A) call :
  same_run c call → Forall full_key (quotes_of call) → keeps (linked {[k]} k a) (call_manager c).
Proof. intros Hc Hq. apply linked_keeps; [eauto with keeps|]. apply same_keys_keeps. auto with keeps. Qed.

Lemma linked_out_subs h k a : keeps (linked h k a) out_subs.
Proof. apply keeps_out_subs. by intros s [[] _]. Qed.
#[local] Hint Resolve linked_out_subs : keeps.

Lemma hoare_retry env k a retry :
  crp_stream_key (unsuccessful_request retry) = k →
  hoare (linked {[k]} k a) (retry_dns_resolution env retry a) (retried k a retry).
Proof.
  intros Hk. unfold retry_dns_resolution. destruct (checked_add 64 (active_attempt_id retry) 1) as [next|] eqn:Hn.
  2:{ intros s [Hs _]. by left. }
  assert (next = active_attempt_id retry + 1) as -> by (unfold checked_add in Hn; destruct (decide _); congruence).
  set (req := with_dns_attempt _ _).
  eapply ps_hoare_bind with (R := fun _ => linked {[k]} k a); [apply keeps_get|]. intros m.
  eapply ps_hoare_bind with (R := fun r s => linked {[k]} k a s ∧ ∀ p, r = Ok p → crp_stream_key p = k).
  { destruct m as [m|]; [|intros s Hs; split; [done|]; by intros p [= <-]].
    destruct (unix_time_now env) as [now|e]; [|intros s Hs; by split].
    eapply ps_hoare_bind; [eapply linked_manager; [apply same_rotate|exact (List.Forall_nil _)]|]. intros [[q|e]|]; [|intros s Hs; by split|intros s Hs; split; [done|]; by intros p [= <-]].
    eapply ps_hoare_bind with (R := fun _ => linked {[k]} k a).
    { destruct (receipt_session_request_opt req) as [old|]; [|apply keeps_ret].
      apply linked_modify; [done|]. apply keeps_delete_offer. }
    intros _ s Hs. split; [done|]. by intros p [= <-]. }
  intros [p|e]; [|intros s [[Hs _] _]; by left].
  eapply ps_hoare_bind with (R := fun args s => args_main_cryptde args = main_cryptde c0 ∧ linked {[k]} k a s ∧
    crp_stream_key (args_payload args) = k ∧ args_client_addr args = a).
  { intros s [Hs Hp]. pose proof (hoare_args {[k]} k a p (pe_now env) false s Hs) as Ha.
    destruct (args_new p a (pe_now env) false s) as [[[args s'] o]|]; [|done].
    destruct Ha as (? & -> & -> & ?). auto. }
  intros args. apply ps_hoare_pre. intros Hmain.
  eapply ps_hoare_bind; [apply keeps_out_subs; by intros s [[[]] _]|]. intros u.
  eapply ps_hoare_bind with (R := fun r s => match r with Ok _ => linked {[k]} k a s | Err _ => hole_closed k s end).
  { intros s (Hs & Hak & Haa). rewrite <- Hak, <- Haa in Hs.
    pose proof (hoare_queue c0 stream_key_new sound _ args Hmain s Hs) as Hq. rewrite Hak, Haa in Hq.
    replace ({[k]} ∖ {[k]} : gset StreamKey) with (∅ : gset StreamKey) in Hq by set_solver.
    destruct (queue_pending_route_packet args s) as [[[[[x|]|] s'] o]|]; [by destruct Hq|by destruct Hq|done|done]. }
  intros [[x|]|]; [|by intros s [Hs _]; left|by intros s]. intros s Hs. by split.
Qed.

Lemma hole_opens k i s : ok ∅ s → stream_infos s !! k = Some i → ok {[k]} (set_infos (delete k (stream_infos s)) s).
Proof.
  intros [] Hi. split; cbn; try done.
  - intros k' Hk'. rewrite lookup_delete_ne by set_solver. apply so_infos0. set_solver.
  - intros k' ->%elem_of_singleton. by rewrite lookup_delete_eq.
  - intros k' j [_ ?]%lookup_delete_Some. auto.
Qed.

Lemma hole_closes k a i s : linked {[k]} k a s → info_ok k i → ok ∅ (set_infos (<[k := i]> (stream_infos s)) s).
Proof.
  intros [[] Hl] Hi. split; cbn; try done.
  - intros k' _. destruct (decide (k = k')) as [<-|].
    + rewrite lookup_insert_eq, Hl. split; by eexists.
    + rewrite lookup_insert_ne by done. apply so_infos0. set_solver.
  - intros k' j [[<- <-]|[_ ?]]%lookup_insert_Some; auto.
Qed.

Lemma context_info (s : proxy) failure i route l x retry p legacy :
  dns_failure_context s failure = Some (i, route, l, x, retry, p, legacy) →
  stream_infos s !! drf_stream_key failure = Some i ∧ dns_failure_retry_opt i = Some retry.
Proof.
  unfold dns_failure_context. destruct (stream_infos s !! _) as [i'|]; [|done]. cbn.
  destruct (route_opt i') as [r'|]; [|done]. cbn. destruct (get_response_services r') as [l'|]; [|done]. cbn.
  destruct (negb _); [done|]. destruct (if is_decentralized _ then _ else _); [|done]. cbn.
  destruct (dns_failure_retry_opt i') as [retry'|] eqn:Hr; [|done]. cbn.
  destruct (match drf_dns_attempt_id_opt failure with Some _ => _ | None => _ end); [|done]. cbn.
  destruct (bool_decide _); [done|]. destruct (protocol_opt i'); [|done]. cbn. intros [=]. subst. done.
Qed.

Lemma keeps_dns env msg : keeps (ok ∅) (handle_dns_resolve_failure env msg).
Proof.
  unfold handle_dns_resolve_failure. cbv zeta. apply keeps_bind; [eauto with keeps|]. intros u1.
  set (k := drf_stream_key _). eapply ps_hoare_bind; [apply ps_hoare_get|]. intros context.
  eapply ps_hoare_bind; [apply ps_hoare_get|]. intros keys.
  destruct context as [[[[[[[i route] l] x] retry] p] legacy]|]; [|by intros s (_ & _ & ?)].
  destruct (a_to_b keys k) as [a|] eqn:Ha; [|by intros s (_ & _ & ?)].
  destruct legacy.
  { intros s (_ & _ & Hs). apply hoare_give_up. by right. }
  eapply ps_hoare_bind with (R := fun _ s => linked {[k]} k a s ∧ info_ok k i ∧ dns_failure_retry_opt i = Some retry).
  { intros s (-> & Hc & Hs). symmetry in Hc. apply context_info in Hc as [Hi Hr]. fold k in Hi.
    split; [|split; [by apply (so_info _ _ _ _ _ Hs)|done]]. split; [by eapply hole_opens|done]. }
  intros u2. eapply ps_hoare_bind; [apply keeps_out_subs; by intros s [[[]] _]|]. intros u3. eapply ps_hoare_bind; [apply keeps_sending|]. intros u4.
  eapply ps_hoare_bind with (R := fun _ s => (info_ok k i ∧ dns_failure_retry_opt i = Some retry) ∧ linked {[k]} k a s).
  { intros s [Hs Hi]. assert (keeps (linked {[k]} k a) (report_response_services_consumed env l 0 (payload_len msg))) as Hk.
    { unfold report_response_services_consumed. keep. }
    specialize (Hk s Hs). by destruct (report_response_services_consumed _ _ _ _ s) as [[[]]|]. }
  intros u5. apply ps_hoare_pre. intros [Hi Hr]. pose proof (io_retry _ _ Hi retry Hr) as (Hl & Hat & Hsum & Hkey).
  destruct (Z.ltb_spec 0 (retries_left retry)).
  - eapply ps_hoare_bind; [by apply hoare_retry|]. intros [retry'|e]; [|apply hoare_give_up].
    intros s [Hs ->]. cbn. eapply hole_closes; [done|]. split; [by destruct Hi| |by destruct Hi].
    intros r [= <-]. cbn. split_and!; [lia|lia|lia|done].
  - intros s Hs. apply hoare_give_up. left. by destruct Hs.
Qed.

Lemma keeps_metered env msg :
  in_u 64 (sequence_number (crsp_sequenced_packet (metered_response (ecp_payload msg)))) →
  keeps (ok ∅) (handle_metered_response env msg).
Proof. intros Hn. unfold handle_metered_response. apply keeps_bind; [by apply keeps_response|]. eauto with keeps. Qed.

(** Sequence numbers are machine words; the streams that shut down are the
    browser's; and what does not panic is read. *)
Definition message_ok (m : PsMessage) : Prop :=
  match m with
  | InboundData d => valid_socket (ib_client_addr d) ∧ readable d
  | StreamShutdown m => valid_socket (peer_addr m) ∧ (stream_type m = Clandestine → allowed)
  | ClientResponse p => in_u 64 (sequence_number (crsp_sequenced_packet (ecp_payload p)))
  | MeteredResponse p => in_u 64 (sequence_number (crsp_sequenced_packet (metered_response (ecp_payload p))))
  | AddRouteResult m => ∀ r, ar_result m = Ok r → route_keyed r
  | _ => True
  end.

Lemma keeps_message env m : message_ok m → keeps (ok ∅) (handle_message stream_key_new env m).
Proof.
  intros Hm. destruct m; cbn [handle_message message_ok] in *; destruct_and?; auto using keeps_inbound, keeps_shutdown_msg, keeps_add_route, keeps_response,
    keeps_metered, keeps_dns with keeps.
  all: eauto with keeps.
Qed.

Lemma keeps_messages l : Forall (fun em => message_ok em.2) l → keeps (ok ∅) (run_messages stream_key_new l).
Proof.
  induction 1 as [|[env m] l Hm _ IH] using Forall_ind; intros s Hs; [done|]. cbn [run_messages].
  pose proof (keeps_message env m Hm s Hs) as Hk. destruct (handle_message _ env m s) as [[[u s1] o1]|]; [|done].
  cbn [exec_bind]. specialize (IH s1 Hk). by destruct (run_messages _ l s1) as [[[outs s2] o2]|].
Qed.
End Handlers.

(** The actor as it is built: no streams, a manager of receipt sessions and an
    outbox when the node has them. *)
Definition proxy_started {St} (c : ProxyConfig) (m : option (Manager St)) (outbox : option Outbox) : Proxy St :=
  set_outbox outbox (set_manager m (proxy_new c)).

Lemma streams_ok_started {St} c0 stream_key_new (sound : Manager St → Prop) m outbox :
  (∀ m', m = Some m' → sound m') →
  streams_ok c0 stream_key_new sound ∅ (set_bound (proxy_started c0 m outbox)).
Proof.
  split; cbn; try done; try (by intros *; rewrite lookup_empty); [intros k _; by rewrite !lookup_empty|].
  rewrite map_size_empty. lia.
Qed.
