(* ===== verification/ProxyRun.v ===== *)
(** * ProxyRun: histories of the proxy server

    What holds of the actor over any history of messages: it keeps running with
    its streams consistent, and the acknowledgements it hands to the network
    stay within the limit the wallet signed. *)

From Stdlib Require Import ZArith Lia String Ascii.
From stdpp Require Import base list numbers option gmap sets.
From S2P Require Import Prelude Text SequenceBuffer CountryFinder CryptDE Wallet ServiceReceipt.
From S2P Require Import Route Eip712 ReceiptSession SessionLimit NodeRecord RouteFinder RouteQuery VersionedData Migrations.
From S2P Require Import CoresPackage Hopper AckOutbox StreamTables ProtocolPack ProtocolHosts Hostname ProxyServer ProxyStreams.

Local Open Scope Z_scope.
Local Open Scope rust_scope.
Local Open Scope list_scope.

Section Survival.
Context {St : Type} `{RS : RecoveryStore St} `{SK : SessionKeys} `{E : Ethsign} `{C : Cbor}.
Context `{HC : HopCbor} `{PC : PackageCbor} `{VR : ValueReader} `{VO : VersionOrder} `{PY : PayloadCbor}.
Context `{AC : AckCbor} `{HT : HttpCrates}.
#[local] Instance never_panics : MayPanic := False.

Lemma request_writes p bs : ser_client_request p = Ok bs → client_request_message p ≠ Panic.
Proof. intros Hs. unfold client_request_message, versioned_new. rewrite Hs. by destruct (client_request_migrations de_value ser_client_request) eqn:Hm. Qed.
Lemma ack_writes p bs : ser_ack p = Ok bs → ack_message p ≠ Panic.
Proof. intros Hs. unfold ack_message, versioned_new. by rewrite Hs. Qed.
Lemma package_made c rand r m k : (∀ rand k d, encode c rand k d ≠ Panic) → incipient_new c rand r m k ≠ Panic.
Proof.
  intros He. unfold incipient_new, encodex. destruct (cbor_message m) as [bs|e]; [|done]. cbn.
  specialize (He rand k bs). by destruct (encode c rand k bs) as [[]|].
Qed.

(** Different sockets are hashed as different bytes. *)
Lemma socket_addr_bytes_inj a b :
  valid_socket a → valid_socket b → socket_addr_bytes a = socket_addr_bytes b → a = b.
Proof.
  intros [Ha Hpa] [Hb Hpb] H. unfold socket_addr_bytes in H.
  apply app_inj_2 in H as [Hip Hports]; [|done]. injection Hports as Hlow Hhigh.
  assert (sock_port a = sock_port b) as Hport.
  { apply Z.bits_inj_iff'. intros i Hi.
    destruct (Z.ltb_spec i 8).
    - apply (f_equal (fun x => Z.testbit x i)) in Hlow. rewrite !Z.land_spec in Hlow.
      change 255 with (Z.ones 8) in Hlow. by rewrite Z.ones_spec_low, !andb_true_r in Hlow by lia.
    - apply (f_equal (fun x => Z.testbit x (i - 8))) in Hhigh. rewrite !Z.shiftr_spec in Hhigh by lia.
      by replace (i - 8 + 8) with i in Hhigh by lia. }
  destruct a as [ipa pa], b as [ipb pb]. cbn [sock_ip sock_port] in *. subst pb. f_equal.
  destruct ipa as [x|x], ipb as [y|y];
    try (apply (f_equal length) in Hip; by rewrite !length_be_bytes in Hip);
    f_equal; apply (f_equal (be_value 0)) in Hip; rewrite !be_value_bytes in Hip;
    unfold in_u, max_u in *; rewrite !Z.mod_small in Hip; lia.
Qed.

(** What other parts of the node may send: data of more than the first bytes of
    a handshake, shutdowns of the browser's sockets, sequence numbers of 64
    bits, routes over nodes with keys of 64 bytes. *)
Definition expected_message (m : PsMessage) : Prop :=
  match m with
  | InboundData d => valid_socket (ib_client_addr d) ∧ ¬ ∃ rest, ib_data d = 22 :: rest ∧ (length rest < 4)%nat
  | StreamShutdown m => valid_socket (peer_addr m) ∧ stream_type m ≠ Clandestine
  | ClientResponse p => in_u 64 (sequence_number (crsp_sequenced_packet (ecp_payload p)))
  | MeteredResponse p => in_u 64 (sequence_number (crsp_sequenced_packet (metered_response (ecp_payload p))))
  | AddRouteResult m => ∀ r, ar_result m = Ok r → route_keyed r
  | _ => True
  end.

Lemma expected_ok m : expected_message m → message_ok m.
Proof.
  destruct m; cbn; try done. intros [Hv Hd]. split; [done|]. intros pack Hp. apply Hd. destruct pack.
  - by apply http_host_returns in Hp.
  - by apply short_handshake_panics.
Qed.

(** [C1] The proxy server survives its messages.  From the start of the actor,
    bound and then given any history of messages in any order (data and closed
    sockets of browsers, routes found or not, responses, metered responses,
    names that could not be resolved, receipts, purges and commands of the
    user), no handler panics, and afterwards streams and sockets are in
    bijection, exactly the streams have a state and a sound replay window, each
    stream waits for at most one route with at most 32 packets and one megabyte
    of its own, under an identifier no other stream has, names are tried at
    most three more times, at most 4096 offers wait, and the receipt session,
    whose keys are libsodium's, is within its limits.  The messages are what the
    rest of the node sends ([expected_message]); in particular the routes that
    are found lead over nodes whose keys have libsodium's 64 bytes, while the
    offers of receipts that arrive name any keys.  SHA-1 tells apart what is hashed for
    different sockets, messages can be written, encryption returns, libsodium's
    keys have their documented sizes. *)
Theorem proxy_survives `{SL : !SessionKeysLaws} c0 sha1 salt (manager : option (Manager St)) outbox env l :
  let hashed a := public_key (main_cryptde c0) ++ socket_addr_bytes a ++ salt in
  let stream_key_new := make_stream_key sha1 salt in
  (∀ a b, valid_socket a → valid_socket b → sha1 (hashed a) = sha1 (hashed b) → hashed a = hashed b) →
  (∀ p, ∃ bs, ser_client_request p = Ok bs) → (∀ p, ∃ bs, ser_ack p = Ok bs) →
  (∀ rand k d, encode (main_cryptde c0) rand k d ≠ Panic) →
  (∀ m, manager = Some m → managed m) → Forall (fun em => expected_message em.2) l →
  ∃ outs s out, run_messages stream_key_new ((env, BindMessage) :: l) (proxy_started c0 manager outbox) = Ret (outs, s, out) ∧
    streams_ok c0 stream_key_new managed ∅ s.
Proof.
  intros hashed stream_key_new Hsha Hreq Hack Henc Hm Hl.
  assert (∀ a b, valid_socket a → valid_socket b → stream_key_new (public_key (main_cryptde c0)) a
    = stream_key_new (public_key (main_cryptde c0)) b → a = b) as Hinj.
  { intros a b Ha Hb H%Hsha; [|done..]. apply app_inv_head, app_inv_tail in H. by apply socket_addr_bytes_inj. }
  assert (calls_keep managed) as Hrun.
  { intros call m Hq Hman. pose proof (managed_calls [call] m (Forall_cons_2 _ _ _ Hq (List.Forall_nil _)) Hman) as H.
    cbn [run_calls] in H. destruct (run_call call m) as [[r m']|]; [|done]. apply H. }
  assert (∀ p, client_request_message p = Panic → False) as Hreq' by (intros p; destruct (Hreq p); by eapply request_writes).
  assert (∀ p, ack_message p = Panic → False) as Hack' by (intros p; destruct (Hack p); by eapply ack_writes).
  pose proof (streams_ok_started c0 stream_key_new managed manager outbox Hm) as H0.
  cbn [run_messages handle_message]. unfold handle_bind, ps_bind, modify.
  pose proof (keeps_replay c0 stream_key_new managed Hack' ∅ _ H0) as H1.
  destruct (replay_persisted_receipt_acknowledgements _) as [[[u s1] o1]|]; [|done]. cbn [exec_bind].
  pose proof (keeps_messages c0 stream_key_new managed Hrun Hreq' Hack'
    (fun rand r m k => package_made _ rand r m k Henc) Hinj l
    ltac:(eapply Forall_impl; [done|]; intros ?; apply expected_ok) s1 H1) as H2.
  destruct (run_messages stream_key_new l s1) as [[[outs s2] o2]|]; [|done]. do 3 eexists. split; [reflexivity|exact H2].
Qed.
End Survival.
