(* ===== verification/ProxyLedger.v ===== *)
(** * ProxyLedger: what the proxy server acknowledges

    Every handler of [ProxyServer] uses the manager of receipt sessions through
    its interface, and hands on no acknowledgement but those the manager signed
    and those that waited in the outbox.  So the limit of [SessionLimit] holds
    of the actor, over any history of messages. *)

From Stdlib Require Import ZArith Lia String Ascii.
From stdpp Require Import base list numbers option gmap sets.
From S2P Require Import Prelude Text SequenceBuffer CountryFinder CryptDE Wallet ServiceReceipt.
From S2P Require Import Route Eip712 ReceiptSession SessionLimit NodeRecord RouteFinder RouteQuery VersionedData Migrations.
From S2P Require Import CoresPackage Hopper AckOutbox StreamTables ProtocolPack ProtocolHosts Hostname ProxyServer ProxyStreams.

Local Open Scope Z_scope.
Local Open Scope rust_scope.
Local Open Scope list_scope.

Abbreviation Ack := ServiceReceiptPayload_0v1.

(** The acknowledgements a handler asks a route for, and those of the outbox. *)
Definition asked (out : list PsOut) : list Ack :=
  omap (fun o => match o with AskReceiptRoute p _ _ => Some p | _ => None end) out.
Definition kept {St} (s : Proxy St) : list Ack :=
  match receipt_acknowledgement_outbox_opt s with
  | Some outbox => or_acknowledgement ∘ snd <$> map_to_list outbox
  | None => []
  end.

Lemma kept_some {St} (s : Proxy St) outbox p :
  receipt_acknowledgement_outbox_opt s = Some outbox →
  p ∈ kept s ↔ ∃ epoch row, outbox !! epoch = Some row ∧ or_acknowledgement row = p.
Proof.
  intros Hs. unfold kept. rewrite Hs, list_elem_of_fmap. split.
  - intros ([epoch row] & -> & Hx%elem_of_map_to_list). eauto.
  - intros (epoch & row & Hr & <-). exists (epoch, row). split; [done|]. by apply elem_of_map_to_list.
Qed.
Lemma asked_app o o' : asked (o ++ o') = asked o ++ asked o'.
Proof. apply omap_app. Qed.

(** What the outbox hands back it was given. *)
Lemma enqueue_rows db p t db' epoch row :
  enqueue db p t = Ok db' → db' !! epoch = Some row → or_acknowledgement row = p ∨ db !! epoch = Some row.
Proof.
  unfold enqueue. destruct (identity p) as [e provider]. destruct (db !! e) as [old|].
  - destruct (negb _); [done|]. destruct (checked_row _ _ _) as [x|]; [|done]. cbn.
    destruct (cumulative_enqueue_disposition x p) as [[]|]; cbn; [by intros [= <-]; right| |by intros [= <-]; right|done].
    intros [= <-] [[_ <-]|[_ ?]]%lookup_insert_Some; auto.
  - intros [= <-] [[_ <-]|[_ ?]]%lookup_insert_Some; auto.
Qed.
Lemma delete_rows db p epoch row : delete_acknowledgement db p !! epoch = Some row → db !! epoch = Some row.
Proof.
  unfold delete_acknowledgement. destruct (identity p) as [e provider]. destruct (db !! e); [|done].
  case_bool_decide; [|done]. by intros [_ ?]%lookup_delete_Some.
Qed.
Lemma insert_row_elem x y l : x ∈ insert_row y l → x = y ∨ x ∈ l.
Proof. induction l as [|z l IH]; cbn; [set_solver|]. destruct (row_leb y z); set_solver. Qed.
Lemma sorted_rows_elem x l : x ∈ foldr insert_row [] l → x ∈ l.
Proof. induction l as [|y l IH]; cbn; [done|]. intros [->|?]%insert_row_elem; set_solver. Qed.
Lemma checked_rows_elem rows l p : checked_rows rows = Ok l → p ∈ l → ∃ epoch row, (epoch, row) ∈ rows ∧ or_acknowledgement row = p.
Proof.
  revert l. induction rows as [|[e row] rows IH]; cbn; intros l; [intros [= <-]; set_solver|].
  unfold checked_row. case_bool_decide; [|done]. cbn. destruct (checked_rows rows) as [ps|]; [|done]. cbn.
  intros [= <-] [->|Hp]%elem_of_cons; [exists e, row; split; [set_solver|done]|].
  destruct (IH ps eq_refl Hp) as (e' & row' & ? & ?). exists e', row'. split; [set_solver|done].
Qed.
Lemma pending_outbox_rows db l p : AckOutbox.pending db = Ok l → p ∈ l → ∃ epoch row, db !! epoch = Some row ∧ or_acknowledgement row = p.
Proof.
  intros Hl Hp. destruct (checked_rows_elem _ _ _ Hl Hp) as (e & row & Hr%sorted_rows_elem & ?).
  exists e, row. split; [by apply elem_of_map_to_list|done].
Qed.

Section Trace.
Context {St : Type} `{RS : RecoveryStore St} `{SK : SessionKeys} `{E : Ethsign} `{C : Cbor}.
Context (good_call : Call → Prop) (m0 : Manager St) (given : list Ack).
Abbreviation proxy := (Proxy St).

(** The manager was only called, and handed out [ps]; the outbox holds these
    and what was given. *)
Record traced (ps : list Ack) (s : proxy) : Prop := {
  tr_calls : ∃ cs m, Forall good_call cs ∧ run_calls cs m0 = Ret (ps, m) ∧ receipt_session_manager_opt s = Some m;
  tr_kept : ∀ p, p ∈ kept s → p ∈ ps ∨ p ∈ given;
}.

Definition known (ps l : list Ack) : Prop := ∀ p, p ∈ l → p ∈ ps ∨ p ∈ given.

(** [c] only calls the manager, and hands on no acknowledgement but the
    manager's and those of [l]. *)
Definition trace {A} (l : list Ack) (c : ps A) : Prop :=
  ∀ ps s, known ps l → traced ps s →
  match c s with
  | Ret (_, s', out) => ∃ ps', ps ⊆ ps' ∧ traced ps' s' ∧ known ps' (asked out)
  | Panic => True
  end.

Lemma known_more ps ps' l : ps ⊆ ps' → known ps l → known ps' l.
Proof. unfold known. set_solver. Qed.

Lemma trace_still {A} l (c : ps A) :
  (∀ s, match c s with
        | Ret (_, s', out) => receipt_session_manager_opt s' = receipt_session_manager_opt s ∧
            receipt_acknowledgement_outbox_opt s' = receipt_acknowledgement_outbox_opt s ∧ asked out = []
        | Panic => True
        end) → trace l c.
Proof.
  intros Hc ps s _ [Hcalls Hkept]. specialize (Hc s). destruct (c s) as [[[x s'] out]|]; [|done].
  destruct Hc as (Hm & Ho & Ha). exists ps. split; [done|]. rewrite Ha. split; [|by intros ? ?%elem_of_nil].
  split; [by rewrite Hm|]. unfold kept in *. by rewrite Ho.
Qed.

Lemma trace_bind {A B} l (c : ps A) (k : A → ps B) : trace l c → (∀ x, trace l (k x)) → trace l (ps_bind c k).
Proof.
  intros Hc Hk ps s Hl Hs. unfold ps_bind. specialize (Hc ps s Hl Hs). destruct (c s) as [[[x s1] o1]|]; [|done].
  destruct Hc as (ps1 & H1 & Hs1 & Ho1). specialize (Hk x ps1 s1 (known_more _ _ _ H1 Hl) Hs1).
  destruct (k x s1) as [[[y s2] o2]|]; [|done]. destruct Hk as (ps2 & H2 & Hs2 & Ho2).
  exists ps2. split; [set_solver|]. split; [done|]. rewrite asked_app.
  pose proof (known_more _ _ _ H2 Ho1). unfold known in *. set_solver.
Qed.
Lemma trace_try {A B Er} l (c : ps (result A Er)) (k : A → ps (result B Er)) :
  trace l c → (∀ x, trace l (k x)) → trace l (ps_try c k).
Proof. intros Hc Hk. apply trace_bind; [done|]. intros [x|e]; [apply Hk|by apply trace_still]. Qed.
Lemma trace_ret {A} l (x : A) : trace l (ps_ret x).
Proof. by apply trace_still. Qed.
Lemma trace_get {A} l (f : proxy → A) : trace l (get f).
Proof. by apply trace_still. Qed.
Lemma trace_when l b c : trace l c → trace l (when b c).
Proof. intros Hc. destruct b; [done|]. apply trace_ret. Qed.
Lemma trace_run {A} l (e : exec A) : trace l (run e).
Proof. apply trace_still. intros s. unfold run. by destruct e. Qed.
Lemma trace_out_subs l : trace l out_subs.
Proof. apply trace_still. intros s. unfold out_subs, ps_bind, get. by destruct (bound s). Qed.
(** A message other than for an acknowledgement. *)
Lemma trace_send l o : asked [o] = [] → trace l (send o).
Proof. intros Ho. apply trace_still. by intros s. Qed.
Lemma trace_modify l f :
  (∀ s : proxy, receipt_session_manager_opt (f s) = receipt_session_manager_opt s ∧
    receipt_acknowledgement_outbox_opt (f s) = receipt_acknowledgement_outbox_opt s) → trace l (modify f).
Proof. intros Hf. apply trace_still. intros s. cbn. by destruct (Hf s). Qed.

Lemma run_calls_app cs cs' ps ps' m m' m'' :
  run_calls cs m = Ret (ps, m') → run_calls cs' m' = Ret (ps', m'') → run_calls (cs ++ cs') m = Ret (ps ++ ps', m'').
Proof.
  revert ps m. induction cs as [|c cs IH]; cbn [run_calls app]; intros ps m.
  { by intros [= <- <-] ->. }
  destruct (run_call c m) as [[r m1]|]; [|done]. cbn [exec_bind].
  destruct (run_calls cs m1) as [[ps1 m2]|] eqn:E1; [|done]. cbn [exec_bind]. intros [= <- <-] H2.
  rewrite (IH _ _ E1 H2). cbn [exec_bind]. by rewrite app_assoc.
Qed.

(** One call and what it hands out. *)
Lemma traced_call ps (s : proxy) call m r m' :
  good_call call → traced ps s → receipt_session_manager_opt s = Some m → run_call call m = Ret (r, m') →
  traced (ps ++ match r with Ok p => p | Err _ => [] end) (set_manager (Some m') s).
Proof.
  intros Hg [(cs & m1 & Hcs & Hrun & Hm1) Hkept] Hm Hr. rewrite Hm1 in Hm. injection Hm as ->. split.
  - exists (cs ++ [call]), m'. split; [by apply Forall_app_2; [|repeat constructor]|]. split; [|done].
    eapply run_calls_app; [done|]. cbn [run_calls]. rewrite Hr. cbn [exec_bind]. by rewrite app_nil_r.
  - intros p Hp%Hkept. set_solver.
Qed.

Lemma trace_call_manager {A} l (c : M St A) call : same_run c call → good_call call → trace l (call_manager c).
Proof.
  intros Hc Hg ps s _ Hs. unfold call_manager. destruct (receipt_session_manager_opt s) as [m|] eqn:Em.
  2:{ exists ps. split; [done|]. split; [done|]. by intros ? ?%elem_of_nil. }
  specialize (Hc m). destruct (c m) as [[x m']|]; [|done]. destruct Hc as [r Hr]. cbn.
  eexists. split; [|split; [by eapply traced_call|by intros ? ?%elem_of_nil]]. set_solver.
Qed.

(** Where the continuation knows the state the value was read from. *)
Lemma trace_get_bind {A B} l (f : proxy → A) (k : A → ps B) :
  (∀ ps s, known ps l → traced ps s → ∃ l', known ps l' ∧ trace l' (k (f s))) → trace l (ps_bind (get f) k).
Proof.
  intros Hk ps s Hl Hs. destruct (Hk ps s Hl Hs) as (l' & Hl' & Hc). specialize (Hc ps s Hl' Hs). unfold ps_bind, get.
  by destruct (k (f s) s) as [[[]]|].
Qed.

(** An acknowledgement the manager hands out may be handed on. *)
Lemma trace_acknowledge {B} l signed now (k : option (result Ack ReceiptSessionManagerError) → ps B) :
  good_call (CallAcknowledge signed now) →
  (∀ p, trace (p :: l) (k (Some (Ok p)))) → (∀ e, trace l (k (Some (Err e)))) → trace l (k None) →
  trace l (ps_bind (call_manager (acknowledge_offer signed now)) k).
Proof.
  intros Hg Hok Herr Hnone ps s Hl Hs. unfold ps_bind, call_manager.
  destruct (receipt_session_manager_opt s) as [m|] eqn:Em.
  2:{ specialize (Hnone ps s Hl Hs). by destruct (k None s) as [[[]]|]. }
  destruct (acknowledge_offer signed now m) as [[[p|e] m']|] eqn:Ea; [| |done]; cbn [exec_bind].
  - assert (run_call (CallAcknowledge signed now) m = Ret (Ok [p], m')) as Hr by (cbn [run_call]; unfold bind; by rewrite Ea).
    pose proof (traced_call ps s _ m _ m' Hg Hs Em Hr) as Hs'.
    assert (known (ps ++ [p]) (p :: l)) as Hl' by (unfold known in *; set_solver).
    specialize (Hok p _ _ Hl' Hs'). destruct (k (Some (Ok p)) _) as [[[y s2] o2]|]; [|done].
    destruct Hok as (ps2 & H2 & Hs2 & Ho2). exists ps2. split; [set_solver|done].
  - assert (run_call (CallAcknowledge signed now) m = Ret (Err e, m')) as Hr by (cbn [run_call]; unfold bind; by rewrite Ea).
    pose proof (traced_call ps s _ m _ m' Hg Hs Em Hr) as Hs'. cbn in Hs'. rewrite app_nil_r in Hs'.
    specialize (Herr e _ _ Hl Hs'). by destruct (k (Some (Err e)) _) as [[[y s2] o2]|].
Qed.

(** A change of the outbox. *)
Lemma traced_outbox ps (s : proxy) outbox :
  (∀ epoch row, outbox !! epoch = Some row → or_acknowledgement row ∈ ps ∨ or_acknowledgement row ∈ given) →
  traced ps s → traced ps (set_outbox (Some outbox) s).
Proof.
  intros Ho [Hcalls Hkept]. split; [done|]. intros p (epoch & row & Hr & <-)%(kept_some _ outbox); [by eapply Ho|done].
Qed.
Lemma traced_row ps (s : proxy) outbox epoch row :
  traced ps s → receipt_acknowledgement_outbox_opt s = Some outbox → outbox !! epoch = Some row →
  or_acknowledgement row ∈ ps ∨ or_acknowledgement row ∈ given.
Proof. intros [_ Hkept] Ho Hr. apply Hkept. rewrite kept_some by done. eauto. Qed.
End Trace.

Create HintDb trace.
#[export] Hint Resolve trace_ret trace_get trace_run trace_out_subs trace_call_manager : trace.
#[export] Hint Extern 3 (trace _ _ _ _ (send _)) => (apply trace_send; done) : trace.
#[export] Hint Extern 3 (trace _ _ _ _ (modify _)) => (apply trace_modify; done) : trace.
#[export] Hint Extern 4 (same_run _ _) => solve [auto with keeps] : trace.

Ltac follow_step :=
  match goal with
  | |- trace _ _ _ _ (ps_bind _ _) => apply trace_bind; [|intros ?]
  | |- trace _ _ _ _ (ps_try _ _) => apply trace_try; [|intros ?]
  | |- trace _ _ _ _ (when _ _) => apply trace_when
  | |- trace _ _ _ _ (match ?x with _ => _ end) => destruct x
  | |- trace _ _ _ _ (let _ := _ in _) => cbv zeta
  | |- trace _ _ _ _ _ => solve [eauto with trace keeps]
  end.
Ltac follow := repeat follow_step.

Section Handlers.
Context {St : Type} `{RS : RecoveryStore St} `{SK : SessionKeys} `{E : Ethsign} `{C : Cbor}.
Context `{HC : HopCbor} `{PC : PackageCbor} `{VR : ValueReader} `{VO : VersionOrder} `{PY : PayloadCbor}.
Context `{AC : AckCbor} `{HT : HttpCrates}.
Context (stream_key_new : PublicKey → SocketAddr → StreamKey).
Context (good_call : Call → Prop) (m0 : Manager St) (given : list Ack).
Context (calls_good : ∀ c, is_activation c = false → good_call c).
Abbreviation proxy := (Proxy St).
Abbreviation trace := (trace good_call m0 given).
Abbreviation traced := (traced good_call m0 given).
Abbreviation known := (known given).
#[local] Hint Extern 4 (good_call _) => (apply calls_good; reflexivity) : trace.

(** *** Receipts *)

Lemma trace_persist l env p : trace (p :: l) (persist_receipt_acknowledgement env p).
Proof.
  intros ps s Hl Hs. unfold persist_receipt_acknowledgement, ps_bind, get, modify, ps_ret.
  assert (∃ ps', ps ⊆ ps' ∧ traced ps' s ∧ known ps' (asked [])) as Hsame
    by (exists ps; split; [done|]; split; [done|]; by intros ? ?%elem_of_nil).
  destruct (receipt_acknowledgement_outbox_opt s) as [outbox|] eqn:Ho; [|done].
  destruct (enqueue outbox p _) as [outbox'|e] eqn:Hq; [|done]. cbn.
  exists ps. split; [done|]. split; [|by intros ? ?%elem_of_nil]. apply traced_outbox; [|done].
  intros epoch row Hr. destruct (enqueue_rows _ _ _ _ _ _ Hq Hr) as [->|Hr']; [apply Hl; set_solver|by eapply traced_row].
Qed.

Lemma trace_deliver l p : p ∈ l → trace l (deliver_receipt_acknowledgement p).
Proof.
  intros Hp. unfold deliver_receipt_acknowledgement. follow. intros ps s Hl Hs.
  exists ps. split; [done|]. split; [done|]. intros q. cbn. intros ->%list_elem_of_singleton. by apply Hl.
Qed.
Lemma trace_deliver_all l l' : l ⊆ l' → trace l' (deliver_all l).
Proof.
  induction l as [|p l IH]; cbn [deliver_all]; intros Hl; [auto with trace|].
  apply trace_bind; [apply trace_deliver; set_solver|]. intros u. apply IH. set_solver.
Qed.

Lemma trace_replay l : trace l replay_persisted_receipt_acknowledgements.
Proof.
  apply trace_get_bind. intros ps s Hl Hs. destruct (receipt_acknowledgement_outbox_opt s) as [outbox|] eqn:Ho.
  2:{ exists l. auto with trace. }
  destruct (AckOutbox.pending outbox) as [waiting|] eqn:Hp.
  2:{ exists l. auto with trace. }
  exists waiting. split.
  { intros p Hin. destruct (pending_outbox_rows _ _ _ Hp Hin) as (e & row & Hr & <-). by eapply traced_row. }
  apply trace_bind; [follow|]. intros u. apply trace_deliver_all. intros p Hx. by eapply subseteq_take.
Qed.

Lemma trace_offer l env o : trace l (handle_service_receipt_offer env o).
Proof.
  unfold handle_service_receipt_offer. destruct (unix_time_now env) as [now|]; [|auto with trace]. cbv zeta.
  apply trace_acknowledge; [by apply calls_good| |intros e; destruct e|]; [intros p|follow..].
  - apply trace_bind; [follow|]. intros u. apply trace_bind; [apply trace_persist|]. intros [v|e]; [|auto with trace].
    apply trace_deliver. set_solver.
  - apply trace_modify. intros s. destruct (_ !! _); [done|]. by destruct (_ <? _)%nat.
Qed.
#[local] Hint Resolve trace_replay trace_offer : trace.

Lemma trace_receipt_answer l env p m r : trace l (receipt_route_answered env p m r).
Proof.
  unfold receipt_route_answered. follow. intros ps st Hl Hs. exists ps. split; [done|].
  split; [|by intros ? ?%elem_of_nil]. cbn. destruct (receipt_acknowledgement_outbox_opt st) as [outbox|] eqn:Ho; cbn.
  - apply traced_outbox; [|done]. intros epoch row Hr%delete_rows. by eapply traced_row.
  - destruct Hs as [Hcalls Hkept]. split; [done|]. unfold kept in *. cbn. by intros p' ?%elem_of_nil.
Qed.
Lemma trace_replay_offer l env e : trace l (replay_pending_receipt_offer env e).
Proof. unfold replay_pending_receipt_offer. follow. Qed.
Lemma trace_offers l env os : trace l (handle_offers env os).
Proof. induction os; cbn [handle_offers]; follow. Qed.
Lemma trace_decrypt l now os : trace l (decrypt_offers now os).
Proof. induction os; cbn [decrypt_offers]; follow. Qed.
#[local] Hint Resolve trace_replay_offer trace_offers trace_decrypt : trace.
Lemma trace_routing_offers l env k n os : trace l (handle_routing_receipt_offers env k n os).
Proof. unfold handle_routing_receipt_offers. follow. Qed.
#[local] Hint Resolve trace_routing_offers : trace.

(** *** Requests and responses *)

Lemma trace_find l d : trace l (find_or_generate_stream_key stream_key_new d).
Proof. unfold find_or_generate_stream_key. follow. Qed.
Lemma trace_session_request l env k q : trace l (session_request env k q).
Proof. unfold session_request. follow. Qed.
#[local] Hint Resolve trace_find trace_session_request : trace.
Lemma trace_make_payload l env d k : trace l (make_payload env d k).
Proof. unfold make_payload. follow. Qed.
Lemma trace_remember l k p : trace l (remember_request k p).
Proof. unfold remember_request, stream_info, update_info. follow. Qed.
Lemma trace_args l p a t b : trace l (args_new p a t b).
Proof. unfold args_new, get_next_return_route_id. follow. Qed.
Lemma trace_transmit l env n args r : trace l (try_transmit_to_hopper env n args r).
Proof.
  unfold try_transmit_to_hopper, transmit_to_hopper, handle_route_failure, send_route_failure. follow.
Qed.
Lemma trace_queue l args : trace l (queue_pending_route_packet args).
Proof.
  unfold queue_pending_route_packet, send_route_failure, purge_stream_key, get_next_route_request_id. follow.
Qed.
#[local] Hint Resolve trace_make_payload trace_remember trace_args trace_transmit trace_queue : trace.
Lemma trace_packets l env n args r : trace l (transmit_packets env n args r).
Proof. revert n. induction args; intros n; cbn [transmit_packets]; follow. Qed.
Lemma trace_normal l env d : trace l (handle_normal_client_data stream_key_new env d).
Proof. unfold handle_normal_client_data, stream_info, request_route_and_transmit. follow. Qed.
#[local] Hint Resolve trace_packets trace_normal : trace.
Lemma trace_inbound l env d : trace l (handle_inbound stream_key_new env d).
Proof. unfold handle_inbound, tls_connect, to_client, stream_info, update_info. follow. Qed.
Lemma trace_shutdown l env m : trace l (handle_stream_shutdown_msg stream_key_new env m).
Proof. unfold handle_stream_shutdown_msg, schedule_stream_key_purge, stream_info, update_info. follow. Qed.
Lemma trace_add_route l env m : trace l (handle_add_route_result_message env m).
Proof. unfold handle_add_route_result_message, update_info, bind_quotes, send_route_failure. follow. Qed.
Lemma trace_services l env es a b : trace l (report_response_services_consumed env es a b).
Proof. unfold report_response_services_consumed. follow. Qed.
#[local] Hint Resolve trace_services : trace.
Lemma trace_response l env m : trace l (handle_client_response_payload env m).
Proof.
  unfold handle_client_response_payload, get_expected_return_services, take_route_success, report_route_success,
    stream_info, update_info, purge_stream_key. follow.
Qed.
#[local] Hint Resolve trace_response : trace.
Lemma trace_give_up l k a p h : trace l (give_up_dns k a p h).
Proof. unfold give_up_dns, purge_stream_key, send_dns_failure_response_to_the_browser. follow. Qed.
Lemma trace_retry l env r a : trace l (retry_dns_resolution env r a).
Proof. unfold retry_dns_resolution, request_route_and_transmit. follow. Qed.
#[local] Hint Resolve trace_give_up trace_retry : trace.
Lemma trace_dns l env m : trace l (handle_dns_resolve_failure env m).
Proof. unfold handle_dns_resolve_failure. follow. Qed.

(** *** The mailbox *)

Definition activates (m : PsMessage) : bool := match m with FromUi _ _ (UiActivate _ _) => true | _ => false end.

Lemma trace_ui l env cl cx r :
  (∀ id sig now, activates (FromUi cl cx r) = true → good_call (CallActivate id sig now)) → trace l (handle_ui env cl cx r).
Proof.
  intros Hg. unfold handle_ui, handle_receipt_session_proposal, handle_receipt_session_activation,
    handle_receipt_session_status, handle_receipt_session_stop, send_ui_response. follow.
Qed.

Lemma trace_message l env m :
  (∀ id sig now, activates m = true → good_call (CallActivate id sig now)) → trace l (handle_message stream_key_new env m).
Proof.
  intros Hg. destruct m; cbn [handle_message];
    eauto using trace_inbound, trace_shutdown, trace_add_route, trace_dns, trace_receipt_answer, trace_ui with trace.
  - unfold handle_bind. follow.
  - unfold resolve_message. follow.
  - unfold handle_metered_response. follow.
  - unfold handle_record_exit_request. follow.
  - unfold handle_retry_receipt_acknowledgements. follow.
  - unfold purge_stream_key. follow.
Qed.

Lemma trace_messages history l :
  (∀ id sig now, Exists (fun em => activates em.2 = true) history → good_call (CallActivate id sig now)) →
  trace l (run_messages stream_key_new history).
Proof.
  induction history as [|[env m] history IH]; intros Hg ps s Hl Hs; cbn [run_messages].
  { exists ps. split; [done|]. split; [done|]. by intros ? ?%elem_of_nil. }
  pose proof (trace_message l env m ltac:(intros; apply Hg; by left) ps s Hl Hs) as Hm.
  destruct (handle_message _ env m s) as [[[u s1] o1]|]; [|done]. cbn [exec_bind].
  destruct Hm as (ps1 & H1 & Hs1 & Ho1).
  specialize (IH ltac:(intros; apply Hg; by right) ps1 s1 (known_more _ _ _ _ H1 Hl) Hs1).
  destruct (run_messages _ history s1) as [[[outs s2] o2]|]; [|done]. cbn [exec_bind].
  destruct IH as (ps2 & H2 & Hs2 & Ho2). exists ps2. split; [set_solver|]. split; [done|]. rewrite asked_app.
  pose proof (known_more _ _ _ _ H2 Ho1). unfold known in *. set_solver.
Qed.
End Handlers.

(** ** The limit *)

Section Limit.
Context {St : Type} `{RS : RecoveryStore St} `{SK : SessionKeys} `{E : Ethsign} `{C : Cbor}.
Context `{HC : HopCbor} `{PC : PackageCbor} `{VR : ValueReader} `{VO : VersionOrder} `{PY : PayloadCbor}.
Context `{AC : AckCbor} `{HT : HttpCrates}.
Context (stream_key_new : PublicKey → SocketAddr → StreamKey).

(** The acknowledgements a history adds to those the outbox had: on their way
    to the providers or kept. *)
Definition handed_out (before : Proxy St) (out : list PsOut) (after : Proxy St) : list Ack :=
  filter (fun p => p ∉ kept before) (asked out ++ kept after).

Lemma traced_start good m (s : Proxy St) : receipt_session_manager_opt s = Some m → traced good m (kept s) [] s.
Proof. intros Hm. split; [|by right]. exists [], m. by repeat constructor. Qed.

(** The manager of a history, as calls; and what is handed out is its. *)
Lemma history_calls good m (s s' : Proxy St) history outs out :
  (∀ c, is_activation c = false → good c) →
  (∀ id sig now, Exists (fun em => activates em.2 = true) history → good (CallActivate id sig now)) →
  receipt_session_manager_opt s = Some m → run_messages stream_key_new history s = Ret (outs, s', out) →
  ∃ cs ps m', Forall good cs ∧ run_calls cs m = Ret (ps, m') ∧ receipt_session_manager_opt s' = Some m' ∧
    handed_out s out s' ⊆ ps.
Proof.
  intros Hg Ha Hm Hrun.
  pose proof (trace_messages stream_key_new good m (kept s) Hg history [] Ha [] s
    ltac:(by intros ? ?%elem_of_nil) (traced_start good m s Hm)) as H.
  rewrite Hrun in H. destruct H as (ps & _ & [(cs & m' & ? & ? & ?) Hkept] & Hasked).
  exists cs, ps, m'. split_and!; [done..|]. intros p [Hn Hp%elem_of_app]%list_elem_of_filter.
  destruct Hp as [[]%Hasked|[]%Hkept]; done.
Qed.

Lemma activation_call env cl cx id sig (s1 s2 : Proxy St) m1 st :
  receipt_session_manager_opt s1 = Some m1 →
  handle_message stream_key_new env (FromUi cl cx (UiActivate id sig)) s1
    = Ret ((), s2, [UiReply cl cx (UiActivateResponse st)]) →
  ∃ now r m2, activate id sig now m1 = Ret (Ok r, m2) ∧ receipt_session_manager_opt s2 = Some m2.
Proof.
  intros Hm. cbn [handle_message handle_ui]. unfold handle_receipt_session_activation, send_ui_response, out_subs,
    ps_bind, get, send, run, ps_ret, call_manager. destruct (unix_time_now env) as [now|e].
  2:{ by destruct (bound s1). }
  rewrite Hm. destruct (activate id sig now m1) as [[[r|e] m2]|] eqn:Ea; [|cbn; by destruct (bound s1)|done].
  cbn. destruct (bound s1); [|done]. intros [= <- _]. by exists now, r, m2.
Qed.

(** [C2] The proxy server never acknowledges more than the wallet signed.  From
    the start of the actor, after any history of messages, let the user activate
    a session, and let any further history follow that does not activate
    another (requests and responses of any streams, rotations, offers of any
    providers in any order and repeated, retries of the outbox).  Every
    acknowledgement then sent towards a provider or kept in the outbox, and not
    already in it, carries the authorization of the session, and the charges
    of all different receipts among them are together at most the total the
    wallet signed. *)
Theorem proxy_within_limit c0 m0 outbox l1 o1 s1 e1 env cl cx id sig st s2 m a l2 o2 s3 out :
  idle m0 → run_messages stream_key_new l1 (proxy_started c0 (Some m0) outbox) = Ret (o1, s1, e1) →
  handle_message stream_key_new env (FromUi cl cx (UiActivate id sig)) s1
    = Ret ((), s2, [UiReply cl cx (UiActivateResponse st)]) →
  receipt_session_manager_opt s2 = Some m → active_opt m = Some a →
  Forall (fun em => activates em.2 = false) l2 → run_messages stream_key_new l2 s2 = Ret (o2, s3, out) →
  Forall (fun p => payload_authorization p = active_authorization a) (handed_out s2 out s3) ∧
  ∀ l, NoDup l → l ⊆ map (signed_receipt ∘ acknowledged_receipt) (handed_out s2 out s3) →
    ledger_charge l ≤ max_total_charge_wei (policy (active_authorization a)).
Proof.
  intros Hidle Hrun1 Hact Hm Ha Hna Hrun2.
  destruct (history_calls (fun _ => True) m0 (proxy_started c0 (Some m0) outbox) _ _ _ _ ltac:(done) ltac:(done) eq_refl Hrun1)
    as (cs1 & ps1 & m1 & _ & Hcs1 & Hm1 & _).
  destruct (activation_call _ _ _ _ _ _ _ _ _ Hm1 Hact) as (now & r & m2 & Hact' & Hm2).
  assert (m2 = m) as -> by congruence.
  destruct (history_calls (fun c => is_activation c = false) m _ _ _ _ _ ltac:(done)
    ltac:(intros ? ? ? (x & Hx & Hy)%Exists_exists; rewrite Forall_forall in Hna; apply Hna in Hx; congruence) Hm Hrun2)
    as (cs2 & ps & m3 & Hcs2 & Hrun & _ & Hsub).
  destruct (session_limit_enforced _ _ _ _ _ _ _ _ _ _ _ _ _ Hidle Hcs1 Hact' Ha Hcs2 Hrun) as [Hauth Hlimit].
  rewrite Forall_forall in Hauth. split.
  - apply Forall_forall. intros p Hp. by apply Hauth, Hsub.
  - intros l Hnd Hl. apply Hlimit; [done|]. intros x Hx%Hl%list_elem_of_In.
    apply in_map_iff in Hx as (p & <- & Hp). by apply list_elem_of_In, in_map, list_elem_of_In, Hsub, list_elem_of_In.
Qed.
End Limit.
