(* ===== verification/ProxyResponses.v ===== *)
(** * ProxyResponses: what becomes of a response

    A response of the exit node reaches the browser it belongs to, once, and is
    paid for once. *)

From Stdlib Require Import ZArith Lia String Ascii.
From stdpp Require Import base list numbers option gmap sets.
From S2P Require Import Prelude Text SequenceBuffer CountryFinder CryptDE Wallet ServiceReceipt.
From S2P Require Import Route Eip712 ReceiptSession NodeRecord RouteFinder RouteQuery VersionedData Migrations.
From S2P Require Import CoresPackage Hopper AckOutbox StreamTables ProtocolPack ProtocolHosts Hostname ProxyServer ProxyStreams.

Local Open Scope Z_scope.
Local Open Scope rust_scope.
Local Open Scope list_scope.

(** What a handler sends to browsers, and what it owes for services. *)
Definition relayed (out : list PsOut) : list TransmitDataMsg :=
  omap (fun o => match o with ToBrowser m => Some m | _ => None end) out.
Definition charged (out : list PsOut) : list ReportServicesConsumedMessage :=
  omap (fun o => match o with ServicesConsumed m => Some m | _ => None end) out.
(** What it gives to the hopper. *)
Definition network (out : list PsOut) : list IncipientCoresPackage :=
  omap (fun o => match o with ToNetwork p => Some p | _ => None end) out.
Lemma network_app o o' : network (o ++ o') = network o ++ network o'.
Proof. apply omap_app. Qed.
Lemma relayed_app o o' : relayed (o ++ o') = relayed o ++ relayed o'.
Proof. apply omap_app. Qed.
Lemma charged_app o o' : charged (o ++ o') = charged o ++ charged o'.
Proof. apply omap_app. Qed.

Section Aside.
Context {St : Type}.
Abbreviation proxy := (Proxy St).

(** [c] neither touches the streams nor sends or charges anything for them. *)
Definition aside {A} (c : ps A) : Prop := ∀ s : proxy,
  match c s with
  | Ret (_, s', out) => keys_and_addrs s' = keys_and_addrs s ∧ stream_infos s' = stream_infos s ∧
      pending_route_requests s' = pending_route_requests s ∧ relayed out = [] ∧ charged out = [] ∧ network out = []
  | Panic => True
  end.

Lemma aside_bind {A B} (c : ps A) (k : A → ps B) : aside c → (∀ x, aside (k x)) → aside (ps_bind c k).
Proof.
  intros Hc Hk s. unfold ps_bind. specialize (Hc s). destruct (c s) as [[[x s1] o1]|]; [|done].
  specialize (Hk x s1). destruct (k x s1) as [[[y s2] o2]|]; [|done]. rewrite relayed_app, charged_app, network_app.
  destruct Hc as (Hk1 & Hi1 & Hp1 & -> & -> & ->), Hk as (-> & -> & -> & -> & -> & ->). by rewrite Hk1, Hi1, Hp1.
Qed.
Lemma aside_ret {A} (x : A) : aside (ps_ret x).
Proof. by intros s. Qed.
Lemma aside_get {A} (f : proxy → A) : aside (get f).
Proof. by intros s. Qed.
Lemma aside_run {A} (e : exec A) : aside (run e).
Proof. intros s. unfold run. by destruct e. Qed.
Lemma aside_out_subs : aside out_subs.
Proof. intros s. unfold out_subs, ps_bind, get. by destruct (bound s). Qed.
Lemma aside_call {A} (c : M St A) : aside (call_manager c).
Proof. intros s. unfold call_manager. destruct (receipt_session_manager_opt s) as [m|]; [|done]. by destruct (c m) as [[]|]. Qed.
Lemma aside_when b c : aside c → aside (when b c).
Proof. intros Hc. destruct b; [done|]. apply aside_ret. Qed.
End Aside.

Create HintDb aside.
#[export] Hint Resolve aside_ret aside_get aside_run aside_out_subs aside_call : aside.
#[export] Hint Extern 3 (aside (send _)) => (intros ?; done) : aside.
#[export] Hint Extern 3 (aside (modify _)) => (intros ?; done) : aside.
Ltac aside_step :=
  match goal with
  | |- aside (ps_bind _ _) => apply aside_bind; [|intros ?]
  | |- aside (when _ _) => apply aside_when
  | |- aside (match ?x with _ => _ end) => destruct x
  | |- aside (let _ := _ in _) => cbv zeta
  | |- aside _ => solve [eauto with aside]
  end.
Ltac step_aside := repeat aside_step.

Section Responses.
Context {St : Type} `{RS : RecoveryStore St} `{SK : SessionKeys} `{E : Ethsign} `{C : Cbor}.
Context `{HC : HopCbor} `{PC : PackageCbor} `{VR : ValueReader} `{VO : VersionOrder} `{PY : PayloadCbor}.
Context `{AC : AckCbor} `{HT : HttpCrates}.
Abbreviation proxy := (Proxy St).

Lemma aside_offer env o : aside (St := St) (handle_service_receipt_offer env o).
Proof.
  unfold handle_service_receipt_offer, persist_receipt_acknowledgement, deliver_receipt_acknowledgement. step_aside.
  intros s. unfold modify. cbv beta zeta. destruct (_ !! _); [done|]. by destruct (_ <? _)%nat.
Qed.
#[local] Hint Resolve aside_offer : aside.
Lemma aside_routing_offers env k n os : aside (St := St) (handle_routing_receipt_offers env k n os).
Proof.
  unfold handle_routing_receipt_offers. step_aside; [|generalize dependent x0; induction x0; cbn [handle_offers]; step_aside].
  induction os; cbn [decrypt_offers]; step_aside.
Qed.
#[local] Hint Resolve aside_routing_offers : aside.

(** *** Following one handler *)

(** From [P], [c] leaves a state, messages to browsers and charges as [Q] says. *)
Definition does {A} (P : proxy → Prop) (c : ps A)
    (Q : proxy → list TransmitDataMsg → list ReportServicesConsumedMessage → Prop) : Prop :=
  ∀ s, P s → match c s with Ret (_, s', out) => Q s' (relayed out) (charged out) | Panic => True end.
(** [c] keeps [P] and sends and charges nothing. *)
Definition stays {A} (P : proxy → Prop) (c : ps A) : Prop := does P c (fun s r ch => P s ∧ r = [] ∧ ch = []).

Lemma does_charge {A B} (P : proxy → Prop) (c : ps A) (k : A → ps B) charges Q :
  does P c (fun s r ch => P s ∧ r = [] ∧ ch = charges) →
  (∀ x, does P (k x) (fun s r ch => Q s r (charges ++ ch))) → does P (ps_bind c k) Q.
Proof.
  intros Hc Hk s Hs. unfold ps_bind. specialize (Hc s Hs). destruct (c s) as [[[x s1] o1]|]; [|done].
  destruct Hc as (Hs1 & Hr & Hch). specialize (Hk x s1 Hs1). destruct (k x s1) as [[[y s2] o2]|]; [|done].
  by rewrite relayed_app, charged_app, Hr, Hch.
Qed.
Lemma does_stay {A B} P (c : ps A) (k : A → ps B) Q : stays P c → (∀ x, does P (k x) Q) → does P (ps_bind c k) Q.
Proof. intros Hc Hk. by eapply (does_charge P c k []). Qed.
Lemma does_get {A B} (P : proxy → Prop) (f : proxy → A) v (k : A → ps B) Q :
  (∀ s, P s → f s = v) → does P (k v) Q → does P (ps_bind (get f) k) Q.
Proof.
  intros Hf Hk s Hs. unfold ps_bind, get. rewrite (Hf s Hs). specialize (Hk s Hs). by destruct (k v s) as [[[]]|].
Qed.
Lemma does_modify {B} (P P' : proxy → Prop) f (k : unit → ps B) Q :
  (∀ s, P s → P' (f s)) → does P' (k ()) Q → does P (ps_bind (modify f) k) Q.
Proof.
  intros Hf Hk s Hs. unfold ps_bind, modify. specialize (Hk _ (Hf s Hs)). by destruct (k () (f s)) as [[[]]|].
Qed.
Lemma does_value {A B} (P : proxy → Prop) (c : ps A) v (k : A → ps B) Q :
  (∀ s, P s → c s = Ret (v, s, [])) → does P (k v) Q → does P (ps_bind c k) Q.
Proof.
  intros Hc Hk s Hs. unfold ps_bind. rewrite (Hc s Hs). specialize (Hk s Hs). by destruct (k v s) as [[[]]|].
Qed.
Lemma stays_bind {A B} P (c : ps A) (k : A → ps B) : stays P c → (∀ x, stays P (k x)) → stays P (ps_bind c k).
Proof. intros Hc Hk. by apply does_stay. Qed.

(** The stream [k] of the socket [a], with its window and route. *)
Record stream_at (k : StreamKey) (a : SocketAddr) (w : ResponseSequenceReplayWindow) (r : SelectedRoute) (tunnel : bool)
    (s : proxy) : Prop := {
  sa_addr : map_ab (keys_and_addrs s) !! k = Some a;
  sa_info : ∃ i, stream_infos s !! k = Some i ∧ time_to_live_opt i = None ∧
    response_sequence_replay_window i = w ∧ route_opt i = Some r ∧ browser_proxy_sequence_offset i = tunnel;
}.

(** The state of the stream that is read. *)
Lemma does_stream {A} k a w r t (c : ps A) Q :
  (∀ i, time_to_live_opt i = None → response_sequence_replay_window i = w → browser_proxy_sequence_offset i = t →
    does (fun s => stream_infos s !! k = Some i ∧ stream_at k a w r t s) c Q) → does (stream_at k a w r t) c Q.
Proof. intros Hc s Hs. pose proof Hs as [_ (i & Hi & Ht & Hw & _ & Ho)]. by apply (Hc i Ht Hw Ho). Qed.

Lemma stays_aside {A} k a w r t (c : ps A) : aside c → stays (stream_at k a w r t) c.
Proof.
  intros Hc s [Ha Hi]. specialize (Hc s). destruct (c s) as [[[x s'] out]|]; [|done].
  destruct Hc as (Hk & Hs & _ & ? & ? & _). split; [|done]. split; [by rewrite Hk|by rewrite Hs].
Qed.
Lemma stream_at_update k a w w' r t f s :
  (∀ i, time_to_live_opt (f i) = time_to_live_opt i ∧ route_opt (f i) = route_opt i ∧
        browser_proxy_sequence_offset (f i) = browser_proxy_sequence_offset i) →
  (∀ i, response_sequence_replay_window i = w → response_sequence_replay_window (f i) = w') →
  stream_at k a w r t s → stream_at k a w' r t (set_infos (alter f k (stream_infos s)) s).
Proof.
  intros Hf Hw [Ha (i & Hi & Ht & Hwi & Hr & Ho)]. split; [done|]. exists (f i). cbn. rewrite lookup_alter_eq, Hi.
  destruct (Hf i) as (-> & -> & ->). by rewrite (Hw i Hwi).
Qed.

Lemma stays_success k a w r t : stays (stream_at k a w r t) (take_route_success k).
Proof.
  intros s Hs. pose proof Hs as [_ (i & Hi & _)]. unfold take_route_success, stream_info, ps_bind, get. rewrite Hi.
  destruct (route_success_reported i); cbn; [done|]. split; [|done]. by eapply stream_at_update.
Qed.

(** What a response costs: the exit's service and the routing of the way back. *)
Definition response_charges (env : ProxyEnv) (back : list ExpectedService) (exit_size routing_size : nat)
    : list ReportServicesConsumedMessage :=
  match first_billable back with
  | Some (ExitService _ w rate) =>
      [mkServicesConsumed (pe_now env) (mkExitConsumed w exit_size (exit_service_rate rate) (exit_byte_rate rate))
         routing_size (report_on_routing_services back)]
  | _ => []
  end.
Lemma does_report P env back n m :
  response_services_are_valid back = true →
  does P (report_response_services_consumed env back n m) (fun s r ch => P s ∧ r = [] ∧ ch = response_charges env back n m).
Proof.
  intros Hv s Hs. unfold report_response_services_consumed, response_charges. rewrite Hv. cbn [negb].
  destruct (first_billable back) as [[]|]; try done. unfold out_subs, ps_bind, get. by destruct (bound s).
Qed.

Section OneResponse.
Context (env : ProxyEnv) (msg : ExpiredCoresPackage ClientResponsePayload_0v1).
Abbreviation k := (crsp_stream_key (ecp_payload msg)).
Abbreviation packet := (crsp_sequenced_packet (ecp_payload msg)).

Lemma services_of (a : SocketAddr) w r t over back (s : proxy) :
  expected_services r = RoundTrip over back → response_services_are_valid back = true →
  stream_at k a w r t s → get_expected_return_services k s = Ret (Some back, s, []).
Proof.
  intros He Hv [_ (i & Hi & _ & _ & Hr & _)]. unfold get_expected_return_services, stream_info, ps_bind, get, ps_ret.
  by rewrite Hi, Hr, He, Hv.
Qed.

(** What becomes of a response of a stream, as its replay window decides. *)
Lemma response_outcome (a : SocketAddr) w r (t : bool) over back b :
  expected_services r = RoundTrip over back → response_services_are_valid back = true →
  checked_add 64 (sequence_number packet) (if t then 1 else 0) = Some b →
  does (stream_at k a w r t) (handle_client_response_payload env msg) (fun s rel ch =>
    match admit_sequence w (sequence_number packet) with
    | (Ok _, w') =>
        rel = [mkTransmit (EpSocket a) (SequenceBuffer.last_data packet) (Some b) (SequenceBuffer.data packet)] ∧
        ch = response_charges env back (length (SequenceBuffer.data packet)) (payload_len msg) ∧
        (if SequenceBuffer.last_data packet then stream_infos s !! k = None else stream_at k a w' r t s)
    | (Err _, w') => rel = [] ∧ ch = [] ∧ stream_at k a w' r t s
    end).
Proof.
  intros He Hv Hb. unfold handle_client_response_payload. cbv zeta.
  apply does_stay; [apply stays_aside; auto with aside|]. intros u1.
  eapply does_value; [intros s; by eapply services_of|].
  apply does_stream. intros i _ Hw Ht. eapply does_get; [by intros s []|]. cbv beta iota. rewrite Ht, Hb, Hw.
  destruct (admit_sequence w (sequence_number packet)) as [adm w'] eqn:Ea.
  eapply does_modify with (P' := stream_at k a w' r t); [intros s [_ Hs]; by eapply stream_at_update|].
  destruct adm as [u|e]; [|intros s Hs; by cbn].
  apply does_stay. { destruct (unix_time_now env); apply stays_aside; step_aside. } intros u2.
  apply does_stay. { destruct (_ && _); [apply stays_success|by apply stays_aside, aside_ret]. } intros first.
  apply does_stay. { apply stays_aside. unfold report_route_success, stream_info. step_aside. } intros u3.
  eapply does_charge; [by apply does_report|]. intros u4.
  eapply does_modify with (P' := stream_at k a w' r t); [intros s Hs; by eapply stream_at_update|].
  apply does_stream. intros i' Ht' _ _. eapply does_get; [by intros s []|]. cbv beta iota. rewrite Ht'.
  intros s [_ Hs]. pose proof (sa_addr _ _ _ _ _ _ Hs) as Ha.
  unfold ps_bind, get, out_subs, ps_bind, get, send, a_to_b. rewrite Ha. destruct (bound s); [|done].
  unfold when, purge_stream_key, modify, ps_ret. destruct (SequenceBuffer.last_data packet); cbn; rewrite app_nil_r.
  - split; [done|]. split; [done|]. apply lookup_delete_eq.
  - done.
Qed.

(** A response of no stream is dropped. *)
Lemma response_unknown :
  does (fun s => stream_infos s !! k = None) (handle_client_response_payload env msg) (fun _ rel ch => rel = [] ∧ ch = []).
Proof.
  unfold handle_client_response_payload. cbv zeta. apply does_stay.
  { intros s Hs. pose proof (aside_routing_offers env k (payload_len msg) (ecp_routing_receipt_offers msg) s) as H.
    destruct (handle_routing_receipt_offers _ _ _ _ s) as [[[x s'] out]|]; [|done]. by destruct H as (_ & -> & _ & ? & ? & _). }
  intros u s Hs. unfold get_expected_return_services, stream_info, ps_bind, get, ps_ret. by rewrite Hs.
Qed.
End OneResponse.

(** [C3] A response reaches its browser once.  A response for a stream that has
    a route, is still open and has not had this sequence number (within the
    window of 4096) is relayed as exactly one message, to the socket of that
    stream, with its bytes and its place in the order, one later behind a
    tunnel, whatever receipt offers travel with it, and the exit and the way
    back are charged once, at the rates of the route; if it is the last the
    stream is gone.  Any response with the stream and the sequence number of
    this one that comes next, whatever its data, is neither relayed nor charged. *)
Theorem response_relayed_once env env' msg msg' (s : proxy) k a i seen r over back u s' out u' s'' out' :
  let packet := crsp_sequenced_packet (ecp_payload msg) in
  let n := sequence_number packet in
  let place := n + (if browser_proxy_sequence_offset i then 1 else 0) in
  crsp_stream_key (ecp_payload msg) = k →
  map_ab (keys_and_addrs s) !! k = Some a → stream_infos s !! k = Some i → time_to_live_opt i = None →
  route_opt i = Some r → expected_services r = RoundTrip over back → response_services_are_valid back = true →
  window_for (response_sequence_replay_window i) seen → n ∉ seen → n < least_missing seen + MAX_SEQUENCE_REORDER_WINDOW →
  in_u 64 n → in_u 64 place →
  handle_client_response_payload env msg s = Ret (u, s', out) →
  crsp_stream_key (ecp_payload msg') = k → sequence_number (crsp_sequenced_packet (ecp_payload msg')) = n →
  handle_client_response_payload env' msg' s' = Ret (u', s'', out') →
  relayed out = [mkTransmit (EpSocket a) (SequenceBuffer.last_data packet) (Some place) (SequenceBuffer.data packet)] ∧
  charged out = response_charges env back (length (SequenceBuffer.data packet)) (payload_len msg) ∧
  (SequenceBuffer.last_data packet = true → stream_infos s' !! k = None) ∧
  relayed out' = [] ∧ charged out' = [].
Proof.
  intros packet n place Hk Ha Hi Ht Hr He Hv Hw Hfresh Hnear Hn Hplace Hrun Hk' Hn' Hrun'.
  set (w := response_sequence_replay_window i) in *. set (t := browser_proxy_sequence_offset i) in *.
  assert (checked_add 64 n (if t then 1 else 0) = Some place) as Hplace'
    by (unfold checked_add; by rewrite decide_True).
  assert (stream_at k a w r t s) as Hat by (split; [done|]; by exists i).
  subst k. pose proof (response_outcome env msg a w r t over back place He Hv Hplace' s Hat) as H1.
  rewrite Hrun in H1. fold packet n in H1. pose proof (admit_for w seen n Hw Hn) as [Hok Hw'].
  rewrite bool_decide_eq_false_2, (proj2 (Z.ltb_lt _ _)) in Hok, Hw' by done.
  destruct (admit_sequence w n) as [[x|e] w']; [|done]. cbn in Hw'.
  destruct H1 as (Hrel & Hch & Hleft). fold packet in Hrel, Hch, Hleft. split; [done|]. split; [done|].
  destruct (SequenceBuffer.last_data packet).
  - split; [done|]. rewrite <- Hk' in Hleft. pose proof (response_unknown env' msg' s' Hleft) as H2.
    by rewrite Hrun' in H2.
  - split; [done|]. rewrite <- Hk' in Hleft. rewrite <- Hn' in Hplace', Hw'.
    pose proof (response_outcome env' msg' a w' r t over back place He Hv Hplace' s' Hleft) as H2. rewrite Hrun' in H2.
    assert (in_u 64 (sequence_number (crsp_sequenced_packet (ecp_payload msg')))) as Hn2 by (by rewrite Hn').
    pose proof (admit_for w' _ _ Hw' Hn2) as [Hok' _].
    rewrite bool_decide_eq_true_2 in Hok' by set_solver. cbn in Hok'.
    destruct (admit_sequence w' _) as [[y|e'] w'']; [done|]. by destruct H2 as (? & ? & _).
Qed.
End Responses.
