(* ===== verification/ProxyRequests.v ===== *)
(** * ProxyRequests: what becomes of a request

    The packets of a stream wait for its route; once there is one they leave in
    their order, each sealed for the exit node and charged. *)

From Stdlib Require Import ZArith Lia String Ascii.
From stdpp Require Import base list numbers option gmap sets.
From S2P Require Import Prelude Text SequenceBuffer CountryFinder CryptDE Wallet ServiceReceipt.
From S2P Require Import Route Eip712 ReceiptSession NodeRecord RouteFinder RouteQuery VersionedData Migrations.
From S2P Require Import CoresPackage Hopper AckOutbox StreamTables ProtocolPack ProtocolHosts Hostname.
From S2P Require Import ProxyServer ProxyStreams ProxyResponses.

Local Open Scope Z_scope.
Local Open Scope rust_scope.
Local Open Scope list_scope.

Section Requests.
Context {St : Type} `{RS : RecoveryStore St} `{SK : SessionKeys} `{E : Ethsign} `{C : Cbor}.
Context `{HC : HopCbor} `{PC : PackageCbor} `{VR : ValueReader} `{VO : VersionOrder} `{PY : PayloadCbor}.
Context `{AC : AckCbor} `{HT : HttpCrates}.
Abbreviation proxy := (Proxy St).

(** A packet sealed for the exit [x] of a route, and what it costs. *)
Definition packet_sent (r : SelectedRoute) (over : list ExpectedService) (x : PublicKey) (args : TransmitToHopperArgs)
    (pkg : IncipientCoresPackage) (charge : ReportServicesConsumedMessage) : Prop :=
  ∃ rand m exit,
    client_request_message (args_payload args) = Ret m ∧
    incipient_new (args_main_cryptde args) rand (sel_route r) m x = Ret (Ok pkg) ∧
    report_on_exit_service over (request_len (args_payload args)) = Ok exit ∧
    charge = mkServicesConsumed (args_timestamp args) exit (length (icp_payload pkg)) (report_on_routing_services over).

Section Route.
Context (env : ProxyEnv) (r : SelectedRoute) (over back : list ExpectedService) (x : PublicKey) (main : CryptDE).
Context (services : expected_services r = RoundTrip over back).
Context (exit_key : find_exit_node_key over = Some x) (one_exit : ∀ n, ∃ exit, report_on_exit_service over n = Ok exit).
Context (sealed : ∀ rand m, ∃ pkg, incipient_new main rand (sel_route r) m x = Ret (Ok pkg)).

Lemma transmit_one n args (s : proxy) :
  args_is_decentralized args = true → args_main_cryptde args = main →
  match try_transmit_to_hopper env n args r s with
  | Ret (res, s', out) => res = Ok () ∧ s' = s ∧ relayed out = [] ∧
      ∃ pkg charge, network out = [pkg] ∧ charged out = [charge] ∧ packet_sent r over x args pkg charge
  | Panic => True
  end.
Proof.
  intros Hd Hm. unfold try_transmit_to_hopper. rewrite services. unfold transmit_to_hopper. rewrite Hd, exit_key, Hm. cbv zeta iota.
  unfold ps_bind at 1, run at 1. destruct (client_request_message (args_payload args)) as [m|] eqn:Em; [|done].
  unfold ps_bind at 1, run at 1. destruct (sealed (pe_rand env n) m) as [pkg Hp]. rewrite Hp.
  destruct (one_exit (request_len (args_payload args))) as [exit Hx]. rewrite Hx.
  assert (packet_sent r over x args pkg (mkServicesConsumed (args_timestamp args) exit (length (icp_payload pkg))
    (report_on_routing_services over))) as Hsent by (exists (pe_rand env n), m, exit; rewrite Hm; done).
  unfold ps_try, ps_bind, send, when, ps_ret. destruct (_ && _), (retire_stream_key args); cbn;
    (split; [done|]; split; [done|]; split; [done|]); by do 2 eexists.
Qed.

Lemma transmit_all n l (s : proxy) :
  Forall (fun args => args_is_decentralized args = true ∧ args_main_cryptde args = main) l →
  match transmit_packets env n l r s with
  | Ret (res, s', out) => res = Ok () ∧ s' = s ∧ relayed out = [] ∧
      Forall3 (packet_sent r over x) l (network out) (charged out)
  | Panic => True
  end.
Proof.
  intros Hl. revert n. induction Hl as [|args l [Hd Hm] _ IH] using Forall_ind; intros n; cbn [transmit_packets].
  { split; [done|]. split; [done|]. split; [done|]. constructor. }
  unfold ps_try, ps_bind. pose proof (transmit_one n args s Hd Hm) as H1.
  destruct (try_transmit_to_hopper env n args r s) as [[[res s1] o1]|]; [|done].
  destruct H1 as (-> & -> & Hr1 & pkg & charge & Hn1 & Hc1 & Hsent). specialize (IH (S n)).
  destruct (transmit_packets env (S n) l r s) as [[[res s2] o2]|]; [|done]. destruct IH as (-> & -> & Hr2 & Hall).
  rewrite relayed_app, network_app, charged_app, Hr1, Hr2, Hn1, Hc1. by repeat constructor.
Qed.

Lemma aside_quotes k : aside (St := St) (bind_quotes env k r).
Proof. unfold bind_quotes. step_aside. Qed.
Lemma aside_replay e : aside (St := St) (replay_pending_receipt_offer env e).
Proof. unfold replay_pending_receipt_offer. step_aside. apply aside_offer. Qed.
End Route.

Lemma exit_reported over n : exit_count over = 1%nat → ∃ exit, report_on_exit_service over n = Ok exit.
Proof.
  assert (∀ l, length (exits l) = exit_count l) as Hlen.
  { unfold exits, exit_count. induction l as [|[] l IH]; cbn; congruence. }
  intros H. rewrite <- Hlen in H. unfold report_on_exit_service.
  destruct (exits over) as [|[w rate] [|]]; try done. by eexists.
Qed.

Lemma ps_bind_inv {A B} (c : ps A) (k : A → ps B) (s : proxy) y s' out :
  ps_bind c k s = Ret (y, s', out) →
  ∃ x s1 o1 o2, c s = Ret (x, s1, o1) ∧ k x s1 = Ret (y, s', o2) ∧ out = o1 ++ o2.
Proof.
  unfold ps_bind. destruct (c s) as [[[x s1] o1]|]; [|done]. destruct (k x s1) as [[[y' s2] o2]|] eqn:E2; [|done].
  intros [= -> -> <-]. by exists x, s1, o1, o2.
Qed.

(** [C4] A route releases the packets that wait for it.  When the route a stream
    asked for arrives, over one exit node whose key seals messages, all packets
    that waited leave, in the order they came, each sealed for that exit node
    and along that route, and each charged once with its own size and the rates
    of the route; the browser hears nothing, nothing waits any more, and the
    route is kept for the packets to come. *)
Theorem route_releases_packets env msg (s : proxy) k i d p r over back x main u s' out :
  ar_stream_key msg = k → ar_result msg = Ok r →
  stream_infos s !! k = Some i → dns_failure_retry_opt i = Some d →
  pending_route_requests s !! k = Some p → pr_route_request_id p = ar_route_request_id msg →
  Forall (fun args => args_is_decentralized args = true ∧ args_main_cryptde args = main) (packets p) →
  expected_services r = RoundTrip over back → find_exit_node_key over = Some x → exit_count over = 1%nat →
  (∀ rand m, ∃ pkg, incipient_new main rand (sel_route r) m x = Ret (Ok pkg)) →
  handle_add_route_result_message env msg s = Ret (u, s', out) →
  Forall3 (packet_sent r over x) (packets p) (network out) (charged out) ∧ relayed out = [] ∧
  pending_route_requests s' !! k = None ∧ ∃ i', stream_infos s' !! k = Some i' ∧ route_opt i' = Some r.
Proof.
  intros <- Hres Hi Hd Hp Hid Hl Hservices Hx Hone Hseal. set (k := ar_stream_key msg) in *.
  unfold handle_add_route_result_message. cbv zeta. fold k.
  intros (? & ? & ? & o0 & [= <- <- <-] & H & ->)%ps_bind_inv. rewrite Hi, Hd in H.
  apply ps_bind_inv in H as (? & ? & ? & o1 & [= <- <- <-] & H & ->). rewrite Hp, Hid, Z.eqb_refl in H. cbn [negb] in H.
  apply ps_bind_inv in H as (? & ? & ? & o2 & [= <- <- <-] & H & ->). rewrite Hres in H.
  apply ps_bind_inv in H as (failed & s1 & oa & ob & H & Hend & ->).
  apply ps_bind_inv in H as (? & ? & ? & o3 & [= <- <- <-] & H & ->).
  apply ps_bind_inv in H as (epoch & s2 & o4 & o5 & Hq & H & ->).
  apply ps_bind_inv in H as (? & s3 & o6 & o7 & Ho & H & ->).
  apply ps_bind_inv in H as (res & s4 & o8 & o9 & Ht & H & ->).
  pose proof (aside_quotes env r k) as Hqa. match type of Hq with bind_quotes _ _ _ ?x = _ => specialize (Hqa x) end.
  rewrite Hq in Hqa. destruct Hqa as (_ & Hi2 & Hp2 & Hr2 & Hc2 & Hn2).
  assert (aside (match epoch with Some epoch => replay_pending_receipt_offer env epoch | None => ps_ret () end)) as Hoa
    by (destruct epoch; [apply aside_replay|apply aside_ret]).
  specialize (Hoa s2). rewrite Ho in Hoa. destruct Hoa as (_ & Hi3 & Hp3 & Hr3 & Hc3 & Hn3).
  pose proof (transmit_all env r over back x main Hservices Hx (fun n => exit_reported over n Hone) Hseal 1 (packets p) s3 Hl) as Hall.
  rewrite Ht in Hall. destruct Hall as (-> & -> & Hr4 & Hall). injection H as <- <- <-. injection Hend as <- <- <-.
  rewrite !relayed_app, !charged_app, !network_app, Hr2, Hr3, Hr4, Hc2, Hc3, Hn2, Hn3, !app_nil_r. cbn [app].
  split; [done|]. split; [done|]. rewrite Hp3, Hp2, Hi3, Hi2. cbn. rewrite lookup_delete_eq. split; [done|].
  rewrite lookup_alter_eq, Hi. by eexists.
Qed.
End Requests.
