(* ===== verification/ProxySamples.v ===== *)
(** * ProxySamples: a browser, a route and a session

    A proxy server with concrete keys and encodings, on which the properties of
    [ProxyRun] and [ProxyLedger] are applied. *)

From Stdlib Require Import ZArith Lia String Ascii.
From stdpp Require Import base list numbers option gmap sets.
From S2P Require Import Prelude Text SequenceBuffer CountryFinder CryptDE Wallet ServiceReceipt.
From S2P Require Import Route Eip712 ReceiptSession SessionLimit NodeRecord RouteFinder RouteQuery VersionedData Migrations.
From S2P Require Import CoresPackage Hopper HopperDelivery AckOutbox StreamTables ProtocolPack ProtocolHosts Hostname.
From S2P Require Import ProxyServer ProxyStreams ProxyRun ProxyLedger ProxyResponses ProxyRequests.

Local Open Scope Z_scope.
Local Open Scope rust_scope.
Local Open Scope list_scope.

Module SampleProxy.
#[local] Existing Instances sample_ethsign sample_cbor sample_keys sample_store sample_hop_cbor.
#[local] Existing Instances SampleHopper.package_cbor SampleHopper.payload_cbor SampleHopper.value_reader.
#[local] Existing Instances SampleHopper.version_order SampleHosts.sample_crates.
#[local] Instance ack_cbor : AckCbor := {| ser_ack := fun p => Ok [sequence (payload_receipt p)] |}.

Abbreviation store := (option (PersistedReceiptSessionHeader * list ReceiptRouteState)).

Definition config : ProxyConfig :=
  mkProxyConfig true (Some 100) (sample_null [1; 1]) (sample_null [1; 1; 7]) STREAM_KEY_PURGE_DELAY false.
Definition stream_key_new : PublicKey → SocketAddr → StreamKey := make_stream_key (fun bytes => bytes) [9].

(** A clock in seconds, and the random bytes of its handler. *)
Definition at_ (t : Z) (rand : list Z) : ProxyEnv := mkProxyEnv (t * 10 ^ 9) (fun n => match n with 0%nat => rand | _ => repeat 8 32 end).

Definition browser : SocketAddr := mkSocket (IpV4 2130706433) 54321.
Definition key : StreamKey := stream_key_new (public_key (main_cryptde config)) browser.
Definition page : list Z := string_bytes ("GET /index.html HTTP/1.1" ++ crlf ++ "Host: example.com" ++ crlf ++ crlf).
Definition page_request : InboundClientData := mkInbound (150 * 10 ^ 9) browser (Some 80) false false (Some 0) page.

Definition provider_key : PublicKey := public_key session_provider.
Definition exit_service : ExpectedService := ExitService provider_key (WAddress (repeat 4 20)) (mkRatePack 1 5 2 10).
Definition found : SelectedRoute :=
  mkSelected (mkRoute []) (RoundTrip [NoService; exit_service] [exit_service; NoService]) (mkHost "example.com" 80).
Definition answer (n : Z) (data : list Z) (last : bool) : ExpiredCoresPackage ClientResponsePayload_0v1 :=
  mkExpired browser None (mkRoute []) (mkClientResponse key (mkPacket data n last)) 120 [].
Definition offer : ExpiredCoresPackage ServiceReceiptOfferPayload_0v1 :=
  mkExpired browser None (mkRoute []) (mkOfferPayload sample_offer) 50 [].

Definition opening : list (ProxyEnv * PsMessage) :=
  [(at_ 90 [], BindMessage); (at_ 100 [], FromUi 1 2 (UiProposal "1000" 300))].
Definition browsing : list (ProxyEnv * PsMessage) := [
  (at_ 150 sample_epoch, InboundData page_request);
  (at_ 151 [], AddRouteResult (mkAddRoute key 1 (Ok found)));
  (at_ 160 [], ClientResponse (answer 1 (repeat 65 100) false));
  (at_ 161 [], ClientResponse (answer 1 (repeat 65 100) false));
  (at_ 170 [], ReceiptOffer offer);
  (at_ 171 [], ReceiptOffer offer)].

Definition state_of {A} (e : exec (A * Proxy store * list PsOut)) (s : Proxy store) : Proxy store :=
  match e with Ret (_, s, _) => s | Panic => s end.
Definition sent {A} (e : exec (A * Proxy store * list PsOut)) : list PsOut :=
  match e with Ret (_, _, out) => out | Panic => [] end.

Definition start : Proxy store := proxy_started config (Some sample_idle) (Some ∅).
Definition opened := state_of (run_messages stream_key_new opening start) start.
Definition activation := handle_message stream_key_new (at_ 120 [])
  (FromUi 1 3 (UiActivate (hex_text (repeat 8 32)) sample_signature_text)) opened.
Definition active := state_of activation opened.
Definition browsed := run_messages stream_key_new browsing active.

Definition value_of {A} (e : exec (A * Proxy store * list PsOut)) (x : A) : A := match e with Ret (x, _, _) => x | Panic => x end.
Lemma ran {A} (e : exec (A * Proxy store * list PsOut)) x s :
  returned e = true → e = Ret (value_of e x, state_of e s, sent e).
Proof. by destruct e as [[[]]|]. Qed.

Definition manager_of (s : Proxy store) : Manager store :=
  match receipt_session_manager_opt s with Some m => m | None => sample_idle end.
Lemma has_manager s : bool_decide (is_Some (receipt_session_manager_opt s)) = true →
  receipt_session_manager_opt s = Some (manager_of s).
Proof. intros [m Hm]%bool_decide_eq_true_1. unfold manager_of. by rewrite Hm. Qed.
Lemma has_session (m : Manager store) : bool_decide (is_Some (active_opt m)) = true → active_opt m = Some (active_of m).
Proof. intros [a Ha]%bool_decide_eq_true_1. unfold active_of. by rewrite Ha. Qed.
Lemma activated_ran : ∃ st, activation = Ret ((), active, [UiReply 1 3 (UiActivateResponse st)]).
Proof.
  assert (returned activation = true) as Hr by (vm_compute; reflexivity).
  assert (∃ st, sent activation = [UiReply 1 3 (UiActivateResponse st)]) as [st Hs]
    by (eexists; vm_compute; reflexivity).
  exists st. rewrite <- Hs. unfold active. revert Hr. generalize activation. by intros [[[[] s] out]|].
Qed.

Lemma proxy_within_limit_witness :
  let handed := handed_out active (sent browsed) (state_of browsed active) in
  length handed = 3%nat ∧
  ∀ l, NoDup l → l ⊆ map (signed_receipt ∘ acknowledged_receipt) handed → ledger_charge l ≤ 1000.
Proof.
  destruct activated_ran as [st Hact].
  destruct (proxy_within_limit stream_key_new config sample_idle (Some ∅) opening
    (value_of (run_messages stream_key_new opening start) []) opened (sent (run_messages stream_key_new opening start))
    (at_ 120 []) 1 3 (hex_text (repeat 8 32)) sample_signature_text st active (manager_of active)
    (active_of (manager_of active)) browsing (value_of browsed []) (state_of browsed active) (sent browsed)) as [_ H].
  - split; reflexivity.
  - apply ran. vm_compute. reflexivity.
  - exact Hact.
  - apply has_manager. vm_compute. reflexivity.
  - apply has_session. vm_compute. reflexivity.
  - repeat (apply Forall_cons; split; [reflexivity|]). apply Forall_nil, I.
  - apply ran. vm_compute. reflexivity.
  - split; [vm_compute; reflexivity|]. intros l Hl Hsub. specialize (H l Hl Hsub).
    assert (max_total_charge_wei (policy (active_authorization (active_of (manager_of active)))) = 1000) as Hmax
      by (vm_compute; reflexivity).
    rewrite Hmax in H. exact H.
Defined.

(** A session proposed, activated and charged. *)
Definition whole_day : list (ProxyEnv * PsMessage) :=
  (at_ 100 [], FromUi 1 2 (UiProposal "1000" 300)) ::
  (at_ 120 [], FromUi 1 3 (UiActivate (hex_text (repeat 8 32)) sample_signature_text)) :: browsing.

Lemma proxy_survives_witness :
  ∃ outs s out, run_messages stream_key_new ((at_ 90 [], BindMessage) :: whole_day) start = Ret (outs, s, out) ∧
    streams_ok config stream_key_new managed ∅ s.
Proof.
  apply (proxy_survives (SL := sample_keys_laws) config (fun bytes => bytes) [9] (Some sample_idle) (Some ∅)
    (at_ 90 []) whole_day).
  - intros a b _ _ H. exact H.
  - intros p. eexists. reflexivity.
  - intros p. eexists. reflexivity.
  - intros rand k d. discriminate.
  - intros m [= <-]. apply managed_idle. split; reflexivity.
  - repeat (apply Forall_cons; split; [cbn; try exact I|]); [..|apply Forall_nil, I]; try done.
    + split; [by vm_compute|]. intros (rest & Hr & _). discriminate Hr.
    + intros r [= <-]. split; repeat constructor; by vm_compute.
Defined.

Lemma present {A} (x : option A) d : bool_decide (is_Some x) = true → x = Some (match x with Some y => y | None => d end).
Proof. intros [y ->]%bool_decide_eq_true_1. reflexivity. Qed.

Definition waiting := state_of (run_messages stream_key_new (take 2 browsing) active) active.
Definition info_of (s : Proxy store) : StreamInfo :=
  match stream_infos s !! key with Some i => i | None => new_stream_info 0 end.
Definition first_answer := handle_client_response_payload (at_ 160 []) (answer 1 (repeat 65 100) false) waiting.
Definition second_answer :=
  handle_client_response_payload (at_ 161 []) (answer 1 [1; 2; 3] true) (state_of first_answer waiting).

Lemma response_relayed_once_witness :
  relayed (sent first_answer) = [mkTransmit (EpSocket browser) false (Some 1) (repeat 65 100)] ∧
  charged (sent first_answer) = response_charges (at_ 160 []) [exit_service; NoService] 100 120 ∧
  relayed (sent second_answer) = [] ∧ charged (sent second_answer) = [].
Proof.
  assert (response_sequence_replay_window (info_of waiting) = window_default) as Hw by (vm_compute; reflexivity).
  destruct (response_relayed_once (at_ 160 []) (at_ 161 []) (answer 1 (repeat 65 100) false) (answer 1 [1; 2; 3] true)
    waiting key browser (info_of waiting) ∅ found [NoService; exit_service] [exit_service; NoService]
    (value_of first_answer ()) (state_of first_answer waiting) (sent first_answer)
    (value_of second_answer ()) (state_of second_answer waiting) (sent second_answer))
    as (H1 & H2 & _ & H3 & H4); [..|repeat split; assumption].
  - reflexivity.
  - vm_compute. reflexivity.
  - apply present. vm_compute. reflexivity.
  - vm_compute. reflexivity.
  - vm_compute. reflexivity.
  - reflexivity.
  - vm_compute. reflexivity.
  - rewrite Hw. apply window_for_default.
  - apply not_elem_of_empty.
  - vm_compute. reflexivity.
  - vm_compute. split; [discriminate|reflexivity].
  - vm_compute. split; [discriminate|reflexivity].
  - apply ran. vm_compute. reflexivity.
  - reflexivity.
  - reflexivity.
  - apply ran. vm_compute. reflexivity.
Defined.

Definition second_request : InboundClientData := mkInbound (150 * 10 ^ 9) browser (Some 80) false false (Some 1) page.
Definition asking := state_of (run_messages stream_key_new
  [(at_ 150 sample_epoch, InboundData page_request); (at_ 150 [], InboundData second_request)] active) active.
Definition route_arrives := handle_add_route_result_message (at_ 151 []) (mkAddRoute key 1 (Ok found)) asking.
Definition pending_of (s : Proxy store) : PendingRouteRequest :=
  match pending_route_requests s !! key with Some p => p | None => mkPendingRoute 0 0 [] end.
Definition retry_of (i : StreamInfo) : DNSFailureRetry :=
  match dns_failure_retry_opt i with Some d => d | None => mkRetry SampleHopper.request 0 0 end.

Lemma route_releases_packets_witness :
  length (packets (pending_of asking)) = 2%nat ∧
  Forall3 (packet_sent found [NoService; exit_service] provider_key) (packets (pending_of asking))
    (network (sent route_arrives)) (charged (sent route_arrives)).
Proof.
  split; [vm_compute; reflexivity|].
  refine (proj1 (route_releases_packets (at_ 151 []) (mkAddRoute key 1 (Ok found)) asking key (info_of asking)
    (retry_of (info_of asking)) (pending_of asking) found [NoService; exit_service] [exit_service; NoService]
    provider_key (main_cryptde config) (value_of route_arrives ()) (state_of route_arrives asking) (sent route_arrives)
    _ _ _ _ _ _ _ _ _ _ _ _)).
  - reflexivity.
  - reflexivity.
  - apply present. vm_compute. reflexivity.
  - apply present. vm_compute. reflexivity.
  - apply present. vm_compute. reflexivity.
  - vm_compute. reflexivity.
  - vm_compute. repeat constructor.
  - reflexivity.
  - reflexivity.
  - reflexivity.
  - intros rand m. eexists. reflexivity.
  - apply ran. vm_compute. reflexivity.
Defined.
End SampleProxy.
