(* ===== verification/StreamReader.v ===== *)
(** * Readers of sockets

    [discriminator.rs], the discriminator factories, [sub_lib/sequencer.rs],
    [stream_reader.rs], and the ports the node listens on
    ([PortConfiguration] of [bootstrapper.rs], [establish_port_configurations] of
    [node_configurator_standard.rs]).  A reader takes what comes from a socket to
    the discriminators of its port, numbers the messages it finds and gives them
    to the Dispatcher.  On the TLS port the first bytes are held back until it is
    known whether they are a [CONNECT] request. *)

From Stdlib Require Import ZArith Lia String Ascii.
From stdpp Require Import base list numbers option gmap.
From S2P Require Import Prelude Text NodeRecord Hopper ProtocolPack Framers HttpFramer ProxyServer.

Local Open Scope Z_scope.
Local Open Scope rust_scope.
Local Open Scope list_scope.

(** ** Discriminators *)

(** The framers behind the trait *)
Inductive Framer :=
| FJson (f : JsonFramer.JsonFramer)
| FTls (f : TlsFramer.TlsFramer)
| FHttp (f : HttpFramerState).
Definition framer_add_data (data : list Z) (f : Framer) : Framer :=
  match f with
  | FJson f => FJson (JsonFramer.add_data data f)
  | FTls f => FTls (TlsFramer.add_data data f)
  | FHttp f => FHttp (http_add_data data f)
  end.
Definition framer_take_frame (f : Framer) : exec (option FramedChunk * Framer) :=
  match f with
  | FJson f => let* r := JsonFramer.take_frame f in Ret (r.1, FJson r.2)
  | FTls f => let* r := TlsFramer.take_frame f in Ret (r.1, FTls r.2)
  | FHttp f => let* r := http_take_frame f in Ret (r.1, FHttp r.2)
  end.

Record Discriminator := mkDiscriminator { framer : Framer; masqueraders : list Masquerader }.

Definition discriminator_new (f : Framer) (ms : list Masquerader) : exec Discriminator :=
  match ms with [] => Panic | _ => Ret (mkDiscriminator f ms) end.
Definition discriminator_add_data (data : list Z) (d : Discriminator) : Discriminator :=
  mkDiscriminator (framer_add_data data (framer d)) (masqueraders d).

Section Readers.
Context `{HJ : JsonCrate}.

(** The first masquerader that reads the frame *)
Fixpoint first_unmasked (ms : list Masquerader) (chunk : list Z) : option UnmaskedChunk :=
  match ms with
  | [] => None
  | m :: ms =>
      match try_unmask m chunk with
      | Ok unmasked => Some unmasked
      | Err _ => first_unmasked ms chunk
      end
  end.
Definition take_chunk (d : Discriminator) : exec (option UnmaskedChunk * Discriminator) :=
  let* taken := framer_take_frame (framer d) in
  let d := mkDiscriminator taken.2 (masqueraders d) in
  Ret (match taken.1 with
       | Some frame => first_unmasked (masqueraders d) (fc_chunk frame)
       | None => None
       end, d).

Inductive DiscriminatorFactory :=
| JsonDiscriminatorFactory
| TlsDiscriminatorFactory
| HttpRequestDiscriminatorFactory.
Definition make (f : DiscriminatorFactory) : exec Discriminator :=
  match f with
  | JsonDiscriminatorFactory => discriminator_new (FJson JsonFramer.new) [JsonMasquerader]
  | TlsDiscriminatorFactory => discriminator_new (FTls TlsFramer.new) [NullMasquerader]
  | HttpRequestDiscriminatorFactory => discriminator_new (FHttp http_new) [NullMasquerader]
  end.

(** ** Ports *)

Record PortConfiguration := mkPortConfiguration {
  discriminator_factories : list DiscriminatorFactory;
  pc_is_clandestine : bool;
  reception_port_override : option Z;
}.
Definition port_configuration_new (fs : list DiscriminatorFactory) (clandestine : bool) : PortConfiguration :=
  mkPortConfiguration fs clandestine None.
Definition port_configuration_with_reception_port (fs : list DiscriminatorFactory) (clandestine : bool) (port : Z)
    : PortConfiguration := mkPortConfiguration fs clandestine (Some port).
Definition pc_reception_port (c : PortConfiguration) (bound_port : Z) : Z :=
  match reception_port_override c with Some port => port | None => bound_port end.

Definition establish_port_configurations (port_configurations : gmap Z PortConfiguration)
    (mobile_proxy_port_opt : option Z) : gmap Z PortConfiguration :=
  match mobile_proxy_port_opt with
  | Some mobile_proxy_port =>
      <[mobile_proxy_port := port_configuration_with_reception_port
          [TlsDiscriminatorFactory; HttpRequestDiscriminatorFactory] false TLS_PORT]> port_configurations
  | None =>
      <[TLS_PORT := port_configuration_new [TlsDiscriminatorFactory; HttpRequestDiscriminatorFactory] false]>
        (<[HTTP_PORT := port_configuration_new [HttpRequestDiscriminatorFactory] false]> port_configurations)
  end.

(** ** The reader *)

Record Sequencer := mkSequencer { current_sequence_number : Z }.
Definition next_sequence_number (s : Sequencer) : exec (Z * Sequencer) :=
  let sn := current_sequence_number s in
  let* next := expect (checked_add 64 sn 1) in
  Ret (sn, mkSequencer next).

Record StreamReaderReal := mkReader {
  sr_local_addr : SocketAddr;
  sr_peer_addr : SocketAddr;
  sr_reception_port_opt : option Z;
  discriminators : list Discriminator;
  sr_is_clandestine : bool;
  sequencer : Sequencer;
  connect_probe_opt : option (list Z);
}.
Definition with_discriminators (ds : list Discriminator) (r : StreamReaderReal) : StreamReaderReal :=
  mkReader (sr_local_addr r) (sr_peer_addr r) (sr_reception_port_opt r) ds (sr_is_clandestine r) (sequencer r)
    (connect_probe_opt r).
Definition with_sequencer (s : Sequencer) (r : StreamReaderReal) : StreamReaderReal :=
  mkReader (sr_local_addr r) (sr_peer_addr r) (sr_reception_port_opt r) (discriminators r) (sr_is_clandestine r) s
    (connect_probe_opt r).
Definition with_probe (p : option (list Z)) (r : StreamReaderReal) : StreamReaderReal :=
  mkReader (sr_local_addr r) (sr_peer_addr r) (sr_reception_port_opt r) (discriminators r) (sr_is_clandestine r)
    (sequencer r) p.

Fixpoint make_all (fs : list DiscriminatorFactory) : exec (list Discriminator) :=
  match fs with
  | [] => Ret []
  | f :: fs => let* d := make f in let* ds := make_all fs in Ret (d :: ds)
  end.
Definition reader_new (reception_port_opt : option Z) (fs : list DiscriminatorFactory) (is_clandestine : bool)
    (peer local : SocketAddr) : exec StreamReaderReal :=
  match fs with
  | [] => Panic
  | _ =>
      let* ds := make_all fs in
      Ret (mkReader local peer reception_port_opt ds is_clandestine (mkSequencer 0)
             (if (1 <? length ds)%nat then Some [] else None))
  end.

(** What the reader sends: messages to the Dispatcher, and to the pool of
    streams that this one is to be removed. *)
Record RemoveStreamMsg := mkRemove {
  rm_local_addr : SocketAddr;
  rm_peer_addr : SocketAddr;
  rm_stream_type : RemovedStreamType;
}.
Inductive Sent := ToDispatcher (d : InboundClientData) | ToPool (m : RemoveStreamMsg).

(** The clock, and whether the Dispatcher takes the message that is sent next;
    by how many have been sent. *)
Record ReaderEnv := mkReaderEnv { clock : nat → Z; accepts : nat → bool }.
Context (env : ReaderEnv).

Definition inbound (r : StreamReaderReal) (sent : list Sent) (seq : option Z) (data : list Z) : InboundClientData :=
  mkInbound (clock env (length sent)) (sr_peer_addr r) (sr_reception_port_opt r) false (sr_is_clandestine r) seq data.

(** The bytes a framer has: the most frames it can still hand out *)
Definition framer_holds (f : Framer) : nat :=
  match f with
  | FJson f => length (JsonFramer.data_so_far f)
  | FTls f => length (TlsFramer.data_so_far f)
  | FHttp f => length (held f)
  end.

(** The loop of [process_discriminator_data]; it does not run out of fuel
    ([process_returns]). *)
Fixpoint process_loop (fuel : nat) (discriminator_index : nat) (is_connect : bool)
    (r : StreamReaderReal) (sent : list Sent) : exec (result unit string * StreamReaderReal * list Sent) :=
  match fuel with
  | O => Panic
  | S fuel =>
      let* d := expect (discriminators r !! discriminator_index) in
      let* taken := take_chunk d in
      let r := with_discriminators (<[discriminator_index := taken.2]> (discriminators r)) r in
      match taken.1 with
      | None => Ret (Ok (), r, sent)
      | Some unmasked_chunk =>
          let* numbered :=
            if uc_sequenced unmasked_chunk && negb is_connect then
              let* n := next_sequence_number (sequencer r) in
              Ret (Some n.1, with_sequencer n.2 r)
            else if is_connect then Ret (Some 0, r)
            else Ret (None, r) in
          let '(sequence_number_opt, r) := numbered in
          if accepts env (length sent) then
            process_loop fuel discriminator_index is_connect r
              (sent ++ [ToDispatcher (inbound r sent sequence_number_opt (uc_chunk unmasked_chunk))])
          else Ret (Err "Dispatcher rejected inbound data"%string, r, sent)
      end
  end.
Definition process_discriminator_data (discriminator_index : nat) (data : list Z) (is_connect : bool)
    (r : StreamReaderReal) (sent : list Sent) : exec (result unit string * StreamReaderReal * list Sent) :=
  let* d := expect (discriminators r !! discriminator_index) in
  let d := discriminator_add_data data d in
  process_loop (S (framer_holds (framer d))) discriminator_index is_connect
    (with_discriminators (<[discriminator_index := d]> (discriminators r)) r) sent.

Definition CONNECT_PREFIX : list Z := string_bytes "CONNECT ".

Definition wrangle_discriminators (data : list Z) (r : StreamReaderReal) (sent : list Sent)
    : exec (result unit string * StreamReaderReal * list Sent) :=
  match connect_probe_opt r with
  | None => process_discriminator_data 0 data false r sent
  | Some connect_probe =>
      let r := with_probe None r in
      let connect_probe := connect_probe ++ data in
      if starts_with connect_probe CONNECT_PREFIX then Ret (Ok (), with_probe (Some connect_probe) r, sent)
      else if negb (starts_with CONNECT_PREFIX connect_probe)
      then process_discriminator_data 0 connect_probe false r sent
      else
        match index_of connect_probe DOUBLE_CRLF with
        | None =>
            Ret (Ok (), if MAX_HTTP_HEADER_BYTES <? Z.of_nat (length connect_probe) then r
                        else with_probe (Some connect_probe) r, sent)
        | Some offset =>
            let header_end := (offset + 4)%nat in
            let* parts := split_off connect_probe header_end in
            let* done_ := process_discriminator_data 1 parts.1 true r sent in
            match done_ with
            | (Err e, r, sent) => Ret (Err e, r, sent)
            | (Ok _, r, sent) =>
                match parts.2 with
                | [] => Ret (Ok (), r, sent)
                | tls_data => process_discriminator_data 0 tls_data false r sent
                end
            end
        end
  end.

Definition shutdown (r : StreamReaderReal) (sent : list Sent) : exec (StreamReaderReal * list Sent) :=
  let* stream_type :=
    if sr_is_clandestine r then Ret (Some Clandestine, r)
    else
      match sr_reception_port_opt r with
      | Some reception_port =>
          let* n := next_sequence_number (sequencer r) in
          Ret (Some (NonClandestine (mkNonClandestine reception_port n.1)), with_sequencer n.2 r)
      | None => Ret (None, r)
      end in
  let '(stream_type_opt, r) := stream_type in
  Ret (r, match stream_type_opt with
          | Some stream_type => sent ++ [ToPool (mkRemove (sr_local_addr r) (sr_peer_addr r) stream_type)]
          | None => sent
          end).

(** ** Polls *)

Inductive ErrorKind :=
| NotFound | PermissionDenied | ConnectionRefused | ConnectionReset | ConnectionAborted | NotConnected | AddrInUse
| AddrNotAvailable | BrokenPipe | AlreadyExists | WouldBlock | InvalidInput | InvalidData | TimedOut | WriteZero
| Interrupted | Other | UnexpectedEof.
Definition indicates_dead_stream (kind : ErrorKind) : bool :=
  match kind with
  | BrokenPipe | ConnectionAborted | ConnectionReset | ConnectionRefused | TimedOut => true
  | _ => false
  end.
Definition MAX_CONSECUTIVE_READ_ERRORS : nat := 8.

(** What [poll_read] returns: bytes (none when the stream is closed), or an
    error; when the list ends it is not ready. *)
Inductive Read := Bytes (data : list Z) | ReadError (kind : ErrorKind).
Inductive Polled := NotReady | Ready | Failed.

Definition shut (p : Polled) (r : StreamReaderReal) (sent : list Sent) : exec (Polled * StreamReaderReal * list Sent) :=
  let* s := shutdown r sent in Ret (p, s.1, s.2).

Fixpoint poll_loop (reads : list Read) (consecutive_read_errors : nat) (r : StreamReaderReal) (sent : list Sent)
    : exec (Polled * StreamReaderReal * list Sent) :=
  match reads with
  | [] => Ret (NotReady, r, sent)
  | Bytes [] :: _ => shut Ready r sent
  | Bytes data :: reads =>
      let* w := wrangle_discriminators data r sent in
      match w with
      | (Ok _, r, sent) => poll_loop reads O r sent
      | (Err _, r, sent) => shut Failed r sent
      end
  | ReadError kind :: reads =>
      if indicates_dead_stream kind then shut Failed r sent
      else
        let consecutive_read_errors := S consecutive_read_errors in
        if (MAX_CONSECUTIVE_READ_ERRORS <=? consecutive_read_errors)%nat then shut Failed r sent
        else poll_loop reads consecutive_read_errors r sent
  end.
Definition poll (reads : list Read) (r : StreamReaderReal) (sent : list Sent)
    : exec (Polled * StreamReaderReal * list Sent) := poll_loop reads O r sent.

(** The executor polls until the future is ready. *)
Fixpoint run_polls (polls : list (list Read)) (r : StreamReaderReal) (sent : list Sent)
    : exec (Polled * StreamReaderReal * list Sent) :=
  match polls with
  | [] => Ret (NotReady, r, sent)
  | reads :: polls =>
      let* p := poll reads r sent in
      match p with
      | (NotReady, r, sent) => run_polls polls r sent
      | (Ready, r, sent) => Ret (Ready, r, sent)
      | (Failed, r, sent) => Ret (Failed, r, sent)
      end
  end.

End Readers.
