(* ===== verification/StreamSafety.v ===== *)
(** * Readers survive what comes from their sockets

    Whatever bytes and errors a socket gives, in whatever pieces, a reader
    never panics; and what a reader of the mobile node's port gives to the
    Dispatcher is data the ProxyServer expects. *)

From Stdlib Require Import ZArith Lia String Ascii.
From stdpp Require Import base list numbers option gmap.
From S2P Require Import Prelude Text NodeRecord Migrations Hopper ProtocolPack ProtocolHosts Framers HttpFramer HttpFraming ProxyServer ProxyStreams ProxyRun StreamReader.
Import JsonFraming TlsFraming.

Local Open Scope Z_scope.
Local Open Scope rust_scope.
Local Open Scope list_scope.

(** ** What a framer promises to its discriminator *)

Definition framer_ok (f : Framer) : Prop :=
  match f with
  | FJson f => Z.of_nat (length (JsonFramer.data_so_far f)) ≤ JsonFramer.MAX_JSON_FRAME_BYTES
  | FTls _ => True
  | FHttp f => http_ok f
  end.

(** A framer of a port answers every call, and each frame uses up some of its
    bytes. *)
Lemma framer_takes f : framer_ok f → ∃ o f', framer_take_frame f = Ret (o, f') ∧ framer_ok f' ∧
  match o with Some fr => (framer_holds f' < framer_holds f)%nat | None => (framer_holds f' <= framer_holds f)%nat end.
Proof.
  destruct f as [f|f|f]; cbn [framer_ok framer_take_frame framer_holds]; intros Hf.
  - destruct (take_frame_spec f Hf) as [(s & k & f' & -> & Hk & Hd)|(n & f' & -> & Hd)]; cbn [exec_bind fst snd];
      eexists _, _; (split; [reflexivity|]); cbn [framer_ok framer_holds]; rewrite Hd, length_drop; split; lia.
  - destruct (tls_take_frame_spec f) as (o & f' & -> & Ho). cbn [exec_bind fst snd]. eexists _, _. split; [reflexivity|].
    split; [done|]. cbn [framer_holds]. destruct o as [fr|].
    + destruct Ho as (pre & -> & Hl & _). rewrite !length_app. lia.
    + destruct Ho as [n ->]. rewrite length_drop. lia.
  - destruct (http_take_frame_spec f Hf) as (o & f' & -> & Hok & Ho). cbn [exec_bind fst snd]. eexists _, _.
    split; [reflexivity|]. split; [done|]. cbn [framer_holds]. destruct o as [fr|]; [|done].
    destruct Ho as [Hne Hle]. destruct (fc_chunk fr); [done|]. cbn in Hle. lia.
Qed.
Lemma framer_adds data f : framer_ok f → framer_ok (framer_add_data data f) ∧
  (framer_holds (framer_add_data data f) <= framer_holds f + length data)%nat.
Proof.
  destruct f as [f|f|f]; cbn [framer_ok framer_add_data framer_holds]; intros Hf.
  - pose proof (add_data_bounded data f). unfold JsonFramer.add_data in *.
    case_match; cbn in *; [lia|]. rewrite length_app in *. lia.
  - cbn. rewrite length_app. by split.
  - split; [by apply http_add_data_ok|]. unfold held, http_add_data. cbn. rewrite !length_app. lia.
Qed.

Section Safety.
Context `{HJ : JsonCrate} (env : ReaderEnv).

Definition discriminator_ok (d : Discriminator) : Prop := framer_ok (framer d).
Definition holds (d : Discriminator) : nat := framer_holds (framer d).

Lemma chunk_taken d : discriminator_ok d → ∃ o d', take_chunk d = Ret (o, d') ∧ discriminator_ok d' ∧ (holds d' <= holds d)%nat ∧
  (is_Some o → (holds d' < holds d)%nat).
Proof.
  intros Hd. unfold take_chunk. destruct (framer_takes (framer d) Hd) as (o & f' & -> & Hok & Ho). cbn [exec_bind fst snd].
  eexists _, _. split; [reflexivity|]. split; [done|]. unfold holds. cbn [framer]. destruct o; (split; [lia|]); [done|].
  by intros [? ?].
Qed.

(** ** The reader *)

Fixpoint holds_all (ds : list Discriminator) : nat :=
  match ds with [] => O | d :: ds => (holds d + holds_all ds)%nat end.
Definition probed (r : StreamReaderReal) : nat := match connect_probe_opt r with Some p => length p | None => O end.
(** The messages the reader has numbered and those it could still number: no
    more than it has read bytes. *)
Definition potential (r : StreamReaderReal) : Z :=
  current_sequence_number (sequencer r) + Z.of_nat (holds_all (discriminators r) + probed r).
Definition reader_ok (r : StreamReaderReal) : Prop :=
  Forall discriminator_ok (discriminators r) ∧ discriminators r ≠ [] ∧ 0 ≤ current_sequence_number (sequencer r) ∧
  (is_Some (connect_probe_opt r) → (1 < length (discriminators r))%nat).
Definition same_socket (r r' : StreamReaderReal) : Prop :=
  sr_local_addr r' = sr_local_addr r ∧ sr_peer_addr r' = sr_peer_addr r ∧
  sr_reception_port_opt r' = sr_reception_port_opt r ∧ sr_is_clandestine r' = sr_is_clandestine r.

#[global] Instance same_socket_preorder : PreOrder same_socket.
Proof. split; [by intros ?; split_and!|]. intros r1 r2 r3 (? & ? & ? & ?) (? & ? & ? & ?). split_and!; congruence. Qed.

(** A message with data of this reader's socket *)
Definition from_socket (r : StreamReaderReal) (Q : list Z → Prop) (m : Sent) : Prop :=
  ∃ t n data, m = ToDispatcher (mkInbound t (sr_peer_addr r) (sr_reception_port_opt r) false (sr_is_clandestine r) n data) ∧ Q data.
Lemma from_socket_same r r' Q m : same_socket r r' → from_socket r' Q m → from_socket r Q m.
Proof. intros (_ & H1 & H2 & H3) (t & n & data & -> & HQ). exists t, n, data. by rewrite H1, H2, H3. Qed.
Lemma from_socket_weaken r (Q Q' : list Z → Prop) m : (∀ c, Q c → Q' c) → from_socket r Q m → from_socket r Q' m.
Proof. intros H (t & n & data & -> & HQ). exists t, n, data. split; [done|]. by apply H. Qed.

Lemma holds_all_insert ds i d d' : ds !! i = Some d →
  (holds_all (<[i := d']> ds) + holds d = holds_all ds + holds d')%nat.
Proof.
  revert i. induction ds as [|x ds IH]; intros [|i] H; try done.
  - injection H as ->. change (<[O:=d']> (d :: ds)) with (d' :: ds). cbn [holds_all]. lia.
  - change (<[S i:=d']> (x :: ds)) with (x :: <[i:=d']> ds). specialize (IH i H). cbn [holds_all] in *. lia.
Qed.

Lemma reader_ok_insert r i d : reader_ok r → discriminator_ok d →
  reader_ok (with_discriminators (<[i := d]> (discriminators r)) r).
Proof.
  intros (H1 & H2 & H3 & H4) Hd. split_and!; cbn [discriminators with_discriminators sequencer connect_probe_opt]; try done.
  - by apply Forall_insert.
  - intros Hnil. apply (f_equal length) in Hnil. rewrite length_insert in Hnil. by destruct (discriminators r).
  - by rewrite length_insert.
Qed.

Lemma number_next (s : Sequencer) : 0 ≤ current_sequence_number s → current_sequence_number s < 2 ^ 64 - 1 →
  next_sequence_number s = Ret (current_sequence_number s, mkSequencer (current_sequence_number s + 1)).
Proof. intros H0 H1. unfold next_sequence_number, checked_add. by rewrite decide_True by (unfold in_u; lia). Qed.

(** The loop over a discriminator ends; what it sends has what the
    discriminator promises of its chunks. *)
Lemma process_loop_spec (G H : Discriminator → Prop) (Q : list Z → Prop) i is_connect :
  (∀ d o d', G d → take_chunk d = Ret (o, d') → H d' ∧ ∀ uc, o = Some uc → G d' ∧ Q (uc_chunk uc)) → ∀ fuel r sent d,
  reader_ok r → potential r < 2 ^ 64 - 1 → discriminators r !! i = Some d → (holds d < fuel)%nat → G d →
  ∃ res r' out, process_loop env fuel i is_connect r sent = Ret (res, r', sent ++ out) ∧
    reader_ok r' ∧ potential r' ≤ potential r ∧ same_socket r r' ∧ connect_probe_opt r' = connect_probe_opt r ∧
    (∃ d', H d' ∧ discriminators r' = <[i := d']> (discriminators r)) ∧ Forall (from_socket r Q) out.
Proof.
  intros HG. induction fuel as [|fuel IH]; intros r sent d Hr Hpot Hd Hfuel HGd; [lia|]. cbn [process_loop].
  rewrite Hd. cbn [expect exec_bind]. pose proof Hr as (Hds & _ & Hseq & _).
  assert (discriminator_ok d) as Hdok by (eapply Forall_lookup_1; done).
  destruct (chunk_taken d Hdok) as (o & d' & Htake & Hok' & Hle & Hlt). rewrite Htake. cbn [exec_bind fst snd].
  set (r1 := with_discriminators _ r). pose proof (holds_all_insert _ _ _ d' Hd) as Hsum.
  assert (reader_ok r1) as Hr1 by (by apply reader_ok_insert).
  pose proof (proj1 (HG d _ d' HGd Htake)) as HHd'.
  destruct o as [uc|].
  - specialize (Hlt ltac:(by eexists)). destruct (proj2 (HG d _ d' HGd Htake) uc eq_refl) as [HGd' HQ].
    assert (∃ n r2, (if uc_sequenced uc && negb is_connect
        then let* n := next_sequence_number (sequencer r1) in Ret (Some n.1, with_sequencer n.2 r1)
        else if is_connect then Ret (Some 0, r1) else Ret (None, r1)) = Ret (n, r2) ∧
      reader_ok r2 ∧ potential r2 ≤ potential r ∧ same_socket r r2 ∧ connect_probe_opt r2 = connect_probe_opt r ∧
      discriminators r2 = <[i := d']> (discriminators r)) as (n & r2 & -> & Hr2 & Hpot2 & Hsame & Hprobe & Hds2).
    { unfold potential in *. destruct (uc_sequenced uc && negb is_connect).
      - rewrite number_next by (cbn; lia). cbn [exec_bind fst snd]. eexists _, _. split; [reflexivity|].
        split_and!; try done; cbn [with_sequencer sequencer discriminators current_sequence_number probed connect_probe_opt with_discriminators r1] in *;
          try (destruct Hr1 as (? & ? & ? & ?); split_and!; try done; cbn in *; lia). unfold probed in *. cbn. lia.
      - destruct is_connect; eexists _, _; (split; [reflexivity|]); split_and!; try done;
          unfold potential, probed in *; cbn; lia. }
    cbn [exec_bind]. destruct (accepts env (length sent)).
    + destruct (IH r2 (sent ++ [ToDispatcher (inbound env r2 sent n (uc_chunk uc))]) d') as
        (res & r3 & out & -> & Hr3 & Hpot3 & Hsame3 & Hprobe3 & (d3 & HHd3 & Hds3) & Hout).
      * done.
      * lia.
      * rewrite Hds2. apply list_lookup_insert_eq. by eapply lookup_lt_Some.
      * lia.
      * done.
      * exists res, r3, (ToDispatcher (inbound env r2 sent n (uc_chunk uc)) :: out). rewrite <- app_assoc.
        split_and!; [done|done|lia|by etransitivity|congruence| |].
        -- exists d3. split; [done|]. by rewrite Hds3, Hds2, list_insert_insert_eq.
        -- constructor; [|eapply Forall_impl; [done|]; intros ?; by apply from_socket_same].
           eapply from_socket_same; [exact Hsame|]. by eexists _, _, _.
    + eexists _, _, []. rewrite app_nil_r. split_and!; try done. by eexists.
  - eexists _, _, []. rewrite app_nil_r. split_and!; try done; [|by eexists].
    unfold potential, probed in *. cbn. lia.
Qed.

Lemma process_returns (G H : Discriminator → Prop) (Q : list Z → Prop) i data is_connect r sent d :
  (∀ d o d', G d → take_chunk d = Ret (o, d') → H d' ∧ ∀ uc, o = Some uc → G d' ∧ Q (uc_chunk uc)) →
  reader_ok r → potential r + Z.of_nat (length data) < 2 ^ 64 - 1 → discriminators r !! i = Some d →
  G (discriminator_add_data data d) →
  ∃ res r' out, process_discriminator_data env i data is_connect r sent = Ret (res, r', sent ++ out) ∧
    reader_ok r' ∧ potential r' ≤ potential r + Z.of_nat (length data) ∧ same_socket r r' ∧
    connect_probe_opt r' = connect_probe_opt r ∧
    (∃ d', H d' ∧ discriminators r' = <[i := d']> (discriminators r)) ∧ Forall (from_socket r Q) out.
Proof.
  intros HG Hr Hpot Hd HGd. unfold process_discriminator_data. rewrite Hd. cbn [expect exec_bind].
  pose proof Hr as (Hds & _ & Hseq & _). assert (discriminator_ok d) as Hdok by (eapply Forall_lookup_1; done).
  destruct (framer_adds data (framer d) Hdok) as [Hok Hle]. set (d1 := discriminator_add_data data d) in *.
  pose proof (holds_all_insert _ _ _ d1 Hd) as Hsum. change (framer_holds (framer_add_data data (framer d))) with (holds d1) in Hle.
  change (framer_holds (framer d)) with (holds d) in Hle.
  set (r1 := with_discriminators _ r). assert (potential r1 ≤ potential r + Z.of_nat (length data)) as Hpot1.
  { unfold potential, probed, r1 in *. cbn. lia. }
  destruct (process_loop_spec G H Q i is_connect HG (S (framer_holds (framer d1))) r1 sent d1) as
    (res & r' & out & -> & Hr' & Hp' & Hs & Hpr & (d' & HHd' & Hds') & Hout).
  - by apply reader_ok_insert.
  - lia.
  - cbn. apply list_lookup_insert_eq. by eapply lookup_lt_Some.
  - unfold holds. lia.
  - done.
  - exists res, r', out. split_and!; try done; [lia|]. exists d'. split; [done|]. rewrite Hds'. cbn. by rewrite list_insert_insert_eq.
Qed.

End Safety.

(** ** The header of a [CONNECT] request is one frame *)

Lemma index_from_first h n i : n ≠ [] → index_from h n = Some i →
  starts_with n (drop i h) = true ∧ ∀ j, starts_with n (drop j h) = true → (i <= j)%nat.
Proof.
  intros Hn. revert i. induction h as [|b h IH]; intros i; [done|]. cbn [index_from].
  destruct (starts_with n (b :: h)) eqn:E; [intros [= <-]; split; [done|lia]|].
  destruct (index_from h n) as [k|]; [|done]. intros [= <-]. destruct (IH k eq_refl) as [H1 H2]. split; [done|].
  intros [|j] Hj; [by rewrite drop_0, E in Hj|]. apply le_n_S, H2. done.
Qed.
Lemma index_from_suffix a : ∀ b n p, index_from (a ++ b) n = Some p → (length a <= p)%nat →
  index_from b n = Some (p - length a)%nat.
Proof.
  induction a as [|x a IH]; intros b n p; cbn [app length]; [by rewrite Nat.sub_0_r|]. cbn [index_from].
  destruct (starts_with n (x :: a ++ b)); [intros [= <-]; lia|].
  destruct (index_from (a ++ b) n) as [k|] eqn:E; [|done]. intros [= <-] Hle. rewrite (IH b n k E) by lia. f_equal.
Qed.
Lemma starts_with_CRLF_tail l : starts_with DOUBLE_CRLF l = true → starts_with CRLF l = true ∧ starts_with CRLF (drop 2 l) = true.
Proof. rewrite !starts_with_spec. intros [rest ->]. by split; eexists. Qed.

(** Behind a line that is not empty the first empty line is where it was. *)
Lemma line_before_end l d p :
  index_from (l ++ CRLF ++ d) CRLF = Some (length l) → l ≠ [] →
  index_from (CRLF ++ l ++ CRLF ++ d) DOUBLE_CRLF = Some p →
  (length l + 2 <= p)%nat ∧ index_from (CRLF ++ d) DOUBLE_CRLF = Some (p - (length l + 2))%nat.
Proof.
  intros Hl Hne Hp. destruct (index_from_first _ CRLF _ ltac:(done) Hl) as [_ Hfirst].
  destruct (index_from_first _ DOUBLE_CRLF _ ltac:(done) Hp) as [Hat _]. apply starts_with_CRLF_tail in Hat as [H1 H2].
  rewrite drop_drop in H2.
  assert (length l <= p)%nat as Hle.
  { apply Hfirst. by replace (p + 2)%nat with (2 + p)%nat in H2 by lia. }
  assert (length l + 2 <= p)%nat as Hle2.
  { destruct p as [|[|p]]; [destruct l; [done|cbn in Hle; lia]|done|].
    pose proof (Hfirst p H1). lia. }
  split; [done|]. replace (length l + 2)%nat with (length (CRLF ++ l)) by (rewrite length_app; cbn; lia).
  apply index_from_suffix; [by rewrite <- app_assoc|]. rewrite length_app. cbn. lia.
Qed.

Lemma connect_loop fuel : ∀ s s',
  http_ok s → index_from (CRLF ++ data_so_far s) DOUBLE_CRLF = Some (length (data_so_far s) - 2)%nat →
  (2 <= length (data_so_far s))%nat → body_start_loop fuel s = Ret (true, s') →
  data_so_far s' = [] ∧ concat (lines s') = concat (lines s) ++ data_so_far s.
Proof.
  induction fuel as [|fuel IH]; intros s s' Hs Hend H2; [done|]. cbn [body_start_loop]. case_bool_decide; [|done].
  destruct (index_of (data_so_far s) CRLF) as [i|] eqn:Ei; [|done]. case_match; [done|].
  pose proof (index_of_bound _ _ _ Ei) as Hb. cbn [length CRLF] in Hb. change (index_of ?h CRLF) with (index_from h CRLF) in Ei.
  destruct (index_from_first _ CRLF _ ltac:(done) Ei) as [Hat _]. apply starts_with_spec in Hat as [d Hd].
  rewrite split_off_Ret by lia. cbn [exec_bind fst snd]. set (line := take _ _). set (rest := drop _ _).
  assert (∃ l, length l = i ∧ data_so_far s = l ++ CRLF ++ d) as (l & Hli & Hcut).
  { exists (take i (data_so_far s)). rewrite length_take, <- Hd, take_drop. split; [lia|done]. }
  assert (line = l ++ CRLF ∧ rest = d) as [Hl ->].
  { unfold line, rest. rewrite Hcut, app_assoc. replace (i + 2)%nat with (length (l ++ CRLF)) by (rewrite length_app; cbn; lia).
    by rewrite take_app_length, drop_app_length. }
  assert (line ++ d = data_so_far s) as Hline by (by rewrite Hl, Hcut, <- app_assoc).
  destruct (content_length_spec line (with_data d s) ltac:(done)) as (b1 & s1 & -> & Hs1 & Hd1 & _ & _ & Hb1).
  destruct b1; [|done]. cbn [negb]. destruct (Hb1 eq_refl) as [Hl1 _].
  destruct (transfer_encoding_spec line s1 Hs1) as (b2 & s2 & -> & Hs2 & Hd2 & _ & _ & Hb2).
  destruct b2; [|done]. cbn [negb]. destruct (Hb2 eq_refl) as [Hl2 _].
  assert (length line = i + 2)%nat as Hll by (rewrite Hl, length_app; cbn; lia).
  assert (concat (lines s2 ++ [line]) ++ d = concat (lines s) ++ data_so_far s) as Hcc.
  { rewrite concat_app, Hl2, Hl1. cbn. rewrite app_nil_r, <- app_assoc, Hline. done. }
  unfold check_for_zero_length. rewrite Hll. destruct i as [|i]; cbn [Nat.add Nat.eqb negb].
  - intros [= <-]. cbn. assert (d = []) as ->.
    { destruct l; [|done]. rewrite Hcut in Hend. cbn in Hend. apply nil_length_inv. injection Hend. lia. }
    rewrite Hd2, Hd1. split; [done|]. by rewrite app_nil_r in Hcc.
  - replace (i + 2 =? 1)%nat with false by (symmetry; apply Nat.eqb_neq; lia). cbn [negb].
    destruct (line_before_end l d (length (data_so_far s) - 2)) as [Hle Hend'].
    { by rewrite <- Hcut, Hli. }
    { intros Hnil. by rewrite Hnil in Hli. }
    { by rewrite <- Hcut. }
    rewrite Hli in *. assert (length (data_so_far s) = S i + 2 + length d)%nat as Hlen.
    { rewrite Hcut, !length_app, Hli. cbn. lia. }
    intros Hloop. destruct (IH (with_lines (lines s2 ++ [line]) s2) s') as [Hs'1 Hs'2]; [| | |exact Hloop|].
    + destruct Hs2 as (? & ? & ? & ?). split_and!; try done. cbn [lines with_lines]. apply Forall_app. split; [done|].
      constructor; [rewrite Hll; lia|done].
    + cbn [with_lines data_so_far]. rewrite Hd2, Hd1. cbn [with_data data_so_far]. rewrite Hend'. f_equal. lia.
    + cbn [with_lines data_so_far]. rewrite Hd2, Hd1. cbn [with_data data_so_far]. lia.
    + split; [done|]. rewrite Hs'2. cbn [lines with_lines data_so_far]. rewrite Hd2, Hd1. exact Hcc.
Qed.

Lemma connect_frame probe fr h :
  starts_with CONNECT_PREFIX probe = true → index_of probe DOUBLE_CRLF = Some (length probe - 4)%nat →
  http_take_frame (http_add_data probe http_new) = Ret (Some fr, h) → fc_chunk fr = probe ∧ held h = [].
Proof.
  intros [rest Hprobe]%starts_with_spec Hend. unfold http_take_frame. change (http_add_data probe http_new) with (at_start probe).
  rewrite bool_decide_eq_false_2 by done. unfold take_packet_frame. cbn [at_start packet_progress_state].
  rewrite bool_decide_eq_true_2 by done.
  set (s1 := mkHttp probe SeekingBodyStart 0 Standard NoChunk None []).
  assert (seek_packet_start (at_start probe) = Ret (true, s1)) as ->.
  { unfold seek_packet_start. cbn [at_start packet_progress_state data_so_far]. rewrite bool_decide_eq_true_2 by done.
    rewrite minimum_zero; [rewrite split_off_Ret by lia; cbn [exec_bind snd]; by rewrite drop_0|].
    apply list_elem_of_omap. exists (string_bytes "CONNECT"). split; [apply list_elem_of_In; vm_compute; tauto|].
    rewrite Hprobe. reflexivity. }
  cbn [exec_bind negb s1 packet_progress_state]. rewrite bool_decide_eq_true_2 by done. fold s1. unfold seek_body_start.
  assert (index_from (CRLF ++ probe) DOUBLE_CRLF = Some (length probe - 2)%nat ∧ (4 <= length probe)%nat) as [Hcr Hlen].
  { pose proof (index_of_bound _ _ _ Hend) as Hb. cbn [length DOUBLE_CRLF] in Hb. split; [|lia].
    change (index_of probe DOUBLE_CRLF) with (index_from probe DOUBLE_CRLF) in Hend.
    assert (index_from (CRLF ++ probe) DOUBLE_CRLF = S <$> (S <$> index_from probe DOUBLE_CRLF)) as -> by (by rewrite Hprobe).
    rewrite Hend. cbn. f_equal. lia. }
  destruct (body_start_spec (S (length (data_so_far s1))) s1) as (b & s2 & Hloop & Hs2 & _); [by split_and!; try constructor|cbn; lia|done|].
  rewrite Hloop. cbn [exec_bind]. destruct b; [|done]. cbn [negb].
  apply connect_loop in Hloop as [Hd Hl]; [|by split_and!; try constructor|done|cbn; lia]. cbn [s1 lines data_so_far concat app] in Hl.
  case_bool_decide as Hpp; [|done]. unfold seek_body_end. rewrite Hpp, bool_decide_eq_true_2 by done. cbn [negb]. rewrite Hd.
  destruct Hs2 as (Hcl & _). unfold in_u in Hcl. rewrite Z.min_l by (cbn; lia). cbn [length Z.of_nat Z.to_nat].
  destruct (lines s2) as [|l ls] eqn:El; [by rewrite Hprobe in Hl|]. cbn [negb andb].
  change (split_off [] (Z.to_nat (Z.of_nat 0))) with (@Ret (list Z * list Z) ([], [])). cbn [exec_bind fst snd length].
  change (Z.of_nat 0) with 0.
  unfold usize_sub. cbn [content_length with_data]. rewrite (proj2 (Z.leb_le _ _)) by lia. cbn [exec_bind fst snd].
  cbn [lines with_data with_content_length]. rewrite El, app_nil_r, Hl. cbn. intros [= <- <-]. split; [done|].
  by repeat case_match.
Qed.

Lemma starts_with_app n : ∀ h t, (length n <= length h)%nat → starts_with n (h ++ t) = starts_with n h.
Proof.
  induction n as [|x n IH]; intros [|b h] t Hl; cbn [app starts_with length] in *; try done; try lia. by rewrite IH by lia.
Qed.
Lemma index_from_take n h : n ≠ [] → ∀ t i, index_from (h ++ t) n = Some i → (i + length n <= length h)%nat → index_from h n = Some i.
Proof.
  intros Hn. induction h as [|b h IH]; intros t i; cbn [app index_from length].
  - intros H Hl. destruct n; [done|]. cbn in Hl. lia.
  - destruct (starts_with n (b :: h ++ t)) eqn:E.
    + intros [= <-] Hl. change (b :: h ++ t) with ((b :: h) ++ t) in E. rewrite starts_with_app in E by (cbn; lia). by rewrite E.
    + destruct (index_from (h ++ t) n) as [k|] eqn:Ek; [|done]. intros [= <-] Hl. rewrite (IH t k Ek) by lia.
      destruct (starts_with n (b :: h)) eqn:E2; [|done]. exfalso.
      apply starts_with_spec in E2 as [rest Hr]. change (b :: h ++ t) with ((b :: h) ++ t) in E.
      rewrite Hr in E. rewrite <- app_assoc in E. assert (starts_with n (n ++ rest ++ t) = true) as E3 by (apply starts_with_spec; by eexists).
      congruence.
Qed.

(** The header up to its empty line is still the header of a [CONNECT]. *)
Lemma header_cut whole offset :
  starts_with CONNECT_PREFIX whole = true → index_of whole DOUBLE_CRLF = Some offset →
  index_of (take (offset + 4) whole) DOUBLE_CRLF = Some offset ∧ starts_with CONNECT_PREFIX (take (offset + 4) whole) = true.
Proof.
  intros [rest Hw]%starts_with_spec Hi. pose proof (index_of_bound _ _ _ Hi) as Hb. cbn [length DOUBLE_CRLF] in Hb.
  change (index_of ?h DOUBLE_CRLF) with (index_from h DOUBLE_CRLF) in *.
  destruct (index_from_first _ DOUBLE_CRLF _ ltac:(done) Hi) as [Hat _]. apply starts_with_spec in Hat as [t Ht].
  split.
  - apply (index_from_take DOUBLE_CRLF _ ltac:(done) (drop (offset + 4) whole)); [by rewrite take_drop|]. rewrite length_take. cbn. lia.
  - pose proof (take_drop (offset + 4) whole) as Hcut. rewrite Hw in Hcut at 3.
    apply cut in Hcut as [(x & -> & _)|(a & _ & Ha & _)]; [apply starts_with_spec; by eexists|].
    assert (13 ∈ take (offset + 4) whole) as Hin.
    { apply (list_elem_of_lookup_2 _ offset). rewrite lookup_take_lt by lia.
      pose proof (lookup_drop whole offset 0) as Hl. rewrite Ht, Nat.add_0_r in Hl. by rewrite <- Hl. }
    exfalso. assert (13 ∈ CONNECT_PREFIX) as Hbad by (rewrite Ha; apply elem_of_app; by left).
    apply list_elem_of_In in Hbad. vm_compute in Hbad. repeat destruct Hbad as [Hbad|Hbad]; done.
Qed.

(** ** A reader over its polls *)
Section Runs.
Context `{HJ : JsonCrate} (env : ReaderEnv).

(** A step of a reader [r] that returns: the reader stays sound and of its
    shape, and what is sent has the promised data. *)
Definition goes {X} (Shape : StreamReaderReal → Prop) (Q : list Z → Prop) (r : StreamReaderReal) (n : nat) (sent : list Sent)
    (c : exec (X * StreamReaderReal * list Sent)) : Prop :=
  ∃ res r' out, c = Ret (res, r', sent ++ out) ∧ reader_ok r' ∧ potential r' ≤ potential r + Z.of_nat n ∧
    same_socket r r' ∧ Shape r' ∧ Forall (from_socket r Q) out.

Context (Shape : StreamReaderReal → Prop) (Q : list Z → Prop).
Context (probe_shape : ∀ r p, Shape r → is_Some (connect_probe_opt r) → Shape (with_probe p r)).
Context (shape_first : ∀ r data sent, Shape r → reader_ok r → potential r + Z.of_nat (length data) < 2 ^ 64 - 1 →
  goes Shape Q r (length data) sent (process_discriminator_data env 0 data false r sent)).
Context (shape_connect : ∀ r header sent, Shape r → is_Some (connect_probe_opt r) → reader_ok (with_probe None r) →
  potential (with_probe None r) + Z.of_nat (length header) < 2 ^ 64 - 1 →
  starts_with CONNECT_PREFIX header = true → index_of header DOUBLE_CRLF = Some (length header - 4)%nat →
  goes Shape Q (with_probe None r) (length header) sent (process_discriminator_data env 1 header true (with_probe None r) sent)).
Abbreviation goes_on := (goes Shape Q).

Lemma goes_more {X} r n m sent (c : exec (X * StreamReaderReal * list Sent)) : (n <= m)%nat → goes_on r n sent c → goes_on r m sent c.
Proof. intros Hle (res & r' & out & -> & H1 & H2 & H3). exists res, r', out. split_and!; try done; try apply H3. lia. Qed.

Lemma goes_trans {Y} r r1 n m sent out1 (c : exec (Y * StreamReaderReal * list Sent)) :
  potential r1 ≤ potential r + Z.of_nat n → same_socket r r1 → Forall (from_socket r Q) out1 →
  goes_on r1 m (sent ++ out1) c → goes_on r (n + m) sent c.
Proof.
  intros Hp1 Hs1 Ho1 (y & r2 & out2 & -> & Hr2 & Hp2 & Hs2 & Hsh2 & Ho2).
  exists y, r2, (out1 ++ out2). rewrite app_assoc. split_and!; try done.
  - lia.
  - by etransitivity.
  - apply Forall_app. split; [done|]. eapply Forall_impl; [done|]. intros ?. by apply from_socket_same.
Qed.

Lemma goes_stay {X} r n sent (x : X) r' : reader_ok r' → potential r' ≤ potential r + Z.of_nat n → same_socket r r' → Shape r' →
  goes_on r n sent (Ret (x, r', sent)).
Proof. intros. exists x, r', []. rewrite app_nil_r. by split_and!. Qed.

Lemma probe_ok r p : reader_ok r → is_Some (connect_probe_opt r) → reader_ok (with_probe p r).
Proof. intros (H1 & H2 & H3 & H4) Hp. split_and!; try done. intros _. by apply H4. Qed.

Lemma wrangle_goes data r sent : Shape r → reader_ok r → potential r + Z.of_nat (length data) < 2 ^ 64 - 1 →
  goes_on r (length data) sent (wrangle_discriminators env data r sent).
Proof.
  intros Hsh Hr Hpot. unfold wrangle_discriminators. destruct (connect_probe_opt r) as [probe|] eqn:Ep; [|by apply shape_first].
  assert (is_Some (connect_probe_opt r)) as Hsome by (rewrite Ep; by eexists).
  assert (∀ p, reader_ok (with_probe p r)) as Hok by (intros; by apply probe_ok).
  assert (∀ p, same_socket r (with_probe p r)) as Hsame by (intros; by split_and!).
  assert (∀ p, potential (with_probe p r) = potential r - Z.of_nat (length probe) + Z.of_nat (match p with Some l => length l | None => O end)) as Hpp.
  { intros p. unfold potential, probed. rewrite Ep. cbn. destruct p; lia. }
  assert (∀ {X} n (c : exec (X * StreamReaderReal * list Sent)), (n <= length probe + length data)%nat →
    goes_on (with_probe None r) n sent c → goes_on r (length data) sent c) as Hback.
  { intros X n c Hn (x & r' & out & -> & H1 & H2 & H3 & H4 & H5). exists x, r', out. rewrite Hpp in H2.
    split_and!; [done|done|lia|by etransitivity|done|]. eapply Forall_impl; [done|]. intros ?. by apply from_socket_same. }
  set (whole := probe ++ data). assert (length whole = length probe + length data)%nat as Hw by (unfold whole; by rewrite length_app).
  change (with_probe (Some whole) (with_probe None r)) with (with_probe (Some whole) r).
  destruct (starts_with whole CONNECT_PREFIX).
  { apply goes_stay; [by apply probe_ok| |done|by apply probe_shape]. cbn. rewrite Hpp. lia. }
  destruct (starts_with CONNECT_PREFIX whole) eqn:Ec; cbn [negb].
  2: { apply (Hback _ (length whole)); [lia|]. apply shape_first; [by apply probe_shape|done|]. rewrite Hpp. lia. }
  destruct (index_of whole DOUBLE_CRLF) as [offset|] eqn:Eo.
  2: { apply goes_stay; case_match; try done; try (by apply probe_shape); try (by apply probe_ok); rewrite Hpp; lia. }
  pose proof (index_of_bound _ _ _ Eo) as Hb. cbn [length DOUBLE_CRLF] in Hb.
  rewrite split_off_Ret by lia. cbn [exec_bind fst snd]. set (header := take _ whole). set (tls := drop _ whole).
  assert (length header = offset + 4)%nat as Hlh by (unfold header; rewrite length_take; lia).
  assert (whole = header ++ tls) as Hcut by (unfold header, tls; by rewrite take_drop).
  assert (index_of header DOUBLE_CRLF = Some (length header - 4)%nat ∧ starts_with CONNECT_PREFIX header = true) as [Hi Hst].
  { rewrite Hlh. replace (offset + 4 - 4)%nat with offset by lia. by apply (header_cut whole). }
  apply (Hback _ (length header + length tls)%nat); [rewrite Hcut, length_app in Hw; lia|].
  destruct (shape_connect r header sent Hsh Hsome (Hok None)) as (res & r1 & out & Hc & Hr1 & Hp1 & Hs1 & Hsh1 & Ho1);
    [rewrite Hpp; rewrite Hcut, length_app in Hw; lia|done..|].
  rewrite Hc. cbn [exec_bind]. eapply goes_trans; [done..|].
  destruct res as [[]|e]; [|by apply goes_stay; try lia]. destruct tls as [|b tls'] eqn:Et; [apply goes_stay; try done; lia|].
  apply shape_first; try done. rewrite Hpp in Hp1. rewrite Hcut, length_app in Hw. lia.
Qed.

(** *** Polls *)

Definition read_length (read : Read) : nat := match read with Bytes data => length data | ReadError _ => O end.
Definition reads_length (reads : list Read) : nat := sum_list_with read_length reads.

(** Data of the socket, or that its stream is to be removed *)
Definition of_reader (r : StreamReaderReal) (m : Sent) : Prop :=
  from_socket r Q m ∨ ∃ t, m = ToPool (mkRemove (sr_local_addr r) (sr_peer_addr r) t) ∧
    (t = Clandestine ↔ sr_is_clandestine r = true).
Lemma of_reader_same r r' m : same_socket r r' → of_reader r' m → of_reader r m.
Proof.
  intros Hs [H|(t & -> & Ht)]; [left; by eapply from_socket_same|]. right. destruct Hs as (H1 & H2 & _ & H4).
  exists t. by rewrite H1, H2, <- H4.
Qed.
Lemma of_reader_sent r out : Forall (from_socket r Q) out → Forall (of_reader r) out.
Proof. intros H. eapply Forall_impl; [done|]. intros ??. by left. Qed.

Lemma shut_goes p r sent : reader_ok r → potential r < 2 ^ 64 - 1 →
  ∃ r' out, shut p r sent = Ret (p, r', sent ++ out) ∧ Forall (of_reader r) out.
Proof.
  intros (_ & _ & Hseq & _) Hpot. unfold shut, shutdown. destruct (sr_is_clandestine r) eqn:Ec.
  - cbn [exec_bind fst snd]. eexists _, _. split; [reflexivity|]. constructor; [|constructor]. right.
    eexists. split; [reflexivity|]. by rewrite Ec.
  - destruct (sr_reception_port_opt r) as [port|].
    + rewrite number_next by (unfold potential in Hpot; lia). cbn [exec_bind fst snd]. eexists _, _. split; [reflexivity|].
      constructor; [|constructor]. right. eexists. split; [reflexivity|]. by rewrite Ec.
    + cbn [exec_bind fst snd]. exists r, []. by rewrite app_nil_r.
Qed.

(** What a poll, or a run of polls, comes to *)
Definition polled (r : StreamReaderReal) (n : nat) (sent : list Sent) (c : exec (Polled * StreamReaderReal * list Sent)) : Prop :=
  ∃ p r' out, c = Ret (p, r', sent ++ out) ∧ Forall (of_reader r) out ∧
    (p = NotReady → reader_ok r' ∧ potential r' ≤ potential r + Z.of_nat n ∧ same_socket r r' ∧ Shape r').

Lemma shut_polled p r n sent : p ≠ NotReady → reader_ok r → potential r < 2 ^ 64 - 1 → polled r n sent (shut p r sent).
Proof. intros Hp Hr Hpot. destruct (shut_goes p r sent Hr Hpot) as (r' & out & -> & Hout). by exists p, r', out. Qed.
Lemma polled_trans r r1 n m sent out1 c :
  potential r1 ≤ potential r + Z.of_nat n → same_socket r r1 → Forall (of_reader r) out1 →
  polled r1 m (sent ++ out1) c → polled r (n + m) sent c.
Proof.
  intros Hp1 Hs1 Ho1 (p & r2 & out2 & -> & Ho2 & Hend). exists p, r2, (out1 ++ out2). rewrite app_assoc.
  split; [done|]. split.
  - apply Forall_app. split; [done|]. eapply Forall_impl; [done|]. intros ?. by apply of_reader_same.
  - intros ->. destruct (Hend eq_refl) as (? & ? & ? & ?). split_and!; [done|lia|by etransitivity|done].
Qed.

Lemma poll_goes reads : ∀ errors r sent, Shape r → reader_ok r → potential r + Z.of_nat (reads_length reads) < 2 ^ 64 - 1 →
  polled r (reads_length reads) sent (poll_loop env reads errors r sent).
Proof.
  unfold reads_length. induction reads as [|[data|kind] reads IH]; intros errors r sent Hsh Hr Hpot; cbn [poll_loop sum_list_with read_length] in *.
  - exists NotReady, r, []. rewrite app_nil_r. split; [done|]. split; [constructor|]. intros _. by split_and!; try lia.
  - destruct data as [|b data]; [apply shut_polled; [done|done|lia]|].
    destruct (wrangle_goes (b :: data) r sent Hsh Hr) as (res & r1 & out & -> & Hr1 & Hp1 & Hs1 & Hsh1 & Ho1);
      [cbn [length] in *; lia|]. cbn [exec_bind]. eapply polled_trans; [done|done|by apply of_reader_sent|].
    destruct res; [apply IH; [done|done|lia]|apply shut_polled; [done|done|lia]].
  - destruct (indicates_dead_stream kind); [apply shut_polled; [done|done|lia]|].
    case_match; [apply shut_polled; [done|done|lia]|]. by apply IH.
Qed.

Lemma runs_go polls : ∀ r sent, Shape r → reader_ok r → potential r + Z.of_nat (sum_list_with reads_length polls) < 2 ^ 64 - 1 →
  polled r (sum_list_with reads_length polls) sent (run_polls env polls r sent).
Proof.
  induction polls as [|reads polls IH]; intros r sent Hsh Hr Hpot; cbn [run_polls sum_list_with] in *.
  - exists NotReady, r, []. rewrite app_nil_r. split; [done|]. split; [constructor|]. intros _. by split_and!; try lia.
  - destruct (poll_goes reads O r sent Hsh Hr) as (p & r1 & out & Hc & Ho1 & Hend); [lia|]. unfold poll. rewrite Hc.
    cbn [exec_bind]. destruct p; [|by eexists _, _, _..]. destruct (Hend eq_refl) as (Hr1 & Hp1 & Hs1 & Hsh1).
    eapply polled_trans; [done|done|done|]. apply IH; [done|done|lia].
Qed.

End Runs.

(** ** Any reader *)
Section Survival.
Context `{HJ : JsonCrate} (env : ReaderEnv).

Definition any_shape (r : StreamReaderReal) : Prop :=
  is_Some (connect_probe_opt r) → (1 < length (discriminators r))%nat.

Lemma process_any i data is_connect r sent d : discriminators r !! i = Some d → any_shape r → reader_ok r →
  potential r + Z.of_nat (length data) < 2 ^ 64 - 1 →
  goes any_shape (fun _ => True) r (length data) sent (process_discriminator_data env i data is_connect r sent).
Proof.
  intros Hd Hsh Hr Hpot.
  destruct (process_returns env (fun _ => True) (fun _ => True) (fun _ => True) i data is_connect r sent d) as
    (res & r' & out & -> & Hr' & Hp' & Hs & Hpr & (d' & _ & Hds) & Hout); [done..|].
  exists res, r', out. split_and!; try done. unfold any_shape. by rewrite Hpr, Hds, length_insert.
Qed.

Lemma runs_any polls r sent : any_shape r → reader_ok r → potential r + Z.of_nat (sum_list_with reads_length polls) < 2 ^ 64 - 1 →
  polled any_shape (fun _ => True) r (sum_list_with reads_length polls) sent (run_polls env polls r sent).
Proof.
  intros Hsh Hr Hpot. apply runs_go; try done.
  - intros r0 p0 Hsh0 Hsome _. by apply Hsh0.
  - intros r0 data sent0 Hsh0 Hr0 Hp0. pose proof Hr0 as (_ & Hne & _). destruct (discriminators r0) as [|d ds] eqn:E; [done|].
    apply (process_any 0 data false r0 sent0 d); [by rewrite E|done..].
  - intros r0 header sent0 Hsh0 Hsome Hr0 Hp0 _ _. specialize (Hsh0 Hsome).
    destruct (lookup_lt_is_Some_2 (discriminators r0) 1 Hsh0) as [d Hd]. apply (process_any 1 header true _ sent0 d); [done|by intros [? [=]]|done..].
Qed.

Lemma make_ok f : ∃ d, make f = Ret d ∧ discriminator_ok d ∧ holds d = O.
Proof.
  destruct f; (eexists; split; [reflexivity|]); (split; [|done]); unfold discriminator_ok; cbn [framer framer_ok].
  - unfold JsonFramer.MAX_JSON_FRAME_BYTES. cbn. lia.
  - done.
  - apply idle_ok.
Qed.
Lemma made_ok fs : ∃ ds, make_all fs = Ret ds ∧ Forall discriminator_ok ds ∧ length ds = length fs ∧ holds_all ds = O.
Proof.
  induction fs as [|f fs (ds & Hds & Hok & Hlen & Hh)]; [by eexists|]. cbn [make_all]. rewrite Hds.
  destruct (make_ok f) as (d & -> & Hd & H0). cbn [exec_bind]. eexists; split; [reflexivity|]. cbn [length holds_all].
  split; [by constructor|]. split; lia.
Qed.
Lemma new_ok port fs clandestine peer local : fs ≠ [] → ∃ r, reader_new port fs clandestine peer local = Ret r ∧
  reader_ok r ∧ any_shape r ∧ potential r = 0 ∧ sr_peer_addr r = peer ∧ sr_reception_port_opt r = port ∧
  sr_is_clandestine r = clandestine ∧ sr_local_addr r = local.
Proof.
  intros Hfs. unfold reader_new. destruct fs as [|f fs]; [done|].
  destruct (made_ok (f :: fs)) as (ds & -> & Hok & Hlen & Hh). cbn [exec_bind]. eexists. split; [reflexivity|].
  assert (is_Some (if (1 <? length ds)%nat then Some (@nil Z) else None) → (1 < length ds)%nat) as Hprobe.
  { destruct (Nat.ltb_spec 1 (length ds)); [done|]. by intros [? ?]. }
  split; [split_and!; [done|by destruct ds|done|exact Hprobe]|]. split; [exact Hprobe|]. split; [|done].
  unfold potential, probed. destruct (1 <? length ds)%nat; cbn [sequencer current_sequence_number discriminators connect_probe_opt];
    by rewrite Hh.
Qed.

(** [C11] Readers survive their sockets: on any port, with any discriminators,
    whatever bytes, closings and errors a socket gives, in any pieces and over
    any number of polls, and whether or not the Dispatcher takes the messages,
    the reader never panics and always returns.  Everything it sends is data of
    its own socket, or the request to remove its own stream.  Fewer than 2^64 - 2
    bytes are read. *)
Theorem reader_survives port fs clandestine peer local polls :
  fs ≠ [] → Z.of_nat (sum_list_with reads_length polls) < 2 ^ 64 - 2 →
  ∃ r p r' sent, reader_new port fs clandestine peer local = Ret r ∧ run_polls env polls r [] = Ret (p, r', sent) ∧
    Forall (of_reader (fun _ => True) r) sent.
Proof.
  intros Hfs Hlen. destruct (new_ok port fs clandestine peer local Hfs) as (r & Hnew & Hr & Hsh & Hpot & _).
  destruct (runs_any polls r [] Hsh Hr) as (p & r' & out & Hrun & Hout & _); [rewrite Hpot; lia|].
  by exists r, p, r', out.
Qed.

(** ** The reader of the mobile node's port *)

Definition tls_discriminator (d : Discriminator) : Prop := ∃ f, d = mkDiscriminator (FTls f) [NullMasquerader].
Definition http_discriminator (h : HttpFramerState) : Discriminator := mkDiscriminator (FHttp h) [NullMasquerader].
Definition mobile_shape (r : StreamReaderReal) : Prop :=
  ∃ d h, discriminators r = [d; http_discriminator h] ∧ tls_discriminator d ∧ (is_Some (connect_probe_opt r) → h = http_new).
(** Not the first few bytes of a handshake *)
Definition expected_data (data : list Z) : Prop := ¬ ∃ rest, data = 22 :: rest ∧ (length rest < 4)%nat.

Lemma tls_chunks d o d' : tls_discriminator d → take_chunk d = Ret (o, d') →
  tls_discriminator d' ∧ ∀ uc, o = Some uc → tls_discriminator d' ∧ expected_data (uc_chunk uc).
Proof.
  intros [f ->]. unfold take_chunk. cbn [framer framer_take_frame].
  destruct (tls_take_frame_spec f) as (fr & f' & -> & Hfr). cbn [exec_bind fst snd]. intros [= <- <-].
  split; [by eexists|]. intros uc Huc. split; [by eexists|]. destruct fr as [fr|]; [|done]. injection Huc as <-.
  destruct Hfr as (_ & _ & Hl & _). cbn [uc_chunk]. intros (rest & Heq & Hlt). rewrite Heq in Hl. cbn in Hl. lia.
Qed.

(** The chunks of the discriminator that was given the header of a [CONNECT] *)
Definition connect_discriminator (probe : list Z) (d : Discriminator) : Prop :=
  ∃ h, d = http_discriminator h ∧ http_ok h ∧ (h = http_add_data probe http_new ∨ held h = []).
Lemma connect_chunks probe d o d' :
  starts_with CONNECT_PREFIX probe = true → index_of probe DOUBLE_CRLF = Some (length probe - 4)%nat →
  connect_discriminator probe d → take_chunk d = Ret (o, d') →
  (∃ h, d' = http_discriminator h) ∧ ∀ uc, o = Some uc → connect_discriminator probe d' ∧ expected_data (uc_chunk uc).
Proof.
  intros Hst Hend (h & -> & Hok & Hh). unfold take_chunk. cbn [framer framer_take_frame http_discriminator].
  destruct (http_take_frame_spec h Hok) as (fr & h' & Ht & Hok' & Hfr). rewrite Ht. cbn [exec_bind fst snd]. intros [= <- <-].
  split; [by eexists|]. intros uc Huc. destruct fr as [fr|]; [|done]. injection Huc as <-. cbn [uc_chunk].
  destruct Hh as [-> | Hh].
  - destruct (connect_frame probe fr h' Hst Hend Ht) as [-> Hh']. split; [exists h'; by split_and!; [| |right]|].
    apply starts_with_spec in Hst as [rest ->]. by intros (? & ? & _).
  - destruct Hfr as [Hne Hle]. rewrite Hh in Hle. destruct (fc_chunk fr); [done|]. cbn in Hle. lia.
Qed.

Lemma mobile_first r data sent : mobile_shape r → reader_ok r → potential r + Z.of_nat (length data) < 2 ^ 64 - 1 →
  goes mobile_shape expected_data r (length data) sent (process_discriminator_data env 0 data false r sent).
Proof.
  intros (d & h & Hds & Htls & Hh) Hr Hpot.
  destruct (process_returns env tls_discriminator tls_discriminator expected_data 0 data false r sent d) as
    (res & r' & out & -> & Hr' & Hp' & Hs & Hpr & (d' & Hd' & Hds') & Hout).
  - intros. by eapply tls_chunks.
  - done.
  - done.
  - by rewrite Hds.
  - destruct Htls as [f ->]. by eexists.
  - exists res, r', out. split_and!; try done. exists d', h. rewrite Hpr. split_and!; [|done..]. by rewrite Hds', Hds.
Qed.
Lemma mobile_connect r header sent : mobile_shape r → is_Some (connect_probe_opt r) → reader_ok (with_probe None r) →
  potential (with_probe None r) + Z.of_nat (length header) < 2 ^ 64 - 1 →
  starts_with CONNECT_PREFIX header = true → index_of header DOUBLE_CRLF = Some (length header - 4)%nat →
  goes mobile_shape expected_data (with_probe None r) (length header) sent
    (process_discriminator_data env 1 header true (with_probe None r) sent).
Proof.
  intros (d & h & Hds & Htls & Hh) Hsome Hr Hpot Hst Hend. rewrite (Hh Hsome) in Hds.
  destruct (process_returns env (connect_discriminator header) (fun d => ∃ h, d = http_discriminator h) expected_data 1 header true
    (with_probe None r) sent (http_discriminator http_new)) as (res & r' & out & -> & Hr' & Hp' & Hs & Hpr & (d' & [h' ->] & Hds') & Hout).
  - intros d0 o d0'. by apply connect_chunks.
  - done.
  - done.
  - cbn [with_probe discriminators]. by rewrite Hds.
  - exists (http_add_data header http_new). split; [done|]. split; [apply http_add_data_ok, idle_ok|by left].
  - exists res, r', out. split_and!; try done. exists d, h'. rewrite Hpr. split; [rewrite Hds'; cbn [with_probe discriminators]; by rewrite Hds|].
    split; [done|]. by intros [? [=]].
Qed.

(** [C10] What the mobile node's port gives to the ProxyServer is what it expects:
    for the port that [establish_port_configurations] opens for a mobile node,
    whatever an application writes to its socket, in any pieces (TLS records, a
    [CONNECT] request first or not, garbage), the reader never panics, and every
    message with data for the ProxyServer is one it survives: data of more than
    the first bytes of a handshake, from a proper socket; and when the stream is
    removed it is as a stream of a browser. *)
Theorem mobile_reader_feeds_proxy mobile_port configuration peer local polls :
  valid_socket peer → Z.of_nat (sum_list_with reads_length polls) < 2 ^ 64 - 2 →
  establish_port_configurations ∅ (Some mobile_port) !! mobile_port = Some configuration →
  ∃ r p r' sent,
    reader_new (Some (pc_reception_port configuration mobile_port)) (discriminator_factories configuration)
      (pc_is_clandestine configuration) peer local = Ret r ∧
    run_polls env polls r [] = Ret (p, r', sent) ∧
    ∀ m, m ∈ sent →
      match m with
      | ToDispatcher d => expected_message (InboundData d) ∧ from_ibcd d = Ok TLS
      | ToPool m => ∀ report, expected_message (StreamShutdown (mkShutdown (rm_peer_addr m) (rm_stream_type m) report))
      end.
Proof.
  intros Hpeer Hlen. unfold establish_port_configurations. rewrite lookup_insert_eq. intros [= <-].
  set (fs := [TlsDiscriminatorFactory; HttpRequestDiscriminatorFactory]).
  destruct (new_ok (Some TLS_PORT) fs false peer local ltac:(done)) as (r & Hnew & Hr & _ & Hpot & Hp1 & Hp2 & Hp3 & Hp4).
  assert (mobile_shape r) as Hsh by (injection Hnew as <-; eexists _, _; split_and!; [done|by eexists|done]).
  destruct (runs_go env mobile_shape expected_data) with (polls := polls) (r := r) (sent := @nil Sent) as (p & r' & out & Hrun & Hout & _).
  - intros r0 p0 (d & h & H1 & H2 & H3) Hsome. exists d, h. split_and!; try done. intros _. by apply H3.
  - apply mobile_first.
  - apply mobile_connect.
  - done.
  - done.
  - rewrite Hpot. lia.
  - exists r, p, r', out. split; [exact Hnew|]. split; [exact Hrun|]. intros m Hm.
    rewrite List.Forall_forall in Hout. apply list_elem_of_In in Hm. destruct (Hout m Hm) as [(t & n & data & -> & Hq)|(t & -> & Ht)].
    + rewrite Hp1, Hp2, Hp3. split; [split; done|reflexivity].
    + intros report. cbn. rewrite Hp1. split; [done|]. intros ->. rewrite Hp3 in Ht. discriminate (proj1 Ht eq_refl).
Qed.

End Survival.
