(* ===== verification/StreamDelivery.v ===== *)
(** * What is written to a socket is what its reader gives out

    Masked messages of a neighbour, HTTP requests of a browser, and a [CONNECT]
    request with the TLS records behind it, cut into reads in any way: the
    reader gives all of them to the Dispatcher, in order and once, with the
    numbers they should have. *)

From Stdlib Require Import ZArith Lia String Ascii.
From stdpp Require Import base list numbers option gmap.
From S2P Require Import Prelude Text NodeRecord Migrations Hopper ProtocolPack ProtocolHosts Framers HttpFramer HttpFraming ProxyServer StreamReader StreamSafety.
Import JsonFraming TlsFraming.

Local Open Scope Z_scope.
Local Open Scope rust_scope.
Local Open Scope list_scope.

(** The numbers and the data of the messages *)
Definition data_of (sent : list Sent) : list (option Z * list Z) :=
  omap (fun m => match m with ToDispatcher d => Some (ib_sequence_number_opt d, ib_data d) | ToPool _ => None end) sent.
(** Data with the numbers from [n] on, or without numbers *)
Fixpoint numbered (sequenced : bool) (n : Z) (chunks : list (list Z)) : list (option Z * list Z) :=
  match chunks with
  | [] => []
  | c :: chunks => ((if sequenced then Some n else None), c) :: numbered sequenced (n + 1) chunks
  end.
Lemma data_of_app a b : data_of (a ++ b) = data_of a ++ data_of b.
Proof. apply omap_app. Qed.
Lemma numbered_app sequenced a : ∀ n b,
  numbered sequenced n (a ++ b) = numbered sequenced n a ++ numbered sequenced (n + Z.of_nat (length a)) b.
Proof.
  induction a as [|c a IH]; intros n b; cbn [app numbered length]; [by rewrite Z.add_0_r|].
  rewrite IH. by replace (n + 1 + Z.of_nat (length a)) with (n + Z.of_nat (S (length a))) by lia.
Qed.
Lemma numbered_none n chunks : ∀ m, numbered false n chunks = numbered false m chunks.
Proof. revert n. induction chunks as [|c chunks IH]; intros n m; [done|]. cbn. by rewrite (IH (n + 1) (m + 1)). Qed.

(** ** A discriminator in a stream

    [at_rest d x reads]: the discriminator has nothing to give until the [reads]
    come, and [x] is what it is still to give; [active]: data has come. *)
Section Streams.
Context `{HJ : JsonCrate} (env : ReaderEnv) (accepting : ∀ n, accepts env n = true).
Context {X : Type} (at_rest active : Discriminator → X → list (list Z) → Prop).
Context (gives : X → list Z → X → Prop) (finished : X → Prop) (sequenced : bool).
Context (rest_add : ∀ d x c reads, at_rest d x (c :: reads) → active (discriminator_add_data c d) x reads).
Context (active_take : ∀ d x reads, active d x reads → ∃ o d', take_chunk d = Ret (o, d') ∧
  match o with
  | Some uc => uc_sequenced uc = sequenced ∧ ∃ x', gives x (uc_chunk uc) x' ∧ active d' x' reads
  | None => at_rest d' x reads ∧ (reads = [] → finished x)
  end).

Fixpoint gives_all (x : X) (chunks : list (list Z)) (x' : X) : Prop :=
  match chunks with
  | [] => x' = x
  | c :: chunks => ∃ y, gives x c y ∧ gives_all y chunks x'
  end.
Lemma gives_all_app x a b x' x'' : gives_all x a x' → gives_all x' b x'' → gives_all x (a ++ b) x''.
Proof.
  revert x. induction a as [|c a IH]; intros x; cbn [gives_all app]; [by intros -> |].
  intros (y & Hy & Ha) Hb. exists y. eauto.
Qed.

Definition number (r : StreamReaderReal) : Z := current_sequence_number (sequencer r).
(** The reader after it has given out [chunks] of its first discriminator *)
Definition delivered (r : StreamReaderReal) (sent : list Sent) (x : X) (reads : list (list Z)) (chunks : list (list Z))
    (r' : StreamReaderReal) (sent' : list Sent) : Prop :=
  ∃ d x', data_of sent' = data_of sent ++ numbered sequenced (number r) chunks ∧ gives_all x chunks x' ∧
    discriminators r' !! O = Some d ∧ at_rest d x' reads ∧ (reads = [] → finished x') ∧ discriminator_ok d ∧
    number r ≤ number r' ∧ (sequenced = true → number r' = number r + Z.of_nat (length chunks)) ∧
    connect_probe_opt r' = connect_probe_opt r.

Lemma loop_delivers fuel : ∀ r sent d x reads,
  active d x reads → discriminators r !! O = Some d → discriminator_ok d → (holds d < fuel)%nat →
  0 ≤ number r → number r + Z.of_nat (holds d) < 2 ^ 64 - 1 →
  ∃ chunks r' sent', process_loop env fuel 0 false r sent = Ret (Ok (), r', sent') ∧ delivered r sent x reads chunks r' sent' ∧
    ∀ d', discriminators r' !! O = Some d' → number r' + Z.of_nat (holds d') ≤ number r + Z.of_nat (holds d).
Proof.
  induction fuel as [|fuel IH]; intros r sent d x reads Ha Hd Hok Hfuel Hn0 Hn; [lia|]. cbn [process_loop].
  rewrite Hd. cbn [expect exec_bind]. destruct (active_take d x reads Ha) as (o & d' & Ht & Ho).
  destruct (chunk_taken d Hok) as (o2 & d2 & Ht2 & Hok' & Hle & Hlt). rewrite Ht in Ht2. injection Ht2 as <- <-.
  rewrite Ht. cbn [exec_bind fst snd]. set (r1 := with_discriminators _ r).
  assert (discriminators r1 !! O = Some d') as Hd1.
  { cbn. apply list_lookup_insert_eq. by eapply lookup_lt_Some. }
  destruct o as [uc|].
  - specialize (Hlt ltac:(by eexists)). destruct Ho as (Hseq & x' & Hg & Ha'). rewrite Hseq, andb_true_r.
    assert (∃ r2, (if sequenced then let* n := next_sequence_number (sequencer r1) in Ret (Some n.1, with_sequencer n.2 r1) else Ret (None, r1))
      = Ret (if sequenced then Some (number r) else None, r2) ∧ discriminators r2 = discriminators r1 ∧
      number r2 = number r + (if sequenced then 1 else 0) ∧ connect_probe_opt r2 = connect_probe_opt r) as (r2 & -> & Hds2 & Hn2 & Hp2).
    { destruct sequenced; [|exists r1; split_and!; try done; cbn; unfold number, r1; cbn; lia].
      rewrite number_next by (unfold number in *; cbn; lia). eexists. by split_and!. }
    cbn [exec_bind]. rewrite accepting.
    destruct (IH r2 (sent ++ [ToDispatcher (inbound env r2 sent (if sequenced then Some (number r) else None) (uc_chunk uc))]) d' x' reads)
      as (chunks & r' & sent' & -> & (d3 & x3 & Hdata & Hall & H1 & H2 & H3 & H4 & H5 & H6 & H7) & Hpot);
      [done|by rewrite Hds2|done|lia|destruct sequenced; lia|destruct sequenced; lia|].
    exists (uc_chunk uc :: chunks), r', sent'. split; [done|]. split.
    + exists d3, x3. rewrite Hdata, data_of_app, Hn2. cbn [data_of omap list_omap inbound ib_sequence_number_opt ib_data numbered gives_all length].
      rewrite <- app_assoc. split_and!; try done.
      * f_equal. cbn. f_equal. destruct sequenced; [done|]. apply numbered_none.
      * by exists x'.
      * rewrite Hn2 in H5. destruct sequenced; lia.
      * intros Hs. rewrite H6, Hn2 by done. rewrite Hs. lia.
      * congruence.
    + intros d4 Hd4. specialize (Hpot d4 Hd4). rewrite Hn2 in Hpot. destruct sequenced; lia.
  - destruct Ho as [Hrest Hfin]. exists [], r1, sent. split; [done|]. split.
    + exists d', x. cbn [numbered gives_all]. rewrite app_nil_r. split_and!; try done.
      intros _. unfold number, r1. cbn. lia.
    + intros d3. rewrite Hd1. intros [= <-]. unfold number, r1. cbn. lia.
Qed.
(** *** Reads *)

(** The reader rests in the stream, and its numbers suffice for what it holds
    and [n] more bytes. *)
Definition resting (r : StreamReaderReal) (x : X) (reads : list (list Z)) (n : nat) : Prop :=
  ∃ d, discriminators r !! O = Some d ∧ discriminator_ok d ∧ at_rest d x reads ∧ (reads = [] → finished x) ∧
    0 ≤ number r ∧ number r + Z.of_nat (holds d + n) < 2 ^ 64 - 1.
(** What the reader has sent after [chunks], and where it is then *)
Definition gave (r : StreamReaderReal) (sent : list Sent) (x : X) (chunks : list (list Z)) (x' : X) (reads : list (list Z)) (n : nat)
    (r' : StreamReaderReal) (sent' : list Sent) : Prop :=
  data_of sent' = data_of sent ++ numbered sequenced (number r) chunks ∧ gives_all x chunks x' ∧ resting r' x' reads n ∧
  (sequenced = true → number r' = number r + Z.of_nat (length chunks)) ∧ connect_probe_opt r' = connect_probe_opt r.

Lemma process_gives r sent x c reads n : resting r x (c :: reads) (length c + n) →
  ∃ chunks x' r' sent', process_discriminator_data env 0 c false r sent = Ret (Ok (), r', sent') ∧
    gave r sent x chunks x' reads n r' sent'.
Proof.
  intros (d & Hd & Hok & Hrest & _ & Hn0 & Hn). unfold process_discriminator_data. rewrite Hd. cbn [expect exec_bind].
  destruct (framer_adds c (framer d) Hok) as [Hok1 Hle]. set (d1 := discriminator_add_data c d).
  assert (holds d1 <= holds d + length c)%nat as Hle1 by done.
  destruct (loop_delivers (S (framer_holds (framer d1))) (with_discriminators (<[O := d1]> (discriminators r)) r) sent d1 x reads)
    as (chunks & r' & sent' & -> & (d' & x' & H1 & H2 & H3 & H4 & H5 & H6 & H7 & H8 & H9) & Hpot).
  - by apply rest_add.
  - cbn. apply list_lookup_insert_eq. by eapply lookup_lt_Some.
  - done.
  - unfold holds. lia.
  - done.
  - unfold number in *. cbn. lia.
  - exists chunks, x', r', sent'. split; [done|]. split; [done|]. split; [done|]. split; [|done]. exists d'.
    specialize (Hpot d' H3). unfold number in *. cbn in *. split_and!; try done; lia.
Qed.

Lemma gave_trans r sent x cs1 x1 reads1 n1 r1 sent1 cs2 x2 reads2 n2 r2 sent2 :
  gave r sent x cs1 x1 reads1 n1 r1 sent1 → gave r1 sent1 x1 cs2 x2 reads2 n2 r2 sent2 →
  gave r sent x (cs1 ++ cs2) x2 reads2 n2 r2 sent2.
Proof.
  intros (H1 & H2 & _ & H3 & H4) (K1 & K2 & K & K3 & K4). split; [|split; [|split; [|split]]].
  - rewrite K1, H1, <- app_assoc, numbered_app. do 2 f_equal. destruct sequenced; [by rewrite H3|apply numbered_none].
  - by eapply gives_all_app.
  - done.
  - intros Hs. rewrite K3, H3 by done. rewrite length_app. lia.
  - congruence.
Qed.
Lemma gave_nothing r sent x reads n : resting r x reads n → gave r sent x [] x reads n r sent.
Proof. intros H. split; [by rewrite app_nil_r|]. split; [done|]. split; [done|]. split; [intros _; cbn; lia|done]. Qed.

Lemma poll_gives cs : ∀ errors r sent x reads n,
  Forall (fun c => c ≠ []) cs → connect_probe_opt r = None → resting r x (cs ++ reads) (length (concat cs) + n) →
  ∃ chunks x' r' sent', poll_loop env (map Bytes cs) errors r sent = Ret (NotReady, r', sent') ∧
    gave r sent x chunks x' reads n r' sent'.
Proof.
  induction cs as [|c cs IH]; intros errors r sent x reads n Hne Hp Hr; cbn [map poll_loop app concat] in *.
  - exists [], x, r, sent. split; [done|by apply gave_nothing].
  - apply Forall_cons_1 in Hne as [Hc Hne]. destruct c as [|b c]; [done|]. unfold wrangle_discriminators. rewrite Hp.
    rewrite length_app, <- Nat.add_assoc in Hr.
    destruct (process_gives r sent x (b :: c) (cs ++ reads) (length (concat cs) + n) Hr) as (chunks1 & x1 & r1 & sent1 & -> & H1).
    cbn [exec_bind]. pose proof H1 as (_ & _ & Hr1 & _ & Hp1). rewrite Hp in Hp1.
    destruct (IH O r1 sent1 x1 reads n Hne Hp1 Hr1) as (chunks2 & x2 & r2 & sent2 & Hpoll & H2).
    exists (chunks1 ++ chunks2), x2, r2, sent2. split; [done|]. by eapply gave_trans.
Qed.

(** The whole stream, over any number of polls *)
Lemma run_gives polls : ∀ r sent x reads n,
  Forall (Forall (fun c => c ≠ [])) polls → connect_probe_opt r = None →
  resting r x (concat polls ++ reads) (length (concat (concat polls)) + n) →
  ∃ chunks x' r' sent', run_polls env (map (map Bytes) polls) r sent = Ret (NotReady, r', sent') ∧
    gave r sent x chunks x' reads n r' sent'.
Proof.
  induction polls as [|cs polls IH]; intros r sent x reads n Hne Hp Hr; cbn [map run_polls concat] in *.
  - exists [], x, r, sent. split; [done|by apply gave_nothing].
  - apply Forall_cons_1 in Hne as [Hc Hne]. rewrite concat_app, length_app, <- app_assoc, <- Nat.add_assoc in Hr.
    destruct (poll_gives cs O r sent x (concat polls ++ reads) _ Hc Hp Hr) as (chunks1 & x1 & r1 & sent1 & Hpoll & H1).
    unfold poll. rewrite Hpoll. cbn [exec_bind]. pose proof H1 as (_ & _ & Hr1 & _ & Hp1). rewrite Hp in Hp1.
    destruct (IH r1 sent1 x1 reads n Hne Hp1 Hr1) as (chunks2 & x2 & r2 & sent2 & Hrun & H2).
    exists (chunks1 ++ chunks2), x2, r2, sent2. split; [done|]. by eapply gave_trans.
Qed.

End Streams.

(** ** HTTP requests *)
Section Http.
Context `{HJ : JsonCrate} (env : ReaderEnv) (accepting : ∀ n, accepts env n = true).

Definition http_at (d : Discriminator) (x : list Z) (reads : list (list Z)) : Prop :=
  ∃ h, d = http_discriminator h ∧ position h (data_so_far h ++ concat reads) ∧ x = held h ++ concat reads.
Definition leading_bytes (x c x' : list Z) : Prop := x = c ++ x'.

Lemma http_at_add d x c reads : http_at d x (c :: reads) → http_at (discriminator_add_data c d) x reads.
Proof.
  intros (h & -> & Hp & ->). exists (http_add_data c h). split; [done|]. split; [by apply http_receives|].
  unfold held, http_add_data. cbn. by rewrite <- !app_assoc.
Qed.
Lemma http_at_take d x reads : http_at d x reads → ∃ o d', take_chunk d = Ret (o, d') ∧
  match o with
  | Some uc => uc_sequenced uc = true ∧ ∃ x', leading_bytes x (uc_chunk uc) x' ∧ http_at d' x' reads
  | None => http_at d' x reads ∧ (reads = [] → x = [])
  end.
Proof.
  intros (h & -> & Hp & ->). unfold take_chunk. cbn [framer framer_take_frame http_discriminator].
  destruct (http_advances h _ Hp) as (o & h' & -> & Hp' & Ho). cbn [exec_bind fst snd]. eexists _, _. split; [reflexivity|].
  destruct o as [fr|]; cbn [masqueraders first_unmasked try_unmask uc_sequenced uc_chunk].
  - split; [done|]. exists (held h' ++ concat reads). split; [unfold leading_bytes; by rewrite Ho, <- app_assoc|]. by exists h'.
  - destruct Ho as [Hh Hq]. split; [exists h'; by rewrite Hh|]. intros ->. cbn [concat] in *. by rewrite app_nil_r, Hh, Hq.
Qed.
Lemma bytes_given chunks : ∀ x x', gives_all leading_bytes x chunks x' → x = concat chunks ++ x'.
Proof.
  induction chunks as [|c chunks IH]; intros x x'; cbn; [by intros -> |]. intros (y & -> & H). by rewrite (IH _ _ H), app_assoc.
Qed.

(** [C9] A browser's requests reach the ProxyServer byte for byte: a stream of
    well-formed requests, with bodies of a declared length or in chunks, read
    from the socket of the HTTP port in any pieces and over any polls, is given
    to the Dispatcher as a whole, in order and once, in messages numbered from
    zero without a gap; when the last request is complete nothing of it is held
    back. *)
Theorem requests_delivered rs polls peer local :
  Forall well_formed rs → Forall (Forall (fun c => c ≠ [])) polls → concat (concat polls) = texts rs →
  Z.of_nat (length (texts rs)) < 2 ^ 64 - 1 →
  ∃ r r' sent chunks,
    reader_new (Some HTTP_PORT) [HttpRequestDiscriminatorFactory] false peer local = Ret r ∧
    run_polls env (map (map Bytes) polls) r [] = Ret (NotReady, r', sent) ∧
    data_of sent = numbered true 0 chunks ∧ concat chunks = texts rs.
Proof.
  intros Hrs Hne Hpolls Hlen. eexists. unfold reader_new. cbn [make_all make discriminator_new exec_bind length Nat.ltb Nat.leb].
  set (r := mkReader _ _ _ _ _ _ _).
  destruct (run_gives env accepting http_at http_at leading_bytes (fun x => x = []) true http_at_add http_at_take polls r [] (texts rs) [] O)
    as (chunks & x' & r' & sent & Hrun & Hdata & Hall & (d & _ & _ & _ & Hfin & _) & _).
  - done.
  - done.
  - exists (http_discriminator http_new). rewrite app_nil_r, Hpolls, Nat.add_0_r. split; [done|]. split; [apply idle_ok|]. split.
    + exists http_new. split; [done|]. rewrite Hpolls. split; [by apply (p_start [])|done].
    + split; [intros Hnil; by rewrite <- Hpolls, Hnil|]. split; [done|]. unfold number, holds. cbn in *. lia.
  - exists r', sent, chunks. split; [reflexivity|]. split; [done|]. split; [done|].
    apply bytes_given in Hall. rewrite Hfin, app_nil_r in Hall by done. done.
Qed.

End Http.

(** ** Masked messages *)
Section Masked.
Context `{HL : JsonLaws} (env : ReaderEnv) (accepting : ∀ n, accepts env n = true).

(** The size of a read, and of a masked message that has room for one more read
    behind it *)
Definition READ_BYTES : Z := 65536.
Definition masked (m w : list Z) : Prop :=
  object_text w ∧ json_unmask w = Ok (mkUnmasked m true false) ∧ Z.of_nat (length w) + READ_BYTES ≤ JsonFramer.MAX_JSON_FRAME_BYTES.
Definition json_at (limit : Z) (d : Discriminator) (ms : list (list Z)) (reads : list (list Z)) : Prop :=
  ∃ f ws, d = mkDiscriminator (FJson f) [JsonMasquerader] ∧ Forall2 masked ms ws ∧
    JsonFramer.data_so_far f ++ concat reads = concat ws ∧ Forall (fun c => Z.of_nat (length c) ≤ READ_BYTES) reads ∧
    Z.of_nat (length (JsonFramer.data_so_far f)) ≤ limit.
Definition json_rest := json_at (JsonFramer.MAX_JSON_FRAME_BYTES - READ_BYTES).
Definition json_active := json_at JsonFramer.MAX_JSON_FRAME_BYTES.
Definition next_message (ms : list (list Z)) (m : list Z) (ms' : list (list Z)) : Prop := ms = m :: ms'.

Lemma json_rest_add d ms c reads : json_rest d ms (c :: reads) → json_active (discriminator_add_data c d) ms reads.
Proof.
  intros (f & ws & -> & Hws & Hd & [Hc Hreads]%Forall_cons_1 & Hlen).
  exists (JsonFramer.add_data c f), ws. split; [done|]. split; [done|].
  rewrite add_data_small by lia. cbn. split; [by rewrite <- app_assoc|]. split; [done|]. rewrite length_app. lia.
Qed.
Lemma json_active_take d ms reads : json_active d ms reads → ∃ o d', take_chunk d = Ret (o, d') ∧
  match o with
  | Some uc => uc_sequenced uc = false ∧ ∃ ms', next_message ms (uc_chunk uc) ms' ∧ json_active d' ms' reads
  | None => json_rest d' ms reads ∧ (reads = [] → ms = [])
  end.
Proof.
  intros (f & ws & -> & Hws & Hd & Hreads & Hlen). unfold take_chunk. cbn [framer framer_take_frame].
  destruct Hws as [|m w ms ws Hm Hws]; [|pose proof Hm as (Hobj & Hun & Hsize)].
  - apply app_eq_nil in Hd as [Hd Hr]. assert (JsonFramer.take_frame f = Ret (None, idle [])) as ->.
    { unfold JsonFramer.take_frame, JsonFramer.reset. cbn [JsonFramer.data_so_far]. by rewrite Hd. }
    cbn [exec_bind fst snd]. eexists _, _. split; [reflexivity|]. split; [|done].
    exists (idle []), []. by split_and!.
  - cbn [concat] in Hd. apply cut in Hd as [(d' & Hd & Hd')|(a & Ha & Hw & Hq)].
    + rewrite (take_frame_object w d' f Hobj Hd). cbn [exec_bind fst snd masqueraders first_unmasked try_unmask fc_chunk].
      rewrite Hun. eexists _, _. split; [reflexivity|]. cbn [uc_sequenced uc_chunk]. split; [done|]. exists ms. split; [reflexivity|].
      exists (idle d'), ws. split; [done|]. split; [done|]. split; [done|]. split; [done|].
      rewrite Hd, length_app in Hlen. cbn [idle JsonFramer.data_so_far]. lia.
    + rewrite Hw in Hobj. destruct (take_frame_partial _ a f Hobj Ha eq_refl Hlen) as (f' & -> & Hf').
      cbn [exec_bind fst snd]. eexists _, _. split; [reflexivity|]. split.
      * exists f', (w :: ws). split; [done|]. split; [by constructor|]. cbn [concat]. rewrite Hf', Hq.
        split; [rewrite Hw, <- app_assoc; reflexivity|]. split; [done|]. rewrite Hw, length_app in Hsize. lia.
      * intros ->. cbn in Hq. symmetry in Hq. by apply app_eq_nil in Hq as [-> _].
Qed.
Lemma messages_given chunks : ∀ ms ms', gives_all next_message ms chunks ms' → ms = chunks ++ ms'.
Proof.
  induction chunks as [|c chunks IH]; intros ms ms'; cbn; [by intros -> |]. intros (y & -> & H). by rewrite (IH _ _ H).
Qed.

(** What a neighbour masks is what this node reads: any messages, masked one
    by one by the JSON masquerader and written one after another to a
    clandestine socket, read from it in any pieces of a read's size and over any
    polls, come to the Dispatcher unmasked, all of them, in order and once,
    without sequence numbers.  No masked message is longer than a megabyte less
    one read. *)
Lemma masked_messages_read ms ws polls port peer local :
  Forall (fun m => bytes_ok m) ms → Forall2 (fun m w => mask JsonMasquerader m = Ret (Ok w)) ms ws →
  Forall (fun w => Z.of_nat (length w) + READ_BYTES ≤ JsonFramer.MAX_JSON_FRAME_BYTES) ws →
  Forall (Forall (fun c => c ≠ [] ∧ Z.of_nat (length c) ≤ READ_BYTES)) polls → concat (concat polls) = concat ws →
  Z.of_nat (length (concat ws)) < 2 ^ 64 - 1 →
  ∃ r r' sent,
    reader_new port [JsonDiscriminatorFactory] true peer local = Ret r ∧
    run_polls env (map (map Bytes) polls) r [] = Ret (NotReady, r', sent) ∧
    data_of sent = map (fun m => (None, m)) ms.
Proof.
  intros Hms Hws Hsizes Hpolls Hcat Hlen. eexists. unfold reader_new.
  cbn [make_all make discriminator_new exec_bind length Nat.ltb Nat.leb]. set (r := mkReader _ _ _ _ _ _ _).
  assert (Forall2 masked ms ws) as Hmasked.
  { clear -HL Hms Hws Hsizes. induction Hws as [|m w ms ws Hw _ IH]; [constructor|].
    apply Forall_cons_1 in Hms as [Hm Hms]. apply Forall_cons_1 in Hsizes as [Hs Hsizes]. constructor; [|by apply IH].
    destruct (mask_unmask m Hm) as (w' & Hw' & Hobj & Hun). cbn [mask] in Hw. rewrite Hw' in Hw. injection Hw as ->. done. }
  destruct (run_gives env accepting json_rest json_active next_message (fun ms => ms = []) false json_rest_add json_active_take polls r [] ms [] O)
    as (chunks & x' & r' & sent & Hrun & Hdata & Hall & (d & _ & _ & _ & Hfin & _) & _).
  - eapply Forall_impl; [exact Hpolls|]. intros cs Hcs. eapply Forall_impl; [exact Hcs|]. by intros ? [? _].
  - done.
  - exists (mkDiscriminator (FJson JsonFramer.new) [JsonMasquerader]). rewrite app_nil_r, Hcat, Nat.add_0_r. split; [done|].
    split; [by vm_compute|]. split; [|split; [|split; [done|unfold number, holds; cbn in *; lia]]].
    + exists JsonFramer.new, ws. split; [done|]. split; [done|]. split; [done|]. split.
      * clear -Hpolls. induction Hpolls as [|cs polls Hcs _ IH] using Forall_ind; [constructor|]. cbn. apply Forall_app. split; [|done].
        eapply Forall_impl; [exact Hcs|]. by intros ? [_ ?].
      * by vm_compute.
    + intros Hnil. rewrite Hnil in Hcat. destruct Hmasked as [|m w ms ws (Hobj & _) _]; [done|].
      destruct Hobj as (? & ? & _ & _ & ->). done.
  - exists r', sent. split; [reflexivity|]. split; [done|].
    apply messages_given in Hall. rewrite Hfin, app_nil_r in Hall by done. subst chunks. rewrite Hdata. cbn.
    generalize 0. clear. induction ms as [|m ms IH]; intros n; [done|]. cbn. by rewrite IH.
Qed.

End Masked.

(** ** A [CONNECT] request and the TLS records behind it *)
Section Tunnel.
Context `{HJ : JsonCrate} (env : ReaderEnv) (accepting : ∀ n, accepts env n = true).

(** No read ends within the first three bytes of a record. *)
Definition cut_well (reads records : list (list Z)) : Prop :=
  ∀ reads' s, reads' `suffix_of` reads → s `suffix_of` records →
    ¬ (length (concat reads') < length (concat s) <= length (concat reads') + 3)%nat.
Definition tls_at (d : Discriminator) (records : list (list Z)) (reads : list (list Z)) : Prop :=
  ∃ data, d = mkDiscriminator (FTls (TlsFramer.mkTls data)) [NullMasquerader] ∧ Forall tls_record records ∧
    data ++ concat reads = concat records ∧ cut_well reads records.

Lemma cut_well_less reads records reads' records' : cut_well reads records → reads' `suffix_of` reads → records' `suffix_of` records →
  cut_well reads' records'.
Proof. intros H Hr Hs r s Hr' Hs'. apply H; by etransitivity. Qed.

Lemma tls_at_add d records c reads : tls_at d records (c :: reads) → tls_at (discriminator_add_data c d) records reads.
Proof.
  intros (data & -> & Hrec & Hd & Hcut). exists (data ++ c). split; [done|]. split; [done|]. split; [by rewrite <- app_assoc|].
  eapply cut_well_less; [done|by eexists [c]|done].
Qed.
Lemma tls_at_take d records reads : tls_at d records reads → ∃ o d', take_chunk d = Ret (o, d') ∧
  match o with
  | Some uc => uc_sequenced uc = true ∧ ∃ records', next_message records (uc_chunk uc) records' ∧ tls_at d' records' reads
  | None => tls_at d' records reads ∧ (reads = [] → records = [])
  end.
Proof.
  intros (data & -> & Hrec & Hd & Hcut). unfold take_chunk. cbn [framer framer_take_frame].
  destruct records as [|r records].
  - apply app_eq_nil in Hd as [-> Hr]. eexists _, _. split; [reflexivity|]. split; [|done]. by exists [].
  - pose proof Hrec as [Hr Hrec']%Forall_cons_1. cbn [concat] in Hd. pose proof Hd as Hd0.
    apply cut in Hd as [(d' & -> & Hd')|(a & Ha & -> & Hq)].
    + rewrite take_frame_record by done. cbn [exec_bind fst snd]. eexists _, _. split; [reflexivity|]. cbn. split; [done|].
      exists records. split; [done|]. exists d'. split_and!; try done. eapply cut_well_less; [done|done|by eexists [r]].
    + assert (data = [] ∨ (4 <= length data)%nat) as Hlen.
      { destruct data as [|b data]; [by left|]. right. destruct (decide (4 <= length (b :: data))%nat) as [|Hlt]; [done|]. exfalso.
        apply (Hcut reads (((b :: data) ++ a) :: records)); [done|done|]. cbn [concat]. rewrite <- Hd0, length_app. cbn [length] in *. lia. }
      rewrite (take_frame_incomplete data a) by done. cbn [exec_bind fst snd]. eexists _, _. split; [reflexivity|]. split.
      * by exists data.
      * intros ->. cbn in Hq. symmetry in Hq. by apply app_eq_nil in Hq as [-> _].
Qed.

(** The header of a request, as the lines of [request_bytes] *)
Lemma request_text_lines first rest body :
  header_text (first :: rest) ++ CRLF ++ body = request_bytes first rest body.
Proof.
  unfold request_bytes, header_text, header_lines. revert first. induction rest as [|h rest IH]; intros first; cbn [map concat].
  - unfold line_text. cbn [app]. by rewrite app_nil_r, <- app_assoc.
  - specialize (IH h). cbn [map concat] in IH. rewrite <- !app_assoc in IH. rewrite <- !app_assoc, IH. unfold line_text.
    by rewrite <- !app_assoc.
Qed.
Definition connect_request (q : HttpRequest) : Prop :=
  well_formed q ∧ rq_body q = Sized [] ∧ starts_with CONNECT_PREFIX (request_text q) = true.

Lemma connect_end q tls : connect_request q →
  index_of (request_text q ++ tls) DOUBLE_CRLF = Some (length (request_text q) - 4)%nat ∧
  Z.of_nat (length (request_text q)) ≤ MAX_HTTP_HEADER_BYTES ∧ (12 <= length (request_text q))%nat.
Proof.
  intros (((m & first & rest & Hls & _) & Hlines & Hmax & _) & Hb & Hst). unfold request_text in *. rewrite Hb, Hls in *. cbn [body_text] in *.
  rewrite app_nil_r in *.
  apply Forall_cons_1 in Hlines as [[Hcr _] Hrest].
  assert (∀ t, (header_text ((m ++ first) :: rest) ++ CRLF) ++ t = request_bytes (m ++ first) rest t) as Ht.
  { intros t. rewrite <- app_assoc. apply request_text_lines. }
  pose proof (Ht []) as H0. rewrite app_nil_r in H0.
  assert (length (header_text ((m ++ first) :: rest) ++ CRLF) = length (m ++ first) + length (header_lines rest) + 4)%nat as Hl.
  { rewrite H0. unfold request_bytes. rewrite !length_app. cbn. lia. }
  split_and!; [|done|].
  - rewrite Ht. change DOUBLE_CRLF with (CRLF ++ CRLF). rewrite header_end by done. f_equal. rewrite Hl. lia.
  - rewrite Hl. assert (8 <= length (m ++ first) + length (header_lines rest))%nat; [|lia].
    apply starts_with_spec in Hst as [t Hst]. pose proof (header_end (m ++ first) rest [] Hcr Hrest) as Hend.
    rewrite <- H0, Hst in Hend. change (CRLF ++ CRLF) with DOUBLE_CRLF in Hend.
    change (index_of (CONNECT_PREFIX ++ t) DOUBLE_CRLF) with (index_from (CONNECT_PREFIX ++ t) (13 :: [10; 13; 10])) in Hend.
    rewrite index_from_skip in Hend by (repeat constructor; done).
    destruct (index_from t _); [|done]. cbn in Hend. injection Hend as Hend. lia.
Qed.

(** The header goes out as one message with the number zero. *)
Lemma connect_processed q r sent d0 :
  connect_request q → discriminators r = [d0; http_discriminator http_new] → ∃ r' msg h,
  process_discriminator_data env 1 (request_text q) true r sent = Ret (Ok (), r', sent ++ [ToDispatcher msg]) ∧
  ib_sequence_number_opt msg = Some 0 ∧ ib_data msg = request_text q ∧ discriminators r' = [d0; http_discriminator h] ∧
  sequencer r' = sequencer r ∧ connect_probe_opt r' = connect_probe_opt r.
Proof.
  intros Hq Hds. pose proof (connect_end q [] Hq) as (Hend & _ & Hlen). rewrite app_nil_r in Hend.
  destruct Hq as (Hwf & Hb & Hst). set (header := request_text q) in *. set (h0 := http_add_data header http_new).
  destruct (http_advances h0 []) as (o & h1 & Ht1 & Hp1 & Ho1).
  { cbn. rewrite app_nil_r. pose proof (p_start header [q] ltac:(constructor; [done|constructor])) as Hp. cbn in Hp. by rewrite app_nil_r in Hp. }
  destruct o as [fr|].
  2: { destruct Ho1 as [Hh Hnil]. rewrite Hnil in Hh by done. unfold held in Hh. cbn in Hh. rewrite Hh in Hlen. cbn in Hlen. lia. }
  destruct (connect_frame header fr h1 Hst Hend Ht1) as [Hfr Hh1].
  destruct (http_take_frame_spec h0) as (o' & h1' & Ht1' & Hok1 & _); [apply http_add_data_ok, idle_ok|].
  rewrite Ht1 in Ht1'. injection Ht1' as <- <-.
  destruct (http_take_frame_spec h1 Hok1) as (o2 & h2 & Ht2 & _ & Ho2). rewrite Hh1 in Ho2.
  destruct o2 as [fr2|]; [destruct Ho2 as [Hne Hle]; destruct (fc_chunk fr2); [done|cbn in Hle; lia]|].
  unfold process_discriminator_data. rewrite Hds. cbn [lookup list_lookup expect exec_bind].
  change (framer_holds (framer (discriminator_add_data header (http_discriminator http_new)))) with (length header).
  destruct (length header) as [|[|n]]; [lia..|]. remember (S n) as fuel eqn:Ef. cbn [process_loop].
  cbn [discriminators with_discriminators insert list_insert lookup list_lookup expect exec_bind].
  unfold take_chunk at 1. cbn [discriminator_add_data http_discriminator framer framer_add_data framer_take_frame masqueraders].
  fold h0. rewrite Ht1. cbn [exec_bind fst snd first_unmasked try_unmask uc_sequenced andb negb]. rewrite accepting, Ef.
  cbn [process_loop discriminators with_discriminators insert list_insert lookup list_lookup expect exec_bind uc_chunk].
  unfold take_chunk. cbn [framer framer_take_frame masqueraders]. rewrite Ht2. cbn [exec_bind fst snd].
  eexists _, _, h2. split; [reflexivity|]. rewrite Hfr. by split_and!.
Qed.

Lemma index_from_extend n h : ∀ t i, index_from h n = Some i → index_from (h ++ t) n = Some i.
Proof.
  induction h as [|b h IH]; intros t i; [done|]. cbn [app index_from].
  destruct (starts_with n (b :: h)) eqn:E.
  - intros [= <-]. apply starts_with_spec in E as [rest Hr]. change (b :: h ++ t) with ((b :: h) ++ t). rewrite Hr, <- app_assoc.
    by rewrite (proj2 (starts_with_spec n (n ++ rest ++ t)) ltac:(by eexists)).
  - destruct (index_from h n) as [k|] eqn:Ek; [|done]. intros [= <-]. rewrite (IH t k eq_refl). cbn.
    destruct (starts_with n (b :: h ++ t)) eqn:E2; [|done]. exfalso.
    pose proof (index_of_bound h n k) as Hb. destruct n as [|x n]; [done|]. specialize (Hb Ek).
    change (b :: h ++ t) with ((b :: h) ++ t) in E2. rewrite starts_with_app in E2 by (cbn in *; lia). congruence.
Qed.

(** As long as the header is not complete it is held back. *)
Lemma connect_held q p c a r sent :
  connect_request q → connect_probe_opt r = Some p → request_text q = (p ++ c) ++ a → a ≠ [] →
  wrangle_discriminators env c r sent = Ret (Ok (), with_probe (Some (p ++ c)) r, sent).
Proof.
  intros Hq Hp Hh Ha. pose proof (connect_end q [] Hq) as (Hend & Hmax & _). rewrite app_nil_r in Hend.
  destruct Hq as (_ & _ & Hst). unfold wrangle_discriminators. rewrite Hp. set (whole := p ++ c) in *.
  apply starts_with_spec in Hst as [t Ht]. rewrite Hh in Ht.
  assert (index_of whole DOUBLE_CRLF = None) as Hnone.
  { destruct (index_of whole DOUBLE_CRLF) as [i|] eqn:Ei; [|done]. exfalso. pose proof (index_of_bound _ _ _ Ei) as Hb.
    apply (index_from_extend DOUBLE_CRLF _ a) in Ei. change (index_from ?h DOUBLE_CRLF) with (index_of h DOUBLE_CRLF) in Ei.
    rewrite Hh in Hend. rewrite Hend in Ei. injection Ei as Ei. rewrite length_app in Ei. destruct a; [done|]. cbn in Ei, Hb. lia. }
  destruct (starts_with whole CONNECT_PREFIX) eqn:E1; [done|].
  apply cut in Ht as [(x & Hx & _)|(x & _ & Hx & _)].
  - rewrite Hx at 1. rewrite (proj2 (starts_with_spec CONNECT_PREFIX (CONNECT_PREFIX ++ x)) ltac:(by eexists)). cbn [negb].
    rewrite Hnone. rewrite (proj2 (Z.ltb_ge _ _)); [done|]. rewrite Hh, length_app in Hmax. lia.
  - rewrite Hx in E1. by rewrite (proj2 (starts_with_spec whole (whole ++ x)) ltac:(by eexists)) in E1.
Qed.
Lemma connect_complete q p c tls r sent :
  connect_request q → connect_probe_opt r = Some p → p ++ c = request_text q ++ tls →
  wrangle_discriminators env c r sent
  = (let* done_ := process_discriminator_data env 1 (request_text q) true (with_probe None r) sent in
     match done_ with
     | (Err e, r, sent) => Ret (Err e, r, sent)
     | (Ok _, r, sent) =>
         match tls with [] => Ret (Ok (), r, sent) | _ => process_discriminator_data env 0 tls false r sent end
     end).
Proof.
  intros Hq Hp Hw. pose proof (connect_end q tls Hq) as (Hend & _ & Hlen). destruct Hq as (_ & _ & Hst).
  unfold wrangle_discriminators. rewrite Hp, Hw. assert (starts_with (request_text q ++ tls) CONNECT_PREFIX = false) as ->.
  { destruct (starts_with _ CONNECT_PREFIX) eqn:E; [|done]. apply starts_with_spec in E as [x Hx]. apply (f_equal length) in Hx.
    rewrite !length_app in Hx. cbn in Hx. lia. }
  rewrite starts_with_app, Hst by (cbn; lia). cbn [negb]. rewrite Hend.
  replace (length (request_text q) - 4 + 4)%nat with (length (request_text q)) by lia.
  rewrite split_off_Ret by (rewrite length_app; lia). cbn [exec_bind fst snd]. rewrite take_app_length, drop_app_length.
  destruct (process_discriminator_data env 1 _ _ _ _) as [[[[] ?] ?]|]; [cbn [exec_bind]; by destruct tls|done..].
Qed.

(** Reads do not depend on how they fall into polls. *)
Lemma poll_errors cs e e' r sent : poll_loop env (map Bytes cs) e r sent = poll_loop env (map Bytes cs) e' r sent.
Proof. destruct cs as [|c cs]; [done|]. cbn. by destruct c. Qed.
Lemma run_flat polls : ∀ r sent r' sent', Forall (Forall (fun c => c ≠ [])) polls →
  poll_loop env (map Bytes (concat polls)) O r sent = Ret (NotReady, r', sent') →
  run_polls env (map (map Bytes) polls) r sent = Ret (NotReady, r', sent').
Proof.
  induction polls as [|cs polls IH]; intros r sent r' sent' Hne; cbn [concat map run_polls]; [done|].
  apply Forall_cons_1 in Hne as [Hcs Hne]. rewrite map_app. unfold poll. generalize O at 1 2 as e. revert r sent.
  induction Hcs as [|c cs Hc _ IHc] using Forall_ind; intros r sent e H.
  - cbn [map app poll_loop exec_bind] in *. apply IH; [done|]. by rewrite (poll_errors _ O e).
  - cbn [map app poll_loop] in *. destruct c as [|b c]; [done|].
    destruct (wrangle_discriminators env (b :: c) r sent) as [[[[] r1] sent1]|]; [|exfalso|done]; cbn [exec_bind] in *.
    + by apply IHc.
    + unfold shut in H. by destruct (shutdown r1 sent1).
Qed.

(** The records behind the header; [tls] has come with its last bytes. *)
Lemma records_polled records tls cs r sent :
  Forall tls_record records → Forall (fun c => c ≠ []) cs → cut_well cs records → Z.of_nat (length (concat records)) < 2 ^ 64 - 1 →
  connect_probe_opt r = None → discriminators r !! O = Some (mkDiscriminator (FTls TlsFramer.new) [NullMasquerader]) → number r = 0 →
  tls ++ concat cs = concat records →
  ∃ r' sent', poll_loop env (map Bytes (match tls with [] => cs | _ => tls :: cs end)) O r sent = Ret (NotReady, r', sent') ∧
    data_of sent' = data_of sent ++ numbered true 0 records.
Proof.
  intros Hrec Hne Hcut Hlen Hp Hd Hn Htls. set (reads := match tls with [] => cs | _ => tls :: cs end).
  assert (concat reads = concat records) as Hcat by (unfold reads; by destruct tls).
  assert (cut_well reads records) as Hcut'.
  { unfold reads in *. destruct tls as [|t tls]; [done|]. intros reads' s [[|y k] Hr] Hs.
    - cbn in Hr. rewrite <- Hr, Hcat. destruct Hs as [k ->]. rewrite concat_app, length_app. lia.
    - injection Hr as _ Hr. apply Hcut; [by exists k|done]. }
  destruct (poll_gives env accepting tls_at tls_at next_message (fun x => x = []) true tls_at_add tls_at_take reads O r sent records [] O)
    as (chunks & x' & r' & sent' & Hrun & Hdata & Hall & (d & _ & _ & _ & Hfin & _) & _).
  - unfold reads. destruct tls; [done|by constructor].
  - done.
  - rewrite app_nil_r, Nat.add_0_r, Hcat. eexists. split; [exact Hd|]. split; [done|]. split; [|split; [|split; [lia|rewrite Hn; cbn; lia]]].
    + by exists [].
    + intros Hnil. rewrite Hnil in Hcat. destruct records as [|x records]; [done|].
      apply Forall_cons_1 in Hrec as [(? & ? & ? & -> & _) _]. done.
  - exists r', sent'. split; [done|]. apply messages_given in Hall. rewrite Hfin, app_nil_r in Hall by done. subst chunks.
    by rewrite Hdata, Hn.
Qed.

Lemma tunnel_poll q records cs : connect_request q → Forall tls_record records → ∀ p r sent,
  Forall (fun c => c ≠ []) cs → cut_well cs records → Z.of_nat (length (concat records)) < 2 ^ 64 - 1 →
  connect_probe_opt r = Some p → number r = 0 →
  discriminators r = [mkDiscriminator (FTls TlsFramer.new) [NullMasquerader]; http_discriminator http_new] →
  p ++ concat cs = request_text q ++ concat records → (length p < length (request_text q))%nat →
  ∃ r' sent', poll_loop env (map Bytes cs) O r sent = Ret (NotReady, r', sent') ∧
    data_of sent' = data_of sent ++ (Some 0, request_text q) :: numbered true 0 records.
Proof.
  intros Hq Hrec. induction cs as [|c cs IH]; intros p r sent Hne Hcut Hlen Hp Hn Hds Hcat Hlt.
  { cbn in Hcat. apply (f_equal length) in Hcat. rewrite !length_app in Hcat. cbn in Hcat. lia. }
  apply Forall_cons_1 in Hne as [Hc Hne]. cbn [map poll_loop]. destruct c as [|b c]; [done|]. set (c' := b :: c) in *.
  assert (cut_well cs records) as Hcut' by (eapply cut_well_less; [done|by eexists [c']|done]).
  cbn [concat] in Hcat. rewrite app_assoc in Hcat. apply cut in Hcat as [(tls & Hw & Htls)|(a & Ha & Hh & Hrest)].
  - rewrite (connect_complete q p c' tls) by done.
    destruct (connect_processed q (with_probe None r) sent _ Hq Hds) as (r1 & msg & h & -> & Hm1 & Hm2 & Hds1 & Hseq1 & Hp1).
    cbn [exec_bind]. set (sent1 := sent ++ [ToDispatcher msg]).
    destruct (records_polled records tls cs r1 sent1) as (r' & sent' & Hrun & Hdata); try done.
    { by rewrite Hds1. }
    { unfold number in *. by rewrite Hseq1. }
    exists r', sent'. split.
    + rewrite <- Hrun. destruct tls as [|t tls]; [done|]. cbn [map poll_loop]. unfold wrangle_discriminators. by rewrite Hp1.
    + rewrite Hdata. unfold sent1. rewrite data_of_app, <- app_assoc. cbn. by rewrite Hm1, Hm2.
  - rewrite (connect_held q p c' a r sent) by done. cbn [exec_bind].
    apply (IH (p ++ c') (with_probe (Some (p ++ c')) r) sent); try done.
    + by rewrite Hh, Hrest, !app_assoc.
    + rewrite Hh, (length_app (p ++ c')). destruct a; [done|]. cbn [length]. lia.
Qed.

(** [C13] An application's tunnel reaches the ProxyServer: on the mobile node's
    port, a [CONNECT] request and the TLS records that follow it, read in any
    pieces and over any polls (the request and the first records may come in
    one read or in many), are given to the Dispatcher as the request, with the
    number zero, and then each record as one message, in order and once,
    numbered from zero; provided no read ends within the first three bytes of a
    record. *)
Theorem tunnel_delivered q records polls peer local :
  connect_request q → Forall tls_record records → Forall (Forall (fun c => c ≠ [])) polls →
  concat (concat polls) = request_text q ++ concat records → cut_well (concat polls) records →
  Z.of_nat (length (concat records)) < 2 ^ 64 - 1 →
  ∃ r r' sent,
    reader_new (Some TLS_PORT) [TlsDiscriminatorFactory; HttpRequestDiscriminatorFactory] false peer local = Ret r ∧
    run_polls env (map (map Bytes) polls) r [] = Ret (NotReady, r', sent) ∧
    data_of sent = (Some 0, request_text q) :: numbered true 0 records.
Proof.
  intros Hq Hrec Hne Hcat Hcut Hlen. eexists. unfold reader_new.
  cbn [make_all make discriminator_new exec_bind length Nat.ltb Nat.leb]. set (r := mkReader _ _ _ _ _ _ _).
  destruct (tunnel_poll q records (concat polls) Hq Hrec [] r [])
    as (r' & sent & Hpoll & Hdata).
  - clear -Hne. induction Hne as [|cs polls Hcs _ IH] using Forall_ind; [constructor|]. cbn. by apply Forall_app.
  - done.
  - done.
  - done.
  - done.
  - done.
  - done.
  - destruct (connect_end q [] Hq) as (_ & _ & H). cbn. lia.
  - exists r', sent. split; [reflexivity|]. split; [by apply run_flat|done].
Qed.

(** [C38] A record whose first bytes come alone is lost: whatever one, two or three
    bytes a read of the TLS port ends with when nothing else is waiting, the
    framer throws them away, and the reader is as if they had never come; what
    follows of the record is then not at the start of a record. *)
Theorem short_read_forgotten r sent data f :
  (0 < length data < 4)%nat → connect_probe_opt r = None →
  discriminators r !! O = Some (mkDiscriminator (FTls f) [NullMasquerader]) → TlsFramer.data_so_far f = [] →
  wrangle_discriminators env data r sent = Ret (Ok (), r, sent).
Proof.
  intros Hdata Hp Hd Hf. unfold wrangle_discriminators, process_discriminator_data. rewrite Hp, Hd. cbn [expect exec_bind].
  destruct r as [loc peer port ds cl seq probe]. cbn [discriminators connect_probe_opt] in *.
  destruct ds as [|d ds]; [done|]. injection Hd as ->. destruct f as [l]. cbn in Hf. subst l.
  cbn [process_loop with_discriminators discriminators insert list_insert lookup list_lookup expect exec_bind].
  unfold take_chunk. cbn [discriminator_add_data framer framer_add_data framer_take_frame masqueraders].
  rewrite short_data_dropped by (cbn; lia). reflexivity.
Qed.

End Tunnel.
