(* ===== verification/StreamWriters.v ===== *)
(** * The writers of connections

    [stream_writer_sorted.rs] writes what the ProxyServer sends to a browser: it
    takes packets from its channel into a sequence buffer and writes them in
    order; [stream_writer_unsorted.rs] writes masked packages to a neighbour in
    the order they come.  A poll of either is a function of what its channel
    holds and of what the socket does: each [poll_write] takes some of the bytes
    or fails, and is not ready when the list ends.  Shown is that what a socket
    gets is always the beginning of what it ought to get, and that it gets all
    of it when it takes what it is given. *)

From Stdlib Require Import ZArith Lia.
From stdpp Require Import base list gmap numbers option sorting.
From S2P Require Import Prelude SequenceBuffer StreamReader.

Local Open Scope Z_scope.
Local Open Scope rust_scope.

(** ** Sockets, channels and polls *)

Definition MAX_CONSECUTIVE_WRITE_ERRORS : nat := 8.

(** What [poll_write] does: it takes at most so many bytes of what it is given,
    or fails. *)
Inductive Write := Takes (n : nat) | WriteError (kind : ErrorKind).
(** What [shutdown] of a socket answers. *)
Inductive Shutdown := ShutdownNotReady | ShutdownReady | ShutdownFailed.

(** The receiving end of an unbounded channel, closed when its sender is gone. *)
Record Channel := mkChannel { ch_queue : list SequencedPacket; ch_closed : bool }.

(** What happens up to and in one poll: packets are sent, the sender may be
    dropped, and the socket answers. *)
Record Turn := mkTurn {
  tn_sent : list SequencedPacket;
  tn_closes : bool;
  tn_writes : list Write;
  tn_shutdown : Shutdown
}.

Definition channel_after (t : Turn) (c : Channel) : Channel :=
  mkChannel (ch_queue c ++ tn_sent t) (ch_closed c || tn_closes t).

(** ** The sorted writer *)

Record StreamWriterSorted := mkSorted {
  sw_rx : Channel;
  sequence_buffer : SequenceBuffer;
  shutting_down : bool
}.

Definition sorted_new : StreamWriterSorted := mkSorted (mkChannel [] false) SequenceBuffer.new false.

Definition with_buffer (b : SequenceBuffer) (w : StreamWriterSorted) : StreamWriterSorted :=
  mkSorted (sw_rx w) b (shutting_down w).

Inductive ReadChannelStatus := StillOpen | Closed.
Inductive WriteBufferStatus := StreamInError | BufferNotEmpty | BufferEmpty.

Definition sorted_shutdown (answer : Shutdown) : Polled :=
  match answer with ShutdownNotReady => NotReady | ShutdownReady => Ready | ShutdownFailed => Failed end.

Definition read_data_from_channel (w : StreamWriterSorted) : ReadChannelStatus * StreamWriterSorted :=
  (if ch_closed (sw_rx w) then Closed else StillOpen,
   mkSorted (mkChannel [] (ch_closed (sw_rx w)))
     (foldl SequenceBuffer.push (sequence_buffer w) (ch_queue (sw_rx w))) (shutting_down w)).

Fixpoint write_loop (writes : list Write) (answer : Shutdown) (consecutive_write_errors : nat)
    (w : StreamWriterSorted) (written : list Z) : exec (WriteBufferStatus * StreamWriterSorted * list Z) :=
  match SequenceBuffer.poll (sequence_buffer w) with
  | (None, _) => Ret (BufferEmpty, w, written)
  | (Some packet, b) =>
      match writes with
      | [] => let* b := repush b packet in Ret (BufferNotEmpty, with_buffer b w, written)
      | WriteError kind :: writes =>
          if indicates_dead_stream kind then Ret (StreamInError, with_buffer b w, written)
          else
            let consecutive_write_errors := S consecutive_write_errors in
            if (MAX_CONSECUTIVE_WRITE_ERRORS <=? consecutive_write_errors)%nat
            then Ret (StreamInError, with_buffer b w, written)
            else
              let* b := repush b packet in
              write_loop writes answer consecutive_write_errors (with_buffer b w) written
      | Takes n :: writes =>
          let len := Nat.min n (length (data packet)) in
          let written := written ++ take len (data packet) in
          if negb (len =? length (data packet))%nat then
            let* b := repush b (mkPacket (drop len (data packet)) (sequence_number packet) (last_data packet)) in
            write_loop writes answer O (with_buffer b w) written
          else if last_data packet then
            Ret (match answer with
                 | ShutdownNotReady => BufferNotEmpty
                 | ShutdownReady => BufferEmpty
                 | ShutdownFailed => StreamInError
                 end, mkSorted (sw_rx w) b true, written)
          else write_loop writes answer O (with_buffer b w) written
      end
  end.
Definition write_from_buffer_to_stream (writes : list Write) (answer : Shutdown) (w : StreamWriterSorted)
    (written : list Z) : exec (WriteBufferStatus * StreamWriterSorted * list Z) :=
  write_loop writes answer O w written.

Definition sorted_poll (writes : list Write) (answer : Shutdown) (w : StreamWriterSorted) (written : list Z)
    : exec (Polled * StreamWriterSorted * list Z) :=
  if shutting_down w then Ret (sorted_shutdown answer, w, written)
  else
    let '(read_result, w) := read_data_from_channel w in
    let* done_ := write_from_buffer_to_stream writes answer w written in
    let '(write_result, w, written) := done_ in
    Ret (match read_result, write_result with
         | _, StreamInError => Failed
         | StillOpen, _ => NotReady
         | Closed, BufferNotEmpty => NotReady
         | Closed, BufferEmpty => Ready
         end, w, written).

(** The executor polls until the future is ready or fails. *)
Fixpoint run_sorted (turns : list Turn) (w : StreamWriterSorted) (written : list Z)
    : exec (Polled * StreamWriterSorted * list Z) :=
  match turns with
  | [] => Ret (NotReady, w, written)
  | t :: turns =>
      let w := mkSorted (channel_after t (sw_rx w)) (sequence_buffer w) (shutting_down w) in
      let* p := sorted_poll (tn_writes t) (tn_shutdown t) w written in
      match p with
      | (NotReady, w, written) => run_sorted turns w written
      | _ => Ret p
      end
  end.

(** ** The unsorted writer *)

Record StreamWriterUnsorted := mkUnsorted { uw_rx : Channel; uw_buf : option SequencedPacket }.

Definition unsorted_new : StreamWriterUnsorted := mkUnsorted (mkChannel [] false) None.

(** The packet to write next: the one held back, or the next of the channel. *)
Definition next_packet (w : StreamWriterUnsorted) : option (SequencedPacket * StreamWriterUnsorted) :=
  match uw_buf w, ch_queue (uw_rx w) with
  | Some packet, _ => Some (packet, mkUnsorted (uw_rx w) None)
  | None, packet :: queue => Some (packet, mkUnsorted (mkChannel queue (ch_closed (uw_rx w))) None)
  | None, [] => None
  end.

Fixpoint unsorted_loop (writes : list Write) (consecutive_write_errors : nat) (w : StreamWriterUnsorted)
    (written : list Z) : Polled * StreamWriterUnsorted * list Z :=
  match next_packet w with
  | None => (if ch_closed (uw_rx w) then Ready else NotReady, w, written)
  | Some (packet, w) =>
      match writes with
      | [] => (NotReady, mkUnsorted (uw_rx w) (Some packet), written)
      | WriteError kind :: writes =>
          if indicates_dead_stream kind then (Failed, w, written)
          else
            let consecutive_write_errors := S consecutive_write_errors in
            if (MAX_CONSECUTIVE_WRITE_ERRORS <=? consecutive_write_errors)%nat then (Failed, w, written)
            else unsorted_loop writes consecutive_write_errors (mkUnsorted (uw_rx w) (Some packet)) written
      | Takes n :: writes =>
          let len := Nat.min n (length (data packet)) in
          let written := written ++ take len (data packet) in
          if negb (len =? length (data packet))%nat
          then unsorted_loop writes O
                 (mkUnsorted (uw_rx w) (Some (mkPacket (drop len (data packet)) (sequence_number packet) false))) written
          else unsorted_loop writes O w written
      end
  end.
Definition unsorted_poll (writes : list Write) (w : StreamWriterUnsorted) (written : list Z)
    : Polled * StreamWriterUnsorted * list Z := unsorted_loop writes O w written.

Fixpoint run_unsorted (turns : list Turn) (w : StreamWriterUnsorted) (written : list Z)
    : Polled * StreamWriterUnsorted * list Z :=
  match turns with
  | [] => (NotReady, w, written)
  | t :: turns =>
      match unsorted_poll (tn_writes t) (mkUnsorted (channel_after t (uw_rx w)) (uw_buf w)) written with
      | (NotReady, w, written) => run_unsorted turns w written
      | p => p
      end
  end.

Definition sent_in (turns : list Turn) : list SequencedPacket := concat (map tn_sent turns).
Definition bytes_of (ps : list SequencedPacket) : list Z := concat (map data ps).

(** ** The buffer of a sorted writer

    Packets carry numbers below the last of 64 bits, so that the sequence space is
    never exhausted. *)

Definition numbered_ok (p : SequencedPacket) : Prop := 0 ≤ sequence_number p < u64_MAX.

(** [holds b n m]: the buffer expects [n] next and keeps the packets of [m]. *)
Definition holds (b : SequenceBuffer) (n : Z) (m : gmap Z SequencedPacket) : Prop :=
  wf b ∧ absr b = Spec.mkReorder n false m.

Lemma buffer_holds_new : holds SequenceBuffer.new 0 ∅.
Proof. split; [apply wf_new|done]. Qed.

Lemma holds_push b n m p :
  holds b n m → numbered_ok p →
  holds (SequenceBuffer.push b p) n
    (if decide (n ≤ sequence_number p < n + MAX_SEQUENCE_REORDER_WINDOW ∧ m !! sequence_number p = None)
     then <[sequence_number p := p]> m else m).
Proof.
  intros [Hwf Ha] Hp. destruct (push_refines b p Hwf) as [Hwf' Ha'].
  { unfold numbered_ok, u64_MAX, max_u in Hp. unfold in_u. lia. }
  split; [done|]. rewrite Ha', Ha. unfold Spec.push, Spec.accepts. cbn [Spec.exhausted Spec.next Spec.pending].
  destruct (decide (n ≤ sequence_number p < _ ∧ _)) as [[? ?]|Hno]; [by rewrite decide_True|].
  rewrite decide_False; [done|]. intros (_ & ? & ?). by apply Hno.
Qed.

Lemma holds_poll b n m :
  holds b n m →
  match m !! n with
  | None => (SequenceBuffer.poll b).1 = None
  | Some p => n < u64_MAX → ∃ b', SequenceBuffer.poll b = (Some p, b') ∧ holds b' (n + 1) (delete n m)
  end.
Proof.
  intros [Hwf Ha]. destruct (poll_refines b Hwf) as [Hwf' Hp]. rewrite Ha in Hp.
  unfold Spec.poll in Hp. cbn [Spec.exhausted Spec.next Spec.pending] in Hp.
  destruct (m !! n) as [p|].
  - intros Hn. rewrite bool_decide_false in Hp by lia. destruct (SequenceBuffer.poll b) as [o b']. cbn [fst snd] in *.
    pose proof (f_equal fst Hp) as Ho. pose proof (f_equal snd Hp) as Hb. cbn in Ho. subst o.
    exists b'. split; [done|]. by split; [|symmetry].
  - destruct (SequenceBuffer.poll b) as [o b']. symmetry. exact (f_equal fst Hp).
Qed.

Lemma holds_repush b n m p :
  holds b (n + 1) m → 0 ≤ n → sequence_number p = n → n < u64_MAX →
  ∃ b', repush b p = Ret b' ∧ holds b' n (<[n := p]> m).
Proof.
  intros [Hwf Ha] Hn Hp Hm. pose proof (repush_refines b p Hwf) as Hr.
  assert (in_u 64 (sequence_number p)) as Hin by (unfold in_u, u64_MAX, max_u in *; lia).
  specialize (Hr Hin). rewrite Ha in Hr. unfold Spec.repush in Hr. cbn [Spec.exhausted Spec.next Spec.pending] in Hr.
  rewrite !bool_decide_true in Hr by lia. simpl in Hr.
  destruct (repush b p) as [b'|]; [|done]. destruct Hr as [Hwf' Hb]. exists b'.
  split; [done|]. split; [done|]. assert (∀ x y : Spec.reorder, Ret x = Ret y → x = y) as Hinj by (by intros ?? [= ->]).
  by rewrite <- (Hinj _ _ Hb), Hp.
Qed.

(** ** What has been written

    [done_] are the packets written as a whole, [pre] is what has been written of
    the next one; the buffer keeps packets that were sent, the next one without
    its beginning. *)
Record progress (sent : list SequencedPacket) (n : Z) (m : gmap Z SequencedPacket)
    (done_ : list SequencedPacket) (pre written : list Z) : Prop := mkProgress {
  pg_next : n = Z.of_nat (length done_);
  pg_numbers : map sequence_number done_ = seqZ 0 (Z.of_nat (length done_));
  pg_sent : Forall (fun p => p ∈ sent) done_;
  pg_pending k p : m !! k = Some p → n ≤ k ∧ sequence_number p = k ∧
    ∃ q, q ∈ sent ∧ sequence_number q = k ∧ last_data q = last_data p ∧
      data q = (if decide (k = n) then pre else []) ++ data p;
  pg_written : written = bytes_of done_ ++ pre;
  pg_not_last : Forall (fun p => last_data p = false) done_;
  pg_pre : m !! n = None → pre = []
}.

Definition finished (sent done_ : list SequencedPacket) (written : list Z) : Prop :=
  map sequence_number done_ = seqZ 0 (Z.of_nat (length done_)) ∧ Forall (fun p => p ∈ sent) done_ ∧
  written = bytes_of done_.

(** [in_order]: whole packets by their numbers from zero, and a beginning of the
    next one. *)
Definition in_order (sent : list SequencedPacket) (written : list Z) : Prop :=
  ∃ done_ pre, map sequence_number done_ = seqZ 0 (Z.of_nat (length done_)) ∧
    Forall (fun p => p ∈ sent) done_ ∧ written = bytes_of done_ ++ pre ∧
    (pre = [] ∨ ∃ q, q ∈ sent ∧ sequence_number q = Z.of_nat (length done_) ∧ pre `prefix_of` data q).

Lemma progress_in_order sent n m done_ pre written : progress sent n m done_ pre written → in_order sent written.
Proof.
  intros [Hn Hs Hf Hp Hw Hlst Hpre]. exists done_, pre. split_and!; try done.
  destruct (m !! n) as [p|] eqn:E; [|left; by apply Hpre].
  right. destruct (Hp _ _ E) as (_ & _ & q & ? & ? & _ & Hd). exists q. split_and!; [done|lia|].
  rewrite Hd, decide_True by done. by exists (data p).
Qed.

Lemma no_progress : progress [] 0 ∅ [] [] [].
Proof. split; try done. Qed.

Lemma progress_more sent sent' n m done_ pre written :
  progress sent n m done_ pre written → progress (sent ++ sent') n m done_ pre written.
Proof.
  intros [Hn Hs Hf Hp Hw Hlst Hpre]. split; try done.
  - eapply Forall_impl; [exact Hf|]. intros p ?. apply elem_of_app. by left.
  - intros k p Hk. destruct (Hp k p Hk) as (? & ? & q & ? & ?). split_and!; try done. exists q.
    split; [apply elem_of_app; by left|done].
Qed.

Lemma progress_push sent n m done_ pre written p :
  progress sent n m done_ pre written → p ∈ sent → n ≤ sequence_number p → m !! sequence_number p = None →
  progress sent n (<[sequence_number p := p]> m) done_ pre written.
Proof.
  intros [Hn Hs Hf Hp Hw Hlst Hpre] Hin Hle Hnone. split; try done.
  - intros k q [[<- <-]|[Hne Hk]]%lookup_insert_Some; [|by apply Hp].
    split_and!; [done|done|]. exists p. split_and!; try done. case_decide as Hd; [|done].
    rewrite Hpre; [done|]. by rewrite <- Hd.
  - intros Hx. apply lookup_insert_None in Hx as [Hx _]. by apply Hpre.
Qed.

(** A packet of which a part is written, and one that is written to its end. *)
Lemma progress_part sent n m done_ pre written p len :
  progress sent n m done_ pre written → m !! n = Some p →
  progress sent n (<[n := mkPacket (drop len (data p)) (sequence_number p) (last_data p)]> (delete n m)) done_
    (pre ++ take len (data p)) (written ++ take len (data p)).
Proof.
  intros [Hn Hs Hf Hp Hw Hlst Hpre] Hk. destruct (Hp n p Hk) as (_ & Hseq & q & ? & ? & Hl & Hd).
  rewrite decide_True in Hd by done. split; try done.
  - intros k r [[<- <-]|[Hne Hr]]%lookup_insert_Some.
    + split_and!; [lia|done|]. exists q. split_and!; try done.
      rewrite decide_True by done. cbn [data]. by rewrite Hd, <- app_assoc, take_drop.
    + apply lookup_delete_Some in Hr as [_ Hr]. destruct (Hp k r Hr) as (? & ? & q' & ? & ? & ? & Hd').
      split_and!; try done. exists q'. split_and!; try done. rewrite decide_False in Hd' |- * by lia. done.
  - by rewrite Hw, app_assoc.
  - rewrite lookup_insert_eq. discriminate.
Qed.

Lemma progress_whole sent n m done_ pre written p :
  progress sent n m done_ pre written → m !! n = Some p →
  ∃ q, last_data q = last_data p ∧ finished sent (done_ ++ [q]) (written ++ data p) ∧
    (last_data p = false → progress sent (n + 1) (delete n m) (done_ ++ [q]) [] (written ++ data p)).
Proof.
  intros [Hn Hs Hf Hp Hw Hlst Hpre] Hk. destruct (Hp n p Hk) as (_ & Hseq & q & Hin & Hq & Hl & Hd).
  rewrite decide_True in Hd by done. exists q. split; [done|].
  assert (finished sent (done_ ++ [q]) (written ++ data p)) as (Hs' & Hf' & Hw').
  { split_and!.
    - rewrite map_app, Hs, length_app, Nat2Z.inj_add. cbn [map length].
      rewrite seqZ_app by lia. f_equal. rewrite Hq, Hn. rewrite seqZ_cons by lia. f_equal.
    - apply Forall_app. split; [done|]. by constructor.
    - unfold bytes_of in *. rewrite map_app, concat_app. cbn. by rewrite app_nil_r, Hd, Hw, app_assoc. }
  split; [done|]. intros Hlast. split; try done.
  - rewrite length_app. cbn. lia.
  - intros k r [Hne Hr]%lookup_delete_Some. destruct (Hp k r Hr) as (? & ? & q' & ? & ? & ? & Hd').
    rewrite decide_False in Hd' by lia. split_and!; [lia|done|]. exists q'. split_and!; try done. by case_decide.
  - by rewrite app_nil_r.
  - apply Forall_app. split; [done|]. constructor; [congruence|done].
Qed.

(** ** One poll of the sorted writer *)

Definition is_takes (x : Write) : Prop := match x with Takes _ => True | WriteError _ => False end.

(** A socket that takes every packet of [m] in one go. *)
Definition generous (writes : list Write) (m : gmap Z SequencedPacket) : Prop :=
  (size m <= length writes)%nat ∧
  Forall (fun x => match x with
                   | Takes c => ∀ k p, m !! k = Some p → (length (data p) <= c)%nat
                   | WriteError _ => False
                   end) writes.

Definition covered (n : Z) (m : gmap Z SequencedPacket) (k : Z) : Prop := k < n ∨ is_Some (m !! k).

(** How a poll leaves the writer: in error, which only errors of the socket
    bring about; shutting down, after the last packet; or with its buffer. *)
Definition outcome (sent : list SequencedPacket) (writes : list Write) (n : Z) (m : gmap Z SequencedPacket)
    (st : WriteBufferStatus) (w : StreamWriterSorted) (written : list Z) : Prop :=
  (shutting_down w = false ∧ st = StreamInError ∧ ¬ Forall is_takes writes ∧ in_order sent written)
  ∨ (shutting_down w = true ∧ ∃ done_ q, finished sent (done_ ++ [q]) written ∧ last_data q = true)
  ∨ (shutting_down w = false ∧ st ≠ StreamInError ∧
     ∃ n' m' done_ pre, n ≤ n' ∧ holds (sequence_buffer w) n' m' ∧ progress sent n' m' done_ pre written ∧
       (∀ k, covered n m k → covered n' m' k) ∧
       (st = BufferEmpty → m' !! n' = None) ∧ (st = BufferNotEmpty → ¬ generous writes m)).

Lemma outcome_cons sent x writes n m n' m' st w written :
  outcome sent writes n' m' st w written → n ≤ n' → (∀ k, covered n m k → covered n' m' k) →
  (generous (x :: writes) m → generous writes m') → outcome sent (x :: writes) n m st w written.
Proof.
  intros Ho Hn Hc Hg. destruct Ho as [(?&?&Hw&?)|[?|(?&?&n2&m2&d2&p2&?&?&?&Hc2&?&Hg2)]].
  - left. split_and!; try done. intros Hx. apply Hw. by inversion Hx.
  - right. by left.
  - right. right. split_and!; try done. exists n2, m2, d2, p2. split_and!; auto; [lia|].
    intros Hs Hx. by apply (Hg2 Hs), Hg.
Qed.

Lemma generous_takes c writes m n p :
  generous (Takes c :: writes) m → m !! n = Some p → (length (data p) <= c)%nat ∧ generous writes (delete n m).
Proof.
  intros [Hs Hg] Hp. inversion Hg as [|?? Hc Hw]; subst. split; [by eapply Hc|]. split.
  - rewrite map_size_delete_Some by (by exists p). cbn in Hs. lia.
  - eapply Forall_impl; [exact Hw|]. intros [c'|]; [|done]. intros Hall k q [_ Hq]%lookup_delete_Some. by eapply Hall.
Qed.

Lemma covered_delete n m k : covered n m k → covered (n + 1) (delete n m) k.
Proof.
  intros [Hk|Hs]; [left; lia|]. destruct (decide (k = n)) as [->|]; [left; lia|right]. by rewrite lookup_delete_ne.
Qed.

Lemma covered_insert n m p k : covered n m k → covered n (<[n := p]> (delete n m)) k.
Proof.
  intros [Hk|Hs]; [by left|right]. destruct (decide (k = n)) as [->|]; [by rewrite lookup_insert_eq|].
  by rewrite lookup_insert_ne, lookup_delete_ne.
Qed.

Lemma write_loop_spec sent (Hsent : Forall numbered_ok sent) writes answer : ∀ errors w n m done_ pre written,
  shutting_down w = false → holds (sequence_buffer w) n m → progress sent n m done_ pre written →
  ∃ st w' written', write_loop writes answer errors w written = Ret (st, w', written') ∧ sw_rx w' = sw_rx w ∧
    outcome sent writes n m st w' written'.
Proof.
  induction writes as [|x writes IH]; intros errors w n m done_ pre written Hsd Hh Hp;
    cbn [write_loop]; pose proof (holds_poll _ _ _ Hh) as Hpoll; destruct (m !! n) as [p|] eqn:Hm.
  2,4: destruct (SequenceBuffer.poll (sequence_buffer w)) as [o b'] eqn:E; cbn in Hpoll; subst o;
    exists BufferEmpty, w, written; split_and!; try done; right; right; split_and!; try done;
    exists n, m, done_, pre; split_and!; try done; lia.
  all: destruct (pg_pending _ _ _ _ _ _ Hp n p Hm) as (_ & Hpn & q0 & Hq0 & Hqn & Hql & _).
  all: assert (0 ≤ n < u64_MAX) as Hn
    by (rewrite List.Forall_forall in Hsent; apply list_elem_of_In in Hq0; specialize (Hsent _ Hq0);
        unfold numbered_ok in Hsent; lia).
  all: destruct Hpoll as (b & -> & Hb); [lia|].
  - destruct (holds_repush b n (delete n m) p) as (b' & -> & Hb'); [done|lia|done|lia|]. cbn [exec_bind].
    exists BufferNotEmpty, (with_buffer b' w), written. split_and!; try done. right. right. split_and!; try done.
    exists n, m, done_, pre. split_and!; try done.
    + by rewrite insert_delete_id in Hb'.
    + intros _ [Hs _]. cbn in Hs. assert (size m ≠ O) by (apply map_size_non_empty_iff; intros ->; by rewrite lookup_empty in Hm). lia.
  - destruct x as [c|kind].
    + destruct (Nat.eqb_spec (Nat.min c (length (data p))) (length (data p))) as [El|El]; cbn [negb].
      * rewrite take_ge by lia. destruct (progress_whole _ _ _ _ _ _ _ Hp Hm) as (q & Hl & Hq & Hp').
        destruct (last_data p) eqn:Hlast; [|specialize (Hp' eq_refl)].
        -- eexists _, _, _. split_and!; [done|done|]. right. left. split; [done|]. by exists done_, q.
        -- destruct (IH O (with_buffer b w) (n + 1) (delete n m) _ _ _ Hsd Hb Hp') as (st & w' & x & -> & Hrx & Ho).
           exists st, w', x. split_and!; [done|done|]. eapply outcome_cons; [exact Ho|lia|intros k; apply covered_delete|].
           intros Hg. by eapply generous_takes.
      * destruct (holds_repush b n (delete n m) (mkPacket (drop (Nat.min c (length (data p))) (data p))
            (sequence_number p) (last_data p))) as (b' & -> & Hb'); [done|lia|done|lia|]. cbn [exec_bind].
        pose proof (progress_part _ _ _ _ _ _ _ (Nat.min c (length (data p))) Hp Hm) as Hp'.
        destruct (IH O (with_buffer b' w) _ _ _ _ _ Hsd Hb' Hp') as (st & w' & x & -> & Hrx & Ho).
        exists st, w', x. split_and!; [done|done|]. eapply outcome_cons; [exact Ho|lia|intros k; apply covered_insert|].
        intros Hg. destruct (generous_takes _ _ _ _ _ Hg Hm). lia.
    + assert (in_order sent written) as Hin by (by eapply progress_in_order).
      assert (∀ w', shutting_down w' = false → outcome sent (WriteError kind :: writes) n m StreamInError w' written) as Hfail.
      { intros w' ?. left. split_and!; try done. intros Hx. by inversion Hx. }
      destruct (indicates_dead_stream kind); [eexists _, _, _; split_and!; [done|done|by apply Hfail]|].
      destruct (_ <=? _)%nat; [eexists _, _, _; split_and!; [done|done|by apply Hfail]|].
      destruct (holds_repush b n (delete n m) p) as (b' & -> & Hb'); [done|lia|done|lia|]. cbn [exec_bind].
      rewrite insert_delete_id in Hb' by done.
      destruct (IH (S errors) (with_buffer b' w) _ _ _ _ _ Hsd Hb' Hp) as (st & w' & x & -> & Hrx & Ho).
      exists st, w', x. split_and!; [done|done|]. eapply outcome_cons; [exact Ho|lia|done|].
      intros [_ Hg]. by inversion Hg.
Qed.

(** ** Reading the channel *)

Lemma pushes_spec base sent n done_ pre written q : base ≤ n → ∀ b m,
  holds b n m → progress sent n m done_ pre written → Forall numbered_ok q → Forall (fun p => p ∈ sent) q →
  ∃ m', holds (foldl SequenceBuffer.push b q) n m' ∧ progress sent n m' done_ pre written ∧
    (∀ k, covered n m k → covered n m' k) ∧
    (Forall (fun p => sequence_number p < base + MAX_SEQUENCE_REORDER_WINDOW) q →
     ∀ p, p ∈ q → covered n m' (sequence_number p)).
Proof.
  intros Hbase. induction q as [|p q IH]; intros b m Hh Hp Hok Hin.
  { exists m. split_and!; try done. intros _ ? []%not_elem_of_nil. }
  apply Forall_cons_1 in Hok as [Hpo Hok]. apply Forall_cons_1 in Hin as [Hpin Hin]. cbn [foldl].
  pose proof (holds_push b n m p Hh Hpo) as Hh'. pose proof (pg_next _ _ _ _ _ _ Hp) as Hn0.
  case_decide as Hd.
  - destruct Hd as [Hd1 Hd2].
    destruct (IH _ _ Hh' (progress_push _ _ _ _ _ _ _ Hp Hpin ltac:(lia) Hd2) Hok Hin) as (m' & ? & ? & Hc & Hall).
    exists m'. split_and!; try done.
    + intros k [Hk|Hk]; apply Hc; [by left|right]. rewrite lookup_insert. by case_decide.
    + intros Hw r. apply Forall_cons_1 in Hw as [_ Hw]. rewrite elem_of_cons. intros [->|Hr]; [|by apply Hall].
      apply Hc. right. by rewrite lookup_insert_eq.
  - destruct (IH _ _ Hh' Hp Hok Hin) as (m' & ? & ? & Hc & Hall). exists m'. split_and!; try done.
    intros Hw r. apply Forall_cons_1 in Hw as [Hpw Hw]. rewrite elem_of_cons. intros [->|Hr]; [|by apply Hall].
    apply Hc. destruct (decide (sequence_number p < n)); [by left|right].
    destruct (m !! sequence_number p) eqn:E; [done|]. destruct Hd. split; [lia|done].
Qed.

(** ** Turns of the sorted writer *)

(** A writer that has written all packets before [base], and more perhaps. *)
Definition running (idle : Prop) (base : Z) (sent : list SequencedPacket) (w : StreamWriterSorted) (written : list Z) : Prop :=
  shutting_down w = false ∧ ch_queue (sw_rx w) = [] ∧
  ∃ n m done_ pre, base ≤ n ∧ holds (sequence_buffer w) n m ∧ progress sent n m done_ pre written ∧
    (Forall (fun p => sequence_number p < base + MAX_SEQUENCE_REORDER_WINDOW) sent →
     ∀ p, p ∈ sent → covered n m (sequence_number p)) ∧
    (idle → m !! n = None).

Definition closing (sent : list SequencedPacket) (w : StreamWriterSorted) (written : list Z) : Prop :=
  shutting_down w = true ∧ ∃ done_ q, finished sent (done_ ++ [q]) written ∧ last_data q = true.

(** A socket that takes each of these packets in one go. *)
Definition takes_all (writes : list Write) (sent : list SequencedPacket) : Prop :=
  (length sent <= length writes)%nat ∧
  Forall (fun x => match x with
                   | Takes c => Forall (fun p => (length (data p) <= c)%nat) sent
                   | WriteError _ => False
                   end) writes.

Lemma size_list_to_set_length (l : list Z) : (size (list_to_set l : gset Z) <= length l)%nat.
Proof.
  induction l as [|x l IH]; [done|]. cbn [list_to_set length].
  rewrite size_union_alt, size_singleton.
  assert (list_to_set l ∖ {[x]} ⊆@{gset Z} list_to_set l) as Hs by set_solver. apply subseteq_size in Hs. lia.
Qed.

Lemma takes_all_generous writes sent base recent n m done_ pre written :
  takes_all writes recent → progress sent n m done_ pre written → base ≤ n →
  (∀ q, q ∈ sent → base ≤ sequence_number q → q ∈ recent) → generous writes m.
Proof.
  intros [Hl Hw] Hp Hbase Hrecent. split.
  - etrans; [|exact Hl]. rewrite <- size_dom.
    etrans; [apply (subseteq_size _ (list_to_set (map sequence_number recent)))|].
    + intros k [p Hk]%elem_of_dom. destruct (pg_pending _ _ _ _ _ _ Hp k p Hk) as (Hnk & _ & q & Hq & <- & _).
      apply elem_of_list_to_set, list_elem_of_fmap. exists q. split; [done|]. apply Hrecent; [done|lia].
    + etrans; [apply size_list_to_set_length|]. by rewrite length_map.
  - eapply Forall_impl; [exact Hw|]. intros [c|]; [|done]. intros Hc k p Hk.
    destruct (pg_pending _ _ _ _ _ _ Hp k p Hk) as (Hnk & _ & q & Hq & Hqk & _ & Hd).
    assert (q ∈ recent) as Hr by (apply Hrecent; [done|lia]).
    rewrite List.Forall_forall in Hc. apply list_elem_of_In in Hr. specialize (Hc q Hr).
    rewrite Hd, length_app in Hc. lia.
Qed.

(** One turn of a writer that is not shutting down. *)
Lemma turn_spec idle base recent sent t w written :
  Forall numbered_ok (sent ++ tn_sent t) → running idle base sent w written →
  (∀ q, q ∈ sent ++ tn_sent t → base ≤ sequence_number q → q ∈ recent) →
  ∃ p w' written',
    sorted_poll (tn_writes t) (tn_shutdown t) (mkSorted (channel_after t (sw_rx w)) (sequence_buffer w) (shutting_down w))
      written = Ret (p, w', written') ∧
    ((p = Failed ∧ ¬ Forall is_takes (tn_writes t) ∧ in_order (sent ++ tn_sent t) written')
     ∨ closing (sent ++ tn_sent t) w' written'
     ∨ (running (takes_all (tn_writes t) recent) base (sent ++ tn_sent t) w' written' ∧
        ch_closed (sw_rx w') = ch_closed (sw_rx w) || tn_closes t ∧
        p ≠ Failed ∧ (p = Ready → ch_closed (sw_rx w') = true))).
Proof.
  intros Hok (Hsd & Hq & n & m & done_ & pre & Hbase & Hh & Hp & Hk & _) Hrecent.
  unfold sorted_poll, channel_after. cbn [shutting_down]. rewrite Hsd. unfold read_data_from_channel.
  cbn [sw_rx ch_queue ch_closed sequence_buffer shutting_down]. rewrite Hq, app_nil_l.
  destruct (pushes_spec base (sent ++ tn_sent t) n done_ pre written (tn_sent t) Hbase (sequence_buffer w) m Hh)
    as (m1 & Hh1 & Hp1 & Hc1 & Hk1); [by apply progress_more|by apply Forall_app in Hok as [_ ?]| |].
  { apply List.Forall_forall. intros p ?%list_elem_of_In. apply elem_of_app. by right. }
  destruct (write_loop_spec (sent ++ tn_sent t) Hok (tn_writes t) (tn_shutdown t) O
      (mkSorted (mkChannel [] (ch_closed (sw_rx w) || tn_closes t))
        (foldl SequenceBuffer.push (sequence_buffer w) (tn_sent t)) (shutting_down w)) n m1 done_ pre written Hsd Hh1 Hp1)
    as (st & w' & written' & Hrun & Hrx & Ho).
  unfold write_from_buffer_to_stream. cbn [shutting_down] in Hrun. rewrite Hsd in Hrun. rewrite Hrun. cbn [exec_bind].
  eexists _, w', written'. split; [done|]. cbn [sw_rx] in Hrx.
  destruct Ho as [(Hsd' & -> & Hw & Hin)|[Hclose|(Hsd' & Hst & n' & m' & done' & pre' & Hnn & Hh' & Hp' & Hc & He & Hg)]].
  - left. split_and!; [by destruct (_ || _)|done|done].
  - right. by left.
  - right. right. rewrite Hrx. cbn [ch_closed]. split_and!.
    + split_and!; [done|by rewrite Hrx|]. exists n', m', done', pre'.
      split_and!; try done; [lia| |].
      * intros Hall p Hpin. apply Hc. apply Forall_app in Hall as [Hall1 Hall2].
        apply elem_of_app in Hpin as [Hpin|Hpin]; [apply Hc1; by apply Hk|by apply Hk1].
      * intros Ht. destruct st; [done| |by apply He]. destruct (Hg eq_refl).
        eapply takes_all_generous; [exact Ht|exact Hp1|exact Hbase|exact Hrecent].
    + done.
    + by destruct (_ || _), st.
    + by destruct (_ || _), st.
Qed.

(** ** Runs of the sorted writer *)

Lemma in_order_more sent sent' written : in_order sent written → in_order (sent ++ sent') written.
Proof.
  intros (done_ & pre & Hs & Hf & Hw & Hpre). exists done_, pre. split_and!; try done.
  - eapply Forall_impl; [exact Hf|]. intros p ?. apply elem_of_app. by left.
  - destruct Hpre as [|(q & ? & ? & ?)]; [by left|right]. exists q. split_and!; try done. apply elem_of_app. by left.
Qed.

Lemma finished_in_order sent done_ written : finished sent done_ written → in_order sent written.
Proof. intros (? & ? & ->). exists done_, []. rewrite app_nil_r. split_and!; auto. Qed.

(** A writer that is shutting down writes no more. *)
Lemma run_closing turns : ∀ w written, shutting_down w = true →
  ∃ p w', run_sorted turns w written = Ret (p, w', written) ∧ shutting_down w' = true.
Proof.
  induction turns as [|t turns IH]; intros w written Hw; [by exists NotReady, w|].
  cbn [run_sorted]. unfold sorted_poll. cbn [shutting_down]. rewrite Hw. cbn [exec_bind].
  destruct (sorted_shutdown (tn_shutdown t)); [by apply IH| |]; by eexists _, _.
Qed.

Lemma run_in_order turns : ∀ idle sent w written,
  Forall numbered_ok (sent ++ sent_in turns) → running idle 0 sent w written →
  ∃ p w' written', run_sorted turns w written = Ret (p, w', written') ∧ in_order (sent ++ sent_in turns) written'.
Proof.
  induction turns as [|t turns IH]; intros idle sent w written Hok Hr.
  { exists NotReady, w, written. split; [done|]. apply in_order_more.
    destruct Hr as (_ & _ & n & m & done_ & pre & _ & _ & Hp & _). by eapply progress_in_order. }
  cbn [run_sorted]. change (sent_in (t :: turns)) with (tn_sent t ++ sent_in turns) in *. rewrite app_assoc in *.
  destruct (turn_spec idle 0 (sent ++ tn_sent t) sent t w written) as (p & w' & written' & Hpoll & Hcases);
    [by apply Forall_app in Hok as [? _]|done|done|]. rewrite Hpoll. cbn [exec_bind].
  destruct Hcases as [(-> & _ & Hin)|[(Hsd & done_ & q & Hf & _)|(Hrun & _)]].
  - eexists _, _, _. split; [done|]. by apply in_order_more.
  - assert (in_order ((sent ++ tn_sent t) ++ sent_in turns) written') by (by eapply in_order_more, finished_in_order).
    destruct p; [|by eexists _, _, _..]. destruct (run_closing turns w' written' Hsd) as (p & w2 & -> & _).
    by eexists _, _, _.
  - destruct p; [by eapply IH| |]; eexists _, _, _; (split; [done|]); apply in_order_more;
      destruct Hrun as (_ & _ & n & m & done_ & pre & _ & _ & Hp & _); by eapply progress_in_order.
Qed.

Lemma running_new : running False 0 [] sorted_new [].
Proof.
  split_and!; [done|done|]. exists 0, ∅, [], []. split_and!; [done|apply buffer_holds_new|apply no_progress| |done].
  intros _ ? []%not_elem_of_nil.
Qed.

(** [C8] A browser reads its response in order: whatever packets are sent to the
    writer of a connection, in any order, repeated or with gaps, and whatever the
    socket takes or refuses at each poll, the writer never panics, and the bytes
    it has written are those of the packets 0, 1, 2, ... as they were sent,
    complete and each once, and then a beginning of the packet that is next. *)
Theorem browser_bytes_in_order turns :
  Forall numbered_ok (sent_in turns) →
  ∃ p w written, run_sorted turns sorted_new [] = Ret (p, w, written) ∧ in_order (sent_in turns) written.
Proof. intros Hok. exact (run_in_order turns False [] sorted_new [] Hok running_new). Qed.

(** ** A response as a whole *)

Definition numbered_from_zero (ps : list SequencedPacket) : Prop :=
  map sequence_number ps = seqZ 0 (Z.of_nat (length ps)).

Lemma packet_number_at ps i p :
  numbered_from_zero ps → ps !! i = Some p → sequence_number p = Z.of_nat i.
Proof.
  intros Hn Hi. assert ((map sequence_number ps) !! i = Some (sequence_number p)) as Hm
    by (rewrite list_lookup_fmap; by rewrite Hi).
  rewrite Hn in Hm. apply lookup_seqZ in Hm. lia.
Qed.

Lemma numbered_elem ps p :
  numbered_from_zero ps → p ∈ ps → ps !! Z.to_nat (sequence_number p) = Some p ∧
    0 ≤ sequence_number p < Z.of_nat (length ps).
Proof.
  intros Hn Hp. apply list_elem_of_lookup in Hp as [i Hi]. rewrite (packet_number_at _ _ _ Hn Hi), Nat2Z.id.
  split; [done|]. apply lookup_lt_Some in Hi. lia.
Qed.

Lemma numbered_prefix ps done_ :
  numbered_from_zero ps → numbered_from_zero done_ → Forall (fun p => p ∈ ps) done_ →
  done_ = take (length done_) ps ∧ (length done_ <= length ps)%nat.
Proof.
  intros Hps Hd Hin. rewrite List.Forall_forall in Hin.
  assert (∀ i p, done_ !! i = Some p → ps !! i = Some p) as Hl.
  { intros i p Hi. assert (p ∈ ps) as Hp by (apply Hin, list_elem_of_In, list_elem_of_lookup; by exists i).
    destruct (numbered_elem _ _ Hps Hp) as [Hx _]. by rewrite (packet_number_at _ _ _ Hd Hi), Nat2Z.id in Hx. }
  assert ((length done_ <= length ps)%nat) as Hle.
  { destruct (decide (length done_ = O)); [lia|]. destruct (lookup_lt_is_Some_2 done_ (length done_ - 1)) as [p Hp]; [lia|].
    apply Hl, lookup_lt_Some in Hp. lia. }
  split; [|done]. apply list_eq. intros i. destruct (decide (i < length done_)%nat).
  - destruct (lookup_lt_is_Some_2 done_ i) as [p Hp]; [done|]. rewrite Hp, lookup_take_lt by done. symmetry. by apply Hl.
  - rewrite (lookup_ge_None_2 done_) by lia. symmetry. apply lookup_ge_None_2. rewrite length_take. lia.
Qed.

Lemma numbered_take ps k : numbered_from_zero ps → (k <= length ps)%nat → numbered_from_zero (take k ps).
Proof.
  unfold numbered_from_zero. intros Hn Hk. rewrite <- (take_drop k ps) in Hn at 1.
  rewrite map_app in Hn. replace (Z.of_nat (length ps)) with (Z.of_nat k + Z.of_nat (length ps - k)) in Hn by lia.
  rewrite seqZ_app in Hn by lia. apply app_inj_1 in Hn as [Hn _].
  - by rewrite length_take_le.
  - rewrite length_map, length_take_le, length_seqZ by done. lia.
Qed.

Lemma take_elem {A} k (l : list A) x : x ∈ take k l → x ∈ l.
Proof. intros Hx. rewrite <- (take_drop k l). apply elem_of_app. by left. Qed.

(** A response: packets numbered from zero below the last number of 64 bits, of
    which only the last may say that it is the last. *)
Record response (ps : list SequencedPacket) : Prop := mkResponse {
  rs_numbers : numbered_from_zero ps;
  rs_count : Z.of_nat (length ps) ≤ u64_MAX;
  rs_last : Forall (fun p => last_data p = true → sequence_number p = Z.of_nat (length ps) - 1) ps
}.

Lemma response_packet ps p : response ps → p ∈ ps → numbered_ok p.
Proof.
  intros [Hn Hw _] Hp. destruct (numbered_elem _ _ Hn Hp) as [_ Hr]. unfold numbered_ok in *. lia.
Qed.

Lemma response_closed ps sent done_ q written :
  response ps → Forall (fun p => p ∈ ps) sent → finished sent (done_ ++ [q]) written → last_data q = true →
  written = bytes_of ps ∧ existsb last_data ps = true.
Proof.
  intros [Hn _ Hl] Hs (Hd & Hf & ->) Hq.
  assert (Forall (fun p => p ∈ ps) (done_ ++ [q])) as Hf'.
  { eapply Forall_impl; [exact Hf|]. rewrite List.Forall_forall in Hs. intros p Hp. by apply Hs, list_elem_of_In. }
  destruct (numbered_prefix ps (done_ ++ [q]) Hn Hd Hf') as [Ht Hle].
  assert (q ∈ ps) as Hqin by (apply Forall_app in Hf' as [_ Hf']; by apply Forall_cons_1 in Hf' as [? _]).
  assert ((done_ ++ [q]) !! length done_ = Some q) as Hat by (by rewrite lookup_app_r, Nat.sub_diag by lia).
  pose proof (packet_number_at _ _ _ Hd Hat) as Hnum. rewrite List.Forall_forall in Hl.
  specialize (Hl q ltac:(by apply list_elem_of_In) Hq).
  split; [|apply existsb_exists; exists q; split; [by apply list_elem_of_In|done]].
  rewrite Ht, take_ge; [done|]. rewrite length_app in *. cbn [length] in *. lia.
Qed.

(** All packets up to [k] are there and nothing is left to write. *)
Lemma response_complete ps k sent n m done_ pre written :
  response ps → (k <= length ps)%nat → sent ≡ₚ take k ps → progress sent n m done_ pre written →
  (∀ p, p ∈ sent → covered n m (sequence_number p)) → m !! n = None →
  n = Z.of_nat k ∧ written = bytes_of (take k ps) ∧ existsb last_data (take k ps) = false.
Proof.
  intros [Hn _ _] Hk Hperm Hp Hall Hnone. destruct Hp as [Hnext Hd Hf _ Hw Hnl Hpre].
  pose proof (numbered_take _ _ Hn Hk) as Hnk. assert (length (take k ps) = k) as Hlk by (rewrite length_take; lia).
  destruct (numbered_prefix (take k ps) done_ Hnk Hd) as [Ht Hle].
  { eapply Forall_impl; [exact Hf|]. intros p Hx. cbv beta in Hx |- *. by rewrite <- Hperm. }
  assert (¬ (length done_ < length (take k ps))%nat) as Hge.
  { intros Hlt. destruct (lookup_lt_is_Some_2 (take k ps) (length done_) Hlt) as [p Hi].
    pose proof (packet_number_at _ _ _ Hnk Hi) as Hnum.
    destruct (Hall p) as [Hx|Hx]; [rewrite Hperm; apply list_elem_of_lookup; by exists (length done_)|lia|].
    rewrite Hnum, <- Hnext, Hnone in Hx. by destruct Hx. }
  split; [lia|]. rewrite take_ge in Ht by lia. rewrite Ht in Hw, Hnl. rewrite Hw, (Hpre Hnone), app_nil_r. split; [done|].
  apply not_true_iff_false. intros (q & Hq & Hl)%existsb_exists. rewrite List.Forall_forall in Hnl.
  specialize (Hnl q Hq). congruence.
Qed.

Lemma progress_perm sent sent' n m done_ pre written :
  sent ≡ₚ sent' → progress sent n m done_ pre written → progress sent' n m done_ pre written.
Proof.
  intros Hperm [Hn Hs Hf Hp Hw Hlst Hpre]. split; try done.
  - eapply Forall_impl; [exact Hf|]. intros p. cbv beta. by rewrite Hperm.
  - intros i p Hi. destruct (Hp i p Hi) as (? & ? & q & ? & ?). split_and!; try done. exists q. by rewrite <- Hperm.
Qed.

(** The response is over, or the writer has caught up with its first [k] packets. *)
Definition caught_up (ps : list SequencedPacket) (k : nat) (w : StreamWriterSorted) (written : list Z) : Prop :=
  running True (Z.of_nat k) (take k ps) w written ∧
  written = bytes_of (take k ps) ∧ existsb last_data (take k ps) = false.
Definition over (ps : list SequencedPacket) (w : StreamWriterSorted) (written : list Z) : Prop :=
  shutting_down w = true ∧ written = bytes_of ps ∧ existsb last_data ps = true.

(** The packets up to [k] come over these turns, at most 4096 of them beyond
    [base], and the socket takes the [recent] ones in the last turn. *)
Lemma run_complete ps k base recent turns t : ∀ idle sent w written,
  response ps → (k <= length ps)%nat → Z.of_nat k ≤ base + MAX_SEQUENCE_REORDER_WINDOW →
  sent ++ sent_in (turns ++ [t]) ≡ₚ take k ps → running idle base sent w written → ch_closed (sw_rx w) = false →
  Forall (fun x => tn_closes x = false ∧ Forall is_takes (tn_writes x)) turns → takes_all (tn_writes t) recent →
  (∀ q, q ∈ take k ps → base ≤ sequence_number q → q ∈ recent) →
  ∃ p w' written', run_sorted (turns ++ [t]) w written = Ret (p, w', written') ∧
    (over ps w' written' ∨
     caught_up ps k w' written' ∧ (tn_closes t = false → p = NotReady ∧ ch_closed (sw_rx w') = false)).
Proof.
  intros idle sent w written Hps Hk Hwin. revert idle sent w written.
  assert (∀ l l' : list SequencedPacket, l ++ l' ≡ₚ take k ps → Forall (fun p => p ∈ take k ps) l) as Hin.
  { intros l l' Hl. apply List.Forall_forall. intros p Hp%list_elem_of_In. rewrite <- Hl. apply elem_of_app. by left. }
  assert (∀ l l' : list SequencedPacket, l ++ l' ≡ₚ take k ps → Forall (fun p => p ∈ ps) l) as Hin'.
  { intros l l' Hl. eapply Forall_impl; [by eapply Hin|]. intros p. apply take_elem. }
  assert (∀ l l' : list SequencedPacket, l ++ l' ≡ₚ take k ps → Forall numbered_ok l) as Hok.
  { intros l l' Hl. eapply Forall_impl; [by eapply Hin'|]. intros p Hp. by apply (response_packet ps). }
  induction turns as [|x turns IH]; intros idle sent w written Hperm Hr Hcl Hturns Htakes Hrecent; cbn [run_sorted app].
  - unfold sent_in in Hperm. cbn in Hperm. rewrite app_nil_r in Hperm.
    destruct (turn_spec idle base recent sent t w written) as (p & w' & written' & Hpoll & Hcases);
      [apply (Hok _ []); by rewrite app_nil_r|done|intros q; rewrite Hperm; apply Hrecent|]. rewrite Hpoll. cbn [exec_bind].
    assert (∃ p0, match p with NotReady => Ret (NotReady, w', written') | _ => Ret (p, w', written') end
      = Ret (p0, w', written') ∧ p0 = p) as (p0 & Hp0 & ->) by (destruct p; by eexists).
    rewrite Hp0. exists p, w', written'. split; [done|].
    destruct Hcases as [(-> & Hno & _)|[(Hsd & done_ & q & Hf & Hl)|(Hrun & Hch & Hnf & Hrdy)]].
    + destruct Hno. destruct Htakes as [_ Ht]. eapply Forall_impl; [exact Ht|]. by intros [].
    + left. destruct (response_closed ps _ _ _ _ Hps ltac:(apply (Hin' _ []); by rewrite app_nil_r) Hf Hl) as [-> He]. done.
    + right. rewrite Hcl in Hch. cbn in Hch. destruct Hrun as (Hsd & Hq & n & m & done_ & pre & Hbase & Hh & Hp & Hc & Hi).
      assert (∀ q, q ∈ sent ++ tn_sent t → covered n m (sequence_number q)) as Hcov.
      { apply Hc. apply List.Forall_forall. intros q Hq'%list_elem_of_In. rewrite Hperm in Hq'.
        pose proof (numbered_take _ _ (rs_numbers _ Hps) Hk) as Hnk. destruct (numbered_elem _ _ Hnk Hq') as [_ Hx].
        rewrite length_take in Hx. lia. }
      destruct (response_complete ps k _ _ _ _ _ _ Hps Hk Hperm Hp Hcov (Hi Htakes)) as (-> & -> & He).
      split; [split; [|done]|].
      * split_and!; [done|done|]. exists (Z.of_nat k), m, done_, pre.
        split_and!; [lia|done|by eapply progress_perm| |intros _; by apply Hi].
        intros _ q Hq'. apply Hcov. by rewrite Hperm.
      * intros Ht. rewrite Ht in Hch. split; [|done]. destruct p; [done| |done]. by rewrite Hrdy in Hch.
  - apply Forall_cons_1 in Hturns as [[Hx1 Hx2] Hturns].
    change (sent_in ((x :: turns) ++ [t])) with (tn_sent x ++ sent_in (turns ++ [t])) in Hperm. rewrite app_assoc in Hperm.
    destruct (turn_spec idle base recent sent x w written) as (p & w' & written' & Hpoll & Hcases); [by eapply Hok|done| |].
    { intros q Hq. apply Hrecent. specialize (Hin _ _ Hperm). rewrite List.Forall_forall in Hin.
      by apply Hin, list_elem_of_In. }
    rewrite Hpoll. cbn [exec_bind].
    destruct Hcases as [(-> & Hno & _)|[(Hsd & done_ & q & Hf & Hl)|(Hrun & Hch & Hnf & Hrdy)]]; [done| |].
    + destruct (response_closed ps _ _ _ _ Hps ltac:(by eapply Hin') Hf Hl) as [-> He].
      destruct p; [|by eexists _, _, _; split; [done|left]..].
      destruct (run_closing (turns ++ [t]) w' (bytes_of ps) Hsd) as (p & w2 & -> & ?).
      eexists _, _, _. split; [done|]. by left.
    + rewrite Hcl, Hx1 in Hch. cbn in Hch. destruct p; [|by rewrite Hrdy in Hch|done]. by eapply IH.
Qed.

Lemma run_sorted_app a b : ∀ w written,
  run_sorted (a ++ b) w written =
  (let* r := run_sorted a w written in
   let '(p, w, written) := r in
   match p with NotReady => run_sorted b w written | _ => Ret (p, w, written) end).
Proof.
  induction a as [|t a IH]; intros w written; [done|]. cbn [app run_sorted].
  destruct (sorted_poll _ _ _ _) as [[[p w'] written']|]; [|done]. cbn [exec_bind]. destruct p; [apply IH|done..].
Qed.

(** A burst of a response: packets that come over some turns, in any order, and a
    last turn in which the socket takes what is left of them. *)
Record Burst := mkBurst { bu_packets : list SequencedPacket; bu_turns : list Turn; bu_last : Turn }.
Definition burst_turns (b : Burst) : list Turn := bu_turns b ++ [bu_last b].

Record burst_ok (b : Burst) : Prop := mkBurstOk {
  bo_sent : sent_in (burst_turns b) ≡ₚ bu_packets b;
  bo_count : Z.of_nat (length (bu_packets b)) ≤ MAX_SEQUENCE_REORDER_WINDOW;
  bo_open : Forall (fun x => tn_closes x = false ∧ Forall is_takes (tn_writes x)) (bu_turns b);
  bo_takes : takes_all (tn_writes (bu_last b)) (bu_packets b)
}.

Lemma burst_complete ps k b w written :
  response ps → (k + length (bu_packets b) <= length ps)%nat → take (length (bu_packets b)) (drop k ps) = bu_packets b →
  burst_ok b → caught_up ps k w written → ch_closed (sw_rx w) = false →
  ∃ p w' written', run_sorted (burst_turns b) w written = Ret (p, w', written') ∧
    (over ps w' written' ∨
     caught_up ps (k + length (bu_packets b)) w' written' ∧
     (tn_closes (bu_last b) = false → p = NotReady ∧ ch_closed (sw_rx w') = false)).
Proof.
  intros Hps Hlen Hpk [Hsent Hcount Hopen Htakes] [Hrun _] Hcl.
  assert (take (k + length (bu_packets b)) ps = take k ps ++ bu_packets b) as Htk.
  { rewrite <- Hpk at 2. rewrite take_drop_commute, <- (take_drop k (take _ ps)) at 1. f_equal.
    rewrite take_take. f_equal. lia. }
  apply (run_complete ps _ (Z.of_nat k) (bu_packets b) (bu_turns b) (bu_last b) _ _ _ _ Hps Hlen ltac:(lia)
    ltac:(unfold burst_turns in Hsent; rewrite Hsent, Htk; done) Hrun Hcl Hopen Htakes).
  intros q. rewrite Htk, elem_of_app. intros [Hq|Hq] Hle; [|done]. exfalso.
  assert (numbered_from_zero (take k ps)) as Hnk by (apply numbered_take; [apply Hps|lia]).
  destruct (numbered_elem _ _ Hnk Hq) as [_ Hx]. rewrite length_take in Hx. lia.
Qed.

(** A response in one burst. *)
Lemma browser_run ps t turns :
  response ps → Z.of_nat (length ps) ≤ MAX_SEQUENCE_REORDER_WINDOW → sent_in (turns ++ [t]) ≡ₚ ps →
  Forall (fun x => tn_closes x = false ∧ Forall is_takes (tn_writes x)) turns → takes_all (tn_writes t) ps →
  ∃ p w, run_sorted (turns ++ [t]) sorted_new [] = Ret (p, w, bytes_of ps) ∧ shutting_down w = existsb last_data ps.
Proof.
  intros Hps Hl Hsent Hturns Ht.
  destruct (run_complete ps (length ps) 0 ps turns t False [] sorted_new [] Hps ltac:(lia) ltac:(lia)
      ltac:(by rewrite take_ge by lia) running_new eq_refl Hturns Ht) as (p & w & x & -> & Hcase);
    [intros q; by rewrite take_ge by lia|].
  unfold caught_up in Hcase. rewrite take_ge in Hcase by lia.
  destruct Hcase as [(Hsd & -> & He)|[[(Hsd & _) [-> He]] _]]; exists p, w; by rewrite He.
Qed.

(** [C7] A browser gets all of its response.  The packets of a response, of any
    number, come to its writer in bursts of at most 4096 packets.  Within a burst
    they come in any order and over any polls, of which each may write some
    bytes, and in the last poll of each burst the socket takes what is given to
    it; the channel is not closed before the last poll of all.  Then exactly the
    bytes of the response have been written, and the socket is shut down if and
    only if one of the packets said it was the last. *)
Theorem browser_gets_response ps bursts b :
  response ps → ps = concat (map bu_packets (bursts ++ [b])) →
  Forall (fun b => burst_ok b ∧ tn_closes (bu_last b) = false) bursts → burst_ok b →
  ∃ p w, run_sorted (concat (map burst_turns (bursts ++ [b]))) sorted_new [] = Ret (p, w, bytes_of ps) ∧
    shutting_down w = existsb last_data ps.
Proof.
  intros Hps Heq Hbursts Hb.
  enough (∀ bs k w written, caught_up ps k w written → ch_closed (sw_rx w) = false → (k <= length ps)%nat →
    drop k ps = concat (map bu_packets (bs ++ [b])) → Forall (fun b => burst_ok b ∧ tn_closes (bu_last b) = false) bs →
    ∃ p w', run_sorted (concat (map burst_turns (bs ++ [b]))) w written = Ret (p, w', bytes_of ps) ∧
      shutting_down w' = existsb last_data ps) as H.
  { apply (H bursts 0%nat sorted_new []); [|done|lia|by rewrite drop_0|done]. split; [|done].
    destruct running_new as (? & ? & n & m & d & pre & ? & ? & ? & ? & _). split_and!; [done|done|].
    exists 0, ∅, [], []. split_and!; [done|apply buffer_holds_new|apply no_progress| |done]. intros _ ? []%not_elem_of_nil. }
  induction bs as [|c bs IH]; intros k w written Hc Hcl Hk Hdrop Hbs; cbn [app map concat] in *.
  - rewrite app_nil_r in *. pose proof (f_equal length Hdrop) as Hl. rewrite length_drop in Hl.
    destruct (burst_complete ps k b w written Hps ltac:(lia) ltac:(rewrite Hdrop; by rewrite take_ge) Hb Hc Hcl)
      as (p & w' & written' & -> & [(Hsd & -> & He)|[[(Hsd & _) [-> He]] _]]).
    + exists p, w'. by rewrite He.
    + rewrite take_ge in * by lia. exists p, w'. by rewrite He.
  - apply Forall_cons_1 in Hbs as [[Hcok Hclose] Hbs].
    pose proof (f_equal length Hdrop) as Hl. rewrite length_drop, length_app in Hl.
    destruct (burst_complete ps k c w written Hps ltac:(lia) ltac:(rewrite Hdrop; by rewrite take_app_length) Hcok Hc Hcl)
      as (p & w' & written' & Hrun & Hcase).
    rewrite run_sorted_app, Hrun. cbn [exec_bind].
    destruct Hcase as [(Hsd & -> & He)|[Hc' Hopen]].
    + destruct (run_closing (concat (map burst_turns (bs ++ [b]))) w' (bytes_of ps) Hsd) as (p2 & w2 & Hrun2 & Hsd2).
      rewrite He. destruct p; [rewrite Hrun2; by exists p2, w2|by eexists _, w'..].
    + destruct (Hopen Hclose) as [-> Hcl']. apply (IH (k + length (bu_packets c))%nat); [done|done|lia| |done].
      rewrite <- drop_drop, Hdrop. by rewrite drop_app_length.
Qed.

(** ** A browser that reads slowly *)

Lemma push_beyond b p :
  next_expected_sequence_number b + MAX_SEQUENCE_REORDER_WINDOW ≤ sequence_number p → SequenceBuffer.push b p = b.
Proof.
  intros Hp. unfold SequenceBuffer.push. destruct (sequence_space_exhausted b); [done|]. destruct (_ || _); [done|].
  by destruct (Z.leb_spec MAX_SEQUENCE_REORDER_WINDOW (sequence_number p - next_expected_sequence_number b)); [|lia].
Qed.

Lemma pushes_beyond q : ∀ b,
  Forall (fun p => next_expected_sequence_number b + MAX_SEQUENCE_REORDER_WINDOW ≤ sequence_number p) q →
  foldl SequenceBuffer.push b q = b.
Proof.
  induction q as [|p q IH]; intros b Hq; [done|]. apply Forall_cons_1 in Hq as [Hp Hq]. cbn [foldl].
  rewrite push_beyond by done. by apply IH.
Qed.

Lemma backlog_kept ps :
  numbered_from_zero ps → (4096 <= length ps)%nat →
  foldl SequenceBuffer.push SequenceBuffer.new ps = foldl SequenceBuffer.push SequenceBuffer.new (take 4096 ps).
Proof.
  intros Hn Hl. rewrite <- (take_drop 4096 ps) at 1. rewrite foldl_app. apply pushes_beyond.
  assert (next_expected_sequence_number (foldl SequenceBuffer.push SequenceBuffer.new (take 4096 ps)) = 0) as ->.
  { destruct (pushes_spec 0 (take 4096 ps) 0 [] [] [] (take 4096 ps) ltac:(lia) SequenceBuffer.new ∅ buffer_holds_new)
      as (m & [_ Ha] & _); [apply (progress_more []), no_progress| | |exact (f_equal Spec.next Ha)].
    - apply List.Forall_forall. intros p Hp%list_elem_of_In.
      destruct (numbered_elem _ p (numbered_take ps 4096 Hn ltac:(lia)) Hp) as [_ Hr].
      rewrite length_take in Hr. unfold numbered_ok, u64_MAX, max_u. lia.
    - apply List.Forall_forall. intros p Hp. by apply list_elem_of_In. }
  apply List.Forall_forall. intros p Hp%list_elem_of_In. apply list_elem_of_lookup in Hp as [i Hi].
  rewrite lookup_drop in Hi. pose proof (packet_number_at _ _ _ Hn Hi). unfold MAX_SEQUENCE_REORDER_WINDOW. lia.
Qed.

(** [C40] A slow browser loses a part of its response: when more packets than the
    reorder window holds come in order while the browser does not read, all
    beyond the window are dropped for good, so that the browser gets the first
    4096 packets and nothing more, however much it reads afterwards. *)
Theorem backlog_loses_packets ps writes answer answer' :
  numbered_from_zero ps → (4096 < length ps)%nat → Forall (fun p => last_data p = false) ps → takes_all writes ps →
  ∃ p w, run_sorted [mkTurn ps false [] answer; mkTurn [] false writes answer'] sorted_new []
         = Ret (p, w, bytes_of (take 4096 ps)) ∧ shutting_down w = false.
Proof.
  intros Hn Hl Hlast [Ht1 Ht2].
  assert (length (take 4096 ps) = 4096%nat) as Hl4 by (rewrite length_take; lia).
  assert (response (take 4096 ps)) as Hr.
  { split; [apply numbered_take; [done|lia]|rewrite Hl4; unfold u64_MAX, max_u; lia|].
    apply (Forall_take _ 4096%nat) in Hlast. eapply Forall_impl; [exact Hlast|]. intros p ->. done. }
  destruct (browser_run (take 4096 ps) (mkTurn [] false writes answer') [mkTurn (take 4096 ps) false [] answer] Hr)
    as (p & w & Hrun & Hsd); [rewrite Hl4; unfold MAX_SEQUENCE_REORDER_WINDOW; lia|..].
  - cbn. by rewrite !app_nil_r.
  - by repeat constructor.
  - split; [cbn; lia|]. eapply Forall_impl; [exact Ht2|]. intros [c|]; [|done]. apply Forall_take.
  - exists p, w. split.
    + rewrite <- Hrun. cbn [app run_sorted]. unfold sorted_poll. cbn [shutting_down sorted_new].
      unfold read_data_from_channel, channel_after. cbn [sorted_new sw_rx ch_queue ch_closed sequence_buffer shutting_down tn_sent tn_closes app orb].
      by rewrite (backlog_kept ps Hn) by lia.
    + rewrite Hsd. apply not_true_iff_false. intros (q & Hq & Hx)%existsb_exists.
      apply (Forall_take _ 4096%nat) in Hlast. rewrite List.Forall_forall in Hlast. specialize (Hlast q Hq). congruence.
Qed.

(** ** Runs of the unsorted writer *)

Definition unsorted_holds (w : StreamWriterUnsorted) : list Z :=
  from_option data [] (uw_buf w) ++ bytes_of (ch_queue (uw_rx w)).

Lemma next_packet_spec w :
  match next_packet w with
  | Some (p, w') => unsorted_holds w = data p ++ unsorted_holds w' ∧ uw_buf w' = None ∧
      ch_closed (uw_rx w') = ch_closed (uw_rx w)
  | None => unsorted_holds w = [] ∧ uw_buf w = None ∧ ch_queue (uw_rx w) = []
  end.
Proof. by destruct w as [[[|p q] c] [b|]]. Qed.

(** What a poll writes is the beginning of what the writer holds, and what it
    holds afterwards is the rest, unless the stream fails. *)
Definition unsorted_after (writes : list Write) (w : StreamWriterUnsorted) (written : list Z)
    (out : Polled * StreamWriterUnsorted * list Z) : Prop :=
  let '(p, w', written') := out in
  ∃ x y, written' = written ++ x ∧ x ++ y = unsorted_holds w ∧ ch_closed (uw_rx w') = ch_closed (uw_rx w) ∧
    (p ≠ Failed → y = unsorted_holds w') ∧ (p = Failed → ¬ Forall is_takes writes) ∧
    (p = Ready → ch_closed (uw_rx w) = true ∧ y = []).

Lemma unsorted_after_cons a writes w w2 written z out :
  unsorted_after writes w2 (written ++ z) out → unsorted_holds w = z ++ unsorted_holds w2 →
  ch_closed (uw_rx w2) = ch_closed (uw_rx w) → unsorted_after (a :: writes) w written out.
Proof.
  destruct out as [[p w'] written']. intros (x & y & -> & Hxy & Hc & H1 & H2 & H3) Hz Hc2.
  exists (z ++ x), y. rewrite <- app_assoc. split_and!; [done|by rewrite <- app_assoc, Hxy|congruence|done| |].
  - intros Ho Hf. apply (H2 Ho). by inversion Hf.
  - by rewrite <- Hc2.
Qed.

Lemma unsorted_loop_spec writes : ∀ errors w written,
  unsorted_after writes w written (unsorted_loop writes errors w written).
Proof.
  induction writes as [|a writes IH]; intros errors w written; cbn [unsorted_loop];
    pose proof (next_packet_spec w) as Hnext; destruct (next_packet w) as [[p w1]|].
  2,4: destruct Hnext as (Hh & _ & _); exists [], []; rewrite app_nil_r; split_and!; try done;
    destruct (ch_closed (uw_rx w)); done.
  all: destruct Hnext as (Hh & Hb & Hc);
    assert (unsorted_holds (mkUnsorted (uw_rx w1) (Some p)) = unsorted_holds w) as Hback
      by (rewrite Hh; unfold unsorted_holds; cbn; by rewrite Hb).
  { exists [], (unsorted_holds w). rewrite app_nil_r. by split_and!. }
  destruct a as [c|kind].
  - destruct (Nat.eqb_spec (Nat.min c (length (data p))) (length (data p))) as [El|El]; cbn [negb].
    + rewrite take_ge by lia. by eapply unsorted_after_cons.
    + eapply unsorted_after_cons; [apply IH| |done]. rewrite Hh. unfold unsorted_holds. cbn [uw_buf from_option data uw_rx].
      by rewrite Hb, (app_assoc (take _ _)), take_drop.
  - destruct (indicates_dead_stream kind); [|destruct (_ <=? _)%nat].
    1,2: exists [], (unsorted_holds w); rewrite app_nil_r; split_and!; try done; intros _ Hf; by inversion Hf.
    apply (unsorted_after_cons _ _ _ (mkUnsorted (uw_rx w1) (Some p)) _ []); [rewrite app_nil_r; apply IH|done|done].
Qed.

(** Over any turns: what is written is a beginning of what is held and sent, and
    all of it but what is still held. *)
Lemma run_unsorted_spec turns : ∀ w written,
  ∃ p w' x y, run_unsorted turns w written = (p, w', written ++ x) ∧
    x ++ y = unsorted_holds w ++ bytes_of (sent_in turns) ∧
    (p = NotReady → y = unsorted_holds w') ∧
    (p = Failed → ¬ Forall (fun t => Forall is_takes (tn_writes t)) turns) ∧
    (p = Ready → ch_closed (uw_rx w) = true ∨ ¬ Forall (fun t => tn_closes t = false) turns).
Proof.
  induction turns as [|t turns IH]; intros w written; cbn [run_unsorted].
  { exists NotReady, w, [], (unsorted_holds w). unfold sent_in, bytes_of. cbn. rewrite !app_nil_r. by split_and!. }
  change (sent_in (t :: turns)) with (tn_sent t ++ sent_in turns).
  set (w0 := mkUnsorted (channel_after t (uw_rx w)) (uw_buf w)).
  assert (unsorted_holds w ++ bytes_of (tn_sent t ++ sent_in turns) = unsorted_holds w0 ++ bytes_of (sent_in turns)) as ->.
  { unfold unsorted_holds, bytes_of. cbn. by rewrite !map_app, !concat_app, <- !app_assoc. }
  assert (ch_closed (uw_rx w0) = true → ch_closed (uw_rx w) = true ∨ ¬ Forall (fun t => tn_closes t = false) (t :: turns)) as Hclosed.
  { cbn. intros [?|Ht]%orb_true_iff; [by left|right]. intros Hf. inversion Hf; congruence. }
  pose proof (unsorted_loop_spec (tn_writes t) O w0 written) as Hpoll. unfold unsorted_poll.
  destruct (unsorted_loop (tn_writes t) O w0 written) as [[o w1] written1].
  destruct Hpoll as (x & y & -> & Hxy & Hc & H1 & H2 & H3). destruct o.
  - specialize (H1 ltac:(done)). subst y.
    destruct (IH w1 (written ++ x)) as (p & w' & x' & y' & -> & Hxy' & G1 & G2 & G3).
    exists p, w', (x ++ x'), y'. rewrite <- app_assoc. split_and!; try done.
    + by rewrite <- app_assoc, Hxy', app_assoc, Hxy.
    + intros Hp Hf. apply (G2 Hp). by inversion Hf.
    + intros Hp. destruct (G3 Hp) as [G|G]; [apply Hclosed; congruence|right]. intros Hf. apply G. by inversion Hf.
  - exists Ready, w1, x, (y ++ bytes_of (sent_in turns)). split_and!; try done; [by rewrite app_assoc, Hxy|].
    intros _. apply Hclosed. by apply H3.
  - exists Failed, w1, x, (y ++ bytes_of (sent_in turns)). split_and!; try done; [by rewrite app_assoc, Hxy|].
    intros _ Hf. apply (H2 eq_refl). by inversion Hf.
Qed.

(** The packets a writer holds, the first of them perhaps in part. *)
Definition unsorted_packets (w : StreamWriterUnsorted) : list SequencedPacket :=
  option_list (uw_buf w) ++ ch_queue (uw_rx w).

(** [no_more_than ps sent]: no more packets, and none longer than all of [sent]. *)
Definition no_more_than (ps sent : list SequencedPacket) : Prop :=
  (length ps <= length sent)%nat ∧
  ∀ c, Forall (fun p => (length (data p) <= c)%nat) sent → Forall (fun p => (length (data p) <= c)%nat) ps.

#[global] Instance no_more_than_preorder : PreOrder no_more_than.
Proof. split; [by split|]. intros x y z [? Hc] [? Hd]. split; [lia|auto]. Qed.

Lemma no_more_than_takes writes ps sent : no_more_than ps sent → takes_all writes sent → takes_all writes ps.
Proof.
  intros [Hl Hc] [Ht Hw]. split; [lia|]. eapply Forall_impl; [exact Hw|]. intros [c|]; [apply Hc|done].
Qed.

Lemma no_more_than_app ps ps' sent sent' :
  no_more_than ps sent → no_more_than ps' sent' → no_more_than (ps ++ ps') (sent ++ sent').
Proof.
  intros [? Hc] [? Hd]. split; [rewrite !length_app; lia|]. intros c. rewrite !Forall_app. intros [? ?]. auto.
Qed.

Lemma next_packets w :
  match next_packet w with
  | Some (p, w') => unsorted_packets w = p :: unsorted_packets w' ∧ uw_buf w' = None
  | None => unsorted_packets w = []
  end.
Proof. by destruct w as [[[|p q] c] [b|]]. Qed.

Lemma unsorted_loop_packets writes : ∀ errors w written,
  no_more_than (unsorted_packets (unsorted_loop writes errors w written).1.2) (unsorted_packets w).
Proof.
  induction writes as [|a writes IH]; intros errors w written; cbn [unsorted_loop];
    pose proof (next_packets w) as Hn; destruct (next_packet w) as [[p w1]|]; cbn [fst snd]; try done.
  all: destruct Hn as [Hn Hb].
  all: assert (∀ b, uw_buf (mkUnsorted (uw_rx w1) b) = b) as Hbuf by done.
  all: assert (no_more_than (unsorted_packets w1) (unsorted_packets w)) as Hrest
    by (rewrite Hn; split; [cbn; lia|intros c Hc; by inversion Hc]).
  all: assert (∀ p', (length (data p') <= length (data p))%nat →
      no_more_than (unsorted_packets (mkUnsorted (uw_rx w1) (Some p'))) (unsorted_packets w)) as Hpart.
  1,3: intros p' Hp'; rewrite Hn; unfold unsorted_packets; cbn [uw_buf uw_rx option_list app]; rewrite Hb; cbn [option_list app];
    split; [done|]; intros c Hc; inversion Hc; subst; constructor; [lia|done].
  - by apply Hpart.
  - destruct a as [c|kind].
    + destruct (negb _); (etrans; [apply IH|]); [|done]. apply Hpart. cbn [data]. rewrite length_drop. lia.
    + destruct (indicates_dead_stream kind); [done|]. destruct (_ <=? _)%nat; [done|]. etrans; [apply IH|]. by apply Hpart.
Qed.

Lemma unsorted_loop_takes writes : ∀ errors w written,
  takes_all writes (unsorted_packets w) → unsorted_packets (unsorted_loop writes errors w written).1.2 = [].
Proof.
  induction writes as [|a writes IH]; intros errors w written [Hl Hw]; cbn [unsorted_loop];
    pose proof (next_packets w) as Hn; destruct (next_packet w) as [[p w1]|]; cbn [fst snd]; try done.
  - destruct Hn as [Hn _]. rewrite Hn in Hl. cbn in Hl. lia.
  - destruct Hn as [Hn Hb]. rewrite Hn in Hl, Hw. inversion Hw as [|?? Ha Hws]; subst. destruct a as [c|]; [|done].
    apply Forall_cons_1 in Ha as [Hc _]. rewrite Nat.min_r, Nat.eqb_refl by done. cbn [negb]. apply IH.
    split; [cbn in Hl; lia|]. eapply Forall_impl; [exact Hws|]. intros [c'|]; [|done]. intros Hx. by inversion Hx.
Qed.

(** When the socket takes all in the last turn, all that was sent is written. *)
Lemma run_unsorted_all t turns : ∀ w written,
  ch_closed (uw_rx w) = false →
  Forall (fun x => tn_closes x = false ∧ Forall is_takes (tn_writes x)) (turns ++ [t]) →
  takes_all (tn_writes t) (unsorted_packets w ++ sent_in (turns ++ [t])) →
  ∃ w', run_unsorted (turns ++ [t]) w written = (NotReady, w', written ++ unsorted_holds w ++ bytes_of (sent_in (turns ++ [t]))).
Proof.
  intros w written Hc Hts Htakes.
  assert (∀ turns w written, takes_all (tn_writes t) (unsorted_packets w ++ sent_in (turns ++ [t])) →
      ∀ p w' x, run_unsorted (turns ++ [t]) w written = (p, w', x) → p = NotReady → unsorted_packets w' = []) as Hidle.
  { clear. induction turns as [|x turns IH]; intros w written Ht p w' z; cbn [app run_unsorted].
    - unfold sent_in in Ht. cbn in Ht. rewrite app_nil_r in Ht. unfold unsorted_poll.
      pose proof (unsorted_loop_takes (tn_writes t) O (mkUnsorted (channel_after t (uw_rx w)) (uw_buf w)) written) as Hl.
      unfold unsorted_packets in Hl at 1, Ht. cbn [uw_buf uw_rx channel_after ch_queue] in Hl. rewrite app_assoc in Hl. specialize (Hl Ht).
      destruct (unsorted_loop _ _ _ _) as [[[] w1] y]; intros [= <- <- <-]; try done.
    - change (sent_in ((x :: turns) ++ [t])) with (tn_sent x ++ sent_in (turns ++ [t])) in Ht. unfold unsorted_poll.
      pose proof (unsorted_loop_packets (tn_writes x) O (mkUnsorted (channel_after x (uw_rx w)) (uw_buf w)) written) as Hl.
      destruct (unsorted_loop _ _ _ _) as [[[] w1] y]; [|by intros [= <- <- <-]..]. apply IH.
      eapply no_more_than_takes; [|exact Ht]. rewrite app_assoc. apply no_more_than_app; [|done].
      cbn [fst snd] in Hl. etrans; [exact Hl|]. unfold unsorted_packets. cbn [uw_buf uw_rx channel_after ch_queue].
      by rewrite app_assoc. }
  destruct (run_unsorted_spec (turns ++ [t]) w written) as (p & w' & x & y & Hrun & Hxy & H1 & H2 & H3).
  specialize (Hidle turns w written Htakes _ _ _ Hrun). destruct p.
  - exists w'. rewrite Hrun, <- Hxy, (H1 eq_refl). specialize (Hidle eq_refl). unfold unsorted_packets, unsorted_holds in *.
    apply app_nil in Hidle as [Hb Hq]. rewrite Hq. destruct (uw_buf w'); [done|]. unfold bytes_of. cbn. by rewrite !app_nil_r.
  - destruct (H3 eq_refl) as [|Hno]; [congruence|]. destruct Hno. eapply Forall_impl; [exact Hts|]. by intros ? [].
  - destruct (H2 eq_refl). eapply Forall_impl; [exact Hts|]. by intros ? [].
Qed.
