(* ===== verification/StreamPool.v ===== *)
(** * The pool of streams and the Dispatcher

    [stream_handler_pool.rs] keeps one channel to the writer of every connection,
    by the address of its peer; a message for a neighbour without a connection
    starts a connection attempt and waits for it.  [dispatcher.rs] stands between
    the pool and the other actors.  Handlers are functions of the pool that
    return what is sent and started; the futures of connection attempts, the
    answers of the Neighborhood and the timers are events of a world in which
    they may come in any order.  Shown is that every message is accounted for
    and goes to the peer it is meant for. *)

From Stdlib Require Import ZArith Lia String.
From stdpp Require Import base list numbers option gmap.
From S2P Require Import Prelude CountryFinder NodeRecord NeighborhoodDb GossipAcceptor ConnectionStatus SequenceBuffer Hopper Framers ProxyServer StreamReader.

Local Open Scope Z_scope.
Local Open Scope rust_scope.
Local Open Scope list_scope.

(** ** Addresses *)

(** [IpAddr::is_loopback] of the standard library *)
Definition is_loopback (ip : IpAddr) : bool :=
  match ip with
  | IpV4 z => Z.shiftr z 24 =? 127
  | IpV6 z => z =? 1
  end.

(** [From<SocketAddr> for StreamWriterKey] *)
Definition stream_writer_key (socket_addr : SocketAddr) : SocketAddr :=
  if is_loopback (sock_ip socket_addr) then socket_addr else mkSocket (sock_ip socket_addr) 0.

Definition localhost : IpAddr := IpV4 (127 * 2 ^ 24 + 1).

(** ** Messages *)

(** [NodeQueryResponseMetadata] *)
Record NodeQueryResponseMetadata := mkMetadata {
  md_public_key : list Z;
  md_node_addr_opt : option NodeAddr;
  md_rate_pack : RatePack
}.
Record DispatcherNodeQueryResponse := mkAnswer {
  an_result : option NodeQueryResponseMetadata;
  an_context : TransmitDataMsg
}.
(** [AddStreamMsg]: the ends of the connection, the port it came in by, and how
    the port is configured. *)
Record AddStreamMsg := mkAddStream {
  as_local_addr : SocketAddr;
  as_peer_addr : SocketAddr;
  as_origin_port : option Z;
  as_port_configuration : PortConfiguration
}.

Inductive PoolMessage :=
| AddStream (m : AddStreamMsg)
| RemoveStream (m : RemoveStreamMsg)
| TransmitData (m : TransmitDataMsg)
| NodeQueryAnswer (m : DispatcherNodeQueryResponse)
| ScheduledAnswer (m : DispatcherNodeQueryResponse) (delay : Z).

Record StreamStartFailureHandler := mkFailureHandler {
  fh_msg_data_len : nat;
  fh_key : list Z;
  fh_peer_addr : SocketAddr
}.
Record StreamStartSuccessHandler := mkSuccessHandler {
  sh_msg : DispatcherNodeQueryResponse;
  sh_clandestine_discriminator_factories : list DiscriminatorFactory;
  sh_peer_addr : SocketAddr
}.

(** Why a message is given up; each is an error in the log. *)
Inductive Discard := NoNodeFound | NoKnownIp | NoPorts | LocalConnectionNotFound | MaskingFailed | WriterDisabled | ConnectionFailed.

Inductive PoolOut :=
| AskNeighborhood (key : list Z) (context : TransmitDataMsg)
| ToSelf (m : PoolMessage)
| Later (m : DispatcherNodeQueryResponse) (delay : Z)
| ShutdownToDispatcher (m : StreamShutdownMsg)
| RemoveNeighbor (key : list Z)
| Progress (m : ConnectionProgressMessage)
| ChannelSend (channel : nat) (context : TransmitDataMsg) (packet : SequencedPacket)
| Discards (why : Discard) (context : TransmitDataMsg)
| Connects (peer_addr : SocketAddr) (failure : StreamStartFailureHandler) (success : StreamStartSuccessHandler)
| SpawnWriter (channel : nat) (peer_addr : SocketAddr) (sorted : bool)
| SpawnReader (r : StreamReaderReal).

(** ** The pool *)

(** A sender is the number of its channel; [channel_factory] is the number of
    channels made.  The recipients of other actors are all set by the message
    that binds the pool. *)
Record StreamHandlerPool := mkPool {
  stream_writers : gmap SocketAddr (option nat);
  channel_factory : nat;
  pool_bound : bool;
  clandestine_discriminator_factories : list DiscriminatorFactory
}.
Definition pool_new (fs : list DiscriminatorFactory) : StreamHandlerPool := mkPool ∅ O false fs.
Definition handle_pool_bind (p : StreamHandlerPool) : StreamHandlerPool :=
  mkPool (stream_writers p) (channel_factory p) true (clandestine_discriminator_factories p).
Definition with_writers (ws : gmap SocketAddr (option nat)) (p : StreamHandlerPool) : StreamHandlerPool :=
  mkPool ws (channel_factory p) (pool_bound p) (clandestine_discriminator_factories p).

Definition bound (p : StreamHandlerPool) : exec unit := if pool_bound p then Ret () else Panic.

Definition set_up_stream_reader (origin_port : option Z) (c : PortConfiguration) (peer_addr local_addr : SocketAddr)
    (p : StreamHandlerPool) : exec (list PoolOut) :=
  let* _ := bound p in
  let* r := reader_new origin_port (discriminator_factories c) (pc_is_clandestine c) peer_addr local_addr in
  Ret [SpawnReader r].

Definition set_up_stream_writer (peer_addr : SocketAddr) (is_clandestine : bool) (p : StreamHandlerPool)
    : StreamHandlerPool * list PoolOut :=
  let tx := channel_factory p in
  (mkPool (<[stream_writer_key peer_addr := Some tx]> (stream_writers p)) (S tx) (pool_bound p)
     (clandestine_discriminator_factories p),
   [SpawnWriter tx peer_addr (negb is_clandestine)]).

Definition handle_add_stream_msg (m : AddStreamMsg) (p : StreamHandlerPool) : exec (StreamHandlerPool * list PoolOut) :=
  let '(p, written) := set_up_stream_writer (as_peer_addr m) (pc_is_clandestine (as_port_configuration m)) p in
  let* read := set_up_stream_reader (as_origin_port m) (as_port_configuration m) (as_peer_addr m) (as_local_addr m) p in
  Ret (p, written ++ read).

Definition handle_remove_stream_msg (m : RemoveStreamMsg) (p : StreamHandlerPool) : exec (StreamHandlerPool * list PoolOut) :=
  let key := stream_writer_key (rm_peer_addr m) in
  let report_to_counterpart :=
    match stream_writers p !! key with Some (Some _) => true | Some None => false | None => false end in
  Ret (with_writers (delete key (stream_writers p)) p,
       [ShutdownToDispatcher (mkShutdown (rm_peer_addr m) (rm_stream_type m) report_to_counterpart)]).

Definition handle_transmit_data_msg (m : TransmitDataMsg) (p : StreamHandlerPool) : exec (StreamHandlerPool * list PoolOut) :=
  let* _ := bound p in
  Ret (p, [match tx_endpoint m with
           | EpKey key => AskNeighborhood key m
           | EpSocket socket_addr =>
               ToSelf (NodeQueryAnswer
                 (mkAnswer (Some (mkMetadata [] (Some (node_addr_of_socket socket_addr)) ZERO_RATE_PACK)) m))
           end]).

Definition extract_node_addr (m : DispatcherNodeQueryResponse) : result NodeAddr Discard :=
  match an_result m with
  | Some metadata => ok_or (md_node_addr_opt metadata) NoKnownIp
  | None => Err NoNodeFound
  end.

(** [From<&TransmitDataMsg> for SequencedPacket] *)
Definition packet_from (m : TransmitDataMsg) : SequencedPacket :=
  mkPacket (tx_data m) (default 0 (tx_sequence_number_opt m)) (tx_last_data m).

Section Pool.
Context `{HJ : JsonCrate}.

(** [send_packet_on_open_stream] and, through [alive], whether the writer still
    takes what is sent; the traffic analyzer chooses the JSON masquerader. *)
Definition send_packet_on_open_stream (alive : nat → bool) (m : DispatcherNodeQueryResponse) (tx : nat)
    : exec (result bool Discard * list PoolOut) :=
  let context := an_context m in
  let* made :=
    match tx_sequence_number_opt context with
    | None =>
        let* masked := mask JsonMasquerader (tx_data context) in
        Ret (match masked with
             | Ok masked_data => Ok (mkPacket masked_data 0 false)
             | Err _ => Err MaskingFailed
             end)
    | Some _ => Ret (Ok (packet_from context))
    end in
  match made with
  | Err e => Ret (Err e, [])
  | Ok packet =>
      if alive tx then Ret (Ok (tx_last_data context), [ChannelSend tx context packet])
      else Ret (Ok true, [Discards WriterDisabled context])
  end.

Definition delay_packet_for_opening_stream (m : DispatcherNodeQueryResponse) (p : StreamHandlerPool) : exec (list PoolOut) :=
  let* _ := bound p in Ret [ToSelf (ScheduledAnswer m 100)].

Definition failure_handler_new (p : StreamHandlerPool) (m : DispatcherNodeQueryResponse) (peer_addr : SocketAddr)
    : exec StreamStartFailureHandler :=
  let* _ := bound p in
  let* key := expect (md_public_key <$> an_result m) in
  Ret (mkFailureHandler (length (tx_data (an_context m))) key peer_addr).
Definition success_handler_new (p : StreamHandlerPool) (m : DispatcherNodeQueryResponse) (peer_addr : SocketAddr)
    : exec StreamStartSuccessHandler :=
  let* _ := bound p in Ret (mkSuccessHandler m (clandestine_discriminator_factories p) peer_addr).

Definition open_new_stream_and_recycle_message (m : DispatcherNodeQueryResponse) (peer_addr : SocketAddr)
    (p : StreamHandlerPool) : exec (list PoolOut) :=
  let* failure := failure_handler_new p m peer_addr in
  let* success := success_handler_new p m peer_addr in
  Ret [Connects peer_addr failure success].

Definition send_or_queue_packet (alive : nat → bool) (m : DispatcherNodeQueryResponse) (peer_addr sw_key : SocketAddr)
    (p : StreamHandlerPool) : exec (result unit Discard * StreamHandlerPool * list PoolOut) :=
  match stream_writers p !! sw_key with
  | Some (Some tx) =>
      let* sent := send_packet_on_open_stream alive m tx in
      match sent with
      | (Err e, outs) => Ret (Err e, p, outs)
      | (Ok remove_stream_writer, outs) =>
          Ret (Ok (), if remove_stream_writer : bool
                      then with_writers (delete (stream_writer_key peer_addr) (stream_writers p)) p else p, outs)
      end
  | Some None => let* outs := delay_packet_for_opening_stream m p in Ret (Ok (), p, outs)
  | None =>
      if bool_decide (sock_ip peer_addr = localhost) then Ret (Err LocalConnectionNotFound, p, [])
      else
        let p := with_writers (<[stream_writer_key peer_addr := None]> (stream_writers p)) p in
        let* outs := open_new_stream_and_recycle_message m peer_addr p in
        Ret (Ok (), p, outs)
  end.

Definition handle_dispatcher_node_query_response (alive : nat → bool) (m : DispatcherNodeQueryResponse)
    (p : StreamHandlerPool) : exec (StreamHandlerPool * list PoolOut) :=
  match extract_node_addr m with
  | Err e => Ret (p, [Discards e (an_context m)])
  | Ok node_addr =>
      match na_ports node_addr with
      | [] => Ret (p, [Discards NoPorts (an_context m)])
      | port :: _ =>
          let peer_addr := mkSocket (na_ip_addr node_addr) port in
          let sw_key := stream_writer_key peer_addr in
          let* done_ := send_or_queue_packet alive m peer_addr sw_key p in
          match done_ with
          | (Err e, p, outs) => Ret (p, outs ++ [Discards e (an_context m)])
          | (Ok _, p, outs) => Ret (p, outs)
          end
      end
  end.

(** The mailbox; a scheduled message is given to a timer. *)
Definition pool_handle (alive : nat → bool) (m : PoolMessage) (p : StreamHandlerPool)
    : exec (StreamHandlerPool * list PoolOut) :=
  match m with
  | AddStream m => handle_add_stream_msg m p
  | RemoveStream m => handle_remove_stream_msg m p
  | TransmitData m => handle_transmit_data_msg m p
  | NodeQueryAnswer m => handle_dispatcher_node_query_response alive m p
  | ScheduledAnswer m delay => Ret (p, [Later m delay])
  end.
End Pool.

(** ** Ends of connection attempts *)

(** [StreamStartFailureHandler::handle] *)
Definition failure_handle (h : StreamStartFailureHandler) : list PoolOut :=
  [ToSelf (RemoveStream (mkRemove (mkSocket localhost 0) (fh_peer_addr h) Clandestine));
   RemoveNeighbor (fh_key h);
   Progress (mkCpm (sock_ip (fh_peer_addr h)) TcpConnectionFailed)].

(** [StreamStartSuccessHandler::handle], with the ends of the new connection *)
Definition success_handle (local_addr peer_addr : SocketAddr) (h : StreamStartSuccessHandler) : list PoolOut :=
  [ToSelf (AddStream (mkAddStream local_addr peer_addr (Some (sock_port local_addr))
             (port_configuration_new (sh_clandestine_discriminator_factories h) true)));
   ToSelf (NodeQueryAnswer (sh_msg h));
   Progress (mkCpm (sock_ip (sh_peer_addr h)) TcpConnectionSuccessful)].

(** ** The Dispatcher *)

Record Dispatcher := mkDispatcher {
  dp_bound : bool;
  dp_node_descriptor : NodeDescriptor;
  dp_to_stream : bool
}.
Definition dispatcher_new (d : NodeDescriptor) : Dispatcher := mkDispatcher false d false.

Inductive DispatcherMessage :=
| DispatcherBind
| DispatcherPoolBind
| DispatcherInbound (m : InboundClientData)
| DispatcherTransmit (m : TransmitDataMsg)
| DispatcherShutdown (m : StreamShutdownMsg)
| DispatcherNewPublicIp (ip : IpAddr)
| DispatcherDescriptorRequest (client_id context_id : Z).

Inductive DispatcherOut :=
| DataToProxyServer (m : InboundClientData)
| DataToHopper (m : InboundClientData)
| TransmitToPool (m : TransmitDataMsg)
| ShutdownToNeighborhood (m : StreamShutdownMsg)
| ShutdownToProxyServer (m : StreamShutdownMsg)
| DescriptorToUi (client_id context_id : Z) (d : option NodeDescriptor).

Definition dispatcher_shutdown (m : StreamShutdownMsg) (d : Dispatcher) : exec (Dispatcher * list DispatcherOut) :=
  if negb (dp_bound d) then Panic
  else Ret (d, [match stream_type m with
                | Clandestine => ShutdownToNeighborhood m
                | NonClandestine _ => ShutdownToProxyServer m
                end]).

(** [handle_descriptor_request]; the descriptor stands for its text. *)
Definition handle_descriptor_request (client_id context_id : Z) (d : Dispatcher) : exec (Dispatcher * list DispatcherOut) :=
  let shown :=
    match nd_node_addr_opt (dp_node_descriptor d) with
    | Some node_addr =>
        if bool_decide (na_ip_addr node_addr = IpV4 0) then None else Some (dp_node_descriptor d)
    | None => None
    end in
  if negb (dp_bound d) then Panic else Ret (d, [DescriptorToUi client_id context_id shown]).

Definition dispatcher_handle (m : DispatcherMessage) (d : Dispatcher) : exec (Dispatcher * list DispatcherOut) :=
  match m with
  | DispatcherBind => Ret (mkDispatcher true (dp_node_descriptor d) (dp_to_stream d), [])
  | DispatcherPoolBind => Ret (mkDispatcher (dp_bound d) (dp_node_descriptor d) true, [])
  | DispatcherInbound m =>
      if negb (dp_bound d) then Panic
      else Ret (d, [if ib_is_clandestine m then DataToHopper m else DataToProxyServer m])
  | DispatcherTransmit m => if negb (dp_to_stream d) then Panic else Ret (d, [TransmitToPool m])
  | DispatcherShutdown m => dispatcher_shutdown m d
  | DispatcherNewPublicIp ip =>
      match nd_node_addr_opt (dp_node_descriptor d) with
      | None => Ret (d, [])
      | Some node_addr =>
          let nd := dp_node_descriptor d in
          Ret (mkDispatcher (dp_bound d)
                 (mkDescriptor (nd_blockchain nd) (nd_encryption_public_key nd) (Some (node_addr_new ip (na_ports node_addr))))
                 (dp_to_stream d), [])
      end
  | DispatcherDescriptorRequest client_id context_id => handle_descriptor_request client_id context_id d
  end.
