(* ===== verification/StreamPoolRun.v ===== *)
(** * Every message of the pool of streams is accounted for

    A world holds the pool, its mailbox, the questions the Neighborhood has not
    answered, the timers, the connection attempts, and, as a record of what has
    happened, what the pool has sent and the answers it was given.  Events take
    up what waits in any order: the mailbox is a bag, a timer may fire and an
    attempt may end at any time, and a writer may be gone when a packet is sent
    to it. *)

From Stdlib Require Import ZArith Lia String.
From stdpp Require Import base list numbers option gmap.
From S2P Require Import Prelude CountryFinder NodeRecord NeighborhoodDb GossipAcceptor SequenceBuffer Hopper Framers ProxyServer StreamReader StreamPool.

Local Open Scope Z_scope.
Local Open Scope rust_scope.
Local Open Scope list_scope.

(** ** The world of the pool *)

Record World := mkWorld {
  w_pool : StreamHandlerPool;
  w_mailbox : list PoolMessage;
  w_asked : list TransmitDataMsg;
  w_delayed : list DispatcherNodeQueryResponse;
  w_attempts : list (SocketAddr * StreamStartFailureHandler * StreamStartSuccessHandler);
  w_outs : list PoolOut;
  w_answers : list DispatcherNodeQueryResponse
}.
Definition world_new (fs : list DiscriminatorFactory) : World := mkWorld (handle_pool_bind (pool_new fs)) [] [] [] [] [] [].

Definition place (w : World) (o : PoolOut) : World :=
  let '(mkWorld p mb asked delayed attempts outs answers) := w in
  let outs := outs ++ [o] in
  match o with
  | ToSelf m => mkWorld p (mb ++ [m]) asked delayed attempts outs answers
  | AskNeighborhood _ c => mkWorld p mb (asked ++ [c]) delayed attempts outs answers
  | Later m _ => mkWorld p mb asked (delayed ++ [m]) attempts outs answers
  | Connects peer failure success => mkWorld p mb asked delayed (attempts ++ [(peer, failure, success)]) outs answers
  | _ => mkWorld p mb asked delayed attempts outs answers
  end.
Definition place_all (w : World) (outs : list PoolOut) : World := foldl place w outs.

Definition with_pool (p : StreamHandlerPool) (w : World) : World :=
  mkWorld p (w_mailbox w) (w_asked w) (w_delayed w) (w_attempts w) (w_outs w) (w_answers w).
Definition with_mailbox (mb : list PoolMessage) (w : World) : World :=
  mkWorld (w_pool w) mb (w_asked w) (w_delayed w) (w_attempts w) (w_outs w) (w_answers w).
Definition with_asked (l : list TransmitDataMsg) (w : World) : World :=
  mkWorld (w_pool w) (w_mailbox w) l (w_delayed w) (w_attempts w) (w_outs w) (w_answers w).
Definition with_delayed (l : list DispatcherNodeQueryResponse) (w : World) : World :=
  mkWorld (w_pool w) (w_mailbox w) (w_asked w) l (w_attempts w) (w_outs w) (w_answers w).
Definition with_attempts (l : list (SocketAddr * StreamStartFailureHandler * StreamStartSuccessHandler)) (w : World) : World :=
  mkWorld (w_pool w) (w_mailbox w) (w_asked w) (w_delayed w) l (w_outs w) (w_answers w).
Definition with_answer (r : DispatcherNodeQueryResponse) (w : World) : World :=
  mkWorld (w_pool w) (w_mailbox w) (w_asked w) (w_delayed w) (w_attempts w) (w_outs w) (w_answers w ++ [r]).

(** What may happen; the numbers choose among what is waiting, and nothing
    happens when there is nothing at the place.  A connection that is made to an
    address has that address as its peer. *)
Inductive Event :=
| Submit (m : TransmitDataMsg)
| Accepted (m : AddStreamMsg)
| Removed (m : RemoveStreamMsg)
| Deliver (i : nat) (alive : nat → bool)
| Answered (i : nat) (r : option NodeQueryResponseMetadata)
| TimerFires (i : nat)
| Connected (i : nat) (local_addr : SocketAddr)
| ConnectFailed (i : nat).

Section Runs.
Context `{HJ : JsonCrate}.

Definition happens (w : World) (e : Event) : exec World :=
  match e with
  | Submit m => Ret (with_mailbox (w_mailbox w ++ [TransmitData m]) w)
  | Accepted m => Ret (with_mailbox (w_mailbox w ++ [AddStream m]) w)
  | Removed m => Ret (with_mailbox (w_mailbox w ++ [RemoveStream m]) w)
  | Deliver i alive =>
      match w_mailbox w !! i with
      | None => Ret w
      | Some m =>
          let* done_ := pool_handle alive m (w_pool w) in
          Ret (place_all (with_pool done_.1 (with_mailbox (delete i (w_mailbox w)) w)) done_.2)
      end
  | Answered i r =>
      match w_asked w !! i with
      | None => Ret w
      | Some c =>
          let answer := mkAnswer r c in
          Ret (place_all (with_answer answer (with_asked (delete i (w_asked w)) w)) [ToSelf (NodeQueryAnswer answer)])
      end
  | TimerFires i =>
      match w_delayed w !! i with
      | None => Ret w
      | Some m => Ret (place_all (with_delayed (delete i (w_delayed w)) w) [ToSelf (NodeQueryAnswer m)])
      end
  | Connected i local_addr =>
      match w_attempts w !! i with
      | None => Ret w
      | Some (peer, _, success) =>
          Ret (place_all (with_attempts (delete i (w_attempts w)) w) (success_handle local_addr peer success))
      end
  | ConnectFailed i =>
      match w_attempts w !! i with
      | None => Ret w
      | Some (_, failure, success) =>
          Ret (place_all (with_attempts (delete i (w_attempts w)) w)
                 (failure_handle failure ++ [Discards ConnectionFailed (an_context (sh_msg success))]))
      end
  end.

Fixpoint run_events (es : list Event) (w : World) : exec World :=
  match es with
  | [] => Ret w
  | e :: es => let* w := happens w e in run_events es w
  end.
End Runs.

(** ** Accounts *)

Definition message_contexts (m : PoolMessage) : list TransmitDataMsg :=
  match m with
  | TransmitData c => [c]
  | NodeQueryAnswer m | ScheduledAnswer m _ => [an_context m]
  | _ => []
  end.
Definition attempt_context (a : SocketAddr * StreamStartFailureHandler * StreamStartSuccessHandler) : TransmitDataMsg :=
  an_context (sh_msg a.2).

(** Messages that still wait: in the mailbox, for the Neighborhood, for a timer,
    for a connection. *)
Definition waiting (w : World) : list TransmitDataMsg :=
  concat (map message_contexts (w_mailbox w)) ++ w_asked w ++ map an_context (w_delayed w)
  ++ map attempt_context (w_attempts w).
Definition queued_contexts (o : PoolOut) : list TransmitDataMsg :=
  match o with ChannelSend _ c _ => [c] | _ => [] end.
Definition discarded_contexts (o : PoolOut) : list TransmitDataMsg :=
  match o with Discards _ c => [c] | _ => [] end.
Definition queued (w : World) : list TransmitDataMsg := concat (map queued_contexts (w_outs w)).
Definition discarded (w : World) : list TransmitDataMsg := concat (map discarded_contexts (w_outs w)).
Definition submitted (es : list Event) : list TransmitDataMsg :=
  concat (map (fun e => match e with Submit m => [m] | _ => [] end) es).

Definition waiting_contexts (o : PoolOut) : list TransmitDataMsg :=
  match o with
  | AskNeighborhood _ c => [c]
  | ToSelf m => message_contexts m
  | Later m _ => [an_context m]
  | Connects _ _ success => [an_context (sh_msg success)]
  | _ => []
  end.
Definition out_contexts (o : PoolOut) : list TransmitDataMsg :=
  waiting_contexts o ++ queued_contexts o ++ discarded_contexts o.

Definition total (w : World) : list TransmitDataMsg := waiting w ++ queued w ++ discarded w.

Lemma place_total w o : total (place w o) ≡ₚ out_contexts o ++ total w.
Proof.
  destruct w as [p mb asked delayed attempts outs answers]. unfold total, waiting, queued, discarded, out_contexts.
  destruct o; cbn -[app]; rewrite ?map_app, ?concat_app; cbn -[app]; rewrite ?app_nil_r; cbn [app];
    try (rewrite ?app_nil_r; solve_Permutation || done).
Qed.

Lemma place_all_total outs : ∀ w, total (place_all w outs) ≡ₚ concat (map out_contexts outs) ++ total w.
Proof.
  induction outs as [|o outs IH]; intros w; [done|]. cbn [place_all foldl]. fold (place_all (place w o) outs).
  rewrite IH, place_total. cbn [map concat]. rewrite !app_assoc. f_equiv. apply Permutation_app_comm.
Qed.

(** ** What a handler does with its message *)

(** The address an answer names: that of the node, with its first port. *)
Definition answered_peer (r : DispatcherNodeQueryResponse) : option SocketAddr :=
  match extract_node_addr r with
  | Ok node_addr => (fun port => mkSocket (na_ip_addr node_addr) port) <$> head (na_ports node_addr)
  | Err _ => None
  end.

(** An answer for a socket names that socket, and one for a key is one of those
    that the Neighborhood has given. *)
Definition answer_sound (given : list DispatcherNodeQueryResponse) (r : DispatcherNodeQueryResponse) : Prop :=
  match tx_endpoint (an_context r) with
  | EpSocket a => answered_peer r = Some a
  | EpKey _ => r ∈ given
  end.

(** The peers whose channel is the one for a message: those of the socket it is
    for, or of the address that the Neighborhood has given for it. *)
Definition meant_for (given : list DispatcherNodeQueryResponse) (c : TransmitDataMsg) (k : SocketAddr) : Prop :=
  match tx_endpoint c with
  | EpSocket a => k = stream_writer_key a
  | EpKey _ => ∃ r peer, r ∈ given ∧ an_context r = c ∧ answered_peer r = Some peer ∧ k = stream_writer_key peer
  end.

Lemma answer_meant given r peer :
  answer_sound given r → answered_peer r = Some peer → meant_for given (an_context r) (stream_writer_key peer).
Proof. unfold answer_sound, meant_for. destruct (tx_endpoint (an_context r)); [by exists r, peer|congruence]. Qed.

Lemma answer_sound_more given given' r : given ⊆ given' → answer_sound given r → answer_sound given' r.
Proof. unfold answer_sound. destruct (tx_endpoint (an_context r)); auto. Qed.

Lemma meant_more given given' c k : given ⊆ given' → meant_for given c k → meant_for given' c k.
Proof.
  unfold meant_for. intros Hsub. destruct (tx_endpoint c); [|done]. intros (r & peer & Hr & Hm). exists r, peer.
  split; [by apply Hsub|done].
Qed.

(** Messages the handlers take without a panic. *)
Definition message_ok (given : list DispatcherNodeQueryResponse) (m : PoolMessage) : Prop :=
  match m with
  | AddStream m => discriminator_factories (as_port_configuration m) ≠ []
  | NodeQueryAnswer r | ScheduledAnswer r _ => answer_sound given r
  | _ => True
  end ∧ Forall (fun c => bytes_ok (tx_data c)) (message_contexts m).

Definition out_ok (fs : list DiscriminatorFactory) (given : list DispatcherNodeQueryResponse) (o : PoolOut) : Prop :=
  match o with
  | ToSelf m => message_ok given m
  | AskNeighborhood k c => tx_endpoint c = EpKey k ∧ bytes_ok (tx_data c)
  | Later r _ => answer_sound given r ∧ bytes_ok (tx_data (an_context r))
  | Connects peer failure success =>
      answer_sound given (sh_msg success) ∧ bytes_ok (tx_data (an_context (sh_msg success))) ∧ fh_peer_addr failure = peer ∧
      sh_clandestine_discriminator_factories success = fs
  | _ => True
  end.

Lemma message_ok_more given given' m : given ⊆ given' → message_ok given m → message_ok given' m.
Proof. intros Hsub [Hm Hc]. split; [|done]. destruct m; try done; by eapply answer_sound_more. Qed.

Lemma out_ok_more fs given given' o : given ⊆ given' → out_ok fs given o → out_ok fs given' o.
Proof.
  intros Hsub. destruct o; cbn; try done; [by apply message_ok_more| |];
    intros (Hs & Hrest); (split; [by eapply answer_sound_more|done]).
Qed.

(** A message that ends the wait for a connection to the peers of a key. *)
Definition resolves (k : SocketAddr) (m : PoolMessage) : Prop :=
  match m with
  | AddStream m => stream_writer_key (as_peer_addr m) = k
  | RemoveStream m => stream_writer_key (rm_peer_addr m) = k
  | _ => False
  end.

Definition spawned (o : PoolOut) : list nat := match o with SpawnWriter tx _ _ => [tx] | _ => [] end.

Section Handlers.
Context `{HL : JsonLaws} (given : list DispatcherNodeQueryResponse).

(** The packet that is made of a message: masked when it has no number. *)
Definition packet_of (c : TransmitDataMsg) (packet : SequencedPacket) : Prop :=
  match tx_sequence_number_opt c with
  | None => ∃ masked, mask JsonMasquerader (tx_data c) = Ret (Ok masked) ∧ packet = mkPacket masked 0 false
  | Some n => packet = mkPacket (tx_data c) n (tx_last_data c)
  end.

Record handled (m : PoolMessage) (p p' : StreamHandlerPool) (outs : list PoolOut) : Prop := mkHandled {
  hd_bound : pool_bound p' = true;
  hd_factories : clandestine_discriminator_factories p' = clandestine_discriminator_factories p;
  hd_contexts : concat (map out_contexts outs) = message_contexts m;
  hd_ok : Forall (out_ok (clandestine_discriminator_factories p) given) outs;
  hd_made : concat (map spawned outs) = seq (channel_factory p) (channel_factory p' - channel_factory p)
    ∧ (channel_factory p <= channel_factory p')%nat;
  hd_opening k : stream_writers p' !! k = Some None →
    (stream_writers p !! k = Some None ∧ ¬ resolves k m) ∨
    ∃ peer failure success, Connects peer failure success ∈ outs ∧ stream_writer_key peer = k;
  hd_open k tx : stream_writers p' !! k = Some (Some tx) →
    stream_writers p !! k = Some (Some tx) ∨
    ∃ peer sorted, SpawnWriter tx peer sorted ∈ outs ∧ stream_writer_key peer = k;
  hd_sent tx c packet : ChannelSend tx c packet ∈ outs → packet_of c packet ∧
    ∃ k, stream_writers p !! k = Some (Some tx) ∧ meant_for given c k
}.

Lemma reader_made port fs clandestine peer local : fs ≠ [] → ∃ r, reader_new port fs clandestine peer local = Ret r.
Proof.
  intros Hfs. unfold reader_new. destruct fs as [|f fs]; [done|].
  assert (∀ l, ∃ ds, make_all l = Ret ds) as Hall.
  { induction l as [|x l [ds IH]]; [by eexists|]. cbn [make_all]. rewrite IH. destruct x; by eexists. }
  destruct (Hall (f :: fs)) as [ds ->]. by eexists.
Qed.

Lemma add_stream_handled m p : pool_bound p = true → message_ok given (AddStream m) →
  ∃ p' outs, handle_add_stream_msg m p = Ret (p', outs) ∧ handled (AddStream m) p p' outs.
Proof.
  intros Hb [Hfs _]. unfold handle_add_stream_msg, set_up_stream_writer, set_up_stream_reader, bound. cbn [pool_bound].
  rewrite Hb. cbn [exec_bind]. edestruct reader_made as [r ->]; [exact Hfs|]. cbn [exec_bind app].
  eexists _, _. split; [done|]. split; cbn [stream_writers channel_factory clandestine_discriminator_factories pool_bound]; try done.
  - by repeat constructor.
  - split; [|lia]. replace (S (channel_factory p) - channel_factory p)%nat with 1%nat by lia. done.
  - intros k. rewrite lookup_insert. case_decide as Hk; [done|]. intros ?. left. split; [done|]. cbn. congruence.
  - intros k tx. rewrite lookup_insert. case_decide as Hk; [|by left]. intros [= <-]. right.
    eexists _, _. split; [by left|done].
  - intros tx c packet Hin. rewrite !elem_of_cons in Hin. destruct Hin as [?|[?|[]%not_elem_of_nil]]; done.
Qed.

Lemma remove_stream_handled m p : pool_bound p = true →
  ∃ p' outs, handle_remove_stream_msg m p = Ret (p', outs) ∧ handled (RemoveStream m) p p' outs.
Proof.
  intros Hb. eexists _, _. split; [reflexivity|].
  split; cbn [stream_writers channel_factory clandestine_discriminator_factories pool_bound with_writers]; try done.
  - by repeat constructor.
  - by rewrite Nat.sub_diag.
  - intros k [Hne Hk]%lookup_delete_Some. left. split; [done|]. cbn. congruence.
  - intros k tx [Hne Hk]%lookup_delete_Some. by left.
  - intros tx c packet Hin%list_elem_of_singleton. done.
Qed.

Lemma transmit_handled m p : pool_bound p = true → bytes_ok (tx_data m) →
  ∃ p' outs, handle_transmit_data_msg m p = Ret (p', outs) ∧ handled (TransmitData m) p p' outs.
Proof.
  intros Hb Hm. unfold handle_transmit_data_msg, bound. rewrite Hb. cbn [exec_bind].
  eexists _, _. split; [reflexivity|]. split; try done.
  - by destruct (tx_endpoint m).
  - constructor; [|constructor]. destruct (tx_endpoint m) as [k|a] eqn:E; [done|]. split; [|by repeat constructor].
    unfold answer_sound. cbn. rewrite E. by destruct a.
  - rewrite Nat.sub_diag. split; [|done]. by destruct (tx_endpoint m).
  - intros k Hk. left. split; [done|by intros []].
  - intros k tx Hk. by left.
  - intros tx c packet Hin%list_elem_of_singleton. by destruct (tx_endpoint m).
Qed.

(** A handler that leaves the pool as it is and sends one thing. *)
Lemma unchanged_handled m p o : pool_bound p = true → (∀ k, ¬ resolves k m) →
  out_contexts o = message_contexts m → out_ok (clandestine_discriminator_factories p) given o → spawned o = [] →
  (∀ tx c packet, o ≠ ChannelSend tx c packet) → handled m p p [o].
Proof.
  intros Hb Hr Hc Ho Hs Hn. split; cbn; rewrite ?app_nil_r, ?Nat.sub_diag; try done.
  - by constructor.
  - intros k Hk. left. split; [done|apply Hr].
  - intros k tx Hk. by left.
  - intros tx c packet Hin%list_elem_of_singleton. by destruct (Hn tx c packet).
Qed.

(** A message that is queued on the channel of an open stream. *)
Lemma send_handled alive m p peer tx :
  pool_bound p = true → message_ok given (NodeQueryAnswer m) → stream_writers p !! stream_writer_key peer = Some (Some tx) →
  answered_peer m = Some peer →
  ∃ remove o, send_packet_on_open_stream alive m tx = Ret (Ok remove, [o]) ∧
    ∀ ws, ws = stream_writers p ∨ ws = delete (stream_writer_key peer) (stream_writers p) →
      handled (NodeQueryAnswer m) p (with_writers ws p) [o].
Proof.
  intros Hb [Hs Hd] Hk Hpeer. apply Forall_cons_1 in Hd as [Hd _]. unfold send_packet_on_open_stream.
  assert (∃ packet, packet_of (an_context m) packet ∧
    (match tx_sequence_number_opt (an_context m) with
     | None => let* masked := mask JsonMasquerader (tx_data (an_context m)) in
               Ret (match masked with Ok masked_data => Ok (mkPacket masked_data 0 false) | Err _ => Err MaskingFailed end)
     | Some _ => Ret (Ok (packet_from (an_context m)))
     end) = Ret (Ok packet)) as (packet & Hp & ->).
  { unfold packet_of, packet_from. destruct (tx_sequence_number_opt (an_context m)) as [n|]; [by eexists|].
    destruct (mask_unmask _ Hd) as (masked & Hm & _). cbn [mask]. rewrite Hm. eexists. split; [by eexists|done]. }
  cbn [exec_bind].
  assert (∀ o ws, out_contexts o = [an_context m] → out_ok (clandestine_discriminator_factories p) given o → spawned o = [] →
      (∀ tx' c pk, o = ChannelSend tx' c pk → tx' = tx ∧ c = an_context m ∧ pk = packet) →
      ws = stream_writers p ∨ ws = delete (stream_writer_key peer) (stream_writers p) →
      handled (NodeQueryAnswer m) p (with_writers ws p) [o]) as Hall.
  { intros o ws Hc Ho Hsp Hsend Hws.
    assert (∀ k v, ws !! k = Some v → stream_writers p !! k = Some v) as Hsub
      by (destruct Hws as [-> | ->]; [done|by intros k v [_ ?]%lookup_delete_Some]).
    split; cbn [with_writers stream_writers channel_factory pool_bound clandestine_discriminator_factories map concat];
      rewrite ?app_nil_r, ?Nat.sub_diag; try done.
    - by constructor.
    - intros k Hx. left. split; [by apply Hsub|by intros []].
    - intros k tx' Hx. left. by apply Hsub.
    - intros tx' c pk Hin%list_elem_of_singleton. destruct (Hsend _ _ _ (eq_sym Hin)) as (-> & -> & ->). split; [done|].
      eexists. split; [exact Hk|]. by apply answer_meant. }
  destruct (alive tx); eexists _, _; (split; [reflexivity|]); intros ws; apply Hall; try done.
  by intros tx' c pk [= <- <- <-].
Qed.

Lemma answer_handled alive m p : pool_bound p = true → message_ok given (NodeQueryAnswer m) →
  ∃ p' outs, handle_dispatcher_node_query_response alive m p = Ret (p', outs) ∧ handled (NodeQueryAnswer m) p p' outs.
Proof.
  intros Hb Hm. unfold handle_dispatcher_node_query_response, extract_node_addr.
  assert (∀ why, handled (NodeQueryAnswer m) p p [Discards why (an_context m)]) as Hdiscard
    by (intros why; apply unchanged_handled; done || by intros ? []).
  destruct (an_result m) as [md|] eqn:Hres; [|by eexists _, _].
  destruct (md_node_addr_opt md) as [na|] eqn:Hna; cbn [ok_or]; [|by eexists _, _].
  destruct (na_ports na) as [|port ports] eqn:Hports; [by eexists _, _|].
  set (peer := mkSocket (na_ip_addr na) port).
  assert (answered_peer m = Some peer) as Hpeer
    by (unfold answered_peer, extract_node_addr; rewrite Hres, Hna; cbn [ok_or]; by rewrite Hports).
  unfold send_or_queue_packet. destruct (stream_writers p !! stream_writer_key peer) as [[tx|]|] eqn:Hk.
  - destruct (send_handled alive m p peer tx Hb Hm Hk Hpeer) as (remove & o & -> & Hall). cbn [exec_bind].
    destruct remove; eexists _, _; (split; [reflexivity|]); [by apply Hall; right|].
    destruct p as [ws c b fs]. by apply (Hall ws); left.
  - unfold delay_packet_for_opening_stream, bound. rewrite Hb. cbn [exec_bind]. eexists _, _. split; [reflexivity|].
    apply unchanged_handled; done || by intros ? [].
  - case_bool_decide; [cbn [exec_bind app]; eexists _, _; by split|].
    unfold open_new_stream_and_recycle_message, failure_handler_new, success_handler_new, bound.
    cbn [with_writers pool_bound]. rewrite Hb, Hres. cbn [exec_bind expect fmap option_fmap option_map].
    eexists _, _. split; [reflexivity|]. destruct Hm as [Hs Hd]. apply Forall_cons_1 in Hd as [Hd _].
    split; cbn [with_writers stream_writers channel_factory pool_bound clandestine_discriminator_factories];
      rewrite ?Nat.sub_diag; try done.
    + by repeat constructor.
    + intros k. rewrite lookup_insert. case_decide as Hkey; [|intros ?; left; split; [done|by intros []]].
      intros _. right. eexists _, _, _. split; [by left|done].
    + intros k tx. rewrite lookup_insert. case_decide; [done|by left].
    + intros tx c pk Hin%list_elem_of_singleton. done.
Qed.

Lemma pool_handled alive m p : pool_bound p = true → message_ok given m →
  ∃ p' outs, pool_handle alive m p = Ret (p', outs) ∧ handled m p p' outs.
Proof.
  intros Hb Hm. destruct m as [m|m|m|m|m delay]; cbn [pool_handle].
  - by apply add_stream_handled.
  - by apply remove_stream_handled.
  - apply transmit_handled; [done|]. destruct Hm as [_ Hm]. by apply Forall_cons_1 in Hm as [? _].
  - by apply answer_handled.
  - eexists _, _. split; [reflexivity|]. destruct Hm as [Hs Hm]. apply Forall_cons_1 in Hm as [Hm _].
    apply unchanged_handled; done || by intros ? [].
Qed.
End Handlers.

(** ** The invariant of the world *)

Definition selfs (o : PoolOut) : list PoolMessage := match o with ToSelf m => [m] | _ => [] end.
Definition asks (o : PoolOut) : list TransmitDataMsg := match o with AskNeighborhood _ c => [c] | _ => [] end.
Definition laters (o : PoolOut) : list DispatcherNodeQueryResponse := match o with Later m _ => [m] | _ => [] end.
Definition connects (o : PoolOut) : list (SocketAddr * StreamStartFailureHandler * StreamStartSuccessHandler) :=
  match o with Connects peer failure success => [(peer, failure, success)] | _ => [] end.

Lemma place_all_eq outs : ∀ w, place_all w outs =
  mkWorld (w_pool w) (w_mailbox w ++ concat (map selfs outs)) (w_asked w ++ concat (map asks outs))
    (w_delayed w ++ concat (map laters outs)) (w_attempts w ++ concat (map connects outs)) (w_outs w ++ outs) (w_answers w).
Proof.
  induction outs as [|o outs IH]; intros [p mb asked delayed attempts os answers]; [by rewrite !app_nil_r|].
  cbn [place_all foldl]. fold (place_all (place (mkWorld p mb asked delayed attempts os answers) o) outs). rewrite IH.
  destruct o; cbn; by rewrite ?app_nil_r, <- ?app_assoc.
Qed.

Definition opening (k : SocketAddr) (w : World) : Prop :=
  (∃ a, a ∈ w_attempts w ∧ stream_writer_key a.1.1 = k) ∨ (∃ m, m ∈ w_mailbox w ∧ resolves k m).

Section Invariant.
Context `{HL : JsonLaws}.
Context (fs : list DiscriminatorFactory) (Hfs : fs ≠ []).

(** What is waiting is in order, and the channels and packets so far. *)
Record world_sound (w : World) : Prop := mkSound {
  ws_bound : pool_bound (w_pool w) = true;
  ws_factories : clandestine_discriminator_factories (w_pool w) = fs;
  ws_mailbox : Forall (message_ok (w_answers w)) (w_mailbox w);
  ws_asked : Forall (fun c => (∃ k, tx_endpoint c = EpKey k) ∧ bytes_ok (tx_data c)) (w_asked w);
  ws_delayed : Forall (fun r => out_ok fs (w_answers w) (Later r 0)) (w_delayed w);
  ws_attempts : Forall (fun a => out_ok fs (w_answers w) (Connects a.1.1 a.1.2 a.2)) (w_attempts w);
  ws_spawned : concat (map spawned (w_outs w)) = seq 0 (channel_factory (w_pool w));
  ws_open k tx : stream_writers (w_pool w) !! k = Some (Some tx) →
    ∃ peer sorted, SpawnWriter tx peer sorted ∈ w_outs w ∧ stream_writer_key peer = k;
  ws_sent tx c packet : ChannelSend tx c packet ∈ w_outs w → packet_of c packet ∧
    ∃ peer sorted, SpawnWriter tx peer sorted ∈ w_outs w ∧ meant_for (w_answers w) c (stream_writer_key peer);
  ws_questions k c : AskNeighborhood k c ∈ w_outs w → tx_endpoint c = EpKey k
}.

Definition world_ok (w : World) : Prop :=
  world_sound w ∧ ∀ k, stream_writers (w_pool w) !! k = Some None → opening k w.

Lemma concat_Forall {A B} (P : A → Prop) (Q : B → Prop) (f : A → list B) l :
  (∀ x, P x → Forall Q (f x)) → Forall P l → Forall Q (concat (map f l)).
Proof. intros Hf. induction 1; cbn; [constructor|]. apply Forall_app. auto. Qed.

Lemma in_concat_map {A B} (f : A → list B) x y l : x ∈ l → y ∈ f x → y ∈ concat (map f l).
Proof.
  intros Hx Hy. apply list_elem_of_In, in_concat. exists (f x). split; [apply in_map|]; by apply list_elem_of_In.
Qed.

#[local] Ltac placed_forall :=
  cbn in *; first [by constructor | constructor; [done|constructor]
    | match goal with H : _ ∧ _ |- _ => destruct H; constructor; [by split; [eexists|]|constructor] end].

(** Placing the effects of a handler. *)
Lemma placed_sound w m p outs :
  world_sound w → handled (w_answers w) m (w_pool w) p outs → world_sound (place_all (with_pool p w) outs).
Proof.
  intros [Hb Hf Hm Ha Hd Hat Hs Ho Hsent Hq] [Hb' Hf' _ Hok [Hmade Hle] _ Hopen Hsend]. rewrite Hf in Hf', Hok.
  rewrite place_all_eq. split; cbn [with_pool w_pool w_mailbox w_asked w_delayed w_attempts w_outs w_answers]; try done.
  - apply Forall_app. split; [done|]. eapply concat_Forall; [|exact Hok]. intros [] Ho'; placed_forall.
  - apply Forall_app. split; [done|]. eapply concat_Forall; [|exact Hok]. intros [] Ho'; placed_forall.
  - apply Forall_app. split; [done|]. eapply concat_Forall; [|exact Hok]. intros [] Ho'; placed_forall.
  - apply Forall_app. split; [done|]. eapply concat_Forall; [|exact Hok]. intros [] Ho'; placed_forall.
  - rewrite map_app, concat_app, Hs, Hmade, <- (Nat.add_0_l (channel_factory (w_pool w))) at 1.
    rewrite <- seq_app. f_equal. lia.
  - intros k tx Hk. destruct (Hopen k tx Hk) as [Hk'|(peer & sorted & ? & ?)].
    + destruct (Ho k tx Hk') as (peer & sorted & ? & ?). exists peer, sorted. split; [apply elem_of_app; by left|done].
    + exists peer, sorted. split; [apply elem_of_app; by right|done].
  - intros tx c packet [Hin|Hin]%elem_of_app.
    + destruct (Hsent tx c packet Hin) as (? & peer & sorted & ? & ?). split; [done|].
      exists peer, sorted. split; [apply elem_of_app; by left|done].
    + destruct (Hsend tx c packet Hin) as (? & k & Hk & Hmeant). split; [done|].
      destruct (Ho k tx Hk) as (peer & sorted & ? & <-). exists peer, sorted. split; [apply elem_of_app; by left|done].
  - intros k c [Hin|Hin]%elem_of_app; [by apply Hq|]. rewrite List.Forall_forall in Hok. by destruct (Hok _ (proj1 (list_elem_of_In _ _) Hin)).
Qed.

(** Placing what the rest of the world sends to the pool. *)
Lemma arrived_sound w outs :
  world_sound w → Forall (out_ok fs (w_answers w)) outs →
  Forall (fun o => match o with ToSelf _ | RemoveNeighbor _ | Progress _ | Discards _ _ => True | _ => False end) outs →
  world_sound (place_all w outs).
Proof.
  intros [Hb Hf Hm Ha Hd Hat Hs Ho Hsent Hq] Hok Hkind. rewrite place_all_eq.
  assert (concat (map asks outs) = [] ∧ concat (map laters outs) = [] ∧ concat (map connects outs) = [] ∧
    concat (map spawned outs) = [] ∧ ∀ tx c packet, ¬ ChannelSend tx c packet ∈ outs) as (-> & -> & -> & Hsp & Hno).
  { clear -Hkind. induction Hkind as [|o outs Ho _ IH] using Forall_ind.
    - split_and!; try done. by intros ??? []%not_elem_of_nil.
    - destruct IH as (IH1 & IH2 & IH3 & IH4 & IH5). cbn. rewrite IH1, IH2, IH3, IH4.
      destruct o; try done; (split_and!; [done..|]); intros tx c packet [?|?]%elem_of_cons; try done; by eapply IH5. }
  rewrite !app_nil_r. split; cbn [w_pool w_mailbox w_asked w_delayed w_attempts w_outs w_answers]; try done.
  - apply Forall_app. split; [done|]. eapply concat_Forall; [|exact Hok]. intros [] Ho'; placed_forall.
  - by rewrite map_app, concat_app, Hsp, app_nil_r.
  - intros k tx Hk. destruct (Ho k tx Hk) as (peer & sorted & ? & ?). exists peer, sorted. split; [apply elem_of_app; by left|done].
  - intros tx c packet [Hin|Hin]%elem_of_app; [|by apply Hno in Hin].
    destruct (Hsent tx c packet Hin) as (? & peer & sorted & ? & ?). split; [done|].
    exists peer, sorted. split; [apply elem_of_app; by left|done].
  - intros k c [Hin|Hin]%elem_of_app; [by apply Hq|]. rewrite List.Forall_forall in Hok. by destruct (Hok _ (proj1 (list_elem_of_In _ _) Hin)).
Qed.

Definition event_ok (e : Event) : Prop :=
  match e with
  | Submit m => bytes_ok (tx_data m)
  | Accepted m => discriminator_factories (as_port_configuration m) ≠ []
  | _ => True
  end.

Lemma elem_of_delete_or {A} (l : list A) i x y : l !! i = Some x → y ∈ l → y = x ∨ y ∈ delete i l.
Proof. intros Hi Hy. rewrite (delete_Permutation l i x Hi) in Hy. by apply elem_of_cons in Hy. Qed.

Lemma opening_more w outs k p : opening k w → opening k (place_all (with_pool p w) outs).
Proof.
  rewrite place_all_eq. intros [(a & ? & ?)|(m & ? & ?)]; [left|right]; eexists; (split; [|done]);
    cbn; apply elem_of_app; by left.
Qed.

(** One thing is taken from where it waits, and the rest stays in order. *)
Lemma taken_sound w i :
  world_sound w →
  world_sound (with_mailbox (delete i (w_mailbox w)) w) ∧ world_sound (with_asked (delete i (w_asked w)) w) ∧
  world_sound (with_delayed (delete i (w_delayed w)) w) ∧ world_sound (with_attempts (delete i (w_attempts w)) w).
Proof. intros [Hb Hf Hm Ha Hd Hat Hs Ho Hsent Hq]. split_and!; split; try done; by apply Forall_delete. Qed.

(** One more answer has been given. *)
Lemma answer_given w r : world_sound w → world_sound (with_answer r w).
Proof.
  intros [Hb Hf Hm Ha Hd Hat Hs Ho Hsent Hq].
  assert (w_answers w ⊆ w_answers (with_answer r w)) as Hsub by (intros x Hx; apply elem_of_app; by left).
  split; try done.
  - eapply Forall_impl; [exact Hm|]. intros m. by apply message_ok_more.
  - eapply Forall_impl; [exact Hd|]. intros m. by apply out_ok_more.
  - eapply Forall_impl; [exact Hat|]. intros a. by apply out_ok_more.
  - intros tx c packet Hin. destruct (Hsent tx c packet Hin) as (? & peer & sorted & ? & ?). split; [done|].
    exists peer, sorted. split; [done|]. by eapply meant_more.
Qed.

Lemma delivered_ok w i alive m : world_ok w → w_mailbox w !! i = Some m →
  ∃ w', happens w (Deliver i alive) = Ret w' ∧ world_ok w' ∧ total w' ≡ₚ total w.
Proof.
  intros [Hs Hop] Hi. cbn [happens]. rewrite Hi.
  destruct (pool_handled (w_answers w) alive m (w_pool w)) as (p & outs & -> & Hh).
  { apply Hs. }
  { eapply Forall_lookup_1; [apply Hs|exact Hi]. }
  cbn [exec_bind fst snd]. eexists. split; [done|]. split; [split|].
  - eapply placed_sound; [by apply taken_sound|exact Hh].
  - intros k Hk. rewrite place_all_eq in Hk. cbn in Hk.
    destruct (hd_opening _ _ _ _ _ Hh k Hk) as [[Hold Hno]|(peer & failure & success & Hc & Hkey)].
    + apply opening_more. destruct (Hop k Hold) as [?|(m' & Hm' & Hr)]; [by left|right]. exists m'. split; [|done].
      destruct (elem_of_delete_or _ _ _ _ Hi Hm') as [->|]; done.
    + rewrite place_all_eq. left. exists (peer, failure, success). split; [|done]. cbn. apply elem_of_app. right.
      eapply in_concat_map; [exact Hc|]. by left.
  - rewrite place_all_total, (hd_contexts _ _ _ _ _ Hh). unfold total, waiting. cbn.
    rewrite (delete_Permutation (w_mailbox w) i m Hi) at 2. cbn. by rewrite <- !app_assoc.
Qed.

(** What the rest of the world does, with what it takes and what it sends. *)
Lemma arrived_ok w w0 outs :
  world_sound w0 → Forall (out_ok fs (w_answers w0)) outs →
  Forall (fun o => match o with ToSelf _ | RemoveNeighbor _ | Progress _ | Discards _ _ => True | _ => False end) outs →
  (∀ k, stream_writers (w_pool w0) !! k = Some None → opening k w0 ∨ ∃ m, ToSelf m ∈ outs ∧ resolves k m) →
  concat (map out_contexts outs) ++ total w0 ≡ₚ total w →
  world_ok (place_all w0 outs) ∧ total (place_all w0 outs) ≡ₚ total w.
Proof.
  intros Hs Hok Hkind Hop Htot. split; [split|].
  - by apply arrived_sound.
  - intros k Hk. rewrite place_all_eq in Hk. cbn in Hk. destruct (Hop k Hk) as [Ho|(m & Hin & Hr)].
    + pose proof (opening_more w0 outs k (w_pool w0) Ho) as Hm. by destruct w0.
    + rewrite place_all_eq. right. exists m. split; [|done]. cbn. apply elem_of_app. right.
      eapply in_concat_map; [exact Hin|]. by left.
  - by rewrite place_all_total.
Qed.

(** A connection attempt ends, and says so to the pool. *)
Lemma attempt_ended w i a outs :
  world_ok w → w_attempts w !! i = Some a → Forall (out_ok fs (w_answers w)) outs →
  Forall (fun o => match o with ToSelf _ | RemoveNeighbor _ | Progress _ | Discards _ _ => True | _ => False end) outs →
  (∃ m, ToSelf m ∈ outs ∧ resolves (stream_writer_key a.1.1) m) → concat (map out_contexts outs) = [attempt_context a] →
  world_ok (place_all (with_attempts (delete i (w_attempts w)) w) outs) ∧
  total (place_all (with_attempts (delete i (w_attempts w)) w) outs) ≡ₚ total w.
Proof.
  intros [Hs Hop] Hi Hok Hkind Hres Hc. apply arrived_ok; [by apply taken_sound|done|done| |].
  - intros k Hk. destruct (Hop k Hk) as [(b & Hb & <-)|?]; [|left; by right].
    destruct (elem_of_delete_or _ _ _ _ Hi Hb) as [->|]; [by right|left; left; by exists b].
  - rewrite Hc. unfold total, waiting. cbn. rewrite (delete_Permutation (w_attempts w) i a Hi) at 2. cbn. solve_Permutation.
Qed.

Lemma happens_ok w e : world_ok w → event_ok e →
  ∃ w', happens w e = Ret w' ∧ world_ok w' ∧ total w' ≡ₚ submitted [e] ++ total w.
Proof.
  intros Hw He. pose proof Hw as [Hs Hop].
  assert (∀ m, message_ok (w_answers w) m → world_ok (with_mailbox (w_mailbox w ++ [m]) w) ∧
      total (with_mailbox (w_mailbox w ++ [m]) w) ≡ₚ message_contexts m ++ total w) as Hmail.
  { intros m Hm. split; [split|].
    - destruct Hs. split; try done. cbn. apply Forall_app. split; [done|]. by constructor.
    - intros k Hk. destruct (Hop k Hk) as [?|(m' & ? & ?)]; [by left|right]. exists m'. split; [|done].
      cbn. apply elem_of_app. by left.
    - unfold total, waiting. cbn. rewrite map_app, concat_app. cbn. rewrite app_nil_r. solve_Permutation. }
  destruct e as [m|m|m|i alive|i r|i|i local|i]; cbn [submitted map concat app]; cbn [happens].
  - eexists. split; [done|]. apply (Hmail (TransmitData m)). split; [done|]. by repeat constructor.
  - eexists. split; [done|]. apply (Hmail (AddStream m)). split; [done|]. constructor.
  - eexists. split; [done|]. apply (Hmail (RemoveStream m)). split; [done|]. constructor.
  - destruct (w_mailbox w !! i) as [m|] eqn:Hi; [|by exists w].
    pose proof (delivered_ok w i alive m Hw Hi) as Hd. cbn [happens] in Hd. by rewrite Hi in Hd.
  - destruct (w_asked w !! i) as [c|] eqn:Hi; [|by exists w]. eexists. split; [done|].
    destruct (Forall_lookup_1 _ _ _ _ (ws_asked _ Hs) Hi) as [[k Hk] Hc].
    apply arrived_ok; [by apply answer_given, taken_sound| |by repeat constructor|intros k' Hk'; left; exact (Hop k' Hk')|].
    + constructor; [|constructor]. split; [|by repeat constructor]. unfold answer_sound. cbn. rewrite Hk.
      apply elem_of_app. right. by left.
    + unfold total, waiting. cbn. rewrite (delete_Permutation (w_asked w) i c Hi) at 2. solve_Permutation.
  - destruct (w_delayed w !! i) as [m|] eqn:Hi; [|by exists w]. eexists. split; [done|].
    destruct (Forall_lookup_1 _ _ _ _ (ws_delayed _ Hs) Hi) as [Ha Hc].
    apply arrived_ok; [by apply taken_sound| |by repeat constructor|intros k' Hk'; left; exact (Hop k' Hk')|].
    + constructor; [|constructor]. split; [done|by repeat constructor].
    + unfold total, waiting. cbn. rewrite (delete_Permutation (w_delayed w) i m Hi) at 2. cbn. solve_Permutation.
  - destruct (w_attempts w !! i) as [[[peer failure] success]|] eqn:Hi; [|by exists w]. eexists. split; [done|].
    destruct (Forall_lookup_1 _ _ _ _ (ws_attempts _ Hs) Hi) as (Ha & Hc & Hp & Hf). cbn in Ha, Hc, Hp, Hf.
    apply (attempt_ended w i _ _ Hw Hi); [|by repeat constructor|eexists; split; [by left|done]|done].
    constructor; [split; [cbn; by rewrite Hf|constructor]|].
    constructor; [split; [done|by repeat constructor]|by repeat constructor].
  - destruct (w_attempts w !! i) as [[[peer failure] success]|] eqn:Hi; [|by exists w]. eexists. split; [done|].
    destruct (Forall_lookup_1 _ _ _ _ (ws_attempts _ Hs) Hi) as (Ha & Hc & Hp & Hf). cbn in Ha, Hc, Hp, Hf.
    apply (attempt_ended w i _ _ Hw Hi); [|by repeat constructor|eexists; split; [by left|cbn; by rewrite Hp]|done].
    constructor; [split; [done|constructor]|by repeat constructor].
Qed.

Lemma run_ok es : ∀ w, world_ok w → Forall event_ok es →
  ∃ w', run_events es w = Ret w' ∧ world_ok w' ∧ total w' ≡ₚ submitted es ++ total w.
Proof.
  induction es as [|e es IH]; intros w Hw Hes; [by exists w|]. apply Forall_cons_1 in Hes as [He Hes].
  destruct (happens_ok w e Hw He) as (w1 & Hstep & Hw1 & Ht1). cbn [run_events]. rewrite Hstep. cbn [exec_bind].
  destruct (IH w1 Hw1 Hes) as (w2 & Hrun & Hw2 & Ht2). exists w2. split_and!; try done.
  rewrite Ht2, Ht1. unfold submitted. cbn [map concat]. rewrite !app_assoc, app_nil_r. f_equiv. apply Permutation_app_comm.
Qed.

Lemma world_new_ok : world_ok (world_new fs).
Proof.
  assert (∀ k v, stream_writers (w_pool (world_new fs)) !! k = Some v → False) as Hnone
    by (intros k v Hk; change (stream_writers (w_pool (world_new fs))) with (∅ : gmap SocketAddr (option nat)) in Hk;
        by rewrite lookup_empty in Hk).
  split; [split; try done|by intros k ?%Hnone].
  - by intros ??? []%not_elem_of_nil.
  - by intros ?? []%not_elem_of_nil.
Qed.
End Invariant.

