(* ===== verification/StreamLink.v ===== *)
(** * From the pool of one node to the reader of another

    The pool's channels, the writers behind them and the readers on the other side
    put together: what is submitted for a neighbour and queued for it is what the
    neighbour's Dispatcher gets.  On the side of the browser, a packet that says
    it is the last ends the channel, whatever is still to come. *)

From Stdlib Require Import ZArith Lia String.
From stdpp Require Import base list numbers option gmap.
From S2P Require Import Prelude CountryFinder NodeRecord SequenceBuffer Hopper Framers ProxyServer StreamReader StreamDelivery StreamWriters StreamPool StreamPoolRun.

Local Open Scope Z_scope.
Local Open Scope rust_scope.
Local Open Scope list_scope.

(** What the pool has sent to a channel, in order. *)
Definition sent_to (tx : nat) (o : PoolOut) : list (TransmitDataMsg * SequencedPacket) :=
  match o with
  | ChannelSend tx' c packet => if (tx' =? tx)%nat then [(c, packet)] else []
  | _ => []
  end.
Definition channel_of (tx : nat) (w : World) : list (TransmitDataMsg * SequencedPacket) :=
  concat (map (sent_to tx) (w_outs w)).

Lemma channel_elem tx w c packet : (c, packet) ∈ channel_of tx w → ChannelSend tx c packet ∈ w_outs w.
Proof.
  unfold channel_of. intros Hin. apply list_elem_of_In, in_concat in Hin as (l & Hl & Hin).
  apply in_map_iff in Hl as (o & <- & Ho). destruct o; try done. cbn in Hin.
  destruct (Nat.eqb_spec channel tx) as [->|]; [|done]. destruct Hin as [[= <- <-]|[]]. by apply list_elem_of_In.
Qed.

Section Link.
Context `{HL : JsonLaws} (env : ReaderEnv) (accepting : ∀ n, accepts env n = true).

Lemma queued_bytes_ok fs es w tx c packet :
  fs ≠ [] → Forall event_ok es → run_events es (world_new fs) = Ret w → (c, packet) ∈ channel_of tx w →
  packet_of c packet ∧ bytes_ok (tx_data c).
Proof.
  intros Hfs Hes Hrun Hin%channel_elem.
  destruct (run_ok fs Hfs es (world_new fs) (world_new_ok fs) Hes) as (w' & Hrun' & [Hs _] & Ht).
  rewrite Hrun in Hrun'. injection Hrun' as <-. split; [by apply Hs in Hin as [? _]|].
  assert (c ∈ submitted es) as Hc.
  { assert (c ∈ total w) as Hc; [|rewrite Ht in Hc; by rewrite app_nil_r in Hc].
    unfold total. apply elem_of_app. right. apply elem_of_app. left.
    eapply in_concat_map; [exact Hin|]. by left. }
  unfold submitted in Hc. apply list_elem_of_In, in_concat in Hc as (l & Hl & Hc).
  apply in_map_iff in Hl as (e & <- & He). rewrite List.Forall_forall in Hes. specialize (Hes e He).
  destruct e; try done. destruct Hc as [<-|[]]. done.
Qed.

(** [C6] What one node gives to its pool for a neighbour is what the neighbour gets:
    over any history of the pool, take a channel on which only messages for a
    neighbour (without numbers) have been queued; when its writer has been given
    the packets, over any polls, and the socket takes what it is given at the
    last of them, and when the bytes that were written arrive at the other node
    cut into reads and polls in any way, then the reader of the other node gives
    its Dispatcher exactly the data of these messages, unmasked, in order and
    once.  No masked message is longer than a mebibyte less one read. *)
Theorem neighbour_link fs es w tx turns t :
  fs ≠ [] → Forall event_ok es → run_events es (world_new fs) = Ret w →
  Forall (fun s => tx_sequence_number_opt s.1 = None ∧
    Z.of_nat (length (data s.2)) + READ_BYTES ≤ JsonFramer.MAX_JSON_FRAME_BYTES) (channel_of tx w) →
  sent_in (turns ++ [t]) = map snd (channel_of tx w) →
  Forall (fun x => tn_closes x = false ∧ Forall is_takes (tn_writes x)) (turns ++ [t]) →
  takes_all (tn_writes t) (map snd (channel_of tx w)) →
  ∃ writer written, run_unsorted (turns ++ [t]) unsorted_new [] = (NotReady, writer, written) ∧
    (Z.of_nat (length written) < 2 ^ 64 - 1 → ∀ polls port peer local,
     Forall (Forall (fun c => c ≠ [] ∧ Z.of_nat (length c) ≤ READ_BYTES)) polls → concat (concat polls) = written →
     ∃ r r' sent,
       reader_new port [JsonDiscriminatorFactory] true peer local = Ret r ∧
       run_polls env (map (map Bytes) polls) r [] = Ret (NotReady, r', sent) ∧
       data_of sent = map (fun s => (None, tx_data s.1)) (channel_of tx w)).
Proof.
  intros Hfs Hes Hrun Hclean Hsent Hturns Htakes.
  destruct (run_unsorted_all t turns unsorted_new [] eq_refl Hturns) as (writer & Hw); [by rewrite Hsent|].
  exists writer. eexists. split; [exact Hw|]. cbn [app unsorted_holds unsorted_new uw_buf uw_rx ch_queue from_option].
  rewrite Hsent. intros Hlen polls port peer local Hpolls Hcat. cbn in Hlen, Hcat.
  assert (bytes_of (map snd (channel_of tx w)) = concat (map (fun s => data s.2) (channel_of tx w))) as Hb
    by (unfold bytes_of; by rewrite map_map).
  rewrite Hb in Hlen, Hcat.
  destruct (masked_messages_read env accepting (map (fun s => tx_data s.1) (channel_of tx w))
      (map (fun s => data s.2) (channel_of tx w)) polls port peer local) as (r & r' & sent & ? & ? & Hd); try done.
  - apply List.Forall_forall. intros d ([c packet] & <- & Hin)%in_map_iff. apply list_elem_of_In in Hin.
    by eapply queued_bytes_ok.
  - rewrite List.Forall_forall in Hclean.
    assert (∀ s, s ∈ channel_of tx w → mask JsonMasquerader (tx_data s.1) = Ret (Ok (data s.2))) as Hmask.
    { intros [c packet] Hin. destruct (queued_bytes_ok fs es w tx c packet Hfs Hes Hrun Hin) as [Hp _].
      apply list_elem_of_In in Hin. destruct (Hclean _ Hin) as [Hn _]. unfold packet_of in Hp. cbn in Hn. rewrite Hn in Hp.
      by destruct Hp as (masked & Hm & ->). }
    clear -Hmask. induction (channel_of tx w) as [|s l IH]; cbn; constructor; [apply Hmask; by left|].
    apply IH. intros s' Hs'. apply Hmask. by right.
  - apply Forall_map. eapply Forall_impl; [exact Hclean|]. by intros s [_ ?].
  - exists r, r', sent. split_and!; try done. by rewrite Hd, map_map.
Qed.
End Link.

(** ** A last packet that overtakes others *)

(** The answer that [handle_transmit_data_msg] makes for a socket. *)
Definition socket_answer (a : SocketAddr) (c : TransmitDataMsg) : DispatcherNodeQueryResponse :=
  mkAnswer (Some (mkMetadata [] (Some (node_addr_of_socket a)) NeighborhoodDb.ZERO_RATE_PACK)) c.

Lemma socket_answer_peer `{HJ : JsonCrate} alive a c p :
  handle_dispatcher_node_query_response alive (socket_answer a c) p =
  let* done_ := send_or_queue_packet alive (socket_answer a c) a (stream_writer_key a) p in
  match done_ with
  | (Err e, p, outs) => Ret (p, outs ++ [Discards e c])
  | (Ok _, p, outs) => Ret (p, outs)
  end.
Proof. by destruct a. Qed.

(** A last packet that overtakes another one ends the response: when the pool
    gets the packet of a browser that says it is the last before an earlier one,
    it queues it and forgets the channel, and the earlier packet is discarded
    when it comes; the writer, which would have put the two in order, finds its
    channel closed and is done without having written either. *)
Theorem overtaken_packets_discarded `{HJ : JsonCrate} alive p tx a last_ early n k writes answer :
  pool_bound p = true → sock_ip a = localhost → stream_writers p !! a = Some (Some tx) → alive tx = true →
  tx_sequence_number_opt last_ = Some n → tx_last_data last_ = true → 0 ≤ k < n → n < MAX_SEQUENCE_REORDER_WINDOW →
  tx_sequence_number_opt early = Some k →
  ∃ p' w,
    pool_handle alive (NodeQueryAnswer (socket_answer a last_)) p = Ret (p', [ChannelSend tx last_ (packet_from last_)]) ∧
    pool_handle alive (NodeQueryAnswer (socket_answer a early)) p' = Ret (p', [Discards LocalConnectionNotFound early]) ∧
    run_sorted [mkTurn [packet_from last_] true writes answer] sorted_new [] = Ret (Ready, w, []).
Proof.
  intros Hb Hip Hk Halive Hn Hlast Hkn Hwin Hearly.
  assert (stream_writer_key a = a) as Hkey by (unfold stream_writer_key; by rewrite Hip).
  exists (with_writers (delete a (stream_writers p)) p). eexists. split_and!.
  - cbn [pool_handle]. rewrite socket_answer_peer, Hkey. unfold send_or_queue_packet. rewrite Hk.
    unfold send_packet_on_open_stream. cbn [socket_answer an_context]. rewrite Hn. cbn [exec_bind]. rewrite Halive, Hlast.
    cbn [exec_bind]. by rewrite Hkey.
  - cbn [pool_handle]. rewrite socket_answer_peer, Hkey. unfold send_or_queue_packet. cbn [with_writers stream_writers].
    rewrite lookup_delete_eq, bool_decide_true by done. done.
  - unfold run_sorted, sorted_poll, read_data_from_channel, channel_after.
    cbn [sorted_new sw_rx ch_queue ch_closed sequence_buffer shutting_down tn_sent tn_closes app orb foldl tn_writes tn_shutdown].
    assert (sequence_number (packet_from last_) = n) as Hsn by (cbn; by rewrite Hn).
    assert (numbered_ok (packet_from last_)) as Hok
      by (unfold numbered_ok; rewrite Hsn; unfold u64_MAX, max_u, MAX_SEQUENCE_REORDER_WINDOW in *; lia).
    pose proof (holds_poll _ _ _ (holds_push _ _ _ _ buffer_holds_new Hok)) as Hpoll.
    rewrite decide_True in Hpoll by (rewrite Hsn; split; [lia|apply lookup_empty]).
    rewrite lookup_insert_ne, lookup_empty in Hpoll by lia.
    unfold write_from_buffer_to_stream. destruct writes; cbn [write_loop sequence_buffer];
      destruct (SequenceBuffer.poll _) as [o b]; cbn in Hpoll; subst o; reflexivity.
Qed.
