(* ===== verification/StreamSamples.v ===== *)
(** * Samples: sockets and what comes from them

    A writer and reader of the masquerade's two structures (the text in
    hexadecimal digits stands for the escaped text), a browser's requests, a
    tunnel, a response in pieces and a neighbour's messages, on which the theorems
    about readers, writers and the pool are applied. *)

From Stdlib Require Import ZArith Lia String Ascii.
From stdpp Require Import base list numbers option gmap.
From S2P Require Import Prelude Text CountryFinder NodeRecord Migrations Hopper ProtocolPack ProtocolHosts Framers HttpFramer HttpFraming ProxyServer ProxyStreams ProxyRun StreamReader StreamSafety StreamDelivery SequenceBuffer StreamWriters StreamPool StreamPoolRun StreamLink.
Import JsonFraming TlsFraming.

Local Open Scope Z_scope.
Local Open Scope rust_scope.
Local Open Scope list_scope.

Module SampleStreams.

(** ** The crates *)

Definition text_prefix : list Z := [123; 34] ++ string_bytes "bodyText" ++ [34; 58; 34].
Definition data_prefix : list Z := [123; 34] ++ string_bytes "bodyData" ++ [34; 58; 34].
Definition written (prefix : list Z) (s : string) : string :=
  bytes_string (prefix ++ string_bytes (to_hex (string_bytes s)) ++ [34; 125]).
Definition read_back (prefix bs : list Z) : option string :=
  if starts_with prefix bs
  then bytes_string <$> from_hex (bytes_string (take (length bs - length prefix - 2) (drop (length prefix) bs)))
  else None.
#[local] Instance json_crate : JsonCrate := {|
  text_to_string s := Ok (written text_prefix (st_bodyText s));
  data_to_string s := Ok (written data_prefix (st_bodyData s));
  from_str s :=
    match read_back text_prefix (string_bytes s), read_back data_prefix (string_bytes s) with
    | Some t, _ => Ok (mkUnmaskStructure (Some t) None)
    | None, Some t => Ok (mkUnmaskStructure None (Some t))
    | None, None => Err Syntax
    end;
  base64_encode := to_hex;
  base64_decode := from_hex;
|}.

(** Letters and digits *)
Definition plain (b : Z) : Prop := 48 ≤ b ≤ 57 ∨ 97 ≤ b ≤ 102.
Lemma hex_plain d : 0 ≤ d < 16 → plain (char_byte (hex_char d)).
Proof.
  intros Hd. unfold plain, hex_char, char_byte. rewrite nat_ascii_embedding by (destruct (d <? 10) eqn:?; lia).
  destruct (Z.ltb_spec d 10); lia.
Qed.
Lemma to_hex_plain bs : bytes_ok bs → Forall plain (string_bytes (to_hex bs)).
Proof.
  induction 1 as [|b bs Hb _ IH] using Forall_ind; [constructor|]. unfold is_byte, in_u in Hb. cbn [to_hex string_bytes].
  constructor; [apply hex_plain; Z.to_euclidean_division_equations; lia|].
  constructor; [apply hex_plain; Z.to_euclidean_division_equations; lia|done].
Qed.
Lemma ascii_valid bs : Forall (fun b => 0 ≤ b < 128) bs → utf8_valid bs = true.
Proof. induction 1 as [|b bs Hb _ IH] using Forall_ind; [done|]. cbn [utf8_valid]. by rewrite (proj2 (Z.ltb_lt _ _)) by lia. Qed.
Lemma plain_ascii bs : Forall plain bs → Forall (fun b => 0 ≤ b < 128) bs.
Proof. intros H. eapply Forall_impl; [exact H|]. unfold plain. intros. lia. Qed.
Lemma plain_chars bs : Forall plain bs → json_chars bs.
Proof.
  induction 1 as [|b bs Hb _ IH] using Forall_ind; constructor; try done; unfold plain, JsonFramer.DQ, JsonFramer.BS in *; lia.
Qed.

(** What is written is an object, and read back. *)
Lemma written_ok name prefix s : (prefix = text_prefix ∧ name = string_bytes "bodyText") ∨ (prefix = data_prefix ∧ name = string_bytes "bodyData") →
  string_bytes (written prefix s) = prefix ++ string_bytes (to_hex (string_bytes s)) ++ [34; 125] ∧
  utf8_valid (string_bytes (written prefix s)) = true ∧ object_text (string_bytes (written prefix s)) ∧
  read_back prefix (string_bytes (written prefix s)) = Some s.
Proof.
  intros Hp. pose proof (to_hex_plain _ (string_bytes_ok s)) as Hhex. set (hex := string_bytes (to_hex (string_bytes s))) in *.
  assert (Forall (fun b => 0 ≤ b < 128) (prefix ++ hex ++ [34; 125])) as Hascii.
  { apply Forall_app. split; [destruct Hp as [[-> _]|[-> _]]; repeat constructor; done|]. apply Forall_app.
    split; [by apply plain_ascii|repeat constructor; done]. }
  assert (string_bytes (written prefix s) = prefix ++ hex ++ [34; 125]) as Hw.
  { apply string_bytes_string. eapply Forall_impl; [exact Hascii|]. unfold is_byte, in_u. intros. lia. }
  rewrite Hw. split; [done|]. split; [by apply ascii_valid|]. split.
  - exists name, hex. split; [|split; [by apply plain_chars|]].
    + destruct Hp as [[_ ->]|[_ ->]]; repeat constructor; done.
    + unfold quoted. destruct Hp as [[-> ->]|[-> ->]]; cbn; by rewrite <- app_assoc.
  - unfold read_back. rewrite (proj2 (starts_with_spec prefix _)) by (by eexists). rewrite drop_app_length.
    replace (length (prefix ++ hex ++ [34; 125]%Z) - length prefix - 2)%nat with (length hex) by (rewrite !length_app; cbn; lia).
    rewrite take_app_length. unfold hex. rewrite bytes_string_bytes, from_hex_to_hex by apply string_bytes_ok. cbn.
    by rewrite bytes_string_bytes.
Qed.
#[local] Instance json_laws : JsonLaws.
Proof.
  split.
  - intros s _. destruct (written_ok _ text_prefix s (or_introl (conj eq_refl eq_refl))) as (Hw & Hu & Ho & Hr). exists (written text_prefix s).
    split; [done|]. split; [done|]. split; [done|]. cbn [from_str json_crate]. by rewrite Hr.
  - intros s _. destruct (written_ok _ data_prefix s (or_intror (conj eq_refl eq_refl))) as (Hw & Hu & Ho & Hr). exists (written data_prefix s).
    split; [done|]. split; [done|]. split; [done|]. cbn [from_str json_crate]. rewrite Hr.
    assert (read_back text_prefix (string_bytes (written data_prefix s)) = None) as ->; [|done]. unfold read_back. by rewrite Hw.
  - intros d Hd. apply ascii_valid, plain_ascii, to_hex_plain, Hd.
  - apply from_hex_to_hex.
Qed.

(** ** Sockets *)

Definition env : ReaderEnv := mkReaderEnv Z.of_nat (fun _ => true).
Definition peer : SocketAddr := mkSocket (IpV4 2130706433) 50001.
Definition local : SocketAddr := mkSocket (IpV4 2130706433) 8443.
Lemma peer_valid : valid_socket peer.
Proof. split; vm_compute; split; congruence. Qed.
Definition crlf_text (s : string) : list Z := string_bytes s ++ CRLF.

(** ** The witnesses *)

(** A reader of the desktop's TLS port, with an error between two reads and the
    end of the stream *)
Lemma reader_survives_witness : ∃ r p r' sent,
  reader_new (Some TLS_PORT) [TlsDiscriminatorFactory; HttpRequestDiscriminatorFactory] false peer local = Ret r ∧
  run_polls env [[Bytes [22; 3]; ReadError Interrupted; Bytes [1]]; [Bytes []]] r [] = Ret (p, r', sent) ∧
  Forall (of_reader (fun _ => True) r) sent.
Proof. apply reader_survives; [done|vm_compute; reflexivity]. Defined.

Definition mobile_configuration : PortConfiguration :=
  mkPortConfiguration [TlsDiscriminatorFactory; HttpRequestDiscriminatorFactory] false (Some TLS_PORT).
Lemma mobile_reader_witness : ∃ r p r' sent,
  reader_new (Some (pc_reception_port mobile_configuration 8443)) (discriminator_factories mobile_configuration)
    (pc_is_clandestine mobile_configuration) peer local = Ret r ∧
  run_polls env [[Bytes [22]; Bytes [22; 3; 1; 0; 1; 1]]; [Bytes []]] r [] = Ret (p, r', sent) ∧
  ∀ m, m ∈ sent →
    match m with
    | ToDispatcher d => expected_message (InboundData d) ∧ from_ibcd d = Ok TLS
    | ToPool m => ∀ report, expected_message (StreamShutdown (mkShutdown (rm_peer_addr m) (rm_stream_type m) report))
    end.
Proof. apply mobile_reader_feeds_proxy; [apply peer_valid|vm_compute; reflexivity|apply lookup_insert_eq]. Defined.


(** A request without a body and one with a body in chunks, in three reads that
    end in the middle of a line, of a chunk's size and of its data *)
Definition get_request : HttpRequest :=
  mkRequest [string_bytes "GET / HTTP/1.1"; string_bytes "Host: a.com"] (Sized []).
Definition post_request : HttpRequest :=
  mkRequest [string_bytes "POST /x HTTP/1.1"; string_bytes "Transfer-Encoding: gzip, Chunked"]
    (Chunked [(string_bytes "5", string_bytes "hello"); (string_bytes "1", [13])]).
Definition sized_request : HttpRequest :=
  mkRequest [string_bytes "PUT /y HTTP/1.1"; string_bytes "content-length: 3"] (Sized [22; 3; 1]).
Definition browser_stream : list Z := texts [get_request; post_request; sized_request].

Lemma line_fine l : forallb (fun b => negb (b =? 13)) l = true → l ≠ [] → no_cr l ∧ l ≠ [].
Proof.
  intros H Hne. split; [|done]. rewrite forallb_forall in H. apply List.Forall_forall. intros b Hb ->.
  by specialize (H 13 Hb).
Qed.
Ltac lines_fine := repeat (constructor; [apply line_fine; [vm_compute; reflexivity|discriminate]|]); constructor.

Lemma get_well_formed : well_formed get_request.
Proof.
  split; [exists (string_bytes "GET"); eexists _, _; split; [reflexivity|by left]|]. split; [lines_fine|].
  split; [vm_compute; discriminate|]. split; [repeat constructor; vm_compute; reflexivity|]. left. split; reflexivity.
Qed.
Lemma post_well_formed : well_formed post_request.
Proof.
  split; [exists (string_bytes "POST"); eexists _, _; split; [reflexivity|by right; right; left]|]. split; [lines_fine|].
  split; [vm_compute; discriminate|]. split; [vm_compute; reflexivity|].
  split; [right; left; vm_compute; reflexivity|]. split.
  - repeat constructor; vm_compute; congruence || lia.
  - repeat constructor; intros value [= <-]; eexists; vm_compute; reflexivity.
Qed.
Lemma sized_well_formed : well_formed sized_request.
Proof.
  split; [exists (string_bytes "PUT"); eexists _, _; split; [reflexivity|by right; right; right; left]|]. split; [lines_fine|].
  split; [vm_compute; discriminate|]. split; [repeat constructor; vm_compute; reflexivity|]. right.
  exists [51]. split; vm_compute; reflexivity.
Qed.

Definition browser_polls : list (list (list Z)) :=
  [[take 10 browser_stream; take 90 (drop 10 browser_stream)]; [drop 100 browser_stream]].
Lemma requests_delivered_witness : ∃ r r' sent chunks,
  reader_new (Some HTTP_PORT) [HttpRequestDiscriminatorFactory] false peer local = Ret r ∧
  run_polls env (map (map Bytes) browser_polls) r [] = Ret (NotReady, r', sent) ∧
  data_of sent = numbered true 0 chunks ∧ concat chunks = texts [get_request; post_request; sized_request].
Proof.
  apply requests_delivered.
  - reflexivity.
  - constructor; [apply get_well_formed|]. constructor; [apply post_well_formed|]. constructor; [apply sized_well_formed|constructor].
  - repeat (constructor; [repeat (constructor; [vm_compute; discriminate|]); constructor|]). constructor.
  - vm_compute. reflexivity.
  - vm_compute. reflexivity.
Defined.

(** A tunnel: the request in two reads, the second with the first record and the
    header of the next *)
Definition connect : HttpRequest := mkRequest [string_bytes "CONNECT a.com:443 HTTP/1.1"; string_bytes "Host: a.com"] (Sized []).
Definition records : list (list Z) := [[22; 3; 1; 0; 2; 1; 2]; [23; 3; 3; 0; 3; 9; 9; 9]].
Definition tunnel_stream : list Z := request_text connect ++ concat records.
Definition tunnel_polls : list (list (list Z)) := [[take 5 tunnel_stream]; [take 50 (drop 5 tunnel_stream); drop 55 tunnel_stream]].
(** Every suffix of [l] *)
Fixpoint tails {A} (l : list A) : list (list A) := match l with [] => [[]] | _ :: l' => l :: tails l' end.
Lemma suffix_tails {A} (s l : list A) : s `suffix_of` l → s ∈ tails l.
Proof.
  intros [k ->]. induction k as [|x k IH]; cbn; [|by right]. destruct s; by left.
Qed.
Lemma cut_well_checked reads recs :
  forallb (fun r => forallb (fun s => negb ((length (concat r) <? length (concat s)) && (length (concat s) <=? length (concat r) + 3))%nat)
    (tails recs)) (tails reads) = true → cut_well reads recs.
Proof.
  intros H r s Hr%suffix_tails%list_elem_of_In Hs%suffix_tails%list_elem_of_In Hbad.
  rewrite forallb_forall in H. specialize (H r Hr). rewrite forallb_forall in H. specialize (H s Hs).
  apply negb_true_iff, andb_false_iff in H as [H|H]; [apply Nat.ltb_ge in H|apply Nat.leb_gt in H]; lia.
Qed.
Lemma records_fine : Forall tls_record records.
Proof.
  constructor; [exists 22, 1, [1; 2]; split_and!; [reflexivity..|by left|reflexivity]|].
  constructor; [exists 23, 3, [9; 9; 9]; split_and!; [reflexivity..|by right|reflexivity]|]. constructor.
Qed.
Lemma connect_fine : connect_request connect.
Proof.
  split; [|split; reflexivity]. split; [exists (string_bytes "CONNECT"); eexists _, _; split; [reflexivity|]|].
  { apply list_elem_of_In. vm_compute. tauto. }
  split; [lines_fine|]. split; [vm_compute; discriminate|]. split; [|left; split; reflexivity].
  repeat (constructor; [vm_compute; reflexivity|]). constructor.
Qed.
Lemma tunnel_delivered_witness : ∃ r r' sent,
  reader_new (Some TLS_PORT) [TlsDiscriminatorFactory; HttpRequestDiscriminatorFactory] false peer local = Ret r ∧
  run_polls env (map (map Bytes) tunnel_polls) r [] = Ret (NotReady, r', sent) ∧
  data_of sent = (Some 0, request_text connect) :: numbered true 0 records.
Proof.
  apply (tunnel_delivered env ltac:(reflexivity) connect records).
  - apply connect_fine.
  - apply records_fine.
  - repeat (constructor; [repeat (constructor; [vm_compute; discriminate|]); constructor|]). constructor.
  - vm_compute. reflexivity.
  - apply cut_well_checked. vm_compute. reflexivity.
  - vm_compute. reflexivity.
Defined.

(** The first bytes of a record alone *)
Definition tunnel_reader : StreamReaderReal :=
  mkReader local peer (Some TLS_PORT) [mkDiscriminator (FTls TlsFramer.new) [NullMasquerader]; http_discriminator http_new] false
    (mkSequencer 0) None.
Lemma short_read_forgotten_witness :
  wrangle_discriminators env [22; 3; 1] tunnel_reader [] = Ret (Ok (), tunnel_reader, []).
Proof. apply (short_read_forgotten env tunnel_reader [] [22; 3; 1] TlsFramer.new); [cbn; lia|reflexivity..]. Defined.

(** The header of a chunk with an extension, up to its CR *)
Definition chunk_extension : list Z := string_bytes ";name=value".

Lemma split_chunk_header_lost_witness :
  http_take_frame (at_chunk ((string_bytes "5" ++ chunk_extension) ++ [13]) SeekingLengthHeader None)
  = Ret (None, at_chunk (string_bytes "me=value" ++ [13]) SeekingLengthHeader None).
Proof.
  apply (split_chunk_header_lost (string_bytes "5") 5 chunk_extension);
    [split; [discriminate|split; [vm_compute; lia|reflexivity]]|lia|reflexivity|vm_compute; lia|reflexivity].
Defined.

(** ** Writers *)

(** A response of three packets, the second of them first; the socket takes a
    byte, fails once, and takes the rest. *)
Definition response_packets : list SequencedPacket :=
  [mkPacket (string_bytes "ab") 0 false; mkPacket (string_bytes "c") 1 false; mkPacket (string_bytes "def") 2 true].
Definition first_turn : Turn :=
  mkTurn [mkPacket (string_bytes "c") 1 false; mkPacket (string_bytes "ab") 0 false] false [Takes 1] ShutdownReady.
Definition failing_turn : Turn := mkTurn [mkPacket (string_bytes "c") 1 false] false [WriteError Interrupted; Takes 1] ShutdownReady.
Definition last_turn : Turn := mkTurn [mkPacket (string_bytes "def") 2 true] false [Takes 9; Takes 9; Takes 9] ShutdownReady.

Lemma browser_bytes_in_order_witness :
  ∃ p w written, run_sorted [first_turn; failing_turn; last_turn] sorted_new [] = Ret (p, w, written) ∧
    in_order (sent_in [first_turn; failing_turn; last_turn]) written.
Proof. apply browser_bytes_in_order. repeat constructor; vm_compute; congruence. Defined.

Lemma response_fine : response response_packets.
Proof. split; [vm_compute; reflexivity|vm_compute; discriminate|repeat constructor; vm_compute; congruence]. Qed.

(** Two packets and then the last one *)
Definition first_burst : Burst :=
  mkBurst (take 2 response_packets) [first_turn] (mkTurn [] false [Takes 9; Takes 9] ShutdownReady).
Definition last_burst : Burst := mkBurst (drop 2 response_packets) [] last_turn.

Lemma browser_gets_response_witness :
  ∃ p w, run_sorted (concat (map burst_turns ([first_burst] ++ [last_burst]))) sorted_new [] =
    Ret (p, w, string_bytes "abcdef") ∧ shutting_down w = true.
Proof.
  apply (browser_gets_response response_packets [first_burst] last_burst).
  - apply response_fine.
  - reflexivity.
  - constructor; [|constructor]. split; [|reflexivity]. split; [vm_compute; apply perm_swap|vm_compute; discriminate| |].
    + repeat constructor.
    + split; [vm_compute; lia|]. repeat constructor; vm_compute; lia.
  - split; [vm_compute; reflexivity|vm_compute; discriminate|constructor|].
    split; [vm_compute; lia|]. repeat constructor; vm_compute; lia.
Defined.

(** One packet more than the window *)
Definition backlog : list SequencedPacket := map (fun i => mkPacket [7] i false) (seqZ 0 4097).
Lemma backlog_length : length backlog = 4097%nat.
Proof. vm_compute. reflexivity. Qed.
Lemma backlog_loses_packets_witness :
  ∃ p w, run_sorted [mkTurn backlog false [] ShutdownReady; mkTurn [] false (map (fun _ => Takes 1) backlog) ShutdownReady] sorted_new []
         = Ret (p, w, bytes_of (take 4096 backlog)) ∧ shutting_down w = false.
Proof.
  apply backlog_loses_packets.
  - vm_compute. reflexivity.
  - rewrite backlog_length. lia.
  - apply List.Forall_forall. intros p (i & <- & _)%in_map_iff. reflexivity.
  - split; [by rewrite length_map|]. apply List.Forall_forall. intros x (q & <- & _)%in_map_iff.
    apply List.Forall_forall. intros p (i & <- & _)%in_map_iff. cbn. lia.
Defined.

(** ** The pool *)

(** A neighbour that is not connected, two packages for it, and a browser whose
    connection is gone *)
Definition neighbour : SocketAddr := mkSocket (IpV4 16909060) 5000.
Definition package (d : list Z) : TransmitDataMsg := mkTransmit (EpKey [1; 2]) false None d.
Definition everything_alive : nat → bool := fun _ => true.
Definition found : option NodeQueryResponseMetadata :=
  Some (mkMetadata [1; 2] (Some (node_addr_of_socket neighbour)) NeighborhoodDb.ZERO_RATE_PACK).
Definition pool_events : list Event :=
  [Submit (package (string_bytes "{}")); Submit (package [255; 0; 34]); Submit (mkTransmit (EpSocket peer) false (Some 0) [1]);
   Deliver 0 everything_alive; Deliver 0 everything_alive; Deliver 0 everything_alive; Deliver 0 everything_alive;
   Answered 0 found; Answered 0 found; Deliver 0 everything_alive; Deliver 0 everything_alive; Deliver 0 everything_alive;
   Connected 0 (mkSocket (IpV4 1) 40000); Deliver 0 everything_alive; Deliver 0 everything_alive; TimerFires 0; Deliver 0 everything_alive].
Lemma pool_events_ok : Forall event_ok pool_events.
Proof. repeat (constructor; [first [exact I|repeat constructor; vm_compute; congruence]|]). constructor. Qed.

Definition pool_after : World :=
  match run_events pool_events (world_new [JsonDiscriminatorFactory]) with
  | Ret w => w
  | Panic => world_new []
  end.

Example pool_sample : map fst (channel_of 0 pool_after) = [package (string_bytes "{}"); package [255; 0; 34]] ∧
  waiting pool_after = [] ∧ discarded pool_after = [mkTransmit (EpSocket peer) false (Some 0) [1]].
Proof. vm_compute. split_and!; reflexivity. Qed.

(** The packages on their way: the first is written in two parts, and they are
    read in three pieces over two polls. *)
Definition link_turns : list Turn := [mkTurn (take 1 (map snd (channel_of 0 pool_after))) false [Takes 5] ShutdownReady].
Definition link_last : Turn := mkTurn (drop 1 (map snd (channel_of 0 pool_after))) false [Takes 99; Takes 99] ShutdownReady.
Definition link_bytes : list Z := bytes_of (map snd (channel_of 0 pool_after)).
Definition link_polls : list (list (list Z)) := [[take 5 link_bytes]; [take 18 (drop 5 link_bytes); drop 23 link_bytes]].
Lemma link_written : (run_unsorted (link_turns ++ [link_last]) unsorted_new []).2 = concat (concat link_polls).
Proof. vm_compute. reflexivity. Qed.
Lemma neighbour_link_witness : ∃ r r' sent,
  reader_new None [JsonDiscriminatorFactory] true peer local = Ret r ∧
  run_polls env (map (map Bytes) link_polls) r [] = Ret (NotReady, r', sent) ∧
  data_of sent = [(None, string_bytes "{}"); (None, [255; 0; 34])].
Proof.
  destruct (neighbour_link env ltac:(reflexivity) [JsonDiscriminatorFactory] pool_events pool_after 0 link_turns link_last)
    as (writer & written & Hw & Hread).
  - discriminate.
  - apply pool_events_ok.
  - vm_compute. reflexivity.
  - vm_compute. repeat (constructor; [split; [reflexivity|discriminate]|]). constructor.
  - vm_compute. reflexivity.
  - repeat (constructor; [split; [reflexivity|repeat constructor]|]). constructor.
  - vm_compute. split; [lia|]. repeat (constructor; [repeat (constructor; [lia|]); constructor|]). constructor.
  - assert (written = concat (concat link_polls)) as -> by (rewrite <- link_written, Hw; reflexivity).
    destruct (Hread ltac:(vm_compute; reflexivity) link_polls None peer local) as (r & r' & sent & Hr & Hp & Hd); [|reflexivity|].
    + repeat (constructor; [repeat (constructor; [split; vm_compute; discriminate|]); constructor|]). constructor.
    + exists r, r', sent. split; [exact Hr|]. split; [exact Hp|]. rewrite Hd. vm_compute. reflexivity.
Defined.

(** A browser's last packet before the one in front of it *)
Definition browser_pool : StreamHandlerPool := mkPool {[peer := Some O]} 1 true [JsonDiscriminatorFactory].
Definition numbered_packet (n : Z) (last : bool) : TransmitDataMsg := mkTransmit (EpSocket peer) last (Some n) [n].
Lemma overtaken_witness : ∃ p' w,
  pool_handle everything_alive (NodeQueryAnswer (socket_answer peer (numbered_packet 1 true))) browser_pool
    = Ret (p', [ChannelSend 0 (numbered_packet 1 true) (mkPacket [1] 1 true)]) ∧
  pool_handle everything_alive (NodeQueryAnswer (socket_answer peer (numbered_packet 0 false))) p'
    = Ret (p', [Discards LocalConnectionNotFound (numbered_packet 0 false)]) ∧
  run_sorted [mkTurn [mkPacket [1] 1 true] true [Takes 9] ShutdownReady] sorted_new [] = Ret (Ready, w, []).
Proof.
  apply (overtaken_packets_discarded everything_alive browser_pool 0 peer (numbered_packet 1 true) (numbered_packet 0 false) 1 0);
    first [reflexivity|vm_compute; lia|lia].
Defined.

End SampleStreams.
